(* ===== verification/_CoqProject ===== *)
-Q . S2P
Prelude.v
JsNumber.v
JsString.v
DiffDisplay.v
JsMap.v
Truncate.v
EditDiff.v
EditDiffTheorems.v
Framing.v
CborValue.v
CborEncoder.v
CborDecoder.v
Cbor.v
Codec.v
SessionTypes.v
Client.v
ClientTheorems.v
Server.v
ServerOwnership.v
ServerTheorems.v
ServerRequests.v
JsonText.v
Messages.v
SessionContext.v
Retry.v
Overflow.v
Prompts.v
Compaction.v
CompactionTheorems.v
SessionState.v
FileSystem.v
MutationQueue.v
MutationQueueTheorems.v
EditTool.v
StdinBuffer.v
StdinBufferTheorems.v
SessionManager.v
SessionManagerTheorems.v
SessionBranches.v
JsonlCodec.v
SessionInvariant.v
SessionQueries.v
SessionFork.v
SessionHistory.v
SessionStorage.v
JsonPayload.v
Session.v
SessionTheorems.v
BranchSummary.v
JsonlStorage.v
JsonlTheorems.v
Reducer.v
ReducerTheorems.v
AgentLoop.v
AgentLoopTheorems.v
AgentLoopTermination.v
EventStream.v
AgentLoopTracking.v
Agent.v
AgentTheorems.v
AgentSession.v
AgentSessionRuns.v
AgentSessionTheorems.v
IpAddress.v
AddressText.v
SsrfProtection.v
SsrfTheorems.v
