(* ===== verification/Prelude.v ===== *)
(** * Euler agent harness: a verification development

    Euler is an agent that drives a language model from a terminal.  Its harness
    ([packages/agent]) runs the loop of model calls and tool calls over a session, a
    tree of entries with lanes that records what each lane was doing so that a crash
    can be recovered from; sessions live in memory or in a file of JSON lines.  A
    server and its clients exchange CBOR messages in length-prefixed frames
    ([packages/protocol]).  Providers deliver responses as event streams
    ([packages/ai]), and the application ([packages/coding-agent]) keeps sessions in
    files of its own and lets the model fetch pages, guarded against reaching the
    private network.  This library models
    these parts as executable definitions that follow the TypeScript line by line and
    proves what makes them correct.

    ** Conventions

    JavaScript strings are lists of UTF-16 code units ([jsstring], 0 to 65535);
    numbers are exact where the code only makes integers of them and [jsnum] (a
    dyadic value, an infinity or NaN) where it may meet any; bytes are integers from 0
    to 255; a [Map] or an object read by key is an association list in insertion order
    ([JsMap]) or a [gmap] where the order is not observed.  A function that may throw
    returns a [result] whose error type enumerates its [throw] sites.  Objects whose
    identity matters (payloads with cycles, values being encoded) live in an explicit
    heap.  Asynchronous code is a sequence of steps: an operation that a queue
    serialises is one step, and where steps interleave the order is an argument
    (schedules of the agent loop, actions of an event stream).

    ** Files

    Foundations
    - [Prelude]: results, record update, lemmas on lists and options, tactics.
    - [JsNumber]: IEEE doubles as far as needed, [ToInteger], 32-bit operations.
    - [JsString]: strings, UTF-8 and back as [TextEncoder] and [TextDecoder] do it.
    - [JsMap]: insertion-ordered maps.
    - [JsonText]: [JSON.stringify] and [JSON.parse], numbers included.

    Protocol (packages/protocol/src)
    - [Framing]: framing.ts, the incremental [FrameDecoder] against a reference that
      cuts the whole input at once.
    - [CborValue], [CborEncoder], [CborDecoder], [Cbor]: cbor/*.ts; the encoder over a
      heap of JavaScript values, the decoder over bytes, and what they guarantee
      together.
    - [Codec]: codec.ts, the message codecs built from the two.
    - [Client], [ClientTheorems]: packages/client, the connection to a server and the
      requests over it; a transport or a listener may call the client back whenever the
      client calls it.

    - [Server], [ServerOwnership], [ServerTheorems], [ServerRequests]: packages/server,
      connections and the sessions they share, as tasks that wait and events; the
      specification of who holds a runtime, which the server refines; its requests.

    Sessions (packages/agent/src/harness)
    - [SessionTypes], [Messages], [SessionContext]: types.ts, messages.ts,
      session/context.ts; entries, records, and the request built from a branch.
    - [Retry]: retry.ts of packages/ai, the retries of a call to a provider; [Overflow]:
      its overflow.ts, the errors that say a context is too large; [Prompts],
      [Compaction], [CompactionTheorems], [BranchSummary]: compaction/*.ts, what is
      summarised and kept when a context grows too large or a branch is left.
    - [SessionState], [SessionInvariant], [SessionQueries], [SessionFork]:
      session/state.ts; mutations, queries, forks, and the invariant that a state is
      the fold of its log.  [SessionHistory]: which log may follow which, and what it says
      of entries, lanes, labels and open operations, apart from the functions that fold it.
    - [SessionStorage]: the storage interface as a class, session/memory.ts as an
      instance, and what its operations write or refuse to write.
    - [JsonPayload], [Session], [SessionTheorems]: session/session.ts.
    - [FileSystem]: the file system interface of types.ts as a class with laws, and a
      memory file system that fails and tears writes as a plan says.
    - [JsonlCodec], [JsonlStorage], [JsonlTheorems]: session/jsonl/*.ts.
    - [Reducer], [ReducerTheorems]: reducer.ts, recovery of a lane.
    - [Truncate]: utils/truncate.ts.
    - [EditDiff], [EditDiffTheorems], [DiffDisplay]: tools/edit-diff.ts.
    - [MutationQueue], [MutationQueueTheorems], [EditTool]: file-mutation-queue.ts,
      path-utils.ts, edit.ts and write.ts of tools; tools are programs that interleave at
      their calls of the environment.

    Agent loop (packages/agent/src/agent-loop.ts, packages/ai/src/utils)
    - [AgentLoop], [AgentLoopTheorems], [AgentLoopTermination].
    - [EventStream]: event-stream.ts, and the stream [agentLoop] returns.
    - [AgentLoopTracking]: a relation on worlds that every call out of the loop keeps is
      kept by the loop; [Agent], [AgentTheorems]: agent.ts, the object that owns the
      transcript and the queues, whose host may use it during a run.

    Sessions of the application (packages/coding-agent/src/core/session-manager.ts)
    - [SessionManager]: the entries as they are parsed, the manager, its disk and its
      operations; [SessionManagerTheorems]: what the file holds; [SessionBranches]: the
      sessions cut out of a path.

    The agent session of the application (packages/coding-agent/src/core/agent-session.ts)
    - [AgentSession]: the agent with its listener, queues, retries and recoveries from an
      overflow, for any extensions and any settings, which may call the session back;
      [AgentSessionRuns]: relations that every call keeps; [AgentSessionTheorems]: the
      protocol of retries and recoveries, and that retries end.

    Terminal (packages/tui/src)
    - [StdinBuffer], [StdinBufferTheorems]: stdin-buffer.ts, which puts input together,
      against a grammar of what terminals send.

    Fetch guard (packages/coding-agent/src/extensions/web-access)
    - [IpAddress], [SsrfProtection], [SsrfTheorems]: ssrf-protection.ts and the proxy
      tests of utils.ts; [AddressText]: the notation of addresses and ranges, apart from
      their parsers.

    How they meet: [Session] uses a storage by the class of [SessionStorage], of which the
    storages in memory and in files are instances; [JsonlTheorems] relates
    the file to the state of [SessionState]; [Codec] composes [Cbor] and [Framing]; [Messages] and
    [SessionContext] feed [AgentLoop]; [Reducer] reads the records [SessionState]
    keeps; [EditTool] runs the functions of [EditDiff] in the turns of [MutationQueue];
    [Compaction] cuts what [SessionContext] shows; [Agent] runs [AgentLoop] in a world that holds the agent itself,
    and [AgentSession] runs [Agent]; [EventStream] carries the events whose protocol [AgentLoopTheorems] proves.

    ** What is proved

    - Framing (C1, C2): any split of the input gives the frames of the reference cut;
      round trip.
    - File tools (C3): concurrent edits and writes of a file take turns, when no path names
      a new file in a directory reached by a link.
    - Agent (C4): what a run leaves behind: the transcript, the queues, the idle state.
    - CBOR (C5-C8): which values are accepted; round trip; whatever decodes is
      well-formed and canonical; termination within the depth limit.
    - Terminal input (C9): one event for each key, sequence and paste, however the input
      is cut; what is incomplete is handed out by the timer.
    - Sessions of the application (C11, C14, C28): a session cut out of a path keeps its
      context; a file gives the session back, and, once it has been written, loses no more
      than the line that was cut off.
    - Compaction (C10, C16): what a compaction summarises and keeps; what leaving a
      branch abandons and how much of it is summarised.
    - Server (C15, C27): every request answered once; one runtime per session, disposed
      once.
    - Sessions (C12, C13, C17-C19): the payload check accepts exactly the acyclic plain data and
      ends; a log opens exactly when each of its mutations may follow those before it, to the state that it describes; forks; what each operation of a session writes and when it refuses; open operations.
    - Recovery (C20-C23): which logs are accepted, independence of the order of
      unrelated records, pending queues, tool batches.
    - Edit tool (C25): what edits change, exactly or in the normalised view.
    - Agent loop (C24, C26, C31): the protocol of events under every environment and
      schedule; every tool call answered once; termination.
    - Client (C29, C30): what ends a connection; every promise settled once.
    - Codec (C32-C34) and session files (C35-C37): round trips, refinement of the
      in-memory storage, recovery after failed and torn writes.
    - Truncation (C38), fetch guard (C39), event streams (C40).

    ** Fuel and bounds

    Loops that are not structural take fuel: the depth limit plus one for CBOR, one
    more than the bytes at hand for frames, the length of the text for JSON, the
    number of entries for walks to the root
    (in the application's sessions a walk that does not end has no result), the remaining redirects for fetches.  The
    theorems of termination (C8, C12, C31) and the lemmas next to the other
    loops show that this is enough.  The agent loop runs as long as the model asks for
    tools; its fuel is the number of turns, and C31 shows that there is enough of it for
    a run whose stop hook limits its messages.  The depth of the client's runs is how
    deep calls back nest, and is any number.

    ** Parameters

    Code outside the repository is a parameter with its documented behaviour as a
    hypothesis: the schema evaluator of the codec, [Guard.IsDeepEqual], Node's
    [net.isIP], [toLowerCase], [normalize("NFKC")], the URL parser, DNS and [fetch], the environment
    variables, the transport and the listeners of the client, the service and the runtimes
    of the server, the line difference and patches of the diff package, the provider stream and
    the model that writes summaries, timers, clocks and identifiers, tools and hooks.
    [FileEnvLaws] says what paths of an environment denote.  The hypothesis
    [created_in_place] of C3 leaves out a new file in a directory reached by a link, where
    the code's keys change.  The extensions, settings and agent tools of [AgentSession] are
    an interface of callbacks.  The typed view of the payload of
    an entry in a session file ([PayloadJson]) is a parameter too.

    ** Not modelled, and why

    The manifest lists every part of the system.  Beyond what is listed there: texts
    of error messages; a write torn inside a UTF-8 sequence (files are texts of code
    units, torn between any two); [-0] as a timestamp; the atomicity of queued storage
    operations, which the promise queues provide; an answer of DNS that changes
    between the check of a URL and the connection to it, which the code cannot see;
    [agentLoop] whose run is rejected (its stream is then never ended by the code).
    Left to later work: [jsonl/repo.ts], the tools that read and run, the
    lists of session files of the application, the leases of the client, most utilities of
    [packages/ai] and the pure pieces of the terminal interface. *)

From stdpp Require Export prelude list strings gmap.
From Stdlib Require Export ZArith Lia.

#[global] Open Scope Z_scope.

(** ** Results and exceptions

    A JavaScript function that may [throw] is a function into [result]; the
    error type of a component enumerates its [throw] sites. *)

Inductive result (E A : Type) : Type :=
| Ok (a : A)
| Err (e : E).
Arguments Ok {E A} a.
Arguments Err {E A} e.

#[export] Instance result_ret (E : Type) : MRet (result E) := λ A a, Ok a.
#[export] Instance result_bind (E : Type) : MBind (result E) := λ A B f m,
  match m with Ok a => f a | Err e => Err e end.
#[export] Instance result_fmap (E : Type) : FMap (result E) := λ A B f m,
  match m with Ok a => Ok (f a) | Err e => Err e end.

Definition is_ok {E A} (r : result E A) : bool :=
  match r with Ok _ => true | Err _ => false end.

Definition map_err {E F A} (f : E → F) (r : result E A) : result F A :=
  match r with Ok a => Ok a | Err e => Err (f e) end.

#[export] Instance result_eq_dec `{EqDecision E, EqDecision A} : EqDecision (result E A).
Proof. solve_decision. Defined.

(** A guard [if (!b) throw e]. *)
Definition guard_or {E} (b : bool) (e : E) : result E unit :=
  if b then Ok () else Err e.

Section Result.
Context {E A B : Type}.

Lemma bind_Ok (f : A → result E B) (m : result E A) (b : B) :
  m ≫= f = Ok b ↔ ∃ a, m = Ok a ∧ f a = Ok b.
Proof.
  destruct m as [a|e]; cbn; naive_solver.
Qed.

Lemma bind_Err (f : A → result E B) (m : result E A) (e : E) :
  m ≫= f = Err e ↔ m = Err e ∨ ∃ a, m = Ok a ∧ f a = Err e.
Proof. destruct m as [a|e']; cbn; naive_solver. Qed.

Lemma guard_or_Ok (b : bool) (e : E) (u : unit) : guard_or b e = Ok u ↔ b = true.
Proof. destruct b, u; cbn; naive_solver. Qed.

Lemma bind_assoc {C} (f : A → result E B) (g : B → result E C) (m : result E A) :
  (m ≫= f) ≫= g = m ≫= (λ a, f a ≫= g).
Proof. by destruct m. Qed.
End Result.

(** ** Record update

    [r <| f := v |>] is the object [r] with its field [f] assigned.  A record
    declares its eta-expansion once as an instance of [Eta]. *)

Class Eta (R : Type) := eta : R → R.
Class SetField {R E : Type} (proj : R → E) := set_field : E → R → R.
Arguments set_field {R E} proj {_} v r : simpl nomatch.

Ltac derive_setter R E proj :=
  exact (fun (v : E) (r : R) => ltac:(
    let b := eval hnf in (@eta R _ r) in
    let p := eval pattern (proj r) in b in
    match p with
    | ?f _ => let t := eval cbv beta in (f v) in exact t
    end)).

#[export] Hint Extern 1 (@SetField ?R ?E ?proj) => derive_setter R E proj : typeclass_instances.

Declare Scope record_scope.
Notation "r <| f := v |>" := (set_field f v r)
  (at level 1, left associativity, f at level 0, v at level 200,
   format "r  <|  f  :=  v  |>") : record_scope.
#[global] Open Scope record_scope.

(** ** Arrays

    JavaScript lengths and indices are the integers of [Z]. *)

Definition zlen {A} (l : list A) : Z := Z.of_nat (length l).

(** [l.subarray(a, b)] / [l.slice(a, b)] for in-range non-negative bounds. *)
Definition subarray {A} (l : list A) (a b : Z) : list A :=
  take (Z.to_nat (b - a)) (drop (Z.to_nat a) l).

(** [target.set(source, offset)] on a typed array, for an in-range write. *)
Definition array_set {A} (target source : list A) (offset : Z) : list A :=
  take (Z.to_nat offset) target ++ source
  ++ drop (Z.to_nat offset + length source) target.

(** Element [i] of a typed array, [0] standing for an absent element. *)
Definition byte_at (l : list Z) (i : nat) : Z := default 0 (l !! i).

Section Arrays.
Context {A : Type}.
Implicit Types l k : list A.

Lemma zlen_nil : zlen (@nil A) = 0.
Proof. done. Qed.
Lemma zlen_cons a l : zlen (a :: l) = 1 + zlen l.
Proof. unfold zlen; cbn [length]; lia. Qed.
Lemma zlen_app l k : zlen (l ++ k) = zlen l + zlen k.
Proof. unfold zlen. rewrite length_app. lia. Qed.
Lemma zlen_nonneg l : 0 ≤ zlen l.
Proof. unfold zlen; lia. Qed.
Lemma zlen_replicate n (a : A) : zlen (replicate n a) = Z.of_nat n.
Proof. unfold zlen. by rewrite length_replicate. Qed.
Lemma zlen_take n l : zlen (take n l) = Z.min (Z.of_nat n) (zlen l).
Proof. unfold zlen. rewrite length_take. lia. Qed.
Lemma zlen_drop n l : zlen (drop n l) = Z.max 0 (zlen l - Z.of_nat n).
Proof. unfold zlen. rewrite length_drop. lia. Qed.
Lemma zlen_0 l : zlen l = 0 → l = [].
Proof. destruct l; [done|]. rewrite zlen_cons. pose proof (zlen_nonneg l). lia. Qed.

Lemma array_set_length l k o :
  0 ≤ o → o + zlen k ≤ zlen l → zlen (array_set l k o) = zlen l.
Proof.
  intros. unfold array_set. rewrite !zlen_app, zlen_take, zlen_drop. unfold zlen in *. lia.
Qed.

(** Writing right after a prefix extends the prefix by what was written. *)
Lemma take_array_set l k o :
  0 ≤ o → o + zlen k ≤ zlen l →
  take (Z.to_nat (o + zlen k)) (array_set l k o) = take (Z.to_nat o) l ++ k.
Proof.
  intros. unfold array_set. rewrite app_assoc. apply take_app_length'.
  rewrite length_app, length_take. unfold zlen in *. lia.
Qed.

Lemma subarray_full l : subarray l 0 (zlen l) = l.
Proof. unfold subarray, zlen. cbn. rewrite Z.sub_0_r, Nat2Z.id. apply firstn_all. Qed.

Lemma subarray_length l a b :
  0 ≤ a ≤ b → b ≤ zlen l → zlen (subarray l a b) = b - a.
Proof. intros. unfold subarray. rewrite zlen_take, zlen_drop. lia. Qed.

Lemma subarray_app l a b c :
  0 ≤ a ≤ b → b ≤ c → c ≤ zlen l → subarray l a b ++ subarray l b c = subarray l a c.
Proof.
  intros. unfold subarray.
  replace (Z.to_nat (c - a)) with (Z.to_nat (b - a) + Z.to_nat (c - b))%nat by lia.
  rewrite <- take_take_drop, drop_drop. do 3 f_equal. lia.
Qed.

Lemma subarray_empty l a : subarray l a a = [].
Proof. unfold subarray. by rewrite Z.sub_diag. Qed.

Lemma Forall_subarray (P : A → Prop) l a b : Forall P l → Forall P (subarray l a b).
Proof. intros. by apply Forall_take, Forall_drop. Qed.

Lemma Forall_array_set (P : A → Prop) l k o :
  Forall P l → Forall P k → Forall P (array_set l k o).
Proof. intros. apply Forall_app; split; [by apply Forall_take|]. apply Forall_app; split; [done|by apply Forall_drop]. Qed.

(** Splitting what is left of an array at an intermediate offset. *)
Lemma drop_subarray l a b :
  0 ≤ a ≤ b → b ≤ zlen l →
  drop (Z.to_nat a) l = subarray l a b ++ drop (Z.to_nat b) l.
Proof.
  intros. unfold subarray.
  rewrite <- (take_drop (Z.to_nat (b - a)) (drop (Z.to_nat a) l)) at 1.
  rewrite drop_drop. do 2 f_equal. lia.
Qed.
End Arrays.

(** ** Machine integers

    The bitwise operators of JavaScript work on 32-bit patterns, and a store
    into a [Uint8Array] keeps the low eight bits. *)

Definition MAX_UINT32 : Z := 4294967295.
Definition UINT32_BASE : Z := 4294967296.
Definition MAX_SAFE_INTEGER : Z := 9007199254740991.

Definition to_uint32 (z : Z) : Z := z mod 4294967296.
Definition to_uint8 (z : Z) : Z := z mod 256.
(** [z >>> n]. *)
Definition ushr (z n : Z) : Z := Z.shiftr (to_uint32 z) n.

Definition is_byte (b : Z) : Prop := 0 ≤ b < 256.
Definition bytes_ok (l : list Z) : Prop := Forall is_byte l.

#[export] Instance is_byte_dec b : Decision (is_byte b) := _.
#[export] Instance bytes_ok_dec l : Decision (bytes_ok l) := _.

(** The four bytes of a big-endian unsigned 32-bit integer, and back. *)
Definition be32_bytes (n : Z) : list Z :=
  [to_uint8 (ushr n 24); to_uint8 (ushr n 16); to_uint8 (ushr n 8); to_uint8 n].
Definition be32_value (b : list Z) : Z :=
  byte_at b 0 * 16777216 + byte_at b 1 * 65536 + byte_at b 2 * 256 + byte_at b 3.

Lemma ushr_div z n : 0 ≤ n → ushr z n = (z mod 4294967296) / 2 ^ n.
Proof. intros. unfold ushr, to_uint32. by rewrite Z.shiftr_div_pow2. Qed.

Lemma be32_bytes_ok n : bytes_ok (be32_bytes n).
Proof.
  unfold bytes_ok, be32_bytes, to_uint8.
  repeat constructor; unfold is_byte; apply Z.mod_pos_bound; lia.
Qed.

Lemma be32_value_bytes n : 0 ≤ n ≤ MAX_UINT32 → be32_value (be32_bytes n) = n.
Proof.
  unfold MAX_UINT32. intros Hn. unfold be32_value, be32_bytes, byte_at; cbn.
  unfold to_uint8. rewrite !ushr_div by lia. rewrite (Z.mod_small n) by lia.
  change (2 ^ 24) with 16777216. change (2 ^ 16) with 65536. change (2 ^ 8) with 256.
  Z.to_euclidean_division_equations. lia.
Qed.

Lemma be32_bytes_value a b c d :
  is_byte a → is_byte b → is_byte c → is_byte d →
  be32_bytes (be32_value [a; b; c; d]) = [a; b; c; d].
Proof.
  unfold is_byte. intros. unfold be32_value, be32_bytes, byte_at; cbn.
  unfold to_uint8. rewrite !ushr_div by lia.
  change (2 ^ 24) with 16777216. change (2 ^ 16) with 65536. change (2 ^ 8) with 256.
  repeat f_equal; Z.to_euclidean_division_equations; lia.
Qed.

Lemma be32_value_range b : bytes_ok b → 0 ≤ be32_value b ≤ MAX_UINT32.
Proof.
  intros Hb. unfold be32_value, MAX_UINT32.
  assert (∀ i, is_byte (byte_at b i)) as Hi.
  { intros i. unfold byte_at. destruct (b !! i) eqn:E; cbn; [|unfold is_byte; lia].
    by eapply (Forall_lookup_1 _ _ _ _ Hb). }
  pose proof (Hi 0%nat). pose proof (Hi 1%nat). pose proof (Hi 2%nat). pose proof (Hi 3%nat).
  unfold is_byte in *. lia.
Qed.

(** ** Automation *)

Create HintDb js.
Create HintDb zlen.
(* rewriting normal form of array lengths *)
#[export] Hint Rewrite @zlen_nil @zlen_cons @zlen_app @zlen_replicate @zlen_take @zlen_drop : zlen.
#[export] Hint Resolve zlen_nonneg be32_bytes_ok : js.

(** Peels the binds and guards off a computation known to have succeeded. *)
Ltac inv_ok :=
  repeat match goal with
  | H : Ok _ = Ok _ |- _ => injection H as H; try subst
  | H : Err _ = Ok _ |- _ => discriminate H
  | H : Ok _ = Err _ |- _ => discriminate H
  | H : _ ≫= _ = Ok _ |- _ =>
      let x := fresh "x" in let Hx := fresh "Hx" in
      apply bind_Ok in H as (x & Hx & H)
  | H : guard_or _ _ = Ok _ |- _ => apply guard_or_Ok in H
  | H : mret _ = Ok _ |- _ => injection H as H; try subst
  end.

(** Normalises array lengths and closes the linear goals they leave. *)
Ltac zlen_lia :=
  autorewrite with zlen in *;
  repeat match goal with
  | |- context [zlen ?l] =>
      lazymatch goal with H : 0 ≤ zlen l |- _ => fail | _ => pose proof (zlen_nonneg l) end
  | _ : context [zlen ?l] |- _ =>
      lazymatch goal with H : 0 ≤ zlen l |- _ => fail | _ => pose proof (zlen_nonneg l) end
  end; lia.
