(* ===== verification/JsNumber.v ===== *)
(** * JavaScript numbers

    A [number] is an IEEE-754 binary64 value.  It is kept here as its 64-bit
    pattern (sign, 11 exponent bits, 52 fraction bits), which is also what
    [DataView.setFloat64] / [getFloat64] move in and out of a byte buffer.
    [int_value] is the mathematical integer a number denotes, [of_Z] the number
    that denotes a (safe) integer; the two are inverse to each other on safe
    integers other than [-0]. *)

From Stdlib Require Import SpecFloat.
From S2P Require Import Prelude.

Abbreviation jsnum := Z (only parsing).

Definition two52 : Z := 4503599627370496.
Definition two63 : Z := 9223372036854775808.
Definition two64 : Z := 18446744073709551616.

(** A 64-bit pattern. *)
Definition num_ok (x : jsnum) : Prop := 0 ≤ x < two64.

Definition num_neg (x : jsnum) : bool := two63 <=? x.
Definition num_exp (x : jsnum) : Z := (x / two52) mod 2048.
Definition num_frac (x : jsnum) : Z := x mod two52.

(** [Number.isFinite]. *)
Definition isFinite (x : jsnum) : bool := negb (num_exp x =? 2047).

(** [Object.is(x, -0)]. *)
Definition is_neg_zero (x : jsnum) : bool := x =? two63.

(** The absolute value of the integer a finite number denotes, if it does. *)
Definition int_magnitude (x : jsnum) : option Z :=
  if negb (isFinite x) then None
  else if num_exp x =? 0 then (if num_frac x =? 0 then Some 0 else None)
  else
    let m := two52 + num_frac x in
    let e := num_exp x - 1075 in
    if 0 <=? e then Some (m * 2 ^ e)
    else if m mod 2 ^ (- e) =? 0 then Some (m / 2 ^ (- e)) else None.

Definition int_value (x : jsnum) : option Z :=
  a ← int_magnitude x; Some (if num_neg x then - a else a).

(** [Number.isInteger] and [Number.isSafeInteger]. *)
Definition isInteger (x : jsnum) : bool :=
  match int_value x with Some _ => true | None => false end.
Definition is_safe (z : Z) : bool := Z.abs z <=? MAX_SAFE_INTEGER.
Definition isSafeInteger (x : jsnum) : bool :=
  match int_value x with Some z => is_safe z | None => false end.

(** The number denoting an integer of absolute value below [2^53]. *)
Definition of_Z (z : Z) : jsnum :=
  if z =? 0 then 0
  else
    let a := Z.abs z in
    let k := Z.log2 a in
    (if z <? 0 then two63 else 0) + (k + 1023) * two52 + (a * 2 ^ (52 - k) - two52).

(** Addition, [x + y]: the IEEE-754 sum rounded to nearest even, through the
    Standard Library's specification of binary64. *)
Definition sf_of_num (x : jsnum) : spec_float :=
  let s := num_neg x in
  let e := num_exp x in
  let f := num_frac x in
  if e =? 2047 then (if f =? 0 then S754_infinity s else S754_nan)
  else
    match (if e =? 0 then f else two52 + f) with
    | Zpos m => S754_finite s m (Z.max e 1 - 1075)
    | _ => S754_zero s
    end.

Definition num_of_sf (f : spec_float) : jsnum :=
  match f with
  | S754_zero s => if s then two63 else 0
  | S754_infinity s => (if s then two63 else 0) + 2047 * two52
  | S754_nan => 2047 * two52 + two52 / 2
  | S754_finite s m e =>
      (if s then two63 else 0)
      + (if Zpos m <? two52 then Zpos m else (e + 1075) * two52 + (Zpos m - two52))
  end.

Definition num_add (x y : jsnum) : jsnum := num_of_sf (SFadd 53 1024 (sf_of_num x) (sf_of_num y)).

(** [1 + 2 = 3], [0.1 + 0.2 = 0.30000000000000004] and [2^53 + 1 = 2^53]. *)
Example num_add_small : num_add (of_Z 1) (of_Z 2) = of_Z 3.
Proof. vm_compute. reflexivity. Qed.
Example num_add_inexact : num_add 4591870180066957722 4596373779694328218 = 4599075939470750516.
Proof. vm_compute. reflexivity. Qed.
Example num_add_rounds : num_add 4845873199050653696 (of_Z 1) = 4845873199050653696.
Proof. vm_compute. reflexivity. Qed.

(** The eight big-endian bytes of a number ([DataView.setFloat64(o, x, false)])
    and back ([getFloat64(o, false)]). *)
Definition float64_bytes (x : jsnum) : list Z :=
  be32_bytes (x / UINT32_BASE) ++ be32_bytes (x mod UINT32_BASE).
Definition float64_value (b : list Z) : jsnum :=
  be32_value (take 4 b) * UINT32_BASE + be32_value (drop 4 b).

Lemma is_safe_spec z : is_safe z = true ↔ Z.abs z ≤ MAX_SAFE_INTEGER.
Proof. apply Z.leb_le. Qed.

Lemma num_neg_spec x : num_neg x = true ↔ two63 ≤ x.
Proof. apply Z.leb_le. Qed.

(** ** Integers and their patterns *)

Lemma of_Z_shape z :
  z ≠ 0 → is_safe z = true →
  ∃ k f, 0 ≤ k ≤ 52 ∧ 0 ≤ f < two52 ∧ (two52 + f) = Z.abs z * 2 ^ (52 - k) ∧
         Z.log2 (Z.abs z) = k ∧
         of_Z z = (if z <? 0 then two63 else 0) + (k + 1023) * two52 + f.
Proof.
  intros Hz Hs. apply is_safe_spec in Hs. unfold MAX_SAFE_INTEGER in Hs.
  pose proof (Z.log2_spec (Z.abs z) ltac:(lia)) as [Hlo Hhi].
  set (k := Z.log2 (Z.abs z)) in *.
  assert (0 ≤ k) by apply Z.log2_nonneg.
  assert (k ≤ 52).
  { apply Z.lt_succ_r. apply (Z.pow_lt_mono_r_iff 2); [lia..|]. change (2 ^ Z.succ 52) with 9007199254740992. lia. }
  exists k, (Z.abs z * 2 ^ (52 - k) - two52).
  assert (2 ^ k * 2 ^ (52 - k) = two52) as Hp.
  { rewrite <- Z.pow_add_r by lia. replace (k + (52 - k)) with 52 by lia. done. }
  assert (0 < 2 ^ (52 - k)) by (apply Z.pow_pos_nonneg; lia).
  rewrite Z.pow_succ_r in Hhi by lia.
  repeat split; try lia; [nia..|].
  unfold of_Z. rewrite (proj2 (Z.eqb_neq z 0)) by done. done.
Qed.

(** Reading the three fields back from a pattern. *)
Lemma num_fields (s : bool) e f :
  0 ≤ e < 2048 → 0 ≤ f < two52 →
  let x := (if s then two63 else 0) + e * two52 + f in
  num_ok x ∧ num_neg x = s ∧ num_exp x = e ∧ num_frac x = f.
Proof.
  intros He Hf x.
  assert (x = ((if s then 2048 else 0) + e) * two52 + f) as Hx by (unfold x, two63, two52; destruct s; lia).
  assert (0 ≤ x < two64) by (unfold two64, two52 in *; destruct s; lia).
  assert (x / two52 = (if s then 2048 else 0) + e) as Hd.
  { rewrite Hx, Z.div_add_l by (unfold two52; lia). rewrite Z.div_small by done. lia. }
  repeat split; [lia..| | |].
  - unfold num_neg. unfold two63, two52 in *. destruct s; lia.
  - unfold num_exp. rewrite Hd. destruct s; [|by apply Z.mod_small].
    rewrite Z.add_comm. change (e + 2048) with (e + 1 * 2048).
    rewrite Z.mod_add by lia. by apply Z.mod_small.
  - unfold num_frac. rewrite Hx, Z.add_comm, Z.mod_add by (unfold two52; lia). by apply Z.mod_small.
Qed.

Lemma num_decompose x :
  num_ok x → x = (if num_neg x then two63 else 0) + num_exp x * two52 + num_frac x
             ∧ 0 ≤ num_exp x < 2048 ∧ 0 ≤ num_frac x < two52.
Proof.
  unfold num_ok, num_neg, num_exp, num_frac, two64, two63, two52. intros Hx.
  destruct (Z.leb_spec 9223372036854775808 x); Z.to_euclidean_division_equations; lia.
Qed.

Lemma of_Z_ok z : is_safe z = true → num_ok (of_Z z).
Proof.
  intros Hs. destruct (decide (z = 0)) as [->|Hz]; [done|].
  destruct (of_Z_shape z Hz Hs) as (k & f & Hk & Hf & _ & _ & ->).
  by apply (num_fields (z <? 0) (k + 1023) f); [lia|].
Qed.

Lemma int_value_of_Z z : is_safe z = true → int_value (of_Z z) = Some z.
Proof.
  intros Hs. destruct (decide (z = 0)) as [->|Hz]; [done|].
  destruct (of_Z_shape z Hz Hs) as (k & f & Hk & Hf & Hm & _ & ->).
  destruct (num_fields (z <? 0) (k + 1023) f ltac:(lia) Hf) as (_ & Hneg & Hexp & Hfrac).
  unfold int_value, int_magnitude, isFinite. rewrite Hneg, Hexp, Hfrac.
  replace (k + 1023 =? 2047) with false by lia. cbn.
  replace (k + 1023 =? 0) with false by lia.
  assert (0 < 2 ^ (52 - k)) by (apply Z.pow_pos_nonneg; lia).
  destruct (Z.leb_spec 0 (k + 1023 - 1075)); cbn.
  - assert (k = 52) as -> by lia. rewrite Hm. cbn. rewrite !Z.mul_1_r. f_equal.
    destruct (Z.ltb_spec z 0); lia.
  - replace (- (k + 1023 - 1075)) with (52 - k) by lia. rewrite Hm.
    rewrite Z.mod_mul, Z.div_mul by lia. cbn. f_equal. destruct (Z.ltb_spec z 0); lia.
Qed.

(** What a pattern with a safe integer value looks like. *)
Lemma int_value_inv x z :
  num_ok x → int_value x = Some z → z ≠ 0 → is_safe z = true →
  ∃ e, num_exp x = e + 1075 ∧ -52 ≤ e ≤ 0 ∧ num_neg x = (z <? 0) ∧
       Z.abs z * 2 ^ (- e) = two52 + num_frac x.
Proof.
  intros Hx Hv Hz Hs. destruct (num_decompose x Hx) as (_ & He & Hf).
  apply is_safe_spec in Hs. unfold MAX_SAFE_INTEGER in Hs.
  unfold int_value, int_magnitude, isFinite in Hv.
  destruct (num_exp x =? 2047) eqn:E1; [done|]. cbn in Hv.
  destruct (num_exp x =? 0) eqn:E0.
  { destruct (num_frac x =? 0); [|done]. cbn in Hv. destruct (num_neg x); naive_solver. }
  exists (num_exp x - 1075). split; [lia|].
  set (e := num_exp x - 1075) in *. set (m := two52 + num_frac x) in *.
  assert (two52 ≤ m < 2 * two52) as Hm by lia.
  assert (∃ a, Z.abs z = a ∧ 0 < a ∧ num_neg x = (z <? 0)
             ∧ ((0 ≤ e ∧ a = m * 2 ^ e) ∨ (e < 0 ∧ m = a * 2 ^ (- e)))) as (a & Ha & Hapos & Hneg & Hcase).
  { destruct (Z.leb_spec 0 e) as [Hle|Hlt]; cbn in Hv.
    - assert (0 < 2 ^ e) by (apply Z.pow_pos_nonneg; lia).
      exists (m * 2 ^ e). injection Hv as Hv. unfold two52 in *.
      assert (0 < m * 2 ^ e) by nia.
      destruct (num_neg x); repeat split; try lia.
    - destruct (Z.eqb_spec (m mod 2 ^ (- e)) 0) as [Hd|]; [|done]. cbn in Hv.
      assert (0 < 2 ^ (- e)) by (apply Z.pow_pos_nonneg; lia).
      pose proof (Z.div_mod m (2 ^ (- e)) ltac:(lia)) as Hdm. rewrite Hd in Hdm.
      exists (m / 2 ^ (- e)). injection Hv as Hv. unfold two52 in *.
      assert (0 < m / 2 ^ (- e)) by nia.
      destruct (num_neg x); repeat split; try lia. }
  unfold two52 in *. destruct Hcase as [[Hle ->]|[Hlt Hmm]].
  - assert (e = 0) as He0.
    { destruct (decide (1 ≤ e)); [|lia].
      assert (2 ^ 1 ≤ 2 ^ e) by (apply Z.pow_le_mono_r; lia). nia. }
    rewrite He0 in *. cbn in *. repeat split; [lia..|done|]. lia.
  - assert (-52 ≤ e).
    { destruct (decide (-52 ≤ e)); [done|].
      assert (2 ^ 53 ≤ 2 ^ (- e)) by (apply Z.pow_le_mono_r; lia).
      change (2 ^ 53) with 9007199254740992 in *. nia. }
    rewrite Ha, <- Hmm. repeat split; [lia..|done].
Qed.

(** Safe integers have one pattern each, apart from the two zeroes. *)
Lemma of_Z_int_value x z :
  num_ok x → is_neg_zero x = false → int_value x = Some z → is_safe z = true → of_Z z = x.
Proof.
  intros Hx Hnz Hv Hs.
  destruct (num_decompose x Hx) as (Hd & He & Hf).
  destruct (decide (z = 0)) as [->|Hz].
  - unfold is_neg_zero in Hnz. apply Z.eqb_neq in Hnz.
    unfold int_value, int_magnitude, isFinite in Hv.
    destruct (num_exp x =? 2047); [done|]. cbn in Hv.
    destruct (Z.eqb_spec (num_exp x) 0) as [E0|E0].
    + destruct (Z.eqb_spec (num_frac x) 0) as [F0|]; [|done].
      rewrite E0, F0 in Hd. destruct (num_neg x); cbn in Hd; [lia|]. by rewrite Hd.
    + exfalso. cbn in Hv. assert (0 < two52) by done.
      destruct (Z.leb_spec 0 (num_exp x - 1075)) as [Hle|Hlt]; cbn in Hv.
      * assert (0 < 2 ^ (num_exp x - 1075)) by (apply Z.pow_pos_nonneg; lia).
        assert (0 < (two52 + num_frac x) * 2 ^ (num_exp x - 1075)) by nia.
        destruct (num_neg x); injection Hv; lia.
      * set (m := two52 + num_frac x) in *. set (p := 2 ^ (- (num_exp x - 1075))) in *.
        assert (0 < p) by (apply Z.pow_pos_nonneg; lia).
        destruct (Z.eqb_spec (m mod p) 0) as [Hmod|]; [|done]. cbn in Hv.
        pose proof (Z.div_mod m p ltac:(lia)) as Hdm. rewrite Hmod in Hdm.
        assert (m / p = 0) by (destruct (num_neg x); injection Hv; lia). nia.
  - destruct (int_value_inv x z Hx Hv Hz Hs) as (e & Hexp & Hr & Hneg & Hm).
    destruct (of_Z_shape z Hz Hs) as (k & f & Hk & Hf' & Hm' & Hlog & ->).
    assert (k = 52 + e) as ->.
    { rewrite <- Hlog. apply Z.log2_unique; [lia|].
      assert (0 < 2 ^ (- e)) by (apply Z.pow_pos_nonneg; lia).
      assert (2 ^ (52 + e) * 2 ^ (- e) = two52) as Hp.
      { rewrite <- Z.pow_add_r by lia. replace (52 + e + - e) with 52 by lia. done. }
      rewrite Z.pow_succ_r by lia. unfold two52 in *. split; nia. }
    replace (52 - (52 + e)) with (- e) in Hm' by lia.
    rewrite Hd, Hneg, Hexp. f_equal; lia.
Qed.

Lemma float64_bytes_ok x : bytes_ok (float64_bytes x).
Proof. apply Forall_app; split; apply be32_bytes_ok. Qed.

Lemma float64_bytes_length x : zlen (float64_bytes x) = 8.
Proof. done. Qed.

Lemma float64_value_bytes x : num_ok x → float64_value (float64_bytes x) = x.
Proof.
  unfold num_ok, two64. intros Hx. unfold float64_value, float64_bytes.
  assert (0 ≤ x / UINT32_BASE ≤ MAX_UINT32) by (unfold UINT32_BASE, MAX_UINT32; Z.to_euclidean_division_equations; lia).
  assert (0 ≤ x mod UINT32_BASE ≤ MAX_UINT32) by (unfold UINT32_BASE, MAX_UINT32; Z.to_euclidean_division_equations; lia).
  rewrite take_app_length' by done. rewrite drop_app_length' by done.
  rewrite !be32_value_bytes by done.
  rewrite (Z.div_mod x UINT32_BASE) at 3 by done. lia.
Qed.

Lemma int_value_finite x z : int_value x = Some z → isFinite x = true.
Proof. unfold int_value, int_magnitude. by destruct (isFinite x). Qed.

Lemma of_Z_not_neg_zero z : is_safe z = true → is_neg_zero (of_Z z) = false.
Proof.
  intros Hs. destruct (is_neg_zero (of_Z z)) eqn:E; [|done]. apply Z.eqb_eq in E.
  pose proof (int_value_of_Z z Hs) as Hv. rewrite E in Hv.
  assert (int_value two63 = Some 0) as H0 by (vm_compute; reflexivity).
  rewrite H0 in Hv. injection Hv as <-. done.
Qed.
