(* ===== verification/JsString.v ===== *)
(** * JavaScript strings and the UTF-8 text codec

    A string is its sequence of 16-bit code units.  [TextEncoder.encode] converts
    to Unicode scalar values, replacing unpaired surrogates by U+FFFD, and writes
    UTF-8; [TextDecoder("utf-8", { fatal: true, ignoreBOM: true }).decode] is the
    WHATWG decoder without its byte-order-mark handling, failing on the first
    malformed sequence. *)

From stdpp Require Import pretty.
From S2P Require Import Prelude.

Abbreviation jsstring := (list Z) (only parsing).

Definition unit_ok (u : Z) : Prop := 0 ≤ u < 65536.
Definition string_ok (s : jsstring) : Prop := Forall unit_ok s.

#[export] Instance string_ok_dec s : Decision (string_ok s) := _.

(** The string an ASCII source literal denotes, and [String(n)] of an integer. *)
Definition js (s : string) : jsstring := (λ a, Z.of_N (Ascii.N_of_ascii a)) <$> String.list_ascii_of_string s.
Arguments js : simpl never.
Definition js_of_Z (n : Z) : jsstring := js (pretty n).

Definition is_high (u : Z) : bool := (55296 <=? u) && (u <=? 56319).
Definition is_low (u : Z) : bool := (56320 <=? u) && (u <=? 57343).

Definition REPLACEMENT : Z := 65533.

(** The code point of a surrogate pair. *)
Definition pair_value (hi lo : Z) : Z := 65536 + (hi - 55296) * 1024 + (lo - 56320).

(** Conversion to scalar values, as [TextEncoder] does it. *)
Fixpoint scalars (s : jsstring) : list Z :=
  match s with
  | [] => []
  | u :: s' =>
      if is_high u then
        match s' with
        | v :: s'' => if is_low v then pair_value u v :: scalars s'' else REPLACEMENT :: scalars s'
        | [] => [REPLACEMENT]
        end
      else if is_low u then REPLACEMENT :: scalars s'
      else u :: scalars s'
  end.

(** The bytes of one scalar value. *)
Definition utf8_scalar (c : Z) : list Z :=
  if c <? 128 then [c]
  else if c <? 2048 then [192 + c / 64; 128 + c mod 64]
  else if c <? 65536 then [224 + c / 4096; 128 + (c / 64) mod 64; 128 + c mod 64]
  else [240 + c / 262144; 128 + (c / 4096) mod 64; 128 + (c / 64) mod 64; 128 + c mod 64].

Definition text_encode (s : jsstring) : list Z := concat (utf8_scalar <$> scalars s).

(** The code units of one scalar value. *)
Definition utf16_scalar (c : Z) : jsstring :=
  if c <? 65536 then [c] else [55296 + (c - 65536) / 1024; 56320 + (c - 65536) mod 1024].

(** [text.split(separator)]. *)
Fixpoint split_at (sep : Z) (s : jsstring) : list jsstring :=
  match s with
  | [] => [[]]
  | c :: s =>
      if c =? sep then [] :: split_at sep s
      else match split_at sep s with l :: ls => (c :: l) :: ls | [] => [[c]] end
  end.

(** [parts.join(separator)], the separator one code unit. *)
Fixpoint join (sep : Z) (parts : list jsstring) : jsstring :=
  match parts with
  | [] => []
  | [p] => p
  | p :: parts => p ++ sep :: join sep parts
  end.

Definition in_range (lo hi b : Z) : bool := (lo <=? b) && (b <=? hi).
Definition is_cont (b : Z) : bool := in_range 128 191 b.

(** ECMAScript white space and line terminators, [trim] and [trimEnd]. *)
Definition is_space (c : Z) : bool :=
  in_range 9 13 c || (c =? 32) || (c =? 160) || (c =? 5760) || in_range 8192 8202 c || (c =? 8232) || (c =? 8233)
  || (c =? 8239) || (c =? 8287) || (c =? 12288) || (c =? 65279).
Fixpoint trim_start (s : jsstring) : jsstring :=
  match s with c :: s' => if is_space c then trim_start s' else s | [] => [] end.
Definition trim (s : jsstring) : jsstring := reverse (trim_start (reverse (trim_start s))).
Definition trim_end (s : jsstring) : jsstring := reverse (trim_start (reverse s)).

(** [text.indexOf(sub)]; [None] is -1. *)
Fixpoint index_of (sub s : jsstring) : option nat :=
  if bool_decide (sub `prefix_of` s) then Some O
  else match s with [] => None | _ :: s' => S <$> index_of sub s' end.

(** The decoder: the second byte's range depends on the first, which is what
    rejects overlong forms, surrogates and values above U+10FFFF. *)
Fixpoint scalars_of_utf8 (bs : list Z) : option (list Z) :=
  match bs with
  | [] => Some []
  | a :: bs1 =>
      if in_range 0 127 a then cons a <$> scalars_of_utf8 bs1
      else if in_range 194 223 a then
        match bs1 with
        | b :: bs2 =>
            if is_cont b then cons ((a - 192) * 64 + (b - 128)) <$> scalars_of_utf8 bs2 else None
        | _ => None
        end
      else if in_range 224 239 a then
        match bs1 with
        | b :: c :: bs3 =>
            if in_range (if a =? 224 then 160 else 128) (if a =? 237 then 159 else 191) b && is_cont c
            then cons ((a - 224) * 4096 + (b - 128) * 64 + (c - 128)) <$> scalars_of_utf8 bs3
            else None
        | _ => None
        end
      else if in_range 240 244 a then
        match bs1 with
        | b :: c :: d :: bs4 =>
            if in_range (if a =? 240 then 144 else 128) (if a =? 244 then 143 else 191) b
               && is_cont c && is_cont d
            then cons ((a - 240) * 262144 + (b - 128) * 4096 + (c - 128) * 64 + (d - 128))
                   <$> scalars_of_utf8 bs4
            else None
        | _ => None
        end
      else None
  end.

Definition text_decode (bs : list Z) : option jsstring :=
  (λ cs, concat (utf16_scalar <$> cs)) <$> scalars_of_utf8 bs.

(** A string without unpaired surrogates. *)
Fixpoint well_formed (s : jsstring) : bool :=
  match s with
  | [] => true
  | u :: s' =>
      if is_high u then
        match s' with
        | v :: s'' => is_low v && well_formed s''
        | [] => false
        end
      else negb (is_low u) && well_formed s'
  end.

Definition scalar_ok (c : Z) : Prop := 0 ≤ c < 55296 ∨ 57344 ≤ c ≤ 1114111.

(** ** Lemmas *)

Lemma is_high_spec u : is_high u = true ↔ 55296 ≤ u ≤ 56319.
Proof. unfold is_high. rewrite andb_true_iff, !Z.leb_le. done. Qed.
Lemma is_low_spec u : is_low u = true ↔ 56320 ≤ u ≤ 57343.
Proof. unfold is_low. rewrite andb_true_iff, !Z.leb_le. done. Qed.
Lemma in_range_spec lo hi b : in_range lo hi b = true ↔ lo ≤ b ≤ hi.
Proof. unfold in_range. rewrite andb_true_iff, !Z.leb_le. done. Qed.

Lemma is_high_false u : is_high u = false ↔ u < 55296 ∨ 56319 < u.
Proof. rewrite <- not_true_iff_false, is_high_spec. lia. Qed.
Lemma is_low_false u : is_low u = false ↔ u < 56320 ∨ 57343 < u.
Proof. rewrite <- not_true_iff_false, is_low_spec. lia. Qed.
Lemma in_range_false lo hi b : in_range lo hi b = false ↔ b < lo ∨ hi < b.
Proof. rewrite <- not_true_iff_false, in_range_spec. lia. Qed.

(** Turns the tests of the codec into linear facts. *)
Ltac utf_facts :=
  unfold is_cont in *;
  repeat match goal with
  | H : is_high _ = true |- _ => apply is_high_spec in H
  | H : is_low _ = true |- _ => apply is_low_spec in H
  | H : is_high _ = false |- _ => apply is_high_false in H
  | H : is_low _ = false |- _ => apply is_low_false in H
  | H : in_range _ _ _ = true |- _ => apply in_range_spec in H
  | H : in_range _ _ _ = false |- _ => apply in_range_false in H
  | H : _ && _ = true |- _ => apply andb_true_iff in H as [? H]
  end.

(** Induction two elements at a time. *)
Lemma list_ind2 {A} (P : list A → Prop) :
  P [] → (∀ a, P [a]) → (∀ a b l, P l → P (b :: l) → P (a :: b :: l)) → ∀ l, P l.
Proof.
  intros H0 H1 H2. assert (∀ l, P l ∧ ∀ a, P (a :: l)) as H; [|intros l; apply H].
  induction l as [|b l [IH1 IH2]]; [by split|]. split; [apply IH2|]. intros a. apply H2; auto.
Qed.

Lemma scalars_ok s : string_ok s → Forall scalar_ok (scalars s).
Proof.
  induction s as [|u|u v s IH1 IH2] using list_ind2; intros Hs; cbn [scalars].
  - constructor.
  - apply Forall_cons in Hs as [Hu _]. unfold unit_ok in Hu.
    destruct (is_high u) eqn:E1; [|destruct (is_low u) eqn:E2]; apply Forall_singleton;
      utf_facts; unfold scalar_ok, REPLACEMENT; lia.
  - apply Forall_cons in Hs as [Hu Hvs]. pose proof Hvs as Hvs'.
    apply Forall_cons in Hvs' as [Hv Hs]. unfold unit_ok in *.
    specialize (IH2 Hvs). specialize (IH1 Hs). cbn [scalars] in IH2.
    destruct (is_high u) eqn:E1.
    + destruct (is_low v) eqn:E2; (apply Forall_cons; split; [|done]);
        utf_facts; unfold scalar_ok, pair_value, REPLACEMENT; lia.
    + destruct (is_low u) eqn:E2; (apply Forall_cons; split; [|done]);
        utf_facts; unfold scalar_ok, REPLACEMENT; lia.
Qed.

(** One scalar value through UTF-8. *)
Lemma scalars_of_utf8_scalar c bs :
  scalar_ok c → scalars_of_utf8 (utf8_scalar c ++ bs) = cons c <$> scalars_of_utf8 bs.
Proof.
  unfold scalar_ok, utf8_scalar. intros Hc.
  destruct (Z.ltb_spec c 128).
  { cbn. by rewrite (proj2 (in_range_spec _ _ _)) by lia. }
  destruct (Z.ltb_spec c 2048).
  { cbn. rewrite (proj2 (in_range_false 0 127 _)) by (Z.to_euclidean_division_equations; lia).
    rewrite (proj2 (in_range_spec 194 223 _)) by (Z.to_euclidean_division_equations; lia).
    unfold is_cont. rewrite (proj2 (in_range_spec 128 191 _)) by (Z.to_euclidean_division_equations; lia).
    f_equal. f_equal. Z.to_euclidean_division_equations; lia. }
  destruct (Z.ltb_spec c 65536).
  { cbn. rewrite (proj2 (in_range_false 0 127 _)) by (Z.to_euclidean_division_equations; lia).
    rewrite (proj2 (in_range_false 194 223 _)) by (Z.to_euclidean_division_equations; lia).
    rewrite (proj2 (in_range_spec 224 239 _)) by (Z.to_euclidean_division_equations; lia).
    rewrite (proj2 (in_range_spec _ _ (128 + (c / 64) mod 64))).
    2:{ destruct (Z.eqb_spec (224 + c / 4096) 224), (Z.eqb_spec (224 + c / 4096) 237);
          Z.to_euclidean_division_equations; lia. }
    unfold is_cont. rewrite (proj2 (in_range_spec 128 191 _)) by (Z.to_euclidean_division_equations; lia).
    cbn. f_equal. f_equal. Z.to_euclidean_division_equations; lia. }
  cbn. rewrite (proj2 (in_range_false 0 127 _)) by (Z.to_euclidean_division_equations; lia).
  rewrite (proj2 (in_range_false 194 223 _)) by (Z.to_euclidean_division_equations; lia).
  rewrite (proj2 (in_range_false 224 239 _)) by (Z.to_euclidean_division_equations; lia).
  rewrite (proj2 (in_range_spec 240 244 _)) by (Z.to_euclidean_division_equations; lia).
  rewrite (proj2 (in_range_spec _ _ (128 + (c / 4096) mod 64))).
  2:{ destruct (Z.eqb_spec (240 + c / 262144) 240), (Z.eqb_spec (240 + c / 262144) 244);
        Z.to_euclidean_division_equations; lia. }
  unfold is_cont. rewrite !(proj2 (in_range_spec 128 191 _)) by (Z.to_euclidean_division_equations; lia).
  cbn. f_equal. f_equal. Z.to_euclidean_division_equations; lia.
Qed.

Lemma scalars_of_utf8_encode cs :
  Forall scalar_ok cs → scalars_of_utf8 (concat (utf8_scalar <$> cs)) = Some cs.
Proof.
  induction 1 as [|c cs Hc _ IH]; [done|].
  cbn [fmap list_fmap concat]. rewrite scalars_of_utf8_scalar by done.
  change (list_fmap _ _ utf8_scalar cs) with (utf8_scalar <$> cs). by rewrite IH.
Qed.

Lemma utf8_scalar_bytes c : scalar_ok c → bytes_ok (utf8_scalar c).
Proof.
  unfold scalar_ok, utf8_scalar, bytes_ok, is_byte. intros Hc.
  repeat case_match; repeat constructor; Z.to_euclidean_division_equations; lia.
Qed.

Lemma text_encode_bytes s : string_ok s → bytes_ok (text_encode s).
Proof.
  intros Hs%scalars_ok. unfold text_encode, bytes_ok.
  induction Hs as [|c cs Hc _ IH]; [constructor|]. cbn.
  apply Forall_app; split; [by apply utf8_scalar_bytes|done].
Qed.

(** The string [TextEncoder] really encodes: unpaired surrogates replaced. *)
Fixpoint to_well_formed (s : jsstring) : jsstring :=
  match s with
  | [] => []
  | u :: s' =>
      if is_high u then
        match s' with
        | v :: s'' => if is_low v then u :: v :: to_well_formed s'' else REPLACEMENT :: to_well_formed s'
        | [] => [REPLACEMENT]
        end
      else if is_low u then REPLACEMENT :: to_well_formed s'
      else u :: to_well_formed s'
  end.

Lemma utf16_pair u v :
  is_high u = true → is_low v = true → utf16_scalar (pair_value u v) = [u; v].
Proof.
  intros Hu Hv. utf_facts. unfold utf16_scalar, pair_value.
  destruct (Z.ltb_spec (65536 + (u - 55296) * 1024 + (v - 56320)) 65536); [lia|].
  f_equal; [|f_equal]; Z.to_euclidean_division_equations; lia.
Qed.

Lemma utf16_scalars s :
  string_ok s → concat (utf16_scalar <$> scalars s) = to_well_formed s.
Proof.
  assert (∀ u, unit_ok u → utf16_scalar u = [u]) as Hone.
  { intros u Hu. unfold utf16_scalar, unit_ok in *. by rewrite (proj2 (Z.ltb_lt _ _)) by lia. }
  induction s as [|u|u v s IH1 IH2] using list_ind2; intros Hs; [done| |].
  - apply Forall_cons in Hs as [Hu _]. cbn.
    destruct (is_high u), (is_low u); cbn; rewrite ?Hone; done.
  - apply Forall_cons in Hs as [Hu Hvs]. pose proof Hvs as Hvs'.
    apply Forall_cons in Hvs' as [Hv Hs]. specialize (IH2 Hvs). specialize (IH1 Hs).
    cbn [scalars to_well_formed] in *.
    destruct (is_high u) eqn:E1.
    + destruct (is_low v) eqn:E2; cbn [fmap list_fmap concat].
      * rewrite utf16_pair by done. cbn. do 2 f_equal. exact IH1.
      * rewrite (Hone REPLACEMENT) by done. cbn. f_equal. exact IH2.
    + destruct (is_low u) eqn:E2; cbn [fmap list_fmap concat].
      * rewrite (Hone REPLACEMENT) by done. cbn. f_equal. exact IH2.
      * rewrite (Hone u) by done. cbn. f_equal. exact IH2.
Qed.

Lemma text_decode_encode s : string_ok s → text_decode (text_encode s) = Some (to_well_formed s).
Proof.
  intros Hs. unfold text_decode, text_encode.
  rewrite scalars_of_utf8_encode by (by apply scalars_ok). cbn. by rewrite utf16_scalars.
Qed.

Lemma to_well_formed_id s : string_ok s → to_well_formed s = s ↔ well_formed s = true.
Proof.
  induction s as [|u|u v s IH1 IH2] using list_ind2; intros Hs; [done| |].
  - apply Forall_cons in Hs as [Hu _]. cbn. unfold unit_ok in Hu.
    destruct (is_high u) eqn:E1; [|destruct (is_low u) eqn:E2]; cbn; utf_facts;
      unfold REPLACEMENT; split; intros; simplify_eq; (done || lia).
  - apply Forall_cons in Hs as [Hu Hvs]. pose proof Hvs as Hvs'.
    apply Forall_cons in Hvs' as [Hv Hs]. specialize (IH2 Hvs). specialize (IH1 Hs).
    cbn [to_well_formed well_formed] in *. unfold unit_ok in *.
    destruct (is_high u) eqn:E1.
    + destruct (is_low v) eqn:E2; cbn.
      * rewrite <- IH1. split; [by intros [= ->]|by intros ->].
      * utf_facts. unfold REPLACEMENT. split; intros; simplify_eq; lia.
    + destruct (is_low u) eqn:E2; cbn.
      * utf_facts. unfold REPLACEMENT. split; intros; simplify_eq; lia.
      * rewrite <- IH2. split; [by intros [= ->]|by intros ->].
Qed.

(** What the decoder accepts is the canonical encoding of scalar values. *)
Lemma scalars_of_utf8_inv bs cs :
  bytes_ok bs → scalars_of_utf8 bs = Some cs →
  Forall scalar_ok cs ∧ concat (utf8_scalar <$> cs) = bs.
Proof.
  revert cs. remember (length bs) as k eqn:Hk. revert bs Hk.
  induction (lt_wf k) as [k _ IH]. intros bs -> cs Hb.
  assert (Hstep : ∀ n c, (0 < n ≤ length bs)%nat → scalar_ok c → utf8_scalar c = take n bs →
    cons c <$> scalars_of_utf8 (drop n bs) = Some cs →
    Forall scalar_ok cs ∧ concat (utf8_scalar <$> cs) = bs).
  { intros n c Hn Hc He Hcs. apply fmap_Some in Hcs as (cs' & Hcs' & ->).
    destruct (IH (length (drop n bs))) with (bs := drop n bs) (cs := cs') as [H1 H2];
      [rewrite length_drop; lia|done|by apply Forall_drop|done|].
    split; [by constructor|]. cbn. change (list_fmap _ _ utf8_scalar cs') with (utf8_scalar <$> cs').
    by rewrite H2, He, take_drop. }
  destruct bs as [|a bs1]; [by intros [= <-]|]. cbn [scalars_of_utf8].
  apply Forall_cons in Hb as [Ha Hb1]. unfold is_byte in Ha.
  destruct (in_range 0 127 a) eqn:E0.
  { utf_facts. apply (Hstep 1%nat); cbn; [lia|unfold scalar_ok; lia|].
    unfold utf8_scalar. by rewrite (proj2 (Z.ltb_lt _ _)) by lia. }
  destruct (in_range 194 223 a) eqn:E1.
  { destruct bs1 as [|b bs2]; [done|]. destruct (is_cont b) eqn:Eb; [|done]. utf_facts.
    apply (Hstep 2%nat); cbn; [lia|unfold scalar_ok; lia|].
    unfold utf8_scalar. destruct (Z.ltb_spec ((a - 192) * 64 + (b - 128)) 128); [lia|].
    rewrite (proj2 (Z.ltb_lt _ _)) by lia. repeat f_equal; Z.to_euclidean_division_equations; lia. }
  destruct (in_range 224 239 a) eqn:E2.
  { destruct bs1 as [|b [|c bs3]]; [done..|]. case_match eqn:Eb; [|done]. utf_facts.
    set (x := (a - 224) * 4096 + (b - 128) * 64 + (c - 128)).
    assert (2048 ≤ x < 65536 ∧ scalar_ok x) as [Hx Hok].
    { unfold scalar_ok, x. destruct (Z.eqb_spec a 224), (Z.eqb_spec a 237); lia. }
    assert (128 ≤ b ≤ 191) by (destruct (Z.eqb_spec a 224), (Z.eqb_spec a 237); lia).
    apply (Hstep 3%nat); cbn; [lia|done|].
    unfold utf8_scalar. destruct (Z.ltb_spec x 128); [lia|]. destruct (Z.ltb_spec x 2048); [lia|].
    rewrite (proj2 (Z.ltb_lt _ _)) by lia.
    unfold x. repeat f_equal; Z.to_euclidean_division_equations; lia. }
  destruct (in_range 240 244 a) eqn:E3; [|done].
  destruct bs1 as [|b [|c [|d bs4]]]; [done..|]. case_match eqn:Eb; [|done].
  apply andb_true_iff in Eb as [Eb Ed]. utf_facts.
  set (x := (a - 240) * 262144 + (b - 128) * 4096 + (c - 128) * 64 + (d - 128)).
  assert (65536 ≤ x ≤ 1114111 ∧ scalar_ok x) as [Hx Hok].
  { unfold scalar_ok, x. destruct (Z.eqb_spec a 240), (Z.eqb_spec a 244); lia. }
  assert (128 ≤ b ≤ 191) by (destruct (Z.eqb_spec a 240), (Z.eqb_spec a 244); lia).
  apply (Hstep 4%nat); cbn; [lia|done|].
  unfold utf8_scalar. destruct (Z.ltb_spec x 128); [lia|]. destruct (Z.ltb_spec x 2048); [lia|].
  destruct (Z.ltb_spec x 65536); [lia|].
  unfold x. repeat f_equal; Z.to_euclidean_division_equations; lia.
Qed.

(** The code units of scalar values form a well-formed string of those values. *)
Lemma scalars_utf16_cons c s :
  scalar_ok c →
  scalars (utf16_scalar c ++ s) = c :: scalars s
  ∧ well_formed (utf16_scalar c ++ s) = well_formed s ∧ string_ok (utf16_scalar c).
Proof.
  unfold scalar_ok, utf16_scalar. intros Hc. destruct (Z.ltb_spec c 65536).
  - cbn [app scalars well_formed].
    rewrite (proj2 (is_high_false c)), (proj2 (is_low_false c)) by lia.
    split_and!; [done|done|]. apply Forall_singleton. unfold unit_ok. lia.
  - cbn [app scalars well_formed].
    assert (0 ≤ (c - 65536) / 1024 < 1024) by (Z.to_euclidean_division_equations; lia).
    assert (0 ≤ (c - 65536) mod 1024 < 1024) by (Z.to_euclidean_division_equations; lia).
    rewrite (proj2 (is_high_spec _)), (proj2 (is_low_spec _)) by lia.
    split_and!; [|done|].
    + f_equal. unfold pair_value. Z.to_euclidean_division_equations; lia.
    + apply Forall_cons; split; [|apply Forall_singleton]; unfold unit_ok; lia.
Qed.

Lemma scalars_utf16 cs :
  Forall scalar_ok cs →
  let s := concat (utf16_scalar <$> cs) in scalars s = cs ∧ well_formed s = true ∧ string_ok s.
Proof.
  induction 1 as [|c cs Hc _ IH]; [by repeat constructor|].
  destruct IH as (H1 & H2 & H3). destruct (scalars_utf16_cons c (concat (utf16_scalar <$> cs)) Hc)
    as (G1 & G2 & G3).
  cbn. change (list_fmap _ _ utf16_scalar cs) with (utf16_scalar <$> cs).
  rewrite G1, G2, H1. split_and!; [done|done|by apply Forall_app].
Qed.

Lemma text_decode_inv bs s :
  bytes_ok bs → text_decode bs = Some s →
  string_ok s ∧ well_formed s = true ∧ text_encode s = bs.
Proof.
  unfold text_decode. intros Hb (cs & Hcs & ->)%fmap_Some.
  destruct (scalars_of_utf8_inv bs cs Hb Hcs) as [Hok Hbs].
  destruct (scalars_utf16 cs Hok) as (H1 & H2 & H3). unfold text_encode. by rewrite H1.
Qed.

(** ** Literals *)

#[export] Instance js_inj : Inj (=) (=) js.
Proof.
  intros s1. induction s1 as [|a1 s1 IH]; intros [|a2 s2]; try done.
  intros [= H1 H2]. apply N2Z.inj in H1. f_equal; [|by apply IH].
  rewrite <- (Ascii.ascii_N_embedding a1), <- (Ascii.ascii_N_embedding a2). by f_equal.
Qed.

#[export] Instance js_of_Z_inj : Inj (=) (=) js_of_Z.
Proof. intros x y ?%(inj js). by apply (inj pretty). Qed.

(** The decimal text of an integer holds no NUL. *)
Lemma js_cons a s : js (String a s) = Z.of_N (Ascii.N_of_ascii a) :: js s.
Proof. done. Qed.

Lemma js_of_Z_no_nul n : 0 ∉ js_of_Z n.
Proof.
  assert (∀ x s, 0 ∉ js s → 0 ∉ js (pretty_N_go x s)) as Hgo.
  { intros x. induction (N.lt_wf_0 x) as [x _ IH]. intros s Hs.
    destruct (decide (x = 0%N)) as [->|Hx]; [by rewrite pretty_N_go_0|].
    rewrite pretty_N_go_step by lia. apply IH; [by apply N.div_lt; lia|].
    rewrite js_cons, not_elem_of_cons. split; [|done].
    unfold pretty_N_char. repeat case_match; done. }
  assert (∀ x : N, 0 ∉ js (pretty x)) as HN.
  { intros x. unfold pretty, pretty_N. case_decide; [|apply Hgo; apply not_elem_of_nil].
    rewrite js_cons, not_elem_of_cons. split; [done|apply not_elem_of_nil]. }
  unfold js_of_Z. destruct n as [|p|p]; [exact (HN 0%N)|exact (HN (Npos p))|].
  change (pretty (Zneg p)) with (String (Ascii.ascii_of_N 45) (pretty (Npos p))).
  rewrite js_cons, not_elem_of_cons. split; [done|exact (HN (Npos p))].
Qed.

(** A NUL separates a string from a following number. *)
Lemma nul_separated s1 s2 n1 n2 :
  s1 ++ [0] ++ js_of_Z n1 = s2 ++ [0] ++ js_of_Z n2 → s1 = s2 ∧ n1 = n2.
Proof.
  assert (∀ (t1 t2 : jsstring) d1 d2, 0 ∉ d1 → 0 ∉ d2 → t1 ++ [0] ++ d1 = t2 ++ [0] ++ d2 → t1 = t2 ∧ d1 = d2) as Hsep.
  { intros t1. induction t1 as [|u t1 IH]; intros [|v t2] d1 d2 H1 H2; cbn; intros Heq.
    - by injection Heq.
    - injection Heq as <- ->. destruct H1. apply elem_of_app. right. left.
    - injection Heq as -> <-. destruct H2. apply elem_of_app. right. left.
    - injection Heq as -> Heq. destruct (IH t2 d1 d2 H1 H2 Heq) as [-> ->]. done. }
  intros Heq. destruct (Hsep s1 s2 (js_of_Z n1) (js_of_Z n2)) as [-> Hn]; [apply js_of_Z_no_nul..|done|].
  split; [done|]. by apply (inj js_of_Z).
Qed.

(** ** Splitting *)

Lemma split_at_sep sep l rest : sep ∉ l → split_at sep (l ++ sep :: rest) = l :: split_at sep rest.
Proof.
  induction l as [|c l IH]; cbn [app split_at]; [by rewrite Z.eqb_refl|]. rewrite not_elem_of_cons. intros [Hc Hl].
  destruct (Z.eqb_spec c sep) as [->|_]; [done|]. by rewrite IH.
Qed.

Lemma split_at_last sep p : sep ∉ p → split_at sep p = [p].
Proof.
  induction p as [|c p IH]; cbn [split_at]; [done|]. rewrite not_elem_of_cons. intros [Hc Hp].
  destruct (Z.eqb_spec c sep) as [->|_]; [done|]. by rewrite IH.
Qed.
