(* ===== verification/DiffDisplay.v ===== *)
(** * The difference an edit shows

    [generateDiffString] of [packages/agent/src/harness/tools/edit-diff.ts]: the lines
    removed and added with their numbers, and a few lines around them.  The parts of
    the difference come from a package ([Diff.diffLines]). *)

From S2P Require Import Prelude JsString.

(** A part of the difference. *)
Record part := MkPart { value : jsstring; added : bool; removed : bool }.

(** [part.value.split("\n")] without a last empty line. *)
Definition raw_lines (p : part) : list jsstring :=
  let raw := split_at 10 (value p) in
  match last raw with Some [] => take (length raw - 1) raw | _ => raw end.

(** A line of the output, before it is written with its number. *)
Inductive shown := Added (n : Z) (line : jsstring) | Removed (n : Z) (line : jsstring) | Same (n : Z) (line : jsstring) | Skipped.

Record display := MkDisplay {
  output : list shown; oldLineNum : Z; newLineNum : Z; lastWasChange : bool; firstChangedLine : option Z }.

#[export] Instance display_eta : Eta display := λ d,
  MkDisplay (output d) (oldLineNum d) (newLineNum d) (lastWasChange d) (firstChangedLine d).

Definition push_line (s : shown) (d : display) : display := d <| output := output d ++ [s] |>.

(** The loops over lines. *)
Definition show_added (d : display) (line : jsstring) : display :=
  (push_line (Added (newLineNum d) line) d) <| newLineNum := newLineNum d + 1 |>.
Definition show_removed (d : display) (line : jsstring) : display :=
  (push_line (Removed (oldLineNum d) line) d) <| oldLineNum := oldLineNum d + 1 |>.
Definition show_same (d : display) (line : jsstring) : display :=
  (push_line (Same (oldLineNum d) line) d) <| oldLineNum := oldLineNum d + 1 |> <| newLineNum := newLineNum d + 1 |>.
Definition skip_lines (n : Z) (d : display) : display :=
  d <| oldLineNum := oldLineNum d + n |> <| newLineNum := newLineNum d + n |>.
Definition show_gap (n : Z) (d : display) : display := skip_lines n (push_line Skipped d).

Definition is_change (p : part) : bool := added p || removed p.

(** Lines that have not changed, between what comes before and after. *)
Definition show_context (contextLines : nat) (nextPartIsChange : bool) (raw : list jsstring) (d : display) : display :=
  match lastWasChange d, nextPartIsChange with
  | true, true =>
      if Nat.leb (length raw) (contextLines * 2) then foldl show_same d raw
      else
        let leadingLines := take contextLines raw in
        let trailingLines := drop (length raw - contextLines) raw in
        let skippedLines := zlen raw - zlen leadingLines - zlen trailingLines in
        foldl show_same (show_gap skippedLines (foldl show_same d leadingLines)) trailingLines
  | true, false =>
      let shownLines := take contextLines raw in
      let skippedLines := zlen raw - zlen shownLines in
      let d := foldl show_same d shownLines in
      if 0 <? skippedLines then show_gap skippedLines d else d
  | false, true =>
      let skippedLines := (length raw - contextLines)%nat in
      let d := if Nat.ltb 0 skippedLines then show_gap (Z.of_nat skippedLines) d else d in
      foldl show_same d (drop skippedLines raw)
  | false, false => skip_lines (zlen raw) d
  end.

Definition show_part (contextLines : nat) (nextPartIsChange : bool) (d : display) (p : part) : display :=
  let raw := raw_lines p in
  if is_change p then
    let d := d <| firstChangedLine := match firstChangedLine d with None => Some (newLineNum d) | n => n end |> in
    (foldl (if added p then show_added else show_removed) d raw) <| lastWasChange := true |>
  else (show_context contextLines nextPartIsChange raw d) <| lastWasChange := false |>.

Fixpoint show_parts (contextLines : nat) (d : display) (parts : list part) : display :=
  match parts with
  | [] => d
  | p :: parts => show_parts contextLines (show_part contextLines (match parts with q :: _ => is_change q | [] => false end) d p) parts
  end.

Definition start_display : display := MkDisplay [] 1 1 false None.

(** [padStart(width, " ")]. *)
Definition pad_start (width : nat) (s : jsstring) : jsstring := replicate (width - length s) 32 ++ s.

Definition line_text (width : nat) (s : shown) : jsstring :=
  match s with
  | Added n line => js "+" ++ pad_start width (js_of_Z n) ++ js " " ++ line
  | Removed n line => js "-" ++ pad_start width (js_of_Z n) ++ js " " ++ line
  | Same n line => js " " ++ pad_start width (js_of_Z n) ++ js " " ++ line
  | Skipped => js " " ++ pad_start width [] ++ js " ..."
  end.

Section Diff.
Context (diffLines : jsstring → jsstring → list part).

Definition generateDiffString (oldContent newContent : jsstring) (contextLines : nat) : jsstring * option Z :=
  let maxLineNum := Z.max (zlen (split_at 10 oldContent)) (zlen (split_at 10 newContent)) in
  let lineNumWidth := length (js_of_Z maxLineNum) in
  let d := show_parts contextLines start_display (diffLines oldContent newContent) in
  (join 10 (line_text lineNumWidth <$> output d), firstChangedLine d).
End Diff.

(** ** The numbers are right *)

(** The lines of the old and of the new text the parts stand for. *)
Definition old_lines (parts : list part) : list jsstring := concat (raw_lines <$> filter (λ p, is_change p = false ∨ added p = false) parts).
Definition new_lines (parts : list part) : list jsstring := concat (raw_lines <$> filter (λ p, is_change p = false ∨ added p = true) parts).

(** A line shown with number [n] is the [n]-th of its text. *)
Definition right_number (old new : list jsstring) (s : shown) : Prop :=
  match s with
  | Added n line => 1 ≤ n ∧ new !! Z.to_nat (n - 1) = Some line
  | Removed n line | Same n line => 1 ≤ n ∧ old !! Z.to_nat (n - 1) = Some line
  | Skipped => True
  end.

(** The display after the lines [old] and [new]. *)
Definition display_ok (old new : list jsstring) (d : display) : Prop :=
  oldLineNum d = zlen old + 1 ∧ newLineNum d = zlen new + 1 ∧ Forall (right_number old new) (output d).

Lemma right_number_app old new old' new' s : right_number old new s → right_number (old ++ old') (new ++ new') s.
Proof. destruct s; cbn; try done; intros [? ?]; (split; [done|by apply lookup_app_l_Some]). Qed.

Lemma display_ok_push old new old' new' d s d' :
  display_ok old new d → right_number (old ++ old') (new ++ new') s →
  output d' = output d ++ [s] → oldLineNum d' = oldLineNum d + zlen old' → newLineNum d' = newLineNum d + zlen new' →
  display_ok (old ++ old') (new ++ new') d'.
Proof.
  intros (Ho & Hn & Hall) Hs Hout Hold Hnew. unfold display_ok. rewrite Hout, Hold, Hnew, !zlen_app. split_and!; [lia|lia|].
  apply Forall_app. split; [|by apply Forall_singleton]. eapply Forall_impl; [exact Hall|]. intros. by apply right_number_app.
Qed.

Lemma lookup_end (l : list jsstring) line : (l ++ [line]) !! Z.to_nat (zlen l + 1 - 1) = Some line.
Proof. replace (Z.to_nat (zlen l + 1 - 1)) with (length l) by (unfold zlen; lia). apply list_lookup_middle. done. Qed.

Lemma show_added_ok old new d raw : display_ok old new d → display_ok old (new ++ raw) (foldl show_added d raw).
Proof.
  revert new d. induction raw as [|line raw IH]; intros new d Hd; [by rewrite app_nil_r|]. cbn [foldl].
  replace (new ++ line :: raw) with ((new ++ [line]) ++ raw) by (by rewrite <- app_assoc). apply IH.
  pose proof Hd as (Ho & Hn & _). rewrite <- (app_nil_r old). apply (display_ok_push _ _ [] [line] d (Added (newLineNum d) line)); [done| |done|cbn|done].
  - cbn. rewrite Hn. split; [pose proof (zlen_nonneg new); lia|apply lookup_end].
  - rewrite zlen_nil. unfold show_added, push_line. cbn. lia.
Qed.

Lemma show_removed_ok old new d raw : display_ok old new d → display_ok (old ++ raw) new (foldl show_removed d raw).
Proof.
  revert old d. induction raw as [|line raw IH]; intros old d Hd; [by rewrite app_nil_r|]. cbn [foldl].
  replace (old ++ line :: raw) with ((old ++ [line]) ++ raw) by (by rewrite <- app_assoc). apply IH.
  pose proof Hd as (Ho & Hn & _). rewrite <- (app_nil_r new). apply (display_ok_push _ _ [line] [] d (Removed (oldLineNum d) line)); [done| |done|done|cbn].
  - cbn. rewrite Ho. split; [pose proof (zlen_nonneg old); lia|apply lookup_end].
  - rewrite zlen_nil. unfold show_removed, push_line. cbn. lia.
Qed.

Lemma show_same_ok old new d raw : display_ok old new d → display_ok (old ++ raw) (new ++ raw) (foldl show_same d raw).
Proof.
  revert old new d. induction raw as [|line raw IH]; intros old new d Hd; [by rewrite !app_nil_r|]. cbn [foldl].
  replace (old ++ line :: raw) with ((old ++ [line]) ++ raw) by (by rewrite <- app_assoc).
  replace (new ++ line :: raw) with ((new ++ [line]) ++ raw) by (by rewrite <- app_assoc). apply IH.
  pose proof Hd as (Ho & Hn & _). apply (display_ok_push _ _ [line] [line] d (Same (oldLineNum d) line)); [done| |done|done|done].
  cbn. rewrite Ho. split; [pose proof (zlen_nonneg old); lia|apply lookup_end].
Qed.

Lemma skip_lines_ok old new d raw n : zlen raw = n → display_ok old new d → display_ok (old ++ raw) (new ++ raw) (skip_lines n d).
Proof.
  intros <- (Ho & Hn & Hall). unfold display_ok, skip_lines. cbn. rewrite !zlen_app. split_and!; [lia|lia|].
  eapply Forall_impl; [exact Hall|]. intros. by apply right_number_app.
Qed.

Lemma show_gap_ok old new d raw n : zlen raw = n → display_ok old new d → display_ok (old ++ raw) (new ++ raw) (show_gap n d).
Proof.
  intros Hn Hd. apply skip_lines_ok; [done|]. destruct Hd as (Ho & Hw & Hall). split_and!; [done|done|]. cbn.
  apply Forall_app. split; [done|by apply Forall_singleton].
Qed.

Lemma show_context_ok c next old new d raw :
  display_ok old new d → display_ok (old ++ raw) (new ++ raw) (show_context c next raw d).
Proof.
  intros Hd. unfold show_context. destruct (lastWasChange d), next; [| | |by apply skip_lines_ok].
  - destruct (Nat.leb_spec (length raw) (c * 2)); [by apply show_same_ok|].
    set (mid := take (length raw - c - c) (drop c raw)).
    assert (raw = take c raw ++ mid ++ drop (length raw - c) raw) as Hraw.
    { rewrite <- (take_drop c raw) at 1. f_equal. unfold mid. rewrite <- (take_drop (length raw - c - c) (drop c raw)) at 1.
      f_equal. rewrite drop_drop. f_equal. lia. }
    replace (old ++ raw) with (((old ++ take c raw) ++ mid) ++ drop (length raw - c) raw) by (rewrite Hraw at 4; by rewrite <- !app_assoc).
    replace (new ++ raw) with (((new ++ take c raw) ++ mid) ++ drop (length raw - c) raw) by (rewrite Hraw at 4; by rewrite <- !app_assoc).
    apply show_same_ok, show_gap_ok; [|by apply show_same_ok]. unfold mid, zlen. rewrite !length_take, !length_drop. lia.
  - rewrite <- (take_drop c raw) at 1 2. rewrite !(app_assoc _ (take c raw)).
    destruct (Z.ltb_spec 0 (zlen raw - zlen (take c raw))) as [|Hle].
    + apply show_gap_ok; [|by apply show_same_ok]. unfold zlen. rewrite length_take, length_drop. lia.
    + assert (drop c raw = []) as -> by (apply drop_ge; unfold zlen in Hle; rewrite length_take in Hle; lia).
      rewrite !app_nil_r. by apply show_same_ok.
  - set (k := (length raw - c)%nat). rewrite <- (take_drop k raw) at 1 2. rewrite !(app_assoc _ (take k raw)).
    apply show_same_ok. destruct (Nat.ltb_spec 0 k).
    + apply show_gap_ok; [|done]. unfold zlen. rewrite length_take. lia.
    + replace k with O by lia. by rewrite !app_nil_r.
Qed.

Lemma show_part_ok c next old new d p :
  display_ok old new d → display_ok (old ++ old_lines [p]) (new ++ new_lines [p]) (show_part c next d p).
Proof.
  intros Hd. unfold show_part, old_lines, new_lines. rewrite !filter_cons, !filter_nil. unfold is_change.
  assert (∀ o n d', display_ok o n d' → ∀ b, display_ok o n (d' <| lastWasChange := b |>)) as Hlast by done.
  destruct (added p) eqn:Ha, (removed p) eqn:Hr; cbn [orb]; repeat case_decide; try (destruct_or?; congruence); try (exfalso; naive_solver);
    cbn [fmap list_fmap concat]; rewrite ?app_nil_r; apply Hlast.
  - by apply show_added_ok.
  - by apply show_added_ok.
  - by apply show_removed_ok.
  - by apply show_context_ok.
Qed.

(** Every line shown has its number in the text it is from: the new one for lines
    that were added, the old one for the others. *)
Lemma show_parts_numbers c parts :
  Forall (right_number (old_lines parts) (new_lines parts)) (output (show_parts c start_display parts)).
Proof.
  assert (∀ ps old new d, display_ok old new d → display_ok (old ++ old_lines ps) (new ++ new_lines ps) (show_parts c d ps)) as H.
  { intros ps. induction ps as [|p ps IH]; intros old new d Hd; cbn [show_parts]; [by rewrite !app_nil_r|].
    replace (old_lines (p :: ps)) with (old_lines [p] ++ old_lines ps)
      by (unfold old_lines; change (p :: ps) with ([p] ++ ps); by rewrite filter_app, fmap_app, concat_app).
    replace (new_lines (p :: ps)) with (new_lines [p] ++ new_lines ps)
      by (unfold new_lines; change (p :: ps) with ([p] ++ ps); by rewrite filter_app, fmap_app, concat_app).
    rewrite !app_assoc. by apply IH, show_part_ok. }
  apply (H parts [] [] start_display). split_and!; [done|done|constructor].
Qed.
