(* ===== verification/JsMap.v ===== *)
(** * JavaScript's [Map]: a finite map that remembers insertion order

    [get], [has], [set], [delete] and iteration ([values], [keys]) as
    ECMAScript defines them: setting a key that is present keeps its place,
    setting a new key appends it. Keys are compared with decidable equality
    (the sources only use strings and integers as keys). *)

From S2P Require Import Prelude.

Section JsMap.
Context {K : Type} `{EqDecision K} {V : Type}.

Definition jsmap : Type := list (K * V).

Fixpoint map_get (m : jsmap) (k : K) : option V :=
  match m with
  | [] => None
  | (k', v) :: m => if decide (k = k') then Some v else map_get m k
  end.

Definition map_has (m : jsmap) (k : K) : bool := bool_decide (is_Some (map_get m k)).

Fixpoint map_set (m : jsmap) (k : K) (v : V) : jsmap :=
  match m with
  | [] => [(k, v)]
  | (k', v') :: m => if decide (k = k') then (k', v) :: m else (k', v') :: map_set m k v
  end.

Definition map_delete (m : jsmap) (k : K) : jsmap := filter (B:=list (K * V)) (λ kv, kv.1 ≠ k) m.

Definition map_keys (m : jsmap) : list K := m.*1.
Definition map_values (m : jsmap) : list V := m.*2.

(** [new Map(pairs)]. *)
Definition map_of (pairs : list (K * V)) : jsmap := foldl (λ m kv, map_set m kv.1 kv.2) [] pairs.

(** What every [Map] satisfies: no key twice. *)
Definition map_wf (m : jsmap) : Prop := NoDup (map_keys m).

Lemma map_has_spec m k : map_has m k = true ↔ is_Some (map_get m k).
Proof. unfold map_has. apply bool_decide_eq_true. Qed.

Lemma map_has_false m k : map_has m k = false ↔ map_get m k = None.
Proof. unfold map_has. rewrite bool_decide_eq_false, <- eq_None_not_Some. done. Qed.

Lemma map_get_elem m k v : map_get m k = Some v → (k, v) ∈ m.
Proof.
  induction m as [|[k' v'] m IH]; cbn; [done|]. case_decide; [subst; intros [= ->]; left|]. by right; auto.
Qed.

Lemma map_get_None m k : map_get m k = None ↔ k ∉ map_keys m.
Proof.
  induction m as [|[k' v'] m IH]; cbn; [split; [intros _; apply not_elem_of_nil|done]|].
  rewrite not_elem_of_cons. case_decide; [split; [done|by intros [? _]]|]. naive_solver.
Qed.

Lemma elem_map_get m k v : map_wf m → (k, v) ∈ m → map_get m k = Some v.
Proof.
  unfold map_wf. induction m as [|[k' v'] m IH]; cbn; [by intros _ ?%elem_of_nil|].
  intros [Hk Hm]%NoDup_cons [[= <- <-]|Hin]%elem_of_cons; [by rewrite decide_True|].
  rewrite decide_False; [auto|]. intros ->. apply Hk. by apply (list_elem_of_fmap_2 fst) in Hin.
Qed.

Lemma map_get_set m k k' v : map_get (map_set m k v) k' = if decide (k' = k) then Some v else map_get m k'.
Proof.
  induction m as [|[k0 v0] m IH]; cbn; [repeat case_decide; congruence|].
  destruct (decide (k = k0)); cbn; repeat case_decide; try congruence; rewrite IH; by case_decide.
Qed.

Lemma map_keys_set m k v :
  map_keys (map_set m k v) = if map_has m k then map_keys m else map_keys m ++ [k].
Proof.
  unfold map_has, map_keys in *. induction m as [|[k0 v0] m IH]; cbn; [done|].
  destruct (decide (k = k0)); cbn; [done|]. rewrite IH. by case_bool_decide.
Qed.

Lemma map_set_wf m k v : map_wf m → map_wf (map_set m k v).
Proof.
  unfold map_wf. rewrite map_keys_set. destruct (map_has m k) eqn:Hk; [done|].
  apply map_has_false, map_get_None in Hk. intros Hm. apply NoDup_app. split_and!; [done| |].
  - intros x Hx ->%list_elem_of_singleton. done.
  - apply NoDup_singleton.
Qed.

Lemma map_get_delete m k k' : map_get (map_delete m k) k' = if decide (k' = k) then None else map_get m k'.
Proof.
  unfold map_delete. induction m as [|[k0 v0] m IH]; [cbn; by case_decide|].
  rewrite filter_cons. cbn [fst map_get]. destruct (decide (k0 ≠ k)) as [Hk|Hk]; cbn [map_get]; rewrite IH; repeat case_decide; try congruence.
  by destruct Hk; intros ->.
Qed.

Lemma map_delete_wf m k : map_wf m → map_wf (map_delete m k).
Proof.
  unfold map_wf, map_keys, map_delete. induction m as [|[k0 v0] m IH]; [done|].
  rewrite fmap_cons. intros [Hk Hm]%NoDup_cons. rewrite filter_cons. cbn [fst snd] in *. case_decide; [|auto].
  rewrite fmap_cons.
  apply NoDup_cons. split; [|auto]. intros ([k1 v1] & Heq & Hin)%list_elem_of_fmap. cbn in Heq. subst.
  apply list_elem_of_filter in Hin as [_ Hin]. apply Hk. by apply (list_elem_of_fmap_2 fst) in Hin.
Qed.

Lemma map_of_wf pairs : map_wf (map_of pairs).
Proof.
  unfold map_of. assert (∀ m, map_wf m → map_wf (foldl (λ m kv, map_set m kv.1 kv.2) m pairs)) as H.
  { induction pairs as [|[k v] pairs IH]; cbn; [done|]. intros m Hm. by apply IH, map_set_wf. }
  apply H, NoDup_nil_2.
Qed.

(** A key of [map_of] has the value of its last pair. *)
Lemma map_of_snoc pairs k v : map_of (pairs ++ [(k, v)]) = map_set (map_of pairs) k v.
Proof. unfold map_of. by rewrite foldl_app. Qed.

Lemma map_of_get_elem pairs k v : map_get (map_of pairs) k = Some v → (k, v) ∈ pairs.
Proof.
  revert v. induction pairs as [|[k' v'] pairs IH] using rev_ind; intros v; [done|].
  rewrite map_of_snoc, map_get_set. rewrite elem_of_app, list_elem_of_singleton.
  case_decide; [intros [= ->]; subst; by right|]. auto.
Qed.

Lemma map_of_has pairs k : is_Some (map_get (map_of pairs) k) ↔ k ∈ pairs.*1.
Proof.
  induction pairs as [|[k' v'] pairs IH] using rev_ind.
  - cbn. split; [by intros []|by intros ?%elem_of_nil].
  - rewrite map_of_snoc, map_get_set, fmap_app, elem_of_app. cbn. rewrite list_elem_of_singleton, <- IH.
    case_decide; naive_solver.
Qed.

(** Without repeated keys, [map_of] is the list of pairs itself. *)
Lemma map_set_fresh m k v : map_get m k = None → map_set m k v = m ++ [(k, v)].
Proof.
  induction m as [|[k' v'] m IH]; cbn; [done|]. case_decide; [done|]. intros H1. by rewrite IH.
Qed.

Lemma map_of_NoDup pairs : NoDup pairs.*1 → map_of pairs = pairs.
Proof.
  induction pairs as [|[k v] pairs IH] using rev_ind; [done|].
  rewrite fmap_app, map_of_snoc. intros (H1 & H2 & _)%NoDup_app. rewrite IH by done. apply map_set_fresh.
  apply map_get_None. intros Hin. eapply H2; [exact Hin|]. cbn. by apply list_elem_of_singleton.
Qed.

End JsMap.
Arguments jsmap : clear implicits.
Arguments map_wf {_ _} _.
#[export] Hint Resolve map_set_wf map_delete_wf map_of_wf : js.
