(* ===== verification/Truncate.v ===== *)
(** * Truncation of tool output

    [packages/agent/src/harness/utils/truncate.ts]: the head or the tail of a
    text, in whole lines, within a number of lines and a number of UTF-8 bytes.
    Limits are integers; [runtimeBuffer] says whether the host has a [Buffer]. *)

From S2P Require Import Prelude JsString.

Definition DEFAULT_MAX_LINES : Z := 2000.
Definition DEFAULT_MAX_BYTES : Z := 50 * 1024.
Definition GREP_MAX_LINE_LENGTH : Z := 500.

Inductive limit_kind := by_lines | by_bytes.

#[export] Instance limit_kind_eq_dec : EqDecision limit_kind.
Proof. solve_decision. Defined.

Record TruncationResult := MkTruncation {
  content : jsstring; truncated : bool; truncatedBy : option limit_kind;
  totalLines : Z; totalBytes : Z; outputLines : Z; outputBytes : Z;
  lastLinePartial : bool; firstLineExceedsLimit : bool; maxLines : Z; maxBytes : Z }.

Record TruncationOptions := MkTruncationOptions { opt_maxLines : option Z; opt_maxBytes : option Z }.

(** [lines[0]] of a text without lines is not a string. *)
Inductive truncate_error := TypeError_byteLength.

(** ** Byte lengths *)

(** The loop over the code units without a [Buffer]. *)
Fixpoint count_bytes (s : jsstring) : Z :=
  match s with
  | [] => 0
  | code :: rest =>
      if code <=? 127 then 1 + count_bytes rest
      else if code <=? 2047 then 2 + count_bytes rest
      else if is_high code then
        match rest with
        | next :: rest' => if is_low next then 4 + count_bytes rest' else 3 + count_bytes rest
        | [] => 3 + count_bytes rest
        end
      else 3 + count_bytes rest
  end.

(** The code units before the first that is not ASCII, and the rest. *)
Fixpoint span_ascii (s : jsstring) : Z * jsstring :=
  match s with
  | c :: s' => if in_range 0 127 c then let (n, rest) := span_ascii s' in (1 + n, rest) else (0, s)
  | [] => (0, [])
  end.

Definition utf8ByteLength (runtimeBuffer : bool) (content : jsstring) : Z :=
  if runtimeBuffer then zlen (text_encode content)
  else
    match span_ascii content with
    | (_, []) => zlen content
    | (firstNonAscii, rest) => firstNonAscii + count_bytes rest
    end.

Definition ends_with_newline (s : jsstring) : bool := bool_decide (last s = Some 10).

Definition splitLinesForCounting (content : jsstring) : list jsstring :=
  match content with
  | [] => []
  | _ =>
      let lines := split_at 10 content in
      if ends_with_newline content then take (length lines - 1) lines else lines
  end.

Fixpoint replaceUnpairedSurrogates (s : jsstring) : jsstring :=
  match s with
  | [] => []
  | code :: rest =>
      if is_high code then
        match rest with
        | next :: rest' =>
            if is_low next then code :: next :: replaceUnpairedSurrogates rest'
            else REPLACEMENT :: replaceUnpairedSurrogates rest
        | [] => REPLACEMENT :: replaceUnpairedSurrogates rest
        end
      else if is_low code then REPLACEMENT :: replaceUnpairedSurrogates rest
      else code :: replaceUnpairedSurrogates rest
  end.

(** The loop of [truncateStringToBytesFromEnd] over the code units from the last
    to the first: the units kept and whether one of them is an unpaired
    surrogate. *)
Fixpoint units_from_end (units : list Z) (maxBytes outputBytes : Z) (kept : jsstring) (needsReplacement : bool)
    : jsstring * bool :=
  match units with
  | [] => (kept, needsReplacement)
  | code :: units' =>
      let keep_one bytes unpaired :=
        if maxBytes <? outputBytes + bytes then (kept, needsReplacement)
        else units_from_end units' maxBytes (outputBytes + bytes) (code :: kept) (needsReplacement || unpaired) in
      if is_low code then
        match units' with
        | previous :: units'' =>
            if is_high previous then
              if maxBytes <? outputBytes + 4 then (kept, needsReplacement)
              else units_from_end units'' maxBytes (outputBytes + 4) (previous :: code :: kept) needsReplacement
            else keep_one 3 true
        | [] => keep_one 3 true
        end
      else if is_high code then keep_one 3 true
      else keep_one (if code <=? 127 then 1 else if code <=? 2047 then 2 else 3) false
  end.

Definition truncateStringToBytesFromEnd (str : jsstring) (maxBytes : Z) : jsstring :=
  if maxBytes <=? 0 then []
  else
    let (output, needsReplacement) := units_from_end (reverse str) maxBytes 0 [] false in
    if needsReplacement then replaceUnpairedSurrogates output else output.

Section Truncate.
Context (runtimeBuffer : bool).

(** The loop of [truncateHead] over the lines from index [i] on. *)
Fixpoint head_lines (maxLines maxBytes : Z) (lines : list jsstring) (i : Z) (output : list jsstring) (bytes : Z)
    : list jsstring * Z * limit_kind :=
  match lines with
  | [] => (output, bytes, by_lines)
  | line :: lines =>
      if maxLines <=? i then (output, bytes, by_lines)
      else
        let lineBytes := utf8ByteLength runtimeBuffer line + (if 0 <? i then 1 else 0) in
        if maxBytes <? bytes + lineBytes then (output, bytes, by_bytes)
        else head_lines maxLines maxBytes lines (i + 1) (output ++ [line]) (bytes + lineBytes)
  end.

(** Whether the limit that stopped the loop was the number of lines after all. *)
Definition final_limit (maxLines maxBytes : Z) (output : list jsstring) (bytes : Z) (k : limit_kind) : limit_kind :=
  if (maxLines <=? zlen output) && (bytes <=? maxBytes) then by_lines else k.

Definition truncateHead (content : jsstring) (options : TruncationOptions) : result truncate_error TruncationResult :=
  let maxLines := default DEFAULT_MAX_LINES (opt_maxLines options) in
  let maxBytes := default DEFAULT_MAX_BYTES (opt_maxBytes options) in
  let totalBytes := utf8ByteLength runtimeBuffer content in
  let lines := splitLinesForCounting content in
  let totalLines := zlen lines in
  if (totalLines <=? maxLines) && (totalBytes <=? maxBytes) then
    Ok (MkTruncation content false None totalLines totalBytes totalLines totalBytes false false maxLines maxBytes)
  else
    match lines with
    | [] => Err TypeError_byteLength
    | first :: _ =>
        if maxBytes <? utf8ByteLength runtimeBuffer first then
          Ok (MkTruncation [] true (Some by_bytes) totalLines totalBytes 0 0 false true maxLines maxBytes)
        else
          let '(output, bytes, k) := head_lines maxLines maxBytes lines 0 [] 0 in
          let outputContent := join 10 output in
          Ok (MkTruncation outputContent true (Some (final_limit maxLines maxBytes output bytes k)) totalLines totalBytes
                (zlen output) (utf8ByteLength runtimeBuffer outputContent) false false maxLines maxBytes)
    end.

(** The loop of [truncateTail] over the lines from the last to the first; the
    output, its bytes, the limit and whether its one line is cut. *)
Fixpoint tail_lines (maxLines maxBytes : Z) (lines : list jsstring) (output : list jsstring) (bytes : Z)
    : list jsstring * Z * limit_kind * bool :=
  match lines with
  | [] => (output, bytes, by_lines, false)
  | line :: lines =>
      if maxLines <=? zlen output then (output, bytes, by_lines, false)
      else
        let lineBytes := utf8ByteLength runtimeBuffer line + (if 0 <? zlen output then 1 else 0) in
        if maxBytes <? bytes + lineBytes then
          match output with
          | [] =>
              let truncatedLine := truncateStringToBytesFromEnd line maxBytes in
              ([truncatedLine], utf8ByteLength runtimeBuffer truncatedLine, by_bytes, true)
          | _ => (output, bytes, by_bytes, false)
          end
        else tail_lines maxLines maxBytes lines (line :: output) (bytes + lineBytes)
  end.

Definition truncateTail (content : jsstring) (options : TruncationOptions) : TruncationResult :=
  let maxLines := default DEFAULT_MAX_LINES (opt_maxLines options) in
  let maxBytes := default DEFAULT_MAX_BYTES (opt_maxBytes options) in
  let totalBytes := utf8ByteLength runtimeBuffer content in
  let lines := splitLinesForCounting content in
  let totalLines := zlen lines in
  if (totalLines <=? maxLines) && (totalBytes <=? maxBytes) then
    MkTruncation content false None totalLines totalBytes totalLines totalBytes false false maxLines maxBytes
  else
    let '(output, bytes, k, partial) := tail_lines maxLines maxBytes (reverse lines) [] 0 in
    let outputContent := join 10 output in
    MkTruncation outputContent true (Some (final_limit maxLines maxBytes output bytes k)) totalLines totalBytes
      (zlen output) (utf8ByteLength runtimeBuffer outputContent) partial false maxLines maxBytes.
End Truncate.

(** A line cut to a number of code units, with a mark. *)
Definition truncateLine (line : jsstring) (maxChars : option Z) : jsstring * bool :=
  let maxChars := default GREP_MAX_LINE_LENGTH maxChars in
  if zlen line <=? maxChars then (line, false)
  else
    let stop := if maxChars <? 0 then Z.max 0 (zlen line + maxChars) else maxChars in
    (subarray line 0 stop ++ js "... [truncated]", true).

(** ** Byte lengths *)

Definition size (s : jsstring) : Z := zlen (text_encode s).

Lemma size_scalars c cs s : scalars s = c :: cs → size s = zlen (utf8_scalar c) + zlen (concat (utf8_scalar <$> cs)).
Proof. intros Hs. unfold size, text_encode. rewrite Hs. cbn. by rewrite zlen_app. Qed.

Lemma utf8_scalar_length c :
  scalar_ok c → zlen (utf8_scalar c) = if c <=? 127 then 1 else if c <=? 2047 then 2 else if c <=? 65535 then 3 else 4.
Proof.
  intros _. unfold utf8_scalar.
  destruct (Z.ltb_spec c 128), (Z.leb_spec c 127); try lia; [done|].
  destruct (Z.ltb_spec c 2048), (Z.leb_spec c 2047); try lia; [done|].
  destruct (Z.ltb_spec c 65536), (Z.leb_spec c 65535); try lia; done.
Qed.

(** The bytes of a unit that is no part of a pair. *)
Definition unit_size (u : Z) : Z := if u <=? 127 then 1 else if u <=? 2047 then 2 else 3.

Lemma size_unit u s :
  unit_ok u → (is_high u = true → ∀ v r, s = v :: r → is_low v = false) → size (u :: s) = unit_size u + size s.
Proof.
  intros Hu Hs. assert (scalars (u :: s) = (if is_high u || is_low u then REPLACEMENT else u) :: scalars s) as Hsc.
  { cbn [scalars]. destruct (is_high u) eqn:E1; cbn [orb]; [|by destruct (is_low u)].
    destruct s as [|v r]; [done|]. by rewrite (Hs eq_refl v r). }
  rewrite (size_scalars _ _ _ Hsc). unfold size, text_encode. f_equal. unfold unit_size, unit_ok in *.
  destruct (is_high u) eqn:E1; [|destruct (is_low u) eqn:E2]; cbn [orb].
  - utf_facts. destruct (Z.leb_spec u 127), (Z.leb_spec u 2047); try lia. done.
  - utf_facts. destruct (Z.leb_spec u 127), (Z.leb_spec u 2047); try lia. done.
  - rewrite utf8_scalar_length by (utf_facts; unfold scalar_ok; lia).
    by destruct (Z.leb_spec u 127), (Z.leb_spec u 2047), (Z.leb_spec u 65535); try lia.
Qed.

Lemma size_pair u v s : is_high u = true → is_low v = true → size (u :: v :: s) = 4 + size s.
Proof.
  intros Hu Hv. rewrite (size_scalars (pair_value u v) (scalars s)) by (cbn [scalars]; by rewrite Hu, Hv).
  unfold size, text_encode. f_equal. utf_facts. rewrite utf8_scalar_length by (unfold scalar_ok, pair_value; lia).
  unfold pair_value. repeat (case_match; try done); lia.
Qed.

Lemma size_nil : size [] = 0.
Proof. done. Qed.

Lemma size_nonneg s : 0 ≤ size s.
Proof. apply zlen_nonneg. Qed.

Lemma count_bytes_size s : string_ok s → count_bytes s = size s.
Proof.
  induction s as [|u|u v s IH1 IH2] using list_ind2; intros Hs; [done| |].
  - apply Forall_cons in Hs as [Hu _]. rewrite size_unit, size_nil by done. unfold unit_size. cbn [count_bytes].
    repeat case_match; lia.
  - pose proof Hs as Hs'. apply Forall_cons in Hs' as [Hu Hvs]. pose proof Hvs as Hvs'. apply Forall_cons in Hvs' as [Hv Hs0].
    specialize (IH1 Hs0). specialize (IH2 Hvs). cbn [count_bytes] in IH2 |- *. fold (count_bytes s).
    destruct (is_high u) eqn:E1.
    + assert (2047 < u) as Hbig by (utf_facts; lia).
      destruct (Z.leb_spec u 127), (Z.leb_spec u 2047); try lia. destruct (is_low v) eqn:E2.
      * rewrite size_pair by done. lia.
      * rewrite size_unit; [|done|by intros _ ? ? [= <- <-]]. unfold unit_size.
        destruct (Z.leb_spec u 127), (Z.leb_spec u 2047); try lia.
    + rewrite size_unit; [|done|by rewrite E1]. rewrite <- IH2. unfold unit_size. repeat case_match; lia.
Qed.

Lemma span_ascii_size s : string_ok s → let (n, rest) := span_ascii s in
  size s = n + size rest ∧ string_ok rest ∧ (rest = [] → size s = zlen s).
Proof.
  induction 1 as [|u s Hu Hs IH]; [split_and!; [done|constructor|done]|]. cbn [span_ascii]. destruct (in_range 0 127 u) eqn:E.
  - destruct (span_ascii s) as [n rest]. destruct IH as (IH1 & IH2 & IH3).
    apply in_range_spec in E. rewrite size_unit; [|done|].
    2: { intros [H1 H2]%is_high_spec. lia. }
    assert (unit_size u = 1) as -> by (unfold unit_size; by destruct (Z.leb_spec u 127); [|lia]).
    rewrite zlen_cons. split_and!; [lia|done|]. intros Hr. by rewrite IH3.
  - split_and!; [lia|by constructor|done].
Qed.

Lemma utf8ByteLength_size b s : string_ok s → utf8ByteLength b s = size s.
Proof.
  intros Hs. unfold utf8ByteLength. destruct b; [done|]. pose proof (span_ascii_size s Hs) as Hspan.
  destruct (span_ascii s) as [n [|c rest]]; destruct Hspan as (H1 & H2 & H3); [by rewrite H3|].
  by rewrite count_bytes_size.
Qed.

(** ** Lines *)

Lemma split_at_nonempty sep s : split_at sep s ≠ [].
Proof. induction s as [|c s IH]; cbn [split_at]; [done|]. case_match; [done|]. by case_match. Qed.

Lemma join_split sep s : join sep (split_at sep s) = s.
Proof.
  induction s as [|c s IH]; cbn [split_at]; [done|]. destruct (Z.eqb_spec c sep) as [->|_].
  - pose proof (split_at_nonempty sep s). destruct (split_at sep s) as [|l ls] eqn:E; [done|].
    change (join sep ([] :: l :: ls)) with (sep :: join sep (l :: ls)). by rewrite IH.
  - destruct (split_at sep s) as [|l ls] eqn:E; [by destruct (split_at_nonempty sep s)|].
    destruct ls as [|l' ls]; cbn [join] in *; [by rewrite IH|]. cbn [app]. by rewrite IH.
Qed.

Lemma join_snoc sep ls l : ls ≠ [] → join sep (ls ++ [l]) = join sep ls ++ sep :: l.
Proof.
  induction ls as [|l0 ls IH]; [done|]. intros _. destruct ls as [|l1 ls]; [done|].
  change (join sep ((l0 :: l1 :: ls) ++ [l])) with (l0 ++ sep :: join sep ((l1 :: ls) ++ [l])).
  change (join sep (l0 :: l1 :: ls)) with (l0 ++ sep :: join sep (l1 :: ls)).
  rewrite IH by done. by rewrite <- app_assoc.
Qed.

Lemma join_app sep ls ls' : ls ≠ [] → ls' ≠ [] → join sep (ls ++ ls') = join sep ls ++ sep :: join sep ls'.
Proof.
  intros Hls. induction ls' as [|l ls' IH] using rev_ind; [done|]. intros _.
  destruct (decide (ls' = [])) as [->|Hne]; [by apply join_snoc|].
  rewrite app_assoc, join_snoc, IH, join_snoc by (done || by destruct ls). by rewrite <- app_assoc.
Qed.

Lemma split_at_ok sep s : string_ok s → Forall string_ok (split_at sep s).
Proof.
  assert (string_ok []) as Hnil by apply Forall_nil_2.
  induction 1 as [|c s Hc Hs IH]; cbn [split_at]; [by apply Forall_singleton|]. destruct (c =? sep).
  - by apply Forall_cons.
  - destruct IH as [|l ls Hl Hls]; (apply Forall_cons; split; [by apply Forall_cons|done]).
Qed.

Lemma split_at_end sep s :
  last s = Some sep → ∃ ls, split_at sep s = ls ++ [[]] ∧ ls ≠ [].
Proof.
  induction s as [|c s IH]; [done|]. cbn [split_at]. destruct s as [|c' s].
  - intros [= ->]. rewrite Z.eqb_refl. by exists [[]].
  - intros Hlast. destruct (IH Hlast) as (ls & Hls & Hne). rewrite Hls. destruct (c =? sep).
    + by exists ([] :: ls).
    + destruct ls as [|l ls]; [done|]. by exists ((c :: l) :: ls).
Qed.

(** The lines of a text and its final newline are the text. *)
Lemma lines_join s :
  join 10 (splitLinesForCounting s) ++ (if ends_with_newline s then [10] else []) = s
  ∧ (s ≠ [] → splitLinesForCounting s ≠ []).
Proof.
  unfold splitLinesForCounting, ends_with_newline. destruct s as [|c s]; [done|].
  destruct (bool_decide (last (c :: s) = Some 10)) eqn:E; [apply bool_decide_eq_true in E|].
  - destruct (split_at_end 10 (c :: s) E) as (ls & Hls & Hne). pose proof (join_split 10 (c :: s)) as Hj.
    rewrite Hls, length_app. rewrite Hls, join_snoc in Hj by done. cbn [length].
    by rewrite Nat.add_sub, take_app_length.
  - rewrite join_split, app_nil_r. split; [done|]. intros _. apply split_at_nonempty.
Qed.

Lemma lines_ok s : string_ok s → Forall string_ok (splitLinesForCounting s).
Proof.
  intros Hs. unfold splitLinesForCounting. destruct s as [|c s]; [constructor|].
  case_match; [apply Forall_take|]; by apply split_at_ok.
Qed.

Lemma size_newline a b : string_ok a → size (a ++ 10 :: b) = size a + 1 + size b.
Proof.
  assert (∀ b, size (10 :: b) = 1 + size b) as H10 by (intros; by rewrite size_unit).
  induction a as [|u|u v a IH1 IH2] using list_ind2; intros Ha; cbn [app].
  - rewrite H10, size_nil. lia.
  - apply Forall_cons in Ha as [Hu _]. rewrite !size_unit by (done || by intros _ ? ? [= <- <-]).
    rewrite size_nil. change (unit_size 10) with 1. lia.
  - pose proof Ha as Ha'. apply Forall_cons in Ha' as [Hu Hva]. pose proof Hva as Hva'. apply Forall_cons in Hva' as [Hv Ha0].
    destruct (is_high u && is_low v) eqn:E.
    + apply andb_true_iff in E as [E1 E2]. rewrite !size_pair by done. rewrite IH1 by done. lia.
    + assert (is_high u = true → ∀ w r x, v :: x = w :: r → is_low w = false) as Hnp.
      { intros Hh w r x [= <- _]. by rewrite Hh in E. }
      rewrite !(size_unit u) by (done || by intros Hh ? ? ?; eapply (Hnp Hh)).
      specialize (IH2 Hva). cbn [app] in IH2. rewrite IH2. lia.
Qed.

(** The bytes of some lines joined. *)
Definition lines_size (ls : list jsstring) : Z := size (join 10 ls).

Lemma join_ok ls : Forall string_ok ls → string_ok (join 10 ls).
Proof.
  induction 1 as [|l ls Hl Hls IH]; [constructor|]. destruct ls; [done|]. cbn [join] in *.
  apply Forall_app; split; [done|]. constructor; [unfold unit_ok; lia|done].
Qed.

Lemma lines_size_snoc ls l :
  Forall string_ok ls → lines_size (ls ++ [l]) = lines_size ls + (size l + if 0 <? zlen ls then 1 else 0).
Proof.
  intros Hls. unfold lines_size. destruct ls as [|l0 ls]; [change (size l = 0 + (size l + 0)); lia|].
  rewrite join_snoc, size_newline by (done || by apply join_ok).
  rewrite (proj2 (Z.ltb_lt 0 _)) by (rewrite zlen_cons; pose proof (zlen_nonneg ls); lia). lia.
Qed.

Lemma lines_size_cons ls l :
  string_ok l → lines_size (l :: ls) = lines_size ls + (size l + if 0 <? zlen ls then 1 else 0).
Proof.
  intros Hl. unfold lines_size. destruct ls as [|l0 ls]; [change (size l = 0 + (size l + 0)); lia|].
  change (join 10 (l :: l0 :: ls)) with (l ++ 10 :: join 10 (l0 :: ls)). rewrite size_newline by done.
  rewrite (proj2 (Z.ltb_lt 0 _)) by (rewrite zlen_cons; pose proof (zlen_nonneg ls); lia). lia.
Qed.

(** ** The loops *)

Section Loops.
Context (runtimeBuffer : bool).
#[local] Abbreviation head_loop := (head_lines runtimeBuffer).
#[local] Abbreviation tail_loop := (tail_lines runtimeBuffer).

Lemma head_lines_spec ml mb lines output :
  Forall string_ok (output ++ lines) → lines_size output ≤ mb →
  ∃ n k, head_loop ml mb lines (zlen output) output (lines_size output)
         = (output ++ take n lines, lines_size (output ++ take n lines), k)
    ∧ (n ≤ length lines)%nat ∧ lines_size (output ++ take n lines) ≤ mb
    ∧ zlen output + Z.of_nat n ≤ Z.max ml (zlen output)
    ∧ ∀ line, lines !! n = Some line →
        ml ≤ zlen output + Z.of_nat n ∨ mb < lines_size (output ++ take (S n) lines).
Proof.
  revert output. induction lines as [|line lines IH]; intros output Hok Hsize; cbn [head_lines].
  { exists 0%nat, by_lines. rewrite app_nil_r. split_and!; [done|done|done|lia|done]. }
  pose proof Hok as (Hout & [Hline Hlines]%Forall_cons)%Forall_app.
  destruct (Z.leb_spec ml (zlen output)).
  { exists 0%nat, by_lines. rewrite app_nil_r. split_and!; [done|cbn; lia|done|lia|]. intros ? _. left. lia. }
  rewrite utf8ByteLength_size by done. rewrite <- lines_size_snoc by done.
  destruct (Z.ltb_spec mb (lines_size (output ++ [line]))).
  { exists 0%nat, by_bytes. rewrite app_nil_r. split_and!; [done|cbn; lia|done|lia|]. intros ? _. by right. }
  destruct (IH (output ++ [line])) as (n & k & Heq & Hn & Hsz & Hmax & Hnext); [by rewrite <- app_assoc|done|].
  rewrite zlen_app, zlen_cons, zlen_nil in *. replace (zlen output + (1 + 0)) with (zlen output + 1) in * by lia.
  rewrite <- !app_assoc in *. exists (S n), k. cbn [take length]. split_and!; [exact Heq|lia|done|lia|].
  intros l Hl. destruct (Hnext l Hl) as [?|?]; [left; lia|by right].
Qed.

Lemma tail_lines_spec ml mb rlines output :
  Forall string_ok (rlines ++ output) → lines_size output ≤ mb →
  (∃ n k, tail_loop ml mb rlines output (lines_size output)
          = (reverse (take n rlines) ++ output, lines_size (reverse (take n rlines) ++ output), k, false)
     ∧ (n ≤ length rlines)%nat ∧ lines_size (reverse (take n rlines) ++ output) ≤ mb
     ∧ zlen output + Z.of_nat n ≤ Z.max ml (zlen output)
     ∧ ∀ line, rlines !! n = Some line →
         ml ≤ zlen output + Z.of_nat n ∨ mb < lines_size (reverse (take (S n) rlines) ++ output))
  ∨ ∃ line rest, output = [] ∧ rlines = line :: rest ∧ 0 < ml ∧ mb < size line
      ∧ let cut := truncateStringToBytesFromEnd line mb in
        tail_loop ml mb rlines output (lines_size output)
        = ([cut], utf8ByteLength runtimeBuffer cut, by_bytes, true).
Proof.
  revert output. induction rlines as [|line lines IH]; intros output Hok Hsize; cbn [tail_lines].
  { left. exists 0%nat, by_lines. split_and!; [done|done|done|lia|done]. }
  pose proof Hok as ([Hline Hlines]%Forall_cons & Hout)%Forall_app.
  destruct (Z.leb_spec ml (zlen output)).
  { left. exists 0%nat, by_lines. split_and!; [done|cbn; lia|done|lia|]. intros ? _. left. lia. }
  rewrite utf8ByteLength_size by done. rewrite <- lines_size_cons by done.
  destruct (Z.ltb_spec mb (lines_size (line :: output))).
  - destruct output as [|o output].
    + right. exists line, lines. rewrite zlen_nil in *. split_and!; [done|done|lia| |done]. unfold lines_size in *. cbn [join] in *. lia.
    + left. exists 0%nat, by_bytes. split_and!; [done|cbn; lia|done|lia|]. intros ? _. by right.
  - destruct (IH (line :: output)) as [(n & k & Heq & Hn & Hsz & Hmax & Hnext)|(l & rest & ? & _)];
      [apply Forall_app; split; [done|by apply Forall_cons]|done| |done].
    left. exists (S n), k. rewrite zlen_cons in *. cbn [take length]. rewrite reverse_cons, <- app_assoc. cbn [app].
    split_and!; [done|lia|done|lia|]. intros l Hl. destruct (Hnext l Hl) as [?|Hlt]; [left; lia|]. right.
    change (take (S (S n)) (line :: lines)) with (line :: take (S n) lines). by rewrite reverse_cons, <- app_assoc.
Qed.

(** ** A line cut from its start *)

Lemma replaceUnpairedSurrogates_wf s : replaceUnpairedSurrogates s = to_well_formed s.
Proof.
  induction s as [|u|u v s IH1 IH2] using list_ind2; [done| |].
  - cbn. by destruct (is_high u), (is_low u).
  - cbn [replaceUnpairedSurrogates to_well_formed] in IH2 |- *.
    destruct (is_high u); [destruct (is_low v); [by rewrite IH1|f_equal; exact IH2]|].
    destruct (is_low u); f_equal; exact IH2.
Qed.

Lemma to_well_formed_ok s : string_ok s → string_ok (to_well_formed s).
Proof.
  assert (unit_ok REPLACEMENT) as Hrep by (unfold unit_ok, REPLACEMENT; lia).
  induction s as [|u|u v s IH1 IH2] using list_ind2; intros Hs; [done| |].
  - apply Forall_cons in Hs as [Hu _]. cbn. destruct (is_high u), (is_low u); by apply Forall_singleton.
  - apply Forall_cons in Hs as [Hu Hvs]. pose proof Hvs as [Hv Hs0]%Forall_cons. specialize (IH1 Hs0). specialize (IH2 Hvs).
    cbn [to_well_formed] in *. destruct (is_high u); [destruct (is_low v)|destruct (is_low u)];
      repeat (apply Forall_cons; split; [done|]); done.
Qed.

Lemma scalars_well_formed s : scalars (to_well_formed s) = scalars s.
Proof.
  assert (∀ r, scalars (REPLACEMENT :: r) = REPLACEMENT :: scalars r) as Hrep by done.
  induction s as [|u|u v s IH1 IH2] using list_ind2; [done| |].
  - cbn [to_well_formed scalars]. destruct (is_high u) eqn:E1; [done|]. destruct (is_low u) eqn:E2; [done|].
    cbn [scalars]. by rewrite E1, E2.
  - cbn [to_well_formed scalars] in IH2 |- *. destruct (is_high u) eqn:E1.
    + destruct (is_low v) eqn:E2; [cbn [scalars]; by rewrite E1, E2, IH1|]. rewrite Hrep. f_equal. exact IH2.
    + destruct (is_low u) eqn:E2; [rewrite Hrep; f_equal; exact IH2|]. cbn [scalars]. rewrite E1, E2. f_equal. exact IH2.
Qed.

Lemma size_well_formed s : size (to_well_formed s) = size s.
Proof. unfold size, text_encode. by rewrite scalars_well_formed. Qed.

(** No pair lies across the cut. *)
Definition whole_cut (units kept : list Z) : Prop :=
  ∀ u us v vs, units = u :: us → kept = v :: vs → is_high u = true → is_low v = false.

(** One step of the loop, whatever the character. *)
Lemma units_from_end_spec n units kept mb needs :
  (length units ≤ n)%nat → Forall unit_ok units → whole_cut units kept → size kept ≤ mb →
  ∃ us us' flag, units = us ++ us' ∧ units_from_end units mb (size kept) kept needs = (reverse us ++ kept, flag)
    ∧ size (reverse us ++ kept) ≤ mb.
Proof.
  revert units kept needs. induction n as [|n IH]; intros units kept needs Hlen Hok Hcut Hsz.
  { destruct units; [|cbn in Hlen; lia]. by exists [], [], needs. }
  destruct units as [|code units]; [by exists [], [], needs|]. apply Forall_cons in Hok as [Hcode Hok].
  assert (∀ bytes unpaired,
    size (code :: kept) = bytes + size kept → whole_cut units (code :: kept) →
    ∃ us us' flag, code :: units = us ++ us'
      ∧ (if mb <? size kept + bytes then (kept, needs)
         else units_from_end units mb (size kept + bytes) (code :: kept) (needs || unpaired)) = (reverse us ++ kept, flag)
      ∧ size (reverse us ++ kept) ≤ mb) as Hone.
  { intros bytes unpaired Hb Hc. destruct (Z.ltb_spec mb (size kept + bytes)); [by exists [], (code :: units), needs|].
    replace (size kept + bytes) with (size (code :: kept)) by lia.
    destruct (IH units (code :: kept) (needs || unpaired)) as (us & us' & flag & -> & Heq & Hs);
      [cbn in Hlen; lia|done|done|lia|].
    exists (code :: us), us', flag. rewrite reverse_cons, <- app_assoc. by rewrite Heq. }
  assert (is_high code = true → ∀ v r, kept = v :: r → is_low v = false) as Hfree.
  { intros Hh v r ->. by apply (Hcut code units v r). }
  cbn [units_from_end]. destruct (is_low code) eqn:El.
  - destruct units as [|p units].
    { apply Hone; [|done]. rewrite size_unit by done. f_equal. unfold unit_size. utf_facts.
      destruct (Z.leb_spec code 127), (Z.leb_spec code 2047); lia. }
    destruct (is_high p) eqn:Ep.
    + destruct (Z.ltb_spec mb (size kept + 4)); [by exists [], (code :: p :: units), needs|].
      assert (size (p :: code :: kept) = size kept + 4) as Hp4 by (rewrite size_pair by done; lia). rewrite <- Hp4.
      apply Forall_cons in Hok as [_ Hok].
      destruct (IH units (p :: code :: kept) needs) as (us & us' & flag & -> & Heq & Hs);
        [cbn in Hlen; lia|done| |lia|].
      { intros u us v vs _ [= <- _] _. utf_facts. apply is_low_false. lia. }
      exists (code :: p :: us), us', flag. rewrite !reverse_cons, <- !app_assoc. by rewrite Heq.
    + apply Hone.
      * rewrite size_unit by done. f_equal. unfold unit_size. utf_facts.
        destruct (Z.leb_spec code 127), (Z.leb_spec code 2047); lia.
      * intros u us v vs [= <- _] [= <- _] Hh. congruence.
  - assert (∀ bytes, bytes = unit_size code → size (code :: kept) = bytes + size kept) as Hsize.
    { intros bytes ->. by rewrite size_unit. }
    assert (whole_cut units (code :: kept)) as Hc by (by intros u us v vs _ [= <- _] _).
    destruct (is_high code) eqn:Eh; (apply Hone; [apply Hsize|done]); [|done].
    unfold unit_size. utf_facts. destruct (Z.leb_spec code 127), (Z.leb_spec code 2047); lia.
Qed.

Lemma cut_line_spec line mb :
  string_ok line → 0 ≤ mb →
  ∃ pre kept, line = pre ++ kept ∧ size (truncateStringToBytesFromEnd line mb) ≤ mb
    ∧ string_ok (truncateStringToBytesFromEnd line mb)
    ∧ (truncateStringToBytesFromEnd line mb = kept ∨ truncateStringToBytesFromEnd line mb = to_well_formed kept).
Proof.
  intros Hline Hmb. unfold truncateStringToBytesFromEnd. destruct (Z.leb_spec mb 0).
  { exists line, []. rewrite app_nil_r, size_nil. split_and!; [done|done|apply Forall_nil_2|by left]. }
  destruct (units_from_end_spec (length (reverse line)) (reverse line) [] mb false) as (us & us' & flag & Heq & Hrun & Hsz);
    [done|by apply Forall_reverse|done|done|].
  rewrite size_nil in Hrun. rewrite Hrun, app_nil_r in *. exists (reverse us'), (reverse us).
  assert (line = reverse us' ++ reverse us) as Hl by (rewrite <- reverse_app, <- Heq; by rewrite reverse_involutive).
  assert (string_ok (reverse us)) as Hok by (rewrite Hl in Hline; by apply Forall_app in Hline as [_ ?]).
  split; [done|]. destruct flag; [|split_and!; [done|done|by left]].
  rewrite replaceUnpairedSurrogates_wf, size_well_formed. split_and!; [done|by apply to_well_formed_ok|by right].
Qed.

End Loops.

(** ** What a truncation keeps *)

Section Bounds.
Context (runtimeBuffer : bool).

(** What both ends have in common: the text is within the limits, and it is the
    whole text exactly when that is within them. *)
Definition within_limits (text : jsstring) (ml mb : Z) (r : TruncationResult) : Prop :=
  outputBytes r = zlen (text_encode (content r)) ∧ outputBytes r ≤ mb ∧ 0 ≤ outputLines r ≤ ml
  ∧ (truncated r = false ↔ zlen (splitLinesForCounting text) ≤ ml ∧ zlen (text_encode text) ≤ mb)
  ∧ (truncated r = false → content r = text).

Lemma fits_spec text ml mb :
  string_ok text →
  (zlen (splitLinesForCounting text) <=? ml) && (utf8ByteLength runtimeBuffer text <=? mb) = true
  ↔ zlen (splitLinesForCounting text) ≤ ml ∧ zlen (text_encode text) ≤ mb.
Proof. intros Hok. rewrite andb_true_iff, !Z.leb_le, utf8ByteLength_size by done. done. Qed.

Lemma truncateHead_spec text options :
  let ml := default DEFAULT_MAX_LINES (opt_maxLines options) in
  let mb := default DEFAULT_MAX_BYTES (opt_maxBytes options) in
  let lines := splitLinesForCounting text in
  string_ok text → 0 ≤ ml → 0 ≤ mb →
  ∃ r, truncateHead runtimeBuffer text options = Ok r ∧ within_limits text ml mb r
    ∧ (truncated r = true →
        content r = join 10 (take (Z.to_nat (outputLines r)) lines)
        ∧ ∀ line, lines !! Z.to_nat (outputLines r) = Some line →
            outputLines r = ml ∨ mb < zlen (text_encode (join 10 (take (S (Z.to_nat (outputLines r))) lines)))).
Proof.
  intros ml mb lines Hok Hml Hmb. pose proof (fits_spec text ml mb Hok) as Hfits. pose proof (lines_ok text Hok) as Hlok.
  unfold truncateHead. fold ml mb lines in Hfits |- *.
  destruct ((zlen lines <=? ml) && (utf8ByteLength runtimeBuffer text <=? mb)) eqn:E.
  { eexists. split; [reflexivity|]. unfold within_limits. cbn. rewrite utf8ByteLength_size by done.
    destruct Hfits as [Hf _]. destruct (Hf eq_refl). pose proof (zlen_nonneg lines). by split_and!. }
  assert (¬ (zlen lines ≤ ml ∧ zlen (text_encode text) ≤ mb)) as Hno by (rewrite <- Hfits; done). fold lines in Hlok.
  assert (lines ≠ []) as Hne.
  { destruct (lines_join text) as [_ Hl]. destruct text as [|c text]; [|by apply Hl].
    exfalso. apply Hno. change (zlen lines) with 0. by split. }
  pose proof Hno as Hwhole. unfold lines in Hwhole. clearbody lines. destruct lines as [|first rest]; [done|].
  pose proof Hlok as [Hfirst _]%Forall_cons. rewrite utf8ByteLength_size by done.
  destruct (Z.ltb_spec mb (size first)).
  { eexists. split; [reflexivity|]. unfold within_limits. cbn [content outputBytes outputLines truncated].
    split_and!; try done. intros _. split; [done|]. intros line _. by right. }
  destruct (head_lines_spec runtimeBuffer ml mb (first :: rest) [] Hlok Hmb) as (n & k & Heq & Hn & Hsz & Hmax & Hnext).
  change (zlen (@nil jsstring)) with 0 in *. change (lines_size []) with 0 in Heq. cbn [app] in *. rewrite Heq.
  eexists. split; [reflexivity|]. unfold within_limits. cbn [content outputBytes outputLines truncated].
  set (lines := first :: rest) in *.
  assert (zlen (take n lines) = Z.of_nat n) as Hlen by (unfold zlen; rewrite length_take; lia).
  rewrite utf8ByteLength_size by by apply join_ok, Forall_take.
  rewrite Hlen, Nat2Z.id. split.
  - split_and!; [done|done|lia|lia|by split; [|intros Hx; destruct (Hwhole Hx)]|done].
  - intros _. split; [done|]. intros line Hline. destruct (Hnext line Hline); [left; lia|by right].
Qed.

Lemma truncateTail_spec text options :
  let ml := default DEFAULT_MAX_LINES (opt_maxLines options) in
  let mb := default DEFAULT_MAX_BYTES (opt_maxBytes options) in
  let lines := splitLinesForCounting text in
  string_ok text → 0 ≤ ml → 0 ≤ mb →
  let r := truncateTail runtimeBuffer text options in
  within_limits text ml mb r
  ∧ (truncated r = true → lastLinePartial r = false →
      content r = join 10 (drop (length lines - Z.to_nat (outputLines r)) lines)
      ∧ ∀ i, (length lines = S i + Z.to_nat (outputLines r))%nat →
          outputLines r = ml ∨ mb < zlen (text_encode (join 10 (drop i lines))))
  ∧ (lastLinePartial r = true →
      ∃ line pre kept, last lines = Some line ∧ mb < zlen (text_encode line) ∧ line = pre ++ kept
        ∧ (content r = kept ∨ content r = to_well_formed kept)).
Proof.
  intros ml mb lines Hok Hml Hmb r. pose proof (fits_spec text ml mb Hok) as Hfits. pose proof (lines_ok text Hok) as Hlok.
  subst r. unfold truncateTail. fold ml mb lines in Hfits, Hlok |- *.
  destruct ((zlen lines <=? ml) && (utf8ByteLength runtimeBuffer text <=? mb)) eqn:E.
  { unfold within_limits. cbn. rewrite utf8ByteLength_size by done.
    destruct Hfits as [Hf _]. destruct (Hf eq_refl). pose proof (zlen_nonneg lines). by split_and!. }
  assert (¬ (zlen lines ≤ ml ∧ zlen (text_encode text) ≤ mb)) as Hno by (rewrite <- Hfits; done).
  assert (Forall string_ok (reverse lines ++ [])) as Hrok by (rewrite app_nil_r; by apply Forall_reverse).
  pose proof Hno as Hwhole. unfold lines in Hwhole. clearbody lines.
  destruct (tail_lines_spec runtimeBuffer ml mb (reverse lines) [] Hrok Hmb)
    as [(n & k & Heq & Hn & Hsz & Hmax & Hnext)|(line & rest & _ & Hrev & Hml' & Hbig & Heq)].
  - change (zlen (@nil jsstring)) with 0 in *. change (lines_size []) with 0 in Heq. rewrite app_nil_r in *. rewrite Heq.
    rewrite length_reverse in Hn.
    assert (∀ m, (m ≤ length lines)%nat → reverse (take m (reverse lines)) = drop (length lines - m) lines) as Hrt.
    { intros m Hm. rewrite take_reverse, reverse_involutive. done. }
    unfold within_limits. cbn [content outputBytes outputLines truncated lastLinePartial]. rewrite Hrt in * by done.
    assert (zlen (drop (length lines - n) lines) = Z.of_nat n) as Hlen by (unfold zlen; rewrite length_drop; lia).
    rewrite utf8ByteLength_size by by apply join_ok, Forall_drop. rewrite Hlen, Nat2Z.id.
    split; [split_and!; [done|done|lia|lia|by split; [|intros Hx; destruct (Hwhole Hx)]|done]|split; [|done]].
    intros _ _. split; [done|]. intros i Hi. assert (n < length lines)%nat as Hlt by lia.
    destruct (lookup_lt_is_Some_2 (reverse lines) n) as [l Hl]; [by rewrite length_reverse|].
    destruct (Hnext l Hl) as [?|Hover]; [left; lia|right]. rewrite ?app_nil_r in Hover. rewrite Hrt in Hover by lia.
    by replace i with (length lines - S n)%nat by lia.
  - change (lines_size []) with 0 in Heq. rewrite Heq. unfold within_limits.
    cbn [content outputBytes outputLines truncated lastLinePartial join].
    assert (lines = reverse rest ++ [line]) as -> by (rewrite <- reverse_cons, <- Hrev; by rewrite reverse_involutive).
    assert (string_ok line) as Hline by (apply Forall_app in Hlok as [_ Hl]; by apply Forall_cons in Hl as [? _]).
    destruct (cut_line_spec line mb Hline Hmb) as (pre & kept & Hsplit & Hsz & Hcok & Hkept).
    rewrite utf8ByteLength_size by done. rewrite last_snoc. split; [|split; [done|]].
    + split_and!; [done|done|done|rewrite zlen_cons, zlen_nil; lia|by split; [|intros Hx; destruct (Hwhole Hx)]|done].
    + intros _. exists line, pre, kept. by split_and!.
Qed.

(** C38: whatever the limits, what is kept of a text is at most [maxLines] lines
    and [maxBytes] bytes of UTF-8, reported as such; a text within both limits is
    kept whole.  Otherwise the head is the first lines, the tail the last lines,
    and one line more would break a limit; only when the last line alone is too
    long is it cut, to an end of it (unpaired surrogates replaced). *)
Theorem truncate_bounds text options :
  let ml := default DEFAULT_MAX_LINES (opt_maxLines options) in
  let mb := default DEFAULT_MAX_BYTES (opt_maxBytes options) in
  let lines := splitLinesForCounting text in
  string_ok text → 0 ≤ ml → 0 ≤ mb →
  (∃ r, truncateHead runtimeBuffer text options = Ok r ∧ within_limits text ml mb r
     ∧ (truncated r = true →
         content r = join 10 (take (Z.to_nat (outputLines r)) lines)
         ∧ ∀ line, lines !! Z.to_nat (outputLines r) = Some line →
             outputLines r = ml ∨ mb < zlen (text_encode (join 10 (take (S (Z.to_nat (outputLines r))) lines)))))
  ∧ let r := truncateTail runtimeBuffer text options in
    within_limits text ml mb r
    ∧ (truncated r = true → lastLinePartial r = false →
        content r = join 10 (drop (length lines - Z.to_nat (outputLines r)) lines)
        ∧ ∀ i, (length lines = S i + Z.to_nat (outputLines r))%nat →
            outputLines r = ml ∨ mb < zlen (text_encode (join 10 (drop i lines))))
    ∧ (lastLinePartial r = true →
        ∃ line pre kept, last lines = Some line ∧ mb < zlen (text_encode line) ∧ line = pre ++ kept
          ∧ (content r = kept ∨ content r = to_well_formed kept)).
Proof. intros ml mb lines Hok Hml Hmb. split; [by apply truncateHead_spec|by apply truncateTail_spec]. Qed.
End Bounds.

Definition demo_text : jsstring := js "ab" ++ [10; 233; 10] ++ js "cd" ++ [10].
Definition demo_options : TruncationOptions := MkTruncationOptions (Some 2) (Some 5).

Lemma truncate_bounds_witness :
  let ml := default DEFAULT_MAX_LINES (opt_maxLines demo_options) in
  let mb := default DEFAULT_MAX_BYTES (opt_maxBytes demo_options) in
  let lines := splitLinesForCounting demo_text in
  (∃ r, truncateHead true demo_text demo_options = Ok r ∧ within_limits demo_text ml mb r
     ∧ (truncated r = true →
         content r = join 10 (take (Z.to_nat (outputLines r)) lines)
         ∧ ∀ line, lines !! Z.to_nat (outputLines r) = Some line →
             outputLines r = ml ∨ mb < zlen (text_encode (join 10 (take (S (Z.to_nat (outputLines r))) lines)))))
  ∧ let r := truncateTail true demo_text demo_options in
    within_limits demo_text ml mb r
    ∧ (truncated r = true → lastLinePartial r = false →
        content r = join 10 (drop (length lines - Z.to_nat (outputLines r)) lines)
        ∧ ∀ i, (length lines = S i + Z.to_nat (outputLines r))%nat →
            outputLines r = ml ∨ mb < zlen (text_encode (join 10 (drop i lines))))
    ∧ (lastLinePartial r = true →
        ∃ line pre kept, last lines = Some line ∧ mb < zlen (text_encode line) ∧ line = pre ++ kept
          ∧ (content r = kept ∨ content r = to_well_formed kept)).
Proof.
  apply (truncate_bounds true demo_text demo_options);
    [apply (bool_decide_unpack _); vm_compute; exact I|vm_compute; discriminate|vm_compute; discriminate].
Defined.

(** Only the final newline is too long, and the lines are said to be. *)
Example head_limit_misreported :
  truncateHead true (js "ab" ++ [10]) (MkTruncationOptions None (Some 2))
  = Ok (MkTruncation (js "ab") true (Some by_lines) 1 3 1 2 false false 2000 2).
Proof. vm_compute. reflexivity. Qed.
