(* ===== verification/EditDiff.v ===== *)
(** * Text replacement of the edit tool

    [packages/agent/src/harness/tools/edit-diff.ts] (the application's copy,
    [packages/coding-agent/src/core/tools/edit-diff.ts], has the same functions):
    several replacements, all matched against one text, exactly or in a normalised
    view of it.  Unicode normalisation ([normalize("NFKC")]) is a parameter. *)

From S2P Require Import Prelude JsString.

(** ** Line endings *)

Inductive line_ending := crlf | lf.

Definition detectLineEnding (content : jsstring) : line_ending :=
  match index_of [13; 10] content, index_of [10] content with
  | Some crlfIdx, Some lfIdx => if Nat.ltb crlfIdx lfIdx then crlf else lf
  | _, _ => lf
  end.

(** [.replace(/\r\n/g, "\n")]. *)
Fixpoint replace_crlf (s : jsstring) : jsstring :=
  match s with
  | c :: (d :: s'') as s' => if (c =? 13) && (d =? 10) then 10 :: replace_crlf s'' else c :: replace_crlf s'
  | _ => s
  end.
Definition normalizeToLF (text : jsstring) : jsstring := (λ c, if c =? 13 then 10 else c) <$> replace_crlf text.

Definition restoreLineEndings (text : jsstring) (ending : line_ending) : jsstring :=
  match ending with crlf => concat ((λ c, if c =? 10 then [13; 10] else [c]) <$> text) | lf => text end.

Definition BOM : Z := 65279.
Definition stripBom (content : jsstring) : jsstring * jsstring :=
  match content with c :: s => if c =? BOM then ([BOM], s) else ([], content) | [] => ([], content) end.

(** ** Texts *)

Definition is_single_quote (c : Z) : bool := in_range 8216 8219 c.
Definition is_double_quote (c : Z) : bool := in_range 8220 8223 c.
Definition is_dash (c : Z) : bool := in_range 8208 8213 c || (c =? 8722).
Definition is_special_space (c : Z) : bool :=
  (c =? 160) || in_range 8194 8202 c || (c =? 8239) || (c =? 8287) || (c =? 12288).
(** [.replace(/[...]/g, to)]. *)
Definition replace_class (class : Z → bool) (to : Z) (s : jsstring) : jsstring := (λ c, if class c then to else c) <$> s.

(** [text.split(separator).length]; an empty separator splits code units. *)
Fixpoint split_pieces (sep s : jsstring) (skip : nat) : nat :=
  match s with
  | [] => 1
  | _ :: s' =>
      match skip with
      | S skip => split_pieces sep s' skip
      | O => if bool_decide (sep `prefix_of` s) then S (split_pieces sep s' (length sep - 1)) else split_pieces sep s' 0
      end
  end.
Definition split_length (sep s : jsstring) : nat :=
  match sep with [] => length s | _ => split_pieces sep s 0 end.

(** The matches of [/[^\n]*\n|[^\n]+/g]: the lines with what ends them. *)
Fixpoint splitLinesWithEndings (content : jsstring) : list jsstring :=
  match content with
  | [] => []
  | c :: s =>
      if c =? 10 then [10] :: splitLinesWithEndings s
      else
        match splitLinesWithEndings s with
        | line :: lines => (c :: line) :: lines
        | [] => [[c]]
        end
  end.

Record LineSpan := MkSpan { span_start : nat; span_end : nat }.

Fixpoint spans_from (offset : nat) (lines : list jsstring) : list LineSpan :=
  match lines with
  | [] => []
  | line :: lines => MkSpan offset (offset + length line) :: spans_from (offset + length line) lines
  end.
Definition getLineSpans (content : jsstring) : list LineSpan := spans_from 0 (splitLinesWithEndings content).

(** [text.substring(from, to)]: the bounds are clamped to the text, and swapped when
    the first is above the second. *)
Definition substring (text : jsstring) (from to : Z) : jsstring :=
  let clamp i := Z.to_nat (Z.min (Z.max i 0) (zlen text)) in
  let a := Nat.min (clamp from) (clamp to) in
  let b := Nat.max (clamp from) (clamp to) in
  take (b - a) (drop a text).

(** ** Matches *)

Inductive edit_error :=
| EmptyOldText (i : nat)
| TextNotFound (i : nat)
| DuplicateText (i occurrences : nat)
| OverlappingEdits (i j : nat)
| NoChange
| DifferentLineCount
| OutsideContent.

Record MatchedEdit := MkMatched { editIndex : nat; matchIndex : nat; matchLength : nat; newText : jsstring }.

Record Edit := MkEdit { edit_oldText : jsstring; edit_newText : jsstring }.

(** [sort] by [matchIndex] is stable. *)
Fixpoint sort_insert (m : MatchedEdit) (ms : list MatchedEdit) : list MatchedEdit :=
  match ms with
  | [] => [m]
  | m' :: ms' => if Nat.leb (matchIndex m) (matchIndex m') then m :: ms else m' :: sort_insert m ms'
  end.
Definition sort_matches (ms : list MatchedEdit) : list MatchedEdit := foldr sort_insert [] ms.

(** The first line that holds the position, and from it on the first that ends no
    earlier than the replacement. *)
Fixpoint find_start (lines : list LineSpan) (i : nat) (position : nat) : option nat :=
  match lines with
  | [] => None
  | line :: lines =>
      if Nat.leb (span_start line) position && Nat.ltb position (span_end line) then Some i
      else find_start lines (S i) position
  end.
Fixpoint find_end (lines : list LineSpan) (i : nat) (position : nat) : option nat :=
  match lines with
  | [] => None
  | line :: lines => if Nat.ltb (span_end line) position then find_end lines (S i) position else Some i
  end.

Definition getReplacementLineRange (lines : list LineSpan) (m : MatchedEdit) : result edit_error (nat * nat) :=
  match find_start lines 0 (matchIndex m) with
  | None => Err OutsideContent
  | Some startLine =>
      match find_end (drop startLine lines) startLine (matchIndex m + matchLength m) with
      | None => Err OutsideContent
      | Some endLine => Ok (startLine, S endLine)
      end
  end.

(** The loop from the last replacement to the first. *)
Fixpoint applyReplacements (content : jsstring) (ms : list MatchedEdit) (offset : nat) : jsstring :=
  match ms with
  | [] => content
  | m :: ms =>
      let result := applyReplacements content ms offset in
      let matchIndex := (Z.of_nat (matchIndex m) - Z.of_nat offset)%Z in
      substring result 0 matchIndex ++ newText m ++ substring result (matchIndex + Z.of_nat (matchLength m)) (zlen result)
  end.

Record group := MkGroup { startLine : nat; endLine : nat; replacements : list MatchedEdit }.

(** The groups so far, the last one first. *)
Definition add_replacement (lines : list LineSpan) (groups : list group) (m : MatchedEdit) : result edit_error (list group) :=
  range ← getReplacementLineRange lines m;
  Ok match groups with
     | current :: groups' =>
         if Nat.ltb range.1 (endLine current) then
           MkGroup (startLine current) (Nat.max (endLine current) range.2) (replacements current ++ [m]) :: groups'
         else MkGroup range.1 range.2 [m] :: groups
     | [] => [MkGroup range.1 range.2 [m]]
     end.

Fixpoint add_replacements (lines : list LineSpan) (groups : list group) (ms : list MatchedEdit)
    : result edit_error (list group) :=
  match ms with
  | [] => Ok groups
  | m :: ms => groups ← add_replacement lines groups m; add_replacements lines groups ms
  end.

(** [baseContent.slice(from, to)], within the text. *)
Definition slice (text : jsstring) (from to : nat) : jsstring := take (to - from) (drop from text).

Fixpoint write_groups (originalLines : list jsstring) (baseContent : jsstring) (baseLines : list LineSpan)
    (originalLineIndex : nat) (groups : list group) : jsstring :=
  match groups with
  | [] => concat (drop originalLineIndex originalLines)
  | g :: groups =>
      let groupStartOffset := from_option span_start O (baseLines !! startLine g) in
      let groupEndOffset := from_option span_end O (baseLines !! (endLine g - 1)%nat) in
      concat (take (startLine g - originalLineIndex) (drop originalLineIndex originalLines))
      ++ applyReplacements (slice baseContent groupStartOffset groupEndOffset) (replacements g) groupStartOffset
      ++ write_groups originalLines baseContent baseLines (endLine g) groups
  end.

Definition applyReplacementsPreservingUnchangedLines (originalContent baseContent : jsstring) (ms : list MatchedEdit)
    : result edit_error jsstring :=
  let originalLines := splitLinesWithEndings originalContent in
  let baseLines := getLineSpans baseContent in
  if negb (Nat.eqb (length originalLines) (length baseLines)) then Err DifferentLineCount
  else
    groups ← add_replacements baseLines [] (sort_matches ms);
    Ok (write_groups originalLines baseContent baseLines 0 (reverse groups)).

Section Edits.
Context (nfkc : jsstring → jsstring).

Definition normalizeForFuzzyMatch (text : jsstring) : jsstring :=
  replace_class is_special_space 32
    (replace_class is_dash 45
      (replace_class is_double_quote 34
        (replace_class is_single_quote 39
          (join 10 (trim_end <$> split_at 10 (nfkc text)))))).

(** A match; [None] stands for [found: false]. *)
Record FuzzyMatch := MkFuzzyMatch { match_index : nat; match_length : nat; usedFuzzyMatch : bool }.

Definition fuzzyFindText (content oldText : jsstring) : option FuzzyMatch :=
  match index_of oldText content with
  | Some exactIndex => Some (MkFuzzyMatch exactIndex (length oldText) false)
  | None =>
      let fuzzyContent := normalizeForFuzzyMatch content in
      let fuzzyOldText := normalizeForFuzzyMatch oldText in
      fuzzyIndex ← index_of fuzzyOldText fuzzyContent;
      Some (MkFuzzyMatch fuzzyIndex (length fuzzyOldText) true)
  end.

(** [split(...).length - 1], which may be -1. *)
Definition countOccurrences (content oldText : jsstring) : Z :=
  Z.of_nat (split_length (normalizeForFuzzyMatch oldText) (normalizeForFuzzyMatch content)) - 1.

Definition normalize_edit (edit : Edit) : Edit := MkEdit (normalizeToLF (edit_oldText edit)) (normalizeToLF (edit_newText edit)).

(** The first edit without an old text. *)
Definition first_empty (edits : list Edit) : option nat := fst <$> list_find (λ e, edit_oldText e = []) edits.

(** The loop that matches each edit, from index [i] on. *)
Fixpoint match_edits (base : jsstring) (i : nat) (edits : list Edit) : result edit_error (list MatchedEdit) :=
  match edits with
  | [] => Ok []
  | edit :: edits =>
      match fuzzyFindText base (edit_oldText edit) with
      | None => Err (TextNotFound i)
      | Some m =>
          let occurrences := countOccurrences base (edit_oldText edit) in
          if (1 <? occurrences)%Z then Err (DuplicateText i (Z.to_nat occurrences))
          else
            matched ← match_edits base (S i) edits;
            Ok (MkMatched i (match_index m) (match_length m) (edit_newText edit) :: matched)
      end
  end.

Fixpoint find_overlap (ms : list MatchedEdit) : option (nat * nat) :=
  match ms with
  | previous :: (current :: _) as ms' =>
      if Nat.ltb (matchIndex current) (matchIndex previous + matchLength previous)
      then Some (editIndex previous, editIndex current) else find_overlap ms'
  | _ => None
  end.

Definition applyEditsToNormalizedContent (normalizedContent : jsstring) (edits : list Edit)
    : result edit_error (jsstring * jsstring) :=
  let normalizedEdits := normalize_edit <$> edits in
  match first_empty normalizedEdits with
  | Some i => Err (EmptyOldText i)
  | None =>
      let usedFuzzy := existsb (λ e, from_option usedFuzzyMatch false (fuzzyFindText normalizedContent (edit_oldText e)))
                         normalizedEdits in
      let base := if usedFuzzy then normalizeForFuzzyMatch normalizedContent else normalizedContent in
      matched ← match_edits base 0 normalizedEdits;
      let matchedEdits := sort_matches matched in
      match find_overlap matchedEdits with
      | Some (i, j) => Err (OverlappingEdits i j)
      | None =>
          newContent ← (if usedFuzzy then applyReplacementsPreservingUnchangedLines normalizedContent base matchedEdits
                        else Ok (applyReplacements base matchedEdits 0));
          if bool_decide (normalizedContent = newContent) then Err NoChange else Ok (normalizedContent, newContent)
      end
  end.
End Edits.
