(* ===== verification/EditDiffTheorems.v ===== *)
(** * What an edit changes

    An edit that succeeds replaces the matched texts and nothing else: in exact mode
    the text around them is untouched; when a match needed normalisation, the lines
    no edit touches keep their bytes. *)

From S2P Require Import Prelude JsString EditDiff.

#[local] Open Scope nat_scope.

Definition newline : Z := 10%Z.

(** Texts between gaps: [g0 t1 g1 t2 g2 ...]. *)
Fixpoint weave (gaps texts : list jsstring) : jsstring :=
  match gaps, texts with
  | g :: gaps, t :: texts => g ++ t ++ weave gaps texts
  | g :: _, [] => g
  | [], _ => []
  end.

(** ** Slices *)

Lemma slice_app s a b c : a ≤ b → b ≤ c → slice s a c = slice s a b ++ slice s b c.
Proof.
  intros Hab Hbc. unfold slice. rewrite <- (take_drop (b - a) (take (c - a) (drop a s))). f_equal.
  - rewrite take_take. f_equal. lia.
  - rewrite skipn_firstn_comm, drop_drop. f_equal; [lia|f_equal; lia].
Qed.

Lemma slice_all s : slice s 0 (length s) = s.
Proof. unfold slice. rewrite drop_0, Nat.sub_0_r. apply firstn_all. Qed.

Lemma slice_nil s a : slice s a a = [].
Proof. unfold slice. by rewrite Nat.sub_diag. Qed.

Lemma length_slice s a b : b ≤ length s → length (slice s a b) = b - a.
Proof. intros Hb. unfold slice. rewrite length_take, length_drop. lia. Qed.

Lemma substring_prefix text (i : nat) : (i ≤ length text) → substring text 0 (Z.of_nat i) = take i text.
Proof.
  intros Hi. unfold substring, zlen. replace (Z.to_nat (Z.min (Z.max 0 0) _)) with 0 by lia.
  replace (Z.to_nat (Z.min (Z.max (Z.of_nat i) 0) (Z.of_nat (length text)))) with i by lia.
  cbn. f_equal; lia.
Qed.

Lemma substring_suffix text (i : nat) : (i ≤ length text) → substring text (Z.of_nat i) (zlen text) = drop i text.
Proof.
  intros Hi. unfold substring, zlen.
  replace (Z.to_nat (Z.min (Z.max (Z.of_nat i) 0) (Z.of_nat (length text)))) with i by lia.
  replace (Z.to_nat (Z.min (Z.max (Z.of_nat (length text)) 0) (Z.of_nat (length text)))) with (length text) by lia.
  rewrite Nat.min_l, Nat.max_r by lia. apply take_ge. rewrite length_drop. lia.
Qed.

Lemma index_of_Some sub s i : index_of sub s = Some i → slice s i (i + length sub) = sub ∧ i + length sub ≤ length s.
Proof.
  revert i. induction s as [|c s IH]; intros i; cbn [index_of].
  - case_bool_decide as Hp; [|done]. intros [= <-]. apply prefix_nil_inv in Hp as ->. done.
  - case_bool_decide as Hp.
    + intros [= <-]. destruct Hp as [k Hk]. rewrite Hk. unfold slice. rewrite drop_0, Nat.add_0_l, Nat.sub_0_r, take_app_length.
      split; [done|]. rewrite length_app. lia.
    + destruct (index_of sub s) as [j|]; [|done]. cbn. intros [= <-]. destruct (IH j eq_refl) as [Hs Hl]. split; [|cbn; lia].
      unfold slice in *. cbn [drop]. by replace (S j + length sub - S j) with (j + length sub - j) by lia.
Qed.

(** ** Replacements in order *)

Section Base.
Context (base : jsstring).

Definition match_end (m : MatchedEdit) : nat := matchIndex m + matchLength m.
Definition matched_text (m : MatchedEdit) : jsstring := slice base (matchIndex m) (match_end m).

(** The replacements come one after the other, from position [p] to [e]. *)
Fixpoint in_order (p : nat) (ms : list MatchedEdit) (e : nat) : Prop :=
  match ms with [] => p ≤ e | m :: ms => p ≤ matchIndex m ∧ in_order (match_end m) ms e end.

(** Where the last replacement ends, and the gaps before each. *)
Fixpoint last_end (p : nat) (ms : list MatchedEdit) : nat := match ms with [] => p | m :: ms => last_end (match_end m) ms end.
Fixpoint inner_gaps (p : nat) (ms : list MatchedEdit) : list jsstring :=
  match ms with [] => [] | m :: ms => slice base p (matchIndex m) :: inner_gaps (match_end m) ms end.
Definition all_gaps (p : nat) (ms : list MatchedEdit) (e : nat) : list jsstring :=
  inner_gaps p ms ++ [slice base (last_end p ms) e].

Lemma in_order_le p ms e : in_order p ms e → p ≤ e.
Proof. revert p. induction ms as [|m ms IH]; intros p; cbn; [done|]. intros [Hp Hm%IH]. unfold match_end in Hm. lia. Qed.

Lemma in_order_last p ms e : in_order p ms e ↔ in_order p ms (last_end p ms) ∧ last_end p ms ≤ e.
Proof.
  revert p. induction ms as [|m ms IH]; intros p; cbn; [split; [auto|by intros [_ ?]]|]. rewrite IH. tauto.
Qed.

Lemma last_end_ge p ms e : in_order p ms e → p ≤ last_end p ms.
Proof. intros [H _]%in_order_last. by apply in_order_le in H. Qed.

Lemma in_order_snoc p ms m e : in_order p (ms ++ [m]) e ↔ in_order p ms (matchIndex m) ∧ match_end m ≤ e.
Proof. revert p. induction ms as [|m' ms IH]; intros p; cbn; [done|]. rewrite IH. tauto. Qed.

Lemma last_end_snoc p ms m : last_end p (ms ++ [m]) = match_end m.
Proof. revert p. induction ms as [|m' ms IH]; intros p; cbn; [done|]. apply IH. Qed.

Lemma inner_gaps_snoc p ms m : inner_gaps p (ms ++ [m]) = inner_gaps p ms ++ [slice base (last_end p ms) (matchIndex m)].
Proof. revert p. induction ms as [|m' ms IH]; intros p; cbn; [done|]. by rewrite IH. Qed.

Lemma length_all_gaps p ms e : length (all_gaps p ms e) = S (length ms).
Proof.
  unfold all_gaps. rewrite length_app. cbn [length]. rewrite Nat.add_1_r. f_equal.
  revert p. induction ms as [|m ms IH]; intros p; cbn; [done|]. by rewrite IH.
Qed.

Lemma weave_cons p m ms e texts t :
  weave (all_gaps p (m :: ms) e) (t :: texts) = slice base p (matchIndex m) ++ t ++ weave (all_gaps (match_end m) ms e) texts.
Proof. done. Qed.

(** The base text itself. *)
Lemma weave_matched p ms e : in_order p ms e → weave (all_gaps p ms e) (matched_text <$> ms) = slice base p e.
Proof.
  revert p. induction ms as [|m ms IH]; intros p Ho; [done|]. destruct Ho as [Hp Ho]. rewrite fmap_cons, weave_cons, IH by done.
  apply in_order_le in Ho. unfold matched_text.
  rewrite <- (slice_app base (matchIndex m)) by (unfold match_end in *; lia). symmetry. apply slice_app; [done|unfold match_end in *; lia].
Qed.

(** The loop from the last replacement to the first. *)
Lemma applyReplacements_weave o p ms e :
  o ≤ p → e ≤ length base → in_order p ms e →
  applyReplacements (slice base o e) ms o = slice base o p ++ weave (all_gaps p ms e) (newText <$> ms).
Proof.
  intros Hop He. revert p Hop. induction ms as [|m ms IH]; intros p Hop Ho.
  { cbn [applyReplacements fmap list_fmap]. apply slice_app; [done|exact Ho]. }
  destruct Ho as [Hp Ho]. pose proof (in_order_le _ _ _ Ho) as Hme. unfold match_end in Hme.
  cbn [applyReplacements]. rewrite (IH (match_end m)) by (try done; unfold match_end in *; lia).
  rewrite fmap_cons, weave_cons. set (rest := weave _ _).
  assert (length (slice base o (match_end m)) = match_end m - o) as Hlen by (apply length_slice; unfold match_end; lia).
  replace (Z.of_nat (matchIndex m) - Z.of_nat o)%Z with (Z.of_nat (matchIndex m - o)) by lia.
  rewrite substring_prefix by (rewrite length_app, Hlen; unfold match_end; lia).
  replace (Z.of_nat (matchIndex m - o) + Z.of_nat (matchLength m))%Z with (Z.of_nat (match_end m - o)) by (unfold match_end; lia).
  rewrite substring_suffix by (rewrite length_app, Hlen; unfold match_end; lia).
  rewrite take_app_le by (rewrite Hlen; unfold match_end; lia).
  rewrite drop_app_length' by done.
  rewrite (slice_app base o (matchIndex m) (match_end m)) by (unfold match_end; lia).
  rewrite take_app_length' by (rewrite length_slice; lia).
  rewrite (slice_app base o p (matchIndex m)) by lia. by rewrite <- app_assoc.
Qed.
End Base.

(** ** Lines *)

Section Lines.
Context (base : jsstring).
#[local] Abbreviation L := (splitLinesWithEndings base).

Definition offset (k : nat) : nat := length (concat (take k (splitLinesWithEndings base))).

(** A line ends with its only newline, or has none. *)
Definition is_line (line : jsstring) : Prop := line ≠ [] ∧ ∀ i c, line !! i = Some c → c = newline → S i = length line.

Lemma lines_concat s : concat (splitLinesWithEndings s) = s.
Proof.
  induction s as [|c s IH]; [done|]. cbn [splitLinesWithEndings]. destruct (c =? 10)%Z eqn:E; cbn [concat app].
  - rewrite IH. f_equal. lia.
  - destruct (splitLinesWithEndings s) as [|line lines] eqn:El; cbn in *; [by subst|by rewrite <- IH].
Qed.

Lemma lines_are_lines s : Forall is_line (splitLinesWithEndings s).
Proof.
  induction s as [|c s IH]; [apply Forall_nil_2|]. cbn [splitLinesWithEndings]. destruct (Z.eqb_spec c 10) as [->|Hc].
  - apply Forall_cons. split; [|exact IH]. split; [done|]. intros [|i] c; [done|]. by destruct i.
  - destruct (splitLinesWithEndings s) as [|line lines].
    + apply Forall_singleton. split; [done|]. intros [|i] c'; [done|]. by destruct i.
    + apply Forall_cons in IH as [[_ IH] IHs]. apply Forall_cons. split; [|exact IHs]. split; [done|].
      intros [|i] c'; [intros [= <-] ?; done|]. cbn. intros Hi Hn. by rewrite (IH i c' Hi Hn).
Qed.

Lemma offset_le j k : j ≤ k → offset j ≤ offset k.
Proof.
  intros Hjk. unfold offset. rewrite <- (take_drop j (take k _)), concat_app, length_app, take_take, Nat.min_l by done. lia.
Qed.

Lemma offset_S k line : L !! k = Some line → offset (S k) = offset k + length line.
Proof. intros Hk. unfold offset. rewrite (take_S_r _ _ _ Hk), concat_app, length_app. cbn. by rewrite app_nil_r. Qed.

Lemma offset_all : offset (length L) = length base.
Proof. unfold offset. rewrite firstn_all. by rewrite lines_concat. Qed.

Lemma drop_offset j : drop (offset j) base = concat (drop j L).
Proof.
  rewrite <- (drop_app_length' (concat (take j L)) (concat (drop j L)) (offset j)) by done.
  by rewrite <- concat_app, take_drop, lines_concat.
Qed.

Lemma slice_lines j k : j ≤ k → slice base (offset j) (offset k) = concat (take (k - j) (drop j L)).
Proof.
  intros Hjk. unfold slice. rewrite (drop_offset j).
  assert (offset j = length (concat (take j L))) as Hj by done.
  assert (offset k = length (concat (take j L)) + length (concat (take (k - j) (drop j L)))) as Hk.
  { unfold offset. rewrite <- length_app, <- concat_app. do 2 f_equal.
    rewrite <- (take_drop j (take k L)), take_take, Nat.min_l by done. f_equal. by rewrite skipn_firstn_comm. }
  rewrite <- (take_drop (k - j) (drop j L)) at 1. rewrite concat_app. apply take_app_length'. lia.
Qed.

(** Inside one line there is no newline before its end. *)
Lemma within_line k line i c :
  L !! k = Some line → base !! (offset k + i) = Some c → offset k + i < offset (S k) → c = newline →
  S (offset k + i) = offset (S k).
Proof.
  intros Hk Hi Hlt Hc. rewrite (offset_S k line Hk) in *.
  assert (is_line line) as [_ Hline] by (eapply Forall_lookup_1; [apply lines_are_lines|exact Hk]).
  assert (base !! (offset k + i) = line !! i) as Hb.
  { rewrite <- lookup_drop, drop_offset, (drop_S L line k Hk). apply lookup_app_l. lia. }
  rewrite Hb in Hi. specialize (Hline i c Hi Hc). lia.
Qed.

Lemma slice_lookup s a b i c : slice s a b !! i = Some c → s !! (a + i) = Some c ∧ a + i < b.
Proof.
  unfold slice. intros H. pose proof (lookup_lt_Some _ _ _ H) as Hl. rewrite length_take in Hl.
  rewrite lookup_take_lt in H by lia. rewrite lookup_drop in H. split; [done|lia].
Qed.

(** A gap that stays below the end of the line it starts in. *)
Lemma gap_no_newline k line a b :
  L !! k = Some line → offset k ≤ a → b < offset (S k) → newline ∉ slice base a b.
Proof.
  intros Hk Ha Hb (i & Hi)%list_elem_of_lookup. apply slice_lookup in Hi as [Hi Hlt].
  replace (a + i) with (offset k + (a + i - offset k)) in * by lia.
  pose proof (within_line k line _ _ Hk Hi ltac:(lia) eq_refl). lia.
Qed.

(** A gap up to the end of the line it starts in. *)
Lemma gap_last_newline k line a i :
  L !! k = Some line → offset k ≤ a →
  slice base a (offset (S k)) !! i = Some newline → S (a + i) = offset (S k).
Proof.
  intros Hk Ha [Hi Hlt]%slice_lookup.
  replace (a + i) with (offset k + (a + i - offset k)) in * by lia.
  exact (within_line k line _ _ Hk Hi ltac:(lia) eq_refl).
Qed.

(** ** Line ranges *)

Lemma spans_lookup off lines k :
  spans_from off lines !! k
  = (λ line, MkSpan (off + length (concat (take k lines))) (off + length (concat (take k lines)) + length line)) <$> lines !! k.
Proof.
  revert off k. induction lines as [|line lines IH]; intros off k; [done|]. cbn [spans_from]. destruct k as [|k]; cbn.
  - by rewrite Nat.add_0_r.
  - rewrite IH, length_app, Nat.add_assoc. done.
Qed.

Lemma length_spans off lines : length (spans_from off lines) = length lines.
Proof. revert off. induction lines as [|line lines IH]; intros off; cbn; [done|]. by rewrite IH. Qed.

Lemma lineSpans_lookup k line : L !! k = Some line → getLineSpans base !! k = Some (MkSpan (offset k) (offset (S k))).
Proof. intros Hk. unfold getLineSpans. rewrite spans_lookup. rewrite Hk. cbn. by rewrite (offset_S k line Hk). Qed.

Lemma lineSpans_inv k sp : getLineSpans base !! k = Some sp → ∃ line, L !! k = Some line ∧ sp = MkSpan (offset k) (offset (S k)).
Proof.
  intros Hs. destruct (L !! k) as [line|] eqn:Hk.
  - exists line. rewrite (lineSpans_lookup k line Hk) in Hs. by injection Hs as <-.
  - apply lookup_ge_None in Hk. apply lookup_lt_Some in Hs. unfold getLineSpans in Hs. rewrite length_spans in Hs. lia.
Qed.

Lemma find_start_spec spans i pos k :
  find_start spans i pos = Some k →
  ∃ sp, i ≤ k ∧ spans !! (k - i) = Some sp ∧ span_start sp ≤ pos < span_end sp.
Proof.
  revert i. induction spans as [|sp spans IH]; intros i; cbn [find_start]; [done|].
  destruct (Nat.leb_spec (span_start sp) pos), (Nat.ltb_spec pos (span_end sp)); cbn [andb].
  1: { intros [= <-]. exists sp. rewrite Nat.sub_diag. done. }
  all: intros (sp' & Hik & Hs & Hpos)%IH; exists sp'; replace (k - i) with (S (k - S i)) by lia; split_and!; [lia|done|lia..].
Qed.

Lemma find_end_spec spans i pos k :
  find_end spans i pos = Some k →
  ∃ sp, i ≤ k ∧ spans !! (k - i) = Some sp ∧ pos ≤ span_end sp
    ∧ (k = i ∨ ∃ sp', spans !! (k - i - 1) = Some sp' ∧ span_end sp' < pos ∧ i < k).
Proof.
  revert i. induction spans as [|sp spans IH]; intros i; cbn [find_end]; [done|].
  destruct (Nat.ltb_spec (span_end sp) pos).
  - intros (sp1 & Hik & Hs & Hpos & Hprev)%IH. exists sp1. replace (k - i) with (S (k - S i)) by lia. split_and!; [lia|done|done|].
    right. destruct Hprev as [->|(sp' & Hs' & Hlt & Hik')].
    + exists sp. rewrite Nat.sub_diag. split_and!; [done|done|lia].
    + exists sp'. replace (S (k - S i) - 1) with (S (k - S i - 1)) by lia. split_and!; [done|done|lia].
  - intros [= <-]. exists sp. rewrite Nat.sub_diag. split_and!; [done|done|done|by left].
Qed.

(** The lines a replacement touches. *)
Lemma line_range m s e :
  getReplacementLineRange (getLineSpans base) m = Ok (s, e) →
  s < e ≤ length L ∧ offset s ≤ matchIndex m < offset (S s) ∧ offset (e - 1) ≤ match_end m ≤ offset e.
Proof.
  unfold getReplacementLineRange, match_end. destruct (find_start _ 0 _) as [s'|] eqn:Hs; [|done].
  destruct (find_end _ s' _) as [e'|] eqn:He; [|done]. intros [= <- <-].
  apply find_start_spec in Hs as (sp & _ & Hsp & Hpos). rewrite Nat.sub_0_r in Hsp.
  apply lineSpans_inv in Hsp as (line & Hl & ->). cbn in Hpos.
  apply find_end_spec in He as (sp & Hse & Hsp & Hend & Hprev). rewrite lookup_drop in Hsp.
  replace (s' + (e' - s')) with e' in Hsp by lia. apply lineSpans_inv in Hsp as (line' & Hl' & ->). cbn in Hend.
  apply lookup_lt_Some in Hl' as Hlt. replace (S e' - 1) with e' by lia. split_and!; try lia.
  destruct Hprev as [->|(sp' & Hsp' & Hlt' & Hse')]; [lia|]. rewrite lookup_drop in Hsp'.
  replace (s' + (e' - s' - 1)) with (e' - 1) in Hsp' by lia. apply lineSpans_inv in Hsp' as (? & _ & ->). cbn in Hlt'.
  replace (S (e' - 1)) with e' in Hlt' by lia. lia.
Qed.

(** ** Groups of replacements that share lines *)

(** The lines of a group are those its replacements touch: the first replacement
    starts on the first line, each next one on a line the one before ends on, and the
    last ends on the last line. *)
Record group_ok (g : group) : Prop := {
  go_lines : startLine g < endLine g ≤ length L;
  go_some : replacements g ≠ [];
  go_order : in_order (offset (startLine g)) (replacements g) (offset (endLine g));
  go_gaps : Forall (λ gap, newline ∉ gap) (inner_gaps base (offset (startLine g)) (replacements g));
  go_last : offset (endLine g - 1) ≤ last_end (offset (startLine g)) (replacements g) }.

(** Groups, the last one first, that do not share lines. *)
Fixpoint groups_ok (gs : list group) : Prop :=
  match gs with
  | [] => True
  | g :: gs' => group_ok g ∧ match gs' with g' :: _ => endLine g' ≤ startLine g | [] => True end ∧ groups_ok gs'
  end.

Definition group_end (g : group) : nat := last_end (offset (startLine g)) (replacements g).
Definition groups_end (gs : list group) : nat := from_option group_end 0 (head gs).

Lemma offset_lt_inv j k : offset j < offset k → j < k.
Proof. intros H. destruct (Nat.lt_ge_cases j k) as [|Hkj]; [done|]. apply offset_le in Hkj. lia. Qed.

Lemma new_group_ok m s e :
  getReplacementLineRange (getLineSpans base) m = Ok (s, e) → group_ok (MkGroup s e [m]).
Proof.
  intros (Hse & Hs & He)%line_range.
  split; cbn [startLine endLine replacements in_order inner_gaps last_end]; [done|done| | |].
  - unfold match_end in *. lia.
  - apply Forall_singleton. destruct (lookup_lt_is_Some_2 L s ltac:(lia)) as [line Hl]. apply (gap_no_newline s line); [done|lia|lia].
  - lia.
Qed.

Lemma grow_group_ok g m s e :
  group_ok g → getReplacementLineRange (getLineSpans base) m = Ok (s, e) → group_end g ≤ matchIndex m → s < endLine g →
  group_ok (MkGroup (startLine g) (Nat.max (endLine g) e) (replacements g ++ [m])).
Proof.
  intros [Hl Hne Ho Hg Hlast] (Hse & Hs & He)%line_range Hend Hshare. unfold group_end in Hend.
  assert (endLine g ≤ e) as Hge.
  { assert (endLine g - 1 < S s); [|lia]. apply offset_lt_inv. lia. }
  rewrite Nat.max_r by done. apply in_order_last in Ho as [Ho Hle].
  split; cbn [startLine endLine replacements]; [lia|by destruct (replacements g)| | |].
  - apply in_order_snoc. split; [|lia]. apply in_order_last. done.
  - rewrite inner_gaps_snoc. apply Forall_app. split; [done|]. apply Forall_singleton.
    destruct (lookup_lt_is_Some_2 L (endLine g - 1) ltac:(lia)) as [line Hline]. apply (gap_no_newline (endLine g - 1) line); [done|done|].
    replace (S (endLine g - 1)) with (endLine g) by lia.
    pose proof (offset_le (S s) (endLine g) ltac:(lia)). lia.
  - rewrite last_end_snoc. lia.
Qed.

Lemma add_replacement_ok gs m gs' :
  groups_ok gs → groups_end gs ≤ matchIndex m → add_replacement (getLineSpans base) gs m = Ok gs' →
  groups_ok gs' ∧ groups_end gs' = match_end m
  ∧ concat (replacements <$> reverse gs') = concat (replacements <$> reverse gs) ++ [m].
Proof.
  intros Hok Hend. unfold add_replacement. destruct (getReplacementLineRange _ m) as [[s e]|] eqn:Hr; [|done].
  cbn [mbind result_bind fst snd].
  pose proof (new_group_ok m s e Hr) as Hnew.
  destruct gs as [|g gs]; [intros [= <-]; done|]. destruct Hok as (Hg & Hchain & Hgs). cbn in Hend.
  destruct (Nat.ltb_spec s (endLine g)) as [Hs|Hs]; intros [= <-].
  - split; [split; [by eapply grow_group_ok|done]|]. split; [exact (last_end_snoc _ _ _)|].
    rewrite !reverse_cons, !fmap_app, !concat_app. cbn. by rewrite !app_nil_r, app_assoc.
  - split; [done|]. split; [done|]. rewrite (reverse_cons (g :: gs)), fmap_app, concat_app. done.
Qed.

Lemma add_replacements_ok gs ms gs' e :
  groups_ok gs → in_order (groups_end gs) ms e → add_replacements (getLineSpans base) gs ms = Ok gs' →
  groups_ok gs' ∧ concat (replacements <$> reverse gs') = concat (replacements <$> reverse gs) ++ ms.
Proof.
  revert gs. induction ms as [|m ms IH]; intros gs Hok Ho; cbn [add_replacements].
  - intros [= <-]. by rewrite app_nil_r.
  - destruct Ho as [Hm Ho]. destruct (add_replacement _ gs m) as [gs1|] eqn:E; [|done]. cbn.
    destruct (add_replacement_ok gs m gs1 Hok Hm E) as (Hok1 & Hend & Hcat). intros H.
    destruct (IH gs1 Hok1 ltac:(by rewrite Hend) H) as [Hok' Hcat']. split; [done|]. by rewrite Hcat', Hcat, <- app_assoc.
Qed.

(** ** Writing the lines back *)

(** [rewrites os bs es out]: [out] has the original lines [os], except for blocks of
    lines that the replacements [es] (the matched texts and what replaces them)
    touch, which come from the base lines [bs].  Between the matches of a block there
    is no newline, and after the last only the one that ends its line. *)
Inductive rewrites : list jsstring → list jsstring → list (jsstring * jsstring) → jsstring → Prop :=
| rewrites_nil : rewrites [] [] [] []
| rewrites_keep o b os bs es out : rewrites os bs es out → rewrites (o :: os) (b :: bs) es (o ++ out)
| rewrites_block os' bs' gaps rest es' os bs es out :
    length os' = length bs' → es' ≠ [] →
    concat bs' = weave (gaps ++ [rest]) es'.*1 → length gaps = length es' →
    Forall (λ gap, newline ∉ gap) gaps →
    (∀ i, rest !! i = Some newline → S i = length rest) →
    rewrites os bs es out →
    rewrites (os' ++ os) (bs' ++ bs) (es' ++ es) (weave (gaps ++ [rest]) es'.*2 ++ out).

Lemma rewrites_keep_lines os' bs' os bs es out :
  length os' = length bs' → rewrites os bs es out → rewrites (os' ++ os) (bs' ++ bs) es (concat os' ++ out).
Proof.
  revert bs'. induction os' as [|o os' IH]; intros [|b bs'] Hlen Hr; try done. cbn. rewrite <- app_assoc.
  apply rewrites_keep. apply IH; [by injection Hlen|done].
Qed.

(** A replacement as the text it matched and the text it puts there. *)
Definition as_pair (m : MatchedEdit) : jsstring * jsstring := (matched_text base m, newText m).

(** Groups in their order, from line [k] on. *)
Fixpoint groups_from (k : nat) (gs : list group) : Prop :=
  match gs with [] => True | g :: gs => k ≤ startLine g ∧ group_ok g ∧ groups_from (endLine g) gs end.

Lemma groups_from_snoc k gs g :
  groups_from k gs → group_ok g → (k ≤ startLine g) → match last gs with Some g' => endLine g' ≤ startLine g | None => True end →
  groups_from k (gs ++ [g]).
Proof.
  revert k. induction gs as [|g1 gs IH]; intros k Hgs Hg Hk Hlast; cbn; [done|]. destruct Hgs as (H1 & H2 & H3).
  split_and!; [done|done|]. apply IH; [done|done| |].
  - destruct gs as [|g2 gs]; [done|]. clear IH H1 H2 Hk.
    revert g1 g2 H3 Hlast. induction gs as [|g3 gs IH]; intros g1 g2 (H1 & H2 & H3) Hlast; cbn in *; [destruct H2 as [? _ _ _ _]; lia|].
    destruct H2 as [? _ _ _ _]. pose proof (IH g2 g3 H3 Hlast). lia.
  - by destruct gs.
Qed.

Lemma groups_ok_from gs : groups_ok gs → groups_from 0 (reverse gs).
Proof.
  induction gs as [|g gs IH]; [done|]. intros (Hg & Hchain & Hgs). rewrite reverse_cons.
  apply groups_from_snoc; [by apply IH|done|lia|]. rewrite last_reverse. by destruct gs.
Qed.

Lemma write_groups_rewrites os k gs :
  length os = length L → groups_from k gs → k ≤ length L →
  rewrites (drop k os) (drop k L) (as_pair <$> concat (replacements <$> gs))
    (write_groups os base (getLineSpans base) k gs).
Proof.
  intros Hlen. revert k. induction gs as [|g gs IH]; intros k Hgs Hk; cbn [write_groups].
  { pose proof (rewrites_keep_lines (drop k os) (drop k L) [] [] [] []) as H. rewrite !app_nil_r in H.
    apply H; [rewrite !length_drop; lia|apply rewrites_nil]. }
  destruct Hgs as (Hks & [Hl Hne Ho Hg Hlast] & Hgs).
  destruct (lookup_lt_is_Some_2 L (startLine g) ltac:(lia)) as [sl Hsl].
  destruct (lookup_lt_is_Some_2 L (endLine g - 1) ltac:(lia)) as [el Hel].
  rewrite (lineSpans_lookup _ _ Hsl), (lineSpans_lookup _ _ Hel). cbn [from_option span_start span_end].
  replace (S (endLine g - 1)) with (endLine g) by lia.
  assert (∀ ls : list jsstring, drop k ls = take (startLine g - k) (drop k ls)
            ++ take (endLine g - startLine g) (drop (startLine g) ls) ++ drop (endLine g) ls) as Hsplit.
  { intros ls. rewrite <- (take_drop (startLine g - k) (drop k ls)) at 1. f_equal. rewrite drop_drop.
    replace (k + (startLine g - k)) with (startLine g) by lia.
    rewrite <- (take_drop (endLine g - startLine g) (drop (startLine g) ls)) at 1. f_equal. rewrite drop_drop. f_equal. lia. }
  assert (∀ l l' es out, l = drop k os → l' = drop k L → rewrites l l' es out → rewrites (drop k os) (drop k L) es out) as Hgoal
    by (by intros ? ? ? ? -> ->).
  eapply Hgoal; [symmetry; exact (Hsplit os)|symmetry; exact (Hsplit L)|]. clear Hgoal Hsplit.
  apply rewrites_keep_lines; [rewrite !length_take, !length_drop; lia|].
  rewrite fmap_cons. cbn [concat]. rewrite fmap_app.
  pose proof (offset_le (endLine g) (length L) ltac:(lia)) as Hbase. rewrite offset_all in Hbase.
  rewrite (applyReplacements_weave base _ (offset (startLine g)) _ _ (Nat.le_refl _) Hbase Ho), slice_nil. cbn [app].
  unfold all_gaps. replace (newText <$> replacements g) with ((as_pair <$> replacements g).*2) by by rewrite <- list_fmap_compose.
  apply rewrites_block.
  - rewrite !length_take, !length_drop. lia.
  - by destruct (replacements g).
  - rewrite <- slice_lines by lia. rewrite <- (weave_matched base _ _ _ Ho). unfold all_gaps.
    by rewrite <- list_fmap_compose.
  - rewrite length_fmap. generalize (offset (startLine g)) as p. generalize (replacements g) as ms. clear.
    induction ms as [|m ms IH]; intros p; cbn; [done|]. by rewrite IH.
  - done.
  - intros i Hi. apply in_order_last in Ho as [_ Ho]. rewrite length_slice by done.
    assert (endLine g = S (endLine g - 1)) as He by lia. rewrite He in Hi.
    pose proof (gap_last_newline _ _ _ _ Hel Hlast Hi) as Hn. rewrite <- He in Hn. lia.
  - apply IH; [done|lia].
Qed.
End Lines.

(** ** Matching *)

Lemma sort_insert_perm m ms : sort_insert m ms ≡ₚ m :: ms.
Proof.
  induction ms as [|m' ms IH]; [done|]. cbn. destruct (Nat.leb _ _); [done|]. rewrite IH. apply Permutation_swap.
Qed.

Lemma sort_matches_perm ms : sort_matches ms ≡ₚ ms.
Proof. induction ms as [|m ms IH]; [done|]. cbn. by rewrite sort_insert_perm, IH. Qed.

(** Neighbours that do not overlap are in order, up to any bound on their ends. *)
Lemma find_overlap_in_order p ms e :
  find_overlap ms = None → match ms with m :: _ => p ≤ matchIndex m | [] => p ≤ e end →
  Forall (λ m, match_end m ≤ e) ms → in_order p ms e.
Proof.
  revert p. induction ms as [|m ms IH]; intros p Hov Hp Hall; [done|].
  apply Forall_cons in Hall as [Hm Hall]. split; [done|]. destruct ms as [|m' ms]; [exact Hm|].
  cbn [find_overlap] in Hov. destruct (Nat.ltb_spec (matchIndex m') (matchIndex m + matchLength m)); [done|].
  by apply IH.
Qed.

Lemma in_order_some p ms : find_overlap ms = None → p = 0 → in_order p ms (last_end p ms).
Proof.
  intros Hov ->. pose proof (find_overlap_in_order 0 ms (foldr Nat.max 0 (match_end <$> ms)) Hov) as H.
  apply in_order_last with (e := foldr Nat.max 0 (match_end <$> ms)). apply H.
  - destruct ms; lia.
  - clear. apply Forall_forall. intros m Hm. induction ms as [|m' ms IH]; [by apply elem_of_nil in Hm|].
    cbn. apply elem_of_cons in Hm as [->|Hm]; [lia|]. specialize (IH Hm). lia.
Qed.

Lemma sort_matches_in_order p ms e : in_order p ms e → sort_matches ms = ms.
Proof.
  revert p. induction ms as [|m ms IH]; intros p; [done|]. intros [_ Ho].
  change (sort_insert m (sort_matches ms) = m :: ms). rewrite (IH _ Ho).
  destruct ms as [|m' ms]; [done|]. destruct Ho as [Ho _]. cbn. destruct (Nat.leb_spec (matchIndex m) (matchIndex m')); [done|].
  unfold match_end in Ho. lia.
Qed.

(** Replacements that do not overlap, in a text of as many lines as the original. *)
Lemma preserving_rewrites content base ms new :
  find_overlap (sort_matches ms) = None →
  applyReplacementsPreservingUnchangedLines content base (sort_matches ms) = Ok new →
  rewrites (splitLinesWithEndings content) (splitLinesWithEndings base) (as_pair base <$> sort_matches ms) new.
Proof.
  intros Hov. unfold applyReplacementsPreservingUnchangedLines.
  destruct (Nat.eqb_spec (length (splitLinesWithEndings content)) (length (getLineSpans base))) as [Hlen|]; [|done].
  cbn [negb]. unfold getLineSpans in Hlen. rewrite length_spans in Hlen.
  pose proof (in_order_some 0 _ Hov eq_refl) as Ho. rewrite (sort_matches_in_order _ _ _ Ho).
  destruct (add_replacements _ [] _) as [gs|] eqn:Hgs; [|done]. intros [= <-].
  destruct (add_replacements_ok base [] _ gs _ I Ho Hgs) as [Hok Hall]. cbn in Hall. rewrite <- Hall.
  pose proof (write_groups_rewrites base (splitLinesWithEndings content) 0 (reverse gs) Hlen (groups_ok_from base gs Hok) (Nat.le_0_l _)) as H.
  by rewrite !drop_0 in H.
Qed.

Lemma exact_weaves base ms :
  find_overlap ms = None → Forall (λ m, match_end m ≤ length base) ms →
  ∃ gaps, length gaps = S (length (as_pair base <$> ms)) ∧ base = weave gaps (as_pair base <$> ms).*1
    ∧ applyReplacements base ms 0 = weave gaps (as_pair base <$> ms).*2.
Proof.
  intros Hov Hall. assert (in_order 0 ms (length base)) as Ho by (apply find_overlap_in_order; [done|destruct ms; lia|done]).
  exists (all_gaps base 0 ms (length base)). rewrite length_fmap. split; [apply length_all_gaps|]. split.
  - rewrite <- list_fmap_compose, <- (slice_all base) at 1. symmetry. by apply weave_matched.
  - rewrite <- (slice_all base) at 1. rewrite (applyReplacements_weave base 0 0 ms) by done. by rewrite slice_nil, <- list_fmap_compose.
Qed.

Lemma found_texts content es ms :
  Forall (λ e, index_of (edit_oldText e) content ≠ None) es →
  Forall2 (λ e m, index_of (edit_oldText e) content ≠ None → matched_text content m = edit_oldText e ∧ match_end m ≤ length content) es ms →
  fst ∘ as_pair content <$> ms = edit_oldText <$> es ∧ Forall (λ m, match_end m ≤ length content) ms.
Proof.
  intros Hall H. induction H as [|e m es ms He H IH]; [done|]. apply Forall_cons in Hall as [Hf Hall].
  destruct (He Hf) as [Ht Hm]. destruct (IH Hall) as [IHt IHm]. rewrite !fmap_cons. split; [by f_equal|by apply Forall_cons].
Qed.

Section Edits.
Context (nfkc : jsstring → jsstring).
Abbreviation normalize := (normalizeForFuzzyMatch nfkc).

(** A text does not occur at two places that do not overlap.  The empty text, to which blanks
    are normalised, counts as once for every character. *)
Definition found_once (t s : jsstring) : Prop :=
  match t with [] => length s ≤ 2 | _ => ∀ x y z, s ≠ x ++ t ++ y ++ t ++ z end.

Lemma split_pieces_pos sep s k : 1 ≤ split_pieces sep s k.
Proof. revert k. induction s as [|c s IH]; intros k; cbn [split_pieces]; [lia|]. destruct k; [case_match; [lia|apply IH]|apply IH]. Qed.

Lemma split_pieces_once sep x z k : sep ≠ [] → k ≤ length x → 2 ≤ split_pieces sep (x ++ sep ++ z) k.
Proof.
  intros Hsep. revert k. induction x as [|c x IH]; intros k Hk.
  - assert (k = 0) as -> by (cbn in Hk; lia). destruct sep as [|d sep]; [done|]. cbn [app split_pieces].
    rewrite bool_decide_true by (apply (prefix_app_r (d :: sep) (d :: sep)); done). pose proof (split_pieces_pos (d :: sep) (sep ++ z) (length (d :: sep) - 1)). lia.
  - cbn [app split_pieces]. destruct k as [|k]; [|apply IH; cbn in Hk; lia].
    case_bool_decide; [|apply IH; lia]. pose proof (split_pieces_pos sep (x ++ sep ++ z) (length sep - 1)). lia.
Qed.

Lemma split_pieces_twice sep x y z k : sep ≠ [] → k ≤ length x → 3 ≤ split_pieces sep (x ++ sep ++ y ++ sep ++ z) k.
Proof.
  intros Hsep. revert k. induction x as [|c x IH]; intros k Hk.
  - assert (k = 0) as -> by (cbn in Hk; lia). destruct sep as [|d sep]; [done|]. cbn [app split_pieces].
    rewrite bool_decide_true by (apply (prefix_app_r (d :: sep) (d :: sep)); done).
    pose proof (split_pieces_once (d :: sep) (sep ++ y) z (length (d :: sep) - 1) Hsep) as H.
    rewrite <- app_assoc in H. specialize (H ltac:(rewrite length_app; simpl; lia)). cbn [app] in H. lia.
  - cbn [app split_pieces]. destruct k as [|k]; [|apply IH; cbn in Hk; lia]. case_bool_decide; [|apply IH; lia].
    pose proof (split_pieces_once sep (x ++ sep ++ y) z (length sep - 1) Hsep) as H'.
    rewrite <- !app_assoc in H'. specialize (H' ltac:(rewrite !length_app; lia)). lia.
Qed.

Lemma countOccurrences_once base t : (countOccurrences nfkc base t ≤ 1)%Z → found_once (normalize t) (normalize base).
Proof.
  unfold countOccurrences, split_length, found_once. destruct (normalize t) as [|c n] eqn:Hn; [lia|].
  intros Hc x y z Heq. rewrite Heq in Hc. pose proof (split_pieces_twice (c :: n) x y z 0 ltac:(done) ltac:(lia)). lia.
Qed.

(** What an edit matches in a text, and what it puts there: its old text itself or,
    where that does not occur, what its normalised form matches in the normalised
    text; in a text that normalisation leaves alone that is the normalised form. *)
Definition edit_matches (base : jsstring) (e : Edit) (p : jsstring * jsstring) : Prop :=
  p.2 = edit_newText e ∧ edit_oldText e ≠ [] ∧ found_once (normalize (edit_oldText e)) (normalize base)
  ∧ (p.1 = edit_oldText e
     ∨ index_of (edit_oldText e) base = None ∧ (normalize base = base → p.1 = normalize (edit_oldText e))).

Lemma match_edits_spec base i edits ms :
  match_edits nfkc base i edits = Ok ms → Forall (λ e, edit_oldText e ≠ []) edits →
  Forall2 (edit_matches base) edits (as_pair base <$> ms)
  ∧ Forall2 (λ e m, index_of (edit_oldText e) base ≠ None → matched_text base m = edit_oldText e ∧ match_end m ≤ length base) edits ms.
Proof.
  revert i ms. induction edits as [|e edits IH]; intros i ms; cbn [match_edits].
  { intros [= <-] _. split; apply Forall2_nil_2. }
  destruct (fuzzyFindText nfkc base (edit_oldText e)) as [fm|] eqn:Hf; [|done].
  destruct (Z.ltb_spec 1 (countOccurrences nfkc base (edit_oldText e))) as [|Hc]; [done|].
  destruct (match_edits nfkc base (S i) edits) as [ms'|] eqn:Hms; [|done]. cbn [mbind result_bind].
  intros [= <-] [He Hes]%Forall_cons. destruct (IH _ _ Hms Hes) as [H1 H2]. rewrite fmap_cons.
  unfold fuzzyFindText in Hf. destruct (index_of (edit_oldText e) base) as [j|] eqn:Hi.
  - injection Hf as <-. apply index_of_Some in Hi as Hx. destruct Hx as [Hs Hl]. split; apply Forall2_cons; split; [|done| |done].
    + split_and!; [done|done|by apply countOccurrences_once|]. left. exact Hs.
    + intros _. split; [exact Hs|exact Hl].
  - destruct (index_of (normalize (edit_oldText e)) (normalize base)) as [j|] eqn:Hj; [|done]. cbn in Hf. injection Hf as <-.
    apply index_of_Some in Hj as [Hs Hl]. split; apply Forall2_cons; split; [|done|done|done].
    split_and!; [done|done|by apply countOccurrences_once|]. right. split; [done|]. intros Hid. rewrite Hid in Hs at 1. exact Hs.
Qed.

Lemma not_fuzzy_found content edits i ms :
  existsb (λ e, from_option usedFuzzyMatch false (fuzzyFindText nfkc content (edit_oldText e))) edits = false →
  match_edits nfkc content i edits = Ok ms → Forall (λ e, index_of (edit_oldText e) content ≠ None) edits.
Proof.
  revert i ms. induction edits as [|e edits IH]; intros i ms; [by intros; apply Forall_nil_2|].
  cbn [existsb match_edits]. intros [He Hes]%orb_false_iff. unfold fuzzyFindText in He |- *.
  destruct (index_of (edit_oldText e) content) as [j|] eqn:Hi.
  - destruct (1 <? _)%Z; [done|]. destruct (match_edits _ _ (S i) edits) eqn:E; [|done]. intros _.
    apply Forall_cons. split; [by rewrite Hi|by eapply IH].
  - by destruct (index_of (normalize _) _).
Qed.

(** C25: edits that succeed are applied to the text given, which they change.
    There is an order of the edits in which each old text, not empty and, compared in
    the normalised form, not found at two places that do not overlap, is replaced by its
    new text.  When all occur literally everything between
    them is untouched.  Otherwise the texts are those of the normalised view, and
    only the lines an edit touches are taken from it: all others keep their bytes. *)
Theorem applyEdits_spec content edits baseContent newContent :
  applyEditsToNormalizedContent nfkc content edits = Ok (baseContent, newContent) →
  baseContent = content ∧ newContent ≠ content ∧
  ∃ (fuzzy : bool) es es',
    Forall2 (edit_matches (if fuzzy then normalize content else content)) (normalize_edit <$> edits) es ∧ es' ≡ₚ es
    ∧ (fuzzy = true → ∃ e, e ∈ normalize_edit <$> edits ∧ index_of (edit_oldText e) content = None)
    ∧ if fuzzy then rewrites (splitLinesWithEndings content) (splitLinesWithEndings (normalize content)) es' newContent
      else es.*1 = edit_oldText <$> (normalize_edit <$> edits)
           ∧ ∃ gaps, length gaps = S (length es') ∧ content = weave gaps es'.*1 ∧ newContent = weave gaps es'.*2.
Proof.
  unfold applyEditsToNormalizedContent. set (ns := normalize_edit <$> edits).
  destruct (first_empty ns) eqn:Hempty; [done|].
  assert (Forall (λ e, edit_oldText e ≠ []) ns) as Hne.
  { unfold first_empty in Hempty. apply fmap_None, list_find_None in Hempty. exact Hempty. }
  destruct (existsb _ ns) eqn:Hfuzzy;
    (destruct (match_edits nfkc _ 0 ns) as [ms|] eqn:Hms; [|done]); cbn [mbind result_bind];
    destruct (match_edits_spec _ 0 ns ms Hms Hne) as [Hes Hfound];
    (destruct (find_overlap (sort_matches ms)) as [[? ?]|] eqn:Hov; [done|]); cbn [mbind result_bind].
  - destruct (applyReplacementsPreservingUnchangedLines _ _ _) as [new|] eqn:Hnew; [|done]. cbn [mbind result_bind].
    case_bool_decide as Hdiff; [done|]. intros [= <- <-]. split; [done|]. split; [congruence|].
    exists true, (as_pair (normalize content) <$> ms), (as_pair (normalize content) <$> sort_matches ms).
    split; [exact Hes|]. split; [by rewrite sort_matches_perm|]. split; [|by apply preserving_rewrites].
    intros _. apply existsb_exists in Hfuzzy as (e & Hin & He). exists e. split; [by apply list_elem_of_In|].
    unfold fuzzyFindText in He. by destruct (index_of (edit_oldText e) content).
  - case_bool_decide as Hdiff; [done|]. intros [= <- <-]. split; [done|]. split; [congruence|].
    exists false, (as_pair content <$> ms), (as_pair content <$> sort_matches ms).
    split; [exact Hes|]. split; [by rewrite sort_matches_perm|]. split; [done|].
    destruct (found_texts content ns ms (not_fuzzy_found _ _ _ _ Hfuzzy Hms) Hfound) as [Htexts Hends].
    split; [rewrite <- list_fmap_compose; exact Htexts|]. apply (exact_weaves content); [done|].
    by rewrite sort_matches_perm.
Qed.
End Edits.

(** ** Concrete edits *)

(** Two edits found as they are, given in the other order; and one that is found only
    after the quotes are normalised, whose neighbour line keeps its bytes. *)
Definition exact_edits : list Edit := [MkEdit (js "world") (js "moon"); MkEdit (js "hello") (js "bye")].
Definition curly : jsstring := js "it" ++ [8217]%Z ++ js "s" ++ [10]%Z ++ js "keep" ++ [8217; 32; 10]%Z.
Definition curly_edits : list Edit := [MkEdit (js "it's") (js "is")].

Theorem applyEdits_spec_witness :
  applyEditsToNormalizedContent id (js "hello world") exact_edits = Ok (js "hello world", js "bye moon")
  ∧ (js "hello world" = js "hello world" ∧ js "bye moon" ≠ js "hello world" ∧
     ∃ (fuzzy : bool) es es',
       Forall2 (edit_matches id (if fuzzy then normalizeForFuzzyMatch id (js "hello world") else js "hello world"))
         (normalize_edit <$> exact_edits) es ∧ es' ≡ₚ es
       ∧ (fuzzy = true → ∃ e, e ∈ normalize_edit <$> exact_edits ∧ index_of (edit_oldText e) (js "hello world") = None)
       ∧ if fuzzy then rewrites (splitLinesWithEndings (js "hello world"))
                         (splitLinesWithEndings (normalizeForFuzzyMatch id (js "hello world"))) es' (js "bye moon")
         else es.*1 = edit_oldText <$> (normalize_edit <$> exact_edits)
              ∧ ∃ gaps, length gaps = S (length es') ∧ js "hello world" = weave gaps es'.*1 ∧ js "bye moon" = weave gaps es'.*2).
Proof.
  assert (applyEditsToNormalizedContent id (js "hello world") exact_edits = Ok (js "hello world", js "bye moon")) as H
    by (vm_compute; reflexivity).
  split; [exact H|]. exact (applyEdits_spec id _ _ _ _ H).
Defined.

Example curly_applied :
  applyEditsToNormalizedContent id curly curly_edits = Ok (curly, js "is" ++ [10]%Z ++ js "keep" ++ [8217; 32; 10]%Z).
Proof. vm_compute. reflexivity. Qed.

(** An old text that occurs twice with an overlap is taken for unique. *)
Example overlapping_occurrences :
  applyEditsToNormalizedContent id (js "aaa") [MkEdit (js "aa") (js "b")] = Ok (js "aaa", js "ba").
Proof. vm_compute. reflexivity. Qed.

(** A last line of blanks is lost when it is normalised, and then no edit that needs
    normalisation succeeds. *)
Example blank_last_line :
  applyEditsToNormalizedContent id (curly ++ [32]%Z) curly_edits = Err DifferentLineCount.
Proof. vm_compute. reflexivity. Qed.

(** An old text of blanks that does not occur is normalised to the empty text: it is
    found at the start of a text of one or two code units, and called duplicated in
    a longer one. *)
Example blank_old_text :
  applyEditsToNormalizedContent id (js "x") [MkEdit (js "  ") (js "y")] = Ok (js "x", js "yx")
  ∧ applyEditsToNormalizedContent id (js "a b c") [MkEdit (js "  ") (js "y")] = Err (DuplicateText 0 4).
Proof. split; vm_compute; reflexivity. Qed.
