(* ===== verification/Framing.v ===== *)
(** * Length-prefixed framing ([packages/protocol/src/framing.ts])

    [encodeFrame], [assertCompleteFrame] and the incremental [FrameDecoder]: its
    fields, the outer and inner loops of [push], [end] and [fail].  The abstract
    contract is [split_frames], which cuts a whole byte string into payloads; the
    decoder is shown to refine it whatever way the bytes are cut into chunks. *)

From S2P Require Import Prelude JsNumber.

Definition FRAME_HEADER_LENGTH : Z := 4.
Definition PAYLOAD_BLOCK_SIZE : Z := 64 * 1024.
Definition DEFAULT_MAX_FRAME_LENGTH : Z := 16 * 1024 * 1024.

(** Every [throw] of the file. *)
Inductive frame_error :=
| RangeError_maxFrameLength
| RangeError_payload
| FrameError_no_prefix
| FrameError_too_large (length limit : Z)
| FrameError_not_one_payload
| FrameError_ended
| FrameError_failed
| FrameError_truncated.

#[export] Instance frame_error_eq_dec : EqDecision frame_error.
Proof. solve_decision. Defined.

Abbreviation bytes := (list Z) (only parsing).

(** [options?.maxFrameLength ?? DEFAULT_MAX_FRAME_LENGTH] and its range check. *)
Definition resolveMaxFrameLength (options : option jsnum) : result frame_error Z :=
  let value := default (of_Z DEFAULT_MAX_FRAME_LENGTH) options in
  match int_value value with
  | Some v =>
      if negb (is_safe v) || (v <? 0) || (MAX_UINT32 <? v)
      then Err RangeError_maxFrameLength else Ok v
  | None => Err RangeError_maxFrameLength
  end.

Definition encodeFrame (payload : bytes) : result frame_error bytes :=
  if MAX_UINT32 <? zlen payload then Err RangeError_payload
  else
    let length := zlen payload in
    let frame := replicate (Z.to_nat (FRAME_HEADER_LENGTH + length)) 0 in
    let frame := array_set frame
      [to_uint8 (ushr length 24); to_uint8 (ushr length 16);
       to_uint8 (ushr length 8); to_uint8 length] 0 in
    Ok (array_set frame payload FRAME_HEADER_LENGTH).

Definition assertCompleteFrame (frame : bytes) (options : option jsnum) : result frame_error unit :=
  if zlen frame <? FRAME_HEADER_LENGTH then Err FrameError_no_prefix
  else
    let length := byte_at frame 0 * 16777216 + byte_at frame 1 * 65536
                  + byte_at frame 2 * 256 + byte_at frame 3 in
    maxFrameLength ← resolveMaxFrameLength options;
    if maxFrameLength <? length then Err (FrameError_too_large length maxFrameLength)
    else if negb (zlen frame =? FRAME_HEADER_LENGTH + length) then Err FrameError_not_one_payload
    else Ok ().

Inductive DecoderState := open | ended | failed.

#[export] Instance DecoderState_eq_dec : EqDecision DecoderState.
Proof. solve_decision. Defined.

(** The private fields.  [currentPayloadBlock] is a reference to an element of
    [payloadBlocks] (a write through it is a write to that element), kept as
    its index. *)
Record FrameDecoder := MkFrameDecoder {
  header : bytes;
  headerLength : Z;
  maxFrameLength : Z;
  payloadBlocks : list bytes;
  currentPayloadBlock : option nat;
  currentPayloadBlockLength : Z;
  expectedPayloadLength : option Z;
  payloadLength : Z;
  state : DecoderState;
}.

#[export] Instance FrameDecoder_eta : Eta FrameDecoder := λ d,
  MkFrameDecoder (header d) (headerLength d) (maxFrameLength d) (payloadBlocks d)
    (currentPayloadBlock d) (currentPayloadBlockLength d) (expectedPayloadLength d)
    (payloadLength d) (state d).

(** The constructor. *)
Definition new_FrameDecoder (options : option jsnum) : result frame_error FrameDecoder :=
  max ← resolveMaxFrameLength options;
  Ok (MkFrameDecoder [0; 0; 0; 0] 0 max [] None 0 None 0 open).

(** The assignments of [fail] (the [throw] is the caller's [Err]). *)
Definition fail (d : FrameDecoder) : FrameDecoder :=
  d <| state := failed |> <| headerLength := 0 |> <| payloadBlocks := [] |>
    <| currentPayloadBlock := None |> <| currentPayloadBlockLength := 0 |>
    <| expectedPayloadLength := None |> <| payloadLength := 0 |>.

(** The reset after a payload, and before one. *)
Definition reset_payload (d : FrameDecoder) : FrameDecoder :=
  d <| payloadBlocks := [] |> <| currentPayloadBlock := None |>
    <| currentPayloadBlockLength := 0 |> <| payloadLength := 0 |>.

(** The length a full header announces. *)
Definition header_value (d : FrameDecoder) : Z :=
  byte_at (header d) 0 * 16777216 + byte_at (header d) 1 * 65536
  + byte_at (header d) 2 * 256 + byte_at (header d) 3.

(** The size of the block a write goes to, if there is a current block. *)
Definition current_block (d : FrameDecoder) : option bytes :=
  i ← currentPayloadBlock d; payloadBlocks d !! i.

(** [if (!block || this.currentPayloadBlockLength === block.byteLength) {...}] *)
Definition ensure_block (d : FrameDecoder) (expected : Z) : FrameDecoder :=
  let fresh :=
    d <| payloadBlocks := payloadBlocks d
           ++ [replicate (Z.to_nat (Z.min PAYLOAD_BLOCK_SIZE (expected - payloadLength d))) 0] |>
      <| currentPayloadBlock := Some (length (payloadBlocks d)) |>
      <| currentPayloadBlockLength := 0 |> in
  match current_block d with
  | None => fresh
  | Some block => if currentPayloadBlockLength d =? zlen block then fresh else d
  end.

(** One iteration of the inner loop: copy into the current block. *)
Definition fill_block (d : FrameDecoder) (chunk : bytes) (chunkOffset : Z) (expected : Z)
  : FrameDecoder * Z :=
  let d := ensure_block d expected in
  let i := default O (currentPayloadBlock d) in
  let block := default [] (payloadBlocks d !! i) in
  let payloadBytes := Z.min (zlen block - currentPayloadBlockLength d) (zlen chunk - chunkOffset) in
  let block' := array_set block (subarray chunk chunkOffset (chunkOffset + payloadBytes))
                  (currentPayloadBlockLength d) in
  (d <| payloadBlocks := <[i := block']> (payloadBlocks d) |>
     <| currentPayloadBlockLength := currentPayloadBlockLength d + payloadBytes |>
     <| payloadLength := payloadLength d + payloadBytes |>,
   chunkOffset + payloadBytes).

(** [while (chunkOffset < chunk.byteLength && this.payloadLength < expected)];
    each iteration consumes at least one byte, so the bytes left are fuel
    enough ([fill_payload_done]). *)
Fixpoint fill_payload (fuel : nat) (d : FrameDecoder) (chunk : bytes) (chunkOffset : Z)
    (expected : Z) : FrameDecoder * Z :=
  match fuel with
  | O => (d, chunkOffset)
  | S fuel =>
      if (chunkOffset <? zlen chunk) && (payloadLength d <? expected) then
        let '(d, chunkOffset) := fill_block d chunk chunkOffset expected in
        fill_payload fuel d chunk chunkOffset expected
      else (d, chunkOffset)
  end.

(** The payload of a completed frame: its only block, or all blocks copied
    into one array of the expected length. *)
Definition join_blocks (blocks : list bytes) (expected : Z) : bytes :=
  match blocks with
  | [block] => block
  | _ =>
      (foldl (λ '(payload, offset) block,
                (array_set payload block offset, offset + zlen block))
         (replicate (Z.to_nat expected) 0, 0) blocks).1
  end.

(** The part of an iteration of the outer loop that reads the header: the new
    state and offset, and whether the rest of the iteration is skipped
    ([continue]), a frame was completed (an empty one) or the length refused. *)
Inductive header_step :=
| HContinue (d : FrameDecoder) (chunkOffset : Z)
| HEmptyFrame (d : FrameDecoder) (chunkOffset : Z)
| HPayload (d : FrameDecoder) (chunkOffset : Z)
| HFail (d : FrameDecoder) (e : frame_error).

Definition read_header (d : FrameDecoder) (chunk : bytes) (chunkOffset : Z) : header_step :=
  let headerBytes := Z.min (FRAME_HEADER_LENGTH - headerLength d) (zlen chunk - chunkOffset) in
  let d := d <| header := array_set (header d)
                            (subarray chunk chunkOffset (chunkOffset + headerBytes))
                            (headerLength d) |>
             <| headerLength := headerLength d + headerBytes |> in
  let chunkOffset := chunkOffset + headerBytes in
  if headerLength d <? FRAME_HEADER_LENGTH then HContinue d chunkOffset
  else
    let frameLength := header_value d in
    let d := d <| headerLength := 0 |> in
    if maxFrameLength d <? frameLength
    then HFail (fail d) (FrameError_too_large frameLength (maxFrameLength d))
    else if frameLength =? 0 then HEmptyFrame d chunkOffset
    else HPayload (reset_payload (d <| expectedPayloadLength := Some frameLength |>)) chunkOffset.

(** The rest of an iteration, with a payload under way. *)
Definition read_payload (d : FrameDecoder) (chunk : bytes) (chunkOffset : Z) (frames : list bytes)
    (expected : Z) : FrameDecoder * Z * list bytes :=
  let '(d, chunkOffset) := fill_payload (length chunk) d chunk chunkOffset expected in
  if payloadLength d =? expected then
    (reset_payload d <| expectedPayloadLength := None |>, chunkOffset,
     frames ++ [join_blocks (payloadBlocks d) expected])
  else (d, chunkOffset, frames).

(** [while (chunkOffset < chunk.byteLength)].  The exceptional outcome carries the
    decoder as [fail] left it. *)
Fixpoint push_loop (fuel : nat) (d : FrameDecoder) (chunk : bytes) (chunkOffset : Z)
    (frames : list bytes) : FrameDecoder * result frame_error (list bytes) :=
  match fuel with
  | O => (d, Ok frames)
  | S fuel =>
      if negb (chunkOffset <? zlen chunk) then (d, Ok frames)
      else
        match expectedPayloadLength d with
        | None =>
            match read_header d chunk chunkOffset with
            | HFail d e => (d, Err e)
            | HContinue d chunkOffset => push_loop fuel d chunk chunkOffset frames
            | HEmptyFrame d chunkOffset => push_loop fuel d chunk chunkOffset (frames ++ [[]])
            | HPayload d chunkOffset =>
                match expectedPayloadLength d with
                | None => push_loop fuel d chunk chunkOffset frames
                | Some expected =>
                    let '(d, chunkOffset, frames) := read_payload d chunk chunkOffset frames expected in
                    push_loop fuel d chunk chunkOffset frames
                end
            end
        | Some expected =>
            let '(d, chunkOffset, frames) := read_payload d chunk chunkOffset frames expected in
            push_loop fuel d chunk chunkOffset frames
        end
  end.

Definition push (d : FrameDecoder) (chunk : bytes) : FrameDecoder * result frame_error (list bytes) :=
  match state d with
  | ended => (d, Err FrameError_ended)
  | failed => (d, Err FrameError_failed)
  | open => push_loop (S (length chunk)) d chunk 0 []
  end.

(** [end()]. *)
Definition end_ (d : FrameDecoder) : FrameDecoder * result frame_error unit :=
  match state d with
  | ended => (d, Err FrameError_ended)
  | failed => (d, Err FrameError_failed)
  | open =>
      if negb (headerLength d =? 0) || bool_decide (is_Some (expectedPayloadLength d))
      then (fail d, Err FrameError_truncated)
      else (d <| state := ended |>, Ok ())
  end.

(** ** The contract: cutting a whole byte string *)

Inductive next_frame :=
| Incomplete
| TooLarge (n : Z)
| Frame (payload rest : bytes).

(** The first frame of a byte string, if it is there in full. *)
Definition parse_frame (max : Z) (buf : bytes) : next_frame :=
  if zlen buf <? 4 then Incomplete
  else
    let n := be32_value (take 4 buf) in
    if max <? n then TooLarge n
    else if zlen buf <? 4 + n then Incomplete
    else Frame (take (Z.to_nat n) (drop 4 buf)) (drop (Z.to_nat n) (drop 4 buf)).

(** All complete frames, and either the bytes left over or the length refused. *)
Fixpoint split_frames_fuel (fuel : nat) (max : Z) (buf : bytes) : list bytes * (bytes + Z) :=
  match fuel with
  | O => ([], inl buf)
  | S fuel =>
      match parse_frame max buf with
      | Incomplete => ([], inl buf)
      | TooLarge n => ([], inr n)
      | Frame p rest => let '(ps, r) := split_frames_fuel fuel max rest in (p :: ps, r)
      end
  end.
Definition split_frames (max : Z) (buf : bytes) : list bytes * (bytes + Z) :=
  split_frames_fuel (S (length buf)) max buf.

(** ** The contract's equations *)

Lemma parse_frame_shrinks max buf p rest :
  parse_frame max buf = Frame p rest → (length rest < length buf)%nat.
Proof.
  unfold parse_frame. destruct (Z.ltb_spec (zlen buf) 4); [done|].
  case_match; [done|]. case_match; [done|]. intros [= _ <-].
  rewrite !length_drop. unfold zlen in *. lia.
Qed.

(** Any fuel above the length of the buffer gives the same cut. *)
Lemma split_frames_fuel_enough max fuel fuel' buf :
  (length buf < fuel)%nat → (length buf < fuel')%nat →
  split_frames_fuel fuel max buf = split_frames_fuel fuel' max buf.
Proof.
  revert fuel' buf. induction fuel as [|fuel IH]; intros [|fuel'] buf H1 H2; [lia..|].
  cbn. destruct (parse_frame max buf) as [| |p rest] eqn:E; [done..|].
  apply parse_frame_shrinks in E. rewrite (IH fuel') by lia. done.
Qed.

Lemma split_frames_eq max buf :
  split_frames max buf =
  match parse_frame max buf with
  | Incomplete => ([], inl buf)
  | TooLarge n => ([], inr n)
  | Frame p rest => let '(ps, r) := split_frames max rest in (p :: ps, r)
  end.
Proof.
  unfold split_frames at 1. cbn [split_frames_fuel].
  destruct (parse_frame max buf) as [| |p rest] eqn:E; [done..|].
  apply parse_frame_shrinks in E.
  unfold split_frames. rewrite (split_frames_fuel_enough max (length buf) (S (length rest))) by lia.
  done.
Qed.

Lemma parse_frame_app max h p rest :
  zlen h = 4 → be32_value h = zlen p → zlen p ≤ max →
  parse_frame max (h ++ p ++ rest) = Frame p rest.
Proof.
  intros Hh Hv Hmax. unfold parse_frame.
  assert (length h = 4%nat) as Hl by (unfold zlen in Hh; lia).
  rewrite take_app_length', drop_app_length' by done. rewrite Hv.
  destruct (Z.ltb_spec (zlen (h ++ p ++ rest)) 4); [zlen_lia|].
  destruct (Z.ltb_spec max (zlen p)); [lia|].
  destruct (Z.ltb_spec (zlen (h ++ p ++ rest)) (4 + zlen p)); [zlen_lia|].
  unfold zlen. rewrite Nat2Z.id, take_app_length, drop_app_length. done.
Qed.

(** A partial frame stays incomplete as long as it is not filled. *)
Lemma parse_frame_partial max h data :
  zlen h = 4 → be32_value h ≤ max → zlen data < be32_value h →
  parse_frame max (h ++ data) = Incomplete.
Proof.
  intros Hh Hmax Hd. unfold parse_frame.
  assert (length h = 4%nat) as Hl by (unfold zlen in Hh; lia).
  rewrite take_app_length' by done.
  destruct (Z.ltb_spec (zlen (h ++ data)) 4); [done|].
  destruct (Z.ltb_spec max (be32_value h)); [lia|].
  destruct (Z.ltb_spec (zlen (h ++ data)) (4 + be32_value h)); [done|zlen_lia].
Qed.

Lemma parse_frame_too_large max h rest :
  zlen h = 4 → max < be32_value h → parse_frame max (h ++ rest) = TooLarge (be32_value h).
Proof.
  intros Hh Hmax. unfold parse_frame.
  assert (length h = 4%nat) as Hl by (unfold zlen in Hh; lia).
  rewrite take_app_length' by done.
  destruct (Z.ltb_spec (zlen (h ++ rest)) 4); [zlen_lia|].
  destruct (Z.ltb_spec max (be32_value h)); [done|lia].
Qed.

Lemma parse_frame_short max buf : zlen buf < 4 → parse_frame max buf = Incomplete.
Proof. intros. unfold parse_frame. by rewrite (proj2 (Z.ltb_lt _ _)). Qed.

(** ** [encodeFrame] *)

Lemma encodeFrame_Ok payload :
  zlen payload ≤ MAX_UINT32 →
  encodeFrame payload = Ok (be32_bytes (zlen payload) ++ payload).
Proof.
  intros Hp. unfold encodeFrame. destruct (Z.ltb_spec MAX_UINT32 (zlen payload)); [lia|].
  f_equal. change [to_uint8 (ushr (zlen payload) 24); to_uint8 (ushr (zlen payload) 16);
    to_uint8 (ushr (zlen payload) 8); to_uint8 (zlen payload)] with (be32_bytes (zlen payload)).
  set (h := be32_bytes (zlen payload)). unfold FRAME_HEADER_LENGTH.
  replace (Z.to_nat (4 + zlen payload)) with (4 + length payload)%nat by (unfold zlen; lia).
  assert (length h = 4%nat) as Hh by done. clearbody h. rewrite replicate_add.
  unfold array_set at 2. change (Z.to_nat 0) with 0%nat. rewrite take_0, Hh. cbn [app Nat.add].
  rewrite drop_app_length' by done. unfold array_set. change (Z.to_nat 4) with 4%nat.
  rewrite take_app_length' by lia. rewrite drop_ge; [by rewrite app_nil_r|].
  rewrite length_app, length_replicate. lia.
Qed.

(** ** The decoder's representation of a byte string *)

(** The payload bytes received so far. *)
Definition blocks_data (d : FrameDecoder) : bytes :=
  match currentPayloadBlock d with
  | None => []
  | Some i => concat (take i (payloadBlocks d))
              ++ take (Z.to_nat (currentPayloadBlockLength d)) (default [] (payloadBlocks d !! i))
  end.

(** The bytes received that belong to no completed frame. *)
Definition pending (d : FrameDecoder) : bytes :=
  match expectedPayloadLength d with
  | None => take (Z.to_nat (headerLength d)) (header d)
  | Some _ => header d ++ blocks_data d
  end.

(** The blocks are full ones followed by the current one, and never hold room
    for more than the payload. *)
Definition blocks_inv (d : FrameDecoder) (n : Z) : Prop :=
  match currentPayloadBlock d with
  | None => payloadBlocks d = [] ∧ currentPayloadBlockLength d = 0
  | Some i => ∃ fulls b, payloadBlocks d = fulls ++ [b] ∧ i = length fulls
      ∧ 0 ≤ currentPayloadBlockLength d ≤ zlen b ∧ zlen (concat fulls) + zlen b ≤ n
  end ∧ payloadLength d = zlen (blocks_data d).

Record decoder_inv (d : FrameDecoder) : Prop := {
  inv_open : state d = open;
  inv_header : zlen (header d) = 4;
  inv_header_bytes : bytes_ok (header d);
  inv_max : 0 ≤ maxFrameLength d ≤ MAX_UINT32;
  inv_progress :
    match expectedPayloadLength d with
    | None => 0 ≤ headerLength d < 4
    | Some n => headerLength d = 0 ∧ n = header_value d ∧ 0 < n ≤ maxFrameLength d
                ∧ blocks_inv d n ∧ payloadLength d < n
    end }.

(** What the inner loop leaves alone. *)
Definition same_frame (d d' : FrameDecoder) : Prop :=
  header d' = header d ∧ headerLength d' = headerLength d ∧ maxFrameLength d' = maxFrameLength d
  ∧ expectedPayloadLength d' = expectedPayloadLength d ∧ state d' = state d.

Lemma same_frame_trans d1 d2 d3 : same_frame d1 d2 → same_frame d2 d3 → same_frame d1 d3.
Proof. unfold same_frame. intuition congruence. Qed.

Lemma blocks_data_cur d fulls b i :
  payloadBlocks d = fulls ++ [b] → currentPayloadBlock d = Some i → i = length fulls →
  blocks_data d = concat fulls ++ take (Z.to_nat (currentPayloadBlockLength d)) b.
Proof.
  intros Hb Hc ->. unfold blocks_data. rewrite Hc, Hb.
  rewrite take_app_length, list_lookup_middle by done. done.
Qed.

Lemma ensure_block_spec d n :
  blocks_inv d n → payloadLength d < n →
  let d' := ensure_block d n in
  same_frame d d' ∧ blocks_inv d' n ∧ blocks_data d' = blocks_data d
  ∧ payloadLength d' = payloadLength d
  ∧ ∃ fulls b, payloadBlocks d' = fulls ++ [b] ∧ currentPayloadBlock d' = Some (length fulls)
      ∧ currentPayloadBlockLength d' < zlen b.
Proof.
  intros [Hcur Hlen] Hlt.
  (* the state with a fresh block *)
  set (m := Z.min PAYLOAD_BLOCK_SIZE (n - payloadLength d)).
  assert (0 < m ≤ n - payloadLength d) as Hm by (unfold m, PAYLOAD_BLOCK_SIZE; lia).
  assert (Hfresh : concat (payloadBlocks d) = blocks_data d →
    let d' := d <| payloadBlocks := payloadBlocks d ++ [replicate (Z.to_nat m) 0] |>
               <| currentPayloadBlock := Some (length (payloadBlocks d)) |>
               <| currentPayloadBlockLength := 0 |> in
    same_frame d d' ∧ blocks_inv d' n ∧ blocks_data d' = blocks_data d
    ∧ payloadLength d' = payloadLength d
    ∧ ∃ fulls b, payloadBlocks d' = fulls ++ [b] ∧ currentPayloadBlock d' = Some (length fulls)
        ∧ currentPayloadBlockLength d' < zlen b).
  { intros Hc d'. assert (blocks_data d' = blocks_data d) as Hd.
    { erewrite blocks_data_cur; [|done..]. cbn. by rewrite app_nil_r. }
    split; [done|]. split; [|split; [done|split; [done|]]].
    - split; [|by rewrite Hd].
      cbn. exists (payloadBlocks d), (replicate (Z.to_nat m) 0).
      rewrite Hc, zlen_replicate, <- Hlen. split_and!; [done|done|lia|lia|lia].
    - exists (payloadBlocks d), (replicate (Z.to_nat m) 0). rewrite zlen_replicate.
      split_and!; [done..|]. cbn. lia. }
  unfold ensure_block, current_block.
  destruct (currentPayloadBlock d) as [i|] eqn:Hi; cbn.
  - destruct Hcur as (fulls & b & Hb & -> & Hr & Hn).
    assert (payloadBlocks d !! length fulls = Some b) as Hl by (rewrite Hb; by apply list_lookup_middle).
    rewrite Hl. pose proof (blocks_data_cur d fulls b _ Hb Hi eq_refl) as Hd.
    destruct (Z.eqb_spec (currentPayloadBlockLength d) (zlen b)) as [E|E].
    + apply Hfresh. rewrite Hd, E, Hb, concat_app. cbn. rewrite app_nil_r. f_equal.
      rewrite take_ge; [done|]. unfold zlen. lia.
    + split; [done|]. split; [|split; [done|split; [done|]]].
      * split; [|done]. rewrite Hi. eauto 10.
      * exists fulls, b. split_and!; [done..|lia].
  - destruct Hcur as [Hb Hl0]. apply Hfresh. unfold blocks_data. by rewrite Hi, Hb.
Qed.

Lemma fill_block_spec d chunk off n d' off' :
  blocks_inv d n → payloadLength d < n → 0 ≤ off < zlen chunk →
  fill_block d chunk off n = (d', off') →
  same_frame d d' ∧ blocks_inv d' n ∧ off < off' ≤ zlen chunk
  ∧ blocks_data d' = blocks_data d ++ subarray chunk off off'
  ∧ payloadLength d' ≤ n.
Proof.
  intros Hinv Hlt Hoff. unfold fill_block.
  destruct (ensure_block_spec d n Hinv Hlt) as (Hsame & [Hcur Hlen] & Hdata & Hpl & fulls & b & Hb & Hc & Hcl).
  set (e := ensure_block d n) in *. clearbody e.
  rewrite Hc in Hcur |- *. destruct Hcur as (fulls' & b' & Hb' & Hi' & Hr & Hn).
  rewrite Hb in Hb'. apply app_inj_tail in Hb' as [<- <-]. clear Hi'.
  cbv zeta. rewrite Hb. cbn [default from_option id]. rewrite list_lookup_middle by done. cbn [default from_option id].
  set (m := Z.min (zlen b - currentPayloadBlockLength e) (zlen chunk - off)).
  assert (0 < m ∧ m ≤ zlen b - currentPayloadBlockLength e ∧ m ≤ zlen chunk - off) as (Hm1 & Hm2 & Hm3) by lia.
  clearbody m.
  set (src := subarray chunk off (off + m)).
  assert (zlen src = m) as Hsrc by (unfold src; rewrite subarray_length; lia).
  set (blk := array_set b src (currentPayloadBlockLength e)).
  assert (zlen blk = zlen b) as Hblk by (apply array_set_length; lia).
  replace (<[length fulls:=blk]> (fulls ++ [b])) with (fulls ++ [blk])
    by (rewrite insert_app_r_alt, Nat.sub_diag by lia; done).
  intros [= <- <-].
  set (d' := e <| payloadBlocks := _ |> <| currentPayloadBlockLength := _ |> <| payloadLength := _ |>).
  assert (blocks_data d' = blocks_data d ++ src) as Hd'.
  { rewrite <- Hdata. rewrite (blocks_data_cur e fulls b _ Hb Hc eq_refl).
    erewrite (blocks_data_cur d'); [|done|exact Hc|done]. cbn. rewrite <- app_assoc. f_equal.
    rewrite <- Hsrc. apply take_array_set; lia. }
  split; [|split; [|split; [lia|split; [done|]]]].
  - destruct Hsame as (?&?&?&?&?). by split_and!.
  - split; [|cbn; rewrite Hd', zlen_app, Hsrc, <- Hdata; lia].
    cbn. rewrite Hc. exists fulls, blk. split_and!; [done..|lia|lia|lia].
  - cbn. assert (payloadLength e ≤ zlen (concat fulls) + currentPayloadBlockLength e); [|lia].
    rewrite Hlen, (blocks_data_cur e fulls b _ Hb Hc eq_refl). zlen_lia.
Qed.

Lemma fill_payload_done fuel d chunk off n d' off' :
  blocks_inv d n → payloadLength d ≤ n → 0 ≤ off ≤ zlen chunk →
  zlen chunk - off ≤ Z.of_nat fuel →
  fill_payload fuel d chunk off n = (d', off') →
  same_frame d d' ∧ blocks_inv d' n ∧ off ≤ off' ≤ zlen chunk
  ∧ blocks_data d' = blocks_data d ++ subarray chunk off off'
  ∧ payloadLength d' ≤ n ∧ (off' = zlen chunk ∨ payloadLength d' = n)
  ∧ (off < zlen chunk → payloadLength d < n → off < off').
Proof.
  revert d off. induction fuel as [|fuel IH]; intros d off Hinv Hle Hoff Hfuel; cbn [fill_payload].
  - intros [= <- <-]. rewrite subarray_empty, app_nil_r.
    split_and!; [done..|lia|lia|done|lia|lia|lia].
  - destruct (Z.ltb_spec off (zlen chunk)) as [H1|H1]; cbn [andb].
    2:{ intros [= <- <-]. rewrite subarray_empty, app_nil_r.
        split_and!; [done..|lia|lia|done|lia|lia|lia]. }
    destruct (Z.ltb_spec (payloadLength d) n) as [H2|H2].
    2:{ intros [= <- <-]. rewrite subarray_empty, app_nil_r.
        split_and!; [done..|lia|lia|done|lia|lia|lia]. }
    destruct (fill_block d chunk off n) as [d1 off1] eqn:E.
    destruct (fill_block_spec d chunk off n d1 off1 Hinv H2 ltac:(lia) E) as (Hs & Hi & Ho & Hd & Hl).
    intros Hrec. destruct (IH d1 off1 Hi Hl ltac:(lia) ltac:(lia) Hrec)
      as (Hs' & Hi' & Ho' & Hd' & Hl' & He & _).
    split_and!; [by eapply same_frame_trans|done|lia|lia| |lia|done|lia].
    rewrite Hd', Hd, <- app_assoc, subarray_app by lia. done.
Qed.

(** Copying blocks one after the other into a long enough array. *)
Lemma join_blocks_foldl (blocks : list bytes) (p : bytes) k :
  zlen (concat blocks) ≤ Z.of_nat k →
  (foldl (λ '(payload, offset) block, (array_set payload block offset, offset + zlen block))
     (p ++ replicate k 0, zlen p) blocks).1
  = p ++ concat blocks ++ replicate (k - length (concat blocks)) 0.
Proof.
  revert p k. induction blocks as [|b blocks IH]; intros p k Hk; cbn.
  - by rewrite Nat.sub_0_r.
  - cbn in Hk. rewrite zlen_app in Hk.
    pose proof (zlen_nonneg b). pose proof (zlen_nonneg (concat blocks)).
    assert (array_set (p ++ replicate k 0) b (zlen p) = (p ++ b) ++ replicate (k - length b) 0) as ->.
    { unfold array_set. replace (Z.to_nat (zlen p)) with (length p) by (unfold zlen; lia).
      rewrite take_app_length, <- app_assoc. do 2 f_equal.
      rewrite drop_app_add, drop_replicate. done. }
    rewrite <- zlen_app, IH by (unfold zlen in *; lia).
    rewrite length_app, <- !app_assoc. do 4 f_equal. lia.
Qed.

Lemma join_blocks_spec d n :
  blocks_inv d n → payloadLength d = n → 0 < n → join_blocks (payloadBlocks d) n = blocks_data d.
Proof.
  intros [Hcur Hlen] Hn Hpos.
  destruct (currentPayloadBlock d) as [i|] eqn:Hi.
  2:{ unfold blocks_data in Hlen. rewrite Hi in Hlen. rewrite zlen_nil in Hlen. lia. }
  destruct Hcur as (fulls & b & Hb & Hii & Hr & Hle).
  assert (blocks_data d = concat (payloadBlocks d)) as Hd.
  { rewrite (blocks_data_cur d fulls b i Hb Hi Hii) in Hlen |- *. rewrite Hb, concat_app. cbn.
    rewrite app_nil_r. f_equal. apply take_ge. rewrite zlen_app, zlen_take in Hlen. unfold zlen in *. lia. }
  rewrite Hd in Hlen |- *.
  pose proof (join_blocks_foldl (payloadBlocks d) [] (Z.to_nat n) ltac:(lia)) as Hj.
  cbn [app] in Hj. change (zlen (@nil Z)) with 0 in Hj.
  replace (Z.to_nat n - length (concat (payloadBlocks d)))%nat with 0%nat in Hj by (unfold zlen in Hlen; lia).
  cbn [replicate] in Hj. rewrite app_nil_r in Hj.
  unfold join_blocks. destruct (payloadBlocks d) as [|b0 [|b1 bs]]; [done| |done].
  cbn. by rewrite app_nil_r.
Qed.

#[local] Arguments pending : simpl never.
#[local] Arguments split_frames : simpl never.
#[local] Arguments be32_value : simpl never.

Lemma header_value_be32 d : header_value d = be32_value (header d).
Proof. done. Qed.

(** Between two iterations the bytes kept never contain a whole frame. *)
Lemma pending_incomplete d : decoder_inv d → parse_frame (maxFrameLength d) (pending d) = Incomplete.
Proof.
  intros [_ Hh _ _ Hp]. unfold pending.
  destruct (expectedPayloadLength d) as [n|].
  - destruct Hp as (_ & -> & Hn & [_ Hl] & Hlt). rewrite header_value_be32 in *.
    apply parse_frame_partial; lia.
  - apply parse_frame_short. rewrite zlen_take. lia.
Qed.

Definition header_step_ok (d : FrameDecoder) (chunk : bytes) (off : Z) (s : header_step) : Prop :=
  match s with
  | HContinue d' off' =>
      decoder_inv d' ∧ maxFrameLength d' = maxFrameLength d
      ∧ off < off' ≤ zlen chunk ∧ pending d' = pending d ++ subarray chunk off off'
  | HEmptyFrame d' off' =>
      decoder_inv d' ∧ maxFrameLength d' = maxFrameLength d
      ∧ off < off' ≤ zlen chunk ∧ pending d' = []
      ∧ zlen (pending d ++ subarray chunk off off') = 4
      ∧ be32_value (pending d ++ subarray chunk off off') = 0
  | HPayload d' off' =>
      decoder_inv d' ∧ maxFrameLength d' = maxFrameLength d
      ∧ off < off' ≤ zlen chunk ∧ pending d' = pending d ++ subarray chunk off off'
      ∧ is_Some (expectedPayloadLength d')
  | HFail d' e =>
      state d' = failed ∧ ∃ off', off < off' ≤ zlen chunk
      ∧ zlen (pending d ++ subarray chunk off off') = 4
      ∧ maxFrameLength d < be32_value (pending d ++ subarray chunk off off')
      ∧ e = FrameError_too_large (be32_value (pending d ++ subarray chunk off off')) (maxFrameLength d)
  end.

Lemma read_header_spec d chunk off :
  decoder_inv d → expectedPayloadLength d = None → bytes_ok chunk → 0 ≤ off < zlen chunk →
  header_step_ok d chunk off (read_header d chunk off).
Proof.
  intros [Ho Hh Hhb Hm Hp] He Hc Hoff. rewrite He in Hp. unfold read_header, FRAME_HEADER_LENGTH.
  set (k := Z.min (4 - headerLength d) (zlen chunk - off)).
  assert (0 < k ∧ k ≤ 4 - headerLength d ∧ k ≤ zlen chunk - off) as (Hk1 & Hk2 & Hk3) by lia.
  assert (k = 4 - headerLength d ∨ off + k = zlen chunk) as Hk4 by lia. clearbody k.
  set (src := subarray chunk off (off + k)).
  assert (zlen src = k) as Hsrc by (unfold src; rewrite subarray_length; lia).
  set (h := array_set (header d) src (headerLength d)).
  assert (zlen h = 4) as Hh' by (unfold h; rewrite array_set_length; lia).
  assert (bytes_ok h) as Hhb' by (apply Forall_array_set; [done|by apply Forall_subarray]).
  assert (take (Z.to_nat (headerLength d + k)) h = pending d ++ src) as Hpend.
  { unfold pending. rewrite He, <- Hsrc. apply take_array_set; lia. }
  clearbody h. subst src. cbn.
  destruct (Z.ltb_spec (headerLength d + k) 4); cbn.
  { split_and!; [|done|lia|lia|].
    - split; cbn; [done..|]. rewrite He. lia.
    - unfold pending at 1. cbn. by rewrite He. }
  rewrite take_ge in Hpend by (unfold zlen in *; lia).
  unfold header_value. cbn. change (_ + byte_at h 3) with (be32_value h).
  pose proof (be32_value_range h Hhb') as Hrange.
  destruct (Z.ltb_spec (maxFrameLength d) (be32_value h)); cbn.
  { split; [done|]. exists (off + k). rewrite <- Hpend. split_and!; [lia..|done|done|done]. }
  destruct (Z.eqb_spec (be32_value h) 0) as [E|E]; cbn.
  - split_and!; [|done|lia|lia| | |].
    + split; cbn; [done..|]. rewrite He. lia.
    + unfold pending. cbn. by rewrite He.
    + by rewrite <- Hpend.
    + by rewrite <- Hpend.
  - split_and!; [|done|lia|lia| |by eexists].
    + split; cbn; [done..|]. split_and!; [done|done|lia|lia|by repeat split|lia].
    + unfold pending at 1. cbn. by rewrite app_nil_r, Hpend.
Qed.

(** One iteration on the payload: the frame is completed or the chunk is used up. *)
Lemma read_payload_spec d chunk off frames n :
  decoder_inv d → expectedPayloadLength d = Some n → 0 ≤ off ≤ zlen chunk →
  ∃ d' off' frames', read_payload d chunk off frames n = (d', off', frames')
  ∧ maxFrameLength d' = maxFrameLength d ∧ decoder_inv d'
  ∧ off ≤ off' ≤ zlen chunk ∧ (off < zlen chunk → off < off')
  ∧ ((off' = zlen chunk ∧ frames' = frames ∧ pending d' = pending d ++ subarray chunk off off')
     ∨ ∃ p, frames' = frames ++ [p] ∧ pending d' = []
         ∧ pending d ++ subarray chunk off off' = header d ++ p
         ∧ be32_value (header d) = zlen p ∧ zlen p ≤ maxFrameLength d).
Proof.
  intros [Ho Hh Hhb Hm Hp] He Hoff. rewrite He in Hp. destruct Hp as (Hhl & Hn & Hnm & Hb & Hlt).
  unfold read_payload.
  destruct (fill_payload (length chunk) d chunk off n) as [d1 off1] eqn:E.
  destruct (fill_payload_done (length chunk) d chunk off n d1 off1 Hb ltac:(lia) Hoff ltac:(unfold zlen in *; lia) E)
    as ((S1 & S2 & S3 & S4 & S5) & Hb1 & Ho1 & Hd1 & Hl1 & Hend & Hprog).
  assert (pending d ++ subarray chunk off off1 = header d ++ blocks_data d1) as Hpend.
  { unfold pending. by rewrite He, Hd1, app_assoc. }
  destruct (Z.eqb_spec (payloadLength d1) n) as [En|En].
  - eexists _, _, _. split; [done|]. cbn. split_and!; [done| |lia|lia|auto|].
    + split; cbn; [by rewrite S5|by rewrite S1|by rewrite S1|by rewrite S3|lia].
    + right. exists (join_blocks (payloadBlocks d1) n). rewrite (join_blocks_spec d1 n) by (done || lia).
      split_and!; [done| |done|..].
      * unfold pending. cbn. by rewrite S2, Hhl.
      * rewrite <- header_value_be32, <- Hn, <- En. apply Hb1.
      * destruct Hb1 as [_ <-]. lia.
  - destruct Hend as [->|?]; [|done].
    eexists _, _, _. split; [done|]. split_and!; [done| |lia|lia|auto|].
    + split; [by rewrite S5|by rewrite S1|by rewrite S1|by rewrite S3|].
      rewrite S4, He. unfold header_value in *. rewrite S1, S2, S3. split_and!; (done || lia).
    + left. split_and!; [done..|]. rewrite Hpend. unfold pending. by rewrite S4, He, S1.
Qed.

(** The outcome of [push] on the bytes received so far, as the contract has it. *)
Definition push_ok (d : FrameDecoder) (frames : list bytes) (buf : bytes)
    (r : FrameDecoder * result frame_error (list bytes)) : Prop :=
  match split_frames (maxFrameLength d) buf with
  | (ps, inl rest) =>
      r.2 = Ok (frames ++ ps) ∧ decoder_inv r.1 ∧ pending r.1 = rest
      ∧ maxFrameLength r.1 = maxFrameLength d
  | (_, inr n) => r.2 = Err (FrameError_too_large n (maxFrameLength d)) ∧ state r.1 = failed
  end.

Lemma push_ok_frame d d' frames p h rest r :
  zlen h = 4 → be32_value h = zlen p → zlen p ≤ maxFrameLength d →
  maxFrameLength d' = maxFrameLength d →
  push_ok d' (frames ++ [p]) rest r → push_ok d frames (h ++ p ++ rest) r.
Proof.
  unfold push_ok. intros Hh Hv Hp ->. rewrite (split_frames_eq _ (h ++ p ++ rest)).
  rewrite parse_frame_app by done.
  destruct (split_frames (maxFrameLength d) rest) as [ps [l|n]]; cbn; [|done].
  by rewrite <- app_assoc.
Qed.

Lemma push_loop_spec fuel d chunk off frames :
  decoder_inv d → bytes_ok chunk → 0 ≤ off ≤ zlen chunk →
  zlen chunk - off < Z.of_nat fuel →
  push_ok d frames (pending d ++ drop (Z.to_nat off) chunk) (push_loop fuel d chunk off frames).
Proof.
  revert d off frames. induction fuel as [|fuel IH]; intros d off frames Hinv Hc Hoff Hfuel; [lia|].
  cbn [push_loop]. destruct (Z.ltb_spec off (zlen chunk)) as [Hlt|Hge]; cbn [negb].
  2:{ rewrite drop_ge by (unfold zlen in *; lia). rewrite app_nil_r. unfold push_ok.
      rewrite split_frames_eq, pending_incomplete by done. cbn. by rewrite app_nil_r. }
  (* what follows the header, for a decoder with a payload under way *)
  assert (Hpay : ∀ d1 off1 n, decoder_inv d1 → expectedPayloadLength d1 = Some n →
    off ≤ off1 ≤ zlen chunk → (off < off1 ∨ off1 < zlen chunk) → maxFrameLength d1 = maxFrameLength d →
    pending d1 ++ drop (Z.to_nat off1) chunk = pending d ++ drop (Z.to_nat off) chunk →
    push_ok d frames (pending d ++ drop (Z.to_nat off) chunk)
      (let '(d, chunkOffset, frames) := read_payload d1 chunk off1 frames n in
       push_loop fuel d chunk chunkOffset frames)).
  { intros d1 off1 n Hinv1 He1 Ho1 Hprog Hm1 Hbuf.
    destruct (read_payload_spec d1 chunk off1 frames n Hinv1 He1 ltac:(lia))
      as (d2 & off2 & frames2 & -> & Hm2 & Hinv2 & Ho2 & Hprog2 & Hcase).
    rewrite <- Hbuf, (drop_subarray chunk off1 off2) by lia.
    destruct Hcase as [(-> & -> & Hpd)|(p & -> & Hpd & Heq & Hv & Hpm)].
    - rewrite app_assoc, <- Hpd.
      specialize (IH d2 (zlen chunk) frames Hinv2 Hc ltac:(lia) ltac:(lia)).
      unfold push_ok in *. by rewrite <- Hm1, <- Hm2.
    - rewrite app_assoc, Heq, <- app_assoc.
      eapply (push_ok_frame d d2); [apply Hinv1|done|congruence|congruence|].
      specialize (IH d2 off2 (frames ++ [p]) Hinv2 Hc ltac:(lia) ltac:(lia)). by rewrite Hpd in IH. }
  destruct (expectedPayloadLength d) as [n|] eqn:He.
  { apply Hpay; (done || lia). }
  pose proof (read_header_spec d chunk off Hinv He Hc ltac:(lia)) as Hs.
  destruct (read_header d chunk off) as [d1 off1|d1 off1|d1 off1|d1 e]; cbn [header_step_ok] in Hs.
  - destruct Hs as (Hinv1 & Hm1 & Ho1 & Hp1).
    rewrite (drop_subarray chunk off off1), app_assoc, <- Hp1 by lia.
    specialize (IH d1 off1 frames Hinv1 Hc ltac:(lia) ltac:(lia)).
    unfold push_ok in *. by rewrite <- Hm1.
  - destruct Hs as (Hinv1 & Hm1 & Ho1 & Hp1 & Hl & Hz).
    rewrite (drop_subarray chunk off off1), app_assoc by lia.
    apply (push_ok_frame d d1 frames []); [done|done|apply Hinv|done|].
    specialize (IH d1 off1 (frames ++ [[]]) Hinv1 Hc ltac:(lia) ltac:(lia)). by rewrite Hp1 in IH.
  - destruct Hs as (Hinv1 & Hm1 & Ho1 & Hp1 & [n He1]). rewrite He1.
    apply Hpay; [done|done|lia|lia|done|].
    rewrite Hp1, <- app_assoc, <- drop_subarray by lia. done.
  - destruct Hs as (Hst & off1 & Ho1 & Hl & Hgt & ->).
    rewrite (drop_subarray chunk off off1), app_assoc by lia. unfold push_ok.
    rewrite split_frames_eq, parse_frame_too_large by done. by split.
Qed.

Lemma push_refines d chunk :
  decoder_inv d → bytes_ok chunk → push_ok d [] (pending d ++ chunk) (push d chunk).
Proof.
  intros Hinv Hc. unfold push. rewrite (inv_open _ Hinv).
  pose proof (push_loop_spec (S (length chunk)) d chunk 0 [] Hinv Hc ltac:(zlen_lia)) as H.
  apply H. unfold zlen. lia.
Qed.

(** ** A decoder fed chunk by chunk *)

(** The calls of a client: [push] each chunk in turn, stopping at a [throw]. *)
Fixpoint push_all (d : FrameDecoder) (chunks : list bytes) (frames : list bytes)
    : FrameDecoder * result frame_error (list bytes) :=
  match chunks with
  | [] => (d, Ok frames)
  | chunk :: chunks =>
      match push d chunk with
      | (d, Ok ps) => push_all d chunks (frames ++ ps)
      | (d, Err e) => (d, Err e)
      end
  end.

(** A cut of a longer string extends the cut of a prefix. *)
Lemma split_frames_app max a b ps rest :
  0 ≤ max → bytes_ok a → split_frames max a = (ps, inl rest) →
  split_frames max (a ++ b) = let '(ps', r) := split_frames max (rest ++ b) in (ps ++ ps', r).
Proof.
  intros Hmax. revert ps. remember (length a) as k eqn:Hk. revert a Hk.
  induction (lt_wf k) as [k _ IH]. intros a -> ps Ha. rewrite split_frames_eq.
  destruct (parse_frame max a) as [|n|p a'] eqn:E; [| done |].
  { intros [= <- <-]. by destruct (split_frames max (a ++ b)). }
  destruct (split_frames max a') as [ps' r'] eqn:E'. intros [= <- ->].
  assert (∃ h, a = h ++ p ++ a' ∧ zlen h = 4 ∧ be32_value h = zlen p ∧ zlen p ≤ max) as (h & -> & Hh & Hv & Hp).
  { revert E. unfold parse_frame. destruct (Z.ltb_spec (zlen a) 4) as [|H4]; [done|].
    destruct (Z.ltb_spec max (be32_value (take 4 a))) as [|Hle]; [done|].
    destruct (Z.ltb_spec (zlen a) (4 + be32_value (take 4 a))) as [|Hlen]; [done|]. intros [= <- <-].
    pose proof (be32_value_range (take 4 a) ltac:(by apply Forall_take)) as Hr.
    exists (take 4 a). rewrite !take_drop. rewrite !zlen_take, zlen_drop. split_and!; [done|lia..]. }
  rewrite <- !app_assoc, split_frames_eq, parse_frame_app by done.
  rewrite (IH (length a')) with (ps := ps') by
    (rewrite ?length_app; unfold zlen in *; first [done | lia | by apply Forall_app in Ha as [_ [_ ?]%Forall_app]]).
  by destruct (split_frames max (rest ++ b)).
Qed.

Lemma split_frames_rest_bytes max a ps rest :
  bytes_ok a → split_frames max a = (ps, inl rest) → bytes_ok rest.
Proof.
  revert ps. remember (length a) as k eqn:Hk. revert a Hk.
  induction (lt_wf k) as [k _ IH]. intros a -> ps Ha. rewrite split_frames_eq.
  destruct (parse_frame max a) as [|n|p a'] eqn:E; [by intros [= <- <-]|done|].
  destruct (split_frames max a') as [ps' r'] eqn:E'. intros [= <- ->].
  pose proof (parse_frame_shrinks _ _ _ _ E). eapply (IH (length a')); [lia|done| |done].
  revert E. unfold parse_frame. repeat case_match; intros; simplify_eq. by do 2 apply Forall_drop.
Qed.

Lemma split_frames_payload_bytes max a ps r :
  bytes_ok a → split_frames max a = (ps, r) → Forall bytes_ok ps.
Proof.
  revert ps. remember (length a) as k eqn:Hk. revert a Hk.
  induction (lt_wf k) as [k _ IH]. intros a -> ps Ha. rewrite split_frames_eq.
  destruct (parse_frame max a) as [|n|p a'] eqn:E; [by intros [= <- <-]; constructor..|].
  destruct (split_frames max a') as [ps' r'] eqn:E'. intros [= <- ->].
  pose proof (parse_frame_shrinks _ _ _ _ E).
  assert (bytes_ok p ∧ bytes_ok a') as [Hp Ha'].
  { revert E. unfold parse_frame. repeat case_match; intros; simplify_eq.
    split; [by apply Forall_take, Forall_drop|by do 2 apply Forall_drop]. }
  constructor; [done|]. by apply (IH (length a') ltac:(lia) a' eq_refl).
Qed.

Lemma split_frames_too_large_app max a b n :
  0 ≤ max → bytes_ok a → (split_frames max a).2 = inr n → (split_frames max (a ++ b)).2 = inr n.
Proof.
  intros Hmax. remember (length a) as k eqn:Hk. revert a Hk.
  induction (lt_wf k) as [k _ IH]. intros a -> Ha. rewrite !split_frames_eq.
  destruct (parse_frame max a) as [|m|p a'] eqn:E; [done| |].
  - cbn. intros [= ->]. revert E. unfold parse_frame.
    destruct (Z.ltb_spec (zlen a) 4) as [|H4]; [done|].
    destruct (Z.ltb_spec max (be32_value (take 4 a))) as [Hgt|]; [|by case_match].
    intros [= Hm]. destruct (Z.ltb_spec (zlen (a ++ b)) 4); [zlen_lia|].
    rewrite take_app_le by (unfold zlen in H4; lia).
    rewrite (proj2 (Z.ltb_lt _ _)) by done. cbn. by rewrite Hm.
  - assert (parse_frame max (a ++ b) = Frame p (a' ++ b) ∧ bytes_ok a' ∧ (length a' < length a)%nat) as (-> & Ha' & Hl).
    { pose proof (parse_frame_shrinks _ _ _ _ E). revert E. unfold parse_frame.
      destruct (Z.ltb_spec (zlen a) 4) as [|H4]; [done|].
      destruct (Z.ltb_spec max (be32_value (take 4 a))) as [|Hle]; [done|].
      destruct (Z.ltb_spec (zlen a) (4 + be32_value (take 4 a))) as [|Hlen]; [done|].
      intros [= <- <-].
      pose proof (be32_value_range (take 4 a) ltac:(by apply Forall_take)) as Hr.
      destruct (Z.ltb_spec (zlen (a ++ b)) 4); [zlen_lia|].
      rewrite take_app_le by (unfold zlen in *; lia).
      destruct (Z.ltb_spec max (be32_value (take 4 a))); [lia|].
      destruct (Z.ltb_spec (zlen (a ++ b)) (4 + be32_value (take 4 a))); [zlen_lia|].
      rewrite !drop_app_le, take_app_le by (rewrite ?length_drop; unfold zlen in *; lia).
      split_and!; [done|by do 2 apply Forall_drop|lia]. }
    specialize (IH (length a') Hl a' eq_refl Ha').
    destruct (split_frames max a') as [ps r], (split_frames max (a' ++ b)) as [ps' r']. cbn in *. auto.
Qed.

Lemma pending_bytes d : decoder_inv d → blocks_data d = [] → bytes_ok (pending d).
Proof.
  intros [_ _ Hb _ _] Hd. unfold pending. case_match; [rewrite Hd, app_nil_r; done|by apply Forall_take].
Qed.

(** The whole conversation, from any state of the decoder. *)
Lemma push_all_refines d chunks frames :
  decoder_inv d → bytes_ok (pending d) → Forall bytes_ok chunks →
  match split_frames (maxFrameLength d) (pending d ++ concat chunks) with
  | (ps, inl rest) => ∃ d', push_all d chunks frames = (d', Ok (frames ++ ps))
      ∧ decoder_inv d' ∧ pending d' = rest ∧ maxFrameLength d' = maxFrameLength d
  | (_, inr n) => ∃ d', push_all d chunks frames
      = (d', Err (FrameError_too_large n (maxFrameLength d))) ∧ state d' = failed
  end.
Proof.
  revert d frames. induction chunks as [|c cs IH]; intros d frames Hinv Hpb Hcs; cbn [push_all concat].
  { rewrite app_nil_r, split_frames_eq, pending_incomplete by done. exists d. by rewrite app_nil_r. }
  apply Forall_cons in Hcs as [Hc Hcs]. rewrite app_assoc.
  pose proof (inv_max _ Hinv) as Hmax.
  assert (bytes_ok (pending d ++ c)) as Hpc by (by apply Forall_app).
  pose proof (push_refines d c Hinv Hc) as Hpush. unfold push_ok in Hpush.
  destruct (push d c) as [d1 r1]. cbn in Hpush.
  destruct (split_frames (maxFrameLength d) (pending d ++ c)) as [ps [rest|n]] eqn:E.
  - destruct Hpush as (-> & Hinv1 & Hp1 & Hm1).
    rewrite (split_frames_app _ _ (concat cs) ps rest) by (done || lia).
    pose proof (split_frames_rest_bytes _ _ _ _ Hpc E).
    specialize (IH d1 (frames ++ ps) Hinv1 ltac:(by rewrite Hp1) Hcs). rewrite Hm1, Hp1 in IH.
    destruct (split_frames (maxFrameLength d) (rest ++ concat cs)) as [ps' [r|m]]; [|done].
    destruct IH as (d' & -> & ? & ? & ?). exists d'. by rewrite app_assoc.
  - destruct Hpush as (-> & Hst).
    assert ((split_frames (maxFrameLength d) ((pending d ++ c) ++ concat cs)).2 = inr n) as Hn.
    { apply split_frames_too_large_app; [lia|done|by rewrite E]. }
    destruct (split_frames (maxFrameLength d) ((pending d ++ c) ++ concat cs)) as [ps' r']. cbn in Hn. subst. by exists d1.
Qed.

Lemma new_FrameDecoder_inv options d :
  new_FrameDecoder options = Ok d →
  decoder_inv d ∧ pending d = [] ∧ resolveMaxFrameLength options = Ok (maxFrameLength d).
Proof.
  unfold new_FrameDecoder. intros H. apply bind_Ok in H as (m & Hm & [= <-]).
  split_and!; [|done|done]. split; cbn; [done|done| | |lia].
  - repeat constructor; unfold is_byte; lia.
  - revert Hm. unfold resolveMaxFrameLength. destruct (int_value _) as [v|]; [|done].
    destruct (is_safe v); cbn; [|done]. destruct (Z.ltb_spec v 0); cbn; [done|].
    destruct (Z.ltb_spec MAX_UINT32 v); [done|]. intros [= <-]. lia.
Qed.

(** Cutting a string of whole frames gives the payloads back. *)
Lemma split_frames_encoded max payloads frames :
  0 ≤ max → Forall2 (λ p f, encodeFrame p = Ok f) payloads frames →
  Forall (λ p, zlen p ≤ max) payloads →
  split_frames max (concat frames) = (payloads, inl []).
Proof.
  intros Hmax Hf. induction Hf as [|p f ps fs Hpf Hf IH]; intros Hall.
  - done.
  - apply Forall_cons in Hall as [Hp Hall]. cbn [concat].
    assert (zlen p ≤ MAX_UINT32) as Hle.
    { revert Hpf. unfold encodeFrame. destruct (Z.ltb_spec MAX_UINT32 (zlen p)); [done|lia]. }
    rewrite encodeFrame_Ok in Hpf by done.
    assert (f = be32_bytes (zlen p) ++ p) as -> by congruence.
    assert (be32_value (be32_bytes (zlen p)) = zlen p) as Hv.
    { apply be32_value_bytes. pose proof (zlen_nonneg p). lia. }
    rewrite <- app_assoc, split_frames_eq, parse_frame_app, IH by done. done.
Qed.

(** [end] accepts a stream cut after a whole frame. *)
Lemma end_accepts d : decoder_inv d → pending d = [] → end_ d = (d <| state := ended |>, Ok ()).
Proof.
  intros [Ho Hh _ _ Hpr] Hpend. unfold end_. rewrite Ho. unfold pending in Hpend.
  destruct (expectedPayloadLength d) as [n|].
  - apply app_nil in Hpend as [Hn _]. by rewrite Hn in Hh.
  - assert (zlen (take (Z.to_nat (headerLength d)) (header d)) = 0) as Hz by (by rewrite Hpend).
    rewrite zlen_take in Hz. by replace (headerLength d =? 0) with true by lia.
Qed.

(** ** Properties *)

(** C1: whatever way a byte stream is cut into chunks, a new decoder fed those
    chunks returns exactly the frames that the one-shot cut of the whole stream
    has, keeps exactly the bytes of the incomplete last frame, and throws
    exactly when the stream announces a payload above the limit. *)
Theorem push_all_split_frames options d chunks :
  new_FrameDecoder options = Ok d → Forall bytes_ok chunks →
  match split_frames (maxFrameLength d) (concat chunks) with
  | (ps, inl rest) => ∃ d', push_all d chunks [] = (d', Ok ps) ∧ pending d' = rest ∧ state d' = open
  | (_, inr n) => ∃ d', push_all d chunks []
      = (d', Err (FrameError_too_large n (maxFrameLength d))) ∧ state d' = failed
  end.
Proof.
  intros (Hinv & Hp & _)%new_FrameDecoder_inv Hc.
  pose proof (push_all_refines d chunks [] Hinv ltac:(rewrite Hp; constructor) Hc) as H.
  rewrite Hp in H. cbn [app] in H.
  destruct (split_frames (maxFrameLength d) (concat chunks)) as [ps [rest|n]]; [|done].
  destruct H as (d' & ? & [] & ? & _). eauto.
Qed.

Definition demo_decoder : FrameDecoder := MkFrameDecoder [0; 0; 0; 0] 0 16777216 [] None 0 None 0 open.

Lemma push_all_split_frames_witness :
  ∃ d', push_all demo_decoder [[0; 0; 0]; [2; 7]; [8; 0; 0; 0; 0; 0]] [] = (d', Ok [[7; 8]; []])
        ∧ pending d' = [0] ∧ state d' = open.
Proof.
  apply (push_all_split_frames None demo_decoder [[0; 0; 0]; [2; 7]; [8; 0; 0; 0; 0; 0]]).
  - vm_compute. reflexivity.
  - repeat constructor; intros ?; discriminate.
Defined.

(** C2: payloads framed by [encodeFrame] and sent back to back come out of a
    decoder of sufficient limit unchanged and in order, however the stream is
    cut into chunks, and [end] then accepts the stream. *)
Theorem frame_roundtrip options d payloads frames chunks :
  new_FrameDecoder options = Ok d →
  Forall2 (λ p f, encodeFrame p = Ok f) payloads frames →
  Forall (λ p, zlen p ≤ maxFrameLength d) payloads →
  concat chunks = concat frames → Forall bytes_ok chunks →
  ∃ d', push_all d chunks [] = (d', Ok payloads) ∧ (end_ d').2 = Ok ().
Proof.
  intros (Hinv & Hp & _)%new_FrameDecoder_inv Hf Hmax Hcat Hc.
  pose proof (push_all_refines d chunks [] Hinv ltac:(rewrite Hp; constructor) Hc) as H.
  rewrite Hp, Hcat in H. cbn [app] in H.
  rewrite (split_frames_encoded _ payloads) in H by (done || apply Hinv).
  destruct H as (d' & Heq & Hinv' & Hpend & _). exists d'. split; [done|]. by rewrite end_accepts.
Qed.

Lemma frame_roundtrip_witness :
  ∃ d', push_all demo_decoder [[0; 0; 0; 2; 7]; [8; 0; 0; 0]; [0]] [] = (d', Ok [[7; 8]; []])
        ∧ (end_ d').2 = Ok ().
Proof.
  apply (frame_roundtrip None demo_decoder [[7; 8]; []] [[0; 0; 0; 2; 7; 8]; [0; 0; 0; 0]]).
  - vm_compute. reflexivity.
  - repeat constructor.
  - repeat constructor; intros ?; discriminate.
  - reflexivity.
  - repeat constructor; intros ?; discriminate.
Defined.

(** [end] accepts a stream exactly when no byte of an incomplete frame is
    pending; whichever way it answers, and after any [throw], every later
    [push] and [end] throws and returns no frame. *)
Theorem end_then_closed options d0 chunks d ps :
  new_FrameDecoder options = Ok d0 → Forall bytes_ok chunks →
  push_all d0 chunks [] = (d, Ok ps) →
  ((end_ d).2 = Ok () ↔ pending d = [])
  ∧ (pending d ≠ [] → (end_ d).2 = Err FrameError_truncated)
  ∧ ∀ chunk, let d' := (end_ d).1 in
      (∃ e, push d' chunk = (d', Err e)) ∧ (∃ e, end_ d' = (d', Err e)).
Proof.
  intros (Hinv0 & Hp0 & _)%new_FrameDecoder_inv Hc Hpush.
  pose proof (push_all_refines d0 chunks [] Hinv0 ltac:(rewrite Hp0; constructor) Hc) as H.
  assert (decoder_inv d) as Hinv.
  { rewrite Hpush in H. destruct (split_frames _ _) as [? [|]]; naive_solver. }
  clear H. destruct Hinv as [Ho Hh _ _ Hpr]. unfold end_. rewrite Ho.
  assert (pending d = [] ↔ headerLength d = 0 ∧ expectedPayloadLength d = None) as Hpd.
  { unfold pending. destruct (expectedPayloadLength d) as [n|].
    - split; [|by intros [_ ?]]. intros [Hn _]%app_nil. by rewrite Hn in Hh.
    - split; [|by intros [-> _]]. intros Hn. split; [|done].
      assert (zlen (take (Z.to_nat (headerLength d)) (header d)) = 0) as Hz by (by rewrite Hn).
      rewrite zlen_take in Hz. lia. }
  rewrite Hpd. destruct (Z.eqb_spec (headerLength d) 0) as [E|E]; cbn.
  - destruct (expectedPayloadLength d); cbn; naive_solver.
  - naive_solver.
Qed.

Lemma end_then_closed_witness :
  let d := (push_all demo_decoder [[0; 0; 0; 2; 7]] []).1 in
  pending d ≠ [] ∧ (end_ d).2 = Err FrameError_truncated.
Proof.
  pose proof (end_then_closed None demo_decoder [[0; 0; 0; 2; 7]]
    (push_all demo_decoder [[0; 0; 0; 2; 7]] []).1 []) as H.
  assert (pending (push_all demo_decoder [[0; 0; 0; 2; 7]] []).1 ≠ []) as Hp by discriminate.
  split; [exact Hp|]. apply H; [vm_compute; reflexivity| |vm_compute; reflexivity|exact Hp].
  repeat constructor; intros ?; discriminate.
Defined.

(** [assertCompleteFrame] accepts a byte string exactly when it is what
    [encodeFrame] makes of some payload within the limit. *)
Theorem assertCompleteFrame_iff frame options max :
  bytes_ok frame → resolveMaxFrameLength options = Ok max →
  assertCompleteFrame frame options = Ok () ↔
  ∃ payload, encodeFrame payload = Ok frame ∧ zlen payload ≤ max.
Proof.
  intros Hb Hmax.
  assert (0 ≤ max ≤ MAX_UINT32) as Hm.
  { destruct (new_FrameDecoder options) as [d|e] eqn:E.
    - pose proof (new_FrameDecoder_inv _ _ E) as ([_ _ _ ? _] & _ & Hr). congruence.
    - unfold new_FrameDecoder in E. by rewrite Hmax in E. }
  unfold assertCompleteFrame, FRAME_HEADER_LENGTH. rewrite Hmax.
  change (byte_at frame 0 * 16777216 + byte_at frame 1 * 65536 + byte_at frame 2 * 256 + byte_at frame 3)
    with (be32_value frame). cbn.
  split.
  - destruct (Z.ltb_spec (zlen frame) 4) as [|H4]; [done|]. cbn.
    destruct (Z.ltb_spec max (be32_value frame)) as [|Hle]; [done|].
    destruct (Z.eqb_spec (zlen frame) (4 + be32_value frame)) as [E|]; [|done]. intros _.
    destruct frame as [|a [|b [|c [|e payload]]]]; try (rewrite ?zlen_cons, ?zlen_nil in H4; lia).
    assert (be32_value (a :: b :: c :: e :: payload) = zlen payload) as Hv.
    { rewrite !zlen_cons in E. lia. }
    exists payload. rewrite encodeFrame_Ok by lia. rewrite <- Hv. split; [|lia].
    change (be32_value (a :: b :: c :: e :: payload)) with (be32_value [a; b; c; e]).
    unfold bytes_ok in Hb. rewrite !Forall_cons in Hb. destruct Hb as (? & ? & ? & ? & _).
    by rewrite be32_bytes_value.
  - intros (payload & He & Hp). rewrite encodeFrame_Ok in He by lia.
    assert (frame = be32_bytes (zlen payload) ++ payload) as -> by congruence.
    pose proof (zlen_nonneg payload).
    assert (be32_value (be32_bytes (zlen payload) ++ payload) = zlen payload) as ->.
    { change (be32_value (be32_bytes (zlen payload) ++ payload)) with (be32_value (be32_bytes (zlen payload))).
      apply be32_value_bytes. lia. }
    rewrite zlen_app. change (zlen (be32_bytes (zlen payload))) with 4.
    destruct (Z.ltb_spec (4 + zlen payload) 4); [lia|].
    destruct (Z.ltb_spec max (zlen payload)); [lia|]. by rewrite Z.eqb_refl.
Qed.

Lemma assertCompleteFrame_iff_witness :
  assertCompleteFrame [0; 0; 0; 1; 9] None = Ok ().
Proof.
  apply (assertCompleteFrame_iff [0; 0; 0; 1; 9] None 16777216).
  - repeat constructor; intros ?; discriminate.
  - vm_compute. reflexivity.
  - exists [9]. split; [vm_compute; reflexivity|intros ?; discriminate].
Defined.
