(* ===== verification/CborValue.v ===== *)
(** * CBOR: options, JavaScript values and the reference encoding

    [packages/protocol/src/cbor/options.ts], the JavaScript values the encoder
    walks (references into a heap, so that sharing and cycles exist), the trees
    the decoder builds, and the byte string each tree stands for. *)

From S2P Require Import Prelude JsNumber JsString.

Definition MAX_CONFIGURED_DEPTH : Z := 512.
Definition DEFAULT_MAX_CBOR_BYTE_LENGTH : Z := 16 * 1024 * 1024.
Definition DEFAULT_MAX_CBOR_CONTAINER_LENGTH : Z := 1000000.
Definition DEFAULT_MAX_CBOR_DEPTH : Z := 64.

(** Every [throw] of the encoder and the decoder. *)
Inductive cbor_error :=
| RangeError_option
| CborError_byte_length
| CborError_depth
| CborError_not_finite
| CborError_unsafe_integer
| CborError_text_length
| CborError_unicode
| CborError_bytes_length
| CborError_cycle
| CborError_array_length
| CborError_hole
| CborError_symbol_key
| CborError_map_length
| CborError_unsupported
| CborError_trailing
| CborError_truncated
| CborError_utf8
| CborError_map_key
| CborError_duplicate_key
| CborError_tag
| CborError_break
| CborError_simple
| CborError_major
| CborError_indefinite
| CborError_additional
| CborError_length
| OutOfFuel.

#[export] Instance cbor_error_eq_dec : EqDecision cbor_error.
Proof. solve_decision. Defined.

Record CborOptions := MkCborOptions {
  opt_maxByteLength : option jsnum;
  opt_maxContainerLength : option jsnum;
  opt_maxDepth : option jsnum;
}.

Record ResolvedCborOptions := MkResolved {
  maxByteLength : Z;
  maxContainerLength : Z;
  maxDepth : Z;
}.

Definition resolveLimit (value : jsnum) (maximum : Z) : result cbor_error Z :=
  match int_value value with
  | Some v => if negb (is_safe v) || (v <? 0) || (maximum <? v) then Err RangeError_option else Ok v
  | None => Err RangeError_option
  end.

Definition resolveOptions (options : option CborOptions) : result cbor_error ResolvedCborOptions :=
  b ← resolveLimit (default (of_Z DEFAULT_MAX_CBOR_BYTE_LENGTH) (options ≫= opt_maxByteLength)) MAX_UINT32;
  c ← resolveLimit (default (of_Z DEFAULT_MAX_CBOR_CONTAINER_LENGTH) (options ≫= opt_maxContainerLength)) MAX_UINT32;
  d ← resolveLimit (default (of_Z DEFAULT_MAX_CBOR_DEPTH) (options ≫= opt_maxDepth)) MAX_CONFIGURED_DEPTH;
  Ok (MkResolved b c d).

(** ** JavaScript values *)

(** A value is a primitive or a reference to a heap object. [JOther] stands for
    the primitives of another [typeof] (functions, symbols, bigints). *)
Inductive jsval :=
| JUndefined
| JNull
| JBool (b : bool)
| JNum (x : jsnum)
| JStr (s : jsstring)
| JOther
| JRef (a : nat).

#[export] Instance jsval_eq_dec : EqDecision jsval.
Proof. solve_decision. Defined.

(** The properties the code can tell apart: a [Uint8Array]; an array, with its
    holes; an object whose prototype is [Object.prototype] or [null], with its
    own enumerable string-keyed properties in [Object.keys] order and whether it
    has an enumerable symbol key; any other object. *)
Inductive jsobj :=
| OBytes (bs : list Z)
| OArray (elems : list (option jsval))
| OPlain (null_prototype : bool) (props : list (jsstring * jsval)) (symbol_key : bool)
| OOther.

Abbreviation heap := (gmap nat jsobj) (only parsing).

(** The object a reference denotes (a reference never dangles in JavaScript). *)
Definition obj_at (h : heap) (a : nat) : jsobj := default OOther (h !! a).

(** [if (entryValue !== undefined) entries.push([key, entryValue])]. *)
Definition defined_entries (props : list (jsstring * jsval)) : list (jsstring * jsval) :=
  filter (λ kv, kv.2 ≠ JUndefined) props.

(** ** The trees the decoder builds *)

Inductive cval :=
| CNull
| CBool (b : bool)
| CNum (x : jsnum)
| CStr (s : jsstring)
| CBytes (bs : list Z)
| CArray (items : list cval)
| CMap (entries : list (jsstring * cval)).

(** Structural induction through the nested lists. *)
Section cval_ind.
Context (P : cval → Prop).
Context (Hnull : P CNull) (Hbool : ∀ b, P (CBool b)) (Hnum : ∀ x, P (CNum x))
  (Hstr : ∀ s, P (CStr s)) (Hbytes : ∀ bs, P (CBytes bs))
  (Harray : ∀ items, Forall P items → P (CArray items))
  (Hmap : ∀ entries, Forall (λ kv, P kv.2) entries → P (CMap entries)).

Fixpoint cval_ind' (c : cval) : P c :=
  match c with
  | CNull => Hnull
  | CBool b => Hbool b
  | CNum x => Hnum x
  | CStr s => Hstr s
  | CBytes bs => Hbytes bs
  | CArray items =>
      Harray items ((fix go l : Forall P l :=
        match l with [] => Forall_nil_2 P | c :: l => Forall_cons_2 P c l (cval_ind' c) (go l) end) items)
  | CMap entries =>
      Hmap entries ((fix go l : Forall (λ kv, P kv.2) l :=
        match l with
        | [] => Forall_nil_2 (λ kv, P kv.2)
        | kv :: l => Forall_cons_2 (λ kv, P kv.2) kv l (cval_ind' kv.2) (go l)
        end) entries)
  end.
End cval_ind.

(** ** The reference encoding *)

(** The initial byte and argument of an item, in the shortest form. *)
Definition enc_arg (major n : Z) : list Z :=
  let prefix := major * 32 in
  if n <? 24 then [prefix + n]
  else if n <=? 255 then [prefix + 24; n]
  else if n <=? 65535 then [prefix + 25; n / 256; n mod 256]
  else if n <=? MAX_UINT32 then (prefix + 26) :: be32_bytes n
  else (prefix + 27) :: be32_bytes (n / UINT32_BASE) ++ be32_bytes (n mod UINT32_BASE).

Definition enc_num (x : jsnum) : list Z :=
  match int_value x with
  | Some z =>
      if is_neg_zero x then 251 :: float64_bytes x
      else if 0 <=? z then enc_arg 0 z else enc_arg 1 (-1 - z)
  | None => 251 :: float64_bytes x
  end.

Definition enc_text (s : jsstring) : list Z :=
  enc_arg 3 (zlen (text_encode s)) ++ text_encode s.

Fixpoint enc (c : cval) : list Z :=
  match c with
  | CNull => [246]
  | CBool b => [if b then 245 else 244]
  | CNum x => enc_num x
  | CStr s => enc_text s
  | CBytes bs => enc_arg 2 (zlen bs) ++ bs
  | CArray items => enc_arg 4 (zlen items) ++ concat (enc <$> items)
  | CMap entries => enc_arg 5 (zlen entries) ++ concat ((λ kv, enc_text kv.1 ++ enc kv.2) <$> entries)
  end.

Definition enc_entry (kv : jsstring * cval) : list Z := enc_text kv.1 ++ enc kv.2.

Lemma enc_map entries :
  enc (CMap entries) = enc_arg 5 (zlen entries) ++ concat (enc_entry <$> entries).
Proof. done. Qed.
Lemma enc_array items : enc (CArray items) = enc_arg 4 (zlen items) ++ concat (enc <$> items).
Proof. done. Qed.

(** ** The trees within the limits *)

(** A number the protocol can carry. *)
Definition num_valid (x : jsnum) : bool :=
  isFinite x && match int_value x with Some z => is_safe z | None => true end.

Definition text_valid (s : jsstring) : Prop := string_ok s ∧ well_formed s = true.

Section Valid.
Context (o : ResolvedCborOptions).

(** [c] is representable and within the limits when found at depth [d]. *)
Fixpoint cval_ok (d : Z) (c : cval) : Prop :=
  d ≤ maxDepth o ∧
  match c with
  | CNull | CBool _ => True
  | CNum x => num_ok x ∧ num_valid x = true
  | CStr s => text_valid s ∧ zlen (text_encode s) ≤ maxByteLength o
  | CBytes bs => bytes_ok bs ∧ zlen bs ≤ maxByteLength o
  | CArray items =>
      zlen items ≤ maxContainerLength o ∧
      (fix go l := match l with [] => True | c :: l => cval_ok (d + 1) c ∧ go l end) items
  | CMap entries =>
      zlen entries ≤ maxContainerLength o ∧ NoDup entries.*1 ∧
      (fix go l := match l with
        | [] => True
        | kv :: l => (text_valid kv.1 ∧ zlen (text_encode kv.1) ≤ maxByteLength o)
                     ∧ cval_ok (d + 1) kv.2 ∧ go l
        end) entries
  end.

Definition key_ok (k : jsstring) : Prop := text_valid k ∧ zlen (text_encode k) ≤ maxByteLength o.

Lemma cval_ok_array d items :
  cval_ok d (CArray items) ↔
  d ≤ maxDepth o ∧ zlen items ≤ maxContainerLength o ∧ Forall (cval_ok (d + 1)) items.
Proof.
  cbn. do 2 apply and_iff_compat_l. induction items as [|c l IH]; [done|].
  by rewrite Forall_cons, IH.
Qed.

Lemma cval_ok_map d entries :
  cval_ok d (CMap entries) ↔
  d ≤ maxDepth o ∧ zlen entries ≤ maxContainerLength o ∧ NoDup entries.*1
  ∧ Forall (λ kv, key_ok kv.1 ∧ cval_ok (d + 1) kv.2) entries.
Proof.
  cbn. do 3 apply and_iff_compat_l. induction entries as [|kv l IH]; [done|].
  rewrite Forall_cons, IH. unfold key_ok. tauto.
Qed.

Lemma cval_ok_depth d c : cval_ok d c → d ≤ maxDepth o.
Proof. by destruct c; intros [? _]. Qed.
End Valid.

(** The limits [resolveOptions] lets through. *)
Definition options_ok (o : ResolvedCborOptions) : Prop :=
  0 ≤ maxByteLength o ≤ MAX_UINT32 ∧ 0 ≤ maxContainerLength o ≤ MAX_UINT32
  ∧ 0 ≤ maxDepth o ≤ MAX_CONFIGURED_DEPTH.

Lemma resolveLimit_range value maximum v :
  resolveLimit value maximum = Ok v → 0 ≤ v ≤ maximum.
Proof.
  unfold resolveLimit. destruct (int_value value) as [z|]; [|done].
  destruct (is_safe z); cbn; [|done]. destruct (Z.ltb_spec z 0); cbn; [done|].
  destruct (Z.ltb_spec maximum z); [done|]. intros [= <-]. lia.
Qed.

Lemma resolveOptions_ok options o : resolveOptions options = Ok o → options_ok o.
Proof.
  unfold resolveOptions. intros H. inv_ok.
  repeat match goal with H : resolveLimit _ _ = Ok _ |- _ => apply resolveLimit_range in H end.
  unfold options_ok. cbn. lia.
Qed.

Lemma enc_arg_bytes major n :
  0 ≤ major < 8 → 0 ≤ n ≤ MAX_SAFE_INTEGER → bytes_ok (enc_arg major n).
Proof.
  unfold enc_arg, MAX_UINT32, MAX_SAFE_INTEGER, bytes_ok. intros Hm Hn.
  destruct (Z.ltb_spec n 24); [repeat constructor; unfold is_byte; lia|].
  destruct (Z.leb_spec n 255); [repeat constructor; unfold is_byte; lia|].
  destruct (Z.leb_spec n 65535).
  { repeat constructor; unfold is_byte; Z.to_euclidean_division_equations; lia. }
  destruct (Z.leb_spec n 4294967295); (apply Forall_cons; split; [unfold is_byte; lia|]).
  - apply be32_bytes_ok.
  - apply Forall_app; split; apply be32_bytes_ok.
Qed.

Lemma enc_arg_pos major n : 1 ≤ zlen (enc_arg major n).
Proof. unfold enc_arg. repeat case_match; zlen_lia. Qed.

Lemma enc_pos c : 1 ≤ zlen (enc c).
Proof.
  destruct c; cbn; rewrite ?zlen_app; try (unfold enc_num; repeat case_match);
    rewrite ?zlen_cons, ?zlen_nil;
    try match goal with |- context [enc_arg ?m ?n] => pose proof (enc_arg_pos m n) end; try zlen_lia.
  unfold enc_text. pose proof (enc_arg_pos 3 (zlen (text_encode s))). zlen_lia.
Qed.
