(* ===== verification/CborEncoder.v ===== *)
(** * CBOR encoder ([packages/protocol/src/cbor/encoder.ts])

    The growing buffer [CborWriter] and [encodeValue] over the heap.  The
    abstract value of a writer is the list of bytes written ([content]); every
    operation appends to it or throws, and [encodeValue] appends the reference
    encoding of the tree its argument denotes. *)

From S2P Require Import Prelude JsNumber JsString CborValue.

(** ** [CborWriter] *)

Record CborWriter := MkCborWriter {
  buffer : list Z;
  offset : Z;
  writer_maxByteLength : Z;
}.

#[export] Instance CborWriter_eta : Eta CborWriter := λ w,
  MkCborWriter (buffer w) (offset w) (writer_maxByteLength w).

Definition new_CborWriter (max : Z) : CborWriter :=
  MkCborWriter (replicate (Z.to_nat (Z.min 256 max)) 0) 0 max.

(** [while (capacity < required) capacity = ...]: the first iteration already
    reaches [required], so a fuel of one is enough ([grow_capacity_enough]). *)
Fixpoint grow_capacity (fuel : nat) (max required capacity : Z) : Z :=
  match fuel with
  | O => capacity
  | S fuel =>
      if capacity <? required
      then grow_capacity fuel max required (Z.min max (Z.max required (capacity * 2)))
      else capacity
  end.

Definition ensureCapacity (w : CborWriter) (additionalBytes : Z) : result cbor_error CborWriter :=
  let required := offset w + additionalBytes in
  if writer_maxByteLength w <? required then Err CborError_byte_length
  else if required <=? zlen (buffer w) then Ok w
  else
    let capacity := grow_capacity 1 (writer_maxByteLength w) required (Z.max 1 (zlen (buffer w))) in
    let expanded := replicate (Z.to_nat capacity) 0 in
    Ok (w <| buffer := array_set expanded (buffer w) 0 |>).

(** Stores at the current offset, after the capacity check. *)
Definition store (w : CborWriter) (bs : list Z) : CborWriter :=
  w <| buffer := array_set (buffer w) bs (offset w) |> <| offset := offset w + zlen bs |>.

Definition writeByte (w : CborWriter) (value : Z) : result cbor_error CborWriter :=
  w ← ensureCapacity w 1; Ok (store w [to_uint8 value]).

Definition writeBytes (w : CborWriter) (bs : list Z) : result cbor_error CborWriter :=
  w ← ensureCapacity w (zlen bs); Ok (store w bs).

Definition writeUint16 (w : CborWriter) (value : Z) : result cbor_error CborWriter :=
  w ← ensureCapacity w 2; Ok (store w [to_uint8 (ushr value 8); to_uint8 value]).

Definition writeUint32 (w : CborWriter) (value : Z) : result cbor_error CborWriter :=
  w ← ensureCapacity w 4;
  Ok (store w [to_uint8 (ushr value 24); to_uint8 (ushr value 16);
               to_uint8 (ushr value 8); to_uint8 value]).

Definition writeUint64 (w : CborWriter) (value : Z) : result cbor_error CborWriter :=
  let high := value / UINT32_BASE in
  let low := value - high * UINT32_BASE in
  w ← writeUint32 w high; writeUint32 w low.

Definition writeFloat64 (w : CborWriter) (value : jsnum) : result cbor_error CborWriter :=
  w ← ensureCapacity w 9; Ok (store w (251 :: float64_bytes value)).

Definition finish (w : CborWriter) : list Z := subarray (buffer w) 0 (offset w).

(** ** Items *)

Definition writeArgument (w : CborWriter) (majorType value : Z) : result cbor_error CborWriter :=
  let prefix := Z.shiftl majorType 5 in
  if value <? 24 then writeByte w (Z.lor prefix value)
  else if value <=? 255 then
    w ← writeByte w (Z.lor prefix 24); writeByte w value
  else if value <=? 65535 then
    w ← writeByte w (Z.lor prefix 25); writeUint16 w value
  else if value <=? MAX_UINT32 then
    w ← writeByte w (Z.lor prefix 26); writeUint32 w value
  else
    w ← writeByte w (Z.lor prefix 27); writeUint64 w value.

Definition encodeText (w : CborWriter) (value : jsstring) (o : ResolvedCborOptions)
  : result cbor_error CborWriter :=
  let bytes := text_encode value in
  if maxByteLength o <? zlen bytes then Err CborError_text_length
  else if bool_decide (text_decode bytes = Some value) then
    w ← writeArgument w 3 (zlen bytes); writeBytes w bytes
  else Err CborError_unicode.

Definition encodeNumber (w : CborWriter) (value : jsnum) : result cbor_error CborWriter :=
  if negb (isFinite value) then Err CborError_not_finite
  else
    match int_value value with
    | Some z =>
        if is_neg_zero value then writeFloat64 w value
        else if negb (is_safe z) then Err CborError_unsafe_integer
        else if 0 <=? z then writeArgument w 0 z
        else writeArgument w 1 (-1 - z)
    | None => writeFloat64 w value
    end.

(** The loop over an array; [encode] is the recursive call. *)
Fixpoint encode_items (encode : CborWriter → jsval → result cbor_error CborWriter)
    (w : CborWriter) (items : list (option jsval)) : result cbor_error CborWriter :=
  match items with
  | [] => Ok w
  | None :: _ | Some JUndefined :: _ => Err CborError_hole
  | Some v :: items => w ← encode w v; encode_items encode w items
  end.

(** The loop over the entries of a map. *)
Fixpoint encode_entries (encode : CborWriter → jsval → result cbor_error CborWriter)
    (o : ResolvedCborOptions) (w : CborWriter) (entries : list (jsstring * jsval))
    : result cbor_error CborWriter :=
  match entries with
  | [] => Ok w
  | (key, v) :: entries =>
      w ← encodeText w key o; w ← encode w v; encode_entries encode o w entries
  end.

(** [encodeValue].  [ancestors] is the set the source shares: a call adds its
    object, and its [finally] removes it again, so that every callee sees
    exactly the objects being encoded above it.  The depth test bounds the
    recursion: a fuel of [maxDepth + 1 - depth] is never used up. *)
Fixpoint encodeValue (fuel : nat) (h : heap) (o : ResolvedCborOptions) (depth : Z)
    (ancestors : gset nat) (w : CborWriter) (value : jsval) : result cbor_error CborWriter :=
  if maxDepth o <? depth then Err CborError_depth
  else
    match fuel with
    | O => Err OutOfFuel
    | S fuel =>
        match value with
        | JNull => writeByte w 246
        | JBool b => writeByte w (if b then 245 else 244)
        | JNum x => encodeNumber w x
        | JStr s => encodeText w s o
        | JUndefined | JOther => Err CborError_unsupported
        | JRef a =>
            match obj_at h a with
            | OBytes bs =>
                if maxByteLength o <? zlen bs then Err CborError_bytes_length
                else w ← writeArgument w 2 (zlen bs); writeBytes w bs
            | OArray elems =>
                if bool_decide (a ∈ ancestors) then Err CborError_cycle
                else if maxContainerLength o <? zlen elems then Err CborError_array_length
                else
                  w ← writeArgument w 4 (zlen elems);
                  encode_items (encodeValue fuel h o (depth + 1) ({[a]} ∪ ancestors)) w elems
            | OPlain _ props symbol_key =>
                if bool_decide (a ∈ ancestors) then Err CborError_cycle
                else if symbol_key then Err CborError_symbol_key
                else
                  let entries := defined_entries props in
                  if maxContainerLength o <? zlen entries then Err CborError_map_length
                  else
                    w ← writeArgument w 5 (zlen entries);
                    encode_entries (encodeValue fuel h o (depth + 1) ({[a]} ∪ ancestors)) o w entries
            | OOther => Err CborError_unsupported
            end
        end
    end.

Definition encode_fuel (o : ResolvedCborOptions) : nat := S (Z.to_nat (maxDepth o)).

Definition encodeCbor (h : heap) (value : jsval) (options : option CborOptions)
  : result cbor_error (list Z) :=
  resolved ← resolveOptions options;
  let writer := new_CborWriter (maxByteLength resolved) in
  w ← encodeValue (encode_fuel resolved) h resolved 0 ∅ writer value;
  Ok (finish w).

(** ** What a value denotes

    The tree read off the heap; [None] when a value is unsupported, has a hole,
    or is not unfolded within the fuel (as a cyclic one never is). *)
Fixpoint reify (fuel : nat) (h : heap) (value : jsval) : option cval :=
  match fuel with
  | O => None
  | S fuel =>
      match value with
      | JNull => Some CNull
      | JBool b => Some (CBool b)
      | JNum x => Some (CNum x)
      | JStr s => Some (CStr s)
      | JUndefined | JOther => None
      | JRef a =>
          match obj_at h a with
          | OBytes bs => Some (CBytes bs)
          | OArray elems => CArray <$> mapM (λ e, e ≫= reify fuel h) elems
          | OPlain _ props false =>
              CMap <$> mapM (λ kv, pair kv.1 <$> reify fuel h kv.2) (defined_entries props)
          | OPlain _ _ true | OOther => None
          end
      end
  end.

(** JavaScript's own guarantees about what the heap holds: byte arrays hold
    bytes, strings hold code units, and property keys are distinct. *)
Definition val_ok (v : jsval) : Prop :=
  match v with
  | JNum x => num_ok x
  | JStr s => string_ok s
  | _ => True
  end.
Definition obj_ok (ob : jsobj) : Prop :=
  match ob with
  | OBytes bs => bytes_ok bs
  | OArray elems => Forall (λ e, match e with Some v => val_ok v | None => True end) elems
  | OPlain _ props _ => NoDup props.*1 ∧ Forall (λ kv, string_ok kv.1 ∧ val_ok kv.2) props
  | OOther => True
  end.
Definition heap_ok (h : heap) : Prop := ∀ a, obj_ok (obj_at h a).

(** ** The writer as a list of bytes *)

Definition content (w : CborWriter) : list Z := take (Z.to_nat (offset w)) (buffer w).

Definition writer_inv (w : CborWriter) : Prop :=
  0 ≤ offset w ≤ zlen (buffer w) ∧ zlen (buffer w) ≤ writer_maxByteLength w
  ∧ 0 ≤ writer_maxByteLength w ≤ MAX_UINT32.

(** [w'] is [w] with [bs] appended. *)
Definition appended (w w' : CborWriter) (bs : list Z) : Prop :=
  writer_inv w' ∧ content w' = content w ++ bs ∧ offset w' = offset w + zlen bs
  ∧ writer_maxByteLength w' = writer_maxByteLength w.

(** An operation appends [bs] when the limit allows it and throws otherwise. *)
Definition writes (w : CborWriter) (bs : list Z) (r : result cbor_error CborWriter) : Prop :=
  if offset w + zlen bs <=? writer_maxByteLength w
  then ∃ w', r = Ok w' ∧ appended w w' bs
  else r = Err CborError_byte_length.

Lemma grow_capacity_enough max required capacity :
  required ≤ max → capacity ≤ max →
  required ≤ grow_capacity 1 max required capacity ≤ max.
Proof. intros. cbn. destruct (Z.ltb_spec capacity required); lia. Qed.

Lemma ensureCapacity_spec w n :
  writer_inv w → 0 ≤ n →
  if offset w + n <=? writer_maxByteLength w then
    ∃ w', ensureCapacity w n = Ok w' ∧ writer_inv w' ∧ content w' = content w
      ∧ offset w' = offset w ∧ writer_maxByteLength w' = writer_maxByteLength w
      ∧ offset w + n ≤ zlen (buffer w')
  else ensureCapacity w n = Err CborError_byte_length.
Proof.
  intros (Ho & Hb & Hm) Hn. unfold ensureCapacity.
  destruct (Z.leb_spec (offset w + n) (writer_maxByteLength w)) as [Hle|Hgt].
  2:{ by rewrite (proj2 (Z.ltb_lt _ _)) by lia. }
  destruct (Z.ltb_spec (writer_maxByteLength w) (offset w + n)); [lia|].
  destruct (Z.leb_spec (offset w + n) (zlen (buffer w))).
  { exists w. split_and!; (done || lia). }
  destruct (grow_capacity_enough (writer_maxByteLength w) (offset w + n) (Z.max 1 (zlen (buffer w))))
    as [Hc1 Hc2]; [lia..|].
  set (capacity := grow_capacity _ _ _ _) in *. clearbody capacity.
  eexists. split; [done|].
  set (w' := w <| buffer := _ |>).
  assert (zlen (buffer w') = capacity) as Hlen.
  { unfold w'. cbn. rewrite array_set_length; rewrite ?zlen_replicate; lia. }
  assert (content w' = content w) as Hcont.
  { unfold content, w'. cbn. unfold array_set. change (Z.to_nat 0) with 0%nat.
    rewrite take_0. cbn. rewrite take_app_le; [done|]. unfold zlen in *. lia. }
  unfold writer_inv. change (offset w') with (offset w).
  change (writer_maxByteLength w') with (writer_maxByteLength w). rewrite Hlen.
  split_and!; (done || lia).
Qed.

Lemma store_appended w bs :
  writer_inv w → offset w + zlen bs ≤ zlen (buffer w) → appended w (store w bs) bs.
Proof.
  intros (Ho & Hb & Hm) Hle. pose proof (zlen_nonneg bs).
  assert (zlen (array_set (buffer w) bs (offset w)) = zlen (buffer w)) as Hl by (apply array_set_length; lia).
  unfold appended, writer_inv, content, store. cbn. rewrite Hl, take_array_set by lia.
  split_and!; (done || lia).
Qed.

(** The common shape of the primitive writes. *)
Lemma writes_store w bs :
  writer_inv w → writes w bs (w ← ensureCapacity w (zlen bs); Ok (store w bs)).
Proof.
  intros Hw. unfold writes. pose proof (ensureCapacity_spec w (zlen bs) Hw (zlen_nonneg bs)) as H.
  destruct (Z.leb_spec (offset w + zlen bs) (writer_maxByteLength w)); [|by rewrite H].
  destruct H as (w1 & -> & Hw1 & Hc & Ho & Hm & Hle).
  eexists. split; [done|].
  destruct (store_appended w1 bs Hw1 ltac:(lia)) as (? & ? & ? & ?).
  unfold appended. rewrite <- Hc, <- Ho, <- Hm. done.
Qed.

Lemma appended_trans w1 w2 w3 a b : appended w1 w2 a → appended w2 w3 b → appended w1 w3 (a ++ b).
Proof.
  intros (? & Hc1 & Ho1 & Hm1) (? & Hc2 & Ho2 & Hm2). unfold appended.
  rewrite Hc2, Hc1, app_assoc, zlen_app. split_and!; (done || lia).
Qed.

(** Sequencing two operations that write. *)
Lemma writes_bind w a b m k :
  writes w a m → (∀ w', appended w w' a → writes w' b (k w')) → writes w (a ++ b) (m ≫= k).
Proof.
  unfold writes. intros Ha Hb. rewrite zlen_app. pose proof (zlen_nonneg b).
  destruct (Z.leb_spec (offset w + zlen a) (writer_maxByteLength w)) as [Hle|Hgt].
  - destruct Ha as (w' & -> & Hap). specialize (Hb w' Hap). cbn.
    destruct Hap as (? & Hc & Ho & Hm). rewrite Ho, Hm in Hb.
    rewrite Z.add_assoc. destruct (_ <=? _) eqn:E; [|done].
    destruct Hb as (w'' & -> & Hap'). exists w''. split; [done|]. eapply appended_trans; [|done].
    split_and!; done.
  - rewrite Ha. by rewrite (proj2 (Z.leb_gt _ _)) by lia.
Qed.

Lemma writeByte_spec w v : writer_inv w → is_byte v → writes w [v] (writeByte w v).
Proof.
  intros Hw Hv. unfold writeByte, to_uint8. rewrite Z.mod_small by apply Hv.
  by apply (writes_store w [v]).
Qed.

Lemma writeBytes_spec w bs : writer_inv w → writes w bs (writeBytes w bs).
Proof. apply writes_store. Qed.

Lemma writeUint32_spec w n : writer_inv w → writes w (be32_bytes n) (writeUint32 w n).
Proof. intros Hw. by apply (writes_store w (be32_bytes n)). Qed.

Lemma writeUint16_spec w n :
  writer_inv w → 0 ≤ n ≤ 65535 → writes w [n / 256; n mod 256] (writeUint16 w n).
Proof.
  intros Hw Hn. unfold writeUint16. rewrite ushr_div by lia. unfold to_uint8.
  rewrite (Z.mod_small n 4294967296) by lia. change (2 ^ 8) with 256.
  rewrite (Z.mod_small (n / 256)) by (Z.to_euclidean_division_equations; lia).
  by apply (writes_store w [n / 256; n mod 256]).
Qed.

Lemma writeFloat64_spec w x : writer_inv w → writes w (251 :: float64_bytes x) (writeFloat64 w x).
Proof. intros Hw. by apply (writes_store w (251 :: float64_bytes x)). Qed.

Lemma lor_prefix major n : 0 ≤ n < 32 → Z.lor (Z.shiftl major 5) n = major * 32 + n.
Proof.
  intros Hn. rewrite Z.shiftl_mul_pow2 by lia. change (2 ^ 5) with 32.
  assert (Z.land (major * 32) n = 0) as H0.
  { apply Z.bits_inj_iff'. intros i Hi. rewrite Z.land_spec, Z.bits_0.
    destruct (Z.ltb_spec i 5).
    - replace (major * 32) with (major * 2 ^ 5) by done. by rewrite Z.mul_pow2_bits_low by lia.
    - destruct (decide (n = 0)) as [->|]; [by rewrite Z.bits_0, andb_false_r|].
      rewrite (Z.bits_above_log2 n), andb_false_r; [done|lia|].
      apply Z.log2_lt_pow2; [lia|]. apply Z.lt_le_trans with (2 ^ 5); [cbn; lia|].
      by apply Z.pow_le_mono_r. }
  by rewrite Z.add_nocarry_lxor, Z.lxor_lor.
Qed.

Lemma writeArgument_spec w major n :
  writer_inv w → 0 ≤ major < 8 → 0 ≤ n ≤ MAX_SAFE_INTEGER →
  writes w (enc_arg major n) (writeArgument w major n).
Proof.
  intros Hw Hmaj Hn. unfold writeArgument, enc_arg.
  assert (Hpre : ∀ k, 0 ≤ k < 32 → writes w [major * 32 + k] (writeByte w (Z.lor (Z.shiftl major 5) k))).
  { intros k Hk. rewrite lor_prefix by done. apply writeByte_spec; [done|]. unfold is_byte. lia. }
  destruct (Z.ltb_spec n 24); [apply Hpre; lia|].
  destruct (Z.leb_spec n 255).
  { apply (writes_bind w [_] [n]); [apply Hpre; lia|]. intros w' (Hw' & _).
    apply writeByte_spec; [done|unfold is_byte; lia]. }
  destruct (Z.leb_spec n 65535).
  { apply (writes_bind w [_]); [apply Hpre; lia|]. intros w' (Hw' & _).
    apply writeUint16_spec; [done|lia]. }
  destruct (Z.leb_spec n MAX_UINT32).
  { apply (writes_bind w [_]); [apply Hpre; lia|]. intros w' (Hw' & _). by apply writeUint32_spec. }
  apply (writes_bind w [_]); [apply Hpre; lia|]. intros w' (Hw' & _). unfold writeUint64.
  apply writes_bind; [by apply writeUint32_spec|]. intros w'' (Hw'' & _).
  replace (n - n / UINT32_BASE * UINT32_BASE) with (n mod UINT32_BASE)
    by (rewrite Z.mod_eq by done; lia).
  by apply writeUint32_spec.
Qed.

Lemma writes_Ok w w' bs : writes w bs (Ok w') → appended w w' bs.
Proof. unfold writes. case_match; [by intros (? & [= <-] & ?)|done]. Qed.

Lemma writes_nil w : writer_inv w → writes w [] (Ok w).
Proof.
  intros Hw. unfold writes. rewrite zlen_nil, Z.add_0_r.
  destruct Hw as (? & ? & ?). rewrite (proj2 (Z.leb_le _ _)) by lia.
  exists w. unfold appended. rewrite app_nil_r, zlen_nil. split_and!; (done || lia).
Qed.

(** ** Scalars *)

Lemma encodeNumber_valid w x :
  writer_inv w → num_valid x = true → writes w (enc_num x) (encodeNumber w x).
Proof.
  unfold num_valid, encodeNumber, enc_num. intros Hw [-> Hv]%andb_true_iff. cbn [negb].
  destruct (int_value x) as [z|]; [|by apply writeFloat64_spec].
  destruct (is_neg_zero x); [by apply writeFloat64_spec|]. rewrite Hv. cbn [negb].
  apply is_safe_spec in Hv.
  destruct (Z.leb_spec 0 z); apply writeArgument_spec; (done || lia).
Qed.

Lemma encodeNumber_Ok w x w' :
  writer_inv w → encodeNumber w x = Ok w' → num_valid x = true ∧ appended w w' (enc_num x).
Proof.
  intros Hw He. assert (num_valid x = true) as Hv.
  { revert He. unfold num_valid, encodeNumber. destruct (isFinite x); [|done]. cbn.
    destruct (int_value x) as [z|] eqn:Ez; [|done].
    destruct (is_neg_zero x) eqn:Enz.
    - intros _. apply Z.eqb_eq in Enz. subst x. by injection Ez as <-.
    - by destruct (is_safe z). }
  split; [done|]. apply writes_Ok. rewrite <- He. by apply encodeNumber_valid.
Qed.

Section Options.
Context (o : ResolvedCborOptions) (Ho : options_ok o).

Lemma small_is_safe n : 0 ≤ n ≤ MAX_UINT32 → 0 ≤ n ≤ MAX_SAFE_INTEGER.
Proof. unfold MAX_UINT32, MAX_SAFE_INTEGER. lia. Qed.

Lemma encodeText_valid w s :
  writer_inv w → key_ok o s → writes w (enc_text s) (encodeText w s o).
Proof.
  intros Hw [[Hs Hwf] Hlen]. unfold encodeText, enc_text.
  destruct (Z.ltb_spec (maxByteLength o) (zlen (text_encode s))); [lia|].
  rewrite text_decode_encode by done. rewrite (proj2 (to_well_formed_id s Hs)) by done.
  rewrite bool_decide_eq_true_2 by done. destruct Ho as [? _]. pose proof (zlen_nonneg (text_encode s)).
  apply writes_bind; [apply writeArgument_spec; [done|lia|apply small_is_safe; lia]|].
  intros w' [Hw' _]. by apply writeBytes_spec.
Qed.

Lemma encodeText_Ok w s w' :
  writer_inv w → string_ok s → encodeText w s o = Ok w' →
  key_ok o s ∧ appended w w' (enc_text s).
Proof.
  intros Hw Hs He. assert (key_ok o s) as Hk.
  { revert He. unfold encodeText, key_ok, text_valid.
    destruct (Z.ltb_spec (maxByteLength o) (zlen (text_encode s))); [done|].
    rewrite text_decode_encode by done. case_bool_decide as Hd; [|done]. intros _.
    injection Hd as Hd. split_and!; [done|by apply to_well_formed_id|lia]. }
  split; [done|]. apply writes_Ok. rewrite <- He. by apply encodeText_valid.
Qed.

(** ** Arrays and maps, given the recursive call *)

Section Loops.
Context (encode : CborWriter → jsval → result cbor_error CborWriter)
  (denotes : jsval → option cval) (ok : cval → Prop).

Definition encodes_soundly : Prop := ∀ w v w',
  writer_inv w → val_ok v → encode w v = Ok w' →
  ∃ c, denotes v = Some c ∧ ok c ∧ appended w w' (enc c).

Lemma encode_items_Ok w items w' :
  encodes_soundly → writer_inv w →
  Forall (λ e, match e with Some v => val_ok v | None => True end) items →
  encode_items encode w items = Ok w' →
  ∃ cs, mapM (λ e, e ≫= denotes) items = Some cs ∧ Forall ok cs
        ∧ appended w w' (concat (enc <$> cs)).
Proof.
  intros Henc. revert w. induction items as [|e items IH]; intros w Hw Hok He.
  { injection He as <-. exists []. split_and!; [done|constructor|]. by apply writes_Ok, writes_nil. }
  apply Forall_cons in Hok as [Hv Hok].
  destruct e as [v|]; [|done].
  assert (∃ w1, encode w v = Ok w1 ∧ encode_items encode w1 items = Ok w') as (w1 & E1 & E2).
  { cbn in He. destruct v; try done; by apply bind_Ok in He. }
  destruct (Henc w v w1 Hw Hv E1) as (c & Hc & Hcok & Hap).
  destruct (IH w1 ltac:(apply Hap) Hok E2) as (cs & Hcs & Hcsok & Hap').
  exists (c :: cs). cbn. rewrite Hc. cbn. rewrite Hcs. cbn.
  split_and!; [done|by constructor|by eapply appended_trans].
Qed.

Lemma encode_entries_Ok w props w' :
  encodes_soundly → writer_inv w →
  Forall (λ kv, string_ok kv.1 ∧ val_ok kv.2) props →
  encode_entries encode o w props = Ok w' →
  ∃ kcs, mapM (λ kv, pair kv.1 <$> denotes kv.2) props = Some kcs
    ∧ Forall (λ kc, key_ok o kc.1 ∧ ok kc.2) kcs ∧ appended w w' (concat (enc_entry <$> kcs)).
Proof.
  intros Henc. revert w. induction props as [|[k v] props IH]; intros w Hw Hok He.
  { injection He as <-. exists []. split_and!; [done|constructor|]. by apply writes_Ok, writes_nil. }
  apply Forall_cons in Hok as [[Hk Hv] Hok]. cbn in Hk, Hv, He.
  apply bind_Ok in He as (w1 & E1 & He). apply bind_Ok in He as (w2 & E2 & E3).
  destruct (encodeText_Ok w k w1 Hw Hk E1) as [Hkok Hap1].
  destruct (Henc w1 v w2 ltac:(apply Hap1) Hv E2) as (c & Hc & Hcok & Hap2).
  destruct (IH w2 ltac:(apply Hap2) Hok E3) as (kcs & Hcs & Hcsok & Hap3).
  exists ((k, c) :: kcs). cbn. rewrite Hc. cbn. rewrite Hcs. cbn.
  split_and!; [done|by constructor|].
  eapply appended_trans; [|done]. by eapply appended_trans.
Qed.

Definition encodes_fully (v : jsval) (c : cval) : Prop :=
  v ≠ JUndefined ∧ ∀ w, writer_inv w → writes w (enc c) (encode w v).

Lemma encode_items_valid w items cs :
  writer_inv w → Forall2 (λ e c, ∃ v, e = Some v ∧ encodes_fully v c) items cs →
  writes w (concat (enc <$> cs)) (encode_items encode w items).
Proof.
  intros Hw Hall. revert w Hw.
  induction Hall as [|e c items cs (v & -> & Hv & He) _ IH]; intros w Hw; [by apply writes_nil|].
  change (concat (enc <$> (c :: cs))) with (enc c ++ concat (enc <$> cs)).
  destruct v; try done; cbn; (apply writes_bind; [by apply He|intros w' [Hw' _]; by apply IH]).
Qed.

Lemma encode_entries_valid w props kcs :
  writer_inv w →
  Forall2 (λ kv kc, kv.1 = kc.1 ∧ key_ok o kv.1 ∧ encodes_fully kv.2 kc.2) props kcs →
  writes w (concat (enc_entry <$> kcs)) (encode_entries encode o w props).
Proof.
  intros Hw Hall. revert w Hw.
  induction Hall as [|[k v] [k' c] props kcs (Hkk & Hk & _ & He) _ IH]; intros w Hw;
    [by apply writes_nil|].
  cbn in Hkk, Hk, He. subst k'.
  change (concat (enc_entry <$> ((k, c) :: kcs)))
    with ((enc_text k ++ enc c) ++ concat (enc_entry <$> kcs)).
  cbn. rewrite <- app_assoc. apply writes_bind; [by apply encodeText_valid|]. intros w1 [Hw1 _].
  apply writes_bind; [by apply He|]. intros w2 [Hw2 _]. by apply IH.
Qed.
End Loops.

(** ** [encodeValue] *)

Lemma mapM_length {A B} (f : A → option B) l k : mapM f l = Some k → zlen k = zlen l.
Proof. intros H%mapM_Some%Forall2_length. unfold zlen. lia. Qed.

Lemma mapM_keys (f : jsval → option cval) (props : list (jsstring * jsval)) kcs :
  mapM (λ kv, pair kv.1 <$> f kv.2) props = Some kcs → kcs.*1 = props.*1.
Proof.
  intros H%mapM_Some. induction H as [|[k v] [k' c] props kcs Hkv _ IH]; [done|].
  cbn in *. apply fmap_Some in Hkv as (c' & _ & [= -> ->]). by rewrite IH.
Qed.

Lemma defined_entries_ok props :
  NoDup props.*1 → Forall (λ kv, string_ok kv.1 ∧ val_ok kv.2) props →
  NoDup (defined_entries props).*1
  ∧ Forall (λ kv, string_ok kv.1 ∧ val_ok kv.2) (defined_entries props)
  ∧ Forall (λ kv, kv.2 ≠ JUndefined) (defined_entries props).
Proof.
  intros Hd Hall. unfold defined_entries. split_and!.
  - eapply sublist_NoDup; [done|]. apply fmap_sublist, sublist_filter.
  - rewrite Forall_forall in *. intros x [_ Hx]%list_elem_of_filter. auto.
  - rewrite Forall_forall. by intros x [Hx _]%list_elem_of_filter.
Qed.

(** What a successful run wrote is the encoding of the tree the value
    denotes, which therefore exists (no cycle) and is within the limits. *)
Lemma encodeValue_Ok fuel h depth anc w v w' :
  heap_ok h → writer_inv w → val_ok v →
  encodeValue fuel h o depth anc w v = Ok w' →
  ∃ c, reify fuel h v = Some c ∧ cval_ok o depth c ∧ appended w w' (enc c).
Proof.
  intros Hh. revert depth anc w v w'.
  induction fuel as [|fuel IH]; intros depth anc w v w' Hw Hv; cbn [encodeValue reify];
    (destruct (Z.ltb_spec (maxDepth o) depth); [done|]); [done|].
  assert (Hrec : ∀ anc', encodes_soundly (encodeValue fuel h o (depth + 1) anc') (reify fuel h)
                  (cval_ok o (depth + 1))) by (intros anc' w1 v1 w1' ???; by eapply IH).
  destruct v as [| |b|x|s| |a]; try done.
  - intros He. exists CNull. split_and!; [done|done|]. apply writes_Ok. rewrite <- He.
    by apply (writeByte_spec w 246).
  - intros He. exists (CBool b). split_and!; [done|done|]. apply writes_Ok. rewrite <- He.
    apply (writeByte_spec w); [done|]. by destruct b.
  - intros [Hx Hap]%encodeNumber_Ok; [|done]. exists (CNum x). by split_and!.
  - intros [[??] Hap]%encodeText_Ok; [|done..]. exists (CStr s). by split_and!.
  - pose proof (Hh a) as Hoa. destruct (obj_at h a) as [bs|elems|np props sym|]; [| | |done].
    + destruct (Z.ltb_spec (maxByteLength o) (zlen bs)); [done|]. intros He.
      exists (CBytes bs). split_and!; [done|done|]. apply writes_Ok. rewrite <- He.
      destruct Ho as [? _]. pose proof (zlen_nonneg bs).
      apply writes_bind; [apply writeArgument_spec; [done|lia|apply small_is_safe; lia]|].
      intros w1 [Hw1 _]. by apply writeBytes_spec.
    + case_bool_decide; [done|]. destruct (Z.ltb_spec (maxContainerLength o) (zlen elems)); [done|].
      intros (w1 & E1 & E2)%bind_Ok. destruct Ho as (_ & ? & _). pose proof (zlen_nonneg elems).
      assert (appended w w1 (enc_arg 4 (zlen elems))) as Hap1.
      { apply writes_Ok. rewrite <- E1. apply writeArgument_spec; [done|lia|apply small_is_safe; lia]. }
      destruct (encode_items_Ok _ _ _ w1 elems w' (Hrec _) ltac:(apply Hap1) Hoa E2)
        as (cs & Hcs & Hok & Hap2).
      pose proof (mapM_length _ _ _ Hcs) as Hlen.
      exists (CArray cs). rewrite Hcs. split_and!; [done| |].
      * apply cval_ok_array. rewrite Hlen. by split_and!.
      * cbn [enc]. rewrite Hlen. by eapply appended_trans.
    + case_bool_decide; [done|]. destruct sym; [done|].
      destruct (Z.ltb_spec (maxContainerLength o) (zlen (defined_entries props))); [done|].
      intros (w1 & E1 & E2)%bind_Ok. destruct Ho as (_ & ? & _).
      pose proof (zlen_nonneg (defined_entries props)).
      assert (appended w w1 (enc_arg 5 (zlen (defined_entries props)))) as Hap1.
      { apply writes_Ok. rewrite <- E1. apply writeArgument_spec; [done|lia|apply small_is_safe; lia]. }
      destruct Hoa as [Hnd Hall]. destruct (defined_entries_ok props Hnd Hall) as (Hnd' & Hall' & _).
      destruct (encode_entries_Ok _ _ _ w1 _ w' (Hrec _) ltac:(apply Hap1) Hall' E2)
        as (kcs & Hcs & Hok & Hap2).
      pose proof (mapM_length _ _ _ Hcs) as Hlen.
      exists (CMap kcs). rewrite Hcs. split_and!; [done| |].
      * apply cval_ok_map. rewrite Hlen, (mapM_keys _ _ _ Hcs). by split_and!.
      * cbn [enc]. rewrite Hlen. by eapply appended_trans.
Qed.
End Options.

(** ** A tree is encoded whenever it is within the limits *)

Fixpoint csize (c : cval) : nat :=
  match c with
  | CArray items => S (sum_list (csize <$> items))
  | CMap entries => S (sum_list ((λ kv, csize kv.2) <$> entries))
  | _ => 1
  end.

Lemma sum_list_elem (l : list nat) n : n ∈ l → (n ≤ sum_list l)%nat.
Proof. induction 1; cbn; lia. Qed.

Lemma csize_array c items : c ∈ items → (csize c < csize (CArray items))%nat.
Proof.
  intros Hc. cbn. apply Nat.lt_succ_r, sum_list_elem, (list_elem_of_fmap_2 csize), Hc.
Qed.
Lemma csize_map kv entries : kv ∈ entries → (csize kv.2 < csize (CMap entries))%nat.
Proof.
  intros Hc. cbn. apply Nat.lt_succ_r, sum_list_elem.
  by apply (list_elem_of_fmap_2 (λ kv : jsstring * cval, csize kv.2)).
Qed.

Lemma reify_mono n m h v c : (n ≤ m)%nat → reify n h v = Some c → reify m h v = Some c.
Proof.
  revert m v c. induction n as [|n IH]; intros m v c Hm; [done|].
  destruct m as [|m]; [lia|]. cbn [reify]. specialize (IH m).
  destruct v as [| |b|x|s| |a]; try done.
  destruct (obj_at h a) as [bs|elems|np props [|]|]; try done.
  - intros (cs & Hcs & ->)%fmap_Some. apply mapM_Some in Hcs.
    erewrite (proj2 (mapM_Some _ _ _)); [done|].
    eapply Forall2_impl; [exact Hcs|]. intros e c (w & -> & Hw)%bind_Some. cbn. apply IH; [lia|done].
  - intros (kcs & Hcs & ->)%fmap_Some. apply mapM_Some in Hcs.
    erewrite (proj2 (mapM_Some _ _ _)); [done|].
    eapply Forall2_impl; [exact Hcs|]. intros kv c (w & Hw & ->)%fmap_Some. cbn.
    by rewrite (IH _ w ltac:(lia) Hw).
Qed.

Lemma reify_det n m h v c c' : reify n h v = Some c → reify m h v = Some c' → c = c'.
Proof.
  intros H1%(reify_mono n (max n m)) H2%(reify_mono m (max n m)); [congruence|lia..].
Qed.

(** The objects above [c] on the way from the root denote larger trees. *)
Definition above (h : heap) (anc : gset nat) (c : cval) : Prop :=
  ∀ a m c', a ∈ anc → reify m h (JRef a) = Some c' → (csize c < csize c')%nat.

Lemma above_self h anc c a m : above h anc c → reify m h (JRef a) = Some c → a ∉ anc.
Proof. intros Ha Hr Hin. specialize (Ha _ _ _ Hin Hr). lia. Qed.

Lemma above_child h anc c a m c1 :
  above h anc c → reify m h (JRef a) = Some c → (csize c1 < csize c)%nat →
  above h ({[a]} ∪ anc) c1.
Proof.
  intros Ha Hr Hlt a' m' c' [->%elem_of_singleton|Hin]%elem_of_union Hr'.
  - by rewrite <- (reify_det _ _ _ _ _ _ Hr Hr').
  - specialize (Ha _ _ _ Hin Hr'). lia.
Qed.

Lemma reify_undefined n h v c : reify n h v = Some c → v ≠ JUndefined.
Proof. destruct n; [done|]. by intros ? ->. Qed.

Lemma encodeValue_valid n o h fuel depth anc w v c :
  options_ok o → writer_inv w → reify n h v = Some c → cval_ok o depth c →
  above h anc c → maxDepth o + 1 ≤ depth + Z.of_nat fuel →
  writes w (enc c) (encodeValue fuel h o depth anc w v).
Proof.
  intros Ho. revert fuel depth anc w v c.
  induction n as [|n IH]; intros fuel depth anc w v c Hw Hr Hc Hanc Hfuel; [done|].
  pose proof (cval_ok_depth _ _ _ Hc) as Hd.
  destruct fuel as [|fuel]; [lia|]. cbn [encodeValue].
  destruct (Z.ltb_spec (maxDepth o) depth); [lia|]. pose proof Hr as Hr'. cbn [reify] in Hr.
  destruct Ho as (Hmb & Hmc & Hmd).
  destruct v as [| |b|x|s| |a]; try done.
  - injection Hr as <-. by apply (writeByte_spec w 246).
  - injection Hr as <-. apply (writeByte_spec w); [done|]. by destruct b.
  - injection Hr as <-. apply encodeNumber_valid; [done|apply Hc].
  - injection Hr as <-. by apply encodeText_valid; [|done|apply Hc].
  - destruct (obj_at h a) as [bs|elems|np props [|]|] eqn:Ea; try done.
    + injection Hr as <-. destruct Hc as (_ & _ & Hlen).
      destruct (Z.ltb_spec (maxByteLength o) (zlen bs)); [lia|]. pose proof (zlen_nonneg bs).
      apply writes_bind; [apply writeArgument_spec; [done|lia|apply small_is_safe; lia]|].
      intros w1 [Hw1 _]. by apply writeBytes_spec.
    + apply fmap_Some in Hr as (cs & Hcs & ->). apply cval_ok_array in Hc as (_ & Hlen & Hall).
      pose proof (mapM_length _ _ _ Hcs) as Hl.
      rewrite bool_decide_eq_false_2 by (by eapply above_self).
      destruct (Z.ltb_spec (maxContainerLength o) (zlen elems)); [lia|]. pose proof (zlen_nonneg elems).
      cbn [enc]. rewrite Hl.
      apply writes_bind; [apply writeArgument_spec; [done|lia|apply small_is_safe; lia]|].
      intros w1 [Hw1 _]. apply encode_items_valid; [done|].
      apply mapM_Some in Hcs. apply Forall2_same_length_lookup_2; [by eapply Forall2_length|].
      intros i e ci He Hci. pose proof (Forall2_lookup_lr _ _ _ _ _ _ Hcs He Hci) as Hv.
      apply bind_Some in Hv as (v & -> & Hv). exists v. split; [done|].
      split; [by eapply reify_undefined|]. intros w2 Hw2. eapply IH; [done|done| | |lia].
      * by eapply (Forall_lookup_1 _ _ _ _ Hall).
      * eapply above_child; [done|done|]. eapply csize_array, list_elem_of_lookup_2; done.
    + apply fmap_Some in Hr as (kcs & Hcs & ->). apply cval_ok_map in Hc as (_ & Hlen & Hnd & Hall).
      pose proof (mapM_length _ _ _ Hcs) as Hl.
      rewrite bool_decide_eq_false_2 by (by eapply above_self).
      destruct (Z.ltb_spec (maxContainerLength o) (zlen (defined_entries props))); [lia|].
      pose proof (zlen_nonneg (defined_entries props)).
      cbn [enc]. rewrite Hl.
      apply writes_bind; [apply writeArgument_spec; [done|lia|apply small_is_safe; lia]|].
      intros w1 [Hw1 _]. apply encode_entries_valid; [done|done|].
      apply mapM_Some in Hcs. apply Forall2_same_length_lookup_2; [by eapply Forall2_length|].
      intros i e ci He Hci. pose proof (Forall2_lookup_lr _ _ _ _ _ _ Hcs He Hci) as Hv.
      apply fmap_Some in Hv as (v & Hv & ->). cbn.
      destruct (Forall_lookup_1 _ _ _ _ Hall Hci) as [Hk Hok]. split_and!; [done|done|].
      split; [by eapply reify_undefined|]. intros w2 Hw2. eapply IH; [done|done|done| |lia].
      eapply above_child; [done|done|].
      eapply (csize_map (e.1, v)), list_elem_of_lookup_2; done.
Qed.

Lemma new_CborWriter_inv max :
  0 ≤ max ≤ MAX_UINT32 → writer_inv (new_CborWriter max) ∧ content (new_CborWriter max) = [].
Proof.
  intros Hm. unfold writer_inv, new_CborWriter. cbn. rewrite zlen_replicate.
  split_and!; (done || lia).
Qed.

Lemma finish_content w : writer_inv w → finish w = content w.
Proof. intros. unfold finish, content, subarray. by rewrite Z.sub_0_r. Qed.

Lemma encodeCbor_spec h v options o bs :
  heap_ok h → val_ok v → resolveOptions options = Ok o →
  encodeCbor h v options = Ok bs ↔
  ∃ c n, reify n h v = Some c ∧ cval_ok o 0 c ∧ bs = enc c ∧ zlen (enc c) ≤ maxByteLength o.
Proof.
  intros Hh Hv Hopt. pose proof (resolveOptions_ok _ _ Hopt) as Ho.
  pose proof Ho as (Hmb & Hmc & Hmd).
  destruct (new_CborWriter_inv (maxByteLength o) Hmb) as [Hw Hcont].
  unfold encodeCbor. rewrite Hopt. cbn [mbind result_bind]. split.
  - intros (w & Hw' & Hbs)%bind_Ok.
    destruct (encodeValue_Ok o Ho _ _ _ _ _ _ _ Hh Hw Hv Hw') as (c & Hr & Hc & Hi & Hap & Hof & Hmx).
    exists c, (encode_fuel o). rewrite Hcont in Hap. cbn [app] in Hap.
    assert (bs = enc c) as -> by (rewrite <- Hap, <- finish_content by done; congruence).
    split_and!; [done..|]. destruct Hi as (? & ? & _). cbn in Hof, Hmx. lia.
  - intros (c & n & Hr & Hc & -> & Hlen).
    pose proof (encodeValue_valid n o h (encode_fuel o) 0 ∅ (new_CborWriter (maxByteLength o)) v c
      Ho Hw Hr Hc ltac:(intros ??? []%not_elem_of_empty) ltac:(unfold encode_fuel; lia)) as H.
    unfold writes in H. cbn [offset new_CborWriter writer_maxByteLength] in H.
    rewrite (proj2 (Z.leb_le _ _)) in H by lia. destruct H as (w & -> & Hi & Hap & _).
    cbn. by rewrite finish_content, Hap, Hcont.
Qed.
