(* ===== verification/CborDecoder.v ===== *)
(** * CBOR decoder ([packages/protocol/src/cbor/decoder.ts])

    [CborReader] as functions from the offset to a value and the next offset, and
    [decodeCbor].  Two theorems tie it to the encoder: it inverts it on every
    tree within the limits, and every tree it returns is within the limits. *)

From S2P Require Import Prelude JsNumber JsString CborValue CborEncoder.

Section Reader.
Context (bytes : list Z) (o : ResolvedCborOptions).

Definition readByte (offset : Z) : result cbor_error (Z * Z) :=
  if zlen bytes <=? offset then Err CborError_truncated
  else Ok (byte_at bytes (Z.to_nat offset), offset + 1).

Definition readBytes (offset length : Z) : result cbor_error (list Z * Z) :=
  if zlen bytes - offset <? length then Err CborError_truncated
  else Ok (subarray bytes offset (offset + length), offset + length).

(** The four-byte case, which the eight-byte one calls twice. *)
Definition readUint32 (offset : Z) : result cbor_error (Z * Z) :=
  '(b, offset) ← readBytes offset 4;
  Ok (byte_at b 0 * 16777216 + byte_at b 1 * 65536 + byte_at b 2 * 256 + byte_at b 3, offset).

Definition readArgument (offset additionalInformation : Z) : result cbor_error (Z * Z) :=
  if additionalInformation <? 24 then Ok (additionalInformation, offset)
  else if additionalInformation =? 24 then readByte offset
  else if additionalInformation =? 25 then
    '(b, offset) ← readBytes offset 2; Ok (byte_at b 0 * 256 + byte_at b 1, offset)
  else if additionalInformation =? 26 then readUint32 offset
  else if additionalInformation =? 27 then
    '(high, offset) ← readUint32 offset;
    '(low, offset) ← readUint32 offset;
    if 2097151 <? high then Err CborError_unsafe_integer
    else Ok (high * UINT32_BASE + low, offset)
  else if additionalInformation =? 31 then Err CborError_indefinite
  else Err CborError_additional.

Definition readLength (offset additionalInformation limit : Z) : result cbor_error (Z * Z) :=
  if additionalInformation =? 31 then Err CborError_indefinite
  else
    '(length, offset) ← readArgument offset additionalInformation;
    if limit <? length then Err CborError_length else Ok (length, offset).

Definition readSimple (offset additionalInformation : Z) : result cbor_error (cval * Z) :=
  if additionalInformation =? 20 then Ok (CBool false, offset)
  else if additionalInformation =? 21 then Ok (CBool true, offset)
  else if additionalInformation =? 22 then Ok (CNull, offset)
  else if additionalInformation =? 27 then
    '(b, offset) ← readBytes offset 8;
    let value := float64_value b in
    if negb (isFinite value) then Err CborError_not_finite
    else if isInteger value && negb (isSafeInteger value) then Err CborError_unsafe_integer
    else Ok (CNum value, offset)
  else if additionalInformation =? 31 then Err CborError_break
  else Err CborError_simple.

(** [for (let index = 0; index < length; index++) result.push(...)]; [read] is
    the recursive call at the next depth. *)
Fixpoint read_items (read : Z → result cbor_error (cval * Z)) (n : nat) (offset : Z)
    : result cbor_error (list cval * Z) :=
  match n with
  | O => Ok ([], offset)
  | S n =>
      '(v, offset) ← read offset;
      '(vs, offset) ← read_items read n offset;
      Ok (v :: vs, offset)
  end.

(** The loop over the entries of a map, with the set of keys already seen. *)
Fixpoint read_entries (read : Z → result cbor_error (cval * Z)) (n : nat) (keys : list jsstring)
    (offset : Z) : result cbor_error (list (jsstring * cval) * Z) :=
  match n with
  | O => Ok ([], offset)
  | S n =>
      '(key, offset) ← read offset;
      match key with
      | CStr key =>
          if bool_decide (key ∈ keys) then Err CborError_duplicate_key
          else
            '(v, offset) ← read offset;
            '(kvs, offset) ← read_entries read n (key :: keys) offset;
            Ok ((key, v) :: kvs, offset)
      | _ => Err CborError_map_key
      end
  end.

(** The [switch] on the major type; [read] is [readItem] at the next depth. *)
Definition read_by_major (read : Z → result cbor_error (cval * Z))
    (majorType additionalInformation offset : Z) : result cbor_error (cval * Z) :=
  if majorType =? 0 then
    '(n, offset) ← readArgument offset additionalInformation; Ok (CNum (of_Z n), offset)
  else if majorType =? 1 then
    '(n, offset) ← readArgument offset additionalInformation;
    let value := -1 - n in
    if is_safe value then Ok (CNum (of_Z value), offset) else Err CborError_unsafe_integer
  else if majorType =? 2 then
    '(length, offset) ← readLength offset additionalInformation (maxByteLength o);
    '(b, offset) ← readBytes offset length; Ok (CBytes b, offset)
  else if majorType =? 3 then
    '(length, offset) ← readLength offset additionalInformation (maxByteLength o);
    '(b, offset) ← readBytes offset length;
    match text_decode b with
    | Some s => Ok (CStr s, offset)
    | None => Err CborError_utf8
    end
  else if majorType =? 4 then
    '(length, offset) ← readLength offset additionalInformation (maxContainerLength o);
    '(vs, offset) ← read_items read (Z.to_nat length) offset;
    Ok (CArray vs, offset)
  else if majorType =? 5 then
    '(length, offset) ← readLength offset additionalInformation (maxContainerLength o);
    '(kvs, offset) ← read_entries read (Z.to_nat length) [] offset;
    Ok (CMap kvs, offset)
  else if majorType =? 6 then Err CborError_tag
  else if majorType =? 7 then readSimple offset additionalInformation
  else Err CborError_major.

(** [readItem].  As in the encoder the depth test bounds the recursion. *)
Fixpoint readItem (fuel : nat) (depth offset : Z) : result cbor_error (cval * Z) :=
  if maxDepth o <? depth then Err CborError_depth
  else
    match fuel with
    | O => Err OutOfFuel
    | S fuel =>
        '(initial, offset) ← readByte offset;
        read_by_major (readItem fuel (depth + 1)) (ushr initial 5) (Z.land initial 31) offset
    end.

Definition decode : result cbor_error cval :=
  '(value, offset) ← readItem (encode_fuel o) 0 0;
  if negb (offset =? zlen bytes) then Err CborError_trailing else Ok value.
End Reader.

Definition decodeCbor (bytes : list Z) (options : option CborOptions) : result cbor_error cval :=
  resolved ← resolveOptions options;
  if maxByteLength resolved <? zlen bytes then Err CborError_byte_length
  else decode bytes resolved.

(** ** Reading what was written

    [at_ bytes off xs]: the bytes [xs] stand at offset [off]. *)

Definition at_ (bytes : list Z) (off : Z) (xs : list Z) : Prop :=
  ∃ pre post, bytes = pre ++ xs ++ post ∧ off = zlen pre.

Section Read.
Context (bytes : list Z) (o : ResolvedCborOptions).

Lemma at_app off xs ys :
  at_ bytes off (xs ++ ys) ↔ at_ bytes off xs ∧ at_ bytes (off + zlen xs) ys.
Proof.
  unfold at_. split.
  - intros (pre & post & -> & ->). split.
    + exists pre, (ys ++ post). by rewrite !app_assoc.
    + exists (pre ++ xs), post. rewrite zlen_app, <- !app_assoc. done.
  - intros [(pre & post & -> & ->) (pre' & post' & Heq & Hoff)].
    rewrite app_assoc in Heq. apply app_inj_1 in Heq as [<- ->].
    + exists pre, post'. by rewrite <- !app_assoc.
    + rewrite length_app. unfold zlen in Hoff. lia.
Qed.

Lemma at_cons off x xs : at_ bytes off (x :: xs) ↔ at_ bytes off [x] ∧ at_ bytes (off + 1) xs.
Proof. apply (at_app off [x] xs). Qed.

Lemma readByte_at off x : at_ bytes off [x] → readByte bytes off = Ok (x, off + 1).
Proof.
  intros (pre & post & -> & ->). unfold readByte, byte_at.
  destruct (Z.leb_spec (zlen (pre ++ [x] ++ post)) (zlen pre)); [zlen_lia|].
  cbn [app]. unfold zlen. rewrite Nat2Z.id, list_lookup_middle by done. done.
Qed.

Lemma readBytes_at off xs : at_ bytes off xs → readBytes bytes off (zlen xs) = Ok (xs, off + zlen xs).
Proof.
  intros (pre & post & -> & ->). unfold readBytes.
  destruct (Z.ltb_spec (zlen (pre ++ xs ++ post) - zlen pre) (zlen xs)); [zlen_lia|].
  do 2 f_equal. unfold subarray, zlen.
  rewrite Nat2Z.id, drop_app_length. apply take_app_length'. lia.
Qed.

Lemma readUint32_at off n :
  0 ≤ n ≤ MAX_UINT32 → at_ bytes off (be32_bytes n) → readUint32 bytes off = Ok (n, off + 4).
Proof.
  intros Hn Hat. unfold readUint32. change 4 with (zlen (be32_bytes n)) at 1.
  rewrite readBytes_at by done. cbn [mbind result_bind].
  change (_ + byte_at (be32_bytes n) 3) with (be32_value (be32_bytes n)).
  by rewrite be32_value_bytes.
Qed.

(** An initial byte and argument, given what reading the initial byte and
    then the argument does ([k]). *)
Lemma read_arg_at off major n :
  0 ≤ major < 8 → 0 ≤ n ≤ MAX_SAFE_INTEGER → at_ bytes off (enc_arg major n) →
  ∃ ai, 0 ≤ ai < 28 ∧ readByte bytes off = Ok (major * 32 + ai, off + 1)
    ∧ readArgument bytes (off + 1) ai = Ok (n, off + zlen (enc_arg major n)).
Proof.
  unfold enc_arg, MAX_SAFE_INTEGER. intros Hm Hn. unfold readArgument.
  destruct (Z.ltb_spec n 24).
  { intros Hat. exists n. rewrite (readByte_at _ _ Hat). split_and!; [lia..|done|].
    by rewrite (proj2 (Z.ltb_lt n 24)). }
  destruct (Z.leb_spec n 255).
  { intros [Ha1 Ha2]%at_cons. exists 24. rewrite (readByte_at _ _ Ha1). split_and!; [lia..|done|].
    cbn. rewrite (readByte_at _ _ Ha2). do 2 f_equal. rewrite !zlen_cons, zlen_nil. lia. }
  destruct (Z.leb_spec n 65535).
  { intros [Ha1 Ha2]%at_cons. exists 25. rewrite (readByte_at _ _ Ha1). split_and!; [lia..|done|].
    cbn [Z.ltb Z.eqb Z.compare Pos.compare Pos.compare_cont Pos.eqb].
    change 2 with (zlen [n / 256; n mod 256]) at 1. rewrite (readBytes_at _ _ Ha2).
    cbn [mbind result_bind]. unfold byte_at. cbn. do 2 f_equal; [Z.to_euclidean_division_equations; lia|].
    unfold zlen. cbn. lia. }
  destruct (Z.leb_spec n MAX_UINT32).
  { intros [Ha1 Ha2]%at_cons. exists 26. rewrite (readByte_at _ _ Ha1). split_and!; [lia..|done|].
    cbn [Z.ltb Z.eqb Z.compare Pos.compare Pos.compare_cont Pos.eqb].
    rewrite (readUint32_at _ n) by (done || lia). do 2 f_equal. unfold zlen. cbn. lia. }
  intros [Ha1 [Ha2 H3]%at_app]%at_cons. exists 27. rewrite (readByte_at _ _ Ha1). split_and!; [lia..|done|].
  cbn [Z.ltb Z.eqb Z.compare Pos.compare Pos.compare_cont Pos.eqb].
  unfold MAX_UINT32, UINT32_BASE in *.
  rewrite (readUint32_at _ (n / 4294967296)) by (try done; unfold MAX_UINT32; Z.to_euclidean_division_equations; lia).
  cbn [mbind result_bind]. change (off + 1 + zlen _) with (off + 1 + 4) in H3.
  rewrite (readUint32_at _ (n mod 4294967296)) by (try done; unfold MAX_UINT32; Z.to_euclidean_division_equations; lia).
  cbn [mbind result_bind].
  destruct (Z.ltb_spec 2097151 (n / 4294967296)); [Z.to_euclidean_division_equations; lia|].
  do 2 f_equal; [Z.to_euclidean_division_equations; lia|]. unfold zlen. cbn. lia.
Qed.
End Read.

Lemma initial_fields major ai :
  0 ≤ major < 8 → 0 ≤ ai < 32 →
  ushr (major * 32 + ai) 5 = major ∧ Z.land (major * 32 + ai) 31 = ai.
Proof.
  intros. split.
  - rewrite ushr_div by lia. change (2 ^ 5) with 32. Z.to_euclidean_division_equations; lia.
  - change 31 with (Z.ones 5). rewrite Z.land_ones by lia. change (2 ^ 5) with 32.
    Z.to_euclidean_division_equations; lia.
Qed.

Section Inverse.
Context (bytes : list Z) (o : ResolvedCborOptions) (Ho : options_ok o).

Lemma readLength_at off ai n limit off' :
  0 ≤ ai < 28 → n ≤ limit → readArgument bytes off ai = Ok (n, off') →
  readLength bytes off ai limit = Ok (n, off').
Proof.
  intros Hai Hn Hr. unfold readLength. replace (ai =? 31) with false by lia.
  rewrite Hr. cbn. by rewrite (proj2 (Z.ltb_ge _ _)).
Qed.

Lemma readItem_initial fuel depth off major ai :
  depth ≤ maxDepth o → 0 ≤ major < 8 → 0 ≤ ai < 32 →
  readByte bytes off = Ok (major * 32 + ai, off + 1) →
  readItem bytes o (S fuel) depth off
  = read_by_major bytes o (readItem bytes o fuel (depth + 1)) major ai (off + 1).
Proof.
  intros Hd Hm Hai Hb. cbn [readItem]. destruct (Z.ltb_spec (maxDepth o) depth); [lia|].
  rewrite Hb. cbn [mbind result_bind]. by destruct (initial_fields major ai) as [-> ->].
Qed.

(** An item whose head is [enc_arg major n], as far as its argument. *)
Lemma readItem_head fuel depth off major n :
  depth ≤ maxDepth o → 0 ≤ major < 8 → 0 ≤ n ≤ MAX_SAFE_INTEGER →
  at_ bytes off (enc_arg major n) →
  ∃ ai, 0 ≤ ai < 28
    ∧ readItem bytes o (S fuel) depth off
      = read_by_major bytes o (readItem bytes o fuel (depth + 1)) major ai (off + 1)
    ∧ readArgument bytes (off + 1) ai = Ok (n, off + zlen (enc_arg major n)).
Proof.
  intros Hd Hm Hn Hat. destruct (read_arg_at bytes off major n Hm Hn Hat) as (ai & Hai & Hb & Hr).
  exists ai. split_and!; [lia..| |done]. apply readItem_initial; (done || lia).
Qed.

Lemma readItem_text fuel depth off s :
  depth ≤ maxDepth o → key_ok o s → at_ bytes off (enc_text s) →
  readItem bytes o (S fuel) depth off = Ok (CStr s, off + zlen (enc_text s)).
Proof.
  intros Hd [[Hs Hwf] Hlen] [Ha Hb]%at_app.
  pose proof (zlen_nonneg (text_encode s)). destruct Ho as (Hmb & _).
  pose proof (small_is_safe (zlen (text_encode s)) ltac:(lia)) as Hsafe.
  destruct (readItem_head fuel depth off 3 _ Hd ltac:(lia) Hsafe Ha) as (ai & Hai & -> & Hr).
  unfold read_by_major. cbn [Z.eqb Pos.eqb].
  rewrite (readLength_at _ _ _ _ _ Hai Hlen Hr). cbn [mbind result_bind].
  rewrite (readBytes_at _ _ _ Hb). cbn [mbind result_bind].
  rewrite text_decode_encode, (proj2 (to_well_formed_id s Hs)) by done.
  unfold enc_text. rewrite zlen_app. do 2 f_equal. lia.
Qed.

Lemma readItem_float fuel depth off x :
  depth ≤ maxDepth o → num_ok x → num_valid x = true → at_ bytes off (251 :: float64_bytes x) →
  readItem bytes o (S fuel) depth off = Ok (CNum x, off + zlen (251 :: float64_bytes x)).
Proof.
  intros Hd Hx [Hf Hv]%andb_true_iff [Ha Hb]%at_cons.
  rewrite (readItem_initial _ _ _ 7 27) by (try lia; by apply readByte_at).
  unfold read_by_major, readSimple. cbn [Z.eqb Pos.eqb].
  change 8 with (zlen (float64_bytes x)) at 1. rewrite readBytes_at by done. cbn [mbind result_bind].
  rewrite float64_value_bytes, Hf by done. cbn [negb].
  unfold isInteger, isSafeInteger. rewrite zlen_cons, float64_bytes_length.
  replace (off + 1 + 8) with (off + (1 + 8)) by lia.
  destruct (int_value x) as [z|]; [rewrite Hv|]; done.
Qed.

Lemma readItem_num fuel depth off x :
  depth ≤ maxDepth o → num_ok x → num_valid x = true → at_ bytes off (enc_num x) →
  readItem bytes o (S fuel) depth off = Ok (CNum x, off + zlen (enc_num x)).
Proof.
  intros Hd Hx Hv. pose proof (readItem_float fuel depth off x Hd Hx Hv) as Hfloat.
  apply andb_true_iff in Hv as [_ Hv]. unfold enc_num.
  destruct (int_value x) as [z|] eqn:Ez; [|done].
  destruct (is_neg_zero x) eqn:Enz; [done|].
  pose proof (of_Z_int_value x z Hx Enz Ez Hv) as Hint. pose proof Hv as Hs. apply is_safe_spec in Hs.
  destruct (Z.leb_spec 0 z); intros Hat.
  - destruct (readItem_head fuel depth off 0 z Hd ltac:(lia) ltac:(lia) Hat) as (ai & Hai & -> & Hr).
    unfold read_by_major. cbn [Z.eqb]. rewrite Hr. cbn [mbind result_bind]. by rewrite Hint.
  - destruct (readItem_head fuel depth off 1 (-1 - z) Hd ltac:(lia) ltac:(lia) Hat) as (ai & Hai & -> & Hr).
    unfold read_by_major. cbn [Z.eqb Pos.eqb]. rewrite Hr. cbn [mbind result_bind].
    replace (-1 - (-1 - z)) with z by lia. by rewrite Hv, Hint.
Qed.

(** The loops, given what the recursive call does on each element. *)
Lemma read_items_at read cs off :
  Forall (λ c, ∀ off, at_ bytes off (enc c) → read off = Ok (c, off + zlen (enc c))) cs →
  at_ bytes off (concat (enc <$> cs)) →
  read_items read (length cs) off = Ok (cs, off + zlen (concat (enc <$> cs))).
Proof.
  intros Hall. revert off. induction Hall as [|c cs Hc _ IH]; intros off Hat.
  { cbn. by rewrite zlen_nil, Z.add_0_r. }
  change (concat (enc <$> (c :: cs))) with (enc c ++ concat (enc <$> cs)) in *.
  apply at_app in Hat as [Ha Hb]. cbn [read_items length]. rewrite (Hc _ Ha). cbn [mbind result_bind].
  rewrite (IH _ Hb). cbn [mbind result_bind]. rewrite zlen_app. do 2 f_equal. lia.
Qed.

Lemma read_entries_at read kcs keys off :
  Forall (λ kc, (∀ off, at_ bytes off (enc_text kc.1) → read off = Ok (CStr kc.1, off + zlen (enc_text kc.1)))
                ∧ ∀ off, at_ bytes off (enc kc.2) → read off = Ok (kc.2, off + zlen (enc kc.2))) kcs →
  NoDup kcs.*1 → (∀ k, k ∈ kcs.*1 → k ∉ keys) →
  at_ bytes off (concat (enc_entry <$> kcs)) →
  read_entries read (length kcs) keys off = Ok (kcs, off + zlen (concat (enc_entry <$> kcs))).
Proof.
  intros Hall. revert keys off. induction Hall as [|[k c] kcs [Hk Hc] _ IH]; intros keys off Hnd Hkeys Hat.
  { cbn. by rewrite zlen_nil, Z.add_0_r. }
  change (concat (enc_entry <$> ((k, c) :: kcs)))
    with ((enc_text k ++ enc c) ++ concat (enc_entry <$> kcs)) in *.
  apply NoDup_cons in Hnd as [Hnin Hnd]. cbn in Hk, Hc.
  apply at_app in Hat as [[Ha Hb]%at_app Hd]. cbn [read_entries length].
  rewrite (Hk _ Ha). cbn [mbind result_bind].
  rewrite bool_decide_eq_false_2 by (apply Hkeys; left).
  rewrite (Hc _ Hb). cbn [mbind result_bind]. rewrite zlen_app, Z.add_assoc in Hd.
  rewrite (IH _ _ Hnd) with (2 := Hd).
  - cbn [mbind result_bind]. rewrite !zlen_app. do 2 f_equal. lia.
  - intros k' Hin [->|Hin']%elem_of_cons; [done|]. eapply Hkeys; [by right|done].
Qed.

Lemma readItem_enc c fuel depth off :
  cval_ok o depth c → maxDepth o + 1 ≤ depth + Z.of_nat fuel → at_ bytes off (enc c) →
  readItem bytes o fuel depth off = Ok (c, off + zlen (enc c)).
Proof.
  revert fuel depth off. induction c as [|b|x|s|bs|items IH|entries IH] using cval_ind';
    intros fuel depth off Hc Hfuel Hat; pose proof (cval_ok_depth _ _ _ Hc) as Hd;
    (destruct fuel as [|fuel]; [lia|]).
  - rewrite (readItem_initial _ _ _ 7 22) by (try lia; by apply readByte_at). done.
  - destruct b.
    + rewrite (readItem_initial _ _ _ 7 21) by (try lia; by apply readByte_at). done.
    + rewrite (readItem_initial _ _ _ 7 20) by (try lia; by apply readByte_at). done.
  - destruct Hc as (_ & ? & ?). by apply readItem_num.
  - destruct Hc as (_ & ? & ?). by apply readItem_text.
  - destruct Hc as (_ & Hb & Hlen). apply at_app in Hat as [Ha Hbs].
    pose proof (zlen_nonneg bs). destruct Ho as (Hmb & _).
    pose proof (small_is_safe (zlen bs) ltac:(lia)) as Hsafe.
    destruct (readItem_head fuel depth off 2 _ Hd ltac:(lia) Hsafe Ha) as (ai & Hai & -> & Hr).
    unfold read_by_major. cbn [Z.eqb Pos.eqb enc].
    rewrite (readLength_at _ _ _ _ _ Hai Hlen Hr). cbn [mbind result_bind].
    rewrite (readBytes_at _ _ _ Hbs). cbn [mbind result_bind]. rewrite zlen_app. do 2 f_equal. lia.
  - apply cval_ok_array in Hc as (_ & Hlen & Hall). apply at_app in Hat as [Ha Hb].
    pose proof (zlen_nonneg items). destruct Ho as (_ & Hmc & _).
    pose proof (small_is_safe (zlen items) ltac:(lia)) as Hsafe.
    destruct (readItem_head fuel depth off 4 _ Hd ltac:(lia) Hsafe Ha) as (ai & Hai & -> & Hr).
    unfold read_by_major. cbn [Z.eqb Pos.eqb enc].
    rewrite (readLength_at _ _ _ _ _ Hai Hlen Hr). cbn [mbind result_bind].
    replace (Z.to_nat (zlen items)) with (length items) by (unfold zlen; lia).
    rewrite (read_items_at _ items); [| |done].
    + cbn [mbind result_bind]. rewrite zlen_app. do 2 f_equal. lia.
    + rewrite Forall_forall in *. intros c Hin off' Hat'. apply IH; [done|auto|lia|done].
  - apply cval_ok_map in Hc as (_ & Hlen & Hnd & Hall). rewrite enc_map in Hat |- *.
    apply at_app in Hat as [Ha Hb].
    pose proof (zlen_nonneg entries). pose proof Ho as (_ & Hmc & _).
    pose proof (small_is_safe (zlen entries) ltac:(lia)) as Hsafe.
    destruct (readItem_head fuel depth off 5 _ Hd ltac:(lia) Hsafe Ha) as (ai & Hai & -> & Hr).
    unfold read_by_major. cbn [Z.eqb Pos.eqb enc].
    rewrite (readLength_at _ _ _ _ _ Hai Hlen Hr). cbn [mbind result_bind].
    replace (Z.to_nat (zlen entries)) with (length entries) by (unfold zlen; lia).
    rewrite (read_entries_at _ entries); [| |done|by intros ?? []%not_elem_of_nil|done].
    + cbn [mbind result_bind]. rewrite zlen_app. do 2 f_equal. lia.
    + rewrite Forall_forall in *. intros kc Hin. destruct (Hall _ Hin) as [Hk Hok].
      pose proof (cval_ok_depth _ _ _ Hok). split; intros off' Hat'.
      * destruct fuel as [|fuel]; [lia|]. apply readItem_text; (done || lia).
      * apply IH; [done|done|lia|done].
Qed.
End Inverse.

(** ** What is accepted is within the limits, and re-encodes no longer *)

Section Sound.
Context (bytes : list Z) (o : ResolvedCborOptions) (Ho : options_ok o) (Hbytes : bytes_ok bytes).

Lemma enc_arg_short m k : zlen (enc_arg m k) ≤ 9.
Proof. unfold enc_arg. repeat case_match; unfold zlen; cbn; lia. Qed.

Lemma byte_at_ok bs i : bytes_ok bs → is_byte (byte_at bs i).
Proof.
  intros Hb. unfold byte_at. destruct (bs !! i) eqn:E; cbn; [|unfold is_byte; lia].
  by eapply (Forall_lookup_1 _ _ _ _ Hb).
Qed.

Lemma readByte_Ok off v off' :
  readByte bytes off = Ok (v, off') → is_byte v ∧ off' = off + 1 ∧ off' ≤ zlen bytes.
Proof.
  unfold readByte. destruct (Z.leb_spec (zlen bytes) off); [done|]. intros [= <- <-].
  split_and!; [by apply byte_at_ok|done|lia].
Qed.

Lemma readBytes_Ok off n b off' :
  0 ≤ off → 0 ≤ n → readBytes bytes off n = Ok (b, off') →
  bytes_ok b ∧ zlen b = n ∧ off' = off + n ∧ off' ≤ zlen bytes.
Proof.
  unfold readBytes. intros ??. destruct (Z.ltb_spec (zlen bytes - off) n); [done|]. intros [= <- <-].
  rewrite subarray_length by lia. split_and!; [by apply Forall_subarray|lia..].
Qed.

Lemma readUint32_Ok off n off' :
  0 ≤ off → readUint32 bytes off = Ok (n, off') →
  0 ≤ n ≤ MAX_UINT32 ∧ off' = off + 4 ∧ off' ≤ zlen bytes.
Proof.
  unfold readUint32. intros Hoff H. apply bind_Ok in H as ([b off1] & Hb & [= <- <-]).
  apply readBytes_Ok in Hb as (Hb & _ & -> & ?); [|lia..].
  pose proof (be32_value_range b Hb) as Hr. unfold be32_value in Hr. split_and!; (done || lia).
Qed.

Lemma readArgument_Ok off ai n off' :
  0 ≤ off ≤ zlen bytes → 0 ≤ ai → readArgument bytes off ai = Ok (n, off') →
  0 ≤ n ≤ MAX_SAFE_INTEGER ∧ off ≤ off' ≤ zlen bytes
  ∧ ∀ major, zlen (enc_arg major n) ≤ 1 + (off' - off).
Proof.
  intros Hoff Hai. unfold readArgument, MAX_SAFE_INTEGER.
  assert (Henc : ∀ major, n ≤ MAX_UINT32 → zlen (enc_arg major n) ≤ 5 ∧
    (n ≤ 65535 → zlen (enc_arg major n) ≤ 3) ∧ (n ≤ 255 → zlen (enc_arg major n) ≤ 2)).
  { intros major Hn. unfold enc_arg. repeat case_match; unfold zlen; cbn; lia. }
  unfold MAX_UINT32 in Henc.
  destruct (Z.ltb_spec ai 24).
  { intros [= <- <-]. split_and!; [lia..|]. intros major. unfold enc_arg.
    rewrite (proj2 (Z.ltb_lt ai 24)) by done. unfold zlen. cbn. lia. }
  destruct (ai =? 24).
  { intros (Hb & -> & ?)%readByte_Ok. unfold is_byte in Hb. split_and!; [lia..|].
    intros major. destruct (Henc major); lia. }
  destruct (ai =? 25).
  { intros ([b off1] & Hb & [= <- <-])%bind_Ok.
    apply readBytes_Ok in Hb as (Hb & _ & -> & ?); [|lia..].
    pose proof (byte_at_ok b 0 Hb). pose proof (byte_at_ok b 1 Hb). unfold is_byte in *.
    split_and!; [lia..|]. intros major. destruct (Henc major); lia. }
  destruct (ai =? 26).
  { intros (Hn & -> & ?)%readUint32_Ok; [|lia]. unfold MAX_UINT32 in Hn.
    split_and!; [lia..|]. intros major. destruct (Henc major); lia. }
  destruct (ai =? 27); [|by destruct (ai =? 31)].
  intros ([high off1] & Hh & H1)%bind_Ok. apply bind_Ok in H1 as ([low off2] & Hl & H1).
  apply readUint32_Ok in Hh as (? & -> & ?); [|lia]. apply readUint32_Ok in Hl as (? & -> & ?); [|lia].
  destruct (Z.ltb_spec 2097151 high); [done|]. injection H1 as <- <-.
  unfold MAX_UINT32, UINT32_BASE in *. split_and!; [lia..|]. intros major.
  pose proof (enc_arg_short major (high * 4294967296 + low)). lia.
Qed.

Lemma readLength_Ok off ai limit n off' :
  0 ≤ off ≤ zlen bytes → 0 ≤ ai → readLength bytes off ai limit = Ok (n, off') →
  0 ≤ n ≤ limit ∧ off ≤ off' ≤ zlen bytes ∧ ∀ major, zlen (enc_arg major n) ≤ 1 + (off' - off).
Proof.
  unfold readLength. intros Hoff Hai. destruct (ai =? 31); [done|].
  intros ([n1 off1] & Hn & H)%bind_Ok. apply readArgument_Ok in Hn as (? & ? & ?); [|done..].
  destruct (Z.ltb_spec limit n1); [done|]. injection H as <- <-. split_and!; (done || lia).
Qed.

(** [c], read between the two offsets, is fit for depth [d]. *)
Definition read_ok (d off : Z) (c : cval) (off' : Z) : Prop :=
  cval_ok o d c ∧ off + zlen (enc c) ≤ off' ≤ zlen bytes.

Definition reads_soundly (d : Z) (read : Z → result cbor_error (cval * Z)) : Prop :=
  ∀ off c off', 0 ≤ off ≤ zlen bytes → read off = Ok (c, off') → read_ok d off c off'.

Lemma read_items_Ok d read n off cs off' :
  reads_soundly d read → 0 ≤ off ≤ zlen bytes → read_items read n off = Ok (cs, off') →
  length cs = n ∧ Forall (cval_ok o d) cs ∧ off + zlen (concat (enc <$> cs)) ≤ off' ≤ zlen bytes.
Proof.
  intros Hread. revert off cs off'. induction n as [|n IH]; intros off cs off' Hoff; cbn [read_items].
  { intros [= <- <-]. split_and!; [done|constructor|cbn; rewrite zlen_nil; lia|lia]. }
  intros ([c off1] & Hc & H)%bind_Ok. apply bind_Ok in H as ([cs' off2] & Hcs & [= <- <-]).
  destruct (Hread _ _ _ Hoff Hc) as (Hok & Hlen). pose proof (zlen_nonneg (enc c)).
  destruct (IH off1 cs' off2 ltac:(lia) Hcs) as (Hl & Hall & Hlen').
  split_and!; [cbn; by rewrite Hl|by constructor| |lia].
  change (concat (enc <$> (c :: cs'))) with (enc c ++ concat (enc <$> cs')). rewrite zlen_app. lia.
Qed.

Lemma read_entries_Ok d read n keys off kcs off' :
  reads_soundly d read → 0 ≤ off ≤ zlen bytes → read_entries read n keys off = Ok (kcs, off') →
  length kcs = n ∧ NoDup kcs.*1 ∧ (∀ k, k ∈ kcs.*1 → k ∉ keys)
  ∧ Forall (λ kc, key_ok o kc.1 ∧ cval_ok o d kc.2) kcs
  ∧ off + zlen (concat (enc_entry <$> kcs)) ≤ off' ≤ zlen bytes.
Proof.
  intros Hread. revert keys off kcs off'.
  induction n as [|n IH]; intros keys off kcs off' Hoff; cbn [read_entries].
  { intros [= <- <-]. split_and!; [done|constructor|by intros ? []%not_elem_of_nil|constructor| |lia].
    cbn; rewrite zlen_nil; lia. }
  intros ([key off1] & Hk & H)%bind_Ok.
  destruct (Hread _ _ _ Hoff Hk) as (Hkok & Hklen). pose proof (zlen_nonneg (enc key)).
  destruct key as [| | |k| | |]; try done. destruct Hkok as (_ & Hkt & Hkl).
  case_bool_decide as Hin; [done|].
  apply bind_Ok in H as ([c off2] & Hc & H). apply bind_Ok in H as ([kcs' off3] & Hkcs & [= <- <-]).
  destruct (Hread off1 c off2 ltac:(lia) Hc) as (Hok & Hlen). pose proof (zlen_nonneg (enc c)).
  destruct (IH (k :: keys) off2 kcs' off3 ltac:(lia) Hkcs) as (Hl & Hnd & Hdisj & Hall & Hlen').
  split_and!; [cbn; by rewrite Hl| | |constructor; [by split|done]| |lia].
  - cbn. apply NoDup_cons. split; [|done]. intros Hk'. apply (Hdisj k Hk'). by left.
  - intros k' [->|Hk']%elem_of_cons; [done|]. intros Hk''. apply (Hdisj k' Hk'). by right.
  - change (concat (enc_entry <$> ((k, c) :: kcs')))
      with ((enc_text k ++ enc c) ++ concat (enc_entry <$> kcs')).
    change (zlen (enc (CStr k))) with (zlen (enc_text k)) in Hklen. rewrite !zlen_app. lia.
Qed.

Lemma num_ok_float b : bytes_ok b → num_ok (float64_value b).
Proof.
  intros Hb. unfold float64_value, num_ok, two64.
  pose proof (be32_value_range (take 4 b) ltac:(by apply Forall_take)).
  pose proof (be32_value_range (drop 4 b) ltac:(by apply Forall_drop)).
  unfold MAX_UINT32, UINT32_BASE in *. lia.
Qed.

Lemma enc_num_short x : zlen (enc_num x) ≤ 9.
Proof.
  unfold enc_num. repeat case_match; rewrite ?zlen_cons, ?float64_bytes_length;
    try apply enc_arg_short; lia.
Qed.

Lemma of_Z_num_ok z : is_safe z = true → num_ok (of_Z z) ∧ num_valid (of_Z z) = true
  ∧ enc_num (of_Z z) = if 0 <=? z then enc_arg 0 z else enc_arg 1 (-1 - z).
Proof.
  intros Hs. pose proof (int_value_of_Z z Hs) as Hv.
  split_and!; [by apply of_Z_ok| |].
  - unfold num_valid. by rewrite (int_value_finite _ _ Hv), Hv.
  - unfold enc_num. by rewrite Hv, of_Z_not_neg_zero.
Qed.

Lemma readSimple_Ok d off ai c off' :
  d ≤ maxDepth o → 0 ≤ off ≤ zlen bytes → readSimple bytes off ai = Ok (c, off') →
  cval_ok o d c ∧ off + zlen (enc c) ≤ 1 + off' ∧ off' ≤ zlen bytes.
Proof.
  unfold readSimple. intros Hd Hoff.
  destruct (ai =? 20). { intros [= <- <-]. repeat split; [done|unfold zlen; cbn; lia|lia]. }
  destruct (ai =? 21). { intros [= <- <-]. repeat split; [done|unfold zlen; cbn; lia|lia]. }
  destruct (ai =? 22). { intros [= <- <-]. repeat split; [done|unfold zlen; cbn; lia|lia]. }
  destruct (ai =? 27); [|by destruct (ai =? 31)].
  intros ([b off1] & Hb & H)%bind_Ok. apply readBytes_Ok in Hb as (Hb & _ & -> & ?); [|lia..].
  destruct (isFinite (float64_value b)) eqn:Hf; [|done]. cbn [negb] in H.
  destruct (isInteger _ && _) eqn:Hi; [done|]. injection H as <- <-.
  pose proof (enc_num_short (float64_value b)).
  split_and!; [|cbn [enc]; lia|lia]. split; [done|]. split; [by apply num_ok_float|].
  unfold num_valid. rewrite Hf. cbn. unfold isInteger, isSafeInteger in Hi.
  destruct (int_value _) as [z|]; [|done]. cbn in Hi. by destruct (is_safe z).
Qed.

Lemma readItem_Ok fuel depth : reads_soundly depth (readItem bytes o fuel depth).
Proof.
  revert depth. induction fuel as [|fuel IH]; intros depth off c off' Hoff; cbn [readItem];
    (destruct (Z.ltb_spec (maxDepth o) depth) as [|Hd]; [done|]); [done|].
  intros ([initial off1] & Hi & H)%bind_Ok. apply readByte_Ok in Hi as (Hbyte & -> & Hlen).
  specialize (IH (depth + 1)). set (ai := Z.land initial 31) in H.
  assert (0 ≤ ai) as Hai by (apply Z.land_nonneg; right; done). clearbody ai.
  assert (0 ≤ off + 1 ≤ zlen bytes) as Hoff1 by lia.
  unfold read_by_major in H. unfold read_ok.
  destruct (ushr initial 5 =? 0).
  { apply bind_Ok in H as ([n off2] & Hn & [= <- <-]).
    apply readArgument_Ok in Hn as (Hr & ? & He); [|done..].
    destruct (of_Z_num_ok n) as (? & ? & Henc); [apply is_safe_spec; lia|].
    rewrite (proj2 (Z.leb_le 0 n)) in Henc by lia.
    split; [done|]. cbn [enc]. rewrite Henc. specialize (He 0). lia. }
  destruct (ushr initial 5 =? 1).
  { apply bind_Ok in H as ([n off2] & Hn & H). destruct (is_safe (-1 - n)) eqn:Hs; [|done].
    injection H as <- <-. apply readArgument_Ok in Hn as (Hr & ? & He); [|done..].
    destruct (of_Z_num_ok (-1 - n) Hs) as (? & ? & Henc).
    rewrite (proj2 (Z.leb_gt 0 (-1 - n))) in Henc by lia.
    split; [done|]. cbn [enc]. rewrite Henc. replace (-1 - (-1 - n)) with n by lia.
    specialize (He 1). lia. }
  destruct (ushr initial 5 =? 2).
  { apply bind_Ok in H as ([n off2] & Hn & H). apply bind_Ok in H as ([b off3] & Hb & [= <- <-]).
    apply readLength_Ok in Hn as (Hr & ? & He); [|done..].
    apply readBytes_Ok in Hb as (? & Hl & -> & ?); [|lia..].
    split; [split_and!; (done || lia)|]. cbn [enc]. rewrite zlen_app, Hl. specialize (He 2). lia. }
  destruct (ushr initial 5 =? 3).
  { apply bind_Ok in H as ([n off2] & Hn & H). apply bind_Ok in H as ([b off3] & Hb & H).
    apply readLength_Ok in Hn as (Hr & ? & He); [|done..].
    apply readBytes_Ok in Hb as (Hbb & Hl & -> & ?); [|lia..].
    destruct (text_decode b) as [s|] eqn:Ed; [|done]. injection H as <- <-.
    apply text_decode_inv in Ed as (? & ? & Eb); [|done].
    split; [split_and!; [done..|rewrite Eb; lia]|].
    cbn [enc]. unfold enc_text. rewrite zlen_app, Eb, Hl. specialize (He 3). lia. }
  destruct (ushr initial 5 =? 4).
  { apply bind_Ok in H as ([n off2] & Hn & H). apply bind_Ok in H as ([cs off3] & Hcs & [= <- <-]).
    apply readLength_Ok in Hn as (Hr & ? & He); [|done..].
    apply (read_items_Ok (depth + 1)) in Hcs as (Hl & Hall & ?); [|done|lia].
    assert (zlen cs = n) as Hz by (unfold zlen; lia).
    split; [apply cval_ok_array; split_and!; (done || lia)|].
    rewrite enc_array, zlen_app, Hz. specialize (He 4). lia. }
  destruct (ushr initial 5 =? 5).
  { apply bind_Ok in H as ([n off2] & Hn & H). apply bind_Ok in H as ([kcs off3] & Hcs & [= <- <-]).
    apply readLength_Ok in Hn as (Hr & ? & He); [|done..].
    apply (read_entries_Ok (depth + 1)) in Hcs as (Hl & Hnd & _ & Hall & ?); [|done|lia].
    assert (zlen kcs = n) as Hz by (unfold zlen; lia).
    split; [apply cval_ok_map; split_and!; (done || lia)|].
    rewrite enc_map, zlen_app, Hz. specialize (He 5). lia. }
  destruct (ushr initial 5 =? 6); [done|]. destruct (ushr initial 5 =? 7); [|done].
  apply (readSimple_Ok depth) in H as (? & ? & ?); [|done..]. split; [done|lia].
Qed.
End Sound.
