(* ===== verification/Cbor.v ===== *)
(** * CBOR: what the encoder and the decoder guarantee together

    The properties of [packages/protocol/src/cbor]: acceptance, round trip,
    soundness of decoding and termination. *)

From S2P Require Import Prelude JsNumber JsString CborValue CborEncoder CborDecoder.

Lemma at_whole bs : at_ bs 0 bs.
Proof. exists [], []. by rewrite app_nil_r. Qed.

(** Decoding the reference encoding of a tree within the limits. *)
Lemma decodeCbor_enc c options o :
  resolveOptions options = Ok o → cval_ok o 0 c → zlen (enc c) ≤ maxByteLength o →
  decodeCbor (enc c) options = Ok c.
Proof.
  intros Hopt Hc Hlen. unfold decodeCbor. rewrite Hopt. cbn [mbind result_bind].
  rewrite (proj2 (Z.ltb_ge _ _)) by done. unfold decode.
  rewrite (readItem_enc (enc c) o (resolveOptions_ok _ _ Hopt) c) by
    (done || apply at_whole || unfold encode_fuel;
     destruct (resolveOptions_ok _ _ Hopt) as (_ & _ & ?); lia).
  cbn. by rewrite Z.eqb_refl.
Qed.

Lemma decodeCbor_Ok bs options c :
  bytes_ok bs → decodeCbor bs options = Ok c →
  ∃ o, resolveOptions options = Ok o ∧ cval_ok o 0 c ∧ zlen (enc c) ≤ zlen bs ≤ maxByteLength o.
Proof.
  intros Hb. unfold decodeCbor. intros (o & Hopt & H)%bind_Ok. exists o.
  pose proof (resolveOptions_ok _ _ Hopt) as Ho.
  destruct (Z.ltb_spec (maxByteLength o) (zlen bs)); [done|].
  apply bind_Ok in H as ([v off] & Hr & H). destruct (Z.eqb_spec off (zlen bs)); [|done].
  injection H as ->. pose proof (zlen_nonneg bs).
  destruct (readItem_Ok bs o Hb (encode_fuel o) 0 0 c off ltac:(lia) Hr) as [? ?]. split_and!; (done || lia).
Qed.

(** ** Fuel *)

(** A computation that throws only what the source throws. *)
Definition fueled {A} (r : result cbor_error A) : Prop := r ≠ Err OutOfFuel.

Lemma fueled_bind {A B} (m : result cbor_error A) (f : A → result cbor_error B) :
  fueled m → (∀ a, m = Ok a → fueled (f a)) → fueled (m ≫= f).
Proof. unfold fueled. intros Hm Hf [?|(a & ? & ?)]%bind_Err; [done|by eapply Hf]. Qed.

Lemma ensureCapacity_fuel w n : fueled (ensureCapacity w n).
Proof. unfold ensureCapacity. repeat case_match; done. Qed.

Create HintDb fuel.
#[local] Hint Resolve ensureCapacity_fuel fueled_bind : fuel.
#[local] Hint Extern 1 (fueled (Ok _)) => done : fuel.
#[local] Hint Extern 1 (fueled (Err _)) => done : fuel.

Lemma writeByte_fuel w v : fueled (writeByte w v).
Proof. unfold writeByte. auto with fuel. Qed.
Lemma writeBytes_fuel w v : fueled (writeBytes w v).
Proof. unfold writeBytes. auto with fuel. Qed.
Lemma writeUint16_fuel w v : fueled (writeUint16 w v).
Proof. unfold writeUint16. auto with fuel. Qed.
Lemma writeUint32_fuel w v : fueled (writeUint32 w v).
Proof. unfold writeUint32. auto with fuel. Qed.
Lemma writeFloat64_fuel w v : fueled (writeFloat64 w v).
Proof. unfold writeFloat64. auto with fuel. Qed.
#[local] Hint Resolve writeByte_fuel writeBytes_fuel writeUint16_fuel writeUint32_fuel writeFloat64_fuel : fuel.

Lemma writeArgument_fuel w m v : fueled (writeArgument w m v).
Proof. unfold writeArgument, writeUint64. repeat case_match; auto 6 with fuel. Qed.
#[local] Hint Resolve writeArgument_fuel : fuel.

Lemma encodeText_fuel w s o : fueled (encodeText w s o).
Proof. unfold encodeText. repeat case_match; auto with fuel. Qed.
Lemma encodeNumber_fuel w x : fueled (encodeNumber w x).
Proof. unfold encodeNumber. repeat case_match; auto with fuel. Qed.
#[local] Hint Resolve encodeText_fuel encodeNumber_fuel : fuel.

Lemma encodeValue_fuel fuel h o depth anc w v :
  maxDepth o + 1 ≤ depth + Z.of_nat fuel → fueled (encodeValue fuel h o depth anc w v).
Proof.
  revert depth anc w v. induction fuel as [|fuel IH]; intros depth anc w v Hf; cbn [encodeValue];
    (destruct (Z.ltb_spec (maxDepth o) depth); [done|]); [lia|].
  assert (Hrec : ∀ anc' w' v', fueled (encodeValue fuel h o (depth + 1) anc' w' v')) by (intros; apply IH; lia).
  destruct v; auto with fuel. destruct (obj_at h a) as [bs|elems|np props sym|]; auto with fuel.
  - case_match; auto with fuel.
  - do 2 (case_match; auto with fuel). apply fueled_bind; [auto with fuel|]. intros w' _. clear -Hrec.
    revert w'. induction elems as [|[e|] elems IHe]; intros w'; cbn; auto with fuel.
    destruct e; auto with fuel.
  - do 3 (case_match; auto with fuel). apply fueled_bind; [auto with fuel|]. intros w' _. clear -Hrec.
    revert w'. induction (defined_entries props) as [|[k e] l IHe]; intros w'; cbn; auto with fuel.
Qed.

Lemma readBytes_fuel bs off n : fueled (readBytes bs off n).
Proof. unfold readBytes. case_match; auto with fuel. Qed.
Lemma readByte_fuel bs off : fueled (readByte bs off).
Proof. unfold readByte. case_match; auto with fuel. Qed.
#[local] Hint Resolve readBytes_fuel readByte_fuel : fuel.

Lemma readUint32_fuel bs off : fueled (readUint32 bs off).
Proof. unfold readUint32. apply fueled_bind; [auto with fuel|]. by intros []. Qed.
#[local] Hint Resolve readUint32_fuel : fuel.

(** Resolves a bind whose continuation takes a pair. *)
Ltac fuel_pair := apply fueled_bind; [auto with fuel|intros [] _].

Lemma readArgument_fuel bs off ai : fueled (readArgument bs off ai).
Proof.
  unfold readArgument. repeat (case_match; auto with fuel); fuel_pair; auto with fuel.
  fuel_pair. case_match; auto with fuel.
Qed.
#[local] Hint Resolve readArgument_fuel : fuel.

Lemma readLength_fuel bs off ai l : fueled (readLength bs off ai l).
Proof. unfold readLength. case_match; auto with fuel. fuel_pair. case_match; auto with fuel. Qed.
#[local] Hint Resolve readLength_fuel : fuel.

Lemma readItem_fuel bs o fuel depth off :
  maxDepth o + 1 ≤ depth + Z.of_nat fuel → fueled (readItem bs o fuel depth off).
Proof.
  revert depth off. induction fuel as [|fuel IH]; intros depth off Hf; cbn [readItem];
    (destruct (Z.ltb_spec (maxDepth o) depth); [done|]); [lia|].
  assert (Hrec : ∀ off', fueled (readItem bs o fuel (depth + 1) off')) by (intros; apply IH; lia).
  set (read := readItem bs o fuel (depth + 1)) in *. clearbody read.
  fuel_pair. unfold read_by_major. repeat (case_match; auto with fuel).
  - fuel_pair; auto with fuel.
  - fuel_pair. case_match; auto with fuel.
  - fuel_pair. fuel_pair. auto with fuel.
  - fuel_pair. fuel_pair. case_match; auto with fuel.
  - fuel_pair. apply fueled_bind; [|intros [] _; auto with fuel]. generalize (Z.to_nat z1).
    intros n. revert z2. induction n as [|n IHn]; intros off'; cbn [read_items]; auto with fuel.
    fuel_pair. apply fueled_bind; [auto|intros [] _; auto with fuel].
  - fuel_pair. apply fueled_bind; [|intros [] _; auto with fuel]. generalize (Z.to_nat z1).
    intros n. generalize (@nil jsstring). revert z2.
    induction n as [|n IHn]; intros off' keys; cbn [read_entries]; auto with fuel.
    fuel_pair. destruct c; auto with fuel. case_match; auto with fuel.
    fuel_pair. apply fueled_bind; [auto|intros [] _; auto with fuel].
  - unfold readSimple. repeat (case_match; auto with fuel). fuel_pair. repeat (case_match; auto with fuel).
Qed.

(** ** Properties *)

(** C5: the encoder accepts a JavaScript value exactly when it denotes a finite
    tree (so never a cycle, a hole or an unsupported value) that is within the
    depth, container and string limits, with well-formed strings and finite
    numbers whose integers are safe, and whose encoding fits the byte limit;
    what it returns is then the shortest-form encoding of that tree. *)
Theorem encodeCbor_accepts h v options o bs :
  heap_ok h → val_ok v → resolveOptions options = Ok o →
  encodeCbor h v options = Ok bs ↔
  ∃ c n, reify n h v = Some c ∧ cval_ok o 0 c ∧ bs = enc c ∧ zlen (enc c) ≤ maxByteLength o.
Proof. apply encodeCbor_spec. Qed.

(** A heap with a shared array: [{a: x, b: [x, x, undefined-free]}]. *)
Definition demo_heap : heap :=
  {[ 0%nat := OPlain false [([97], JRef 1); ([98], JNum (of_Z (-300))); ([99], JUndefined)] false;
     1%nat := OArray [Some (JRef 2); Some (JRef 2); Some (JStr [104; 105])];
     2%nat := OBytes [1; 2; 3] ]}.

Lemma demo_heap_ok : heap_ok demo_heap.
Proof.
  intros a. unfold obj_at, demo_heap.
  destruct (decide (a = 0%nat)) as [->|]; [|destruct (decide (a = 1%nat)) as [->|];
    [|destruct (decide (a = 2%nat)) as [->|]]].
  4: rewrite !lookup_insert_ne, lookup_singleton_ne by done; exact I.
  - change (obj_ok (OPlain false [([97], JRef 1); ([98], JNum (of_Z (-300))); ([99], JUndefined)] false)).
    assert (∀ c, 0 ≤ c < 65536 → string_ok [c]) as Hs by (intros; by apply Forall_singleton).
    split; [by apply (bool_decide_unpack _)|].
    repeat apply Forall_cons_2; [..|by apply Forall_nil_2]; split; try (by apply Hs); try exact I.
    by apply of_Z_ok.
  - change (obj_ok (OArray [Some (JRef 2); Some (JRef 2); Some (JStr [104; 105])])).
    repeat apply Forall_cons_2; try exact I; try (by apply Forall_nil_2); done.
  - change (obj_ok (OBytes [1; 2; 3])).
    do 2 (apply Forall_cons_2; [done|]). by apply Forall_singleton.
Defined.

Definition demo_tree : cval :=
  CMap [([97], CArray [CBytes [1; 2; 3]; CBytes [1; 2; 3]; CStr [104; 105]]); ([98], CNum (of_Z (-300)))].
Definition demo_bytes : list Z :=
  [162; 97; 97; 131; 67; 1; 2; 3; 67; 1; 2; 3; 98; 104; 105; 97; 98; 57; 1; 43].

Lemma encodeCbor_accepts_witness :
  ∃ c n, reify n demo_heap (JRef 0) = Some c
    ∧ cval_ok (MkResolved 16777216 1000000 64) 0 c ∧ demo_bytes = enc c ∧ zlen (enc c) ≤ 16777216.
Proof.
  apply (encodeCbor_accepts demo_heap (JRef 0) None (MkResolved 16777216 1000000 64) demo_bytes).
  - exact demo_heap_ok.
  - exact I.
  - vm_compute. reflexivity.
  - vm_compute. reflexivity.
Defined.

(** C6: decoding what was encoded, under the same options, returns the tree the
    encoded value denotes. *)
Theorem cbor_roundtrip h v options bs :
  heap_ok h → val_ok v → encodeCbor h v options = Ok bs →
  ∃ c n, reify n h v = Some c ∧ decodeCbor bs options = Ok c.
Proof.
  intros Hh Hv He. destruct (resolveOptions options) as [o|e] eqn:Hopt.
  2: { unfold encodeCbor in He. by rewrite Hopt in He. }
  destruct (proj1 (encodeCbor_spec h v options o bs Hh Hv Hopt) He) as (c & n & Hr & Hc & -> & Hlen).
  exists c, n. split; [done|]. by apply (decodeCbor_enc c options o).
Qed.

Lemma cbor_roundtrip_witness :
  ∃ c n, reify n demo_heap (JRef 0) = Some c ∧ decodeCbor demo_bytes None = Ok c.
Proof.
  apply (cbor_roundtrip demo_heap (JRef 0) None demo_bytes).
  - exact demo_heap_ok.
  - exact I.
  - vm_compute. reflexivity.
Defined.

(** C7: whatever untrusted bytes the decoder accepts, the tree it returns is
    within the configured limits, has distinct map keys, and can be encoded
    again: its shortest form is no longer than the input and decodes to it. *)
Theorem decodeCbor_sound bs options c :
  bytes_ok bs → decodeCbor bs options = Ok c →
  ∃ o, resolveOptions options = Ok o ∧ cval_ok o 0 c ∧ zlen (enc c) ≤ zlen bs
    ∧ decodeCbor (enc c) options = Ok c
    ∧ ∀ h v n, heap_ok h → val_ok v → reify n h v = Some c → encodeCbor h v options = Ok (enc c).
Proof.
  intros Hb Hd. destruct (decodeCbor_Ok bs options c Hb Hd) as (o & Hopt & Hc & Hlen).
  exists o. split_and!; [done|done|lia|by apply (decodeCbor_enc c options o); [|done|lia]|].
  intros h v n Hh Hv Hr. apply (encodeCbor_spec h v options o); [done..|].
  exists c, n. split_and!; (done || lia).
Qed.

(** The non-minimal encoding [0x18 0x05] of five is accepted. *)
Lemma decodeCbor_sound_witness :
  ∃ o, resolveOptions None = Ok o ∧ cval_ok o 0 (CNum (of_Z 5)) ∧ zlen (enc (CNum (of_Z 5))) ≤ 2
    ∧ decodeCbor (enc (CNum (of_Z 5))) None = Ok (CNum (of_Z 5))
    ∧ ∀ h v n, heap_ok h → val_ok v → reify n h v = Some (CNum (of_Z 5)) →
        encodeCbor h v None = Ok (enc (CNum (of_Z 5))).
Proof.
  apply (decodeCbor_sound [24; 5] None (CNum (of_Z 5))).
  - repeat constructor; intros ?; discriminate.
  - vm_compute. reflexivity.
Defined.

(** C8: both walks end within the fuel the depth limit gives them, on every
    input: cyclic values and hostile byte strings included, they only ever
    throw what the source throws. *)
Theorem cbor_terminates h v bs options :
  encodeCbor h v options ≠ Err OutOfFuel ∧ decodeCbor bs options ≠ Err OutOfFuel.
Proof.
  assert (fueled (resolveOptions options)) as Hopt.
  { unfold resolveOptions, resolveLimit. repeat (apply fueled_bind; [repeat case_match; done|intros ? _]). done. }
  split.
  - apply fueled_bind; [done|]. intros o Ho%resolveOptions_ok. apply fueled_bind; [|done].
    apply encodeValue_fuel. unfold encode_fuel. destruct Ho as (_ & _ & ?). lia.
  - apply fueled_bind; [done|]. intros o Ho%resolveOptions_ok. case_match; [done|]. unfold decode.
    apply fueled_bind; [|intros [] _; by case_match].
    apply readItem_fuel. unfold encode_fuel. destruct Ho as (_ & _ & ?). lia.
Qed.
