(* ===== verification/Codec.v ===== *)
(** * The message codec ([packages/protocol/src/codec.ts])

    Validation, CBOR and framing put together: [isProtocolValue], the encoder of
    one message and [ValidatedMessageDecoder].  The client and the server codec
    differ in the schema only.  The schema evaluator ([Check] of typebox) is a
    parameter: over values in the heap and over decoded trees. *)

From S2P Require Import Prelude JsNumber JsString CborValue CborEncoder CborDecoder Cbor Framing.

(** What a codec error wraps. *)
Inductive cause := CborCause (e : cbor_error) | FrameCause (e : frame_error).

(** The [ProtocolValidationError]s. *)
Inductive codec_error :=
| InvalidMessage
| UnableToEncode (c : cause)
| DecoderHasFailed
| InvalidFrame (c : cause)
| InvalidFraming (e : frame_error).

(** [boundedErrorMessage] on the message of an [Error]. *)
Definition boundedErrorMessage (message : jsstring) : jsstring :=
  if zlen message <=? 500 then message else take 497 message ++ js "...".

(** [Array.prototype.every]. *)
Fixpoint every {A} (f : A → option bool) (l : list A) : option bool :=
  match l with
  | [] => Some true
  | x :: l => match f x with Some true => every f l | r => r end
  end.

(** [isProtocolValue]; [every] passes over the holes of an array.  [None] is
    out of fuel. *)
Fixpoint isProtocolValue (fuel : nat) (h : heap) (value : jsval) (optionalProperty : bool) (ancestors : gset nat)
    {struct fuel} : option bool :=
  match value with
  | JUndefined => Some optionalProperty
  | JNull | JBool _ | JNum _ | JStr _ => Some true
  | JOther => Some false
  | JRef a =>
      if decide (a ∈ ancestors) then Some false
      else
        match fuel with
        | O => None
        | S fuel =>
            match obj_at h a with
            | OArray elems => every (λ item, isProtocolValue fuel h item false ({[a]} ∪ ancestors)) (omap id elems)
            | OPlain null_prototype props _ =>
                if null_prototype then Some false
                else every (λ item, isProtocolValue fuel h item true ({[a]} ∪ ancestors)) props.*2
            | OBytes _ | OOther => Some false
            end
        end
  end.

(** [isProtocolValue] of a decoded tree, whose objects are fresh, plain and unshared. *)
Fixpoint protocol_tree (c : cval) : bool :=
  match c with
  | CNull | CBool _ | CNum _ | CStr _ => true
  | CBytes _ => false
  | CArray items => forallb protocol_tree items
  | CMap entries => forallb (λ kv, protocol_tree kv.2) entries
  end.

Section Codec.
Context (Check : heap → jsval → bool) (CheckTree : cval → bool).

(** [parseClientMessage] and [parseServerMessage]. *)
Definition parse_value (h : heap) (value : jsval) : result codec_error unit :=
  if bool_decide (isProtocolValue (S (size (dom h))) h value false ∅ = Some true) && Check h value
  then Ok () else Err InvalidMessage.
Definition parse_tree (c : cval) : result codec_error cval :=
  if protocol_tree c && CheckTree c then Ok c else Err InvalidMessage.

(** [options?.maxFrameLength ?? DEFAULT_MAX_FRAME_LENGTH]. *)
Definition frame_limit (options : option jsnum) : jsnum := default (of_Z DEFAULT_MAX_FRAME_LENGTH) options.
Definition cbor_limit (limit : jsnum) : option CborOptions := Some (MkCborOptions (Some limit) None None).

Definition encodeProtocolMessage (h : heap) (value : jsval) (options : option jsnum) : result codec_error bytes :=
  _ ← parse_value h value;
  let maxFrameLength := frame_limit options in
  map_err UnableToEncode
    (payload ← map_err CborCause (encodeCbor h value (cbor_limit maxFrameLength));
     frame ← map_err FrameCause (encodeFrame payload);
     _ ← map_err FrameCause (assertCompleteFrame frame (Some maxFrameLength));
     Ok frame).

(** [ValidatedMessageDecoder]. *)
Record MessageDecoder := MkMessageDecoder { has_failed : bool; frames : FrameDecoder; frameLimit : jsnum }.

#[local] Instance MessageDecoder_eta : Eta MessageDecoder := λ d,
  MkMessageDecoder (has_failed d) (frames d) (frameLimit d).

Definition new_decoder (options : option jsnum) : result frame_error MessageDecoder :=
  d ← new_FrameDecoder options; Ok (MkMessageDecoder false d (frame_limit options)).

Definition decode_frame (limit : jsnum) (frame : bytes) : result codec_error cval :=
  c ← map_err (InvalidFrame ∘ CborCause) (decodeCbor frame (cbor_limit limit)); parse_tree c.

Definition decoder_push (d : MessageDecoder) (chunk : bytes) : MessageDecoder * result codec_error (list cval) :=
  if has_failed d then (d, Err DecoderHasFailed)
  else
    let (fs, pushed) := push (frames d) chunk in
    match (payloads ← map_err (InvalidFrame ∘ FrameCause) pushed; mapM (decode_frame (frameLimit d)) payloads) with
    | Ok messages => (MkMessageDecoder false fs (frameLimit d), Ok messages)
    | Err e => (MkMessageDecoder true fs (frameLimit d), Err e)
    end.

Definition decoder_end (d : MessageDecoder) : MessageDecoder * result codec_error unit :=
  if has_failed d then (d, Err DecoderHasFailed)
  else
    match end_ (frames d) with
    | (fs, Ok _) => (MkMessageDecoder false fs (frameLimit d), Ok ())
    | (fs, Err e) => (MkMessageDecoder true fs (frameLimit d), Err (InvalidFraming e))
    end.

(** The calls of a client: each chunk in turn, up to a [throw]. *)
Fixpoint decoder_push_all (d : MessageDecoder) (chunks : list bytes) (messages : list cval)
    : MessageDecoder * result codec_error (list cval) :=
  match chunks with
  | [] => (d, Ok messages)
  | chunk :: chunks =>
      match decoder_push d chunk with
      | (d, Ok ms) => decoder_push_all d chunks (messages ++ ms)
      | (d, Err e) => (d, Err e)
      end
  end.

(** ** Lemmas *)

Lemma every_true {A} (f : A → option bool) l : every f l = Some true ↔ Forall (λ x, f x = Some true) l.
Proof.
  induction l as [|x l IH]; cbn; [by split|]. rewrite Forall_cons, <- IH.
  destruct (f x) as [[]|]; naive_solver.
Qed.

Lemma every_some {A} (f : A → option bool) l : (∀ x, x ∈ l → is_Some (f x)) → is_Some (every f l).
Proof.
  induction l as [|x l IH]; intros Hf; cbn; [by eexists|].
  destruct (Hf x) as [[] ->]; [left| |by eexists]. apply IH. intros y Hy. apply Hf. by right.
Qed.

(** The objects not yet entered bound the recursion. *)
Lemma isProtocolValue_total fuel h v opt anc :
  (size (dom h ∖ anc) < fuel)%nat → is_Some (isProtocolValue fuel h v opt anc).
Proof.
  revert v opt anc. induction fuel as [|fuel IH]; intros v opt anc Hf; [lia|].
  destruct v as [| | | | | |a]; cbn; try by eexists.
  case_decide as Ha; [by eexists|].
  assert (∀ v opt, h !! a ≠ None → is_Some (isProtocolValue fuel h v opt ({[a]} ∪ anc))) as Hrec.
  { intros w opt' Hlook. apply IH. assert (a ∈ dom h ∖ anc) as Hin.
    { apply elem_of_difference. split; [|done]. apply elem_of_dom. by destruct (h !! a); [eexists|]. }
    assert (dom h ∖ ({[a]} ∪ anc) ⊂ dom h ∖ anc) as Hsub%subset_size by set_solver. lia. }
  unfold obj_at. destruct (h !! a) as [ob|]; [|by eexists]. cbn.
  destruct ob as [bs|elems|np props sym|]; try by eexists.
  - apply every_some. intros x _. by apply Hrec.
  - destruct np; [by eexists|]. apply every_some. intros x _. by apply Hrec.
Qed.

Lemma reify_items n h elems cs :
  mapM (λ e, e ≫= reify n h) elems = Some cs → Forall2 (λ v c, reify n h v = Some c) (omap id elems) cs.
Proof.
  intros Hm%mapM_Some. induction Hm as [|[v|] c elems cs Hv _ IH]; [constructor| |done]. cbn. by constructor.
Qed.

Lemma reify_props n h (props : list (jsstring * jsval)) kcs :
  mapM (λ kv, pair kv.1 <$> reify n h kv.2) props = Some kcs →
  Forall2 (λ kv kc, reify n h kv.2 = Some kc.2) props kcs.
Proof.
  intros Hm%mapM_Some. eapply Forall2_impl; [exact Hm|]. intros kv kc Hk. cbn in Hk.
  apply fmap_Some in Hk as (c & Hc & ->). done.
Qed.

(** What the check accepts in the heap it accepts as a tree. *)
Lemma isProtocolValue_tree fuel n h v opt anc c :
  isProtocolValue fuel h v opt anc = Some true → reify n h v = Some c → protocol_tree c = true.
Proof.
  revert n v opt anc c. induction fuel as [|fuel IH]; intros [|n] v opt anc c Hp Hr; try done;
    destruct v as [| | | | | |a]; cbn in Hp, Hr; try done; try (by injection Hr as <-); case_decide; try done.
  destruct (obj_at h a) as [bs|elems|np props sym|]; try done.
  - apply fmap_Some in Hr as (cs & Hr%reify_items & ->). cbn. apply forallb_forall.
    intros c Hc%list_elem_of_In. apply list_elem_of_lookup in Hc as (i & Hi).
    destruct (Forall2_lookup_r _ _ _ _ _ Hr Hi) as (w & Hw & Hwc).
    apply every_true in Hp. rewrite Forall_lookup in Hp. exact (IH _ _ _ _ _ (Hp _ _ Hw) Hwc).
  - destruct np; [done|]. destruct sym; [done|]. apply fmap_Some in Hr as (cs & Hr%reify_props & ->). cbn.
    apply forallb_forall. intros kc Hc%list_elem_of_In. apply list_elem_of_lookup in Hc as (i & Hi).
    destruct (Forall2_lookup_r _ _ _ _ _ Hr Hi) as (kv & Hkv & Hwc). apply list_elem_of_lookup_2 in Hkv.
    unfold defined_entries in Hkv. apply list_elem_of_filter in Hkv as [_ Hkv].
    apply every_true in Hp. rewrite Forall_forall in Hp. eapply (IH n kv.2); [|exact Hwc].
    apply Hp. apply list_elem_of_fmap. by exists kv.
Qed.

(** Both limit checks are the same. *)
Lemma resolveLimit_frame limit v :
  resolveLimit (frame_limit limit) MAX_UINT32 = Ok v → resolveMaxFrameLength limit = Ok v.
Proof.
  unfold resolveLimit, resolveMaxFrameLength. fold (frame_limit limit).
  destruct (int_value (frame_limit limit)) as [z|]; [|done]. destruct (_ || (MAX_UINT32 <? z)); [done|by intros [= ->]].
Qed.

Lemma frame_limit_resolved options o :
  resolveOptions (cbor_limit (frame_limit options)) = Ok o → resolveMaxFrameLength options = Ok (maxByteLength o).
Proof.
  unfold resolveOptions. intros (v & Hv & (c & _ & (d & _ & [= <-])%bind_Ok)%bind_Ok)%bind_Ok.
  by apply resolveLimit_frame.
Qed.

Lemma map_err_Ok {E F A} (f : E → F) (r : result E A) a : map_err f r = Ok a ↔ r = Ok a.
Proof. destruct r; cbn; naive_solver. Qed.

(** What an accepted message is: a tree within the limits that the schema admits. *)
Definition message_ok (limit : jsnum) (c : cval) : Prop :=
  protocol_tree c = true ∧ CheckTree c = true
  ∧ ∃ o, resolveOptions (cbor_limit limit) = Ok o ∧ cval_ok o 0 c.

Lemma parse_tree_Ok c c' : parse_tree c = Ok c' → c' = c ∧ protocol_tree c = true ∧ CheckTree c = true.
Proof.
  unfold parse_tree. destruct (protocol_tree c), (CheckTree c); cbn; intros; by simplify_eq.
Qed.

Lemma decode_frame_ok limit frame c : bytes_ok frame → decode_frame limit frame = Ok c → message_ok limit c.
Proof.
  intros Hb (c' & Hd%map_err_Ok & (-> & Hp & Hc)%parse_tree_Ok)%bind_Ok.
  destruct (decodeCbor_Ok _ _ _ Hb Hd) as (o & Ho & Hok & _). by repeat split; [..|exists o].
Qed.

Lemma mapM_result_app {E A B} (f : A → result E B) l k :
  mapM f (l ++ k) = (x ← mapM f l; y ← mapM f k; mret (x ++ y)).
Proof.
  induction l as [|a l IH]; cbn; [by destruct (mapM f k)|].
  destruct (f a); [|done]. cbn. rewrite IH. destruct (mapM f l); [|done]. cbn. by destruct (mapM f k).
Qed.

Lemma mapM_result_Ok {E A B} (f : A → result E B) l k :
  mapM f l = Ok k → Forall2 (λ a b, f a = Ok b) l k.
Proof.
  revert k. induction l as [|a l IH]; intros k; cbn; [by intros [= <-]|].
  intros (b & Hb & (k' & Hk & [= <-])%bind_Ok)%bind_Ok. constructor; auto.
Qed.

(** A codec decoder that has not failed, over a framing decoder that has not either. *)
Definition decoder_ready (d : MessageDecoder) : Prop :=
  has_failed d = false ∧ decoder_inv (frames d) ∧ bytes_ok (pending (frames d)).

(** The messages of a byte string: those of its complete frames, or the first error. *)
Definition stream_messages (limit : jsnum) (max : Z) (bs : bytes) : result codec_error (list cval) :=
  mapM (decode_frame limit) (split_frames max bs).1.

Lemma decoder_push_ready d chunk :
  decoder_ready d → bytes_ok chunk →
  match split_frames (maxFrameLength (frames d)) (pending (frames d) ++ chunk) with
  | (ps, inl rest) =>
      match mapM (decode_frame (frameLimit d)) ps with
      | Ok ms => ∃ d', decoder_push d chunk = (d', Ok ms) ∧ decoder_ready d' ∧ pending (frames d') = rest
          ∧ maxFrameLength (frames d') = maxFrameLength (frames d) ∧ frameLimit d' = frameLimit d
      | Err e => ∃ d', decoder_push d chunk = (d', Err e) ∧ has_failed d' = true
      end
  | (_, inr n) => ∃ d' e, decoder_push d chunk = (d', Err e) ∧ has_failed d' = true
  end.
Proof.
  intros (Hf & Hinv & Hpb) Hc. unfold decoder_push. rewrite Hf.
  assert (bytes_ok (pending (frames d) ++ chunk)) as Hpc by by apply Forall_app.
  pose proof (push_refines (frames d) chunk Hinv Hc) as Hpush. unfold push_ok in Hpush.
  destruct (push (frames d) chunk) as [fs r]. cbn [fst snd app] in Hpush.
  destruct (split_frames _ _) as [ps [rest|n]] eqn:Hsplit.
  - destruct Hpush as (-> & Hinv' & Hp' & Hm'). cbn.
    destruct (mapM (decode_frame (frameLimit d)) ps) as [ms|e]; cbn; [|by eexists].
    eexists. split; [reflexivity|]. unfold decoder_ready. cbn [frames has_failed frameLimit].
    split_and!; try done. rewrite Hp'. by apply (split_frames_rest_bytes _ _ _ _ Hpc Hsplit).
  - destruct Hpush as (-> & _). cbn. by eexists _, _.
Qed.

Lemma decoder_push_all_ready d chunks acc :
  decoder_ready d → Forall bytes_ok chunks →
  match split_frames (maxFrameLength (frames d)) (pending (frames d) ++ concat chunks) with
  | (ps, inl rest) =>
      match mapM (decode_frame (frameLimit d)) ps with
      | Ok ms => ∃ d', decoder_push_all d chunks acc = (d', Ok (acc ++ ms)) ∧ decoder_ready d'
          ∧ pending (frames d') = rest
      | Err e => ∃ d', decoder_push_all d chunks acc = (d', Err e) ∧ has_failed d' = true
      end
  | (_, inr n) => ∃ d' e, decoder_push_all d chunks acc = (d', Err e) ∧ has_failed d' = true
  end.
Proof.
  revert d acc. induction chunks as [|c cs IH]; intros d acc Hd Hcs; cbn [decoder_push_all concat].
  { pose proof Hd as (_ & Hinv & _). rewrite app_nil_r, split_frames_eq, pending_incomplete by done.
    exists d. by rewrite app_nil_r. }
  apply Forall_cons in Hcs as [Hc Hcs]. rewrite app_assoc. pose proof Hd as (_ & Hinv & Hpb).
  pose proof (inv_max _ Hinv) as Hmax.
  assert (bytes_ok (pending (frames d) ++ c)) as Hpc by by apply Forall_app.
  pose proof (decoder_push_ready d c Hd Hc) as Hpush.
  destruct (split_frames (maxFrameLength (frames d)) (pending (frames d) ++ c)) as [ps [rest|n]] eqn:E.
  - rewrite (split_frames_app _ _ (concat cs) ps rest) by (done || lia).
    destruct (mapM (decode_frame (frameLimit d)) ps) as [ms|e] eqn:Hms.
    + destruct Hpush as (d1 & -> & Hd1 & Hp1 & Hm1 & Hl1). specialize (IH d1 (acc ++ ms) Hd1 Hcs).
      rewrite Hm1, Hp1, Hl1 in IH.
      destruct (split_frames (maxFrameLength (frames d)) (rest ++ concat cs)) as [ps' [rest'|m]]; [|done].
      rewrite mapM_result_app, Hms. cbn.
      destruct (mapM (decode_frame (frameLimit d)) ps') as [ms'|e']; cbn; [|done].
      destruct IH as (d' & -> & ? & ?). exists d'. by rewrite app_assoc.
    + destruct Hpush as (d1 & -> & Hf1).
      destruct (split_frames (maxFrameLength (frames d)) (rest ++ concat cs)) as [ps' [rest'|m]].
      * rewrite mapM_result_app, Hms. cbn. by exists d1.
      * by exists d1, e.
  - destruct Hpush as (d1 & e & -> & Hf1).
    assert ((split_frames (maxFrameLength (frames d)) ((pending (frames d) ++ c) ++ concat cs)).2 = inr n) as Hn.
    { apply split_frames_too_large_app; [lia|done|by rewrite E]. }
    destruct (split_frames (maxFrameLength (frames d)) ((pending (frames d) ++ c) ++ concat cs)) as [ps' r'].
    cbn in Hn. subst. by exists d1, e.
Qed.

Lemma new_decoder_ready options d :
  new_decoder options = Ok d →
  decoder_ready d ∧ pending (frames d) = [] ∧ frameLimit d = frame_limit options
  ∧ resolveMaxFrameLength options = Ok (maxFrameLength (frames d)).
Proof.
  intros (fd & (Hinv & Hp & Hm)%new_FrameDecoder_inv & [= <-])%bind_Ok.
  unfold decoder_ready. cbn [frames has_failed frameLimit]. rewrite Hp. split_and!; try done. constructor.
Qed.

(** What the encoder returns: the frame of the shortest-form encoding of the tree. *)
Lemma encodeProtocolMessage_Ok h v options frame :
  (∀ n c, reify n h v = Some c → Check h v = true → CheckTree c = true) →
  heap_ok h → val_ok v → encodeProtocolMessage h v options = Ok frame →
  ∃ c n o, reify n h v = Some c ∧ message_ok (frame_limit options) c
    ∧ resolveMaxFrameLength options = Ok (maxByteLength o) ∧ zlen (enc c) ≤ maxByteLength o
    ∧ encodeFrame (enc c) = Ok frame ∧ decode_frame (frame_limit options) (enc c) = Ok c.
Proof.
  intros Hcheck Hh Hv. unfold encodeProtocolMessage. intros ([] & Hparse & Henc)%bind_Ok.
  apply map_err_Ok in Henc. apply bind_Ok in Henc as (payload & Hp%map_err_Ok & Henc).
  apply bind_Ok in Henc as (frame' & Hf%map_err_Ok & (u & _ & [= ->])%bind_Ok).
  destruct (resolveOptions (cbor_limit (frame_limit options))) as [o|e] eqn:Ho.
  2: { unfold encodeCbor in Hp. by rewrite Ho in Hp. }
  destruct (proj1 (encodeCbor_spec h v _ o payload Hh Hv Ho) Hp) as (c & n & Hr & Hc & -> & Hlen).
  unfold parse_value in Hparse. case_bool_decide as Hpv; cbn in Hparse; [|done].
  destruct (Check h v) eqn:Hck; [|done].
  assert (protocol_tree c = true) as Htree by by eapply isProtocolValue_tree.
  assert (CheckTree c = true) as Hct by by eapply Hcheck.
  exists c, n, o. split; [done|]. split; [split; [done|split; [done|by exists o]]|].
  split; [by apply frame_limit_resolved|]. split_and!; [done|done|].
  unfold decode_frame. rewrite (decodeCbor_enc c _ o) by done. cbn. unfold parse_tree. by rewrite Htree, Hct.
Qed.

End Codec.

(** ** Properties *)

(** Claim C32. Messages encoded one after the other and sent over a stream that
    cuts the bytes anywhere come out of a decoder with the same limit one for one
    and in order, each as the tree the sent value denotes, and the decoder accepts
    the end of the stream.  The schema check is any check that looks at the
    structure of a value only. *)
Theorem codec_roundtrip Check CheckTree options d (values : list (heap * jsval)) wires chunks :
  (∀ h v n c, reify n h v = Some c → Check h v = true → CheckTree c = true) →
  new_decoder options = Ok d →
  Forall2 (λ hv wire, heap_ok hv.1 ∧ val_ok hv.2 ∧ encodeProtocolMessage Check hv.1 hv.2 options = Ok wire) values wires →
  concat chunks = concat wires → Forall bytes_ok chunks →
  ∃ trees d', Forall2 (λ hv c, ∃ n, reify n hv.1 hv.2 = Some c) values trees
    ∧ decoder_push_all CheckTree d chunks [] = (d', Ok trees) ∧ (decoder_end d').2 = Ok ().
Proof.
  intros Hcheck (Hd & Hp & Hl & Hmax)%new_decoder_ready Hw Hcat Hb.
  assert (∃ trees, Forall2 (λ hv c, ∃ n, reify n hv.1 hv.2 = Some c) values trees
    ∧ Forall2 (λ p f, encodeFrame p = Ok f) (enc <$> trees) wires
    ∧ Forall (λ p, zlen p ≤ maxFrameLength (frames d)) (enc <$> trees)
    ∧ mapM (decode_frame CheckTree (frame_limit options)) (enc <$> trees) = Ok trees) as (trees & Ht & He & Hlen & Hm).
  { clear Hcat. induction Hw as [|[h v] wire values wires (Hh & Hv & Henc) Hw IH]; [by exists []|].
    destruct IH as (trees & IH1 & IH2 & IH3 & IH4).
    destruct (encodeProtocolMessage_Ok Check CheckTree h v options wire (Hcheck h v) Hh Hv Henc)
      as (c & n & o & Hr & _ & Ho & Hlen & Hf & Hdec).
    exists (c :: trees). cbn [fmap list_fmap mapM]. rewrite Hdec. cbn [mbind result_bind].
    change (list_fmap _ _ enc trees) with (enc <$> trees). rewrite IH4.
    split_and!; [constructor; [by exists n|done]|by constructor| |done]. constructor; [|done].
    assert (maxFrameLength (frames d) = maxByteLength o) as -> by congruence. done. }
  exists trees. pose proof (decoder_push_all_ready CheckTree d chunks [] Hd Hb) as Hpush.
  pose proof Hd as (_ & Hinv & _). pose proof (inv_max _ Hinv) as [H0 _].
  rewrite Hp, Hcat in Hpush. cbn [app] in Hpush.
  rewrite (split_frames_encoded _ (enc <$> trees) wires H0 He Hlen), Hl, Hm in Hpush.
  destruct Hpush as (d' & Hpush & (Hf' & Hinv' & _) & Hp'). exists d'. split_and!; [done|done|].
  unfold decoder_end. by rewrite Hf', (end_accepts _ Hinv' Hp').
Qed.

(** Claim C33. Fed the chunks of any byte stream, a decoder returns what the whole
    stream stands for: the messages of its complete frames, in order, when all of
    them are valid and none is announced above the limit; otherwise it throws, and
    when an invalid frame is to blame, with the error of the first one. *)
Theorem codec_decoder_refines CheckTree options d chunks :
  new_decoder options = Ok d → Forall bytes_ok chunks →
  match split_frames (maxFrameLength (frames d)) (concat chunks) with
  | (payloads, inl rest) =>
      match mapM (decode_frame CheckTree (frame_limit options)) payloads with
      | Ok messages => ∃ d', decoder_push_all CheckTree d chunks [] = (d', Ok messages) ∧ pending (frames d') = rest
      | Err e => ∃ d', decoder_push_all CheckTree d chunks [] = (d', Err e)
      end
  | (_, inr _) => ∃ d' e, decoder_push_all CheckTree d chunks [] = (d', Err e)
  end.
Proof.
  intros (Hd & Hp & Hl & _)%new_decoder_ready Hb.
  pose proof (decoder_push_all_ready CheckTree d chunks [] Hd Hb) as Hpush. rewrite Hp, Hl in Hpush. cbn [app] in Hpush.
  destruct (split_frames _ _) as [ps [rest|n]].
  - destruct (mapM _ ps) as [ms|e].
    + destruct Hpush as (d' & ? & _ & ?). by exists d'.
    + destruct Hpush as (d' & ? & _). by exists d'.
  - destruct Hpush as (d' & e & ? & _). by exists d', e.
Qed.

(** Claim C34. Whatever bytes arrive, every message a decoder hands out is a plain
    value that the schema admits, within the depth, size and length limits; and
    once it has thrown, it throws on every later call and never hands out another
    message. *)
Theorem codec_decoder_typed CheckTree options d chunks d' r :
  new_decoder options = Ok d → Forall bytes_ok chunks →
  decoder_push_all CheckTree d chunks [] = (d', r) →
  match r with
  | Ok messages => Forall (message_ok CheckTree (frame_limit options)) messages
  | Err _ => (∀ chunk, decoder_push CheckTree d' chunk = (d', Err DecoderHasFailed))
             ∧ decoder_end d' = (d', Err DecoderHasFailed)
  end.
Proof.
  intros (Hd & Hp & Hl & _)%new_decoder_ready Hb Hrun.
  pose proof (decoder_push_all_ready CheckTree d chunks [] Hd Hb) as Hpush. rewrite Hp, Hl in Hpush. cbn [app] in Hpush.
  assert (∀ e, r = Err e → has_failed d' = true → (∀ chunk, decoder_push CheckTree d' chunk = (d', Err DecoderHasFailed))
             ∧ decoder_end d' = (d', Err DecoderHasFailed)) as Hsticky.
  { intros e _ Hf. unfold decoder_push, decoder_end. by rewrite Hf. }
  assert (bytes_ok (concat chunks)) as Hc by (clear -Hb; induction Hb; cbn; [apply Forall_nil_2|by apply Forall_app]).
  destruct (split_frames _ _) as [ps [rest|n]] eqn:Hsplit.
  - destruct (mapM _ ps) as [ms|e] eqn:Hm.
    + destruct Hpush as (d'' & Heq & _). rewrite Hrun in Heq. assert (r = Ok ms) as -> by congruence.
      apply mapM_result_Ok in Hm. pose proof (split_frames_payload_bytes _ _ _ _ Hc Hsplit) as Hpb.
      clear Hsplit Hrun Hsticky Heq. induction Hm as [|p m ps ms Hpm _ IH]; [constructor|].
      apply Forall_cons in Hpb as [Hp1 Hpb]. constructor; [by eapply decode_frame_ok|by apply IH].
    + destruct Hpush as (d'' & Heq & Hf). rewrite Hrun in Heq. injection Heq as -> ->. exact (Hsticky e eq_refl Hf).
  - destruct Hpush as (d'' & e & Heq & Hf). rewrite Hrun in Heq. injection Heq as -> ->. exact (Hsticky e eq_refl Hf).
Qed.

(** A schema that admits any object. *)
Definition demo_check (h : heap) (v : jsval) : bool :=
  match v with JRef a => match obj_at h a with OPlain _ _ _ => true | _ => false end | _ => false end.
Definition demo_check_tree (c : cval) : bool := match c with CMap _ => true | _ => false end.

Lemma demo_check_structural h v n c : reify n h v = Some c → demo_check h v = true → demo_check_tree c = true.
Proof.
  destruct n as [|n]; [done|]. destruct v as [| | | | | |a]; try done. cbn.
  destruct (obj_at h a) as [| |np props []|]; try done. by intros (kcs & _ & ->)%fmap_Some.
Qed.

(** The objects [{t: 7}] and [{t: undefined}]. *)
Definition demo_object (v : jsval) : heap := {[ 0%nat := OPlain false [([116], v)] false ]}.
Definition demo_values : list (heap * jsval) := [(demo_object (JNum (of_Z 7)), JRef 0); (demo_object JUndefined, JRef 0)].
Definition demo_wires : list bytes := [[0; 0; 0; 4; 161; 97; 116; 7]; [0; 0; 0; 1; 160]].
Definition demo_chunks : list bytes := [[0; 0]; [0; 4; 161; 97; 116; 7; 0; 0; 0]; [1; 160]].
Definition demo_trees : list cval := [CMap [([116], CNum (of_Z 7))]; CMap []].
Definition demo_codec : MessageDecoder := MkMessageDecoder false demo_decoder (of_Z DEFAULT_MAX_FRAME_LENGTH).

Lemma demo_object_ok v : val_ok v → heap_ok (demo_object v).
Proof.
  intros Hv a. unfold obj_at, demo_object. destruct (decide (a = 0%nat)) as [->|Ha].
  - rewrite lookup_singleton_eq. cbn. split; [by apply NoDup_singleton|].
    constructor; [|constructor]. split; [by apply Forall_singleton|done].
  - by rewrite lookup_singleton_ne.
Qed.

Lemma demo_codec_new : new_decoder None = Ok demo_codec.
Proof. vm_compute. reflexivity. Qed.

Lemma demo_chunks_ok : Forall bytes_ok demo_chunks.
Proof. repeat constructor; intros ?; discriminate. Qed.

Lemma codec_roundtrip_witness :
  ∃ trees d', Forall2 (λ hv c, ∃ n, reify n hv.1 hv.2 = Some c) demo_values trees
    ∧ decoder_push_all demo_check_tree demo_codec demo_chunks [] = (d', Ok trees) ∧ (decoder_end d').2 = Ok ().
Proof.
  apply (codec_roundtrip demo_check demo_check_tree None demo_codec demo_values demo_wires demo_chunks).
  - exact demo_check_structural.
  - exact demo_codec_new.
  - constructor; [|constructor; [|constructor]]; (split; [apply demo_object_ok|split; [exact I|vm_compute; reflexivity]]).
    + by apply of_Z_ok.
    + exact I.
  - reflexivity.
  - exact demo_chunks_ok.
Defined.

Lemma codec_decoder_refines_witness :
  ∃ d', decoder_push_all demo_check_tree demo_codec demo_chunks [] = (d', Ok demo_trees) ∧ pending (frames d') = [].
Proof.
  apply (codec_decoder_refines demo_check_tree None demo_codec demo_chunks demo_codec_new demo_chunks_ok).
Defined.

(** A message the schema refuses. *)
Definition demo_bad_chunks : list bytes := [[0; 0; 0; 1; 7]].
Definition demo_failed : MessageDecoder := fst (decoder_push_all demo_check_tree demo_codec demo_bad_chunks []).

Lemma codec_decoder_typed_witness :
  (∀ chunk, decoder_push demo_check_tree demo_failed chunk = (demo_failed, Err DecoderHasFailed))
  ∧ decoder_end demo_failed = (demo_failed, Err DecoderHasFailed).
Proof.
  apply (codec_decoder_typed demo_check_tree None demo_codec demo_bad_chunks demo_failed (Err InvalidMessage) demo_codec_new).
  - repeat constructor; intros ?; discriminate.
  - vm_compute. reflexivity.
Defined.
