(* ===== verification/SessionTypes.v ===== *)
(** * Data of a session: messages, entries, lane records and log items

    The message types of [packages/ai/src/types.ts] and
    [packages/agent/src/harness/messages.ts], and the entries, records, queries
    and log items of [packages/agent/src/harness/session/types.ts].  A union
    discriminated by [type], [role] or [kind] is an inductive type; an optional
    property is an [option]; an [unknown] payload is a JSON tree, which is what
    reaches storage. *)

From S2P Require Import Prelude JsNumber JsString.

(** ** JSON values *)

Inductive JsonValue :=
| JsonNull
| JsonBool (b : bool)
| JsonNumber (x : jsnum)
| JsonString (s : jsstring)
| JsonArray (items : list JsonValue)
| JsonObject (props : list (jsstring * JsonValue)).

(** ** Messages *)

Record TextContent := MkText { text : jsstring; textSignature : option jsstring }.
Record ThinkingContent := MkThinking {
  thinking : jsstring; thinkingSignature : option jsstring; redacted : option bool }.
Record ImageContent := MkImage { image_data : jsstring; mimeType : jsstring }.
Record ToolCall := MkToolCall {
  call_id : jsstring; call_name : jsstring; call_arguments : JsonValue;
  thoughtSignature : option jsstring; namespace : option jsstring }.

(** [(TextContent | ImageContent)] and the content of an assistant message. *)
Inductive content_part := CText (c : TextContent) | CImage (c : ImageContent).
Inductive assistant_part := AText (c : TextContent) | AThinking (c : ThinkingContent) | AToolCall (c : ToolCall).

(** Token counts are integers; costs are binary64 numbers. *)
Record Usage := MkUsage {
  usage_input : Z; usage_output : Z; cacheRead : Z; cacheWrite : Z;
  cacheWrite1h : option Z; usage_reasoning : option Z; totalTokens : Z;
  cost_input : jsnum; cost_output : jsnum; cost_cacheRead : jsnum; cost_cacheWrite : jsnum;
  cost_total : jsnum }.

Inductive StopReason := sr_pending | sr_stop | sr_length | sr_toolUse | sr_error | sr_aborted | sr_deferred.

#[export] Instance StopReason_eq_dec : EqDecision StopReason.
Proof. solve_decision. Defined.

Record DeferredHandle := MkDeferredHandle {
  handle_provider : jsstring; handle_modelId : jsstring; handle_api : jsstring; handle_id : jsstring;
  expiresAt : option Z; pollAfterMs : option Z; handle_data : option JsonValue }.

(** [string | (TextContent | ImageContent)[]]. *)
Inductive message_content := StringContent (s : jsstring) | PartsContent (parts : list content_part).

Record UserMessage := MkUserMessage { user_content : message_content; user_timestamp : Z }.
Record AssistantMessage := MkAssistantMessage {
  assistant_content : list assistant_part;
  assistant_api : jsstring; assistant_provider : jsstring; assistant_model : jsstring;
  responseModel : option jsstring; responseId : option jsstring; diagnostics : option (list JsonValue);
  assistant_usage : Usage; stopReason : StopReason; deferred : option DeferredHandle;
  errorMessage : option jsstring; rawStopReason : option jsstring; endTurn : option bool;
  assistant_timestamp : Z }.
Record ToolResultMessage := MkToolResultMessage {
  toolCallId : jsstring; toolName : jsstring; result_content : list content_part;
  result_details : option JsonValue; result_usage : option Usage; addedToolNames : option (list jsstring);
  isError : bool; result_timestamp : Z }.

(** [Message], what a provider is sent. *)
Inductive Message := MUser (m : UserMessage) | MAssistant (m : AssistantMessage) | MToolResult (m : ToolResultMessage).

Record BashExecutionMessage := MkBash {
  command : jsstring; output : jsstring; exitCode : option Z; cancelled : bool; truncated : bool;
  fullOutputPath : option jsstring; bash_timestamp : Z; excludeFromContext : option bool }.
Record CustomMessage := MkCustomMessage {
  custom_type : jsstring; custom_content : message_content; custom_display : bool;
  custom_details : option JsonValue; custom_timestamp : Z }.
Record BranchSummaryMessage := MkBranchSummaryMessage {
  branch_summary : jsstring; branch_fromId : jsstring; branch_timestamp : Z }.
Record CompactionSummaryMessage := MkCompactionSummaryMessage {
  compaction_summary : jsstring; compaction_tokensBefore : Z; compaction_timestamp : Z }.

(** [AgentMessage]: a provider message or one of the harness's own. *)
Inductive AgentMessage :=
| AgentLlm (m : Message)
| AgentBash (m : BashExecutionMessage)
| AgentCustom (m : CustomMessage)
| AgentBranchSummary (m : BranchSummaryMessage)
| AgentCompactionSummary (m : CompactionSummaryMessage).

Inductive role :=
| role_user | role_assistant | role_toolResult | role_bashExecution | role_custom | role_branchSummary
| role_compactionSummary.

#[export] Instance role_eq_dec : EqDecision role.
Proof. solve_decision. Defined.

Definition message_role (m : AgentMessage) : role :=
  match m with
  | AgentLlm (MUser _) => role_user
  | AgentLlm (MAssistant _) => role_assistant
  | AgentLlm (MToolResult _) => role_toolResult
  | AgentBash _ => role_bashExecution
  | AgentCustom _ => role_custom
  | AgentBranchSummary _ => role_branchSummary
  | AgentCompactionSummary _ => role_compactionSummary
  end.

(** The message narrowed to its role. *)
Definition as_assistant (m : AgentMessage) : option AssistantMessage :=
  match m with AgentLlm (MAssistant a) => Some a | _ => None end.
Definition as_toolResult (m : AgentMessage) : option ToolResultMessage :=
  match m with AgentLlm (MToolResult t) => Some t | _ => None end.

(** [content.filter((c) => c.type === "toolCall")]. *)
Definition tool_calls (m : AssistantMessage) : list ToolCall :=
  omap (λ c, match c with AToolCall t => Some t | _ => None end) (assistant_content m).

(** ** Entries *)

Record CompactionPayload := MkCompaction {
  comp_summary : jsstring; retainedTail : list AgentMessage; tokensBefore : Z;
  comp_details : option JsonValue; comp_usage : option Usage }.

(** What an entry holds beside its base properties; [terminate?: true] is a flag. *)
Inductive EntryPayload :=
| PMessage (message : AgentMessage) (terminate : bool)
| PModelChange (provider modelId : jsstring)
| PThinkingLevel (thinkingLevel : jsstring)
| PActiveTools (activeToolNames : list jsstring)
| PCompaction (c : CompactionPayload)
| PBranchSummary (fromId summary : jsstring) (details : option JsonValue) (usage : option Usage)
| PCustom (customType : jsstring) (data : option JsonValue).

Inductive EntryType :=
| et_message | et_model_change | et_thinking_level_change | et_active_tools_change | et_compaction
| et_branch_summary | et_custom.

#[export] Instance EntryType_eq_dec : EqDecision EntryType.
Proof. solve_decision. Defined.

Definition payload_type (p : EntryPayload) : EntryType :=
  match p with
  | PMessage _ _ => et_message
  | PModelChange _ _ => et_model_change
  | PThinkingLevel _ => et_thinking_level_change
  | PActiveTools _ => et_active_tools_change
  | PCompaction _ => et_compaction
  | PBranchSummary _ _ _ _ => et_branch_summary
  | PCustom _ _ => et_custom
  end.

Record Entry := MkEntry {
  entry_id : jsstring; entry_seq : Z; entry_parentId : option jsstring; entry_timestamp : Z;
  entry_payload : EntryPayload }.

#[export] Instance Entry_eta : Eta Entry := λ e,
  MkEntry (entry_id e) (entry_seq e) (entry_parentId e) (entry_timestamp e) (entry_payload e).

Definition entry_type (e : Entry) : EntryType := payload_type (entry_payload e).

(** [Omit<Entry, "parentId" | "seq" | "timestamp">]. *)
Record ProvisionedEntry := MkProvisioned { p_id : jsstring; p_payload : EntryPayload }.

(** [entry.type === "message"], narrowed to its message. *)
Definition entry_message (e : Entry) : option AgentMessage :=
  match entry_payload e with PMessage m _ => Some m | _ => None end.
Definition entry_assistant (e : Entry) : option AssistantMessage := entry_message e ≫= as_assistant.

(** ** Lane records *)

Inductive OperationIntent :=
| IRun (originalPrompt : list AgentMessage) (initialMessages : list ProvisionedEntry)
    (systemPromptOverride : option jsstring) (resumeData : option JsonValue)
| ICompaction (customInstructions : option jsstring) (resultEntryId : jsstring)
| INavigation (targetId : option jsstring) (summarize : bool) (customInstructions label summaryEntryId : option jsstring).

Inductive OperationKind := ok_run | ok_compaction | ok_navigation.

#[export] Instance OperationKind_eq_dec : EqDecision OperationKind.
Proof. solve_decision. Defined.

Definition intent_kind (i : OperationIntent) : OperationKind :=
  match i with IRun _ _ _ _ => ok_run | ICompaction _ _ => ok_compaction | INavigation _ _ _ _ _ => ok_navigation end.

Inductive Outcome := completed | aborted | outcome_failed | declined.
Inductive StepKind := step_assistant | step_compaction | step_branch_summary.

#[export] Instance StepKind_eq_dec : EqDecision StepKind.
Proof. solve_decision. Defined.

Inductive QueueKind := q_steer | q_followUp | q_nextRun.

#[export] Instance QueueKind_eq_dec : EqDecision QueueKind.
Proof. solve_decision. Defined.

Record StepAttempt := MkStepAttempt {
  step_runId : jsstring; step : StepKind; attempt : Z; step_resultEntryId : jsstring;
  (** read from storage, hence any string until it is validated *)
  compactionReason : option jsstring }.

Record ToolStarted := MkToolStarted {
  tool_runId : jsstring; assistantEntryId : jsstring; toolIndex : Z; tool_callId : jsstring;
  tool_name : jsstring; effectiveArgs : JsonValue; tool_resultEntryId : jsstring; replay_safe : bool }.

Inductive UsageCause :=
| uc_assistant | uc_compaction | uc_branch_summary | uc_deferred_fetch | uc_tool | uc_hook | uc_adjustment.

#[export] Instance UsageCause_eq_dec : EqDecision UsageCause.
Proof. solve_decision. Defined.

(** The optional properties are absent where the cause does not carry them. *)
Record UsageRecord := MkUsageRecord {
  ur_usage : Usage; ur_cause : UsageCause; ur_runId : option jsstring; ur_entryId : option jsstring;
  ur_attempt : option Z; ur_stopReason : option StopReason; ur_toolCallId : option jsstring;
  ur_details : option JsonValue }.

Inductive RecordBody :=
| ROperationStarted (sourceLeafId : option jsstring) (intent : OperationIntent)
| RAbortRequested (runId : jsstring)
| ROperationFinished (runId : jsstring) (outcome : Outcome) (error : option (jsstring * jsstring))
| RStepAttempt (a : StepAttempt)
| RToolStarted (t : ToolStarted)
| RQueueEnqueued (queue : QueueKind) (runId : option jsstring) (target : ProvisionedEntry)
| RQueueCancelled (runId : option jsstring) (entryId : jsstring)
| RWriteDeferred (runId : jsstring) (target : ProvisionedEntry)
| RUsage (u : UsageRecord).

Inductive RecordType :=
| rt_operation_started | rt_abort_requested | rt_operation_finished | rt_step_attempt | rt_tool_started
| rt_queue_enqueued | rt_queue_cancelled | rt_write_deferred | rt_usage.

#[export] Instance RecordType_eq_dec : EqDecision RecordType.
Proof. solve_decision. Defined.

Definition body_type (b : RecordBody) : RecordType :=
  match b with
  | ROperationStarted _ _ => rt_operation_started
  | RAbortRequested _ => rt_abort_requested
  | ROperationFinished _ _ _ => rt_operation_finished
  | RStepAttempt _ => rt_step_attempt
  | RToolStarted _ => rt_tool_started
  | RQueueEnqueued _ _ _ => rt_queue_enqueued
  | RQueueCancelled _ _ => rt_queue_cancelled
  | RWriteDeferred _ _ => rt_write_deferred
  | RUsage _ => rt_usage
  end.

Record LaneRecord := MkRecord {
  record_id : jsstring; record_seq : Z; record_lane : jsstring; record_timestamp : Z; record_body : RecordBody }.

Definition record_type (r : LaneRecord) : RecordType := body_type (record_body r).

(** [Omit<LaneRecord, "seq" | "timestamp">]. *)
Record NewRecord := MkNewRecord { nr_id : jsstring; nr_lane : jsstring; nr_body : RecordBody }.

(** The [runId] property of a record, when it has one that is a string. *)
Definition record_runId (r : LaneRecord) : option jsstring :=
  match record_body r with
  | ROperationStarted _ _ => None
  | RAbortRequested i | ROperationFinished i _ _ | RWriteDeferred i _ => Some i
  | RStepAttempt a => Some (step_runId a)
  | RToolStarted t => Some (tool_runId t)
  | RQueueEnqueued _ i _ | RQueueCancelled i _ => i
  | RUsage u => ur_runId u
  end.

Definition record_intent (r : LaneRecord) : option OperationIntent :=
  match record_body r with ROperationStarted _ i => Some i | _ => None end.
Definition is_started (r : LaneRecord) : bool :=
  match record_body r with ROperationStarted _ _ => true | _ => false end.

(** ** Queries, log items and errors *)

Inductive EntryOrder := newestFirst | oldestFirst.

(** [limit] and [afterSeq] are numbers a caller chooses, validated when used. *)
Record EntryQuery := MkEntryQuery {
  q_type : option EntryType; q_customType : option jsstring; q_order : option EntryOrder;
  q_limit : option jsnum; q_cursor : option jsnum }.
Record BranchBounds := MkBranchBounds {
  b_start : option jsstring; stopAtType : option EntryType; stopAtId : option jsstring }.
Record RecordQuery := MkRecordQuery {
  rq_lane : option jsstring; rq_type : option RecordType; rq_runId : option jsstring;
  rq_operationKind : option OperationKind; rq_afterSeq : option jsnum; rq_order : option EntryOrder;
  rq_limit : option jsnum }.
Record LogOptions := MkLogOptions { log_afterSeq : option jsnum; log_limit : option jsnum }.

#[export] Instance EntryQuery_eta : Eta EntryQuery := λ q,
  MkEntryQuery (q_type q) (q_customType q) (q_order q) (q_limit q) (q_cursor q).

Definition no_query : EntryQuery := MkEntryQuery None None None None None.
Definition no_bounds : BranchBounds := MkBranchBounds None None None.
Definition no_record_query : RecordQuery := MkRecordQuery None None None None None None None.

Record SessionMetadata := MkMetadata {
  meta_id : jsstring; createdAt : Z; parentSessionId : option jsstring }.
Record SessionStats := MkStats {
  messageCount : Z; cachedTokens : Z; uncachedTokens : Z; stats_totalTokens : Z; costTotal : jsnum }.

Inductive LogItem :=
| LogEntry (seq : Z) (entry : Entry)
| LogRecord (seq : Z) (record : LaneRecord)
| LogLane (seq : Z) (lane : jsstring) (leafId : option jsstring)
| LogName (seq : Z) (name : option jsstring)
| LogLabel (seq : Z) (targetId : jsstring) (label : option jsstring).

Definition item_seq (i : LogItem) : Z :=
  match i with LogEntry s _ | LogRecord s _ | LogLane s _ _ | LogName s _ | LogLabel s _ _ => s end.

Inductive ForkPosition := before | at_entry.
(** [{ scope?: "branch", entryId?, position? } | { scope: "tree" }]. *)
Inductive ForkOptions := ForkBranch (entryId : option jsstring) (position : option ForkPosition) | ForkTree.

Inductive SessionErrorCode :=
| not_found | already_exists | invalid_entry | invalid_payload | invalid_lane | invalid_query
| invalid_fork_target | storage_error.

#[export] Instance SessionErrorCode_eq_dec : EqDecision SessionErrorCode.
Proof. solve_decision. Defined.

Record SessionCreateOptions := MkCreateOptions {
  create_id : option jsstring; create_parentSessionId : option jsstring }.
