(* ===== verification/Client.v ===== *)
(** * The client of a server

    [packages/client/src]: [connection.ts] (the life of a connection), [state.ts] (what
    the client knows of the server) and the requests of [client.ts].  The messages are
    those of [packages/protocol/src/schemas.ts], with the properties the client does not
    look at kept as one value.

    The client calls out of itself: to the transport and to listeners.  Either may call
    the client back before it returns, so a call out is an argument of every operation. *)

From S2P Require Import Prelude JsNumber JsString JsMap CborValue Codec SessionTypes.

(** ** Messages *)

Record SessionSnapshot := MkSession {
  sess_id : jsstring; sess_attached : bool; sess_locked : bool; sess_phase : jsstring; sess_revision : Z;
  sess_rest : JsonValue }.
Record ServerSnapshot := MkServerSnapshot { srv_revision : Z; srv_rest : JsonValue }.

#[export] Instance SessionSnapshot_eta : Eta SessionSnapshot := λ s,
  MkSession (sess_id s) (sess_attached s) (sess_locked s) (sess_phase s) (sess_revision s) (sess_rest s).

Inductive session_command := Create | Attach | Prompt | Steer | Abort | SetModel | SetThinking.
Inductive CommandName := NList | NDetach | NSession (c : session_command).

#[export] Instance session_command_eq_dec : EqDecision session_command.
Proof. solve_decision. Defined.
#[export] Instance CommandName_eq_dec : EqDecision CommandName.
Proof. solve_decision. Defined.

Inductive Command :=
| CList
| CCreate (options : JsonValue)
| CAttach (sessionId : jsstring)
| CDetach (sessionId : jsstring)
| CPrompt (sessionId text : jsstring)
| CSteer (sessionId text : jsstring)
| CAbort (sessionId : jsstring)
| CSetModel (sessionId : jsstring) (model : JsonValue)
| CSetThinking (sessionId thinkingLevel : jsstring).

Definition command_name (c : Command) : CommandName :=
  match c with
  | CList => NList
  | CCreate _ => NSession Create
  | CAttach _ => NSession Attach
  | CDetach _ => NDetach
  | CPrompt _ _ => NSession Prompt
  | CSteer _ _ => NSession Steer
  | CAbort _ => NSession Abort
  | CSetModel _ _ => NSession SetModel
  | CSetThinking _ _ => NSession SetThinking
  end.

Inductive CommandResult :=
| RList (sessions : JsonValue)
| RDetach (sessionId : jsstring)
| RSession (command : session_command) (session : SessionSnapshot).

Definition result_name (r : CommandResult) : CommandName :=
  match r with RList _ => NList | RDetach _ => NDetach | RSession c _ => NSession c end.

Inductive ServerEvent :=
| EServerSnapshot (snapshot : ServerSnapshot)
| ESessionSnapshot (snapshot : SessionSnapshot)
| ESessionProgress (sessionId : jsstring) (progress : JsonValue)
| ESessionRemoved (sessionId : jsstring).

Inductive ServerMessage :=
| Hello (snapshot : ServerSnapshot)
| HelloError (error : JsonValue)
| Response (id : jsstring) (outcome : result JsonValue CommandResult)
| Event (event : ServerEvent).

Inductive ClientMessage := ClientHello | Request (id : jsstring) (request : Command).

(** ** Errors *)

Inductive violation :=
| EarlyData | EarlyHello | ExpectedHello | UnexpectedHandshake | NoMatchingRequest
| CommandMismatch (received expected : CommandName) | Malformed (error : jsstring).

Inductive client_error :=
| NotConnected | AlreadyConnected | TransportClosed | TransportFailed (error : jsstring) | Reason (reason : jsstring)
| ServerError (error : JsonValue) | Invalid (v : violation) | EncodeFailed (error : jsstring) | Disposed.

(** ** The codec, as the client uses it *)

Class Wire := {
  decoder : Type;
  new_decoder : decoder;
  decoder_push : decoder → list Z → decoder * result jsstring (list ServerMessage);
  decoder_end : decoder → result jsstring unit;
  encodeClientMessage : ClientMessage → result jsstring (list Z) }.

(** The codec of the protocol, given the objects that messages are and the texts of its
    errors; [d0] is the decoder of the client's limit. *)
Definition codec_wire (Check : heap → jsval → bool) (CheckTree : cval → bool) (error_text : codec_error → jsstring)
    (message_of : cval → ServerMessage) (object_of : ClientMessage → heap * jsval) (d0 : MessageDecoder) : Wire := {|
  decoder := MessageDecoder;
  new_decoder := d0;
  decoder_push d chunk :=
    let '(d, r) := Codec.decoder_push CheckTree d chunk in (d, match r with Ok messages => Ok (map message_of messages) | Err e => Err (error_text e) end);
  decoder_end d := map_err error_text (Codec.decoder_end d).2;
  encodeClientMessage m :=
    let '(h, v) := object_of m in map_err error_text (encodeProtocolMessage Check h v (Some (frameLimit d0))) |}.

(** ** State *)

Inductive ConnectionState := cs_disconnected | cs_connecting | cs_connected.

#[export] Instance ConnectionState_eq_dec : EqDecision ConnectionState.
Proof. solve_decision. Defined.

(** A promise the client made and what it was settled with. *)
Inductive settlement := ResolvedSnapshot (s : ServerSnapshot) | ResolvedResult (r : CommandResult) | Rejected (e : client_error).

Record PendingRequest := MkPending { pending_command : Command; pending_promise : nat }.

Section Client.
Context `{Wire}.

(** Promises and transports by number; the handshake is a promise. *)
Inductive ConnectionLifecycle :=
| Disconnected
| Connecting (id : nat) (d : decoder) (transport : option nat) (handshake : nat)
| Connected (id : nat) (d : decoder) (transport : nat) (handshake : option nat).

(** [sequence] numbers the connections and [promises] the promises; [settled] is the
    log of every call of a [resolve] or a [reject]. *)
Record client := MkClient {
  lifecycle : ConnectionLifecycle; sequence : nat;
  snapshot : option ServerSnapshot; sessionSnapshots : gmap jsstring SessionSnapshot;
  attachedSessionIds : gset jsstring;
  pendingRequests : jsmap jsstring PendingRequest; requestSequence : Z;
  sessionLeaseCounts : jsmap jsstring Z; exclusiveSessionLeases : jsmap jsstring nat;
  sessionLeaseGenerations : jsmap jsstring Z; sessionCleanupRequired : gset jsstring;
  disposed : bool; promises : nat; settled : list (nat * settlement) }.

#[export] Instance client_eta : Eta client := λ c,
  MkClient (lifecycle c) (sequence c) (snapshot c) (sessionSnapshots c) (attachedSessionIds c) (pendingRequests c)
    (requestSequence c) (sessionLeaseCounts c) (exclusiveSessionLeases c) (sessionLeaseGenerations c)
    (sessionCleanupRequired c) (disposed c) (promises c) (settled c).

Definition new_client : client := MkClient Disconnected 0 None ∅ ∅ [] 0 [] [] [] ∅ false 0 [].

Definition connection_state (s : client) : ConnectionState :=
  match lifecycle s with Disconnected => cs_disconnected | Connecting _ _ _ _ => cs_connecting | Connected _ _ _ _ => cs_connected end.
Definition connection_id (l : ConnectionLifecycle) : option nat :=
  match l with Disconnected => None | Connecting id _ _ _ | Connected id _ _ _ => Some id end.
Definition connection_transport (l : ConnectionLifecycle) : option nat :=
  match l with Disconnected => None | Connecting _ _ t _ => t | Connected _ _ t _ => Some t end.
Definition connection_handshake (l : ConnectionLifecycle) : option nat :=
  match l with Disconnected => None | Connecting _ _ _ p => Some p | Connected _ _ _ p => p end.
Definition connection_decoder (l : ConnectionLifecycle) : option decoder :=
  match l with Disconnected => None | Connecting _ d _ _ | Connected _ d _ _ => Some d end.

Definition isCurrent (id : nat) (s : client) : bool := bool_decide (connection_id (lifecycle s) = Some id).

(** What the client calls. *)
Inductive call :=
| CallFactory (id : nat)
| CallSend (transport : nat) (frame : list Z)
| CallClose (transport : nat)
| NotifyState (state : ConnectionState) (error : option client_error)
| NotifySnapshot (snapshot : ServerSnapshot)
| NotifyEvent (event : ServerEvent)
| NotifySession (snapshot : SessionSnapshot)
| NotifySessionEvent (sessionId : jsstring) (event : ServerEvent).

(** A call out: what it does to the client, and what it throws. *)
Context (outside : call → client → client * option jsstring).

(** A listener that throws is reported, and [close] does not throw. *)
Definition tell (c : call) (s : client) : client := (outside c s).1.

Definition settle (p : nat) (o : settlement) (s : client) : client := s <| settled := settled s ++ [(p, o)] |>.
Definition settle_opt (p : option nat) (o : settlement) (s : client) : client :=
  match p with Some p => settle p o s | None => s end.

(** *** What is known of the server *)

Definition reset (s : client) : client :=
  s <| snapshot := None |> <| sessionSnapshots := ∅ |> <| attachedSessionIds := ∅ |>.
Definition clearAttachments (s : client) : client := s <| attachedSessionIds := ∅ |>.

Definition forgetSessionSnapshot (sessionId : jsstring) (s : client) : client :=
  s <| sessionSnapshots := delete sessionId (sessionSnapshots s) |>.
Definition restoreSessionSnapshot (snapshot : SessionSnapshot) (s : client) : client :=
  match sessionSnapshots s !! sess_id snapshot with
  | Some _ => s
  | None => s <| sessionSnapshots := <[sess_id snapshot := snapshot]> (sessionSnapshots s) |>
  end.

(** [snapshot.revision < current.revision]. *)
Definition older_session (sn : SessionSnapshot) (s : client) : bool :=
  match sessionSnapshots s !! sess_id sn with Some current => sess_revision sn <? sess_revision current | None => false end.
Definition older_server (sn : ServerSnapshot) (s : client) : bool :=
  match snapshot s with Some current => srv_revision sn <? srv_revision current | None => false end.

Definition store_session (sn : SessionSnapshot) (s : client) : client :=
  s <| sessionSnapshots := <[sess_id sn := sn]> (sessionSnapshots s) |>
    <| attachedSessionIds := if sess_attached sn then {[ sess_id sn ]} ∪ attachedSessionIds s
                             else attachedSessionIds s ∖ {[ sess_id sn ]} |>.

Definition applySessionSnapshot (sn : SessionSnapshot) (force : bool) (s : client) : client :=
  if negb force && older_session sn s then s else tell (NotifySession sn) (store_session sn s).

Definition applyServerSnapshot (sn : ServerSnapshot) (s : client) : client :=
  if older_server sn s then s else tell (NotifySnapshot sn) (s <| snapshot := Some sn |>).

Definition detach_session (sessionId : jsstring) (s : client) : client :=
  s <| attachedSessionIds := attachedSessionIds s ∖ {[ sessionId ]} |>.

Definition applyResult (r : CommandResult) (s : client) : client :=
  match r with
  | RList _ => s
  | RDetach sessionId =>
      let s := detach_session sessionId s in
      match sessionSnapshots s !! sessionId with
      | Some sn => applySessionSnapshot (sn <| sess_attached := false |>) true s
      | None => s
      end
  | RSession _ session => applySessionSnapshot session false s
  end.

Definition event_session (e : ServerEvent) : option jsstring :=
  match e with
  | ESessionSnapshot sn => Some (sess_id sn)
  | ESessionProgress sessionId _ | ESessionRemoved sessionId => Some sessionId
  | EServerSnapshot _ => None
  end.

(** The state an event brings. *)
Definition event_state (e : ServerEvent) (s : client) : client :=
  match e with
  | EServerSnapshot sn => applyServerSnapshot sn s
  | ESessionSnapshot sn => applySessionSnapshot sn false s
  | ESessionRemoved sessionId => detach_session sessionId (forgetSessionSnapshot sessionId s)
  | ESessionProgress _ _ => s
  end.

Definition applyEvent (e : ServerEvent) (s : client) : client :=
  let s := tell (NotifyEvent e) (event_state e s) in
  match event_session e with
  | Some ((_ :: _) as sessionId) => tell (NotifySessionEvent sessionId e) s
  | _ => s
  end.

(** *** Leases: the counters that say who may use a session *)

Inductive ownership_error := OwnedExclusively | Owned.

Definition reserveSessionLease (sessionId : jsstring) (exclusive : bool) (token : nat) (s : client)
    : result ownership_error client :=
  let count := default 0 (map_get (sessionLeaseCounts s) sessionId) in
  if exclusive && (0 <? count) then Err Owned
  else if negb exclusive && map_has (exclusiveSessionLeases s) sessionId then Err OwnedExclusively
  else
    let s := s <| sessionLeaseCounts := map_set (sessionLeaseCounts s) sessionId (count + 1) |> in
    Ok (if exclusive then s <| exclusiveSessionLeases := map_set (exclusiveSessionLeases s) sessionId token |> else s).

Definition releaseSessionLease (sessionId : jsstring) (token : nat) (s : client) : client :=
  let count := default 0 (map_get (sessionLeaseCounts s) sessionId) in
  let s := s <| sessionLeaseCounts := if count <=? 1 then map_delete (sessionLeaseCounts s) sessionId
                                      else map_set (sessionLeaseCounts s) sessionId (count - 1) |> in
  if bool_decide (map_get (exclusiveSessionLeases s) sessionId = Some token)
  then s <| exclusiveSessionLeases := map_delete (exclusiveSessionLeases s) sessionId |> else s.

Definition invalidateSessionLeases (s : client) (sessionId : jsstring) : client :=
  let generation := default 0 (map_get (sessionLeaseGenerations s) sessionId) in
  s <| sessionLeaseCounts := map_delete (sessionLeaseCounts s) sessionId |>
    <| exclusiveSessionLeases := map_delete (exclusiveSessionLeases s) sessionId |>
    <| sessionCleanupRequired := sessionCleanupRequired s ∖ {[ sessionId ]} |>
    <| sessionLeaseGenerations := map_set (sessionLeaseGenerations s) sessionId (generation + 1) |>.

Definition invalidateAllSessionLeases (s : client) : client :=
  let s := foldl invalidateSessionLeases s (map_keys (sessionLeaseCounts s)) in
  s <| sessionCleanupRequired := ∅ |>.

(** *** Pending requests *)

Definition takePendingRequest (id : jsstring) (s : client) : option PendingRequest * client :=
  match map_get (pendingRequests s) id with
  | Some r => (Some r, s <| pendingRequests := map_delete (pendingRequests s) id |>)
  | None => (None, s)
  end.

Definition rejectPendingRequests (e : client_error) (s : client) : client :=
  let requests := map_values (pendingRequests s) in
  foldl (λ s r, settle (pending_promise r) (Rejected e) s) (s <| pendingRequests := [] |>) requests.

Definition handleConnectionStateChange (st : ConnectionState) (error : option client_error) (s : client) : client :=
  let s :=
    if bool_decide (st = cs_disconnected)
    then rejectPendingRequests (default NotConnected error) (invalidateAllSessionLeases (clearAttachments s)) else s in
  tell (NotifyState st error) s.

(** *** Failing *)

Definition fail (e : client_error) (s : client) : client :=
  match lifecycle s with
  | Disconnected => s
  | l =>
      let s := settle_opt (connection_handshake l) (Rejected e) (s <| lifecycle := Disconnected |>) in
      handleConnectionStateChange cs_disconnected (Some e) s
  end.

Definition failAndClose (e : client_error) (s : client) : client :=
  let transport := connection_transport (lifecycle s) in
  let s := fail e s in
  match transport with Some t => tell (CallClose t) s | None => s end.

(** A transport's own disconnection error is kept; its text stands for it. *)
Definition toDisconnectedError (e : jsstring) : client_error := TransportFailed e.

(** *** Connecting *)

Definition openTransport (id : nat) (s : client) : client :=
  let '(s, thrown) := outside (CallFactory id) s in
  match thrown with
  | Some e => if isCurrent id s then fail (toDisconnectedError e) s else s
  | None => s
  end.

Definition connection_connect (s : client) : client :=
  match lifecycle s with
  | Disconnected =>
      let id := S (sequence s) in
      let handshake := promises s in
      let s := s <| sequence := id |> <| promises := S handshake |>
                 <| lifecycle := Connecting id new_decoder None handshake |> in
      let s := handleConnectionStateChange cs_connecting None s in
      openTransport id s
  | _ => s
  end.

(** A client that is disposed or connected already returns a rejected promise. *)
Definition connect (s : client) : client :=
  if disposed s then s
  else connection_connect (if bool_decide (connection_state s = cs_disconnected) then reset s else s).

(** The factory's promise settles. *)
Definition transport_opened (id : nat) (r : result jsstring nat) (s : client) : client :=
  match r with
  | Err e => if isCurrent id s then fail (toDisconnectedError e) s else s
  | Ok transport =>
      match lifecycle s with
      | Connecting id' d _ handshake =>
          if bool_decide (id' = id) then
            let s := s <| lifecycle := Connecting id d (Some transport) handshake |> in
            match encodeClientMessage ClientHello with
            | Err e => if isCurrent id s then failAndClose (toDisconnectedError e) s else s
            | Ok frame =>
                let '(s, thrown) := outside (CallSend transport frame) s in
                match thrown with
                | Some e => if isCurrent id s then failAndClose (toDisconnectedError e) s else s
                | None => s
                end
            end
          else tell (CallClose transport) s
      | _ => tell (CallClose transport) s
      end
  end.

(** The promise of the hello is rejected. *)
Definition hello_failed (id : nat) (e : jsstring) (s : client) : client :=
  if isCurrent id s then failAndClose (toDisconnectedError e) s else s.

Definition connection_send (frame : list Z) (s : client) : client :=
  match lifecycle s with
  | Connected _ _ transport _ =>
      let '(s, thrown) := outside (CallSend transport frame) s in
      match thrown with Some e => failAndClose (toDisconnectedError e) s | None => s end
  | _ => s
  end.

(** The promise of a send is rejected. *)
Definition send_failed (transport : nat) (e : jsstring) (s : client) : client :=
  if bool_decide (connection_transport (lifecycle s) = Some transport) then failAndClose (toDisconnectedError e) s else s.

(** *** Requests *)

Definition request_id (n : Z) : jsstring := js "request-" ++ js_of_Z n.

(** A client that is disposed or not connected returns a rejected promise. *)
Definition request (c : Command) (s : client) : client :=
  if disposed s then s
  else if negb (bool_decide (connection_state s = cs_connected)) then s
  else
    let n := requestSequence s + 1 in
    let p := promises s in
    let s := s <| requestSequence := n |> <| promises := S p |>
               <| pendingRequests := map_set (pendingRequests s) (request_id n) (MkPending c p) |> in
    match encodeClientMessage (Request (request_id n) c) with
    | Err e =>
        let '(r, s) := takePendingRequest (request_id n) s in
        settle_opt (pending_promise <$> r) (Rejected (EncodeFailed e)) s
    | Ok frame => connection_send frame s
    end.

(** [#attachSession] up to its await, and what it does when the request fails. *)
Definition attach (sessionId : jsstring) (s : client) : client :=
  request (CAttach sessionId) (forgetSessionSnapshot sessionId s).
Definition attach_failed (previous : option SessionSnapshot) (s : client) : client :=
  match previous with Some sn => restoreSessionSnapshot sn s | None => s end.

(** *** Messages *)

Definition handle_response (id : jsstring) (outcome : result JsonValue CommandResult) (s : client) : client :=
  let '(pending, s) := takePendingRequest id s in
  match pending with
  | None => failAndClose (Invalid NoMatchingRequest) s
  | Some r =>
      match outcome with
      | Err e => settle (pending_promise r) (Rejected (ServerError e)) s
      | Ok res =>
          if bool_decide (result_name res = command_name (pending_command r)) then
            settle (pending_promise r) (ResolvedResult res) (applyResult res s)
          else
            let e := Invalid (CommandMismatch (result_name res) (command_name (pending_command r))) in
            failAndClose e (settle (pending_promise r) (Rejected e) s)
      end
  end.

Definition onMessage (m : ServerMessage) (s : client) : client :=
  match m with
  | Event e =>
      let s := match e with ESessionRemoved sessionId => invalidateSessionLeases s sessionId | _ => s end in
      applyEvent e s
  | Response id outcome => handle_response id outcome s
  | _ => s
  end.

(** [this.#lifecycle === connected]: only the end of the handshake replaces the object
    of a connection that is connected. *)
Definition still_connected (id : nat) (s : client) : bool :=
  match lifecycle s with Connected id' _ _ (Some _) => bool_decide (id' = id) | _ => false end.

Definition end_handshake (s : client) : client :=
  match lifecycle s with Connected id d transport _ => s <| lifecycle := Connected id d transport None |> | _ => s end.

Definition handleMessage (m : ServerMessage) (s : client) : client :=
  match lifecycle s with
  | Connecting id d transport handshake =>
      match m with
      | HelloError e => failAndClose (ServerError e) s
      | Hello sn =>
          match transport with
          | None => failAndClose (Invalid EarlyHello) s
          | Some t =>
              let s := applyServerSnapshot sn (s <| lifecycle := Connected id d t (Some handshake) |>) in
              if negb (still_connected id s) then s
              else
                let s := handleConnectionStateChange cs_connected None s in
                if negb (still_connected id s) then s
                else settle handshake (ResolvedSnapshot sn) (end_handshake s)
          end
      | _ => failAndClose (Invalid ExpectedHello) s
      end
  | Connected _ _ _ _ =>
      match m with
      | Hello _ | HelloError _ => failAndClose (Invalid UnexpectedHandshake) s
      | _ => onMessage m s
      end
  | Disconnected => s
  end.

Fixpoint handleMessages (ms : list ServerMessage) (s : client) : client :=
  match ms with
  | [] => s
  | m :: ms => if bool_decide (connection_state s = cs_disconnected) then s else handleMessages ms (handleMessage m s)
  end.

Definition set_decoder (d : decoder) (s : client) : client :=
  match lifecycle s with
  | Disconnected => s
  | Connecting id _ t p => s <| lifecycle := Connecting id d t p |>
  | Connected id _ t p => s <| lifecycle := Connected id d t p |>
  end.

Definition push_data (d : decoder) (chunk : list Z) (s : client) : client :=
  let '(d, r) := decoder_push d chunk in
  let s := set_decoder d s in
  match r with Err e => failAndClose (Invalid (Malformed e)) s | Ok ms => handleMessages ms s end.

Definition handleData (id : nat) (chunk : list Z) (s : client) : client :=
  if isCurrent id s then
    match lifecycle s with
    | Connecting _ _ None _ => failAndClose (Invalid EarlyData) s
    | Connecting _ d _ _ | Connected _ d _ _ => push_data d chunk s
    | Disconnected => s
    end
  else s.

Definition onClose (id : nat) (s : client) : client :=
  if isCurrent id s then
    match connection_decoder (lifecycle s) with
    | Some d =>
        fail match decoder_end d with Ok _ => TransportClosed | Err e => Invalid (Malformed e) end s
    | None => s
    end
  else s.

Definition onError (id : nat) (e : jsstring) (s : client) : client :=
  if isCurrent id s then failAndClose (toDisconnectedError e) s else s.

Definition disconnect (e : client_error) (s : client) : client :=
  if bool_decide (connection_state s = cs_disconnected) then s else failAndClose e s.

Definition dispose (s : client) : client :=
  if disposed s then s
  else
    let s := rejectPendingRequests Disposed (s <| disposed := true |>) in
    invalidateAllSessionLeases (reset (disconnect Disposed s)).

(** *** Everything that can happen to a client *)

Inductive action :=
| AConnect | ADisconnect (reason : jsstring) | ADispose | ARequest (c : Command)
| AAttach (sessionId : jsstring) | AAttachFailed (previous : option SessionSnapshot)
| AReserve (sessionId : jsstring) (exclusive : bool) (token : nat) | ARelease (sessionId : jsstring) (token : nat)
| ACleanup (sessionId : jsstring) | AReconciled (sessionId : jsstring)
| AOpened (id : nat) (r : result jsstring nat) | AHelloFailed (id : nat) (e : jsstring)
| ASendFailed (transport : nat) (e : jsstring)
| AData (id : nat) (chunk : list Z) | AClose (id : nat) | AError (id : nat) (e : jsstring).

Definition perform (a : action) (s : client) : client :=
  match a with
  | AConnect => connect s
  | ADisconnect reason => disconnect (Reason reason) s
  | ADispose => dispose s
  | ARequest c => request c s
  | AAttach sessionId => attach sessionId s
  | AAttachFailed previous => attach_failed previous s
  | AReserve sessionId exclusive token =>
      if disposed s then s else match reserveSessionLease sessionId exclusive token s with Ok s => s | Err _ => s end
  | ARelease sessionId token => releaseSessionLease sessionId token s
  | ACleanup sessionId => s <| sessionCleanupRequired := {[ sessionId ]} ∪ sessionCleanupRequired s |>
  | AReconciled sessionId => s <| sessionCleanupRequired := sessionCleanupRequired s ∖ {[ sessionId ]} |>
  | AOpened id r => transport_opened id r s
  | AHelloFailed id e => hello_failed id e s
  | ASendFailed transport e => send_failed transport e s
  | AData id chunk => handleData id chunk s
  | AClose id => onClose id s
  | AError id e => onError id e s
  end.
End Client.

(** What a call out does: actions on the client, chosen by what is called and by the
    client's state, and whether it throws.  The actions make calls in turn, up to a
    depth. *)
Record environment `{Wire} := MkEnvironment {
  react : nat → call → client → list action; throws : nat → call → client → option jsstring }.

Fixpoint exec `{Wire} (env : environment) (depth : nat) (a : action) (s : client) : client :=
  perform
    (λ c s, match depth with
            | O => (s, None)
            | S depth => (foldl (λ s a, exec env depth a s) s (react env depth c s), throws env depth c s)
            end) a s.

(** What the calls out of [exec env depth] do. *)
Definition call_out `{Wire} (env : environment) (depth : nat) (c : call) (s : client) : client * option jsstring :=
  match depth with
  | O => (s, None)
  | S depth => (foldl (λ s a, exec env depth a s) s (react env depth c s), throws env depth c s)
  end.

Lemma exec_perform `{Wire} env depth a s : exec env depth a s = perform (call_out env depth) a s.
Proof. by destruct depth. Qed.

Inductive reachable `{Wire} : client → Prop :=
| reachable_new : reachable new_client
| reachable_exec s env depth a : reachable s → reachable (exec env depth a s).
