(* ===== verification/ClientTheorems.v ===== *)
(** * What the client keeps

    Whatever the server sends, whatever the transport does and however listeners call
    the client back: every promise of the client is settled once, nothing is left
    pending when a connection ends, and what is known of the server does not go back. *)

From S2P Require Import Prelude JsString JsMap SessionTypes Client.

Lemma map_delete_absent {V} (m : jsmap jsstring V) k : k ∉ map_keys m → map_delete m k = m.
Proof.
  unfold map_keys, map_delete. induction m as [|[k' v] m IH]; [done|]. cbn [fmap list_fmap fst].
  intros [Hk Hm]%not_elem_of_cons. rewrite filter_cons_True by (cbn; congruence). by rewrite IH.
Qed.

Lemma map_delete_values {V} (m : jsmap jsstring V) k v :
  map_wf m → map_get m k = Some v → map_values m ≡ₚ v :: map_values (map_delete m k).
Proof.
  unfold map_wf, map_values. induction m as [|[k' v'] m IH]; [done|].
  cbn [map_keys fmap list_fmap map_get fst snd]. intros [Hk Hm]%NoDup_cons Hget.
  destruct (decide (k = k')) as [->|Hne].
  - injection Hget as ->. unfold map_delete. rewrite filter_cons_False by (cbn; auto).
    fold (map_delete m k'). by rewrite map_delete_absent.
  - unfold map_delete. rewrite filter_cons_True by (cbn; congruence). fold (map_delete m k). cbn [fmap list_fmap snd].
    rewrite (IH Hm Hget). apply Permutation_swap.
Qed.

Lemma map_delete_keys {V} (m : jsmap jsstring V) k k' : k' ∈ map_keys (map_delete m k) → k' ∈ map_keys m.
Proof. unfold map_keys, map_delete. intros ([k0 v] & -> & [_ Hin]%list_elem_of_filter)%list_elem_of_fmap. by apply (list_elem_of_fmap_2 fst). Qed.

#[export] Instance request_id_inj : Inj (=) (=) request_id.
Proof. intros n m Hnm. unfold request_id in Hnm. apply (inj (app _)) in Hnm. by apply (inj js_of_Z). Qed.

Section Client.
Context `{Wire}.

(** ** The invariant *)

(** The promises that wait: of requests, and of the handshake. *)
Definition open_promises (s : client) : list nat :=
  (pending_promise <$> map_values (pendingRequests s)) ++ option_list (connection_handshake (lifecycle s)).

(** Every promise was settled once or waits once; [held] are those of requests that a
    response has taken and that are about to be settled. *)
Record core (held : list nat) (s : client) : Prop := {
  inv_promises : (settled s).*1 ++ open_promises s ++ held ≡ₚ seq 0 (promises s);
  inv_wf : map_wf (pendingRequests s);
  inv_keys : ∀ k, k ∈ map_keys (pendingRequests s) → ∃ n, n ≤ requestSequence s ∧ k = request_id n;
  inv_current : ∀ id, connection_id (lifecycle s) = Some id → id = sequence s;
  inv_sessions : ∀ k sn, sessionSnapshots s !! k = Some sn → sess_id sn = k }.

Record inv (held : list nat) (s : client) : Prop := {
  inv_core : core held s;
  inv_idle : connection_state s ≠ cs_connected → pendingRequests s = [] ∧ attachedSessionIds s = ∅;
  inv_disposed : disposed s = true → lifecycle s = Disconnected;
  inv_snapshot : connection_state s = cs_connected → is_Some (snapshot s) }.

(** What only grows; within a connection the revision does not go back, the handshake is
    not another one, and a connection that is over stays so. *)
Record grows (s s' : client) : Prop := {
  grows_promises : (promises s ≤ promises s')%nat;
  grows_sequence : (sequence s ≤ sequence s')%nat;
  grows_settled : settled s `prefix_of` settled s';
  grows_disposed : disposed s = true → disposed s' = true;
  grows_handshake : sequence s' = sequence s →
    ∀ p, connection_handshake (lifecycle s') = Some p → connection_handshake (lifecycle s) = Some p;
  grows_gone : sequence s' = sequence s → lifecycle s = Disconnected → lifecycle s' = Disconnected;
  grows_revision : sequence s' = sequence s → disposed s' = false →
    ∀ a, snapshot s = Some a → ∃ b, snapshot s' = Some b ∧ srv_revision a ≤ srv_revision b }.

#[export] Instance grows_preorder : PreOrder grows.
Proof.
  split.
  - intros s. split; try done. intros _ _ a Ha. exists a. split; [done|lia].
  - intros s1 s2 s3 [P1 Q1 S1 D1 H1 G1 R1] [P2 Q2 S2 D2 H2 G2 R2]. split; [lia|lia|by etrans|auto|..].
    { intros Hq p Hp. apply H1; [lia|]. apply H2; [lia|done]. }
    { intros Hq Hl. apply G2; [lia|]. apply G1; [lia|done]. }
    intros Hq Hd a Ha. assert (disposed s2 = false) as Hd2 by (destruct (disposed s2); [|done]; rewrite D2 in Hd by done; done).
    destruct (R1 ltac:(lia) Hd2 a Ha) as (b & Hb & ?). destruct (R2 ltac:(lia) Hd b Hb) as (c & ? & ?).
    exists c. split; [done|lia].
Qed.

(** Updates that touch nothing the relation looks at. *)
Lemma grows_same s s' :
  promises s' = promises s → sequence s' = sequence s → settled s' = settled s → disposed s' = disposed s →
  snapshot s' = snapshot s → connection_handshake (lifecycle s') = connection_handshake (lifecycle s) →
  (lifecycle s = Disconnected → lifecycle s' = Disconnected) → grows s s'.
Proof.
  intros Hp Hq Hs Hd Hsn Hh Hg. split; rewrite ?Hp, ?Hq, ?Hs, ?Hd, ?Hsn, ?Hh; try done. intros _ _ a Ha. exists a. split; [done|lia].
Qed.

Definition good (held : list nat) (s0 s : client) : Prop := inv held s ∧ grows s0 s.

Lemma good_refl held s : inv held s → good held s s.
Proof. by split. Qed.

(** ** Leases play no part in it *)

Definition unleased (s : client) : client :=
  s <| sessionLeaseCounts := [] |> <| exclusiveSessionLeases := [] |> <| sessionLeaseGenerations := [] |>
    <| sessionCleanupRequired := ∅ |>.

Lemma unleased_inv held s s' : unleased s' = unleased s → inv held s → inv held s'.
Proof.
  intros Hs. destruct s, s'. injection Hs as -> -> -> -> -> -> -> -> -> ->. by intros [[] ? ? ?].
Qed.
Lemma unleased_core held s s' : unleased s' = unleased s → core held s → core held s'.
Proof. intros Hs. destruct s, s'. injection Hs as -> -> -> -> -> -> -> -> -> ->. by intros []. Qed.
Lemma unleased_grows s s' : unleased s' = unleased s → grows s s'.
Proof. intros Hs. destruct s, s'. injection Hs as -> -> -> -> -> -> -> -> -> ->. by apply grows_same. Qed.

Lemma unleased_good held s0 s s' : unleased s' = unleased s → good held s0 s → good held s0 s'.
Proof. intros Hs [Hi Hg]. split; [by eapply unleased_inv|]. etrans; [exact Hg|by apply unleased_grows]. Qed.

Lemma invalidate_unleased s sessionId : unleased (invalidateSessionLeases s sessionId) = unleased s.
Proof. done. Qed.

Lemma invalidateAll_unleased s : unleased (invalidateAllSessionLeases s) = unleased s.
Proof.
  unfold invalidateAllSessionLeases. generalize (map_keys (sessionLeaseCounts s)). intros ks. revert s.
  induction ks as [|k ks IH]; intros s; [done|]. cbn [foldl]. by rewrite IH.
Qed.

(** ** Settling what is pending *)

Lemma rejectPending_eq e s :
  rejectPendingRequests e s
  = s <| pendingRequests := [] |>
      <| settled := settled s ++ ((λ r, (pending_promise r, Rejected e)) <$> map_values (pendingRequests s)) |>.
Proof.
  unfold rejectPendingRequests. generalize (map_values (pendingRequests s)). intros rs.
  assert (∀ s : client, foldl (λ s r, settle (pending_promise r) (Rejected e) s) s rs
    = s <| settled := settled s ++ ((λ r, (pending_promise r, Rejected e)) <$> rs) |>) as Hf; [|by rewrite Hf].
  induction rs as [|r rs IH]; intros s1; cbn [foldl fmap list_fmap]; [rewrite app_nil_r; by destruct s1|].
  rewrite IH. cbn. by rewrite <- app_assoc.
Qed.

Lemma unleased_settle s1 s2 pending settlements :
  unleased s1 = unleased s2 →
  unleased (s1 <| pendingRequests := pending |> <| settled := settlements |>)
  = unleased (s2 <| pendingRequests := pending |> <| settled := settlements |>).
Proof. intros Hs. destruct s1, s2. injection Hs as -> -> -> -> -> -> -> -> -> ->. done. Qed.

(** A connection that ends: its handshake and its requests are rejected. *)
Definition closed (e : client_error) (s : client) : client :=
  rejectPendingRequests e
    (invalidateAllSessionLeases (clearAttachments
       (settle_opt (connection_handshake (lifecycle s)) (Rejected e) (s <| lifecycle := Disconnected |>)))).

Lemma closed_unleased e s :
  unleased (closed e s)
  = unleased s <| lifecycle := Disconnected |> <| attachedSessionIds := ∅ |> <| pendingRequests := [] |>
      <| settled := settled s
           ++ ((λ p, (p, Rejected e)) <$> option_list (connection_handshake (lifecycle s)))
           ++ ((λ r, (pending_promise r, Rejected e)) <$> map_values (pendingRequests s)) |>.
Proof.
  unfold closed. rewrite rejectPending_eq.
  set (s1 := clearAttachments _). pose proof (invalidateAll_unleased s1) as Hu.
  set (s2 := invalidateAllSessionLeases s1) in *.
  assert (pendingRequests s2 = pendingRequests s1 ∧ settled s2 = settled s1) as [-> ->]
    by (split; [exact (f_equal pendingRequests Hu)|exact (f_equal settled Hu)]).
  rewrite (unleased_settle _ _ _ _ Hu).
  subst s1. destruct (connection_handshake (lifecycle s)); cbn; by rewrite <- ?app_assoc.
Qed.

Lemma closed_good held s0 s e : core held s → grows s0 s → good held s0 (closed e s).
Proof.
  intros [Hp Hwf Hk Hc Hss] Hg. apply (unleased_good _ _ (unleased (closed e s))); [done|]. rewrite closed_unleased.
  split.
  - split; [split|done..]; cbn; try done.
    + rewrite <- Hp. unfold open_promises. rewrite !fmap_app, <- !list_fmap_compose. cbn.
      rewrite (list_fmap_id (option_list _)). rewrite <- !(assoc_L app). apply Permutation_app_head.
      rewrite !(assoc_L app). apply Permutation_app_tail. apply Permutation_app_comm.
    + unfold map_wf. cbn. apply NoDup_nil_2.
    + by intros k ?%elem_of_nil.
  - etrans; [exact Hg|]. split; cbn; try done; [by apply prefix_app_r|]. intros _ _ a Ha. exists a. split; [done|lia].
Qed.

Section Outside.
Context (outside : call → client → client * option jsstring).
Context (Hout : ∀ c held s, inv held s → good held s (outside c s).1).

Lemma tell_good held s0 s c : good held s0 s → good held s0 (tell outside c s).
Proof. intros [Hs Hg]. destruct (Hout c held s Hs) as [Hs' Hg']. split; [done|]. by etrans. Qed.

(** ** Failing *)

Lemma fail_good held s0 s e :
  core held s → grows s0 s → (lifecycle s = Disconnected → inv held s) → good held s0 (fail outside e s).
Proof.
  intros Hc Hg Hd. unfold fail. destruct (lifecycle s) as [|id d t p|id d t p] eqn:Hl; [by split; [apply Hd|]|..];
    unfold handleConnectionStateChange; rewrite bool_decide_true by done; cbn [default];
    apply tell_good; pose proof (closed_good held s0 s e Hc Hg) as Hgood; unfold closed in Hgood; by rewrite Hl in Hgood.
Qed.

Lemma failAndClose_good_core held s0 s e :
  core held s → grows s0 s → (lifecycle s = Disconnected → inv held s) → good held s0 (failAndClose outside e s).
Proof.
  intros Hc Hg Hd. unfold failAndClose. pose proof (fail_good held s0 s e Hc Hg Hd) as Hf.
  destruct (connection_transport _); [by apply tell_good|done].
Qed.

Lemma failAndClose_good held s0 s e : good held s0 s → good held s0 (failAndClose outside e s).
Proof. intros [[Hc ? ? ?] Hg]. by apply failAndClose_good_core. Qed.

Lemma fail_good' held s0 s e : good held s0 s → good held s0 (fail outside e s).
Proof. intros [[Hc ? ? ?] Hg]. by apply fail_good. Qed.

(** ** What is known of the server *)

Lemma sessions_insert held s sn :
  core held s → ∀ k sn', <[sess_id sn := sn]> (sessionSnapshots s) !! k = Some sn' → sess_id sn' = k.
Proof. intros Hc k sn' [[<- <-]|[_ Hk]]%lookup_insert_Some; [done|]. by apply (inv_sessions _ _ Hc). Qed.

Lemma store_session_good held s0 s sn :
  good held s0 s → connection_state s = cs_connected → good held s0 (store_session sn s).
Proof.
  intros [[Hcore Hi Hd Hs] Hg] Hconn. pose proof (sessions_insert held s sn Hcore) as Hins. destruct Hcore.
  split; [|etrans; [exact Hg|by apply grows_same]].
  split; [split|..]; try done.
Qed.

Lemma applySessionSnapshot_good held s0 s sn force :
  good held s0 s → connection_state s = cs_connected → good held s0 (applySessionSnapshot outside sn force s).
Proof. intros Hs Hc. unfold applySessionSnapshot. destruct (_ && _); [done|]. by apply tell_good, store_session_good. Qed.

(** The snapshot that is stored is not older, so the revision does not go back. *)
Lemma applyServerSnapshot_stored held s0 s sn :
  core held s → grows s0 s → older_server sn s = false →
  (connection_state s ≠ cs_connected → pendingRequests s = [] ∧ attachedSessionIds s = ∅) →
  (disposed s = true → lifecycle s = Disconnected) → good held s0 (s <| snapshot := Some sn |>).
Proof.
  intros [] Hg Hold Hi Hd. split.
  - split; [split|..]; done.
  - etrans; [exact Hg|]. split; cbn; try done. intros _ _ a Ha. unfold older_server in Hold. rewrite Ha in Hold.
    apply Z.ltb_ge in Hold. by exists sn.
Qed.

Lemma applyServerSnapshot_good_core held s0 s sn :
  core held s → grows s0 s →
  (connection_state s ≠ cs_connected → pendingRequests s = [] ∧ attachedSessionIds s = ∅) →
  (disposed s = true → lifecycle s = Disconnected) → good held s0 (applyServerSnapshot outside sn s).
Proof.
  intros Hc Hg Hi Hd. unfold applyServerSnapshot. destruct (older_server sn s) eqn:Hold.
  - split; [|done]. split; try done. intros _. unfold older_server in Hold. by destruct (snapshot s).
  - by apply tell_good, applyServerSnapshot_stored.
Qed.

Lemma applyServerSnapshot_good held s0 s sn : good held s0 s → good held s0 (applyServerSnapshot outside sn s).
Proof. intros [[] ?]. by apply applyServerSnapshot_good_core. Qed.

(** Updates of the sessions and the attachments that only remove. *)
Lemma smaller_good held s0 s sessions attached :
  good held s0 s → attached ⊆ attachedSessionIds s →
  (∀ k sn, sessions !! k = Some sn → sess_id sn = k) →
  good held s0 (s <| sessionSnapshots := sessions |> <| attachedSessionIds := attached |>).
Proof.
  intros [[[] Hi ? ?] Hg] Hat Hss. split; [|etrans; [exact Hg|by apply grows_same]].
  split; [split|..]; try done. cbn. intros Hn. destruct (Hi Hn) as [? Ha]. split; [done|]. rewrite Ha in Hat. set_solver.
Qed.

Lemma detach_good held s0 s k : good held s0 s → good held s0 (detach_session k s).
Proof.
  intros Hs. assert (detach_session k s = s <| sessionSnapshots := sessionSnapshots s |>
                      <| attachedSessionIds := attachedSessionIds s ∖ {[ k ]} |>) as -> by by destruct s.
  apply smaller_good; [done|set_solver|]. destruct Hs as [[[] ? ? ?] _]. done.
Qed.

Lemma forget_good held s0 s k : good held s0 s → good held s0 (forgetSessionSnapshot k s).
Proof.
  intros Hs. assert (forgetSessionSnapshot k s = s <| sessionSnapshots := delete k (sessionSnapshots s) |>
                      <| attachedSessionIds := attachedSessionIds s |>) as -> by by destruct s.
  apply smaller_good; [done|set_solver|]. intros k' sn [_ Hk]%lookup_delete_Some. destruct Hs as [[[] ? ? ?] _]. auto.
Qed.

Lemma restore_good held s0 s sn : good held s0 s → good held s0 (restoreSessionSnapshot sn s).
Proof.
  intros Hs. unfold restoreSessionSnapshot. destruct (_ !! _); [done|].
  assert (s <| sessionSnapshots := <[sess_id sn := sn]> (sessionSnapshots s) |>
          = s <| sessionSnapshots := <[sess_id sn := sn]> (sessionSnapshots s) |>
              <| attachedSessionIds := attachedSessionIds s |>) as -> by by destruct s.
  apply smaller_good; [done|set_solver|]. destruct Hs as [[? ? ? ?] _]. by eapply sessions_insert.
Qed.

Lemma applyResult_good held s0 s r :
  good held s0 s → connection_state s = cs_connected → good held s0 (applyResult outside r s).
Proof.
  intros Hs Hc. destruct r as [sessions|k|c sn]; cbn [applyResult]; [done| |by apply applySessionSnapshot_good].
  pose proof (detach_good held s0 s k Hs) as Hk. destruct (sessionSnapshots _ !! k); [|done].
  by apply applySessionSnapshot_good.
Qed.

Lemma applyEvent_good held s0 s e :
  good held s0 s → connection_state s = cs_connected → good held s0 (applyEvent outside e s).
Proof.
  intros Hs Hc. assert (good held s0 (event_state outside e s)) as He.
  { destruct e; [by apply applyServerSnapshot_good|by apply applySessionSnapshot_good|done|].
    by apply detach_good, forget_good. }
  apply (tell_good _ _ _ (NotifyEvent e)) in He. unfold applyEvent.
  destruct (event_session e) as [[|]|]; [done|by apply tell_good|done].
Qed.

(** ** Connecting *)

Lemma begin_connect_good held s0 s :
  good held s0 s → disposed s = false → lifecycle s = Disconnected →
  good held s0 (s <| snapshot := None |> <| sessionSnapshots := ∅ |> <| attachedSessionIds := ∅ |>
                  <| sequence := S (sequence s) |> <| promises := S (promises s) |>
                  <| lifecycle := Connecting (S (sequence s)) new_decoder None (promises s) |>).
Proof.
  intros [[[Hp Hwf Hk Hc Hss] Hi Hd Hs] Hg] Hdis Hl.
  assert (pendingRequests s = []) as Hpend by (apply Hi; unfold connection_state; by rewrite Hl). split.
  - split; [split|..]; cbn -[seq]; try done.
    + rewrite seq_S, <- Hp. unfold open_promises. cbn. rewrite Hl, Hpend. cbn. rewrite <- (assoc_L app).
      apply Permutation_app_head. apply (Permutation_app_comm [_]).
    + by intros id [= <-].
    + congruence.
  - etrans; [exact Hg|]. split; cbn; try done; try lia.
Qed.

Lemma openTransport_good held s0 s id : good held s0 s → good held s0 (openTransport outside id s).
Proof.
  intros Hs. apply (tell_good _ _ _ (CallFactory id)) in Hs. unfold openTransport, tell in *.
  destruct (outside _ s) as [s1 thrown]. cbn in Hs. destruct thrown; [|done]. destruct (isCurrent _ _); [by apply fail_good'|done].
Qed.

Lemma connect_good held s0 s : good held s0 s → good held s0 (connect outside s).
Proof.
  intros Hs. unfold connect. destruct (disposed s) eqn:Hd; [done|]. unfold connection_state.
  destruct (lifecycle s) as [|id d t p|id d t p] eqn:Hl; [|by rewrite bool_decide_false; [unfold connection_connect; rewrite Hl|]..].
  rewrite bool_decide_true by done. unfold connection_connect. cbn [lifecycle reset set_field]. rewrite Hl.
  apply openTransport_good. unfold handleConnectionStateChange. rewrite bool_decide_false by done.
  apply tell_good. by apply (begin_connect_good held s0 s).
Qed.

(** A life with another decoder or transport. *)
Lemma lifecycle_good held s0 s l :
  good held s0 s → connection_id l = connection_id (lifecycle s) →
  connection_handshake l = connection_handshake (lifecycle s) →
  connection_state (s <| lifecycle := l |>) = connection_state s → good held s0 (s <| lifecycle := l |>).
Proof.
  intros [[[Hp Hwf Hk Hc Hss] Hi Hd Hs] Hg] Hid Hh Hst.
  assert (lifecycle s = Disconnected → l = Disconnected) as Hl by (intros Hl; rewrite Hl in Hid; by destruct l). split.
  - split; [split|..]; rewrite ?Hst; cbn -[seq]; try done.
    + unfold open_promises in *. cbn. by rewrite Hh.
    + by rewrite Hid.
    + auto.
  - etrans; [exact Hg|]. by apply grows_same.
Qed.

(** A call to the transport, and what follows when it throws. *)
Lemma call_then_good held s0 s c (k : jsstring → client → client) :
  good held s0 s → (∀ e s1, good held s0 s1 → good held s0 (k e s1)) →
  good held s0 (let '(s1, thrown) := outside c s in match thrown with Some e => k e s1 | None => s1 end).
Proof.
  intros Hs Hk. apply (tell_good _ _ _ c) in Hs. unfold tell in Hs. destruct (outside c s) as [s1 [e|]]; [by apply Hk|done].
Qed.

Lemma current_fail_good held s0 s id e :
  good held s0 s → good held s0 (if isCurrent id s then failAndClose outside e s else s).
Proof. intros Hs. destruct (isCurrent id s); [by apply failAndClose_good|done]. Qed.

Lemma transport_opened_good held s0 s id r : good held s0 s → good held s0 (transport_opened outside id r s).
Proof.
  intros Hs. unfold transport_opened. destruct r as [t|e]; [|by destruct (isCurrent id s); [apply fail_good'|]].
  destruct (lifecycle s) as [|id' d t' p|id' d t' p] eqn:Hl; [by apply tell_good| |by apply tell_good].
  case_bool_decide; [subst id'|by apply tell_good].
  assert (good held s0 (s <| lifecycle := Connecting id d (Some t) p |>)) as Hs1.
  { apply lifecycle_good; rewrite ?Hl; try done. unfold connection_state. by rewrite Hl. }
  destruct (encodeClientMessage ClientHello) as [frame|e]; [|by apply current_fail_good].
  apply call_then_good; [done|]. intros e s1 ?. by apply current_fail_good.
Qed.

Lemma connection_send_good held s0 s frame : good held s0 s → good held s0 (connection_send outside frame s).
Proof.
  intros Hs. unfold connection_send. destruct (lifecycle s); [done|done|]. apply call_then_good; [done|].
  intros e s1 ?. by apply failAndClose_good.
Qed.

(** ** Requests *)

(** A response takes its request out of the pending ones. *)
Lemma take_good held s0 s id r s1 :
  good held s0 s → takePendingRequest id s = (Some r, s1) →
  good (pending_promise r :: held) s0 s1 ∧ lifecycle s1 = lifecycle s ∧ s1 = s <| pendingRequests := map_delete (pendingRequests s) id |>.
Proof.
  intros [[[Hp Hwf Hk Hc Hss] Hi Hd Hs] Hg]. unfold takePendingRequest.
  destruct (map_get (pendingRequests s) id) as [r'|] eqn:Hr; [|done]. intros [= -> <-]. split_and!; [|done|done].
  split; [|etrans; [exact Hg|by apply grows_same]].
  assert (connection_state s = cs_connected) as Hconn.
  { destruct (decide (connection_state s = cs_connected)) as [|Hn]; [done|]. destruct (Hi Hn) as [Hpe _]. by rewrite Hpe in Hr. }
  split; [split|..]; cbn; try done.
  - rewrite <- Hp. unfold open_promises. cbn. rewrite (map_delete_values _ _ _ Hwf Hr). cbn. solve_Permutation.
  - by apply map_delete_wf.
  - intros k Hin. apply Hk. by eapply map_delete_keys.
Qed.

Lemma settle_good held s0 s p o : good (p :: held) s0 s → good held s0 (settle p o s).
Proof.
  intros [[[Hp Hwf Hk Hc Hss] Hi Hd Hs] Hg]. split.
  - split; [split|..]; cbn; try done. rewrite <- Hp, fmap_app. cbn. unfold open_promises. cbn. solve_Permutation.
  - etrans; [exact Hg|]. split; cbn; try done; [by apply prefix_app_r|]. intros _ _ a Ha. exists a. split; [done|lia].
Qed.

(** A new request: its id is not in use. *)
Lemma issue_good held s0 s c :
  good held s0 s → disposed s = false → connection_state s = cs_connected →
  let n := requestSequence s + 1 in
  let s1 := s <| requestSequence := n |> <| promises := S (promises s) |>
              <| pendingRequests := map_set (pendingRequests s) (request_id n) (MkPending c (promises s)) |> in
  good held s0 s1 ∧ map_get (pendingRequests s1) (request_id n) = Some (MkPending c (promises s)).
Proof.
  intros [[[Hp Hwf Hk Hc Hss] Hi Hd Hs] Hg] Hdis Hconn. cbn zeta. set (n := requestSequence s + 1).
  assert (map_get (pendingRequests s) (request_id n) = None) as Hfresh.
  { apply map_get_None. intros (m & Hm & Heq)%Hk. apply (inj request_id) in Heq. subst n. lia. }
  split; [|cbn; rewrite map_get_set; by rewrite decide_True].
  split.
  - split; [split|..]; cbn -[seq]; try done.
    + rewrite seq_S, <- Hp, (map_set_fresh _ _ _ Hfresh). unfold open_promises, map_values. cbn. rewrite !fmap_app. cbn.
      solve_Permutation.
    + by apply map_set_wf.
    + intros k. rewrite (map_set_fresh _ _ _ Hfresh), fmap_app. intros [Hin|Hin%list_elem_of_singleton]%elem_of_app.
      * destruct (Hk k Hin) as (m & ? & ->). exists m. split; [lia|done].
      * exists n. split; [lia|done].
  - etrans; [exact Hg|]. split; cbn; try done; [lia|]. intros _ _ a Ha. exists a. split; [done|lia].
Qed.

Lemma request_good held s0 s c : good held s0 s → good held s0 (request outside c s).
Proof.
  intros Hs. unfold request. destruct (disposed s) eqn:Hd; [done|]. case_bool_decide as Hc; [|done]. cbn [negb].
  destruct (issue_good held s0 s c Hs Hd Hc) as [Hs1 Hget]. destruct (encodeClientMessage _) as [frame|e].
  - by apply connection_send_good.
  - destruct (takePendingRequest _ _) as [r s2] eqn:Ht. pose proof Ht as Ht'. unfold takePendingRequest in Ht'. rewrite Hget in Ht'.
    injection Ht' as <- _. cbn [fmap option_fmap option_map settle_opt]. apply settle_good. by apply (take_good _ _ _ _ _ _ Hs1 Ht).
Qed.

Lemma attach_good held s0 s k : good held s0 s → good held s0 (attach outside k s).
Proof. intros Hs. by apply request_good, forget_good. Qed.

(** ** Messages *)

Lemma handle_response_good held s0 s id outcome :
  good held s0 s → connection_state s = cs_connected → good held s0 (handle_response outside id outcome s).
Proof.
  intros Hs Hc. unfold handle_response. destruct (takePendingRequest id s) as [[r|] s1] eqn:Ht.
  - destruct (take_good _ _ _ _ _ _ Hs Ht) as (Hs1 & Hl & _).
    assert (connection_state s1 = cs_connected) as Hc1 by (unfold connection_state in *; by rewrite Hl).
    destruct outcome as [res|e]; [|by apply settle_good]. case_bool_decide.
    + by apply settle_good, applyResult_good.
    + by apply failAndClose_good, settle_good.
  - assert (s1 = s) as -> by (unfold takePendingRequest in Ht; destruct (map_get _ _); congruence). by apply failAndClose_good.
Qed.

Lemma onMessage_good held s0 s m :
  good held s0 s → connection_state s = cs_connected → good held s0 (onMessage outside m s).
Proof.
  intros Hs Hc. destruct m as [| |id outcome|e]; cbn [onMessage]; [done|done|by apply handle_response_good|].
  destruct e; apply applyEvent_good; try done. eapply unleased_good; [|exact Hs]. by rewrite invalidate_unleased.
Qed.

Lemma still_connected_lifecycle id s :
  still_connected id s = true → ∃ d t p, lifecycle s = Connected id d t (Some p).
Proof.
  unfold still_connected. destruct (lifecycle s) as [| |id' d t [p|]]; try done. intros ->%bool_decide_eq_true. eauto.
Qed.

(** The end of the handshake: its promise is the one the connection began with. *)
Lemma end_handshake_good held s0 s id d t p o :
  good held s0 s → lifecycle s = Connected id d t (Some p) → good held s0 (settle p o (end_handshake s)).
Proof.
  intros [[[Hp Hwf Hk Hc Hss] Hi Hd Hs] Hg] Hl. unfold connection_state, open_promises, end_handshake in *. rewrite Hl in *.
  apply settle_good. split.
  - split; [split|..]; cbn -[seq]; try done.
    + rewrite <- Hp. unfold open_promises. cbn. solve_Permutation.
    + intros Hn. by specialize (Hd Hn).
  - etrans; [exact Hg|]. split; cbn; try done; rewrite ?Hl; try done. intros _ _ a Ha. exists a. split; [done|lia].
Qed.

Lemma hello_good held s0 s id d t t' p sn :
  good held s0 s → lifecycle s = Connecting id d t' p →
  good held s0
    (let s1 := applyServerSnapshot outside sn (s <| lifecycle := Connected id d t (Some p) |>) in
     if negb (still_connected id s1) then s1
     else
       let s2 := handleConnectionStateChange outside cs_connected None s1 in
       if negb (still_connected id s2) then s2 else settle p (ResolvedSnapshot sn) (end_handshake s2)).
Proof.
  intros [[[Hp Hwf Hk Hc Hss] Hi Hd Hs] Hg] Hl. cbn zeta.
  set (s' := s <| lifecycle := Connected id d t (Some p) |>).
  assert (core held s') as Hcore.
  { unfold open_promises in Hp. rewrite Hl in Hp, Hc. split; cbn; try done. }
  assert (good held s' (applyServerSnapshot outside sn s')) as Hs1.
  { apply applyServerSnapshot_good_core; [done|done|done|]. intros Hn. specialize (Hd Hn). congruence. }
  assert (grows s0 s') as Hg'.
  { etrans; [exact Hg|]. apply grows_same; cbn; rewrite ?Hl; done. }
  assert (∀ s'', good held s' s'' → good held s0 s'') as Hup by (intros s'' [? ?]; split; [done|by etrans]).
  set (s1 := applyServerSnapshot outside sn s') in *. destruct (still_connected id s1) eqn:Hst; cbn [negb]; [|by apply Hup].
  unfold handleConnectionStateChange. rewrite bool_decide_false by done.
  pose proof (tell_good _ _ _ (NotifyState cs_connected None) Hs1) as Hs2. set (s2 := tell outside _ s1) in *.
  destruct (still_connected id s2) eqn:Hst2; cbn [negb]; [|by apply Hup].
  apply still_connected_lifecycle in Hst2 as (d2 & t2 & p2 & Hl2).
  assert (sequence s2 = sequence s') as Hseq.
  { destruct Hs2 as [[Hcore2 _ _ _] _]. rewrite <- (inv_current _ _ Hcore2 id) by (by rewrite Hl2).
    by apply (inv_current _ _ Hcore id). }
  assert (p2 = p) as ->.
  { destruct Hs2 as [_ Hg2]. pose proof (grows_handshake _ _ Hg2 Hseq p2) as Hh. rewrite Hl2 in Hh. specialize (Hh eq_refl). cbn in Hh. congruence. }
  apply (end_handshake_good held s0 s2 id d2 t2 p); [by apply Hup|done].
Qed.

Lemma handleMessage_good held s0 s m : good held s0 s → good held s0 (handleMessage outside m s).
Proof.
  intros Hs. unfold handleMessage. destruct (lifecycle s) as [|id d t p|id d t p] eqn:Hl; [done|..].
  - destruct m as [sn|e| |]; try by apply failAndClose_good. destruct t as [t|]; [|by apply failAndClose_good].
    by apply (hello_good held s0 s id d t (Some t) p sn).
  - assert (connection_state s = cs_connected) as Hc by (unfold connection_state; by rewrite Hl).
    destruct m; try (by apply failAndClose_good); by apply onMessage_good.
Qed.

Lemma handleMessages_good held s0 s ms : good held s0 s → good held s0 (handleMessages outside ms s).
Proof.
  revert s. induction ms as [|m ms IH]; intros s Hs; cbn [handleMessages]; [done|].
  case_bool_decide; [done|]. by apply IH, handleMessage_good.
Qed.

Lemma set_decoder_good held s0 s d : good held s0 s → good held s0 (set_decoder d s).
Proof.
  intros Hs. unfold set_decoder. destruct (lifecycle s) eqn:Hl; [done|..];
    apply lifecycle_good; rewrite ?Hl; try done; unfold connection_state; by rewrite Hl.
Qed.

Lemma handleData_good held s0 s id chunk : good held s0 s → good held s0 (handleData outside id chunk s).
Proof.
  intros Hs. assert (∀ d, good held s0 (push_data outside d chunk s)) as Hpush.
  { intros d. unfold push_data. destruct (decoder_push d chunk) as [d' [ms|e]].
    - by apply handleMessages_good, set_decoder_good.
    - by apply failAndClose_good, set_decoder_good. }
  unfold handleData. destruct (isCurrent id s); [|done].
  destruct (lifecycle s) as [|id' d [t|] p|id' d t p]; [done|done|by apply failAndClose_good|done].
Qed.

Lemma onClose_good held s0 s id : good held s0 s → good held s0 (onClose outside id s).
Proof.
  intros Hs. unfold onClose. destruct (isCurrent id s); [|done]. destruct (connection_decoder _); [by apply fail_good'|done].
Qed.

Lemma disconnect_good held s0 s e : good held s0 s → good held s0 (disconnect outside e s).
Proof. intros Hs. unfold disconnect. case_bool_decide; [done|by apply failAndClose_good]. Qed.

Lemma reject_core held s e :
  core held s → core held (rejectPendingRequests e (s <| disposed := true |>)).
Proof.
  intros [Hp Hwf Hk Hc Hss]. rewrite rejectPending_eq. split; cbn; try done.
  - rewrite <- Hp, fmap_app, <- list_fmap_compose. unfold open_promises. cbn. unfold compose. cbn. solve_Permutation.
  - unfold map_wf. apply NoDup_nil_2.
  - by intros k ?%elem_of_nil.
Qed.

Lemma reset_disposed_good held s0 s : good held s0 s → disposed s = true → good held s0 (reset s).
Proof.
  intros [[[Hp Hwf Hk Hc Hss] Hi Hd Hs] Hg] Hdis. split.
  - split; [split|..]; try done.
    + intros Hn. split; [by apply Hi|done].
    + unfold connection_state. cbn. by rewrite (Hd Hdis).
  - etrans; [exact Hg|]. split; cbn; try done. intros _ Hf. congruence.
Qed.

Lemma dispose_good held s0 s : good held s0 s → good held s0 (dispose outside s).
Proof.
  intros Hs. unfold dispose. destruct (disposed s) eqn:Hd; [done|]. destruct Hs as [[Hcore Hi _ Hsn] Hg].
  set (s1 := rejectPendingRequests Disposed (s <| disposed := true |>)).
  assert (core held s1) as Hcore1 by (by apply reject_core).
  assert (grows s0 s1) as Hg1.
  { etrans; [exact Hg|]. unfold s1. rewrite rejectPending_eq. split; cbn; try done. by apply prefix_app_r. }
  assert (lifecycle s1 = lifecycle s ∧ disposed s1 = true ∧ attachedSessionIds s1 = attachedSessionIds s ∧ pendingRequests s1 = [])
    as (Hl1 & Hd1 & Ha1 & Hp1) by (unfold s1; by rewrite rejectPending_eq).
  assert (lifecycle s1 = Disconnected → inv held s1) as Hdisc.
  { intros Hl. split; [done| |done|]; unfold connection_state; rewrite Hl; [|done]. intros _. split; [done|]. rewrite Ha1.
    apply Hi. unfold connection_state. by rewrite <- Hl1, Hl. }
  assert (good held s1 (disconnect outside Disposed s1)) as Hs2.
  { unfold disconnect. case_bool_decide as Hb.
    - split; [|done]. apply Hdisc. unfold connection_state in Hb. by destruct (lifecycle s1).
    - by apply failAndClose_good_core. }
  apply (unleased_good _ _ (reset (disconnect outside Disposed s1))); [by rewrite invalidateAll_unleased|].
  apply reset_disposed_good; [|by apply (grows_disposed _ _ (proj2 Hs2))].
  destruct Hs2 as [? ?]. split; [done|by etrans].
Qed.

(** ** Everything that can happen *)

Lemma perform_good held s0 s a : good held s0 s → good held s0 (perform outside a s).
Proof.
  intros Hs. destruct a; cbn [perform].
  - by apply connect_good.
  - by apply disconnect_good.
  - by apply dispose_good.
  - by apply request_good.
  - by apply attach_good.
  - destruct previous; [by apply restore_good|done].
  - destruct (disposed s); [done|]. unfold reserveSessionLease. destruct (_ && _); [done|]. destruct (_ && _); [done|].
    by destruct exclusive; apply (unleased_good _ _ s).
  - unfold releaseSessionLease. case_bool_decide; by apply (unleased_good _ _ s).
  - by apply (unleased_good _ _ s).
  - by apply (unleased_good _ _ s).
  - by apply transport_opened_good.
  - by apply current_fail_good.
  - unfold send_failed. case_bool_decide; [by apply failAndClose_good|done].
  - by apply handleData_good.
  - by apply onClose_good.
  - by apply current_fail_good.
Qed.
End Outside.

Lemma exec_good env depth a held s : inv held s → good held s (exec env depth a s).
Proof.
  revert a held s. induction depth as [|depth IH]; intros a held s Hs; rewrite exec_perform; apply perform_good; try by apply good_refl.
  - intros c h s1 Hs1. by apply good_refl.
  - intros c h s1 Hs1. cbn. assert (∀ l s2, good h s1 s2 → good h s1 (foldl (λ s a, exec env depth a s) s2 l)) as Hf.
    { induction l as [|b l IHl]; intros s2 Hs2; cbn; [done|]. apply IHl. destruct Hs2 as [Hi Hg].
      destruct (IH b h s2 Hi). split; [done|by etrans]. }
    apply Hf. by apply good_refl.
Qed.

Lemma call_out_good env depth c held s : inv held s → good held s (call_out env depth c s).1.
Proof.
  intros Hs. destruct depth as [|depth]; cbn; [by apply good_refl|]. generalize (react env depth c s). intros l.
  assert (∀ s2, good held s s2 → good held s (foldl (λ s a, exec env depth a s) s2 l)) as Hf; [|by apply Hf, good_refl].
  induction l as [|b l IHl]; intros s2 Hs2; cbn; [done|]. apply IHl. destruct Hs2 as [Hi Hg].
  destruct (exec_good env depth b held s2 Hi). split; [done|by etrans].
Qed.

Lemma new_client_inv : inv [] new_client.
Proof. split; [split|..]; try done; [|by intros k ?%elem_of_nil]. unfold map_wf. apply NoDup_nil_2. Qed.

Lemma reachable_inv s : reachable s → inv [] s.
Proof. induction 1 as [|s env depth a Hr IH]; [apply new_client_inv|]. by apply exec_good. Qed.

(** ** The end of a connection *)

(** The connection [id] is over, and what it left open is rejected with [e]. *)
Definition over (e : client_error) (id : nat) (opened : list nat) (s : client) : Prop :=
  connection_id (lifecycle s) ≠ Some id ∧ ∀ p, p ∈ opened → (p, Rejected e) ∈ settled s.

Lemma closed_settled e s p : p ∈ open_promises s → (p, Rejected e) ∈ settled (closed e s).
Proof.
  intros Hp. change (settled (closed e s)) with (settled (unleased (closed e s))). rewrite closed_unleased. cbn.
  rewrite !elem_of_app. right. unfold open_promises in Hp. apply elem_of_app in Hp as [Hp|Hp]; [right|left].
  - apply list_elem_of_fmap in Hp as (r & -> & Hr). apply list_elem_of_fmap. by exists r.
  - apply list_elem_of_fmap. by exists p.
Qed.

Section Outside.
Context (outside : call → client → client * option jsstring).
Context (Hout : ∀ c held s, inv held s → good held s (outside c s).1).

Lemma failAndClose_over held s e id :
  core held s → connection_id (lifecycle s) = Some id → over e id (open_promises s) (failAndClose outside e s).
Proof.
  intros Hc Hid. assert (inv held (closed e s)) as Hinv by (by eapply closed_good).
  assert (good held (closed e s) (failAndClose outside e s)) as [[Hc' _ _ _] Hg].
  { unfold failAndClose, fail. destruct (lifecycle s) eqn:Hl; [done|..];
      unfold handleConnectionStateChange; rewrite bool_decide_true by done; cbn [default];
      pose proof (good_refl held _ Hinv) as Hgood; unfold closed in Hgood at 2; rewrite Hl in Hgood.
    - destruct (connection_transport _); repeat (apply tell_good; [done|]); done.
    - cbn [connection_transport]. repeat (apply tell_good; [done|]); done. }
  split.
  - intros Hid'. assert (sequence (closed e s) = sequence s ∧ lifecycle (closed e s) = Disconnected) as [Hseq Hdis].
    { split; [exact (f_equal sequence (closed_unleased e s))|exact (f_equal lifecycle (closed_unleased e s))]. }
    pose proof (inv_current _ _ Hc id Hid) as Hs. pose proof (inv_current _ _ Hc' id Hid') as Hs'.
    rewrite (grows_gone _ _ Hg) in Hid'; [done|congruence|done].
  - intros p Hp. destruct (grows_settled _ _ Hg) as [l ->]. apply elem_of_app. left. by apply closed_settled.
Qed.

(** The response to another command: its request is rejected first. *)
Lemma mismatch_over s r e id rest :
  good (pending_promise r :: []) s rest → connection_id (lifecycle s) = Some id →
  rest = s <| pendingRequests := pendingRequests rest |> →
  (pending_promise <$> map_values (pendingRequests s)) ⊆ pending_promise r :: (pending_promise <$> map_values (pendingRequests rest)) →
  over e id (open_promises s) (failAndClose outside e (settle (pending_promise r) (Rejected e) rest)).
Proof.
  intros Hrest Hid Heq Hsub. pose proof (settle_good [] s rest (pending_promise r) (Rejected e) Hrest) as Hs2.
  set (s2 := settle _ _ rest) in *. assert (lifecycle s2 = lifecycle s) as Hl2 by (subst s2; by rewrite Heq).
  destruct (failAndClose_over [] s2 e id) as [Hover Hrej]; [by apply Hs2|by rewrite Hl2|]. split; [done|].
  intros p Hp. assert (p = pending_promise r ∨ p ∈ open_promises s2) as [->|Hp2]; [| |by apply Hrej].
  - unfold open_promises in *. rewrite Hl2, elem_of_app. apply elem_of_app in Hp as [Hp|Hp]; [|auto].
    apply Hsub, elem_of_cons in Hp as [?|?]; auto.
  - destruct (failAndClose_good outside Hout [] s2 s2 e) as [_ Hg]; [split; [by apply Hs2|done]|].
    destruct (grows_settled _ _ Hg) as [l ->]. apply elem_of_app. left. cbn. apply elem_of_app. right. by apply list_elem_of_singleton.
Qed.
End Outside.

(** What is wrong with a message, in the state it arrives in. *)
Definition violates (s : client) (m : ServerMessage) : option client_error :=
  match lifecycle s, m with
  | Connecting _ _ _ _, HelloError e => Some (ServerError e)
  | Connecting _ _ None _, Hello _ => Some (Invalid EarlyHello)
  | Connecting _ _ _ _, Response _ _ | Connecting _ _ _ _, Event _ => Some (Invalid ExpectedHello)
  | Connected _ _ _ _, Hello _ | Connected _ _ _ _, HelloError _ => Some (Invalid UnexpectedHandshake)
  | Connected _ _ _ _, Response id outcome =>
      match map_get (pendingRequests s) id, outcome with
      | None, _ => Some (Invalid NoMatchingRequest)
      | Some r, Ok res =>
          if bool_decide (result_name res = command_name (pending_command r)) then None
          else Some (Invalid (CommandMismatch (result_name res) (command_name (pending_command r))))
      | Some _, Err _ => None
      end
  | _, _ => None
  end.

(** C30: whatever the server, the transport and the listeners do, listeners calling the
    client back included, in any number of connections: every promise the client has
    made was settled exactly once or is open, that of a pending request or of the
    handshake; a client that is not connected has no pending request and no attached
    session, one that is disconnected no open promise; a disposed client is
    disconnected; a connected one knows the server.  No step changes what was settled,
    loses the client's disposal, or takes the revision of the server's snapshot back
    while the connection lasts. *)
Theorem client_settles s :
  reachable s →
  (settled s).*1 ++ open_promises s ≡ₚ seq 0 (promises s)
  ∧ (connection_state s ≠ cs_connected → pendingRequests s = [] ∧ attachedSessionIds s = ∅)
  ∧ (connection_state s = cs_disconnected → (settled s).*1 ≡ₚ seq 0 (promises s))
  ∧ (disposed s = true → connection_state s = cs_disconnected)
  ∧ (connection_state s = cs_connected → is_Some (snapshot s))
  ∧ ∀ env depth a, grows s (exec env depth a s).
Proof.
  intros [[Hp Hwf Hk Hc Hss] Hi Hd Hs]%reachable_inv. rewrite (app_nil_r (open_promises s)) in Hp.
  split_and!; [done|done| |intros Hdis; unfold connection_state; by rewrite (Hd Hdis)|done|].
  - intros Hst. rewrite <- Hp. unfold open_promises. destruct (Hi ltac:(congruence)) as [-> _].
    unfold connection_state in Hst. destruct (lifecycle s); [|done..]. cbn. by rewrite app_nil_r.
  - intros env depth a. apply (exec_good env depth a []). split; [split|..]; try done. by rewrite app_nil_r.
Qed.

(** C29: a message the protocol does not allow where it arrives, and bytes that are not
    messages, end the connection and reject with the violation whatever it left open; a
    response to a pending request settles its promise, with the result of the command
    that was asked for or with the server's error. *)
Theorem violation_ends_connection s env depth id :
  reachable s → connection_id (lifecycle s) = Some id →
  (∀ m e, violates s m = Some e → over e id (open_promises s) (handleMessage (call_out env depth) m s))
  ∧ (∀ d d' chunk e, decoder_push d chunk = (d', Err e) →
       over (Invalid (Malformed e)) id (open_promises s) (push_data (call_out env depth) d chunk s))
  ∧ (∀ rid r outcome, connection_state s = cs_connected → map_get (pendingRequests s) rid = Some r →
       violates s (Response rid outcome) = None →
       (pending_promise r, match outcome with Ok res => ResolvedResult res | Err e => Rejected (ServerError e) end)
         ∈ settled (handleMessage (call_out env depth) (Response rid outcome) s)).
Proof.
  intros Hr Hid. pose proof (reachable_inv s Hr) as Hinv. pose proof (call_out_good env depth) as Hout.
  assert (∀ e, over e id (open_promises s) (failAndClose (call_out env depth) e s)) as Hover.
  { intros e. eapply failAndClose_over; [apply Hout|apply Hinv|done]. }
  split_and!.
  - intros m e Hv. unfold violates in Hv. unfold handleMessage.
    destruct (lifecycle s) as [|id' d [t|] p|id' d t p] eqn:Hl; [done|..]; destruct m as [sn|err|rid outcome|ev];
      try discriminate Hv; try (injection Hv as <-; apply Hover).
    cbn [onMessage]. unfold handle_response. destruct (takePendingRequest rid s) as [[r|] s1] eqn:Ht.
    + destruct (take_good [] s s rid r s1) as (Hs1 & Hl1 & Heq); [by apply good_refl|done|].
      unfold takePendingRequest in Ht. destruct (map_get _ rid) as [r'|] eqn:Hget; [|done]. injection Ht as -> _.
      destruct outcome as [res|]; [|done]. case_bool_decide; [done|]. injection Hv as <-.
      eapply mismatch_over; [apply Hout|done|by rewrite Hl|by rewrite Heq|].
      rewrite Heq. cbn. rewrite (map_delete_values _ _ _ (inv_wf _ _ (inv_core _ _ Hinv)) Hget). done.
    + unfold takePendingRequest in Ht. destruct (map_get _ rid) as [r'|]; [done|]. injection Ht as <-. injection Hv as <-. apply Hover.
  - intros d d' chunk e Hpush. unfold push_data. rewrite Hpush.
    assert (connection_id (lifecycle (set_decoder d' s)) = Some id ∧ open_promises (set_decoder d' s) = open_promises s) as [Hid' <-].
    { unfold set_decoder, open_promises. by destruct (lifecycle s) eqn:Hl. }
    eapply failAndClose_over; [apply Hout| |done]. eapply set_decoder_good. by apply good_refl.
  - intros rid r outcome Hc Hget Hv. unfold handleMessage, violates in *. unfold connection_state in Hc.
    destruct (lifecycle s) as [| |id' d t p] eqn:Hl; [done..|]. rewrite Hget in Hv. cbn [onMessage]. unfold handle_response.
    unfold takePendingRequest. rewrite Hget. destruct outcome as [res|e]; [|cbn; apply elem_of_app; right; by apply list_elem_of_singleton].
    case_bool_decide; [|done]. cbn. apply elem_of_app. right. by apply list_elem_of_singleton.
Qed.
End Client.

(** ** Concrete runs *)

(** A codec that knows three chunks. *)
Definition demo_session : SessionSnapshot := MkSession (js "s") true true (js "idle") 1 JsonNull.
Definition demo_messages (chunk : list Z) : result jsstring (list ServerMessage) :=
  match chunk with
  | [0] => Ok [Hello (MkServerSnapshot 1 JsonNull)]
  | [1] => Ok [Response (request_id 1) (Ok (RSession Attach demo_session)); Event (ESessionSnapshot demo_session)]
  | [2] => Ok [Hello (MkServerSnapshot 1 JsonNull); Event (ESessionRemoved (js "s"))]
  | _ => Err (js "malformed")
  end.
#[local] Instance demo_wire : Wire := {|
  decoder := unit; new_decoder := (); decoder_push _ chunk := ((), demo_messages chunk); decoder_end _ := Ok ();
  encodeClientMessage _ := Ok [] |}.

Definition quiet : environment := MkEnvironment _ (λ _ _ _, []) (λ _ _ _, None).
Definition demo_run (env : environment) (actions : list action) : client := foldl (λ s a, exec env 2 a s) new_client actions.

Lemma demo_run_reachable env actions : reachable (demo_run env actions).
Proof.
  unfold demo_run. assert (∀ s, reachable s → reachable (foldl (λ s a, exec env 2 a s) s actions)) as Hf.
  { induction actions as [|a actions IH]; intros s Hs; cbn [foldl]; [done|]. by apply IH, reachable_exec. }
  apply Hf, reachable_new.
Qed.

(** A session is attached; another request is pending when the server closes. *)
Definition demo_actions : list action :=
  [AConnect; AOpened 1 (Ok 7%nat); AData 1 [0]; AAttach (js "s"); AData 1 [1]; ARequest CList].
Definition demo_connected : client := demo_run quiet demo_actions.
Definition demo_closed : client := exec quiet 2 (AClose 1) demo_connected.

Lemma client_settles_witness :
  bool_decide (attachedSessionIds demo_connected = {[ js "s" ]}) = true
  ∧ settled demo_closed
    = [(0%nat, ResolvedSnapshot (MkServerSnapshot 1 JsonNull)); (1%nat, ResolvedResult (RSession Attach demo_session));
       (2%nat, Rejected TransportClosed)]
  ∧ ((settled demo_closed).*1 ≡ₚ seq 0 (promises demo_closed)).
Proof.
  split; [vm_compute; reflexivity|]. split; [vm_compute; reflexivity|].
  destruct (client_settles demo_closed) as (_ & _ & Hall & _).
  - unfold demo_closed, demo_connected. apply reachable_exec, demo_run_reachable.
  - apply Hall. vm_compute. reflexivity.
Defined.

Lemma violation_ends_connection_witness :
  open_promises demo_connected = [2%nat]
  ∧ over (Invalid UnexpectedHandshake) 1 (open_promises demo_connected)
      (handleMessage (call_out quiet 2) (Hello (MkServerSnapshot 2 JsonNull)) demo_connected).
Proof.
  split; [vm_compute; reflexivity|].
  assert (connection_id (lifecycle demo_connected) = Some 1%nat) as Hid by (vm_compute; reflexivity).
  assert (violates demo_connected (Hello (MkServerSnapshot 2 JsonNull)) = Some (Invalid UnexpectedHandshake)) as Hv
    by (vm_compute; reflexivity).
  destruct (violation_ends_connection demo_connected quiet 2 1 (demo_run_reachable quiet demo_actions) Hid) as (Hover & _).
  exact (Hover _ _ Hv).
Defined.

(** The loop over the messages of a chunk asks whether the client is disconnected, not
    whether the connection is still the one the chunk came from.  A listener that
    connects again while the server's hello is handled finds the new connection failed
    by the old one's next message. *)
Definition reconnecting : environment :=
  MkEnvironment _
    (λ _ c s, match c with
              | NotifySnapshot _ => if bool_decide (sequence s = 1%nat) then [ADisconnect (js "again"); AConnect] else []
              | _ => []
              end) (λ _ _ _, None).

Example stale_message_fails_new_connection :
  settled (demo_run reconnecting [AConnect; AOpened 1 (Ok 7%nat); AData 1 [2]])
  = [(0%nat, Rejected (Reason (js "again"))); (1%nat, Rejected (Invalid ExpectedHello))].
Proof. vm_compute. reflexivity. Qed.
