(* ===== verification/Server.v ===== *)
(** * The server: connections and the sessions they share

    [packages/server/src]: [sessions.ts] (the runtimes of sessions, acquired once and
    disposed when nobody needs them), [server.ts] (the life of a connection, its
    requests) and [snapshots.ts].  Every [await] lets anything else happen: a task is
    the rest of an asynchronous function, named after the place it waits at, and a step
    resumes one task, in any order, or is an event from outside.  Each step runs the
    code from one [await] to the next.

    Promises of the service, of a runtime or of a connection settle as the step says. *)

From S2P Require Import Prelude JsString SessionTypes Client.

(** ** State *)

Inductive ConnectionStage := awaitingHello | handshaking | ready | closing | closed.

#[export] Instance ConnectionStage_eq_dec : EqDecision ConnectionStage.
Proof. solve_decision. Defined.

(** A [Set] keeps the order its elements were added in. *)
Definition set_add {A} `{EqDecision A} (x : A) (l : list A) : list A := if decide (x ∈ l) then l else l ++ [x].
Definition set_delete {A} `{EqDecision A} (x : A) (l : list A) : list A := filter (.≠ x) l.

(** [byte_closed] is the transport's [closed], [handshake_settled] says whether the
    promise [handshake] has settled.  The set [connections] of the server holds those
    that are not [disconnected]. *)
Record connection := MkConnection {
  sessionIds : list jsstring; stage : ConnectionStage; disconnected : bool; handshakeComplete : bool; byte_closed : bool;
  handshake_settled : bool }.

#[export] Instance connection_eta : Eta connection := λ c,
  MkConnection (sessionIds c) (stage c) (disconnected c) (handshakeComplete c) (byte_closed c) (handshake_settled c).

(** [getPhase()].  [dispose_calls] and [released] are not in the code: how often
    [dispose()] was called, and whether its promise has settled. *)
Record runtime := MkRuntime { rt_session : jsstring; getPhase : jsstring; dispose_calls : nat; released : bool }.

#[export] Instance runtime_eta : Eta runtime := λ r,
  MkRuntime (rt_session r) (getPhase r) (dispose_calls r) (released r).

(** The promise [disposing]. *)
Inductive disposal := NotDisposing | Disposing | DisposeSettled (ok : bool).

#[export] Instance disposal_eq_dec : EqDecision disposal.
Proof. solve_decision. Defined.

Record LiveSession := MkLive {
  live_id : jsstring; live_runtime : nat; connections : list nat; subscribed : bool; operationCount : Z;
  live_ready : bool; terminal : bool; disposing : disposal }.

#[export] Instance LiveSession_eta : Eta LiveSession := λ l,
  MkLive (live_id l) (live_runtime l) (connections l) (subscribed l) (operationCount l) (live_ready l) (terminal l) (disposing l).

(** [operation_failed] stands for the errors the service and the runtimes throw. *)
Inductive ErrorCode := session_locked | not_found | invalid_request | operation_failed.

(** A promise in [openingSessions]. *)
Inductive opening := Opening (id : jsstring) | Opened (l : nat) | OpenFailed (e : ErrorCode).

(** A request being handled; [rq_number] tells requests apart. *)
Record request := MkRequest { rq_number : nat; rq_connection : nat; rq_envelope : jsstring; rq_command : Command }.

(** What awaits the promise of [sendMessage] or of [failProtocol]: the promise
    [handshake], or the loop of [performBroadcast]. *)
Inductive after := Nothing | SettleHandshake (c : nat) | NextSend (cs : list nat) (revision : Z).

(** Where an asynchronous function waits; [ws] are the lives whose [disposing] it waits
    for. *)
Inductive task :=
(* executeCommand: list, create and attach *)
| Listing (rq : request)
| AwaitDisposing (rq : request) (id : jsstring) (l : nat)
| AwaitOpening (rq : request) (id : jsstring) (q : nat) (owner : bool)
| Attaching (rq : request) (l : nat)
| AttachRefused (rq : request) (ws : list nat)
| AttachSnapshot (rq : request) (l : nat)
(* detach *)
| DetachSnapshot (rq : request) (id : jsstring) (l : nat)
| DetachDispose (rq : request) (id : jsstring) (ws : list nat)
(* runOperation *)
| Operating (rq : request) (l : nat)
| OperationSnapshot (rq : request) (l : nat)
(* create *)
| OpenRuntime (q : nat)
| OpenSnapshot (q r : nat)
| OpenDispose (q r : nat) (e : ErrorCode)
(* maybeDispose *)
| DisposeRuntime (l : nat)
| AfterDispose (l : nat)
(* events of a runtime *)
| EventSnapshot (l : nat)
| Terminating (l : nat) (cs : list nat)
| TerminateDispose (l : nat) (ws : list nat)
(* server.ts *)
| HandshakeSnapshot (c : nat) (revision : Z)
| HelloSent (c : nat) (revision : Z)
| HandshakeRefresh (c : nat) (revision : Z)
| AwaitHandshake (c : nat) (envelope : jsstring) (command : Command)
| Sending (c : nat) (k : after)
| Closing (c : nat) (k : after)
| Disconnecting (ws : list nat)
| Continuing (ws : list nat) (k : after)
(* performBroadcast: the connections left, and the revision *)
| BroadcastModels (cs : list nat) (revision : Z)
| BroadcastSend (cs : list nat) (revision : Z)
(* close *)
| CloseListeners
| CloseConnections (cs : list nat)
| CloseSessions (ws : list nat)
| CloseOpenings (qs : list nat)
| CloseDispose (l : nat).

(** What is sent; the snapshots of the server by their revision. *)
Inductive message :=
| SentHello (revision : Z) | SentHelloError
| SentSession (snapshot : SessionSnapshot) | SentProgress (sessionId : jsstring) (progress : JsonValue)
| SentServer (revision : Z)
| SentResponse (envelope : jsstring) (outcome : result ErrorCode CommandResult).

(** [broadcasts] counts the broadcasts that wait for the one before, [broadcasting]
    says whether one is under way; [answered] and
    [requests] are not in the code: the requests that were answered, and how many were
    handled. *)
Record server := MkServer {
  conns : list connection; lives : list LiveSession; liveSessions : gmap jsstring nat;
  openings : list opening; openingSessions : gmap jsstring nat; runtimes : list runtime;
  tasks : list task; isClosing : bool;
  srv_rev : Z; broadcasts : nat; broadcasting : bool; sent : list (nat * message); requests : nat; answered : list nat }.

#[export] Instance server_eta : Eta server := λ s,
  MkServer (conns s) (lives s) (liveSessions s) (openings s) (openingSessions s) (runtimes s) (tasks s)
    (isClosing s) (srv_rev s) (broadcasts s) (broadcasting s) (sent s) (requests s) (answered s).

Definition new_server : server := MkServer [] [] ∅ [] ∅ [] [] false 0 0 false [] 0 [].

Section Server.
(** Whether [encodeServerMessage] accepts a message. *)
Context (encodes : message → bool).

Definition spawn (t : task) (s : server) : server :=
  s <| tasks := tasks s ++ [t] |>.

Definition update_live (l : nat) (f : LiveSession → LiveSession) (s : server) : server :=
  s <| lives := alter f l (lives s) |>.
Definition update_conn (c : nat) (f : connection → connection) (s : server) : server :=
  s <| conns := alter f c (conns s) |>.
Definition update_runtime (r : nat) (f : runtime → runtime) (s : server) : server :=
  s <| runtimes := alter f r (runtimes s) |>.

(** [broadcast()]: one more in the queue. *)
Definition broadcast (s : server) : server := s <| broadcasts := S (broadcasts s) |>.

(** ** Sessions *)

Definition call_dispose (r : nat) (s : server) : server :=
  update_runtime r (λ r, r <| dispose_calls := S (dispose_calls r) |>) s.
Definition release (r : nat) (s : server) : server := update_runtime r (λ r, r <| released := true |>) s.

Definition is_idle (r : nat) (s : server) : bool :=
  match runtimes s !! r with Some rt => bool_decide (getPhase rt = js "idle") | None => true end.

(** Whether a session is to be disposed. *)
Definition may_dispose (live : LiveSession) (s : server) : bool :=
  negb (isClosing s || negb (live_ready live) || negb (bool_decide (disposing live = NotDisposing))
        || negb (bool_decide (connections live = [])) || (0 <? operationCount live)
        || (negb (terminal live) && negb (is_idle (live_runtime live) s))).

(** The part of [maybeDispose] before its [await]; the caller who awaits it waits for
    [disposing] to settle, if there is one. *)
Definition maybeDispose (l : nat) (s : server) : server :=
  match lives s !! l with
  | Some live =>
      if may_dispose live s then
        let s := update_live l (λ live, live <| subscribed := false |> <| disposing := Disposing |>) s in
        spawn (AfterDispose l) (spawn (DisposeRuntime l) (call_dispose (live_runtime live) s))
      else s
  | None => s
  end.

(** What [await this.maybeDispose(live)] waits for. *)
Definition dispose_wait (s : server) (l : nat) : list nat :=
  match lives s !! l with
  | Some live => if bool_decide (disposing live = NotDisposing) then [] else [l]
  | None => []
  end.

(** ** Connections *)

(** [disconnect] of sessions.ts: the sessions of the connection are left; what is
    awaited then. *)
Definition leave (c : nat) (s : server) (l : nat) : server :=
  update_live l (λ live, live <| connections := set_delete c (connections live) |>) s.

Definition sessions_disconnect (c : nat) (ids : list jsstring) (s : server) : server * list nat :=
  let sessions := omap (λ id, liveSessions s !! id) ids in
  let s := update_conn c (λ conn, conn <| sessionIds := [] |>) s in
  let s := foldl (λ s l, maybeDispose l s) (foldl (leave c) s sessions) sessions in
  (s, sessions ≫= dispose_wait s).

(** [disconnect] of server.ts. *)
Definition disconnect (c : nat) (s : server) : server * list nat :=
  match conns s !! c with
  | Some conn =>
      if disconnected conn then (s, [])
      else
        let s := update_conn c (λ conn, conn <| disconnected := true |> <| stage := closed |>) s in
        let '(s, ws) := sessions_disconnect c (sessionIds conn) s in
        (if handshakeComplete conn then spawn (Disconnecting ws) s else s, ws)
  | None => (s, [])
  end.

Definition settle_handshake (c : nat) (s : server) : server := update_conn c (λ conn, conn <| handshake_settled := true |>) s.

Definition run_after (k : after) (s : server) : server :=
  match k with
  | Nothing => s
  | SettleHandshake c => settle_handshake c s
  | NextSend cs revision => spawn (BroadcastSend cs revision) s
  end.

(** The rest of [sendMessage] and [failProtocol] once the transport was closed. *)
Definition transport_closed (c : nat) (k : after) (s : server) : server :=
  let '(s, ws) := disconnect c s in match k with Nothing => s | _ => spawn (Continuing ws k) s end.

(** [sendMessage]: the [send], or the close that follows a failure. *)
Definition sendMessage (c : nat) (m : message) (k : after) (s : server) : server :=
  match conns s !! c with
  | Some conn =>
      if disconnected conn || byte_closed conn then run_after k s
      else if encodes m then spawn (Sending c k) (s <| sent := sent s ++ [(c, m)] |>)
      else spawn (Closing c k) s
  | None => s
  end.

Definition failProtocol (c : nat) (k : after) (s : server) : server :=
  match conns s !! c with
  | Some conn =>
      if disconnected conn || bool_decide (stage conn = closing) || bool_decide (stage conn = closed) then run_after k s
      else
        let s := update_conn c (λ conn, conn <| stage := closing |>) s in
        spawn (Closing c k) (if encodes SentHelloError then s <| sent := sent s ++ [(c, SentHelloError)] |> else s)
  | None => s
  end.

(** The response to a request: the end of [handleRequest]. *)
Definition respond (rq : request) (outcome : result ErrorCode CommandResult) (s : server) : server :=
  sendMessage (rq_connection rq) (SentResponse (rq_envelope rq) outcome) Nothing
    (s <| answered := answered s ++ [rq_number rq] |>).

(** *** Snapshots of a session *)

(** [normalizedSnapshot], once the runtime has answered. *)
Definition normalizedSnapshot (l : nat) (sn : SessionSnapshot) (s : server) : result ErrorCode SessionSnapshot :=
  match lives s !! l with
  | Some live =>
      if bool_decide (sess_id sn = live_id live) then
        Ok (sn <| sess_phase := from_option getPhase (sess_phase sn) (runtimes s !! live_runtime live) |>
               <| sess_attached := negb (bool_decide (connections live = [])) |> <| sess_locked := true |>)
      else Err invalid_request
  | None => Err not_found
  end.

Definition forConnection (sn : SessionSnapshot) (c : nat) (s : server) : SessionSnapshot :=
  sn <| sess_attached := from_option (λ conn, bool_decide (sess_id sn ∈ sessionIds conn)) false (conns s !! c) |>.

Definition send_all (l : nat) (m : message) (s : server) : server :=
  match lives s !! l with
  | Some live => foldl (λ s c, sendMessage c m Nothing s) s (connections live)
  | None => s
  end.

(** [broadcastSnapshot] after its await: the snapshot that was sent. *)
Definition broadcastSnapshot (l : nat) (a : option SessionSnapshot) (s : server) : result ErrorCode SessionSnapshot * server :=
  match a with
  | None => (Err operation_failed, s)
  | Some sn =>
      match normalizedSnapshot l sn s with
      | Err e => (Err e, s)
      | Ok sn => (Ok sn, send_all l (SentSession sn) s)
      end
  end.

(** *** Acquiring a session *)

(** The head of the loop of [acquire]. *)
Definition acquire (rq : request) (id : jsstring) (s : server) : server :=
  match liveSessions s !! id with
  | Some l =>
      match lives s !! l with
      | Some live =>
          if terminal live then respond rq (Err session_locked) s
          else if bool_decide (disposing live = NotDisposing) then spawn (Attaching rq l) s
          else spawn (AwaitDisposing rq id l) s
      | None => s
      end
  | None =>
      match openingSessions s !! id with
      | Some q => spawn (AwaitOpening rq id q false) s
      | None =>
          let q := length (openings s) in
          let s := s <| openings := openings s ++ [Opening id] |> <| openingSessions := <[id := q]> (openingSessions s) |> in
          spawn (AwaitOpening rq id q true) (spawn (OpenRuntime q) s)
      end
  end.

Definition settle_opening (q : nat) (o : opening) (s : server) : server := s <| openings := <[q := o]> (openings s) |>.
Definition opening_id (q : nat) (s : server) : jsstring :=
  match openings s !! q with Some (Opening id) => id | _ => [] end.

(** [create], once the service has answered: a runtime in some phase, or an error. *)
Definition create_runtime (q : nat) (phase : option jsstring) (s : server) : server :=
  match phase with
  | None => settle_opening q (OpenFailed operation_failed) s
  | Some phase =>
      let r := length (runtimes s) in
      let s := s <| runtimes := runtimes s ++ [MkRuntime (opening_id q s) phase 0 false] |> in
      if isClosing s then spawn (OpenDispose q r operation_failed) (call_dispose r s) else spawn (OpenSnapshot q r) s
  end.

Definition create_failed (q r : nat) (e : ErrorCode) (s : server) : server :=
  spawn (OpenDispose q r e) (call_dispose r s).

(** [create], once the runtime has given its snapshot. *)
Definition create_live (q r : nat) (a : option SessionSnapshot) (s : server) : server :=
  match a with
  | None => create_failed q r operation_failed s
  | Some sn =>
      let id := opening_id q s in
      if bool_decide (sess_id sn = id) then
        let l := length (lives s) in
        let s := s <| lives := lives s ++ [MkLive id r [] true 0 true false NotDisposing] |>
                   <| liveSessions := <[id := l]> (liveSessions s) |> in
        settle_opening q (Opened l) s
      else create_failed q r invalid_request s
  end.

(** The end of [acquire] for who waits for an opening. *)
Definition opening_settled (rq : request) (id : jsstring) (q : nat) (owner : bool) (o : opening) (s : server) : server :=
  let s := if owner && bool_decide (openingSessions s !! id = Some q)
           then s <| openingSessions := delete id (openingSessions s) |> else s in
  match o with Opened l => spawn (Attaching rq l) s | OpenFailed e => respond rq (Err e) s | Opening _ => s end.

(** [attach]. *)
Definition attach_connection (rq : request) (l : nat) (s : server) : server :=
  let c := rq_connection rq in
  match conns s !! c, lives s !! l with
  | Some conn, Some live =>
      if disconnected conn || negb (bool_decide (stage conn = ready)) || byte_closed conn then
        let s := maybeDispose l s in spawn (AttachRefused rq (dispose_wait s l)) s
      else
        let s := update_conn c (λ conn, conn <| sessionIds := set_add (live_id live) (sessionIds conn) |>) s in
        spawn (AttachSnapshot rq l) (update_live l (λ live, live <| connections := set_add c (connections live) |>) s)
  | _, _ => s
  end.

Definition command_of_session (c : Command) : session_command :=
  match command_name c with NSession n => n | _ => Attach end.

Definition session_result (rq : request) (r : result ErrorCode SessionSnapshot) (s : server) : result ErrorCode CommandResult :=
  match r with
  | Ok sn => Ok (RSession (command_of_session (rq_command rq)) (forConnection sn (rq_connection rq) s))
  | Err e => Err e
  end.

(** *** Detaching *)

Definition detach_dispose (rq : request) (id : jsstring) (l : nat) (s : server) : server :=
  let s := maybeDispose l s in spawn (DetachDispose rq id (dispose_wait s l)) s.

Definition detach_response (rq : request) (id : jsstring) (s : server) : server := respond rq (Ok (RDetach id)) (broadcast s).

Definition detach (rq : request) (id : jsstring) (s : server) : server :=
  let c := rq_connection rq in
  if from_option (λ conn, bool_decide (id ∈ sessionIds conn)) false (conns s !! c) then
    let s := update_conn c (λ conn, conn <| sessionIds := set_delete id (sessionIds conn) |>) s in
    match liveSessions s !! id with
    | None => detach_response rq id s
    | Some l =>
        let s := update_live l (λ live, live <| connections := set_delete c (connections live) |>) s in
        match lives s !! l with
        | Some live =>
            if negb (bool_decide (connections live = [])) && negb (terminal live) && bool_decide (disposing live = NotDisposing)
            then spawn (DetachSnapshot rq id l) s else detach_dispose rq id l s
        | None => s
        end
    end
  else respond rq (Ok (RDetach id)) s.

(** *** Operations *)

(** [requireAttached] and the beginning of [runOperation]. *)
Definition run_operation (rq : request) (id : jsstring) (s : server) : server :=
  if from_option (λ conn, bool_decide (id ∈ sessionIds conn)) false (conns s !! rq_connection rq) then
    match liveSessions s !! id with
    | Some l =>
        match lives s !! l with
        | Some live =>
            if terminal live || negb (bool_decide (disposing live = NotDisposing)) then respond rq (Err not_found) s
            else spawn (Operating rq l) (update_live l (λ live, live <| operationCount := operationCount live + 1 |>) s)
        | None => s
        end
    | None => respond rq (Err not_found) s
    end
  else respond rq (Err invalid_request) s.

(** The [finally] of [runOperation]. *)
Definition end_operation (l : nat) (s : server) : server :=
  maybeDispose l (update_live l (λ live, live <| operationCount := operationCount live - 1 |>) s).

(** *** Requests *)

(** [executeCommand] up to its first await; [uuid] is the id of a session to create. *)
Definition executeCommand (rq : request) (uuid : jsstring) (s : server) : server :=
  match rq_command rq with
  | CList => spawn (Listing rq) s
  | CCreate _ => acquire rq uuid s
  | CAttach id => acquire rq id s
  | CDetach id => detach rq id s
  | CPrompt id _ | CSteer id _ | CAbort id | CSetModel id _ | CSetThinking id _ => run_operation rq id s
  end.

Definition handleRequest (c : nat) (envelope : jsstring) (command : Command) (uuid : jsstring) (s : server) : server :=
  executeCommand (MkRequest (requests s) c envelope command) uuid (s <| requests := S (requests s) |>).

(** *** Events of a runtime *)

Inductive runtime_event := RtSnapshot | RtProgress (progress : JsonValue) | RtError.

(** [terminate] up to its await. *)
Definition terminate (l : nat) (s : server) : server :=
  match lives s !! l with
  | Some live =>
      if terminal live then s
      else spawn (Terminating l (connections live))
             (update_live l (λ live, live <| terminal := true |> <| subscribed := false |>) s)
  | None => s
  end.

Definition handleRuntimeEvent (l : nat) (e : runtime_event) (s : server) : server :=
  match lives s !! l with
  | Some live =>
      match e with
      | RtError => terminate l s
      | RtProgress progress => maybeDispose l (send_all l (SentProgress (live_id live) progress) s)
      | RtSnapshot => maybeDispose l (spawn (EventSnapshot l) s)
      end
  | None => s
  end.

(** The end of the body of [disposing]. *)
Definition runtime_disposed (l : nat) (ok : bool) (s : server) : server :=
  match lives s !! l with
  | Some live =>
      let s := update_live l (λ live, live <| disposing := DisposeSettled ok |>) (release (live_runtime live) s) in
      if bool_decide (liveSessions s !! live_id live = Some l)
      then s <| liveSessions := delete (live_id live) (liveSessions s) |> else s
  | None => s
  end.

(** *** The handshake *)

(** [finishHandshake], once the snapshot of the server is there. *)
Definition send_hello (c : nat) (revision : Z) (s : server) : server :=
  match conns s !! c with
  | Some conn =>
      if isClosing s || disconnected conn || negb (bool_decide (stage conn = handshaking)) || byte_closed conn
      then settle_handshake c s
      else if encodes (SentHello revision)
      then spawn (HelloSent c revision) (s <| sent := sent s ++ [(c, SentHello revision)] |>)
      else spawn (Closing c (SettleHandshake c)) s
  | None => s
  end.

Definition hello_delivered (c : nat) (revision : Z) (s : server) : server :=
  match conns s !! c with
  | Some conn =>
      if negb (disconnected conn) && bool_decide (stage conn = handshaking) then
        let s := update_conn c (λ conn, conn <| handshakeComplete := true |> <| stage := ready |>) s in
        if bool_decide (revision = srv_rev s) then settle_handshake c s
        else spawn (HandshakeRefresh c (srv_rev s)) s
      else settle_handshake c s
  | None => s
  end.

Inductive client_message := GotHello (supported : bool) | GotRequest (envelope : jsstring) (command : Command).

Definition dispatchMessage (c : nat) (m : client_message) (uuid : jsstring) (s : server) : server :=
  match conns s !! c with
  | Some conn =>
      match stage conn, m with
      | awaitingHello, GotRequest _ _ => failProtocol c Nothing s
      | awaitingHello, GotHello supported =>
          let s := update_conn c (λ conn, conn <| stage := handshaking |>) s in
          if supported then spawn (HandshakeSnapshot c (srv_rev s)) s else failProtocol c (SettleHandshake c) s
      | _, GotHello _ => failProtocol c Nothing s
      | ready, GotRequest envelope command => handleRequest c envelope command uuid s
      | handshaking, GotRequest envelope command => spawn (AwaitHandshake c envelope command) s
      | _, GotRequest _ _ => s
      end
  | None => s
  end.

(** [receive] for one message; [isTerminalConnection]. *)
Definition receive (c : nat) (m : client_message) (uuid : jsstring) (s : server) : server :=
  match conns s !! c with
  | Some conn =>
      if disconnected conn || bool_decide (stage conn = closing) || bool_decide (stage conn = closed) then s
      else dispatchMessage c m uuid s
  | None => s
  end.

(** *** Snapshots of the server *)

Definition ready_connections (s : server) : list nat :=
  (filter (λ ic, stage ic.2 = ready ∧ disconnected ic.2 = false) (imap pair (conns s))).*1.

(** [performBroadcast] up to its first await. *)
Definition performBroadcast (s : server) : server :=
  let s := s <| broadcasts := pred (broadcasts s) |> in
  match ready_connections s with
  | [] => s
  | cs =>
      if isClosing s then s
      else
        let s := s <| srv_rev := srv_rev s + 1 |> <| broadcasting := true |> in
        spawn (BroadcastModels cs (srv_rev s)) s
  end.

(** ** Steps *)

(** How a promise from outside settles. *)
Inductive answer := Done | Failed | GotRuntime (phase : jsstring) | GotSnapshot (sn : SessionSnapshot) | GotSessions (v : JsonValue).

Definition as_snapshot (a : answer) : option SessionSnapshot := match a with GotSnapshot sn => Some sn | _ => None end.
Definition as_runtime (a : answer) : option jsstring := match a with GotRuntime phase => Some phase | _ => None end.
Definition succeeded (a : answer) : bool := match a with Failed => false | _ => true end.

(** Disposals that someone waits for: whether all have settled, and well. *)
Definition disposal_settled (s : server) (l : nat) : option bool :=
  match lives s !! l with
  | Some live => match disposing live with DisposeSettled ok => Some ok | _ => None end
  | None => None
  end.
Definition disposals_settled (ws : list nat) (s : server) : option bool :=
  foldr (λ l acc, match disposal_settled s l, acc with Some ok, Some ok' => Some (ok && ok') | _, _ => None end) (Some true) ws.

Definition is_opening (o : opening) : bool := match o with Opening _ => true | _ => false end.

(** *** Closing *)

Fixpoint disconnect_all (cs : list nat) (s : server) : server * list nat :=
  match cs with
  | [] => (s, [])
  | c :: cs => let '(s, ws) := disconnect c s in let '(s, ws') := disconnect_all cs s in (s, ws ++ ws')
  end.

(** [closeServerState] up to its first await. *)
Definition closeServerState (s : server) : server :=
  let cs := (filter (λ ic, disconnected ic.2 = false) (imap pair (conns s))).*1 in
  spawn (CloseConnections cs) (foldl (λ s c, update_conn c (λ conn, conn <| stage := closing |>) s) s cs).

(** The end of [close] of sessions.ts, for one session. *)
Definition close_session (s : server) (l : nat) : server :=
  match lives s !! l with
  | Some live =>
      if bool_decide (disposing live = NotDisposing)
      then spawn (CloseDispose l) (call_dispose (live_runtime live) (update_live l (λ live, live <| subscribed := false |>) s))
      else s
  | None => s
  end.

Definition close_sessions (s : server) : server :=
  foldl close_session (s <| liveSessions := ∅ |>) (map_to_list (liveSessions s)).*2.

(** The rest of a task up to its next await; [None] when what it waits for has not
    settled.  The task is not among [tasks s] any more. *)
Definition continue (t : task) (a : answer) (uuid : jsstring) (s : server) : option server :=
  match t with
  | Listing rq => Some (respond rq match a with GotSessions v => Ok (RList v) | _ => Err operation_failed end s)
  | AwaitDisposing rq id l =>
      ok ← disposal_settled s l; Some (if ok : bool then acquire rq id s else respond rq (Err operation_failed) s)
  | AwaitOpening rq id q owner =>
      o ← openings s !! q; if is_opening o then None else Some (opening_settled rq id q owner o s)
  | Attaching rq l => Some (attach_connection rq l s)
  | AttachRefused rq ws =>
      ok ← disposals_settled ws s; Some (respond rq (Err (if ok : bool then invalid_request else operation_failed)) s)
  | AttachSnapshot rq l =>
      let '(r, s) := broadcastSnapshot l (as_snapshot a) s in
      Some (respond rq (session_result rq r s) match r with Ok _ => broadcast s | Err _ => s end)
  | DetachSnapshot rq id l =>
      let '(r, s) := broadcastSnapshot l (as_snapshot a) s in
      Some (match r with Ok _ => detach_dispose rq id l s | Err e => respond rq (Err e) s end)
  | DetachDispose rq id ws =>
      ok ← disposals_settled ws s;
      Some (if ok : bool then detach_response rq id s else respond rq (Err operation_failed) s)
  | Operating rq l =>
      Some (if succeeded a then spawn (OperationSnapshot rq l) s else respond rq (Err operation_failed) (end_operation l s))
  | OperationSnapshot rq l =>
      let '(r, s) := broadcastSnapshot l (as_snapshot a) s in
      Some (respond rq (session_result rq r s) (end_operation l s))
  | OpenRuntime q => Some (create_runtime q (as_runtime a) s)
  | OpenSnapshot q r => Some (create_live q r (as_snapshot a) s)
  | OpenDispose q r e => Some (settle_opening q (OpenFailed e) (release r s))
  | DisposeRuntime l => Some (runtime_disposed l (succeeded a) s)
  | AfterDispose l =>
      ok ← disposal_settled s l; Some (if (ok : bool) && negb (isClosing s) then broadcast s else s)
  | EventSnapshot l => Some (broadcastSnapshot l (as_snapshot a) s).2
  | Terminating l cs => Some (let '(s, ws) := disconnect_all cs s in spawn (TerminateDispose l ws) s)
  | TerminateDispose l ws => disposals_settled ws s ≫= λ _, Some (maybeDispose l s)
  | HandshakeSnapshot c revision =>
      Some (if succeeded a then send_hello c revision s else failProtocol c (SettleHandshake c) s)
  | HelloSent c revision =>
      Some (if succeeded a then hello_delivered c revision s else spawn (Closing c (SettleHandshake c)) s)
  | HandshakeRefresh c revision =>
      Some (if succeeded a then sendMessage c (SentServer revision) (SettleHandshake c) s
            else failProtocol c (SettleHandshake c) s)
  | AwaitHandshake c envelope command =>
      conn ← conns s !! c;
      if handshake_settled conn then
        Some (if bool_decide (stage conn = ready) && negb (disconnected conn)
              then handleRequest c envelope command uuid s else s)
      else None
  | Sending c k => Some (if succeeded a then run_after k s else spawn (Closing c k) s)
  | Closing c k => Some (transport_closed c k s)
  | Disconnecting ws => disposals_settled ws s ≫= λ _, Some (if isClosing s then s else broadcast s)
  | Continuing ws k => disposals_settled ws s ≫= λ _, Some (run_after k s)
  | BroadcastModels cs revision =>
      Some (if succeeded a then spawn (BroadcastSend cs revision) s else s <| broadcasting := false |>)
  | BroadcastSend cs revision =>
      Some match cs with
           | [] => s <| broadcasting := false |>
           | c :: cs => sendMessage c (SentServer revision) (NextSend cs revision) s
           end
  | CloseListeners => Some (closeServerState s)
  | CloseConnections cs => Some (let '(s, ws) := disconnect_all cs s in spawn (CloseSessions ws) s)
  | CloseSessions ws => disposals_settled ws s ≫= λ _, Some (spawn (CloseOpenings (map_to_list (openingSessions s)).*2) s)
  | CloseOpenings qs =>
      if forallb (λ q, match openings s !! q with Some o => negb (is_opening o) | None => true end) qs
      then Some (close_sessions s) else None
  | CloseDispose l => Some match lives s !! l with Some live => release (live_runtime live) s | None => s end
  end.

Definition resume (i : nat) (a : answer) (uuid : jsstring) (s : server) : option server :=
  t ← tasks s !! i; continue t a uuid (s <| tasks := delete i (tasks s) |>).

(** What happens outside; [uuid] is what [randomUUID()] gives if it is called. *)
Inductive event :=
| Accept | Message (c : nat) (m : client_message) (uuid : jsstring) | BadData (c : nat)
| HandshakeTimeout (c : nat) | TransportClosed (c : nat) | TransportError (c : nat) | ByteClosed (c : nat)
| RuntimeEvent (l : nat) (e : runtime_event) | Phase (r : nat) (phase : jsstring)
| NextBroadcast | Close.

Definition accept (s : server) : server :=
  if isClosing s then s else s <| conns := conns s ++ [MkConnection [] awaitingHello false false false false] |>.

Definition handle (e : event) (s : server) : option server :=
  match e with
  | Accept => Some (accept s)
  | Message c m uuid => Some (receive c m uuid s)
  | BadData c =>
      conn ← conns s !! c;
      Some (if disconnected conn || bool_decide (stage conn = closing) || bool_decide (stage conn = closed) then s
            else failProtocol c Nothing s)
  | HandshakeTimeout c => conn ← conns s !! c; if handshakeComplete conn then None else Some (failProtocol c Nothing s)
  | TransportClosed c => Some (disconnect c s).1
  | TransportError c => Some (spawn (Closing c Nothing) s)
  | ByteClosed c => Some (update_conn c (λ conn, conn <| byte_closed := true |>) s)
  | RuntimeEvent l e =>
      live ← lives s !! l; if subscribed live then Some (handleRuntimeEvent l e s) else None
  | Phase r phase => Some (update_runtime r (λ rt, rt <| getPhase := phase |>) s)
  | NextBroadcast => if broadcasting s then None else match broadcasts s with O => None | S _ => Some (performBroadcast s) end
  | Close => if isClosing s then None else Some (spawn CloseListeners (s <| isClosing := true |>))
  end.

Inductive step : server → server → Prop :=
| step_resume i a uuid s s' : resume i a uuid s = Some s' → step s s'
| step_event e s s' : handle e s = Some s' → step s s'.

Inductive server_reachable : server → Prop :=
| server_new : server_reachable new_server
| server_step s s' : server_reachable s → step s s' → server_reachable s'.
End Server.

(** *** Runs *)

Inductive move := Resume (i : nat) (a : answer) (uuid : jsstring) | Happen (e : event).

Definition run_move (encodes : message → bool) (m : move) (s : server) : option server :=
  match m with Resume i a uuid => resume encodes i a uuid s | Happen e => handle encodes e s end.

Fixpoint run (encodes : message → bool) (ms : list move) (s : server) : option server :=
  match ms with [] => Some s | m :: ms => s' ← run_move encodes m s; run encodes ms s' end.

Lemma run_reachable encodes ms s s' : server_reachable encodes s → run encodes ms s = Some s' → server_reachable encodes s'.
Proof.
  revert s. induction ms as [|m ms IH]; intros s Hs; [by intros [= <-]|]. cbn. intros (s1 & Hm & Hrun)%bind_Some.
  apply (IH s1); [|done]. eapply server_step; [done|]. destruct m; by econstructor.
Qed.

(** When a session is disposed. *)
Lemma may_dispose_true live s :
  may_dispose live s = true →
  isClosing s = false ∧ disposing live = NotDisposing ∧ connections live = [] ∧ operationCount live ≤ 0
  ∧ (terminal live = true ∨ is_idle (live_runtime live) s = true).
Proof.
  unfold may_dispose. rewrite negb_true_iff, !orb_false_iff, !negb_false_iff, !bool_decide_eq_true, andb_false_iff, !negb_false_iff.
  intros (((((? & ?) & ?) & ?) & ?%Z.ltb_ge) & ?). auto 6.
Qed.
