(* ===== verification/ServerOwnership.v ===== *)
(** * Who holds the runtimes of sessions

    The abstract specification of [LiveSessionManager]: a runtime of a session is asked
    for, held by the session that was opened for it or given back, and disposed once.
    It knows nothing of connections, requests and operations. *)

From S2P Require Import Prelude JsString Server.

(** A live session: its id, its runtime and its disposal. *)
Record held := MkHeld { h_id : jsstring; h_runtime : nat; h_disposal : disposal }.
(** A runtime: its session, how often [dispose()] was called, whether that is over. *)
Record lease := MkLease { of_session : jsstring; disposals : nat; given_back : bool }.

Record ownership := MkOwnership {
  held_lives : list held; held_sessions : gmap jsstring nat; asked : list opening; asked_for : gmap jsstring nat;
  leases : list lease; duties : list task; shutting : bool }.

#[export] Instance held_eta : Eta held := λ l, MkHeld (h_id l) (h_runtime l) (h_disposal l).
#[export] Instance lease_eta : Eta lease := λ r, MkLease (of_session r) (disposals r) (given_back r).
#[export] Instance ownership_eta : Eta ownership := λ o,
  MkOwnership (held_lives o) (held_sessions o) (asked o) (asked_for o) (leases o) (duties o) (shutting o).

Definition fresh : ownership := MkOwnership [] ∅ [] ∅ [] [] false.

Definition disposed_once (r : nat) (o : ownership) : ownership :=
  o <| leases := alter (λ x, x <| disposals := S (disposals x) |>) r (leases o) |>.
Definition back (r : nat) (o : ownership) : ownership :=
  o <| leases := alter (λ x, x <| given_back := true |>) r (leases o) |>.
Definition answer_asked (q : nat) (a : opening) (o : ownership) : ownership := o <| asked := <[q := a]> (asked o) |>.
Definition set_disposal (l : nat) (d : disposal) (o : ownership) : ownership :=
  o <| held_lives := alter (λ x, x <| h_disposal := d |>) l (held_lives o) |>.
Definition owe (t : task) (o : ownership) : ownership := o <| duties := duties o ++ [t] |>.
Definition forget (id : jsstring) (l : nat) (o : ownership) : ownership :=
  if bool_decide (held_sessions o !! id = Some l) then o <| held_sessions := delete id (held_sessions o) |> else o.

(** A duty is taken up: [o] without it is [o']. *)
Definition take (t : task) (o o' : ownership) : Prop := ∃ ts, duties o ≡ₚ t :: ts ∧ o' = o <| duties := ts |>.

(** The steps of the end, in whose wake live sessions are cleared. *)
Definition is_closer (t : task) : bool :=
  match t with CloseListeners | CloseConnections _ | CloseSessions _ | CloseOpenings _ => true | _ => false end.

Inductive own_step : ownership → ownership → Prop :=
(* a session is neither held nor asked for: ask the service *)
| own_ask o id :
    held_sessions o !! id = None → asked_for o !! id = None →
    own_step o (owe (OpenRuntime (length (asked o)))
                 (o <| asked := asked o ++ [Opening id] |> <| asked_for := <[id := length (asked o)]> (asked_for o) |>))
| own_denied o o' q e : take (OpenRuntime q) o o' → own_step o (answer_asked q (OpenFailed e) o')
| own_granted o o' q id :
    take (OpenRuntime q) o o' → asked o !! q = Some (Opening id) → shutting o = false →
    own_step o (owe (OpenSnapshot q (length (leases o))) (o' <| leases := leases o' ++ [MkLease id 0 false] |>))
| own_granted_late o o' q id e :
    take (OpenRuntime q) o o' → asked o !! q = Some (Opening id) → shutting o = true →
    own_step o (owe (OpenDispose q (length (leases o)) e)
                 (disposed_once (length (leases o)) (o' <| leases := leases o' ++ [MkLease id 0 false] |>)))
| own_refuse o o' q r e : take (OpenSnapshot q r) o o' → own_step o (owe (OpenDispose q r e) (disposed_once r o'))
| own_refused o o' q r e : take (OpenDispose q r e) o o' → own_step o (answer_asked q (OpenFailed e) (back r o'))
| own_hold o o' q r id :
    take (OpenSnapshot q r) o o' → asked o !! q = Some (Opening id) →
    own_step o (answer_asked q (Opened (length (held_lives o)))
                 (o' <| held_lives := held_lives o' ++ [MkHeld id r NotDisposing] |>
                     <| held_sessions := <[id := length (held_lives o)]> (held_sessions o') |>))
| own_answered o q id a :
    asked o !! q = Some a → is_opening a = false → asked_for o !! id = Some q →
    own_step o (o <| asked_for := delete id (asked_for o) |>)
| own_dispose o l x :
    held_lives o !! l = Some x → h_disposal x = NotDisposing → shutting o = false →
    own_step o (owe (DisposeRuntime l) (disposed_once (h_runtime x) (set_disposal l Disposing o)))
| own_disposed o o' l x ok :
    take (DisposeRuntime l) o o' → held_lives o !! l = Some x →
    own_step o (forget (h_id x) l (set_disposal l (DisposeSettled ok) (back (h_runtime x) o')))
(* the end *)
| own_shut o : own_step o (o <| shutting := true |>)
| own_summon o t : shutting o = true → is_closer t = true → own_step o (owe t o)
| own_dismiss o o' t : take t o o' → is_closer t = true → own_step o o'
| own_clear o id l x :
    shutting o = true → held_sessions o !! id = Some l → held_lives o !! l = Some x → h_disposal x = NotDisposing →
    own_step o (owe (CloseDispose l) (disposed_once (h_runtime x) (o <| held_sessions := delete id (held_sessions o) |>)))
| own_clear_disposing o id l x :
    shutting o = true → held_sessions o !! id = Some l → held_lives o !! l = Some x → h_disposal x ≠ NotDisposing →
    own_step o (o <| held_sessions := delete id (held_sessions o) |>)
| own_cleared o o' l x :
    take (CloseDispose l) o o' → held_lives o !! l = Some x → own_step o (back (h_runtime x) o').

(** ** What holds of it *)

(** The runtimes someone has in hand. *)
Definition carried (t : task) : option nat :=
  match t with OpenSnapshot _ r | OpenDispose _ r _ => Some r | _ => None end.
Definition asking (t : task) : option nat :=
  match t with OpenRuntime q | OpenSnapshot q _ | OpenDispose q _ _ => Some q | _ => None end.
Definition letting_go (t : task) : option nat := match t with DisposeRuntime l => Some l | _ => None end.

Definition hands (o : ownership) : list nat := omap carried (duties o) ++ map h_runtime (held_lives o).

Definition is_settled (d : disposal) : bool := match d with DisposeSettled _ => true | _ => false end.
Definition calls (d : disposal) : nat := match d with NotDisposing => 0 | _ => 1 end.

(** What a duty says of the state. *)
Definition duty_ok (o : ownership) (t : task) : Prop :=
  match t with
  | OpenRuntime q => ∃ id, asked o !! q = Some (Opening id)
  | OpenSnapshot q r => ∃ id, asked o !! q = Some (Opening id) ∧ leases o !! r = Some (MkLease id 0 false)
  | OpenDispose q r _ => ∃ id, asked o !! q = Some (Opening id) ∧ leases o !! r = Some (MkLease id 1 false)
  | DisposeRuntime l => ∃ id r, held_lives o !! l = Some (MkHeld id r Disposing) ∧ leases o !! r = Some (MkLease id 1 false)
  | CloseDispose l =>
      shutting o = true ∧ (∃ id r, held_lives o !! l = Some (MkHeld id r NotDisposing)) ∧ ∀ id, held_sessions o !! id ≠ Some l
  | _ => is_closer t = true ∧ shutting o = true
  end.

(** A runtime that was not given back is in the hands of an opening or of a live session. *)
Definition in_use (o : ownership) (r : nat) : Prop :=
  r ∈ omap carried (duties o) ∨ ∃ id l d, held_sessions o !! id = Some l ∧ held_lives o !! l = Some (MkHeld id r d).

Record owned (o : ownership) : Prop := {
  owned_hands : NoDup (hands o);
  owned_bound : Forall (λ r, (r < length (leases o))%nat) (hands o);
  owned_asking : NoDup (omap asking (duties o));
  owned_letting_go : NoDup (omap letting_go (duties o));
  owned_duties : ∀ t, t ∈ duties o → duty_ok o t;
  owned_asked : ∀ q id, asked o !! q = Some (Opening id) → asked_for o !! id = Some q ∧ held_sessions o !! id = None;
  owned_sessions : ∀ id l, held_sessions o !! id = Some l → ∃ r d,
    held_lives o !! l = Some (MkHeld id r d) ∧ is_settled d = false ∧ leases o !! r = Some (MkLease id (calls d) false);
  owned_lives : shutting o = false → ∀ l x, held_lives o !! l = Some x →
    is_settled (h_disposal x) = false → held_sessions o !! h_id x = Some l;
  owned_once : ∀ r x, leases o !! r = Some x → (disposals x ≤ 1)%nat;
  owned_in_use : shutting o = false → ∀ r x, leases o !! r = Some x → given_back x = false → in_use o r }.

(** ** Lists *)

Lemma list_lookup_alter_Some {A} (f : A → A) i j (l : list A) y :
  alter f i l !! j = Some y → ∃ x, l !! j = Some x ∧ (i = j ∧ y = f x ∨ i ≠ j ∧ y = x).
Proof.
  rewrite list_lookup_alter. case_decide as Hij; [subst|eauto 6]. destruct (l !! j) as [x|] eqn:Hx; [|done]. cbn. intros [= <-]. eauto 6.
Qed.

Lemma omap_key_inj {A B} (f : A → option B) (l : list A) x y b :
  NoDup (omap f l) → x ∈ l → y ∈ l → f x = Some b → f y = Some b → x = y.
Proof.
  induction l as [|z l IH]; [by intros _ ?%not_elem_of_nil|]. cbn [omap list_omap].
  intros Hnd Hx Hy Hfx Hfy.
  assert (Hin : ∀ w, w ∈ l → f w = Some b → b ∈ omap f l) by (intros w ??; apply list_elem_of_omap; eauto).
  apply elem_of_cons in Hx as [->|Hx], Hy as [->|Hy]; [done| | |].
  - rewrite Hfx in Hnd. apply NoDup_cons in Hnd as [Hnin _]. by destruct (Hnin (Hin y Hy Hfy)).
  - rewrite Hfy in Hnd. apply NoDup_cons in Hnd as [Hnin _]. by destruct (Hnin (Hin x Hx Hfx)).
  - apply IH; auto. destruct (f z); [by apply NoDup_cons in Hnd as [_ ?]|done].
Qed.

Lemma map_alter_same {A B} (f : A → A) (g : A → B) i (l : list A) : (∀ x, g (f x) = g x) → map g (alter f i l) = map g l.
Proof. intros Hfg. revert i. induction l as [|x l IH]; intros [|i]; cbn; f_equal; auto. Qed.

(** Two hands do not hold the same runtime. *)
Lemma hands_lives o l1 l2 x1 x2 :
  NoDup (hands o) → held_lives o !! l1 = Some x1 → held_lives o !! l2 = Some x2 → h_runtime x1 = h_runtime x2 → l1 = l2.
Proof.
  intros (_ & _ & Hnd)%NoDup_app H1 H2 Heq.
  apply (NoDup_lookup _ l1 l2 (h_runtime x1) Hnd); rewrite list_lookup_fmap; [by rewrite H1|by rewrite H2, Heq].
Qed.
Lemma hands_apart o t l x r :
  NoDup (hands o) → t ∈ duties o → carried t = Some r → held_lives o !! l = Some x → h_runtime x ≠ r.
Proof.
  intros (_ & Hapart & _)%NoDup_app Ht Hr Hl <-. destruct (Hapart (h_runtime x)).
  - apply list_elem_of_omap. eauto.
  - apply list_elem_of_fmap. eauto using list_elem_of_lookup_2.
Qed.

(** ** Taking up a duty *)

Lemma take_hands t o o' : take t o o' → hands o ≡ₚ option_list (carried t) ++ hands o'.
Proof.
  intros (ts & Hts & ->). unfold hands. cbn. rewrite Hts. cbn. by destruct (carried t).
Qed.
Lemma take_in t o o' : take t o o' → t ∈ duties o.
Proof. intros (ts & Hts & _). rewrite Hts. left. Qed.

(** The others have other openings, runtimes and sessions. *)
Lemma take_rest {B} (f : task → option B) t o o' :
  take t o o' → NoDup (omap f (duties o)) →
  NoDup (omap f (duties o')) ∧ ∀ t', t' ∈ duties o' → t' ∈ duties o ∧ (f t' = f t → f t = None).
Proof.
  intros (ts & Hts & ->) Hnd. cbn. rewrite Hts in Hnd. cbn in Hnd. split.
  - destruct (f t); [by apply NoDup_cons in Hnd as [_ ?]|done].
  - intros t' Ht'. split; [rewrite Hts; by right|]. intros Heq. destruct (f t) as [b|] eqn:Ht; [|done].
    apply NoDup_cons in Hnd as [Hnin _]. destruct Hnin. apply list_elem_of_omap. eauto.
Qed.

Record rest_ok (t : task) (o o' : ownership) : Prop := {
  rest_duties : ∃ ts, o' = o <| duties := ts |>;
  rest_ok_t : duty_ok o t;
  rest_hands : NoDup (hands o');
  rest_bound : Forall (λ r, (r < length (leases o))%nat) (hands o');
  rest_asking : NoDup (omap asking (duties o'));
  rest_letting_go : NoDup (omap letting_go (duties o'));
  rest_in : ∀ t', t' ∈ duties o' → t' ∈ duties o;
  rest_other_asking : ∀ t' q, t' ∈ duties o' → asking t = Some q → asking t' ≠ Some q;
  rest_other_carried : ∀ t' r, t' ∈ duties o' → carried t = Some r → carried t' ≠ Some r;
  rest_other_letting_go : ∀ t' l, t' ∈ duties o' → letting_go t = Some l → letting_go t' ≠ Some l;
  rest_in_use : ∀ r, r ∈ omap carried (duties o) → carried t = Some r ∨ r ∈ omap carried (duties o') }.

Lemma take_ok t o o' : owned o → take t o o' → rest_ok t o o'.
Proof.
  intros Ho Ht.
  destruct (take_rest asking t o o' Ht (owned_asking _ Ho)) as [Ha1 Ha2].
  destruct (take_rest letting_go t o o' Ht (owned_letting_go _ Ho)) as [Hl1 Hl2].
  assert (NoDup (omap carried (duties o))) as Hc by (pose proof (owned_hands _ Ho) as [? _]%NoDup_app; done).
  destruct (take_rest carried t o o' Ht Hc) as [_ Hc2].
  pose proof (owned_hands _ Ho) as Hh. pose proof (owned_bound _ Ho) as Hb.
  rewrite (take_hands t o o' Ht) in Hh, Hb. apply NoDup_app in Hh as (_ & _ & Hh). apply Forall_app in Hb as [_ Hb].
  constructor; auto.
  - destruct Ht as (ts & _ & ->). by exists ts.
  - apply (owned_duties _ Ho), (take_in _ _ _ Ht).
  - intros t' Ht'. by apply Ha2.
  - intros t' q Ht' Hq Hq'. apply Ha2 in Ht' as [_ Ht']. rewrite Hq, Hq' in Ht'. by specialize (Ht' eq_refl).
  - intros t' q Ht' Hq Hq'. apply Hc2 in Ht' as [_ Ht']. rewrite Hq, Hq' in Ht'. by specialize (Ht' eq_refl).
  - intros t' q Ht' Hq Hq'. apply Hl2 in Ht' as [_ Ht']. rewrite Hq, Hq' in Ht'. by specialize (Ht' eq_refl).
  - destruct Ht as (ts & Hts & ->). intros r. rewrite Hts. cbn. destruct (carried t); [|by right].
    intros [->|]%elem_of_cons; [by left|by right].
Qed.

(** A duty that is not concerned by what changed. *)
Lemma duty_frame o o' t :
  duty_ok o t →
  (∀ q, asking t = Some q → asked o' !! q = asked o !! q) →
  (∀ r, carried t = Some r → leases o' !! r = leases o !! r) →
  (∀ l x, letting_go t = Some l → held_lives o !! l = Some x →
     held_lives o' !! l = Some x ∧ leases o' !! h_runtime x = leases o !! h_runtime x) →
  (∀ l x, t = CloseDispose l → held_lives o !! l = Some x →
     held_lives o' !! l = Some x ∧ ∀ id, held_sessions o' !! id = Some l → held_sessions o !! id = Some l) →
  (shutting o = true → shutting o' = true) → duty_ok o' t.
Proof.
  intros Hok Hq Hr Hl Hc Hs. destruct t; cbn in *; try (destruct Hok as [Hok ?]; try done; auto; fail).
  - destruct Hok as (id & Hok). exists id. by rewrite Hq.
  - destruct Hok as (id & ? & ?). exists id. by rewrite Hq, Hr.
  - destruct Hok as (id & ? & ?). exists id. by rewrite Hq, Hr.
  - destruct Hok as (id & r & Hx & ?). exists id, r. destruct (Hl _ _ eq_refl Hx) as [-> Hr']. cbn in Hr'. by rewrite Hr'.
  - destruct Hok as (? & (id & r & Hx) & Hno). destruct (Hc _ _ eq_refl Hx) as [Hx' Hs']. split; [auto|]. split; [eauto|].
    intros id' Hid'. by destruct (Hno id'); auto.
Qed.

Lemma omap_snoc {A B} (f : A → option B) (l : list A) x : omap f (l ++ [x]) = omap f l ++ option_list (f x).
Proof. rewrite omap_app. cbn. by destruct (f x). Qed.

Lemma in_snoc {A} (x y : A) l : x ∈ l ++ [y] → x ∈ l ∨ x = y.
Proof. by intros [|?%list_elem_of_singleton]%elem_of_app; auto. Qed.

Lemma duty_asked o t q : duty_ok o t → asking t = Some q → ∃ id, asked o !! q = Some (Opening id).
Proof. destruct t; cbn; intros; simplify_eq; firstorder. Qed.

Lemma asked_bound o q a : asked o !! q = Some a → q ≠ length (asked o).
Proof. intros Hq%lookup_lt_Some. lia. Qed.

(** What [forget] keeps. *)
Lemma forget_sessions id l o :
  ∃ m, forget id l o = o <| held_sessions := m |>
    ∧ (∀ id' l', m !! id' = Some l' → held_sessions o !! id' = Some l' ∧ (id' = id → l' ≠ l))
    ∧ (∀ id' l', held_sessions o !! id' = Some l' → l' ≠ l → m !! id' = Some l').
Proof.
  unfold forget. case_bool_decide as Hid; [exists (delete id (held_sessions o))|exists (held_sessions o)].
  - split; [done|]. split.
    + by intros id' l' [Hn ?]%lookup_delete_Some.
    + intros id' l' Hl' Hn. apply lookup_delete_Some. split; [congruence|done].
  - split; [by destruct o|]. split; [|done]. intros id' l' Hl'. split; [done|]. congruence.
Qed.

(** ** Every step keeps it *)

Section Steps.
Context (o : ownership) (Ho : owned o).

Lemma asked_not_asked_for q id : asked o !! q = Some (Opening id) → asked_for o !! id ≠ None.
Proof. intros Hq. destruct (owned_asked _ Ho q id Hq). congruence. Qed.

Lemma owned_ask id :
  held_sessions o !! id = None → asked_for o !! id = None →
  owned (owe (OpenRuntime (length (asked o)))
           (o <| asked := asked o ++ [Opening id] |> <| asked_for := <[id := length (asked o)]> (asked_for o) |>)).
Proof.
  intros Hs Ha. destruct Ho. constructor; cbn; auto.
  - unfold hands. cbn. by rewrite omap_snoc, app_nil_r.
  - unfold hands. cbn. by rewrite omap_snoc, app_nil_r.
  - rewrite omap_snoc. apply NoDup_app. split; [done|]. split; [|apply NoDup_singleton].
    intros q (t & Ht & Hq)%list_elem_of_omap ->%list_elem_of_singleton.
    destruct (duty_asked _ _ _ (owned_duties0 _ Ht) Hq) as (id' & Hid). by apply asked_bound in Hid.
  - by rewrite omap_snoc, app_nil_r.
  - intros t [Ht| ->]%in_snoc.
    + eapply duty_frame; [by apply owned_duties0|..]; cbn; auto.
      intros q Hq. destruct (duty_asked _ _ _ (owned_duties0 _ Ht) Hq) as (id' & Hid).
      apply lookup_app_l. by apply lookup_lt_Some in Hid.
    + exists id. cbn. by apply list_lookup_middle.
  - intros q id' [Hq|[Hlen Hq]]%lookup_app_Some.
    + destruct (owned_asked0 _ _ Hq) as [Hq' ?]. split; [|done]. by rewrite lookup_insert_ne by congruence.
    + apply list_lookup_singleton_Some in Hq as [Hq [= <-]]. rewrite lookup_insert_eq. split; [f_equal; lia|done].
  - intros Hsh r x Hr Hx. destruct (owned_in_use0 Hsh r x Hr Hx) as [Hc|?]; [left|by right].
    cbn. by rewrite omap_snoc, app_nil_r.
Qed.

Lemma owned_answered q id a :
  asked o !! q = Some a → is_opening a = false → asked_for o !! id = Some q →
  owned (o <| asked_for := delete id (asked_for o) |>).
Proof.
  intros Hq Ha Hid. destruct Ho. constructor; cbn; auto.
  - intros q' id' Hq'. destruct (owned_asked0 _ _ Hq'). split; [|done].
    rewrite lookup_delete_ne; [done|]. intros ->. by simplify_eq.
Qed.

Lemma owned_shut : owned (o <| shutting := true |>).
Proof.
  destruct Ho. constructor; cbn; auto; try done.
  intros t Ht. eapply duty_frame; [by apply owned_duties0|..]; cbn; auto.
Qed.

Lemma closer_keys t : is_closer t = true → carried t = None ∧ asking t = None ∧ letting_go t = None.
Proof. by destruct t. Qed.

Lemma owned_summon t : shutting o = true → is_closer t = true → owned (owe t o).
Proof.
  intros Hsh Ht. destruct (closer_keys _ Ht) as (Hc & Ha & Hl).
  destruct Ho. constructor; cbn; auto; try congruence.
  - unfold hands. cbn. by rewrite omap_snoc, Hc, app_nil_r.
  - unfold hands. cbn. by rewrite omap_snoc, Hc, app_nil_r.
  - by rewrite omap_snoc, Ha, app_nil_r.
  - by rewrite omap_snoc, Hl, app_nil_r.
  - intros t' [Ht'| ->]%in_snoc; [eapply duty_frame; [by apply owned_duties0|..]; cbn; auto|]. by destruct t.
Qed.

Lemma owned_dismiss o' t : take t o o' → is_closer t = true → owned o'.
Proof.
  intros Ht Hc. assert (shutting o = true) as Hsh.
  { pose proof (owned_duties _ Ho t (take_in _ _ _ Ht)) as Hok. destruct t; try discriminate Hc; by destruct Hok. }
  destruct (take_ok _ _ _ Ho Ht) as [(ts & ->) _ Hh Hb ?? Hin ? ? ? _]. destruct Ho. constructor; cbn in *; auto; try congruence.
  intros t' Ht'. eapply duty_frame; [by apply owned_duties0, Hin|..]; cbn; auto.
Qed.

Lemma owned_clear_disposing id l x :
  shutting o = true → held_sessions o !! id = Some l → held_lives o !! l = Some x → h_disposal x ≠ NotDisposing →
  owned (o <| held_sessions := delete id (held_sessions o) |>).
Proof.
  intros Hsh Hid Hl Hx. destruct Ho. constructor; cbn; auto; try congruence.
  - intros t Ht. eapply duty_frame; [by apply owned_duties0|..]; cbn; auto.
    intros l' x' -> Hl'. split; [done|]. intros id' [_ ?]%lookup_delete_Some. done.
  - intros q id' Hq. destruct (owned_asked0 _ _ Hq). split; [done|]. rewrite lookup_delete. by case_decide.
  - intros id' l' [_ ?]%lookup_delete_Some. eauto.
Qed.


Lemma owned_denied o' q e : take (OpenRuntime q) o o' → owned (answer_asked q (OpenFailed e) o').
Proof.
  intros Ht. destruct (take_ok _ _ _ Ho Ht) as [(ts & ->) Hok ???? Hin Ha Hc Hl Hu]. destruct Ho. constructor; cbn; auto.
  - intros t' Ht'. eapply duty_frame; [by apply owned_duties0, Hin|..]; cbn; auto.
    intros q' Hq'. apply list_lookup_insert_ne. intros ->. by apply (Ha t' q').
  - intros q' id [(_ & [=] & _)|[_ ?]]%list_lookup_insert_Some. by apply owned_asked0.
  - intros Hsh r x Hr Hx. destruct (owned_in_use0 Hsh r x Hr Hx) as [[[=]|?]%Hu|?]; [by left|by right].
Qed.

Lemma lease_other r' r f : r' ≠ r → alter f r (leases o) !! r' = leases o !! r'.
Proof. intros. by apply list_lookup_alter_ne. Qed.

Lemma session_runtime id l r d :
  held_sessions o !! id = Some l → held_lives o !! l = Some (MkHeld id r d) → is_settled d = false ∧ leases o !! r = Some (MkLease id (calls d) false).
Proof. intros Hid Hl. destruct (owned_sessions _ Ho _ _ Hid) as (r' & d' & Hl' & Hd). by simplify_eq. Qed.

Lemma owned_refused o' q r e : take (OpenDispose q r e) o o' → owned (answer_asked q (OpenFailed e) (back r o')).
Proof.
  intros Ht. destruct (take_ok _ _ _ Ho Ht) as [(ts & ->) Hok ???? Hin Ha Hc Hl Hu].
  assert (Hr : ∀ l x, held_lives o !! l = Some x → h_runtime x ≠ r)
    by (intros l x; by apply (hands_apart o _ l x r (owned_hands _ Ho) (take_in _ _ _ Ht))).
  destruct Ho. constructor; cbn; auto.
  - eapply Forall_impl; [done|]. intros r'. cbn. by rewrite length_alter.
  - intros t' Ht'. eapply duty_frame; [by apply owned_duties0, Hin|..]; cbn; auto.
    + intros q' Hq'. apply list_lookup_insert_ne. intros ->. by apply (Ha t' q').
    + intros r' Hr'. apply lease_other. intros ->. by apply (Hc t' r).
    + intros l x _ Hx. split; [done|]. apply lease_other. eauto.
  - intros q' id [(_ & [=] & _)|[_ ?]]%list_lookup_insert_Some. by apply owned_asked0.
  - intros id l Hid. destruct (owned_sessions0 _ _ Hid) as (r' & d & Hx & ?). exists r', d. rewrite lease_other; [done|].
    by apply (Hr l (MkHeld id r' d)).
  - intros r' x (y & Hy & [[_ ->]|[_ ->]])%list_lookup_alter_Some; cbn; eauto.
  - intros Hsh r' x (y & Hy & [[_ ->]|[Hne ->]])%list_lookup_alter_Some; cbn; [done|]. intros Hx.
    destruct (owned_in_use0 Hsh r' y Hy Hx) as [[[=]|?]%Hu|?]; [done|by left|by right].
Qed.

(** A duty is replaced by another that carries the same. *)
Lemma swap_keys {B} (f : task → option B) t t' o' :
  take t o o' → f t' = f t → omap f (duties o' ++ [t']) ≡ₚ omap f (duties o).
Proof.
  intros (ts & Hts & ->) Hf. cbn. rewrite Hts, omap_snoc, Hf. cbn. destruct (f t); cbn; solve_Permutation.
Qed.

Lemma owned_refuse o' q r e : take (OpenSnapshot q r) o o' → owned (owe (OpenDispose q r e) (disposed_once r o')).
Proof.
  intros Ht. pose proof (take_ok _ _ _ Ho Ht) as [(ts & Hts) Hok ???? Hin Ha Hc Hl Hu].
  assert (Hr : ∀ l x, held_lives o !! l = Some x → h_runtime x ≠ r)
    by (intros l x; by apply (hands_apart o _ l x r (owned_hands _ Ho) (take_in _ _ _ Ht))).
  destruct Hok as (id & Hid & Hlease). pose proof (swap_keys carried _ (OpenDispose q r e) _ Ht eq_refl) as Hsc.
  pose proof (swap_keys asking _ (OpenDispose q r e) _ Ht eq_refl) as Hsa.
  pose proof (swap_keys letting_go _ (OpenDispose q r e) _ Ht eq_refl) as Hsl. subst o'. cbn in *.
  destruct Ho. constructor; cbn; auto.
  - unfold hands. cbn. by rewrite Hsc.
  - unfold hands. cbn. rewrite Hsc, length_alter. done.
  - by rewrite Hsa.
  - by rewrite Hsl.
  - intros t' [Ht'| ->]%in_snoc.
    + eapply duty_frame; [by apply owned_duties0, Hin|..]; cbn; auto.
      * intros r' Hr'. apply lease_other. intros ->. by apply (Hc t' r).
      * intros l x _ Hx. split; [done|]. apply lease_other. eauto.
    + exists id. split; [done|]. cbn. by rewrite list_lookup_alter_eq, Hlease.
  - intros id' l Hl'. destruct (owned_sessions0 _ _ Hl') as (r' & d & Hx & ?). exists r', d. rewrite lease_other; [done|].
    by apply (Hr l (MkHeld id' r' d)).
  - intros r' x (y & Hy & [[<- ->]|[_ ->]])%list_lookup_alter_Some; cbn; simplify_eq; eauto.
  - intros Hsh r' x (y & Hy & Hcase)%list_lookup_alter_Some Hx.
    assert (Hgb : given_back y = false) by (by destruct Hcase as [[_ ->]|[_ ->]]).
    destruct (owned_in_use0 Hsh r' y Hy Hgb) as [?|?]; [left; cbn; by rewrite Hsc|by right].
Qed.

Lemma owned_granted_as o' q id t n :
  take (OpenRuntime q) o o' → asked o !! q = Some (Opening id) → (n ≤ 1)%nat →
  carried t = Some (length (leases o)) → asking t = Some q → letting_go t = None →
  (∀ o'', asked o'' !! q = Some (Opening id) → leases o'' !! length (leases o) = Some (MkLease id n false) → duty_ok o'' t) →
  owned (owe t (o' <| leases := leases o' ++ [MkLease id n false] |>)).
Proof.
  intros Ht Hid Hn Hcar Hask Hlet Hduty. pose proof (take_ok _ _ _ Ho Ht) as [(ts & Hts) _ Hh Hb ?? Hin Ha Hc Hl Hu].
  pose proof (swap_keys asking _ t _ Ht Hask) as Hsa. pose proof (swap_keys letting_go _ t _ Ht Hlet) as Hsl. subst o'.
  cbn in *.
  assert (Hhands : omap carried (ts ++ [t]) ++ map h_runtime (held_lives o)
                   ≡ₚ length (leases o) :: omap carried ts ++ map h_runtime (held_lives o)).
  { rewrite omap_snoc, Hcar. cbn. solve_Permutation. }
  assert (Hold : ∀ r x, leases o !! r = Some x → (leases o ++ [MkLease id n false]) !! r = leases o !! r).
  { intros r x Hr. apply lookup_app_l. by apply lookup_lt_Some in Hr. }
  destruct Ho. constructor; cbn; auto.
  - unfold hands. cbn. rewrite Hhands. apply NoDup_cons. split; [|done]. intros Hlen.
    rewrite Forall_forall in Hb. specialize (Hb _ Hlen). lia.
  - unfold hands. cbn. rewrite Hhands, length_app. cbn. constructor; [lia|]. eapply Forall_impl; [exact Hb|]. cbn. lia.
  - by rewrite Hsa.
  - by rewrite Hsl.
  - intros t' [Ht'| ->]%in_snoc.
    + apply Hin in Ht'. pose proof (owned_duties0 _ Ht') as Hok. eapply duty_frame; [exact Hok|..]; cbn; auto.
      * intros r Hr. destruct t'; cbn in Hr, Hok; simplify_eq; destruct Hok as (? & _ & Hr); by eapply Hold.
      * intros l x Hl' Hx. split; [done|]. destruct t'; cbn in Hl', Hok; simplify_eq.
        destruct Hok as (? & ? & Hx' & Hr). simplify_eq. by eapply Hold.
    + apply Hduty; cbn; [done|]. by apply list_lookup_middle.
  - intros id' l Hl'. destruct (owned_sessions0 _ _ Hl') as (r & d & ? & ? & Hr). exists r, d. by rewrite (Hold _ _ Hr).
  - intros r x [Hr|[_ Hr]]%lookup_app_Some; [eauto|]. apply list_lookup_singleton_Some in Hr as [_ <-]. done.
  - intros Hsh r x Hr Hx. unfold in_use. cbn. rewrite omap_snoc, Hcar.
    apply lookup_app_Some in Hr as [Hr|[Hlen Hr]].
    + destruct (owned_in_use0 Hsh r x Hr Hx) as [[[=]|?]%Hu|?]; [left; apply elem_of_app; by left|by right].
    + apply list_lookup_singleton_Some in Hr as [Hr _]. left. apply elem_of_app. right. cbn.
      replace r with (length (leases o)) by lia. left.
Qed.

Lemma owned_hold o' q r id :
  take (OpenSnapshot q r) o o' → asked o !! q = Some (Opening id) →
  owned (answer_asked q (Opened (length (held_lives o)))
           (o' <| held_lives := held_lives o' ++ [MkHeld id r NotDisposing] |>
               <| held_sessions := <[id := length (held_lives o)]> (held_sessions o') |>)).
Proof.
  intros Ht Hid. pose proof (take_hands _ _ _ Ht) as Hperm.
  pose proof (take_ok _ _ _ Ho Ht) as [(ts & ->) Hok _ _ ?? Hin Ha Hc Hl Hu]. cbn in *.
  destruct Hok as (id' & Hid' & Hlease). simplify_eq.
  destruct (owned_asked _ Ho _ _ Hid) as [Hfor Hnone].
  assert (Hhands : omap carried ts ++ map h_runtime (held_lives o ++ [MkHeld id r NotDisposing]) ≡ₚ hands o).
  { rewrite Hperm. rewrite map_app. unfold hands. cbn. solve_Permutation. }
  assert (Hold : ∀ l x y, held_lives o !! l = Some x → (held_lives o ++ [y]) !! l = Some x).
  { intros l x y Hx. rewrite lookup_app_l; [done|]. by apply lookup_lt_Some in Hx. }
  assert (Hfresh : ∀ l x, held_lives o !! l = Some x → l ≠ length (held_lives o)).
  { intros l x Hx%lookup_lt_Some. lia. }
  destruct Ho. constructor; cbn; auto.
  - unfold hands. cbn. by rewrite Hhands.
  - unfold hands. cbn. by rewrite Hhands.
  - intros t' Ht'. eapply duty_frame; [by apply owned_duties0, Hin|..]; cbn; auto.
    + intros q' Hq'. apply list_lookup_insert_ne. intros ->. by apply (Ha t' q').
    + intros l x _ Hx. split; [|intros id'']; auto. intros [[_ <-]|[_ ?]]%lookup_insert_Some; [|done].
      by destruct (Hfresh _ _ Hx).
  - intros q' id' [(_ & [=] & _)|[Hne Hq']]%list_lookup_insert_Some. destruct (owned_asked0 _ _ Hq') as [Hfor' ?].
    split; [done|]. rewrite lookup_insert_ne; [done|]. congruence.
  - intros id' l [[<- <-]|[Hne Hl']]%lookup_insert_Some.
    + exists r, NotDisposing. by rewrite list_lookup_middle.
    + destruct (owned_sessions0 _ _ Hl') as (r' & d & ? & ?). exists r', d. eauto.
  - intros Hsh l x [Hx|[Hlen Hx]]%lookup_app_Some Hd.
    + rewrite lookup_insert_ne; [by apply owned_lives0|]. intros ->. rewrite (owned_lives0 Hsh _ _ Hx Hd) in Hnone. done.
    + apply list_lookup_singleton_Some in Hx as [Hx <-]. rewrite lookup_insert_eq. f_equal. lia.
  - intros Hsh r' x Hr' Hx. destruct (owned_in_use0 Hsh r' x Hr' Hx) as [[[= ->]|?]%Hu|(id' & l & d & Hl' & Hx')].
    + right. exists id, (length (held_lives o)), NotDisposing. cbn. by rewrite lookup_insert_eq, list_lookup_middle.
    + by left.
    + right. exists id', l, d. cbn. rewrite lookup_insert_ne by congruence. eauto.
Qed.

(** The duties of others do not concern a live session that nobody disposes of. *)
Lemma owned_dispose l x :
  held_lives o !! l = Some x → h_disposal x = NotDisposing → shutting o = false →
  owned (owe (DisposeRuntime l) (disposed_once (h_runtime x) (set_disposal l Disposing o))).
Proof.
  intros Hl Hx Hsh. destruct x as [id r d]. cbn in Hx. subst d. cbn.
  assert (Hid : held_sessions o !! id = Some l) by (by apply (owned_lives _ Ho Hsh l _ Hl)).
  destruct (session_runtime _ _ _ _ Hid Hl) as [_ Hlease]. cbn in Hlease.
  assert (Hhands : omap carried (duties o ++ [DisposeRuntime l])
                   ++ map h_runtime (alter (λ x, x <| h_disposal := Disposing |>) l (held_lives o)) = hands o).
  { rewrite omap_snoc, app_nil_r, map_alter_same by done. done. }
  assert (Hcar : ∀ t, t ∈ duties o → carried t ≠ Some r).
  { intros t Ht Hc. by apply (hands_apart o t l (MkHeld id r NotDisposing) r (owned_hands _ Ho) Ht Hc Hl). }
  assert (Hne : ∀ l' x', held_lives o !! l' = Some x' → l' ≠ l → h_runtime x' ≠ r).
  { intros l' x' Hl' Hne Heq. destruct Hne. by apply (hands_lives o l' l x' _ (owned_hands _ Ho) Hl' Hl). }
  assert (Hlet : ∀ t, t ∈ duties o → letting_go t ≠ Some l).
  { intros t Ht Hlg. pose proof (owned_duties _ Ho t Ht) as Hok. destruct t; cbn in *; simplify_eq.
    destruct Hok as (? & ? & ? & _). simplify_eq. }
  destruct Ho. constructor; cbn; auto.
  - unfold hands. cbn. by rewrite Hhands.
  - unfold hands. cbn. by rewrite Hhands, length_alter.
  - rewrite omap_snoc. by rewrite app_nil_r.
  - rewrite omap_snoc. apply NoDup_app. split; [done|]. split; [|apply NoDup_singleton].
    intros l' (t & Ht & Hlg)%list_elem_of_omap ->%list_elem_of_singleton. by apply (Hlet t).
  - intros t [Ht| ->]%in_snoc.
    + eapply duty_frame; [by apply owned_duties0|..]; cbn; auto.
      * intros r' Hr'. apply lease_other. intros ->. by apply (Hcar t).
      * intros l' x' Hlg Hx'. assert (l' ≠ l) by (intros ->; by apply (Hlet t)).
        rewrite list_lookup_alter_ne by done. split; [done|]. apply lease_other. eauto.
      * intros l' x' -> Hx'. destruct (owned_duties0 _ Ht). congruence.
    + exists id, r. cbn. by rewrite !list_lookup_alter_eq, Hl, Hlease.
  - intros id' l' Hl'. destruct (decide (l' = l)) as [->|Hll].
    + destruct (owned_sessions0 _ _ Hl') as (r' & d & ? & _). simplify_eq. exists r, Disposing.
      by rewrite !list_lookup_alter_eq, Hl, Hlease.
    + destruct (owned_sessions0 _ _ Hl') as (r' & d & Hx' & ?). exists r', d.
      rewrite list_lookup_alter_ne by done. rewrite lease_other; [done|]. by apply (Hne l' (MkHeld id' r' d)).
  - intros _ l' x (y & Hy & [[<- ->]|[_ ->]])%list_lookup_alter_Some; [|by apply owned_lives0].
    simplify_eq. done.
  - intros r' x (y & Hy & [[<- ->]|[_ ->]])%list_lookup_alter_Some; cbn; simplify_eq; eauto.
  - intros _ r' x (y & Hy & Hcase)%list_lookup_alter_Some Hgx.
    assert (Hgb : given_back y = false) by (by destruct Hcase as [[_ ->]|[_ ->]]).
    unfold in_use. cbn. rewrite omap_snoc, app_nil_r.
    destruct (owned_in_use0 Hsh r' y Hy Hgb) as [?|(id' & l' & d & Hl' & Hx')]; [by left|right].
    exists id', l'. rewrite list_lookup_alter, Hl. case_decide as Hll; subst; simplify_eq; cbn; eauto.
Qed.

Lemma owned_disposed o' l x ok :
  take (DisposeRuntime l) o o' → held_lives o !! l = Some x →
  owned (forget (h_id x) l (set_disposal l (DisposeSettled ok) (back (h_runtime x) o'))).
Proof.
  intros Ht Hl. pose proof (take_ok _ _ _ Ho Ht) as [(ts & ->) Hok Hh Hb ?? Hin Ha Hc Hlg Hu]. cbn in *.
  destruct Hok as (id & r & Hl' & Hlease). simplify_eq. cbn.
  assert (Hhands : map h_runtime (alter (λ x, x <| h_disposal := DisposeSettled ok |>) l (held_lives o)) = map h_runtime (held_lives o))
    by (by rewrite map_alter_same).
  assert (Hcar : ∀ t, t ∈ duties o → carried t ≠ Some r).
  { intros t Htt Hc'. by apply (hands_apart o t l (MkHeld id r Disposing) r (owned_hands _ Ho) Htt Hc' Hl). }
  assert (Hne : ∀ l' x', held_lives o !! l' = Some x' → l' ≠ l → h_runtime x' ≠ r).
  { intros l' x' Hl' Hne Heq. destruct Hne. by apply (hands_lives o l' l x' _ (owned_hands _ Ho) Hl' Hl). }
  destruct (forget_sessions id l (set_disposal l (DisposeSettled ok) (back r (o <| duties := ts |>)))) as (m & -> & Hm1 & Hm2).
  cbn in Hm1, Hm2. assert (Hother : ∀ id' l', m !! id' = Some l' → l' ≠ l ∧ held_sessions o !! id' = Some l').
  { intros id' l' Hl'. destruct (Hm1 _ _ Hl') as [Hs Hn]. split; [|done]. intros ->.
    destruct (owned_sessions _ Ho _ _ Hs) as (? & ? & ? & _). simplify_eq. by apply Hn. }
  destruct Ho. constructor; cbn; auto.
  - unfold hands. cbn. by rewrite Hhands.
  - unfold hands. cbn. by rewrite Hhands, length_alter.
  - intros t Ht'. assert (Hto := Hin _ Ht'). eapply duty_frame; [by apply owned_duties0|..]; cbn; auto.
    + intros r' Hr'. apply lease_other. intros ->. by apply (Hcar t).
    + intros l' x' Hlg' Hx'. assert (l' ≠ l) by (intros ->; by apply (Hlg t l)).
      rewrite list_lookup_alter_ne by done. split; [done|]. apply lease_other. eauto.
    + intros l' x' -> Hx'. split; [|intros id' ?; by apply Hother]. rewrite list_lookup_alter_ne; [done|]. intros ->.
      destruct (owned_duties0 _ Hto) as (_ & (? & ? & ?) & _). simplify_eq.
  - intros q id' Hq. destruct (owned_asked0 _ _ Hq) as [? Hnone]. split; [done|].
    destruct (m !! id') as [l'|] eqn:Hl'; [|done]. apply Hother in Hl' as [_ Hl']. congruence.
  - intros id' l' [Hll Hl']%Hother. destruct (owned_sessions0 _ _ Hl') as (r' & d & Hx' & ?). exists r', d.
    rewrite list_lookup_alter_ne by done. rewrite lease_other; [done|]. by apply (Hne l' (MkHeld id' r' d)).
  - intros Hsh l' x (y & Hy & [[<- ->]|[Hn ->]])%list_lookup_alter_Some Hd; [done|]. apply Hm2; auto.
  - intros r' x (y & Hy & [[<- ->]|[_ ->]])%list_lookup_alter_Some; cbn; eauto.
  - intros Hsh r' x (y & Hy & [[_ ->]|[Hn ->]])%list_lookup_alter_Some; cbn; [done|]. intros Hx.
    destruct (owned_in_use0 Hsh r' y Hy Hx) as [[[=]|?]%Hu|(id' & l' & d & Hl' & Hx')]; [by left|right].
    assert (l' ≠ l) by (intros ->; congruence). exists id', l', d. cbn. rewrite list_lookup_alter_ne by done. auto.
Qed.

Lemma owned_clear id l x :
  shutting o = true → held_sessions o !! id = Some l → held_lives o !! l = Some x → h_disposal x = NotDisposing →
  owned (owe (CloseDispose l) (disposed_once (h_runtime x) (o <| held_sessions := delete id (held_sessions o) |>))).
Proof.
  intros Hsh Hid Hl Hx. destruct x as [id' r d]. cbn in Hx. subst d. cbn.
  assert (id' = id) as -> by (destruct (owned_sessions _ Ho _ _ Hid) as (? & ? & ? & _); by simplify_eq).
  destruct (session_runtime _ _ _ _ Hid Hl) as [_ Hlease]. cbn in Hlease.
  assert (Hcar : ∀ t, t ∈ duties o → carried t ≠ Some r).
  { intros t Ht Hc. by apply (hands_apart o t l (MkHeld id r NotDisposing) r (owned_hands _ Ho) Ht Hc Hl). }
  assert (Hne : ∀ l' x', held_lives o !! l' = Some x' → l' ≠ l → h_runtime x' ≠ r).
  { intros l' x' Hl' Hne Heq. destruct Hne. by apply (hands_lives o l' l x' _ (owned_hands _ Ho) Hl' Hl). }
  assert (Huniq : ∀ id2, held_sessions o !! id2 = Some l → id2 = id).
  { intros id2 H2. destruct (owned_sessions _ Ho _ _ H2) as (? & ? & ? & _).
    destruct (owned_sessions _ Ho _ _ Hid) as (? & ? & ? & _). by simplify_eq. }
  destruct Ho. constructor; cbn; auto; try congruence.
  - unfold hands. cbn. by rewrite omap_snoc, app_nil_r.
  - unfold hands. cbn. by rewrite omap_snoc, app_nil_r, length_alter.
  - by rewrite omap_snoc, app_nil_r.
  - by rewrite omap_snoc, app_nil_r.
  - intros t [Ht| ->]%in_snoc.
    + eapply duty_frame; [by apply owned_duties0|..]; cbn; auto.
      * intros r' Hr'. apply lease_other. intros ->. by apply (Hcar t).
      * intros l' x' Hlg Hx'. split; [done|]. apply lease_other, (Hne l'); [done|]. intros ->.
        specialize (owned_duties0 _ Ht). destruct t; cbn in *; simplify_eq.
        destruct owned_duties0 as (? & ? & ? & _). simplify_eq.
      * intros l' x' -> Hx'. split; [done|]. by intros id2 [_ ?]%lookup_delete_Some.
    + cbn. split; [done|]. split; [eauto|]. intros id2 [Hn H2]%lookup_delete_Some. by apply Huniq in H2.
  - intros q id2 Hq. destruct (owned_asked0 _ _ Hq). split; [done|]. rewrite lookup_delete. by case_decide.
  - intros id2 l' [Hn Hl']%lookup_delete_Some. destruct (owned_sessions0 _ _ Hl') as (r' & d & Hx' & ?). exists r', d.
    rewrite lease_other; [done|]. apply (Hne l' (MkHeld id2 r' d)); [done|]. intros ->. by apply Huniq in Hl'.
  - intros r' x (y & Hy & [[<- ->]|[_ ->]])%list_lookup_alter_Some; cbn; simplify_eq; eauto.
Qed.

Lemma owned_cleared o' l x : take (CloseDispose l) o o' → held_lives o !! l = Some x → owned (back (h_runtime x) o').
Proof.
  intros Ht Hl. pose proof (take_ok _ _ _ Ho Ht) as [(ts & ->) Hok Hh Hb ?? Hin Ha Hc Hlg Hu]. cbn in *.
  destruct Hok as (Hsh & (id & r & Hl') & Hno). simplify_eq. cbn.
  assert (Hcar : ∀ t, t ∈ duties o → carried t ≠ Some r).
  { intros t Htt Hc'. by apply (hands_apart o t l (MkHeld id r NotDisposing) r (owned_hands _ Ho) Htt Hc' Hl). }
  assert (Hne : ∀ l' x', held_lives o !! l' = Some x' → l' ≠ l → h_runtime x' ≠ r).
  { intros l' x' Hl' Hne Heq. destruct Hne. by apply (hands_lives o l' l x' _ (owned_hands _ Ho) Hl' Hl). }
  destruct Ho. constructor; cbn; auto; try congruence.
  - eapply Forall_impl; [exact Hb|]. intros r'. cbn. by rewrite length_alter.
  - intros t Ht'. assert (Hto := Hin _ Ht'). eapply duty_frame; [by apply owned_duties0|..]; cbn; auto.
    + intros r' Hr'. apply lease_other. intros ->. by apply (Hcar t).
    + intros l' x' Hlg' Hx'. split; [done|]. apply lease_other, (Hne l'); [done|]. intros ->.
      specialize (owned_duties0 _ Hto). destruct t; cbn in *; simplify_eq.
      destruct owned_duties0 as (? & ? & ? & _). simplify_eq.
  - intros id' l' Hl'. destruct (owned_sessions0 _ _ Hl') as (r' & d & Hx' & ?). exists r', d.
    rewrite lease_other; [done|]. apply (Hne l' (MkHeld id' r' d)); [done|]. intros ->. by apply (Hno id').
  - intros r' x (y & Hy & [[<- ->]|[_ ->]])%list_lookup_alter_Some; cbn; eauto.
Qed.
End Steps.

Lemma owned_fresh : owned fresh.
Proof.
  constructor; cbn; try done; try (constructor; fail).
  all: try (intros; by simplify_map_eq). all: intros; by apply not_elem_of_nil in H.
Qed.

Lemma disposed_new o id :
  disposed_once (length (leases o)) (o <| leases := leases o ++ [MkLease id 0 false] |>)
  = o <| leases := leases o ++ [MkLease id 1 false] |>.
Proof.
  destruct o as [a b c d ls ts sh].
  change (MkOwnership a b c d (alter (λ x, x <| disposals := S (disposals x) |>) (length ls) (ls ++ [MkLease id 0 false])) ts sh
          = MkOwnership a b c d (ls ++ [MkLease id 1 false]) ts sh).
  by rewrite alter_app_r_alt, Nat.sub_diag by done.
Qed.

Lemma own_step_owned o o' : owned o → own_step o o' → owned o'.
Proof.
  intros Ho Hs. revert Ho. destruct Hs as [| |o o' q id Ht Hq _|o o' q id e Ht Hq _| | | | | | | | | | | |]; intros Ho.
  - by eapply owned_ask.
  - by eapply owned_denied.
  - eapply (owned_granted_as o Ho o' q id); cbn; eauto.
  - assert (Heq : leases o' = leases o) by (by destruct Ht as (ts & _ & ->)).
    rewrite <- Heq, disposed_new.
    eapply (owned_granted_as o Ho o' q id _ 1); cbn; rewrite ?Heq; eauto.
  - by eapply owned_refuse.
  - by eapply owned_refused.
  - by eapply owned_hold.
  - by eapply owned_answered.
  - by eapply owned_dispose.
  - by eapply owned_disposed.
  - by eapply owned_shut.
  - by eapply owned_summon.
  - by eapply owned_dismiss.
  - by eapply owned_clear.
  - by eapply owned_clear_disposing.
  - by eapply owned_cleared.
Qed.

Lemma own_steps_owned o o' : rtc own_step o o' → owned o → owned o'.
Proof. induction 1; eauto using own_step_owned. Qed.

Lemma own_steps_shutting o o' : rtc own_step o o' → shutting o = true → shutting o' = true.
Proof.
  induction 1 as [|o o1 o' Hs _ IH]; [done|]. intros Hsh. apply IH. clear IH.
  destruct Hs; try done; repeat match goal with Ht : take _ _ _ |- _ => destruct Ht as (? & _ & ->) end; try done.
  unfold forget. by case_bool_decide.
Qed.

(** ** What it means *)

(** Who has a runtime that was not given back. *)
Lemma in_use_cases o r x :
  owned o → shutting o = false → leases o !! r = Some x → given_back x = false →
  (∃ t q, t ∈ duties o ∧ carried t = Some r ∧ asking t = Some q ∧ asked o !! q = Some (Opening (of_session x)))
  ∨ (∃ l d, held_sessions o !! of_session x = Some l ∧ held_lives o !! l = Some (MkHeld (of_session x) r d)).
Proof.
  intros Ho Hsh Hr Hx. destruct (owned_in_use _ Ho Hsh r x Hr Hx) as [(t & Ht & Hc)%list_elem_of_omap|(id & l & d & Hid & Hl)].
  - left. pose proof (owned_duties _ Ho t Ht) as Hok. destruct t; cbn in Hc, Hok; simplify_eq;
      destruct Hok as (id & Hq & Hlease); simplify_eq; cbn; eauto 8.
  - right. destruct (session_runtime _ Ho _ _ _ _ Hid Hl) as [_ Hlease]. simplify_eq. cbn. eauto.
Qed.

(** Two runtimes that were not given back are of two sessions. *)
Lemma owned_exclusive o r1 r2 x1 x2 :
  owned o → shutting o = false → leases o !! r1 = Some x1 → leases o !! r2 = Some x2 →
  given_back x1 = false → given_back x2 = false → of_session x1 = of_session x2 → r1 = r2.
Proof.
  intros Ho Hsh H1 H2 Hg1 Hg2 Heq.
  destruct (in_use_cases _ _ _ Ho Hsh H1 Hg1) as [(t1 & q1 & Ht1 & Hc1 & Ha1 & Hq1)|(l1 & d1 & Hs1 & Hl1)],
    (in_use_cases _ _ _ Ho Hsh H2 Hg2) as [(t2 & q2 & Ht2 & Hc2 & Ha2 & Hq2)|(l2 & d2 & Hs2 & Hl2)].
  - assert (q1 = q2) as ->.
    { apply (owned_asked _ Ho) in Hq1 as [Hq1 _], Hq2 as [Hq2 _]. congruence. }
    pose proof (omap_key_inj asking _ t1 t2 q2 (owned_asking _ Ho) Ht1 Ht2 Ha1 Ha2). congruence.
  - apply (owned_asked _ Ho) in Hq1 as [_ Hq1]. congruence.
  - apply (owned_asked _ Ho) in Hq2 as [_ Hq2]. congruence.
  - rewrite Heq in Hs1, Hl1. simplify_eq. done.
Qed.

(** While the service is asked for a session, no runtime of it is out. *)
Lemma owned_ask_free o q id r x :
  owned o → shutting o = false → OpenRuntime q ∈ duties o → asked o !! q = Some (Opening id) →
  leases o !! r = Some x → of_session x = id → given_back x = true.
Proof.
  intros Ho Hsh Ht Hq Hr <-. destruct (given_back x) eqn:Hg; [done|].
  destruct (in_use_cases _ _ _ Ho Hsh Hr Hg) as [(t & q' & Ht' & Hc & Ha & Hq')|(l & d & Hs & Hl)].
  - assert (q' = q) as ->.
    { apply (owned_asked _ Ho) in Hq as [Hq _], Hq' as [Hq' _]. congruence. }
    pose proof (omap_key_inj asking _ t (OpenRuntime q) q (owned_asking _ Ho) Ht' Ht Ha eq_refl). by subst t.
  - apply (owned_asked _ Ho) in Hq as [_ Hq]. congruence.
Qed.
