(* ===== verification/ServerTheorems.v ===== *)
(** * The server and its sessions

    The server refines the specification of who holds the runtimes, so that a session has
    one runtime at a time and disposes of it once; every request is answered once. *)

From stdpp Require Import relations.
From S2P Require Import Prelude JsString SessionTypes Client Server ServerOwnership.

(** ** What the specification sees of the server *)

Definition owning (t : task) : bool :=
  match t with
  | OpenRuntime _ | OpenSnapshot _ _ | OpenDispose _ _ _ | DisposeRuntime _ | CloseDispose _ => true
  | _ => is_closer t
  end.

Definition view_live (l : LiveSession) : held := MkHeld (live_id l) (live_runtime l) (disposing l).
Definition view_runtime (r : runtime) : lease := MkLease (rt_session r) (dispose_calls r) (released r).

Definition view (s : server) : ownership :=
  MkOwnership (map view_live (lives s)) (liveSessions s) (openings s) (openingSessions s) (map view_runtime (runtimes s))
    (filter (λ t, owning t = true) (tasks s)) (isClosing s).

Section Server.
Context (encodes : message → bool).

(** [s] becomes [s'] by steps of the specification. *)
Definition moves (s s' : server) : Prop := rtc own_step (view s) (view s').

#[export] Instance moves_preorder : PreOrder moves.
Proof. split; [by intros s; constructor|]. intros s1 s2 s3. unfold moves. apply transitivity. Qed.

Lemma moves_same s s' : view s' = view s → moves s s'.
Proof. intros Hv. unfold moves. by rewrite Hv. Qed.

(** *** What the specification does not see *)

Lemma view_spawn t s : owning t = false → view (spawn t s) = view s.
Proof. intros Ht. unfold view, spawn. cbn. by rewrite filter_app, filter_cons_False, app_nil_r by congruence. Qed.

Lemma view_owe t s : owning t = true → view (spawn t s) = owe t (view s).
Proof. intros Ht. unfold view, spawn, owe. cbn. by rewrite filter_app, filter_cons_True by done. Qed.

Lemma view_update_live l f s : (∀ x, view_live (f x) = view_live x) → view (update_live l f s) = view s.
Proof. intros Hf. unfold view, update_live. cbn. by rewrite map_alter_same. Qed.

Lemma view_update_conn c f s : view (update_conn c f s) = view s.
Proof. done. Qed.

Lemma view_broadcast s : view (broadcast s) = view s.
Proof. done. Qed.

Lemma view_run_after k s : view (run_after k s) = view s.
Proof. destruct k; cbn; [done..|]. by rewrite view_spawn. Qed.

Lemma view_sendMessage c m k s : view (sendMessage encodes c m k s) = view s.
Proof. unfold sendMessage. repeat case_match; rewrite ?view_run_after, ?view_spawn by done; done. Qed.

Lemma view_failProtocol c k s : view (failProtocol encodes c k s) = view s.
Proof. unfold failProtocol. repeat case_match; rewrite ?view_run_after, ?view_spawn by done; done. Qed.

Lemma view_respond rq o s : view (respond encodes rq o s) = view s.
Proof. unfold respond. by rewrite view_sendMessage. Qed.

Lemma view_foldl {A} (f : server → A → server) l s : (∀ s x, view (f s x) = view s) → view (foldl f s l) = view s.
Proof. intros Hf. revert s. induction l as [|x l IH]; intros s; [done|]. cbn. by rewrite IH. Qed.

Lemma view_send_all l m s : view (send_all encodes l m s) = view s.
Proof. unfold send_all. case_match; [|done]. apply view_foldl. intros. apply view_sendMessage. Qed.

Lemma view_broadcastSnapshot l a s : view (broadcastSnapshot encodes l a s).2 = view s.
Proof. unfold broadcastSnapshot. repeat case_match; cbn; by rewrite ?view_send_all. Qed.

(** *** What it sees *)

Lemma map_alter {A B} (f : A → A) (g : A → B) (h : B → B) i (l : list A) :
  (∀ x, g (f x) = h (g x)) → map g (alter f i l) = alter h i (map g l).
Proof. intros Hfg. revert i. induction l as [|x l IH]; intros [|i]; cbn; f_equal; auto. Qed.

Lemma view_call_dispose r s : view (call_dispose r s) = disposed_once r (view s).
Proof. unfold view, call_dispose, disposed_once, update_runtime. cbn. by erewrite map_alter. Qed.
Lemma view_release r s : view (release r s) = back r (view s).
Proof. unfold view, release, back, update_runtime. cbn. by erewrite map_alter. Qed.
Lemma view_disposing l d f s :
  (∀ x, view_live (f x) = (view_live x) <| h_disposal := d |>) → view (update_live l f s) = set_disposal l d (view s).
Proof. intros Hf. unfold view, update_live, set_disposal. cbn. by erewrite map_alter. Qed.
Lemma view_settle_opening q o s : view (settle_opening q o s) = answer_asked q o (view s).
Proof. done. Qed.

Lemma view_live_lookup s l live : lives s !! l = Some live → held_lives (view s) !! l = Some (view_live live).
Proof. intros Hl. cbn. by rewrite list_lookup_fmap, Hl. Qed.

(** *** Moves *)

Lemma moves_then s0 s s' : view s' = view s → moves s0 s → moves s0 s'.
Proof. intros Hv Hm. unfold moves in *. by rewrite Hv. Qed.

Lemma moves_step s0 s o' s' : own_step (view s) o' → view s' = o' → moves s0 s → moves s0 s'.
Proof. intros Hstep <- Hm. eapply rtc_r; eassumption. Qed.

Lemma moves_maybeDispose s0 l s : moves s0 s → moves s0 (maybeDispose l s).
Proof.
  intros Hm. unfold maybeDispose. destruct (lives s !! l) as [live|] eqn:Hl; [|done].
  destruct (may_dispose live s) eqn:Hd; [|done]. apply may_dispose_true in Hd as (Hc & Hd & _).
  eapply (moves_then _ _ _ (view_spawn _ _ _)). eapply moves_step; [eapply (own_dispose _ l (view_live live))|..|exact Hm].
  - by apply view_live_lookup.
  - done.
  - done.
  - rewrite view_owe by done. f_equal. rewrite view_call_dispose. f_equal. by apply view_disposing.
  Unshelve. done.
Qed.

Lemma moves_foldl {A} (f : server → A → server) l s0 s :
  (∀ s x, moves s0 s → moves s0 (f s x)) → moves s0 s → moves s0 (foldl f s l).
Proof. intros Hf. revert s. induction l as [|x l IH]; intros s Hs; [done|]. cbn. by apply IH, Hf. Qed.

Lemma moves_sessions_disconnect s0 c ids s : moves s0 s → moves s0 (sessions_disconnect c ids s).1.
Proof.
  intros Hm. unfold sessions_disconnect. cbn. apply moves_foldl; [intros; by apply moves_maybeDispose|].
  eapply moves_then; [|exact Hm]. rewrite view_foldl; [done|]. intros s' l. by apply view_update_live.
Qed.

Lemma moves_disconnect s0 c s : moves s0 s → moves s0 (disconnect c s).1.
Proof.
  intros Hm. unfold disconnect. destruct (conns s !! c) as [conn|]; [|done]. destruct (disconnected conn); [done|].
  destruct (sessions_disconnect _ _ _) as [s' ws] eqn:Hs.
  assert (moves s0 s') as Hm'.
  { change s' with (s', ws).1. rewrite <- Hs. by apply moves_sessions_disconnect, (moves_then _ s). }
  case_match; cbn; [|done]. by eapply moves_then; [apply view_spawn|].
Qed.

Lemma moves_disconnect_all s0 cs s : moves s0 s → moves s0 (disconnect_all cs s).1.
Proof.
  revert s. induction cs as [|c cs IH]; intros s Hm; [done|]. cbn.
  pose proof (moves_disconnect s0 c s Hm) as Hd. destruct (disconnect c s) as [s1 ws]. cbn in Hd.
  pose proof (IH s1 Hd) as Ha. by destruct (disconnect_all cs s1).
Qed.

(** *** Each operation *)

Lemma moves_spawn s0 t s : moves s0 s → owning t = false → moves s0 (spawn t s).
Proof. intros Hm Ht. by eapply moves_then; [apply view_spawn|]. Qed.
Lemma moves_update_conn s0 c f s : moves s0 s → moves s0 (update_conn c f s).
Proof. by apply moves_then. Qed.
Lemma moves_update_live s0 l f s : moves s0 s → (∀ x, view_live (f x) = view_live x) → moves s0 (update_live l f s).
Proof. intros Hm Hf. by eapply moves_then; [apply view_update_live|]. Qed.
Lemma moves_broadcast s0 s : moves s0 s → moves s0 (broadcast s).
Proof. by apply moves_then. Qed.
Lemma moves_run_after s0 k s : moves s0 s → moves s0 (run_after k s).
Proof. apply moves_then, view_run_after. Qed.
Lemma moves_sendMessage s0 c m k s : moves s0 s → moves s0 (sendMessage encodes c m k s).
Proof. apply moves_then, view_sendMessage. Qed.
Lemma moves_failProtocol s0 c k s : moves s0 s → moves s0 (failProtocol encodes c k s).
Proof. apply moves_then, view_failProtocol. Qed.
Lemma moves_respond s0 rq o s : moves s0 s → moves s0 (respond encodes rq o s).
Proof. apply moves_then, view_respond. Qed.
Lemma moves_send_all s0 l m s : moves s0 s → moves s0 (send_all encodes l m s).
Proof. apply moves_then, view_send_all. Qed.
Lemma moves_broadcastSnapshot s0 l a r s s' : broadcastSnapshot encodes l a s = (r, s') → moves s0 s → moves s0 s'.
Proof. intros Hb. change s' with (r, s').2. rewrite <- Hb. apply moves_then, view_broadcastSnapshot. Qed.
Lemma moves_snapshot s0 l a s : moves s0 s → moves s0 (broadcastSnapshot encodes l a s).2.
Proof. apply moves_then, view_broadcastSnapshot. Qed.
Lemma moves_disconnect_of s0 c s s' ws : disconnect c s = (s', ws) → moves s0 s → moves s0 s'.
Proof. intros Hd. change s' with (s', ws).1. rewrite <- Hd. apply moves_disconnect. Qed.
Lemma moves_disconnect_all_of s0 cs s s' ws : disconnect_all cs s = (s', ws) → moves s0 s → moves s0 s'.
Proof. intros Hd. change s' with (s', ws).1. rewrite <- Hd. apply moves_disconnect_all. Qed.

Hint Resolve moves_spawn moves_update_conn moves_update_live moves_broadcast moves_run_after moves_sendMessage moves_failProtocol
  moves_respond moves_send_all moves_broadcastSnapshot moves_snapshot moves_disconnect_of moves_disconnect_all_of moves_maybeDispose moves_disconnect : server.

Local Ltac moved := repeat (first [progress cbn zeta | case_match]); simplify_eq; eauto 12 with server.

Lemma moves_transport_closed s0 c k s : moves s0 s → moves s0 (transport_closed c k s).
Proof. intros Hm. unfold transport_closed. moved. Qed.

Lemma moves_acquire s0 rq id s : moves s0 s → moves s0 (acquire encodes rq id s).
Proof.
  intros Hm. unfold acquire. destruct (liveSessions s !! id) eqn:Hl; [moved|]. destruct (openingSessions s !! id) eqn:Ho; [moved|].
  cbn zeta. apply moves_spawn; [|done]. eapply moves_step; [apply (own_ask _ id); [exact Hl|exact Ho]|by rewrite view_owe|done].
Qed.

Lemma moves_attach s0 rq l s : moves s0 s → moves s0 (attach_connection rq l s).
Proof. intros Hm. unfold attach_connection. moved. Qed.

Lemma moves_detach_dispose s0 rq id l s : moves s0 s → moves s0 (detach_dispose rq id l s).
Proof. intros Hm. unfold detach_dispose. moved. Qed.

Lemma moves_detach s0 rq id s : moves s0 s → moves s0 (detach encodes rq id s).
Proof. intros Hm. unfold detach, detach_response. Hint Resolve moves_detach_dispose : server. moved. Qed.

Lemma moves_run_operation s0 rq id s : moves s0 s → moves s0 (run_operation encodes rq id s).
Proof. intros Hm. unfold run_operation. moved. Qed.

Lemma moves_end_operation s0 l s : moves s0 s → moves s0 (end_operation l s).
Proof. intros Hm. unfold end_operation. moved. Qed.

Hint Resolve moves_transport_closed moves_acquire moves_attach moves_detach moves_run_operation moves_end_operation : server.

Lemma moves_handleRequest s0 c e cmd uuid s : moves s0 s → moves s0 (handleRequest encodes c e cmd uuid s).
Proof.
  intros Hm. assert (moves s0 (s <| requests := S (requests s) |>)) as Hm' by (by apply (moves_then _ s)).
  unfold handleRequest, executeCommand. moved.
Qed.

Lemma moves_terminate s0 l s : moves s0 s → moves s0 (terminate l s).
Proof. intros Hm. unfold terminate. moved. Qed.

Hint Resolve moves_handleRequest moves_terminate : server.

Lemma moves_handleRuntimeEvent s0 l e s : moves s0 s → moves s0 (handleRuntimeEvent encodes l e s).
Proof. intros Hm. unfold handleRuntimeEvent. moved. Qed.

Lemma moves_send_hello s0 c revision s : moves s0 s → moves s0 (send_hello encodes c revision s).
Proof.
  intros Hm. unfold send_hello, settle_handshake. repeat case_match; eauto with server.
Qed.

Lemma moves_hello_delivered s0 c revision s : moves s0 s → moves s0 (hello_delivered c revision s).
Proof. intros Hm. unfold hello_delivered, settle_handshake. moved. Qed.

Lemma moves_receive s0 c m uuid s : moves s0 s → moves s0 (receive encodes c m uuid s).
Proof. intros Hm. unfold receive, dispatchMessage, settle_handshake. moved. Qed.

Hint Resolve moves_handleRuntimeEvent moves_send_hello moves_hello_delivered moves_receive : server.

Lemma moves_performBroadcast s0 s : moves s0 s → moves s0 (performBroadcast s).
Proof.
  intros Hm. unfold performBroadcast. repeat case_match; apply (moves_then _ s); try done; cbn zeta; by rewrite view_spawn.
Qed.

(** *** Taking up a task *)

Lemma view_resume i t s : tasks s !! i = Some t → owning t = false → view (s <| tasks := delete i (tasks s) |>) = view s.
Proof.
  intros Hi Ht. unfold view. cbn. f_equal.
  rewrite <- (take_drop_middle _ _ _ Hi) at 2. rewrite delete_take_drop, !filter_app, filter_cons_False by congruence. done.
Qed.

Lemma view_take i t s : tasks s !! i = Some t → owning t = true → take t (view s) (view (s <| tasks := delete i (tasks s) |>)).
Proof.
  intros Hi Ht. exists (filter (λ t, owning t = true) (delete i (tasks s))). split; [|done]. cbn.
  rewrite <- (take_drop_middle _ _ _ Hi) at 1. rewrite delete_take_drop, !filter_app, filter_cons_True by done. solve_Permutation.
Qed.

(** A step that takes up a duty. *)
Lemma moves_take s i t o' s' :
  tasks s !! i = Some t → own_step (view s) o' → view s' = o' → moves s s'.
Proof. intros Hi Hs <-. by apply rtc_once. Qed.

Lemma moves_create_runtime i q phase s :
  owned (view s) → tasks s !! i = Some (OpenRuntime q) →
  moves s (create_runtime q phase (s <| tasks := delete i (tasks s) |>)).
Proof.
  intros Ho Hi. pose proof (view_take _ _ _ Hi eq_refl) as Ht.
  destruct (owned_duties _ Ho _ (take_in _ _ _ Ht)) as (id & Hid). cbn in Hid. unfold create_runtime.
  destruct phase as [phase|]; [|by eapply moves_take; [done|by eapply own_denied|]].
  set (s1 := s <| tasks := delete i (tasks s) |>) in *. unfold opening_id. change (openings s1) with (openings s). rewrite Hid.
  assert (Hv : view (s1 <| runtimes := runtimes s1 ++ [MkRuntime id phase 0 false] |>)
               = (view s1) <| leases := leases (view s1) ++ [MkLease id 0 false] |>).
  { unfold view. cbn. by rewrite map_app. }
  assert (Hlen : length (runtimes s1) = length (leases (view s))) by (cbn; by rewrite length_map).
  cbn zeta. case_match eqn:Hc; eapply moves_take; [done|by eapply own_granted_late| |done|by eapply own_granted|].
  - by rewrite view_owe, view_call_dispose, Hv, Hlen by done.
  - by rewrite view_owe, Hv, Hlen by done.
Qed.

Lemma moves_create_live i q r a s :
  owned (view s) → tasks s !! i = Some (OpenSnapshot q r) →
  moves s (create_live q r a (s <| tasks := delete i (tasks s) |>)).
Proof.
  intros Ho Hi. pose proof (view_take _ _ _ Hi eq_refl) as Ht.
  destruct (owned_duties _ Ho _ (take_in _ _ _ Ht)) as (id & Hid & _). cbn in Hid.
  assert (Hfail : ∀ e, moves s (create_failed q r e (s <| tasks := delete i (tasks s) |>))).
  { intros e. eapply moves_take; [done|by eapply own_refuse|]. unfold create_failed. by rewrite view_owe, view_call_dispose. }
  unfold create_live. destruct a as [sn|]; [|done].
  set (s1 := s <| tasks := delete i (tasks s) |>) in *. unfold opening_id. change (openings s1) with (openings s). rewrite Hid.
  case_bool_decide; [|done]. cbn zeta. eapply moves_take; [done|by eapply own_hold|].
  unfold view. cbn. by rewrite map_app, !length_map.
Qed.

Lemma moves_opening_settled s0 rq id q owner o s :
  openings s !! q = Some o → is_opening o = false → moves s0 s → moves s0 (opening_settled encodes rq id q owner o s).
Proof.
  intros Hq Ho Hm. unfold opening_settled. set (s1 := if _ : bool then _ else s). assert (moves s0 s1) as Hm1.
  { subst s1. case_match eqn:Hown; [|done]. apply andb_prop in Hown as [_ Hown%bool_decide_eq_true].
    by eapply moves_step; [apply (own_answered _ q id o)| |exact Hm]. }
  clearbody s1. cbn zeta. case_match; eauto with server.
Qed.

Lemma moves_runtime_disposed i l ok s :
  tasks s !! i = Some (DisposeRuntime l) → moves s (runtime_disposed l ok (s <| tasks := delete i (tasks s) |>)) ∨ lives s !! l = None.
Proof.
  intros Hi. pose proof (view_take _ _ _ Hi eq_refl) as Ht. unfold runtime_disposed. cbn [lives].
  destruct (lives s !! l) as [live|] eqn:Hl; [left|by right].
  eapply moves_take; [done|eapply own_disposed; [exact Ht|by apply view_live_lookup]|]. cbn zeta.
  set (s1 := s <| tasks := delete i (tasks s) |>) in *.
  assert (Hv : view (update_live l (λ live, live <| disposing := DisposeSettled ok |>) (release (live_runtime live) s1))
               = set_disposal l (DisposeSettled ok) (back (live_runtime live) (view s1))).
  { rewrite (view_disposing l (DisposeSettled ok)) by done. by rewrite view_release. }
  cbn [h_runtime h_id view_live]. rewrite <- Hv. unfold forget. cbn [held_sessions view].
  assert (lives s1 !! l = Some live) as -> by done. case_bool_decide; done.
Qed.

(** *** Closing *)

Lemma moves_summon s0 t s : isClosing s = true → is_closer t = true → moves s0 s → moves s0 (spawn t s).
Proof.
  intros Hc Ht Hm. eapply moves_step; [exact (own_summon (view s) t Hc Ht)| |exact Hm]. apply view_owe. by destruct t.
Qed.

Lemma closing_disconnect_all cs s : isClosing s = true → isClosing (disconnect_all cs s).1 = true.
Proof.
  intros Hc. change (shutting (view (disconnect_all cs s).1) = true).
  by apply (own_steps_shutting (view s)); [apply moves_disconnect_all|].
Qed.

Lemma moves_closeServerState s0 s : isClosing s = true → moves s0 s → moves s0 (closeServerState s).
Proof.
  intros Hc Hm. unfold closeServerState. cbn zeta. set (cs := (filter _ _).*1).
  assert (Hv : view (foldl (λ s c, update_conn c (λ conn, conn <| stage := closing |>) s) s cs) = view s) by (by apply view_foldl).
  apply moves_summon; [|done|by eapply moves_then]. by apply (eq_trans (f_equal shutting Hv)).
Qed.

Lemma moves_close_each s0 kvs s :
  NoDup kvs.*1 → (∀ l, l ∈ kvs.*2 → is_Some (lives s !! l)) → isClosing s = true →
  moves s0 (s <| liveSessions := list_to_map kvs |>) → moves s0 (foldl close_session (s <| liveSessions := ∅ |>) kvs.*2).
Proof.
  revert s. induction kvs as [|[id l] kvs IH]; intros s Hnd Hls Hc Hm; [done|].
  cbn [fmap list_fmap fst snd foldl] in *. apply NoDup_cons in Hnd as [Hid Hnd].
  destruct (Hls l) as [live Hl]; [left|]. unfold close_session at 2.
  assert (lives (s <| liveSessions := ∅ |>) !! l = Some live) as -> by done.
  set (s1 := s <| liveSessions := list_to_map ((id, l) :: kvs) |>) in *.
  assert (Hdel : delete id (liveSessions s1) = list_to_map kvs).
  { cbn. rewrite delete_insert_id; [done|]. by apply not_elem_of_list_to_map_1. }
  case_bool_decide as Hd.
  - apply (IH (spawn (CloseDispose l) (call_dispose (live_runtime live) (update_live l (λ live, live <| subscribed := false |>) s)))); [done|..].
    + intros l' Hl'. cbn. rewrite list_lookup_alter. case_decide; [subst; rewrite Hl; by eexists|]. apply Hls. by right.
    + done.
    + eapply moves_step; [eapply (own_clear _ id l (view_live live))|..|exact Hm]; [done|by cbn; rewrite lookup_insert_eq|by apply view_live_lookup|done|].
      subst s1. unfold view, disposed_once, owe, update_runtime, update_live. cbn -[list_to_map].
      rewrite filter_app, filter_cons_True by done.
      cbn -[list_to_map] in Hdel. rewrite Hdel, map_alter_same by done. by erewrite map_alter.
  - apply (IH s); [done| |done|].
    + intros l' Hl'. apply Hls. by right.
    + eapply moves_step; [eapply (own_clear_disposing _ id l (view_live live))|..|exact Hm]; [done|by cbn; rewrite lookup_insert_eq|by apply view_live_lookup|done|].
      subst s1. unfold view. cbn -[list_to_map] in Hdel |- *. by rewrite Hdel.
Qed.

Lemma moves_close_sessions s0 s : owned (view s) → isClosing s = true → moves s0 s → moves s0 (close_sessions s).
Proof.
  intros Ho Hc Hm. unfold close_sessions. apply moves_close_each; [apply NoDup_fst_map_to_list| |done|].
  - intros l ([id l'] & -> & Hin%elem_of_map_to_list)%list_elem_of_fmap. cbn.
    destruct (owned_sessions _ Ho _ _ Hin) as (r & d & Hl & _). cbn in Hl. rewrite list_lookup_fmap in Hl.
    destruct (lives s !! l'); [by eexists|done].
  - rewrite list_to_map_to_list. by destruct s.
Qed.

(** ** The refinement *)

Lemma moves_broadcasting s0 b s : moves s0 s → moves s0 (s <| broadcasting := b |>).
Proof. by apply moves_then. Qed.
Hint Resolve moves_broadcasting moves_closeServerState moves_close_sessions moves_opening_settled moves_performBroadcast : server.

Lemma duty_lives s l : duty_ok (view s) (DisposeRuntime l) ∨ duty_ok (view s) (CloseDispose l) → is_Some (lives s !! l).
Proof.
  intros [(id & r & Hl & _)|(_ & (id & r & Hl) & _)]; cbn in Hl; rewrite list_lookup_fmap in Hl; by destruct (lives s !! l).
Qed.

Lemma moves_dismiss i t s :
  owned (view s) → tasks s !! i = Some t → is_closer t = true →
  isClosing s = true ∧ moves s (s <| tasks := delete i (tasks s) |>).
Proof.
  intros Ho Hi Ht. assert (Hown : owning t = true) by (by destruct t). pose proof (view_take _ _ _ Hi Hown) as Htake. split.
  - pose proof (owned_duties _ Ho t (take_in _ _ _ Htake)) as Hok. destruct t; try discriminate Ht; by destruct Hok.
  - eapply moves_take; [done|by eapply own_dismiss|done].
Qed.

Lemma moves_duty i t a uuid s s' :
  owned (view s) → tasks s !! i = Some t → owning t = true → is_closer t = false →
  continue encodes t a uuid (s <| tasks := delete i (tasks s) |>) = Some s' → moves s s'.
Proof.
  intros Ho Hi Hown Hcl Hs. pose proof (view_take _ _ _ Hi Hown) as Ht. pose proof (owned_duties _ Ho t (take_in _ _ _ Ht)) as Hok.
  destruct t; try discriminate Hown; try discriminate Hcl; cbn in Hs; simplify_eq.
  - by apply moves_create_runtime.
  - by apply moves_create_live.
  - eapply moves_take; [done|by eapply own_refused|]. by rewrite view_settle_opening, view_release.
  - destruct (moves_runtime_disposed i l (succeeded a) s Hi) as [?|Hl]; [done|].
    destruct (duty_lives s l) as [? ?]; [by left|congruence].
  - destruct (duty_lives s l) as [live Hl]; [by right|]. rewrite Hl.
    eapply moves_take; [done|eapply own_cleared; [exact Ht|by apply view_live_lookup]|]. by rewrite view_release.
Qed.

Lemma moves_closer i t a uuid s s' :
  owned (view s) → tasks s !! i = Some t → is_closer t = true →
  continue encodes t a uuid (s <| tasks := delete i (tasks s) |>) = Some s' → moves s s'.
Proof.
  intros Ho Hi Ht Hs. destruct (moves_dismiss i t s Ho Hi Ht) as [Hc Hm].
  pose proof (own_steps_owned _ _ Hm Ho) as Ho1. set (s1 := s <| tasks := delete i (tasks s) |>) in *.
  assert (Hc1 : isClosing s1 = true) by done. clearbody s1.
  destruct t; try discriminate Ht; cbn [continue] in Hs.
  - simplify_eq. by apply moves_closeServerState.
  - pose proof (closing_disconnect_all cs s1 Hc1) as Hc2. destruct (disconnect_all cs s1) as [s2 ws] eqn:Hd. simplify_eq.
    apply moves_summon; eauto with server.
  - apply bind_Some in Hs as (ok & _ & [= <-]). by apply moves_summon.
  - case_match; simplify_eq. by apply moves_close_sessions.
Qed.

Lemma moves_other i t a uuid s s' :
  tasks s !! i = Some t → owning t = false →
  continue encodes t a uuid (s <| tasks := delete i (tasks s) |>) = Some s' → moves s s'.
Proof.
  intros Hi Hown Hs. pose proof (view_resume _ _ _ Hi Hown) as Hv. set (s1 := s <| tasks := delete i (tasks s) |>) in *.
  assert (Hm : moves s s1) by (by apply moves_same). clearbody s1. clear Hv Hi.
  destruct t; try discriminate Hown; cbn [continue] in Hs;
    try (apply bind_Some in Hs as (ok & ? & Hs)); repeat (case_match; try discriminate Hs); simplify_eq;
    unfold detach_response; eauto 6 with server.
Qed.

Lemma moves_resume i a uuid s s' : owned (view s) → resume encodes i a uuid s = Some s' → moves s s'.
Proof.
  intros Ho (t & Hi & Hs)%bind_Some. destruct (owning t) eqn:Hown; [|by eapply moves_other].
  destruct (is_closer t) eqn:Hcl; [by eapply moves_closer|by eapply moves_duty].
Qed.

Lemma moves_handle e s s' : handle encodes e s = Some s' → moves s s'.
Proof.
  assert (Hm : moves s s) by done. intros Hs. destruct e; cbn [handle] in Hs;
    try (apply bind_Some in Hs as (ok & ? & Hs)); repeat (case_match; try discriminate Hs); simplify_eq; eauto 6 with server.
  - unfold accept. by case_match.
  - apply moves_same. unfold view, update_runtime. cbn. by rewrite map_alter_same.
  - apply moves_summon; [done..|]. by apply (moves_step s s _ _ (own_shut (view s))).
Qed.

Lemma moves_reachable s : server_reachable encodes s → rtc own_step fresh (view s) ∧ owned (view s).
Proof.
  induction 1 as [|s s' _ [IH Ho] Hstep]; [split; [constructor|apply owned_fresh]|].
  assert (Hm : moves s s') by (destruct Hstep; [by eapply moves_resume|by eapply moves_handle]).
  split; [by etrans|by eapply own_steps_owned].
Qed.

Lemma view_runtime_lookup s r rt : runtimes s !! r = Some rt → leases (view s) !! r = Some (view_runtime rt).
Proof. intros Hr. cbn. by rewrite list_lookup_fmap, Hr. Qed.
End Server.

(** C27: a session has one runtime at a time: of the runtimes whose disposal is not over no
    two are of the same session, and while the service is asked for a session none of it
    is out; whatever happens, the server's closing included, [dispose()] is called at most
    once on a runtime. *)
Theorem one_runtime_per_session encodes s :
  server_reachable encodes s →
  (∀ r rt, runtimes s !! r = Some rt → (dispose_calls rt ≤ 1)%nat)
  ∧ (isClosing s = false →
     (∀ r1 r2 rt1 rt2, runtimes s !! r1 = Some rt1 → runtimes s !! r2 = Some rt2 →
        released rt1 = false → released rt2 = false → rt_session rt1 = rt_session rt2 → r1 = r2)
     ∧ (∀ q r rt, OpenRuntime q ∈ tasks s → runtimes s !! r = Some rt →
          openings s !! q = Some (Opening (rt_session rt)) → released rt = true)).
Proof.
  intros [_ Ho]%moves_reachable. split; [|intros Hc; split].
  - intros r rt Hr%view_runtime_lookup. by apply (owned_once _ Ho) in Hr.
  - intros r1 r2 rt1 rt2 H1%view_runtime_lookup H2%view_runtime_lookup.
    by apply (owned_exclusive (view s) r1 r2 _ _ Ho Hc H1 H2).
  - intros q r rt Ht Hr%view_runtime_lookup Hq.
    apply (owned_ask_free (view s) q (rt_session rt) r (view_runtime rt) Ho Hc); [|done..].
    apply list_elem_of_filter. done.
Qed.

(** *** A run *)

Definition demo_encodes (m : message) : bool := true.
Definition demo_id : jsstring := js "S".
Definition demo_snapshot : SessionSnapshot := MkSession demo_id false false (js "idle") 0 JsonNull.
Definition demo_attach (envelope : jsstring) : move := Happen (Message 0 (GotRequest envelope (CAttach demo_id)) []).
Definition demo_detach (envelope : jsstring) : move := Happen (Message 0 (GotRequest envelope (CDetach demo_id)) []).

(** A connection attaches to a session that the service opens. *)
Definition demo_attached : list move :=
  [Happen Accept; Happen (Message 0 (GotHello true) []); Resume 0 Done []; Resume 0 Done [];
   demo_attach (js "r1"); Resume 0 (GotRuntime (js "idle")) []; Resume 1 (GotSnapshot demo_snapshot) []; Resume 0 Done [];
   Resume 0 Done []; Resume 0 (GotSnapshot demo_snapshot) []; Resume 1 Done []; Resume 0 Done []].

(** It leaves, its runtime is disposed of, and it comes back. *)
Definition demo_back : list move :=
  demo_attached ++ [demo_detach (js "r2"); Resume 0 Done []; Resume 0 Done []; Resume 0 Done [];
  demo_attach (js "r3"); Resume 1 (GotRuntime (js "idle")) []].

Definition after_moves (ms : list move) : server := default new_server (run demo_encodes ms new_server).

Lemma after_reachable ms : server_reachable demo_encodes (after_moves ms).
Proof.
  unfold after_moves. destruct (run demo_encodes ms new_server) as [s|] eqn:Hrun; [|constructor].
  cbn. eapply run_reachable; [constructor|exact Hrun].
Qed.

Lemma one_runtime_per_session_witness :
  released <$> runtimes (after_moves demo_back) = [true; false]
  ∧ ∀ r rt, runtimes (after_moves demo_back) !! r = Some rt → (dispose_calls rt ≤ 1)%nat.
Proof.
  split; [vm_compute; reflexivity|].
  exact (proj1 (one_runtime_per_session demo_encodes (after_moves demo_back) (after_reachable demo_back))).
Defined.

(** A client that is attached asks to attach and to detach at once.  [acquire] finds the
    session before the detachment disposes of it and [attach] does not look again: the
    client is told that it is attached, to a session that is gone. *)
Definition demo_race : list move :=
  demo_attached ++ [demo_attach (js "r2"); demo_detach (js "r3"); Resume 0 Done []; Resume 3 (GotSnapshot demo_snapshot) [];
  Resume 0 Done []; Resume 0 Done []; Resume 0 Done []; Resume 0 Done []; Resume 0 Done []; Resume 0 Done []].

Example attached_to_nothing :
  let s := after_moves demo_race in
  tasks s = [] ∧ (sessionIds <$> conns s) = [[demo_id]] ∧ liveSessions s = ∅
  ∧ (0%nat, SentResponse (js "r2") (Ok (RSession Attach (demo_snapshot <| sess_attached := true |> <| sess_locked := true |>)))) ∈ sent s.
Proof. vm_compute. split; [reflexivity|]. split; [reflexivity|]. split; [reflexivity|]. by repeat constructor. Qed.
