(* ===== verification/ServerRequests.v ===== *)
(** * The requests of a server

    No request is lost or answered twice, and the operations a session counts are those
    that run on it. *)

From S2P Require Import Prelude JsString SessionTypes Client Server ServerOwnership ServerTheorems.

(** The request a task has to answer, and the session it runs an operation on. *)
Definition task_request (t : task) : option request :=
  match t with
  | Listing rq | AwaitDisposing rq _ _ | AwaitOpening rq _ _ _ | Attaching rq _ | AttachRefused rq _ | AttachSnapshot rq _
  | DetachSnapshot rq _ _ | DetachDispose rq _ _ | Operating rq _ | OperationSnapshot rq _ => Some rq
  | _ => None
  end.
Definition task_number (t : task) : option nat := rq_number <$> task_request t.

Definition operating (t : task) : option nat :=
  match t with Operating _ l | OperationSnapshot _ l => Some l | _ => None end.

(** The sessions and connections a task names are there. *)
Definition fits (nl nc : nat) (t : task) : Prop :=
  match t with
  | Attaching rq l | AttachSnapshot rq l | DetachSnapshot rq _ l | Operating rq l | OperationSnapshot rq l =>
      (rq_connection rq < nc)%nat ∧ (l < nl)%nat
  | _ => from_option (λ rq, (rq_connection rq < nc)%nat) True (task_request t)
  end.
Definition opening_fits (nl : nat) (o : opening) : Prop := match o with Opened l => (l < nl)%nat | _ => True end.

Definition running (l : nat) (ops : list nat) : Z := Z.of_nat (length (filter (.= l) ops)).

(** [rqs] are the requests and [ops] the operations that are in no task at the moment. *)
Record fine (nl nc : nat) (rqs ops : list nat) (s : server) : Prop := {
  fine_lives : length (lives s) = nl;
  fine_conns : length (conns s) = nc;
  fine_requests : answered s ++ omap task_number (tasks s) ++ rqs ≡ₚ seq 0 (requests s);
  fine_tasks : Forall (fits nl nc) (tasks s);
  fine_sessions : ∀ id l, liveSessions s !! id = Some l → (l < nl)%nat;
  fine_openings : Forall (opening_fits nl) (openings s);
  fine_operations : ∀ l live, lives s !! l = Some live → operationCount live = running l (omap operating (tasks s) ++ ops);
  fine_disposed : ∀ l live, lives s !! l = Some live → disposing live ≠ NotDisposing → operationCount live = 0 }.

Lemma running_perm l ops ops' : ops ≡ₚ ops' → running l ops = running l ops'.
Proof. intros Hp. unfold running. by rewrite Hp. Qed.
Lemma running_nonneg l ops : 0 ≤ running l ops.
Proof. unfold running. lia. Qed.
Lemma running_cons l l' ops : running l (l' :: ops) = (if decide (l' = l) then 1 else 0) + running l ops.
Proof. unfold running. rewrite filter_cons. case_decide; cbn; lia. Qed.

Lemma list_elem_of_filter_omap {A B} (P : B → Prop) `{∀ x, Decision (P x)} (f : A → option B) y (l : list A) :
  y ∈ filter P (omap f l) → P y ∧ ∃ x, x ∈ l ∧ f x = Some y.
Proof. intros [HP Hy]%list_elem_of_filter. split; [done|]. by apply list_elem_of_omap. Qed.

Section Server.
Context (encodes : message → bool) (nl nc : nat).

Lemma fine_spawn rqs ops s t :
  fine nl nc rqs ops s → task_request t = None → fine nl nc rqs ops (spawn t s).
Proof.
  intros [] Ht. assert (Hop : operating t = None) by (by destruct t).
  constructor; cbn; auto.
  - rewrite omap_snoc. unfold task_number at 2. by rewrite Ht, app_nil_r.
  - apply Forall_app. split; [done|]. constructor; [|done]. destruct t; cbn in *; try discriminate Ht; done.
  - by rewrite omap_snoc, Hop, app_nil_r.
Qed.

Lemma fine_spawn_request ops s t rq :
  fine nl nc [rq_number rq] (option_list (operating t) ++ ops) s → task_request t = Some rq → fits nl nc t →
  fine nl nc [] ops (spawn t s).
Proof.
  intros [] Ht Hfit. constructor; cbn; auto.
  - rewrite omap_snoc. unfold task_number at 2. rewrite Ht. cbn. rewrite <- fine_requests0. solve_Permutation.
  - apply Forall_app. split; [done|]. by constructor.
  - intros l live Hl. rewrite (fine_operations0 l live Hl). apply running_perm. rewrite omap_snoc. solve_Permutation.
Qed.

(** What a session's fields other than its operations are does not matter. *)
Lemma fine_update_live rqs ops l f s :
  fine nl nc rqs ops s → (∀ x, operationCount (f x) = operationCount x) →
  (∀ x, disposing (f x) ≠ NotDisposing → disposing x ≠ NotDisposing ∨ (lives s !! l = Some x → operationCount x = 0)) →
  fine nl nc rqs ops (update_live l f s).
Proof.
  intros [] Hop Hd. constructor; cbn; auto.
  - by rewrite length_alter.
  - intros l' live (y & Hy & [[-> ->]|[_ ->]])%list_lookup_alter_Some; rewrite ?Hop; auto.
  - intros l' live (y & Hy & [[-> ->]|[_ ->]])%list_lookup_alter_Some; rewrite ?Hop; [|eauto].
    intros [?|?]%Hd; eauto.
Qed.

Lemma fine_update_conn rqs ops c f s : fine nl nc rqs ops s → fine nl nc rqs ops (update_conn c f s).
Proof. intros []. constructor; cbn; auto. by rewrite length_alter. Qed.
Lemma fine_update_runtime rqs ops r f s : fine nl nc rqs ops s → fine nl nc rqs ops (update_runtime r f s).
Proof. by intros []. Qed.
Lemma fine_broadcast rqs ops s : fine nl nc rqs ops s → fine nl nc rqs ops (broadcast s).
Proof. by intros []. Qed.
Lemma fine_sent rqs ops m s : fine nl nc rqs ops s → fine nl nc rqs ops (s <| sent := m |>).
Proof. by intros []. Qed.

Hint Resolve fine_spawn fine_update_conn fine_update_runtime fine_broadcast fine_sent : fine.

Lemma fine_maybeDispose rqs ops l s : fine nl nc rqs ops s → fine nl nc rqs ops (maybeDispose l s).
Proof.
  intros Hs. unfold maybeDispose. destruct (lives s !! l) as [live|] eqn:Hl; [|done].
  destruct (may_dispose live s) eqn:Hd; [|done]. apply may_dispose_true in Hd as (_ & _ & _ & Hop & _). cbn zeta.
  apply fine_spawn; [|done]. apply fine_spawn; [|done]. apply fine_update_runtime, fine_update_live; [done|done|].
  intros x _. right. intros Hx. simplify_eq. pose proof (fine_operations _ _ _ _ _ Hs _ _ Hl) as Hrun.
  pose proof (running_nonneg l (omap operating (tasks s) ++ ops)). lia.
Qed.

Lemma fine_foldl {A} (f : server → A → server) xs rqs ops s :
  (∀ s x, fine nl nc rqs ops s → fine nl nc rqs ops (f s x)) → fine nl nc rqs ops s → fine nl nc rqs ops (foldl f s xs).
Proof. intros Hf. revert s. induction xs as [|x xs IH]; intros s Hs; [done|]. cbn. by apply IH, Hf. Qed.

(** A session that leaves the map. *)
Lemma fine_sessions_sub rqs ops m s :
  fine nl nc rqs ops s → (∀ id l, m !! id = Some l → liveSessions s !! id = Some l) →
  fine nl nc rqs ops (s <| liveSessions := m |>).
Proof. intros [] Hm. constructor; cbn; eauto. Qed.

Lemma fine_run_after rqs ops k s : fine nl nc rqs ops s → fine nl nc rqs ops (run_after k s).
Proof. intros Hs. destruct k; cbn; unfold settle_handshake; auto with fine. Qed.
Hint Resolve fine_maybeDispose fine_run_after : fine.

Lemma fine_sendMessage rqs ops c m k s : fine nl nc rqs ops s → fine nl nc rqs ops (sendMessage encodes c m k s).
Proof. intros Hs. unfold sendMessage. repeat case_match; auto with fine. Qed.

Lemma fine_failProtocol rqs ops c k s : fine nl nc rqs ops s → fine nl nc rqs ops (failProtocol encodes c k s).
Proof. intros Hs. unfold failProtocol. repeat case_match; auto with fine. Qed.

Lemma fine_respond ops rq o s : fine nl nc [rq_number rq] ops s → fine nl nc [] ops (respond encodes rq o s).
Proof.
  intros []. unfold respond. apply fine_sendMessage. constructor; cbn; auto.
  rewrite <- fine_requests0. solve_Permutation.
Qed.

Lemma fine_sessions_disconnect rqs ops c ids s : fine nl nc rqs ops s → fine nl nc rqs ops (sessions_disconnect c ids s).1.
Proof.
  intros Hs. unfold sessions_disconnect. cbn. apply fine_foldl; [auto with fine|]. apply fine_foldl; [|auto with fine].
  intros s' l Hs'. apply fine_update_live; [done..|]. auto.
Qed.

Lemma fine_disconnect rqs ops c s : fine nl nc rqs ops s → fine nl nc rqs ops (disconnect c s).1.
Proof.
  intros Hs. unfold disconnect. destruct (conns s !! c) as [conn|]; [|done]. destruct (disconnected conn); [done|].
  destruct (sessions_disconnect _ _ _) as [s' ws] eqn:Hd.
  assert (fine nl nc rqs ops s').
  { change s' with (s', ws).1. rewrite <- Hd. by apply fine_sessions_disconnect, fine_update_conn. }
  case_match; cbn; auto with fine.
Qed.

Lemma fine_disconnect_all rqs ops cs s : fine nl nc rqs ops s → fine nl nc rqs ops (disconnect_all cs s).1.
Proof.
  revert s. induction cs as [|c cs IH]; intros s Hs; [done|]. cbn.
  pose proof (fine_disconnect rqs ops c s Hs) as Hd. destruct (disconnect c s) as [s1 ws]. cbn in Hd.
  pose proof (IH s1 Hd) as Ha. by destruct (disconnect_all cs s1).
Qed.

Lemma fine_send_all rqs ops l m s : fine nl nc rqs ops s → fine nl nc rqs ops (send_all encodes l m s).
Proof. intros Hs. unfold send_all. case_match; [|done]. apply fine_foldl; [|done]. intros. by apply fine_sendMessage. Qed.

Lemma fine_broadcastSnapshot rqs ops l a s : fine nl nc rqs ops s → fine nl nc rqs ops (broadcastSnapshot encodes l a s).2.
Proof. intros Hs. unfold broadcastSnapshot. repeat case_match; cbn; auto using fine_send_all. Qed.

(** The functions that give a result too. *)
Lemma fine_broadcastSnapshot_of rqs ops l a r s s' :
  broadcastSnapshot encodes l a s = (r, s') → fine nl nc rqs ops s → fine nl nc rqs ops s'.
Proof. intros Hb. change s' with (r, s').2. rewrite <- Hb. apply fine_broadcastSnapshot. Qed.
Lemma fine_disconnect_of rqs ops c s s' ws : disconnect c s = (s', ws) → fine nl nc rqs ops s → fine nl nc rqs ops s'.
Proof. intros Hd. change s' with (s', ws).1. rewrite <- Hd. apply fine_disconnect. Qed.
Lemma fine_disconnect_all_of rqs ops cs s s' ws : disconnect_all cs s = (s', ws) → fine nl nc rqs ops s → fine nl nc rqs ops s'.
Proof. intros Hd. change s' with (s', ws).1. rewrite <- Hd. apply fine_disconnect_all. Qed.
Hint Resolve fine_sendMessage fine_failProtocol fine_respond fine_disconnect fine_send_all fine_broadcastSnapshot
  fine_broadcastSnapshot_of fine_disconnect_of fine_disconnect_all_of : fine.

Lemma fine_transport_closed rqs ops c k s : fine nl nc rqs ops s → fine nl nc rqs ops (transport_closed c k s).
Proof. intros Hs. unfold transport_closed. repeat case_match; eauto with fine. Qed.

(** *** Requests *)

Lemma fine_live_lookup rqs ops id l s :
  fine nl nc rqs ops s → liveSessions s !! id = Some l → (l < nl)%nat ∧ ∃ live, lives s !! l = Some live.
Proof.
  intros Hs Hl. pose proof (fine_sessions _ _ _ _ _ Hs _ _ Hl) as Hlt. split; [done|].
  apply lookup_lt_is_Some. by rewrite (fine_lives _ _ _ _ _ Hs).
Qed.

Lemma fine_acquire ops rq id s :
  fine nl nc [rq_number rq] ops s → (rq_connection rq < nc)%nat → fine nl nc [] ops (acquire encodes rq id s).
Proof.
  intros Hs Hc. unfold acquire. destruct (liveSessions s !! id) as [l|] eqn:Hl.
  - destruct (fine_live_lookup _ _ _ _ _ Hs Hl) as (Hlt & live & ->).
    repeat case_match; [by apply fine_respond|by eapply (fine_spawn_request _ _ _ rq)..].
  - destruct (openingSessions s !! id) as [q|]; [by eapply (fine_spawn_request _ _ _ rq)|]. cbn zeta.
    eapply (fine_spawn_request _ _ _ rq); [|done..]. apply fine_spawn; [|done].
    destruct Hs. constructor; cbn; auto. apply Forall_app. by repeat constructor.
Qed.

Lemma fine_opening_settled ops rq id q owner o s :
  fine nl nc [rq_number rq] ops s → openings s !! q = Some o → is_opening o = false → (rq_connection rq < nc)%nat →
  fine nl nc [] ops (opening_settled encodes rq id q owner o s).
Proof.
  intros Hs Hq Ho Hc. unfold opening_settled. set (s1 := if _ : bool then _ else s).
  assert (fine nl nc [rq_number rq] ops s1) as Hs1 by (subst s1; case_match; [destruct Hs; constructor; auto|done]).
  clearbody s1. pose proof (Forall_lookup_1 _ _ _ _ (fine_openings _ _ _ _ _ Hs) Hq) as Hfit.
  destruct o; cbn zeta; [done| |by apply fine_respond]. by eapply (fine_spawn_request _ _ _ rq).
Qed.

Lemma fine_attach ops rq l s :
  fine nl nc [rq_number rq] ops s → (rq_connection rq < nc)%nat → (l < nl)%nat → fine nl nc [] ops (attach_connection rq l s).
Proof.
  intros Hs Hc Hl. unfold attach_connection.
  destruct (lookup_lt_is_Some_2 (conns s) (rq_connection rq)) as [conn ->]; [by rewrite (fine_conns _ _ _ _ _ Hs)|].
  destruct (lookup_lt_is_Some_2 (lives s) l) as [live ->]; [by rewrite (fine_lives _ _ _ _ _ Hs)|].
  case_match; cbn zeta; eapply (fine_spawn_request _ _ _ rq); cbn; auto with fine.
  apply fine_update_live; [|done|]; auto with fine.
Qed.

Lemma fine_detach_dispose ops rq id l s :
  fine nl nc [rq_number rq] ops s → (rq_connection rq < nc)%nat → fine nl nc [] ops (detach_dispose rq id l s).
Proof. intros Hs Hc. unfold detach_dispose. cbn zeta. eapply (fine_spawn_request _ _ _ rq); cbn; auto with fine. Qed.

Lemma fine_detach_response ops rq id s : fine nl nc [rq_number rq] ops s → fine nl nc [] ops (detach_response encodes rq id s).
Proof. intros Hs. unfold detach_response. auto with fine. Qed.
Hint Resolve fine_detach_dispose fine_detach_response : fine.

Lemma fine_detach ops rq id s :
  fine nl nc [rq_number rq] ops s → (rq_connection rq < nc)%nat → fine nl nc [] ops (detach encodes rq id s).
Proof.
  intros Hs Hc. unfold detach. case_match; [|by apply fine_respond]. cbn zeta.
  set (s1 := update_conn _ _ s). assert (Hs1 : fine nl nc [rq_number rq] ops s1) by (by apply fine_update_conn). clearbody s1.
  destruct (liveSessions s1 !! id) as [l|] eqn:Hl; [|by apply fine_detach_response].
  destruct (fine_live_lookup _ _ _ _ _ Hs1 Hl) as (Hlt & live & Hlive).
  set (s2 := update_live l _ s1). assert (Hs2 : fine nl nc [rq_number rq] ops s2) by (apply fine_update_live; auto).
  assert (is_Some (lives s2 !! l)) as [live2 ->] by (cbn; by rewrite list_lookup_alter_eq, Hlive).
  case_match; [|by apply fine_detach_dispose]. by eapply (fine_spawn_request _ _ _ rq).
Qed.

Lemma fine_run_operation rq id s :
  fine nl nc [rq_number rq] [] s → (rq_connection rq < nc)%nat → fine nl nc [] [] (run_operation encodes rq id s).
Proof.
  intros Hs Hc. unfold run_operation. case_match; [|by apply fine_respond].
  destruct (liveSessions s !! id) as [l|] eqn:Hl; [|by apply fine_respond].
  destruct (fine_live_lookup _ _ _ _ _ Hs Hl) as (Hlt & live & Hlive). rewrite Hlive.
  case_match eqn:Hcond; [by apply fine_respond|]. apply orb_false_iff in Hcond as [_ Hd%negb_false_iff%bool_decide_eq_true].
  eapply (fine_spawn_request _ _ _ rq); [|done|done]. destruct Hs. constructor; cbn; auto.
  - by rewrite length_alter.
  - intros l' live' (y & Hy & Hcase)%list_lookup_alter_Some. rewrite (running_perm l' _ (l :: omap operating (tasks s) ++ []))
      by solve_Permutation. rewrite running_cons, <- (fine_operations0 _ _ Hy). destruct Hcase as [[-> ->]|[Hne ->]]; cbn.
    + rewrite decide_True by done. lia.
    + by rewrite decide_False.
  - intros l' live' (y & Hy & [[-> ->]|[Hne ->]])%list_lookup_alter_Some Hdd; [|eauto]. cbn in Hdd. congruence.
Qed.

Lemma fine_end_operation rqs ops l s : fine nl nc rqs (l :: ops) s → fine nl nc rqs ops (end_operation l s).
Proof.
  intros Hs. unfold end_operation. apply fine_maybeDispose. destruct Hs. constructor; cbn; auto.
  - by rewrite length_alter.
  - intros l' live' (y & Hy & Hcase)%list_lookup_alter_Some. pose proof (fine_operations0 _ _ Hy) as Hrun.
    rewrite (running_perm l' _ (l :: omap operating (tasks s) ++ ops)), running_cons in Hrun by solve_Permutation.
    destruct Hcase as [[-> ->]|[Hne ->]]; cbn.
    + rewrite decide_True in Hrun by done. lia.
    + by rewrite decide_False in Hrun.
  - intros l' live' (y & Hy & [[-> ->]|[Hne ->]])%list_lookup_alter_Some Hdd; [|eauto]. cbn in Hdd |- *.
    pose proof (fine_operations0 _ _ Hy) as Hrun. pose proof (fine_disposed0 _ _ Hy Hdd) as Hzero.
    rewrite (running_perm l' _ (l' :: omap operating (tasks s) ++ ops)), running_cons, decide_True in Hrun by (solve_Permutation || done).
    pose proof (running_nonneg l' (omap operating (tasks s) ++ ops)). lia.
Qed.

Lemma fine_executeCommand rq uuid s :
  fine nl nc [rq_number rq] [] s → (rq_connection rq < nc)%nat → fine nl nc [] [] (executeCommand encodes rq uuid s).
Proof.
  intros Hs Hc. unfold executeCommand.
  destruct (rq_command rq); [by eapply (fine_spawn_request _ _ _ rq)|by apply fine_acquire|by apply fine_acquire|by apply fine_detach
    |by apply fine_run_operation..].
Qed.

Lemma fine_handleRequest c e cmd uuid s : fine nl nc [] [] s → (c < nc)%nat → fine nl nc [] [] (handleRequest encodes c e cmd uuid s).
Proof.
  intros Hs Hc. apply fine_executeCommand; [|done]. destruct Hs. constructor; cbn -[seq]; auto.
  rewrite seq_S. cbn. rewrite <- fine_requests0. solve_Permutation.
Qed.

Hint Resolve fine_transport_closed fine_handleRequest : fine.

(** *** Events *)

Lemma fine_terminate rqs ops l s : fine nl nc rqs ops s → fine nl nc rqs ops (terminate l s).
Proof.
  intros Hs. unfold terminate. repeat case_match; [done| |done]. apply fine_spawn; [|done]. apply fine_update_live; auto.
Qed.
Hint Resolve fine_terminate : fine.

Lemma fine_handleRuntimeEvent rqs ops l e s : fine nl nc rqs ops s → fine nl nc rqs ops (handleRuntimeEvent encodes l e s).
Proof. intros Hs. unfold handleRuntimeEvent. repeat case_match; auto with fine. Qed.

Lemma fine_send_hello rqs ops c revision s : fine nl nc rqs ops s → fine nl nc rqs ops (send_hello encodes c revision s).
Proof. intros Hs. unfold send_hello, settle_handshake. repeat case_match; auto with fine. Qed.

Lemma fine_hello_delivered rqs ops c revision s : fine nl nc rqs ops s → fine nl nc rqs ops (hello_delivered c revision s).
Proof. intros Hs. unfold hello_delivered, settle_handshake. repeat case_match; cbn zeta; auto with fine. Qed.

Lemma fine_receive c m uuid s : fine nl nc [] [] s → fine nl nc [] [] (receive encodes c m uuid s).
Proof.
  intros Hs. unfold receive, dispatchMessage, settle_handshake. destruct (conns s !! c) as [conn|] eqn:Hc; [|done].
  assert (c < nc)%nat by (rewrite <- (fine_conns _ _ _ _ _ Hs); by apply lookup_lt_Some in Hc).
  repeat case_match; cbn zeta; auto with fine.
Qed.

Lemma fine_performBroadcast rqs ops s : fine nl nc rqs ops s → fine nl nc rqs ops (performBroadcast s).
Proof.
  intros Hs. assert (Hs' : fine nl nc rqs ops (s <| broadcasts := pred (broadcasts s) |>)) by (by destruct Hs).
  unfold performBroadcast. repeat case_match; [done..|]. apply fine_spawn; [|done]. by destruct Hs'.
Qed.

(** *** Runtimes *)

Lemma fine_settle_opening rqs ops q o s : fine nl nc rqs ops s → opening_fits nl o → fine nl nc rqs ops (settle_opening q o s).
Proof. intros [] Ho. constructor; cbn; auto. by apply Forall_insert. Qed.

Lemma fine_create_runtime rqs ops q phase s : fine nl nc rqs ops s → fine nl nc rqs ops (create_runtime q phase s).
Proof.
  intros Hs. unfold create_runtime. destruct phase; [|by apply fine_settle_opening]. cbn zeta.
  assert (Hs' : ∀ rs, fine nl nc rqs ops (s <| runtimes := rs |>)) by (intros; by destruct Hs).
  unfold call_dispose. case_match; auto with fine.
Qed.

Lemma fine_create_failed rqs ops q r e s : fine nl nc rqs ops s → fine nl nc rqs ops (create_failed q r e s).
Proof. intros Hs. unfold create_failed, call_dispose. auto with fine. Qed.

Lemma fine_runtime_disposed rqs ops l ok s : 
  fine nl nc rqs ops s → (∀ live, lives s !! l = Some live → disposing live ≠ NotDisposing) → fine nl nc rqs ops (runtime_disposed l ok s).
Proof.
  intros Hs Hd. unfold runtime_disposed. destruct (lives s !! l) as [live|] eqn:Hl; [|done]. cbn zeta.
  set (s1 := update_live l _ _). assert (fine nl nc rqs ops s1) as Hs1.
  { subst s1. apply fine_update_live; [by apply fine_update_runtime|done|]. intros x _. right. cbn. intros Hx. simplify_eq.
    apply (fine_disposed _ _ _ _ _ Hs _ _ Hl). by apply Hd. }
  clearbody s1. case_match; [|done]. apply fine_sessions_sub; [done|]. by intros id l' [_ ?]%lookup_delete_Some.
Qed.

Lemma fine_close_sessions rqs ops s : fine nl nc rqs ops s → fine nl nc rqs ops (close_sessions s).
Proof.
  intros Hs. unfold close_sessions. apply fine_foldl.
  - intros s' l Hs'. unfold close_session, call_dispose. repeat case_match; [|done..].
    apply fine_spawn; [|done]. apply fine_update_runtime, fine_update_live; auto.
  - apply fine_sessions_sub; [done|]. intros id l. by rewrite lookup_empty.
Qed.

Lemma fine_closeServerState rqs ops s : fine nl nc rqs ops s → fine nl nc rqs ops (closeServerState s).
Proof. intros Hs. unfold closeServerState. apply fine_spawn; [|done]. apply fine_foldl; [|done]. auto with fine. Qed.

(** ** Every step *)

Lemma fine_take i t s :
  fine nl nc [] [] s → tasks s !! i = Some t →
  fits nl nc t ∧ fine nl nc (option_list (task_number t)) (option_list (operating t)) (s <| tasks := delete i (tasks s) |>).
Proof.
  intros [] Hi. pose proof (delete_Permutation _ _ _ Hi) as Hp. split; [by eapply Forall_lookup_1|]. constructor; cbn; auto.
  - rewrite <- fine_requests0. rewrite Hp at 2. cbn. destruct (task_number t); cbn; solve_Permutation.
  - rewrite Hp in fine_tasks0. by apply Forall_cons in fine_tasks0 as [_ ?].
  - intros l live Hl. rewrite (fine_operations0 l live Hl). apply running_perm. rewrite Hp at 1. cbn.
    destruct (operating t); cbn; solve_Permutation.
Qed.

Hint Resolve fine_acquire fine_opening_settled fine_attach fine_create_runtime fine_create_failed fine_settle_opening
  fine_close_sessions fine_closeServerState fine_send_hello fine_hello_delivered fine_handleRuntimeEvent fine_receive
  fine_performBroadcast fine_end_operation fine_foldl : fine.

Lemma fine_request t a uuid rq s s' :
  task_request t = Some rq → fits nl nc t → fine nl nc [rq_number rq] (option_list (operating t)) s →
  continue encodes t a uuid s = Some s' → fine nl nc [] [] s'.
Proof.
  intros Ht Hfit Hs Hc. destruct t; try discriminate Ht; injection Ht as ->; cbn [continue] in Hc;
    try (apply bind_Some in Hc as (ok & ? & Hc)); repeat (case_match; try discriminate Hc); simplify_eq; cbn in Hfit, Hs;
    try match type of Hfit with _ ∧ _ => destruct Hfit end; eauto 6 with fine.
  by eapply (fine_spawn_request _ _ _ rq).
Qed.

Lemma fine_quiet t a uuid s s' :
  task_request t = None → (∀ q r, t ≠ OpenSnapshot q r) → (∀ l, t ≠ DisposeRuntime l) → fine nl nc [] [] s →
  continue encodes t a uuid s = Some s' → fine nl nc [] [] s'.
Proof.
  intros Ht Ho Hd Hs Hc. destruct t; try discriminate Ht; cbn [continue] in Hc;
    try (apply bind_Some in Hc as (ok & ? & Hc)); repeat (case_match; try discriminate Hc); simplify_eq;
    eauto 6 with fine; try (by destruct Hs); try (by destruct (Ho q r)); try (by destruct (Hd l)).
  - apply fine_settle_opening; [|done]. by apply fine_update_runtime.
  - apply fine_handleRequest; [done|]. rewrite <- (fine_conns _ _ _ _ _ Hs). by eapply lookup_lt_Some.
Qed.

Lemma fine_continue t a uuid s s' :
  (∀ q r, t ≠ OpenSnapshot q r) → (∀ l, t = DisposeRuntime l → ∀ live, lives s !! l = Some live → disposing live ≠ NotDisposing) →
  fits nl nc t → fine nl nc (option_list (task_number t)) (option_list (operating t)) s →
  continue encodes t a uuid s = Some s' → fine nl nc [] [] s'.
Proof.
  intros Ho Hd Hfit Hs Hc. destruct (task_request t) as [rq|] eqn:Ht.
  - eapply (fine_request t a uuid rq s s'); [done..| |done]. unfold task_number in Hs. by rewrite Ht in Hs.
  - assert (Hs0 : fine nl nc [] [] s) by (by destruct t). assert ((∃ l, t = DisposeRuntime l) ∨ ∀ l, t ≠ DisposeRuntime l) as [[l ->]|Hn] by (destruct t; eauto).
    + cbn in Hc. simplify_eq. apply fine_runtime_disposed; [done|]. by apply Hd.
    + eapply fine_quiet; eauto.
Qed.

(** One more live session. *)
Lemma fine_create_live q r a s : fine nl nc [] [] s → ∃ nl', fine nl' nc [] [] (create_live q r a s).
Proof.
  intros Hs. unfold create_live. destruct a as [sn|]; [|by exists nl; apply fine_create_failed].
  case_bool_decide; [|by exists nl; apply fine_create_failed]. exists (S nl). cbn zeta.
  destruct Hs. constructor; cbn; auto.
  - rewrite length_app. cbn. lia.
  - eapply Forall_impl; [done|]. intros t. destruct t; cbn; lia.
  - intros id l [[_ <-]|[_ Hl]]%lookup_insert_Some; [lia|]. apply fine_sessions0 in Hl. lia.
  - apply Forall_insert; [|cbn; lia]. eapply Forall_impl; [done|]. intros []; cbn; lia.
  - intros l live [Hl|[Hlen Hl]]%lookup_app_Some; [auto|]. apply list_lookup_singleton_Some in Hl as [Hl <-]. cbn.
    symmetry. unfold running. rewrite app_nil_r. replace l with nl by lia.
    destruct (filter (.= nl) (omap operating (tasks s))) as [|l' ls] eqn:Hf; [done|].
    assert (l' ∈ filter (.= nl) (omap operating (tasks s))) as (-> & t & Ht & Hop)%list_elem_of_filter_omap by (rewrite Hf; left).
    rewrite Forall_forall in fine_tasks0. specialize (fine_tasks0 _ Ht). destruct t; cbn in *; simplify_eq; lia.
  - intros l live [Hl|[Hlen Hl]]%lookup_app_Some; [eauto|]. by apply list_lookup_singleton_Some in Hl as [Hl <-].
Qed.

Lemma fine_handle e s s' : fine nl nc [] [] s → handle encodes e s = Some s' → ∃ nc', fine nl nc' [] [] s'.
Proof.
  intros Hs Hc. assert (e = Accept ∨ e ≠ Accept) as [->|Hne] by (destruct e; auto).
  - injection Hc as <-. unfold accept. case_match; [by exists nc|]. exists (S nc). destruct Hs. constructor; cbn; auto.
    + rewrite length_app. cbn. lia.
    + eapply Forall_impl; [done|]. intros t. destruct t; cbn; lia.
  - exists nc. destruct e; try done; cbn [handle] in Hc;
    try (apply bind_Some in Hc as (ok & ? & Hc)); repeat (case_match; try discriminate Hc); simplify_eq; eauto 6 with fine.
    apply fine_spawn; [|done]. by destruct Hs.
Qed.
End Server.

Lemma fine_reachable encodes s : server_reachable encodes s → ∃ nl nc, fine nl nc [] [] s.
Proof.
  induction 1 as [|s s' Hr (nl & nc & Hs) Hstep].
  { exists 0%nat, 0%nat. constructor; cbn; try done; by intros; simplify_map_eq. }
  destruct Hstep as [i a uuid s s' (t & Hi & Hc)%bind_Some|e s s' He]; [|exists nl; by eapply fine_handle].
  destruct (fine_take _ _ _ _ _ Hs Hi) as [Hfit Htake].
  assert ((∃ q r, t = OpenSnapshot q r) ∨ ∀ q r, t ≠ OpenSnapshot q r) as [(q & r & ->)|Hn] by (destruct t; eauto).
  - cbn in Hc. simplify_eq. destruct (fine_create_live nl nc q r (as_snapshot a) _ Htake) as [nl' ?]. by exists nl', nc.
  - exists nl, nc. eapply fine_continue; [| |exact Hfit|exact Htake|exact Hc]; [eauto|].
    intros l -> live Hl. destruct (moves_reachable _ _ Hr) as [_ Ho].
    destruct (owned_duties _ Ho (DisposeRuntime l)) as (id & r & Hx & _).
    { apply list_elem_of_filter. split; [done|]. by eapply list_elem_of_lookup_2. }
    apply (view_live_lookup s) in Hl. rewrite Hl in Hx. injection Hx as _ _ Hdis. by rewrite Hdis.
Qed.

(** ** What it means *)

(** C15: every request is in one place: it was answered, or one task is about to answer it;
    none is lost, and none is answered twice. *)
Theorem requests_answered_once encodes s :
  server_reachable encodes s →
  answered s ++ omap task_number (tasks s) ≡ₚ seq 0 (requests s)
  ∧ ∀ l live, lives s !! l = Some live →
      operationCount live = Z.of_nat (length (filter (.= l) (omap operating (tasks s))))
      ∧ (disposing live ≠ NotDisposing → l ∉ omap operating (tasks s)).
Proof.
  intros (nl & nc & Hs)%fine_reachable. pose proof (fine_requests _ _ _ _ _ Hs) as Hr. rewrite app_nil_r in Hr.
  split; [done|]. intros l live Hl. pose proof (fine_operations _ _ _ _ _ Hs l live Hl) as Hop. rewrite app_nil_r in Hop.
  split; [done|]. intros Hd Hin. rewrite (fine_disposed _ _ _ _ _ Hs l live Hl Hd) in Hop. unfold running in Hop.
  assert (l ∈ filter (.= l) (omap operating (tasks s))) as Hf by (by apply list_elem_of_filter).
  destruct (filter (.= l) (omap operating (tasks s))); [by apply not_elem_of_nil in Hf|done].
Qed.

(** A run that leaves one request answered, one refused and one operation under way. *)
Definition demo_operating : list move :=
  demo_attached ++ [Happen (Message 0 (GotRequest (js "r2") (CPrompt demo_id (js "hi"))) []);
                    Happen (Message 0 (GotRequest (js "r3") (CAbort (js "T"))) [])].

Lemma requests_answered_once_witness :
  let s := after_moves demo_operating in
  answered s = [0; 2]%nat ∧ operationCount <$> lives s = [1]
  ∧ answered s ++ omap task_number (tasks s) ≡ₚ seq 0 (requests s).
Proof.
  split; [vm_compute; reflexivity|]. split; [vm_compute; reflexivity|].
  exact (proj1 (requests_answered_once demo_encodes (after_moves demo_operating) (after_reachable demo_operating))).
Defined.
