(* ===== verification/JsonText.v ===== *)
(** * JSON text: [JSON.stringify] and [JSON.parse]

    What the session files use of ECMAScript's [JSON]: the text of a JSON value
    without indentation, and the value of a text.  Numbers are written with the
    fewest digits that read back as the same binary64 value ([Number::toString]),
    strings with the escapes of [QuoteJSONString], objects in property order. *)

From Stdlib Require Import SpecFloat.
From stdpp Require Import pretty.
From S2P Require Import Prelude JsNumber JsString JsMap SessionTypes.

(** ** Decimal text of numbers *)

Definition is_digit (c : Z) : bool := in_range 48 57 c.

(** The digits at the head of a text, and the rest. *)
Fixpoint span_digits (s : jsstring) : list Z * jsstring :=
  match s with
  | c :: s' => if is_digit c then let (ds, rest) := span_digits s' in (c - 48 :: ds, rest) else ([], s)
  | [] => ([], [])
  end.

Definition digits_value (ds : list Z) : Z := foldl (λ n d, n * 10 + d) 0 ds.

(** The number nearest to [(-1)^neg * m * 10^e]: a safe integer is itself, and far
    beyond the range of exponents it is an infinity or a zero. *)
Definition decimal_to_num (neg : bool) (m e : Z) : jsnum :=
  match m with
  | Zpos _ =>
      let places := e + Z.log2 m / 3 in
      if (e =? 0) && is_safe m then of_Z (if neg then - m else m)
      else if 1200 <? places then num_of_sf (S754_infinity neg)
      else if places <? -1200 then num_of_sf (S754_zero neg)
      else
        let m1 := if 0 <=? e then m * 10 ^ e else m in
        let m2 := if 0 <=? e then 1 else 10 ^ (- e) in
        let '(q, e', l) := SFdiv_core_binary 53 1024 m1 0 m2 0 in
        num_of_sf (binary_round_aux 53 1024 neg q e' l)
  | _ => num_of_sf (S754_zero neg)
  end.

(** The text of a JSON number: sign, integer part, fraction, exponent. *)
Definition number_of_text (s : jsstring) : option jsnum :=
  let (neg, s) := match s with 45 :: s' => (true, s') | _ => (false, s) end in
  let (int, s) := span_digits s in
  _ ← (match int with [] => None | 0 :: _ :: _ => None | _ => Some () end);
  '(frac, s) ← (match s with
               | 46 :: s' => let (ds, rest) := span_digits s' in
                             match ds with [] => None | _ => Some (ds, rest) end
               | _ => Some ([], s)
               end);
  '(exp, s) ← (match s with
              | c :: s' =>
                  if (c =? 101) || (c =? 69) then
                    let (eneg, s'') := match s' with 45 :: t => (true, t) | 43 :: t => (false, t) | _ => (false, s') end in
                    let (ds, rest) := span_digits s'' in
                    match ds with [] => None | _ => Some ((if eneg : bool then -1 else 1) * digits_value ds, rest) end
                  else Some (0, s)
              | [] => Some (0, [])
              end);
  match s with
  | [] => Some (decimal_to_num neg (digits_value (int ++ frac)) (exp - zlen frac))
  | _ => None
  end.

(** [Number::toString] of digits [s] (as text, [k] of them) with the point after
    the [n]-th. *)
Definition place_digits (ds : jsstring) (n : Z) : jsstring :=
  let k := zlen ds in
  if (k <=? n) && (n <=? 21) then ds ++ replicate (Z.to_nat (n - k)) 48
  else if (0 <? n) && (n <=? 21) then take (Z.to_nat n) ds ++ 46 :: drop (Z.to_nat n) ds
  else if (-6 <? n) && (n <=? 0) then 48 :: 46 :: replicate (Z.to_nat (- n)) 48 ++ ds
  else
    take 1 ds ++ (match drop 1 ds with [] => [] | rest => 46 :: rest end)
    ++ 101 :: (if n - 1 <? 0 then 45 else 43) :: js_of_Z (Z.abs (n - 1)).

(** A positive number as a fraction of integers. *)
Definition num_fraction (x : jsnum) : Z * Z :=
  match sf_of_num x with
  | S754_finite _ m e => if 0 <=? e then (Zpos m * 2 ^ e, 1) else (Zpos m, 2 ^ (- e))
  | _ => (0, 1)
  end.

(** The number of decimal digits of the integer part of [p / q], negative for
    zeros after the point; [e2] is its binary exponent. *)
Fixpoint adjust_point (fuel : nat) (p q n : Z) : Z :=
  match fuel with
  | O => n
  | S fuel =>
      let ge e := if 0 <=? e then p >=? q * 10 ^ e else p * 10 ^ (- e) >=? q in
      if ge n then adjust_point fuel p q (n + 1)
      else if ge (n - 1) then n else adjust_point fuel p q (n - 1)
  end.
Definition decimal_point (p q : Z) : Z :=
  adjust_point 5 p q ((Z.log2 p - Z.log2 q) * 30103 / 100000 + 1).

(** Digits without the zeros at their end. *)
Fixpoint strip_zeros (ds : jsstring) : jsstring :=
  match ds with
  | [] => []
  | d :: ds => match strip_zeros ds with [] => if d =? 48 then [] else [d] | ds => d :: ds end
  end.

(** The [k]-digit decimals around [p / q], the nearest first. *)
Definition candidates (p q n : Z) (k : nat) : list jsstring :=
  let e := Z.of_nat k - n in
  let (p, q) := if 0 <=? e then (p * 10 ^ e, q) else (p, q * 10 ^ (- e)) in
  let d := p / q in
  let near := if q <=? 2 * (p mod q) then [d + 1; d] else [d; d + 1] in
  (λ d, let ds := js_of_Z d in place_digits (strip_zeros ds) (n + (zlen ds - Z.of_nat k))) <$> near.

(** [JSON.stringify] of a number. *)
Definition number_text (x : jsnum) : jsstring :=
  if negb (isFinite x) then js "null"
  else if isSafeInteger x && negb (is_neg_zero x) then js_of_Z (default 0 (int_value x))
  else
    let a := if num_neg x then x - two63 else x in
    let sign : jsstring := if num_neg x && negb (a =? 0) then [45] else [] in
    if a =? 0 then [48]
    else
      let (p, q) := num_fraction a in
      let n := decimal_point p q in
      match find (λ t, bool_decide (number_of_text (sign ++ t) = Some x))
              (concat (candidates p q n <$> seq 1 17)) with
      | Some t => sign ++ t
      | None => js "null"
      end.

(** Whether a number survives its text: finite and not [-0]. *)
Definition number_survives (x : jsnum) : bool := bool_decide (number_of_text (number_text x) = Some x).

(** ** Strings *)

Definition hex_digit (n : Z) : Z := if n <? 10 then 48 + n else 87 + n.
Definition unicode_escape (u : Z) : jsstring :=
  [92; 117; hex_digit (u / 4096); hex_digit ((u / 256) mod 16); hex_digit ((u / 16) mod 16); hex_digit (u mod 16)].

(** The escape of a code unit that has one; surrogates are looked at in pairs. *)
Definition escape (u : Z) : option jsstring :=
  if u =? 34 then Some [92; 34]
  else if u =? 92 then Some [92; 92]
  else if u =? 8 then Some [92; 98]
  else if u =? 12 then Some [92; 102]
  else if u =? 10 then Some [92; 110]
  else if u =? 13 then Some [92; 114]
  else if u =? 9 then Some [92; 116]
  else if u <? 32 then Some (unicode_escape u)
  else None.

Fixpoint quote_units (s : jsstring) : jsstring :=
  match s with
  | [] => []
  | u :: s' =>
      if is_high u then
        match s' with
        | v :: s'' => if is_low v then u :: v :: quote_units s'' else unicode_escape u ++ quote_units s'
        | [] => unicode_escape u
        end
      else if is_low u then unicode_escape u ++ quote_units s'
      else default [u] (escape u) ++ quote_units s'
  end.

(** [QuoteJSONString]. *)
Definition quote (s : jsstring) : jsstring := 34 :: quote_units s ++ [34].

Definition hex_value (c : Z) : option Z :=
  if is_digit c then Some (c - 48)
  else if in_range 97 102 c then Some (c - 87)
  else if in_range 65 70 c then Some (c - 55)
  else None.

Definition unescape (c : Z) : option Z :=
  if (c =? 34) || (c =? 92) || (c =? 47) then Some c
  else if c =? 98 then Some 8
  else if c =? 102 then Some 12
  else if c =? 110 then Some 10
  else if c =? 114 then Some 13
  else if c =? 116 then Some 9
  else None.

(** The characters of a string literal after its opening quote, and the rest. *)
Fixpoint parse_units (s : jsstring) : option (jsstring * jsstring) :=
  match s with
  | [] => None
  | u :: s1 =>
      if u =? 34 then Some ([], s1)
      else if u =? 92 then
        match s1 with
        | [] => None
        | c :: s2 =>
            if c =? 117 then
              match s2 with
              | a :: b :: c :: d :: s6 =>
                  a ← hex_value a; b ← hex_value b; c ← hex_value c; d ← hex_value d;
                  '(t, rest) ← parse_units s6; Some (a * 4096 + b * 256 + c * 16 + d :: t, rest)
              | _ => None
              end
            else c ← unescape c; '(t, rest) ← parse_units s2; Some (c :: t, rest)
        end
      else if u <? 32 then None
      else '(t, rest) ← parse_units s1; Some (u :: t, rest)
  end.

(** ** Objects *)

(** The array index a property key spells, if it does; such keys come first, in
    increasing order. *)
Definition index_key (k : jsstring) : option Z :=
  match span_digits k with
  | (ds, []) =>
      match ds with
      | [] => None
      | 0 :: _ :: _ => None
      | _ => if digits_value ds <? 4294967295 then Some (digits_value ds) else None
      end
  | _ => None
  end.

Definition key_precedes (k k' : jsstring) : bool :=
  match index_key k, index_key k' with
  | Some i, Some j => i <? j
  | Some _, None => true
  | None, _ => false
  end.

(** Sets an own property: in place when the key is there, else where its order
    puts it. *)
Fixpoint set_prop (props : list (jsstring * JsonValue)) (k : jsstring) (v : JsonValue)
    : list (jsstring * JsonValue) :=
  match props with
  | [] => [(k, v)]
  | (k', v') :: rest =>
      if decide (k = k') then (k, v) :: rest
      else if key_precedes k k' then (k, v) :: props
      else (k', v') :: set_prop rest k v
  end.

(** ** Values *)

(** [JSON.stringify]. *)
Fixpoint json_text (v : JsonValue) : jsstring :=
  match v with
  | JsonNull => js "null"
  | JsonBool b => if b then js "true" else js "false"
  | JsonNumber x => number_text x
  | JsonString s => quote s
  | JsonArray items => 91 :: join 44 (json_text <$> items) ++ [93]
  | JsonObject props => 123 :: join 44 ((λ kv, quote kv.1 ++ 58 :: json_text kv.2) <$> props) ++ [125]
  end.

Definition is_ws (c : Z) : bool := (c =? 32) || (c =? 9) || (c =? 10) || (c =? 13).
Fixpoint skip_ws (s : jsstring) : jsstring :=
  match s with
  | c :: s' => if is_ws c then skip_ws s' else s
  | [] => []
  end.

(** The characters of a number token. *)
Definition number_char (c : Z) : bool :=
  is_digit c || (c =? 43) || (c =? 45) || (c =? 46) || (c =? 69) || (c =? 101).
Fixpoint span_number (s : jsstring) : jsstring * jsstring :=
  match s with
  | c :: s' => if number_char c then let (t, rest) := span_number s' in (c :: t, rest) else ([], s)
  | [] => ([], [])
  end.

(** The elements of an array up to its bracket; the members of an object up to
    its brace.  [value] parses one value. *)
Fixpoint parse_elements (value : jsstring → option (JsonValue * jsstring)) (fuel : nat) (s : jsstring)
    : option (list JsonValue * jsstring) :=
  match fuel with
  | O => None
  | S fuel =>
      '(v, s) ← value s;
      match skip_ws s with
      | c :: s =>
          if c =? 44 then '(vs, rest) ← parse_elements value fuel s; Some (v :: vs, rest)
          else if c =? 93 then Some ([v], s)
          else None
      | [] => None
      end
  end.

Fixpoint parse_members (value : jsstring → option (JsonValue * jsstring)) (fuel : nat) (s : jsstring)
    : option (list (jsstring * JsonValue) * jsstring) :=
  match fuel with
  | O => None
  | S fuel =>
      match skip_ws s with
      | q :: s =>
          if negb (q =? 34) then None else
          '(k, s) ← parse_units s;
          match skip_ws s with
          | colon :: s =>
              if negb (colon =? 58) then None else
              '(v, s) ← value s;
              match skip_ws s with
              | c :: s =>
                  if c =? 44 then '(kvs, rest) ← parse_members value fuel s; Some ((k, v) :: kvs, rest)
                  else if c =? 125 then Some ([(k, v)], s)
                  else None
              | [] => None
              end
          | [] => None
          end
      | [] => None
      end
  end.

(** Drops a literal from the head of a text. *)
Fixpoint drop_literal (l s : jsstring) : option jsstring :=
  match l, s with
  | [], _ => Some s
  | a :: l, b :: s => if a =? b then drop_literal l s else None
  | _ :: _, [] => None
  end.

Definition object_of (kvs : list (jsstring * JsonValue)) : list (jsstring * JsonValue) :=
  foldl (λ props kv, set_prop props kv.1 kv.2) [] kvs.

Fixpoint parse_value (fuel : nat) (s : jsstring) : option (JsonValue * jsstring) :=
  match fuel with
  | O => None
  | S fuel =>
      match skip_ws s with
      | [] => None
      | c :: s1 =>
          if c =? 123 then
            match skip_ws s1 with
            | [] => None
            | d :: s2 =>
                if d =? 125 then Some (JsonObject [], s2)
                else '(kvs, rest) ← parse_members (parse_value fuel) fuel (d :: s2); Some (JsonObject (object_of kvs), rest)
            end
          else if c =? 91 then
            match skip_ws s1 with
            | [] => None
            | d :: s2 =>
                if d =? 93 then Some (JsonArray [], s2)
                else '(vs, rest) ← parse_elements (parse_value fuel) fuel (d :: s2); Some (JsonArray vs, rest)
            end
          else if c =? 34 then '(t, rest) ← parse_units s1; Some (JsonString t, rest)
          else if c =? 110 then rest ← drop_literal (js "null") (c :: s1); Some (JsonNull, rest)
          else if c =? 116 then rest ← drop_literal (js "true") (c :: s1); Some (JsonBool true, rest)
          else if c =? 102 then rest ← drop_literal (js "false") (c :: s1); Some (JsonBool false, rest)
          else
            let (t, rest) := span_number (c :: s1) in
            x ← number_of_text t; Some (JsonNumber x, rest)
      end
  end.

(** [JSON.parse]; [None] is a [SyntaxError]. *)
Definition json_parse (s : jsstring) : option JsonValue :=
  match parse_value (S (length s)) s with
  | Some (v, rest) => match skip_ws rest with [] => Some v | _ => None end
  | None => None
  end.

(** Keys that are set one after the other each at the end. *)
Fixpoint keys_ok (seen keys : list jsstring) : bool :=
  match keys with
  | [] => true
  | k :: keys => forallb (λ k', negb (bool_decide (k = k')) && negb (key_precedes k k')) seen && keys_ok (seen ++ [k]) keys
  end.

(** A value that text preserves: its numbers survive, its strings are sequences
    of code units, its keys are distinct and in property order. *)
Fixpoint json_ok (v : JsonValue) : bool :=
  match v with
  | JsonNull | JsonBool _ => true
  | JsonNumber x => number_survives x
  | JsonString s => bool_decide (string_ok s)
  | JsonArray items => forallb json_ok items
  | JsonObject props =>
      keys_ok [] props.*1 && forallb (λ kv, bool_decide (string_ok kv.1) && json_ok kv.2) props
  end.

(** ** Lemmas on strings *)

Lemma hex_value_digit n : 0 ≤ n < 16 → hex_value (hex_digit n) = Some n.
Proof.
  intros Hn. assert (n ∈ seqZ 0 16) as Hin by (apply elem_of_seqZ; lia). clear Hn.
  revert n Hin. apply Forall_forall. vm_compute. repeat constructor.
Qed.

Lemma parse_unicode_escape u rest :
  unit_ok u → parse_units (unicode_escape u ++ rest) = '(t, r) ← parse_units rest; Some (u :: t, r).
Proof.
  intros Hu. unfold unit_ok in Hu. unfold unicode_escape. cbn.
  rewrite !hex_value_digit by (Z.to_euclidean_division_equations; lia). cbn.
  replace (u / 4096 * 4096 + (u / 256) mod 16 * 256 + (u / 16) mod 16 * 16 + u mod 16) with u
    by (Z.to_euclidean_division_equations; lia). done.
Qed.

(** A code unit that is written as it is. *)
Lemma parse_plain u rest :
  u ≠ 34 → u ≠ 92 → 32 ≤ u → parse_units (u :: rest) = '(t, r) ← parse_units rest; Some (u :: t, r).
Proof.
  intros H1 H2 H3. cbn. rewrite (proj2 (Z.eqb_neq u 34)), (proj2 (Z.eqb_neq u 92)) by done.
  by rewrite (proj2 (Z.ltb_ge u 32)).
Qed.

Lemma parse_escape u rest :
  unit_ok u → parse_units (default [u] (escape u) ++ rest) = '(t, r) ← parse_units rest; Some (u :: t, r).
Proof.
  intros Hu. unfold escape.
  destruct (Z.eqb_spec u 34) as [->|]; [done|]. destruct (Z.eqb_spec u 92) as [->|]; [done|].
  destruct (Z.eqb_spec u 8) as [->|]; [done|]. destruct (Z.eqb_spec u 12) as [->|]; [done|].
  destruct (Z.eqb_spec u 10) as [->|]; [done|]. destruct (Z.eqb_spec u 13) as [->|]; [done|].
  destruct (Z.eqb_spec u 9) as [->|]; [done|].
  destruct (Z.ltb_spec u 32); cbn [default from_option].
  - by apply parse_unicode_escape.
  - by apply parse_plain.
Qed.

Lemma parse_quote_units s rest :
  string_ok s → parse_units (quote_units s ++ 34 :: rest) = Some (s, rest).
Proof.
  induction s as [|u|u v s IH1 IH2] using list_ind2; intros Hs; [done| |].
  - apply Forall_cons in Hs as [Hu _]. cbn [quote_units].
    destruct (is_high u); [|destruct (is_low u)]; rewrite ?app_nil_r;
      rewrite ?(parse_unicode_escape u (34 :: rest)), ?(parse_escape u (34 :: rest)) by done; done.
  - apply Forall_cons in Hs as [Hu Hvs]. pose proof Hvs as Hvs'. apply Forall_cons in Hvs' as [Hv Hs].
    specialize (IH2 Hvs). specialize (IH1 Hs). cbn [quote_units] in *.
    destruct (is_high u) eqn:E1.
    + destruct (is_low v) eqn:E2.
      * utf_facts. cbn [app]. rewrite !parse_plain by lia. by rewrite IH1.
      * rewrite <- app_assoc, parse_unicode_escape by done. by rewrite IH2.
    + destruct (is_low u); rewrite <- app_assoc.
      * rewrite parse_unicode_escape by done. by rewrite IH2.
      * rewrite parse_escape by done. by rewrite IH2.
Qed.

(** The rest of a literal does not depend on what follows. *)
Lemma parse_units_local p q t r : parse_units p = Some (t, r) → parse_units (p ++ q) = Some (t, r ++ q).
Proof.
  remember (length p) as k eqn:Hk. revert p Hk t r. induction (lt_wf k) as [k _ IH]. intros p -> t r.
  assert (∀ p' (f : jsstring → jsstring) (t r : jsstring), (length p' < length p)%nat →
    ('(t0, r0) ← parse_units p'; Some (f t0, r0)) = Some (t, r) →
    ('(t0, r0) ← parse_units (p' ++ q); Some (f t0, r0)) = Some (t, r ++ q)) as Hrec.
  { intros p' f t' r' Hlen ([t0 r0] & Hp & [= <- <-])%bind_Some. by rewrite (IH _ Hlen p' eq_refl _ _ Hp). }
  destruct p as [|u p1]; [done|]. cbn.
  destruct (u =? 34); [by intros [= <- <-]|]. destruct (u =? 92).
  - destruct p1 as [|c p2]; [done|]. cbn. destruct (c =? 117).
    + destruct p2 as [|a [|b [|d [|e p6]]]]; [done..|]. cbn.
      destruct (hex_value a), (hex_value b), (hex_value d), (hex_value e); try done. cbn.
      apply (Hrec p6 (cons _)). cbn. lia.
    + destruct (unescape c); [|done]. cbn. apply (Hrec p2 (cons _)). cbn. lia.
  - destruct (u <? 32); [done|]. apply (Hrec p1 (cons _)). cbn. lia.
Qed.

(** Every unit of a quoted string is at least a space. *)
Lemma quote_units_no_control s : string_ok s → Forall (λ u, 32 ≤ u) (quote_units s).
Proof.
  assert (∀ n, 0 ≤ n < 16 → 32 ≤ hex_digit n) as Hhex.
  { intros n Hn. unfold hex_digit. case_match; lia. }
  assert (∀ u, unit_ok u → Forall (λ u, 32 ≤ u) (unicode_escape u)) as Huni.
  { intros u Hu. unfold unit_ok in Hu. unfold unicode_escape. repeat (apply Forall_cons_2; [first [lia|
      apply Hhex; Z.to_euclidean_division_equations; lia]|]). apply Forall_nil_2. }
  assert (∀ u, unit_ok u → Forall (λ u, 32 ≤ u) (default [u] (escape u))) as Hesc.
  { intros u Hu. unfold escape. repeat (case_match; [by repeat (apply Forall_cons_2; [done|])|]).
    case_match; cbn; [by apply Huni|]. repeat constructor. by apply Z.ltb_ge. }
  induction s as [|u|u v s IH1 IH2] using list_ind2; intros Hs; [constructor| |].
  - apply Forall_cons in Hs as [Hu _]. cbn [quote_units]. destruct (is_high u); [by apply Huni|].
    destruct (is_low u); rewrite app_nil_r; [by apply Huni|by apply Hesc].
  - apply Forall_cons in Hs as [Hu Hvs]. pose proof Hvs as Hvs'. apply Forall_cons in Hvs' as [Hv Hs].
    specialize (IH2 Hvs). specialize (IH1 Hs). cbn [quote_units] in *.
    destruct (is_high u) eqn:E1; [destruct (is_low v) eqn:E2|destruct (is_low u)].
    + utf_facts. constructor; [lia|]. constructor; [lia|done].
    + apply Forall_app; split; [by apply Huni|done].
    + apply Forall_app; split; [by apply Huni|done].
    + apply Forall_app; split; [by apply Hesc|done].
Qed.

(** ** Lemmas on numbers *)

Lemma span_digits_spec s ds rest :
  span_digits s = (ds, rest) →
  ∃ pre, s = pre ++ rest ∧ length pre = length ds ∧ Forall (λ c, is_digit c = true) pre.
Proof.
  revert ds rest. induction s as [|c s IH]; cbn; intros ds rest; [by intros [= <- <-]; exists []|].
  destruct (is_digit c) eqn:Hc; [|by intros [= <- <-]; exists []].
  destruct (span_digits s) as [ds' rest'] eqn:E. intros [= <- <-].
  destruct (IH ds' rest' eq_refl) as (pre & -> & Hlen & Hall). exists (c :: pre). cbn. split_and!; [done|lia|by constructor].
Qed.

Lemma digits_number pre : Forall (λ c, is_digit c = true) pre → Forall (λ c, number_char c = true) pre.
Proof. intros Hp. eapply Forall_impl; [exact Hp|]. intros c Hc. unfold number_char. by rewrite Hc. Qed.

Lemma span_number_all t rest :
  Forall (λ c, number_char c = true) t → (∀ c r, rest = c :: r → number_char c = false) →
  span_number (t ++ rest) = (t, rest).
Proof.
  intros Ht Hrest. induction Ht as [|c t Hc _ IH]; cbn.
  - destruct rest as [|c r]; [done|]. cbn. by rewrite (Hrest c r).
  - by rewrite Hc, IH.
Qed.

Lemma fraction_chars s frac rest :
  match s with
  | 46 :: s' => let (ds, rest) := span_digits s' in match ds with [] => None | _ => Some (ds, rest) end
  | _ => Some ([], s)
  end = Some (frac, rest) →
  ∃ pre, s = pre ++ rest ∧ Forall (λ c, number_char c = true) pre.
Proof.
  assert (Some ([] : list Z, s) = Some (frac, rest) → ∃ pre, s = pre ++ rest ∧ Forall (λ c, number_char c = true) pre) as Hno.
  { intros [= _ ->]. by exists []. }
  destruct s as [|c s']; [exact Hno|]. destruct (decide (c = 46)) as [->|Hc].
  - destruct (span_digits s') as [ds r] eqn:E. destruct (span_digits_spec _ _ _ E) as (pre & -> & _ & Hpre).
    destruct ds; [done|]. intros [= _ <-]. exists (46 :: pre). split; [done|]. constructor; [done|by apply digits_number].
  - intros Heq. apply Hno. rewrite <- Heq. repeat case_match; done || congruence.
Qed.

Lemma exponent_chars s exp rest :
  match s with
  | c :: s' =>
      if (c =? 101) || (c =? 69) then
        let (eneg, s'') := match s' with 45 :: t => (true, t) | 43 :: t => (false, t) | _ => (false, s') end in
        let (ds, rest) := span_digits s'' in
        match ds with [] => None | _ => Some ((if eneg : bool then -1 else 1) * digits_value ds, rest) end
      else Some (0, s)
  | [] => Some (0, [])
  end = Some (exp, rest) →
  ∃ pre, s = pre ++ rest ∧ Forall (λ c, number_char c = true) pre.
Proof.
  destruct s as [|c s']; [by intros [= _ <-]; exists []|].
  destruct ((c =? 101) || (c =? 69)) eqn:Hc; [|by intros [= _ <-]; exists []].
  assert (number_char c = true) as Hcc.
  { unfold number_char. apply orb_true_iff in Hc as [->| ->]; by rewrite ?orb_true_r. }
  destruct (match s' with 45 :: t => (true, t) | 43 :: t => (false, t) | _ => (false, s') end) as [eneg s''] eqn:Hs.
  assert (∃ sg, s' = sg ++ s'' ∧ Forall (λ c, number_char c = true) sg) as (sg & -> & Hsg).
  { destruct s' as [|d s3]; [injection Hs as _ <-; by exists []|].
    destruct (decide (d = 45)) as [->|H45]; [injection Hs as _ <-; exists [45]; by repeat constructor|].
    destruct (decide (d = 43)) as [->|H43]; [injection Hs as _ <-; exists [43]; by repeat constructor|].
    exists []. split; [|constructor]. revert Hs. repeat case_match; try congruence; by intros [= _ <-]. }
  destruct (span_digits s'') as [ds r] eqn:E. destruct (span_digits_spec _ _ _ E) as (pre & -> & _ & Hpre).
  destruct ds; [done|]. intros [= _ <-]. exists (c :: sg ++ pre). cbn. rewrite <- app_assoc. split; [done|].
  constructor; [done|]. apply Forall_app. split; [done|by apply digits_number].
Qed.

Lemma number_of_text_chars s x :
  number_of_text s = Some x → ∃ c t, s = c :: t ∧ (c = 45 ∨ is_digit c = true) ∧ Forall (λ c, number_char c = true) s.
Proof.
  unfold number_of_text.
  destruct (match s with 45 :: s' => (true, s') | _ => (false, s) end) as [neg s1] eqn:Hs.
  assert (s = 45 :: s1 ∨ s = s1) as Hsign.
  { destruct s as [|d s3]; [injection Hs as _ <-; by right|].
    destruct (decide (d = 45)) as [->|H45]; [injection Hs as _ <-; by left|].
    right. revert Hs. repeat case_match; try congruence; by intros [= _ <-]. }
  destruct (span_digits s1) as [int s2] eqn:E. destruct (span_digits_spec _ _ _ E) as (pre & -> & Hlen & Hpre).
  intros (u & Hint & ([frac s3] & Hf & ([exp s4] & He & Hend)%bind_Some)%bind_Some)%bind_Some.
  destruct (fraction_chars _ _ _ Hf) as (p2 & -> & Hp2). destruct (exponent_chars _ _ _ He) as (p3 & -> & Hp3).
  destruct s4; [|done].
  assert (Forall (λ c, number_char c = true) (pre ++ p2 ++ p3 ++ [])) as Hall
    by (rewrite app_nil_r; apply Forall_app; split; [by apply digits_number|by apply Forall_app]).
  destruct pre as [|d pre]; [destruct int; done|]. apply Forall_cons in Hpre as [Hd _].
  destruct Hsign as [->| ->].
  - eexists _, _. split; [done|]. split; [by left|]. by constructor.
  - eexists _, _. split; [done|]. split; [by right|done].
Qed.

(** ** Integers *)

Lemma digits_value_cons d ds : digits_value (d :: ds) = d * 10 ^ zlen ds + digits_value ds.
Proof.
  assert (∀ ds n, foldl (λ n d, n * 10 + d) n ds = n * 10 ^ zlen ds + digits_value ds) as Hgen.
  { unfold digits_value. clear d ds. induction ds as [|d ds IH]; intros n; cbn [foldl]; [rewrite zlen_nil; lia|].
    rewrite IH, (IH (0 * 10 + d)), zlen_cons, Z.pow_add_r by (try apply zlen_nonneg; lia). lia. }
  unfold digits_value. cbn [foldl]. rewrite Hgen. unfold digits_value. lia.
Qed.

Lemma span_digits_cons c s : is_digit c = true → span_digits (c :: s) = (c - 48 :: (span_digits s).1, (span_digits s).2).
Proof. intros Hc. cbn. rewrite Hc. by destruct (span_digits s). Qed.

Lemma pretty_N_char_digit d :
  (d < 10)%N → Z.of_N (Ascii.N_of_ascii (pretty_N_char d)) = 48 + Z.of_N d.
Proof.
  intros Hd.
  assert (d = 0 ∨ d = 1 ∨ d = 2 ∨ d = 3 ∨ d = 4 ∨ d = 5 ∨ d = 6 ∨ d = 7 ∨ d = 8 ∨ d = 9)%N as Hcases by lia.
  by repeat (destruct Hcases as [->|Hcases]; [done|]); subst.
Qed.

Lemma span_pretty_go x s :
  (0 < x)%N →
  ∃ d ds, span_digits (js (pretty_N_go x s)) = (d :: ds ++ (span_digits (js s)).1, (span_digits (js s)).2)
    ∧ d ≠ 0 ∧ digits_value (d :: ds) = Z.of_N x.
Proof.
  revert s. induction (N.lt_wf_0 x) as [x _ IH]. intros s Hx. rewrite pretty_N_go_step by done.
  assert (x mod 10 < 10)%N as Hm by (apply N.mod_lt; done).
  pose proof (pretty_N_char_digit _ Hm) as Hc.
  assert (span_digits (js (String (pretty_N_char (x mod 10)) s))
    = (Z.of_N (x mod 10) :: (span_digits (js s)).1, (span_digits (js s)).2)) as Hspan.
  { rewrite js_cons, Hc, span_digits_cons.
    - by replace (48 + Z.of_N (x mod 10) - 48) with (Z.of_N (x mod 10)) by lia.
    - unfold is_digit. apply in_range_spec. clear -Hm. revert Hm. generalize (x mod 10)%N. lia. }
  destruct (decide (x / 10 = 0)%N) as [H0|H0].
  - rewrite H0, pretty_N_go_0, Hspan. exists (Z.of_N (x mod 10)), []. split; [done|].
    assert (x mod 10 = x)%N as -> by (apply N.mod_small; apply N.div_small_iff in H0; lia).
    split; [lia|]. rewrite digits_value_cons, zlen_nil. change (digits_value []) with 0. lia.
  - destruct (IH (x / 10)%N ltac:(by apply N.div_lt) (String (pretty_N_char (x mod 10)) s) ltac:(by apply N.neq_0_lt_0))
      as (d & ds & Heq & Hd & Hv).
    rewrite Heq, Hspan. cbn [fst snd]. exists d, (ds ++ [Z.of_N (x mod 10)]). rewrite <- app_assoc. split; [done|].
    split; [done|]. change (d :: ds ++ [Z.of_N (x mod 10)]) with ((d :: ds) ++ [Z.of_N (x mod 10)]).
    unfold digits_value in *. rewrite foldl_app, Hv. cbn [foldl].
    pose proof (N.div_mod' x 10) as Hdm. revert Hdm. generalize (x / 10)%N, (x mod 10)%N. lia.
Qed.

Lemma span_js_of_nat n :
  0 ≤ n → ∃ ds, span_digits (js_of_Z n) = (ds, []) ∧ digits_value ds = n ∧ ds ≠ [] ∧ (∀ d l, ds = 0 :: d :: l → False).
Proof.
  intros Hn. destruct n as [|p|p]; [by exists [0]| |lia].
  change (js_of_Z (Zpos p)) with (js (pretty (Npos p))). unfold pretty, pretty_N.
  rewrite decide_False by done.
  destruct (span_pretty_go (Npos p) EmptyString ltac:(lia)) as (d & ds & Heq & Hd & Hv).
  exists (d :: ds). rewrite Heq. cbn [js]. change (span_digits (js EmptyString)) with (@nil Z, @nil Z). cbn [fst snd].
  rewrite app_nil_r. split_and!; [done|done|done|]. by intros ? ? [= -> _].
Qed.

Lemma js_of_Z_neg n : n < 0 → js_of_Z n = 45 :: js_of_Z (- n).
Proof. destruct n; [lia..|]. done. Qed.

Lemma number_of_text_int n : is_safe n = true → number_of_text (js_of_Z n) = Some (of_Z n).
Proof.
  intros Hs. destruct (decide (n = 0)) as [->|Hn0]; [vm_compute; reflexivity|].
  assert (∀ m neg, 0 < m → is_safe m = true → decimal_to_num neg m 0 = of_Z (if neg then - m else m)) as Hdec.
  { intros m neg Hm Hsm. destruct m as [|p|p]; [lia| |lia]. unfold decimal_to_num. by rewrite Hsm. }
  assert (∀ m neg ds, 0 < m → is_safe m = true → ds ≠ [] → (∀ d l, ds = 0 :: d :: l → False) → digits_value ds = m →
    (_ ← (match ds with [] => None | 0 :: _ :: _ => None | _ => Some () end);
     Some (decimal_to_num neg (digits_value (ds ++ [])) (0 - zlen (@nil Z)))) = Some (of_Z (if neg then - m else m))) as Hend.
  { intros m neg ds Hm Hsm Hne Hlead Hv. rewrite app_nil_r, Hv. change (0 - zlen (@nil Z)) with 0. rewrite Hdec by done.
    destruct ds as [|d [|d' l]]; [done| |].
    - by destruct d.
    - destruct d; [by destruct (Hlead d' l)|done..]. }
  destruct (Z.ltb_spec n 0) as [Hneg|Hpos].
  - rewrite (js_of_Z_neg n Hneg). destruct (span_js_of_nat (- n) ltac:(lia)) as (ds & Hspan & Hv & Hne & Hlead).
    unfold number_of_text. rewrite Hspan. cbn [mbind option_bind].
    assert (is_safe (- n) = true) as Hsn by (unfold is_safe in *; by rewrite Z.abs_opp).
    pose proof (Hend (- n) true ds ltac:(lia) Hsn Hne Hlead Hv) as He. rewrite Z.opp_involutive in He. exact He.
  - destruct (span_js_of_nat n ltac:(lia)) as (ds & Hspan & Hv & Hne & Hlead).
    assert (match js_of_Z n with 45 :: s' => (true, s') | _ => (false, js_of_Z n) end = (false, js_of_Z n)) as Hsign.
    { destruct (js_of_Z n) as [|c s]; [done|]. destruct (decide (c = 45)) as [->|Hc].
      - cbn in Hspan. injection Hspan as <-. done.
      - repeat case_match; congruence. }
    unfold number_of_text. rewrite Hsign, Hspan. cbn [mbind option_bind].
    exact (Hend n false ds ltac:(lia) Hs Hne Hlead Hv).
Qed.

Lemma number_survives_int n : is_safe n = true → number_survives (of_Z n) = true.
Proof.
  intros Hs. apply bool_decide_eq_true. unfold number_text.
  pose proof (int_value_of_Z n Hs) as Hint.
  assert (isFinite (of_Z n) = true) as ->.
  { revert Hint. unfold int_value, int_magnitude. by destruct (isFinite (of_Z n)). }
  assert (is_neg_zero (of_Z n) = false) as ->.
  { unfold is_neg_zero. apply Z.eqb_neq. intros Heq. rewrite Heq in Hint. vm_compute in Hint.
    injection Hint as <-. discriminate Heq. }
  unfold isSafeInteger. rewrite Hint, Hs. cbn [negb andb default from_option]. by apply number_of_text_int.
Qed.

(** ** Round trip *)

(** Structural induction through the nested lists. *)
Section JsonInd.
Context (P : JsonValue → Prop).
Context (Hnull : P JsonNull) (Hbool : ∀ b, P (JsonBool b)) (Hnum : ∀ x, P (JsonNumber x)) (Hstr : ∀ s, P (JsonString s))
  (Harray : ∀ items, Forall P items → P (JsonArray items))
  (Hobject : ∀ props, Forall (λ kv, P kv.2) props → P (JsonObject props)).

Fixpoint json_ind' (v : JsonValue) : P v :=
  match v with
  | JsonNull => Hnull
  | JsonBool b => Hbool b
  | JsonNumber x => Hnum x
  | JsonString s => Hstr s
  | JsonArray items =>
      Harray items ((fix go l : Forall P l :=
        match l with [] => Forall_nil_2 P | v :: l => Forall_cons_2 P v l (json_ind' v) (go l) end) items)
  | JsonObject props =>
      Hobject props ((fix go l : Forall (λ kv, P kv.2) l :=
        match l with
        | [] => Forall_nil_2 (λ kv, P kv.2)
        | kv :: l => Forall_cons_2 (λ kv, P kv.2) kv l (json_ind' kv.2) (go l)
        end) props)
  end.
End JsonInd.

Arguments number_text : simpl never.
Arguments number_of_text : simpl never.
Arguments quote : simpl never.

(** The text after a token: nothing that would extend a number. *)
Definition delimited (rest : jsstring) : Prop := ∀ c r, rest = c :: r → number_char c = false.

Lemma number_text_head x :
  number_survives x = true →
  ∃ c t, number_text x = c :: t ∧ (c = 45 ∨ is_digit c = true) ∧ Forall (λ c, number_char c = true) (number_text x).
Proof. intros Hx%bool_decide_eq_true. by apply number_of_text_chars in Hx. Qed.

(** The first character of a text tells its kind. *)
Lemma json_text_head v :
  json_ok v = true → ∃ c t, json_text v = c :: t ∧ is_ws c = false ∧ c ≠ 93 ∧ c ≠ 125.
Proof.
  destruct v as [|[]|x|s|items|props]; cbn; intros Hok; try (eexists _, _; split; [reflexivity|done]).
  destruct (number_text_head x Hok) as (c & t & -> & Hc & _). exists c, t. split; [done|].
  destruct Hc as [->|Hd]; [done|]. utf_facts. unfold is_digit in Hd. apply in_range_spec in Hd. unfold is_ws.
  repeat split; lia.
Qed.

Lemma skip_ws_head c s : is_ws c = false → skip_ws (c :: s) = c :: s.
Proof. intros Hc. cbn. by rewrite Hc. Qed.

Lemma number_first c : c = 45 ∨ is_digit c = true →
  is_ws c = false ∧ (c =? 123) = false ∧ (c =? 91) = false ∧ (c =? 34) = false ∧ (c =? 110) = false
  ∧ (c =? 116) = false ∧ (c =? 102) = false.
Proof.
  intros [->|Hd]; [done|]. apply in_range_spec in Hd. unfold is_ws. repeat split; lia.
Qed.

Lemma parse_number f x rest :
  number_survives x = true → delimited rest →
  parse_value (S f) (number_text x ++ rest) = Some (JsonNumber x, rest).
Proof.
  intros Hx Hrest. destruct (number_text_head x Hx) as (c & t & Ht & Hc & Hall).
  destruct (number_first c Hc) as (H0 & H1 & H2 & H3 & H4 & H5 & H6).
  rewrite Ht. cbn [parse_value app]. rewrite (skip_ws_head c _ H0), H1, H2, H3, H4, H5, H6.
  change (c :: t ++ rest) with ((c :: t) ++ rest). rewrite <- Ht, (span_number_all _ _ Hall Hrest).
  apply bool_decide_eq_true in Hx. by rewrite Hx.
Qed.

Lemma parse_elements_text value n items rest :
  items ≠ [] → (length items ≤ n)%nat →
  Forall (λ v, ∀ rest, delimited rest → value (json_text v ++ rest) = Some (v, rest)) items →
  parse_elements value n (join 44 (json_text <$> items) ++ 93 :: rest) = Some (items, rest).
Proof.
  intros Hne Hn Hall. revert n Hn. induction Hall as [|v items Hv Hall IH]; intros [|n] Hn; [done..|cbn in Hn; lia|].
  destruct items as [|w items].
  - cbn. rewrite Hv; [done|]. by intros c r [= <- <-].
  - cbn in Hn. pose proof (IH ltac:(done) n ltac:(cbn; lia)) as Hrec.
    change (join 44 (json_text <$> v :: w :: items)) with (json_text v ++ 44 :: join 44 (json_text <$> w :: items)).
    set (tail := join 44 (json_text <$> w :: items)) in *. clearbody tail.
    rewrite <- app_assoc. cbn [parse_elements app]. rewrite Hv by (by intros c r [= <- <-]). cbn. by rewrite Hrec.
Qed.

Definition member_text (kv : jsstring * JsonValue) : jsstring := quote kv.1 ++ 58 :: json_text kv.2.

Lemma quote_app k rest : quote k ++ rest = 34 :: quote_units k ++ 34 :: rest.
Proof. unfold quote. cbn. by rewrite <- app_assoc. Qed.

Lemma parse_members_text value n props rest :
  props ≠ [] → (length props ≤ n)%nat →
  Forall (λ kv, string_ok kv.1 ∧ ∀ rest, delimited rest → value (json_text kv.2 ++ rest) = Some (kv.2, rest)) props →
  parse_members value n (join 44 (member_text <$> props) ++ 125 :: rest) = Some (props, rest).
Proof.
  intros Hne Hn Hall. revert n Hn. induction Hall as [|[k v] props [Hk Hv] Hall IH]; intros [|n] Hn; [done..|cbn in Hn; lia|].
  cbn [fst snd] in *. destruct props as [|kv props].
  - change (join 44 (member_text <$> [(k, v)])) with (quote k ++ 58 :: json_text v).
    rewrite <- app_assoc, quote_app. cbn. rewrite parse_quote_units by done. cbn.
    by rewrite Hv by (by intros c r [= <- <-]).
  - cbn in Hn. pose proof (IH ltac:(done) n ltac:(cbn; lia)) as Hrec.
    change (join 44 (member_text <$> (k, v) :: kv :: props))
      with ((quote k ++ 58 :: json_text v) ++ 44 :: join 44 (member_text <$> kv :: props)).
    set (tail := join 44 (member_text <$> kv :: props)) in *. clearbody tail.
    rewrite <- !app_assoc, quote_app. cbn. rewrite parse_quote_units by done. cbn.
    rewrite Hv by (by intros c r [= <- <-]). cbn. by rewrite Hrec.
Qed.

(** Setting properties that are in order keeps them as they are. *)
Lemma set_prop_end props k v :
  forallb (λ k', negb (bool_decide (k = k')) && negb (key_precedes k k')) props.*1 = true →
  set_prop props k v = props ++ [(k, v)].
Proof.
  induction props as [|[k' v'] props IH]; cbn; [done|]. intros [H1 H2]%andb_true_iff.
  apply andb_true_iff in H1 as [H1 H3]. apply negb_true_iff in H1, H3. apply bool_decide_eq_false in H1.
  rewrite decide_False by done. rewrite H3. by rewrite IH.
Qed.

Lemma object_of_ordered_from props seen :
  keys_ok seen.*1 props.*1 = true → foldl (λ props kv, set_prop props kv.1 kv.2) seen props = seen ++ props.
Proof.
  revert seen. induction props as [|[k v] props IH]; intros seen; cbn; [by rewrite app_nil_r|].
  intros [H1 H2]%andb_true_iff. rewrite set_prop_end by done. rewrite IH.
  - by rewrite <- app_assoc.
  - by rewrite fmap_app.
Qed.

Lemma object_of_ordered props : keys_ok [] props.*1 = true → object_of props = props.
Proof. apply (object_of_ordered_from props []). Qed.

(** Fuel above the length of the text is enough. *)
Lemma join_parts sep p parts : p ∈ parts → (length p ≤ length (join sep parts))%nat.
Proof.
  induction parts as [|a [|b parts] IH]; [by intros ?%elem_of_nil|by intros ->%list_elem_of_singleton|].
  change (join sep (a :: b :: parts)) with (a ++ sep :: join sep (b :: parts)). rewrite length_app. cbn [length].
  intros [->|Hp]%elem_of_cons; [lia|]. specialize (IH Hp). lia.
Qed.

Lemma join_length sep parts : Forall (λ p, p ≠ []) parts → (length parts ≤ length (join sep parts))%nat.
Proof.
  induction 1 as [|a parts Ha _ IH]; [done|]. destruct parts as [|b parts].
  - destruct a; [done|]. cbn. lia.
  - change (join sep (a :: b :: parts)) with (a ++ sep :: join sep (b :: parts)). rewrite length_app. cbn [length] in *. lia.
Qed.

Lemma json_text_nonempty v : json_ok v = true → json_text v ≠ [].
Proof. intros Hv. by destruct (json_text_head v Hv) as (c & t & -> & _). Qed.

Lemma parse_array f items rest :
  Forall (λ v, json_ok v = true) items →
  Forall (λ v, ∀ rest, delimited rest → parse_value f (json_text v ++ rest) = Some (v, rest)) items →
  (length items ≤ f)%nat →
  parse_value (S f) (json_text (JsonArray items) ++ rest) = Some (JsonArray items, rest).
Proof.
  intros Hok Hall Hf. destruct items as [|v items]; [done|].
  pose proof (parse_elements_text (parse_value f) f (v :: items) rest ltac:(done) Hf Hall) as Hp.
  assert (∃ c t, join 44 (json_text <$> v :: items) = c :: t ∧ is_ws c = false ∧ c ≠ 93) as (c & t & Hc & Hws & H93).
  { apply Forall_cons in Hok as [Hv _]. destruct (json_text_head v Hv) as (c & t & Ht & Hws & H93 & _).
    cbn. rewrite Ht. destruct (json_text <$> items); (eexists _, _; split; [reflexivity|done]). }
  change (json_text (JsonArray (v :: items))) with (91 :: join 44 (json_text <$> v :: items) ++ [93]).
  rewrite Hc in *. cbn [app parse_value]. rewrite (skip_ws_head 91) by done. cbn [Z.eqb Pos.eqb].
  cbn [app] in Hp. rewrite <- app_assoc. cbn [app]. rewrite (skip_ws_head c) by done.
  rewrite (proj2 (Z.eqb_neq c 93)) by done. by rewrite Hp.
Qed.

Lemma parse_object f props rest :
  keys_ok [] props.*1 = true →
  Forall (λ kv, string_ok kv.1 ∧ ∀ rest, delimited rest → parse_value f (json_text kv.2 ++ rest) = Some (kv.2, rest)) props →
  (length props ≤ f)%nat →
  parse_value (S f) (json_text (JsonObject props) ++ rest) = Some (JsonObject props, rest).
Proof.
  intros Hk Hall Hf. destruct props as [|[k v] props]; [done|].
  pose proof (parse_members_text (parse_value f) f ((k, v) :: props) rest ltac:(done) Hf Hall) as Hp.
  assert (∃ t, join 44 (member_text <$> (k, v) :: props) = 34 :: t) as [t Ht].
  { destruct props as [|kv props]; eexists; reflexivity. }
  change (json_text (JsonObject ((k, v) :: props))) with (123 :: join 44 (member_text <$> (k, v) :: props) ++ [125]).
  rewrite Ht in *. cbn [app parse_value]. rewrite (skip_ws_head 123) by done. cbn [Z.eqb Pos.eqb].
  cbn [app] in Hp. rewrite <- app_assoc. cbn [app]. rewrite (skip_ws_head 34) by done. cbn [Z.eqb Pos.eqb]. rewrite Hp. cbn [mbind option_bind]. by rewrite object_of_ordered.
Qed.

Lemma parse_value_text v f rest :
  json_ok v = true → (length (json_text v) < f)%nat → delimited rest →
  parse_value f (json_text v ++ rest) = Some (v, rest).
Proof.
  revert f rest. induction v as [|b|x|s|items IH|props IH] using json_ind'; intros [|f] rest Hok Hf Hrest; try (cbn in Hf; lia).
  - done.
  - by destruct b.
  - by apply parse_number.
  - cbn in Hok. apply bool_decide_eq_true in Hok. change (json_text (JsonString s)) with (quote s).
    rewrite quote_app. cbn. by rewrite parse_quote_units.
  - cbn [json_ok] in Hok. rewrite forallb_forall in Hok. setoid_rewrite <- list_elem_of_In in Hok.
    change (json_text (JsonArray items)) with (91 :: join 44 (json_text <$> items) ++ [93]) in Hf.
    cbn in Hf. rewrite length_app in Hf. rewrite Forall_forall in IH.
    apply parse_array; [by apply Forall_forall| |].
    + apply Forall_forall. intros v Hv rest' Hrest'. apply IH; [done|by apply Hok| |done].
      pose proof (join_parts 44 (json_text v) (json_text <$> items) ltac:(by apply list_elem_of_fmap_2)). lia.
    + pose proof (join_length 44 (json_text <$> items)) as Hl. rewrite length_fmap in Hl.
      rewrite Forall_fmap in Hl. specialize (Hl ltac:(apply Forall_forall; intros v Hv; by apply json_text_nonempty, Hok)). lia.
  - cbn [json_ok] in Hok. apply andb_true_iff in Hok as [Hk Hok]. rewrite forallb_forall in Hok.
    setoid_rewrite <- list_elem_of_In in Hok.
    change (json_text (JsonObject props)) with (123 :: join 44 (member_text <$> props) ++ [125]) in Hf.
    cbn in Hf. rewrite length_app in Hf. rewrite Forall_forall in IH. apply parse_object; [done| |].
    + apply Forall_forall. intros kv Hkv. specialize (Hok kv Hkv). apply andb_true_iff in Hok as [Hs Hv].
      apply bool_decide_eq_true in Hs. split; [done|]. intros rest' Hrest'. apply (IH kv Hkv); [done| |done].
      pose proof (join_parts 44 (member_text kv) (member_text <$> props) ltac:(by apply list_elem_of_fmap_2)) as Hl.
      unfold member_text at 1 in Hl. rewrite length_app in Hl. cbn in Hl. lia.
    + pose proof (join_length 44 (member_text <$> props)) as Hl. rewrite length_fmap in Hl.
      rewrite Forall_fmap in Hl. specialize (Hl ltac:(by apply Forall_forall)). lia.
Qed.

(** [JSON.parse] undoes [JSON.stringify]. *)
Lemma json_parse_text v : json_ok v = true → json_parse (json_text v) = Some v.
Proof.
  intros Hv. unfold json_parse. pose proof (parse_value_text v (S (length (json_text v))) [] Hv ltac:(lia)) as Hp.
  rewrite app_nil_r in Hp. by rewrite Hp.
Qed.

(** ** A text does not parse before its end *)

Lemma skip_ws_app p q : skip_ws p ≠ [] → skip_ws (p ++ q) = skip_ws p ++ q.
Proof. induction p as [|c p IH]; cbn; [done|]. by destruct (is_ws c). Qed.

Lemma skip_ws_cons_app p q c s : skip_ws p = c :: s → skip_ws (p ++ q) = c :: s ++ q.
Proof. intros Hp. rewrite skip_ws_app by (by rewrite Hp). by rewrite Hp. Qed.

Lemma skip_ws_nonempty p c s : skip_ws p = c :: s → p ≠ [].
Proof. by intros Hp ->. Qed.

Lemma drop_literal_local l p q r : drop_literal l p = Some r → drop_literal l (p ++ q) = Some (r ++ q).
Proof.
  revert p. induction l as [|a l IH]; intros p; cbn; [by destruct p; intros [= <-]|].
  destruct p as [|b p]; [done|]. cbn. destruct (a =? b); [apply IH|done].
Qed.

Lemma span_number_local p q t r : span_number p = (t, r) → r ≠ [] → span_number (p ++ q) = (t, r ++ q).
Proof.
  revert t r. induction p as [|c p IH]; cbn; intros t r; [by intros [= <- <-]|].
  destruct (number_char c); [|by intros [= <- <-]].
  destruct (span_number p) as [t' r'] eqn:E. intros [= <- <-] Hr. by rewrite (IH t' r').
Qed.

(** A parser whose result, when something is left over, does not depend on what follows. *)
Definition local_to (q : jsstring) (value value' : jsstring → option (JsonValue * jsstring)) : Prop :=
  ∀ p v r, value p = Some (v, r) → r ≠ [] → value' (p ++ q) = Some (v, r ++ q).

Lemma parse_elements_local q value value' n n' p vs r :
  local_to q value value' → (n ≤ n')%nat → parse_elements value n p = Some (vs, r) →
  parse_elements value' n' (p ++ q) = Some (vs, r ++ q).
Proof.
  intros Hv. revert n' p vs r. induction n as [|n IH]; intros [|n'] p vs r Hn; try done; [lia|]. cbn.
  intros ([v s] & Hval & Hrest)%bind_Some. destruct (skip_ws s) as [|c s'] eqn:Hs; [done|].
  rewrite (Hv _ _ _ Hval) by (by eapply skip_ws_nonempty). cbn. rewrite (skip_ws_cons_app _ q _ _ Hs).
  destruct (c =? 44).
  - apply bind_Some in Hrest as ([vs' r'] & Hr & [= <- <-]). by rewrite (IH n' _ _ _ ltac:(lia) Hr).
  - destruct (c =? 93); [|done]. by injection Hrest as <- <-.
Qed.

Lemma parse_members_local q value value' n n' p kvs r :
  local_to q value value' → (n ≤ n')%nat → parse_members value n p = Some (kvs, r) →
  parse_members value' n' (p ++ q) = Some (kvs, r ++ q).
Proof.
  intros Hv. revert n' p kvs r. induction n as [|n IH]; intros [|n'] p kvs r Hn; try done; [lia|]. cbn.
  destruct (skip_ws p) as [|c s] eqn:Hp; [done|]. rewrite (skip_ws_cons_app _ q _ _ Hp).
  destruct (negb (c =? 34)); [done|]. intros ([k s1] & Hk & Hrest)%bind_Some.
  rewrite (parse_units_local _ q _ _ Hk). cbn. destruct (skip_ws s1) as [|colon s2] eqn:Hs1; [done|].
  rewrite (skip_ws_cons_app _ q _ _ Hs1). destruct (negb (colon =? 58)); [done|].
  apply bind_Some in Hrest as ([v s3] & Hval & Hrest). destruct (skip_ws s3) as [|d s4] eqn:Hs3; [done|].
  rewrite (Hv _ _ _ Hval) by (by eapply skip_ws_nonempty). cbn. rewrite (skip_ws_cons_app _ q _ _ Hs3).
  destruct (d =? 44).
  - apply bind_Some in Hrest as ([kvs' r'] & Hr & [= <- <-]). by rewrite (IH n' _ _ _ ltac:(lia) Hr).
  - destruct (d =? 125); [|done]. by injection Hrest as <- <-.
Qed.

Definition is_number (v : JsonValue) : bool := match v with JsonNumber _ => true | _ => false end.

Lemma parse_value_local f f' p q v r :
  (f ≤ f')%nat → parse_value f p = Some (v, r) → is_number v = false ∨ r ≠ [] →
  parse_value f' (p ++ q) = Some (v, r ++ q).
Proof.
  revert f' p v r. induction f as [|f IH]; intros [|f'] p v r Hf; try done; [lia|]. cbn [parse_value].
  assert (local_to q (parse_value f) (parse_value f')) as Hloc.
  { intros p' v' r' Hp Hr. apply IH; [lia|done|by right]. }
  destruct (skip_ws p) as [|c s1] eqn:Hp; [done|]. rewrite (skip_ws_cons_app _ q _ _ Hp).
  destruct (c =? 123).
  { destruct (skip_ws s1) as [|d s2] eqn:Hs1; [done|]. rewrite (skip_ws_cons_app _ q _ _ Hs1).
    destruct (d =? 125); [by intros [= <- <-]|]. intros ([kvs r'] & Hm & [= <- <-])%bind_Some _.
    change (d :: s2 ++ q) with ((d :: s2) ++ q). 
    by rewrite (parse_members_local q _ _ f f' _ _ _ Hloc ltac:(lia) Hm). }
  destruct (c =? 91).
  { destruct (skip_ws s1) as [|d s2] eqn:Hs1; [done|]. rewrite (skip_ws_cons_app _ q _ _ Hs1).
    destruct (d =? 93); [by intros [= <- <-]|]. intros ([vs r'] & Hm & [= <- <-])%bind_Some _.
    change (d :: s2 ++ q) with ((d :: s2) ++ q). 
    by rewrite (parse_elements_local q _ _ f f' _ _ _ Hloc ltac:(lia) Hm). }
  change (c :: s1 ++ q) with ((c :: s1) ++ q).
  destruct (c =? 34). { intros ([t r'] & Ht & [= <- <-])%bind_Some _. by rewrite (parse_units_local _ q _ _ Ht). }
  destruct (c =? 110). { intros (r' & Ht & [= <- <-])%bind_Some _. by rewrite (drop_literal_local _ _ q _ Ht). }
  destruct (c =? 116). { intros (r' & Ht & [= <- <-])%bind_Some _. by rewrite (drop_literal_local _ _ q _ Ht). }
  destruct (c =? 102). { intros (r' & Ht & [= <- <-])%bind_Some _. by rewrite (drop_literal_local _ _ q _ Ht). }
  destruct (span_number (c :: s1)) as [t r'] eqn:Ht. intros (x & Hx & [= <- <-])%bind_Some [|Hr]; [done|].
  rewrite (span_number_local _ q _ _ Ht Hr). by rewrite Hx.
Qed.

(** What begins with a brace is an object. *)
Lemma parse_brace f s v r : parse_value f (123 :: s) = Some (v, r) → is_number v = false.
Proof.
  destruct f as [|f]; [done|]. cbn. destruct (skip_ws s) as [|d s2]; [done|]. destruct (d =? 125); [by intros [= <- _]|].
  by intros ([kvs r'] & _ & [= <- _])%bind_Some.
Qed.

Lemma torn_object_unparsable props p q :
  json_ok (JsonObject props) = true → json_text (JsonObject props) = p ++ q → q ≠ [] → json_parse p = None.
Proof.
  intros Hok Htext Hq. unfold json_parse. destruct (parse_value (S (length p)) p) as [[v rest]|] eqn:Hp; [|done].
  destruct (skip_ws rest) eqn:Hrest; [|done]. exfalso.
  destruct p as [|c p]; [done|].
  assert (c = 123) as -> by (by change (json_text (JsonObject props)) with
    (123 :: join 44 (member_text <$> props) ++ [125]) in Htext; injection Htext).
  pose proof (parse_brace _ _ _ _ Hp) as Hv.
  assert (S (length ((123 : Z) :: p)) ≤ S (length (json_text (JsonObject props))))%nat as Hlen
    by (rewrite Htext; cbn; rewrite length_app; lia).
  pose proof (parse_value_local _ _ _ q _ _ Hlen Hp (or_introl Hv)) as Hlocal.
  pose proof (parse_value_text (JsonObject props) (S (length (json_text (JsonObject props)))) [] Hok ltac:(lia)) as Hall.
  rewrite app_nil_r in Hall. rewrite <- Htext, Hall in Hlocal by done.
  injection Hlocal as _ Hend. symmetry in Hend. by apply app_nil in Hend as [_ ?].
Qed.

(** A text is one line. *)
Lemma number_char_printable c : number_char c = true → 32 ≤ c.
Proof.
  unfold number_char, is_digit, in_range. intros H. destruct (Z.leb_spec 32 c); [done|]. exfalso.
  rewrite !orb_true_iff, andb_true_iff, !Z.leb_le, !Z.eqb_eq in H. lia.
Qed.

Lemma join_forall (P : Z → Prop) sep parts : P sep → Forall (Forall P) parts → Forall P (join sep parts).
Proof.
  intros Hs Hall. induction Hall as [|a parts Ha Hall IH]; [constructor|]. destruct parts as [|b parts]; [done|].
  change (join sep (a :: b :: parts)) with (a ++ sep :: join sep (b :: parts)). apply Forall_app. split; [done|]. by constructor.
Qed.

Lemma json_text_printable v : json_ok v = true → Forall (λ c, 32 ≤ c) (json_text v).
Proof.
  induction v as [|[]|x|s|items IH|props IH] using json_ind'; intros Hok.
  - by apply (bool_decide_unpack _).
  - by apply (bool_decide_unpack _).
  - by apply (bool_decide_unpack _).
  - destruct (number_text_head x Hok) as (c & t & _ & _ & Hall). eapply Forall_impl; [exact Hall|]. apply number_char_printable.
  - cbn in Hok. apply bool_decide_eq_true in Hok. change (json_text (JsonString s)) with (quote s). unfold quote.
    constructor; [done|]. apply Forall_app. split; [by apply quote_units_no_control|by repeat constructor].
  - cbn [json_ok] in Hok. rewrite forallb_forall in Hok. setoid_rewrite <- list_elem_of_In in Hok.
    change (json_text (JsonArray items)) with (91 :: join 44 (json_text <$> items) ++ [93]).
    constructor; [done|]. apply Forall_app. split; [|by repeat constructor]. apply join_forall; [done|].
    rewrite Forall_fmap. rewrite Forall_forall in IH. apply Forall_forall. intros v Hv. apply IH; auto.
  - cbn [json_ok] in Hok. apply andb_true_iff in Hok as [_ Hok]. rewrite forallb_forall in Hok.
    setoid_rewrite <- list_elem_of_In in Hok.
    change (json_text (JsonObject props)) with (123 :: join 44 (member_text <$> props) ++ [125]).
    constructor; [done|]. apply Forall_app. split; [|by repeat constructor]. apply join_forall; [done|].
    rewrite Forall_fmap. rewrite Forall_forall in IH. apply Forall_forall. intros kv Hkv. cbn. unfold member_text.
    specialize (Hok kv Hkv). apply andb_true_iff in Hok as [Hs Hv]. apply bool_decide_eq_true in Hs.
    apply Forall_app. split; [|constructor; [done|by apply IH]]. unfold quote.
    constructor; [done|]. apply Forall_app. split; [by apply quote_units_no_control|by repeat constructor].
Qed.
