(* ===== verification/Messages.v ===== *)
(** * The harness's own messages and what a provider is sent of them

    [packages/agent/src/harness/messages.ts]. Timestamps are the numbers the
    harness stores (parsing a date string is not modelled). *)

From S2P Require Import Prelude JsNumber JsString SessionTypes.

Definition LF : jsstring := [10].

Definition COMPACTION_SUMMARY_PREFIX : jsstring :=
  js "The conversation history before this point was compacted into the following summary:"
  ++ LF ++ LF ++ js "<summary>" ++ LF.
Definition COMPACTION_SUMMARY_SUFFIX : jsstring := LF ++ js "</summary>".
Definition BRANCH_SUMMARY_PREFIX : jsstring :=
  js "The following is a summary of a branch that this conversation came back from:"
  ++ LF ++ LF ++ js "<summary>" ++ LF.
Definition BRANCH_SUMMARY_SUFFIX : jsstring := js "</summary>".

(** Truthiness of a string and of an optional flag. *)
Definition truthy (s : jsstring) : bool := match s with [] => false | _ => true end.
Definition flag (b : option bool) : bool := default false b.

Definition bashExecutionToText (msg : BashExecutionMessage) : jsstring :=
  js "Ran `" ++ command msg ++ js "`" ++ LF
  ++ (if truthy (output msg) then js "```" ++ LF ++ output msg ++ LF ++ js "```" else js "(no output)")
  ++ (if cancelled msg then LF ++ LF ++ js "(command cancelled)"
      else match exitCode msg with
           | Some code => if code =? 0 then [] else LF ++ LF ++ js "Command exited with code " ++ js_of_Z code
           | None => []
           end)
  ++ match fullOutputPath msg with
     | Some path =>
         if truncated msg && truthy path
         then LF ++ LF ++ js "[Output truncated. Full output: " ++ path ++ js "]" else []
     | None => []
     end.

Definition createBranchSummaryMessage (summary fromId : jsstring) (timestamp : Z) : BranchSummaryMessage :=
  MkBranchSummaryMessage summary fromId timestamp.
Definition createCompactionSummaryMessage (summary : jsstring) (tokensBefore timestamp : Z)
    : CompactionSummaryMessage :=
  MkCompactionSummaryMessage summary tokensBefore timestamp.
Definition createCustomMessage (customType : jsstring) (content : message_content) (display : bool)
    (details : option JsonValue) (timestamp : Z) : CustomMessage :=
  MkCustomMessage customType content display details timestamp.

(** [{ role: "user", content: [{ type: "text", text }], timestamp }]. *)
Definition user_text (t : jsstring) (timestamp : Z) : Message :=
  MUser (MkUserMessage (PartsContent [CText (MkText t None)]) timestamp).

Definition convert_message (m : AgentMessage) : option Message :=
  match m with
  | AgentBash b =>
      if flag (excludeFromContext b) then None else Some (user_text (bashExecutionToText b) (bash_timestamp b))
  | AgentCustom c =>
      Some (MUser (MkUserMessage
        (PartsContent match custom_content c with
                      | StringContent s => [CText (MkText s None)]
                      | PartsContent parts => parts
                      end) (custom_timestamp c)))
  | AgentBranchSummary b =>
      Some (user_text (BRANCH_SUMMARY_PREFIX ++ branch_summary b ++ BRANCH_SUMMARY_SUFFIX) (branch_timestamp b))
  | AgentCompactionSummary c =>
      Some (user_text (COMPACTION_SUMMARY_PREFIX ++ compaction_summary c ++ COMPACTION_SUMMARY_SUFFIX)
              (compaction_timestamp c))
  | AgentLlm m => Some m
  end.

Definition convertToLlm (messages : list AgentMessage) : list Message := omap convert_message messages.

(** ** Properties *)

Definition timestamp (m : AgentMessage) : Z :=
  match m with
  | AgentLlm (MUser u) => user_timestamp u
  | AgentLlm (MAssistant a) => assistant_timestamp a
  | AgentLlm (MToolResult t) => result_timestamp t
  | AgentBash b => bash_timestamp b
  | AgentCustom c => custom_timestamp c
  | AgentBranchSummary b => branch_timestamp b
  | AgentCompactionSummary c => compaction_timestamp c
  end.

(** The messages hidden from the model: shell executions the user excluded. *)
Definition hidden (m : AgentMessage) : bool :=
  match m with AgentBash b => flag (excludeFromContext b) | _ => false end.

(** Roles after conversion: the harness's own messages speak as the user. *)
Definition llm_role (m : AgentMessage) : role :=
  match message_role m with
  | role_assistant => role_assistant
  | role_toolResult => role_toolResult
  | _ => role_user
  end.

Lemma convert_message_hidden m : convert_message m = None ↔ hidden m = true.
Proof. destruct m as [| b | | |]; cbn; try done. by destruct (flag _). Qed.

Lemma convert_message_kept m c :
  convert_message m = Some c → timestamp (AgentLlm c) = timestamp m ∧ message_role (AgentLlm c) = llm_role m.
Proof.
  destruct m as [[]| b | | |]; cbn; try by intros [= <-]. destruct (flag _); [done|]. by intros [= <-].
Qed.

(** The provider is sent exactly the messages that are not hidden, in order,
    with their timestamps and roles (the harness's own messages as the user);
    messages already in provider form are sent unchanged, so converting twice is
    converting once. *)
Theorem convertToLlm_spec ms :
  timestamp ∘ AgentLlm <$> convertToLlm ms = timestamp <$> filter (λ m, hidden m = false) ms
  ∧ message_role ∘ AgentLlm <$> convertToLlm ms = llm_role <$> filter (λ m, hidden m = false) ms
  ∧ convertToLlm (AgentLlm <$> convertToLlm ms) = convertToLlm ms
  ∧ ∀ llm, convertToLlm (AgentLlm <$> llm) = llm.
Proof.
  assert (∀ llm, convertToLlm (AgentLlm <$> llm) = llm) as Hid.
  { intros llm. unfold convertToLlm. induction llm as [|m llm IH]; [done|]. cbn. f_equal. exact IH. }
  split_and!; [| |apply Hid|apply Hid]; unfold convertToLlm; induction ms as [|m ms IH]; try done;
    rewrite filter_cons; cbn [omap list_omap]; destruct (convert_message m) as [c|] eqn:Hc.
  1,3: destruct (convert_message_kept m c Hc) as [Ht Hr];
    assert (hidden m = false) as Hh by (destruct (hidden m) eqn:E; [apply convert_message_hidden in E; congruence|done]);
    rewrite decide_True by done; cbn [fmap list_fmap]; f_equal; done.
  all: apply convert_message_hidden in Hc; rewrite decide_False by congruence; done.
Qed.
