(* ===== verification/SessionContext.v ===== *)
(** * From a branch of entries to the context of a request

    [packages/agent/src/harness/session/context.ts]. *)

From S2P Require Import Prelude JsNumber JsString SessionTypes Messages.

Record ContextState := MkContextState {
  ctx_thinkingLevel : jsstring; ctx_model : option (jsstring * jsstring);
  ctx_activeToolNames : option (list jsstring) }.

#[export] Instance ContextState_eta : Eta ContextState := λ c,
  MkContextState (ctx_thinkingLevel c) (ctx_model c) (ctx_activeToolNames c).

Record SessionContext := MkContext { ctx_state : ContextState; ctx_messages : list AgentMessage }.

(** A projector is given the custom entry, its index and all context entries. *)
Abbreviation ContextEntryTransform := (list Entry → list Entry) (only parsing).
Abbreviation Projector := (Entry → Z → list Entry → option (list AgentMessage)) (only parsing).

Record ContextBuildOptions := MkBuildOptions {
  entryTransforms : list ContextEntryTransform; entryProjectors : jsstring → option Projector }.

Definition no_build_options : ContextBuildOptions := MkBuildOptions [] (λ _, None).

Definition derive_step (c : ContextState) (entry : Entry) : ContextState :=
  match entry_payload entry with
  | PThinkingLevel level => c <| ctx_thinkingLevel := level |>
  | PModelChange provider modelId => c <| ctx_model := Some (provider, modelId) |>
  | PMessage m _ =>
      match as_assistant m with
      | Some a => c <| ctx_model := Some (assistant_provider a, assistant_model a) |>
      | None => c
      end
  | PActiveTools names => c <| ctx_activeToolNames := Some names |>
  | _ => c
  end.

Definition initial_state : ContextState := MkContextState (js "off") None None.

Definition deriveSessionContextState (pathEntries : list Entry) : ContextState :=
  foldl derive_step initial_state pathEntries.

Definition is_compaction (e : Entry) : bool := bool_decide (entry_type e = et_compaction).

(** The backward scan for the last compaction: the entries from it on. *)
Fixpoint from_last_compaction (pathEntries : list Entry) : option (list Entry) :=
  match pathEntries with
  | [] => None
  | e :: rest =>
      match from_last_compaction rest with
      | Some found => Some found
      | None => if is_compaction e then Some (e :: rest) else None
      end
  end.

Definition defaultContextEntryTransform (pathEntries : list Entry) : list Entry :=
  default pathEntries (from_last_compaction pathEntries).

Definition buildContextEntries (pathEntries : list Entry) (options : ContextBuildOptions) : list Entry :=
  foldl (λ entries transform, transform entries) (defaultContextEntryTransform pathEntries)
    (entryTransforms options).

Definition is_deferred (m : AgentMessage) : bool :=
  match as_assistant m with Some a => bool_decide (stopReason a = sr_deferred) | None => false end.

Definition sessionEntryToContextMessages (entry : Entry) (index : Z) (entries : list Entry)
    (options : ContextBuildOptions) : list AgentMessage :=
  match entry_payload entry with
  | PMessage m _ => if is_deferred m then [] else [m]
  | PCompaction c =>
      AgentCompactionSummary (createCompactionSummaryMessage (comp_summary c) (tokensBefore c) (entry_timestamp entry))
      :: retainedTail c
  | PBranchSummary fromId summary _ _ =>
      if truthy summary
      then [AgentBranchSummary (createBranchSummaryMessage summary fromId (entry_timestamp entry))] else []
  | PCustom customType _ =>
      default [] (entryProjectors options customType ≫= λ project, project entry index entries)
  | _ => []
  end.

Definition buildSessionContext (pathEntries : list Entry) (options : ContextBuildOptions) : SessionContext :=
  let contextEntries := buildContextEntries pathEntries options in
  MkContext (deriveSessionContextState pathEntries)
    (concat (imap (λ i entry, sessionEntryToContextMessages entry (Z.of_nat i) contextEntries options)
               contextEntries)).

(** ** Lemmas *)

Lemma from_last_compaction_none l :
  from_last_compaction l = None ↔ Forall (λ e, is_compaction e = false) l.
Proof.
  induction l as [|e l IH]; cbn; [by split|]. rewrite Forall_cons.
  destruct (from_last_compaction l); [naive_solver|]. destruct (is_compaction e); naive_solver.
Qed.

Lemma from_last_compaction_app l k :
  from_last_compaction (l ++ k)
  = match from_last_compaction k with
    | Some f => Some f
    | None => (λ f, f ++ k) <$> from_last_compaction l
    end.
Proof.
  induction l as [|e l IH]; cbn; [by destruct (from_last_compaction k)|].
  rewrite IH. destruct (from_last_compaction k); [done|]. destruct (from_last_compaction l); [done|].
  cbn. by destruct (is_compaction e).
Qed.

Lemma transform_compaction pre c post :
  is_compaction c = true → Forall (λ e, is_compaction e = false) post →
  defaultContextEntryTransform (pre ++ c :: post) = c :: post.
Proof.
  intros Hc Hpost%from_last_compaction_none. unfold defaultContextEntryTransform.
  rewrite from_last_compaction_app. cbn. by rewrite Hpost, Hc.
Qed.

(** The last value a step sets. *)
Lemma foldl_last_wins {S A B} (step : S → A → S) (get : S → B) (sets : A → option B) s l :
  (∀ s a, get (step s a) = default (get s) (sets a)) →
  get (foldl step s l) = default (get s) (last (omap sets l)).
Proof.
  intros H. revert s. induction l as [|a l IH]; intros s; [done|]. cbn [foldl]. rewrite IH, H. cbn [omap list_omap].
  destruct (sets a) as [b|]; cbn [default from_option id]; [|done].
  change (list_omap _ _ sets l) with (omap sets l). destruct (omap sets l) as [|b' k]; [done|].
  by rewrite last_cons_cons; destruct (last (b' :: k)) eqn:E; [|apply last_None in E].
Qed.

Definition sets_thinking (e : Entry) : option jsstring :=
  match entry_payload e with PThinkingLevel l => Some l | _ => None end.
Definition sets_tools (e : Entry) : option (list jsstring) :=
  match entry_payload e with PActiveTools l => Some l | _ => None end.
Definition sets_model (e : Entry) : option (jsstring * jsstring) :=
  match entry_payload e with
  | PModelChange p m => Some (p, m)
  | PMessage m _ => (λ a, (assistant_provider a, assistant_model a)) <$> as_assistant m
  | _ => None
  end.

(** The configuration of a request is, setting by setting, the last value
    the path sets (the model also by the assistant messages it produced), with
    thinking off, no model and no tool restriction to start from. *)
Theorem context_last_setting_wins path :
  let c := deriveSessionContextState path in
  ctx_thinkingLevel c = default (js "off") (last (omap sets_thinking path))
  ∧ ctx_model c = last (omap sets_model path)
  ∧ ctx_activeToolNames c = last (omap sets_tools path).
Proof.
  cbn zeta. unfold deriveSessionContextState. split_and!.
  - rewrite (foldl_last_wins _ ctx_thinkingLevel sets_thinking); [done|]. intros s e. unfold derive_step, sets_thinking.
    destruct (entry_payload e); try done. by destruct (as_assistant _).
  - rewrite (foldl_last_wins _ ctx_model (λ e, Some <$> sets_model e)).
    + induction path as [|e path IH] using rev_ind; [done|]. rewrite !omap_app. cbn.
      destruct (sets_model e); cbn; [by rewrite !last_snoc|]. by rewrite !app_nil_r.
    + intros s e. unfold derive_step, sets_model. destruct (entry_payload e); try done.
      by destruct (as_assistant _).
  - rewrite (foldl_last_wins _ ctx_activeToolNames (λ e, Some <$> sets_tools e)).
    + induction path as [|e path IH] using rev_ind; [done|]. rewrite !omap_app. cbn.
      destruct (sets_tools e); cbn; [by rewrite !last_snoc|]. by rewrite !app_nil_r.
    + intros s e. unfold derive_step, sets_tools. destruct (entry_payload e); try done.
      by destruct (as_assistant _).
Qed.

(** The messages of a request see nothing from before the last compaction
    entry: they start with its summary and its retained tail, and go on with the
    entries after it, whatever transforms and projectors are configured for the
    rest; a deferred assistant message is never sent. *)
Theorem context_starts_at_compaction pre c p post options :
  entry_payload c = PCompaction p →
  Forall (λ e, is_compaction e = false) post →
  ctx_messages (buildSessionContext (pre ++ c :: post) options)
  = ctx_messages (buildSessionContext (c :: post) options)
  ∧ (entryTransforms options = [] → ∃ rest,
      ctx_messages (buildSessionContext (pre ++ c :: post) options)
      = AgentCompactionSummary (MkCompactionSummaryMessage (comp_summary p) (tokensBefore p) (entry_timestamp c))
        :: retainedTail p ++ rest
      ∧ ((∀ t, entryProjectors options t = None) → Forall (λ m, is_deferred m = false) rest)).
Proof.
  intros Hp Hpost. assert (is_compaction c = true) as Hc.
  { unfold is_compaction, entry_type. by rewrite Hp. }
  pose proof (transform_compaction pre c post Hc Hpost) as H1.
  pose proof (transform_compaction [] c post Hc Hpost) as H2. cbn [app] in H2.
  unfold buildSessionContext, buildContextEntries. cbn [ctx_messages]. rewrite H1, H2.
  split; [done|]. intros Ht. rewrite Ht. cbn [foldl imap concat].
  unfold sessionEntryToContextMessages at 1. rewrite Hp. eexists. split; [reflexivity|].
  intros Hproj. apply Forall_concat, Forall_lookup. intros i ms.
  rewrite list_lookup_imap, fmap_Some. intros (e & He & ->).
  rewrite Forall_lookup in Hpost. specialize (Hpost i e He). revert Hpost.
  unfold is_compaction, entry_type, sessionEntryToContextMessages. cbn.
  destruct (entry_payload e) as [m ?| | | |pc|? summary| t ?]; cbn; intros Hno; try by constructor.
  - destruct (is_deferred m) eqn:E; [by constructor|]. by apply Forall_singleton.
  - destruct (truthy summary); [|by constructor]. by apply Forall_singleton.
  - rewrite Hproj. by constructor.
Qed.

(** Witness: a model change, a compaction and a message after it. *)
Definition demo_user (t : Z) : AgentMessage := AgentLlm (MUser (MkUserMessage (StringContent (js "hi")) t)).
Definition demo_compaction : CompactionPayload := MkCompaction (js "sum") [demo_user 5] 100 None None.

Lemma context_starts_at_compaction_witness :
  let pre := [MkEntry (js "a") 1 None 10 (PMessage (demo_user 1) false)] in
  let c := MkEntry (js "b") 2 (Some (js "a")) 20 (PCompaction demo_compaction) in
  let post := [MkEntry (js "c") 3 (Some (js "b")) 30 (PMessage (demo_user 3) false)] in
  ctx_messages (buildSessionContext (pre ++ c :: post) no_build_options)
  = ctx_messages (buildSessionContext (c :: post) no_build_options)
  ∧ (entryTransforms no_build_options = [] → ∃ rest,
      ctx_messages (buildSessionContext (pre ++ c :: post) no_build_options)
      = AgentCompactionSummary (MkCompactionSummaryMessage (js "sum") 100 20)
        :: [demo_user 5] ++ rest
      ∧ ((∀ t, entryProjectors no_build_options t = None) → Forall (λ m, is_deferred m = false) rest)).
Proof.
  intros pre c post.
  apply (context_starts_at_compaction pre c demo_compaction post no_build_options); [done|].
  by apply Forall_singleton.
Defined.
