(* ===== verification/Retry.v ===== *)
(** * Retrying a call to a provider

    [packages/ai/src/utils/retry.ts]: which failed responses are worth another call,
    and the loop that makes the calls with an exponential delay between them.  The
    call itself, the timer and the callbacks are operations on the caller's world. *)

From S2P Require Import Prelude JsString SessionTypes.

(** ** Patterns

    The source joins alternatives of literal characters, [x?] and [.?] with [|] and
    the flag [i].  A pattern is read from the text it has in the source. *)

Inductive pattern_item := Once (c : Z) | Optional (c : Z) | OptionalAny.

Fixpoint pattern_of (s : jsstring) : list pattern_item :=
  match s with
  | c :: (63 :: s'') => (if c =? 46 then OptionalAny else Optional c) :: pattern_of s''
  | c :: s' => Once c :: pattern_of s'
  | [] => []
  end.

(** Case folding of the flag [i] on ASCII; no other unit folds to an ASCII one. *)
Definition fold_case (c : Z) : Z := if in_range 97 122 c then c - 32 else c.
Definition same_letter (c d : Z) : bool := fold_case c =? fold_case d.
(** What [.] does not match. *)
Definition is_line_terminator (c : Z) : bool := (c =? 10) || (c =? 13) || (c =? 8232) || (c =? 8233).

Fixpoint match_here (p : list pattern_item) (s : jsstring) : bool :=
  match p with
  | [] => true
  | Once c :: p => match s with d :: s' => same_letter c d && match_here p s' | [] => false end
  | Optional c :: p => match s with d :: s' => same_letter c d && match_here p s' | [] => false end || match_here p s
  | OptionalAny :: p =>
      match s with d :: s' => negb (is_line_terminator d) && match_here p s' | [] => false end || match_here p s
  end.

Fixpoint match_anywhere (p : list pattern_item) (s : jsstring) : bool :=
  match_here p s || match s with [] => false | _ :: s' => match_anywhere p s' end.

(** [new RegExp(patterns.join("|"), "i").test(s)]. *)
Definition buildProviderErrorPattern (patterns : list string) (s : jsstring) : bool :=
  existsb (λ p, match_anywhere (pattern_of (js p)) s) patterns.

Definition NON_RETRYABLE_PROVIDER_LIMIT_ERROR_PATTERN : jsstring → bool :=
  buildProviderErrorPattern
    ["GoUsageLimitError"; "FreeUsageLimitError"; "Monthly usage limit reached"; "available balance";
     "insufficient_quota"; "out of budget"; "quota exceeded"; "billing"].

Definition RETRYABLE_PROVIDER_ERROR_PATTERN : jsstring → bool :=
  buildProviderErrorPattern
    ["overloaded"; "rate.?limit"; "too many requests"; "429"; "500"; "502"; "503"; "504"; "524";
     "service.?unavailable"; "server.?error"; "internal.?error"; "provider.?returned.?error";
     "exceeded request buffer limit while retrying upstream"; "network.?error"; "connection.?error";
     "connection.?refused"; "connection.?lost"; "other side closed"; "fetch failed"; "getaddrinfo"; "ENOTFOUND";
     "EAI_AGAIN"; "upstream.?connect"; "reset before headers"; "socket hang up"; "socket connection was closed";
     "timed? out"; "timeout"; "terminated"; "websocket.?closed"; "websocket.?error"; "ended without";
     "stream ended before message_stop"; "stream ended before a terminal response event";
     "http2 request did not get a response"; "retry delay"; "you can retry your request"; "try your request again";
     "please retry your request"; "ResourceExhausted"].

Definition isRetryableAssistantError (message : AssistantMessage) : bool :=
  if negb (bool_decide (stopReason message = sr_error)) then false
  else
    match errorMessage message with
    | None | Some [] => false
    | Some e => if NON_RETRYABLE_PROVIDER_LIMIT_ERROR_PATTERN e then false else RETRYABLE_PROVIDER_ERROR_PATTERN e
    end.

(** ** The loop *)

Record RetryPolicy := MkRetryPolicy { retry_enabled : bool; maxRetries : Z; baseDelayMs : Z }.

#[export] Instance AssistantMessage_eta : Eta AssistantMessage := λ m,
  MkAssistantMessage (assistant_content m) (assistant_api m) (assistant_provider m) (assistant_model m)
    (responseModel m) (responseId m) (diagnostics m) (assistant_usage m) (stopReason m) (deferred m)
    (errorMessage m) (rawStopReason m) (endTurn m) (assistant_timestamp m).

Section Retry.
Context {W : Type}.

(** Callbacks that are not given do nothing. *)
Record RetryCallbacks := MkRetryCallbacks {
  onRetryScheduled : Z → Z → Z → jsstring → W → W;
  onRetryAttemptStart : W → W;
  onRetryFinished : bool → Z → option jsstring → W → W }.

(** [produce], and the timer, which says whether the signal aborted it. *)
Context (produce : W → AssistantMessage * W) (sleep : Z → W → bool * W).
Context (policy : option RetryPolicy) (callbacks : RetryCallbacks).

Definition maxAttempts : Z :=
  match policy with Some p => if retry_enabled p then maxRetries p else 0 | None => 0 end.
Definition delayMs (attempt : Z) : Z := match policy with Some p => baseDelayMs p * 2 ^ (attempt - 1) | None => 0 end.

Definition error_or_unknown (e : option jsstring) : jsstring :=
  match e with None | Some [] => js "Unknown error" | Some e => e end.

Definition finished (lastRetry : option Z) (success : bool) (finalError : option jsstring) (w : W) : W :=
  match lastRetry with Some attempt => onRetryFinished callbacks success attempt finalError w | None => w end.

(** The [for (;;)] loop from an attempt on, with [remaining] the attempts left:
    [attempt >= maxAttempts] is [remaining = 0].  [lastRetry] is set exactly when an
    attempt was counted. *)
Fixpoint retry_loop (remaining : nat) (attempt : Z) (lastRetry : option Z) (w : W) : AssistantMessage * W :=
  let '(response, w) := produce w in
  if bool_decide (stopReason response = sr_aborted) then (response, finished lastRetry false None w)
  else if negb (bool_decide (stopReason response = sr_error)) then (response, finished lastRetry true None w)
  else
    match remaining, isRetryableAssistantError response with
    | O, _ | _, false => (response, finished lastRetry false (errorMessage response) w)
    | S remaining, true =>
        let attempt := attempt + 1 in
        let message := error_or_unknown (errorMessage response) in
        let w := onRetryScheduled callbacks attempt maxAttempts (delayMs attempt) message w in
        let '(interrupted, w) := sleep (delayMs attempt) w in
        if interrupted : bool then
          (response <| stopReason := sr_aborted |> <| errorMessage := None |>,
           onRetryFinished callbacks false attempt (Some message) w)
        else retry_loop remaining attempt (Some attempt) (onRetryAttemptStart callbacks w)
    end.

Definition retryAssistantCall (w : W) : AssistantMessage * W := retry_loop (Z.to_nat maxAttempts) 0 None w.

(** ** What it does *)

(** [retried n w]: the world after [n] retries, each after a failure worth retrying
    and an uninterrupted delay. *)
Inductive retried (w0 : W) : Z → W → Prop :=
| retried_none : retried w0 0 w0
| retried_again n w response w1 w2 :
    retried w0 n w → n < maxAttempts → produce w = (response, w1) → isRetryableAssistantError response = true →
    sleep (delayMs (n + 1))
      (onRetryScheduled callbacks (n + 1) maxAttempts (delayMs (n + 1)) (error_or_unknown (errorMessage response)) w1)
    = (false, w2) →
    retried w0 (n + 1) (onRetryAttemptStart callbacks w2).

Lemma retryable_error m : isRetryableAssistantError m = true → stopReason m = sr_error.
Proof. unfold isRetryableAssistantError. by case_bool_decide. Qed.

Lemma retry_loop_spec w0 remaining attempt w r w' :
  retried w0 attempt w → 0 ≤ attempt → remaining = Z.to_nat (maxAttempts - attempt) →
  retry_loop remaining attempt (if attempt =? 0 then None else Some attempt) w = (r, w') →
  ∃ n wn response w1,
    retried w0 n wn ∧ 0 ≤ n ∧ produce wn = (response, w1) ∧ (n ≤ maxAttempts ∨ n = 0)
    ∧ (r = response ∧ (isRetryableAssistantError response = true → maxAttempts ≤ n)
       ∨ stopReason r = sr_aborted ∧ isRetryableAssistantError response = true ∧ n < maxAttempts).
Proof.
  revert attempt w. induction remaining as [|k IH]; intros attempt w Hw Ha Hrem; cbn [retry_loop];
    destruct (produce w) as [response w1] eqn:Hp; intros H;
    assert (attempt ≤ maxAttempts ∨ attempt = 0) as Hle by (destruct Hw; lia);
    (case_bool_decide as Hab; [injection H as <- _; exists attempt, w, response, w1; split_and!; try done;
       left; split; [done|]; intros Hr%retryable_error; congruence|]);
    (case_bool_decide as Her; cbn [negb] in H;
       [|injection H as <- _; exists attempt, w, response, w1; split_and!; try done;
         left; split; [done|]; intros Hr%retryable_error; congruence]).
  - injection H as <- _. exists attempt, w, response, w1. split_and!; try done. left. split; [done|lia].
  - destruct (isRetryableAssistantError response) eqn:Hr.
    + destruct (sleep _ _) as [interrupted w2] eqn:Hs. destruct interrupted.
      * injection H as <- _. exists attempt, w, response, w1. split_and!; try done. right. split_and!; [done|done|lia].
      * apply (IH (attempt + 1) (onRetryAttemptStart callbacks w2)); [|lia|lia|].
        -- eapply retried_again; eauto; lia.
        -- by destruct (Z.eqb_spec (attempt + 1) 0); [lia|].
    + injection H as <- _. exists attempt, w, response, w1. split_and!; try done. left. split; [done|congruence].
Qed.

(** The call returns the response of its last attempt or, when the signal cuts a
    delay short, an aborted one; there are at most [maxAttempts] retries, each after
    a transient failure, and a transient failure is only returned when they are used
    up. *)
Lemma retryAssistantCall_spec w r w' :
  retryAssistantCall w = (r, w') →
  ∃ n wn response w1,
    retried w n wn ∧ 0 ≤ n ∧ produce wn = (response, w1) ∧ (n ≤ maxAttempts ∨ n = 0)
    ∧ (r = response ∧ (isRetryableAssistantError response = true → maxAttempts ≤ n)
       ∨ stopReason r = sr_aborted ∧ isRetryableAssistantError response = true ∧ n < maxAttempts).
Proof. apply retry_loop_spec; [constructor|lia|by rewrite Z.sub_0_r]. Qed.
End Retry.
Arguments RetryCallbacks : clear implicits.
