(* ===== verification/Overflow.v ===== *)
(** * Responses that say the context is full

    [packages/ai/src/utils/overflow.ts]: the patterns of the messages by which providers
    report a context that is too long, and the two tests made of a response. *)

From S2P Require Import Prelude JsString SessionTypes Retry.

(** ** Patterns

    The regular expressions of the source: characters of a class, repetitions of one
    class, optional parts and alternatives, all with the flag [i].  Only whether there is
    a match matters, so a match is a predicate of what follows it. *)

Inductive pattern :=
| Text (s : jsstring)
| Some_of (p : Z → bool)
| Many_of (p : Z → bool)
| Maybe (p : pattern)
| Either (p q : pattern)
| Then (p q : pattern).

Fixpoint repeated (p : Z → bool) (next : jsstring → bool) (s : jsstring) : bool :=
  next s || match s with c :: s' => p c && repeated p next s' | [] => false end.

Fixpoint text_here (t : jsstring) (next : jsstring → bool) (s : jsstring) : bool :=
  match t with
  | [] => next s
  | c :: t => match s with d :: s' => same_letter c d && text_here t next s' | [] => false end
  end.

Fixpoint pattern_here (p : pattern) (next : jsstring → bool) (s : jsstring) : bool :=
  match p with
  | Text t => text_here t next s
  | Some_of p => match s with c :: s' => p c && next s' | [] => false end
  | Many_of p => repeated p next s
  | Maybe p => pattern_here p next s || next s
  | Either p q => pattern_here p next s || pattern_here q next s
  | Then p q => pattern_here p (pattern_here q next) s
  end.

(** A pattern of the source, which may begin with [^]. *)
Inductive regexp := Anywhere (p : pattern) | AtStart (p : pattern).

Fixpoint search (p : pattern) (s : jsstring) : bool :=
  pattern_here p (λ _, true) s || match s with [] => false | _ :: s' => search p s' end.
Definition matches (r : regexp) (s : jsstring) : bool :=
  match r with Anywhere p => search p s | AtStart p => pattern_here p (λ _, true) s end.

Definition lit (s : string) : pattern := Text (js s).
Definition cat (ps : list pattern) : pattern := foldr Then (Text []) ps.
Definition is_digit (c : Z) : bool := in_range 48 57 c.
Definition digit_or_comma (c : Z) : bool := is_digit c || (c =? 44).
(** [\d+] and [[\d,]+]. *)
Definition digits : pattern := Then (Some_of is_digit) (Many_of is_digit).
Definition grouped_digits : pattern := Then (Some_of digit_or_comma) (Many_of digit_or_comma).
Definition blanks : pattern := Many_of is_space.
Definition maybe (s : string) : pattern := Maybe (lit s).

Definition OVERFLOW_PATTERNS : list regexp :=
  [Anywhere (lit "prompt is too long"); Anywhere (lit "request_too_large");
   Anywhere (lit "input is too long for requested model"); Anywhere (lit "exceeds the context window");
   Anywhere (cat [lit "exceeds "; maybe "the "; Maybe (cat [lit "model"; maybe "'"; lit "s "]);
                  lit "maximum context length";
                  Either (cat [lit " of "; grouped_digits; lit " token"; maybe "s"])
                         (cat [blanks; lit "("; grouped_digits; lit ")"])]);
   Anywhere (cat [lit "input token count"; Many_of (λ c, negb (is_line_terminator c)); lit "exceeds the maximum"]);
   Anywhere (cat [lit "maximum prompt length is "; digits]); Anywhere (lit "reduce the length of the messages");
   Anywhere (cat [lit "maximum context length is "; digits; lit " tokens"]);
   Anywhere (cat [lit "exceeds "; maybe "the "; lit "maximum allowed input length of "; grouped_digits; lit " token"; maybe "s"]);
   Anywhere (cat [lit "input ("; digits; lit " tokens) is longer than the model"; maybe "'"; lit "s context length (";
                  digits; lit " tokens)"]);
   Anywhere (cat [lit "exceeds the limit of "; digits]); Anywhere (lit "exceeds the available context size");
   Anywhere (lit "greater than the context length"); Anywhere (lit "context window exceeds limit");
   Anywhere (lit "exceeded model token limit");
   Anywhere (cat [lit "too large for model with "; digits; lit " maximum context length"]);
   Anywhere (cat [lit "prompt has "; grouped_digits; lit " token"; maybe "s"; lit ", but the configured context size is ";
                  grouped_digits; lit " token"; maybe "s"]);
   Anywhere (lit "model_context_window_exceeded");
   Anywhere (cat [lit "prompt too long; exceeded "; maybe "max "; lit "context length"]);
   Anywhere (lit "range of input length should be");
   Anywhere (cat [lit "context"; Some_of (λ c, (c =? 95) || (c =? 32)); lit "length";
                  Some_of (λ c, (c =? 95) || (c =? 32)); lit "exceeded"]);
   Anywhere (lit "too many tokens"); Anywhere (lit "token limit exceeded");
   AtStart (cat [lit "4"; Either (lit "00") (lit "13"); blanks; maybe "status code"; blanks; lit "(no body)"])].

Definition NON_OVERFLOW_PATTERNS : list regexp :=
  [AtStart (cat [Either (lit "Throttling error") (lit "Service unavailable"); lit ":"]);
   Anywhere (lit "rate limit"); Anywhere (lit "too many requests")].

(** ** The tests *)

Definition inputTokens (message : AssistantMessage) : Z :=
  usage_input (assistant_usage message) + cacheRead (assistant_usage message).

(** [contextWindow * 0.99] is compared with an integer: for windows below 2^46 the
    rounding of the product does not reach the next one. *)
Definition isContextOverflow (message : AssistantMessage) (contextWindow : Z) : bool :=
  (bool_decide (stopReason message = sr_error) &&
   match errorMessage message with
   | None | Some [] => false
   | Some e => negb (existsb (λ p, matches p e) NON_OVERFLOW_PATTERNS) && existsb (λ p, matches p e) OVERFLOW_PATTERNS
   end)
  || (negb (contextWindow =? 0) && bool_decide (stopReason message = sr_stop) && (contextWindow <? inputTokens message))
  || (negb (contextWindow =? 0) && bool_decide (stopReason message = sr_length)
      && (usage_output (assistant_usage message) =? 0) && (99 * contextWindow <=? 100 * inputTokens message)).

Definition isRecoverableLength (message : AssistantMessage) (desiredMaxOutput : Z) : bool :=
  bool_decide (stopReason message = sr_length) && (0 <? desiredMaxOutput)
  && (usage_output (assistant_usage message) <? desiredMaxOutput).

(** The stop reasons a response that overflows, or is cut short, has. *)
Lemma isContextOverflow_reason message window :
  isContextOverflow message window = true →
  stopReason message = sr_error ∨ stopReason message = sr_stop ∨ stopReason message = sr_length.
Proof. unfold isContextOverflow. destruct (stopReason message); simpl; rewrite ?andb_false_r; auto; done. Qed.

Lemma isRecoverableLength_reason message limit : isRecoverableLength message limit = true → stopReason message = sr_length.
Proof. unfold isRecoverableLength. by destruct (stopReason message). Qed.

Example overflow_texts :
  (λ t, existsb (λ p, matches p (js t)) OVERFLOW_PATTERNS) <$>
  ["prompt is too long: 213462 tokens > 200000 maximum"; "Requested token count exceeds the model's maximum context length of 131,072 tokens";
   "exceeds model's maximum context length (262144)."; "The input token count (1196265) exceeds the maximum number of tokens allowed";
   "400 status code (no body)"; "413(no body)"; "exceeds the maximum context length"; "status 400 (no body)"]
  = [true; true; true; true; true; true; false; false].
Proof. vm_compute. reflexivity. Qed.
