(* ===== verification/Prompts.v ===== *)
(** * What the summaries are asked for

    The prompts of [packages/agent/src/harness/compaction/compaction.ts] and
    [branch-summarization.ts], line by line. *)

From S2P Require Import Prelude JsString.

(** The double quote, and lines joined by newlines. *)
Definition DQ : jsstring := [34].
Definition lines (ls : list jsstring) : jsstring := join 10 ls.

Definition SUMMARIZATION_SYSTEM_PROMPT : jsstring :=
  lines [
    js "You are a context summarization assistant. Your task is to read a conversation between a user and an AI assistant, then produce a structured summary following the exact format specified.";
    [];
    js "Do NOT continue the conversation. Do NOT respond to any questions in the conversation. ONLY output the structured summary."].

Definition SUMMARIZATION_PROMPT : jsstring :=
  lines [
    js "The messages above are a conversation to summarize. Create a structured context checkpoint summary that another LLM will use to continue the work.";
    [];
    js "Use this EXACT format:";
    [];
    js "## Goal";
    js "[What is the user trying to accomplish? Can be multiple items if the session covers different tasks.]";
    [];
    js "## Constraints & Preferences";
    js "- [Any constraints, preferences, or requirements mentioned by user]";
    js "- [Or " ++ DQ ++ js "(none)" ++ DQ ++ js " if none were mentioned]";
    [];
    js "## Progress";
    js "### Done";
    js "- [x] [Completed tasks/changes]";
    [];
    js "### In Progress";
    js "- [ ] [Current work]";
    [];
    js "### Blocked";
    js "- [Issues preventing progress, if any]";
    [];
    js "## Key Decisions";
    js "- **[Decision]**: [Brief rationale]";
    [];
    js "## Next Steps";
    js "1. [Ordered list of what should happen next]";
    [];
    js "## Critical Context";
    js "- [Any data, examples, or references needed to continue]";
    js "- [Or " ++ DQ ++ js "(none)" ++ DQ ++ js " if not applicable]";
    [];
    js "Keep each section concise. Preserve exact file paths, function names, and error messages."].

Definition UPDATE_SUMMARIZATION_PROMPT : jsstring :=
  lines [
    js "The messages above are NEW conversation messages to incorporate into the existing summary provided in <previous-summary> tags.";
    [];
    js "Update the existing structured summary with new information. RULES:";
    js "- PRESERVE all existing information from the previous summary";
    js "- ADD new progress, decisions, and context from the new messages";
    js "- UPDATE the Progress section: move items from " ++ DQ ++ js "In Progress" ++ DQ ++ js " to " ++ DQ ++ js "Done" ++ DQ ++ js " when completed";
    js "- UPDATE " ++ DQ ++ js "Next Steps" ++ DQ ++ js " based on what was accomplished";
    js "- PRESERVE exact file paths, function names, and error messages";
    js "- If something is no longer relevant, you may remove it";
    [];
    js "Use this EXACT format:";
    [];
    js "## Goal";
    js "[Preserve existing goals, add new ones if the task expanded]";
    [];
    js "## Constraints & Preferences";
    js "- [Preserve existing, add new ones discovered]";
    [];
    js "## Progress";
    js "### Done";
    js "- [x] [Include previously done items AND newly completed items]";
    [];
    js "### In Progress";
    js "- [ ] [Current work - update based on progress]";
    [];
    js "### Blocked";
    js "- [Current blockers - remove if resolved]";
    [];
    js "## Key Decisions";
    js "- **[Decision]**: [Brief rationale] (preserve all previous, add new)";
    [];
    js "## Next Steps";
    js "1. [Update based on current state]";
    [];
    js "## Critical Context";
    js "- [Preserve important context, add new if needed]";
    [];
    js "Keep each section concise. Preserve exact file paths, function names, and error messages."].

Definition TURN_PREFIX_SUMMARIZATION_PROMPT : jsstring :=
  lines [
    js "This is the PREFIX of a turn that was too large to keep. The SUFFIX (recent work) is retained.";
    [];
    js "Summarize the prefix to provide context for the retained suffix:";
    [];
    js "## Original Request";
    js "[What did the user ask for in this turn?]";
    [];
    js "## Early Progress";
    js "- [Key decisions and work done in the prefix]";
    [];
    js "## Context for Suffix";
    js "- [Information needed to understand the retained recent work]";
    [];
    js "Be concise. Focus on what's needed to understand the kept suffix."].

Definition BRANCH_SUMMARY_PREAMBLE : jsstring :=
  lines [
    js "The user explored a different conversation branch before returning here.";
    js "Summary of that exploration:";
    [];
    []].

Definition BRANCH_SUMMARY_PROMPT : jsstring :=
  lines [
    js "Create a structured summary of this conversation branch for context when returning later.";
    [];
    js "Use this EXACT format:";
    [];
    js "## Goal";
    js "[What was the user trying to accomplish in this branch?]";
    [];
    js "## Constraints & Preferences";
    js "- [Any constraints, preferences, or requirements mentioned]";
    js "- [Or " ++ DQ ++ js "(none)" ++ DQ ++ js " if none were mentioned]";
    [];
    js "## Progress";
    js "### Done";
    js "- [x] [Completed tasks/changes]";
    [];
    js "### In Progress";
    js "- [ ] [Work that was started but not finished]";
    [];
    js "### Blocked";
    js "- [Issues preventing progress, if any]";
    [];
    js "## Key Decisions";
    js "- **[Decision]**: [Brief rationale]";
    [];
    js "## Next Steps";
    js "1. [What should happen next to continue this work]";
    [];
    js "Keep each section concise. Preserve exact file paths, function names, and error messages."].
