(* ===== verification/Compaction.v ===== *)
(** * Compaction of a session and summaries of branches

    [packages/agent/src/harness/compaction]: [utils.ts] (the files a conversation
    touched, and its text), [compaction.ts] (estimates, the cut point, the request for
    the summary) and [branch-summarization.ts].  The model that writes the summaries,
    the clock and the identifiers are operations on the caller's world. *)

From S2P Require Import Prelude JsNumber JsString JsMap SessionTypes JsonText Messages SessionContext Retry Prompts.

(** ** Text *)

(** [parts.join(separator)]. *)
Fixpoint join_text (sep : jsstring) (parts : list jsstring) : jsstring :=
  match parts with
  | [] => []
  | [p] => p
  | p :: parts => p ++ sep ++ join_text sep parts
  end.

Definition part_text (c : content_part) : option jsstring := match c with CText t => Some (text t) | CImage _ => None end.
Definition assistant_text (c : assistant_part) : option jsstring := match c with AText t => Some (text t) | _ => None end.

(** [contentText(content, separator)], by the kind of content. *)
Definition contentText (content : message_content) (separator : jsstring) : jsstring :=
  match content with StringContent s => s | PartsContent parts => join_text separator (omap part_text parts) end.
Definition assistantContentText (content : list assistant_part) : jsstring := join_text LF (omap assistant_text content).

(** A JSON tree always has a text. *)
Definition safeJsonStringify (value : JsonValue) : jsstring := json_text value.

(** ** Files touched by a conversation *)

(** A [Set] of strings in insertion order. *)
Definition set_add (l : list jsstring) (f : jsstring) : list jsstring := if bool_decide (f ∈ l) then l else l ++ [f].
Definition set_adds (l fs : list jsstring) : list jsstring := foldl set_add l fs.

Record FileOperations := MkFileOps { fo_read : list jsstring; fo_written : list jsstring; fo_edited : list jsstring }.

#[export] Instance FileOperations_eta : Eta FileOperations := λ f, MkFileOps (fo_read f) (fo_written f) (fo_edited f).

Definition createFileOps : FileOperations := MkFileOps [] [] [].

(** [args.path] when it is a string that is not empty. *)
Definition path_argument (args : JsonValue) : option jsstring :=
  match args with
  | JsonObject props =>
      match map_get props (js "path") with
      | Some (JsonString (c :: p)) => Some (c :: p)
      | _ => None
      end
  | _ => None
  end.

Definition add_call (fileOps : FileOperations) (block : assistant_part) : FileOperations :=
  match block with
  | AToolCall c =>
      match path_argument (call_arguments c) with
      | None => fileOps
      | Some path =>
          if bool_decide (call_name c = js "read") then fileOps <| fo_read := set_add (fo_read fileOps) path |>
          else if bool_decide (call_name c = js "write") then fileOps <| fo_written := set_add (fo_written fileOps) path |>
          else if bool_decide (call_name c = js "edit") then fileOps <| fo_edited := set_add (fo_edited fileOps) path |>
          else fileOps
      end
  | _ => fileOps
  end.

Definition extractFileOpsFromMessage (fileOps : FileOperations) (message : AgentMessage) : FileOperations :=
  match as_assistant message with
  | Some a => foldl add_call fileOps (assistant_content a)
  | None => fileOps
  end.

(** The order of [sort()]: by code units. *)
Fixpoint text_leb (s t : jsstring) : bool :=
  match s, t with
  | [], _ => true
  | _, [] => false
  | c :: s, d :: t => (c <? d) || ((c =? d) && text_leb s t)
  end.
Fixpoint insert_text (s : jsstring) (l : list jsstring) : list jsstring :=
  match l with
  | [] => [s]
  | t :: l' => if text_leb s t then s :: l else t :: insert_text s l'
  end.
Definition sort_texts (l : list jsstring) : list jsstring := foldr insert_text [] l.

Definition computeFileLists (fileOps : FileOperations) : list jsstring * list jsstring :=
  let modified := set_adds [] (fo_edited fileOps ++ fo_written fileOps) in
  (sort_texts (filter (λ f, f ∉ modified) (fo_read fileOps)), sort_texts modified).

Definition formatFileOperations (readFiles modifiedFiles : list jsstring) : jsstring :=
  let sections :=
    (match readFiles with [] => [] | _ => [js "<read-files>" ++ LF ++ join 10 readFiles ++ LF ++ js "</read-files>"] end)
    ++ (match modifiedFiles with
        | [] => []
        | _ => [js "<modified-files>" ++ LF ++ join 10 modifiedFiles ++ LF ++ js "</modified-files>"]
        end) in
  match sections with [] => [] | _ => LF ++ LF ++ join_text (LF ++ LF) sections end.

(** ** The text of a conversation *)

Definition TOOL_RESULT_MAX_CHARS : Z := 2000.

Definition truncateForSummary (t : jsstring) (maxChars : Z) : jsstring :=
  if zlen t <=? maxChars then t
  else take (Z.to_nat maxChars) t ++ LF ++ LF ++ js "[... " ++ js_of_Z (zlen t - maxChars) ++ js " more characters truncated]".

(** [Object.entries] of the arguments, which are an object. *)
Definition call_text (c : ToolCall) : jsstring :=
  let props := match call_arguments c with JsonObject props => props | _ => [] end in
  call_name c ++ js "(" ++ join_text (js ", ") ((λ kv, kv.1 ++ js "=" ++ safeJsonStringify kv.2) <$> props) ++ js ")".

Definition conversation_parts (msg : Message) : list jsstring :=
  match msg with
  | MUser u =>
      match contentText (user_content u) [] with [] => [] | content => [js "[User]: " ++ content] end
  | MAssistant a =>
      let thinkingParts := omap (λ b, match b with AThinking t => Some (thinking t) | _ => None end) (assistant_content a) in
      let toolCalls := call_text <$> tool_calls a in
      (match thinkingParts with [] => [] | _ => [js "[Assistant thinking]: " ++ join 10 thinkingParts] end)
      ++ (if existsb (λ b, match b with AText _ => true | _ => false end) (assistant_content a)
          then [js "[Assistant]: " ++ assistantContentText (assistant_content a)] else [])
      ++ (match toolCalls with [] => [] | _ => [js "[Assistant tool calls]: " ++ join_text (js "; ") toolCalls] end)
  | MToolResult t =>
      match contentText (PartsContent (result_content t)) [] with
      | [] => []
      | content => [js "[Tool result]: " ++ truncateForSummary content TOOL_RESULT_MAX_CHARS]
      end
  end.

Definition serializeConversation (messages : list Message) : jsstring :=
  join_text (LF ++ LF) (concat (conversation_parts <$> messages)).

(** ** Estimates *)

Record CompactionSettings := MkCompactionSettings { enabled : bool; reserveTokens : Z; keepRecentTokens : Z }.
Definition DEFAULT_COMPACTION_SETTINGS : CompactionSettings := MkCompactionSettings true 16384 20000.

Definition calculateContextTokens (usage : Usage) : Z :=
  if totalTokens usage =? 0 then usage_input usage + usage_output usage + cacheRead usage + cacheWrite usage
  else totalTokens usage.

Definition getAssistantUsage (msg : AgentMessage) : option Usage :=
  a ← as_assistant msg;
  if bool_decide (stopReason a ≠ sr_aborted) && bool_decide (stopReason a ≠ sr_error)
     && (0 <? calculateContextTokens (assistant_usage a))
  then Some (assistant_usage a) else None.

(** The backward scan for the last message with a usage: the usage, its index and
    what follows it. *)
Fixpoint last_usage (i : nat) (messages : list AgentMessage) : option (Usage * nat * list AgentMessage) :=
  match messages with
  | [] => None
  | m :: rest =>
      match last_usage (S i) rest with
      | Some found => Some found
      | None => usage ← getAssistantUsage m; Some (usage, i, rest)
      end
  end.
Definition getLastAssistantUsage (entries : list Entry) : option Usage :=
  (λ found, found.1.1) <$> last_usage 0 (omap entry_message entries).

Definition ESTIMATED_IMAGE_CHARS : Z := 4800.

Definition part_chars (c : content_part) : Z :=
  match c with CText t => zlen (text t) | CImage _ => ESTIMATED_IMAGE_CHARS end.
Definition estimateTextAndImageContentChars (content : message_content) : Z :=
  match content with
  | StringContent s => zlen s
  | PartsContent parts => foldl (λ chars c, chars + part_chars c) 0 parts
  end.

Definition assistant_part_chars (c : assistant_part) : Z :=
  match c with
  | AText t => zlen (text t)
  | AThinking t => zlen (thinking t)
  | AToolCall c => zlen (call_name c) + zlen (safeJsonStringify (call_arguments c))
  end.

Definition message_chars (message : AgentMessage) : Z :=
  match message with
  | AgentLlm (MUser u) => estimateTextAndImageContentChars (user_content u)
  | AgentLlm (MAssistant a) => foldl (λ chars c, chars + assistant_part_chars c) 0 (assistant_content a)
  | AgentCustom c => estimateTextAndImageContentChars (custom_content c)
  | AgentLlm (MToolResult t) => estimateTextAndImageContentChars (PartsContent (result_content t))
  | AgentBash b => zlen (command b) + zlen (output b)
  | AgentBranchSummary b => zlen (branch_summary b)
  | AgentCompactionSummary c => zlen (compaction_summary c)
  end.

(** [Math.ceil(chars / 4)]. *)
Definition estimateTokens (message : AgentMessage) : Z := (message_chars message + 3) / 4.

Definition sum_tokens (messages : list AgentMessage) : Z := foldl (λ n m, n + estimateTokens m) 0 messages.

Record ContextUsageEstimate := MkEstimate {
  tokens : Z; usageTokens : Z; trailingTokens : Z; lastUsageIndex : option nat }.

Definition estimateContextTokens (messages : list AgentMessage) : ContextUsageEstimate :=
  match last_usage 0 messages with
  | None => let estimated := sum_tokens messages in MkEstimate estimated 0 estimated None
  | Some (usage, index, after) =>
      let usageTokens := calculateContextTokens usage in
      let trailingTokens := sum_tokens after in
      MkEstimate (usageTokens + trailingTokens) usageTokens trailingTokens (Some index)
  end.

Definition shouldCompact (contextTokens contextWindow : Z) (settings : CompactionSettings) : bool :=
  if negb (enabled settings) then false else contextWindow - reserveTokens settings <? contextTokens.

(** ** The cut point

    Indices of entries between [startIndex] and [endIndex]; the caller's bounds lie
    within the entries. *)

Definition is_cut_entry (entry : Entry) : bool :=
  match entry_payload entry with
  | PMessage m _ => negb (bool_decide (message_role m = role_toolResult))
  | PBranchSummary _ _ _ _ => true
  | _ => false
  end.

(** The indices of the entries that satisfy a test, from the first one's on. *)
Fixpoint indices_where (p : Entry → bool) (i : nat) (entries : list Entry) : list nat :=
  match entries with
  | [] => []
  | e :: entries => if p e then i :: indices_where p (S i) entries else indices_where p (S i) entries
  end.

Definition findValidCutPoints (entries : list Entry) (startIndex endIndex : nat) : list nat :=
  indices_where is_cut_entry startIndex (take (endIndex - startIndex) (drop startIndex entries)).

Definition starts_turn (entry : Entry) : bool :=
  match entry_payload entry with
  | PBranchSummary _ _ _ _ => true
  | PMessage m _ => bool_decide (message_role m = role_user ∨ message_role m = role_bashExecution)
  | _ => false
  end.

(** The loop [for (let i = entryIndex; i >= startIndex; i--)]; [None] is -1. *)
Fixpoint findTurnStartIndex (entries : list Entry) (entryIndex startIndex : nat) : option nat :=
  if Nat.ltb entryIndex startIndex then None
  else if from_option starts_turn false (entries !! entryIndex) then Some entryIndex
  else match entryIndex with O => None | S i => findTurnStartIndex entries i startIndex end.

Record CutPointResult := MkCut { firstKeptEntryIndex : nat; turnStartIndex : option nat; isSplitTurn : bool }.

(** The loop over the entries from the last one back to the first, until the budget
    is reached: [n] entries of [entries] (from [startIndex] on) are left. *)
Fixpoint find_budget (entries : list Entry) (n : nat) (accumulatedTokens keep : Z) : option nat :=
  match n with
  | O => None
  | S i =>
      match entries !! i ≫= entry_message with
      | None => find_budget entries i accumulatedTokens keep
      | Some m =>
          let accumulatedTokens := accumulatedTokens + estimateTokens m in
          if keep <=? accumulatedTokens then Some i else find_budget entries i accumulatedTokens keep
      end
  end.

(** [while (cutIndex > startIndex)]: back over entries that are neither messages nor
    compactions. *)
Fixpoint move_back (entries : list Entry) (startIndex cutIndex : nat) : nat :=
  match cutIndex with
  | O => O
  | S prev =>
      if Nat.leb cutIndex startIndex then cutIndex
      else
        match entries !! prev with
        | Some e =>
            match entry_payload e with
            | PCompaction _ | PMessage _ _ => cutIndex
            | _ => move_back entries startIndex prev
            end
        | None => move_back entries startIndex prev
        end
  end.

Definition is_user_message (e : Entry) : bool :=
  match entry_payload e with PMessage m _ => bool_decide (message_role m = role_user) | _ => false end.

Definition findCutPoint (entries : list Entry) (startIndex endIndex : nat) (keep : Z) : CutPointResult :=
  match findValidCutPoints entries startIndex endIndex with
  | [] => MkCut startIndex None false
  | (first :: _) as cutPoints =>
      let cutIndex :=
        match find_budget (drop startIndex entries) (endIndex - startIndex) 0 keep with
        | None => first
        | Some i => default first (snd <$> list_find (λ c, startIndex + i ≤ c)%nat cutPoints)
        end in
      let cutIndex := move_back entries startIndex cutIndex in
      let isUserMessage := from_option is_user_message false (entries !! cutIndex) in
      let turnStart := if isUserMessage then None else findTurnStartIndex entries cutIndex startIndex in
      MkCut cutIndex turnStart (negb isUserMessage && bool_decide (is_Some turnStart))
  end.

(** ** Preparation *)

Definition getMessageFromEntryForCompaction (entry : Entry) : option AgentMessage :=
  match entry_payload entry with
  | PMessage m _ => Some m
  | PBranchSummary fromId summary _ _ =>
      Some (AgentBranchSummary (createBranchSummaryMessage summary fromId (entry_timestamp entry)))
  | _ => None
  end.

Record CompactionPreparation := MkPreparation {
  messagesToSummarize : list AgentMessage; turnPrefixMessages : list AgentMessage; prep_retainedTail : list AgentMessage;
  prep_isSplitTurn : bool; prep_tokensBefore : Z; previousSummary : option jsstring; fileOps : FileOperations;
  settings : CompactionSettings }.

(** The strings of an array property of stored details. *)
Definition detail_files (details : option JsonValue) (key : string) : list jsstring :=
  match details with
  | Some (JsonObject props) =>
      match map_get props (js key) with
      | Some (JsonArray items) => omap (λ v, match v with JsonString s => Some s | _ => None end) items
      | _ => []
      end
  | _ => []
  end.

Definition add_details (ops : FileOperations) (details : option JsonValue) : FileOperations :=
  let ops := ops <| fo_read := set_adds (fo_read ops) (detail_files details "readFiles") |> in
  ops <| fo_edited := set_adds (fo_edited ops) (detail_files details "modifiedFiles") |>.

Definition extractFileOperations (messages : list AgentMessage) (prevCompaction : option CompactionPayload)
    : FileOperations :=
  let ops := match prevCompaction with Some c => add_details createFileOps (comp_details c) | None => createFileOps end in
  foldl extractFileOpsFromMessage ops messages.

(** [`${id}:retained:${index}`]. *)
Definition retained_id (id : jsstring) (index : nat) : jsstring := id ++ js ":retained:" ++ js_of_Z (Z.of_nat index).

Definition virtual_entry (prevCompaction : Entry) (index : nat) (message : AgentMessage) : Entry :=
  MkEntry (retained_id (entry_id prevCompaction) index) (entry_seq prevCompaction)
    (Some (match index with O => entry_id prevCompaction | S i => retained_id (entry_id prevCompaction) i end))
    (timestamp message) (PMessage message false).

(** The last compaction of a path, and the entries that can be compacted: the tail
    it retained, as entries, and the entries after it. *)
Definition compactable_entries (pathEntries : list Entry) : option CompactionPayload * list Entry :=
  match from_last_compaction pathEntries with
  | Some (prev :: after) =>
      match entry_payload prev with
      | PCompaction c => (Some c, imap (virtual_entry prev) (retainedTail c) ++ after)
      | _ => (None, pathEntries)
      end
  | _ => (None, pathEntries)
  end.

Definition entry_messages (entries : list Entry) : list AgentMessage := omap getMessageFromEntryForCompaction entries.

(** [None] stands for [undefined]; no error is returned. *)
Definition prepareCompaction (pathEntries : list Entry) (settings : CompactionSettings) : option CompactionPreparation :=
  match last pathEntries with
  | None => None
  | Some e =>
      if is_compaction e then None
      else
        let '(prev, compactableEntries) := compactable_entries pathEntries in
        let boundaryEnd := length compactableEntries in
        let tokensBefore := tokens (estimateContextTokens (ctx_messages (buildSessionContext pathEntries no_build_options))) in
        let cutPoint := findCutPoint compactableEntries 0 boundaryEnd (keepRecentTokens settings) in
        let historyEnd :=
          match turnStartIndex cutPoint with
          | Some turnStart => if isSplitTurn cutPoint then turnStart else firstKeptEntryIndex cutPoint
          | None => firstKeptEntryIndex cutPoint
          end in
        let messagesToSummarize := entry_messages (take historyEnd compactableEntries) in
        let turnPrefixMessages :=
          if isSplitTurn cutPoint
          then entry_messages (take (firstKeptEntryIndex cutPoint - historyEnd) (drop historyEnd compactableEntries))
          else [] in
        let retainedTail := entry_messages (drop (firstKeptEntryIndex cutPoint) compactableEntries) in
        let fileOps := extractFileOperations messagesToSummarize prev in
        let fileOps := foldl extractFileOpsFromMessage fileOps turnPrefixMessages in
        Some (MkPreparation messagesToSummarize turnPrefixMessages retainedTail (isSplitTurn cutPoint) tokensBefore
                (comp_summary <$> prev) fileOps settings)
  end.

(** ** The summary *)

Record Model := MkModel { model_maxTokens : Z; model_reasoning : bool; model_contextWindow : Z }.

(** A request for a summary, and the options of the call. *)
Record CompletionRequest := MkCompletion {
  req_systemPrompt : jsstring; req_messages : list Message; req_maxTokens : Z; req_reasoning : option jsstring;
  req_sessionId : jsstring }.

Inductive summary_error := summary_aborted (message : jsstring) | summarization_failed (message : jsstring).

Definition combine_option (a b : option Z) : option Z :=
  match a, b with None, None => None | _, _ => Some (default 0 a + default 0 b) end.
Definition combineUsage (first second : Usage) : Usage :=
  MkUsage (usage_input first + usage_input second) (usage_output first + usage_output second)
    (cacheRead first + cacheRead second) (cacheWrite first + cacheWrite second)
    (combine_option (cacheWrite1h first) (cacheWrite1h second))
    (combine_option (usage_reasoning first) (usage_reasoning second))
    (totalTokens first + totalTokens second)
    (num_add (cost_input first) (cost_input second)) (num_add (cost_output first) (cost_output second))
    (num_add (cost_cacheRead first) (cost_cacheRead second)) (num_add (cost_cacheWrite first) (cost_cacheWrite second))
    (num_add (cost_total first) (cost_total second)).

Record CompactResult := MkCompactResult {
  res_summary : jsstring; res_tokensBefore : Z; res_usage : Usage; res_retainedTail : list AgentMessage;
  res_readFiles : list jsstring; res_modifiedFiles : list jsstring }.

Section Summaries.
Context {W : Type} (completeSimple : CompletionRequest → W → AssistantMessage * W).
Context (sleep : Z → W → bool * W) (uuidv7 : W → jsstring * W) (now : W → Z * W).
Context (retry : option RetryPolicy) (callbacks : RetryCallbacks W).

Definition completeSimpleWithRetries (request : jsstring → CompletionRequest) (w : W) : AssistantMessage * W :=
  let '(sessionId, w) := uuidv7 w in
  retryAssistantCall (completeSimple (request sessionId)) sleep retry callbacks w.

(** A call with one user message, and what its response stands for. *)
Definition request_summary (model : Model) (promptText : jsstring) (maxTokens : Z) (thinkingLevel : option jsstring)
    (aborted failed : jsstring) (w : W) : result summary_error (jsstring * Usage) * W :=
  let '(time, w) := now w in
  let reasoning :=
    match thinkingLevel with
    | Some level => if model_reasoning model && truthy level && bool_decide (level ≠ js "off") then Some level else None
    | None => None
    end in
  let '(response, w) :=
    completeSimpleWithRetries
      (MkCompletion SUMMARIZATION_SYSTEM_PROMPT [user_text promptText time] maxTokens reasoning) w in
  let message := match errorMessage response with Some (c :: m) => Some (c :: m) | _ => None end in
  (match stopReason response with
   | sr_aborted => Err (summary_aborted (default aborted message))
   | sr_error => Err (summarization_failed (failed ++ default (js "Unknown error") message))
   | _ => Ok (assistantContentText (assistant_content response), assistant_usage response)
   end, w).

(** [Math.min(share, model.maxTokens > 0 ? model.maxTokens : Infinity)]. *)
Definition token_limit (share : Z) (model : Model) : Z :=
  if 0 <? model_maxTokens model then Z.min share (model_maxTokens model) else share.

Definition conversation_prompt (messages : list AgentMessage) : jsstring :=
  js "<conversation>" ++ LF ++ serializeConversation (convertToLlm messages) ++ LF ++ js "</conversation>" ++ LF ++ LF.

Definition truthy_text (s : option jsstring) : option jsstring := match s with Some [] => None | _ => s end.

(** [Math.floor(0.8 * reserveTokens)] is a division of integers. *)
Definition generateSummaryWithUsage (currentMessages : list AgentMessage) (model : Model) (reserveTokens : Z)
    (customInstructions previousSummary thinkingLevel : option jsstring) (w : W)
    : result summary_error (jsstring * Usage) * W :=
  let maxTokens := token_limit (4 * reserveTokens / 5) model in
  let basePrompt := match truthy_text previousSummary with Some _ => UPDATE_SUMMARIZATION_PROMPT | None => SUMMARIZATION_PROMPT end in
  let basePrompt :=
    match truthy_text customInstructions with
    | Some c => basePrompt ++ LF ++ LF ++ js "Additional focus: " ++ c
    | None => basePrompt
    end in
  let previous :=
    match truthy_text previousSummary with
    | Some p => js "<previous-summary>" ++ LF ++ p ++ LF ++ js "</previous-summary>" ++ LF ++ LF
    | None => []
    end in
  request_summary model (conversation_prompt currentMessages ++ previous ++ basePrompt) maxTokens thinkingLevel
    (js "Summarization aborted") (js "Summarization failed: ") w.

Definition generateTurnPrefixSummary (messages : list AgentMessage) (model : Model) (reserveTokens : Z)
    (thinkingLevel : option jsstring) (w : W) : result summary_error (jsstring * Usage) * W :=
  request_summary model (conversation_prompt messages ++ TURN_PREFIX_SUMMARIZATION_PROMPT)
    (token_limit (reserveTokens / 2) model) thinkingLevel
    (js "Turn prefix summarization aborted") (js "Turn prefix summarization failed: ") w.

(** The summary of a split turn, of both parts. *)
Definition compact_split (p : CompactionPreparation) (model : Model) (customInstructions thinkingLevel : option jsstring)
    (w : W) : result summary_error (jsstring * Usage) * W :=
  let '(history, w) :=
    match messagesToSummarize p with
    | [] => (Ok (js "No prior history.", None), w)
    | ms =>
        let '(r, w) := generateSummaryWithUsage ms model (reserveTokens (settings p)) customInstructions
                         (previousSummary p) thinkingLevel w in
        ((λ tu, (tu.1, Some tu.2)) <$> r, w)
    end in
  match history with
  | Err e => (Err e, w)
  | Ok (historyText, historyUsage) =>
      let '(prefix, w) := generateTurnPrefixSummary (turnPrefixMessages p) model (reserveTokens (settings p)) thinkingLevel w in
      ((λ tu : jsstring * Usage,
          (historyText ++ LF ++ LF ++ js "---" ++ LF ++ LF ++ js "**Turn Context (split turn):**" ++ LF ++ LF ++ tu.1,
           match historyUsage with Some u => combineUsage u tu.2 | None => tu.2 end)) <$> prefix, w)
  end.

Definition compact (p : CompactionPreparation) (model : Model) (customInstructions thinkingLevel : option jsstring) (w : W)
    : result summary_error CompactResult * W :=
  let '(r, w) :=
    match prep_isSplitTurn p, turnPrefixMessages p with
    | true, _ :: _ => compact_split p model customInstructions thinkingLevel w
    | _, _ =>
        generateSummaryWithUsage (messagesToSummarize p) model (reserveTokens (settings p)) customInstructions
          (previousSummary p) thinkingLevel w
    end in
  ((λ tu : jsstring * Usage,
      let files := computeFileLists (fileOps p) in
      MkCompactResult (tu.1 ++ formatFileOperations files.1 files.2) (prep_tokensBefore p) tu.2 (prep_retainedTail p)
        files.1 files.2) <$> r, w).
End Summaries.
