(* ===== verification/CompactionTheorems.v ===== *)
(** * What a compaction keeps

    The messages of the session are split, in their order, in a history to summarise,
    the beginning of a turn and a tail that is kept; where the tail starts; and that a
    tool result is not separated from its call. *)

From Stdlib Require Import Sorted.
From S2P Require Import Prelude JsNumber JsString JsMap SessionTypes Messages SessionContext Retry Prompts Compaction.

#[local] Open Scope nat_scope.

(** ** Cut points *)

Definition entry_tokens (e : Entry) : Z := from_option estimateTokens 0%Z (entry_message e).
Definition tokens_of (entries : list Entry) : Z := foldr (λ e n, (entry_tokens e + n)%Z) 0%Z entries.

Lemma estimateTokens_nonneg m : (0 ≤ estimateTokens m)%Z.
Proof.
  unfold estimateTokens. apply Z.div_pos; [|lia].
  assert (∀ (A : Type) (f : A → Z) l n, (∀ a, 0 ≤ f a)%Z → (0 ≤ n → 0 ≤ foldl (λ n a, n + f a) n l)%Z) as Hf.
  { intros A f l. induction l as [|a l IH]; intros n Hf Hn; cbn; [done|]. apply IH; [done|]. specialize (Hf a). lia. }
  assert (∀ s : jsstring, (0 ≤ zlen s)%Z) as Hz by (intros; apply zlen_nonneg).
  assert (∀ c, (0 ≤ estimateTextAndImageContentChars c)%Z) as Hc.
  { intros [s|parts]; cbn; [done|]. apply Hf; [|done]. by intros [t|]; cbn. }
  destruct m as [[u|a|t]|b|c|b|c]; cbn [message_chars].
  - specialize (Hc (user_content u)). lia.
  - pose proof (Hf _ assistant_part_chars (assistant_content a) 0%Z) as H.
    assert (∀ c, (0 ≤ assistant_part_chars c)%Z) as Hp by (by intros [t|t|t]; cbn [assistant_part_chars]; auto using Z.add_nonneg_nonneg).
    specialize (H Hp ltac:(lia)). lia.
  - pose proof (Hc (PartsContent (result_content t))). lia.
  - pose proof (Hz (command b)). pose proof (Hz (output b)). lia.
  - pose proof (Hc (custom_content c)). lia.
  - pose proof (Hz (branch_summary b)). lia.
  - pose proof (Hz (compaction_summary c)). lia.
Qed.

Lemma entry_tokens_nonneg e : (0 ≤ entry_tokens e)%Z.
Proof. unfold entry_tokens. destruct (entry_message e); [apply estimateTokens_nonneg|cbn; lia]. Qed.

Lemma tokens_of_cons e l : tokens_of (e :: l) = (entry_tokens e + tokens_of l)%Z.
Proof. done. Qed.

Lemma tokens_of_app l k : tokens_of (l ++ k) = (tokens_of l + tokens_of k)%Z.
Proof. induction l as [|e l IH]; [done|]. rewrite <- app_comm_cons, !tokens_of_cons, IH. lia. Qed.

Lemma tokens_of_nonneg l : (0 ≤ tokens_of l)%Z.
Proof. induction l as [|e l IH]; [done|]. rewrite tokens_of_cons. pose proof (entry_tokens_nonneg e). lia. Qed.

Lemma tokens_of_drop l i j : i ≤ j → (tokens_of (drop j l) ≤ tokens_of (drop i l))%Z.
Proof.
  intros Hij. rewrite <- (take_drop (j - i) (drop i l)), drop_drop, tokens_of_app.
  replace (i + (j - i)) with j by lia. pose proof (tokens_of_nonneg (take (j - i) (drop i l))). lia.
Qed.

Lemma tokens_of_drop_lookup l i e : l !! i = Some e → tokens_of (drop i l) = (entry_tokens e + tokens_of (drop (S i) l))%Z.
Proof. intros Hi. by rewrite (drop_S _ _ _ Hi), tokens_of_cons. Qed.

Lemma indices_where_spec p i entries c :
  c ∈ indices_where p i entries ↔ i ≤ c ∧ ∃ e, entries !! (c - i) = Some e ∧ p e = true.
Proof.
  revert i. induction entries as [|e entries IH]; intros i; cbn [indices_where].
  { rewrite elem_of_nil. split; [done|]. by intros (_ & e & [=] & _). }
  assert (c ∈ indices_where p (S i) entries ↔ i < c ∧ ∃ e', (e :: entries) !! (c - i) = Some e' ∧ p e' = true) as Hrest.
  { rewrite IH. split; intros [Hi H]; split; try lia.
    - by replace (c - i) with (S (c - S i)) by lia.
    - by replace (c - i) with (S (c - S i)) in H by lia. }
  destruct (p e) eqn:Hp.
  - rewrite elem_of_cons, Hrest. split.
    + intros [->|[? ?]]; [|split; [lia|done]]. split; [lia|]. exists e. by rewrite Nat.sub_diag.
    + intros [Hi He]. destruct (decide (c = i)); [by left|]. right. split; [lia|done].
  - rewrite Hrest. split; intros [Hi He]; (split; [|done]); try lia.
    destruct (decide (c = i)) as [->|]; [|lia]. rewrite Nat.sub_diag in He. destruct He as (? & [= <-] & ?). congruence.
Qed.

(** They come in order. *)
Lemma indices_where_sorted p i entries : StronglySorted lt (indices_where p i entries).
Proof.
  revert i. induction entries as [|e entries IH]; intros i; cbn; [constructor|]. destruct (p e); [|apply IH].
  constructor; [apply IH|]. apply Forall_forall. intros c Hc%indices_where_spec. lia.
Qed.

Definition cut_at (entries : list Entry) (c : nat) : Prop := ∃ e, entries !! c = Some e ∧ is_cut_entry e = true.

Lemma cutPoints_spec entries c : c ∈ findValidCutPoints entries 0 (length entries) ↔ cut_at entries c.
Proof.
  unfold findValidCutPoints. rewrite indices_where_spec, drop_0, !Nat.sub_0_r, firstn_all. unfold cut_at. split.
  - by intros [_ H].
  - intros H. split; [lia|done].
Qed.

(** The scan for the budget stops at the last entry from which it is reached. *)
Lemma find_budget_spec entries n acc keep :
  n ≤ length entries → acc = tokens_of (drop n entries) → (acc < keep)%Z →
  match find_budget entries n acc keep with
  | Some i => i < n ∧ (keep ≤ tokens_of (drop i entries))%Z ∧ (tokens_of (drop (S i) entries) < keep)%Z
  | None => (tokens_of entries < keep)%Z
  end.
Proof.
  revert acc. induction n as [|n IH]; intros acc Hn Hacc Hlt; cbn [find_budget].
  { by rewrite drop_0 in Hacc; subst. }
  destruct (lookup_lt_is_Some_2 entries n ltac:(lia)) as [e He]. rewrite He. cbn [mbind option_bind].
  pose proof (tokens_of_drop_lookup _ _ _ He) as Hd. unfold entry_tokens in Hd.
  assert (∀ acc', acc' = tokens_of (drop n entries) → (acc' < keep)%Z →
            match find_budget entries n acc' keep with
            | Some i => i < S n ∧ (keep ≤ tokens_of (drop i entries))%Z ∧ (tokens_of (drop (S i) entries) < keep)%Z
            | None => (tokens_of entries < keep)%Z
            end) as Hrec.
  { intros acc' Ha Hl. specialize (IH acc' ltac:(lia) Ha Hl). destruct (find_budget entries n acc' keep); [|done].
    destruct IH as (? & ? & ?). split_and!; [lia|done|done]. }
  destruct (entry_message e) as [m|]; cbn [from_option] in Hd.
  - destruct (Z.leb_spec keep (acc + estimateTokens m)); [|apply Hrec; lia]. subst. split_and!; [lia|lia|lia].
  - apply Hrec; lia.
Qed.

Lemma move_back_spec entries cut :
  cut < length entries →
  let m := move_back entries 0 cut in
  m ≤ cut ∧ ∀ i e, m ≤ i < cut → entries !! i = Some e → entry_message e = None ∧ is_compaction e = false.
Proof.
  induction cut as [|prev IH]; intros Hlt m; subst m; cbn [move_back]; [split; [done|lia]|]. cbn [Nat.leb].
  destruct (lookup_lt_is_Some_2 entries prev ltac:(lia)) as [e He]. rewrite He.
  assert (match entry_payload e with PCompaction _ | PMessage _ _ => False | _ => True end →
          move_back entries 0 prev ≤ S prev ∧ ∀ i e', move_back entries 0 prev ≤ i < S prev → entries !! i = Some e' →
            entry_message e' = None ∧ is_compaction e' = false) as Hback.
  { intros Hp. destruct (IH ltac:(lia)) as [Hle Hno]. split; [lia|]. intros i e' Hi He'.
    destruct (decide (i = prev)) as [->|]; [|apply (Hno i e'); [lia|done]].
    rewrite He in He'. injection He' as <-. unfold entry_message, is_compaction, entry_type. by destruct (entry_payload e). }
  destruct (entry_payload e); try (by apply Hback); (split; [done|lia]).
Qed.

(** The cut: the earliest entry that may start a tail and that fewer than [keep]
    tokens follow or, where there is none, the first that may start a tail. *)
Definition cut_spec (entries : list Entry) (keep : Z) (c : nat) : Prop :=
  cut_at entries c
  ∧ (∀ c', c' < c → cut_at entries c' → (keep ≤ tokens_of (drop (S c') entries))%Z)
  ∧ (tokens_of (drop (S c) entries) < keep)%Z.
Definition no_cut_spec (entries : list Entry) (keep : Z) (c : nat) : Prop :=
  cut_at entries c ∧ (∀ c', c' < c → ¬ cut_at entries c')
  ∧ ∀ c', cut_at entries c' → (keep ≤ tokens_of (drop (S c') entries))%Z.

Lemma sorted_first l : StronglySorted lt l → ∀ (P : nat → Prop) `{!∀ x, Decision (P x)},
  match list_find P l with
  | Some (_, c) => c ∈ l ∧ P c ∧ ∀ c', c' ∈ l → c' < c → ¬ P c'
  | None => ∀ c, c ∈ l → ¬ P c
  end.
Proof.
  intros Hs P ?. destruct (list_find P l) as [[i c]|] eqn:Hf.
  - apply list_find_Some in Hf as (Hi & Hc & Hno). split_and!; [by eapply list_elem_of_lookup_2|done|].
    intros c' (j & Hj)%list_elem_of_lookup Hlt. eapply (Hno j c'); [done|].
    destruct (Nat.lt_trichotomy i j) as [Hij|[->|Hij]]; [|assert (c = c') by congruence; lia|done].
    exfalso. assert (c < c'); [|lia]. clear -Hs Hi Hj Hij. revert i j Hi Hj Hij. induction Hs as [|x l Hs IH Hx]; intros i j Hi Hj Hij; [done|].
    destruct i as [|i]; destruct j as [|j]; cbn in *; try lia.
    + injection Hi as ->. by eapply (Forall_lookup_1 _ _ _ _ Hx).
    + apply (IH i j); [done|done|lia].
  - apply list_find_None in Hf. rewrite Forall_forall in Hf. intros c Hc. by apply Hf.
Qed.

Lemma findCutPoint_spec entries keep :
  (0 < keep)%Z → (∃ c, cut_at entries c) →
  ∃ c, (cut_spec entries keep c ∨ no_cut_spec entries keep c)
       ∧ firstKeptEntryIndex (findCutPoint entries 0 (length entries) keep) = move_back entries 0 c.
Proof.
  intros Hkeep [c0 Hc0]. unfold findCutPoint.
  pose proof (indices_where_sorted is_cut_entry 0 (take (length entries - 0) (drop 0 entries))) as Hsorted.
  fold (findValidCutPoints entries 0 (length entries)) in Hsorted.
  destruct (findValidCutPoints entries 0 (length entries)) as [|first cuts] eqn:Hcuts.
  { apply cutPoints_spec in Hc0. rewrite Hcuts in Hc0. by apply elem_of_nil in Hc0. }
  assert (∀ c, c ∈ first :: cuts ↔ cut_at entries c) as Hin by (intros; rewrite <- Hcuts; apply cutPoints_spec).
  assert (∀ c', c' < first → ¬ cut_at entries c') as Hfirst.
  { intros c' Hlt Hc'%Hin. apply StronglySorted_inv in Hsorted as [_ Hf]. rewrite Forall_forall in Hf.
    apply elem_of_cons in Hc' as [->|Hc'%Hf]; lia. }
  cbn [firstKeptEntryIndex]. rewrite drop_0, Nat.sub_0_r.
  pose proof (find_budget_spec entries (length entries) 0 keep ltac:(lia)) as Hb.
  rewrite (drop_ge entries) in Hb by lia. specialize (Hb eq_refl Hkeep).
  assert (cut_at entries first) as Hcf by (apply Hin; left).
  destruct (find_budget entries (length entries) 0 keep) as [i|].
  - destruct Hb as (Hi & Hge & Hlt). pose proof (sorted_first _ Hsorted (λ c, 0 + i ≤ c)) as Hs.
    assert (∀ c', c' < i → (keep ≤ tokens_of (drop (S c') entries))%Z) as Hbefore.
    { intros c' Hc'. pose proof (tokens_of_drop entries (S c') i ltac:(lia)). lia. }
    destruct (list_find _ _) as [[? c]|]; cbn [fmap option_fmap option_map default from_option snd id].
    + destruct Hs as (Hc & Hic & Hno). exists c. split; [|done]. left. split_and!; [by apply Hin| |].
      * intros c' Hlt' Hc'%Hin. apply Hbefore. specialize (Hno c' Hc' Hlt'). lia.
      * pose proof (tokens_of_drop entries (S i) (S c) ltac:(lia)). lia.
    + exists first. split; [|done]. right. split_and!; [done|done|]. intros c' Hc'%Hin. apply Hbefore.
      specialize (Hs c' Hc'). lia.
  - exists first. split; [|done]. left. split_and!; [done| |].
    + intros c' Hlt Hc'. by destruct (Hfirst c' Hlt).
    + pose proof (tokens_of_drop entries 0 (S first) ltac:(lia)) as H. rewrite drop_0 in H. lia.
Qed.

(** ** The messages *)

Lemma entry_messages_app l k : entry_messages (l ++ k) = entry_messages l ++ entry_messages k.
Proof. apply omap_app. Qed.

(** Whether every tool result follows, with only results between them, the response
    that called for it: [open] are the calls that may be answered. *)
Fixpoint results_follow_calls (open : list jsstring) (messages : list AgentMessage) : bool :=
  match messages with
  | [] => true
  | AgentLlm (MAssistant a) :: ms => results_follow_calls (call_id <$> tool_calls a) ms
  | AgentLlm (MToolResult t) :: ms => bool_decide (toolCallId t ∈ open) && results_follow_calls open ms
  | _ :: ms => results_follow_calls [] ms
  end.

Definition is_toolResult (m : AgentMessage) : Prop := message_role m = role_toolResult.

Lemma results_follow_calls_cut open l k :
  results_follow_calls open (l ++ k) = true → match k with m :: _ => ¬ is_toolResult m | [] => True end →
  results_follow_calls [] k = true.
Proof.
  revert open. induction l as [|m l IH]; intros open H Hk.
  - by destruct k as [|[[u|a|t]| | | |] k].
  - cbn [app results_follow_calls] in H. destruct m as [[u|a|t]| | | |]; try (by eapply IH).
    apply andb_true_iff in H as [_ H]. by eapply IH.
Qed.

(** Entries without messages and compactions contribute nothing but summaries. *)
Lemma no_messages_before entries m c e :
  cut_at entries c → m ≤ c →
  (∀ i e', m ≤ i < c → entries !! i = Some e' → entry_message e' = None ∧ is_compaction e' = false) →
  head (entry_messages (drop m entries)) = Some e → ¬ is_toolResult e.
Proof.
  intros (ec & Hec & Hcut) Hmc Hno. remember (c - m) as n eqn:Hn. revert m Hmc Hno Hn.
  induction n as [|n IH]; intros m Hmc Hno Hn.
  - replace m with c by lia. rewrite (drop_S _ _ _ Hec). cbn. unfold is_cut_entry in Hcut. unfold is_toolResult.
    unfold getMessageFromEntryForCompaction. destruct (entry_payload ec); try done; intros [= <-]; [|done]. by case_bool_decide.
  - destruct (lookup_lt_is_Some_2 entries m) as [em Hem]; [apply lookup_lt_Some in Hec; lia|].
    destruct (Hno m em ltac:(lia) Hem) as [Hm Hc]. rewrite (drop_S _ _ _ Hem). cbn [entry_messages omap list_omap].
    unfold getMessageFromEntryForCompaction at 1. unfold entry_message in Hm. unfold is_compaction, entry_type in Hc.
    destruct (entry_payload em); try done; try (refine (IH (S m) _ _ _); [lia| |lia]; intros i e' Hi; apply (Hno i e'); lia).
    by intros [= <-].
Qed.

Lemma findCutPoint_no_turn entries keep :
  turnStartIndex (findCutPoint entries 0 (length entries) keep) = None →
  isSplitTurn (findCutPoint entries 0 (length entries) keep) = false.
Proof.
  unfold findCutPoint. destruct (findValidCutPoints _ _ _) as [|first cuts]; [done|]. cbn [turnStartIndex isSplitTurn].
  intros ->. by destruct (negb _).
Qed.

(** Without a cut point there are only tool results, and all is kept. *)
Lemma no_cut_all_results entries :
  (∀ c, ¬ cut_at entries c) → Forall is_toolResult (entry_messages entries).
Proof.
  intros Hno. apply Forall_forall. intros m (e & Hin & He)%list_elem_of_omap.
  apply list_elem_of_lookup in Hin as (c & Hc). destruct (is_cut_entry e) eqn:Hcut; [by destruct (Hno c); exists e|].
  unfold is_cut_entry in Hcut. unfold getMessageFromEntryForCompaction in He. unfold is_toolResult.
  destruct (entry_payload e); try done. injection He as ->. by case_bool_decide.
Qed.

(** What the context of the session shows of the compactable entries: all but
    deferred responses and branch summaries without text. *)
Definition shown_entry (e : Entry) : bool :=
  match entry_payload e with
  | PMessage m _ => negb (is_deferred m)
  | PBranchSummary _ summary _ _ => truthy summary
  | _ => true
  end.

Lemma context_messages_entries entries :
  Forall (λ e, is_compaction e = false) entries → Forall (λ e, shown_entry e = true) entries →
  ∀ i all, concat (imap (λ j e, sessionEntryToContextMessages e (Z.of_nat (i + j)) all no_build_options) entries) = entry_messages entries.
Proof.
  induction entries as [|e entries IH]; intros Hc Hs i all; [done|].
  apply Forall_cons in Hc as [Hce Hc]. apply Forall_cons in Hs as [Hse Hs]. cbn [imap concat entry_messages omap list_omap].
  assert (concat (imap ((λ j e0, sessionEntryToContextMessages e0 (Z.of_nat (i + j)) all no_build_options) ∘ S) entries)
          = entry_messages entries) as Hrest.
  { rewrite <- (IH Hc Hs (S i) all). done. }
  rewrite Hrest. unfold sessionEntryToContextMessages, getMessageFromEntryForCompaction. unfold is_compaction, entry_type in Hce.
  unfold shown_entry in Hse. destruct (entry_payload e) as [m ?| | | | |? summary ? ?|]; cbn in *; try done.
  - by destruct (is_deferred m).
  - by rewrite Hse.
Qed.

Lemma virtual_messages prev ms : entry_messages (imap (virtual_entry prev) ms) = ms.
Proof.
  assert (∀ k, entry_messages (imap (λ i, virtual_entry prev (k + i)) ms) = ms) as H; [|apply (H 0)].
  induction ms as [|m ms IH]; intros k; [done|]. cbn. f_equal. rewrite <- (IH (S k)) at 2. unfold entry_messages. f_equal.
  apply imap_ext. intros i x _. cbn. by rewrite Nat.add_succ_r.
Qed.

Lemma from_last_compaction_Some l f :
  from_last_compaction l = Some f →
  ∃ e c after, f = e :: after ∧ entry_payload e = PCompaction c ∧ Forall (λ e, is_compaction e = false) after ∧ f `suffix_of` l.
Proof.
  revert f. induction l as [|e l IH]; intros f; cbn [from_last_compaction]; [done|].
  destruct (from_last_compaction l) as [g|] eqn:Hl.
  - intros [= <-]. destruct (IH g eq_refl) as (e' & c & after & ? & ? & ? & ?). exists e', c, after.
    split_and!; [done|done|done|by apply suffix_cons_r].
  - destruct (is_compaction e) eqn:He; [|done]. intros [= <-]. apply from_last_compaction_none in Hl.
    unfold is_compaction, entry_type in He. apply bool_decide_eq_true in He.
    destruct (entry_payload e) as [| | | |c| |] eqn:Hp; try done. by exists e, c, l.
Qed.

(** The summary of the last compaction, as the context shows it. *)
Definition previous_summary (path : list Entry) : list AgentMessage :=
  match from_last_compaction path with
  | Some (e :: _) =>
      match entry_payload e with
      | PCompaction c =>
          [AgentCompactionSummary (MkCompactionSummaryMessage (comp_summary c) (tokensBefore c) (entry_timestamp e))]
      | _ => []
      end
  | _ => []
  end.

(** The context of a path: the last summary, and the messages that can be compacted. *)
Lemma context_compactable path :
  Forall (λ e, shown_entry e = true) path →
  ctx_messages (buildSessionContext path no_build_options)
  = previous_summary path ++ entry_messages (compactable_entries path).2.
Proof.
  intros Hshown. unfold buildSessionContext, buildContextEntries. cbn [ctx_messages entryTransforms no_build_options foldl].
  unfold defaultContextEntryTransform, previous_summary, compactable_entries.
  destruct (from_last_compaction path) as [f|] eqn:Hf; cbn [default from_option id].
  - apply from_last_compaction_Some in Hf as (e & c & after & -> & Hp & Hafter & [pre Hpath]). rewrite Hp. cbn [snd imap concat].
    rewrite entry_messages_app, virtual_messages. unfold sessionEntryToContextMessages at 1. rewrite Hp.
    cbn [app]. do 2 f_equal.
    rewrite <- (context_messages_entries after Hafter) with (i := 1) (all := e :: after); [done|].
    rewrite Hpath in Hshown. apply Forall_app in Hshown as [_ Hshown]. by apply Forall_cons in Hshown as [_ ?].
  - apply from_last_compaction_none in Hf. exact (context_messages_entries path Hf Hshown 0 path).
Qed.

Lemma context_after_compaction path e c :
  entry_payload e = PCompaction c →
  ctx_messages (buildSessionContext (path ++ [e]) no_build_options)
  = AgentCompactionSummary (MkCompactionSummaryMessage (comp_summary c) (tokensBefore c) (entry_timestamp e)) :: retainedTail c.
Proof.
  intros Hp. unfold buildSessionContext, buildContextEntries. cbn [ctx_messages entryTransforms no_build_options foldl].
  rewrite (transform_compaction path e []); [|unfold is_compaction, entry_type; by rewrite Hp|done].
  cbn [imap concat]. unfold sessionEntryToContextMessages. rewrite Hp. by rewrite app_nil_r.
Qed.

(** Where a tail of [entries] starts. *)
Definition tail_from (entries : list Entry) (keep : Z) (tail : list AgentMessage) : Prop :=
  Forall is_toolResult tail ∧ tail = entry_messages entries
  ∨ ∃ m c, (cut_spec entries keep c ∨ no_cut_spec entries keep c) ∧ m ≤ c
      ∧ (∀ i e, m ≤ i < c → entries !! i = Some e → entry_message e = None ∧ is_compaction e = false)
      ∧ tail = entry_messages (drop m entries).

Lemma findCutPoint_tail entries keep :
  (0 < keep)%Z → tail_from entries keep (entry_messages (drop (firstKeptEntryIndex (findCutPoint entries 0 (length entries) keep)) entries)).
Proof.
  intros Hkeep. destruct (findValidCutPoints entries 0 (length entries)) as [|first cuts] eqn:Hcuts.
  - left. unfold findCutPoint. rewrite Hcuts. cbn [firstKeptEntryIndex]. rewrite drop_0. split; [|done].
    apply no_cut_all_results. intros c Hc%cutPoints_spec. rewrite Hcuts in Hc. by apply elem_of_nil in Hc.
  - right. destruct (findCutPoint_spec entries keep Hkeep) as (c & Hc & ->).
    { exists first. apply cutPoints_spec. rewrite Hcuts. left. }
    assert (c < length entries) as Hlt.
    { destruct Hc as [[(e & He & _) _]|[(e & He & _) _]]; by apply lookup_lt_Some in He. }
    destruct (move_back_spec entries c Hlt) as [Hle Hno]. by exists (move_back entries 0 c), c.
Qed.

(** A tail does not take results from their calls. *)
Lemma tail_results entries keep tail :
  tail_from entries keep tail → results_follow_calls [] (entry_messages entries) = true → results_follow_calls [] tail = true.
Proof.
  intros [[_ ->]|(m & c & Hc & Hle & Hno & ->)]; [done|]. intros Hall.
  rewrite <- (take_drop m entries), entry_messages_app in Hall.
  apply (results_follow_calls_cut [] _ _ Hall).
  assert (cut_at entries c) as Hcut by (destruct Hc as [[? _]|[? _]]; done).
  destruct (entry_messages (drop m entries)) as [|msg ms] eqn:Hms; [done|].
  apply (no_messages_before entries m c msg Hcut Hle Hno). by rewrite Hms.
Qed.

(** *** What a compaction should prepare

    Stated without the definitions of the program, except for the estimate of a message. *)
Definition may_start (e : Entry) : Prop :=
  match entry_payload e with
  | PMessage (AgentLlm (MToolResult _)) _ => False
  | PMessage _ _ | PBranchSummary _ _ _ _ => True
  | _ => False
  end.
Definition by_user (e : Entry) : Prop := match entry_payload e with PMessage (AgentLlm (MUser _)) _ => True | _ => False end.
Definition opens_turn (e : Entry) : Prop :=
  by_user e ∨ match entry_payload e with PMessage (AgentBash _) _ | PBranchSummary _ _ _ _ => True | _ => False end.
Definition between_messages (e : Entry) : Prop := match entry_payload e with PMessage _ _ | PCompaction _ => False | _ => True end.

(** The last compaction of a path, if any, and what can be compacted: the messages it
    retained, as entries, and the entries after it. *)
Definition since_compaction (path : list Entry) (prev : option CompactionPayload) (entries : list Entry) : Prop :=
  match prev with
  | None => Forall (λ e, ∀ c, entry_payload e ≠ PCompaction c) path ∧ entries = path
  | Some c =>
      ∃ before e after retained, path = before ++ e :: after ∧ entry_payload e = PCompaction c
        ∧ Forall (λ e, ∀ c, entry_payload e ≠ PCompaction c) after
        ∧ Forall2 (λ m r, entry_payload r = PMessage m false) (retainedTail c) retained ∧ entries = retained ++ after
  end.

(** The tail starts at the earliest entry that may start it and that fewer than [keep]
    tokens follow; where there is none, at the first that may start it; and it takes the
    entries before that which stand between two messages. *)
Definition kept_from (entries : list Entry) (keep : Z) (m : nat) : Prop :=
  let starts c := ∃ e, entries !! c = Some e ∧ may_start e in
  let fits c := starts c ∧ (tokens_of (drop (S c) entries) < keep)%Z in
  (∃ c, (fits c ∧ (∀ c', c' < c → ¬ fits c') ∨ (∀ c', ¬ fits c') ∧ starts c ∧ ∀ c', c' < c → ¬ starts c')
        ∧ m ≤ c ∧ (∀ i e, m ≤ i < c → entries !! i = Some e → between_messages e)
        ∧ ∀ e, entries !! pred m = Some e → m = 0 ∨ ¬ between_messages e)
  ∨ (∀ c, ¬ starts c) ∧ m = 0.

(** A tail from [m] on that does not begin with the user's message cuts the turn that is
    open there, which began at [t]. *)
Definition turn_cut (entries : list Entry) (m t : nat) (split : bool) : Prop :=
  let user := ∃ e, entries !! m = Some e ∧ by_user e in
  let opens i := ∃ e, entries !! i = Some e ∧ opens_turn e in
  if split then ¬ user ∧ t ≤ m ∧ opens t ∧ ∀ i, t < i ≤ m → ¬ opens i
  else t = m ∧ (user ∨ ∀ i, i ≤ m → ¬ opens i).

(** A file that a call of the tool [name] in the messages is about, and one that stored
    details name. *)
Definition file_called (name : string) (messages : list AgentMessage) (f : jsstring) : Prop :=
  f ≠ [] ∧ ∃ a c props, AgentLlm (MAssistant a) ∈ messages ∧ AToolCall c ∈ assistant_content a ∧ call_name c = js name
    ∧ call_arguments c = JsonObject props ∧ map_get props (js "path") = Some (JsonString f).
Definition details_name (key : string) (details : option JsonValue) (f : jsstring) : Prop :=
  ∃ props items, details = Some (JsonObject props) ∧ map_get props (js key) = Some (JsonArray items) ∧ JsonString f ∈ items.
Definition file_stored (key : string) (prev : option CompactionPayload) (f : jsstring) : Prop :=
  ∃ c, prev = Some c ∧ details_name key (comp_details c) f.
Definition files_touched (prev : option CompactionPayload) (messages : list AgentMessage) (ops : FileOperations) : Prop :=
  ∀ f, (f ∈ fo_read ops ↔ file_stored "readFiles" prev f ∨ file_called "read" messages f)
    ∧ (f ∈ fo_written ops ↔ file_called "write" messages f)
    ∧ (f ∈ fo_edited ops ↔ file_stored "modifiedFiles" prev f ∨ file_called "edit" messages f).

(** *** The program does *)

Lemma may_start_cut e : may_start e ↔ is_cut_entry e = true.
Proof.
  unfold may_start, is_cut_entry. destruct (entry_payload e) as [[[]| | | |] ?| | | | | |]; cbn; try done.
Qed.
Lemma opens_turn_starts e : opens_turn e ↔ starts_turn e = true.
Proof.
  unfold opens_turn, by_user, starts_turn. destruct (entry_payload e) as [[[]| | | |] ?| | | | | |]; cbn; try (split; [by intros []|done]); tauto.
Qed.
Lemma by_user_message e : by_user e ↔ is_user_message e = true.
Proof. unfold by_user, is_user_message. by destruct (entry_payload e) as [[[]| | | |] ?| | | | | |]. Qed.
Lemma between_messages_iff e : between_messages e ↔ entry_message e = None ∧ is_compaction e = false.
Proof.
  unfold between_messages, entry_message, is_compaction, entry_type. destruct (entry_payload e); cbn; split; try done; by intros [].
Qed.

Lemma starts_cut_at entries c : (∃ e, entries !! c = Some e ∧ may_start e) ↔ cut_at entries c.
Proof. unfold cut_at. by setoid_rewrite may_start_cut. Qed.

Lemma move_back_stops entries cut e :
  cut < length entries → entries !! pred (move_back entries 0 cut) = Some e → move_back entries 0 cut = 0 ∨ ¬ between_messages e.
Proof.
  induction cut as [|prev IH]; intros Hlt; cbn [move_back]; [by left|]. cbn [Nat.leb].
  destruct (lookup_lt_is_Some_2 entries prev ltac:(lia)) as [e' He']. rewrite He'.
  destruct (entry_payload e') eqn:Hp; try (apply IH; lia); cbn [pred]; rewrite He'; intros [= <-]; right; unfold between_messages; rewrite Hp; tauto.
Qed.

Lemma findCutPoint_kept entries keep :
  (0 < keep)%Z → kept_from entries keep (firstKeptEntryIndex (findCutPoint entries 0 (length entries) keep)).
Proof.
  intros Hkeep. unfold kept_from. setoid_rewrite starts_cut_at.
  destruct (findValidCutPoints entries 0 (length entries)) as [|first cuts] eqn:Hcuts.
  - right. unfold findCutPoint. rewrite Hcuts. split; [|done]. intros c Hc%cutPoints_spec. rewrite Hcuts in Hc. by apply elem_of_nil in Hc.
  - left. destruct (findCutPoint_spec entries keep Hkeep) as (c & Hc & ->).
    { exists first. apply cutPoints_spec. rewrite Hcuts. left. }
    assert (c < length entries) as Hlt.
    { destruct Hc as [[(e & He & _) _]|[(e & He & _) _]]; by apply lookup_lt_Some in He. }
    destruct (move_back_spec entries c Hlt) as [Hle Hno]. exists c. split_and!; [|done| |].
    + destruct Hc as [(Hc & Hb & Hf)|(Hc & Hf & Hb)]; [left|right].
      * split; [by split|]. intros c' Hc' [Hat ?]. specialize (Hb c' Hc' Hat). lia.
      * split; [|by split]. intros c' [Hat ?]. specialize (Hb c' Hat). lia.
    + intros i e Hi He. by apply between_messages_iff, (Hno i e).
    + intros e He. by apply move_back_stops.
Qed.

Lemma findTurnStartIndex_last entries i start :
  match findTurnStartIndex entries i start with
  | Some t => start ≤ t ≤ i ∧ from_option starts_turn false (entries !! t) = true
      ∧ ∀ j, t < j ≤ i → from_option starts_turn false (entries !! j) = false
  | None => ∀ j, start ≤ j ≤ i → from_option starts_turn false (entries !! j) = false
  end.
Proof.
  induction i as [|i IH]; cbn [findTurnStartIndex].
  - destruct (Nat.ltb_spec 0 start); [intros; lia|]. destruct (from_option _ _ (entries !! 0)) eqn:E; [split_and!; [lia..|done|lia]|].
    intros j Hj. by replace j with 0 by lia.
  - destruct (Nat.ltb_spec (S i) start); [intros; lia|]. destruct (from_option _ _ (entries !! S i)) eqn:E; [split_and!; [lia..|done|lia]|].
    destruct (findTurnStartIndex entries i start) as [t|].
    + destruct IH as (Ht & Hs & Hno). split_and!; [lia..|done|]. intros j Hj. destruct (decide (j = S i)) as [->|]; [done|apply Hno; lia].
    + intros j Hj. destruct (decide (j = S i)) as [->|]; [done|apply IH; lia].
Qed.

Lemma opens_lookup (entries : list Entry) (i : nat) : (∃ e, entries !! i = Some e ∧ opens_turn e) ↔ from_option starts_turn false (entries !! i) = true.
Proof.
  setoid_rewrite opens_turn_starts. destruct (entries !! i) as [e|]; cbn; split; try done; [by intros (? & [= <-] & ?)|by exists e|by intros (? & ? & ?)].
Qed.

Lemma user_lookup (entries : list Entry) (i : nat) :
  (∃ e, entries !! i = Some e ∧ by_user e) ↔ from_option is_user_message false (entries !! i) = true.
Proof.
  setoid_rewrite by_user_message. destruct (entries !! i) as [e|]; cbn; split; try done; [by intros (? & [= <-] & ?)|by exists e|by intros (? & ? & ?)].
Qed.

Lemma turn_cut_iff entries m t split :
  turn_cut entries m t split ↔
  let user := from_option is_user_message false (entries !! m) = true in
  let opens i := from_option starts_turn false (entries !! i) = true in
  if split then ¬ user ∧ t ≤ m ∧ opens t ∧ ∀ i, t < i ≤ m → ¬ opens i else t = m ∧ (user ∨ ∀ i, i ≤ m → ¬ opens i).
Proof. unfold turn_cut. cbn zeta. destruct split; setoid_rewrite user_lookup; setoid_rewrite opens_lookup; done. Qed.

Definition history_end (cut : CutPointResult) : nat :=
  match turnStartIndex cut with Some t => if isSplitTurn cut then t else firstKeptEntryIndex cut | None => firstKeptEntryIndex cut end.

Lemma findCutPoint_turn_cut entries keep :
  let cut := findCutPoint entries 0 (length entries) keep in
  turn_cut entries (firstKeptEntryIndex cut) (history_end cut) (isSplitTurn cut) ∧ history_end cut ≤ firstKeptEntryIndex cut.
Proof.
  cbn zeta. rewrite turn_cut_iff. unfold findCutPoint. destruct (findValidCutPoints entries 0 (length entries)) as [|first cuts] eqn:Hcuts.
  { unfold history_end. cbn. split; [|done]. split; [done|]. right. intros i Hi Hs. replace i with 0 in Hs by lia.
    destruct (entries !! 0) as [e|] eqn:He; [|done]. cbn in Hs. assert (cut_at entries 0) as Hcut.
    { exists e. split; [done|]. unfold starts_turn in Hs. unfold is_cut_entry. destruct (entry_payload e) as [[[]| | | |] ?| | | | | |]; done. }
    apply cutPoints_spec in Hcut. rewrite Hcuts in Hcut. by apply elem_of_nil in Hcut. }
  cbn [firstKeptEntryIndex turnStartIndex isSplitTurn].
  match goal with |- context [move_back ?x ?y ?z] => generalize (move_back x y z); intros m end.
  unfold history_end. cbn [turnStartIndex isSplitTurn firstKeptEntryIndex].
  destruct (from_option is_user_message false (entries !! m)) eqn:Hu; cbn [negb andb]; [split; [|done]; split; [done|by left]|].
  pose proof (findTurnStartIndex_last entries m 0) as Ht. destruct (findTurnStartIndex entries m 0) as [t|].
  - rewrite bool_decide_eq_true_2 by done. destruct Ht as (Ht & Hs & Hno). split; [|lia]. split_and!; [done|lia|done|].
    intros i Hi Hs'. by rewrite Hno in Hs'.
  - rewrite bool_decide_eq_false_2 by (by intros [? ?]). split; [|done]. split; [done|]. right. intros i Hi Hs. by rewrite Ht in Hs by lia.
Qed.

Lemma not_compaction_iff e : is_compaction e = false ↔ ∀ c, entry_payload e ≠ PCompaction c.
Proof.
  unfold is_compaction, entry_type. destruct (entry_payload e) eqn:Hp; cbn; split; try done. intros Hno. by destruct (Hno c).
Qed.

Lemma compactable_since path : since_compaction path (compactable_entries path).1 (compactable_entries path).2.
Proof.
  unfold compactable_entries. destruct (from_last_compaction path) as [f|] eqn:Hf.
  - apply from_last_compaction_Some in Hf as (e & c & after & -> & Hp & Hafter & [pre Hpath]). rewrite Hp. cbn [fst snd since_compaction].
    exists pre, e, after, (imap (virtual_entry e) (retainedTail c)). split_and!; try done.
    + eapply Forall_impl; [exact Hafter|]. intros ?. apply not_compaction_iff.
    + apply Forall2_same_length_lookup_2; [by rewrite length_imap|]. intros i m r Hm Hr.
      rewrite list_lookup_imap, Hm in Hr. by injection Hr as <-.
  - cbn. split; [|done]. apply from_last_compaction_none in Hf. eapply Forall_impl; [exact Hf|]. intros ?. apply not_compaction_iff.
Qed.

(** *** Files *)

Lemma elem_of_set_add l f g : g ∈ set_add l f ↔ g ∈ l ∨ g = f.
Proof. unfold set_add. case_bool_decide; [|by rewrite elem_of_app, list_elem_of_singleton]. split; [by left|]. by intros [?| ->]. Qed.
Lemma elem_of_set_adds l fs g : g ∈ set_adds l fs ↔ g ∈ l ∨ g ∈ fs.
Proof.
  unfold set_adds. revert l. induction fs as [|f fs IH]; intros l; cbn; [rewrite elem_of_nil; tauto|].
  rewrite IH, elem_of_set_add, elem_of_cons. tauto.
Qed.

Lemma path_argument_Some v f :
  path_argument v = Some f ↔ f ≠ [] ∧ ∃ props, v = JsonObject props ∧ map_get props (js "path") = Some (JsonString f).
Proof.
  unfold path_argument. split.
  - destruct v as [| | | | |props]; try done. destruct (map_get props (js "path")) as [[| | |[|c s]| |]|] eqn:Hg; try done.
    intros [= <-]. split; [done|]. by exists props.
  - intros (Hf & props & -> & ->). by destruct f.
Qed.

(** The files that the calls of one tool name; [get] is its list. *)
Definition collects (name : string) (get : FileOperations → list jsstring) : Prop :=
  ∀ ops b f, f ∈ get (add_call ops b) ↔
    f ∈ get ops ∨ ∃ c, b = AToolCall c ∧ call_name c = js name ∧ path_argument (call_arguments c) = Some f.

Lemma collects_message name get ops m f :
  collects name get → f ∈ get (extractFileOpsFromMessage ops m) ↔ f ∈ get ops ∨ file_called name [m] f.
Proof.
  intros Hc. assert (∀ parts ops, f ∈ get (foldl add_call ops parts) ↔
    f ∈ get ops ∨ ∃ c, AToolCall c ∈ parts ∧ call_name c = js name ∧ path_argument (call_arguments c) = Some f) as Hparts.
  { induction parts as [|b parts IH]; intros ops'; cbn [foldl].
    - split; [by left|]. intros [?|(c & Hin & _)]; [done|]. by apply elem_of_nil in Hin.
    - rewrite IH, (Hc ops' b f). setoid_rewrite elem_of_cons. split.
      + intros [[?|(c & -> & ? & ?)]|(c & ? & ? & ?)]; [by left|right; exists c; auto..].
      + intros [?|(c & [<-|?] & ? & ?)]; [by left; left|left; right; by exists c|right; by exists c]. }
  unfold extractFileOpsFromMessage, file_called. destruct m as [[u|a|t]| | | |]; cbn [as_assistant];
    try (split; [by left|]; intros [?|(_ & a' & c & props & Ha & _)]; [done|]; by apply list_elem_of_singleton in Ha).
  rewrite Hparts. setoid_rewrite path_argument_Some. split.
  - intros [?|(c & Hin & Hn & Hf & props & Hargs & Hg)]; [by left|]. right. split; [done|]. exists a, c, props.
      split_and!; [by apply list_elem_of_singleton|done..].
  - intros [?|(Hf & a' & c & props & Ha & Hin & Hn & Hargs & Hg)]; [by left|]. right. apply list_elem_of_singleton in Ha. injection Ha as ->.
    exists c. split_and!; try done. by exists props.
Qed.

Lemma collects_messages name get ops ms f :
  collects name get → f ∈ get (foldl extractFileOpsFromMessage ops ms) ↔ f ∈ get ops ∨ file_called name ms f.
Proof.
  intros Hc. revert ops. induction ms as [|m ms IH]; intros ops; cbn [foldl].
  - split; [by left|]. intros [?|(_ & a & c & props & Ha & _)]; [done|]. by apply elem_of_nil in Ha.
  - rewrite IH, collects_message by done. unfold file_called. setoid_rewrite elem_of_cons. setoid_rewrite elem_of_nil. split.
    + intros [[?|(? & a & c & props & [?|[]] & ?)]|(? & a & c & props & ? & ?)]; [by left|right; split; [done|]; exists a, c, props; auto..].
    + intros [?|(? & a & c & props & [Ha|?] & ?)]; [by left; left|left; right|right]; (split; [done|]); exists a, c, props; auto.
Qed.

#[local] Ltac solve_collects :=
  intros ops [t|t|c] f; cbn [add_call]; try solve [split; [by left|]; by intros [?|(? & [=] & _)]];
  destruct (path_argument (call_arguments c)) as [g|] eqn:Hg;
    [|solve [split; [by left|]; intros [?|(c' & [= <-] & _ & Hp)]; [done|congruence]]];
  repeat case_bool_decide; cbn [fo_read fo_written fo_edited set_field]; rewrite ?elem_of_set_add;
    (split;
     [first [intros [?| ->]; [by left|right; by exists c] | by left]
     |intros [?|(c' & [= <-] & Hn & Hp)]; first [done | by left | congruence | right; congruence | rewrite Hn in *; done]]).

Lemma collects_read : collects "read" fo_read.
Proof. solve_collects. Qed.
Lemma collects_write : collects "write" fo_written.
Proof. solve_collects. Qed.
Lemma collects_edit : collects "edit" fo_edited.
Proof. solve_collects. Qed.

Lemma detail_files_name details key f : f ∈ detail_files details key ↔ details_name key details f.
Proof.
  unfold detail_files, details_name. split.
  - destruct details as [[| | | | |props]|] eqn:Hd; try (by intros ?%elem_of_nil).
    destruct (map_get props (js key)) as [[| | | |items|]|] eqn:Hg; try (by intros ?%elem_of_nil).
    intros (v & Hv & Hf)%list_elem_of_omap. destruct v; try done. injection Hf as ->. by exists props, items.
  - intros (props & items & -> & -> & Hin). apply list_elem_of_omap. by exists (JsonString f).
Qed.

Lemma files_touched_spec prev ms1 ms2 :
  files_touched prev (ms1 ++ ms2) (foldl extractFileOpsFromMessage (extractFileOperations ms1 prev) ms2).
Proof.
  intros f. unfold extractFileOperations. rewrite <- foldl_app.
  rewrite (collects_messages _ _ _ _ _ collects_read), (collects_messages _ _ _ _ _ collects_write), (collects_messages _ _ _ _ _ collects_edit).
  destruct prev as [c|].
  - unfold add_details. cbn [fo_read fo_written fo_edited set_field createFileOps]. rewrite !elem_of_set_adds, !detail_files_name, !elem_of_nil.
    assert (∀ key, file_stored key (Some c) f ↔ details_name key (comp_details c) f) as Hs.
    { intros key. unfold file_stored. split; [by intros (? & [= <-] & ?)|by exists c]. }
    rewrite !Hs. tauto.
  - cbn [createFileOps fo_read fo_written fo_edited]. rewrite !elem_of_nil. unfold file_stored.
    assert (∀ key, ¬ ∃ c, None = Some c ∧ details_name key (comp_details c) f) as Hno by (intros key (? & [=] & _)).
    pose proof (Hno "readFiles"). pose proof (Hno "modifiedFiles"). tauto.
Qed.


(** ** Concrete sessions *)

Definition demo_user (s : string) : AgentMessage := AgentLlm (MUser (MkUserMessage (StringContent (js s)) 1%Z)).
Definition demo_usage : Usage := MkUsage 0 0 0 0 None None 0 0 0 0 0 0.
Definition demo_assistant_message (parts : list assistant_part) (stop : StopReason) : AssistantMessage :=
  MkAssistantMessage parts [] [] [] None None None demo_usage stop None None None None 1%Z.
Definition demo_assistant (s : string) : AgentMessage :=
  AgentLlm (MAssistant (demo_assistant_message [AText (MkText (js s) None)] sr_stop)).
Definition demo_call : AgentMessage :=
  AgentLlm (MAssistant (demo_assistant_message [AToolCall (MkToolCall (js "c1") (js "read") (JsonObject []) None None)] sr_toolUse)).
Definition demo_result (s : string) : AgentMessage :=
  AgentLlm (MToolResult (MkToolResultMessage (js "c1") (js "read") [CText (MkText (js s) None)] None None None false 1%Z)).
Definition demo_entry (p : EntryPayload) : Entry := MkEntry (js "e") 1%Z None 1%Z p.
Definition demo_path (ms : list AgentMessage) : list Entry := (λ m, demo_entry (PMessage m false)) <$> ms.
Definition demo_settings (keep : Z) : CompactionSettings := MkCompactionSettings true 100%Z keep.

(** The tool result alone would fit, but it stays with its call. *)
Definition demo_session : list AgentMessage :=
  [demo_user "first"; demo_assistant "answer"; demo_user "second"; demo_call; demo_result "data"; demo_assistant "done"].


Example demo_split :
  (λ p, (messagesToSummarize p, turnPrefixMessages p, prep_retainedTail p)) <$>
    prepareCompaction (demo_path demo_session) (demo_settings 3)
  = Some (take 2 demo_session, take 1 (drop 2 demo_session), drop 3 demo_session).
Proof. vm_compute. reflexivity. Qed.

(** A model that answers [S], in a world that records what it is asked. *)
Definition demo_model : CompletionRequest → list CompletionRequest → AssistantMessage * list CompletionRequest :=
  λ r asked, (demo_assistant_message [AText (MkText (js "S") None)] sr_stop, asked ++ [r]).
Definition demo_compact (p : CompactionPreparation) : result summary_error CompactResult * list CompletionRequest :=
  compact demo_model (λ _ w, (false, w)) (λ w, ([], w)) (λ w, (0%Z, w)) None
    (MkRetryCallbacks (λ _ _ _ _ w, w) (λ w, w) (λ _ _ _ w, w)) p (MkModel 0 false 0) None None [].

(** When the turn that is cut is the first one since the last compaction, the summary
    of that compaction is in no request: all before it is lost. *)
Definition long_turn : list Entry :=
  demo_entry (PCompaction (MkCompaction (js "OLD") [demo_user "question"] 0 None None))
  :: demo_path [demo_assistant "thinking it over"; demo_assistant "done"].

Definition asks_about (s : jsstring) (q : CompletionRequest) : bool :=
  existsb (λ m, match m with MUser u => bool_decide (is_Some (index_of s (contentText (user_content u) []))) | _ => false end)
    (req_messages q).

Example previous_summary_lost :
  (λ p, (previousSummary p,
         let '(r, asked) := demo_compact p in
         (res_summary <$> r, length asked, existsb (asks_about (js "OLD")) asked, existsb (asks_about (js "question")) asked)))
    <$> prepareCompaction long_turn (demo_settings 1)
  = Some (Some (js "OLD"),
          (Ok (js "No prior history." ++ LF ++ LF ++ js "---" ++ LF ++ LF ++ js "**Turn Context (split turn):**" ++ LF ++ LF
               ++ js "S"), 1, false, true)).
Proof. vm_compute. reflexivity. Qed.

(** An entry without a message before the user's makes the cut between two turns
    count as a cut inside the first of them. *)
Definition model_changed : list Entry :=
  demo_path [demo_user "first"; demo_assistant "answer"] ++ [demo_entry (PModelChange [] [])]
  ++ demo_path [demo_user "second"; demo_assistant "done"].

Example whole_turn_called_split :
  (λ p, (prep_isSplitTurn p, messagesToSummarize p, turnPrefixMessages p, prep_retainedTail p)) <$>
    prepareCompaction model_changed (demo_settings 3)
  = Some (true, [], [demo_user "first"; demo_assistant "answer"], [demo_user "second"; demo_assistant "done"]).
Proof. vm_compute. reflexivity. Qed.

(** When the last messages are tool results that use the budget up, everything is kept. *)
Example nothing_compacted :
  (λ p, (messagesToSummarize p, turnPrefixMessages p, length (prep_retainedTail p))) <$>
    prepareCompaction (demo_path ([demo_user "first"; demo_assistant "answer"; demo_user "second"; demo_call;
                                   demo_result "a long result"])) (demo_settings 3)
  = Some ([], [], 5).
Proof. vm_compute. reflexivity. Qed.

(** A deferred response, which a context leaves out, is shown once it is in a tail. *)
Definition deferred_last : list Entry :=
  demo_path [demo_user "first"; demo_assistant "answer"; demo_user "second";
             AgentLlm (MAssistant (demo_assistant_message [] sr_deferred))].

Example deferred_retained :
  existsb is_deferred (ctx_messages (buildSessionContext deferred_last no_build_options)) = false
  ∧ existsb is_deferred (from_option prep_retainedTail [] (prepareCompaction deferred_last (demo_settings 1))) = true.
Proof. vm_compute. by split. Qed.
