(* ===== verification/SessionState.v ===== *)
(** * The in-memory session state machine

    [packages/agent/src/harness/session/state.ts]: a session is the state reached
    by applying a sequence of mutations with consecutive sequence numbers.  A
    mutation that is refused leaves the state as it was, since every check
    precedes the first assignment. *)

From S2P Require Import Prelude JsNumber JsString JsMap SessionTypes.

(** ** Errors *)

(** The [throw] sites; [error_code] is the [SessionErrorCode] each carries. *)
Inductive mutation_error :=
| non_consecutive_seq (seq : Z)
| duplicate_id (id : jsstring)
| missing_lane (lane : jsstring)
| not_lane_leaf
| missing_parent (id : jsstring)
| missing_lane_target (id : jsstring)
| missing_label_target (id : jsstring).

Inductive session_error :=
| BadLimit
| BadCursor
| OperationKindWithoutType
| LaneNotFound (lane : jsstring)
| LaneExists (lane : jsstring)
| EntryNotFound (id : jsstring)
| IdExists (id : jsstring)
| InvalidMutation (e : mutation_error)
| BranchCycle (id : jsstring)
| BranchParentMissing (id : jsstring)
| BadForkTarget (id : jsstring)
| OperationOpen (lane id : jsstring)
| SessionExists (id : jsstring)
| SessionNotFound (id : jsstring)
| InvalidPayload
| InvalidFile (line : Z)
| FileFailed (missing : bool)
| OutOfFuel.

#[export] Instance mutation_error_eq_dec : EqDecision mutation_error.
Proof. solve_decision. Defined.
#[export] Instance session_error_eq_dec : EqDecision session_error.
Proof. solve_decision. Defined.

Definition error_code (e : session_error) : SessionErrorCode :=
  match e with
  | BadLimit | BadCursor | OperationKindWithoutType => invalid_query
  | LaneNotFound _ => invalid_lane
  | LaneExists _ | IdExists _ | SessionExists _ => already_exists
  | EntryNotFound _ | SessionNotFound _ => not_found
  | InvalidMutation _ | BranchCycle _ | BranchParentMissing _ | InvalidFile _ => invalid_entry
  | BadForkTarget _ => invalid_fork_target
  | OperationOpen _ _ | OutOfFuel => storage_error
  | InvalidPayload => invalid_payload
  | FileFailed missing => if missing then not_found else storage_error
  end.

(** ** State and mutations *)

Inductive SessionMutation :=
| MutEntry (lane : option jsstring) (entry : Entry)
| MutRecord (record : LaneRecord)
| MutLane (seq : Z) (lane : jsstring) (leafId : option jsstring)
| MutName (seq : Z) (name : option jsstring)
| MutLabel (seq : Z) (targetId : jsstring) (label : option jsstring).

Definition mutation_seq (m : SessionMutation) : Z :=
  match m with
  | MutEntry _ e => entry_seq e
  | MutRecord r => record_seq r
  | MutLane s _ _ | MutName s _ | MutLabel s _ _ => s
  end.

(** [lanes] and the open operations of a lane are iterated, so they keep the
    insertion order of their [Map]; the other maps and sets are only looked up. *)
Record SessionState := MkState {
  sequence : Z;
  usedIds : gset jsstring;
  entries : list Entry;
  entriesById : gmap jsstring Entry;
  records : list LaneRecord;
  openOperationsByLane : gmap jsstring (jsmap jsstring LaneRecord);
  lanes : jsmap jsstring (option jsstring);
  log : list LogItem;
  stats : SessionStats;
  name : option jsstring;
  labels : gmap jsstring jsstring }.

#[export] Instance SessionState_eta : Eta SessionState := λ s,
  MkState (sequence s) (usedIds s) (entries s) (entriesById s) (records s) (openOperationsByLane s) (lanes s)
    (log s) (stats s) (name s) (labels s).
#[export] Instance SessionStats_eta : Eta SessionStats := λ s,
  MkStats (messageCount s) (cachedTokens s) (uncachedTokens s) (stats_totalTokens s) (costTotal s).

Definition new_SessionState : SessionState :=
  MkState 0 ∅ [] ∅ [] ∅ [(js "main", None)] [] (MkStats 0 0 0 0 0) None ∅.

Definition nextSequence (s : SessionState) : Z := sequence s + 1.
Definition getLanes (s : SessionState) : list (jsstring * option jsstring) := lanes s.

Definition requireLane (s : SessionState) (lane : jsstring) : result session_error (option jsstring) :=
  match map_get (lanes s) lane with Some leafId => Ok leafId | None => Err (LaneNotFound lane) end.

Definition validateNewLane (s : SessionState) (lane : jsstring) : result session_error unit :=
  if map_has (lanes s) lane then Err (LaneExists lane) else Ok ().

Definition has_entry (s : SessionState) (id : jsstring) : bool := bool_decide (is_Some (entriesById s !! id)).

Definition validateTarget (s : SessionState) (targetId : option jsstring) : result session_error unit :=
  match targetId with
  | Some id => if has_entry s id then Ok () else Err (EntryNotFound id)
  | None => Ok ()
  end.

Definition validateUnusedId (s : SessionState) (id : jsstring) : result session_error unit :=
  if decide (id ∈ usedIds s) then Err (IdExists id) else Ok ().

(** ** [applyMutation] *)

Definition invalid {A} (e : mutation_error) : result session_error A := Err (InvalidMutation e).

(** The checks of the [entry] case, in order. *)
Definition check_entry (s : SessionState) (lane : option jsstring) (entry : Entry) : result session_error unit :=
  if decide (entry_id entry ∈ usedIds s) then invalid (duplicate_id (entry_id entry)) else
  _ ← match lane with
      | None => Ok ()
      | Some l =>
          match map_get (lanes s) l with
          | None => invalid (missing_lane l)
          | Some leafId => if decide (entry_parentId entry = leafId) then Ok () else invalid not_lane_leaf
          end
      end;
  match entry_parentId entry with
  | Some p => if has_entry s p then Ok () else invalid (missing_parent p)
  | None => Ok ()
  end.

Definition apply_entry (s : SessionState) (lane : option jsstring) (entry : Entry) : SessionState :=
  let seq := entry_seq entry in
  s <| sequence := seq |>
    <| usedIds := {[entry_id entry]} ∪ usedIds s |>
    <| entries := entries s ++ [entry] |>
    <| entriesById := <[entry_id entry := entry]> (entriesById s) |>
    <| lanes := match lane with Some l => map_set (lanes s) l (Some (entry_id entry)) | None => lanes s end |>
    <| log := log s ++ [LogEntry seq entry] |>
    <| stats := if decide (entry_type entry = et_message)
                then (stats s) <| messageCount := messageCount (stats s) + 1 |> else stats s |>.

(** The open operations of a lane after a record. *)
Definition open_after (openOperations : gmap jsstring (jsmap jsstring LaneRecord)) (record : LaneRecord)
    : gmap jsstring (jsmap jsstring LaneRecord) :=
  match record_body record with
  | ROperationStarted _ _ =>
      <[record_lane record :=
          map_set (default [] (openOperations !! record_lane record)) (record_id record) record]> openOperations
  | ROperationFinished runId _ _ =>
      match openOperations !! record_lane record with
      | Some ops => <[record_lane record := map_delete ops runId]> openOperations
      | None => openOperations
      end
  | _ => openOperations
  end.

Definition stats_after (st : SessionStats) (record : LaneRecord) : SessionStats :=
  match record_body record with
  | RUsage u =>
      let usage := ur_usage u in
      MkStats (messageCount st) (cachedTokens st + cacheRead usage)
        (uncachedTokens st + (usage_input usage + cacheWrite usage))
        (stats_totalTokens st + totalTokens usage) (num_add (costTotal st) (cost_total usage))
  | _ => st
  end.

Definition check_record (s : SessionState) (record : LaneRecord) : result session_error unit :=
  if negb (map_has (lanes s) (record_lane record)) then invalid (missing_lane (record_lane record)) else
  if decide (record_id record ∈ usedIds s) then invalid (duplicate_id (record_id record)) else Ok ().

Definition apply_record (s : SessionState) (record : LaneRecord) : SessionState :=
  let seq := record_seq record in
  s <| sequence := seq |>
    <| usedIds := {[record_id record]} ∪ usedIds s |>
    <| records := records s ++ [record] |>
    <| openOperationsByLane := open_after (openOperationsByLane s) record |>
    <| log := log s ++ [LogRecord seq record] |>
    <| stats := stats_after (stats s) record |>.

Definition apply_lane (s : SessionState) (seq : Z) (lane : jsstring) (leafId : option jsstring) : SessionState :=
  s <| sequence := seq |>
    <| lanes := map_set (lanes s) lane leafId |>
    <| log := log s ++ [LogLane seq lane leafId] |>.

Definition apply_name (s : SessionState) (seq : Z) (newName : option jsstring) : SessionState :=
  s <| sequence := seq |> <| name := newName |> <| log := log s ++ [LogName seq newName] |>.

Definition apply_label (s : SessionState) (seq : Z) (targetId : jsstring) (label : option jsstring) : SessionState :=
  s <| sequence := seq |>
    <| labels := match label with Some l => <[targetId := l]> (labels s) | None => delete targetId (labels s) end |>
    <| log := log s ++ [LogLabel seq targetId label] |>.

Definition applyMutation (s : SessionState) (mutation : SessionMutation) : result session_error SessionState :=
  let seq := mutation_seq mutation in
  if negb (seq =? sequence s + 1) then invalid (non_consecutive_seq seq) else
  match mutation with
  | MutEntry lane entry => _ ← check_entry s lane entry; Ok (apply_entry s lane entry)
  | MutRecord record => _ ← check_record s record; Ok (apply_record s record)
  | MutLane _ lane leafId =>
      match leafId with
      | Some id => if has_entry s id then Ok (apply_lane s seq lane leafId) else invalid (missing_lane_target id)
      | None => Ok (apply_lane s seq lane leafId)
      end
  | MutName _ newName => Ok (apply_name s seq newName)
  | MutLabel _ targetId label =>
      if has_entry s targetId then Ok (apply_label s seq targetId label) else invalid (missing_label_target targetId)
  end.

(** Replaying a log of mutations. *)
Fixpoint applyMutations (s : SessionState) (ms : list SessionMutation) : result session_error SessionState :=
  match ms with
  | [] => Ok s
  | m :: ms => s' ← applyMutation s m; applyMutations s' ms
  end.

(** ** Queries *)

Definition assertValidLimit (limit : option jsnum) : result session_error unit :=
  match limit with
  | Some l => match int_value l with Some n => if n <=? 0 then Err BadLimit else Ok () | None => Err BadLimit end
  | None => Ok ()
  end.

Definition assertValidCursor (afterSeq : option jsnum) : result session_error unit :=
  match afterSeq with
  | Some a => match int_value a with Some n => if n <? 0 then Err BadCursor else Ok () | None => Err BadCursor end
  | None => Ok ()
  end.

Definition ordered {A} (items : list A) (order : option EntryOrder) : list A :=
  match order with Some oldestFirst => items | _ => reverse items end.

(** [results.length === limit]. *)
Definition reached {A} (results : list A) (limit : option jsnum) : bool :=
  match limit with Some l => bool_decide (int_value l = Some (zlen results)) | None => false end.

(** The collecting loop: skip what does not match, stop when the limit is reached. *)
Fixpoint collect {A} (matches : A → bool) (limit : option jsnum) (items results : list A) : list A :=
  match items with
  | [] => results
  | x :: items =>
      if negb (matches x) then collect matches limit items results
      else
        let results := results ++ [x] in
        if reached results limit then results else collect matches limit items results
  end.

(** Sequence comparison with a cursor the caller chose (validated before). *)
Definition seq_after (seq : Z) (cursor : jsnum) : bool :=
  match int_value cursor with Some c => c <? seq | None => false end.
Definition seq_before (seq : Z) (cursor : jsnum) : bool :=
  match int_value cursor with Some c => seq <? c | None => false end.

Definition matches_opt {A} `{EqDecision A} (wanted : option A) (x : A) : bool :=
  match wanted with Some w => bool_decide (x = w) | None => true end.

Definition matchesEntryQuery (entry : Entry) (query : EntryQuery) : bool :=
  matches_opt (q_type query) (entry_type entry)
  && match q_customType query with
     | Some t => match entry_payload entry with PCustom c _ => bool_decide (c = t) | _ => false end
     | None => true
     end
  && match q_cursor query with
     | Some c =>
         match q_order query with
         | Some oldestFirst => seq_after (entry_seq entry) c
         | _ => seq_before (entry_seq entry) c
         end
     | None => true
     end.

Definition matchesRecordQuery (record : LaneRecord) (query : RecordQuery) : bool :=
  matches_opt (rq_lane query) (record_lane record)
  && matches_opt (rq_type query) (record_type record)
  && match rq_runId query with
     | Some runId =>
         if is_started record then bool_decide (record_id record = runId)
         else bool_decide (record_runId record = Some runId)
     | None => true
     end
  && match rq_operationKind query with
     | Some k => bool_decide (intent_kind <$> record_intent record = Some k)
     | None => true
     end
  && match rq_afterSeq query with Some a => seq_after (record_seq record) a | None => true end.

Definition getEntry (s : SessionState) (id : jsstring) : option Entry := entriesById s !! id.

Definition findEntries (s : SessionState) (query : EntryQuery) : result session_error (list Entry) :=
  _ ← assertValidLimit (q_limit query);
  _ ← assertValidCursor (q_cursor query);
  Ok (collect (λ e, matchesEntryQuery e query) (q_limit query) (ordered (entries s) (q_order query)) []).

(** *** Walking a branch

    The generator as the list of entries it yields and the exception that ends
    it, if one does; a consumer that stops early never sees the exception. *)

Definition at_bound (e : Entry) (bounds : BranchBounds) : bool :=
  match stopAtId bounds with Some i => bool_decide (entry_id e = i) | None => false end
  || match stopAtType bounds with Some t => bool_decide (entry_type e = t) | None => false end.

Fixpoint walk (fuel : nat) (byId : gmap jsstring Entry) (bounds : BranchBounds) (visited : gset jsstring)
    (current : Entry) : list Entry * option session_error :=
  match fuel with
  | O => ([], Some OutOfFuel)
  | S fuel =>
      if decide (entry_id current ∈ visited) then ([], Some (BranchCycle (entry_id current))) else
      let visited := {[entry_id current]} ∪ visited in
      let (rest, e) :=
        if at_bound current bounds then ([], None)
        else
          match entry_parentId current with
          | None => ([], None)
          | Some parentId =>
              match byId !! parentId with
              | None => ([], Some (BranchParentMissing parentId))
              | Some parent => walk fuel byId bounds visited parent
              end
          end in
      (current :: rest, e)
  end.

Definition walkToRoot (s : SessionState) (start : jsstring) (bounds : BranchBounds)
    : list Entry * option session_error :=
  match entriesById s !! start with
  | None => ([], Some (EntryNotFound start))
  | Some current => walk (S (size (entriesById s))) (entriesById s) bounds ∅ current
  end.

(** The loop over the reversed path, root first. *)
Fixpoint collect_oldest (query : EntryQuery) (bounds : BranchBounds) (items results : list Entry) : list Entry :=
  match items with
  | [] => results
  | e :: items =>
      let results := if matchesEntryQuery e query then results ++ [e] else results in
      if at_bound e bounds || reached results (q_limit query) then results
      else collect_oldest query bounds items results
  end.

(** The loop over the generator: the results, and whether it was left early. *)
Fixpoint collect_newest (query : EntryQuery) (items results : list Entry) : list Entry * bool :=
  match items with
  | [] => (results, false)
  | e :: items =>
      let results := if matchesEntryQuery e query then results ++ [e] else results in
      if reached results (q_limit query) then (results, true) else collect_newest query items results
  end.

Definition findEntriesOnBranch (s : SessionState) (query : EntryQuery) (bounds : BranchBounds) (start : jsstring)
    : result session_error (list Entry) :=
  _ ← assertValidLimit (q_limit query);
  _ ← assertValidCursor (q_cursor query);
  match q_order query with
  | Some oldestFirst =>
      let (path, e) := walkToRoot s start no_bounds in
      match e with Some e => Err e | None => Ok (collect_oldest query bounds (reverse path) []) end
  | _ =>
      let (path, e) := walkToRoot s start bounds in
      let (results, left_early) := collect_newest query path [] in
      match e with Some e => if left_early then Ok results else Err e | None => Ok results end
  end.

Definition findRecords (s : SessionState) (query : RecordQuery) : result session_error (list LaneRecord) :=
  _ ← assertValidLimit (rq_limit query);
  _ ← assertValidCursor (rq_afterSeq query);
  Ok (collect (λ r, matchesRecordQuery r query) (rq_limit query) (ordered (records s) (rq_order query)) []).

(** [items.slice(0, limit)] for a positive integer limit of any size. *)
Definition slice_to {A} (items : list A) (limit : jsnum) : list A :=
  match int_value limit with Some n => take (Z.to_nat (n `min` zlen items)) items | None => [] end.

Definition findOpenOperations (s : SessionState) (lane : jsstring) (limit : option jsnum)
    : result session_error (list LaneRecord) :=
  _ ← assertValidLimit limit;
  let openOperations := reverse (map_values (default [] (openOperationsByLane s !! lane))) in
  Ok match limit with Some l => slice_to openOperations l | None => openOperations end.

Definition getLog (s : SessionState) (options : LogOptions) : result session_error (list LogItem) :=
  _ ← assertValidLimit (log_limit options);
  _ ← assertValidCursor (log_afterSeq options);
  Ok (collect (λ i, match log_afterSeq options with Some a => seq_after (item_seq i) a | None => true end)
        (log_limit options) (log s) []).

Definition getName (s : SessionState) : option jsstring := name s.
Definition getLabel (s : SessionState) (id : jsstring) : option jsstring := labels s !! id.
Definition getStats (s : SessionState) : SessionStats := stats s.

(** ** Forking *)

(** The entries a fork copies and the lanes it has. *)
Definition fork_selection (s : SessionState) (options : ForkOptions)
    : result session_error (list Entry * list (jsstring * option jsstring)) :=
  match options with
  | ForkTree =>
      copied ← findEntries s (no_query <| q_order := Some oldestFirst |>);
      Ok (copied, getLanes s)
  | ForkBranch entryId position =>
      selected ← match entryId with Some i => Ok (Some i) | None => requireLane s (js "main") end;
      targetId ← match selected with
                 | None => Ok None
                 | Some id =>
                     match getEntry s id with
                     | Some entry =>
                         if decide (entry_type entry = et_message) then
                           let position :=
                             default (match entryId with None => at_entry | Some _ => before end) position in
                           Ok match position with at_entry => Some (entry_id entry) | before => entry_parentId entry end
                         else Err (BadForkTarget id)
                     | None => Err (BadForkTarget id)
                     end
                 end;
      copied ← match targetId with
               | None => Ok []
               | Some t => findEntriesOnBranch s (no_query <| q_order := Some oldestFirst |>) no_bounds t
               end;
      Ok (copied, [(js "main", targetId)])
  end.

(** Appends the mutation that [mk] makes for the next sequence number. *)
Definition emit (acc : list SessionMutation * Z) (mk : Z → SessionMutation) : list SessionMutation * Z :=
  (acc.1 ++ [mk acc.2], acc.2 + 1).

Definition createForkMutations (s : SessionState) (options : ForkOptions)
    : result session_error (list SessionMutation) :=
  '(copiedEntries, forkLanes) ← fork_selection s options;
  let acc := foldl (λ acc e, emit acc (λ seq, MutEntry None (e <| entry_seq := seq |>))) ([], 1) copiedEntries in
  let acc := foldl (λ acc p, emit acc (λ seq, MutLane seq p.1 p.2)) acc forkLanes in
  let acc := match name s with Some n => emit acc (λ seq, MutName seq (Some n)) | None => acc end in
  let acc := foldl (λ acc e, match labels s !! entry_id e with
                             | Some l => emit acc (λ seq, MutLabel seq (entry_id e) (Some l))
                             | None => acc
                             end) acc copiedEntries in
  Ok acc.1.
