(* ===== verification/FileSystem.v ===== *)
(** * The file system the session files live in

    The operations of [FileSystem] in [packages/agent/src/harness/types.ts] that the
    session files use, each of which returns a result, and what their comments
    promise: an append extends the file, a rename is atomic, a call that fails
    leaves every other file alone.  An implementation is any type with these
    operations; [contents] is the view of it as the text of each file. *)

From S2P Require Import Prelude JsString SessionTypes SessionState.

Inductive FileErrorCode :=
| fe_aborted | fe_not_found | fe_permission_denied | fe_not_directory | fe_is_directory | fe_invalid
| fe_not_supported | fe_unknown.

#[export] Instance FileErrorCode_eq_dec : EqDecision FileErrorCode.
Proof. solve_decision. Defined.

Inductive FileKind := fk_file | fk_directory | fk_symlink.
Record FileInfo := MkFileInfo {
  info_name : jsstring; info_path : jsstring; info_kind : FileKind; info_size : Z; mtimeMs : Z }.

Abbreviation fs_result F A := (F * result FileErrorCode A)%type (only parsing).

Class FileSystem (F : Type) := {
  readTextFile : F → jsstring → fs_result F jsstring;
  writeFile : F → jsstring → jsstring → fs_result F unit;
  appendFile : F → jsstring → jsstring → fs_result F unit;
  renameFile : F → jsstring → jsstring → fs_result F unit;
  fileInfo : F → jsstring → fs_result F FileInfo;
  remove : F → jsstring → fs_result F unit }.

(** All other files are as they were. *)
Definition others_same (p : jsstring) (c c' : gmap jsstring jsstring) : Prop :=
  ∀ q, q ≠ p → c' !! q = c !! q.

Class FileSystemLaws (F : Type) `{FileSystem F} := {
  contents : F → gmap jsstring jsstring;
  law_read f p : contents (readTextFile f p).1 = contents f
    ∧ ∀ t, (readTextFile f p).2 = Ok t → contents f !! p = Some t;
  law_info f p : contents (fileInfo f p).1 = contents f;
  law_write f p t : others_same p (contents f) (contents (writeFile f p t).1)
    ∧ ((writeFile f p t).2 = Ok () → contents (writeFile f p t).1 !! p = Some t);
  law_append f p t : others_same p (contents f) (contents (appendFile f p t).1)
    ∧ ∀ old, contents f !! p = Some old →
        ∃ part, contents (appendFile f p t).1 !! p = Some (old ++ part) ∧ part `prefix_of` t
          ∧ ((appendFile f p t).2 = Ok () → part = t);
  law_rename f p q : p ≠ q →
    match (renameFile f p q).2 with
    | Ok _ => contents (renameFile f p q).1 !! q = contents f !! p ∧ is_Some (contents f !! p)
              ∧ others_same p (<[q := default [] (contents f !! p)]> (contents f)) (contents (renameFile f p q).1)
    | Err _ => contents (renameFile f p q).1 = contents f
    end;
  law_remove f p : others_same p (contents f) (contents (remove f p).1) }.

(** ** Code that uses the file system

    It threads the file system and stops at the first throw. *)

Definition fsM (F A : Type) : Type := F → F * result session_error A.

Section FsMonad.
Context {F : Type}.

#[export] Instance fs_ret : MRet (fsM F) := λ A a f, (f, Ok a).
#[export] Instance fs_bind : MBind (fsM F) := λ A B k m f,
  match m f with (f', Ok a) => k a f' | (f', Err e) => (f', Err e) end.

Definition throw {A} (e : session_error) : fsM F A := λ f, (f, Err e).
Definition lift {A} (r : result session_error A) : fsM F A := λ f, (f, r).

(** [fileResult] of [errors.ts]. *)
Definition fileResult {A} (call : F → fs_result F A) : fsM F A := λ f,
  match call f with
  | (f', Ok a) => (f', Ok a)
  | (f', Err code) => (f', Err (FileFailed (bool_decide (code = fe_not_found))))
  end.

Lemma bind_ok {A B} (m : fsM F A) (k : A → fsM F B) f f' a : m f = (f', Ok a) → (m ≫= k) f = k a f'.
Proof. intros Hm. unfold mbind, fs_bind. by rewrite Hm. Qed.
Lemma bind_err {A B} (m : fsM F A) (k : A → fsM F B) f f' e : m f = (f', Err e) → (m ≫= k) f = (f', Err e).
Proof. intros Hm. unfold mbind, fs_bind. by rewrite Hm. Qed.
Lemma bind_lift {A B} (a : A) (k : A → fsM F B) f : (lift (Ok a) ≫= k) f = k a f.
Proof. done. Qed.
Lemma bind_lift_err {A B} (e : session_error) (k : A → fsM F B) f : (lift (Err e) ≫= k) f = (f, Err e).
Proof. done. Qed.
End FsMonad.

(** ** An in-memory implementation

    It fails where its plan says: each call consumes one step of the plan, and an
    append that fails writes as much of its text as the plan says. *)
Inductive fault := fine | fails (code : FileErrorCode) (written : nat).
Record memory_fs := MkFs { files : gmap jsstring jsstring; plan : list fault }.

Definition next_fault (f : memory_fs) : fault := default fine (head (plan f)).
Definition step_fs (f : memory_fs) (files' : gmap jsstring jsstring) : memory_fs := MkFs files' (tail (plan f)).

(** A call that [commits] when nothing fails and is [left] as it is otherwise. *)
Definition attempt {A} (f : memory_fs) (commits : result FileErrorCode (A * gmap jsstring jsstring))
    (left : nat → gmap jsstring jsstring) : fs_result memory_fs A :=
  match next_fault f with
  | fine =>
      match commits with
      | Ok (a, files') => (step_fs f files', Ok a)
      | Err code => (step_fs f (files f), Err code)
      end
  | fails code written => (step_fs f (left written), Err code)
  end.

#[export] Instance memory_fs_ops : FileSystem memory_fs := {|
  readTextFile f p :=
    attempt f match files f !! p with Some t => Ok (t, files f) | None => Err fe_not_found end (λ _, files f);
  writeFile f p t := attempt f (Ok ((), <[p := t]> (files f))) (λ n, <[p := take n t]> (files f));
  appendFile f p t :=
    attempt f (Ok ((), <[p := default [] (files f !! p) ++ t]> (files f)))
      (λ n, <[p := default [] (files f !! p) ++ take n t]> (files f));
  renameFile f p q :=
    attempt f match files f !! p with
              | Some t => Ok ((), <[q := t]> (delete p (files f)))
              | None => Err fe_not_found
              end (λ _, files f);
  fileInfo f p :=
    attempt f match files f !! p with
              | Some t => Ok (MkFileInfo p p fk_file (zlen t) 0, files f)
              | None => Err fe_not_found
              end (λ _, files f);
  remove f p := attempt f (Ok ((), delete p (files f))) (λ _, files f) |}.

#[export] Instance memory_fs_laws : FileSystemLaws memory_fs.
Proof.
  refine {| contents := files |}; intros *; cbn; unfold attempt, others_same; destruct (next_fault f); cbn.
  all: try done.
  - destruct (files f !! p); cbn; split; by try congruence.
  - by destruct (files f !! p).
  - split; [|by rewrite lookup_insert_eq]. intros q Hq. by rewrite lookup_insert_ne.
  - split; [|done]. intros q Hq. by rewrite lookup_insert_ne.
  - split; [by intros q Hq; rewrite lookup_insert_ne|]. intros old ->. exists t. by rewrite lookup_insert_eq.
  - split; [by intros q Hq; rewrite lookup_insert_ne|]. intros old ->. exists (take written t).
    rewrite lookup_insert_eq. split_and!; [done|apply prefix_take|done].
  - intros Hpq. destruct (files f !! p) as [t|] eqn:Hp; cbn; [|done]. rewrite lookup_insert_eq. split_and!; [done|done|].
    intros r Hr. destruct (decide (r = q)) as [->|]; [by rewrite !lookup_insert_eq|].
    by rewrite !lookup_insert_ne, lookup_delete_ne by done.
  - intros q Hq. by rewrite lookup_delete_ne.
Defined.
