(* ===== verification/MutationQueue.v ===== *)
(** * The queue of file mutations

    [packages/agent/src/harness/tools/file-mutation-queue.ts] and the resolution of
    paths of [path-utils.ts].  Tools run concurrently: a tool is a program whose steps
    are its calls of the environment, and any other tool may take steps in between.
    Tools that change the same file go through [withFileMutationQueue]. *)

From S2P Require Import Prelude JsString SessionTypes SessionState FileSystem.

(** ** The environment

    The calls of [FileSystem] that resolve paths, beside those of [FileSystem.v]. *)
Class FileEnv (F : Type) := {
  absolutePath : F → jsstring → fs_result F jsstring;
  canonicalPath : F → jsstring → fs_result F jsstring }.

(** What their comments promise.  [file_of] is the file a path denotes, links
    resolved, and [texts] the text of each file. *)
Class FileEnvLaws (F : Type) `{FileSystem F, FileEnv F} := {
  texts : F → gmap jsstring jsstring;
  file_of : jsstring → jsstring;
  env_absolute f p : texts (absolutePath f p).1 = texts f ∧ ∀ a, (absolutePath f p).2 = Ok a → file_of a = file_of p;
  env_canonical f p : texts (canonicalPath f p).1 = texts f ∧ ∀ a, (canonicalPath f p).2 = Ok a → a = file_of p;
  env_read f p : texts (readTextFile f p).1 = texts f ∧ ∀ t, (readTextFile f p).2 = Ok t → texts f !! file_of p = Some t;
  env_info f p : texts (fileInfo f p).1 = texts f;
  env_write f p t : others_same (file_of p) (texts f) (texts (writeFile f p t).1)
    ∧ ((writeFile f p t).2 = Ok () → texts (writeFile f p t).1 !! file_of p = Some t) }.

(** Where [canonicalPath] finds nothing, the absolute path of [path] is the file itself:
    no directory above a file that does not exist yet is reached by a link.  Nothing
    promises this of an environment; the tools rely on it for their paths. *)
Definition created_in_place {F} `{FileEnvLaws F} (path : jsstring) : Prop :=
  ∀ f f' a e, (absolutePath f path).2 = Ok a → (canonicalPath f' a).2 = Err e →
    e = fe_not_found ∨ e = fe_not_supported → file_of a = a.

(** ** Programs *)

(** The environment, and the signals that are aborted, by the number of their call. *)
Record World (F : Type) := MkWorld { env : F; aborted : list nat }.
Arguments MkWorld {F} _ _. Arguments env {F} _. Arguments aborted {F} _.
#[export] Instance World_eta F : Eta (World F) := λ w, MkWorld (env w) (aborted w).

Inductive prog (F A : Type) :=
| PDone (a : A)
| PStep (f : World F → World F * prog F A).
Arguments PDone {F A} a. Arguments PStep {F A} f.

#[export] Instance prog_ret F : MRet (prog F) := λ A a, PDone a.
#[export] Instance prog_bind F : MBind (prog F) := λ A B k,
  fix go (p : prog F A) : prog F B :=
    match p with
    | PDone a => k a
    | PStep f => PStep (λ w, let '(w', p') := f w in (w', go p'))
    end.

(** What a tool throws. *)
Inductive tool_error (E : Type) := Aborted | FileFailure (code : FileErrorCode) | ToolFailure (e : E).
Arguments Aborted {E}. Arguments FileFailure {E} code. Arguments ToolFailure {E} e.

Section Programs.
Context {F E : Type}.

Abbreviation toolM A := (prog F (result (tool_error E) A)).

(** The rest of a program after a result that is not an error. *)
Definition and_then {A B} (p : toolM A) (k : A → toolM B) : toolM B :=
  p ≫= λ r, match r with Ok a => k a | Err e => PDone (Err e) end.

(** One call of the environment. *)
Definition call {A} (op : F → fs_result F A) : prog F (result FileErrorCode A) :=
  PStep (λ w, let '(f, r) := op (env w) in (w <| env := f |>, PDone r)).
(** [getOrThrow(await ...)]. *)
Definition getOrThrow {A} (op : F → fs_result F A) : toolM A :=
  call op ≫= λ r, PDone (map_err FileFailure r).
(** [if (signal?.aborted) throw new Error("Operation aborted")], for call number [i]. *)
Definition check_signal (i : nat) : toolM unit :=
  PStep (λ w, (w, PDone (if bool_decide (i ∈ aborted w) then Err Aborted else Ok ()))).
End Programs.

Notation "x ⟵ m ; k" := (and_then m (λ x, k)) (at level 20, m at level 100, k at level 200, right associativity).

(** ** Paths *)

Definition is_unicode_space (c : Z) : bool :=
  (c =? 160) || in_range 8192 8202 c || (c =? 8239) || (c =? 8287) || (c =? 12288).

Definition normalizeToolPath (path : jsstring) : jsstring :=
  match (λ c, if is_unicode_space c then 32 else c) <$> path with
  | c :: s => if c =? 64 then s else c :: s
  | [] => []
  end.

(** ** The queue *)

Section Queue.
Context {F : Type} `{FileEnv F} {E R : Type}.
Abbreviation outcome := (result (tool_error E) R).

Definition getMutationQueueKey (path : jsstring) : prog F (result (tool_error E) jsstring) :=
  path ⟵ getOrThrow (λ f, absolutePath f path);
  call (λ f, canonicalPath f path) ≫= λ canonical,
    match canonical with
    | Ok value => PDone (Ok value)
    | Err code =>
        if bool_decide (code = fe_not_found) || bool_decide (code = fe_not_supported) then PDone (Ok path)
        else PDone (Err (FileFailure code))
    end.

(** A tool: what is wrong with its arguments, the path it was called with, and what it
    does once it has the turn, with the path resolved. *)
Record tool := MkTool { tool_invalid : option (tool_error E); tool_path : jsstring; tool_body : jsstring → prog F outcome }.

(** Where a call is.  [before] is not in the code: the text of the file when the
    body began. *)
Inductive phase :=
| Resolving
| Registering (path : jsstring) (p : prog F (result (tool_error E) jsstring))
| Waiting (path key : jsstring) (currentQueue : option nat)
| Running (key : jsstring) (before : option jsstring) (p : prog F outcome)
| Finished (r : outcome).

(** One turn on a file; not in the code. *)
Record turn := MkTurn {
  turn_call : nat; turn_key : jsstring; turn_before : option jsstring; turn_after : option jsstring; turn_result : outcome }.

(** [registration]: the calls in the chain of registrations that are not registered;
    [queues]: the call whose promise is stored for a key; [settled]: the calls whose
    promise is settled.  The promise a call stores settles when the call releases it,
    since the call has awaited the one before.  [turns] and [order] are not in the
    code: the turns taken, and the calls by file in the order they were registered. *)
Record state := MkState {
  world : World F; phases : gmap nat phase; registration : list nat; queues : gmap jsstring nat; settled : gset nat;
  turns : list turn; order : list (nat * jsstring) }.

#[export] Instance state_eta : Eta state := λ s,
  MkState (world s) (phases s) (registration s) (queues s) (settled s) (turns s) (order s).

Definition set_phase (i : nat) (p : phase) (s : state) : state := s <| phases := <[i := p]> (phases s) |>.

(** The calls made together, none of which has begun. *)
Definition initial (f : F) (tools : list tool) : state :=
  MkState (MkWorld f []) (list_to_map (imap (λ i _, (i, Resolving)) tools)) [] ∅ ∅ [] [].

Context (view : F → gmap jsstring jsstring) (tools : list tool).

Definition text_of (s : state) (key : jsstring) : option jsstring := view (env (world s)) !! key.

(** What a call does next. *)
Inductive act : state → state → Prop :=
| act_invalid i t e s :
    phases s !! i = Some Resolving → tools !! i = Some t → tool_invalid t = Some e → act s (set_phase i (Finished (Err e)) s)
(* resolveToolPath *)
| act_resolve i t f r s :
    phases s !! i = Some Resolving → tools !! i = Some t → tool_invalid t = None →
    absolutePath (env (world s)) (normalizeToolPath (tool_path t)) = (f, r) →
    act s (let s := s <| world := (world s) <| env := f |> |> in
            match r with
            | Ok path => set_phase i (Registering path (getMutationQueueKey path)) s <| registration := registration s ++ [i] |>
            | Err code => set_phase i (Finished (Err (FileFailure code))) s
            end)
(* the first registration of the chain *)
| act_key i path g rest w p s :
    registration s = i :: rest → phases s !! i = Some (Registering path (PStep g)) → g (world s) = (w, p) →
    act s (set_phase i (Registering path p) (s <| world := w |>))
| act_registered i path r rest s :
    registration s = i :: rest → phases s !! i = Some (Registering path (PDone r)) →
    act s (let s := s <| registration := rest |> in
            match r with
            | Ok key =>
                set_phase i (Waiting path key (queues s !! key)) s
                  <| queues := <[key := i]> (queues s) |> <| order := order s ++ [(i, key)] |>
            | Err e => set_phase i (Finished (Err e)) s
            end)
(* await currentQueue *)
| act_start i t path key currentQueue s :
    phases s !! i = Some (Waiting path key currentQueue) → tools !! i = Some t →
    (∀ j, currentQueue = Some j → j ∈ settled s) →
    act s (set_phase i (Running key (text_of s key) (tool_body t path)) s)
| act_run i key before g w p s :
    phases s !! i = Some (Running key before (PStep g)) → g (world s) = (w, p) →
    act s (set_phase i (Running key before p) (s <| world := w |>))
(* the finally block *)
| act_finish i key before r s :
    phases s !! i = Some (Running key before (PDone r)) →
    act s (set_phase i (Finished r) s
              <| settled := {[ i ]} ∪ settled s |>
              <| queues := if bool_decide (queues s !! key = Some i) then delete key (queues s) else queues s |>
              <| turns := turns s ++ [MkTurn i key before (text_of s key) r] |>).

(** The next step of a call, when it has one. *)
Definition next (s : state) (i : nat) : option state :=
  match phases s !! i, tools !! i with
  | Some Resolving, Some t =>
      match tool_invalid t with
      | Some e => Some (set_phase i (Finished (Err e)) s)
      | None =>
      let '(f, r) := absolutePath (env (world s)) (normalizeToolPath (tool_path t)) in
      let s := s <| world := (world s) <| env := f |> |> in
      Some match r with
           | Ok path => set_phase i (Registering path (getMutationQueueKey path)) s <| registration := registration s ++ [i] |>
           | Err code => set_phase i (Finished (Err (FileFailure code))) s
           end
      end
  | Some (Registering path p), _ =>
      match registration s with
      | j :: rest =>
          if bool_decide (j = i) then
            match p with
            | PStep g => let '(w, p) := g (world s) in Some (set_phase i (Registering path p) (s <| world := w |>))
            | PDone r =>
                let s := s <| registration := rest |> in
                Some match r with
                     | Ok key =>
                         set_phase i (Waiting path key (queues s !! key)) s
                           <| queues := <[key := i]> (queues s) |> <| order := order s ++ [(i, key)] |>
                     | Err e => set_phase i (Finished (Err e)) s
                     end
            end
          else None
      | [] => None
      end
  | Some (Waiting path key currentQueue), Some t =>
      if from_option (λ j, bool_decide (j ∈ settled s)) true currentQueue
      then Some (set_phase i (Running key (text_of s key) (tool_body t path)) s) else None
  | Some (Running key began (PStep g)), _ =>
      let '(w, p) := g (world s) in Some (set_phase i (Running key began p) (s <| world := w |>))
  | Some (Running key began (PDone r)), _ =>
      Some (set_phase i (Finished r) s
              <| settled := {[ i ]} ∪ settled s |>
              <| queues := if bool_decide (queues s !! key = Some i) then delete key (queues s) else queues s |>
              <| turns := turns s ++ [MkTurn i key began (text_of s key) r] |>)
  | _, _ => None
  end.

Lemma next_act s i s' : next s i = Some s' → act s s'.
Proof.
  unfold next. destruct (phases s !! i) as [[|path [r|g]|path key q|key b [r|g]|r]|] eqn:Hi.
  - destruct (tools !! i) as [t|] eqn:Ht; [|done]. destruct (tool_invalid t) as [e|] eqn:Hv; [intros [= <-]; by eapply act_invalid|].
    destruct (absolutePath _ _) as [f r] eqn:Ha. intros [= <-]. by eapply act_resolve.
  - destruct (registration s) as [|j rest] eqn:Hr; [by destruct (tools !! i)|]. case_bool_decide as Hj; [|by destruct (tools !! i)].
    subst j. intros Hs. assert (act s s') as Hact; [|exact Hact]. destruct (tools !! i); injection Hs as <-; by eapply act_registered.
  - destruct (registration s) as [|j rest] eqn:Hr; [by destruct (tools !! i)|]. case_bool_decide as Hj; [|by destruct (tools !! i)].
    subst j. destruct (g (world s)) as [w p] eqn:Hg. intros Hs. destruct (tools !! i); injection Hs as <-; by eapply act_key.
  - destruct (tools !! i) as [t|] eqn:Ht; [|done]. destruct (from_option _ _ q) eqn:Hq; [|done]. intros [= <-].
    eapply act_start; [done|done|]. intros j ->. by apply bool_decide_eq_true in Hq.
  - intros Hs. destruct (tools !! i); injection Hs as <-; by eapply act_finish.
  - destruct (g (world s)) as [w p] eqn:Hg. intros Hs. destruct (tools !! i); injection Hs as <-; by eapply act_run.
  - by destruct (tools !! i).
  - by destruct (tools !! i).
Qed.

Lemma act_next s s' : act s s' → ∃ i s'', next s i = Some s''.
Proof.
  intros [i t e s1 Hi Ht He|i t f r s1 Hi Ht Hv Hf|i path g rest w p s1 Hreg Hi Hg|i path r rest s1 Hreg Hi
    |i t path key q s1 Hi Ht Hq|i key b g w p s1 Hi Hg|i key b r s1 Hi]; exists i; unfold next; rewrite Hi.
  - rewrite Ht, He. by eexists.
  - rewrite Ht, Hv, Hf. by eexists.
  - rewrite Hreg, bool_decide_true by done. destruct (tools !! i); rewrite Hg; by eexists.
  - rewrite Hreg, bool_decide_true by done. destruct (tools !! i); by eexists.
  - rewrite Ht. destruct q as [j|]; cbn [from_option]; [rewrite bool_decide_true by (by apply Hq)|]; by eexists.
  - destruct (tools !! i); rewrite Hg; by eexists.
  - destruct (tools !! i); by eexists.
Qed.

(** The calls that move, one after the other. *)
Fixpoint schedule (s : state) (calls : list nat) : option state :=
  match calls with [] => Some s | i :: calls => s ← next s i; schedule s calls end.

(** A step of some call, or a signal that is aborted. *)
Inductive step : state → state → Prop :=
| step_act s s' : act s s' → step s s'
| step_abort i s : step s (s <| world := (world s) <| aborted := i :: aborted (world s) |> |>).

Inductive reachable (f : F) : state → Prop :=
| reachable_initial : reachable f (initial f tools)
| reachable_step s s' : reachable f s → step s s' → reachable f s'.

Lemma schedule_reachable f s calls s' : reachable f s → schedule s calls = Some s' → reachable f s'.
Proof.
  revert s. induction calls as [|i calls IH]; intros s Hs; cbn; [by intros [= <-]|].
  destruct (next s i) as [s1|] eqn:Hn; [|done]. cbn. apply IH. eapply reachable_step; [done|]. eapply step_act, next_act, Hn.
Qed.
End Queue.
Arguments tool : clear implicits. Arguments state : clear implicits. Arguments phase : clear implicits.
Arguments turn : clear implicits.
