(* ===== verification/MutationQueueTheorems.v ===== *)
(** * Mutations of one file are serial

    The calls whose paths denote the same file take their turns one after the other,
    in the order in which they were registered; each turn begins with the text the
    one before left, and as long as a call is not over some call can go on. *)

From stdpp Require Import functions.
From S2P Require Import Prelude JsString SessionTypes SessionState FileSystem MutationQueue.

#[local] Open Scope nat_scope.

(** ** Programs that only touch one file *)

Section Safe.
Context {F : Type} `{FileEnvLaws F}.

Lemma prog_ind' {A} (P : prog F A → Prop) :
  (∀ a, P (PDone a)) → (∀ g, (∀ w, P (g w).2) → P (PStep g)) → ∀ p, P p.
Proof.
  intros Hd Hs. fix IH 1. intros [a|g]; [apply Hd|]. apply Hs. intros w. destruct (g w) as [w' p']. apply IH.
Qed.

(** From text [c] of the file [key], the program changes no other file and ends with
    a text and a result in [Φ], when nobody else changes the file. *)
Fixpoint safe {A} (key : jsstring) (Φ : option jsstring → A → Prop) (p : prog F A) (c : option jsstring) : Prop :=
  match p with
  | PDone a => Φ c a
  | PStep g => ∀ w, texts (env w) !! key = c →
      let '(w', p') := g w in
      others_same key (texts (env w)) (texts (env w')) ∧ safe key Φ p' (texts (env w') !! key)
  end.

Lemma safe_mono {A} key (Φ Ψ : option jsstring → A → Prop) p c :
  (∀ c a, Φ c a → Ψ c a) → safe key Φ p c → safe key Ψ p c.
Proof.
  intros HΦ. revert c. induction p as [a|g IH] using prog_ind'; intros c; cbn [safe]; [apply HΦ|].
  intros Hg w Hw. specialize (Hg w Hw). specialize (IH w). destruct (g w) as [w' p']. destruct Hg as [Ho Hp].
  split; [done|]. by apply IH.
Qed.

Lemma safe_bind {A B} key Φ (p : prog F A) (k : A → prog F B) c :
  safe key (λ c a, safe key Φ (k a) c) p c → safe key Φ (p ≫= k) c.
Proof.
  revert c. induction p as [a|g IH] using prog_ind'; intros c; [done|]. cbn [safe mbind prog_bind].
  intros Hg w Hw. specialize (Hg w Hw). specialize (IH w). destruct (g w) as [w' p']. destruct Hg as [Ho Hp].
  split; [done|]. by apply IH.
Qed.

(** After an error the rest is not run. *)
Lemma safe_and_then {E A B} key (Φ : option jsstring → result (tool_error E) B → Prop) (p : prog F (result (tool_error E) A)) k c :
  safe key (λ c r, match r with Ok a => safe key Φ (k a) c | Err e => Φ c (Err e) end) p c →
  safe key Φ (and_then p k) c.
Proof. intros Hp. apply safe_bind. eapply safe_mono; [|exact Hp]. by intros c' [a|e]. Qed.

Lemma safe_call {A} key (Φ : option jsstring → result FileErrorCode A → Prop) op c :
  (∀ f, texts f !! key = c → others_same key (texts f) (texts (op f).1) ∧ Φ (texts (op f).1 !! key) (op f).2) →
  safe key Φ (call op) c.
Proof. intros Hop w Hw. specialize (Hop (env w) Hw). cbn. by destruct (op (env w)). Qed.

Lemma safe_getOrThrow {E A} key (Φ : option jsstring → result (tool_error E) A → Prop) op c :
  (∀ f, texts f !! key = c → others_same key (texts f) (texts (op f).1)
                             ∧ Φ (texts (op f).1 !! key) (map_err FileFailure (op f).2)) →
  safe key Φ (getOrThrow op) c.
Proof. intros Hop. apply safe_bind, safe_call, Hop. Qed.

Lemma safe_check_signal {E} key (Φ : option jsstring → result (tool_error E) unit → Prop) i c :
  Φ c (Err Aborted) → Φ c (Ok ()) → safe key Φ (check_signal i) c.
Proof. intros Ha Ho w Hw. cbn. split; [by intros q _|]. rewrite Hw. by case_bool_decide. Qed.

(** The program that looks the key of a path up changes nothing and ends with the file. *)
Fixpoint key_ok {E} (key : jsstring) (p : prog F (result (tool_error E) jsstring)) : Prop :=
  match p with
  | PDone (Ok k) => k = key
  | PDone (Err _) => True
  | PStep g => ∀ w, let '(w', p') := g w in texts (env w') = texts (env w) ∧ key_ok key p'
  end.

Lemma getMutationQueueKey_ok {E} path :
  created_in_place path → key_ok (E:=E) (file_of path) (getMutationQueueKey path).
Proof.
  intros Hplace w. cbn. pose proof (Hplace (env w)) as Hn. pose proof (env_absolute (env w) path) as [Ht Ha]. destruct (absolutePath (env w) path) as [f [a|e]]; cbn in *; [|by split].
  split; [done|]. intros w'. rewrite <- (Ha a eq_refl).
  pose proof (env_canonical (env w') a) as [Ht' Hc]. specialize (Hn (env w') a).
  destruct (canonicalPath (env w') a) as [f' [k|e]]; cbn in *; [split; [done|by apply Hc]|].
  split; [done|]. repeat case_bool_decide; cbn; try done; symmetry; apply (Hn e); auto.
Qed.
End Safe.

(** ** The lanes of the files *)

Section Lanes.
Context {F E R : Type}.
Implicit Types (ph : gmap nat (phase F E R)) (lanes : jsstring → list nat).

Definition phase_key (p : phase F E R) : option jsstring :=
  match p with Waiting _ key _ | Running key _ _ => Some key | _ => None end.

(** The calls on each file that are registered and not over, in order. *)
Record lanes_ok ph (queues : gmap jsstring nat) (settled : gset nat) lanes : Prop := {
  lane_members : ∀ key i, i ∈ lanes key ↔ ∃ p, ph !! i = Some p ∧ phase_key p = Some key;
  lane_nodup : ∀ key, NoDup (lanes key);
  lane_running : ∀ i key b p, ph !! i = Some (Running key b p) → head (lanes key) = Some i;
  lane_waiting : ∀ i path key q, ph !! i = Some (Waiting path key q) →
    ∃ l1 l2, lanes key = l1 ++ i :: l2 ∧ match last l1 with Some j => q = Some j | None => ∀ j, q = Some j → j ∈ settled end;
  lane_queue : ∀ key, queues !! key = last (lanes key);
  lane_settled : ∀ i, i ∈ settled → ∃ r, ph !! i = Some (Finished r) }.

(** A change of phase that concerns no lane. *)
Lemma lanes_ok_outside ph queues settled lanes i p p' :
  lanes_ok ph queues settled lanes → ph !! i = Some p → phase_key p = None → phase_key p' = None →
  (∀ r, p ≠ Finished r) → lanes_ok (<[i := p']> ph) queues settled lanes.
Proof.
  intros [H1 H2 H3 H4 H5 H6] Hi Hk Hk' Hf. split; try done.
  - intros key j. rewrite H1. split; intros (q & Hq & Hkey); exists q; (split; [|done]).
    + rewrite lookup_insert_ne; [done|]. intros ->. congruence.
    + apply lookup_insert_Some in Hq as [[<- <-]|[? ?]]; [congruence|done].
  - intros j key b q Hj. apply lookup_insert_Some in Hj as [[<- ->]|[? Hj]]; [done|by eapply H3].
  - intros j path key q Hj. apply lookup_insert_Some in Hj as [[<- ->]|[? Hj]]; [done|by eapply H4].
  - intros j Hj. destruct (H6 j Hj) as [r Hr]. exists r. rewrite lookup_insert_ne; [done|]. intros ->. rewrite Hi in Hr. injection Hr as ->. by destruct (Hf r).
Qed.

(** A waiting call whose predecessor is over is the first of its lane. *)
Lemma waiting_first ph queues settled lanes i path key q :
  lanes_ok ph queues settled lanes → ph !! i = Some (Waiting path key q) → (∀ j, q = Some j → j ∈ settled) →
  head (lanes key) = Some i.
Proof.
  intros [H1 H2 H3 H4 H5 H6] Hi Hq. destruct (H4 _ _ _ _ Hi) as (l1 & l2 & Hl & Hlast).
  destruct (last l1) as [j|] eqn:Hj; [|by apply last_None in Hj; subst; rewrite Hl].
  subst q. destruct (H6 j (Hq j eq_refl)) as [r Hr]. exfalso.
  assert (j ∈ lanes key) as Hin by (rewrite Hl; apply elem_of_app; left; by apply last_Some_elem_of).
  apply H1 in Hin as (p & Hp & Hk). rewrite Hr in Hp. injection Hp as <-. done.
Qed.

(** The first of a lane begins or goes on. *)
Lemma lanes_ok_run ph queues settled lanes i key p b p' :
  lanes_ok ph queues settled lanes → ph !! i = Some p → phase_key p = Some key → head (lanes key) = Some i →
  lanes_ok (<[i := Running key b p']> ph) queues settled lanes.
Proof.
  intros [H1 H2 H3 H4 H5 H6] Hi Hk Hhead. split; try done.
  - intros key' j. rewrite H1. destruct (decide (i = j)) as [->|Hne].
    + rewrite lookup_insert_eq. split; intros (q & Hq & Hkey).
      * exists (Running key b p'). split; [done|]. cbn; congruence.
      * exists p. split; [done|]. injection Hq as <-. cbn in Hkey. congruence.
    + by rewrite lookup_insert_ne.
  - intros j key' b' q Hj. apply lookup_insert_Some in Hj as [[<- [= <- <- <-]]|[? Hj]]; [done|by eapply H3].
  - intros j path key' q Hj. apply lookup_insert_Some in Hj as [[<- ?]|[? Hj]]; [done|by eapply H4].
  - intros j Hj. destruct (H6 j Hj) as [r Hr]. exists r. rewrite lookup_insert_ne; [done|]. intros ->.
    rewrite Hi in Hr. injection Hr as ->. done.
Qed.

(** A call joins the lane of its file. *)
Lemma lanes_ok_join ph queues settled lanes i path key p :
  lanes_ok ph queues settled lanes → ph !! i = Some p → phase_key p = None → (∀ r, p ≠ Finished r) →
  lanes_ok (<[i := Waiting path key (queues !! key)]> ph) (<[key := i]> queues) settled
    (<[key := lanes key ++ [i]]> lanes).
Proof.
  intros [H1 H2 H3 H4 H5 H6] Hi Hk Hf.
  assert (∀ key', i ∉ lanes key') as Hnotin.
  { intros key' (q & Hq & Hk')%H1. congruence. }
  split.
  - intros key' j. destruct (decide (key' = key)) as [->|Hne].
    + rewrite fn_lookup_insert, elem_of_app, list_elem_of_singleton, H1. destruct (decide (i = j)) as [->|Hij].
      * rewrite lookup_insert_eq. split; [|by auto]. intros _. by eexists.
      * rewrite lookup_insert_ne by done. split; [intros [?|?]; [done|congruence]|by left].
    + rewrite fn_lookup_insert_ne by done. destruct (decide (i = j)) as [->|Hij].
      * rewrite lookup_insert_eq. split; [by intros ?%Hnotin|]. intros (q & [= <-] & Hkey). cbn in Hkey. congruence.
      * rewrite lookup_insert_ne by done. apply H1.
  - intros key'. destruct (decide (key' = key)) as [->|]; [|by rewrite fn_lookup_insert_ne]. rewrite fn_lookup_insert.
    apply NoDup_app. split_and!; [done| |apply NoDup_singleton]. intros j Hj ->%list_elem_of_singleton. by apply (Hnotin key).
  - intros j key' b q Hj. apply lookup_insert_Some in Hj as [[<- ?]|[? Hj]]; [done|]. pose proof (H3 _ _ _ _ Hj) as Hh.
    destruct (decide (key' = key)) as [->|]; [|by rewrite fn_lookup_insert_ne]. rewrite fn_lookup_insert. by destruct (lanes key).
  - intros j path' key' q Hj. apply lookup_insert_Some in Hj as [[<- [= <- <- <-]]|[? Hj]].
    + exists (lanes key), []. rewrite fn_lookup_insert, <- H5. split; [done|]. by destruct (queues !! key).
    + destruct (H4 _ _ _ _ Hj) as (l1 & l2 & Hl & Hq). destruct (decide (key' = key)) as [->|].
      * exists l1, (l2 ++ [i]). rewrite fn_lookup_insert, Hl. by rewrite <- app_assoc.
      * exists l1, l2. by rewrite fn_lookup_insert_ne.
  - intros key'. destruct (decide (key' = key)) as [->|].
    + by rewrite lookup_insert_eq, fn_lookup_insert, last_snoc.
    + by rewrite lookup_insert_ne, fn_lookup_insert_ne by done.
  - intros j Hj. destruct (H6 j Hj) as [r Hr]. exists r. rewrite lookup_insert_ne; [done|]. intros ->.
    rewrite Hi in Hr. injection Hr as ->. by destruct (Hf r).
Qed.

(** The first of a lane leaves it. *)
Lemma lanes_ok_leave ph queues settled lanes i key b p r rest :
  lanes_ok ph queues settled lanes → ph !! i = Some (Running key b p) → lanes key = i :: rest →
  lanes_ok (<[i := Finished r]> ph) (if bool_decide (queues !! key = Some i) then delete key queues else queues)
    ({[ i ]} ∪ settled) (<[key := rest]> lanes).
Proof.
  intros [H1 H2 H3 H4 H5 H6] Hi Hlane. pose proof (H2 key) as Hnd. rewrite Hlane in Hnd. apply NoDup_cons in Hnd as [Hir Hnd].
  assert (∀ key', key' ≠ key → i ∉ lanes key') as Hother.
  { intros key' Hne (q & Hq & Hk)%H1. rewrite Hi in Hq. injection Hq as <-. cbn in Hk. congruence. }
  split.
  - intros key' j. destruct (decide (i = j)) as [->|Hij].
    + rewrite lookup_insert_eq. destruct (decide (key' = key)) as [->|Hne].
      * rewrite fn_lookup_insert. split; [done|]. by intros (q & [= <-] & ?).
      * rewrite fn_lookup_insert_ne by done. split; [by intros ?%Hother|]. by intros (q & [= <-] & ?).
    + rewrite lookup_insert_ne by done. destruct (decide (key' = key)) as [->|Hne].
      * rewrite fn_lookup_insert, <- H1, Hlane, elem_of_cons. split; [by right|]. intros [->|?]; done.
      * rewrite fn_lookup_insert_ne by done. apply H1.
  - intros key'. destruct (decide (key' = key)) as [->|]; [by rewrite fn_lookup_insert|by rewrite fn_lookup_insert_ne].
  - intros j key' b' q Hj. apply lookup_insert_Some in Hj as [[<- ?]|[Hne Hj]]; [done|]. pose proof (H3 _ _ _ _ Hj) as Hh.
    destruct (decide (key' = key)) as [->|]; [|by rewrite fn_lookup_insert_ne]. rewrite Hlane in Hh. by injection Hh as ->.
  - intros j path' key' q Hj. apply lookup_insert_Some in Hj as [[<- ?]|[Hne Hj]]; [done|].
    destruct (H4 _ _ _ _ Hj) as (l1 & l2 & Hl & Hq). destruct (decide (key' = key)) as [->|].
    + rewrite fn_lookup_insert. rewrite Hlane in Hl. destruct l1 as [|i' l1]; [by injection Hl as ->|].
      injection Hl as <- ->. exists l1, l2. split; [done|]. destruct l1 as [|k l1].
      * cbn in Hq. subst q. intros k [= <-]. set_solver.
      * rewrite last_cons_cons in Hq. destruct (last (k :: l1)); [done|]. intros j0 Hj0%Hq. set_solver.
    + rewrite fn_lookup_insert_ne by done. exists l1, l2. split; [done|]. destruct (last l1); [done|]. intros k Hk. apply Hq in Hk. set_solver.
  - intros key'. rewrite H5, Hlane. destruct (decide (key' = key)) as [->|Hne].
    + rewrite fn_lookup_insert. destruct rest as [|k rest]; [rewrite bool_decide_true by done; apply lookup_delete_eq|].
      rewrite last_cons_cons, bool_decide_false; [by rewrite H5, Hlane|]. intros Hl.
      apply Hir. by apply last_Some_elem_of.
    + rewrite fn_lookup_insert_ne by done. case_bool_decide; [rewrite lookup_delete_ne by done|]; apply H5.
  - intros j [->%elem_of_singleton|Hj]%elem_of_union; [exists r; apply lookup_insert_eq|].
    destruct (H6 j Hj) as [r' Hr]. exists r'. rewrite lookup_insert_ne; [done|]. intros ->. congruence.
Qed.
End Lanes.

(** ** The invariant *)

Section Serial.
Context {F : Type} `{FileEnvLaws F} {E R : Type}.
Abbreviation outcome := (result (tool_error E) R).
Context (tools : list (tool F E R)) (effect : nat → option jsstring → option jsstring → outcome → Prop).
Context (body_ok : ∀ i t path c, tools !! i = Some t → safe (file_of path) (effect i c) (tool_body t path) c).
Context (in_place : ∀ i t f path, tools !! i = Some t →
  (absolutePath f (normalizeToolPath (tool_path t))).2 = Ok path → created_in_place path).
Implicit Types (s : state F E R).

(** The file a call is about, and the turns and registrations on a file. *)
Definition call_file (t : tool F E R) : jsstring := file_of (normalizeToolPath (tool_path t)).
Definition turns_on (key : jsstring) s : list (turn E R) := filter (λ t, turn_key t = key) (turns s).
Definition registered_on (key : jsstring) s : list nat := (filter (λ ik, ik.2 = key) (order s)).*1.

(** Turns that begin with the text the one before left. *)
Fixpoint chained (c : option jsstring) (ts : list (turn E R)) (c' : option jsstring) : Prop :=
  match ts with
  | [] => c = c'
  | t :: ts => turn_before t = c ∧ chained (turn_after t) ts c'
  end.

Lemma chained_snoc c ts t c' : chained c (ts ++ [t]) c' ↔ chained c ts (turn_before t) ∧ turn_after t = c'.
Proof.
  revert c. induction ts as [|u ts IH]; intros c; cbn; [|rewrite IH; tauto].
  split; [intros [-> ->]|intros [-> ->]]; done.
Qed.

Abbreviation text s key := (text_of texts s key).

(** The text when the turn that is running began, or as it is. *)
Definition turn_text s lanes key : option jsstring :=
  match head (lanes key) ≫= (phases s !!.) with Some (Running _ b _) => b | _ => text s key end.

Record inv (f0 : F) s (lanes : jsstring → list nat) : Prop := {
  inv_lanes : lanes_ok (phases s) (queues s) (settled s) lanes;
  inv_registration : NoDup (registration s) ∧ ∀ i, i ∈ registration s → ∃ path p, phases s !! i = Some (Registering path p);
  inv_resolving : ∀ i, phases s !! i = Some Resolving → ∃ t, tools !! i = Some t;
  inv_registering : ∀ i path p, phases s !! i = Some (Registering path p) →
    i ∈ registration s ∧ key_ok (file_of path) p ∧ ∃ t, tools !! i = Some t ∧ file_of path = call_file t;
  inv_waiting : ∀ i path key q, phases s !! i = Some (Waiting path key q) → key = file_of path ∧ ∃ t, tools !! i = Some t;
  inv_running : ∀ i key b p, phases s !! i = Some (Running key b p) → safe key (effect i b) p (text s key);
  inv_order : ∀ key, (turn_call <$> turns_on key s) ++ lanes key = registered_on key s;
  inv_files : Forall (λ ik, ∃ t, tools !! ik.1 = Some t ∧ ik.2 = call_file t) (order s);
  inv_turns : ∀ key, chained (texts f0 !! key) (turns_on key s) (turn_text s lanes key);
  inv_effect : Forall (λ t, effect (turn_call t) (turn_before t) (turn_after t) (turn_result t)) (turns s) }.

Lemma initial_phases f i p : phases (initial (E:=E) (R:=R) f tools) !! i = Some p → p = Resolving ∧ ∃ t, tools !! i = Some t.
Proof.
  cbn. intros Hp%elem_of_list_to_map_2. apply elem_of_lookup_imap in Hp as (j & t & [= -> ->] & Ht). split; [done|by exists t].
Qed.

Lemma queue_inv_initial f : inv f (initial f tools) (λ _, []).
Proof.
  split; try (intros i *; intros Hp%initial_phases; destruct Hp as [Hp ?]; congruence); try done.
  - split; try (intros i *; intros Hp%initial_phases; destruct Hp as [Hp ?]; congruence); try done.
    + intros key i. split; [by intros ?%elem_of_nil|]. by intros (p & [-> _]%initial_phases & [=]).
    + intros. apply NoDup_nil_2.
  - split; [apply NoDup_nil_2|by intros i ?%elem_of_nil].
Qed.

(** A world in which the texts have not changed. *)
Lemma inv_world f0 s lanes w :
  inv f0 s lanes → texts (env w) = texts (env (world s)) → inv f0 (s <| world := w |>) lanes.
Proof.
  intros [I1 I2 I3 I4 I5 I6 I7 I8 I9 I10] Hw. split; try done.
  - intros i key b p Hi. unfold text_of. cbn [world set_field]. rewrite Hw. by eapply I6.
  - intros key. specialize (I9 key). unfold turn_text, text_of in *. cbn [world phases set_field]. by rewrite Hw.
Qed.

(** A change of phase outside the lanes. *)
Lemma turn_text_outside s s' lanes i p key :
  lanes_ok (phases s) (queues s) (settled s) lanes → phases s !! i = Some p → phase_key p = None →
  (∀ j, j ≠ i → phases s' !! j = phases s !! j) → world s' = world s → turn_text s' lanes key = turn_text s lanes key.
Proof.
  intros Hl Hi Hk Hph Hw. unfold turn_text, text_of. rewrite Hw. destruct (head (lanes key)) as [j|] eqn:Hj; [|done]. cbn.
  rewrite Hph; [done|]. intros ->. assert (i ∈ lanes key) as Hin by (by apply head_Some_elem_of).
  apply (lane_members _ _ _ _ Hl) in Hin as (q & Hq & Hkq). congruence.
Qed.

Lemma inv_outside f0 s lanes i p p' reg :
  inv f0 s lanes → phases s !! i = Some p → phase_key p = None → (∀ r, p ≠ Finished r) → phase_key p' = None → p' ≠ Resolving →
  NoDup reg → (∀ j, j ∈ reg → ∃ path q, <[i := p']> (phases s) !! j = Some (Registering path q)) →
  (∀ j, j ≠ i → j ∈ registration s → j ∈ reg) →
  (∀ path q, p' = Registering path q → i ∈ reg ∧ key_ok (file_of path) q ∧ ∃ t, tools !! i = Some t ∧ file_of path = call_file t) →
  inv f0 (set_phase i p' s <| registration := reg |>) lanes.
Proof.
  intros Hinv Hi Hk Hf Hk' Hres Hnd Hreg Hkeep Hnew. pose proof Hinv as [I1 I2 I3 I4 I5 I6 I7 I8 I9 I10].
  split; cbn [phases queues settled registration set_phase set_field turns order world]; try done.
  - by eapply lanes_ok_outside.
  - intros j Hj. apply lookup_insert_Some in Hj as [[<- ?]|[? Hj]]; [done|by apply I3].
  - intros j path q Hj. apply lookup_insert_Some in Hj as [[<- ?]|[? Hj]]; [by apply Hnew|].
    destruct (I4 _ _ _ Hj) as (? & ? & ?). split; [by apply Hkeep|done].
  - intros j path key q Hj. apply lookup_insert_Some in Hj as [[<- ->]|[? Hj]]; [done|by eapply I5].
  - intros j key b q Hj. apply lookup_insert_Some in Hj as [[<- ->]|[? Hj]]; [done|by eapply I6].
  - intros key. erewrite (turn_text_outside s); [apply I9|done|done|done|..]; [|done].
    intros j Hj. cbn. by rewrite lookup_insert_ne.
Qed.

(** Steps of a call outside its turn. *)
Lemma inv_resolve f0 s lanes i t r f :
  inv f0 s lanes → phases s !! i = Some Resolving → tools !! i = Some t → texts f = texts (env (world s)) →
  (∀ path, r = Ok path → file_of path = call_file t ∧ created_in_place path) →
  inv f0 (let s := s <| world := (world s) <| env := f |> |> in
          match r with
          | Ok path => set_phase i (Registering path (getMutationQueueKey path)) s <| registration := registration s ++ [i] |>
          | Err code => set_phase i (Finished (Err (FileFailure code))) s
          end) lanes.
Proof.
  intros Hinv Hi Ht Hf Hr. assert (inv f0 (s <| world := (world s) <| env := f |> |>) lanes) as Hw by (by apply inv_world). cbn zeta.
  assert (i ∉ registration s) as Hnot.
  { intros (path & p & Hp)%(proj2 (inv_registration _ _ _ Hinv)). congruence. }
  destruct r as [path|code].
  - apply (inv_outside _ (s <| world := (world s) <| env := f |> |>) _ _ Resolving); try done.
    + apply NoDup_app. split_and!; [apply (inv_registration _ _ _ Hinv)| |apply NoDup_singleton].
      intros j Hj ->%list_elem_of_singleton. done.
    + intros j [Hj| ->%list_elem_of_singleton]%elem_of_app; [|rewrite lookup_insert_eq; eauto].
      rewrite lookup_insert_ne by (by intros ->). by apply (inv_registration _ _ _ Hinv).
    + intros j _ Hj. apply elem_of_app. by left.
    + intros p q [= <- <-]. split_and!; [apply elem_of_app; right; by apply list_elem_of_singleton|apply getMutationQueueKey_ok; by apply Hr|].
      exists t. split; [done|by apply Hr].
  - apply (inv_outside _ (s <| world := (world s) <| env := f |> |>) _ _ Resolving _ (registration s)); try done.
    + apply (inv_registration _ _ _ Hinv).
    + intros j Hj. rewrite lookup_insert_ne by (by intros ->). by apply (inv_registration _ _ _ Hinv).
Qed.

Lemma inv_key f0 s lanes i path g rest w p :
  inv f0 s lanes → registration s = i :: rest → phases s !! i = Some (Registering path (PStep g)) → g (world s) = (w, p) →
  inv f0 (set_phase i (Registering path p) (s <| world := w |>)) lanes.
Proof.
  intros Hinv Hreg Hi Hg. destruct (inv_registering _ _ _ Hinv _ _ _ Hi) as (Hin & Hkey & Ht).
  cbn [key_ok] in Hkey. specialize (Hkey (world s)). rewrite Hg in Hkey. destruct Hkey as [Hw Hkey].
  pose proof (inv_world f0 s lanes w Hinv Hw) as Hinv'.
  apply (inv_outside _ (s <| world := w |>) _ _ (Registering path (PStep g)) _ (registration s)); try done.
  - apply (inv_registration _ _ _ Hinv).
  - intros j Hj. destruct (decide (i = j)) as [->|]; [rewrite lookup_insert_eq; eauto|].
    rewrite lookup_insert_ne by done. by apply (inv_registration _ _ _ Hinv).
  - by intros ? ? [= <- <-].
Qed.

(** A call joins the lane of its file. *)
Lemma inv_join f0 s lanes i path key rest :
  inv f0 s lanes → registration s = i :: rest → phases s !! i = Some (Registering path (PDone (Ok key))) →
  inv f0 (set_phase i (Waiting path key (queues s !! key)) (s <| registration := rest |>)
            <| queues := <[key := i]> (queues s) |> <| order := order s ++ [(i, key)] |>)
    (<[key := lanes key ++ [i]]> lanes).
Proof.
  intros Hinv Hreg Hi. destruct (inv_registering _ _ _ Hinv _ _ _ Hi) as (_ & Hkey & t & Ht & Hfile). cbn in Hkey.
  destruct Hinv as [I1 [Ind I2] I3 I4 I5 I6 I7 I8 I9 I10]. rewrite Hreg in Ind. apply NoDup_cons in Ind as [Hir Ind].
  assert (∀ key' j, head (lanes key') = Some j → j ≠ i) as Hhead.
  { intros key' j Hj ->. assert (i ∈ lanes key') as Hin by (by apply head_Some_elem_of).
    apply (lane_members _ _ _ _ I1) in Hin as (q & Hq & Hk). rewrite Hi in Hq. by injection Hq as <-. }
  split; cbn [phases queues settled registration set_phase set_field turns order world].
  - by eapply lanes_ok_join.
  - split; [done|]. intros j Hj. rewrite lookup_insert_ne by (by intros ->). apply I2. rewrite Hreg. by right.
  - intros j Hj. apply lookup_insert_Some in Hj as [[<- ?]|[? Hj]]; [done|by apply I3].
  - intros j path' q Hj. apply lookup_insert_Some in Hj as [[<- ?]|[? Hj]]; [done|].
    destruct (I4 _ _ _ Hj) as (Hin & ? & ?). rewrite Hreg in Hin. apply elem_of_cons in Hin as [->|Hin]; done.
  - intros j path' key' q Hj. apply lookup_insert_Some in Hj as [[<- [= <- <- <-]]|[? Hj]]; [split; [done|by exists t]|by eapply I5].
  - intros j key' b q Hj. apply lookup_insert_Some in Hj as [[<- ?]|[? Hj]]; [done|by eapply I6].
  - intros key'. unfold turns_on, registered_on. cbn [turns order set_field set_phase].
    rewrite filter_app, fmap_app, filter_cons, filter_nil. cbn [snd].
    specialize (I7 key'). unfold turns_on, registered_on in I7. case_decide as Hk.
    + subst key'. rewrite fn_lookup_insert, <- I7, <- app_assoc. done.
    + rewrite fn_lookup_insert_ne by done. by rewrite app_nil_r.
  - apply Forall_app. split; [done|]. apply Forall_singleton. exists t. cbn. split; [done|]. congruence.
  - intros key'. specialize (I9 key'). unfold turns_on, turn_text, text_of in *. cbn [turns phases world set_phase set_field].
    destruct (decide (key' = key)) as [->|].
    + rewrite fn_lookup_insert. destruct (lanes key) as [|j l] eqn:Hl; cbn [head app mbind option_bind] in *.
      * by rewrite lookup_insert_eq.
      * rewrite lookup_insert_ne; [done|]. intros ->. by apply (Hhead key j); rewrite ?Hl.
    + rewrite fn_lookup_insert_ne by done. destruct (head (lanes key')) as [j|] eqn:Hl; cbn [mbind option_bind] in *; [|done].
      rewrite lookup_insert_ne; [done|]. intros ->. by apply (Hhead key' j).
  - done.
Qed.

(** The first of its lane begins its turn. *)
Lemma inv_start f0 s lanes i t path key q :
  inv f0 s lanes → phases s !! i = Some (Waiting path key q) → tools !! i = Some t → (∀ j, q = Some j → j ∈ settled s) →
  inv f0 (set_phase i (Running key (text s key) (tool_body t path)) s) lanes.
Proof.
  intros Hinv Hi Ht Hq. destruct (inv_waiting _ _ _ Hinv _ _ _ _ Hi) as [-> _].
  destruct Hinv as [I1 [Ind I2] I3 I4 I5 I6 I7 I8 I9 I10].
  pose proof (waiting_first _ _ _ _ _ _ _ _ I1 Hi Hq) as Hhead.
  split; cbn [phases queues settled registration set_phase set_field turns order world]; try done.
  - by eapply lanes_ok_run.
  - split; [done|]. intros j Hj. destruct (I2 j Hj) as (p & r & Hp). exists p, r. rewrite lookup_insert_ne; [done|]. intros ->. congruence.
  - intros j Hj. apply lookup_insert_Some in Hj as [[<- ?]|[? Hj]]; [done|by apply I3].
  - intros j path' p Hj. apply lookup_insert_Some in Hj as [[<- ?]|[? Hj]]; [done|by apply I4].
  - intros j path' key' p Hj. apply lookup_insert_Some in Hj as [[<- ?]|[? Hj]]; [done|by eapply I5].
  - intros j key' b p Hj. apply lookup_insert_Some in Hj as [[<- [= <- <- <-]]|[? Hj]]; [by apply body_ok|by eapply I6].
  - intros key'. specialize (I9 key'). unfold turns_on, turn_text, text_of in *. cbn [turns phases world set_phase set_field].
    destruct (head (lanes key')) as [j|] eqn:Hj; cbn [mbind option_bind] in *; [|done].
    destruct (decide (i = j)) as [->|]; [|by rewrite lookup_insert_ne]. rewrite lookup_insert_eq.
    assert (key' = file_of path) as ->; [|by rewrite Hi in I9].
    assert (j ∈ lanes key') as Hin by (by apply head_Some_elem_of).
    apply (lane_members _ _ _ _ I1) in Hin as (p & Hp & Hk). rewrite Hi in Hp. injection Hp as <-. by injection Hk.
Qed.

(** A step of a turn changes no text but that of its file. *)
Lemma inv_run f0 s lanes i key b g w p :
  inv f0 s lanes → phases s !! i = Some (Running key b (PStep g)) → g (world s) = (w, p) →
  inv f0 (set_phase i (Running key b p) (s <| world := w |>)) lanes.
Proof.
  intros Hinv Hi Hg. pose proof (inv_running _ _ _ Hinv _ _ _ _ Hi) as Hsafe. cbn [safe] in Hsafe.
  specialize (Hsafe (world s) eq_refl). rewrite Hg in Hsafe. destruct Hsafe as [Hother Hsafe].
  destruct Hinv as [I1 [Ind I2] I3 I4 I5 I6 I7 I8 I9 I10].
  pose proof (lane_running _ _ _ _ I1 _ _ _ _ Hi) as Hhead.
  split; cbn [phases queues settled registration set_phase set_field turns order world]; try done.
  - by eapply lanes_ok_run.
  - split; [done|]. intros j Hj. destruct (I2 j Hj) as (p' & r & Hp). exists p', r. rewrite lookup_insert_ne; [done|]. intros ->. congruence.
  - intros j Hj. apply lookup_insert_Some in Hj as [[<- ?]|[? Hj]]; [done|by apply I3].
  - intros j path' p' Hj. apply lookup_insert_Some in Hj as [[<- ?]|[? Hj]]; [done|by apply I4].
  - intros j path' key' p' Hj. apply lookup_insert_Some in Hj as [[<- ?]|[? Hj]]; [done|by eapply I5].
  - intros j key' b' p' Hj. apply lookup_insert_Some in Hj as [[<- [= <- <- <-]]|[Hne Hj]]; [done|].
    assert (key' ≠ key) as Hkey.
    { intros ->. pose proof (lane_running _ _ _ _ I1 _ _ _ _ Hj). congruence. }
    unfold text_of. cbn [world set_phase set_field]. rewrite (Hother key' Hkey). by eapply I6.
  - intros key'. specialize (I9 key'). unfold turns_on, turn_text, text_of in *. cbn [turns phases world set_phase set_field].
    destruct (decide (key' = key)) as [->|Hkey].
    + rewrite Hhead in *. cbn [mbind option_bind] in *. rewrite lookup_insert_eq. by rewrite Hi in I9.
    + rewrite (Hother key' Hkey). destruct (head (lanes key')) as [j|] eqn:Hj; cbn [mbind option_bind] in *; [|done].
      rewrite lookup_insert_ne; [done|]. intros ->. assert (j ∈ lanes key') as Hin by (by apply head_Some_elem_of).
      apply (lane_members _ _ _ _ I1) in Hin as (p' & Hp & Hk). rewrite Hi in Hp. injection Hp as <-. cbn in Hk. congruence.
Qed.

(** The turn is over. *)
Lemma inv_finish f0 s lanes i key b r rest :
  inv f0 s lanes → phases s !! i = Some (Running key b (PDone r)) → lanes key = i :: rest →
  inv f0 (set_phase i (Finished r) s
            <| settled := {[ i ]} ∪ settled s |>
            <| queues := if bool_decide (queues s !! key = Some i) then delete key (queues s) else queues s |>
            <| turns := turns s ++ [MkTurn i key b (text s key) r] |>) (<[key := rest]> lanes).
Proof.
  intros Hinv Hi Hlane. pose proof (inv_running _ _ _ Hinv _ _ _ _ Hi) as Hsafe. cbn [safe] in Hsafe.
  destruct Hinv as [I1 [Ind I2] I3 I4 I5 I6 I7 I8 I9 I10].
  split; cbn [phases queues settled registration set_phase set_field turns order world]; try done.
  - by eapply lanes_ok_leave.
  - split; [done|]. intros j Hj. destruct (I2 j Hj) as (p' & q & Hp). exists p', q. rewrite lookup_insert_ne; [done|]. intros ->. congruence.
  - intros j Hj. apply lookup_insert_Some in Hj as [[<- ?]|[? Hj]]; [done|by apply I3].
  - intros j path' p' Hj. apply lookup_insert_Some in Hj as [[<- ?]|[? Hj]]; [done|by apply I4].
  - intros j path' key' p' Hj. apply lookup_insert_Some in Hj as [[<- ?]|[? Hj]]; [done|by eapply I5].
  - intros j key' b' p' Hj. apply lookup_insert_Some in Hj as [[<- ?]|[Hne Hj]]; [done|by eapply I6].
  - intros key'. specialize (I7 key'). unfold turns_on, registered_on in *. cbn [turns order set_field set_phase].
    rewrite filter_app, filter_cons, filter_nil. cbn [turn_key]. case_decide as Hk.
    + subst key'. rewrite fn_lookup_insert, fmap_app, <- I7, Hlane, <- app_assoc. done.
    + rewrite fn_lookup_insert_ne by done. by rewrite app_nil_r.
  - intros key'. specialize (I9 key'). unfold turns_on, turn_text, text_of in *. cbn [turns phases world set_phase set_field].
    rewrite filter_app, filter_cons, filter_nil. cbn [turn_key]. case_decide as Hk.
    + subst key'. rewrite fn_lookup_insert. rewrite Hlane in I9. cbn [head mbind option_bind] in I9. rewrite Hi in I9.
      apply chained_snoc. split; [done|]. cbn [turn_after]. destruct rest as [|j rest]; [done|]. cbn [head mbind option_bind].
      pose proof (lane_nodup _ _ _ _ I1 key) as Hnd. rewrite Hlane in Hnd. apply NoDup_cons in Hnd as [Hnot _].
      rewrite lookup_insert_ne by (intros ->; apply Hnot; by left).
      destruct (phases s !! j) as [[| | |key' b' p'|]|] eqn:Hj; try done. exfalso.
      assert (j ∈ lanes key) as Hin by (rewrite Hlane; right; by left).
      apply (lane_members _ _ _ _ I1) in Hin as (p & Hp & Hkp). rewrite Hj in Hp. injection Hp as <-. injection Hkp as ->.
      pose proof (lane_running _ _ _ _ I1 _ _ _ _ Hj) as Hh. rewrite Hlane in Hh. injection Hh as ->. apply Hnot. by left.
    + rewrite fn_lookup_insert_ne, app_nil_r by done. destruct (head (lanes key')) as [j|] eqn:Hj; cbn [mbind option_bind] in *; [|done].
      rewrite lookup_insert_ne; [done|]. intros ->. assert (j ∈ lanes key') as Hin by (by apply head_Some_elem_of).
      apply (lane_members _ _ _ _ I1) in Hin as (p' & Hp & Hkp). rewrite Hi in Hp. injection Hp as <-. cbn in Hkp. congruence.
  - apply Forall_app. split; [done|]. by apply Forall_singleton.
Qed.

Lemma inv_act f0 s s' lanes : inv f0 s lanes → act texts tools s s' → ∃ lanes', inv f0 s' lanes'.
Proof.
  intros Hinv Hact. destruct Hact as [i t e s Hi Ht He|i t f r s Hi Ht Hv Hf|i path g rest w p s Hreg Hi Hg|i path r rest s Hreg Hi
    |i t path key q s Hi Ht Hq|i key b g w p s Hi Hg|i key b r s Hi].
  - exists lanes. pose proof (inv_registration _ _ _ Hinv) as [Hnd Hreg].
    apply (inv_outside _ s _ _ Resolving _ (registration s)); try done.
    intros j Hj. rewrite lookup_insert_ne; [by apply Hreg|]. intros ->. destruct (Hreg _ Hj) as (? & ? & ?). congruence.
  - exists lanes. pose proof (env_absolute (env (world s)) (normalizeToolPath (tool_path t))) as [Htx Hfile].
    pose proof (in_place i t (env (world s))) as Hplace.
    rewrite Hf in Htx, Hfile, Hplace. eapply inv_resolve; [done..|]. intros path ->. split; [by apply Hfile|by apply Hplace].
  - exists lanes. by eapply inv_key.
  - destruct r as [key|e]; [exists (<[key := lanes key ++ [i]]> lanes); exact (inv_join f0 s lanes i path key rest Hinv Hreg Hi)|]. exists lanes.
    pose proof (inv_registration _ _ _ Hinv) as [Hnd Hreg']. rewrite Hreg in Hnd. apply NoDup_cons in Hnd as [Hir Hnd].
    apply (inv_outside _ s _ _ (Registering path (PDone (Err e)))); try done.
    + intros j Hj. rewrite lookup_insert_ne by (by intros ->). apply Hreg'. rewrite Hreg. by right.
    + intros j Hne Hj. rewrite Hreg in Hj. by apply elem_of_cons in Hj as [->|Hj].
  - exists lanes. by eapply inv_start.
  - exists lanes. by eapply inv_run.
  - pose proof (lane_running _ _ _ _ (inv_lanes _ _ _ Hinv) _ _ _ _ Hi) as Hh.
    destruct (lanes key) as [|j rest] eqn:Hl; [done|]. injection Hh as ->. eexists. by eapply inv_finish.
Qed.

Lemma inv_reachable f s : reachable texts tools f s → ∃ lanes, inv f s lanes.
Proof.
  induction 1 as [|s s' Hr [lanes Hinv] Hstep]; [exists (λ _, []); apply queue_inv_initial|].
  destruct Hstep as [s1 s2 Hact|i s1]; [by eapply inv_act|]. exists lanes. by apply inv_world.
Qed.

(** Some call can go on as long as one is not over. *)
Lemma inv_progress f s lanes i p :
  inv f s lanes → phases s !! i = Some p → (∀ r, p ≠ Finished r) → ∃ s', act texts tools s s'.
Proof.
  intros Hinv Hi Hf.
  assert (∀ key, phase_key p = Some key → ∃ s', act texts tools s s') as Hlane.
  { intros key Hk. assert (i ∈ lanes key) as Hin by (apply (lane_members _ _ _ _ (inv_lanes _ _ _ Hinv)); by exists p).
    destruct (lanes key) as [|j rest] eqn:Hl; [by apply elem_of_nil in Hin|].
    assert (j ∈ lanes key) as Hj by (rewrite Hl; left).
    apply (lane_members _ _ _ _ (inv_lanes _ _ _ Hinv)) in Hj as (q & Hq & Hkq).
    destruct q as [| |path key' q|key' b q|]; try done; injection Hkq as ->.
    - destruct (inv_waiting _ _ _ Hinv _ _ _ _ Hq) as [_ [t Ht]]. eexists. eapply act_start; [done|done|].
      destruct (lane_waiting _ _ _ _ (inv_lanes _ _ _ Hinv) _ _ _ _ Hq) as (l1 & l2 & Hsplit & Hlast).
      destruct l1 as [|j' l1]; [exact Hlast|]. exfalso. rewrite Hl in Hsplit. injection Hsplit as <- Hrest.
      pose proof (lane_nodup _ _ _ _ (inv_lanes _ _ _ Hinv) key) as Hnd. rewrite Hl, Hrest in Hnd.
      apply NoDup_cons in Hnd as [Hnot _]. apply Hnot, elem_of_app. right. left.
    - destruct q as [r|g]; [by eexists; eapply act_finish|]. destruct (g (world s)) as [w p'] eqn:Hg. by eexists; eapply act_run. }
  destruct p as [|path p|path key q|key b p|r]; [..|by destruct (Hf r)]; [| |by apply (Hlane key)..].
  - destruct (inv_resolving _ _ _ Hinv _ Hi) as [t Ht]. destruct (tool_invalid t) as [e|] eqn:Hv; [by eexists; eapply act_invalid|].
    destruct (absolutePath (env (world s)) (normalizeToolPath (tool_path t))) as [f' r] eqn:Ha. eexists. by eapply act_resolve.
  - destruct (inv_registering _ _ _ Hinv _ _ _ Hi) as [Hin _]. destruct (registration s) as [|j rest] eqn:Hr; [by apply elem_of_nil in Hin|].
    destruct (proj2 (inv_registration _ _ _ Hinv) j) as (path' & q & Hq); [rewrite Hr; left|].
    destruct q as [r|g]; [by eexists; eapply act_registered|]. destruct (g (world s)) as [w p'] eqn:Hg. by eexists; eapply act_key.
Qed.

(** The turns on each file. *)
Lemma mutations_serial f s :
  reachable texts tools f s →
  (∀ i j key b b' p p', phases s !! i = Some (Running key b p) → phases s !! j = Some (Running key b' p') → i = j)
  ∧ (∀ key, turn_call <$> turns_on key s `prefix_of` registered_on key s)
  ∧ (∀ key i, i ∈ registered_on key s → ∃ t, tools !! i = Some t ∧ key = call_file t)
  ∧ (∀ key, ∃ now, chained (texts f !! key) (turns_on key s) now
      ∧ ((∀ i b p, phases s !! i ≠ Some (Running key b p)) → now = text s key))
  ∧ Forall (λ t, effect (turn_call t) (turn_before t) (turn_after t) (turn_result t)) (turns s)
  ∧ ((∃ i p, phases s !! i = Some p ∧ ∀ r, p ≠ Finished r) → ∃ s', act texts tools s s')
  ∧ ((∀ i p, phases s !! i = Some p → ∃ r, p = Finished r) → queues s = ∅).
Proof.
  intros Hr. destruct (inv_reachable f s Hr) as [lanes Hinv]. pose proof (inv_lanes _ _ _ Hinv) as Hl. split_and!.
  - intros i j key b b' p p' Hi Hj. pose proof (lane_running _ _ _ _ Hl _ _ _ _ Hi). pose proof (lane_running _ _ _ _ Hl _ _ _ _ Hj). congruence.
  - intros key. rewrite <- (inv_order _ _ _ Hinv key). by apply prefix_app_r.
  - intros key i ([i' key'] & -> & [Hk Hin]%list_elem_of_filter)%list_elem_of_fmap. cbn in *. subst key'.
    pose proof (inv_files _ _ _ Hinv) as Hf. rewrite Forall_forall in Hf. by apply (Hf (i', key)).
  - intros key. exists (turn_text s lanes key). split; [apply (inv_turns _ _ _ Hinv)|]. intros Hno. unfold turn_text.
    destruct (head (lanes key)) as [i|] eqn:Hi; cbn; [|done]. destruct (phases s !! i) as [[| | |key' b p|]|] eqn:Hp; try done.
    exfalso. assert (i ∈ lanes key) as Hin by (by apply head_Some_elem_of).
    apply (lane_members _ _ _ _ Hl) in Hin as (q & Hq & Hk). rewrite Hp in Hq. injection Hq as <-. injection Hk as ->. by eapply Hno.
  - apply (inv_effect _ _ _ Hinv).
  - intros (i & p & Hi & Hf). by eapply inv_progress.
  - intros Hall. apply map_eq. intros key. rewrite (lane_queue _ _ _ _ Hl), lookup_empty.
    destruct (lanes key) as [|i rest] eqn:Hk; [done|]. exfalso.
    assert (i ∈ lanes key) as Hin by (rewrite Hk; left). apply (lane_members _ _ _ _ Hl) in Hin as (p & Hp & Hkp).
    by destruct (Hall i p Hp) as [r ->].
Qed.
End Serial.
