(* ===== verification/EditTool.v ===== *)
(** * The edit and write tools

    [packages/agent/src/harness/tools/edit.ts] and [write.ts]: the bodies that run
    under the queue of file mutations, and what becomes of files that several calls
    edit and write at the same time. *)

From S2P Require Import Prelude JsString SessionTypes SessionState JsonText JsMap FileSystem EditDiff DiffDisplay.
From S2P Require Import MutationQueue MutationQueueTheorems.

(** ** Arguments *)

Definition string_prop (props : list (jsstring * JsonValue)) (key : string) : option jsstring :=
  match map_get props (js key) with Some (JsonString s) => Some s | _ => None end.

(** [isSingleEditInput]. *)
Definition isSingleEditInput (value : JsonValue) : bool :=
  match value with
  | JsonObject props => bool_decide (is_Some (string_prop props "oldText")) && bool_decide (is_Some (string_prop props "newText"))
  | _ => false
  end.

Definition delete_prop (props : list (jsstring * JsonValue)) (key : string) : list (jsstring * JsonValue) :=
  map_delete props (js key).

(** What a model may send instead of the list of edits: its text, one edit, or an edit
    in the properties of the arguments themselves. *)
Definition prepareEditArguments (input : JsonValue) : JsonValue :=
  match input with
  | JsonObject args =>
      let args :=
        match map_get args (js "edits") with
        | Some (JsonString text) =>
            match json_parse text with
            | Some (JsonArray parsed) => map_set args (js "edits") (JsonArray parsed)
            | Some parsed => if isSingleEditInput parsed then map_set args (js "edits") (JsonArray [parsed]) else args
            | None => args
            end
        | Some edits => if isSingleEditInput edits then map_set args (js "edits") (JsonArray [edits]) else args
        | None => args
        end in
      match string_prop args "oldText", string_prop args "newText" with
      | Some oldText, Some newText =>
          let edits := match map_get args (js "edits") with Some (JsonArray edits) => edits | _ => [] end in
          let edit := JsonObject [(js "oldText", JsonString oldText); (js "newText", JsonString newText)] in
          let rest := delete_prop (delete_prop args "oldText") "newText" in
          JsonObject (map_set rest (js "edits") (JsonArray (edits ++ [edit])))
      | _, _ => JsonObject args
      end
  | _ => input
  end.

(** ** The bodies *)

Inductive tool_failure := InvalidEdits | NotAFile | EditRefused (e : edit_error).

Record EditToolDetails := MkEditDetails { diff : jsstring; patch : jsstring; firstChanged : option Z }.
Inductive tool_output := EditOutput (blocks : Z) (details : EditToolDetails) | WriteOutput (units : Z).

Section Tools.
Context {F : Type} `{FileEnvLaws F}.
(** Unicode normalisation and the difference package. *)
Context (nfkc : jsstring → jsstring) (diffLines : jsstring → jsstring → list part)
  (createTwoFilesPatch : jsstring → jsstring → jsstring → jsstring).

Abbreviation outcome := (result (tool_error tool_failure) tool_output).

(** What an edit makes of the text of a file. *)
Definition edited_text (text : jsstring) (edits : list Edit) : result edit_error (jsstring * jsstring * jsstring) :=
  let '(bom, content) := stripBom text in
  '(baseContent, newContent) ← applyEditsToNormalizedContent nfkc (normalizeToLF content) edits;
  Ok (bom ++ restoreLineEndings newContent (detectLineEnding content), baseContent, newContent).

Definition edit_details (path baseContent newContent : jsstring) : EditToolDetails :=
  let d := generateDiffString diffLines baseContent newContent 4 in
  MkEditDetails d.1 (createTwoFilesPatch path baseContent newContent) d.2.

(** The function that [withFileMutationQueue] calls, for call number [i]. *)
Definition edit_body (i : nat) (path : jsstring) (edits : list Edit) (absolutePath : jsstring) : prog F outcome :=
  _ ⟵ check_signal i;
  info ⟵ getOrThrow (λ f, fileInfo f absolutePath);
  match info_kind info with
  | fk_directory => PDone (Err (ToolFailure NotAFile))
  | fk_file | fk_symlink =>
      text ⟵ getOrThrow (λ f, readTextFile f absolutePath);
      _ ⟵ check_signal i;
      match edited_text text edits with
      | Err e => PDone (Err (ToolFailure (EditRefused e)))
      | Ok (finalContent, baseContent, newContent) =>
          _ ⟵ check_signal i;
          _ ⟵ getOrThrow (λ f, writeFile f absolutePath finalContent);
          _ ⟵ check_signal i;
          PDone (Ok (EditOutput (zlen edits) (edit_details path baseContent newContent)))
      end
  end.

Definition write_body (i : nat) (content : jsstring) (absolutePath : jsstring) : prog F outcome :=
  _ ⟵ check_signal i;
  _ ⟵ getOrThrow (λ f, writeFile f absolutePath content);
  _ ⟵ check_signal i;
  PDone (Ok (WriteOutput (zlen content))).

(** [validateEditInput], before anything else. *)
Definition validateEditInput (edits : list Edit) : option (tool_error tool_failure) :=
  match edits with [] => Some (ToolFailure InvalidEdits) | _ => None end.

(** ** Calls made together *)

Inductive request := EditFile (path : jsstring) (edits : list Edit) | WriteFile (path content : jsstring).

Definition request_tool (i : nat) (r : request) : tool F tool_failure tool_output :=
  match r with
  | EditFile path edits => MkTool (validateEditInput edits) path (edit_body i path edits)
  | WriteFile path content => MkTool None path (write_body i content)
  end.
Definition request_path (r : request) : jsstring := match r with EditFile path _ | WriteFile path _ => path end.
Definition request_tools (rs : list request) : list (tool F tool_failure tool_output) := imap request_tool rs.

(** What a turn makes of its file.  A failure before the text is written changes
    nothing; a write that fails may leave anything; a signal may come after it. *)
Definition turn_effect (rs : list request) (i : nat) (before after : option jsstring) (r : outcome) : Prop :=
  match rs !! i with
  | Some (EditFile path edits) =>
      match r with
      | Ok out =>
          ∃ text final base new, before = Some text ∧ edited_text text edits = Ok (final, base, new) ∧ after = Some final
            ∧ out = EditOutput (zlen edits) (edit_details path base new)
      | Err (ToolFailure (EditRefused e)) => after = before ∧ ∃ text, before = Some text ∧ edited_text text edits = Err e
      | Err (ToolFailure _) => after = before
      | Err Aborted =>
          after = before
          ∨ ∃ text final base new, before = Some text ∧ edited_text text edits = Ok (final, base, new) ∧ after = Some final
      | Err (FileFailure _) => after = before ∨ ∃ text new, before = Some text ∧ edited_text text edits = Ok new
      end
  | Some (WriteFile path content) =>
      match r with
      | Ok out => after = Some content ∧ out = WriteOutput (zlen content)
      | Err Aborted => after = before ∨ after = Some content
      | Err (FileFailure _) => True
      | Err (ToolFailure _) => False
      end
  | None => True
  end.

Lemma safe_read {A} key (Φ : option jsstring → result FileErrorCode A → Prop) op c :
  (∀ f, texts (op f).1 = texts f) → (∀ f, texts f !! key = c → Φ c (op f).2) → safe key Φ (call op) c.
Proof.
  intros Hsame HΦ. apply safe_call. intros f Hf. rewrite Hsame, Hf. split; [by intros q _|by apply HΦ].
Qed.

Lemma edit_body_safe rs i path edits abs c :
  rs !! i = Some (EditFile path edits) → safe (file_of abs) (turn_effect rs i c) (edit_body i path edits abs) c.
Proof.
  intros Hi. unfold edit_body, turn_effect. rewrite Hi.
  apply safe_and_then, safe_check_signal; [by left|].
  apply safe_and_then, safe_bind, safe_read; [intros; apply env_info|]. intros f Hf.
  destruct (fileInfo f abs).2 as [info|code]; cbn [map_err safe]; [|by left].
  assert (∀ e, c = c) as Hrefl by done.
  assert (safe (file_of abs) (λ after r, turn_effect rs i c after r)
    (text ⟵ getOrThrow (λ f, readTextFile f abs);
     _ ⟵ check_signal i;
     match edited_text text edits with
     | Err e => PDone (Err (ToolFailure (EditRefused e)))
     | Ok (finalContent, baseContent, newContent) =>
         _ ⟵ check_signal i;
         _ ⟵ getOrThrow (λ f, writeFile f abs finalContent);
         _ ⟵ check_signal i;
         PDone (Ok (EditOutput (zlen edits) (edit_details path baseContent newContent)))
     end) c) as Hmain.
  { unfold turn_effect. rewrite Hi.
    apply safe_and_then, safe_bind, safe_read; [intros; apply env_read|]. intros f' Hf'.
    pose proof (proj2 (env_read f' abs)) as Hread. destruct (readTextFile f' abs).2 as [text|code]; cbn [map_err safe]; [|by left].
    specialize (Hread text eq_refl). rewrite Hread in Hf'. subst c.
    apply safe_and_then, safe_check_signal; [by left|].
    destruct (edited_text text edits) as [[[final base] new]|e] eqn:Hed; [|by split; [|exists text]].
    apply safe_and_then, safe_check_signal; [by left|].
    apply safe_and_then, safe_getOrThrow. intros g Hg. pose proof (env_write g abs final) as [Hother Hok].
    split; [done|]. destruct (writeFile g abs final).2 as [[]|code]; cbn [map_err]; [|by right; exists text, (final, base, new)].
    rewrite (Hok eq_refl). apply safe_and_then, safe_check_signal; [by right; exists text, final, base, new|].
    by exists text, final, base, new. }
  unfold turn_effect in Hmain. rewrite Hi in Hmain. by destruct (info_kind info).
Qed.

Lemma write_body_safe rs i path content abs c :
  rs !! i = Some (WriteFile path content) → safe (file_of abs) (turn_effect rs i c) (write_body i content abs) c.
Proof.
  intros Hi. unfold write_body, turn_effect. rewrite Hi.
  apply safe_and_then, safe_check_signal; [by left|].
  apply safe_and_then, safe_getOrThrow. intros g Hg. pose proof (env_write g abs content) as [Hother Hok].
  split; [done|]. destruct (writeFile g abs content).2 as [[]|code]; cbn [map_err]; [|done].
  rewrite (Hok eq_refl). apply safe_and_then, safe_check_signal; [by right|]. by split.
Qed.

Lemma request_body_safe rs i t path c :
  request_tools rs !! i = Some t → safe (file_of path) (turn_effect rs i c) (tool_body t path) c.
Proof.
  unfold request_tools. rewrite list_lookup_imap. intros (r & Hr & ->)%fmap_Some.
  destruct r; [by eapply edit_body_safe|by eapply write_body_safe].
Qed.

(** C3: however edits and writes made together interleave, when none of their paths
    leads by a link to a file that does not exist yet ([new_file_two_keys] shows what
    becomes of such a path), the calls on one
    file take turns in the order they were registered, two never at the same time:
    each turn begins with the text the turn before left, and makes of it what the
    edits or the content say, or leaves it as it is and fails.  No call waits
    forever: as long as one is not over some call has a next step.  When all are
    over the text is what the last turn left, and no queue is kept. *)
Theorem file_tools_serial rs f s :
  (∀ r f path, r ∈ rs → (absolutePath f (normalizeToolPath (request_path r))).2 = Ok path → created_in_place path) →
  reachable texts (request_tools rs) f s →
  (∀ i j key b b' p p', phases s !! i = Some (Running key b p) → phases s !! j = Some (Running key b' p') → i = j)
  ∧ (∀ key, turn_call <$> turns_on key s `prefix_of` registered_on key s)
  ∧ (∀ key i, i ∈ registered_on key s → ∃ r, rs !! i = Some r ∧ key = file_of (normalizeToolPath (request_path r)))
  ∧ (∀ key, ∃ now, chained (texts f !! key) (turns_on key s) now
      ∧ ((∀ i b p, phases s !! i ≠ Some (Running key b p)) → now = texts (env (world s)) !! key))
  ∧ Forall (λ t, turn_effect rs (turn_call t) (turn_before t) (turn_after t) (turn_result t)) (turns s)
  ∧ ((∃ i p, phases s !! i = Some p ∧ ∀ r, p ≠ Finished r) → ∃ i s', next texts (request_tools rs) s i = Some s')
  ∧ ((∀ i p, phases s !! i = Some p → ∃ r, p = Finished r) → queues s = ∅).
Proof.
  intros Hlinks Hr.
  assert (∀ i t f path, request_tools rs !! i = Some t →
    (absolutePath f (normalizeToolPath (tool_path t))).2 = Ok path → created_in_place path) as Hplace.
  { intros i t f' path. unfold request_tools. rewrite list_lookup_imap. intros (r & Hi & ->)%fmap_Some Ha.
    apply (Hlinks r f'); [by eapply list_elem_of_lookup_2|]. by destruct r. }
  pose proof (mutations_serial (request_tools rs) (turn_effect rs) (request_body_safe rs) Hplace f s Hr)
    as (G1 & G2 & G3 & G4 & G5 & G6 & G7).
  split_and!; [done|done| |done|done| |done].
  - intros key i (t & Ht & ->)%G3. unfold request_tools in Ht. rewrite list_lookup_imap in Ht.
    apply fmap_Some in Ht as (r & Hi & ->). exists r. split; [done|]. unfold call_file. by destruct r.
  - intros Hp. destruct (G6 Hp) as [s' Hs]. by apply act_next in Hs.
Qed.
End Tools.

(** ** A concrete environment

    The in-memory file system without links. *)

#[export] Instance memory_fs_env : FileEnv memory_fs := {|
  absolutePath f p := attempt f (Ok (p, files f)) (λ _, files f);
  canonicalPath f p :=
    attempt f match files f !! p with Some _ => Ok (p, files f) | None => Err fe_not_found end (λ _, files f) |}.

#[export] Instance memory_fs_env_laws : FileEnvLaws memory_fs.
Proof.
  refine {| texts := files; file_of := id |}; intros *; cbn; unfold attempt, others_same; destruct (next_fault f); cbn; try done.
  - split; [done|]. by intros a [= <-].
  - split; destruct (files f !! p); cbn; try done. by intros a [= <-].
  - destruct (files f !! p); cbn; split; by try congruence.
  - by destruct (files f !! p).
  - split; [|by rewrite lookup_insert_eq]. intros q Hq. by rewrite lookup_insert_ne.
  - split; [|done]. intros q Hq. by rewrite lookup_insert_ne.
Defined.

(** Two edits of a file, made together; the steps of the second stop where it waits
    for the first. *)
Definition two_edits : list request :=
  [EditFile (js "a") [MkEdit (js "one") (js "two")]; EditFile (js "@a") [MkEdit (js "two") (js "three")]].
Definition demo_fs : memory_fs := MkFs {[ js "a" := js "one" ]} [].
Definition demo_tools := request_tools (F:=memory_fs) id (λ _ _, []) (λ _ _ _, []) two_edits.
Definition demo_schedule : list nat :=
  [0; 1; 0; 0; 0; 1; 1; 1; 0; 0; 0; 0; 0; 0; 0; 0; 0; 1; 1; 1; 1; 1; 1; 1; 1; 1]%nat.

(** Where a call is, without its program. *)
Definition phase_name {F E R} (p : phase F E R) : nat :=
  match p with Resolving => 0 | Registering _ _ => 1 | Waiting _ _ _ => 2 | Running _ _ _ => 3 | Finished _ => 4 end%nat.
Definition summary (s : state memory_fs tool_failure tool_output) : option jsstring * list (option nat) * nat * bool :=
  (files (env (world s)) !! js "a", (λ i, phase_name <$> phases s !! i) <$> [0; 1]%nat, length (turns s),
   bool_decide (queues s = ∅)).

Lemma file_tools_serial_witness :
  ∃ s, reachable texts demo_tools demo_fs s ∧ summary s = (Some (js "three"), [Some 4; Some 4]%nat, 2%nat, true)
  ∧ Forall (λ t, turn_effect id (λ _ _, []) (λ _ _ _, []) two_edits (turn_call t) (turn_before t) (turn_after t) (turn_result t)) (turns s)
  ∧ ∃ now, chained (E:=tool_failure) (R:=tool_output) (Some (js "one")) (turns_on (js "a") s) now.
Proof.
  assert (summary <$> schedule texts demo_tools (initial demo_fs demo_tools) demo_schedule
          = Some (Some (js "three"), [Some 4; Some 4]%nat, 2%nat, true)) as H by (vm_compute; reflexivity).
  apply fmap_Some in H as (s & Hs & Hsum). symmetry in Hsum.
  assert (reachable texts demo_tools demo_fs s) as Hr by (eapply schedule_reachable; [apply reachable_initial|exact Hs]).
  assert (∀ r f path, r ∈ two_edits → (absolutePath (F:=memory_fs) f (normalizeToolPath (request_path r))).2 = Ok path →
    created_in_place path) as Hplace by (intros ?? path _ _ ? ? a ? _ _ _; reflexivity).
  destruct (file_tools_serial (F:=memory_fs) id (λ _ _, []) (λ _ _ _, []) two_edits demo_fs s Hplace Hr) as (_ & _ & _ & Hchain & Heffect & _).
  destruct (Hchain (js "a")) as (now & Hnow & _). exists s. split; [exact Hr|]. split; [exact Hsum|]. split; [exact Heffect|].
  exists now. exact Hnow.
Defined.

(** ** A file that does not exist yet

    In a directory that is reached by a link a file has no canonical path before it is
    created: a call registered before that and one registered after it have different
    keys, and nothing keeps their turns apart.  [created_in_place] leaves this out. *)
Definition resolve_link (p : jsstring) : jsstring :=
  if bool_decide (js "/link/" `prefix_of` p) then js "/real/" ++ drop 6 p else p.

Definition linked_env : FileEnv memory_fs := {|
  absolutePath f p := attempt f (Ok (p, files f)) (λ _, files f);
  canonicalPath f p :=
    attempt f match files f !! resolve_link p with Some _ => Ok (resolve_link p, files f) | None => Err fe_not_found end
      (λ _, files f) |}.

(** A program without others. *)
Fixpoint run_alone {F A} (p : prog F A) (w : World F) (fuel : nat) : option A :=
  match p, fuel with
  | PDone a, _ => Some a
  | PStep g, S fuel => let '(w, p) := g w in run_alone p w fuel
  | PStep _, O => None
  end.

Example new_file_two_keys :
  let key f := run_alone (getMutationQueueKey (H:=linked_env) (E:=tool_failure) (js "/link/a")) (MkWorld f []) 9 in
  key (MkFs ∅ []) = Some (Ok (js "/link/a")) ∧ key (MkFs {[ js "/real/a" := [] ]} []) = Some (Ok (js "/real/a")).
Proof. vm_compute. by split. Qed.
