(* ===== verification/StdinBuffer.v ===== *)
(** * The input of the terminal

    [packages/tui/src/stdin-buffer.ts]: the terminal's input arrives in pieces cut
    anywhere; the buffer puts escape sequences and pasted text together and hands out one
    event for each.  Listeners are called with the events in order and do not call the
    buffer back.

    Input that is a series of characters, whole escape sequences and pastes comes out as
    these, whatever pieces it arrives in, as long as no timer runs out between them. *)

From S2P Require Import Prelude JsString.

Definition ESC : Z := 27.
Definition DEFAULT_SEQUENCE_TIMEOUT_MS : Z := 50.
Definition DEFAULT_ESCAPE_TIMEOUT_MS : Z := 10.
Definition BRACKETED_PASTE_START : jsstring := ESC :: js "[200~".
Definition BRACKETED_PASTE_END : jsstring := ESC :: js "[201~".

Definition startsWith (s prefix : jsstring) : bool := bool_decide (prefix `prefix_of` s).
Definition endsWith (s suffix : jsstring) : bool := bool_decide (suffix `suffix_of` s).

(** ** Sequences *)

Inductive sequence_status := Complete | Incomplete | NotEscape.

#[export] Instance sequence_status_eq_dec : EqDecision sequence_status.
Proof. solve_decision. Defined.

Definition is_digit (c : Z) : bool := in_range 48 57 c.
(** [/^\d+$/]. *)
Definition all_digits (s : jsstring) : bool := negb (bool_decide (s = [])) && forallb is_digit s.

(** The structure of a mouse sequence: what the regular expression matches before its last
    character, and the check after it. *)
Definition mouse_parts (payload : jsstring) : bool :=
  let parts := split_at 59 (removelast (tail payload)) in
  bool_decide (length parts = 3%nat) && forallb all_digits parts.

Definition isCompleteCsiSequence (data : jsstring) : sequence_status :=
  if negb (startsWith data [ESC; 91]) then Complete
  else if bool_decide (length data < 3)%nat then Incomplete
  else
    let payload := drop 2 data in
    let lastChar := default 0 (last payload) in
    if in_range 64 126 lastChar then
      if startsWith payload [60] then
        let by_button := (lastChar =? 77) || (lastChar =? 109) in
        let mouseMatch := by_button && mouse_parts payload in
        if mouseMatch then Complete
        else if by_button && mouse_parts payload then Complete
        else Incomplete
      else Complete
    else Incomplete.

Definition isCompleteOscSequence (data : jsstring) : sequence_status :=
  if negb (startsWith data [ESC; 93]) then Complete
  else if endsWith data [ESC; 92] || endsWith data [7] then Complete else Incomplete.

Definition isCompleteDcsSequence (data : jsstring) : sequence_status :=
  if negb (startsWith data [ESC; 80]) then Complete
  else if endsWith data [ESC; 92] then Complete else Incomplete.

Definition isCompleteApcSequence (data : jsstring) : sequence_status :=
  if negb (startsWith data [ESC; 95]) then Complete
  else if endsWith data [ESC; 92] then Complete else Incomplete.

Definition isCompleteSequence (data : jsstring) : sequence_status :=
  if negb (startsWith data [ESC]) then NotEscape
  else if bool_decide (length data = 1%nat) then Incomplete
  else
    let afterEsc := tail data in
    if startsWith afterEsc [91] then
      if startsWith afterEsc [91; 77] then (if bool_decide (6 ≤ length data)%nat then Complete else Incomplete)
      else isCompleteCsiSequence data
    else if startsWith afterEsc [93] then isCompleteOscSequence data
    else if startsWith afterEsc [80] then isCompleteDcsSequence data
    else if startsWith afterEsc [95] then isCompleteApcSequence data
    else if startsWith afterEsc [79] then (if bool_decide (2 ≤ length afterEsc)%nat then Complete else Incomplete)
    else Complete.

(** A key sequence of digits with up to two groups after colons, the first of which may be
    empty, and the number it begins with. *)
Definition digits_value (s : jsstring) : Z := foldl (λ n c, n * 10 + (c - 48)) 0 s.
Definition parseUnmodifiedKittyPrintableCodepoint (sequence : jsstring) : option Z :=
  if startsWith sequence [ESC; 91] && endsWith (drop 2 sequence) [117] then
    let groups := split_at 58 (removelast (drop 2 sequence)) in
    let matches := match groups with
                   | [a] => all_digits a
                   | [a; b] => all_digits a && forallb is_digit b
                   | [a; b; c] => all_digits a && forallb is_digit b && all_digits c
                   | _ => false
                   end in
    if matches : bool then
      let codepoint := digits_value (default [] (head groups)) in
      if 32 <=? codepoint then Some codepoint else None
    else None
  else None.

(** The sequence at the start of [remaining], and how much of the buffer it takes; [None]
    when more is needed. *)
Definition begins_sequence (c : option Z) : bool :=
  match c with Some c => (c =? 91) || (c =? 93) || (c =? 79) || (c =? 80) || (c =? 95) | None => false end.

Fixpoint take_sequence (remaining : jsstring) (seqEnd fuel : nat) : option (jsstring * nat) :=
  match fuel with
  | O => None
  | S fuel =>
      if bool_decide (seqEnd ≤ length remaining)%nat then
        let candidate := take seqEnd remaining in
        match isCompleteSequence candidate with
        | Complete =>
            if bool_decide (candidate = [ESC; ESC]) && begins_sequence (remaining !! seqEnd) then Some ([ESC], 1%nat)
            else Some (candidate, seqEnd)
        | Incomplete => take_sequence remaining (S seqEnd) fuel
        | NotEscape => Some (candidate, seqEnd)
        end
      else None
  end.

(** The loop of [extractCompleteSequences]; the buffer gets shorter in each turn. *)
Fixpoint extract (fuel : nat) (buffer : jsstring) : list jsstring * jsstring :=
  match fuel, buffer with
  | S fuel, c :: rest =>
      if c =? ESC then
        match take_sequence buffer 1 (length buffer) with
        | Some (sequence, n) => let '(sequences, remainder) := extract fuel (drop n buffer) in (sequence :: sequences, remainder)
        | None => ([], buffer)
        end
      else let '(sequences, remainder) := extract fuel rest in ([c] :: sequences, remainder)
  | _, _ => ([], buffer)
  end.
Definition extractCompleteSequences (buffer : jsstring) : list jsstring * jsstring := extract (length buffer) buffer.

(** ** The buffer *)

(** [timeout] is the delay of the timer that is set. *)
Record StdinBuffer := MkStdinBuffer {
  buffer : jsstring; timeout : option Z; timeoutMs : Z; escapeTimeoutMs : Z; pasteMode : bool; pasteBuffer : jsstring;
  pendingKittyPrintableCodepoint : option Z }.

#[export] Instance StdinBuffer_eta : Eta StdinBuffer := λ s,
  MkStdinBuffer (buffer s) (timeout s) (timeoutMs s) (escapeTimeoutMs s) (pasteMode s) (pasteBuffer s)
    (pendingKittyPrintableCodepoint s).

Inductive stdin_event := DataEvent (sequence : jsstring) | PasteEvent (content : jsstring).

Definition new_buffer (timeout escapeTimeout : option Z) : StdinBuffer :=
  MkStdinBuffer [] None (default DEFAULT_SEQUENCE_TIMEOUT_MS timeout) (default DEFAULT_ESCAPE_TIMEOUT_MS escapeTimeout) false [] None.

(** [emitDataSequence]: what is pending then, and the events. *)
Definition emit_sequence (pending : option Z) (sequence : jsstring) : option Z * list stdin_event :=
  let rawCodepoint := match sequence with [c] => Some c | _ => None end in
  if bool_decide (is_Some rawCodepoint) && bool_decide (rawCodepoint = pending) then (None, [])
  else (parseUnmodifiedKittyPrintableCodepoint sequence, [DataEvent sequence]).

Definition emitDataSequence (s : StdinBuffer) (sequence : jsstring) : StdinBuffer * list stdin_event :=
  let '(pending, events) := emit_sequence (pendingKittyPrintableCodepoint s) sequence in
  (s <| pendingKittyPrintableCodepoint := pending |>, events).

Fixpoint emit_all (s : StdinBuffer) (sequences : list jsstring) : StdinBuffer * list stdin_event :=
  match sequences with
  | [] => (s, [])
  | sequence :: sequences =>
      let '(s, events) := emitDataSequence s sequence in
      let '(s, more) := emit_all s sequences in (s, events ++ more)
  end.

Definition flush (s : StdinBuffer) : StdinBuffer * list jsstring :=
  let s := s <| timeout := None |> in
  if bool_decide (buffer s = []) then (s, [])
  else (s <| buffer := [] |> <| pendingKittyPrintableCodepoint := None |>, [buffer s]).

(** The timer runs out. *)
Definition timer_fires (s : StdinBuffer) : StdinBuffer * list stdin_event :=
  let '(s, flushed) := flush s in emit_all s flushed.

Definition clear (s : StdinBuffer) : StdinBuffer :=
  s <| timeout := None |> <| buffer := [] |> <| pasteMode := false |> <| pasteBuffer := [] |>
    <| pendingKittyPrintableCodepoint := None |>.

(** The end of a paste, if it is there: its event, and what comes after it. *)
Definition end_paste (s : StdinBuffer) : StdinBuffer * list stdin_event * option jsstring :=
  match index_of BRACKETED_PASTE_END (pasteBuffer s) with
  | Some endIndex =>
      let pastedContent := take endIndex (pasteBuffer s) in
      let remaining := drop (endIndex + length BRACKETED_PASTE_END) (pasteBuffer s) in
      (s <| pasteMode := false |> <| pasteBuffer := [] |> <| pendingKittyPrintableCodepoint := None |>,
       [PasteEvent pastedContent], if bool_decide (remaining = []) then None else Some remaining)
  | None => (s, [], None)
  end.

(** [process] up to its call of itself with what remains. *)
Definition process_once (s : StdinBuffer) (str : jsstring) : StdinBuffer * list stdin_event * option jsstring :=
  let s := s <| timeout := None |> in
  if bool_decide (str = []) && bool_decide (buffer s = []) then let '(s, events) := emitDataSequence s [] in (s, events, None)
  else
    let s := s <| buffer := buffer s ++ str |> in
    if pasteMode s then end_paste (s <| pasteBuffer := pasteBuffer s ++ buffer s |> <| buffer := [] |>)
    else
      match index_of BRACKETED_PASTE_START (buffer s) with
      | Some startIndex =>
          let sequences := if bool_decide (startIndex = O) then [] else (extractCompleteSequences (take startIndex (buffer s))).1 in
          let '(s, events) := emit_all s sequences in
          let rest := drop (startIndex + length BRACKETED_PASTE_START) (buffer s) in
          let s := s <| pendingKittyPrintableCodepoint := None |> <| pasteMode := true |> <| pasteBuffer := rest |> <| buffer := [] |> in
          let '(s, more, remaining) := end_paste s in (s, events ++ more, remaining)
      | None =>
          let '(sequences, remainder) := extractCompleteSequences (buffer s) in
          let '(s, events) := emit_all (s <| buffer := remainder |>) sequences in
          let s := if bool_decide (buffer s = []) then s
                   else s <| timeout := Some (if bool_decide (buffer s = [ESC]) then escapeTimeoutMs s else timeoutMs s) |> in
          (s, events, None)
      end.

Fixpoint process_text (fuel : nat) (s : StdinBuffer) (str : jsstring) : StdinBuffer * list stdin_event :=
  match fuel with
  | O => (s, [])
  | S fuel =>
      let '(s, events, remaining) := process_once s str in
      match remaining with
      | Some remaining => let '(s, more) := process_text fuel s remaining in (s, events ++ more)
      | None => (s, events)
      end
  end.

(** [process] of a text; what remains gets shorter from call to call. *)
Definition process (s : StdinBuffer) (str : jsstring) : StdinBuffer * list stdin_event :=
  process_text (S (length (pasteBuffer s) + length (buffer s) + length str)) s str.

(** [process] of a [Buffer]; [toString] is the method of Node. *)
Definition process_bytes (toString : list Z → jsstring) (s : StdinBuffer) (data : list Z) : StdinBuffer * list stdin_event :=
  process s (match data with
             | [byte] => if 127 <? byte then [ESC; byte - 128] else toString data
             | _ => toString data
             end).

Fixpoint process_all (s : StdinBuffer) (chunks : list jsstring) : StdinBuffer * list stdin_event :=
  match chunks with
  | [] => (s, [])
  | chunk :: chunks => let '(s, events) := process s chunk in let '(s, more) := process_all s chunks in (s, events ++ more)
  end.
