(* ===== verification/StdinBufferTheorems.v ===== *)
(** * What the input buffer hands out

    A stream of characters, escape sequences and pastes, cut into pieces anywhere, comes out
    of the buffer of [packages/tui/src/stdin-buffer.ts] as one event for each. *)

From S2P Require Import Prelude JsString Truncate StdinBuffer.

(** ** The first occurrence of a text *)

Lemma index_of_first sub s i :
  sub `prefix_of` drop i s → (∀ j, (j < i)%nat → ¬ sub `prefix_of` drop j s) → index_of sub s = Some i.
Proof.
  revert i. induction s as [|c s IH]; intros i Hi Hbefore.
  - rewrite drop_nil in Hi. cbn. rewrite bool_decide_eq_true_2 by done. destruct i as [|i]; [done|]. by destruct (Hbefore O ltac:(lia)).
  - cbn. destruct i as [|i]; [by rewrite bool_decide_eq_true_2|].
    rewrite bool_decide_eq_false_2 by apply (Hbefore O ltac:(lia)). rewrite (IH i Hi); [done|].
    intros j Hj. apply (Hbefore (S j)). lia.
Qed.

Lemma index_of_absent sub s : (∀ j, ¬ sub `prefix_of` drop j s) → index_of sub s = None.
Proof.
  induction s as [|c s IH]; intros Hno; cbn.
  - rewrite bool_decide_eq_false_2; [done|]. exact (Hno O).
  - rewrite bool_decide_eq_false_2 by exact (Hno O). rewrite IH; [done|]. intros j. exact (Hno (S j)).
Qed.

Lemma index_of_occurs sub s i : index_of sub s = Some i → sub `prefix_of` drop i s ∧ ∀ j, (j < i)%nat → ¬ sub `prefix_of` drop j s.
Proof.
  revert i. induction s as [|c s IH]; intros i; cbn; case_bool_decide as Hp; try done.
  - intros [= <-]. split; [done|]. lia.
  - intros [= <-]. split; [done|]. lia.
  - destruct (index_of sub s) as [k|]; [|done]. intros [= <-]. destruct (IH k eq_refl) as [Hk Hbefore]. split; [done|].
    intros [|j] Hj; [done|]. apply Hbefore. lia.
Qed.

(** ** Escape sequences

    What a terminal sends, as the comments of the code describe it. *)

Definition digits (s : jsstring) : Prop := Forall (λ c, 48 ≤ c ≤ 57) s.
(** The number that digits write. *)
Inductive decimal : jsstring → Z → Prop :=
| decimal_nil : decimal [] 0
| decimal_snoc d n k : decimal d n → 0 ≤ k ≤ 9 → decimal (d ++ [48 + k]) (10 * n + k).

(** [ESC] and a character; [ESC O] and a character; [ESC \[] with parameters up to the
    first byte of 0x40 to 0x7E; a mouse sequence of the present kind and of the old one;
    text up to [ESC \] or, after [ESC \]], a bell. *)
Inductive escape_sequence : jsstring → Prop :=
| meta_key c : c ∉ [ESC; 91; 93; 79; 80; 95] → escape_sequence [ESC; c]
| ss3_key c : c ≠ ESC → escape_sequence [ESC; 79; c]
| csi params final :
    Forall (λ c, ¬ 64 ≤ c ≤ 126 ∧ c ≠ ESC) params → head params ≠ Some 60 → 64 ≤ final ≤ 126 → (params = [] → final ≠ 77) →
    escape_sequence (ESC :: 91 :: params ++ [final])
| sgr_mouse button x y final :
    Forall (λ d, d ≠ [] ∧ digits d) [button; x; y] → final = 77 ∨ final = 109 →
    escape_sequence (ESC :: 91 :: 60 :: (button ++ 59 :: x ++ 59 :: y) ++ [final])
| x10_mouse a b c : ESC ∉ [a; b; c] → escape_sequence [ESC; 91; 77; a; b; c]
| osc body terminator :
    ESC ∉ body → 7 ∉ body → terminator = [ESC; 92] ∨ terminator = [7] → escape_sequence (ESC :: 93 :: body ++ terminator)
| dcs_apc kind body : kind = 80 ∨ kind = 95 → ESC ∉ body → escape_sequence (ESC :: kind :: body ++ [ESC; 92]).

(** The key sequence of a printable character: [ESC \[], the number of the character,
    perhaps the numbers of the shifted key and of the one in its place, and [u]. *)
Inductive announces : jsstring → Z → Prop :=
| announces_key d c others :
    d ≠ [] → decimal d c → 32 ≤ c →
    (∃ shifted, digits shifted ∧ (others = [] ∨ others = 58 :: shifted
       ∨ ∃ base, base ≠ [] ∧ digits base ∧ others = 58 :: shifted ++ 58 :: base)) →
    announces (ESC :: 91 :: d ++ others ++ [117]) c.

(** ** Streams of tokens *)

Inductive token := Plain (c : Z) | Escape (s : jsstring) | Pasted (content : jsstring).

Definition token_text (t : token) : jsstring :=
  match t with
  | Plain c => [c]
  | Escape s => s
  | Pasted content => BRACKETED_PASTE_START ++ content ++ BRACKETED_PASTE_END
  end.
Definition stream (ts : list token) : jsstring := concat (token_text <$> ts).

(** A paste ends at its first end marker, and its start marker is no escape sequence of
    its own. *)
Definition token_form (t : token) : Prop :=
  match t with
  | Plain c => c ≠ ESC
  | Escape s => escape_sequence s ∧ s ≠ BRACKETED_PASTE_START
  | Pasted content => ∀ a b, content ++ BRACKETED_PASTE_END = a ++ BRACKETED_PASTE_END ++ b → b = []
  end.

(** The events that tokens should give, when the key sequence before them announced a
    character: one for each token, except for the announced character that comes next. *)
Inductive tells : option Z → list token → list stdin_event → Prop :=
| tells_nil announced : tells announced [] []
| tells_plain announced c ts events :
    announced ≠ Some c → tells None ts events → tells announced (Plain c :: ts) (DataEvent [c] :: events)
| tells_again c ts events : tells None ts events → tells (Some c) (Plain c :: ts) events
| tells_escape announced next s ts events :
    (∀ c, next = Some c ↔ announces s c) → tells next ts events → tells announced (Escape s :: ts) (DataEvent s :: events)
| tells_pasted announced content ts events :
    tells None ts events → tells announced (Pasted content :: ts) (PasteEvent content :: events).

(** What the loop needs of an escape sequence: complete, and not before its end; inside it
    the escape character only begins a string terminator. *)
Record escape_ok (s : jsstring) : Prop := {
  escape_complete : isCompleteSequence s = Complete;
  escape_minimal : ∀ n, (0 < n < length s)%nat → isCompleteSequence (take n s) = Incomplete;
  escape_inside : ∀ i, s !! S i = Some ESC → s !! S (S i) = Some 92;
  escape_no_paste : s ≠ BRACKETED_PASTE_START }.

Definition token_ok (t : token) : Prop :=
  match t with
  | Plain c => c ≠ ESC
  | Escape s => escape_ok s
  | Pasted content => index_of BRACKETED_PASTE_END (content ++ BRACKETED_PASTE_END) = Some (length content)
  end.

Definition is_paste (t : token) : bool := match t with Pasted _ => true | _ => false end.

(** The events of the tokens, and what is pending after them: a character that a key
    sequence has just announced is not handed out again. *)
Definition token_events (pending : option Z) (t : token) : option Z * list stdin_event :=
  match t with
  | Plain c => emit_sequence pending [c]
  | Escape s => emit_sequence pending s
  | Pasted content => (None, [PasteEvent content])
  end.
Fixpoint events_of (pending : option Z) (ts : list token) : option Z * list stdin_event :=
  match ts with
  | [] => (pending, [])
  | t :: ts => let '(pending, events) := token_events pending t in let '(pending, more) := events_of pending ts in (pending, events ++ more)
  end.

Lemma events_of_app pending ts1 ts2 :
  events_of pending (ts1 ++ ts2)
  = ((events_of (events_of pending ts1).1 ts2).1, (events_of pending ts1).2 ++ (events_of (events_of pending ts1).1 ts2).2).
Proof.
  revert pending. induction ts1 as [|t ts1 IH]; intros pending; cbn; [by destruct (events_of pending ts2)|].
  destruct (token_events pending t) as [p1 e1]. rewrite IH. destruct (events_of p1 ts1) as [p2 e2]. cbn. by rewrite app_assoc.
Qed.

Lemma token_nonempty t : token_ok t → token_text t ≠ [].
Proof. destruct t as [c|s|content]; cbn; [done| |done]. intros [Hc _ _ _] ->. done. Qed.

(** *** The forms are what the loop needs *)

Lemma starts_cons (c d : Z) s : startsWith (c :: s) [d] = bool_decide (c = d).
Proof.
  unfold startsWith. apply bool_decide_ext. split; [intros [k Hk]; by injection Hk|]. intros ->. by exists s.
Qed.
Lemma starts_cons2 (c : Z) s p : startsWith (c :: s) (c :: p) = startsWith s p.
Proof.
  unfold startsWith. apply bool_decide_ext. split; [by intros ?%prefix_cons_inv_2|by apply prefix_cons].
Qed.
Lemma starts_other (c d : Z) s p : c ≠ d → startsWith (c :: s) (d :: p) = false.
Proof. intros Hne. apply bool_decide_eq_false_2. intros [k Hk]. by injection Hk. Qed.
Lemma ends_snoc (s : jsstring) c d : endsWith (s ++ [c]) [d] = bool_decide (c = d).
Proof.
  unfold endsWith. apply bool_decide_ext. split; [intros [k Hk]; by apply app_inj_tail in Hk as [_ ->]|]. intros ->. by exists s.
Qed.

(** A text whose terminator has not come. *)
Lemma unterminated k (body q : jsstring) :
  k ≠ 92 → k ≠ ESC → ESC ∉ body → q `prefix_of` body ++ [ESC] → endsWith (ESC :: k :: q) [ESC; 92] = false.
Proof.
  intros Hk Hk' Hbody [r Hr]. apply bool_decide_eq_false_2. intros [l Hl].
  destruct q as [|c q _] using rev_ind.
  { destruct l as [|? [|? [|]]]; by injection Hl. }
  change (ESC :: k :: q ++ [c]) with ((ESC :: k :: q) ++ [c]) in Hl. change [ESC; 92] with ([ESC] ++ [92]) in Hl.
  rewrite app_assoc in Hl. apply app_inj_tail in Hl as [Hl ->].
  destruct q as [|c q _] using rev_ind.
  { change [ESC; k] with ([ESC] ++ [k]) in Hl. by apply app_inj_tail in Hl as [_ ->]. }
  change (ESC :: k :: q ++ [c]) with ((ESC :: k :: q) ++ [c]) in Hl. apply app_inj_tail in Hl as [_ ->].
  apply Hbody. destruct r as [|r] using rev_ind.
  - rewrite app_nil_r in Hr. by apply app_inj_tail in Hr as [_ ?].
  - rewrite app_assoc in Hr. apply app_inj_tail in Hr as [-> _]. rewrite <- !app_assoc. apply elem_of_app. right. left.
Qed.

Lemma unterminated_bell k (body q : jsstring) :
  k ≠ 7 → 7 ∉ body → q `prefix_of` body ++ [ESC] → endsWith (ESC :: k :: q) [7] = false.
Proof.
  intros Hk Hbody [r Hr]. destruct q as [|c q _] using rev_ind.
  - change [ESC; k] with ([ESC] ++ [k]). rewrite ends_snoc. by apply bool_decide_eq_false_2.
  - change (ESC :: k :: q ++ [c]) with ((ESC :: k :: q) ++ [c]). rewrite ends_snoc. apply bool_decide_eq_false_2. intros ->.
    assert (7 ∈ body ++ [ESC]) as [?|?%list_elem_of_singleton]%elem_of_app; [|done|done].
    rewrite Hr, <- app_assoc. apply elem_of_app. right. left.
Qed.

Lemma escape_ok_intro k t :
  isCompleteSequence (ESC :: k :: t) = Complete →
  (∀ q r, t = q ++ r → r ≠ [] → isCompleteSequence (ESC :: k :: q) = Incomplete) →
  ESC ∉ k :: t ∨ (∃ body, k :: t = body ++ [ESC; 92] ∧ ESC ∉ body) →
  ESC :: k :: t ≠ BRACKETED_PASTE_START → escape_ok (ESC :: k :: t).
Proof.
  intros Hc Hmin Hin Hno. split; [done| | |done].
  - intros [|[|n]] [Hn Hn']; [lia|done|]. cbn [take]. apply (Hmin _ (drop n t)); [by rewrite take_drop|].
    intros Hd. apply (f_equal length) in Hd. rewrite length_drop in Hd. cbn [length] in Hd, Hn'. lia.
  - intros i Hi. change ((k :: t) !! i = Some ESC) in Hi. change ((k :: t) !! S i = Some 92). destruct Hin as [Hin|(body & Hb & Hin)].
    { destruct Hin. by eapply list_elem_of_lookup_2. }
    rewrite Hb in Hi |- *. apply lookup_app_Some in Hi as [Hi|[Hl Hi]].
    { destruct Hin. by eapply list_elem_of_lookup_2. }
    rewrite lookup_app_r by lia. destruct (i - length body)%nat as [|[|]] eqn:He; try done.
    by replace (S i - length body)%nat with 1%nat by lia.
Qed.

(** The kinds of sequence that [isCompleteSequence] tells apart. *)
Lemma complete_osc q :
  isCompleteSequence (ESC :: 93 :: q)
  = if endsWith (ESC :: 93 :: q) [ESC; 92] || endsWith (ESC :: 93 :: q) [7] then Complete else Incomplete.
Proof. reflexivity. Qed.
Lemma complete_dcs_apc k q :
  k = 80 ∨ k = 95 → isCompleteSequence (ESC :: k :: q) = if endsWith (ESC :: k :: q) [ESC; 92] then Complete else Incomplete.
Proof. intros [-> | ->]; reflexivity. Qed.
Lemma complete_x10 q : isCompleteSequence (ESC :: 91 :: 77 :: q) = if bool_decide (3 ≤ length q)%nat then Complete else Incomplete.
Proof.
  change (isCompleteSequence (ESC :: 91 :: 77 :: q))
    with (if bool_decide (6 ≤ S (S (S (length q))))%nat then Complete else Incomplete).
  by rewrite (bool_decide_ext (6 ≤ S (S (S (length q))))%nat (3 ≤ length q)%nat) by lia.
Qed.
Lemma complete_csi q :
  head q ≠ Some 77 → isCompleteSequence (ESC :: 91 :: q)
  = match last q with
    | None => Incomplete
    | Some c =>
        if in_range 64 126 c
        then if startsWith q [60] then if ((c =? 77) || (c =? 109)) && mouse_parts q then Complete else Incomplete else Complete
        else Incomplete
    end.
Proof.
  intros Hq. destruct q as [|c q]; [reflexivity|].
  change (isCompleteSequence (ESC :: 91 :: c :: q))
    with (if startsWith (91 :: c :: q) [91; 77] then (if bool_decide (6 ≤ S (S (S (length q))))%nat then Complete else Incomplete)
          else isCompleteCsiSequence (ESC :: 91 :: c :: q)).
  rewrite starts_cons2, starts_cons, bool_decide_eq_false_2 by (intros ->; by apply Hq).
  unfold isCompleteCsiSequence. rewrite !starts_cons2. change (startsWith (c :: q) []) with true. cbn [negb].
  rewrite (bool_decide_eq_false_2 (_ < 3)%nat) by (cbn; lia). change (drop 2 (ESC :: 91 :: c :: q)) with (c :: q).
  destruct (last (c :: q)) as [d|] eqn:Hl; [|by apply last_None in Hl]. cbn [default from_option id]. change (id d) with d.
  destruct (in_range 64 126 d); [|done]. destruct (startsWith (c :: q) [60]); [|done].
  by destruct (((d =? 77) || (d =? 109)) && mouse_parts (c :: q)).
Qed.

(** Parameters of a sequence: none of them ends it. *)
Lemma csi_incomplete q :
  Forall (λ c, ¬ 64 ≤ c ≤ 126) q → isCompleteSequence (ESC :: 91 :: q) = Incomplete.
Proof.
  intros Hq. rewrite complete_csi.
  - destruct (last q) as [c|] eqn:Hl; [|done]. apply last_Some_elem_of in Hl. rewrite Forall_forall in Hq. specialize (Hq c Hl).
    rewrite (proj2 (in_range_false _ _ _)); [done|lia].
  - intros Hc. apply head_Some_elem_of in Hc. rewrite Forall_forall in Hq. specialize (Hq _ Hc). cbn in Hq. lia.
Qed.

Lemma all_digits_iff d : all_digits d = true ↔ d ≠ [] ∧ digits d.
Proof.
  unfold all_digits, digits, is_digit. rewrite andb_true_iff, negb_true_iff, bool_decide_eq_false, forallb_forall, Forall_forall.
  setoid_rewrite list_elem_of_In. by setoid_rewrite in_range_spec.
Qed.

Lemma digits_no_sep sep d : digits d → ¬ 48 ≤ sep ≤ 57 → sep ∉ d.
Proof. intros Hd Hsep Hin. unfold digits in Hd. rewrite Forall_forall in Hd. by apply Hsep, Hd. Qed.

Lemma digits_value_snoc d c : digits_value (d ++ [c]) = digits_value d * 10 + (c - 48).
Proof. unfold digits_value. by rewrite foldl_app. Qed.
Lemma decimal_value d n : decimal d n ↔ digits d ∧ digits_value d = n.
Proof.
  split.
  - induction 1 as [|d n k Hd [IH <-] Hk]; [by split; [constructor|]|]. rewrite digits_value_snoc. split; [|lia].
    unfold digits. rewrite Forall_app, Forall_singleton. split; [done|]. cbn. lia.
  - intros [Hd <-]. induction d as [|c d IH] using rev_ind; [constructor|]. unfold digits in Hd.
    rewrite Forall_app, Forall_singleton in Hd. destruct Hd as [Hd Hc]. cbn in Hc. rewrite digits_value_snoc.
    replace (digits_value d * 10 + (c - 48)) with (10 * digits_value d + (c - 48)) by lia.
    replace c with (48 + (c - 48)) at 1 by lia. constructor; [by apply IH|lia].
Qed.

Lemma forallb_digits d : forallb is_digit d = true ↔ digits d.
Proof.
  unfold digits, is_digit. rewrite forallb_forall, Forall_forall. setoid_rewrite list_elem_of_In. by setoid_rewrite in_range_spec.
Qed.

(** The groups of digits between the colons. *)
Lemma key_groups body c :
  match split_at 58 body with
  | [a] => all_digits a
  | [a; b] => all_digits a && forallb is_digit b
  | [a; b; c] => all_digits a && forallb is_digit b && all_digits c
  | _ => false
  end = true ∧ digits_value (default [] (head (split_at 58 body))) = c
  ↔ ∃ d others, body = d ++ others ∧ d ≠ [] ∧ decimal d c
    ∧ ∃ shifted, digits shifted ∧ (others = [] ∨ others = 58 :: shifted
        ∨ ∃ base, base ≠ [] ∧ digits base ∧ others = 58 :: shifted ++ 58 :: base).
Proof.
  assert (∀ d, digits d → 58 ∉ d) as Hsep by (intros d Hd; by apply digits_no_sep; [|lia]).
  split.
  - pose proof (join_split 58 body) as Hj. revert Hj. destruct (split_at 58 body) as [|a [|b [|e [|]]]]; cbn [join head default]; intros <-; intros [Hm Hc]; try done;
      rewrite ?andb_true_iff, ?all_digits_iff, ?forallb_digits in Hm; unfold id in Hc.
    + destruct Hm as [Hne Ha]. exists a, []. rewrite app_nil_r, decimal_value. split_and!; try done. exists []. split; [constructor|by left].
    + destruct Hm as [[Hne Ha] Hb]. exists a, (58 :: b). rewrite decimal_value. split_and!; try done. exists b. split; [done|by right; left].
    + destruct Hm as [[[Hne Ha] Hb] [Hce He]]. exists a, (58 :: b ++ 58 :: e). rewrite decimal_value. split_and!; try done. exists b.
      split; [done|]. right; right. by exists e.
  - intros (d & others & -> & Hne & [Hd <-]%decimal_value & shifted & Hs & [->|[->|(base & Hb0 & Hb & ->)]]).
    + rewrite app_nil_r, split_at_last by auto. split; [by apply all_digits_iff|done].
    + rewrite split_at_sep, split_at_last by auto. split; [|done]. by rewrite andb_true_iff, all_digits_iff, forallb_digits.
    + rewrite !split_at_sep, split_at_last by auto. split; [|done]. by rewrite !andb_true_iff, !all_digits_iff, forallb_digits.
Qed.

Lemma announces_iff s c : parseUnmodifiedKittyPrintableCodepoint s = Some c ↔ announces s c.
Proof.
  unfold parseUnmodifiedKittyPrintableCodepoint. split.
  - destruct (startsWith s [ESC; 91]) eqn:Hs; [|done]. apply bool_decide_eq_true in Hs as [q ->].
    change (drop 2 ([ESC; 91] ++ q)) with q. destruct (endsWith q [117]) eqn:He; [|done]. apply bool_decide_eq_true in He as [body ->].
    rewrite removelast_last. cbn [andb]. pose proof (key_groups body) as Hg.
    destruct (match split_at 58 body with [] => _ | _ => _ end) eqn:Hm; [|done].
    destruct (Z.leb_spec 32 (digits_value (default [] (head (split_at 58 body))))) as [Hle|]; [|done]. intros [= <-].
    destruct (proj1 (Hg _) (conj eq_refl eq_refl)) as (d & others & -> & Hne & Hd & Ho).
    cbn [app]. rewrite <- app_assoc. by constructor.
  - intros [d n others Hne Hd Hn Ho]. rewrite !starts_cons2. change (startsWith (d ++ others ++ [117]) []) with true.
    change (drop 2 (ESC :: 91 :: d ++ others ++ [117])) with (d ++ others ++ [117]). rewrite app_assoc, ends_snoc, bool_decide_eq_true_2 by done.
    rewrite removelast_last. cbn [andb]. destruct (proj2 (key_groups (d ++ others) n)) as [-> ->]; [by exists d, others|].
    by rewrite (proj2 (Z.leb_le _ _)).
Qed.

Lemma mouse_payload button x y final :
  Forall (λ d, d ≠ [] ∧ digits d) [button; x; y] → mouse_parts ((60 :: button ++ 59 :: x ++ 59 :: y) ++ [final]) = true.
Proof.
  rewrite !Forall_cons. intros ([Hb0 Hb] & [Hx0 Hx] & [Hy0 Hy] & _). unfold mouse_parts.
  change (tail ((60 :: button ++ 59 :: x ++ 59 :: y) ++ [final])) with ((button ++ 59 :: x ++ 59 :: y) ++ [final]).
  rewrite removelast_last, !split_at_sep, split_at_last by (by apply digits_no_sep; [|lia]).
  cbn [length forallb]. by rewrite !(proj2 (all_digits_iff _)).
Qed.

Lemma sgr_payload_plain button x y :
  Forall (λ d, d ≠ [] ∧ digits d) [button; x; y] → Forall (λ c, ¬ 64 ≤ c ≤ 126 ∧ c ≠ ESC) (60 :: button ++ 59 :: x ++ 59 :: y).
Proof.
  rewrite !Forall_cons. intros ([_ Hb] & [_ Hx] & [_ Hy] & _). assert (∀ d, digits d → Forall (λ c, ¬ 64 ≤ c ≤ 126 ∧ c ≠ ESC) d) as Hd.
  { intros d Hd. eapply Forall_impl; [exact Hd|]. unfold ESC. cbn. lia. }
  repeat first [rewrite Forall_cons | rewrite Forall_app]. unfold ESC in *. split_and!; try lia; by apply Hd.
Qed.

(** A proper part of a text is a part of all but its last character. *)
Lemma proper_prefix {A} (t q r : list A) c : t ++ [c] = q ++ r → r ≠ [] → q `prefix_of` t.
Proof.
  intros Heq Hr. destruct r as [|d r _] using rev_ind; [done|]. rewrite app_assoc in Heq. apply app_inj_tail in Heq as [-> _].
  by exists r.
Qed.

(** A sequence with parameters. *)
Lemma csi_ok params final :
  Forall (λ c, ¬ 64 ≤ c ≤ 126 ∧ c ≠ ESC) params → 64 ≤ final ≤ 126 → (params = [] → final ≠ 77) →
  (head params = Some 60 → ((final =? 77) || (final =? 109)) && mouse_parts (params ++ [final]) = true) →
  ESC :: 91 :: params ++ [final] ≠ BRACKETED_PASTE_START → escape_ok (ESC :: 91 :: params ++ [final]).
Proof.
  intros Hp Hf Hm Hmouse Hno. apply escape_ok_intro; [| | |done].
  - rewrite complete_csi.
    + rewrite last_snoc, (proj2 (in_range_spec 64 126 final)) by done. destruct params as [|c params].
      * cbn [app]. rewrite starts_cons. case_bool_decide; [lia|done].
      * cbn [app] in *. rewrite starts_cons. case_bool_decide; [|done]. subst c. by rewrite Hmouse.
    + destruct params as [|c params]; cbn; [intros [= ->]; by apply Hm|]. apply Forall_cons in Hp as [Hc _]. intros [= ->]. lia.
  - intros q r Heq Hr. apply csi_incomplete. destruct (proper_prefix _ _ _ _ Heq Hr) as [k ->].
    apply Forall_app in Hp as [Hp _]. eapply Forall_impl; [exact Hp|]. by intros c [? _].
  - left. rewrite not_elem_of_cons, not_elem_of_app, list_elem_of_singleton. split_and!; [done| |unfold ESC; lia].
    intros Hin. rewrite Forall_forall in Hp. by destruct (Hp ESC Hin).
Qed.

Lemma string_ok k body :
  k = 93 ∨ k = 80 ∨ k = 95 → ESC ∉ body → (k = 93 → 7 ∉ body) → escape_ok (ESC :: k :: body ++ [ESC; 92]).
Proof.
  intros Hk Hbody Hbell.
  assert (Hend : endsWith (ESC :: k :: body ++ [ESC; 92]) [ESC; 92] = true).
  { apply bool_decide_eq_true_2. by exists (ESC :: k :: body). }
  apply escape_ok_intro.
  - destruct Hk as [->|Hk]; [rewrite complete_osc|rewrite complete_dcs_apc by done]; by rewrite Hend.
  - intros q r Heq Hr. change [ESC; 92] with ([ESC] ++ [92]) in Heq. rewrite app_assoc in Heq.
    apply proper_prefix in Heq; [|done].
    assert (Hu : endsWith (ESC :: k :: q) [ESC; 92] = false) by (eapply unterminated; [..|done|done]; destruct Hk as [->|[->| ->]]; done).
    destruct Hk as [->|Hk]; [rewrite complete_osc|rewrite complete_dcs_apc by done]; rewrite Hu; [|done].
    by rewrite (unterminated_bell 93 body) by auto.
  - right. exists (k :: body). split; [done|]. apply not_elem_of_cons. split; [|done]. destruct Hk as [->|[->| ->]]; done.
  - destruct Hk as [->|[->| ->]]; done.
Qed.

Lemma escape_sequence_ok s : escape_sequence s → s ≠ BRACKETED_PASTE_START → escape_ok s.
Proof.
  intros Hs Hno. destruct Hs as [c Hc|c Hc|params final Hp Hh Hf Hm|button x y final Hd Hf|a b c Hx|body t He Hb Ht|k body Hk Hb].
  - rewrite !not_elem_of_cons in Hc. destruct Hc as (? & ? & ? & ? & ? & ? & _). apply escape_ok_intro; [| | |done].
    + unfold isCompleteSequence. rewrite starts_cons2. change (tail [ESC; c]) with [c].
      rewrite (bool_decide_eq_false_2 (length [ESC; c] = 1%nat)) by done. rewrite !(starts_other c) by done. done.
    + intros q r Heq Hr. symmetry in Heq. by apply app_nil in Heq as [-> ->].
    + left. apply not_elem_of_cons. split; [done|]. apply not_elem_of_nil.
  - apply escape_ok_intro; [done| | |done].
    + intros [|d q] r Heq Hr; [done|destruct q; by destruct r].
    + left. apply not_elem_of_cons. split; [done|]. by rewrite list_elem_of_singleton.
  - apply csi_ok; try done.
  - change (60 :: (button ++ 59 :: x ++ 59 :: y) ++ [final]) with ((60 :: button ++ 59 :: x ++ 59 :: y) ++ [final]) in *. apply csi_ok; [by apply sgr_payload_plain|lia|done| |done]. intros _.
    rewrite mouse_payload by done. by destruct Hf as [-> | ->].
  - apply escape_ok_intro; [done| | |done].
    + intros q r Heq Hr. change (77 :: [a; b; c]) with ([77; a; b] ++ [c]) in Heq.
      pose proof (proper_prefix _ _ _ _ Heq Hr) as Hq. destruct q as [|d q]; [done|].
      pose proof Hq as ->%prefix_cons_inv_1. apply prefix_cons_inv_2, prefix_length in Hq. cbn in Hq.
      rewrite complete_x10, bool_decide_eq_false_2 by lia. done.
    + left. rewrite not_elem_of_cons, not_elem_of_cons. by split_and!.
  - destruct Ht as [-> | ->]; [apply string_ok; auto|]. apply escape_ok_intro; [| | |done].
    + rewrite complete_osc. change (ESC :: 93 :: body ++ [7]) with ((ESC :: 93 :: body) ++ [7]). by rewrite ends_snoc, orb_true_r.
    + intros q r Heq Hr. apply proper_prefix in Heq; [|done]. rewrite complete_osc.
      assert (q `prefix_of` body ++ [ESC]) by (by apply prefix_app_r).
      by rewrite (unterminated 93 body), (unterminated_bell 93 body) by done.
    + left. rewrite not_elem_of_cons, not_elem_of_app, list_elem_of_singleton. by split_and!.
  - apply string_ok; [tauto|done|]. intros ->. by destruct Hk.
Qed.

(** *** Escape sequences *)

Lemma escape_starts s : escape_ok s → ∃ s', s = ESC :: s'.
Proof.
  intros [Hc _ _ _]. unfold isCompleteSequence, startsWith in Hc. case_bool_decide as Hp; [|done].
  destruct Hp as [k ->]. by exists k.
Qed.

Lemma escape_not_double s : escape_ok s → s ≠ [ESC; ESC].
Proof. intros [_ _ Hin _] ->. by specialize (Hin O eq_refl). Qed.

Lemma paste_start_minimal n : (0 < n < 6)%nat → isCompleteSequence (take n BRACKETED_PASTE_START) = Incomplete.
Proof. intros Hn. destruct n as [|[|[|[|[|[|n]]]]]]; try lia; reflexivity. Qed.

Lemma start_length : length BRACKETED_PASTE_START = 6%nat.
Proof. done. Qed.
Lemma end_length : length BRACKETED_PASTE_END = 6%nat.
Proof. done. Qed.

(** A paste does not begin inside an escape sequence. *)
Lemma escape_no_start s rest j : escape_ok s → (j < length s)%nat → ¬ BRACKETED_PASTE_START `prefix_of` drop j (s ++ rest).
Proof.
  intros Hs Hj [k Hk]. destruct j as [|j].
  - rewrite drop_0 in Hk. destruct Hs as [Hc Hmin _ Hno].
    assert (Htake : take (length s) BRACKETED_PASTE_START = s ∨ (6 ≤ length s)%nat).
    { destruct (decide (6 ≤ length s)%nat) as [|Hlt]; [by right|left]. apply (f_equal (take (length s))) in Hk.
      rewrite take_app_length in Hk. rewrite take_app_le in Hk by (rewrite start_length; lia). done. }
    destruct Htake as [Htake|Hlen].
    + destruct (decide (6 ≤ length s)%nat) as [Hge|Hlt].
      * rewrite take_ge in Htake by (rewrite start_length; lia). by rewrite <- Htake in Hno.
      * pose proof (paste_start_minimal (length s) ltac:(lia)) as Hi. rewrite Htake, Hc in Hi. done.
    + destruct (decide (length s = 6%nat)) as [H6|Hne].
      * apply Hno. apply (f_equal (take 6)) in Hk. rewrite (take_app_le s), (take_ge s) in Hk by lia. done.
      * specialize (Hmin 6%nat ltac:(lia)). apply (f_equal (take 6)) in Hk. rewrite (take_app_le s) in Hk by lia. rewrite Hk in Hmin. done.
  - assert (Hesc : s !! S j = Some ESC).
    { rewrite <- (lookup_app_l s rest) by done. rewrite <- (Nat.add_0_r (S j)), <- lookup_drop, Hk. done. }
    destruct Hs as [_ _ Hin _]. apply Hin in Hesc as H92. pose proof (lookup_lt_Some _ _ _ H92) as Hlt.
    rewrite <- (lookup_app_l s rest), <- (Nat.add_1_r (S j)), <- lookup_drop, Hk in H92 by done. done.
Qed.

Lemma token_form_ok t : token_form t → token_ok t.
Proof.
  destruct t as [c|s|content]; cbn [token_form token_ok]; [done|by intros [? ?]; apply escape_sequence_ok|].
  intros Hend. apply index_of_first; [by rewrite drop_app_length|]. intros j Hj [b Hb].
  pose proof (take_drop j (content ++ BRACKETED_PASTE_END)) as Heq. rewrite Hb in Heq. specialize (Hend _ _ (eq_sym Heq)). subst b. rewrite app_nil_r in Hb. apply (f_equal length) in Hb.
  rewrite length_drop, length_app in Hb. lia.
Qed.

(** What the buffer hands out is what the tokens tell. *)
Lemma events_of_tells pending ts : Forall token_form ts → tells pending ts (events_of pending ts).2.
Proof.
  revert pending. induction ts as [|t ts IH]; intros pending Hok; [constructor|]. apply Forall_cons in Hok as [Ht Hok].
  cbn [events_of]. destruct (token_events pending t) as [p es] eqn:He. specialize (IH p Hok).
  destruct (events_of p ts) as [p' es']. cbn [snd] in *. destruct t as [c|s|content]; cbn [token_events] in He.
  - unfold emit_sequence in He. rewrite bool_decide_eq_true_2 in He by done. cbn [andb] in He. case_bool_decide as Hc.
    + injection He as <- <-. subst pending. by constructor.
    + assert (parseUnmodifiedKittyPrintableCodepoint [c] = None) as Hnone.
      { unfold parseUnmodifiedKittyPrintableCodepoint, startsWith. rewrite bool_decide_eq_false_2; [done|]. by intros [k Hk]. }
      rewrite Hnone in He. injection He as <- <-. cbn [app]. constructor; [congruence|done].
  - unfold emit_sequence in He. destruct Ht as [Ht _]. cbn in Ht.
    assert (parseUnmodifiedKittyPrintableCodepoint s = p ∧ es = [DataEvent s]) as [Hp ->].
    { by destruct Ht as [| |params| | | |]; cbn in He; injection He as <- <-. }
    cbn [app]. econstructor; [|done]. intros c. rewrite <- Hp. apply announces_iff.
  - injection He as <- <-. by constructor.
Qed.

(** *** Taking sequences *)

Lemma take_sequence_wait s n fuel :
  (∀ m, (n ≤ m ≤ length s)%nat → isCompleteSequence (take m s) = Incomplete) → take_sequence s n fuel = None.
Proof.
  revert n. induction fuel as [|fuel IH]; intros n Hs; [done|]. cbn. case_bool_decide as Hn; [|done].
  rewrite Hs by lia. apply IH. intros m Hm. apply Hs. lia.
Qed.

Lemma take_sequence_escape s rest n fuel :
  escape_ok s → (0 < n ≤ length s)%nat → (length s < n + fuel)%nat → take_sequence (s ++ rest) n fuel = Some (s, length s).
Proof.
  intros Hs. revert n. induction fuel as [|fuel IH]; intros n Hn Hf; [lia|]. cbn.
  rewrite bool_decide_eq_true_2 by (rewrite length_app; lia). rewrite take_app_le by lia.
  destruct (decide (n = length s)) as [->|Hne].
  - rewrite take_ge by done. rewrite (escape_complete s Hs), (bool_decide_eq_false_2 (s = _)) by by apply escape_not_double. done.
  - rewrite (escape_minimal s Hs) by lia. apply IH; lia.
Qed.

(** The part of a token that was read so far: nothing, or less than the token. *)
Definition partial (p : jsstring) (ts : list token) : Prop :=
  p = [] ∨ ∃ t ts' more, ts = t :: ts' ∧ token_text t = p ++ more ∧ more ≠ [] ∧ p ≠ [].

(** A part that waits in the buffer. *)
Definition waiting (p : jsstring) : Prop :=
  p = [] ∨ (∃ p', p = ESC :: p') ∧ ∀ n, (0 < n ≤ length p)%nat → isCompleteSequence (take n p) = Incomplete.

Lemma extract_tokens fuel ts p :
  Forall token_ok ts → Forall (λ t, is_paste t = false) ts → waiting p → (length (stream ts ++ p) ≤ fuel)%nat →
  extract fuel (stream ts ++ p) = (token_text <$> ts, p).
Proof.
  intros Hok Hnp Hp. revert fuel. induction ts as [|t ts IH]; intros fuel Hf.
  - change (stream [] ++ p) with p in *. destruct Hp as [->|[[p' ->] Hwait]]; [by destruct fuel|].
    destruct fuel as [|fuel]; [cbn in Hf; lia|]. cbn [extract]. rewrite Z.eqb_refl. rewrite take_sequence_wait; [done|].
    intros m Hm. apply Hwait. lia.
  - apply Forall_cons in Hok as [Ht Hok], Hnp as [Htp Hnp]. change (stream (t :: ts)) with (token_text t ++ stream ts) in *.
    rewrite <- app_assoc in *. rewrite length_app in Hf. pose proof (token_nonempty t Ht) as Hne.
    destruct t as [c|s|content]; [| |done].
    + destruct fuel as [|fuel]; [cbn in Hf; lia|]. cbn in Hf |- *. cbn in Ht. rewrite (proj2 (Z.eqb_neq c ESC) Ht).
      rewrite (IH Hok Hnp) by lia. done.
    + cbn [token_text] in *. destruct (escape_starts s Ht) as [s' Hs]. destruct fuel as [|fuel]; [rewrite Hs in Hf; cbn in Hf; lia|].
      assert (Hex : take_sequence (s ++ stream ts ++ p) 1 (length (s ++ stream ts ++ p)) = Some (s, length s)).
      { apply take_sequence_escape; [done| |rewrite length_app; lia]. rewrite Hs. cbn. lia. }
      rewrite Hs at 1. cbn [extract app]. rewrite Z.eqb_refl. change (ESC :: s' ++ stream ts ++ p) with ((ESC :: s') ++ stream ts ++ p).
      rewrite <- Hs, Hex. rewrite drop_app_length, (IH Hok Hnp); [done|]. rewrite Hs in Hf. cbn in Hf. lia.
Qed.

(** ** Streams cut in pieces *)

Lemma stream_app ts1 ts2 : stream (ts1 ++ ts2) = stream ts1 ++ stream ts2.
Proof. unfold stream. by rewrite fmap_app, concat_app. Qed.

Lemma stream_cut ts b rest :
  Forall token_ok ts → stream ts = b ++ rest →
  ∃ ts1 ts2 p, ts = ts1 ++ ts2 ∧ b = stream ts1 ++ p ∧ stream ts2 = p ++ rest ∧ partial p ts2.
Proof.
  intros Hok. revert b. induction Hok as [|t ts Ht Hok IH]; intros b Hs.
  - symmetry in Hs. apply app_nil in Hs as [-> ->]. exists [], [], []. by repeat split; left.
  - change (stream (t :: ts)) with (token_text t ++ stream ts) in Hs. symmetry in Hs.
    destruct (decide (length (token_text t) ≤ length b)%nat) as [Hle|Hgt].
    + assert (∃ b', b = token_text t ++ b') as [b' ->].
      { exists (drop (length (token_text t)) b). apply (f_equal (take (length (token_text t)))) in Hs.
        rewrite take_app_le, take_app_length in Hs by done. rewrite <- (take_drop (length (token_text t)) b) at 1. by rewrite Hs. }
      rewrite <- app_assoc in Hs. apply app_inv_head in Hs. destruct (IH b' (eq_sym Hs)) as (ts1 & ts2 & p & -> & -> & Hts2 & Hp).
      exists (t :: ts1), ts2, p. split_and!; [done| |done|done]. change (stream (t :: ts1)) with (token_text t ++ stream ts1).
      by rewrite app_assoc.
    + assert (Ht' : token_text t = b ++ drop (length b) (token_text t)).
      { apply (f_equal (take (length b))) in Hs. rewrite take_app_length in Hs. rewrite take_app_le in Hs by lia.
        rewrite <- (take_drop (length b) (token_text t)) at 1. by rewrite <- Hs. }
      exists [], (t :: ts), b. split_and!; [done|done|by symmetry|]. destruct b as [|c b]; [by left|right].
      exists t, ts, (drop (length (c :: b)) (token_text t)). split_and!; [done|done| |done].
      intros Hd. apply (f_equal length) in Hd. rewrite length_drop in Hd. cbn [length] in Hd, Hgt. lia.
Qed.

Lemma prefix_within (sub a b : jsstring) j : sub `prefix_of` drop j (a ++ b) → (j + length sub ≤ length a)%nat → sub `prefix_of` drop j a.
Proof.
  intros [k Hk] Hl. rewrite drop_app_le in Hk by lia. apply (f_equal (take (length sub))) in Hk.
  rewrite take_app_le, take_app_length in Hk by (rewrite length_drop; lia). rewrite <- Hk. apply prefix_take.
Qed.

Lemma prefix_extend (sub a b : jsstring) j : sub ≠ [] → sub `prefix_of` drop j a → sub `prefix_of` drop j (a ++ b).
Proof.
  intros Hne Hp. destruct (decide (j ≤ length a)%nat) as [Hj|Hj].
  - rewrite drop_app_le by done. by apply prefix_app_r.
  - rewrite drop_ge in Hp by lia. by apply prefix_nil_inv in Hp.
Qed.

Lemma prefix_room (sub a : jsstring) j : sub `prefix_of` drop j a → sub ≠ [] → (j + length sub ≤ length a)%nat.
Proof.
  intros Hp Hne. apply prefix_length in Hp. rewrite length_drop in Hp. destruct sub as [|c sub]; [done|]. cbn in *. lia.
Qed.

(** *** Where a paste begins *)

Lemma no_start_stream ts rest j :
  Forall token_ok ts → Forall (λ t, is_paste t = false) ts → (j < length (stream ts))%nat →
  ¬ BRACKETED_PASTE_START `prefix_of` drop j (stream ts ++ rest).
Proof.
  intros Hok Hnp. revert j. induction ts as [|t ts IH]; intros j Hj; [cbn in Hj; lia|].
  apply Forall_cons in Hok as [Ht Hok], Hnp as [Htp Hnp]. change (stream (t :: ts)) with (token_text t ++ stream ts) in *.
  rewrite <- app_assoc. rewrite length_app in Hj. destruct (decide (j < length (token_text t))%nat) as [Hlt|Hge].
  - destruct t as [c|s|content]; [|by apply escape_no_start|done]. cbn in Hlt. destruct j; [|lia]. cbn. intros [k Hk].
    injection Hk as -> _. by apply Ht.
  - rewrite drop_app_ge by lia. apply IH; [done|done|lia].
Qed.

(** What is in the buffer: a part of a token that is no paste, or of the beginning of one. *)
Definition buffered (p : jsstring) (ts : list token) : Prop :=
  partial p ts ∧ match head ts with Some (Pasted _) => (length p < 6)%nat | _ => True end.

Lemma paste_start_part p content more :
  BRACKETED_PASTE_START ++ content = p ++ more → (length p < 6)%nat → p = take (length p) BRACKETED_PASTE_START.
Proof.
  intros Heq Hl. apply (f_equal (take (length p))) in Heq. rewrite take_app_length in Heq.
  rewrite take_app_le in Heq by (rewrite start_length; lia). done.
Qed.

Lemma buffered_waiting p ts : Forall token_ok ts → buffered p ts → waiting p.
Proof.
  intros Hok [[->|(t & ts' & more & -> & Ht & Hmore & Hp)] Hl]; [by left|right]. apply Forall_cons in Hok as [Htok _].
  assert (Hlt : (length p < length (token_text t))%nat).
  { rewrite Ht, length_app. destruct more; [done|]. cbn. lia. }
  assert (Hpre : p = take (length p) (token_text t)) by (by rewrite Ht, take_app_length).
  destruct t as [c|s|content]; cbn [head] in Hl.
  - cbn in Hlt. destruct p; [done|cbn in Hlt; lia].
  - cbn [token_text] in *. destruct (escape_starts s Htok) as [s' Hs]. split.
    + rewrite Hs in Hpre. destruct p as [|c p]; [done|]. cbn in Hpre. injection Hpre as -> _. by exists p.
    + intros n Hn. rewrite Hpre, take_take, Nat.min_l by lia. apply (escape_minimal s Htok). lia.
  - apply (paste_start_part p (content ++ BRACKETED_PASTE_END) more Ht) in Hl as Hps. split.
    + destruct p as [|c p]; [done|]. cbn in Hps. injection Hps as -> _. by exists p.
    + intros n Hn. rewrite Hps, take_take, Nat.min_l by lia. apply paste_start_minimal. lia.
Qed.

Lemma buffered_no_start p ts j : Forall token_ok ts → buffered p ts → ¬ BRACKETED_PASTE_START `prefix_of` drop j p.
Proof.
  intros Hok [[->|(t & ts' & more & -> & Ht & Hmore & Hp)] Hl] Hpre; [rewrite drop_nil in Hpre; by apply prefix_nil_inv in Hpre|].
  apply Forall_cons in Hok as [Htok _]. pose proof (prefix_room _ _ _ Hpre ltac:(done)) as Hroom. rewrite start_length in Hroom.
  destruct t as [c|s|content]; cbn [head] in Hl; [| |lia].
  - apply (f_equal length) in Ht. rewrite length_app in Ht. cbn in Ht. lia.
  - cbn in Ht. apply (escape_no_start s [] j Htok).
    + rewrite Ht, length_app. lia.
    + rewrite app_nil_r, Ht. by apply prefix_extend.
Qed.

Lemma stream_start ts p j :
  Forall token_ok ts → Forall (λ t, is_paste t = false) ts → ∀ ts2, Forall token_ok ts2 → buffered p ts2 →
  ¬ BRACKETED_PASTE_START `prefix_of` drop j (stream ts ++ p).
Proof.
  intros Hok Hnp ts2 Hok2 Hp. destruct (decide (j < length (stream ts))%nat) as [Hlt|Hge]; [by apply no_start_stream|].
  rewrite drop_app_ge by lia. by eapply buffered_no_start.
Qed.

(** *** Where a paste ends *)

Lemma paste_end_absent content q more :
  token_ok (Pasted content) → content ++ BRACKETED_PASTE_END = q ++ more → more ≠ [] → index_of BRACKETED_PASTE_END q = None.
Proof.
  intros Hok Heq Hmore. apply index_of_absent. intros j Hp. pose proof (prefix_room _ _ _ Hp ltac:(done)) as Hroom.
  apply index_of_occurs in Hok as [_ Hfirst]. apply (Hfirst j).
  - apply (f_equal length) in Heq. rewrite !length_app, end_length in Heq. rewrite end_length in Hroom.
    destruct more; [done|]. cbn in Heq. lia.
  - rewrite Heq. by apply prefix_extend.
Qed.

Lemma paste_end_found content rest :
  token_ok (Pasted content) → index_of BRACKETED_PASTE_END (content ++ BRACKETED_PASTE_END ++ rest) = Some (length content).
Proof.
  intros Hok. apply index_of_first; [rewrite drop_app_length; by exists rest|]. intros j Hj Hp.
  apply index_of_occurs in Hok as [_ Hfirst]. apply (Hfirst j Hj). rewrite app_assoc in Hp.
  apply (prefix_within _ _ rest); [done|]. rewrite length_app. lia.
Qed.

(** *** Emitting *)

Lemma emit_tokens s ts :
  Forall (λ t, is_paste t = false) ts →
  emit_all s (token_text <$> ts)
  = (s <| pendingKittyPrintableCodepoint := (events_of (pendingKittyPrintableCodepoint s) ts).1 |>,
     (events_of (pendingKittyPrintableCodepoint s) ts).2).
Proof.
  revert s. induction ts as [|t ts IH]; intros s Hnp; [by destruct s|]. apply Forall_cons in Hnp as [Ht Hnp].
  cbn. unfold emitDataSequence. assert (Htok : token_events (pendingKittyPrintableCodepoint s) t = emit_sequence (pendingKittyPrintableCodepoint s) (token_text t)) by (by destruct t).
  rewrite Htok. destruct (emit_sequence _ _) as [p1 e1]. rewrite IH by done. cbn. destruct (events_of p1 ts) as [p2 e2]. by destruct s.
Qed.

(** *** The state between two pieces *)

(** What was read of the first of the tokens [ts] that are still to be handed out. *)
Inductive reads (s : StdinBuffer) (pending : option Z) (ts : list token) : jsstring → Prop :=
| reads_buffer p :
    pasteMode s = false → pasteBuffer s = [] → buffer s = p → pendingKittyPrintableCodepoint s = pending → buffered p ts →
    reads s pending ts p
| reads_paste content post q more :
    ts = Pasted content :: post → pasteMode s = true → buffer s = [] → pasteBuffer s = q →
    content ++ BRACKETED_PASTE_END = q ++ more → more ≠ [] → reads s pending ts (BRACKETED_PASTE_START ++ q).

(** [fuel] is enough for the calls of [process] that are left. *)
Definition steps_well (fuel : nat) : Prop := ∀ s pending ts p str rest,
  Forall token_ok ts → reads s pending ts p → str ≠ [] → stream ts = p ++ str ++ rest →
  (length (pasteBuffer s) + length (buffer s) + length str < fuel)%nat →
  ∃ ts1 ts2 p', ts = ts1 ++ ts2 ∧ p ++ str = stream ts1 ++ p' ∧ (process_text fuel s str).2 = (events_of pending ts1).2
    ∧ reads (process_text fuel s str).1 (events_of pending ts1).1 ts2 p'.

(** From the end of [process_once] on. *)
Definition go_on (fuel : nat) (r : StdinBuffer * list stdin_event * option jsstring) : StdinBuffer * list stdin_event :=
  let '(s, events, remaining) := r in
  match remaining with
  | Some remaining => let '(s, more) := process_text fuel s remaining in (s, events ++ more)
  | None => (s, events)
  end.

Lemma paste_step fuel s pending content post q rest :
  steps_well fuel → Forall token_ok (Pasted content :: post) → pasteMode s = true → buffer s = [] → pasteBuffer s = q →
  content ++ BRACKETED_PASTE_END ++ stream post = q ++ rest → (length q ≤ fuel)%nat →
  ∃ ts1 ts2 p', Pasted content :: post = ts1 ++ ts2 ∧ BRACKETED_PASTE_START ++ q = stream ts1 ++ p'
    ∧ (go_on fuel (end_paste s)).2 = (events_of pending ts1).2 ∧ reads (go_on fuel (end_paste s)).1 (events_of pending ts1).1 ts2 p'.
Proof.
  intros IH Hok Hmode Hbuf Hq Hs Hfuel. pose proof Hok as Hok'. apply Forall_cons in Hok' as [Ht Hpost].
  unfold end_paste. rewrite Hq. destruct (decide (length (content ++ BRACKETED_PASTE_END) ≤ length q)%nat) as [Hle|Hgt].
  - assert (∃ r, q = content ++ BRACKETED_PASTE_END ++ r ∧ stream post = r ++ rest) as (r & Hqr & Hr).
    { exists (drop (length (content ++ BRACKETED_PASTE_END)) q). rewrite app_assoc in Hs.
      assert (Htake : take (length (content ++ BRACKETED_PASTE_END)) q = content ++ BRACKETED_PASTE_END).
      { apply (f_equal (take (length (content ++ BRACKETED_PASTE_END)))) in Hs. by rewrite take_app_length, take_app_le in Hs. }
      rewrite <- (take_drop (length (content ++ BRACKETED_PASTE_END)) q) in Hs at 1. rewrite Htake, <- !app_assoc in Hs.
      split; [rewrite app_assoc; rewrite <- Htake at 1; by rewrite take_drop|]. by do 2 apply app_inv_head in Hs. }
    assert (Hdrop : drop (length content + length BRACKETED_PASTE_END) (content ++ BRACKETED_PASTE_END ++ r) = r) by
      (by rewrite <- drop_drop, !drop_app_length).
    rewrite Hqr, paste_end_found, Hdrop, take_app_length by done. set (s' := s <| pasteMode := false |> <| pasteBuffer := [] |> <| pendingKittyPrintableCodepoint := None |>).
    destruct (decide (r = [])) as [->|Hne].
    + rewrite bool_decide_eq_true_2 by done. exists [Pasted content], post, []. cbn [go_on fst snd events_of token_events app].
      split_and!; [done| |done|].
      * unfold stream. cbn. by rewrite !app_nil_r.
      * apply reads_buffer; try done. split; [by left|]. by destruct (head post) as [[]|]; cbn; try lia.
    + rewrite bool_decide_eq_false_2 by done.
      destruct (IH s' None post [] r rest Hpost) as (ts1 & ts2 & p' & -> & Hr' & Hev & Hst); try done.
      * apply reads_buffer; try done. split; [by left|]. by destruct (head post) as [[]|]; cbn; try lia.
      * cbn. rewrite Hbuf. cbn. rewrite Hqr, !length_app, end_length in Hfuel. lia.
      * exists (Pasted content :: ts1), ts2, p'. unfold go_on. cbn [app] in Hr'. destruct (process_text fuel s' r) as [s2 e2]. cbn in *.
        destruct (events_of None ts1) as [pend evs]. cbn in *. subst. split_and!; try done.
        unfold stream in *. cbn. by rewrite <- !app_assoc.
  - assert (∃ more, content ++ BRACKETED_PASTE_END = q ++ more ∧ more ≠ []) as (more & Hm & Hne).
    { exists (drop (length q) (content ++ BRACKETED_PASTE_END)). rewrite app_assoc in Hs. split.
      - apply (f_equal (take (length q))) in Hs. rewrite take_app_length in Hs. rewrite take_app_le in Hs by lia.
        rewrite <- (take_drop (length q) (content ++ BRACKETED_PASTE_END)) at 1. by rewrite Hs.
      - intros Hd. apply (f_equal length) in Hd. rewrite length_drop in Hd. cbn [length] in Hd. lia. }
    rewrite (paste_end_absent content q more Ht Hm Hne). exists [], (Pasted content :: post), (BRACKETED_PASTE_START ++ q).
    split_and!; [done|done|done|]. by eapply reads_paste.
Qed.

(** The first paste of a series. *)
Lemma first_paste ts :
  Forall (λ t, is_paste t = false) ts ∨ ∃ pre content post, ts = pre ++ Pasted content :: post ∧ Forall (λ t, is_paste t = false) pre.
Proof.
  induction ts as [|t ts IH]; [by left|]. destruct t as [c|s|content]; [| |right; by exists [], content, ts].
  - destruct IH as [IH|(pre & content & post & -> & Hp)]; [left; by constructor|right; exists (Plain c :: pre), content, post; split; [done|by constructor]].
  - destruct IH as [IH|(pre & content & post & -> & Hp)]; [left; by constructor|right; exists (Escape s :: pre), content, post; split; [done|by constructor]].
Qed.

(** Where a piece ends: before the first paste has begun, or in it or after it. *)
Lemma piece_cut ts b rest :
  Forall token_ok ts → stream ts = b ++ rest →
  (∃ ts1 ts2 p, ts = ts1 ++ ts2 ∧ b = stream ts1 ++ p ∧ Forall (λ t, is_paste t = false) ts1 ∧ buffered p ts2)
  ∨ ∃ pre content post q, ts = pre ++ Pasted content :: post ∧ Forall (λ t, is_paste t = false) pre
    ∧ b = stream pre ++ BRACKETED_PASTE_START ++ q ∧ content ++ BRACKETED_PASTE_END ++ stream post = q ++ rest.
Proof.
  intros Hok Hs. destruct (stream_cut ts b rest Hok Hs) as (ts1 & ts2 & p & -> & -> & Hs2 & Hp).
  destruct (first_paste ts1) as [Hnp|(pre & content & post & -> & Hpre)].
  - destruct ts2 as [|t ts2]; [left; exists ts1, [], p; by split_and!|].
    destruct t as [c|s|content]; [left; exists ts1, (Plain c :: ts2), p; by split_and!|left; exists ts1, (Escape s :: ts2), p; by split_and!|].
    destruct (decide (length p < 6)%nat) as [Hlt|Hge]; [left; exists ts1, (Pasted content :: ts2), p; by split_and!|right].
    change (stream (Pasted content :: ts2)) with ((BRACKETED_PASTE_START ++ content ++ BRACKETED_PASTE_END) ++ stream ts2) in Hs2.
    assert (Hpq : p = BRACKETED_PASTE_START ++ drop 6 p).
    { rewrite <- app_assoc in Hs2. apply (f_equal (take 6)) in Hs2. rewrite (take_app_le p) in Hs2 by lia.
      rewrite <- (take_drop 6 p) at 1. by rewrite <- Hs2. }
    exists ts1, content, ts2, (drop 6 p). split_and!; [done|done|by rewrite <- Hpq|].
    rewrite Hpq, <- !app_assoc in Hs2. apply app_inv_head in Hs2. exact Hs2.
  - right. exists pre, content, (post ++ ts2), (content ++ BRACKETED_PASTE_END ++ stream post ++ p).
    split_and!; [by rewrite <- app_assoc|done| |].
    + rewrite stream_app. change (stream (Pasted content :: post)) with ((BRACKETED_PASTE_START ++ content ++ BRACKETED_PASTE_END) ++ stream post).
      by rewrite <- !app_assoc.
    + rewrite stream_app, Hs2, <- !app_assoc. done.
Qed.

Lemma buffered_empty ts : buffered [] ts.
Proof. split; [by left|]. by destruct (head ts) as [[]|]; cbn; try lia. Qed.

Lemma process_paste s str :
  str ≠ [] → pasteMode s = true → buffer s = [] →
  process_once s str = end_paste (s <| timeout := None |> <| buffer := [] |> <| pasteBuffer := pasteBuffer s ++ str |>).
Proof.
  intros Hstr Hmode Hbuf. unfold process_once. rewrite (bool_decide_eq_false_2 (str = [])) by done. cbn. rewrite Hmode, Hbuf. by destruct s.
Qed.

Lemma process_sequences s str ts1 ts2 p :
  str ≠ [] → pasteMode s = false → pasteBuffer s = [] → Forall token_ok ts1 → Forall (λ t, is_paste t = false) ts1 → Forall token_ok ts2 → buffered p ts2 →
  buffer s ++ str = stream ts1 ++ p →
  ∃ s', process_once s str = (s', (events_of (pendingKittyPrintableCodepoint s) ts1).2, None)
    ∧ reads s' (events_of (pendingKittyPrintableCodepoint s) ts1).1 ts2 p.
Proof.
  intros Hstr Hmode Hpb Hok1 Hnp Hok2 Hp Heq. unfold process_once. rewrite (bool_decide_eq_false_2 (str = [])) by done. cbn. rewrite Hmode, Heq.
  rewrite index_of_absent by (intros j; by eapply stream_start). unfold extractCompleteSequences.
  rewrite extract_tokens; [|done|done|by eapply buffered_waiting|done]. rewrite emit_tokens by done. cbn.
  eexists. split; [done|]. destruct s as [b t tm et pm pb pk]. cbn in *. apply reads_buffer; try done; by case_bool_decide.
Qed.

Lemma process_start s str pre q :
  str ≠ [] → pasteMode s = false → Forall token_ok pre → Forall (λ t, is_paste t = false) pre →
  buffer s ++ str = stream pre ++ BRACKETED_PASTE_START ++ q →
  ∃ s', process_once s str
        = (let '(s2, events, remaining) := end_paste s' in (s2, (events_of (pendingKittyPrintableCodepoint s) pre).2 ++ events, remaining))
    ∧ pasteMode s' = true ∧ buffer s' = [] ∧ pasteBuffer s' = q.
Proof.
  intros Hstr Hmode Hok Hnp Heq. unfold process_once. rewrite (bool_decide_eq_false_2 (str = [])) by done. cbn. rewrite Hmode, Heq.
  rewrite (index_of_first _ _ (length (stream pre))); [|rewrite drop_app_length; by exists q|intros j Hj; by apply no_start_stream].
  rewrite take_app_length.
  assert (Hseq : (if bool_decide (length (stream pre) = O) then [] else (extractCompleteSequences (stream pre)).1) = token_text <$> pre).
  { destruct (decide (pre = [])) as [->|Hne]; [done|]. unfold extractCompleteSequences.
    pose proof (extract_tokens (length (stream pre)) pre [] Hok Hnp (or_introl eq_refl)) as Hex. rewrite app_nil_r in Hex.
    rewrite Hex by done. rewrite bool_decide_eq_false_2; [done|]. destruct pre as [|t pre]; [done|]. apply Forall_cons in Hok as [Ht _].
    apply token_nonempty in Ht. change (stream (t :: pre)) with (token_text t ++ stream pre). destruct (token_text t); [done|]. cbn. lia. }
  assert (Hdrop : drop (length (stream pre) + length BRACKETED_PASTE_START) (stream pre ++ BRACKETED_PASTE_START ++ q) = q) by
    (by rewrite <- drop_drop, !drop_app_length).
  rewrite Hseq, emit_tokens by done. cbn. eexists. split; [reflexivity|]. split_and!; [done|done|exact Hdrop].
Qed.

Lemma process_text_step fuel s str : process_text (S fuel) s str = go_on fuel (process_once s str).
Proof. cbn. by destruct (process_once s str) as [[s' e] r]. Qed.

Lemma steps_all fuel : steps_well fuel.
Proof.
  induction fuel as [|fuel IH]; intros s pending ts p str rest Hok Hr Hstr Hs Hf; [lia|]. rewrite process_text_step.
  destruct Hr as [p Hmode Hpb <- <- Hp|content post q more -> Hmode Hb <- Hq Hmore].
  - rewrite app_assoc in Hs.
    destruct (piece_cut ts _ rest Hok Hs) as [(ts1 & ts2 & p & -> & Heq & Hnp & Hp')|(pre & content & post & q & -> & Hnp & Heq & Hq)].
    + apply Forall_app in Hok as [Hok1 Hok2].
      destruct (process_sequences s str ts1 ts2 p Hstr Hmode Hpb Hok1 Hnp Hok2 Hp' Heq) as (s' & -> & Hreads). by exists ts1, ts2, p.
    + apply Forall_app in Hok as [Hok1 Hok2].
      destruct (process_start s str pre q Hstr Hmode Hok1 Hnp Heq) as (s' & -> & Hm' & Hb' & Hp').
      destruct (paste_step fuel s' (events_of (pendingKittyPrintableCodepoint s) pre).1 content post q rest IH Hok2 Hm' Hb' Hp' Hq)
        as (ts1 & ts2 & p' & Hts & Hps & Hev & Hst).
      { apply (f_equal length) in Heq. rewrite !length_app in Heq. lia. }
      exists (pre ++ ts1), ts2, p'. rewrite Hts, events_of_app, Heq, Hps, stream_app, !app_assoc. cbn [fst snd].
      destruct (end_paste s') as [[s2 e2] r2]. unfold go_on in *. destruct r2 as [r2|]; [|cbn in *; subst; by split_and!].
      destruct (process_text fuel s2 r2) as [s3 e3]. cbn in *. split_and!; try done. by rewrite <- app_assoc, Hev.
  - rewrite process_paste by done. rewrite Hb in Hf. cbn [length] in Hf.
    destruct (paste_step fuel (s <| timeout := None |> <| buffer := [] |> <| pasteBuffer := pasteBuffer s ++ str |>) pending content post
      (pasteBuffer s ++ str) rest IH Hok) as (ts1 & ts2 & p' & Hts & Hps & Hev & Hst); try done.
    + change (stream (Pasted content :: post)) with ((BRACKETED_PASTE_START ++ content ++ BRACKETED_PASTE_END) ++ stream post) in Hs.
      rewrite <- !app_assoc in Hs. apply app_inv_head in Hs. by rewrite <- app_assoc.
    + rewrite length_app. lia.
    + exists ts1, ts2, p'. by rewrite <- app_assoc.
Qed.

(** Any sequence of pieces. *)
Lemma process_all_reads chunks s pending ts p rest :
  Forall token_ok ts → reads s pending ts p → Forall (λ c, c ≠ []) chunks → stream ts = p ++ concat chunks ++ rest →
  ∃ ts1 ts2 p', ts = ts1 ++ ts2 ∧ p ++ concat chunks = stream ts1 ++ p' ∧ (process_all s chunks).2 = (events_of pending ts1).2
    ∧ reads (process_all s chunks).1 (events_of pending ts1).1 ts2 p'.
Proof.
  revert s pending ts p. induction chunks as [|c chunks IH]; intros s pending ts p Hok Hr Hne Hs.
  - exists [], ts, p. cbn. by rewrite app_nil_r.
  - apply Forall_cons in Hne as [Hc Hne]. cbn [concat] in Hs. rewrite <- app_assoc in Hs.
    destruct (steps_all _ s pending ts p c (concat chunks ++ rest) Hok Hr Hc Hs (Nat.lt_succ_diag_r _)) as (ts1 & ts2 & p1 & -> & Hp1 & Hev & Hst).
    rewrite stream_app in Hs. rewrite app_assoc, Hp1, <- app_assoc in Hs. apply app_inv_head in Hs. apply Forall_app in Hok as [_ Hok].
    destruct (IH _ _ ts2 p1 Hok Hst Hne Hs) as (ts3 & ts4 & p2 & -> & Hp2 & Hev2 & Hst2).
    exists (ts1 ++ ts3), ts4, p2. rewrite events_of_app, stream_app. cbn [process_all fst snd concat].
    fold (process s c) in Hev, Hst, Hev2, Hst2. change (process_text _ s c) with (process s c) in *.
    destruct (process s c) as [s1 e1]. cbn in *. destruct (process_all s1 chunks) as [s2 e2]. cbn in *. subst. split_and!; try done.
    + by rewrite <- app_assoc.
    + by rewrite app_assoc, Hp1, <- !app_assoc, Hp2.
Qed.

(** *** The timer

    It runs while something waits in the buffer, and for less long when that is only the
    escape character. *)
Definition timed (s s' : StdinBuffer) : Prop :=
  timeout s' = (if bool_decide (buffer s' = []) then None
                else Some (if bool_decide (buffer s' = [ESC]) then escapeTimeoutMs s else timeoutMs s))
  ∧ escapeTimeoutMs s' = escapeTimeoutMs s ∧ timeoutMs s' = timeoutMs s.

Lemma timed_trans s1 s2 s3 : timed s1 s2 → timed s2 s3 → timed s1 s3.
Proof. intros (_ & H2 & H3) (H1' & H2' & H3'). split; [by rewrite H1', H2, H3|]. by rewrite H2', H3'. Qed.

Lemma emit_all_state s sequences : ∃ pending, (emit_all s sequences).1 = s <| pendingKittyPrintableCodepoint := pending |>.
Proof.
  revert s. induction sequences as [|x xs IH]; intros s; [exists (pendingKittyPrintableCodepoint s); by destruct s|].
  cbn [emit_all]. unfold emitDataSequence. destruct (emit_sequence _ _) as [p es]. destruct (IH (s <| pendingKittyPrintableCodepoint := p |>)) as [q Hq].
  destruct (emit_all _ xs) as [s' es']. cbn [fst] in *. exists q. by rewrite Hq.
Qed.

Lemma end_paste_timed s s' : buffer s' = [] → timeout s' = None → escapeTimeoutMs s' = escapeTimeoutMs s → timeoutMs s' = timeoutMs s →
  timed s (end_paste s').1.1.
Proof.
  intros Hb Ht He Hm. unfold end_paste, timed. destruct (index_of _ _); cbn; rewrite Hb, bool_decide_eq_true_2 by done; by split_and!.
Qed.

Lemma process_once_timed s str : timed s (process_once s str).1.1.
Proof.
  unfold process_once. case_match eqn:Hempty.
  - unfold emitDataSequence. destruct (emit_sequence _ _) as [p es]. apply andb_true_iff in Hempty as [_ Hb]. cbn in Hb. unfold timed. cbn. by rewrite Hb.
  - cbn zeta. case_match; [by apply end_paste_timed|]. case_match.
    + match goal with |- context [emit_all ?s0 ?l] => pose proof (emit_all_state s0 l) as [q Hq]; destruct (emit_all s0 l) as [s' es] end.
      cbn [fst] in Hq. subst s'. match goal with |- context [end_paste ?s0] => pose proof (end_paste_timed s s0) as He; destruct (end_paste s0) as [[s2 e2] r2] end.
      by apply He.
    + destruct (extractCompleteSequences _) as [sequences remainder].
      match goal with |- context [emit_all ?s0 ?l] => pose proof (emit_all_state s0 l) as [q Hq]; destruct (emit_all s0 l) as [s' es] end.
      cbn [fst] in Hq. subst s'. cbn. destruct (bool_decide (remainder = [])) eqn:Hb; unfold timed; cbn; by rewrite Hb.
Qed.

Lemma process_text_timed fuel s str : timed s (process_text (S fuel) s str).1.
Proof.
  revert s str. induction fuel as [|fuel IH]; intros s str; rewrite process_text_step; unfold go_on;
    pose proof (process_once_timed s str) as Hs; destruct (process_once s str) as [[s1 es] [r|]]; cbn [fst] in *; try done.
  specialize (IH s1 r). destruct (process_text (S fuel) s1 r) as [s2 es2]. cbn [fst] in *. by eapply timed_trans.
Qed.

Lemma process_all_timed s chunks : timed s s → timed s (process_all s chunks).1.
Proof.
  revert s. induction chunks as [|c chunks IH]; intros s Hs; [done|]. cbn [process_all].
  pose proof (process_text_timed (length (pasteBuffer s) + length (buffer s) + length c) s c) as Hc. change (process_text _ s c) with (process s c) in Hc.
  destruct (process s c) as [s1 es]. cbn [fst] in Hc. assert (timed s1 s1) as H1.
  { destruct Hc as (H1 & H2 & H3). split; [by rewrite H1, H2, H3|done]. }
  specialize (IH s1 H1). destruct (process_all s1 chunks) as [s2 es2]. cbn [fst] in *. by eapply timed_trans.
Qed.

(** C9: however a stream of characters, escape sequences and pastes is cut into pieces, the
    buffer hands out one event for each of them, in order, pastes without their markers, and
    holds nothing when the stream is over; at any time before, it has handed out the events
    of the first tokens and holds what it has of the next one, with a timer exactly when
    that waits outside a paste.  (A character that the key sequence before it has announced
    is left out.) *)
Theorem input_tokens ts chunks more s :
  Forall token_form ts → Forall (λ c, c ≠ []) chunks → concat chunks ++ more = stream ts →
  buffer s = [] → pasteMode s = false → pasteBuffer s = [] → pendingKittyPrintableCodepoint s = None → timeout s = None →
  ∃ ts1 ts2 p, ts = ts1 ++ ts2 ∧ concat chunks = stream ts1 ++ p
    ∧ tells None ts1 (process_all s chunks).2
    ∧ match ts2 with [] => p = [] | t :: _ => ∃ later, later ≠ [] ∧ token_text t = p ++ later end
    ∧ (more = [] → ts1 = ts ∧ p = [])
    ∧ (if pasteMode (process_all s chunks).1
       then p = BRACKETED_PASTE_START ++ pasteBuffer (process_all s chunks).1 ∧ buffer (process_all s chunks).1 = []
       else buffer (process_all s chunks).1 = p)
    ∧ timed s (process_all s chunks).1.
Proof.
  intros Hform Hne Hs Hb Hm Hpb Hpend Htime.
  assert (Hok : Forall token_ok ts) by (eapply Forall_impl; [exact Hform|apply token_form_ok]).
  assert (Htimed : timed s (process_all s chunks).1) by (apply process_all_timed; unfold timed; by rewrite Hb, Htime).
  assert (Hr : reads s None ts []) by (apply reads_buffer; try done; apply buffered_empty).
  destruct (process_all_reads chunks s None ts [] more Hok Hr Hne (eq_sym Hs)) as (ts1 & ts2 & p & Heq & Hp & Hev & Hst).
  exists ts1, ts2, p. split_and!; [done|done| | | | |done].
  - rewrite Hev. apply events_of_tells. subst ts. by apply Forall_app in Hform as [? _].
  - assert (Hpart : partial p ts2 ∨ ∃ later, later ≠ [] ∧ ∃ t ts', ts2 = t :: ts' ∧ token_text t = p ++ later).
    { destruct Hst as [p _ _ _ _ [Hpart _]|content post q later -> _ _ _ Hq Hl]; [by left|right].
      exists later. split; [done|]. exists (Pasted content), post. split; [done|]. cbn. by rewrite Hq. }
    destruct Hpart as [[->|(t & ts' & later & -> & Ht & Hl & _)]|(later & Hl & t & ts' & -> & Ht)]; [|by exists later|by exists later].
    destruct ts2 as [|t ts2]; [done|]. exists (token_text t). split; [|done].
    rewrite Heq in Hok. apply Forall_app in Hok as [_ Hok]. apply Forall_cons in Hok as [Ht _]. by apply token_nonempty.
  - intros ->. rewrite app_nil_r in Hs. cbn in Hp. subst ts. rewrite stream_app, Hp in Hs. apply app_inv_head in Hs.
    apply Forall_app in Hok as [_ Hok2].
    destruct Hst as [p _ _ _ _ [Hpart _]|content post q more -> _ _ _ Hq Hmore].
    + destruct Hpart as [->|(t & ts' & more & -> & Ht & Hmore & Hpne)].
      * destruct ts2 as [|t ts2]; [by rewrite app_nil_r|]. apply Forall_cons in Hok2 as [Ht _]. apply token_nonempty in Ht.
        symmetry in Hs. change (stream (t :: ts2)) with (token_text t ++ stream ts2) in Hs. by apply app_nil in Hs as [? _].
      * exfalso. change (stream (t :: ts')) with (token_text t ++ stream ts') in Hs. rewrite Ht in Hs.
        apply (f_equal length) in Hs. rewrite !length_app in Hs. destruct more; [done|]. cbn in Hs. lia.
    + exfalso. change (stream (Pasted content :: post)) with ((BRACKETED_PASTE_START ++ content ++ BRACKETED_PASTE_END) ++ stream post) in Hs.
      rewrite Hq in Hs. apply (f_equal length) in Hs. rewrite !length_app in Hs. destruct more; [done|]. cbn in Hs. lia.
  - destruct Hst as [p -> _ Hbuf _ _|content post q more' -> -> Hbuf <- _ _]; done.
Qed.

(** A paste whose first end marker is the one at its end. *)
Lemma first_end_marker content :
  index_of BRACKETED_PASTE_END (content ++ BRACKETED_PASTE_END) = Some (length content) →
  ∀ a b, content ++ BRACKETED_PASTE_END = a ++ BRACKETED_PASTE_END ++ b → b = [].
Proof.
  intros [_ Hfirst]%index_of_occurs a b Hab. apply dec_stable. intros Hb. apply (Hfirst (length a)).
  - apply (f_equal length) in Hab. rewrite !length_app in Hab. destruct b; [done|]. cbn [length] in Hab. lia.
  - rewrite Hab, drop_app_length. by exists b.
Qed.

(** ** Examples *)

Definition empty_buffer : StdinBuffer := new_buffer None None.

(** A click, a letter, a paste with an escape character in it, the up key, and a letter that
    is announced and repeated, in pieces of four. *)
Definition example_tokens : list token :=
  [Escape (ESC :: js "[<35;20;5m"); Plain 97; Pasted (js "two" ++ [10; ESC] ++ js "[lines"); Escape (ESC :: js "[A");
   Escape (ESC :: js "[97u"); Plain 97].
Definition example_events : list stdin_event :=
  [DataEvent (ESC :: js "[<35;20;5m"); DataEvent [97]; PasteEvent (js "two" ++ [10; ESC] ++ js "[lines"); DataEvent (ESC :: js "[A");
   DataEvent (ESC :: js "[97u")].
Fixpoint pieces (n : nat) (s : jsstring) : list jsstring :=
  match n with O => [] | S n => match s with [] => [] | _ => take 4 s :: pieces n (drop 4 s) end end.

Lemma input_tokens_witness :
  ∃ ts1 ts2 p, example_tokens = ts1 ++ ts2 ∧ concat (pieces 99 (stream example_tokens)) = stream ts1 ++ p
    ∧ tells None ts1 example_events
    ∧ match ts2 with [] => p = [] | t :: _ => ∃ later, later ≠ [] ∧ token_text t = p ++ later end
    ∧ (@nil Z = [] → ts1 = example_tokens ∧ p = [])
    ∧ (if pasteMode empty_buffer then p = BRACKETED_PASTE_START ++ pasteBuffer empty_buffer ∧ buffer empty_buffer = []
       else buffer empty_buffer = p)
    ∧ timed empty_buffer empty_buffer.
Proof.
  change example_events with (process_all empty_buffer (pieces 99 (stream example_tokens))).2.
  change empty_buffer with (process_all empty_buffer (pieces 99 (stream example_tokens))).1 at 1 2 3 4 6.
  apply input_tokens; try (vm_compute; reflexivity).
  - repeat (apply Forall_cons; split); [..|by apply Forall_nil]; cbn [token_form].
    + split; [|vm_compute; discriminate]. apply (sgr_mouse (js "35") (js "20") (js "5") 109); [|by right].
      repeat constructor; try discriminate; by vm_compute.
    + discriminate.
    + intros a b Hab.
      refine (first_end_marker _ _ a b Hab). vm_compute. reflexivity.
    + split; [|vm_compute; discriminate]. apply (csi [] 65); [constructor|done|lia|done].
    + split; [|vm_compute; discriminate]. apply (csi [57; 55] 117); [|done|lia|done]. repeat constructor; unfold ESC; lia.
    + discriminate.
  - apply (bool_decide_unpack _). vm_compute. exact I.
Defined.

(** What waits in the buffer when a paste begins is lost: the Escape key just before a
    paste gives no event. *)
Example escape_before_paste_lost :
  (process_all empty_buffer [[ESC]; BRACKETED_PASTE_START ++ js "x" ++ BRACKETED_PASTE_END]).2 = [PasteEvent (js "x")].
Proof. reflexivity. Qed.

(** Two escape characters are one key when the first piece ends after them, and otherwise
    the Escape key and the beginning of a sequence. *)
Example double_escape_cut :
  (process_all empty_buffer [ESC :: ESC :: js "[A"]).2 = [DataEvent [ESC]; DataEvent (ESC :: js "[A")]
  ∧ (process_all empty_buffer [[ESC; ESC]; js "[A"]).2 = [DataEvent [ESC; ESC]; DataEvent (js "["); DataEvent (js "A")].
Proof. split; reflexivity. Qed.
