(* ===== verification/SessionManager.v ===== *)
(** * The sessions of the application

    [packages/coding-agent/src/core/session-manager.ts]: a session is a list of entries
    in memory, each pointing to its parent, and a file of one JSON line per entry that
    is created with the first response of the model and appended to from then on.

    Entries are read without validation, so they are JSON values here too and a property
    is read as JavaScript reads it; but an entry of type [message] without a message, whose
    role the code would throw at, has no role here.  Directories are taken to be there.  The calls of [fs] act on a disk whose plan says
    which of them fail, and how much they had written. *)

From Stdlib Require Import SpecFloat.
From S2P Require Import Prelude JsNumber JsString JsMap SessionTypes JsonText.

(** ** Values read as JavaScript reads them *)

Definition prop (v : JsonValue) (key : jsstring) : option JsonValue :=
  match v with JsonObject props => map_get props key | _ => None end.

Definition truthy (v : JsonValue) : bool :=
  match v with
  | JsonNull => false
  | JsonBool b => b
  | JsonNumber x => negb (bool_decide (x = of_Z 0) || is_neg_zero x)
  | JsonString s => negb (bool_decide (s = []))
  | JsonArray _ | JsonObject _ => true
  end.

Definition with_prop (key : jsstring) (value : JsonValue) (v : JsonValue) : JsonValue :=
  match v with JsonObject props => JsonObject (set_prop props key value) | _ => v end.
Definition without_prop (key : jsstring) (v : JsonValue) : JsonValue :=
  match v with JsonObject props => JsonObject (map_delete props key) | _ => v end.

Definition string_prop (v : JsonValue) (key : jsstring) : option jsstring :=
  match prop v key with Some (JsonString s) => Some s | _ => None end.

(** An id, [null] or [undefined]; an id of a file that is no string is read as
    [undefined]. *)
Inductive jsid := Undefined | Null | Id (s : jsstring).

#[export] Instance jsid_eq_dec : EqDecision jsid.
Proof. solve_decision. Defined.

Definition id_of (v : option JsonValue) : jsid :=
  match v with Some (JsonString s) => Id s | Some JsonNull => Null | _ => Undefined end.
Definition id_truthy (i : jsid) : bool := match i with Id s => negb (bool_decide (s = [])) | _ => false end.

Definition json_of_id (i : jsid) : option JsonValue :=
  match i with Undefined => None | Null => Some JsonNull | Id s => Some (JsonString s) end.

Abbreviation file_entry := JsonValue (only parsing).

Definition has_type (t : jsstring) (e : file_entry) : bool := bool_decide (string_prop e (js "type") = Some t).
Definition is_header : file_entry → bool := has_type (js "session").
Definition entry_id (e : file_entry) : jsid := id_of (prop e (js "id")).
Definition entry_parentId (e : file_entry) : jsid := id_of (prop e (js "parentId")).

Definition entry_message (e : file_entry) : JsonValue := default JsonNull (prop e (js "message")).
Definition has_role (r : jsstring) (message : JsonValue) : bool := bool_decide (string_prop message (js "role") = Some r).
Definition is_assistant_entry (e : file_entry) : bool := has_type (js "message") e && has_role (js "assistant") (entry_message e).

Definition props_of (kvs : list (jsstring * option JsonValue)) : list (jsstring * JsonValue) :=
  omap (λ kv, match kv.2 with Some v => Some (kv.1, v) | None => None end) kvs.

(** ** Errors *)

Inductive sm_error := InvalidSessionFile | EntryNotFound (id : jsstring) | InvalidSessionId | FileFault | FileExists | CannotFork | Endless.

(** ** Ids *)

Definition is_alnum (c : Z) : bool := in_range 48 57 c || in_range 65 90 c || in_range 97 122 c.
Definition id_char (c : Z) : bool := is_alnum c || (c =? 46) || (c =? 95) || (c =? 45).

Definition valid_session_id (id : jsstring) : bool :=
  match id with
  | [] => false
  | c :: _ => is_alnum c && forallb id_char id && match last id with Some d => is_alnum d | None => false end
  end.

(** [generateId]; [draw i] is what the [i]-th call of [randomUUID()] gives. *)
Fixpoint generate_from (has : jsstring → bool) (draw : nat → jsstring) (i tries : nat) : jsstring :=
  match tries with
  | O => draw i
  | S tries => let id := take 8 (draw i) in if has id then generate_from has draw (S i) tries else id
  end.
Definition generateId (has : jsstring → bool) (draw : nat → jsstring) : jsstring := generate_from has draw 0 100.

(** ** Migration *)

Definition CURRENT_SESSION_VERSION : Z := 3.

(** One entry of [migrateV1ToV2]: [migrated] are the entries before it.  The set of ids
    that [generateId] is given stays empty. *)
Definition migrate_entry_v2 (entries : list file_entry) (draw : nat → nat → jsstring)
    (acc : list file_entry * jsid) (ie : nat * file_entry) : list file_entry * jsid :=
  let '(migrated, prevId) := acc in
  let '(i, entry) := ie in
  if is_header entry then (migrated ++ [with_prop (js "version") (JsonNumber (of_Z 2)) entry], prevId)
  else
    let id := generateId (λ _, false) (draw i) in
    let entry := with_prop (js "id") (JsonString id) entry in
    let entry := with_prop (js "parentId") (default JsonNull (json_of_id prevId)) entry in
    let entry :=
      if has_type (js "compaction") entry then
        match prop entry (js "firstKeptEntryIndex") with
        | Some (JsonNumber x) =>
            (* a target that comes later has no id yet *)
            let target := (match int_value x with
                           | Some n => if n <? 0 then None else (migrated ++ entry :: drop (S i) entries) !! Z.to_nat n
                           | None => None
                           end) in
            let entry :=
              match target with
              | Some t =>
                  if truthy t && negb (is_header t) then
                    match prop t (js "id") with
                    | Some v => with_prop (js "firstKeptEntryId") v entry
                    | None => without_prop (js "firstKeptEntryId") entry
                    end
                  else entry
              | None => entry
              end in
            without_prop (js "firstKeptEntryIndex") entry
        | _ => entry
        end
      else entry in
    (migrated ++ [entry], Id id).

Definition migrateV1ToV2 (draw : nat → nat → jsstring) (entries : list file_entry) : list file_entry :=
  (foldl (migrate_entry_v2 entries draw) ([], Null) (imap pair entries)).1.

Definition migrate_entry_v3 (entry : file_entry) : file_entry :=
  if is_header entry then with_prop (js "version") (JsonNumber (of_Z 3)) entry
  else if has_type (js "message") entry && has_role (js "hookMessage") (entry_message entry)
  then with_prop (js "message") (with_prop (js "role") (JsonString (js "custom")) (entry_message entry)) entry
  else entry.
Definition migrateV2ToV3 (entries : list file_entry) : list file_entry := migrate_entry_v3 <$> entries.

Definition find_header (entries : list file_entry) : option file_entry := head (filter (λ e, is_header e = true) entries).

(** [header?.version ?? 1], a version that is no number taken as 1. *)
Definition session_version (entries : list file_entry) : jsnum :=
  match find_header entries ≫= λ h, prop h (js "version") with
  | Some (JsonNumber x) => x
  | _ => of_Z 1
  end.

Definition version_below (version : jsnum) (n : Z) : bool := SFltb (sf_of_num version) (sf_of_num (of_Z n)).

Definition migrateToCurrentVersion (draw : nat → nat → jsstring) (entries : list file_entry) : list file_entry * bool :=
  let version := session_version entries in
  if negb (version_below version CURRENT_SESSION_VERSION) then (entries, false)
  else
    let entries := if version_below version 2 then migrateV1ToV2 draw entries else entries in
    let entries := if version_below version 3 then migrateV2ToV3 entries else entries in
    (entries, true).

(** ** Files of entries *)

Definition parseSessionEntryLine (line : jsstring) : option file_entry :=
  if bool_decide (trim line = []) then None
  else match json_parse line with Some v => if truthy v then Some v else None | None => None end.

(** The loop of [loadEntriesFromFile]: the file in the chunks it is read in. *)
Definition take_lines (pending : jsstring) : list file_entry * jsstring :=
  let parts := split_at 10 pending in
  (omap parseSessionEntryLine (removelast parts), default [] (last parts)).

Fixpoint load_chunks (chunks : list jsstring) (entries : list file_entry) (pending : jsstring) : list file_entry * jsstring :=
  match chunks with
  | [] => (entries ++ option_list (parseSessionEntryLine pending), pending)
  | chunk :: chunks =>
      let '(found, pending) := take_lines (pending ++ chunk) in load_chunks chunks (entries ++ found) pending
  end.

(** The entries of a text, and whether a line end is missing at its end. *)
Definition load_text (chunks : list jsstring) : list file_entry * bool :=
  let '(entries, pending) := load_chunks chunks [] [] in
  match entries with
  | header :: _ =>
      if is_header header && bool_decide (is_Some (string_prop header (js "id")))
      then (entries, negb (bool_decide (pending = []))) else ([], false)
  | [] => ([], false)
  end.

Definition entry_line (e : file_entry) : jsstring := json_text e ++ [10].
Definition entries_text (es : list file_entry) : jsstring := concat (entry_line <$> es).

(** ** The path to an entry and the context it gives *)

Definition buildEntryIndex (entries : list file_entry) : jsmap jsid file_entry :=
  foldl (λ index entry, map_set index (entry_id entry) entry) [] entries.

(** The walk up the parents, newest first; [None] when [fuel] entries were not enough. *)
Fixpoint walk_up (index : jsmap jsid file_entry) (fuel : nat) (current : option file_entry) : option (list file_entry) :=
  match current with
  | None => Some []
  | Some e =>
      match fuel with
      | O => None
      | S fuel =>
          let parent := if id_truthy (entry_parentId e) then map_get index (entry_parentId e) else None in
          rest ← walk_up index fuel parent; Some (e :: rest)
      end
  end.
Definition path_to (index : jsmap jsid file_entry) (current : option file_entry) : option (list file_entry) :=
  path ← walk_up index (S (length index)) current; Some (reverse path).

Definition buildSessionPath (entries : list file_entry) (leafId : jsid) (index : jsmap jsid file_entry) : option (list file_entry) :=
  match leafId with
  | Null => Some []
  | _ =>
      let leaf := if id_truthy leafId then map_get index leafId else None in
      path_to index (match leaf with Some e => Some e | None => last entries end)
  end.

Record model_ref := MkModelRef { ref_provider : option JsonValue; ref_modelId : option JsonValue }.

Definition settings_step (acc : JsonValue * option model_ref) (entry : file_entry) : JsonValue * option model_ref :=
  let '(thinkingLevel, model) := acc in
  if has_type (js "thinking_level_change") entry then (default JsonNull (prop entry (js "thinkingLevel")), model)
  else if has_type (js "model_change") entry
  then (thinkingLevel, Some (MkModelRef (prop entry (js "provider")) (prop entry (js "modelId"))))
  else if is_assistant_entry entry
  then (thinkingLevel, Some (MkModelRef (prop (entry_message entry) (js "provider")) (prop (entry_message entry) (js "model"))))
  else acc.
Definition getSessionContextSettings (path : list file_entry) : JsonValue * option model_ref :=
  foldl settings_step (JsonString (js "off"), None) path.

(** The messages an entry stands for; the functions that create them are their
    constructors. *)
Inductive context_message :=
| CtxMessage (message : JsonValue)
| CtxCustom (customType : option JsonValue) (content : JsonValue) (display details timestamp : option JsonValue)
| CtxBranchSummary (summary : JsonValue) (fromId timestamp : option JsonValue)
| CtxCompactionSummary (summary tokensBefore timestamp : option JsonValue).

Definition is_nullish (v : option JsonValue) : bool := match v with None | Some JsonNull => true | _ => false end.

Definition sessionEntryToContextMessages (entry : file_entry) : list context_message :=
  if has_type (js "message") entry then
    let message := entry_message entry in
    if (has_role (js "user") message || has_role (js "assistant") message || has_role (js "toolResult") message)
       && is_nullish (prop message (js "content"))
    then [CtxMessage (with_prop (js "content") (JsonArray []) message)] else [CtxMessage message]
  else if has_type (js "custom_message") entry then
    let content := match prop entry (js "content") with Some JsonNull | None => JsonArray [] | Some c => c end in
    [CtxCustom (prop entry (js "customType")) content (prop entry (js "display")) (prop entry (js "details"))
       (prop entry (js "timestamp"))]
  else if has_type (js "branch_summary") entry && match prop entry (js "summary") with Some s => truthy s | None => false end
  then [CtxBranchSummary (default JsonNull (prop entry (js "summary"))) (prop entry (js "fromId")) (prop entry (js "timestamp"))]
  else if has_type (js "compaction") entry
  then [CtxCompactionSummary (prop entry (js "summary")) (prop entry (js "tokensBefore")) (prop entry (js "timestamp"))]
  else [].

Definition is_compaction : file_entry → bool := has_type (js "compaction").

(** [getLatestCompactionEntry]; the loop over the path finds the same. *)
Definition getLatestCompactionEntry (entries : list file_entry) : option file_entry :=
  last (filter (λ e, is_compaction e = true) entries).

Definition same_id (a b : jsid) : bool := bool_decide (a = b).

(** What [buildContextEntries] makes of the path. *)
Definition context_of_path (path : list file_entry) : list file_entry :=
  match getLatestCompactionEntry path with
  | None => path
  | Some compaction =>
      match list_find (λ e, same_id (entry_id e) (entry_id compaction) = true) path with
      | None => path
      | Some (compactionIdx, _) =>
          let firstKept := id_of (prop compaction (js "firstKeptEntryId")) in
          let before := take compactionIdx path in
          let kept := match list_find (λ e, same_id (entry_id e) firstKept = true) before with
                      | Some (i, _) => drop i before
                      | None => []
                      end in
          compaction :: kept ++ drop (S compactionIdx) path
      end
  end.

Definition buildContextEntries (entries : list file_entry) (leafId : jsid) (index : jsmap jsid file_entry) : option (list file_entry) :=
  path ← buildSessionPath entries leafId index; Some (context_of_path path).

Record SessionContext := MkContext {
  ctx_messages : list context_message; ctx_thinkingLevel : JsonValue; ctx_model : option model_ref }.

Definition context_for (path : list file_entry) : SessionContext :=
  let '(thinkingLevel, model) := getSessionContextSettings path in
  MkContext (context_of_path path ≫= sessionEntryToContextMessages) thinkingLevel model.

Definition buildSessionContext (entries : list file_entry) (leafId : jsid) (index : jsmap jsid file_entry) : option SessionContext :=
  path ← buildSessionPath entries leafId index; Some (context_for path).

(** ** The disk

    Files as texts; each call of [fs] that writes uses up one step of the plan, and one
    that fails has written some of its text. *)

Inductive fault := NoFault | Faults (written : nat).
Record disk := MkDisk { files : gmap jsstring jsstring; plan : list fault }.

#[export] Instance disk_eta : Eta disk := λ d, MkDisk (files d) (plan d).

(** [appendFileSync] and [writeFileSync] on an open file: a text at the end. *)
Definition append_text (path text : jsstring) (d : disk) : disk * bool :=
  let old := default [] (files d !! path) in
  match plan d with
  | Faults n :: plan => (MkDisk (<[path := old ++ take n text]> (files d)) plan, false)
  | _ => (MkDisk (<[path := old ++ text]> (files d)) (tail (plan d)), true)
  end.

(** [openSync] for writing: the file is there, and empty when it is truncated. *)
Definition open_file (path : jsstring) (d : disk) : disk * bool :=
  match plan d with
  | Faults _ :: plan => (MkDisk (files d) plan, false)
  | _ => (MkDisk (<[path := []]> (files d)) (tail (plan d)), true)
  end.

Fixpoint write_entries (path : jsstring) (es : list file_entry) (d : disk) : disk * bool :=
  match es with
  | [] => (d, true)
  | e :: es => let '(d, ok) := append_text path (entry_line e) d in if ok : bool then write_entries path es d else (d, false)
  end.

(** ** The manager *)

Record SessionManager := MkManager {
  sessionId : jsstring; sessionFile : option jsstring; sessionDir : jsstring; cwd : jsstring; persist : bool; flushed : bool;
  fileEntries : list file_entry; byId : jsmap jsid file_entry; labelsById : jsmap jsid JsonValue;
  labelTimestampsById : jsmap jsid (option JsonValue); leafId : jsid }.

#[export] Instance SessionManager_eta : Eta SessionManager := λ m,
  MkManager (sessionId m) (sessionFile m) (sessionDir m) (cwd m) (persist m) (flushed m) (fileEntries m) (byId m)
    (labelsById m) (labelTimestampsById m) (leafId m).

Record world := MkWorld { manager : SessionManager; the_disk : disk }.

#[export] Instance world_eta : Eta world := λ w, MkWorld (manager w) (the_disk w).

(** Code that threads the manager and the disk; a throw keeps what was done. *)
Definition smM (A : Type) : Type := world → world * result sm_error A.

#[export] Instance smM_ret : MRet smM := λ A a w, (w, Ok a).
#[export] Instance smM_bind : MBind smM := λ A B k m w,
  match m w with (w, Ok a) => k a w | (w, Err e) => (w, Err e) end.

Definition throw {A} (e : sm_error) : smM A := λ w, (w, Err e).
Definition get {A} (f : SessionManager → A) : smM A := λ w, (w, Ok (f (manager w))).
Definition modify (f : SessionManager → SessionManager) : smM unit := λ w, (w <| manager := f (manager w) |>, Ok ()).
(** A call that writes. *)
Definition write (call : disk → disk * bool) : smM unit := λ w,
  let '(d, ok) := call (the_disk w) in (w <| the_disk := d |>, if ok then Ok () else Err FileFault).
Definition file_exists (path : jsstring) : smM bool := λ w, (w, Ok (bool_decide (is_Some (files (the_disk w) !! path)))).

(** *** The index *)

Definition label_of (e : file_entry) : option JsonValue :=
  match prop e (js "label") with Some l => if truthy l then Some l else None | None => None end.

Definition index_entry (m : SessionManager) (entry : file_entry) : SessionManager :=
  if is_header entry then m
  else
    let m := m <| byId := map_set (byId m) (entry_id entry) entry |> <| leafId := entry_id entry |> in
    if has_type (js "label") entry then
      let target := id_of (prop entry (js "targetId")) in
      match label_of entry with
      | Some l => m <| labelsById := map_set (labelsById m) target l |>
                    <| labelTimestampsById := map_set (labelTimestampsById m) target (prop entry (js "timestamp")) |>
      | None => m <| labelsById := map_delete (labelsById m) target |>
                  <| labelTimestampsById := map_delete (labelTimestampsById m) target |>
      end
    else m.

Definition buildIndex (m : SessionManager) : SessionManager :=
  foldl index_entry (m <| byId := [] |> <| labelsById := [] |> <| labelTimestampsById := [] |> <| leafId := Null |>)
    (fileEntries m).

(** *** The file *)

Definition rewriteFile : smM unit :=
  p ← get persist; file ← get sessionFile; es ← get fileEntries;
  match file with
  | Some path =>
      if negb p || bool_decide (path = []) then mret ()
      else _ ← write (open_file path); write (write_entries path es)
  | None => mret ()
  end.

Definition persist_entry (entry : file_entry) : smM unit :=
  p ← get persist; file ← get sessionFile; es ← get fileEntries; fl ← get flushed;
  match file with
  | Some path =>
      if negb p || bool_decide (path = []) then mret ()
      else if existsb is_assistant_entry es then
        if fl : bool then write (append_text path (entry_line entry))
        else
          there ← file_exists path;
          if there : bool then throw FileExists
          else
            _ ← write (open_file path);
            _ ← write (write_entries path es);
            modify (λ m, m <| flushed := true |>)
      else if fl : bool then write (append_text path (entry_line entry)) else mret ()
  | None => mret ()
  end.

Definition appendEntry (entry : file_entry) : smM unit :=
  _ ← modify (λ m, m <| fileEntries := fileEntries m ++ [entry] |>
                     <| byId := map_set (byId m) (entry_id entry) entry |> <| leafId := entry_id entry |>);
  persist_entry entry.

(** *** Sessions *)

Section Manager.
(** [path.join], [resolvePath], and the time and ids a call draws. *)
Context (joinPath : jsstring → jsstring → jsstring) (resolvePath : jsstring → jsstring).

(** The moment of a call: the time, and what [uuidv7()] and the calls of
    [randomUUID()] give. *)
Record moment := MkMoment { now : jsstring; uuidv7 : jsstring; randomUUID : nat → nat → jsstring }.

Definition dashed (c : Z) : Z := if (c =? 58) || (c =? 46) then 45 else c.
Definition session_file_name (timestamp id : jsstring) : jsstring := (dashed <$> timestamp) ++ js "_" ++ id ++ js ".jsonl".

Definition make_header (id timestamp cwd : jsstring) (parentSession : option jsstring) : file_entry :=
  JsonObject (props_of
    [(js "type", Some (JsonString (js "session"))); (js "version", Some (JsonNumber (of_Z CURRENT_SESSION_VERSION)));
     (js "id", Some (JsonString id)); (js "timestamp", Some (JsonString timestamp)); (js "cwd", Some (JsonString cwd));
     (js "parentSession", JsonString <$> parentSession)]).

Definition fresh_session (t : moment) (id : jsstring) (parentSession : option jsstring) (m : SessionManager) : SessionManager :=
  let m := m <| sessionId := id |> <| fileEntries := [make_header id (now t) (cwd m) parentSession] |> <| byId := [] |>
             <| labelsById := [] |> <| labelTimestampsById := [] |> <| leafId := Null |> <| flushed := false |> in
  if persist m then m <| sessionFile := Some (joinPath (sessionDir m) (session_file_name (now t) id)) |> else m.

Definition newSession (t : moment) (id parentSession : option jsstring) : smM unit :=
  match id with
  | Some id => if valid_session_id id then modify (fresh_session t id parentSession) else throw InvalidSessionId
  | None => modify (fresh_session t (uuidv7 t) parentSession)
  end.

(** Adding the line end that is missing. *)
Definition repair (path : jsstring) (missing : bool) : smM unit :=
  if missing then write (append_text path [10]) else mret ().

(** [loadEntriesFromFile]; [chunks] cuts the text as it is read. *)
Definition loadEntriesFromFile (chunks : jsstring → list jsstring) (path : jsstring) : smM (list file_entry) := λ w,
  match files (the_disk w) !! path with
  | None => (w, Ok [])
  | Some text => let '(es, missing) := load_text (chunks text) in (_ ← repair path missing; mret es) w
  end.

(** A file without entries: a header if it is empty, else an error. *)
Definition initialize_file (t : moment) (path : jsstring) : smM unit := λ w,
  if bool_decide (files (the_disk w) !! path = Some []) then
    (_ ← newSession t None None;
     _ ← modify (λ m, m <| sessionFile := Some path |>);
     _ ← rewriteFile;
     modify (λ m, m <| flushed := true |>)) w
  else (w, Err InvalidSessionFile).

Definition setSessionFile (t : moment) (chunks : jsstring → list jsstring) (file : jsstring) : smM unit :=
  let path := resolvePath file in
  _ ← modify (λ m, m <| sessionFile := Some path |>);
  there ← file_exists path;
  if there : bool then
    es ← loadEntriesFromFile chunks path;
    _ ← modify (λ m, m <| fileEntries := es |>);
    match es with
    | [] => initialize_file t path
    | _ =>
        let id := match find_header es ≫= λ h, string_prop h (js "id") with Some id => id | None => uuidv7 t end in
        let '(es, migrated) := migrateToCurrentVersion (randomUUID t) es in
        _ ← modify (λ m, m <| sessionId := id |> <| fileEntries := es |>);
        _ ← (if migrated : bool then rewriteFile else mret ());
        modify (λ m, (buildIndex m) <| flushed := true |>)
    end
  else (_ ← newSession t None None; modify (λ m, m <| sessionFile := Some path |>)).

(** *** Appending *)

(** The entry of an append: what all have and what the kind adds, which comes first in
    the entries of extensions. *)
Definition new_entry (m : SessionManager) (t : moment) (parent : jsid) (type : jsstring) (first more : list (jsstring * option JsonValue))
    : file_entry :=
  JsonObject (props_of
    ((js "type", Some (JsonString type)) :: first ++
     (js "id", Some (JsonString (generateId (λ s, map_has (byId m) (Id s)) (randomUUID t 0%nat))))
     :: (js "parentId", json_of_id parent) :: (js "timestamp", Some (JsonString (now t))) :: more)).

Inductive addition :=
| AddMessage (message : JsonValue)
| AddThinkingLevelChange (thinkingLevel : jsstring)
| AddModelChange (provider modelId : jsstring)
| AddCompaction (summary firstKeptEntryId : jsstring) (tokensBefore : JsonValue) (details usage fromHook : option JsonValue)
| AddCustomEntry (customType : jsstring) (data : option JsonValue)
| AddSessionInfo (name : jsstring)
| AddCustomMessageEntry (customType : jsstring) (content : JsonValue) (display : bool) (details : option JsonValue).

(** [name.replace(/[\r\n]+/g, " ").trim()]. *)
Fixpoint replace_breaks (in_break : bool) (s : jsstring) : jsstring :=
  match s with
  | [] => []
  | c :: s => if (c =? 10) || (c =? 13) then (if in_break then [] else [32]) ++ replace_breaks true s else c :: replace_breaks false s
  end.

Definition addition_type (a : addition) : jsstring :=
  match a with
  | AddMessage _ => js "message"
  | AddThinkingLevelChange _ => js "thinking_level_change"
  | AddModelChange _ _ => js "model_change"
  | AddCompaction _ _ _ _ _ _ => js "compaction"
  | AddCustomEntry _ _ => js "custom"
  | AddSessionInfo _ => js "session_info"
  | AddCustomMessageEntry _ _ _ _ => js "custom_message"
  end.

Definition addition_props (a : addition) : list (jsstring * option JsonValue) :=
  match a with
  | AddMessage message => [(js "message", Some message)]
  | AddThinkingLevelChange level => [(js "thinkingLevel", Some (JsonString level))]
  | AddModelChange provider modelId =>
      [(js "provider", Some (JsonString provider)); (js "modelId", Some (JsonString modelId))]
  | AddCompaction summary firstKept tokensBefore details usage fromHook =>
      [(js "summary", Some (JsonString summary)); (js "firstKeptEntryId", Some (JsonString firstKept));
       (js "tokensBefore", Some tokensBefore); (js "details", details); (js "usage", usage); (js "fromHook", fromHook)]
  | AddCustomEntry customType data => [(js "customType", Some (JsonString customType)); (js "data", data)]
  | AddSessionInfo name => [(js "name", Some (JsonString (trim (replace_breaks false name))))]
  | AddCustomMessageEntry customType content display details =>
      [(js "customType", Some (JsonString customType)); (js "content", Some content); (js "display", Some (JsonBool display));
       (js "details", details)]
  end.

Definition of_extension (a : addition) : bool := match a with AddCustomEntry _ _ | AddCustomMessageEntry _ _ _ _ => true | _ => false end.

Definition append (t : moment) (a : addition) : smM jsid :=
  m ← get id;
  let entry := if of_extension a then new_entry m t (leafId m) (addition_type a) (addition_props a) []
               else new_entry m t (leafId m) (addition_type a) [] (addition_props a) in
  _ ← appendEntry entry; mret (entry_id entry).

Definition set_label (target : jsstring) (label : option jsstring) (timestamp : option JsonValue) (m : SessionManager) : SessionManager :=
  match label with
  | Some (c :: l) => m <| labelsById := map_set (labelsById m) (Id target) (JsonString (c :: l)) |>
                       <| labelTimestampsById := map_set (labelTimestampsById m) (Id target) timestamp |>
  | _ => m <| labelsById := map_delete (labelsById m) (Id target) |>
           <| labelTimestampsById := map_delete (labelTimestampsById m) (Id target) |>
  end.

Definition appendLabelChange (t : moment) (targetId : jsstring) (label : option jsstring) : smM jsid :=
  m ← get id;
  if map_has (byId m) (Id targetId) then
    let entry := new_entry m t (leafId m) (js "label") [] [(js "targetId", Some (JsonString targetId)); (js "label", JsonString <$> label)] in
    _ ← appendEntry entry;
    _ ← modify (set_label targetId label (prop entry (js "timestamp")));
    mret (entry_id entry)
  else throw (EntryNotFound targetId).

(** *** Branching *)

Definition branch (branchFromId : jsstring) : smM unit :=
  m ← get id;
  if map_has (byId m) (Id branchFromId) then modify (λ m, m <| leafId := Id branchFromId |>) else throw (EntryNotFound branchFromId).

Definition resetLeaf : smM unit := modify (λ m, m <| leafId := Null |>).

Definition branchWithSummary (t : moment) (branchFromId : option jsstring) (summary : jsstring) (details fromHook usage : option JsonValue)
    : smM jsid :=
  m ← get id;
  let target := match branchFromId with Some id => Id id | None => Null end in
  if match branchFromId with Some id => negb (map_has (byId m) (Id id)) | None => false end
  then throw (EntryNotFound (default [] branchFromId))
  else
    let fromId := match leafId m with Id s => s | _ => js "root" end in
    _ ← modify (λ m, m <| leafId := target |>);
    let entry := new_entry m t target (js "branch_summary") []
                   [(js "fromId", Some (JsonString fromId)); (js "summary", Some (JsonString summary)); (js "details", details);
                    (js "usage", usage); (js "fromHook", fromHook)] in
    _ ← appendEntry entry; mret (entry_id entry).

(** *** Reading *)

Definition getEntry (m : SessionManager) (id : jsstring) : option file_entry := map_get (byId m) (Id id).
Definition getLeafEntry (m : SessionManager) : option file_entry :=
  if id_truthy (leafId m) then map_get (byId m) (leafId m) else None.
Definition getChildren (m : SessionManager) (parentId : jsstring) : list file_entry :=
  filter (λ e, same_id (entry_parentId e) (Id parentId) = true) (map_values (byId m)).
Definition getLabel (m : SessionManager) (id : jsstring) : option JsonValue := map_get (labelsById m) (Id id).
Definition getEntries (m : SessionManager) : list file_entry := filter (λ e, is_header e = false) (fileEntries m).
Definition getHeader (m : SessionManager) : option file_entry := find_header (fileEntries m).

Definition getSessionName (m : SessionManager) : option jsstring :=
  match last (filter (λ e, has_type (js "session_info") e = true) (getEntries m)) with
  | Some e => match string_prop e (js "name") with
              | Some name => if bool_decide (trim name = []) then None else Some (trim name)
              | None => None
              end
  | None => None
  end.

(** [getBranch]; [None] when the walk does not end. *)
Definition getBranch (m : SessionManager) (fromId : option jsstring) : option (list file_entry) :=
  let startId := match fromId with Some id => Id id | None => leafId m end in
  path_to (byId m) (if id_truthy startId then map_get (byId m) startId else None).

Definition manager_context (m : SessionManager) : option SessionContext :=
  buildSessionContext (getEntries m) (leafId m) (byId m).

(** *** A session of one path *)

Definition is_label : file_entry → bool := has_type (js "label").

(** The path without its labels, chained anew. *)
Fixpoint rechain (parent : jsid) (path : list file_entry) : list file_entry :=
  match path with
  | [] => []
  | e :: path =>
      if is_label e then rechain parent path
      else with_prop (js "parentId") (default JsonNull (json_of_id parent)) e :: rechain (entry_id e) path
  end.

(** The labels of the path as entries at its end; [n] counts the calls of
    [generateId]. *)
Fixpoint label_entries (t : moment) (n : nat) (ids : list jsid) (parent : jsid) (labels : list (jsid * JsonValue * option JsonValue))
    : list file_entry :=
  match labels with
  | [] => []
  | (target, label, timestamp) :: labels =>
      let id := generateId (λ s, bool_decide (Id s ∈ ids)) (randomUUID t n) in
      JsonObject (props_of
        [(js "type", Some (JsonString (js "label"))); (js "id", Some (JsonString id)); (js "parentId", json_of_id parent);
         (js "timestamp", timestamp); (js "targetId", json_of_id target); (js "label", Some label)])
      :: label_entries t (S n) (ids ++ [Id id]) (Id id) labels
  end.

Definition labels_of_path (m : SessionManager) (ids : list jsid) : list (jsid * JsonValue * option JsonValue) :=
  (λ kv, (kv.1, kv.2, default None (map_get (labelTimestampsById m) kv.1))) <$> filter (λ kv, kv.1 ∈ ids) (labelsById m).

Definition branched_entries (t : moment) (m : SessionManager) (header : file_entry) (path : list file_entry) : list file_entry :=
  let pathWithoutLabels := rechain Null path in
  let ids := entry_id <$> pathWithoutLabels in
  let lastId := match last pathWithoutLabels with
                | Some e => if id_truthy (entry_id e) then entry_id e else Null
                | None => Null
                end in
  header :: pathWithoutLabels ++ label_entries t 0 ids lastId (labels_of_path m ids).

(** [createBranchedSession]; the error [Endless] stands for a walk of [getBranch] that does
    not end. *)
Definition createBranchedSession (t : moment) (leaf : jsstring) : smM (option jsstring) :=
  m ← get id;
  match getBranch m (Some leaf) with
  | None => throw Endless
  | Some [] => throw (EntryNotFound leaf)
  | Some path =>
      let newSessionFile := joinPath (sessionDir m) (session_file_name (now t) (uuidv7 t)) in
      let header := make_header (uuidv7 t) (now t) (cwd m) (if persist m then sessionFile m else None) in
      let es := branched_entries t m header path in
      _ ← modify (λ m, m <| fileEntries := es |> <| sessionId := uuidv7 t |>);
      if persist m then
        _ ← modify (λ m, buildIndex (m <| sessionFile := Some newSessionFile |>));
        if existsb is_assistant_entry es then
          _ ← rewriteFile; _ ← modify (λ m, m <| flushed := true |>); mret (Some newSessionFile)
        else (_ ← modify (λ m, m <| flushed := false |>); mret (Some newSessionFile))
      else (_ ← modify buildIndex; mret None)
  end.

(** *** Making managers *)

(** The constructor. *)
Definition construct (t : moment) (chunks : jsstring → list jsstring) (cwd dir : jsstring) (file : option jsstring) (persist : bool)
    (id parentSession : option jsstring) : smM unit :=
  _ ← modify (λ _, MkManager [] None dir (resolvePath cwd) persist false [] [] [] [] Null);
  match file with
  | Some file => setSessionFile t chunks file
  | None => newSession t id parentSession
  end.

Definition create (t : moment) (chunks : jsstring → list jsstring) (cwd dir : jsstring) (id parentSession : option jsstring) : smM unit :=
  construct t chunks cwd dir None true id parentSession.
Definition inMemory (t : moment) (chunks : jsstring → list jsstring) (cwd : jsstring) (id parentSession : option jsstring) : smM unit :=
  construct t chunks cwd [] None false id parentSession.

(** [forkFrom]; [t] is the moment of the fork, [t'] that of the constructor. *)
Definition forkFrom (t t' : moment) (chunks : jsstring → list jsstring) (sourcePath targetCwd dir : jsstring) (id : option jsstring)
    : smM unit :=
  let resolvedSourcePath := resolvePath sourcePath in
  let resolvedTargetCwd := resolvePath targetCwd in
  sourceEntries ← loadEntriesFromFile chunks resolvedSourcePath;
  match find_header sourceEntries with
  | None => throw CannotFork
  | Some _ =>
      if match id with Some id => negb (valid_session_id id) | None => false end then throw InvalidSessionId
      else
        let newSessionId := default (uuidv7 t) id in
        let newSessionFile := joinPath dir (session_file_name (now t) newSessionId) in
        there ← file_exists newSessionFile;
        if there : bool then throw FileExists
        else (
          _ ← write (open_file newSessionFile);
          _ ← write (append_text newSessionFile (entry_line (make_header newSessionId (now t) resolvedTargetCwd (Some resolvedSourcePath))));
          _ ← write (write_entries newSessionFile (filter (λ e, is_header e = false) sourceEntries));
          construct t' chunks resolvedTargetCwd dir (Some newSessionFile) true None None)
  end.

(** *** What a client may do *)

Inductive operation :=
| NewSession (id parentSession : option jsstring)
| Append (a : addition)
| ChangeLabel (targetId : jsstring) (label : option jsstring)
| Branch (branchFromId : jsstring)
| ResetLeaf
| BranchWithSummary (branchFromId : option jsstring) (summary : jsstring) (details fromHook usage : option JsonValue)
| CreateBranchedSession (leaf : jsstring).

Definition perform (t : moment) (o : operation) : smM unit :=
  match o with
  | NewSession id parentSession => newSession t id parentSession
  | Append a => _ ← append t a; mret ()
  | ChangeLabel targetId label => _ ← appendLabelChange t targetId label; mret ()
  | Branch branchFromId => branch branchFromId
  | ResetLeaf => resetLeaf
  | BranchWithSummary branchFromId summary details fromHook usage =>
      _ ← branchWithSummary t branchFromId summary details fromHook usage; mret ()
  | CreateBranchedSession leaf => _ ← createBranchedSession t leaf; mret ()
  end.
End Manager.
