(* ===== verification/SessionManagerTheorems.v ===== *)
(** * What the sessions of the application keep

    The file of a session holds its entries, so that opening it gives the session back;
    and a session cut out of a path has the context of that path. *)

From S2P Require Import Prelude JsNumber JsString JsMap SessionTypes JsonText Truncate SessionManager.

(** ** Lines *)

Definition init_lines (s : jsstring) : list jsstring := removelast (split_at 10 s).
Definition last_line (s : jsstring) : jsstring := default [] (last (split_at 10 s)).

Lemma split_at_parts s : split_at 10 s = init_lines s ++ [last_line s].
Proof.
  unfold init_lines, last_line. pose proof (split_at_nonempty 10 s) as Hne.
  destruct (split_at 10 s) as [|l ls] using rev_ind; [done|]. by rewrite removelast_last, last_snoc.
Qed.

Lemma split_at_app a b : split_at 10 (a ++ b) = init_lines a ++ split_at 10 (last_line a ++ b).
Proof.
  induction a as [|c a IH]; [done|]. unfold init_lines, last_line in *. cbn [app split_at]. destruct (c =? 10) eqn:Hc.
  - rewrite IH. pose proof (split_at_nonempty 10 a). by destruct (split_at 10 a) as [|l [|l' ls]].
  - rewrite IH. pose proof (split_at_nonempty 10 a). destruct (split_at 10 a) as [|l [|l' ls]]; [done| |].
    + cbn. rewrite Hc. done.
    + cbn. done.
Qed.

Lemma init_lines_app a b : init_lines (a ++ b) = init_lines a ++ init_lines (last_line a ++ b).
Proof.
  unfold init_lines at 1. rewrite split_at_app, (split_at_parts (last_line a ++ b)), app_assoc. by rewrite removelast_last.
Qed.
Lemma last_line_app a b : last_line (a ++ b) = last_line (last_line a ++ b).
Proof. unfold last_line at 1. rewrite split_at_app, (split_at_parts (last_line a ++ b)), app_assoc. by rewrite last_snoc. Qed.

Lemma last_line_idemp a : last_line (last_line a) = last_line a.
Proof. pose proof (last_line_app a []) as Hl. by rewrite !app_nil_r in Hl. Qed.
Lemma init_lines_last a : init_lines (last_line a) = [].
Proof.
  pose proof (init_lines_app a []) as Hl. rewrite !app_nil_r in Hl. symmetry in Hl.
  apply (app_inv_head (init_lines a)). by rewrite app_nil_r.
Qed.

Lemma last_line_free a : 10 ∉ last_line a.
Proof.
  induction a as [|c a IH]; [by apply not_elem_of_nil|]. unfold last_line in *. cbn [split_at].
  pose proof (split_at_nonempty 10 a) as Hne. destruct (c =? 10) eqn:Hc.
  - by destruct (split_at 10 a).
  - destruct (split_at 10 a) as [|l [|l' ls]]; [done| |done]. cbn in *. rewrite elem_of_cons. intros [<-|Hin]; [done|auto].
Qed.

(** ** Reading a file *)

Definition found (text : jsstring) : list file_entry := omap parseSessionEntryLine (init_lines text).

Lemma load_chunks_found chunks entries pending :
  init_lines pending = [] →
  load_chunks chunks entries pending
  = (entries ++ found (pending ++ concat chunks) ++ option_list (parseSessionEntryLine (last_line (pending ++ concat chunks))),
     last_line (pending ++ concat chunks)).
Proof.
  revert entries pending. induction chunks as [|chunk chunks IH]; intros entries pending Hp; cbn [load_chunks concat].
  - rewrite app_nil_r. unfold found. rewrite Hp. cbn.
    assert (last_line pending = pending) as ->; [|done].
    pose proof (split_at_parts pending) as Hs. rewrite Hp in Hs. pose proof (join_split 10 pending) as Hj.
    rewrite Hs in Hj. exact Hj.
  - unfold take_lines. fold (init_lines (pending ++ chunk)). fold (last_line (pending ++ chunk)).
    rewrite IH by apply init_lines_last. unfold found.
    rewrite (app_assoc pending chunk), (init_lines_app (pending ++ chunk)), (last_line_app (pending ++ chunk)), omap_app.
    by rewrite !app_assoc.
Qed.

(** How the file is cut into chunks makes no difference. *)
Lemma load_text_chunks chunks text : concat chunks = text → load_text chunks = load_text [text].
Proof.
  intros <-. unfold load_text. rewrite !load_chunks_found by done. cbn [concat]. by rewrite !app_nil_r.
Qed.

(** Entries that text preserves. *)
Definition plain (e : file_entry) : Prop := json_ok e = true ∧ ∃ props, e = JsonObject props.

Lemma plain_line e : plain e → 10 ∉ json_text e.
Proof.
  intros [Hok _] Hin. pose proof (json_text_printable e Hok) as Hp. rewrite Forall_forall in Hp. specialize (Hp _ Hin). lia.
Qed.

Lemma trim_start_nil s : trim_start s = [] → Forall (λ c, is_space c = true) s.
Proof. induction s as [|c s IH]; cbn; [constructor|]. destruct (is_space c) eqn:Hc; [|done]. auto. Qed.

Lemma trim_nonempty c s : is_space c = false → trim (c :: s) ≠ [].
Proof.
  intros Hc Ht. unfold trim in Ht. cbn [trim_start] in Ht. rewrite Hc in Ht.
  apply (f_equal reverse) in Ht. rewrite reverse_involutive in Ht. apply trim_start_nil in Ht.
  rewrite Forall_forall in Ht. rewrite (Ht c) in Hc; [done|]. apply elem_of_reverse. left.
Qed.

Lemma parse_entry_line e : plain e → parseSessionEntryLine (json_text e) = Some e.
Proof.
  intros [Hok [props ->]]. unfold parseSessionEntryLine. rewrite json_parse_text by done. cbn [truthy].
  rewrite bool_decide_eq_false_2; [done|].
  change (json_text (JsonObject props)) with (123 :: join 44 (member_text <$> props) ++ [125]). by apply trim_nonempty.
Qed.

(** A text that ends with a line end, or is empty: [holds text es] says that it is read
    as [es]. *)
Definition holds (text : jsstring) (es : list file_entry) : Prop := last_line text = [] ∧ found text = es.

Lemma holds_nil : holds [] [].
Proof. done. Qed.

Lemma init_lines_line l : 10 ∉ l → init_lines (l ++ [10]) = [l] ∧ last_line (l ++ [10]) = [].
Proof. intros Hl. unfold init_lines, last_line. by rewrite (split_at_sep 10 l []). Qed.

Lemma holds_append text es e : holds text es → plain e → holds (text ++ entry_line e) (es ++ [e]).
Proof.
  intros [Hlast Hfound] He. destruct (init_lines_line _ (plain_line e He)) as [Hinit Hlast'].
  split; [by rewrite last_line_app, Hlast|]. unfold found in *. rewrite init_lines_app, Hlast, omap_app, Hfound.
  cbn [app]. unfold entry_line. rewrite Hinit. cbn. by rewrite parse_entry_line.
Qed.

Lemma holds_entries text es es' : holds text es → Forall plain es' → holds (text ++ entries_text es') (es ++ es').
Proof.
  revert text es. induction es' as [|e es' IH]; intros text es Ht Hes; [by rewrite !app_nil_r|].
  apply Forall_cons in Hes as [He Hes]. change (entries_text (e :: es')) with (entry_line e ++ entries_text es').
  rewrite app_assoc, (cons_middle e), app_assoc. apply IH; [by apply holds_append|done].
Qed.

Definition header_ok (e : file_entry) : bool := is_header e && bool_decide (is_Some (string_prop e (js "id"))).

Lemma holds_load text es header rest : holds text es → es = header :: rest → header_ok header = true → load_text [text] = (es, false).
Proof.
  intros [Hlast Hfound] -> Hh. unfold load_text. rewrite load_chunks_found by done. cbn [app concat].
  rewrite app_nil_r, Hlast, Hfound. cbn [parseSessionEntryLine]. unfold header_ok in Hh.
  cbn [option_list app]. by rewrite app_nil_r, Hh.
Qed.

(** A line that was cut off is the entry or nothing, and a line end is missing then. *)
Lemma holds_torn text es e n :
  holds text es → plain e → header_ok (default JsonNull (head es)) = true →
  ∃ missing, load_text [text ++ take n (entry_line e)] = (es, missing) ∨ load_text [text ++ take n (entry_line e)] = (es ++ [e], missing).
Proof.
  intros Ht He Hh. destruct es as [|header rest]; [done|]. cbn in Hh.
  destruct (decide (length (entry_line e) ≤ n)%nat) as [Hn|Hn].
  - rewrite take_ge by done. exists false. right. eapply holds_load; [by apply holds_append| |exact Hh]. done.
  - destruct Ht as [Hlast Hfound]. unfold load_text. rewrite load_chunks_found by done. cbn [app concat]. rewrite app_nil_r.
    assert (Htake : take n (entry_line e) = take n (json_text e)).
    { unfold entry_line in *. rewrite length_app in Hn. cbn in Hn. by rewrite take_app_le by lia. }
    assert (Hline : 10 ∉ take n (json_text e)).
    { intros Hin. apply (plain_line e He). apply list_elem_of_lookup in Hin as [i Hi].
      apply lookup_take_Some in Hi as [Hi _]. by eapply list_elem_of_lookup_2. }
    rewrite Htake. assert (init_lines (take n (json_text e)) = [] ∧ last_line (take n (json_text e)) = take n (json_text e)) as [Hi Hll].
    { unfold init_lines, last_line. by rewrite split_at_last. }
    unfold found. rewrite init_lines_app, last_line_app, Hlast, app_nil_l, Hi, Hll, omap_app. fold (found text). rewrite Hfound.
    cbn [omap list_omap app]. rewrite app_nil_r. unfold header_ok in Hh.
    destruct (parseSessionEntryLine (take n (json_text e))) as [v|] eqn:Hp; cbn [option_list app]; rewrite ?app_nil_r, Hh;
      eexists; [right|by left].
    unfold parseSessionEntryLine in Hp. case_bool_decide; [done|].
    destruct He as [Hok [props ->]]. destruct (decide (length (json_text (JsonObject props)) ≤ n)%nat) as [Hle|Hle].
    + rewrite take_ge, json_parse_text in Hp by done. cbn in Hp. by injection Hp as <-.
    + rewrite (torn_object_unparsable props (take n (json_text (JsonObject props))) (drop n (json_text (JsonObject props)))) in Hp; [done|done| |].
      * by rewrite take_drop.
      * intros Hd. apply (f_equal length) in Hd. rewrite length_drop in Hd. cbn [length] in Hd. lia.
Qed.

(** The text that a file is left with when it is read holds what was read. *)
Definition line_end (missing : bool) : jsstring := if missing then [10] else [].

Lemma load_holds text es missing :
  load_text [text] = (es, missing) → es ≠ [] →
  holds (text ++ line_end missing) es ∧ ∃ header rest, es = header :: rest ∧ header_ok header = true.
Proof.
  unfold load_text. rewrite load_chunks_found by done. cbn [app concat]. rewrite app_nil_r.
  destruct (found text ++ option_list (parseSessionEntryLine (last_line text))) as [|header rest] eqn:Hes; [by intros [= <-]|].
  destruct (is_header header && _) eqn:Hok; [|by intros [= <-]]. intros [= <- <-] _. split; [|by eauto].
  destruct (decide (last_line text = [])) as [Hlast|Hlast];
    [rewrite bool_decide_eq_true_2 by done; cbn [line_end negb]|rewrite bool_decide_eq_false_2 by done; cbn [line_end negb]].
  { rewrite Hlast in Hes. cbn in Hes. rewrite !app_nil_r in *. done. }
  destruct (init_lines_line _ (last_line_free text)) as [Hi Hl]. split; [by rewrite last_line_app|].
  unfold found. rewrite init_lines_app, Hi, omap_app. cbn. by destruct (parseSessionEntryLine (last_line text)).
Qed.

(** ** The index *)

Abbreviation index := (jsmap jsid file_entry * jsmap jsid JsonValue * jsmap jsid (option JsonValue))%type (only parsing).

Definition index_of (m : SessionManager) : index := (byId m, labelsById m, labelTimestampsById m).

Definition label_step (labels : jsmap jsid JsonValue * jsmap jsid (option JsonValue)) (entry : file_entry)
    : jsmap jsid JsonValue * jsmap jsid (option JsonValue) :=
  let target := id_of (prop entry (js "targetId")) in
  match label_of entry with
  | Some l => (map_set labels.1 target l, map_set labels.2 target (prop entry (js "timestamp")))
  | None => (map_delete labels.1 target, map_delete labels.2 target)
  end.

Definition index_step (ix : index) (entry : file_entry) : index :=
  if is_header entry then ix
  else
    let '(ids, labels, times) := ix in
    let '(labels, times) := if has_type (js "label") entry then label_step (labels, times) entry else (labels, times) in
    (map_set ids (entry_id entry) entry, labels, times).

Definition index_entries (es : list file_entry) : index := foldl index_step ([], [], []) es.

Lemma index_entry_of m e : index_of (index_entry m e) = index_step (index_of m) e.
Proof.
  unfold index_entry, index_step, label_step, index_of. destruct (is_header e); [done|]. cbn zeta.
  destruct (has_type (js "label") e); [|done]. by destruct (label_of e).
Qed.

Lemma buildIndex_index m : index_of (buildIndex m) = index_entries (fileEntries m).
Proof.
  unfold buildIndex, index_entries. set (m0 := m <| byId := [] |> <| labelsById := [] |> <| labelTimestampsById := [] |> <| leafId := Null |>).
  change ([], [], []) with (index_of m0). clearbody m0. revert m0. induction (fileEntries m) as [|e es IH]; intros m0; [done|].
  cbn [foldl]. by rewrite <- index_entry_of, IH.
Qed.

(** What else [buildIndex] changes. *)
Definition last_id (es : list file_entry) : jsid :=
  match last (filter (λ e, is_header e = false) es) with Some e => entry_id e | None => Null end.

Lemma index_entry_rest m e :
  index_entry m e = m <| byId := byId (index_entry m e) |> <| labelsById := labelsById (index_entry m e) |>
                      <| labelTimestampsById := labelTimestampsById (index_entry m e) |> <| leafId := leafId (index_entry m e) |>.
Proof. unfold index_entry. destruct m. destruct (is_header e); [done|]. cbn. destruct (has_type (js "label") e); [|done]. by destruct (label_of e). Qed.

Lemma index_entry_leaf m e : leafId (index_entry m e) = if is_header e then leafId m else entry_id e.
Proof. unfold index_entry. destruct (is_header e); [done|]. cbn. destruct (has_type (js "label") e); [|done]. by destruct (label_of e). Qed.

Lemma foldl_index_leaf es m : leafId (foldl index_entry m es) = match last (filter (λ e, is_header e = false) es) with
                                                              | Some e => entry_id e | None => leafId m end.
Proof.
  induction es as [|e es IH] using rev_ind; [done|]. rewrite foldl_app, filter_app. cbn [foldl]. rewrite index_entry_leaf.
  destruct (is_header e) eqn:Hh.
  - rewrite (filter_cons_False _ e []), filter_nil by congruence. by rewrite app_nil_r.
  - rewrite (filter_cons_True _ e []), filter_nil by done. by rewrite last_snoc.
Qed.

Lemma buildIndex_leaf m : leafId (buildIndex m) = last_id (fileEntries m).
Proof. unfold buildIndex. by rewrite foldl_index_leaf. Qed.

Lemma foldl_index_rest es m :
  sessionId (foldl index_entry m es) = sessionId m ∧ sessionFile (foldl index_entry m es) = sessionFile m
  ∧ persist (foldl index_entry m es) = persist m ∧ flushed (foldl index_entry m es) = flushed m
  ∧ fileEntries (foldl index_entry m es) = fileEntries m ∧ cwd (foldl index_entry m es) = cwd m
  ∧ sessionDir (foldl index_entry m es) = sessionDir m.
Proof.
  revert m. induction es as [|e es IH]; intros m; [done|]. cbn [foldl]. destruct (IH (index_entry m e)) as (-> & -> & -> & -> & -> & -> & ->).
  by rewrite index_entry_rest.
Qed.

Lemma buildIndex_rest m :
  sessionId (buildIndex m) = sessionId m ∧ sessionFile (buildIndex m) = sessionFile m ∧ persist (buildIndex m) = persist m
  ∧ flushed (buildIndex m) = flushed m ∧ fileEntries (buildIndex m) = fileEntries m ∧ cwd (buildIndex m) = cwd m
  ∧ sessionDir (buildIndex m) = sessionDir m.
Proof.
  unfold buildIndex.
  destruct (foldl_index_rest (fileEntries m) (m <| byId := [] |> <| labelsById := [] |> <| labelTimestampsById := [] |> <| leafId := Null |>))
    as (-> & -> & -> & -> & -> & -> & ->). done.
Qed.

Lemma index_entries_snoc es e : index_entries (es ++ [e]) = index_step (index_entries es) e.
Proof. unfold index_entries. by rewrite foldl_app. Qed.

(** ** The file *)

Lemma append_text_ok path text d old :
  plan d = [] → files d !! path = Some old → append_text path text d = (MkDisk (<[path := old ++ text]> (files d)) [], true).
Proof. intros Hp Ho. unfold append_text. by rewrite Hp, Ho. Qed.

Lemma write_entries_ok path es d old :
  plan d = [] → files d !! path = Some old →
  write_entries path es d = (MkDisk (<[path := old ++ entries_text es]> (files d)) [], true).
Proof.
  revert d old. induction es as [|e es IH]; intros d old Hp Ho.
  - cbn [write_entries]. change (entries_text []) with (@nil Z). rewrite app_nil_r, insert_id by done. destruct d. cbn in *. by subst.
  - cbn [write_entries]. rewrite (append_text_ok _ _ _ old) by done.
    rewrite (IH _ (old ++ entry_line e)); [|done|by cbn; rewrite lookup_insert_eq].
    cbn [files]. rewrite insert_insert_eq, <- app_assoc. done.
Qed.

Lemma open_file_ok path d : plan d = [] → open_file path d = (MkDisk (<[path := []]> (files d)) [], true).
Proof. intros Hp. unfold open_file. by rewrite Hp. Qed.

(** The file of a manager that persists: it holds the entries, or is not there yet. *)
Record file_kept (w : world) : Prop := {
  kept_plan : plan (the_disk w) = [];
  kept_plain : Forall plain (fileEntries (manager w));
  kept_file : persist (manager w) = true → ∃ path, sessionFile (manager w) = Some path ∧ path ≠ [] ∧
    if flushed (manager w) then ∃ text, files (the_disk w) !! path = Some text ∧ holds text (fileEntries (manager w))
    else files (the_disk w) !! path = None ∧ existsb is_assistant_entry (fileEntries (manager w)) = false }.

#[local] Arguments append_text : simpl never.
#[local] Arguments open_file : simpl never.
#[local] Arguments write_entries : simpl never.
#[local] Arguments is_assistant_entry : simpl never.
#[local] Arguments buildIndex : simpl never.
#[local] Arguments index_entries : simpl never.

Lemma appendEntry_ok w e :
  file_kept w → plain e →
  ∃ w' f, appendEntry e w = (w', Ok ()) ∧ file_kept w'
    ∧ manager w' = (manager w) <| fileEntries := fileEntries (manager w) ++ [e] |>
                     <| byId := map_set (byId (manager w)) (entry_id e) e |> <| leafId := entry_id e |> <| flushed := f |>.
Proof.
  intros [Hplan Hplain Hfile] He. destruct w as [m d]. cbn in *.
  assert (Hplain' : Forall plain (fileEntries m ++ [e])) by (apply Forall_app; auto).
  unfold appendEntry, persist_entry, mbind, smM_bind, modify, get, write, file_exists, throw, mret, smM_ret. cbn.
  destruct (persist m) eqn:Hp.
  - destruct (Hfile eq_refl) as (path & Hpath & Hne & Hstate). rewrite Hpath. cbn. rewrite (bool_decide_eq_false_2 (path = [])) by done.
    rewrite existsb_app. cbn. rewrite orb_false_r. destruct (flushed m) eqn:Hf.
    + destruct Hstate as (text & Htext & Hholds).
      destruct (existsb is_assistant_entry (fileEntries m) || is_assistant_entry e); cbn;
        (rewrite (append_text_ok _ _ _ text) by done); cbn; eexists _, true; (split; [done|]);
        (split; [|by destruct m; cbn in *; subst]); (constructor; cbn; [done|done|]); intros _; exists path; rewrite Hf; (split_and!; [done..|]);
        exists (text ++ entry_line e); (split; [by rewrite lookup_insert_eq|by apply holds_append]).
    + destruct Hstate as [Hnone Hass]. rewrite Hass. cbn. destruct (is_assistant_entry e) eqn:Hea.
      * case_bool_decide as Hsome; [cbn in Hsome; rewrite Hnone in Hsome; by destruct Hsome|]. cbn. rewrite open_file_ok by done. cbn.
        rewrite (write_entries_ok _ _ _ []); [|done|by cbn; rewrite lookup_insert_eq]. cbn. eexists _, true. split; [done|].
        split; [|by destruct m]. constructor; cbn; [done|done|]. intros _. exists path. split_and!; [done..|].
        eexists. split; [by rewrite lookup_insert_eq|]. apply (holds_entries [] []); [apply holds_nil|done].
      * eexists _, false. split; [done|]. split; [|by destruct m; cbn in *; subst].
        constructor; cbn; [done|done|]. intros _. exists path. rewrite Hf. split_and!; [done..|]. by rewrite existsb_app, Hass; cbn; rewrite Hea.
  - destruct (sessionFile m); cbn; eexists _, (flushed m); (split; [done|]); (split; [|by destruct m]); (constructor; cbn; [done|done|by rewrite Hp]).
Qed.

(** ** Every operation *)

(** The session is indexed by its entries, and begins with its header. *)
Record kept (w : world) : Prop := {
  kept_files : file_kept w;
  kept_index : index_of (manager w) = index_entries (fileEntries (manager w));
  kept_header : ∃ header rest, fileEntries (manager w) = header :: rest ∧ is_header header = true
    ∧ string_prop header (js "id") = Some (sessionId (manager w)) ∧ version_below (session_version [header]) CURRENT_SESSION_VERSION = false }.

Lemma kept_append w e :
  kept w → plain e → is_header e = false → 
  ∃ w', appendEntry e w = (w', Ok ()) ∧ file_kept w' ∧ (has_type (js "label") e = false → kept w')
    ∧ ∃ f, manager w' = (manager w) <| fileEntries := fileEntries (manager w) ++ [e] |>
                     <| byId := map_set (byId (manager w)) (entry_id e) e |> <| leafId := entry_id e |> <| flushed := f |>.
Proof.
  intros [Hf Hi (header & rest & Hes & Hh & Hid & Hv)] He Hn. destruct (appendEntry_ok w e Hf He) as (w' & f & Heq & Hf' & Hm).
  exists w'. split_and!; [done..| |by eauto]. intros Hl. constructor; [done| |].
  - rewrite Hm. cbn. rewrite index_entries_snoc, <- Hi. unfold index_step, index_of. cbn. by rewrite Hn, Hl.
  - rewrite Hm. cbn. exists header, (rest ++ [e]). by rewrite Hes.
Qed.

(** Code that leaves a part of the manager alone. *)
Definition same {B} (f : SessionManager → B) {A} (c : smM A) : Prop := ∀ w, f (manager (c w).1) = f (manager w).

Section Same.
Context {B : Type} (f : SessionManager → B).

Lemma same_ret {A} (a : A) : same f (mret a).
Proof. done. Qed.
Lemma same_bind {A C} (c : smM A) (k : A → smM C) : same f c → (∀ a, same f (k a)) → same f (c ≫= k).
Proof.
  intros Hc Hk w. unfold mbind, smM_bind. specialize (Hc w). destruct (c w) as [w1 [a|e]]; cbn in *; [|done]. by rewrite Hk.
Qed.
Lemma same_write call : same f (write call).
Proof. intros w. unfold write. by case_match. Qed.
Lemma same_get {A} (g : SessionManager → A) : same f (get g).
Proof. done. Qed.
Lemma same_exists path : same f (file_exists path).
Proof. done. Qed.
Lemma same_throw {A} e : same f (throw (A:=A) e).
Proof. done. Qed.
Lemma same_modify g : (∀ m, f (g m) = f m) → same f (modify g).
Proof. intros Hf w. apply Hf. Qed.
End Same.

Create HintDb entries.
#[local] Hint Resolve same_ret same_write same_get same_exists same_throw same_modify : entries.

(** Goes through the binds and cases of a program. *)
Ltac leaves_alone := repeat (case_match || (apply same_bind; [|intros ?]) || eauto with entries).

Lemma same_persist_entry {B} (f : SessionManager → B) e :
  (∀ m, f (m <| flushed := true |>) = f m) → same f (persist_entry e).
Proof. intros Hf. unfold persist_entry. leaves_alone. Qed.

Lemma same_rewriteFile {B} (f : SessionManager → B) : same f rewriteFile.
Proof. unfold rewriteFile. leaves_alone. Qed.

Lemma appendEntry_entries e w : fileEntries (manager (appendEntry e w).1) = fileEntries (manager w) ++ [e].
Proof.
  unfold appendEntry, mbind, smM_bind, modify. cbn. pose proof (same_persist_entry fileEntries e ltac:(done)) as Hp.
  unfold same in Hp. by rewrite Hp.
Qed.

Lemma same_appendEntry e : same persist (appendEntry e).
Proof. unfold appendEntry. apply same_bind; [by apply same_modify|]. intros _. by apply same_persist_entry. Qed.

(** *** Entries that are made *)

Lemma props_of_type t rest : string_prop (JsonObject (props_of ((js "type", Some (JsonString t)) :: rest))) (js "type") = Some t.
Proof. done. Qed.

Lemma new_entry_type m t parent type first more t' :
  has_type t' (new_entry m t parent type first more) = bool_decide (type = t').
Proof. unfold has_type, new_entry. rewrite props_of_type. apply bool_decide_ext. split; [by intros [= ->]|by intros ->]. Qed.

Lemma make_header_ok id timestamp cwd parent :
  is_header (make_header id timestamp cwd parent) = true ∧ string_prop (make_header id timestamp cwd parent) (js "id") = Some id
  ∧ version_below (session_version [make_header id timestamp cwd parent]) CURRENT_SESSION_VERSION = false.
Proof. by destruct parent. Qed.

#[local] Opaque make_header.

(** *** Migration *)

Lemma map_get_set_prop props k v k' : map_get (set_prop props k v) k' = if decide (k' = k) then Some v else map_get props k'.
Proof.
  induction props as [|[k1 v1] props IH]; cbn; [by repeat case_decide|].
  destruct (decide (k = k1)) as [->|Hne]; cbn; [by repeat case_decide|].
  destruct (key_precedes k k1); cbn; [by repeat case_decide|]. rewrite IH. repeat case_decide; congruence.
Qed.

Lemma prop_with_prop e k v k' : k' ≠ k → prop (with_prop k v e) k' = prop e k'.
Proof. intros Hne. destruct e; cbn; try done. rewrite map_get_set_prop. by case_decide. Qed.

Lemma prop_with_prop_eq k v props : prop (with_prop k v (JsonObject props)) k = Some v.
Proof. cbn. rewrite map_get_set_prop. by rewrite decide_True. Qed.

Lemma header_object e : is_header e = true → ∃ props, e = JsonObject props.
Proof. unfold is_header, has_type, string_prop. intros Hh%bool_decide_eq_true. destruct e; cbn in Hh; try done. by eexists. Qed.

Lemma version_header n e :
  is_header e = true →
  let e' := with_prop (js "version") (JsonNumber (of_Z n)) e in
  is_header e' = true ∧ string_prop e' (js "id") = string_prop e (js "id") ∧ session_version [e'] = of_Z n.
Proof.
  intros Hh. destruct (header_object e Hh) as [props ->]. cbn zeta.
  assert (Hh' : is_header (with_prop (js "version") (JsonNumber (of_Z n)) (JsonObject props)) = true).
  { unfold is_header, has_type, string_prop in *. by rewrite prop_with_prop by done. }
  split_and!; [done| |].
  - unfold string_prop. by rewrite prop_with_prop by done.
  - unfold session_version, find_header. rewrite (filter_cons_True _ _ []) by done. cbn [head mbind option_bind].
    by rewrite prop_with_prop_eq.
Qed.

Lemma session_version_head header rest : is_header header = true → session_version (header :: rest) = session_version [header].
Proof. intros Hh. unfold session_version, find_header. by rewrite !filter_cons_True by done. Qed.

Lemma migrate_v2_extends entries draw es acc : ∃ more, (foldl (migrate_entry_v2 entries draw) acc es).1 = acc.1 ++ more.
Proof.
  revert acc. induction es as [|[i e] es IH]; intros [migrated prev]; [exists []; by rewrite app_nil_r|]. cbn [foldl].
  destruct (IH (migrate_entry_v2 entries draw (migrated, prev) (i, e))) as [more ->].
  assert (∃ e', (migrate_entry_v2 entries draw (migrated, prev) (i, e)).1 = migrated ++ [e']) as [e' ->].
  { unfold migrate_entry_v2. destruct (is_header e); by eexists. }
  rewrite <- app_assoc. by eexists.
Qed.

(** Migrating keeps the id of the header and makes its version current; there is nothing
    to migrate then. *)
Lemma migrate_head draw header rest es migrated :
  is_header header = true → migrateToCurrentVersion draw (header :: rest) = (es, migrated) →
  ∃ header' rest', es = header' :: rest' ∧ is_header header' = true ∧ string_prop header' (js "id") = string_prop header (js "id")
    ∧ version_below (session_version [header']) CURRENT_SESSION_VERSION = false ∧ (migrated = false → es = header :: rest).
Proof.
  intros Hh. unfold migrateToCurrentVersion. rewrite session_version_head by done. set (v := session_version [header]).
  destruct (version_below v CURRENT_SESSION_VERSION) eqn:Hv; cbn [negb]; [|intros [= <- <-]; by exists header, rest].
  fold CURRENT_SESSION_VERSION. rewrite Hv. intros [= <- <-].
  assert (∃ header2 rest2, (if version_below v 2 then migrateV1ToV2 draw (header :: rest) else header :: rest) = header2 :: rest2
    ∧ is_header header2 = true ∧ string_prop header2 (js "id") = string_prop header (js "id")) as (h2 & rest2 & -> & Hh2 & Hid2).
  { destruct (version_below v 2); [|by exists header, rest]. destruct (version_header 2 header Hh) as (Hh2 & Hid2 & _).
    unfold migrateV1ToV2. cbn [imap]. cbn [foldl]. unfold migrate_entry_v2 at 2. rewrite Hh.
    match goal with |- context [foldl ?f ?acc ?l] => destruct (migrate_v2_extends (header :: rest) draw l acc) as [more Heq] end.
    exists (with_prop (js "version") (JsonNumber (of_Z 2)) header), more. split_and!; [exact Heq|done..]. }
  destruct (version_header 3 h2 Hh2) as (Hh3 & Hid3 & Hv3). unfold migrateV2ToV3. cbn [fmap list_fmap]. unfold migrate_entry_v3 at 1. rewrite Hh2.
  eexists _, _. split; [done|]. split_and!; [done|congruence|rewrite Hv3; vm_compute; reflexivity|done].
Qed.

Section Steps.
Context (joinPath : jsstring → jsstring → jsstring) (resolvePath : jsstring → jsstring).

(** The file an operation makes a session for. *)
Definition new_path (m : SessionManager) (t : moment) (o : operation) : option jsstring :=
  match o with
  | NewSession id _ => Some (joinPath (sessionDir m) (session_file_name (now t) (default (uuidv7 t) id)))
  | CreateBranchedSession _ => Some (joinPath (sessionDir m) (session_file_name (now t) (uuidv7 t)))
  | _ => None
  end.

(** A step after which the entries are values that text preserves; the file of a new
    session is not there before. *)
Inductive sm_step (w : world) : world → Prop :=
| sm_step_perform (t : moment) (o : operation) :
    Forall plain (fileEntries (manager (perform joinPath t o w).1)) →
    (∀ path, new_path (manager w) t o = Some path → path ≠ [] ∧ files (the_disk w) !! path = None) →
    sm_step w (perform joinPath t o w).1.

Lemma kept_leaf w id : kept w → kept (w <| manager := (manager w) <| leafId := id |> |>).
Proof. intros [[]]. constructor; [by constructor|done|done]. Qed.

Lemma header_not_assistant e : is_header e = true → is_assistant_entry e = false.
Proof. unfold is_header, is_assistant_entry, has_type. intros Hh%bool_decide_eq_true. by rewrite Hh. Qed.


(** The manager of a new session, and how it is kept before its file is there. *)
Lemma fresh_entries t id parent m :
  fileEntries (fresh_session joinPath t id parent m) = [make_header id (now t) (cwd m) parent]
  ∧ sessionId (fresh_session joinPath t id parent m) = id ∧ index_of (fresh_session joinPath t id parent m) = ([], [], [])
  ∧ flushed (fresh_session joinPath t id parent m) = false ∧ persist (fresh_session joinPath t id parent m) = persist m
  ∧ (persist m = true → sessionFile (fresh_session joinPath t id parent m) = Some (joinPath (sessionDir m) (session_file_name (now t) id))).
Proof. unfold fresh_session. by destruct m as [? ? ? ? []]. Qed.

Lemma fresh_session_file t id parent m path es :
  (fresh_session joinPath t id parent (m <| sessionFile := Some path |> <| fileEntries := es |>)) <| sessionFile := Some path |>
  = (fresh_session joinPath t id parent m) <| sessionFile := Some path |>.
Proof. by destruct m as [? ? ? ? []]. Qed.

#[local] Opaque fresh_session.

Lemma kept_unwritten m d path t id parent c :
  plan d = [] → path ≠ [] → (persist m = true → sessionFile m = Some path ∧ files d !! path = None) → flushed m = false →
  fileEntries m = [make_header id (now t) c parent] → plain (make_header id (now t) c parent) → sessionId m = id →
  index_of m = ([], [], []) → kept (MkWorld m d).
Proof.
  intros Hplan Hne Hp Hf Hes Hplain Hid Hi. destruct (make_header_ok id (now t) c parent) as (Hh & Hhid & Hv).
  constructor; [constructor|..]; cbn; rewrite ?Hes; [done|by constructor| | |].
  - intros Hper. destruct (Hp Hper) as [Hsf Hnone]. exists path. rewrite Hf. split_and!; [done..|]. cbn. by rewrite header_not_assistant.
  - rewrite Hi. unfold index_entries. cbn [foldl]. unfold index_step. by rewrite Hh.
  - exists (make_header id (now t) c parent), []. rewrite Hid. split_and!; [reflexivity|exact Hh|exact Hhid|exact Hv].
Qed.

Lemma kept_fresh t id parent w :
  kept w → plain (make_header id (now t) (cwd (manager w)) parent) →
  (joinPath (sessionDir (manager w)) (session_file_name (now t) id) ≠ []
   ∧ files (the_disk w) !! joinPath (sessionDir (manager w)) (session_file_name (now t) id) = None) →
  kept (w <| manager := fresh_session joinPath t id parent (manager w) |>).
Proof.
  intros [[Hplan _ _] _ _] Hplain [Hne Hnone]. destruct w as [m d]. cbn in *.
  destruct (fresh_entries t id parent m) as (Hfe & Hid & Hi & Hfl & Hp & Hsf).
  apply (kept_unwritten _ d _ t id parent (cwd m) Hplan Hne); try done. rewrite Hp. auto.
Qed.

Lemma persist_fresh t id parent m : persist (fresh_session joinPath t id parent m) = persist m.
Proof. by destruct (fresh_entries t id parent m) as (_ & _ & _ & _ & ? & _). Qed.

Lemma newSession_cases t id parent w :
  (newSession joinPath t id parent w).1 = w
  ∨ (newSession joinPath t id parent w).1 = w <| manager := fresh_session joinPath t (default (uuidv7 t) id) parent (manager w) |>.
Proof. unfold newSession. destruct id as [id|]; [destruct (valid_session_id id)|]; auto. Qed.

Lemma kept_one w e :
  kept w → is_header e = false → has_type (js "label") e = false → Forall plain (fileEntries (manager (appendEntry e w).1)) →
  kept (appendEntry e w).1.
Proof.
  intros Hw Hh Hl Hplain. pose proof (appendEntry_entries e w) as Hes. rewrite Hes in Hplain.
  apply Forall_app in Hplain as [_ [He _]%Forall_cons]. destruct (kept_append w e Hw He Hh) as (w1 & Heq & _ & Hk & _).
  rewrite Heq. auto.
Qed.

Lemma addition_entry m t a :
  let e := if of_extension a then new_entry m t (leafId m) (addition_type a) (addition_props a) []
           else new_entry m t (leafId m) (addition_type a) [] (addition_props a) in
  is_header e = false ∧ has_type (js "label") e = false.
Proof. unfold is_header. destruct (of_extension a); cbn zeta; rewrite !new_entry_type; by destruct a. Qed.

(** Code that only gives a result leaves the world alone. *)
Lemma then_ret {A B} (c : smM A) (b : A → B) w : ((a ← c; mret (b a)) w).1 = (c w).1.
Proof. unfold mbind, smM_bind, mret, smM_ret. by destruct (c w) as [w1 [a|x]]. Qed.

Lemma appendEntry_then {A} (c : smM A) w e :
  kept w → plain e → is_header e = false → (_ ← appendEntry e; c) w = c (appendEntry e w).1.
Proof.
  intros Hw He Hh. destruct (kept_append w e Hw He Hh) as (w1 & Heq & _). unfold mbind, smM_bind. by rewrite Heq.
Qed.

Lemma label_step_new m t target label ls :
  let e := new_entry m t (leafId m) (js "label") [] [(js "targetId", Some (JsonString target)); (js "label", JsonString <$> label)] in
  let m' := set_label target label (prop e (js "timestamp")) ls in
  (labelsById m', labelTimestampsById m') = label_step (labelsById ls, labelTimestampsById ls) e.
Proof.
  cbn zeta. unfold label_step, label_of. destruct label as [[|c l]|]; destruct (leafId m); reflexivity.
Qed.

Lemma set_label_rest target label ts m :
  ∃ ls times, set_label target label ts m = m <| labelsById := ls |> <| labelTimestampsById := times |>.
Proof. destruct label as [[|c l]|]; by eexists _, _. Qed.

Lemma kept_label w t target label :
  kept w → Forall plain (fileEntries (manager (appendLabelChange t target label w).1)) → kept (appendLabelChange t target label w).1.
Proof.
  intros Hw.
  set (e := new_entry (manager w) t (leafId (manager w)) (js "label") []
              [(js "targetId", Some (JsonString target)); (js "label", JsonString <$> label)]).
  assert (Hh : is_header e = false) by (unfold is_header, e; by rewrite new_entry_type).
  assert (Hl : has_type (js "label") e = true) by (unfold e; by rewrite new_entry_type).
  pose proof (label_step_new (manager w) t target label) as Hls. cbn zeta in Hls. fold e in Hls.
  change (appendLabelChange t target label w) with
    ((if map_has (byId (manager w)) (Id target)
      then _ ← appendEntry e; _ ← modify (set_label target label (prop e (js "timestamp"))); mret (entry_id e)
      else throw (EntryNotFound target)) w).
  clearbody e. destruct (map_has _ _); [|done]. intros Hplain.
  assert (Hes : fileEntries (manager ((_ ← appendEntry e; _ ← modify (set_label target label (prop e (js "timestamp"))); mret (entry_id e)) w).1)
                = fileEntries (manager w) ++ [e]).
  { rewrite <- (appendEntry_entries e w). unfold mbind, smM_bind. destruct (appendEntry e w) as [w1 [u|x]]; [|done]. cbn.
    destruct (set_label_rest target label (prop e (js "timestamp")) (manager w1)) as (ls & times & ->). done. }
  rewrite Hes in Hplain. apply Forall_app in Hplain as Hplain'. destruct Hplain' as [_ [He _]%Forall_cons].
  destruct (kept_append w e Hw He Hh) as (w1 & Heq & [Hp1 Hp2 Hp3] & _ & f & Hm). unfold mbind, smM_bind. rewrite Heq. cbn.
  destruct Hw as [_ Hi (header & rest & Hes' & Hhd)]. specialize (Hls (manager w1)).
  destruct (set_label_rest target label (prop e (js "timestamp")) (manager w1)) as (ls & times & Heq'). rewrite Heq' in Hls |- *. cbn in Hls.
  constructor; [by constructor| |]; rewrite Hm.
  - rewrite Hm in Hls. unfold index_of. cbn in Hls |- *. rewrite index_entries_snoc, <- Hi. unfold index_step, index_of. by rewrite Hh, Hl, <- Hls.
  - exists header, (rest ++ [e]). cbn. by rewrite Hes'.
Qed.

Lemma kept_summary w t from summary details fromHook usage :
  kept w → Forall plain (fileEntries (manager (branchWithSummary t from summary details fromHook usage w).1)) →
  kept (branchWithSummary t from summary details fromHook usage w).1.
Proof.
  intros Hw. unfold branchWithSummary.
  set (target := match from with Some id => Id id | None => Null end).
  change (mbind (M:=smM) ?k (get id) w) with (k (manager w) w). cbv beta.
  destruct (match from with Some id => negb (map_has (byId (manager w)) (Id id)) | None => false end); [done|]. cbv zeta.
  match goal with |- context [appendEntry ?e] => set (entry := e) end.
  set (w0 := w <| manager := (manager w) <| leafId := target |> |>).
  change (mbind (M:=smM) ?k (modify _) w) with (k () w0). cbv beta. rewrite then_ret.
  apply kept_one; [by apply kept_leaf| |]; unfold is_header, entry; by rewrite new_entry_type.
Qed.

(** The disk after a whole file is written. *)
Lemma rewriteFile_ok w path :
  plan (the_disk w) = [] → persist (manager w) = true → sessionFile (manager w) = Some path → path ≠ [] →
  rewriteFile w = (w <| the_disk := MkDisk (<[path := entries_text (fileEntries (manager w))]> (files (the_disk w))) [] |>, Ok ()).
Proof.
  intros Hplan Hp Hf Hne. unfold rewriteFile, mbind, smM_bind, get, write. cbn. rewrite Hf, Hp, bool_decide_eq_false_2 by done. cbn.
  rewrite open_file_ok by done. cbn. rewrite (write_entries_ok _ _ _ []) by (cbn; rewrite ?lookup_insert_eq; done). cbn.
  by rewrite insert_insert_eq.
Qed.

Lemma branched_entries_header t m header path : ∃ rest, branched_entries t m header path = header :: rest.
Proof. by eexists. Qed.

Lemma kept_branched w t leaf :
  kept w → Forall plain (fileEntries (manager (createBranchedSession joinPath t leaf w).1)) →
  (let path := joinPath (sessionDir (manager w)) (session_file_name (now t) (uuidv7 t)) in
   path ≠ [] ∧ files (the_disk w) !! path = None) →
  kept (createBranchedSession joinPath t leaf w).1.
Proof.
  intros Hw. unfold createBranchedSession. change (mbind (M:=smM) ?k (get id) w) with (k (manager w) w). cbv beta.
  destruct (getBranch (manager w) (Some leaf)) as [[|e path]|]; [done| |done]. cbv zeta.
  match goal with |- context [branched_entries t ?m ?h ?p] => set (header := h); set (es := branched_entries t m header p) end.
  set (file := joinPath _ _).
  set (w0 := w <| manager := (manager w) <| fileEntries := es |> <| sessionId := uuidv7 t |> |>).
  change (mbind (M:=smM) ?k (modify _) w) with (k () w0). cbv beta.
  pose proof (make_header_ok (uuidv7 t) (now t) (cwd (manager w)) (if persist (manager w) then sessionFile (manager w) else None)) as Hok.
  fold header in Hok. destruct Hw as [[Hplan _ _] _ _].
  assert (Hhead : ∃ h rest, es = h :: rest ∧ is_header h = true
    ∧ string_prop h (js "id") = Some (uuidv7 t) ∧ version_below (session_version [h]) CURRENT_SESSION_VERSION = false) by (exists header; by eexists).
  clearbody es. destruct (persist (manager w)) eqn:Hp.
  - set (w1 := w0 <| manager := buildIndex ((manager w0) <| sessionFile := Some file |>) |>).
    change (mbind (M:=smM) ?k (modify _) w0) with (k () w1). cbv beta. intros Hplain [Hne Hnone].
    destruct (buildIndex_rest ((manager w0) <| sessionFile := Some file |>)) as (Hsid & Hsf & Hper & _ & Hfe & _).
    pose proof (buildIndex_index ((manager w0) <| sessionFile := Some file |>)) as Hix. cbn in Hsid, Hsf, Hper, Hfe, Hix.
    destruct (existsb is_assistant_entry es) eqn:Ha.
    + unfold mbind, smM_bind in Hplain |- *. rewrite (rewriteFile_ok w1 file) in Hplain |- * by (cbn; congruence).
      cbn in Hplain |- *. rewrite Hfe in *. constructor; [constructor|..]; cbn; rewrite ?Hfe, ?Hsid; try done; try congruence.
      * intros _. exists file. rewrite Hsf. split_and!; [done..|]. eexists. split; [by rewrite lookup_insert_eq|].
        apply (holds_entries [] []); [apply holds_nil|done].
    + unfold mbind, smM_bind in Hplain |- *. cbn in Hplain |- *. constructor; [constructor|..]; cbn; rewrite ?Hfe, ?Hsid in *; try done; try congruence.
      * intros _. exists file. rewrite Hsf. split_and!; try done; by rewrite ?Hfe.
  - intros Hplain _. destruct (buildIndex_rest (manager w0)) as (Hsid & _ & Hper & _ & Hfe & _).
    pose proof (buildIndex_index (manager w0)) as Hix. change ((mbind (M:=smM) ?k (modify buildIndex) w0)) with (k () (w0 <| manager := buildIndex (manager w0) |>)) in *. cbn in Hplain |- *. cbn in Hsid, Hper, Hfe, Hix.
    constructor; [constructor|..]; cbn; rewrite ?Hfe, ?Hsid in *; try done; congruence.
Qed.

Lemma kept_perform t o w :
  kept w → Forall plain (fileEntries (manager (perform joinPath t o w).1)) →
  (∀ path, new_path (manager w) t o = Some path → path ≠ [] ∧ files (the_disk w) !! path = None) → kept (perform joinPath t o w).1.
Proof.
  intros Hw Hplain Hfresh. destruct o as [id parent|a|target label|from| |from summary details fromHook usage|leaf]; cbn [perform new_path] in *;
    rewrite ?then_ret in *.
  - destruct (newSession_cases t id parent w) as [Heq|Heq]; rewrite Heq in Hplain |- *; [done|]. cbn in Hplain.
    rewrite (proj1 (fresh_entries _ _ _ _)) in Hplain. apply Forall_cons in Hplain as [Hplain _]. apply kept_fresh; auto.
  - change (append t a w) with ((_ ← appendEntry (if of_extension a then new_entry (manager w) t (leafId (manager w)) (addition_type a) (addition_props a) []
           else new_entry (manager w) t (leafId (manager w)) (addition_type a) [] (addition_props a)); mret (entry_id (if of_extension a then new_entry (manager w) t (leafId (manager w)) (addition_type a) (addition_props a) []
           else new_entry (manager w) t (leafId (manager w)) (addition_type a) [] (addition_props a)))) w) in *.
    rewrite then_ret in *. destruct (addition_entry (manager w) t a). by apply kept_one.
  - by apply kept_label.
  - unfold branch in *. change (mbind (M:=smM) ?k (get id) w) with (k (manager w) w) in *. cbv beta in *.
    destruct (map_has _ _); [by apply kept_leaf|done].
  - by apply kept_leaf.
  - by apply kept_summary.
  - apply kept_branched; [done|done|]. by apply Hfresh.
Qed.

#[local] Hint Resolve same_appendEntry same_rewriteFile : entries.

Lemma same_index_entry m e : persist (index_entry m e) = persist m.
Proof. rewrite index_entry_rest. done. Qed.
Lemma persist_buildIndex m : persist (buildIndex m) = persist m.
Proof. by destruct (buildIndex_rest m) as (_ & _ & ? & _). Qed.
Lemma persist_set_label target label ts m : persist (set_label target label ts m) = persist m.
Proof. destruct (set_label_rest target label ts m) as (ls & times & ->). done. Qed.
#[local] Hint Resolve persist_buildIndex persist_set_label persist_fresh : entries.

Lemma persist_perform t o : same persist (perform joinPath t o).
Proof.
  destruct o; cbn [perform]; unfold newSession, append, appendLabelChange, branch, resetLeaf, branchWithSummary, createBranchedSession;
    leaves_alone; intros ?; apply same_modify; intros ?; cbn; rewrite ?persist_buildIndex; done.
Qed.

(** *** Opening *)

(** Steps of a program, on a world whose parts are in view. *)
Lemma step_ok {A B} (c : smM A) (k : A → smM B) w w' a : c w = (w', Ok a) → (c ≫= k) w = k a w'.
Proof. intros Hc. unfold mbind, smM_bind. by rewrite Hc. Qed.
Lemma bind_modify {B} f (k : unit → smM B) m d : (modify f ≫= k) (MkWorld m d) = k () (MkWorld (f m) d).
Proof. done. Qed.
Lemma bind_exists {B} path (k : bool → smM B) m d :
  (file_exists path ≫= k) (MkWorld m d) = k (bool_decide (is_Some (files d !! path))) (MkWorld m d).
Proof. done. Qed.
Lemma bind_ret {A B} (a : A) (k : A → smM B) w : (mret a ≫= k) w = k a w.
Proof. done. Qed.
Lemma modify_world f m d : modify f (MkWorld m d) = (MkWorld (f m) d, Ok ()).
Proof. done. Qed.

Lemma repair_ok m d path text missing :
  plan d = [] → files d !! path = Some text →
  repair path missing (MkWorld m d) = (MkWorld m (MkDisk (<[path := text ++ line_end missing]> (files d)) []), Ok ()).
Proof.
  intros Hplan Htext. unfold repair, line_end. destruct missing.
  - unfold write. cbn. by rewrite (append_text_ok _ _ _ text).
  - rewrite app_nil_r, insert_id by done. destruct d as [fs pl]. cbn in *. by subst.
Qed.

Lemma load_file_ok chunks m d path text es missing :
  (∀ s, concat (chunks s) = s) → plan d = [] → files d !! path = Some text → load_text [text] = (es, missing) →
  loadEntriesFromFile chunks path (MkWorld m d) = (MkWorld m (MkDisk (<[path := text ++ line_end missing]> (files d)) []), Ok es).
Proof.
  intros Hchunks Hplan Htext Hload. unfold loadEntriesFromFile. cbn [the_disk]. rewrite Htext, (load_text_chunks _ text) by done.
  rewrite Hload. erewrite step_ok by by apply repair_ok. done.
Qed.

Lemma setSessionFile_load t chunks file m d text es missing :
  let path := resolvePath file in
  (∀ s, concat (chunks s) = s) → plan d = [] → files d !! path = Some text → load_text [text] = (es, missing) →
  setSessionFile joinPath resolvePath t chunks file (MkWorld m d)
  = (let w := MkWorld (m <| sessionFile := Some path |> <| fileEntries := es |>)
                (MkDisk (<[path := text ++ line_end missing]> (files d)) []) in
     match es with
     | [] => initialize_file joinPath t path w
     | _ =>
         let id := match find_header es ≫= λ h, string_prop h (js "id") with Some id => id | None => uuidv7 t end in
         let '(es, migrated) := migrateToCurrentVersion (randomUUID t) es in
         (_ ← modify (λ m, m <| sessionId := id |> <| fileEntries := es |>);
          _ ← (if migrated : bool then rewriteFile else mret ());
          modify (λ m, (buildIndex m) <| flushed := true |>)) w
     end).
Proof.
  intros path Hchunks Hplan Htext Hload. unfold setSessionFile. fold path. cbv zeta. rewrite bind_modify, bind_exists.
  rewrite bool_decide_eq_true_2 by (rewrite Htext; eauto). erewrite step_ok by by apply load_file_ok. rewrite bind_modify.
  destruct es; [done|]. by destruct (migrateToCurrentVersion _ _).
Qed.

Lemma setSessionFile_found t chunks file m d text header rest missing es migrated id :
  let path := resolvePath file in
  (∀ s, concat (chunks s) = s) → plan d = [] → persist m = true → path ≠ [] →
  files d !! path = Some text → load_text [text] = (header :: rest, missing) →
  is_header header = true → string_prop header (js "id") = Some id →
  migrateToCurrentVersion (randomUUID t) (header :: rest) = (es, migrated) →
  setSessionFile joinPath resolvePath t chunks file (MkWorld m d)
  = (MkWorld ((buildIndex (m <| sessionFile := Some path |> <| sessionId := id |> <| fileEntries := es |>)) <| flushed := true |>)
       (MkDisk (<[path := if migrated then entries_text es else text ++ line_end missing]> (files d)) []), Ok ()).
Proof.
  intros path Hchunks Hplan Hp Hne Htext Hload Hh Hid Hmig. rewrite (setSessionFile_load _ _ _ _ _ text _ missing) by done.
  fold path. clearbody path. cbv zeta. rewrite Hmig. unfold find_header. rewrite filter_cons_True by done. cbn [head mbind option_bind].
  rewrite Hid, bind_modify. destruct m as [i f dir c p fl es0 ix ls ts lf]. cbn in Hp. subst p. destruct migrated; [|by rewrite bind_ret].
  erewrite step_ok by by apply (rewriteFile_ok _ path). unfold modify. cbn. by rewrite insert_insert_eq.
Qed.

(** A manager whose file holds its entries. *)
Lemma kept_written m fs path text header rest :
  sessionFile m = Some path → path ≠ [] → fs !! path = Some text → fileEntries m = header :: rest → holds text (header :: rest) →
  Forall plain (header :: rest) → is_header header = true → string_prop header (js "id") = Some (sessionId m) →
  version_below (session_version [header]) CURRENT_SESSION_VERSION = false → flushed m = true →
  index_of m = index_entries (header :: rest) → kept (MkWorld m (MkDisk fs [])).
Proof.
  intros Hf Hne Htext Hes Hholds Hplain Hh Hid Hv Hfl Hi.
  constructor; [constructor|..]; cbn; rewrite ?Hes; [done|done| |done|by exists header, rest].
  intros _. exists path. rewrite Hf, Hfl. split_and!; [done..|]. by exists text.
Qed.



Lemma load_text_nil chunks missing : load_text chunks = ([], missing) → missing = false.
Proof.
  unfold load_text. destruct (load_chunks _ _ _) as [[|h r] pend]; [by intros [= <-]|].
  destruct (is_header h && _); [done|by intros [= <-]].
Qed.


(** A file without entries is initialized when it is empty, and left as it is otherwise. *)
Lemma setSessionFile_empty t chunks file m d text missing :
  let path := resolvePath file in
  let m' := (fresh_session joinPath t (uuidv7 t) None m) <| sessionFile := Some path |> in
  let w' := setSessionFile joinPath resolvePath t chunks file (MkWorld m d) in
  (∀ s, concat (chunks s) = s) → plan d = [] → persist m = true → path ≠ [] →
  files d !! path = Some text → load_text [text] = ([], missing) →
  (text ≠ [] ∧ w'.2 = Err InvalidSessionFile ∧ the_disk w'.1 = d)
  ∨ (text = [] ∧ w' = (MkWorld (m' <| flushed := true |>) (MkDisk (<[path := entries_text (fileEntries m')]> (files d)) []), Ok ())).
Proof.
  intros path m' w' Hchunks Hplan Hp Hne Htext Hload. subst w'. rewrite (setSessionFile_load _ _ _ _ _ text _ missing) by done.
  fold path. pose proof (load_text_nil _ _ Hload) as ->. cbv zeta. cbn [line_end]. rewrite app_nil_r, insert_id by done.
  unfold initialize_file. cbn [the_disk files]. rewrite Htext. destruct (decide (text = [])) as [->|Ht].
  - right. split; [done|]. rewrite bool_decide_eq_true_2 by done. unfold newSession. rewrite bind_modify, bind_modify, fresh_session_file. fold m'.
    erewrite step_ok by (apply (rewriteFile_ok _ path); [done| |done|done]; cbn; unfold m'; cbn; by rewrite persist_fresh). done.
  - left. split; [done|]. rewrite bool_decide_eq_false_2 by congruence. cbn. split; [done|]. destruct d. cbn in *. by subst.
Qed.

Lemma setSessionFile_missing t chunks file m d :
  files d !! resolvePath file = None →
  setSessionFile joinPath resolvePath t chunks file (MkWorld m d)
  = (MkWorld ((fresh_session joinPath t (uuidv7 t) None m) <| sessionFile := Some (resolvePath file) |>) d, Ok ()).
Proof.
  intros Hnone. unfold setSessionFile. cbv zeta. rewrite bind_modify, bind_exists. rewrite bool_decide_eq_false_2 by (rewrite Hnone; by intros []).
  unfold newSession. rewrite bind_modify, modify_world. by destruct m as [? ? ? ? []].
Qed.

Lemma fresh_at t id parent m path :
  let m' := (fresh_session joinPath t id parent m) <| sessionFile := Some path |> in
  fileEntries m' = [make_header id (now t) (cwd m) parent] ∧ sessionId m' = id ∧ index_of m' = ([], [], []) ∧ flushed m' = false
  ∧ sessionFile m' = Some path.
Proof.
  destruct (fresh_entries t id parent m) as (Hfe & Hid & Hi & Hfl & _).
  destruct (fresh_session joinPath t id parent m) as [? ? ? ? ? ? ? ? ? ? ?]. cbn in *. auto.
Qed.

Lemma kept_initialized m path fs header :
  path ≠ [] → sessionFile m = Some path → fileEntries m = [header] → plain header → is_header header = true →
  string_prop header (js "id") = Some (sessionId m) → version_below (session_version [header]) CURRENT_SESSION_VERSION = false →
  index_of m = ([], [], []) →
  kept (MkWorld (m <| flushed := true |>) (MkDisk (<[path := entries_text (fileEntries m)]> fs) [])).
Proof.
  intros Hne Hf Hes Hplain Hh Hid Hv Hi. apply (kept_written _ _ path (entries_text [header]) header []); rewrite ?Hes; try done.
  - by rewrite lookup_insert_eq.
  - apply (holds_entries [] [] [header] holds_nil). by constructor.
  - by constructor.
  - change (index_of (m <| flushed := true |>)) with (index_of m). rewrite Hi. unfold index_entries. cbn [foldl]. unfold index_step. by rewrite Hh.
Qed.

(** Opening keeps the file: when there is none, when it is empty, and when it is read. *)
Lemma open_missing t chunks file m d :
  plan d = [] → resolvePath file ≠ [] → files d !! resolvePath file = None →
  Forall plain (fileEntries (manager (setSessionFile joinPath resolvePath t chunks file (MkWorld m d)).1)) →
  kept (setSessionFile joinPath resolvePath t chunks file (MkWorld m d)).1.
Proof.
  intros Hplan Hne Htext. rewrite setSessionFile_missing by done. cbn [fst manager].
  destruct (fresh_at t (uuidv7 t) None m (resolvePath file)) as (Hfe & Hfid & Hfi & Hff & Hfp).
  rewrite Hfe. intros [Hplain _]%Forall_cons.
  exact (kept_unwritten _ d _ t (uuidv7 t) None (cwd m) Hplan Hne (λ _, conj Hfp Htext) Hff Hfe Hplain Hfid Hfi).
Qed.

Lemma open_empty t chunks file m d text missing :
  (∀ s, concat (chunks s) = s) → plan d = [] → persist m = true → resolvePath file ≠ [] →
  files d !! resolvePath file = Some text → load_text [text] = ([], missing) →
  (setSessionFile joinPath resolvePath t chunks file (MkWorld m d)).2 = Ok () →
  Forall plain (fileEntries (manager (setSessionFile joinPath resolvePath t chunks file (MkWorld m d)).1)) →
  kept (setSessionFile joinPath resolvePath t chunks file (MkWorld m d)).1.
Proof.
  intros Hchunks Hplan Hp Hne Htext Hload Hok Hplain.
  destruct (make_header_ok (uuidv7 t) (now t) (cwd m) None) as (Hmh & Hmid & Hmv).
  destruct (setSessionFile_empty t chunks file m d text missing Hchunks Hplan Hp Hne Htext Hload) as [(_ & Herr & _)|[_ Heq]];
    [by rewrite Hok in Herr|]. rewrite Heq in Hplain |- *. clear Heq Hok. revert Hplain.
  destruct (fresh_at t (uuidv7 t) None m (resolvePath file)) as (Hfe & Hfid & Hfi & Hff & Hfp). revert Hfe Hfid Hfi Hff Hfp.
  generalize ((fresh_session joinPath t (uuidv7 t) None m) <| sessionFile := Some (resolvePath file) |>). intros m' Hfe Hfid Hfi Hff Hfp.
  revert Hmh Hmid Hmv Hfe. generalize (make_header (uuidv7 t) (now t) (cwd m) None). intros header Hmh Hmid Hmv Hfe Hplain.
  assert (Hheader : plain header).
  { change (Forall plain (fileEntries m')) in Hplain. rewrite Hfe in Hplain. by apply Forall_cons in Hplain as [? _]. }
  rewrite <- Hfid in Hmid. exact (kept_initialized m' _ (files d) _ Hne Hfp Hfe Hheader Hmh Hmid Hmv Hfi).
Qed.

Lemma open_found t chunks file m d text header rest missing :
  (∀ s, concat (chunks s) = s) → plan d = [] → persist m = true → resolvePath file ≠ [] →
  files d !! resolvePath file = Some text → load_text [text] = (header :: rest, missing) →
  Forall plain (fileEntries (manager (setSessionFile joinPath resolvePath t chunks file (MkWorld m d)).1)) →
  kept (setSessionFile joinPath resolvePath t chunks file (MkWorld m d)).1.
Proof.
  intros Hchunks Hplan Hp Hne Htext Hload. destruct (load_holds text _ missing Hload) as [Hholds (h & r & [= <- <-] & Hhead)]; [done|].
  apply andb_true_iff in Hhead as [Hh [id Hid]%bool_decide_eq_true].
  destruct (migrateToCurrentVersion (randomUUID t) (header :: rest)) as [es migrated] eqn:Hmig.
  rewrite (setSessionFile_found t chunks file m d text header rest missing es migrated id) by done. cbn [fst manager].
  destruct (migrate_head _ _ _ _ _ Hh Hmig) as (header' & rest' & -> & Hh' & Hid' & Hv & Hsame).
  match goal with |- context [buildIndex ?m] =>
    destruct (buildIndex_rest m) as (Hsid & Hsf & _ & _ & Hfe & _); pose proof (buildIndex_index m) as Hix; set (m0 := buildIndex m) in * end.
  clearbody m0. cbn in Hsid, Hsf, Hfe, Hix. change (fileEntries (m0 <| flushed := true |>)) with (fileEntries m0). rewrite Hfe. intros Hplain.
  eapply (kept_written _ _ _ _ header' rest'); [exact Hsf|exact Hne|apply lookup_insert_eq|exact Hfe| |done|done|change (sessionId (m0 <| flushed := true |>)) with (sessionId m0); congruence|done|reflexivity|exact Hix].
  destruct migrated; [exact (holds_entries [] [] _ holds_nil Hplain)|]. by rewrite Hsame.
Qed.

Lemma open_kept t chunks file w :
  (∀ s, concat (chunks s) = s) → plan (the_disk w) = [] → persist (manager w) = true → resolvePath file ≠ [] →
  (setSessionFile joinPath resolvePath t chunks file w).2 = Ok () →
  Forall plain (fileEntries (manager (setSessionFile joinPath resolvePath t chunks file w).1)) →
  kept (setSessionFile joinPath resolvePath t chunks file w).1.
Proof.
  destruct w as [m d]. cbn [manager the_disk]. intros Hchunks Hplan Hp Hne Hok.
  destruct (files d !! resolvePath file) as [text|] eqn:Htext; [|by apply open_missing].
  destruct (load_text [text]) as [[|header rest] missing] eqn:Hload; [by eapply open_empty|by eapply open_found].
Qed.

(** ** Sessions that are running *)

(** A session with a file, made or opened on a disk without faults, after any of the
    operations. *)
Inductive running : world → Prop :=
| running_create t chunks cwd dir id parent w :
    plan (the_disk w) = [] → (create joinPath resolvePath t chunks cwd dir id parent w).2 = Ok () →
    Forall plain (fileEntries (manager (create joinPath resolvePath t chunks cwd dir id parent w).1)) →
    (let path := joinPath dir (session_file_name (now t) (default (uuidv7 t) id)) in path ≠ [] ∧ files (the_disk w) !! path = None) →
    running (create joinPath resolvePath t chunks cwd dir id parent w).1
| running_open t chunks cwd dir file w :
    (∀ s, concat (chunks s) = s) → plan (the_disk w) = [] → resolvePath file ≠ [] →
    (construct joinPath resolvePath t chunks cwd dir (Some file) true None None w).2 = Ok () →
    Forall plain (fileEntries (manager (construct joinPath resolvePath t chunks cwd dir (Some file) true None None w).1)) →
    running (construct joinPath resolvePath t chunks cwd dir (Some file) true None None w).1
| running_step w w' : running w → sm_step w w' → running w'.

Lemma persist_setSessionFile t chunks file : same persist (setSessionFile joinPath resolvePath t chunks file).
Proof.
  assert (Hnew : same persist (newSession joinPath t None None)).
  { unfold newSession. apply same_modify. intros m. apply persist_fresh. }
  assert (Hload : same persist (loadEntriesFromFile chunks (resolvePath file))).
  { intros w. unfold loadEntriesFromFile. destruct (files (the_disk w) !! _); [|done]. destruct (load_text _) as [es missing].
    assert (Hr : same persist (_ ← repair (resolvePath file) missing; mret es)) by (unfold repair; leaves_alone). apply Hr. }
  assert (Hinit : same persist (initialize_file joinPath t (resolvePath file))).
  { intros w. unfold initialize_file. case_bool_decide; [|done].
    assert (Hr : same persist (_ ← newSession joinPath t None None; _ ← modify (λ m, m <| sessionFile := Some (resolvePath file) |>);
              _ ← rewriteFile; modify (λ m, m <| flushed := true |>))) by leaves_alone. apply Hr. }
  unfold setSessionFile. leaves_alone; intros ?; apply same_modify; intros ?; cbn; rewrite ?persist_buildIndex; done.
Qed.

Lemma running_kept w : running w → kept w ∧ persist (manager w) = true.
Proof.
  induction 1 as [t chunks c dir id parent [m d] Hplan Hok Hplain Hfresh|t chunks c dir file [m d] Hchunks Hplan Hne Hok Hplain|w w' _ [Hw Hp] Hs].
  - unfold create, construct in *. rewrite !bind_modify in *.
    set (m0 := MkManager [] None dir (resolvePath c) true false [] [] [] [] Null) in *.
    destruct (newSession_cases t id parent (MkWorld m0 d)) as [Heq|Heq].
    { unfold newSession in Heq, Hok. destruct id as [id|]; [destruct (valid_session_id id)|]; [|by cbn in Hok|];
        apply (f_equal (λ w, fileEntries (manager w))) in Heq; cbn in Heq; by rewrite (proj1 (fresh_entries _ _ _ _)) in Heq. }
    rewrite Heq in Hplain |- *. cbn [manager] in Hplain |- *.
    destruct (fresh_entries t (default (uuidv7 t) id) parent m0) as (Hfe & Hid & Hi & Hfl & Hp & Hsf).
    change (fileEntries (manager ((MkWorld m0 d) <| manager := fresh_session joinPath t (default (uuidv7 t) id) parent m0 |>)))
      with (fileEntries (fresh_session joinPath t (default (uuidv7 t) id) parent m0)) in Hplain.
    rewrite Hfe in Hplain. apply Forall_cons in Hplain as [Hplain _]. destruct Hfresh as [Hne Hnone]. cbn in Hplan, Hnone. split; [|exact Hp].
    exact (kept_unwritten _ d _ t _ parent (cwd m0) Hplan Hne (λ _, conj (Hsf eq_refl) Hnone) Hfl Hfe Hplain Hid Hi).
  - unfold construct in *. rewrite bind_modify in *. split; [by apply open_kept|]. by rewrite (persist_setSessionFile t chunks file).
  - destruct Hs as [t o Hplain Hfresh]. split; [by apply kept_perform|]. by rewrite (persist_perform t o).
Qed.

(** *** Runs that are computed *)

Definition plain_entry (e : file_entry) : bool := json_ok e && match e with JsonObject _ => true | _ => false end.

Lemma plain_entries es : forallb plain_entry es = true → Forall plain es.
Proof.
  intros Hes. rewrite forallb_forall in Hes. apply Forall_forall. intros e He%list_elem_of_In. specialize (Hes e He).
  apply andb_true_iff in Hes as [Hok Ho]. split; [done|]. destruct e; try done. by eexists.
Qed.

Definition path_free (path : option jsstring) (d : disk) : bool :=
  match path with Some p => negb (bool_decide (p = [])) && bool_decide (files d !! p = None) | None => true end.

Fixpoint perform_all (os : list (moment * operation)) (w : world) : world :=
  match os with [] => w | (t, o) :: os => perform_all os (perform joinPath t o w).1 end.

(** Whether the steps of a run are as [sm_step] requires. *)
Fixpoint run_ok (os : list (moment * operation)) (w : world) : bool :=
  match os with
  | [] => true
  | (t, o) :: os =>
      let w' := (perform joinPath t o w).1 in
      forallb plain_entry (fileEntries (manager w')) && path_free (new_path (manager w) t o) (the_disk w) && run_ok os w'
  end.

Lemma running_all os w : running w → run_ok os w = true → running (perform_all os w).
Proof.
  revert w. induction os as [|[t o] os IH]; intros w Hw; [done|]. cbn [run_ok perform_all]. intros [[Hp Hf]%andb_true_iff Hr]%andb_true_iff.
  apply IH; [|done]. eapply running_step; [exact Hw|]. constructor; [by apply plain_entries|]. intros path Hpath. rewrite Hpath in Hf.
  apply andb_true_iff in Hf as [Hne%negb_true_iff Hnone%bool_decide_eq_true]. by apply bool_decide_eq_false in Hne.
Qed.

Lemma running_created t chunks cwd dir id parent w :
  let r := create joinPath resolvePath t chunks cwd dir id parent w in
  plan (the_disk w) = [] → r.2 = Ok () → forallb plain_entry (fileEntries (manager r.1)) = true →
  path_free (Some (joinPath dir (session_file_name (now t) (default (uuidv7 t) id)))) (the_disk w) = true → running r.1.
Proof.
  intros r Hplan Hok Hp Hf. apply andb_true_iff in Hf as [Hne%negb_true_iff Hnone%bool_decide_eq_true]. apply bool_decide_eq_false in Hne.
  by apply running_create; [..|apply plain_entries|].
Qed.

(** Opening a file that holds entries of the current version. *)
Lemma reopen_found t chunks file m d text header rest missing :
  (∀ s, concat (chunks s) = s) → plan d = [] → persist m = true → resolvePath file ≠ [] →
  files d !! resolvePath file = Some text → load_text [text] = (header :: rest, missing) → is_header header = true →
  (∃ id, string_prop header (js "id") = Some id) → version_below (session_version [header]) CURRENT_SESSION_VERSION = false →
  ∃ m', setSessionFile joinPath resolvePath t chunks file (MkWorld m d)
        = (MkWorld m' (MkDisk (<[resolvePath file := text ++ line_end missing]> (files d)) []), Ok ())
    ∧ fileEntries m' = header :: rest ∧ string_prop header (js "id") = Some (sessionId m') ∧ index_of m' = index_entries (header :: rest)
    ∧ leafId m' = last_id (header :: rest).
Proof.
  intros Hchunks Hplan Hp Hne Htext Hload Hh [id Hid] Hv.
  assert (Hmig : migrateToCurrentVersion (randomUUID t) (header :: rest) = (header :: rest, false)).
  { unfold migrateToCurrentVersion. rewrite session_version_head by done. by rewrite Hv. }
  rewrite (setSessionFile_found t chunks file m d text header rest missing _ false id) by done. eexists. split; [done|].
  set (m0 := m <| sessionFile := Some (resolvePath file) |> <| sessionId := id |> <| fileEntries := header :: rest |>).
  destruct (buildIndex_rest m0) as (Hsid & _ & _ & _ & Hfe & _). split_and!; [exact Hfe| |exact (buildIndex_index m0)|exact (buildIndex_leaf m0)].
  rewrite Hid. f_equal. symmetry. exact Hsid.
Qed.

(** *** Sessions that were made, not opened from a file *)

Inductive created : world → Prop :=
| created_create t chunks cwd dir id parent w : created (create joinPath resolvePath t chunks cwd dir id parent w).1
| created_perform t o w : created w → created (perform joinPath t o w).1.

(** They are marked as written only with a response of the model. *)
Definition earned (m : SessionManager) : Prop := flushed m = true → existsb is_assistant_entry (fileEntries m) = true.

Lemma earned_persist_entry e w : earned (manager w) → earned (manager (persist_entry e w).1).
Proof.
  intros Hw. unfold persist_entry. destruct w as [m d]. unfold mbind, smM_bind, get, write, throw, modify, file_exists.
  cbn in *. destruct (sessionFile m) as [path|]; [|done]. destruct (negb _ || _); [done|].
  destruct (existsb is_assistant_entry (fileEntries m)) eqn:Ha; destruct (flushed m) eqn:Hfl; [by destruct (append_text _ _ _)| |by destruct (append_text _ _ _)|done].
  case_bool_decide; [done|]. cbn. destruct (open_file path d) as [d1 []]; cbn; [|done].
  destruct (write_entries path (fileEntries m) d1) as [d2 []]; cbn; [by intros _|done].
Qed.

Lemma earned_appendEntry e w : earned (manager w) → earned (manager (appendEntry e w).1).
Proof.
  destruct w as [m d]. intros Hw. unfold appendEntry. rewrite bind_modify. apply earned_persist_entry. unfold earned in *. cbn.
  cbn in Hw. intros Hf. by rewrite existsb_app, Hw.
Qed.

Lemma earned_branched t leaf w :
  persist (manager w) = true → earned (manager w) → earned (manager (createBranchedSession joinPath t leaf w).1).
Proof.
  intros Hp Hw. unfold createBranchedSession. change (mbind (M:=smM) ?k (get id) w) with (k (manager w) w). cbv beta.
  destruct (getBranch (manager w) (Some leaf)) as [[|e path]|]; [done| |done]. cbv zeta. rewrite Hp. destruct w as [m d]. rewrite !bind_modify.
  match goal with |- context [branched_entries t ?m ?h ?p] => generalize (branched_entries t m h p); intros es end.
  match goal with |- context [buildIndex ?m] => destruct (buildIndex_rest m) as (_ & _ & _ & _ & Hfe & _) end. cbn in Hfe.
  destruct (existsb is_assistant_entry es) eqn:Ha; [|by intros [=]].
  assert (∀ A (c : smM A) v, same fileEntries c → fileEntries (manager v) = es → earned (manager (c v).1)) as Hkeep.
  { intros A c v Hc Hv _. by rewrite Hc, Hv. }
  apply Hkeep; [|done]. leaves_alone.
Qed.

Lemma persist_created w : created w → persist (manager w) = true.
Proof.
  induction 1 as [t chunks c dir id parent w|t o w _ IH]; [|by rewrite (persist_perform t o)].
  destruct w as [m d]. unfold create, construct. rewrite bind_modify.
  match goal with |- context [newSession _ _ _ _ ?w] => destruct (newSession_cases t id parent w) as [-> | ->] end; [done|].
  cbn. by rewrite persist_fresh.
Qed.

Lemma created_earned w : created w → earned (manager w).
Proof.
  induction 1 as [t chunks c dir id parent w|t o w Hw IH].
  - destruct w as [m d]. unfold create, construct. rewrite bind_modify.
    match goal with |- context [newSession _ _ _ _ ?w] => destruct (newSession_cases t id parent w) as [-> | ->] end; [by intros [=]|].
    cbn. match goal with |- earned (fresh_session _ ?t ?i ?p ?m) => destruct (fresh_entries t i p m) as (_ & _ & _ & Hf & _) end.
    intros Ht. congruence.
  - pose proof (persist_created w Hw) as Hp.
    destruct o as [id parent|a|target label|from| |from summary details fromHook usage|leaf]; cbn [perform]; rewrite ?then_ret.
    + destruct (newSession_cases t id parent w) as [-> | ->]; [done|]. cbn.
      match goal with |- earned (fresh_session _ ?t ?i ?p ?m) => destruct (fresh_entries t i p m) as (_ & _ & _ & Hf & _) end.
      intros Ht. congruence.
    + unfold append. change (mbind (M:=smM) ?k (get ?f) w) with (k (f (manager w)) w). cbv beta zeta. rewrite then_ret.
      by apply earned_appendEntry.
    + unfold appendLabelChange. change (mbind (M:=smM) ?k (get ?f) w) with (k (f (manager w)) w). cbv beta zeta.
      destruct (map_has _ _); [|done]. match goal with |- context [appendEntry ?e] => pose proof (earned_appendEntry e w IH) as He end.
      unfold mbind, smM_bind. destruct (appendEntry _ w) as [w1 [[]|x]]; [|done]. cbn in *.
      match goal with |- context [set_label ?a ?b ?c ?m] => destruct (set_label_rest a b c m) as (ls & times & ->) end. exact He.
    + unfold branch. change (mbind (M:=smM) ?k (get ?f) w) with (k (f (manager w)) w). cbv beta zeta. by destruct (map_has _ _).
    + exact IH.
    + unfold branchWithSummary. change (mbind (M:=smM) ?k (get ?f) w) with (k (f (manager w)) w). cbv beta zeta.
      destruct (match from with Some id => _ | None => false end); [done|]. destruct w as [m d]. rewrite bind_modify, then_ret. by apply earned_appendEntry.
    + by apply earned_branched.
Qed.

(** C28: a session is in its file from the first response of the model on; and, when it was
    made and not opened from a file, not before.  Opening the file then gives the session
    back, whatever pieces it is read in: its id, its entries, their index and the labels,
    with the last entry as the leaf; and leaves the disk as it is. *)
Theorem session_reopened w t chunks file m :
  running w → (∀ s, concat (chunks s) = s) → sessionFile (manager w) = Some (resolvePath file) → persist m = true →
  (created w → flushed (manager w) = existsb is_assistant_entry (fileEntries (manager w))) ∧
  if flushed (manager w) then
    ∃ m', setSessionFile joinPath resolvePath t chunks file (MkWorld m (the_disk w)) = (MkWorld m' (the_disk w), Ok ())
      ∧ sessionId m' = sessionId (manager w) ∧ fileEntries m' = fileEntries (manager w)
      ∧ byId m' = byId (manager w) ∧ labelsById m' = labelsById (manager w)
      ∧ labelTimestampsById m' = labelTimestampsById (manager w) ∧ leafId m' = last_id (fileEntries (manager w))
  else files (the_disk w) !! resolvePath file = None ∧ existsb is_assistant_entry (fileEntries (manager w)) = false.
Proof.
  intros Hrun Hchunks Hfile Hp. destruct (running_kept w Hrun) as [[[Hplan Hplain Hkept] Hix (header & rest & Hes & Hh & Hid & Hv)] Hper].
  destruct (Hkept Hper) as (path & Hpath & Hne & Hstate). rewrite Hfile in Hpath. injection Hpath as <-.
  split. { intros Hc%created_earned. unfold earned in Hc. destruct (flushed (manager w)); [by rewrite Hc|by destruct Hstate as [_ ->]]. }
  destruct (flushed (manager w)); [|done]. destruct Hstate as (text & Htext & Hholds). rewrite Hes in Hholds.
  assert (Hload : load_text [text] = (header :: rest, false)).
  { eapply holds_load; [exact Hholds|done|]. unfold header_ok. rewrite Hh, Hid. by apply bool_decide_eq_true_2. }
  destruct (reopen_found t chunks file m (the_disk w) text header rest false Hchunks Hplan Hp Hne Htext Hload Hh (ex_intro _ _ Hid) Hv)
    as (m' & Heq & Hfe & Hsid & Hi & Hleaf).
  exists m'. cbn [line_end] in Heq. rewrite app_nil_r, insert_id in Heq by done. rewrite Hes, <- Hi in Hix.
  unfold index_of in Hix. injection Hix as -> -> ->. rewrite Hes, Hfe, Hleaf. split_and!; try done; [|congruence].
  rewrite Heq. destruct (the_disk w). cbn in Hplan. by subst.
Qed.

(** C14: once a session has been written to its file, an append that is cut off, by a fault or a crash in the middle of a write, loses no
    entry but its own: opening the file gives the entries before it, and the new one only if
    it was written whole; and leaves a file to which the next line can be appended. *)
Theorem torn_append_recovered w e n t chunks file m :
  running w → flushed (manager w) = true → plain e → is_header e = false → (∀ s, concat (chunks s) = s) →
  sessionFile (manager w) = Some (resolvePath file) → persist m = true →
  let torn := appendEntry e (w <| the_disk := (the_disk w) <| plan := [Faults n] |> |>) in
  let opened := setSessionFile joinPath resolvePath t chunks file (MkWorld m (the_disk torn.1)) in
  torn.2 = Err FileFault ∧ opened.2 = Ok () ∧ sessionId (manager opened.1) = sessionId (manager w)
  ∧ (fileEntries (manager opened.1) = fileEntries (manager w) ∨ fileEntries (manager opened.1) = fileEntries (manager w) ++ [e])
  ∧ ∃ text, files (the_disk opened.1) !! resolvePath file = Some text ∧ load_text [text] = (fileEntries (manager opened.1), false).
Proof.
  intros Hrun Hfl He Hhe Hchunks Hfile Hp. destruct (running_kept w Hrun) as [[[Hplan Hplain Hkept] Hix (header & rest & Hes & Hh & Hid & Hv)] Hper].
  destruct (Hkept Hper) as (path & Hpath & Hne & Hstate). rewrite Hfile in Hpath. injection Hpath as <-.
  rewrite Hfl in Hstate. destruct Hstate as (text & Htext & Hholds).
  assert (Htorn : ∃ m0, appendEntry e (w <| the_disk := (the_disk w) <| plan := [Faults n] |> |>)
    = (MkWorld m0 (MkDisk (<[resolvePath file := text ++ take n (entry_line e)]> (files (the_disk w))) []), Err FileFault)).
  { destruct w as [[i f dir c p fl es ix ls ts lf] [fs pl]]. cbn in Hfl, Hper, Hfile, Htext. subst fl p f.
    unfold appendEntry, persist_entry, mbind, smM_bind, modify, get, write. cbn.
    rewrite (bool_decide_eq_false_2 (resolvePath file = [])) by done. cbn.
    assert (Hw : append_text (resolvePath file) (entry_line e) (MkDisk fs [Faults n])
      = (MkDisk (<[resolvePath file := text ++ take n (entry_line e)]> fs) [], false)) by (unfold append_text; cbn; by rewrite Htext).
    destruct (existsb is_assistant_entry (es ++ [e])); cbn;
      (match goal with |- context [append_text _ _ ?d] => change d with (MkDisk fs [Faults n]) end; rewrite Hw; by eexists). }
  destruct Htorn as [m0 Htorn]. intros torn opened. subst opened torn. rewrite Htorn. cbn [fst snd the_disk].
  assert (Hok : header_ok header = true) by (unfold header_ok; rewrite Hh, Hid; by apply bool_decide_eq_true_2).
  destruct (holds_torn text (fileEntries (manager w)) e n Hholds He) as [missing Hload]; [by rewrite Hes|].
  assert (Hload' : ∃ rest', load_text [text ++ take n (entry_line e)] = (header :: rest', missing)
    ∧ (header :: rest' = fileEntries (manager w) ∨ header :: rest' = fileEntries (manager w) ++ [e])).
  { rewrite Hes in *. destruct Hload as [Hl|Hl]; rewrite Hl; eexists; split; [done|by left|done|by right]. }
  destruct Hload' as (rest' & Hl & Hcases).
  destruct (load_holds _ _ _ Hl) as [Hholds' _]; [done|].
  match goal with |- context [setSessionFile _ _ _ _ _ (MkWorld m ?d)] =>
    destruct (reopen_found t chunks file m d (text ++ take n (entry_line e)) header rest' missing Hchunks eq_refl Hp Hne
      (lookup_insert_eq _ _ _) Hl Hh (ex_intro _ _ Hid) Hv) as (m' & Heq & Hfe & Hsid & _) end.
  rewrite Heq. cbn [fst snd manager the_disk files]. split_and!; [done|done|congruence|by rewrite Hfe|].
  eexists. split; [by rewrite lookup_insert_eq|]. rewrite Hfe. by eapply holds_load.
Qed.
End Steps.

(** ** Examples *)

Definition join_slash (a b : jsstring) : jsstring := a ++ js "/" ++ b.
Definition at_moment (i : Z) : moment :=
  MkMoment (js "2026-01-01T00:00:00.000Z") (js "session" ++ [48 + i]) (λ n k, js "entry" ++ [48 + i; 48 + Z.of_nat n; 48 + Z.of_nat k]).
Definition message_of (role text : jsstring) : JsonValue :=
  JsonObject [(js "role", JsonString role); (js "content", JsonString text)].
Definition no_disk : disk := MkDisk ∅ [].
Definition no_manager : SessionManager := MkManager [] None [] [] true false [] [] [] [] Null.
Definition whole (s : jsstring) : list jsstring := [s].

Definition example_start : world :=
  (create join_slash id (at_moment 0) whole (js "/work") (js "/sessions") None None (MkWorld no_manager no_disk)).1.
Definition example_path : jsstring := js "/sessions/2026-01-01T00-00-00-000Z_session0.jsonl".
Definition example_run : list (moment * operation) :=
  [(at_moment 1, Append (AddMessage (message_of (js "user") (js "hello"))));
   (at_moment 2, Append (AddMessage (message_of (js "assistant") (js "hi"))));
   (at_moment 3, ChangeLabel (js "entry100") (Some (js "start")));
   (at_moment 4, Branch (js "entry100"));
   (at_moment 5, Append (AddMessage (message_of (js "user") (js "again"))))].
Definition example_world : world := perform_all join_slash example_run example_start.

Lemma example_start_running : running join_slash id example_start.
Proof. apply running_created; by vm_compute. Qed.

Lemma example_running : running join_slash id example_world.
Proof. apply (running_all join_slash id example_run example_start example_start_running). by vm_compute. Qed.

Lemma example_created : created join_slash id example_world.
Proof. unfold example_world, example_run. cbn [perform_all]. repeat apply created_perform. apply created_create. Qed.

Lemma session_reopened_witness :
  flushed (manager example_world) = existsb is_assistant_entry (fileEntries (manager example_world)) ∧
  ∃ m', setSessionFile join_slash id (at_moment 9) whole example_path (MkWorld no_manager (the_disk example_world))
        = (MkWorld m' (the_disk example_world), Ok ())
    ∧ length (fileEntries m') = 5%nat ∧ map_get (labelsById m') (Id (js "entry100")) = Some (JsonString (js "start")).
Proof.
  assert (Hfile : sessionFile (manager example_world) = Some example_path) by (vm_compute; reflexivity).
  pose proof (session_reopened join_slash id example_world (at_moment 9) whole example_path no_manager example_running
                (λ s, app_nil_r s) Hfile eq_refl) as Hr.
  assert (Hf : flushed (manager example_world) = true) by (vm_compute; reflexivity). rewrite Hf in Hr.
  destruct Hr as [Hearned (m' & Heq & _ & Hes & _ & Hlabels & _)].
  split; [rewrite Hf; exact (Hearned example_created)|]. exists m'. split; [exact Heq|]. rewrite Hes, Hlabels. split; vm_compute; reflexivity.
Defined.

(** Before the first response nothing is written; when the write that it causes is cut off,
    the part of a file that it leaves is in the way of every later append, and cannot be
    opened: the session is lost. *)
Definition cut_first_write : world :=
  let w := perform_all join_slash (take 1 example_run) example_start in
  let w := w <| the_disk := (the_disk w) <| plan := [NoFault; Faults 10] |> |> in
  perform_all join_slash (take 1 (drop 1 example_run)) w.

Example first_write_cut :
  flushed (manager cut_first_write) = false ∧ files (the_disk cut_first_write) !! example_path = Some ([123; 34] ++ js "type" ++ [34; 58; 34; 115])
  ∧ (append (at_moment 5) (AddMessage (message_of (js "user") (js "again"))) cut_first_write).2 = Err FileExists
  ∧ (setSessionFile join_slash id (at_moment 9) whole example_path (MkWorld no_manager (the_disk cut_first_write))).2 = Err InvalidSessionFile.
Proof. split_and!; vm_compute; reflexivity. Qed.

Definition example_entry : file_entry := new_entry (manager example_world) (at_moment 6) Null (js "custom") [] [].

Lemma torn_append_recovered_witness :
  let torn := appendEntry example_entry (example_world <| the_disk := (the_disk example_world) <| plan := [Faults 10] |> |>) in
  let opened := setSessionFile join_slash id (at_moment 9) whole example_path (MkWorld no_manager (the_disk torn.1)) in
  torn.2 = Err FileFault ∧ opened.2 = Ok () ∧ sessionId (manager opened.1) = sessionId (manager example_world)
  ∧ (fileEntries (manager opened.1) = fileEntries (manager example_world)
     ∨ fileEntries (manager opened.1) = fileEntries (manager example_world) ++ [example_entry])
  ∧ ∃ text, files (the_disk opened.1) !! example_path = Some text ∧ load_text [text] = (fileEntries (manager opened.1), false).
Proof.
  apply (torn_append_recovered join_slash id example_world example_entry 10 (at_moment 9) whole example_path no_manager example_running).
  - vm_compute. reflexivity.
  - split; [vm_compute; reflexivity|by eexists].
  - vm_compute. reflexivity.
  - intros s. apply app_nil_r.
  - vm_compute. reflexivity.
  - reflexivity.
Defined.
