(* ===== verification/SessionBranches.v ===== *)
(** * Sessions cut out of a path

    [createBranchedSession] of [packages/coding-agent/src/core/session-manager.ts] makes a
    session of the entries on the path to a leaf, without the label entries among them, and
    writes the labels anew at its end.  The new session has the context of the path. *)

From S2P Require Import Prelude JsNumber JsString JsMap SessionTypes JsonText SessionManager SessionManagerTheorems.

(** ** Walks *)

Definition entries_wf (index : jsmap jsid file_entry) : Prop := ∀ k e, map_get index k = Some e → entry_id e = k.

Lemma walk_none index fuel : walk_up index fuel None = Some [].
Proof. by destruct fuel. Qed.

Lemma walk_unique index f1 f2 cur l1 l2 : walk_up index f1 cur = Some l1 → walk_up index f2 cur = Some l2 → l1 = l2.
Proof.
  revert f2 cur l1 l2. induction f1 as [|f1 IH]; intros f2 cur l1 l2; (destruct cur as [e|]; [|rewrite !walk_none; congruence]); cbn; [done|].
  destruct f2 as [|f2]; cbn; [done|]. set (parent := if id_truthy _ then _ else _).
  destruct (walk_up index f1 parent) as [r1|] eqn:H1; [|done]. destruct (walk_up index f2 parent) as [r2|] eqn:H2; [|done].
  cbn. intros [= <-] [= <-]. f_equal. eauto.
Qed.

Lemma walk_suffix index fuel cur l1 x l2 :
  walk_up index fuel cur = Some (l1 ++ x :: l2) → ∃ fuel', walk_up index fuel' (Some x) = Some (x :: l2).
Proof.
  revert fuel cur. induction l1 as [|y l1 IH]; intros fuel cur Hw; (destruct cur as [e|]; [|by destruct fuel]);
    (destruct fuel as [|fuel]; [done|]); pose proof Hw as Hw'; cbn in Hw;
    set (parent := if id_truthy _ then _ else _) in *; destruct (walk_up index fuel parent) as [r|] eqn:Hr; try done;
    cbn in Hw; injection Hw as He Hrest.
  - subst. by exists (S fuel).
  - subst. by eapply IH.
Qed.

(** A walk that ends meets no entry twice. *)
Lemma walk_NoDup index fuel cur l : walk_up index fuel cur = Some l → NoDup l.
Proof.
  revert fuel cur. induction l as [|e l IH]; intros fuel cur Hw; [constructor|].
  destruct cur as [e'|]; [|by destruct fuel]. destruct fuel as [|fuel]; [done|]. pose proof Hw as Hw'. cbn in Hw'.
  set (parent := if id_truthy _ then _ else _) in *. destruct (walk_up index fuel parent) as [r|] eqn:Hr; [|done].
  cbn in Hw'. injection Hw' as <- <-. constructor; [|by eapply IH].
  intros Hin. apply list_elem_of_split in Hin as (l1 & l2 & ->). destruct (walk_suffix _ _ _ _ _ _ Hr) as [fuel' Hs].
  pose proof (walk_unique _ _ _ _ _ _ Hw Hs) as Heq. apply (f_equal length) in Heq. cbn in Heq. rewrite length_app in Heq. cbn in Heq. lia.
Qed.

(** Its entries are those that the index has under their ids. *)
Lemma walk_indexed index fuel cur l :
  entries_wf index → (∀ e, cur = Some e → map_get index (entry_id e) = Some e ∧ id_truthy (entry_id e) = true) →
  walk_up index fuel cur = Some l → Forall (λ e, map_get index (entry_id e) = Some e ∧ id_truthy (entry_id e) = true) l.
Proof.
  intros Hwf. revert cur l. induction fuel as [|fuel IH]; intros cur l Hcur Hw.
  - destruct cur; [done|]. by injection Hw as <-.
  - destruct cur as [e|]; [|by injection Hw as <-]. cbn in Hw. destruct (id_truthy (entry_parentId e)) eqn:Ht.
    + destruct (walk_up index fuel (map_get index (entry_parentId e))) as [r|] eqn:Hr; [|done]. injection Hw as <-.
      constructor; [by apply Hcur|]. eapply IH; [|exact Hr]. intros p Hp. pose proof (Hwf _ _ Hp) as Heq. by rewrite Heq.
    + destruct (walk_up index fuel None) as [r|] eqn:Hr; [|done]. injection Hw as <-.
      constructor; [by apply Hcur|]. eapply IH; [|exact Hr]. done.
Qed.

(** The paths that [getBranch] gives. *)
Record path_ok (path : list file_entry) : Prop := {
  path_ids : NoDup (entry_id <$> path);
  path_truthy : Forall (λ e, id_truthy (entry_id e) = true) path }.

Lemma path_to_ok index cur path :
  entries_wf index → (∀ e, cur = Some e → map_get index (entry_id e) = Some e ∧ id_truthy (entry_id e) = true) →
  path_to index cur = Some path → path_ok path.
Proof.
  intros Hwf Hcur Hp. unfold path_to in Hp. destruct (walk_up index _ cur) as [l|] eqn:Hw; [|done]. injection Hp as <-.
  pose proof (walk_indexed _ _ _ _ Hwf Hcur Hw) as Hix. rewrite Forall_forall in Hix. constructor.
  - rewrite reverse_Permutation. apply NoDup_fmap_2_strong; [|by eapply walk_NoDup].
    intros x y Hx Hy Heq. apply Hix in Hx as [Hx _]. apply Hix in Hy as [Hy _]. congruence.
  - apply Forall_forall. intros e He. rewrite elem_of_reverse in He. by destruct (Hix _ He).
Qed.

(** A list of entries each of which is the parent of the next. *)
Fixpoint chained (parent : jsid) (l : list file_entry) : Prop :=
  match l with [] => True | e :: l => entry_parentId e = parent ∧ chained (entry_id e) l end.

Definition end_id (parent : jsid) (l : list file_entry) : jsid := match last l with Some e => entry_id e | None => parent end.

Lemma end_id_cons parent e l : end_id parent (e :: l) = end_id (entry_id e) l.
Proof. unfold end_id. rewrite last_cons. by destruct (last l). Qed.

Lemma chained_app parent l1 l2 : chained parent (l1 ++ l2) ↔ chained parent l1 ∧ chained (end_id parent l1) l2.
Proof.
  revert parent. induction l1 as [|e l1 IH]; intros parent; cbn [app chained]; [unfold end_id; cbn; tauto|].
  rewrite IH, end_id_cons. tauto.
Qed.

Lemma walk_chain index parent l fuel :
  Forall (λ e, map_get index (entry_id e) = Some e ∧ id_truthy (entry_id e) = true) l → chained parent l →
  id_truthy parent = false → (length l ≤ fuel)%nat → walk_up index fuel (last l) = Some (reverse l).
Proof.
  intros Hl Hc Hp. revert fuel. induction l as [|e l IH] using rev_ind; intros fuel Hf; [by destruct fuel|].
  apply Forall_app in Hl as [Hl _]. apply chained_app in Hc as [Hc [He _]]. rewrite length_app in Hf. cbn in Hf.
  destruct fuel as [|fuel]; [lia|]. rewrite last_snoc, reverse_snoc. cbn. rewrite He.
  specialize (IH Hl Hc fuel ltac:(lia)). unfold end_id. destruct (last l) as [x|] eqn:Hlast.
  - apply last_Some in Hlast as [l' ->]. apply Forall_app in Hl as [_ [[Hget Ht] _]%Forall_cons]. rewrite Ht, Hget, IH. done.
  - rewrite Hp. apply last_None in Hlast as ->. by destruct fuel.
Qed.

(** ** What the context reads *)

(** Entries that differ in their parents only. *)
Definition alike (e e' : file_entry) : Prop := ∀ key, key ≠ js "parentId" → prop e' key = prop e key.

Section Alike.
Context (e e' : file_entry) (Ha : alike e e').

Lemma alike_type t : has_type t e' = has_type t e.
Proof. unfold has_type, string_prop. by rewrite Ha. Qed.
Lemma alike_id : entry_id e' = entry_id e.
Proof. unfold entry_id. by rewrite Ha. Qed.
Lemma alike_message : entry_message e' = entry_message e.
Proof. unfold entry_message. by rewrite Ha. Qed.
Lemma alike_assistant : is_assistant_entry e' = is_assistant_entry e.
Proof. unfold is_assistant_entry. by rewrite alike_type, alike_message. Qed.
Lemma alike_messages : sessionEntryToContextMessages e' = sessionEntryToContextMessages e.
Proof.
  unfold sessionEntryToContextMessages. rewrite !alike_type, alike_message, !Ha by done. done.
Qed.
Lemma alike_settings acc : settings_step acc e' = settings_step acc e.
Proof.
  unfold settings_step. destruct acc as [level model]. rewrite !alike_type, alike_assistant, alike_message, !Ha by done. done.
Qed.
End Alike.

Lemma alike_list_settings l l' acc : Forall2 alike l l' → foldl settings_step acc l' = foldl settings_step acc l.
Proof. intros Hl. revert acc. induction Hl as [|e e' l l' Ha Hl IH]; intros acc; cbn; [done|]. by rewrite (alike_settings e e' Ha), IH. Qed.

Lemma alike_list_messages l l' : Forall2 alike l l' → l' ≫= sessionEntryToContextMessages = l ≫= sessionEntryToContextMessages.
Proof. induction 1 as [|e e' l l' Ha Hl IH]; cbn; [done|]. by rewrite (alike_messages e e' Ha), IH. Qed.

(** ** The context of a path, in parts *)

Definition firstKept (compaction : file_entry) : jsid := id_of (prop compaction (js "firstKeptEntryId")).

Definition kept_from (k : jsid) (before : list file_entry) : list file_entry :=
  match list_find (λ e, same_id (entry_id e) k = true) before with Some (i, _) => drop i before | None => [] end.

Definition no_compaction (l : list file_entry) : Prop := Forall (λ e, is_compaction e = false) l.

(** Every path has no compaction, or a last one. *)
Lemma compaction_split l : no_compaction l ∨ ∃ a c b, l = a ++ c :: b ∧ is_compaction c = true ∧ no_compaction b.
Proof.
  induction l as [|e l IH]; [by left; constructor|]. destruct IH as [Hl|(a & c & b & -> & Hc & Hb)].
  - destruct (is_compaction e) eqn:He; [right; by exists [], e, l|left; by constructor].
  - right. by exists (e :: a), c, b.
Qed.

Lemma no_compaction_latest l : no_compaction l → filter (λ e, is_compaction e = true) l = [].
Proof.
  induction 1 as [|e l He Hl IH]; [done|]. by rewrite filter_cons_False by congruence.
Qed.

Lemma context_plain l : no_compaction l → context_of_path l = l.
Proof. intros Hl. unfold context_of_path, getLatestCompactionEntry. by rewrite no_compaction_latest. Qed.

Lemma find_fresh k l : k ∉ entry_id <$> l → list_find (λ e, same_id (entry_id e) k = true) l = None.
Proof.
  intros Hk. apply list_find_None, Forall_forall. intros e He Heq. apply bool_decide_eq_true in Heq. apply Hk.
  apply list_elem_of_fmap. by exists e.
Qed.

Lemma find_here k a e b :
  k ∉ entry_id <$> a → entry_id e = k → list_find (λ e, same_id (entry_id e) k = true) (a ++ e :: b) = Some (length a, e).
Proof.
  intros Hk He. rewrite list_find_app_r by by apply find_fresh. cbn [list_find]. rewrite decide_True by (by apply bool_decide_eq_true). cbn. by rewrite ?Nat.add_0_r.
Qed.

Lemma context_split a c b :
  is_compaction c = true → no_compaction b → entry_id c ∉ entry_id <$> a →
  context_of_path (a ++ c :: b) = c :: kept_from (firstKept c) a ++ b.
Proof.
  intros Hc Hb Hid. unfold context_of_path, getLatestCompactionEntry.
  rewrite filter_app, (filter_cons_True _ c b), (no_compaction_latest b), last_snoc by done. rewrite (find_here _ a c b Hid eq_refl).
  rewrite take_app_length, (cons_middle c a b), (app_assoc a [c] b). replace (S (length a)) with (length (a ++ [c])) by (rewrite length_app; cbn; lia).
  by rewrite drop_app_length.
Qed.

(** What is kept, in parts. *)
Lemma kept_from_split k a : kept_from k a = [] ∨ ∃ a1 e a2, a = a1 ++ e :: a2 ∧ entry_id e = k ∧ kept_from k a = e :: a2 ∧ k ∉ entry_id <$> a1.
Proof.
  unfold kept_from. destruct (list_find _ a) as [[i e]|] eqn:Hf; [right|by left].
  apply list_find_Some in Hf as (Hi & He%bool_decide_eq_true & Hbefore). exists (take i a), e, (drop (S i) a).
  rewrite (drop_S a e i Hi). split_and!; [by rewrite <- (drop_S a e i Hi), take_drop|done|done|].
  intros Hin. apply list_elem_of_fmap in Hin as (x & Hx & Hxin). apply list_elem_of_lookup in Hxin as [j Hj].
  apply lookup_take_Some in Hj as [Hj Hlt]. apply (Hbefore j x Hj Hlt). by apply bool_decide_eq_true.
Qed.

Lemma kept_from_here k a1 e a2 : k ∉ entry_id <$> a1 → entry_id e = k → kept_from k (a1 ++ e :: a2) = e :: a2.
Proof. intros Hk He. unfold kept_from. rewrite (find_here k a1 e a2) by done. by rewrite drop_app_length. Qed.

Lemma kept_from_absent k a : k ∉ entry_id <$> a → kept_from k a = [].
Proof. intros Hk. unfold kept_from. by rewrite find_fresh. Qed.

Lemma kept_from_nil k a : kept_from k a = [] → k ∉ entry_id <$> a.
Proof.
  intros Hn Hin. apply list_elem_of_fmap in Hin as (x & -> & Hx). apply list_elem_of_split in Hx as (a1 & a2 & ->).
  destruct (decide (entry_id x ∈ entry_id <$> a1)) as [Hin|Hnot].
  - unfold kept_from in Hn. destruct (list_find _ _) as [[i e]|] eqn:Hf.
    + apply list_find_Some in Hf as (Hi & _ & _). apply lookup_lt_Some in Hi. apply (f_equal length) in Hn. rewrite length_drop in Hn.
      cbn in Hn. lia.
    + apply list_find_None in Hf. rewrite Forall_forall in Hf. apply (Hf x); [|by apply bool_decide_eq_true]. apply elem_of_app. right. left.
  - by rewrite (kept_from_here _ a1 x a2 Hnot eq_refl) in Hn.
Qed.

(** *** What changes the path and keeps the context *)

Lemma alike_ids l l' : Forall2 alike l l' → entry_id <$> l' = entry_id <$> l.
Proof. induction 1 as [|e e' l l' Ha Hl IH]; cbn; [done|]. by rewrite (alike_id e e' Ha), IH. Qed.

Lemma alike_no_compaction l l' : Forall2 alike l l' → no_compaction l → no_compaction l'.
Proof.
  induction 1 as [|e e' l l' Ha Hl IH]; [done|]. intros [He Hn]%Forall_cons. constructor; [|by apply IH].
  unfold is_compaction in *. by rewrite (alike_type e e' Ha).
Qed.

Lemma alike_kept_from k l l' : Forall2 alike l l' → Forall2 alike (kept_from k l) (kept_from k l').
Proof.
  intros Hl. pose proof (alike_ids l l' Hl) as Hids. destruct (kept_from_split k l) as [Hn|(a1 & e & a2 & -> & He & -> & Hk)].
  - rewrite Hn. apply kept_from_nil in Hn. rewrite kept_from_absent by (by rewrite Hids). constructor.
  - apply Forall2_app_inv_l in Hl as (b1 & l2 & Hb1 & Hl2 & ->). apply Forall2_cons_inv_l in Hl2 as (e' & b2 & He' & Hb2 & ->).
    rewrite (kept_from_here k b1 e' b2); [by constructor|by rewrite (alike_ids a1 b1 Hb1)|by rewrite (alike_id e e' He')].
Qed.

Lemma ids_before a c b : NoDup (entry_id <$> (a ++ c :: b)) → entry_id c ∉ entry_id <$> a.
Proof.
  rewrite fmap_app, fmap_cons. intros Hnd Hin. apply NoDup_app in Hnd as (_ & Hd & _). apply (Hd _ Hin). left.
Qed.

Lemma context_alike l l' : Forall2 alike l l' → NoDup (entry_id <$> l) → Forall2 alike (context_of_path l) (context_of_path l').
Proof.
  intros Hl Hnd. destruct (compaction_split l) as [Hn|(a & c & b & -> & Hc & Hb)].
  - rewrite !context_plain by (done || by eapply alike_no_compaction). done.
  - apply ids_before in Hnd. apply Forall2_app_inv_l in Hl as (a' & l2 & Ha & Hl2 & ->).
    apply Forall2_cons_inv_l in Hl2 as (c' & b' & Hcc & Hbb & ->).
    rewrite !context_split; try done.
    + assert (firstKept c' = firstKept c) as -> by (unfold firstKept; by rewrite Hcc).
      constructor; [done|]. apply Forall2_app; [by apply alike_kept_from|done].
    + unfold is_compaction in *. by rewrite (alike_type c c' Hcc).
    + by eapply alike_no_compaction.
    + by rewrite (alike_ids a a' Ha), (alike_id c c' Hcc).
Qed.

Lemma label_no_compaction l : Forall (λ e, is_label e = true) l → no_compaction l.
Proof.
  intros Hl. apply (Forall_impl _ _ _ Hl). intros e. unfold is_label, is_compaction, has_type. intros He%bool_decide_eq_true. by rewrite He.
Qed.

Lemma context_labels l ls :
  Forall (λ e, is_label e = true) ls → NoDup (entry_id <$> l) → context_of_path (l ++ ls) = context_of_path l ++ ls.
Proof.
  intros Hls%label_no_compaction Hnd. destruct (compaction_split l) as [Hn|(a & c & b & -> & Hc & Hb)].
  - rewrite !context_plain; [done|done|by apply Forall_app].
  - apply ids_before in Hnd. rewrite <- app_assoc. cbn. rewrite !context_split; try done; [|by apply Forall_app].
    cbn. by rewrite <- app_assoc.
Qed.

Definition without_labels (l : list file_entry) : list file_entry := filter (λ e, is_label e = false) l.

Lemma without_labels_ids k l : k ∈ entry_id <$> without_labels l → k ∈ entry_id <$> l.
Proof.
  intros Hin. apply list_elem_of_fmap in Hin as (e & -> & He). apply list_elem_of_filter in He as [_ He].
  apply list_elem_of_fmap. by exists e.
Qed.

Lemma without_labels_kept k a :
  (∀ e, e ∈ a → is_label e = true → entry_id e ≠ k) → kept_from k (without_labels a) = without_labels (kept_from k a).
Proof.
  intros Hk. destruct (kept_from_split k a) as [Hn|(a1 & e & a2 & -> & He & -> & Ha1)].
  - rewrite Hn. rewrite kept_from_absent; [done|]. intros Hin. by apply (kept_from_nil k a Hn), without_labels_ids.
  - assert (Hl : is_label e = false).
    { destruct (is_label e) eqn:Hl; [|done]. exfalso. apply (Hk e); [apply elem_of_app; right; left|done|done]. }
    unfold without_labels. rewrite filter_app, (filter_cons_True _ e a2) by done. apply kept_from_here; [|done].
    intros Hin. by apply Ha1, without_labels_ids.
Qed.

(** Taking the labels out keeps the context, as long as no compaction begins what it keeps
    at one of them. *)
Definition labels_unused (l : list file_entry) : Prop :=
  ∀ c e, c ∈ l → is_compaction c = true → e ∈ l → is_label e = true → entry_id e ≠ firstKept c.

Lemma context_without_labels l :
  NoDup (entry_id <$> l) → labels_unused l → context_of_path (without_labels l) = without_labels (context_of_path l).
Proof.
  intros Hnd Hun. assert (Hno : ∀ x, no_compaction x → no_compaction (without_labels x)).
  { intros x Hx. unfold no_compaction in *. rewrite Forall_forall in *. intros e He. apply list_elem_of_filter in He as [_ He]. auto. }
  destruct (compaction_split l) as [Hn|(a & c & b & -> & Hc & Hb)]; [by rewrite !context_plain by auto|].
  apply ids_before in Hnd. rewrite (context_split a c b) by done.
  assert (Hl : is_label c = false).
  { unfold is_label, is_compaction, has_type in *. apply bool_decide_eq_true in Hc. by rewrite Hc. }
  unfold without_labels. rewrite filter_app, !(filter_cons_True _ c), filter_app by done.
  rewrite context_split; [|done|by apply Hno|by intros ?%without_labels_ids].
  f_equal. f_equal. apply without_labels_kept. intros e He Hle. apply (Hun c e); [apply elem_of_app; right; left|done|apply elem_of_app; by left|done].
Qed.

Lemma labels_silent l : without_labels l ≫= sessionEntryToContextMessages = l ≫= sessionEntryToContextMessages.
Proof.
  induction l as [|e l IH]; [done|]. unfold without_labels in *. destruct (is_label e) eqn:He.
  - rewrite filter_cons_False by congruence. rewrite IH. cbn [mbind list_bind].
    assert (sessionEntryToContextMessages e = []) as ->; [|done].
    unfold is_label, has_type in He. apply bool_decide_eq_true in He. unfold sessionEntryToContextMessages, has_type. by rewrite He.
  - rewrite filter_cons_True by done. cbn [mbind list_bind]. by rewrite IH.
Qed.

Lemma labels_no_settings l acc : foldl settings_step acc (without_labels l) = foldl settings_step acc l.
Proof.
  revert acc. induction l as [|e l IH]; intros acc; [done|]. unfold without_labels in *. destruct (is_label e) eqn:He.
  - rewrite filter_cons_False by congruence. rewrite IH. cbn [foldl].
    assert (settings_step acc e = acc) as ->; [|done]. unfold is_label, has_type in He. apply bool_decide_eq_true in He.
    unfold settings_step, is_assistant_entry, has_type. rewrite He. by destruct acc.
  - rewrite filter_cons_True by done. cbn [foldl]. by rewrite IH.
Qed.

(** A path that is chained anew without its labels, with labels at its end, has the same
    context. *)
Lemma context_rechained l l' ls :
  NoDup (entry_id <$> l) → labels_unused l → Forall2 alike (without_labels l) l' → Forall (λ e, is_label e = true) ls →
  context_for (l' ++ ls) = context_for l.
Proof.
  intros Hnd Hun Ha Hls.
  assert (Hnd' : NoDup (entry_id <$> without_labels l)).
  { apply (NoDup_fmap_2_strong entry_id); [|by apply NoDup_filter, (NoDup_fmap_1 entry_id)].
    intros x y Hx Hy Heq. apply list_elem_of_filter in Hx as [_ Hx], Hy as [_ Hy].
    apply list_elem_of_lookup in Hx as [i Hi], Hy as [j Hj].
    assert (i = j) as ->; [|congruence]. eapply (NoDup_lookup _ i j (entry_id x) Hnd); rewrite list_lookup_fmap; [by rewrite Hi|by rewrite Hj, Heq]. }
  assert (Hempty : without_labels ls = []).
  { unfold without_labels. clear -Hls. induction Hls as [|e ls He Hls IH]; [done|]. rewrite filter_cons_False by congruence. done. }
  assert (Hset : getSessionContextSettings (l' ++ ls) = getSessionContextSettings l).
  { unfold getSessionContextSettings. rewrite foldl_app, (alike_list_settings _ _ _ Ha), labels_no_settings.
    rewrite <- (labels_no_settings ls), Hempty. done. }
  unfold context_for. rewrite Hset. destruct (getSessionContextSettings l) as [level model]. f_equal.
  rewrite context_labels by (done || by rewrite (alike_ids _ _ Ha)). rewrite bind_app, <- (labels_silent ls), Hempty. cbn. rewrite app_nil_r.
  rewrite (alike_list_messages _ _ (context_alike _ _ Ha Hnd')), context_without_labels by done. apply labels_silent.
Qed.

(** ** The new session *)

Lemma index_values es k e : map_get (index_entries es).1.1 k = Some e → entry_id e = k ∧ is_header e = false.
Proof.
  induction es as [|x es IH] using rev_ind; [done|]. rewrite index_entries_snoc. unfold index_step. destruct (is_header x) eqn:Hx; [done|].
  destruct (index_entries es) as [[ids labels] times]. cbn in IH.
  destruct (if has_type (js "label") x then _ else _) as [labels' times']. cbn. rewrite map_get_set. case_decide; [|done]. by intros [= <-].
Qed.

Lemma index_of_list header l :
  is_header header = true → Forall (λ e, is_header e = false) l → NoDup (entry_id <$> l) →
  (index_entries (header :: l)).1.1 = (λ e, (entry_id e, e)) <$> l.
Proof.
  intros Hh. induction l as [|x l IH] using rev_ind; intros Hl Hnd; [unfold index_entries; cbn [foldl]; unfold index_step; by rewrite Hh|].
  apply Forall_app in Hl as [Hl [Hx _]%Forall_cons]. rewrite fmap_app in Hnd. apply NoDup_app in Hnd as (Hnd & Hfresh & _).
  specialize (IH Hl Hnd). rewrite app_comm_cons, index_entries_snoc. unfold index_step. rewrite Hx.
  destruct (index_entries (header :: l)) as [[ids labels] times]. cbn in IH. subst ids.
  destruct (if has_type (js "label") x then _ else _) as [labels' times']. cbn. rewrite map_set_fresh, fmap_app; [done|].
  apply map_get_None. unfold map_keys. rewrite <- list_fmap_compose. intros Hin. apply (Hfresh (entry_id x)); [exact Hin|left].
Qed.

(** The walk over a session whose entries are a chain gives them all. *)
Lemma chain_path header l :
  is_header header = true → Forall (λ e, is_header e = false) l → NoDup (entry_id <$> l) →
  Forall (λ e, id_truthy (entry_id e) = true) l → chained Null l →
  buildSessionPath l (last_id (header :: l)) (index_entries (header :: l)).1.1 = Some l.
Proof.
  intros Hh Hl Hnd Ht Hc. rewrite index_of_list by done. unfold last_id. rewrite filter_cons_False by congruence.
  assert (filter (λ e, is_header e = false) l = l) as ->.
  { clear -Hl. induction Hl as [|e l He Hl IH]; [done|]. by rewrite filter_cons_True, IH. }
  set (index := (λ e, (entry_id e, e)) <$> l).
  assert (Hget : Forall (λ e, map_get index (entry_id e) = Some e ∧ id_truthy (entry_id e) = true) l).
  { rewrite Forall_forall in Ht |- *. intros e He. split; [|by auto]. apply elem_map_get.
    - unfold map_wf, map_keys, index. by rewrite <- list_fmap_compose.
    - apply list_elem_of_fmap. by exists e. }
  assert (Hw : path_to index (last l) = Some l).
  { unfold path_to. rewrite (walk_chain index Null l) by (done || unfold index; rewrite length_fmap; lia). cbn. by rewrite reverse_involutive. }
  unfold buildSessionPath. destruct (last l) as [e|] eqn:Hlast; [|by apply last_None in Hlast as ->].
  rewrite Forall_forall in Hget. destruct (Hget e) as [Hg Hte]; [by apply last_Some_elem_of|]. rewrite Hte, Hg.
  by destruct (entry_id e).
Qed.

Lemma object_of_id e : id_truthy (entry_id e) = true → ∃ props, e = JsonObject props.
Proof. unfold entry_id. destruct e; try done. by eexists. Qed.

Lemma truthy_id i : id_truthy i = true → ∃ s, i = Id s.
Proof. destruct i; try done. by eexists. Qed.

Lemma with_parent_alike v e : alike e (with_prop (js "parentId") v e).
Proof. intros key Hkey. by apply prop_with_prop. Qed.

Lemma rechain_alike parent path : Forall2 alike (without_labels path) (rechain parent path).
Proof.
  revert parent. induction path as [|e path IH]; intros parent; [constructor|]. unfold without_labels in *. cbn [rechain].
  destruct (is_label e) eqn:He; [rewrite filter_cons_False by congruence; apply IH|]. rewrite filter_cons_True by done.
  constructor; [apply with_parent_alike|apply IH].
Qed.

Lemma with_parent_id parent e :
  parent ≠ Undefined → id_truthy (entry_id e) = true → entry_parentId (with_prop (js "parentId") (default JsonNull (json_of_id parent)) e) = parent.
Proof.
  intros Hp He. destruct (object_of_id e He) as [props ->]. unfold entry_parentId. rewrite prop_with_prop_eq. by destruct parent.
Qed.

Lemma rechain_chained parent path :
  parent ≠ Undefined → Forall (λ e, id_truthy (entry_id e) = true) path → chained parent (rechain parent path).
Proof.
  intros Hp Ht. revert parent Hp. induction Ht as [|e path He Ht IH]; intros parent Hp; cbn [rechain]; [done|].
  destruct (is_label e); [by apply IH|]. cbn [chained]. split; [by apply with_parent_id|].
  rewrite (alike_id _ _ (with_parent_alike _ e)). apply IH. by destruct (truthy_id _ He) as [s ->].
Qed.

Lemma label_entries_ok t n ids parent labels :
  parent ≠ Undefined → chained parent (label_entries t n ids parent labels)
  ∧ Forall (λ e, is_label e = true) (label_entries t n ids parent labels).
Proof.
  revert n ids parent. induction labels as [|[[target label] timestamp] labels IH]; intros n ids parent Hp; cbn [label_entries]; [by repeat constructor|].
  destruct (IH (S n) (ids ++ [Id (generateId (λ s, bool_decide (Id s ∈ ids)) (randomUUID t n))])
              (Id (generateId (λ s, bool_decide (Id s ∈ ids)) (randomUUID t n)))) as [Hc Hl]; [done|].
  set (id := generateId _ _) in *. clearbody id. split; [|constructor; [|done]].
  - cbn [chained]. split; [by destruct parent|]. replace (entry_id _) with (Id id); [done|]. by destruct parent.
  - done.
Qed.

Lemma filter_keeps {A} (P : A → Prop) `{∀ x, Decision (P x)} l : Forall P l → filter P l = l.
Proof. induction 1 as [|x l Hx Hl IH]; [done|]. by rewrite filter_cons_True, IH. Qed.

(** The entries of the new session. *)
Lemma branched_chain t m header path :
  path_ok path → Forall (λ e, is_header e = false) path →
  ∃ l ls, branched_entries t m header path = header :: l ++ ls
    ∧ Forall2 alike (without_labels path) l ∧ Forall (λ e, is_label e = true) ls ∧ Forall (λ e, is_header e = false) (l ++ ls)
    ∧ (Forall (λ e, id_truthy (entry_id e) = true) l → chained Null (l ++ ls)).
Proof.
  intros [Hids Htruthy] Hheaders. pose proof (rechain_alike Null path) as Halike. pose proof (rechain_chained Null path ltac:(done) Htruthy) as Hchain.
  unfold branched_entries. cbv zeta. set (l := rechain Null path) in *. set (lastId := match last l with Some e => _ | None => Null end).
  destruct (label_entries_ok t 0 (entry_id <$> l) lastId (labels_of_path m (entry_id <$> l))) as [Hlc Hll].
  { unfold lastId. destruct (last l) as [x|]; [|done]. destruct (id_truthy (entry_id x)) eqn:Hx; [|done]. by destruct (truthy_id _ Hx) as [s ->]. }
  eexists l, _. split_and!; [done..| |].
  - apply Forall_app. split.
    + assert (Hwo : Forall (λ e, is_header e = false) (without_labels path)).
      { rewrite Forall_forall in Hheaders |- *. intros x [_ Hx]%list_elem_of_filter. auto. }
      clear -Hwo Halike. induction Halike as [|x y l0 l' Hxy Hl IH]; [done|]. apply Forall_cons in Hwo as [Hx Hwo].
      constructor; [|by apply IH]. unfold is_header in *. by rewrite (alike_type x y Hxy).
    + apply (Forall_impl _ _ _ Hll). intros x. unfold is_label, is_header, has_type. intros Hx%bool_decide_eq_true. by rewrite Hx.
  - intros Ht. apply chained_app. split; [done|]. replace (end_id Null l) with lastId; [done|].
    unfold lastId, end_id. destruct (last l) as [x|] eqn:Hx; [|done]. rewrite Forall_forall in Ht. by rewrite (Ht x) by by apply last_Some_elem_of.
Qed.

Section Branched.
Context (joinPath : jsstring → jsstring → jsstring) (resolvePath : jsstring → jsstring).

(** What of the manager a session is read from. *)
Definition content_of (m : SessionManager) : list file_entry * jsmap jsid file_entry * jsid := (fileEntries m, byId m, leafId m).

Lemma branched_content t leaf w path :
  getBranch (manager w) (Some leaf) = Some path → path ≠ [] →
  ∃ header, is_header header = true
    ∧ let es := branched_entries t (manager w) header path in
      content_of (manager (createBranchedSession joinPath t leaf w).1) = (es, (index_entries es).1.1, last_id es).
Proof.
  intros Hpath Hne. set (header := make_header (uuidv7 t) (now t) (cwd (manager w)) (if persist (manager w) then sessionFile (manager w) else None)).
  exists header. split; [by apply make_header_ok|]. cbv zeta. set (es := branched_entries t (manager w) header path).
  unfold createBranchedSession. change (mbind (M:=smM) ?k (get id) w) with (k (manager w) w). cbv beta. rewrite Hpath.
  destruct path as [|e path]; [done|]. cbv zeta. fold header. fold es. clearbody es.
  assert (Hbuild : ∀ m, fileEntries m = es → content_of (buildIndex m) = (es, (index_entries es).1.1, last_id es)).
  { intros m Hm. unfold content_of. destruct (buildIndex_rest m) as (_ & _ & _ & _ & -> & _). rewrite buildIndex_leaf, Hm.
    pose proof (buildIndex_index m) as Hix. rewrite Hm in Hix. by rewrite <- Hix. }
  destruct w as [m d]. rewrite bind_modify. cbn [manager]. destruct (persist m); rewrite bind_modify.
  - match goal with |- content_of (manager (?c ?w0).1) = _ => assert (Hsame : same content_of c); [|rewrite (Hsame w0); by apply Hbuild] end.
    clear. pose proof (same_rewriteFile content_of) as Hr.
    case_match; repeat (apply same_bind; [first [exact Hr|by apply same_modify]|intros ?]); apply same_ret.
  - by apply Hbuild.
Qed.

(** What [getBranch] gives in a session that is indexed by its entries. *)
Lemma branch_path m leaf path :
  index_of m = index_entries (fileEntries m) → getBranch m (Some leaf) = Some path → path ≠ [] →
  path_ok path ∧ Forall (λ e, is_header e = false) path ∧ buildSessionPath (getEntries m) (Id leaf) (byId m) = Some path.
Proof.
  intros Hix Hpath Hne.
  assert (Hwf : ∀ k e, map_get (byId m) k = Some e → entry_id e = k ∧ is_header e = false).
  { intros k e. change (byId m) with (index_of m).1.1. rewrite Hix. apply index_values. }
  unfold getBranch in Hpath. destruct (id_truthy (Id leaf)) eqn:Htl; [|by injection Hpath as <-].
  destruct (map_get (byId m) (Id leaf)) as [e|] eqn:He; [|by injection Hpath as <-].
  assert (Hcur : ∀ e', Some e = Some e' → map_get (byId m) (entry_id e') = Some e' ∧ id_truthy (entry_id e') = true).
  { intros e' [= <-]. by destruct (Hwf _ _ He) as [-> _]. }
  split_and!; [exact (path_to_ok _ _ _ (λ k e' H, proj1 (Hwf k e' H)) Hcur Hpath)| |unfold buildSessionPath; by rewrite Htl, He].
  unfold path_to in Hpath. destruct (walk_up _ _ _) as [l|] eqn:Hw; [|done]. injection Hpath as <-.
  pose proof (walk_indexed _ _ _ _ (λ k e' H, proj1 (Hwf k e' H)) Hcur Hw) as Hl. apply Forall_forall. intros x Hx.
  rewrite elem_of_reverse in Hx. rewrite Forall_forall in Hl. by destruct (Hl x Hx) as [[_ ?]%Hwf _].
Qed.

(** C11: cutting a session out of a path keeps what the model is shown: the messages of the
    context, the thinking level and the model are those of the path, whatever compactions and
    labels are on it, if no compaction begins what it keeps at a label and the ids of the new
    session are distinct. *)
Theorem branched_session_context w t leaf path :
  running joinPath resolvePath w → getBranch (manager w) (Some leaf) = Some path → path ≠ [] → labels_unused path →
  let w' := (createBranchedSession joinPath t leaf w).1 in
  NoDup (entry_id <$> getEntries (manager w')) → Forall (λ e, id_truthy (entry_id e) = true) (getEntries (manager w')) →
  ∃ context, manager_context (manager w') = Some context
    ∧ buildSessionContext (getEntries (manager w)) (Id leaf) (byId (manager w)) = Some context.
Proof.
  intros Hrun Hpath Hne Hun w' Hnd Ht. destruct (running_kept _ _ w Hrun) as [[_ Hix _] _].
  destruct (branch_path _ _ _ Hix Hpath Hne) as (Hok & Hheaders & Hold). exists (context_for path).
  split; [|unfold buildSessionContext; by rewrite Hold].
  destruct (branched_content t leaf w path Hpath Hne) as (header & Hh & Hcontent). fold w' in Hcontent. cbv zeta in Hcontent.
  unfold content_of in Hcontent. injection Hcontent as Hes Hby Hleaf.
  destruct (branched_chain t (manager w) header path Hok Hheaders) as (l & ls & Heq & Halike & Hls & Hl & Hchain). rewrite Heq in Hes, Hby, Hleaf.
  assert (Hget : getEntries (manager w') = l ++ ls).
  { unfold getEntries. rewrite Hes, filter_cons_False by congruence. by apply filter_keeps. }
  rewrite Hget in Hnd, Ht. unfold manager_context, buildSessionContext. rewrite Hget, Hby, Hleaf.
  rewrite (chain_path header (l ++ ls)); [|done..|].
  - cbn. f_equal. apply context_rechained; [by destruct Hok|done..].
  - apply Hchain. by apply Forall_app in Ht as [Ht _].
Qed.
End Branched.

(** ** Examples *)

(** A run with a compaction that keeps what begins at [first]. *)
Definition compacted_run (first : jsstring) : list (moment * operation) :=
  [(at_moment 1, Append (AddMessage (message_of (js "user") (js "hello"))));
   (at_moment 2, Append (AddMessage (message_of (js "assistant") (js "hi"))));
   (at_moment 3, ChangeLabel (js "entry100") (Some (js "start")));
   (at_moment 4, Append (AddMessage (message_of (js "user") (js "again"))));
   (at_moment 5, Append (AddMessage (message_of (js "assistant") (js "yes"))));
   (at_moment 6, Append (AddCompaction (js "greetings") first (JsonNumber (of_Z 9)) None None None));
   (at_moment 7, Append (AddMessage (message_of (js "user") (js "more"))))].
Definition compacted (first : jsstring) : world := perform_all join_slash (compacted_run first) example_start.
Definition cut (first : jsstring) : world := (createBranchedSession join_slash (at_moment 8) (js "entry700") (compacted first)).1.

Lemma compacted_running first : run_ok join_slash (compacted_run first) example_start = true → running join_slash id (compacted first).
Proof. exact (running_all join_slash id (compacted_run first) example_start example_start_running). Qed.

Definition example_branch : list file_entry := default [] (getBranch (manager (compacted (js "entry400"))) (Some (js "entry700"))).

Lemma branched_session_context_witness :
  ∃ context, manager_context (manager (cut (js "entry400"))) = Some context
    ∧ buildSessionContext (getEntries (manager (compacted (js "entry400")))) (Id (js "entry700")) (byId (manager (compacted (js "entry400"))))
      = Some context.
Proof.
  apply (branched_session_context join_slash id (compacted (js "entry400")) (at_moment 8) (js "entry700") example_branch).
  - apply compacted_running. vm_compute. reflexivity.
  - vm_compute. reflexivity.
  - vm_compute. discriminate.
  - intros c e Hc Hcc He Hel Heq.
    assert (Hall : forallb (λ c, forallb (λ e, negb (is_compaction c && is_label e && bool_decide (entry_id e = firstKept c))) example_branch)
              example_branch = true) by (vm_compute; reflexivity).
    rewrite forallb_forall in Hall. specialize (Hall c (proj1 (list_elem_of_In _ _) Hc)). rewrite forallb_forall in Hall.
    specialize (Hall e (proj1 (list_elem_of_In _ _) He)). rewrite Hcc, Hel, bool_decide_eq_true_2 in Hall by exact Heq. discriminate.
  - apply (bool_decide_unpack _). vm_compute. exact I.
  - apply (bool_decide_unpack _). vm_compute. exact I.
Defined.

(** When a compaction keeps what begins at a label, the messages it keeps are no longer in
    the context of the session that is cut out. *)
Example kept_messages_lost :
  let count w := (λ c, length (ctx_messages c)) <$> manager_context (manager w) in
  count (compacted (js "entry300")) = Some 4%nat ∧ count (cut (js "entry300")) = Some 2%nat.
Proof. vm_compute. split; reflexivity. Qed.
