(* ===== verification/JsonlCodec.v ===== *)
(** * The lines of a session file

    [packages/agent/src/harness/session/jsonl/codec.ts]: the header and the
    mutations as one JSON object per line, and the checks that read them back.
    The decoder validates the properties the session state relies on and keeps
    the rest of an entry or a record as it found it; [PayloadJson] is the view of
    those remaining properties as the typed payload, and back. *)

From S2P Require Import Prelude JsNumber JsString JsMap SessionTypes JsonText SessionState.

(** ** Errors *)

Inductive decode_kind := Syntax | Schema.
Record JsonlDecodeError := MkDecodeError { kind_of : decode_kind; decode_message : jsstring }.
Abbreviation decoded A := (result JsonlDecodeError A) (only parsing).
Abbreviation json_props := (list (jsstring * JsonValue)) (only parsing).

Definition schema_error {A} (message : jsstring) : decoded A := Err (MkDecodeError Schema message).
Definition has_invalid {A} (field : jsstring) : decoded A := schema_error (js "has invalid " ++ field).

(** ** The discriminants *)

Definition entry_type_name (t : EntryType) : jsstring :=
  match t with
  | et_message => js "message"
  | et_model_change => js "model_change"
  | et_thinking_level_change => js "thinking_level_change"
  | et_active_tools_change => js "active_tools_change"
  | et_compaction => js "compaction"
  | et_branch_summary => js "branch_summary"
  | et_custom => js "custom"
  end.

Definition record_type_name (t : RecordType) : jsstring :=
  match t with
  | rt_operation_started => js "operation_started"
  | rt_abort_requested => js "abort_requested"
  | rt_operation_finished => js "operation_finished"
  | rt_step_attempt => js "step_attempt"
  | rt_tool_started => js "tool_started"
  | rt_queue_enqueued => js "queue_enqueued"
  | rt_queue_cancelled => js "queue_cancelled"
  | rt_write_deferred => js "write_deferred"
  | rt_usage => js "usage"
  end.

Definition ENTRY_TYPES : list EntryType :=
  [et_message; et_model_change; et_thinking_level_change; et_active_tools_change; et_compaction; et_branch_summary;
   et_custom].
Definition RECORD_TYPES : list RecordType :=
  [rt_operation_started; rt_abort_requested; rt_operation_finished; rt_step_attempt; rt_tool_started;
   rt_queue_enqueued; rt_queue_cancelled; rt_write_deferred; rt_usage].
Definition OPERATION_KINDS : list jsstring := [js "run"; js "compaction"; js "navigation"].

(** The member of a set of names that a string names. *)
Definition named {T} (name : T → jsstring) (types : list T) (s : jsstring) : option T :=
  head (filter (λ t, name t = s) types).

(** ** Reading properties *)

Abbreviation prop_of props key := (map_get props (js key)) (only parsing).

Definition parseObject (line : jsstring) : decoded json_props :=
  match json_parse line with
  | None => Err (MkDecodeError Syntax (js "is not valid JSON"))
  | Some (JsonObject props) => Ok props
  | Some _ => schema_error (js "is not a JSON object")
  end.

Definition requireString (value : option JsonValue) (field : jsstring) : decoded jsstring :=
  match value with Some (JsonString s) => Ok s | _ => has_invalid field end.

Definition safe_integer (value : option JsonValue) : option Z :=
  match value with
  | Some (JsonNumber x) => if isSafeInteger x then int_value x else None
  | _ => None
  end.

Definition requireSequence (value : option JsonValue) : decoded Z :=
  match safe_integer value with
  | Some n => if n <=? 0 then has_invalid (js "seq") else Ok n
  | None => has_invalid (js "seq")
  end.

Definition requireTimestamp (value : option JsonValue) : decoded Z :=
  match safe_integer value with
  | Some n => if n <? 0 then has_invalid (js "timestamp") else Ok n
  | None => has_invalid (js "timestamp")
  end.

Definition requireNullableId (value : option JsonValue) (field : jsstring) : decoded (option jsstring) :=
  match value with
  | Some JsonNull => Ok None
  | Some (JsonString s) => Ok (Some s)
  | _ => has_invalid field
  end.

(** A property that may be absent: [undefined] or a string. *)
Definition optionalString (value : option JsonValue) (field : jsstring) : decoded (option jsstring) :=
  match value with
  | None => Ok None
  | Some (JsonString s) => Ok (Some s)
  | Some _ => has_invalid field
  end.

(** ** The header *)

Record JsonlV4Header := MkHeader {
  header_id : jsstring; header_createdAt : Z; header_cwd : jsstring; header_parentSessionId : option jsstring;
  legacyParentSessionPath : option jsstring; header_metadata : option json_props }.

Definition decodeHeader (line : jsstring) : decoded JsonlV4Header :=
  value ← parseObject line;
  _ ← (match prop_of value "kind" with
       | Some (JsonString k) => if decide (k = js "header") then Ok () else schema_error (js "is not a header")
       | _ => schema_error (js "is not a header")
       end);
  _ ← (match prop_of value "version" with
       | Some (JsonNumber x) => if decide (x = of_Z 4) then Ok () else schema_error (js "has unsupported session version")
       | _ => schema_error (js "has unsupported session version")
       end);
  parentSessionId ← optionalString (prop_of value "parentSessionId") (js "parentSessionId");
  legacy ← optionalString (prop_of value "legacyParentSessionPath") (js "legacyParentSessionPath");
  _ ← (match parentSessionId, legacy with
       | Some _, Some _ => schema_error (js "has both parentSessionId and legacyParentSessionPath")
       | _, _ => Ok ()
       end);
  metadata ← (match prop_of value "metadata" with
              | None => Ok None
              | Some (JsonObject m) => Ok (Some m)
              | Some _ => has_invalid (js "metadata")
              end);
  id ← requireString (prop_of value "id") (js "id");
  createdAt ← requireTimestamp (prop_of value "createdAt");
  cwd ← requireString (prop_of value "cwd") (js "cwd");
  Ok (MkHeader id createdAt cwd parentSessionId legacy metadata).

(** [JSON.stringify] leaves out a property that is [undefined]. *)
Definition optional (key : jsstring) (v : option JsonValue) : json_props :=
  match v with Some v => [(key, v)] | None => [] end.
Definition nullable (s : option jsstring) : JsonValue := from_option JsonString JsonNull s.
Definition number (n : Z) : JsonValue := JsonNumber (of_Z n).

Definition header_props (h : JsonlV4Header) : json_props :=
  (js "kind", JsonString (js "header")) :: (js "version", number 4) :: (js "id", JsonString (header_id h))
  :: (js "createdAt", number (header_createdAt h)) :: (js "cwd", JsonString (header_cwd h))
  :: optional (js "parentSessionId") (JsonString <$> header_parentSessionId h)
  ++ optional (js "legacyParentSessionPath") (JsonString <$> legacyParentSessionPath h)
  ++ optional (js "metadata") (JsonObject <$> header_metadata h).

Definition encodeHeader (h : JsonlV4Header) : jsstring := json_text (JsonObject (header_props h)) ++ [10].

Record JsonlSessionMetadata := MkJsonlMetadata {
  jm_id : jsstring; jm_createdAt : Z; jm_cwd : jsstring; jm_path : jsstring; jm_modifiedAt : Z;
  jm_sourceFormat : Z; jm_parentSessionId : option jsstring; jm_legacyParentSessionPath : option jsstring;
  jm_metadata : option json_props }.

Definition metadataFromHeader (h : JsonlV4Header) (path : jsstring) (modifiedAt : Z) : JsonlSessionMetadata :=
  MkJsonlMetadata (header_id h) (header_createdAt h) (header_cwd h) path modifiedAt 4 (header_parentSessionId h)
    (legacyParentSessionPath h) (header_metadata h).

(** ** Mutations *)

(** The own properties of an entry or a record beside those of every entry or
    record, and the typed value they stand for. *)
Class PayloadJson := {
  payload_props : EntryPayload → json_props;
  payload_of : EntryType → json_props → EntryPayload;
  body_props : RecordBody → json_props;
  body_of : RecordType → json_props → RecordBody }.

Definition entry_reserved : list jsstring :=
  [js "kind"; js "lane"; js "type"; js "id"; js "parentId"; js "seq"; js "timestamp"].
Definition record_reserved : list jsstring :=
  [js "kind"; js "type"; js "id"; js "lane"; js "seq"; js "timestamp"].

(** The properties that are not spelled out when a value is rebuilt. *)
Definition other_props (reserved : list jsstring) (value : json_props) : json_props :=
  filter (λ kv, kv.1 ∉ reserved) value.

Section Mutations.
Context `{PayloadJson}.

Definition parseEntryMutation (value : json_props) (seq : Z) : decoded SessionMutation :=
  lane ← (match prop_of value "lane" with
          | None => Ok None
          | v => l ← requireString v (js "lane"); Ok (Some l)
          end);
  id ← requireString (prop_of value "id") (js "id");
  type ← requireString (prop_of value "type") (js "entry type");
  entry_type ← (match named entry_type_name ENTRY_TYPES type with
                | Some t => Ok t
                | None => schema_error (js "has unknown entry type " ++ type)
                end);
  parentId ← requireNullableId (prop_of value "parentId") (js "parentId");
  timestamp ← requireTimestamp (prop_of value "timestamp");
  _ ← (if decide (entry_type = et_custom) then requireString (prop_of value "customType") (js "customType") else Ok []);
  Ok (MutEntry lane
        (MkEntry id seq parentId timestamp (payload_of entry_type (other_props entry_reserved value)))).

Definition check_intent (intent : option JsonValue) : decoded unit :=
  match intent with
  | Some (JsonObject intent) =>
      operationKind ← requireString (prop_of intent "kind") (js "operation kind");
      if decide (operationKind ∈ OPERATION_KINDS) then Ok ()
      else schema_error (js "has unknown operation kind " ++ operationKind)
  | _ => has_invalid (js "intent")
  end.

Definition parseRecordMutation (value : json_props) (seq : Z) : decoded SessionMutation :=
  id ← requireString (prop_of value "id") (js "id");
  lane ← requireString (prop_of value "lane") (js "lane");
  type ← requireString (prop_of value "type") (js "record type");
  record_type ← (match named record_type_name RECORD_TYPES type with
                 | Some t => Ok t
                 | None => schema_error (js "has unknown record type " ++ type)
                 end);
  timestamp ← requireTimestamp (prop_of value "timestamp");
  _ ← (if decide (record_type = rt_operation_started) then check_intent (prop_of value "intent") else Ok ());
  _ ← (if decide (record_type = rt_operation_finished) then requireString (prop_of value "runId") (js "runId") else Ok []);
  Ok (MutRecord (MkRecord id seq lane timestamp (body_of record_type (other_props record_reserved value)))).

Definition parseLaneMutation (value : json_props) (seq : Z) : decoded SessionMutation :=
  lane ← requireString (prop_of value "lane") (js "lane");
  leafId ← requireNullableId (prop_of value "leafId") (js "leafId");
  Ok (MutLane seq lane leafId).

Definition parseFactMutation (value : json_props) (seq : Z) : decoded SessionMutation :=
  match prop_of value "fact" with
  | Some (JsonString fact) =>
      if decide (fact = js "name") then
        name ← optionalString (prop_of value "name") (js "name"); Ok (MutName seq name)
      else if decide (fact = js "label") then
        label ← optionalString (prop_of value "label") (js "label");
        targetId ← requireString (prop_of value "targetId") (js "targetId");
        Ok (MutLabel seq targetId label)
      else schema_error (js "has unknown fact type")
  | _ => schema_error (js "has unknown fact type")
  end.

(** [parseMutation] returns what [decodeMutation] throws. *)
Definition parseMutation (line : jsstring) : decoded SessionMutation :=
  value ← parseObject line;
  seq ← requireSequence (prop_of value "seq");
  match prop_of value "kind" with
  | Some (JsonString kind) =>
      if decide (kind = js "entry") then parseEntryMutation value seq
      else if decide (kind = js "record") then parseRecordMutation value seq
      else if decide (kind = js "lane") then parseLaneMutation value seq
      else if decide (kind = js "fact") then parseFactMutation value seq
      else schema_error (js "has unknown mutation kind")
  | _ => schema_error (js "has unknown mutation kind")
  end.

(** The properties of an entry in the order a session builds them. *)
Definition entry_props (e : Entry) : json_props :=
  [(js "type", JsonString (entry_type_name (entry_type e))); (js "id", JsonString (entry_id e))]
  ++ payload_props (entry_payload e)
  ++ [(js "parentId", nullable (entry_parentId e)); (js "seq", number (entry_seq e));
      (js "timestamp", number (entry_timestamp e))].

Definition lane_record_props (r : LaneRecord) : json_props :=
  [(js "type", JsonString (record_type_name (record_type r))); (js "id", JsonString (record_id r));
   (js "lane", JsonString (record_lane r))]
  ++ body_props (record_body r)
  ++ [(js "seq", number (record_seq r)); (js "timestamp", number (record_timestamp r))].

Definition mutation_props (m : SessionMutation) : json_props :=
  match m with
  | MutEntry lane e =>
      (js "kind", JsonString (js "entry")) :: optional (js "lane") (JsonString <$> lane) ++ entry_props e
  | MutRecord r => (js "kind", JsonString (js "record")) :: lane_record_props r
  | MutLane seq lane leafId =>
      [(js "kind", JsonString (js "lane")); (js "seq", number seq); (js "lane", JsonString lane);
       (js "leafId", nullable leafId)]
  | MutName seq n =>
      [(js "kind", JsonString (js "fact")); (js "seq", number seq); (js "fact", JsonString (js "name"))]
      ++ optional (js "name") (JsonString <$> n)
  | MutLabel seq targetId label =>
      [(js "kind", JsonString (js "fact")); (js "seq", number seq); (js "fact", JsonString (js "label"));
       (js "targetId", JsonString targetId)]
      ++ optional (js "label") (JsonString <$> label)
  end.

(** The object literal sets its properties one after the other. *)
Definition encodeMutation (m : SessionMutation) : jsstring :=
  json_text (JsonObject (object_of (mutation_props m))) ++ [10].

(** ** What text preserves *)

(** Properties that stand between the fixed ones of a line: distinct plain names
    that are not reserved, with values that text preserves. *)
Definition props_durable (reserved : list jsstring) (props : json_props) : bool :=
  bool_decide (NoDup props.*1)
  && forallb (λ kv, bool_decide (kv.1 ∉ reserved) && bool_decide (index_key kv.1 = None) && bool_decide (string_ok kv.1)
                    && json_ok kv.2) props.

Definition text_ok (s : jsstring) : bool := bool_decide (string_ok s).
Definition seq_ok (n : Z) : bool := (0 <? n) && (n <=? MAX_SAFE_INTEGER).
Definition time_ok (n : Z) : bool := (0 <=? n) && (n <=? MAX_SAFE_INTEGER).
Definition opt_text_ok (s : option jsstring) : bool := from_option text_ok true s.

(** A payload whose properties carry it through a line. *)
Definition durable_payload (p : EntryPayload) : Prop :=
  payload_of (payload_type p) (payload_props p) = p ∧ props_durable entry_reserved (payload_props p) = true
  ∧ (payload_type p = et_custom → ∃ t, prop_of (payload_props p) "customType" = Some (JsonString t)).

Definition durable_body (b : RecordBody) : Prop :=
  body_of (body_type b) (body_props b) = b ∧ props_durable record_reserved (body_props b) = true
  ∧ (body_type b = rt_operation_started → check_intent (prop_of (body_props b) "intent") = Ok ())
  ∧ (body_type b = rt_operation_finished → ∃ t, prop_of (body_props b) "runId" = Some (JsonString t)).

Definition mutation_durable (m : SessionMutation) : Prop :=
  seq_ok (mutation_seq m) = true ∧
  match m with
  | MutEntry lane e =>
      opt_text_ok lane = true ∧ text_ok (entry_id e) = true ∧ opt_text_ok (entry_parentId e) = true
      ∧ time_ok (entry_timestamp e) = true ∧ durable_payload (entry_payload e)
  | MutRecord r =>
      text_ok (record_id r) = true ∧ text_ok (record_lane r) = true ∧ time_ok (record_timestamp r) = true
      ∧ durable_body (record_body r)
  | MutLane _ lane leafId => text_ok lane = true ∧ opt_text_ok leafId = true
  | MutName _ n => opt_text_ok n = true
  | MutLabel _ targetId label => text_ok targetId = true ∧ opt_text_ok label = true
  end.

End Mutations.

Definition header_durable (h : JsonlV4Header) : bool :=
  text_ok (header_id h) && time_ok (header_createdAt h) && text_ok (header_cwd h)
  && opt_text_ok (header_parentSessionId h) && opt_text_ok (legacyParentSessionPath h)
  && negb (bool_decide (is_Some (header_parentSessionId h)) && bool_decide (is_Some (legacyParentSessionPath h)))
  && from_option (λ m, json_ok (JsonObject m)) true (header_metadata h).

(** ** Objects of distinct plain keys *)

Lemma keys_ok_distinct seen keys :
  NoDup keys → (∀ k, k ∈ keys → index_key k = None) → (∀ k, k ∈ keys → k ∉ seen) → keys_ok seen keys = true.
Proof.
  revert seen. induction keys as [|k keys IH]; intros seen Hnd Hidx Hseen; [done|]. cbn [keys_ok].
  apply NoDup_cons in Hnd as [Hk Hnd]. apply andb_true_iff. split.
  - apply forallb_forall. intros k' Hk'%list_elem_of_In. apply andb_true_iff.
    assert (index_key k = None) as Hi by (apply Hidx; left). unfold key_precedes. rewrite Hi. split; [|done].
    apply negb_true_iff, bool_decide_eq_false. intros ->. apply (Hseen k'); [left|done].
  - apply IH; [done|intros; apply Hidx; by right|].
    intros k' Hk'. rewrite elem_of_app, list_elem_of_singleton. intros [Hs| ->]; [|done]. apply (Hseen k'); [by right|done].
Qed.

Definition plain_key (k : jsstring) : Prop := index_key k = None ∧ string_ok k.
#[export] Instance plain_key_dec k : Decision (plain_key k).
Proof. unfold plain_key. apply _. Defined.

Lemma json_ok_object props :
  NoDup props.*1 → Forall plain_key props.*1 → Forall (λ kv, json_ok kv.2 = true) props →
  json_ok (JsonObject props) = true.
Proof.
  intros Hnd Hplain Hvals. cbn [json_ok]. apply andb_true_iff. split.
  - apply keys_ok_distinct; [done| |intros; apply not_elem_of_nil]. intros k Hk. rewrite Forall_forall in Hplain. by apply Hplain.
  - apply forallb_forall. intros kv Hkv%list_elem_of_In. rewrite Forall_forall in Hplain. rewrite Forall_forall in Hvals.
    apply andb_true_iff. split; [|by apply Hvals]. apply bool_decide_eq_true, Hplain. by apply list_elem_of_fmap_2.
Qed.

Lemma props_durable_spec reserved props :
  props_durable reserved props = true ↔
  NoDup props.*1 ∧ Forall plain_key props.*1 ∧ (∀ k, k ∈ props.*1 → k ∉ reserved)
  ∧ Forall (λ kv, json_ok kv.2 = true) props.
Proof.
  unfold props_durable. rewrite andb_true_iff, bool_decide_eq_true, forallb_forall, !Forall_forall. split.
  - intros [Hnd Hall]. assert (∀ kv, kv ∈ props → kv.1 ∉ reserved ∧ plain_key kv.1 ∧ json_ok kv.2 = true) as H1.
    { intros kv Hkv%list_elem_of_In. apply Hall in Hkv. rewrite !andb_true_iff, !bool_decide_eq_true in Hkv.
      unfold plain_key. naive_solver. }
    split_and!; [done| | |by intros kv Hkv; destruct (H1 kv Hkv) as (?&?&?)];
      intros k (kv & -> & Hkv)%list_elem_of_fmap; by destruct (H1 kv Hkv) as (?&?&?).
  - intros (Hnd & Hplain & Hres & Hval). split; [done|]. intros kv Hkv%list_elem_of_In.
    pose proof (list_elem_of_fmap_2 fst _ _ Hkv) as Hk. destruct (Hplain _ Hk).
    rewrite !andb_true_iff, !bool_decide_eq_true. split_and!; auto.
Qed.

(** The fixed properties around the others. *)
Lemma framed_object_ok reserved pre mid post :
  props_durable reserved mid = true → Forall plain_key reserved →
  NoDup (pre ++ post).*1 → Forall (.∈ reserved) (pre ++ post).*1 →
  Forall (λ kv, json_ok kv.2 = true) (pre ++ post) → json_ok (JsonObject (pre ++ mid ++ post)) = true.
Proof.
  intros (Hnd & Hplain & Hres & Hvals)%props_durable_spec Hrp Hfnd Hfres Hfvals.
  assert (pre ++ mid ++ post ≡ₚ mid ++ (pre ++ post)) as Hperm by (by rewrite !app_assoc, (Permutation_app_comm pre mid)).
  assert (Forall plain_key (pre ++ post).*1) as Hfplain.
  { eapply Forall_impl; [exact Hfres|]. intros k Hk. rewrite Forall_forall in Hrp. by apply Hrp. }
  apply json_ok_object.
  - rewrite Hperm, fmap_app. apply NoDup_app. split_and!; [done| |done]. intros k Hk Hf.
    rewrite Forall_forall in Hfres. by apply (Hres k Hk), Hfres.
  - rewrite Hperm, fmap_app. by apply Forall_app.
  - rewrite Hperm. by apply Forall_app.
Qed.

Lemma other_props_framed reserved pre mid post :
  props_durable reserved mid = true → Forall (.∈ reserved) (pre ++ post).*1 →
  other_props reserved (pre ++ mid ++ post) = mid.
Proof.
  intros (_ & _ & Hres & _)%props_durable_spec Hf. rewrite fmap_app, Forall_app, !Forall_fmap in Hf. destruct Hf as [Hpre Hpost].
  unfold other_props. rewrite !filter_app.
  assert (∀ l : json_props, Forall (λ kv, kv.1 ∈ reserved) l → filter (λ kv, kv.1 ∉ reserved) l = []) as Hnil.
  { intros l. induction 1 as [|kv l Hkv _ IH]; [done|]. rewrite filter_cons_False; [done|naive_solver]. }
  rewrite (Hnil pre), (Hnil post) by done. rewrite app_nil_r. cbn [app]. clear -Hres.
  induction mid as [|kv mid IH]; [done|]. rewrite filter_cons_True by (apply Hres; left).
  f_equal. apply IH. intros k Hk. apply Hres. by right.
Qed.

Lemma map_get_app_fresh {V} (l k : list (jsstring * V)) key :
  key ∉ l.*1 → map_get (l ++ k) key = map_get k key.
Proof.
  induction l as [|[key' v] l IH]; cbn; [done|]. rewrite not_elem_of_cons. intros [H1 H2]. rewrite decide_False by done. auto.
Qed.

Lemma map_get_app_present {V} (l k : list (jsstring * V)) key v :
  map_get l key = Some v → map_get (l ++ k) key = Some v.
Proof. induction l as [|[key' v'] l IH]; cbn; [done|]. by case_decide; auto. Qed.

Lemma get_framed_pre pre (rest : json_props) key v : map_get pre key = Some v → map_get (pre ++ rest) key = Some v.
Proof. apply map_get_app_present. Qed.

Lemma get_framed_post reserved pre mid post key :
  props_durable reserved mid = true → key ∈ reserved → key ∉ pre.*1 →
  map_get (pre ++ mid ++ post) key = map_get post key.
Proof.
  intros (_ & _ & Hres & _)%props_durable_spec Hkey Hpre. rewrite !map_get_app_fresh; [done| |done].
  intros Hk. by apply (Hres key).
Qed.

Lemma get_framed_mid pre mid (post : json_props) key v :
  key ∉ pre.*1 → map_get mid key = Some v → map_get (pre ++ mid ++ post) key = Some v.
Proof. intros Hpre Hmid. rewrite map_get_app_fresh by done. by apply map_get_app_present. Qed.

Ltac decide_closed := apply (bool_decide_unpack _); vm_compute; exact I.
Ltac cases := repeat match goal with H : _ ∧ _ |- _ => destruct H end.

(** ** Values *)

Lemma seq_ok_safe n : seq_ok n = true → 0 < n ∧ is_safe n = true.
Proof. unfold seq_ok. rewrite is_safe_spec, andb_true_iff, Z.ltb_lt, Z.leb_le. lia. Qed.

Lemma time_ok_safe n : time_ok n = true → 0 ≤ n ∧ is_safe n = true.
Proof. unfold time_ok. rewrite is_safe_spec, andb_true_iff, !Z.leb_le. lia. Qed.

Lemma json_ok_number n : is_safe n = true → json_ok (number n) = true.
Proof. apply number_survives_int. Qed.

Lemma json_ok_nullable s : opt_text_ok s = true → json_ok (nullable s) = true.
Proof. by destruct s. Qed.

Lemma safe_integer_number n : is_safe n = true → safe_integer (Some (number n)) = Some n.
Proof. intros Hn. cbn. unfold isSafeInteger. by rewrite (int_value_of_Z n Hn), Hn. Qed.

Lemma requireSequence_number n : seq_ok n = true → requireSequence (Some (number n)) = Ok n.
Proof.
  intros [Hpos Hsafe]%seq_ok_safe. unfold requireSequence. rewrite safe_integer_number by done.
  by destruct (Z.leb_spec n 0); [lia|].
Qed.

Lemma requireTimestamp_number n : time_ok n = true → requireTimestamp (Some (number n)) = Ok n.
Proof.
  intros [Hpos Hsafe]%time_ok_safe. unfold requireTimestamp. rewrite safe_integer_number by done.
  by destruct (Z.ltb_spec n 0); [lia|].
Qed.

Lemma requireNullableId_nullable s field : requireNullableId (Some (nullable s)) field = Ok s.
Proof. by destruct s. Qed.

Lemma named_entry_type t : named entry_type_name ENTRY_TYPES (entry_type_name t) = Some t.
Proof. by destruct t. Qed.

Lemma named_record_type t : named record_type_name RECORD_TYPES (record_type_name t) = Some t.
Proof. by destruct t. Qed.

Lemma entry_type_name_ok t : text_ok (entry_type_name t) = true.
Proof. by destruct t. Qed.
Lemma record_type_name_ok t : text_ok (record_type_name t) = true.
Proof. by destruct t. Qed.

Lemma entry_reserved_plain : Forall plain_key entry_reserved.
Proof. decide_closed. Qed.
Lemma record_reserved_plain : Forall plain_key record_reserved.
Proof. decide_closed. Qed.

Lemma json_ok_string s : text_ok s = true → json_ok (JsonString s) = true.
Proof. done. Qed.
Lemma text_ok_some s : opt_text_ok (Some s) = true → text_ok s = true.
Proof. done. Qed.

#[export] Hint Resolve json_ok_string text_ok_some json_ok_number json_ok_nullable entry_type_name_ok record_type_name_ok : jsonl.
#[export] Hint Extern 1 (text_ok (js _) = true) => reflexivity : jsonl.

(** ** One line *)

Section Lines.
Context `{PayloadJson}.

Definition entry_before (lane : option jsstring) (e : Entry) : json_props :=
  ((js "kind", JsonString (js "entry")) :: optional (js "lane") (JsonString <$> lane))
  ++ [(js "type", JsonString (entry_type_name (entry_type e))); (js "id", JsonString (entry_id e))].
Definition entry_after (e : Entry) : json_props :=
  [(js "parentId", nullable (entry_parentId e)); (js "seq", number (entry_seq e));
   (js "timestamp", number (entry_timestamp e))].
Definition record_before (r : LaneRecord) : json_props :=
  [(js "kind", JsonString (js "record")); (js "type", JsonString (record_type_name (record_type r)));
   (js "id", JsonString (record_id r)); (js "lane", JsonString (record_lane r))].
Definition record_after (r : LaneRecord) : json_props :=
  [(js "seq", number (record_seq r)); (js "timestamp", number (record_timestamp r))].

Lemma entry_line lane e :
  mutation_props (MutEntry lane e) = entry_before lane e ++ payload_props (entry_payload e) ++ entry_after e.
Proof. unfold entry_before. cbn [mutation_props]. unfold entry_props. by rewrite <- app_assoc. Qed.

Lemma record_line r :
  mutation_props (MutRecord r) = record_before r ++ body_props (record_body r) ++ record_after r.
Proof. done. Qed.

(** What a durable mutation writes is preserved by text. *)
Lemma mutation_json_ok m : mutation_durable m → json_ok (JsonObject (mutation_props m)) = true.
Proof.
  intros [[_ Hseq]%seq_ok_safe Hm]. destruct m as [lane e|r|q lane leafId|q n|q t l]; cbn [mutation_seq] in Hseq.
  - destruct Hm as (Hlane & Hid & Hparent & [_ Htime]%time_ok_safe & _ & Hprops & _). rewrite entry_line.
    apply framed_object_ok with entry_reserved; [done|apply entry_reserved_plain| | |].
    + destruct lane; decide_closed.
    + destruct lane; decide_closed.
    + destruct lane; repeat constructor; cbn [snd]; auto with jsonl.
  - destruct Hm as (Hid & Hlane & [_ Htime]%time_ok_safe & _ & Hprops & _). rewrite record_line.
    apply framed_object_ok with record_reserved; [done|apply record_reserved_plain|decide_closed|decide_closed|].
    repeat constructor; cbn [snd]; auto with jsonl.
  - destruct Hm as [Hlane Hleaf]. apply json_ok_object; [decide_closed|decide_closed|].
    repeat constructor; cbn [snd]; auto with jsonl.
  - destruct n; (apply json_ok_object; [decide_closed|decide_closed|]); repeat constructor; cbn [snd]; auto with jsonl.
  - destruct Hm as [Ht Hl]. destruct l; (apply json_ok_object; [decide_closed|decide_closed|]);
      repeat constructor; cbn [snd]; auto with jsonl.
Qed.

(** The line of a mutation, without its newline. *)
Definition mutation_line (m : SessionMutation) : jsstring := json_text (JsonObject (mutation_props m)).

Lemma encodeMutation_line m : mutation_durable m → encodeMutation m = mutation_line m ++ [10].
Proof.
  intros Hm%mutation_json_ok. unfold encodeMutation. rewrite object_of_ordered; [done|].
  cbn [json_ok] in Hm. by apply andb_true_iff in Hm as [? _].
Qed.

Lemma parseObject_text props : json_ok (JsonObject props) = true → parseObject (json_text (JsonObject props)) = Ok props.
Proof. intros Hok. unfold parseObject. by rewrite json_parse_text. Qed.

Lemma parseEntryMutation_line lane e :
  mutation_durable (MutEntry lane e) →
  parseEntryMutation (mutation_props (MutEntry lane e)) (entry_seq e) = Ok (MutEntry lane e).
Proof.
  intros (_ & Hlane & _ & _ & Htime & Hpay & Hprops & Hcustom). rewrite entry_line. unfold parseEntryMutation.
  assert (other_props entry_reserved (entry_before lane e ++ payload_props (entry_payload e) ++ entry_after e)
          = payload_props (entry_payload e)) as ->.
  { apply other_props_framed; [done|]. destruct lane; decide_closed. }
  assert (match prop_of (entry_before lane e ++ payload_props (entry_payload e) ++ entry_after e) "lane" with
          | None => Ok None
          | v => l ← requireString v (js "lane"); Ok (Some l) end = Ok lane) as ->.
  { destruct lane as [l|]; [by rewrite (get_framed_pre _ _ (js "lane") (JsonString l))|].
    by rewrite (get_framed_post _ _ _ _ _ Hprops) by decide_closed. }
  assert (∀ v key, map_get (entry_before None e) key = Some v →
    map_get (entry_before lane e ++ payload_props (entry_payload e) ++ entry_after e) key = Some v) as Hbefore.
  { intros v key Hv. apply get_framed_pre. destruct lane as [l|]; [|done].
    destruct (decide (key = js "lane")) as [->|Hk]; [discriminate Hv|]. revert Hv. unfold entry_before.
    cbn [map_get app optional fmap option_fmap option_map]. rewrite (decide_False (P := key = js "lane")) by done. done. }
  assert (∀ key, key ∈ entry_reserved → map_get (entry_before (Some []) e) key = None →
    map_get (entry_before lane e ++ payload_props (entry_payload e) ++ entry_after e) key
    = map_get (entry_after e) key) as Hafter.
  { intros key Hres Hkey. apply (get_framed_post entry_reserved); [done..|].
    apply map_get_None in Hkey. destruct lane; [done|]. unfold entry_before in *. set_solver. }
  rewrite (Hbefore (JsonString (entry_id e)) (js "id") eq_refl).
  rewrite (Hbefore (JsonString (entry_type_name (entry_type e))) (js "type") eq_refl). cbn [mbind result_bind requireString].
  rewrite named_entry_type. cbn [mbind result_bind].
  rewrite (Hafter (js "parentId")) by first [decide_closed|reflexivity].
  rewrite (Hafter (js "timestamp")) by first [decide_closed|reflexivity].
  change (map_get (entry_after e) (js "parentId")) with (Some (nullable (entry_parentId e))).
  change (map_get (entry_after e) (js "timestamp")) with (Some (number (entry_timestamp e))).
  rewrite requireNullableId_nullable, requireTimestamp_number by done. cbn [mbind result_bind].
  case_decide as Ht.
  - destruct (Hcustom Ht) as [t Hg].
    rewrite (get_framed_mid _ _ _ (js "customType") (JsonString t)); [|destruct lane; decide_closed|done].
    cbn [mbind result_bind requireString]. unfold entry_type. rewrite Hpay. by destruct e.
  - cbn [mbind result_bind]. unfold entry_type. rewrite Hpay. by destruct e.
Qed.

Lemma parseRecordMutation_line r :
  mutation_durable (MutRecord r) →
  parseRecordMutation (mutation_props (MutRecord r)) (record_seq r) = Ok (MutRecord r).
Proof.
  intros (_ & _ & _ & Htime & Hbody & Hprops & Hintent & Hrun). rewrite record_line. unfold parseRecordMutation.
  rewrite other_props_framed by first [done|decide_closed]. 
  rewrite (get_framed_pre _ _ (js "id") (JsonString (record_id r))) by reflexivity.
  rewrite (get_framed_pre _ _ (js "lane") (JsonString (record_lane r))) by reflexivity.
  rewrite (get_framed_pre _ _ (js "type") (JsonString (record_type_name (record_type r)))) by reflexivity.
  rewrite (get_framed_post _ _ _ _ (js "timestamp") Hprops) by decide_closed.
  change (map_get (record_after r) (js "timestamp")) with (Some (number (record_timestamp r))).
  cbn [mbind result_bind requireString]. rewrite named_record_type. cbn [mbind result_bind].
  rewrite requireTimestamp_number by done. cbn [mbind result_bind].
  assert ((if decide (record_type r = rt_operation_started)
           then check_intent (prop_of (record_before r ++ body_props (record_body r) ++ record_after r) "intent")
           else Ok ()) = Ok ()) as ->.
  { case_decide as Ht; [|done]. specialize (Hintent Ht).
    destruct (prop_of (body_props (record_body r)) "intent") as [v|] eqn:Hv; [|done].
    by rewrite (get_framed_mid _ _ _ _ v) by first [decide_closed|exact Hv]. }
  cbn [mbind result_bind]. case_decide as Ht.
  - destruct (Hrun Ht) as [t Hg]. rewrite (get_framed_mid _ _ _ _ (JsonString t)) by first [decide_closed|exact Hg].
    cbn [mbind result_bind requireString]. unfold record_type. rewrite Hbody. by destruct r.
  - cbn [mbind result_bind]. unfold record_type. rewrite Hbody. by destruct r.
Qed.

Lemma mutation_seq_prop m :
  mutation_durable m → prop_of (mutation_props m) "seq" = Some (number (mutation_seq m)).
Proof.
  intros [_ Hm]. destruct m as [lane e|r|q lane leafId|q n|q t l]; [| |done..].
  - destruct Hm as (_ & _ & _ & _ & _ & Hprops & _). rewrite entry_line.
    rewrite (get_framed_post _ _ _ _ _ Hprops); [done|decide_closed|destruct lane; decide_closed].
  - destruct Hm as (_ & _ & _ & _ & Hprops & _). rewrite record_line.
    by rewrite (get_framed_post _ _ _ _ _ Hprops) by decide_closed.
Qed.

Lemma parseMutation_line m : mutation_durable m → parseMutation (mutation_line m) = Ok m.
Proof.
  intros Hm. pose proof Hm as [Hseq Hrest]. unfold parseMutation, mutation_line.
  rewrite parseObject_text by by apply mutation_json_ok. cbn [mbind result_bind].
  rewrite mutation_seq_prop, requireSequence_number by done. cbn [mbind result_bind].
  destruct m as [lane e|r|q lane leafId|q n|q t l].
  - rewrite entry_line at 1. rewrite (get_framed_pre _ _ (js "kind") (JsonString (js "entry"))) by done.
    rewrite decide_True by done. by apply parseEntryMutation_line.
  - rewrite record_line at 1. rewrite (get_framed_pre _ _ (js "kind") (JsonString (js "record"))) by done.
    rewrite decide_False, decide_True by first [done|decide_closed].
    by apply parseRecordMutation_line.
  - cbn. unfold parseLaneMutation. by destruct leafId.
  - by destruct n.
  - by destruct l.
Qed.

Lemma mutation_line_printable m : mutation_durable m → 10 ∉ mutation_line m.
Proof.
  intros Hm%mutation_json_ok%json_text_printable Hin. rewrite Forall_forall in Hm. by specialize (Hm 10 Hin).
Qed.

(** A line cut short is not JSON. *)
Lemma torn_line m p q :
  mutation_durable m → mutation_line m = p ++ q → q ≠ [] → ∃ msg, parseMutation p = Err (MkDecodeError Syntax msg).
Proof.
  intros Hm Hline Hq. eexists. unfold parseMutation, parseObject.
  by rewrite (torn_object_unparsable _ p q (mutation_json_ok m Hm) Hline Hq).
Qed.

End Lines.

(** ** The header line *)

Definition header_line (h : JsonlV4Header) : jsstring := json_text (JsonObject (header_props h)).

Lemma header_json_ok h : header_durable h = true → json_ok (JsonObject (header_props h)) = true.
Proof.
  unfold header_durable. rewrite !andb_true_iff. intros [[[[[[Hid [_ Ht]%time_ok_safe] Hcwd] Hp] Hl] _] Hm].
  destruct h as [id created cwd parent legacy meta].
  cbn [header_id header_createdAt header_cwd header_parentSessionId legacyParentSessionPath header_metadata] in *.
  apply json_ok_object; [destruct parent, legacy, meta; decide_closed..|]. unfold header_props.
  assert (json_ok (number 4) = true) by by apply json_ok_number.
  destruct parent, legacy, meta; repeat constructor; cbn [snd header_id header_createdAt header_cwd]; auto with jsonl.
Qed.

Lemma parseHeader_line h : header_durable h = true → decodeHeader (header_line h) = Ok h.
Proof.
  intros Hh. unfold decodeHeader, header_line. rewrite parseObject_text by by apply header_json_ok.
  unfold header_durable in Hh. rewrite !andb_true_iff in Hh. destruct Hh as [[[[[[_ Ht] _] _] _] Hboth] _].
  destruct h as [id created cwd [parent|] [legacy|] [meta|]]; cbn in Hboth; try done;
    cbn [header_createdAt] in Ht; lazy -[requireTimestamp number of_Z];
    rewrite requireTimestamp_number by done; try (destruct (decide (of_Z 4 = of_Z 4))); done.
Qed.

Lemma header_line_printable h : header_durable h = true → 10 ∉ header_line h.
Proof.
  intros Hh%header_json_ok%json_text_printable Hin. rewrite Forall_forall in Hh. by specialize (Hh 10 Hin).
Qed.

Lemma header_line_nonempty h : header_line h ≠ [].
Proof. done. Qed.
