(* ===== verification/SessionInvariant.v ===== *)
(** * What every reachable session state satisfies

    The abstract specification of a session is its log: sequence numbers, the
    entries and records with their unique ids, the name, the labels and the
    statistics are functions of it, and the open operations of a lane are the
    started ones that no later record of the lane finishes. *)

From S2P Require Import Prelude JsNumber JsString JsMap SessionTypes SessionState.

(** ** The log as the specification *)

Definition log_entry (i : LogItem) : option Entry := match i with LogEntry _ e => Some e | _ => None end.
Definition log_record (i : LogItem) : option LaneRecord := match i with LogRecord _ r => Some r | _ => None end.
Definition item_id (i : LogItem) : option jsstring :=
  match i with LogEntry _ e => Some (entry_id e) | LogRecord _ r => Some (record_id r) | _ => None end.

Definition name_step (n : option jsstring) (i : LogItem) : option jsstring :=
  match i with LogName _ n' => n' | _ => n end.
Definition label_step (m : gmap jsstring jsstring) (i : LogItem) : gmap jsstring jsstring :=
  match i with
  | LogLabel _ t (Some l) => <[t := l]> m
  | LogLabel _ t None => delete t m
  | _ => m
  end.
Definition stats_step (st : SessionStats) (i : LogItem) : SessionStats :=
  match i with
  | LogEntry _ e => if decide (entry_type e = et_message) then st <| messageCount := messageCount st + 1 |> else st
  | LogRecord _ r => stats_after st r
  | _ => st
  end.

Definition finishes (lane id : jsstring) (r : LaneRecord) : bool :=
  match record_body r with
  | ROperationFinished runId _ _ => bool_decide (record_lane r = lane ∧ runId = id)
  | _ => false
  end.

(** The operations of a lane that were started and not finished since, oldest first. *)
Fixpoint open_spec (lane : jsstring) (rs : list LaneRecord) : list LaneRecord :=
  match rs with
  | [] => []
  | r :: rs =>
      if is_started r && bool_decide (record_lane r = lane) && negb (existsb (finishes lane (record_id r)) rs)
      then r :: open_spec lane rs else open_spec lane rs
  end.

(** Entries with distinct ids, each after its parent. *)
Inductive parents_first : list Entry → Prop :=
| parents_first_nil : parents_first []
| parents_first_snoc l e :
    parents_first l → entry_id e ∉ entry_id <$> l →
    (∀ p, entry_parentId e = Some p → p ∈ entry_id <$> l) → parents_first (l ++ [e]).

Record state_inv (s : SessionState) : Prop := {
  inv_sequence : sequence s = zlen (log s);
  inv_seq i it : log s !! i = Some it → item_seq it = Z.of_nat i + 1;
  inv_seq_entry q e : LogEntry q e ∈ log s → entry_seq e = q;
  inv_seq_record q r : LogRecord q r ∈ log s → record_seq r = q;
  inv_entries : entries s = omap log_entry (log s);
  inv_records : records s = omap log_record (log s);
  inv_ids : NoDup (omap item_id (log s));
  inv_used i : i ∈ usedIds s ↔ i ∈ omap item_id (log s);
  inv_byId i e : entriesById s !! i = Some e ↔ e ∈ entries s ∧ entry_id e = i;
  inv_parent e p : e ∈ entries s → entry_parentId e = Some p →
    ∃ pe, entriesById s !! p = Some pe ∧ entry_seq pe < entry_seq e;
  inv_order : parents_first (entries s);
  inv_lanes_wf : map_wf (lanes s);
  inv_main : is_Some (map_get (lanes s) (js "main"));
  inv_lanes l t : map_get (lanes s) l = Some (Some t) → is_Some (entriesById s !! t);
  inv_record_lanes r : r ∈ records s → is_Some (map_get (lanes s) (record_lane r));
  inv_name : name s = foldl name_step None (log s);
  inv_labels : labels s = foldl label_step ∅ (log s);
  inv_labelled i : is_Some (labels s !! i) → is_Some (entriesById s !! i);
  inv_stats : stats s = foldl stats_step (MkStats 0 0 0 0 0) (log s);
  inv_open l : default [] (openOperationsByLane s !! l) = (λ r, (record_id r, r)) <$> open_spec l (records s) }.

(** ** Open operations *)

Lemma open_spec_elem lane rs r : r ∈ open_spec lane rs → r ∈ rs ∧ is_started r = true ∧ record_lane r = lane.
Proof.
  induction rs as [|r' rs IH]; cbn; [by intros ?%elem_of_nil|].
  destruct (is_started r') eqn:Hs; cbn; [case_bool_decide; cbn; [case_match; cbn|]|];
    rewrite ?elem_of_cons; naive_solver.
Qed.

Lemma open_spec_snoc lane rs r :
  open_spec lane (rs ++ [r])
  = match record_body r with
    | ROperationStarted _ _ => if decide (record_lane r = lane) then open_spec lane rs ++ [r] else open_spec lane rs
    | ROperationFinished runId _ _ =>
        if decide (record_lane r = lane) then filter (λ r', record_id r' ≠ runId) (open_spec lane rs)
        else open_spec lane rs
    | _ => open_spec lane rs
    end.
Proof.
  induction rs as [|r' rs IH].
  - cbn. unfold is_started. destruct (record_body r); cbn; try by repeat case_decide.
  - cbn [app open_spec]. rewrite IH. rewrite existsb_app. cbn [existsb]. rewrite orb_false_r.
    assert (finishes lane (record_id r') r
            = match record_body r with
              | ROperationFinished runId _ _ => bool_decide (record_lane r = lane ∧ runId = record_id r')
              | _ => false
              end) as -> by done.
    destruct (is_started r' && bool_decide (record_lane r' = lane)) eqn:Hs; cbn [andb].
    2: done.
    destruct (existsb (finishes lane (record_id r')) rs) eqn:He; cbn [negb orb].
    1: done.
    destruct (record_body r) as [| |runId ? ?| | | | | |]; try done; case_decide as Hl; try done.
    + rewrite filter_cons. destruct (decide (record_id r' ≠ runId)) as [Hne|Heq].
      * by rewrite bool_decide_eq_false_2 by naive_solver.
      * apply dec_stable in Heq. by rewrite bool_decide_eq_true_2 by done.
    + by rewrite bool_decide_eq_false_2 by naive_solver.
Qed.

(** ** Preservation *)

Lemma inv_initial : state_inv new_SessionState.
Proof.
  split; cbn; try done; try (intros; set_solver).
  - apply NoDup_nil_2.
  - constructor.
  - apply NoDup_singleton.
  - intros l t. by case_decide.
  - intros i [? ?]. set_solver.
Qed.

(** What every mutation does to the log. *)
Lemma snoc_seq (l : list LogItem) it i it' :
  (∀ i it, l !! i = Some it → item_seq it = Z.of_nat i + 1) → item_seq it = zlen l + 1 →
  (l ++ [it]) !! i = Some it' → item_seq it' = Z.of_nat i + 1.
Proof.
  intros Hl Hit [H|[Hi H]]%lookup_app_Some; [auto|].
  apply list_lookup_singleton_Some in H as [H ->]. unfold zlen in Hit. lia.
Qed.

Lemma snoc_used (l : list LogItem) it id u :
  item_id it = Some id → (∀ i, i ∈ u ↔ i ∈ omap item_id l) → NoDup (omap item_id l) → id ∉ u →
  (∀ i, i ∈ ({[id]} ∪ u : gset jsstring) ↔ i ∈ omap item_id (l ++ [it])) ∧ NoDup (omap item_id (l ++ [it])).
Proof.
  intros Hit Hu Hl Hid. rewrite omap_app. cbn. rewrite Hit. split.
  - intros i. rewrite elem_of_app, elem_of_union, elem_of_singleton, list_elem_of_singleton, Hu. tauto.
  - apply NoDup_app. split_and!; [done| |apply NoDup_singleton]. intros i Hi ->%list_elem_of_singleton.
    by apply Hid, Hu.
Qed.

Lemma inv_entry_used s e : state_inv s → e ∈ entries s → entry_id e ∈ usedIds s.
Proof.
  intros Hs He. apply (inv_used s Hs). rewrite (inv_entries s Hs) in He.
  apply list_elem_of_omap in He as (it & Hit & He). apply list_elem_of_omap. exists it. split; [done|].
  destruct it; try done. by injection He as ->.
Qed.

Lemma inv_record_used s r : state_inv s → r ∈ records s → record_id r ∈ usedIds s.
Proof.
  intros Hs He. apply (inv_used s Hs). rewrite (inv_records s Hs) in He.
  apply list_elem_of_omap in He as (it & Hit & He). apply list_elem_of_omap. exists it. split; [done|].
  destruct it; try done. by injection He as ->.
Qed.

Lemma has_entry_spec s i : has_entry s i = true ↔ is_Some (entriesById s !! i).
Proof. unfold has_entry. apply bool_decide_eq_true. Qed.

Lemma check_entry_Ok s lane e :
  check_entry s lane e = Ok () ↔
  entry_id e ∉ usedIds s
  ∧ (∀ l, lane = Some l → map_get (lanes s) l = Some (entry_parentId e))
  ∧ (∀ p, entry_parentId e = Some p → is_Some (entriesById s !! p)).
Proof.
  unfold check_entry, invalid. case_decide; [naive_solver|].
  assert (match entry_parentId e with
          | Some p => if has_entry s p then Ok () else Err (InvalidMutation (missing_parent p))
          | None => Ok ()
          end = Ok () ↔ ∀ p, entry_parentId e = Some p → is_Some (entriesById s !! p)) as Hp.
  { destruct (entry_parentId e) as [p|]; [|naive_solver]. destruct (has_entry s p) eqn:E.
    - apply has_entry_spec in E. naive_solver.
    - split; [done|]. intros Hp. specialize (Hp p eq_refl). apply has_entry_spec in Hp. congruence. }
  destruct lane as [l|]; cbn [mbind result_bind]; [|naive_solver].
  destruct (map_get (lanes s) l) as [leaf|] eqn:El; cbn; [|split; [done|]; intros (_ & Hl & _); specialize (Hl l eq_refl); congruence].
  case_decide; cbn; [rewrite Hp; naive_solver|]. split; [done|]. intros (_ & Hl & _). specialize (Hl l eq_refl). congruence.
Qed.

Lemma check_record_Ok s r :
  check_record s r = Ok () ↔ is_Some (map_get (lanes s) (record_lane r)) ∧ record_id r ∉ usedIds s.
Proof.
  unfold check_record, invalid. destruct (map_has (lanes s) (record_lane r)) eqn:E; cbn.
  - apply map_has_spec in E. case_decide; naive_solver.
  - apply map_has_false in E. rewrite E. split; [done|]. by intros [[] _].
Qed.

Lemma inv_item_seq s it : state_inv s → it ∈ log s → 1 ≤ item_seq it ≤ sequence s.
Proof.
  intros Hs [i Hi]%list_elem_of_lookup. rewrite (inv_seq s Hs i it Hi), (inv_sequence s Hs).
  apply lookup_lt_Some in Hi. unfold zlen. lia.
Qed.

Lemma inv_entry_seq s e : state_inv s → e ∈ entries s → LogEntry (entry_seq e) e ∈ log s ∧ 1 ≤ entry_seq e ≤ sequence s.
Proof.
  intros Hs He. rewrite (inv_entries s Hs) in He. apply list_elem_of_omap in He as (it & Hit & He).
  destruct it as [q e'| | | |]; try done. injection He as ->.
  pose proof (inv_seq_entry s Hs q e Hit) as ->. split; [done|]. apply (inv_item_seq s _ Hs Hit).
Qed.

Lemma apply_entry_inv s lane e :
  state_inv s → entry_seq e = sequence s + 1 → check_entry s lane e = Ok () → state_inv (apply_entry s lane e).
Proof.
  intros Hs Hseq (Hid & Hl & Hp)%check_entry_Ok. pose proof Hs as [].
  destruct (snoc_used (log s) (LogEntry (entry_seq e) e) (entry_id e) (usedIds s) eq_refl) as [Hu Hn]; [done..|].
  assert (∀ e', e' ∈ entries s → entry_id e' ≠ entry_id e) as Hfresh.
  { intros e' He' Heq. apply Hid. rewrite <- Heq. by apply inv_entry_used. }
  assert (∀ i, is_Some (entriesById s !! i) → is_Some (<[entry_id e:=e]> (entriesById s) !! i)) as Hmono.
  { intros i Hi. destruct (decide (i = entry_id e)) as [->|]; [by rewrite lookup_insert_eq|by rewrite lookup_insert_ne]. }
  unfold apply_entry. split; cbn.
  - rewrite zlen_app, zlen_cons, zlen_nil. lia.
  - intros i it. apply snoc_seq; [done|]. cbn. lia.
  - intros q e'. rewrite elem_of_app, list_elem_of_singleton. naive_solver.
  - intros q r. rewrite elem_of_app, list_elem_of_singleton. naive_solver.
  - rewrite omap_app. cbn. by f_equal.
  - rewrite omap_app. cbn. by rewrite app_nil_r.
  - done.
  - done.
  - intros i e'. rewrite elem_of_app, list_elem_of_singleton. destruct (decide (i = entry_id e)) as [->|Hi].
    + rewrite lookup_insert_eq. naive_solver.
    + rewrite lookup_insert_ne by done. rewrite inv_byId0. naive_solver.
  - intros e' p. rewrite elem_of_app, list_elem_of_singleton. intros [He'| ->] Hp'.
    + destruct (inv_parent0 e' p He' Hp') as (pe & Hpe & Hlt). exists pe. split; [|done].
      apply inv_byId0 in Hpe as Hpe'. destruct Hpe' as [Hin <-]. by rewrite lookup_insert_ne by (symmetry; auto).
    + destruct (Hp p Hp') as [pe Hpe]. exists pe. apply inv_byId0 in Hpe as Hpe'. destruct Hpe' as [Hin <-].
      rewrite lookup_insert_ne by (symmetry; auto). split; [done|].
      destruct (inv_entry_seq s pe Hs Hin). lia.
  - apply parents_first_snoc; [done| |].
    + intros (e' & Heq & He')%list_elem_of_fmap. by apply (Hfresh e').
    + intros p Hp'. destruct (Hp p Hp') as [pe [Hpe <-]%inv_byId0]. apply list_elem_of_fmap. by exists pe.
  - destruct lane; auto with js.
  - destruct lane as [l|]; [|done]. rewrite map_get_set. case_decide; [by eexists|done].
  - intros l t. destruct lane as [l'|]; [rewrite map_get_set; case_decide|]; [|by eauto..].
    intros [= <-]. by rewrite lookup_insert_eq.
  - intros r Hr. destruct lane as [l'|]; [rewrite map_get_set; case_decide|]; by eauto.
  - by rewrite foldl_app.
  - by rewrite foldl_app.
  - eauto.
  - rewrite foldl_app. cbn. by rewrite <- inv_stats0.
  - done.
Qed.

Lemma open_after_spec s r :
  state_inv s → record_id r ∉ usedIds s → ∀ l,
  default [] (open_after (openOperationsByLane s) r !! l)
  = (λ r, (record_id r, r)) <$> open_spec l (records s ++ [r]).
Proof.
  intros Hs Hid l. rewrite open_spec_snoc. pose proof (inv_open s Hs l) as Hl. unfold open_after.
  destruct (record_body r) as [| |runId ? ?| | | | | |]; try done.
  - destruct (decide (record_lane r = l)) as [<-|Hne]; [|by rewrite lookup_insert_ne].
    rewrite lookup_insert_eq. cbn [default from_option id]. rewrite Hl, fmap_app. apply map_set_fresh.
    apply map_get_None. unfold map_keys. rewrite <- list_fmap_compose. intros (r' & Heq & Hr')%list_elem_of_fmap.
    cbn in Heq. apply Hid. rewrite Heq. apply inv_record_used; [done|]. by apply open_spec_elem in Hr' as [? _].
  - destruct (decide (record_lane r = l)) as [<-|Hne].
    2: { destruct (openOperationsByLane s !! record_lane r); [|done]. by rewrite lookup_insert_ne. }
    assert (∀ rs : list LaneRecord, map_delete ((λ r, (record_id r, r)) <$> rs) runId
            = (λ r, (record_id r, r)) <$> filter (λ r', record_id r' ≠ runId) rs) as Hdel.
    { intros rs. unfold map_delete. induction rs as [|r' rs IH]; [done|].
      rewrite fmap_cons, !filter_cons. cbn [fst]. case_decide; [rewrite fmap_cons; f_equal|]; done. }
    destruct (openOperationsByLane s !! record_lane r) as [ops|] eqn:E.
    + rewrite lookup_insert_eq. cbn in Hl |- *. by rewrite Hl, Hdel.
    + rewrite E. cbn in Hl |- *. rewrite <- Hdel. by rewrite <- Hl.
Qed.

Lemma apply_record_inv s r :
  state_inv s → record_seq r = sequence s + 1 → check_record s r = Ok () → state_inv (apply_record s r).
Proof.
  intros Hs Hseq (Hl & Hid)%check_record_Ok. pose proof Hs as [].
  destruct (snoc_used (log s) (LogRecord (record_seq r) r) (record_id r) (usedIds s) eq_refl) as [Hu Hn]; [done..|].
  unfold apply_record. split; cbn; try done.
  - rewrite zlen_app, zlen_cons, zlen_nil. lia.
  - intros i it. apply snoc_seq; [done|]. cbn. lia.
  - intros q e'. rewrite elem_of_app, list_elem_of_singleton. naive_solver.
  - intros q r'. rewrite elem_of_app, list_elem_of_singleton. naive_solver.
  - rewrite omap_app. cbn. by rewrite app_nil_r.
  - rewrite omap_app. cbn. by f_equal.
  - intros r'. rewrite elem_of_app, list_elem_of_singleton. intros [?| ->]; auto.
  - by rewrite foldl_app.
  - by rewrite foldl_app.
  - rewrite foldl_app. cbn. by rewrite <- inv_stats0.
  - by apply open_after_spec.
Qed.

(** Appending an item without an id. *)
Lemma log_fields l it :
  item_id it = None →
  omap log_entry (l ++ [it]) = omap log_entry l ∧ omap log_record (l ++ [it]) = omap log_record l
  ∧ omap item_id (l ++ [it]) = omap item_id l.
Proof. rewrite !omap_app. destruct it; try done; intros _; cbn; by rewrite !app_nil_r. Qed.

Lemma elem_snoc_no_id l it x : item_id it = None → (∃ i, item_id x = Some i) → x ∈ l ++ [it] → x ∈ l.
Proof. intros Hit [i Hx]. rewrite elem_of_app, list_elem_of_singleton. intros [?| ->]; [done|congruence]. Qed.

Lemma apply_lane_inv s lane leafId :
  state_inv s → (∀ i, leafId = Some i → is_Some (entriesById s !! i)) →
  state_inv (apply_lane s (sequence s + 1) lane leafId).
Proof.
  intros Hs Hleaf. pose proof Hs as [].
  destruct (log_fields (log s) (LogLane (sequence s + 1) lane leafId) eq_refl) as (H1 & H2 & H3).
  unfold apply_lane. split; cbn; rewrite ?H1, ?H2, ?H3; try done.
  - rewrite zlen_app, zlen_cons, zlen_nil. lia.
  - intros i it. apply snoc_seq; [done|]. cbn. lia.
  - intros q e' ?%elem_snoc_no_id; by eauto.
  - intros q r' ?%elem_snoc_no_id; by eauto.
  - auto with js.
  - rewrite map_get_set. case_decide; [by eexists|done].
  - intros l t. rewrite map_get_set. case_decide; [|by eauto]. intros [= ->]. auto.
  - intros r Hr. rewrite map_get_set. case_decide; by eauto.
  - by rewrite foldl_app.
  - by rewrite foldl_app.
  - by rewrite foldl_app.
Qed.

Lemma apply_name_inv s n : state_inv s → state_inv (apply_name s (sequence s + 1) n).
Proof.
  intros Hs. pose proof Hs as [].
  destruct (log_fields (log s) (LogName (sequence s + 1) n) eq_refl) as (H1 & H2 & H3).
  unfold apply_name. split; cbn; rewrite ?H1, ?H2, ?H3; try done.
  - rewrite zlen_app, zlen_cons, zlen_nil. lia.
  - intros i it. apply snoc_seq; [done|]. cbn. lia.
  - intros q e' ?%elem_snoc_no_id; by eauto.
  - intros q r' ?%elem_snoc_no_id; by eauto.
  - by rewrite foldl_app.
  - by rewrite foldl_app.
  - by rewrite foldl_app.
Qed.

Lemma apply_label_inv s t l :
  state_inv s → is_Some (entriesById s !! t) → state_inv (apply_label s (sequence s + 1) t l).
Proof.
  intros Hs Ht. pose proof Hs as [].
  destruct (log_fields (log s) (LogLabel (sequence s + 1) t l) eq_refl) as (H1 & H2 & H3).
  unfold apply_label. split; cbn; rewrite ?H1, ?H2, ?H3; try done.
  - rewrite zlen_app, zlen_cons, zlen_nil. lia.
  - intros i it. apply snoc_seq; [done|]. cbn. lia.
  - intros q e' ?%elem_snoc_no_id; by eauto.
  - intros q r' ?%elem_snoc_no_id; by eauto.
  - by rewrite foldl_app.
  - rewrite foldl_app. cbn. by rewrite <- inv_labels0.
  - intros i. destruct (decide (i = t)) as [->|]; [done|].
    destruct l; [rewrite lookup_insert_ne by done|rewrite lookup_delete_ne by done]; auto.
  - by rewrite foldl_app.
Qed.

(** What a mutation needs to be accepted. *)
Definition acceptable (s : SessionState) (m : SessionMutation) : Prop :=
  mutation_seq m = sequence s + 1 ∧
  match m with
  | MutEntry lane e =>
      entry_id e ∉ usedIds s
      ∧ (∀ l, lane = Some l → map_get (lanes s) l = Some (entry_parentId e))
      ∧ (∀ p, entry_parentId e = Some p → is_Some (entriesById s !! p))
  | MutRecord r => is_Some (map_get (lanes s) (record_lane r)) ∧ record_id r ∉ usedIds s
  | MutLane _ _ leafId => ∀ i, leafId = Some i → is_Some (entriesById s !! i)
  | MutName _ _ => True
  | MutLabel _ t _ => is_Some (entriesById s !! t)
  end.

(** The state an accepted mutation leads to. *)
Definition applied (s : SessionState) (m : SessionMutation) : SessionState :=
  match m with
  | MutEntry lane e => apply_entry s lane e
  | MutRecord r => apply_record s r
  | MutLane seq lane leafId => apply_lane s seq lane leafId
  | MutName seq n => apply_name s seq n
  | MutLabel seq t l => apply_label s seq t l
  end.

Lemma applyMutation_Ok s m s' : applyMutation s m = Ok s' ↔ acceptable s m ∧ s' = applied s m.
Proof.
  unfold applyMutation, acceptable, invalid. destruct (Z.eqb_spec (mutation_seq m) (sequence s + 1)) as [Hseq|Hseq]; cbn [negb].
  2: { split; [done|]. by intros [[? _] _]. }
  destruct m as [lane e|r|q lane leafId|q n|q t l]; cbn [applied mutation_seq] in *.
  - rewrite <- check_entry_Ok. destruct (check_entry s lane e) as [[]|]; cbn; naive_solver.
  - rewrite <- check_record_Ok. destruct (check_record s r) as [[]|]; cbn; naive_solver.
  - destruct leafId as [i|]; [|naive_solver]. destruct (has_entry s i) eqn:E.
    + apply has_entry_spec in E. naive_solver.
    + split; [done|]. intros [[_ H] _]. specialize (H i eq_refl). apply has_entry_spec in H. congruence.
  - naive_solver.
  - destruct (has_entry s t) eqn:E.
    + apply has_entry_spec in E. naive_solver.
    + split; [done|]. intros [[_ H] _]. apply has_entry_spec in H. congruence.
Qed.

Lemma applied_inv s m : state_inv s → acceptable s m → state_inv (applied s m).
Proof.
  intros Hs [Hseq H]. destruct m as [lane e|r|q lane leafId|q n|q t l]; cbn in *; subst.
  - apply apply_entry_inv; [done..|]. by apply check_entry_Ok.
  - apply apply_record_inv; [done..|]. by apply check_record_Ok.
  - by apply apply_lane_inv.
  - by apply apply_name_inv.
  - by apply apply_label_inv.
Qed.

Lemma applyMutations_inv s ms s' : state_inv s → applyMutations s ms = Ok s' → state_inv s'.
Proof.
  revert s. induction ms as [|m ms IH]; intros s Hs; cbn; [by intros [= <-]|].
  intros (s1 & [Ha ->]%applyMutation_Ok & H)%bind_Ok. eapply IH; [|done]. by apply applied_inv.
Qed.
