(* ===== verification/SessionQueries.v ===== *)
(** * Reading a session: the queries, specified

    Over a state that satisfies the invariant every query is the filter of a
    list the specification names (the log, the entries, the path to the root),
    cut at the limit. *)

From S2P Require Import Prelude JsNumber JsString JsMap SessionTypes SessionState SessionInvariant.

(** ** Limits and the collecting loops *)

Definition limit_take {A} (limit : option jsnum) (items : list A) : list A :=
  match limit with Some l => slice_to items l | None => items end.

Lemma assertValidLimit_Ok limit :
  assertValidLimit limit = Ok () ↔ ∀ l, limit = Some l → ∃ n, int_value l = Some n ∧ 0 < n.
Proof.
  destruct limit as [l|]; cbn; [|naive_solver]. destruct (int_value l) as [n|] eqn:E.
  - destruct (Z.leb_spec n 0); split; [done| | |done].
    + intros H1. destruct (H1 l eq_refl) as (m & ? & ?). assert (m = n) by congruence. lia.
    + intros _ l' [= <-]. by exists n.
  - split; [done|]. intros H1. destruct (H1 l eq_refl) as (m & ? & ?). congruence.
Qed.

Lemma assertValidCursor_Ok cursor :
  assertValidCursor cursor = Ok () ↔ ∀ a, cursor = Some a → ∃ n, int_value a = Some n ∧ 0 ≤ n.
Proof.
  destruct cursor as [l|]; cbn; [|naive_solver]. destruct (int_value l) as [n|] eqn:E.
  - destruct (Z.ltb_spec n 0); split; [done| | |done].
    + intros H1. destruct (H1 l eq_refl) as (m & ? & ?). assert (m = n) by congruence. lia.
    + intros _ l' [= <-]. by exists n.
  - split; [done|]. intros H1. destruct (H1 l eq_refl) as (m & ? & ?). congruence.
Qed.

Lemma slice_to_app {A} (xs ys : list A) l n :
  int_value l = Some n → n = zlen xs → slice_to (xs ++ ys) l = xs.
Proof.
  intros Hl Hn. unfold slice_to. rewrite Hl. apply take_app_length'.
  rewrite zlen_app. pose proof (zlen_nonneg ys). unfold zlen in *. lia.
Qed.

Lemma slice_to_short {A} (xs : list A) l n : int_value l = Some n → zlen xs ≤ n → slice_to xs l = xs.
Proof. intros Hl Hn. unfold slice_to. rewrite Hl. apply take_ge. unfold zlen in *. lia. Qed.

(** More results fit. *)
Definition room {A} (limit : option jsnum) (results : list A) : Prop :=
  ∀ l, limit = Some l → ∃ n, int_value l = Some n ∧ zlen results < n.

Lemma limit_take_room {A} limit (results : list A) : room limit results → limit_take limit results = results.
Proof.
  intros H1. destruct limit as [l|]; [|done]. destruct (H1 l eq_refl) as (n & Hl & Hn).
  apply (slice_to_short _ _ n); [done|lia].
Qed.

Lemma reached_spec {A} limit (results : list A) x :
  room limit results →
  (reached (results ++ [x]) limit = true ∧ ∀ ys, limit_take limit (results ++ x :: ys) = results ++ [x])
  ∨ (reached (results ++ [x]) limit = false ∧ room limit (results ++ [x])).
Proof.
  intros Hroom. destruct limit as [l|]; cbn; [|by right].
  destruct (Hroom l eq_refl) as (n & Hl & Hn). rewrite Hl. pose proof (zlen_app results [x]) as Hlen.
  rewrite zlen_cons, zlen_nil in Hlen. case_bool_decide as Hr.
  - left. split; [done|]. intros ys. rewrite cons_middle, app_assoc. apply (slice_to_app _ _ _ n); [done|]. congruence.
  - right. split; [done|]. intros l' [= <-]. exists n. split; [done|]. assert (n ≠ zlen (results ++ [x])) by congruence. lia.
Qed.

Lemma room_not_reached {A} limit (results : list A) : room limit results → reached results limit = false.
Proof.
  intros H1. destruct limit as [l|]; [|done]. destruct (H1 l eq_refl) as (n & Hl & Hn). cbn.
  apply bool_decide_eq_false. rewrite Hl. intros [= ->]. lia.
Qed.

Lemma room_nil {A} limit : assertValidLimit limit = Ok () → room limit (@nil A).
Proof. intros H1 l Hl. rewrite zlen_nil. by apply (proj1 (assertValidLimit_Ok limit) H1). Qed.

Lemma filter_cons_bool {A} (f : A → bool) x l :
  filter (λ x, f x = true) (x :: l) = if f x then x :: filter (λ x, f x = true) l else filter (λ x, f x = true) l.
Proof. rewrite filter_cons. destruct (f x) eqn:E; case_decide; congruence. Qed.

Lemma collect_spec {A} (matches : A → bool) limit items results :
  room limit results →
  collect matches limit items results = limit_take limit (results ++ filter (λ x, matches x = true) items).
Proof.
  revert results. induction items as [|x items IH]; intros results Hroom.
  - cbn. by rewrite app_nil_r, limit_take_room.
  - cbn [collect]. rewrite filter_cons_bool. destruct (matches x); cbn [negb]; [|by apply IH].
    destruct (reached_spec limit results x Hroom) as [[-> Ht]|[-> Hroom']]; [by rewrite Ht|].
    rewrite IH by done. by rewrite <- app_assoc.
Qed.

(** ** Paths *)

(** [branch byId e path]: [path] leads from [e] to a root, parent by parent. *)
Inductive branch (byId : gmap jsstring Entry) : Entry → list Entry → Prop :=
| branch_root e : entry_parentId e = None → branch byId e [e]
| branch_parent e p path :
    entry_parentId e = Some (entry_id p) → byId !! entry_id p = Some p → branch byId p path →
    branch byId e (e :: path).

Fixpoint until_bound (bounds : BranchBounds) (path : list Entry) : list Entry :=
  match path with
  | [] => []
  | e :: path => if at_bound e bounds then [e] else e :: until_bound bounds path
  end.

Lemma until_no_bounds path : until_bound no_bounds path = path.
Proof. induction path as [|e path IH]; cbn; [done|]. by rewrite IH. Qed.

Lemma branch_det byId e p1 p2 : branch byId e p1 → branch byId e p2 → p1 = p2.
Proof.
  intros H1. revert p2. induction H1 as [e He|e p path He Hp H1 IH]; intros p2 H2; inversion H2; subst; try congruence.
  f_equal. apply IH. assert (p0 = p) as -> by congruence. done.
Qed.

Section Invariant.
Context (s : SessionState) (Hs : state_inv s).

Lemma byId_self i e : entriesById s !! i = Some e → entry_id e = i ∧ e ∈ entries s.
Proof. intros [? ?]%(inv_byId s Hs). done. Qed.

Lemma entry_byId e : e ∈ entries s → entriesById s !! entry_id e = Some e.
Proof. intros He. by apply (inv_byId s Hs). Qed.

(** Every entry has a path to a root. *)
Lemma branch_exists e : e ∈ entries s → ∃ path, branch (entriesById s) e path.
Proof.
  remember (Z.to_nat (entry_seq e)) as n eqn:Hn. revert e Hn.
  induction n as [n IH] using lt_wf_ind; intros e -> He.
  destruct (entry_parentId e) as [p|] eqn:Hp; [|exists [e]; by constructor].
  destruct (inv_parent s Hs e p He Hp) as (pe & Hpe & Hlt).
  destruct (byId_self p pe Hpe) as [<- Hin].
  destruct (inv_entry_seq s pe Hs Hin) as [_ ?].
  destruct (IH (Z.to_nat (entry_seq pe)) ltac:(lia) pe eq_refl Hin) as [path Hpath].
  exists (e :: path). by econstructor.
Qed.

Lemma branch_props e path :
  e ∈ entries s → branch (entriesById s) e path →
  head path = Some e ∧ Forall (λ x, x ∈ entries s ∧ entry_seq x ≤ entry_seq e) path ∧ NoDup (entry_id <$> path).
Proof.
  intros He H1. induction H1 as [e Hr|e p path Hpar Hp H1 IH].
  - split_and!; [done| |apply NoDup_singleton]. apply Forall_singleton. split; [done|lia].
  - destruct (byId_self _ _ Hp) as [_ Hin]. destruct (IH Hin) as (Hhd & Hall & Hnd).
    destruct (inv_parent s Hs e _ He Hpar) as (pe & Hpe & Hlt). assert (pe = p) as -> by congruence.
    split_and!; [done| |].
    + apply Forall_cons. split; [split; [done|lia]|]. eapply Forall_impl; [exact Hall|].
      cbn. intros x [? ?]. split; [done|lia].
    + rewrite fmap_cons. apply NoDup_cons. split; [|done].
      intros (x & Hx & Hxin)%list_elem_of_fmap. rewrite Forall_forall in Hall. destruct (Hall x Hxin) as [Hxe Hxs].
      pose proof (entry_byId x Hxe) as G1. pose proof (entry_byId e He) as G2. rewrite <- Hx in G1.
      assert (x = e) as -> by congruence. lia.
Qed.

Lemma walk_branch fuel e path bounds visited :
  branch (entriesById s) e path → (length path ≤ fuel)%nat → NoDup (entry_id <$> path) →
  Forall (λ x, entry_id x ∉ visited) path →
  walk fuel (entriesById s) bounds visited e = (until_bound bounds path, None).
Proof.
  intros H1. revert fuel visited. induction H1 as [e Hr|e p path Hpar Hp H1 IH]; intros fuel visited Hf Hnd Hv.
  - destruct fuel as [|fuel]; [cbn in Hf; lia|]. apply Forall_inv in Hv. cbn.
    rewrite decide_False by done. by destruct (at_bound e bounds); rewrite ?Hr.
  - destruct fuel as [|fuel]; [cbn in Hf; lia|]. apply Forall_cons in Hv as [Hv Hvs].
    rewrite fmap_cons in Hnd. apply NoDup_cons in Hnd as [Hn Hnd]. cbn in Hf. cbn [walk until_bound].
    rewrite decide_False by done. destruct (at_bound e bounds); [done|]. rewrite Hpar, Hp.
    rewrite IH; [done|lia|done|]. rewrite Forall_forall in Hvs |- *. intros x Hx.
    rewrite not_elem_of_union, not_elem_of_singleton. split; [|by apply Hvs].
    intros Heq. apply Hn. apply list_elem_of_fmap. by exists x.
Qed.

(** A path is no longer than the map of entries is large. *)
Lemma branch_length e path :
  e ∈ entries s → branch (entriesById s) e path → (length path ≤ size (entriesById s))%nat.
Proof.
  intros He H1. destruct (branch_props e path He H1) as (_ & Hall & Hnd).
  rewrite <- (length_fmap entry_id path).
  rewrite <- (size_dom (D:=gset jsstring)).
  rewrite <- (size_list_to_set (C:=gset jsstring) (entry_id <$> path)) by done.
  apply subseteq_size. intros i. rewrite elem_of_list_to_set. intros (x & -> & Hx)%list_elem_of_fmap.
  rewrite Forall_forall in Hall. destruct (Hall x Hx) as [Hxe _]. apply elem_of_dom. by rewrite entry_byId.
Qed.

Lemma walkToRoot_spec start e path bounds :
  entriesById s !! start = Some e → branch (entriesById s) e path →
  walkToRoot s start bounds = (until_bound bounds path, None).
Proof.
  intros Hstart Hpath. destruct (byId_self _ _ Hstart) as [_ He]. unfold walkToRoot. rewrite Hstart.
  destruct (branch_props e path He Hpath) as (_ & Hall & Hnd). apply walk_branch; [done| |done|].
  - pose proof (branch_length e path He Hpath). lia.
  - apply Forall_forall. intros. apply not_elem_of_empty.
Qed.

End Invariant.

Lemma collect_oldest_spec query bounds items results :
  room (q_limit query) results →
  collect_oldest query bounds items results
  = limit_take (q_limit query) (results ++ filter (λ x, matchesEntryQuery x query = true) (until_bound bounds items)).
Proof.
  revert results. induction items as [|x items IH]; intros results Hroom.
  - cbn. by rewrite app_nil_r, limit_take_room.
  - cbn [collect_oldest until_bound].
    assert ((if at_bound x bounds then [x] else x :: until_bound bounds items)
            = x :: if at_bound x bounds then [] else until_bound bounds items) as -> by by destruct (at_bound x bounds).
    rewrite filter_cons_bool. destruct (matchesEntryQuery x query).
    + destruct (reached_spec (q_limit query) results x Hroom) as [[-> Ht]|[-> Hroom']].
      * rewrite orb_true_r. by rewrite Ht.
      * rewrite orb_false_r. destruct (at_bound x bounds); [by rewrite limit_take_room|].
        rewrite IH by done. by rewrite <- app_assoc.
    + rewrite room_not_reached by done. rewrite orb_false_r.
      destruct (at_bound x bounds); [|by apply IH]. cbn. by rewrite app_nil_r, limit_take_room.
Qed.

Lemma collect_newest_spec query items results :
  room (q_limit query) results →
  (collect_newest query items results).1
  = limit_take (q_limit query) (results ++ filter (λ x, matchesEntryQuery x query = true) items).
Proof.
  revert results. induction items as [|x items IH]; intros results Hroom.
  - cbn. by rewrite app_nil_r, limit_take_room.
  - cbn [collect_newest]. rewrite filter_cons_bool. destruct (matchesEntryQuery x query).
    + destruct (reached_spec (q_limit query) results x Hroom) as [[-> Ht]|[-> Hroom']]; [by rewrite Ht|].
      rewrite IH by done. by rewrite <- app_assoc.
    + rewrite room_not_reached by done. by apply IH.
Qed.

(** The branch query, in either order. *)
Lemma findEntriesOnBranch_spec s query bounds start e path :
  state_inv s → entriesById s !! start = Some e → branch (entriesById s) e path →
  assertValidLimit (q_limit query) = Ok () → assertValidCursor (q_cursor query) = Ok () →
  findEntriesOnBranch s query bounds start
  = Ok (limit_take (q_limit query)
          (filter (λ x, matchesEntryQuery x query = true)
             (until_bound bounds match q_order query with Some oldestFirst => reverse path | _ => path end))).
Proof.
  intros Hs Hstart Hpath Hl Hc. unfold findEntriesOnBranch. rewrite Hl, Hc. cbn [mbind result_bind].
  pose proof (room_nil (A:=Entry) _ Hl) as Hroom.
  destruct (q_order query) as [[]|].
  2: { rewrite (walkToRoot_spec s Hs start e path) by done. rewrite until_no_bounds. by rewrite collect_oldest_spec. }
  all: rewrite (walkToRoot_spec s Hs start e path) by done;
    destruct (collect_newest query (until_bound bounds path) []) as [r b] eqn:E;
    pose proof (collect_newest_spec query (until_bound bounds path) [] Hroom) as Hr; rewrite E in Hr; cbn in Hr;
    by subst r.
Qed.
