(* ===== verification/SessionFork.v ===== *)
(** * Forking a session

    The mutations a fork computes replay, on a new session, to the copy it is
    meant to be. *)

From S2P Require Import Prelude JsNumber JsString JsMap SessionTypes SessionState SessionInvariant SessionQueries.

(** ** The emitted mutations *)

Lemma foldl_emit {A} (mk : A → Z → SessionMutation) (l : list A) ms q :
  foldl (λ acc a, emit acc (mk a)) (ms, q) l
  = (ms ++ imap (λ i a, mk a (q + Z.of_nat i)) l, q + zlen l).
Proof.
  revert ms q. induction l as [|a l IH]; intros ms q; cbn [foldl].
  - by rewrite app_nil_r, zlen_nil, Z.add_0_r.
  - etransitivity; [apply (IH (ms ++ [mk a q]) (q + 1))|]. cbn [imap]. rewrite zlen_cons, <- app_assoc. cbn [app].
    f_equal; [|lia]. f_equal. f_equal; [f_equal; lia|]. apply imap_ext. intros i x Hx. cbn. f_equal. lia.
Qed.

Lemma foldl_emit_opt {A B} (f : A → option B) (mk : B → Z → SessionMutation) (l : list A) acc :
  foldl (λ acc a, match f a with Some b => emit acc (mk b) | None => acc end) acc l
  = foldl (λ acc b, emit acc (mk b)) acc (omap f l).
Proof.
  revert acc. induction l as [|a l IH]; intros acc; cbn; [done|]. destruct (f a); cbn; apply IH.
Qed.

Lemma applyMutations_app s ms1 ms2 :
  applyMutations s (ms1 ++ ms2) = (s' ← applyMutations s ms1; applyMutations s' ms2).
Proof.
  revert s. induction ms1 as [|m ms1 IH]; intros s; cbn; [done|].
  destruct (applyMutation s m); cbn; [apply IH|done].
Qed.

Lemma applyMutation_accept s m : acceptable s m → applyMutation s m = Ok (applied s m).
Proof. intros H1. by apply applyMutation_Ok. Qed.

(** ** The stages of the replay *)

(** The entries of a copy, renumbered from 1. *)
Definition renumber (l : list Entry) : list Entry := imap (λ i e, e <| entry_seq := Z.of_nat i + 1 |>) l.

(** What the later stages leave alone. *)
Definition same_tree (s s' : SessionState) : Prop :=
  entries s' = entries s ∧ entriesById s' = entriesById s ∧ records s' = records s
  ∧ openOperationsByLane s' = openOperationsByLane s ∧ stats s' = stats s.

#[export] Instance same_tree_refl : Reflexive same_tree.
Proof. done. Qed.
#[export] Instance same_tree_trans : Transitive same_tree.
Proof. unfold same_tree. intros ???. naive_solver congruence. Qed.

Lemma renumber_snoc l e : renumber (l ++ [e]) = renumber l ++ [e <| entry_seq := zlen l + 1 |>].
Proof. unfold renumber. rewrite imap_app. cbn. unfold zlen. by rewrite Nat.add_0_r. Qed.

Lemma renumber_ids l : entry_id <$> renumber l = entry_id <$> l.
Proof. induction l as [|e l IH] using rev_ind; [done|]. by rewrite renumber_snoc, !fmap_app, IH. Qed.

Lemma replay_entries l :
  parents_first l →
  ∃ s, applyMutations new_SessionState
         (imap (λ i e, MutEntry None (e <| entry_seq := 1 + Z.of_nat i |>)) l) = Ok s
    ∧ sequence s = zlen l ∧ entries s = renumber l
    ∧ (∀ i, is_Some (entriesById s !! i) ↔ i ∈ entry_id <$> l)
    ∧ (∀ i, i ∈ usedIds s ↔ i ∈ entry_id <$> l)
    ∧ lanes s = [(js "main", None)] ∧ name s = None ∧ labels s = ∅ ∧ records s = []
    ∧ openOperationsByLane s = ∅.
Proof.
  induction 1 as [|l e Hl (s & Happ & Hq & He & Hid & Hu & Hlanes & Hname & Hlab & Hr & Ho) Hfresh Hpar].
  - eexists. split; [reflexivity|]. cbn. split_and!; try done; intros i; cbn;
      rewrite ?lookup_empty; (split; [|by intros ?%elem_of_nil]); set_solver.
  - rewrite imap_app, applyMutations_app, Happ. cbn [mbind result_bind imap applyMutations].
    set (e' := e <| entry_seq := 1 + Z.of_nat (length l + 0) |>).
    rewrite (applyMutation_accept s (MutEntry None e')).
    2: { split; [cbn; rewrite Hq; unfold zlen; lia|]. split_and!; [by rewrite Hu|done|].
         intros p Hp. by apply Hid, Hpar. }
    cbn [mbind result_bind applied]. eexists. split; [reflexivity|]. unfold apply_entry. cbn.
    split_and!; try done.
    + rewrite zlen_app, zlen_cons, zlen_nil. unfold zlen. lia.
    + rewrite renumber_snoc, He. do 2 f_equal. unfold e'. cbn. unfold zlen. f_equal. lia.
    + intros i. rewrite fmap_app, elem_of_app, <- Hid. cbn. rewrite list_elem_of_singleton.
      destruct (decide (i = entry_id e)) as [->|]; [rewrite lookup_insert_eq|rewrite lookup_insert_ne by done]; naive_solver.
    + intros i. rewrite fmap_app, elem_of_app, elem_of_union, Hu. cbn.
      rewrite elem_of_singleton, list_elem_of_singleton. tauto.
Qed.

Lemma replay_lanes ps s q :
  sequence s = q → (∀ l t, (l, Some t) ∈ ps → is_Some (entriesById s !! t)) →
  ∃ s', applyMutations s (imap (λ i p, MutLane (q + 1 + Z.of_nat i) p.1 p.2) ps) = Ok s'
    ∧ sequence s' = q + zlen ps ∧ lanes s' = foldl (λ m p, map_set m p.1 p.2) (lanes s) ps
    ∧ name s' = name s ∧ labels s' = labels s ∧ same_tree s s'.
Proof.
  revert s q. induction ps as [|[l t] ps IH]; intros s q Hq Ht; cbn [imap applyMutations].
  - eexists. split; [reflexivity|]. rewrite zlen_nil. split_and!; done || lia.
  - rewrite applyMutation_accept.
    2: { split; [cbn; lia|]. cbn. intros i ->. apply (Ht l). left. }
    cbn [mbind result_bind applied fst snd].
    destruct (IH (apply_lane s (q + 1 + Z.of_nat 0) l t) (q + 1) ltac:(cbn; lia)) as (s' & Happ & Hs' & Hl & Hn & Hlab & Htree).
    { intros l' t' Hin. apply (Ht l'). by right. }
    exists s'. split.
    + rewrite <- Happ. f_equal. apply imap_ext. intros i x Hx. cbn. f_equal. lia.
    + rewrite zlen_cons. split_and!; [lia|done..].
Qed.

Lemma replay_labels ps s q :
  sequence s = q → (∀ i l, (i, l) ∈ ps → is_Some (entriesById s !! i)) →
  ∃ s', applyMutations s (imap (λ i p, MutLabel (q + 1 + Z.of_nat i) p.1 (Some p.2)) ps) = Ok s'
    ∧ sequence s' = q + zlen ps ∧ lanes s' = lanes s
    ∧ name s' = name s ∧ labels s' = foldl (λ m p, <[p.1 := p.2]> m) (labels s) ps ∧ same_tree s s'.
Proof.
  revert s q. induction ps as [|[l t] ps IH]; intros s q Hq Ht; cbn [imap applyMutations].
  - eexists. split; [reflexivity|]. rewrite zlen_nil. split_and!; done || lia.
  - rewrite applyMutation_accept.
    2: { split; [cbn; lia|]. cbn. apply (Ht l t). left. }
    cbn [mbind result_bind applied fst snd].
    destruct (IH (apply_label s (q + 1 + Z.of_nat 0) l (Some t)) (q + 1) ltac:(cbn; lia)) as (s' & Happ & Hs' & Hl & Hn & Hlab & Htree).
    { intros l' t' Hin. apply (Ht l' t'). by right. }
    exists s'. split.
    + rewrite <- Happ. f_equal. apply imap_ext. intros i x Hx. cbn. f_equal. lia.
    + rewrite zlen_cons. split_and!; [lia|done..].
Qed.

(** ** What a fork selects *)

#[local] Arguments findEntriesOnBranch : simpl never.

Lemma filter_all {A} (P : A → Prop) `{∀ x, Decision (P x)} (l : list A) : (∀ x, P x) → filter P l = l.
Proof. intros HP. induction l as [|x l IH]; [done|]. by rewrite filter_cons, decide_True, IH by done. Qed.

Lemma matches_no_query e order : matchesEntryQuery e (no_query <| q_order := order |>) = true.
Proof. done. Qed.

Lemma branch_parents_first s e path :
  state_inv s → e ∈ entries s → branch (entriesById s) e path → parents_first (reverse path).
Proof.
  intros Hs He H1. pose proof (branch_props s Hs e path He H1) as (_ & _ & Hnd). revert He Hnd.
  induction H1 as [e Hr|e p path Hpar Hp H1 IH]; intros He Hnd.
  - rewrite reverse_singleton. apply (parents_first_snoc []); [constructor|apply not_elem_of_nil|congruence].
  - destruct (byId_self s Hs _ _ Hp) as [_ Hin]. rewrite fmap_cons in Hnd. apply NoDup_cons in Hnd as [Hn Hnd].
    rewrite reverse_cons. apply parents_first_snoc; [by apply IH| |].
    + by rewrite fmap_reverse, elem_of_reverse.
    + intros i Hi. assert (i = entry_id p) as -> by congruence. rewrite fmap_reverse, elem_of_reverse.
      destruct (branch_props s Hs p path Hin H1) as (Hhd & _ & _). destruct path; [done|]. injection Hhd as ->. left.
Qed.

(** The entry a branch fork ends at. *)
Inductive fork_target (s : SessionState) (entryId : option jsstring) (position : option ForkPosition)
    : option jsstring → Prop :=
| fork_empty : entryId = None → map_get (lanes s) (js "main") = Some None → fork_target s entryId position None
| fork_at id e :
    Some id = match entryId with Some i => Some i | None => default None (map_get (lanes s) (js "main")) end →
    entriesById s !! id = Some e → entry_type e = et_message →
    fork_target s entryId position
      match default match entryId with None => at_entry | Some _ => before end position with
      | at_entry => Some (entry_id e)
      | before => entry_parentId e
      end.

(** What a fork copies: the whole tree with its lanes, or the path from the root
    to the target, with [main] at the target. *)
Inductive fork_contents (s : SessionState) : ForkOptions → list Entry → list (jsstring * option jsstring) → Prop :=
| fork_tree : fork_contents s ForkTree (entries s) (lanes s)
| fork_nothing entryId position :
    fork_target s entryId position None → fork_contents s (ForkBranch entryId position) [] [(js "main", None)]
| fork_path entryId position t e path :
    fork_target s entryId position (Some t) → entriesById s !! t = Some e → branch (entriesById s) e path →
    fork_contents s (ForkBranch entryId position) (reverse path) [(js "main", Some t)].

Lemma fork_selection_spec s options :
  state_inv s →
  match fork_selection s options with
  | Ok (copied, ps) => fork_contents s options copied ps
  | Err e => ∃ id, e = BadForkTarget id ∧ (∀ e, entriesById s !! id = Some e → entry_type e ≠ et_message)
  end.
Proof.
  intros Hs. destruct options as [entryId position|]; unfold fork_selection.
  2: { unfold findEntries. cbn. rewrite collect_spec by done. cbn. rewrite filter_all by done. constructor. }
  assert (∃ selected, (match entryId with Some i => Ok (Some i) | None => requireLane s (js "main") end) = Ok selected
          ∧ selected = match entryId with Some i => Some i | None => default None (map_get (lanes s) (js "main")) end)
    as (selected & -> & Hsel).
  { destruct entryId; [by eexists|]. unfold requireLane. destruct (inv_main s Hs) as [? ->]. by eexists. }
  cbn [mbind result_bind]. destruct selected as [id|]; cbn [mbind result_bind].
  2: { apply fork_nothing, fork_empty; destruct entryId; try done.
       destruct (inv_main s Hs) as [m Hm]. rewrite Hm in Hsel |- *. by destruct m. }
  unfold getEntry. destruct (entriesById s !! id) as [e|] eqn:He; cbn; [|by exists id; rewrite He].
  destruct (decide (entry_type e = et_message)) as [Ht|Ht]; cbn; [|exists id; rewrite He; naive_solver].
  pose proof (fork_at s entryId position id e Hsel He Ht) as Htarget.
  set (target := match default _ position with before => _ | at_entry => _ end) in *.
  destruct target as [t|] eqn:Etarget; cbn; [|by apply fork_nothing].
  assert (is_Some (entriesById s !! t)) as [et Het].
  { destruct (byId_self s Hs _ _ He) as [Hid Hin]. subst target.
    destruct (default _ position); [|injection Etarget as <-; by rewrite Hid].
    destruct (inv_parent s Hs e t Hin Etarget) as (pe & Hpe & _). by exists pe. }
  destruct (byId_self s Hs _ _ Het) as [_ Hin]. destruct (branch_exists s Hs et Hin) as [path Hpath].
  rewrite (findEntriesOnBranch_spec s _ _ _ et path) by done. cbn.
  rewrite filter_all by done. rewrite until_no_bounds. by apply (fork_path s entryId position t et).
Qed.

Lemma fork_contents_ok s options copied ps :
  state_inv s → fork_contents s options copied ps →
  parents_first copied ∧ (∀ l t, (l, Some t) ∈ ps → t ∈ entry_id <$> copied)
  ∧ Forall (λ e, e ∈ entries s) copied.
Proof.
  intros Hs [|entryId position Ht|entryId position t e path Ht He Hpath].
  - split_and!; [apply inv_order, Hs| |by apply Forall_forall].
    intros l t Hin%elem_map_get; [|apply inv_lanes_wf, Hs].
    destruct (inv_lanes s Hs l t Hin) as [e [<- He]%(byId_self s Hs)]. apply list_elem_of_fmap. by exists e.
  - split_and!; [constructor| |by constructor]. by intros l t [= ->]%list_elem_of_singleton.
  - destruct (byId_self s Hs _ _ He) as [<- Hin].
    destruct (branch_props s Hs e path Hin Hpath) as (Hhd & Hall & _).
    split_and!; [by apply (branch_parents_first s e)| |].
    + intros l t' [= -> ->]%list_elem_of_singleton. rewrite fmap_reverse, elem_of_reverse.
      destruct path; [done|]. injection Hhd as ->. left.
    + apply Forall_reverse. eapply Forall_impl; [exact Hall|]. by intros x [? _].
Qed.

(** ** The replay of a fork *)

Lemma replay_name n s q :
  sequence s = q →
  ∃ s', applyMutations s match n with Some n => [MutName (q + 1) (Some n)] | None => [] end = Ok s'
    ∧ sequence s' = q + match n with Some _ => 1 | None => 0 end ∧ lanes s' = lanes s
    ∧ name s' = match n with Some n => Some n | None => name s end ∧ labels s' = labels s ∧ same_tree s s'.
Proof.
  intros Hq. destruct n as [n|]; [|eexists; split; [reflexivity|]; split_and!; done || lia].
  cbn [applyMutations]. rewrite applyMutation_accept by (split; [cbn; lia|done]).
  eexists. split; [reflexivity|]. split_and!; done || lia.
Qed.

Lemma foldl_insert_lookup (ps : list (jsstring * jsstring)) (m : gmap jsstring jsstring) i :
  NoDup ps.*1 → foldl (λ m p, <[p.1 := p.2]> m) m ps !! i
  = match map_get ps i with Some l => Some l | None => m !! i end.
Proof.
  revert m. induction ps as [|[k l] ps IH]; intros m; [done|]. rewrite fmap_cons. intros [Hk Hnd]%NoDup_cons.
  cbn [foldl fst snd map_get]. rewrite IH by done. case_decide as Hd.
  - subst. rewrite (proj2 (map_get_None ps k)) by done. by rewrite lookup_insert_eq.
  - destruct (map_get ps i); [done|]. by rewrite lookup_insert_ne by done.
Qed.

(** The labels of the copied entries. *)
Definition copied_labels (s : SessionState) (copied : list Entry) : list (jsstring * jsstring) :=
  omap (λ e, pair (entry_id e) <$> (labels s !! entry_id e)) copied.

Lemma copied_labels_keys s copied :
  NoDup (entry_id <$> copied) →
  NoDup (copied_labels s copied).*1
  ∧ ∀ i, map_get (copied_labels s copied) i
         = if decide (i ∈ entry_id <$> copied) then labels s !! i else None.
Proof.
  unfold copied_labels. induction copied as [|e copied IH]; [split; [by apply NoDup_nil_2|done]|].
  rewrite fmap_cons. intros [Hn Hnd]%NoDup_cons. destruct (IH Hnd) as [IH1 IH2]. cbn [omap list_omap].
  destruct (labels s !! entry_id e) as [l|] eqn:El; cbn [fmap option_fmap option_map].
  - split.
    + cbn [fmap list_fmap fst]. apply NoDup_cons. split; [|done].
      intros ([k v] & Hk & Hin)%list_elem_of_fmap. cbn in Hk. subst k.
      apply list_elem_of_omap in Hin as (e' & Hin & Hl). apply Hn. apply list_elem_of_fmap. exists e'.
      split; [|done]. by destruct (labels s !! entry_id e') as [?|]; [injection Hl as -> _|].
    + intros i. cbn [map_get]. rewrite IH2. destruct (decide (i = entry_id e)) as [->|Hi].
      * rewrite decide_True by left. by rewrite El.
      * apply decide_ext. rewrite elem_of_cons. tauto.
  - split; [done|]. intros i. rewrite IH2. destruct (decide (i = entry_id e)) as [->|Hi].
    + rewrite decide_False by done. by case_decide.
    + apply decide_ext. rewrite elem_of_cons. tauto.
Qed.

Lemma parents_first_NoDup l : parents_first l → NoDup (entry_id <$> l).
Proof.
  induction 1 as [|l e Hl IH Hn Hp]; [by apply NoDup_nil_2|]. rewrite fmap_app. apply NoDup_app.
  split_and!; [done| |apply NoDup_singleton]. intros i Hi ->%list_elem_of_singleton. done.
Qed.

Lemma createForkMutations_eq s options copied ps :
  fork_selection s options = Ok (copied, ps) →
  createForkMutations s options
  = Ok (imap (λ i e, MutEntry None (e <| entry_seq := 1 + Z.of_nat i |>)) copied
        ++ imap (λ i p, MutLane (zlen copied + 1 + Z.of_nat i) p.1 p.2) ps
        ++ match name s with Some n => [MutName (zlen copied + zlen ps + 1) (Some n)] | None => [] end
        ++ imap (λ i p, MutLabel (zlen copied + zlen ps + match name s with Some _ => 1 | None => 0 end + 1
                                  + Z.of_nat i) p.1 (Some p.2)) (copied_labels s copied)).
Proof.
  intros Hsel. unfold createForkMutations. rewrite Hsel. cbn [mbind result_bind].
  rewrite (foldl_emit (λ e seq, MutEntry None (e <| entry_seq := seq |>))).
  rewrite (foldl_emit (λ p seq, MutLane seq p.1 p.2)).
  set (acc := ((_, _) : list SessionMutation * Z)).
  assert ((match name s with Some n => emit acc (λ seq, MutName seq (Some n)) | None => acc end)
          = (acc.1 ++ match name s with Some n => [MutName (zlen copied + zlen ps + 1) (Some n)] | None => [] end,
             zlen copied + zlen ps + match name s with Some _ => 1 | None => 0 end + 1)) as ->.
  { unfold acc, emit. destruct (name s); cbn [fst snd]; rewrite ?app_nil_r; f_equal; try lia.
    do 2 f_equal. f_equal. lia. }
  subst acc. cbn [fst snd]. rewrite <- !app_assoc. cbn [app].
  assert (∀ acc, foldl (λ acc e, match labels s !! entry_id e with
                                 | Some l => emit acc (λ seq, MutLabel seq (entry_id e) (Some l))
                                 | None => acc
                                 end) acc copied
          = foldl (λ acc p, emit acc (λ seq, MutLabel seq p.1 (Some p.2))) acc (copied_labels s copied)) as ->.
  { intros acc. unfold copied_labels. rewrite <- foldl_emit_opt. clear. revert acc.
    induction copied as [|e copied IH]; intros acc; [done|]. cbn [foldl].
    destruct (labels s !! entry_id e); cbn [fmap option_fmap option_map]; apply IH. }
  rewrite (foldl_emit (λ p seq, MutLabel seq p.1 (Some p.2))). cbn [fst].
  rewrite <- !app_assoc. f_equal. f_equal. f_equal. apply imap_ext. intros i x Hx. cbn. f_equal. lia.
Qed.

Lemma fork_replay s options copied ps :
  state_inv s → fork_selection s options = Ok (copied, ps) →
  ∃ ms s', createForkMutations s options = Ok ms ∧ applyMutations new_SessionState ms = Ok s'
    ∧ entries s' = renumber copied
    ∧ lanes s' = foldl (λ m p, map_set m p.1 p.2) [(js "main", None)] ps
    ∧ name s' = name s
    ∧ (∀ i, labels s' !! i = if decide (i ∈ entry_id <$> copied) then labels s !! i else None)
    ∧ records s' = [] ∧ openOperationsByLane s' = ∅.
Proof.
  intros Hs Hsel. pose proof (fork_selection_spec s options Hs) as Hspec. rewrite Hsel in Hspec.
  destruct (fork_contents_ok s options copied ps Hs Hspec) as (Hpf & Hps & _).
  pose proof (parents_first_NoDup copied Hpf) as Hnd.
  destruct (copied_labels_keys s copied Hnd) as [Hk Hlab].
  destruct (replay_entries copied Hpf) as (s1 & A1 & Q1 & E1 & I1 & U1 & L1 & N1 & B1 & R1 & O1).
  destruct (replay_lanes ps s1 (zlen copied) Q1) as (s2 & A2 & Q2 & L2 & N2 & B2 & T2).
  { intros l t Hin. by apply I1, (Hps l t). }
  destruct (replay_name (name s) s2 _ Q2) as (s3 & A3 & Q3 & L3 & N3 & B3 & T3).
  destruct (replay_labels (copied_labels s copied) s3 _ Q3) as (s4 & A4 & Q4 & L4 & N4 & B4 & T4).
  { intros i l Hin. destruct T2 as (_ & T2 & _), T3 as (_ & T3 & _). rewrite T3, T2. apply I1.
    apply list_elem_of_omap in Hin as (e & Hin & Hl). apply list_elem_of_fmap. exists e. split; [|done].
    by destruct (labels s !! entry_id e); [injection Hl as -> _|]. }
  eexists _, s4. split; [by apply createForkMutations_eq|].
  rewrite !applyMutations_app, A1. cbn [mbind result_bind]. rewrite applyMutations_app, A2. cbn [mbind result_bind].
  rewrite applyMutations_app, A3. cbn [mbind result_bind]. rewrite A4. split; [done|].
  destruct T2 as (Te2 & Tb2 & Tr2 & To2 & _), T3 as (Te3 & Tb3 & Tr3 & To3 & _), T4 as (Te4 & Tb4 & Tr4 & To4 & _).
  split_and!; try congruence.
  - rewrite N4, N3, N2, N1. by destruct (name s).
  - intros i. rewrite B4, B3, B2, B1. rewrite foldl_insert_lookup by done. rewrite Hlab, lookup_empty.
    case_decide; [by destruct (labels s !! i)|done].
Qed.
