(* ===== verification/SessionHistory.v ===== *)
(** * The history of a session

    What the state of a session is and which mutation it accepts next, in terms of the
    mutations that were applied and of nothing else: for a lane, the name and a label the
    last mutation that says something of them; for entries and records the order in which
    they came; for open operations the records of their lane. *)

From S2P Require Import Prelude JsNumber JsString JsMap SessionTypes SessionState.
From S2P Require Import SessionInvariant SessionQueries SessionFork.

(** ** What a history says *)

Definition entry_of (m : SessionMutation) : option Entry := match m with MutEntry _ e => Some e | _ => None end.
Definition record_of (m : SessionMutation) : option LaneRecord := match m with MutRecord r => Some r | _ => None end.
Definition id_of (m : SessionMutation) : option jsstring :=
  match m with MutEntry _ e => Some (entry_id e) | MutRecord r => Some (record_id r) | _ => None end.
Definition number_of (m : SessionMutation) : Z :=
  match m with
  | MutEntry _ e => entry_seq e
  | MutRecord r => record_seq r
  | MutLane q _ _ | MutName q _ | MutLabel q _ _ => q
  end.

Definition entries_in (ms : list SessionMutation) : list Entry := omap entry_of ms.
Definition records_in (ms : list SessionMutation) : list LaneRecord := omap record_of ms.

(** The last answer to a question. *)
Definition latest {A} (f : SessionMutation → option A) (ms : list SessionMutation) : option A := last (omap f ms).

Definition leaf_in (lane : jsstring) (ms : list SessionMutation) : option (option jsstring) :=
  match latest (λ m, match m with
                     | MutEntry (Some l) e => if decide (l = lane) then Some (Some (entry_id e)) else None
                     | MutLane _ l leaf => if decide (l = lane) then Some leaf else None
                     | _ => None
                     end) ms with
  | Some leaf => Some leaf
  | None => if decide (lane = js "main") then Some None else None
  end.
Definition name_in (ms : list SessionMutation) : option jsstring :=
  default None (latest (λ m, match m with MutName _ n => Some n | _ => None end) ms).
Definition label_in (id : jsstring) (ms : list SessionMutation) : option jsstring :=
  default None (latest (λ m, match m with MutLabel _ t l => if decide (t = id) then Some l else None | _ => None end) ms).

(** An operation of a lane that was started and that no later record of the lane finishes. *)
Definition opened (lane : jsstring) (ms : list SessionMutation) (r : LaneRecord) : Prop :=
  ∃ pre post, records_in ms = pre ++ r :: post ∧ record_lane r = lane
    ∧ (∃ leaf intent, record_body r = ROperationStarted leaf intent)
    ∧ ∀ r' outcome error, r' ∈ post → record_lane r' = lane → record_body r' ≠ ROperationFinished (record_id r) outcome error.

Definition usages_in (ms : list SessionMutation) : list Usage :=
  omap (λ r, match record_body r with RUsage u => Some (ur_usage u) | _ => None end) (records_in ms).
Definition sum_of (f : Usage → Z) (us : list Usage) : Z := foldr (λ u n, f u + n) 0 us.
Definition stats_in (ms : list SessionMutation) : SessionStats :=
  MkStats (zlen (filter (λ e, entry_type e = et_message) (entries_in ms)))
    (sum_of cacheRead (usages_in ms)) (sum_of (λ u, usage_input u + cacheWrite u) (usages_in ms))
    (sum_of totalTokens (usages_in ms)) (foldl num_add 0 (cost_total <$> usages_in ms)).

(** ** Which mutations may follow *)

Definition may_follow (ms : list SessionMutation) (m : SessionMutation) : Prop :=
  number_of m = zlen ms + 1 ∧
  match m with
  | MutEntry lane e =>
      entry_id e ∉ omap id_of ms
      ∧ (∀ l, lane = Some l → leaf_in l ms = Some (entry_parentId e))
      ∧ (∀ p, entry_parentId e = Some p → p ∈ entry_id <$> entries_in ms)
  | MutRecord r => is_Some (leaf_in (record_lane r) ms) ∧ record_id r ∉ omap id_of ms
  | MutLane _ _ leaf => ∀ i, leaf = Some i → i ∈ entry_id <$> entries_in ms
  | MutName _ _ => True
  | MutLabel _ t _ => t ∈ entry_id <$> entries_in ms
  end.

Inductive history : list SessionMutation → Prop :=
| history_nil : history []
| history_snoc ms m : history ms → may_follow ms m → history (ms ++ [m]).

(** ** The state of a history *)

Definition mutation_item (m : SessionMutation) : LogItem :=
  match m with
  | MutEntry _ e => LogEntry (entry_seq e) e
  | MutRecord r => LogRecord (record_seq r) r
  | MutLane q l t => LogLane q l t
  | MutName q n => LogName q n
  | MutLabel q t l => LogLabel q t l
  end.

Record describes (ms : list SessionMutation) (s : SessionState) : Prop := {
  d_next : nextSequence s = zlen ms + 1;
  d_log : log s = mutation_item <$> ms;
  d_entries : entries s = entries_in ms;
  d_entry id e : getEntry s id = Some e ↔ e ∈ entries_in ms ∧ entry_id e = id;
  d_records : records s = records_in ms;
  d_ids id : id ∈ usedIds s ↔ id ∈ omap id_of ms;
  d_lanes lane : map_get (getLanes s) lane = leaf_in lane ms;
  d_lanes_once : NoDup (getLanes s).*1;
  d_name : getName s = name_in ms;
  d_labels id : getLabel s id = label_in id ms;
  d_stats : getStats s = stats_in ms;
  d_open lane r : r ∈ map_values (default [] (openOperationsByLane s !! lane)) ↔ opened lane ms r;
  d_open_order lane : map_values (default [] (openOperationsByLane s !! lane)) `sublist_of` records_in ms }.

(** ** Lemmas *)

Lemma applied_log s m : log (applied s m) = log s ++ [mutation_item m].
Proof. by destruct m. Qed.

Lemma applied_records s m :
  records (applied s m) = match m with MutRecord r => records s ++ [r] | _ => records s end.
Proof. by destruct m. Qed.

Lemma applyMutations_log s ms s' : applyMutations s ms = Ok s' → log s' = log s ++ (mutation_item <$> ms).
Proof.
  revert s. induction ms as [|m ms IH]; intros s; cbn [applyMutations]; [intros [= <-]; by rewrite app_nil_r|].
  intros (s1 & [_ ->]%applyMutation_Ok & H1)%bind_Ok. rewrite (IH _ H1), applied_log, <- app_assoc. done.
Qed.

Lemma open_spec_length_snoc lane rs r :
  (is_started r = true → record_lane r = lane → open_spec lane rs = []) →
  (length (open_spec lane rs) ≤ 1)%nat → (length (open_spec lane (rs ++ [r])) ≤ 1)%nat.
Proof.
  intros Hr Hlen. rewrite open_spec_snoc. unfold is_started in Hr. destruct (record_body r); try done.
  - case_decide; [|done]. by rewrite Hr.
  - case_decide; [|done]. etrans; [apply length_filter|done].
Qed.

(** An operation is open exactly when a record of its lane starts it and no later
    record of the lane finishes it. *)
Lemma open_spec_iff lane rs r :
  r ∈ open_spec lane rs ↔
  ∃ pre post, rs = pre ++ r :: post ∧ is_started r = true ∧ record_lane r = lane
    ∧ Forall (λ r', finishes lane (record_id r) r' = false) post.
Proof.
  assert (∀ r post, existsb (finishes lane (record_id r)) post = false
          ↔ Forall (λ r', finishes lane (record_id r) r' = false) post) as Hex.
  { intros r0 post. induction post as [|r' post IH]; cbn; [by split|]. rewrite Forall_cons, orb_false_iff. by rewrite IH. }
  induction rs as [|r0 rs IH]; cbn.
  - split; [by intros ?%elem_of_nil|]. by intros ([|] & ? & ? & _).
  - destruct (is_started r0 && bool_decide (record_lane r0 = lane) && negb (existsb (finishes lane (record_id r0)) rs)) eqn:E.
    + rewrite !andb_true_iff, bool_decide_eq_true, negb_true_iff, Hex in E. destruct E as [[H1 H2] H3].
      rewrite elem_of_cons, IH. split.
      * intros [->|(pre & post & -> & ?)]; [by exists [], rs|by exists (r0 :: pre), post].
      * intros ([|? pre] & post & Heq & ?); injection Heq as -> ->; [by left|right; by exists pre, post].
    + rewrite IH. split.
      * intros (pre & post & -> & ?). by exists (r0 :: pre), post.
      * intros ([|? pre] & post & Heq & H1 & H2 & H3); injection Heq as -> ->; [|by exists pre, post].
        apply Hex in H3. rewrite H1, H2, H3, bool_decide_eq_true_2 in E by done. done.
Qed.

Lemma opened_iff lane ms r : opened lane ms r ↔ r ∈ open_spec lane (records_in ms).
Proof.
  rewrite open_spec_iff. unfold opened. split; intros (pre & post & -> & H); exists pre, post; (split; [done|]).
  - destruct H as (Hlane & (leaf & intent & Hb) & Hno). split_and!; [unfold is_started; by rewrite Hb|done|].
    apply Forall_forall. intros r' Hin. unfold finishes. destruct (record_body r') as [| |runId o e| | | | | |] eqn:Hr'; try done.
    apply bool_decide_eq_false_2. intros [Hl ->]. by apply (Hno r' o e).
  - destruct H as (Hst & Hlane & Hno). split_and!; [done| |].
    + unfold is_started in Hst. destruct (record_body r) as [leaf intent| | | | | | | |]; try done. by exists leaf, intent.
    + intros r' o e Hin Hl Hb. rewrite Forall_forall in Hno. specialize (Hno r' Hin). unfold finishes in Hno.
      rewrite Hb in Hno. apply bool_decide_eq_false in Hno. by apply Hno.
Qed.

Lemma open_spec_sublist lane rs : open_spec lane rs `sublist_of` rs.
Proof. induction rs as [|r rs IH]; cbn [open_spec]; [done|]. case_match; [by apply sublist_skip|by apply sublist_cons]. Qed.

Lemma latest_snoc {A} (f : SessionMutation → option A) ms m :
  latest f (ms ++ [m]) = match f m with Some a => Some a | None => latest f ms end.
Proof.
  unfold latest. rewrite omap_app. cbn. destruct (f m); [by rewrite last_snoc|by rewrite app_nil_r].
Qed.

Lemma items_entries (ms : list SessionMutation) : omap log_entry (mutation_item <$> ms) = entries_in ms.
Proof. unfold entries_in. induction ms as [|m ms IH]; [done|]. cbn. rewrite IH. by destruct m. Qed.
Lemma items_records (ms : list SessionMutation) : omap log_record (mutation_item <$> ms) = records_in ms.
Proof. unfold records_in. induction ms as [|m ms IH]; [done|]. cbn. rewrite IH. by destruct m. Qed.
Lemma items_ids (ms : list SessionMutation) : omap item_id (mutation_item <$> ms) = omap id_of ms.
Proof. induction ms as [|m ms IH]; [done|]. cbn. rewrite IH. by destruct m. Qed.

Lemma items_name (ms : list SessionMutation) : foldl name_step None (mutation_item <$> ms) = name_in ms.
Proof.
  induction ms as [|m ms IH] using rev_ind; [done|]. rewrite fmap_app, foldl_app, IH. unfold name_in.
  rewrite latest_snoc. by destruct m.
Qed.
Lemma items_label (ms : list SessionMutation) id : foldl label_step ∅ (mutation_item <$> ms) !! id = label_in id ms.
Proof.
  induction ms as [|m ms IH] using rev_ind; [done|]. rewrite fmap_app, foldl_app. unfold label_in in *.
  rewrite latest_snoc. destruct m as [| | | |q t l]; cbn [fmap list_fmap foldl mutation_item label_step]; try done.
  destruct l as [l|]; case_decide as Ht; cbn [default from_option].
  - subst. by rewrite lookup_insert_eq.
  - by rewrite lookup_insert_ne.
  - subst. by rewrite lookup_delete_eq.
  - by rewrite lookup_delete_ne.
Qed.

Lemma sum_of_snoc f us u : sum_of f (us ++ [u]) = sum_of f us + f u.
Proof. unfold sum_of. induction us as [|v us IH]; cbn; [lia|]. rewrite IH. lia. Qed.
Lemma items_stats (ms : list SessionMutation) : foldl stats_step (MkStats 0 0 0 0 0) (mutation_item <$> ms) = stats_in ms.
Proof.
  induction ms as [|m ms IH] using rev_ind; [done|]. rewrite fmap_app, foldl_app, IH. unfold stats_in, usages_in, entries_in, records_in.
  rewrite !omap_app. destruct m as [lane e|r| | |]; cbn [fmap list_fmap foldl mutation_item stats_step omap list_omap entry_of record_of];
    rewrite ?app_nil_r; try done.
  - rewrite filter_app, filter_cons, filter_nil. case_decide.
    + assert (∀ l : list Entry, zlen (l ++ [e]) = zlen l + 1) as -> by (intros l; unfold zlen; rewrite length_app; cbn; lia). done.
    + by rewrite app_nil_r.
  - unfold stats_after. destruct (record_body r); rewrite ?app_nil_r; try done.
    cbn. by rewrite !sum_of_snoc, fmap_app, foldl_app.
Qed.

(** What follows from the log and the invariant, and what has to be said of the lanes. *)
Lemma describes_intro ms s :
  state_inv s → log s = mutation_item <$> ms → (∀ lane, map_get (lanes s) lane = leaf_in lane ms) → describes ms s.
Proof.
  intros Hs Hlog Hlanes.
  assert (entries s = entries_in ms) as He by (by rewrite (inv_entries s Hs), Hlog, items_entries).
  assert (records s = records_in ms) as Hr by (by rewrite (inv_records s Hs), Hlog, items_records).
  assert (∀ lane, map_values (default [] (openOperationsByLane s !! lane)) = open_spec lane (records_in ms)) as Hopen.
  { intros lane. rewrite (inv_open s Hs), Hr. unfold map_values. rewrite <- list_fmap_compose. by apply list_fmap_id. }
  split; try done.
  - unfold nextSequence. rewrite (inv_sequence s Hs), Hlog. unfold zlen. by rewrite length_fmap.
  - intros id e. unfold getEntry. by rewrite (inv_byId s Hs), He.
  - intros id. by rewrite (inv_used s Hs), Hlog, items_ids.
  - apply (inv_lanes_wf s Hs).
  - unfold getName. by rewrite (inv_name s Hs), Hlog, items_name.
  - intros id. unfold getLabel. by rewrite (inv_labels s Hs), Hlog, items_label.
  - unfold getStats. by rewrite (inv_stats s Hs), Hlog, items_stats.
  - intros lane r. by rewrite Hopen, opened_iff.
  - intros lane. rewrite Hopen. apply open_spec_sublist.
Qed.

Lemma describes_nil : describes [] new_SessionState.
Proof. apply describes_intro; [apply inv_initial|done|]. intros lane. cbn. unfold leaf_in. cbn. repeat case_decide; congruence. Qed.

Lemma known_entry ms s id : describes ms s → is_Some (entriesById s !! id) ↔ id ∈ entry_id <$> entries_in ms.
Proof.
  intros Hd. rewrite list_elem_of_fmap. pose proof (d_entry _ _ Hd id) as He. unfold getEntry in He. split.
  - intros [e Hid]. apply He in Hid as [Hin <-]. by exists e.
  - intros (e & -> & Hin). exists e. by apply He.
Qed.

(** A mutation is acceptable to the state of a history exactly when it may follow it. *)
Lemma acceptable_iff ms s m : describes ms s → acceptable s m ↔ may_follow ms m.
Proof.
  intros Hd. unfold acceptable, may_follow. pose proof (d_next _ _ Hd) as Hn. unfold nextSequence in Hn.
  assert (mutation_seq m = number_of m) as -> by (by destruct m). rewrite Hn.
  assert (∀ l, map_get (lanes s) l = leaf_in l ms) as Hl by apply (d_lanes _ _ Hd).
  destruct m as [lane e|r|q lane leaf|q n|q t l].
  - rewrite (d_ids _ _ Hd). setoid_rewrite Hl. by setoid_rewrite (known_entry ms s _ Hd).
  - by rewrite (d_ids _ _ Hd), Hl.
  - by setoid_rewrite (known_entry ms s _ Hd).
  - done.
  - by rewrite (known_entry ms s _ Hd).
Qed.

Lemma describes_snoc ms s m : state_inv s → describes ms s → acceptable s m → describes (ms ++ [m]) (applied s m).
Proof.
  intros Hs Hd Ha. apply describes_intro; [by apply applied_inv|by rewrite applied_log, (d_log _ _ Hd), fmap_app|].
  intros lane. pose proof (d_lanes _ _ Hd) as Hl. unfold getLanes in Hl. unfold leaf_in. rewrite latest_snoc. specialize (Hl lane). unfold leaf_in in Hl.
  destruct m as [[l|] e|r|q l leaf|q n|q t l]; cbn [applied apply_entry apply_record apply_lane apply_name apply_label lanes set_field]; try done.
  - cbn. rewrite map_get_set, Hl. repeat case_decide; congruence.
  - cbn. rewrite map_get_set, Hl. repeat case_decide; congruence.
Qed.

Lemma applyMutations_snoc s ms m s1 : applyMutations s ms = Ok s1 → applyMutations s (ms ++ [m]) = applyMutation s1 m.
Proof. intros Hs. rewrite applyMutations_app, Hs. cbn. by destruct (applyMutation s1 m). Qed.
Lemma applyMutations_stop s ms m e : applyMutations s ms = Err e → applyMutations s (ms ++ [m]) = Err e.
Proof. intros Hs. by rewrite applyMutations_app, Hs. Qed.

Lemma history_inv ms m : history (ms ++ [m]) → history ms ∧ may_follow ms m.
Proof. inversion 1 as [Heq|ms' m' Hms Hm Heq]; [by destruct ms|]. by apply app_inj_tail in Heq as [-> ->]. Qed.

(** Replaying is deciding whether the mutations are a history. *)
Lemma replay_history ms :
  match applyMutations new_SessionState ms with
  | Ok s => state_inv s ∧ history ms ∧ describes ms s
  | Err _ => ¬ history ms
  end.
Proof.
  induction ms as [|m ms IH] using rev_ind; [split_and!; [apply inv_initial|constructor|apply describes_nil]|].
  destruct (applyMutations new_SessionState ms) as [s|e] eqn:Hms.
  - rewrite (applyMutations_snoc _ _ _ _ Hms). destruct IH as (Hs & Hh & Hd). destruct (applyMutation s m) as [s'|e] eqn:Hm.
    + apply applyMutation_Ok in Hm as [Ha ->]. split_and!; [by apply applied_inv| |by apply describes_snoc].
      constructor; [done|]. by apply (acceptable_iff ms s).
    + intros [_ Hf]%history_inv. apply (acceptable_iff ms s _ Hd) in Hf. apply applyMutation_accept in Hf. congruence.
  - rewrite (applyMutations_stop _ _ _ _ Hms). by intros [? _]%history_inv.
Qed.
