(* ===== verification/SessionStorage.v ===== *)
(** * Session storage: the interface and its in-memory implementation

    [SessionStorage] of [packages/agent/src/harness/session/types.ts] as a class and
    [packages/agent/src/harness/session/memory.ts], which implements it.  The
    clock ([Date.now()]) and the id generator ([uuidv7()]) are arguments of the
    operations that read them.  Each method runs without awaiting anything, so it
    is one atomic step. *)

From S2P Require Import Prelude JsNumber JsString JsMap SessionTypes SessionState.
From S2P Require Import SessionInvariant SessionQueries SessionFork SessionHistory.

(** ** The interface *)

Definition provision (e : ProvisionedEntry) (parentId : option jsstring) (seq now : Z) : Entry :=
  MkEntry (p_id e) seq parentId now (p_payload e).
Definition provision_record (r : NewRecord) (seq now : Z) : LaneRecord :=
  MkRecord (nr_id r) seq (nr_lane r) now (nr_body r).

Class SessionStorage (St : Type) := {
  abs : St → SessionState;
  st_metadata : St → SessionMetadata;
  st_createLane : St → jsstring → option jsstring → result session_error St;
  st_moveLane : St → jsstring → option jsstring → result session_error St;
  st_appendEntry : St → Z → ProvisionedEntry → jsstring → result session_error (Entry * St);
  st_appendRecord : St → Z → NewRecord → result session_error (LaneRecord * St);
  st_setName : St → option jsstring → result session_error St;
  st_setLabel : St → jsstring → option jsstring → result session_error St }.

(** The reads of a storage are those of the state it stands for. *)
Section Reads.
Context `{SessionStorage St}.
Definition st_getLanes (st : St) : list (jsstring * option jsstring) := getLanes (abs st).
Definition st_getEntry (st : St) (id : jsstring) : option Entry := getEntry (abs st) id.
Definition st_findEntries (st : St) (query : EntryQuery) : result session_error (list Entry) :=
  findEntries (abs st) query.
Definition st_findEntriesOnBranch (st : St) (query : EntryQuery) (bounds : BranchBounds) (start : jsstring)
  : result session_error (list Entry) := findEntriesOnBranch (abs st) query bounds start.
Definition st_findRecords (st : St) (query : RecordQuery) : result session_error (list LaneRecord) :=
  findRecords (abs st) query.
Definition st_findOpenOperations (st : St) (lane : jsstring) (limit : option jsnum)
  : result session_error (list LaneRecord) := findOpenOperations (abs st) lane limit.
Definition st_getLog (st : St) (options : LogOptions) : result session_error (list LogItem) :=
  getLog (abs st) options.
Definition st_getName (st : St) : option jsstring := getName (abs st).
Definition st_getLabel (st : St) (id : jsstring) : option jsstring := getLabel (abs st) id.
Definition st_getStats (st : St) : SessionStats := getStats (abs st).
End Reads.

(** ** In memory *)

Record InMemorySessionStorage := MkStorage { metadata : SessionMetadata; state : SessionState }.

#[export] Instance InMemorySessionStorage_eta : Eta InMemorySessionStorage := λ st,
  MkStorage (metadata st) (state st).

Definition new_Storage (m : SessionMetadata) : InMemorySessionStorage := MkStorage m new_SessionState.

(** [this.state.applyMutation(...)]. *)
Definition mutate (st : InMemorySessionStorage) (m : SessionMutation) : result session_error InMemorySessionStorage :=
  s ← applyMutation (state st) m; Ok (st <| state := s |>).

Definition fork (st : InMemorySessionStorage) (m : SessionMetadata) (options : ForkOptions)
    : result session_error InMemorySessionStorage :=
  ms ← createForkMutations (state st) options;
  s ← applyMutations (state (new_Storage m)) ms;
  Ok ((new_Storage m) <| state := s |>).

Definition createLane (st : InMemorySessionStorage) (lane : jsstring) (at_ : option jsstring)
    : result session_error InMemorySessionStorage :=
  _ ← validateNewLane (state st) lane;
  _ ← validateTarget (state st) at_;
  mutate st (MutLane (nextSequence (state st)) lane at_).

Definition moveLane (st : InMemorySessionStorage) (lane : jsstring) (to : option jsstring)
    : result session_error InMemorySessionStorage :=
  _ ← requireLane (state st) lane;
  _ ← validateTarget (state st) to;
  mutate st (MutLane (nextSequence (state st)) lane to).

Definition appendEntry (st : InMemorySessionStorage) (now : Z) (newEntry : ProvisionedEntry) (lane : jsstring)
    : result session_error (Entry * InMemorySessionStorage) :=
  parentId ← requireLane (state st) lane;
  _ ← validateUnusedId (state st) (p_id newEntry);
  let entry := provision newEntry parentId (nextSequence (state st)) now in
  st' ← mutate st (MutEntry (Some lane) entry);
  Ok (entry, st').

Definition is_started_body (b : RecordBody) : bool :=
  match b with ROperationStarted _ _ => true | _ => false end.

Definition appendRecord (st : InMemorySessionStorage) (now : Z) (newRecord : NewRecord)
    : result session_error (LaneRecord * InMemorySessionStorage) :=
  _ ← requireLane (state st) (nr_lane newRecord);
  _ ← validateUnusedId (state st) (nr_id newRecord);
  open ← findOpenOperations (state st) (nr_lane newRecord) (Some (of_Z 1));
  _ ← match head open with
      | Some current =>
          if is_started_body (nr_body newRecord) then Err (OperationOpen (nr_lane newRecord) (record_id current))
          else Ok ()
      | None => Ok ()
      end;
  let record := provision_record newRecord (nextSequence (state st)) now in
  st' ← mutate st (MutRecord record);
  Ok (record, st').

Definition setName (st : InMemorySessionStorage) (n : option jsstring) : result session_error InMemorySessionStorage :=
  mutate st (MutName (nextSequence (state st)) n).

Definition setLabel (st : InMemorySessionStorage) (id : jsstring) (label : option jsstring)
    : result session_error InMemorySessionStorage :=
  _ ← validateTarget (state st) (Some id);
  mutate st (MutLabel (nextSequence (state st)) id label).

#[export] Instance in_memory : SessionStorage InMemorySessionStorage := {|
  abs := state; st_metadata := metadata; st_createLane := createLane; st_moveLane := moveLane;
  st_appendEntry := appendEntry; st_appendRecord := appendRecord; st_setName := setName; st_setLabel := setLabel |}.

(** ** The repository

    The repository's map and the open sessions share the storage objects, so the
    map holds addresses into a store. *)

Record InMemorySessionRepo := MkRepo { store : list InMemorySessionStorage; sessions : jsmap jsstring nat }.

#[export] Instance InMemorySessionRepo_eta : Eta InMemorySessionRepo := λ r, MkRepo (store r) (sessions r).

Definition new_Repo : InMemorySessionRepo := MkRepo [] [].

(** [options.id ?? uuidv7()]. *)
Definition chosen_id (options : SessionCreateOptions) (uuid : jsstring) : jsstring := default uuid (create_id options).

(** Allocates a storage and registers it under its id. *)
Definition register (repo : InMemorySessionRepo) (id : jsstring) (storage : InMemorySessionStorage)
    : nat * InMemorySessionRepo :=
  (length (store repo), MkRepo (store repo ++ [storage]) (map_set (sessions repo) id (length (store repo)))).

Definition repo_create (repo : InMemorySessionRepo) (options : SessionCreateOptions) (uuid : jsstring) (now : Z)
    : result session_error (nat * InMemorySessionRepo) :=
  let id := chosen_id options uuid in
  if map_has (sessions repo) id then Err (SessionExists id) else
  Ok (register repo id (new_Storage (MkMetadata id now (create_parentSessionId options)))).

Definition requireStorage (repo : InMemorySessionRepo) (id : jsstring) : result session_error nat :=
  match map_get (sessions repo) id with Some address => Ok address | None => Err (SessionNotFound id) end.

Definition repo_open (repo : InMemorySessionRepo) (m : SessionMetadata) : result session_error nat :=
  requireStorage repo (meta_id m).

Definition repo_list (repo : InMemorySessionRepo) : list SessionMetadata :=
  omap (λ address, metadata <$> store repo !! address) (map_values (sessions repo)).

Definition repo_delete (repo : InMemorySessionRepo) (m : SessionMetadata) : InMemorySessionRepo :=
  repo <| sessions := map_delete (sessions repo) (meta_id m) |>.

Definition repo_fork (repo : InMemorySessionRepo) (source : SessionMetadata) (fork_options : ForkOptions)
    (options : SessionCreateOptions) (uuid : jsstring) (now : Z)
    : result session_error (nat * InMemorySessionRepo) :=
  address ← requireStorage repo (meta_id source);
  let id := chosen_id options uuid in
  if map_has (sessions repo) id then Err (SessionExists id) else
  match store repo !! address with
  | Some sourceStorage =>
      storage ← fork sourceStorage
        (MkMetadata id now (Some (default (meta_id source) (create_parentSessionId options)))) fork_options;
      Ok (register repo id storage)
  | None => Err (SessionNotFound (meta_id source))
  end.

(** ** What the operations come to

    Every operation checks what the caller asks for, and performs exactly one mutation
    or changes nothing. *)

Inductive storage_op :=
| SCreateLane (lane : jsstring) (at_ : option jsstring)
| SMoveLane (lane : jsstring) (to : option jsstring)
| SAppendEntry (now : Z) (entry : ProvisionedEntry) (lane : jsstring)
| SAppendRecord (now : Z) (record : NewRecord)
| SSetName (n : option jsstring)
| SSetLabel (id : jsstring) (label : option jsstring).

(** The operations of any storage, without what the caller is given. *)
Definition class_op `{SessionStorage St} (st : St) (op : storage_op) : result session_error St :=
  match op with
  | SCreateLane lane at_ => st_createLane st lane at_
  | SMoveLane lane to => st_moveLane st lane to
  | SAppendEntry now entry lane => snd <$> st_appendEntry st now entry lane
  | SAppendRecord now record => snd <$> st_appendRecord st now record
  | SSetName n => st_setName st n
  | SSetLabel id label => st_setLabel st id label
  end.

(** The mutation an operation performs on a state, or its refusal. *)
Definition planned (s : SessionState) (op : storage_op) : result session_error SessionMutation :=
  match op with
  | SCreateLane lane at_ =>
      _ ← validateNewLane s lane; _ ← validateTarget s at_; Ok (MutLane (nextSequence s) lane at_)
  | SMoveLane lane to =>
      _ ← requireLane s lane; _ ← validateTarget s to; Ok (MutLane (nextSequence s) lane to)
  | SAppendEntry now entry lane =>
      parentId ← requireLane s lane;
      _ ← validateUnusedId s (p_id entry);
      Ok (MutEntry (Some lane) (provision entry parentId (nextSequence s) now))
  | SAppendRecord now record =>
      _ ← requireLane s (nr_lane record);
      _ ← validateUnusedId s (nr_id record);
      open ← findOpenOperations s (nr_lane record) (Some (of_Z 1));
      _ ← match head open with
          | Some current =>
              if is_started_body (nr_body record) then Err (OperationOpen (nr_lane record) (record_id current)) else Ok ()
          | None => Ok ()
          end;
      Ok (MutRecord (provision_record record (nextSequence s) now))
  | SSetName n => Ok (MutName (nextSequence s) n)
  | SSetLabel id label => _ ← validateTarget s (Some id); Ok (MutLabel (nextSequence s) id label)
  end.

(** Runs the checks one after the other. *)
Ltac run_check :=
  match goal with
  | |- context [match ?r with Some _ => _ | None => _ end] => destruct r; cbn beta iota
  | |- context [if is_started_body ?b then _ else _] => destruct (is_started_body b); cbn beta iota
  | |- context [match ?r with Ok _ => _ | Err _ => _ end] =>
      lazymatch r with
      | context [match _ with _ => _ end] => fail
      | mutate _ _ => fail
      | _ => destruct r; cbn beta iota; try reflexivity
      end
  end.

Lemma memory_op_planned (st : InMemorySessionStorage) op :
  class_op st op = (m ← planned (state st) op; mutate st m).
Proof.
  destruct op; cbn [class_op st_createLane st_moveLane st_appendEntry st_appendRecord st_setName st_setLabel in_memory planned];
    unfold createLane, moveLane, appendEntry, appendRecord, setName, setLabel, mbind, fmap, result_bind, result_fmap.
  all: repeat run_check; try reflexivity.
  all: destruct (mutate _ _); reflexivity.
Qed.

(** *** When the operations are refused *)

(** At most one open operation on a lane. *)
Definition one_open (s : SessionState) : Prop := ∀ lane, (length (open_spec lane (records s)) ≤ 1)%nat.

Definition storage_inv (s : SessionState) : Prop := state_inv s ∧ one_open s.

Lemma applied_one_open s m :
  one_open s → (∀ r, m = MutRecord r → is_started r = true → open_spec (record_lane r) (records s) = []) →
  one_open (applied s m).
Proof.
  intros Hone Hm lane. rewrite applied_records. destruct m as [| r | | |]; try apply Hone.
  apply open_spec_length_snoc; [|apply Hone]. intros Hst <-. by apply Hm.
Qed.

Lemma mutate_acceptable st m : acceptable (state st) m → mutate st m = Ok (st <| state := applied (state st) m |>).
Proof. intros Hm. unfold mutate. by rewrite applyMutation_accept. Qed.

Lemma validateTarget_Ok s t :
  match validateTarget s t with
  | Ok _ => ∀ i, t = Some i → is_Some (entriesById s !! i)
  | Err e => ∃ i, t = Some i ∧ e = EntryNotFound i ∧ entriesById s !! i = None
  end.
Proof.
  destruct t as [i|]; cbn; [|naive_solver]. destruct (has_entry s i) eqn:E.
  - apply has_entry_spec in E. naive_solver.
  - exists i. split_and!; [done..|]. apply eq_None_not_Some. rewrite <- has_entry_spec. congruence.
Qed.

Lemma open_first s lane :
  storage_inv s → findOpenOperations s lane (Some (of_Z 1)) = Ok (open_spec lane (records s)).
Proof.
  intros [Hs Hone]. unfold findOpenOperations. cbn [mbind result_bind assertValidLimit].
  assert (int_value (of_Z 1) = Some 1) as H1 by (vm_compute; reflexivity). rewrite H1. cbn [mbind result_bind Z.leb Z.compare].
  rewrite (inv_open s Hs lane). specialize (Hone lane). unfold map_values. rewrite <- list_fmap_compose.
  destruct (open_spec lane (records s)) as [|o [|? ?]]; cbn in Hone; [done| |lia]. done.
Qed.

#[local] Arguments findOpenOperations : simpl never.
#[local] Arguments of_Z : simpl never.

(** What the state must offer for an operation to perform a mutation, and what is
    wrong with an operation that is refused. *)
Definition plans (s : SessionState) (op : storage_op) (m : SessionMutation) : Prop :=
  match op with
  | SCreateLane lane at_ =>
      map_get (lanes s) lane = None ∧ (∀ i, at_ = Some i → is_Some (entriesById s !! i)) ∧ m = MutLane (sequence s + 1) lane at_
  | SMoveLane lane to =>
      is_Some (map_get (lanes s) lane) ∧ (∀ i, to = Some i → is_Some (entriesById s !! i)) ∧ m = MutLane (sequence s + 1) lane to
  | SAppendEntry now e lane =>
      p_id e ∉ usedIds s
      ∧ ∃ leaf, map_get (lanes s) lane = Some leaf ∧ m = MutEntry (Some lane) (provision e leaf (sequence s + 1) now)
  | SAppendRecord now r =>
      is_Some (map_get (lanes s) (nr_lane r)) ∧ nr_id r ∉ usedIds s
      ∧ (is_started_body (nr_body r) = true → open_spec (nr_lane r) (records s) = [])
      ∧ m = MutRecord (provision_record r (sequence s + 1) now)
  | SSetName n => m = MutName (sequence s + 1) n
  | SSetLabel id label => is_Some (entriesById s !! id) ∧ m = MutLabel (sequence s + 1) id label
  end.

Definition declines (s : SessionState) (op : storage_op) (e : session_error) : Prop :=
  match op with
  | SCreateLane lane at_ =>
      (e = LaneExists lane ∧ is_Some (map_get (lanes s) lane)) ∨ ∃ i, at_ = Some i ∧ e = EntryNotFound i ∧ entriesById s !! i = None
  | SMoveLane lane to =>
      (e = LaneNotFound lane ∧ map_get (lanes s) lane = None) ∨ ∃ i, to = Some i ∧ e = EntryNotFound i ∧ entriesById s !! i = None
  | SAppendEntry now entry lane =>
      (e = LaneNotFound lane ∧ map_get (lanes s) lane = None) ∨ (e = IdExists (p_id entry) ∧ p_id entry ∈ usedIds s)
  | SAppendRecord now r =>
      (e = LaneNotFound (nr_lane r) ∧ map_get (lanes s) (nr_lane r) = None) ∨ (e = IdExists (nr_id r) ∧ nr_id r ∈ usedIds s)
      ∨ ∃ o, is_started_body (nr_body r) = true ∧ e = OperationOpen (nr_lane r) (record_id o) ∧ open_spec (nr_lane r) (records s) = [o]
  | SSetName n => False
  | SSetLabel id label => e = EntryNotFound id ∧ entriesById s !! id = None
  end.

Lemma planned_spec s op :
  storage_inv s → match planned s op with Ok m => plans s op m | Err e => declines s op e end.
Proof.
  intros Hinv. destruct op as [lane at_|lane to|now e lane|now r|n|id label]; cbn [planned plans declines]; unfold nextSequence.
  - unfold validateNewLane. destruct (map_has (lanes s) lane) eqn:E; cbn [mbind result_bind].
    { left. split; [done|]. by apply map_has_spec. }
    apply map_has_false in E. pose proof (validateTarget_Ok s at_) as Ht. destruct (validateTarget s at_) as [[]|]; [done|by right].
  - unfold requireLane. destruct (map_get (lanes s) lane) eqn:E; cbn [mbind result_bind]; [|by left].
    pose proof (validateTarget_Ok s to) as Ht. destruct (validateTarget s to) as [[]|]; [by split|by right].
  - unfold requireLane. destruct (map_get (lanes s) lane) as [leaf|] eqn:E; cbn [mbind result_bind]; [|by left].
    unfold validateUnusedId. case_decide as Hid; cbn [mbind result_bind]; [by right|]. split; [done|by exists leaf].
  - unfold requireLane. destruct (map_get (lanes s) (nr_lane r)) as [leaf|] eqn:E; cbn [mbind result_bind]; [|by left].
    unfold validateUnusedId. case_decide as Hid; cbn [mbind result_bind]; [right; by left|].
    rewrite open_first by done. cbn [mbind result_bind]. destruct Hinv as [Hs Hone]. specialize (Hone (nr_lane r)).
    destruct (open_spec (nr_lane r) (records s)) as [|o [|? ?]] eqn:Eo; cbn [head length] in Hone |- *; [by split_and!| |lia].
    destruct (is_started_body (nr_body r)) eqn:Eb; cbn [mbind result_bind]; [right; right; by exists o|by split_and!].
  - done.
  - pose proof (validateTarget_Ok s (Some id)) as Ht. destruct (validateTarget s (Some id)) as [[]|]; cbn [mbind result_bind].
    + split; [by apply Ht|done].
    + destruct Ht as (i & [= <-] & -> & ?). done.
Qed.

(** A planned mutation is accepted, and starts no second operation on a lane. *)
Lemma plans_acceptable s op m :
  state_inv s → plans s op m →
  acceptable s m ∧ ∀ r, m = MutRecord r → is_started r = true → open_spec (record_lane r) (records s) = [].
Proof.
  intros Hs. destruct op as [lane at_|lane to|now e lane|now r|n|id label]; cbn [plans].
  - intros (_ & Ht & ->). by split.
  - intros (_ & Ht & ->). by split.
  - intros (Hid & leaf & Hleaf & ->). split; [|done]. split; [done|]. cbn. split_and!; [done|congruence|].
    intros p ->. by apply (inv_lanes _ Hs lane).
  - intros (Hlane & Hid & Hopen & ->). split; [by split_and!|]. intros r' [= <-]. unfold is_started. cbn. intros Hb. apply Hopen.
    unfold is_started_body. by destruct (nr_body r).
  - intros ->. by split.
  - intros [Hid ->]. by split.
Qed.

Lemma planned_acceptable s op m :
  storage_inv s → planned s op = Ok m →
  acceptable s m ∧ ∀ r, m = MutRecord r → is_started r = true → open_spec (record_lane r) (records s) = [].
Proof. intros Hinv Hp. pose proof (planned_spec s op Hinv) as H. rewrite Hp in H. by apply (plans_acceptable _ _ _ (proj1 Hinv) H). Qed.

(** The operations of the storage in memory. *)
Lemma memory_op_spec (st : InMemorySessionStorage) op :
  storage_inv (state st) →
  match class_op st op with
  | Ok st' => ∃ m, plans (state st) op m ∧ acceptable (state st) m ∧ st' = st <| state := applied (state st) m |>
  | Err e => declines (state st) op e
  end.
Proof.
  intros Hinv. rewrite memory_op_planned. pose proof (planned_spec (state st) op Hinv) as Hplan.
  destruct (planned (state st) op) as [m|e]; cbn [mbind result_bind]; [|done].
  destruct (plans_acceptable _ _ _ (proj1 Hinv) Hplan) as [Ha _]. rewrite mutate_acceptable by done. by exists m.
Qed.
