(* ===== verification/JsonPayload.v ===== *)
(** * The durable-payload check

    [assertJsonSerializable] of [packages/agent/src/harness/session/session.ts]:
    an iterative depth-first walk over a heap of JavaScript objects with an
    explicit stack and the set of objects on the current path. *)

From S2P Require Import Prelude JsNumber JsString CborValue SessionTypes SessionState.

(** ** Objects, as far as the check can tell them apart *)

(** An own property: a data property with its value, or an accessor. *)
Inductive property := DataProperty (v : jsval) | Accessor.

(** An array: whether its prototype is [Array.prototype], whether it has own
    symbol keys, how many own string keys it has beside its indices and [length],
    and its elements with their holes.  Another object: whether its prototype is
    [Object.prototype] or [null], whether it has own symbol keys, and its own
    string-keyed properties in [Object.keys] order with their enumerability. *)
Inductive payload_object :=
| PArray (standard symbols : bool) (extra_keys : nat) (elements : list (option property))
| PObject (plain symbols : bool) (properties : list (jsstring * bool * property)).

Abbreviation payload_heap := (gmap nat payload_object) (only parsing).

(** [Object.getOwnPropertyNames(array).length]. *)
Definition own_names (extra_keys : nat) (elements : list (option property)) : nat :=
  length (omap id elements) + 1 + extra_keys.

Definition data_value (p : property) : option jsval :=
  match p with DataProperty v => Some v | Accessor => None end.

(** The checks on one object: the values pushed on the stack, in the order they
    are popped, or a refusal. *)
Definition object_values (ob : payload_object) : option (list jsval) :=
  match ob with
  | PArray standard symbols extra_keys elements =>
      if negb standard then None
      else if symbols || negb (Nat.eqb (own_names extra_keys elements) (length elements + 1)) then None
      else mapM (λ e, e ≫= data_value) elements
  | PObject plain symbols properties =>
      if negb plain then None
      else if symbols then None
      else
        let keys := filter (λ p, p.1.2 = true) properties in
        if negb (Nat.eqb (length properties) (length keys)) then None
        else mapM (λ p, data_value p.2) keys
  end.

(** [JsonValidationFrame]. *)
Inductive frame := Value (v : jsval) | Exit (a : nat).

Fixpoint validate (fuel : nat) (h : payload_heap) (active : gset nat) (stack : list frame)
    : result session_error unit :=
  match fuel with
  | O => Err OutOfFuel
  | S fuel =>
      match stack with
      | [] => Ok ()
      | Exit a :: stack => validate fuel h (active ∖ {[a]}) stack
      | Value candidate :: stack =>
          match candidate with
          | JNull | JStr _ | JBool _ => validate fuel h active stack
          | JNum x => if isFinite x then validate fuel h active stack else Err InvalidPayload
          | JUndefined | JOther => Err InvalidPayload
          | JRef a =>
              if decide (a ∈ active) then Err InvalidPayload else
              match h !! a ≫= object_values with
              | Some values => validate fuel h ({[a]} ∪ active) ((Value <$> values) ++ Exit a :: stack)
              | None => Err InvalidPayload
              end
          end
      end
  end.

Definition assertJsonSerializable (fuel : nat) (h : payload_heap) (v : jsval) : result session_error unit :=
  validate fuel h ∅ [Value v].

(** ** The contract: a finite JSON value

    What a JSON text can hold, built from its leaves: so without a cycle. *)
Inductive plain_object : payload_object → list jsval → Prop :=
| dense_array values : plain_object (PArray true false 0 ((λ v, Some (DataProperty v)) <$> values)) values
| data_record props :
    plain_object (PObject true false ((λ kv : jsstring * jsval, (kv.1, true, DataProperty kv.2)) <$> props)) props.*2.

Inductive json_tree (h : payload_heap) : jsval → Prop :=
| json_null : json_tree h JNull
| json_boolean b : json_tree h (JBool b)
| json_string s : json_tree h (JStr s)
| json_number x : num_exp x ≠ 2047 → json_tree h (JNum x)
| json_object a ob values :
    h !! a = Some ob → plain_object ob values → (∀ v, v ∈ values → json_tree h v) → json_tree h (JRef a).

(** ** The values that the check goes down to *)

Fixpoint json_value (n : nat) (h : payload_heap) (v : jsval) : bool :=
  match n with
  | O => false
  | S n =>
      match v with
      | JNull | JStr _ | JBool _ => true
      | JNum x => isFinite x
      | JUndefined | JOther => false
      | JRef a =>
          match h !! a ≫= object_values with
          | Some values => forallb (json_value n h) values
          | None => false
          end
      end
  end.

Definition is_json (h : payload_heap) (v : jsval) : Prop := ∃ n, json_value n h v = true.

(** ** Lemmas *)

Lemma json_value_mono n m h v : (n ≤ m)%nat → json_value n h v = true → json_value m h v = true.
Proof.
  revert m v. induction n as [|n IH]; intros m v Hm; [done|]. destruct m as [|m]; [lia|].
  cbn. destruct v as [| | | | | |a]; try done. destruct (h !! a ≫= object_values) as [values|]; [|done].
  rewrite !forallb_forall. intros H1 w Hw. apply IH; [lia|auto].
Qed.

Lemma json_value_child n h a values v :
  h !! a ≫= object_values = Some values → v ∈ values → json_value (S n) h (JRef a) = true → json_value n h v = true.
Proof.
  intros Ho Hv. cbn. rewrite Ho, forallb_forall. intros H1. apply H1. by apply list_elem_of_In.
Qed.

(** [v] lies strictly below every object of the current path. *)
Definition below (h : payload_heap) (active : gset nat) (v : jsval) : Prop :=
  ∀ a n, a ∈ active → json_value (S n) h (JRef a) = true → json_value n h v = true.

Lemma below_active h active a : below h active (JRef a) → a ∈ active → ¬ is_json h (JRef a).
Proof.
  intros Hb Ha [n Hn]. induction n as [|n IH]; [done|]. apply IH. by apply (Hb a).
Qed.

Lemma below_child h active a values v :
  h !! a ≫= object_values = Some values → v ∈ values → below h active (JRef a) →
  below h ({[a]} ∪ active) v.
Proof.
  intros Ho Hv Hb b n [->%elem_of_singleton|Hin]%elem_of_union Hn.
  - by eapply json_value_child.
  - specialize (Hb b n Hin Hn). destruct n as [|n]; [done|].
    apply (json_value_mono n); [lia|]. by eapply json_value_child.
Qed.

(** The walk over one value: either it goes on with the rest of the stack, and
    the value is JSON, or it refuses, and the value is not. *)
Definition walks (h : payload_heap) (active : gset nat) (v : jsval) : Prop :=
  ∃ n,
    (is_json h v ∧ ∀ fuel stack, validate (n + fuel) h active (Value v :: stack) = validate fuel h active stack)
    ∨ (¬ is_json h v ∧ ∀ fuel stack, validate (n + fuel) h active (Value v :: stack) = Err InvalidPayload).

Lemma walks_leaf h active v ok :
  (∀ a, v ≠ JRef a) → (∀ n, json_value (S n) h v = ok) →
  (∀ fuel stack, validate (S fuel) h active (Value v :: stack)
                 = if ok then validate fuel h active stack else Err InvalidPayload) →
  walks h active v.
Proof.
  intros Ha Hj Hv. exists 1%nat. destruct ok; [left|right]; (split; [|exact Hv]).
  - by exists 1%nat.
  - intros [[|n] Hn]; [done|]. by rewrite Hj in Hn.
Qed.

(** Walking a list of values. *)
Lemma walks_all h active values :
  Forall (walks h active) values →
  ∃ n,
    (Forall (is_json h) values
     ∧ ∀ fuel stack, validate (n + fuel) h active ((Value <$> values) ++ stack) = validate fuel h active stack)
    ∨ (¬ Forall (is_json h) values
       ∧ ∀ fuel stack, validate (n + fuel) h active ((Value <$> values) ++ stack) = Err InvalidPayload).
Proof.
  induction 1 as [|v values [n [[Hv Hn]|[Hv Hn]]] _ [m [[IHj IH]|[IHj IH]]]].
  - exists 0%nat. left. split; [by constructor|done].
  - exists (n + m)%nat. left. split; [by constructor|]. intros fuel stack. cbn [fmap list_fmap app].
    by rewrite <- Nat.add_assoc, Hn, IH.
  - exists (n + m)%nat. right. split; [by intros [_ ?]%Forall_cons|]. intros fuel stack. cbn [fmap list_fmap app].
    by rewrite <- Nat.add_assoc, Hn, IH.
  - exists n. right. split; [by intros [? _]%Forall_cons|]. intros fuel stack. apply Hn.
  - exists n. right. split; [by intros [? _]%Forall_cons|]. intros fuel stack. apply Hn.
Qed.

Lemma is_json_ref h a values :
  h !! a ≫= object_values = Some values → is_json h (JRef a) ↔ Forall (is_json h) values.
Proof.
  intros Ho. split.
  - intros [[|n] Hn]; [done|]. apply Forall_forall. intros v Hv. exists n. by eapply json_value_child.
  - intros Hall. assert (∃ n, Forall (λ v, json_value n h v = true) values) as [n Hn].
    { clear Ho. induction Hall as [|v values [n Hn] _ [m Hm]]; [exists 0%nat; by constructor|].
      exists (max n m). constructor; [by apply (json_value_mono n); [lia|]|].
      eapply Forall_impl; [exact Hm|]. intros w Hw. by apply (json_value_mono m); [lia|]. }
    exists (S n). cbn. rewrite Ho. apply forallb_forall. intros v Hv%list_elem_of_In.
    rewrite Forall_forall in Hn. by apply Hn.
Qed.

(** Every walk ends: each nested object joins the path, which stays in the heap. *)
Lemma walks_any h active v : below h active v → walks h active v.
Proof.
  remember (size (dom h ∖ active)) as k eqn:Hk. revert active v Hk.
  induction k as [k IH] using lt_wf_ind; intros active v -> Hb.
  destruct v as [| |b|x|s| |a].
  1: by eapply (walks_leaf _ _ _ false).
  1-2: by eapply (walks_leaf _ _ _ true).
  1: by eapply (walks_leaf _ _ _ (isFinite x)).
  1: by eapply (walks_leaf _ _ _ true).
  1: by eapply (walks_leaf _ _ _ false).
  destruct (decide (a ∈ active)) as [Ha|Ha].
  { exists 1%nat. right. split; [by eapply below_active|]. intros fuel stack. cbn. by rewrite decide_True. }
  destruct (h !! a ≫= object_values) as [values|] eqn:Ho.
  2: { exists 1%nat. right. split; [intros [[|n] Hn]; [done|]; cbn in Hn; by rewrite Ho in Hn|].
       intros fuel stack. cbn. by rewrite decide_False, Ho. }
  assert (Forall (walks h ({[a]} ∪ active)) values) as Hall.
  { apply Forall_forall. intros v Hv. eapply IH; [|reflexivity|by eapply below_child].
    apply subset_size. apply bind_Some in Ho as (ob & Hob & _).
    assert (a ∈ dom h) by by apply elem_of_dom. set_solver. }
  apply walks_all in Hall as [n [[Hj Hn]|[Hj Hn]]].
  - exists (S (n + 1)). left. split; [by rewrite is_json_ref|]. intros fuel stack. cbn [validate plus].
    rewrite decide_False, Ho by done. rewrite <- Nat.add_assoc, Hn. cbn. f_equal. set_solver.
  - exists (S n). right. split; [by rewrite is_json_ref|]. intros fuel stack. cbn [validate plus].
    by rewrite decide_False, Ho, Hn by done.
Qed.

(** What the checks on one object let through. *)
Lemma elements_dense elements values :
  mapM (λ e, e ≫= data_value) elements = Some values ↔ elements = (λ v, Some (DataProperty v)) <$> values.
Proof.
  rewrite mapM_Some. split.
  - induction 1 as [|e v elements values He _ IH]; [done|]. cbn. destruct e as [[w|]|]; try done. injection He as ->. by rewrite IH.
  - intros ->. induction values as [|v values IH]; by constructor.
Qed.

Lemma records_data (props : list (jsstring * bool * property)) values :
  Forall (λ p, p.1.2 = true) props →
  mapM (λ p, data_value p.2) props = Some values ↔
  ∃ kvs, props = (λ kv : jsstring * jsval, (kv.1, true, DataProperty kv.2)) <$> kvs ∧ values = kvs.*2.
Proof.
  intros Htrue. rewrite mapM_Some. split.
  - intros H. induction H as [|[[k b] p] v props values He _ IH]; [by exists []|].
    apply Forall_cons in Htrue as [Hb Htrue]. cbn in Hb. subst b.
    destruct (IH Htrue) as (kvs & -> & ->). destruct p as [w|]; [|done]. injection He as ->. by exists ((k, v) :: kvs).
  - intros (kvs & -> & ->). clear. induction kvs as [|kv kvs IH]; by constructor.
Qed.

Lemma own_names_dense extra elements :
  own_names extra elements = (length elements + 1)%nat → Forall is_Some elements → extra = 0%nat.
Proof.
  unfold own_names. intros Hn Hall. assert (length (omap id elements) = length elements); [|lia]. clear Hn.
  induction Hall as [|e elements [p ->] _ IH]; [done|]. cbn. by rewrite IH.
Qed.

Lemma filter_whole {A} (P : A → Prop) `{!∀ x, Decision (P x)} l : length (filter P l) = length l → Forall P l.
Proof.
  induction l as [|x l IH]; [done|]. rewrite filter_cons. case_decide; cbn; intros Hl; [constructor; [done|apply IH; lia]|].
  pose proof (length_filter P l). lia.
Qed.

Lemma filter_Forall {A} (P : A → Prop) `{!∀ x, Decision (P x)} l : Forall P l → filter P l = l.
Proof. induction 1 as [|x l Hx _ IH]; [done|]. by rewrite filter_cons_True, IH. Qed.

Lemma object_values_plain ob values : object_values ob = Some values ↔ plain_object ob values.
Proof.
  split.
  - destruct ob as [standard symbols extra elements|plain symbols props]; cbn [object_values].
    + destruct standard; [|done]. destruct symbols; [done|]. cbn [negb orb].
      destruct (Nat.eqb_spec (own_names extra elements) (length elements + 1)) as [Hn|]; [|done]. cbn [negb].
      intros Hm. apply elements_dense in Hm as ->.
      rewrite (own_names_dense _ _ Hn); [constructor|]. apply Forall_fmap, Forall_true. intros v. by eexists.
    + destruct plain; [|done]. destruct symbols; [done|]. cbn [negb].
      destruct (Nat.eqb_spec (length props) (length (filter (λ p, p.1.2 = true) props))) as [Hl|]; [|done]. cbn [negb].
      symmetry in Hl. apply filter_whole in Hl. rewrite filter_Forall by done.
      intros (kvs & -> & ->)%records_data; [constructor|done].
  - intros [vs|kvs]; cbn [object_values negb orb].
    + assert (own_names 0 ((λ v, Some (DataProperty v)) <$> vs) = (length ((λ v, Some (DataProperty v)) <$> vs) + 1)%nat) as ->.
      { unfold own_names. rewrite length_fmap. assert (length (omap id ((λ v, Some (DataProperty v)) <$> vs)) = length vs); [|lia].
        induction vs as [|v vs IH]; [done|]. cbn. by rewrite IH. }
      rewrite Nat.eqb_refl. by apply elements_dense.
    + assert (Forall (λ p : jsstring * bool * property, p.1.2 = true) ((λ kv : jsstring * jsval, (kv.1, true, DataProperty kv.2)) <$> kvs)) as Hall.
      { by apply Forall_fmap, Forall_true. }
      rewrite filter_Forall, Nat.eqb_refl by done. apply records_data; [done|]. by exists kvs.
Qed.

Lemma is_json_tree h v : is_json h v ↔ json_tree h v.
Proof.
  split.
  - intros [n Hn]. revert v Hn. induction n as [|n IH]; intros v; [done|]. destruct v as [| |b|x|s| |a]; cbn; try done; intros Hv; try constructor.
    + unfold isFinite in Hv. by apply negb_true_iff, Z.eqb_neq in Hv.
    + destruct (h !! a) as [ob|] eqn:Ha; [|done]. cbn in Hv. destruct (object_values ob) as [values|] eqn:Ho; [|done].
      rewrite forallb_forall in Hv. apply object_values_plain in Ho. eapply json_object; [done..|].
      intros v Hin. by apply IH, Hv, list_elem_of_In.
  - induction 1 as [|b|s|x Hx|a ob values Ha Ho _ IH]; try by exists 1%nat.
    + exists 1%nat. cbn. unfold isFinite. by apply negb_true_iff, Z.eqb_neq.
    + rewrite (is_json_ref h a values); [by apply Forall_forall|]. rewrite Ha. by apply object_values_plain.
Qed.

(** The check ends, and decides. *)
Lemma check_decides h v :
  ∃ n, (json_tree h v ∧ ∀ more, assertJsonSerializable (n + more) h v = Ok ())
       ∨ (¬ json_tree h v ∧ ∀ more, assertJsonSerializable (n + more) h v = Err InvalidPayload).
Proof.
  setoid_rewrite <- is_json_tree.
  destruct (walks_any h ∅ v) as [n [[Hj Hn]|[Hj Hn]]]; [by intros a m ?%not_elem_of_empty|exists (n + 1)%nat..];
    [left|right]; (split; [done|]); intros more; unfold assertJsonSerializable; rewrite <- Nat.add_assoc, Hn; by destruct more.
Qed.

(** C12: the durable-payload check ends on every heap, cyclic ones included, and
    accepts a value exactly when it is a finite JSON value: null, strings,
    booleans, finite numbers, dense standard arrays and plain objects of data
    properties, without a cycle (an object shared by two parents is accepted). *)
Theorem assertJsonSerializable_iff h v :
  ∃ fuel, (∀ more, assertJsonSerializable (fuel + more) h v = assertJsonSerializable fuel h v)
    ∧ ((assertJsonSerializable fuel h v = Ok () ∧ json_tree h v)
       ∨ (assertJsonSerializable fuel h v = Err InvalidPayload ∧ ¬ json_tree h v)).
Proof.
  destruct (check_decides h v) as [n [[Hj Hn]|[Hj Hn]]]; exists n; pose proof (Hn 0%nat) as Hn0; rewrite Nat.add_0_r in Hn0;
    (split; [intros more; by rewrite Hn, Hn0|]); [left|right]; done.
Qed.

(** An object that two parents share, an object in itself, a hole in an array that an own
    key makes up for, and a property that is not enumerable. *)
Example payload_examples :
  let record vs := PObject true false ((λ kv, (js kv.1, true, DataProperty kv.2)) <$> vs) in
  let check h := assertJsonSerializable 20 (list_to_map h) (JRef 0) in
  check [(0%nat, record [("a"%string, JRef 1); ("b"%string, JRef 1)]); (1%nat, record [("c"%string, JNull)])] = Ok ()
  ∧ check [(0%nat, record [("a"%string, JRef 0)])] = Err InvalidPayload
  ∧ check [(0%nat, PArray true false 1 [Some (DataProperty JNull); None])] = Err InvalidPayload
  ∧ check [(0%nat, PObject true false [(js "a", false, DataProperty JNull)])] = Err InvalidPayload.
Proof. vm_compute. by split_and!. Qed.
