(* ===== verification/Session.v ===== *)
(** * The session facade

    The [Session] class of [packages/agent/src/harness/session/session.ts], over
    any [SessionStorage].  The values the
    caller hands over are checked to be durable payloads before they are stored;
    [payload] is the JavaScript object (in its heap) whose typed view is the entry
    or the record.  The id generator is the argument [fresh]. *)

From S2P Require Import Prelude JsNumber JsString JsMap SessionTypes SessionState.
From S2P Require Import SessionInvariant SessionQueries SessionFork SessionStorage CborValue.
From S2P Require Import JsonPayload.

(** The object handed over and the heap it lives in. *)
Record payload := MkPayload { payload_in : gmap nat payload_object; payload_value : jsval }.

Section Session.
Context `{SessionStorage St}.
Context (fuel : nat).

Definition getLeafIdForLane (st : St) (lane : jsstring) : result session_error (option jsstring) :=
  match list_find (λ p, p.1 = lane) (st_getLanes st) with
  | Some (_, (_, leafId)) => Ok leafId
  | None => Err (LaneNotFound lane)
  end.

(** [resultLimit] replaces the limit of the caller's query. *)
Definition queryEntries (st : St) (query : EntryQuery) (resultLimit : option jsnum)
    : result session_error (list Entry) :=
  _ ← assertValidLimit (q_limit query);
  _ ← assertValidCursor (q_cursor query);
  st_findEntries st (query <| q_limit := resultLimit |>).

Definition queryBranchEntries (st : St) (defaultLane : jsstring) (query : EntryQuery) (bounds : BranchBounds)
    (resultLimit : option jsnum) : result session_error (list Entry) :=
  _ ← assertValidLimit (q_limit query);
  _ ← assertValidCursor (q_cursor query);
  start ← match b_start bounds with Some i => Ok (Some i) | None => getLeafIdForLane st defaultLane end;
  match start with
  | None => Ok []
  | Some start => st_findEntriesOnBranch st (query <| q_limit := resultLimit |>) bounds start
  end.

Definition queryRecords (st : St) (query : RecordQuery) : result session_error (list LaneRecord) :=
  _ ← assertValidLimit (rq_limit query);
  _ ← assertValidCursor (rq_afterSeq query);
  _ ← (if bool_decide (is_Some (rq_operationKind query)) && negb (bool_decide (rq_type query = Some rt_operation_started))
       then Err OperationKindWithoutType else Ok ());
  st_findRecords st query.

Definition queryLog (st : St) (options : LogOptions) : result session_error (list LogItem) :=
  _ ← assertValidLimit (log_limit options);
  _ ← assertValidCursor (log_afterSeq options);
  st_getLog st options.

Definition queryOpenOperations (st : St) (lane : jsstring) (limit : option jsnum)
    : result session_error (list LaneRecord) :=
  _ ← assertValidLimit limit;
  st_findOpenOperations st lane limit.

Definition commitEntry (st : St) (now : Z) (p : payload) (entry : ProvisionedEntry) (lane : jsstring)
    : result session_error (Entry * St) :=
  _ ← assertJsonSerializable fuel (payload_in p) (payload_value p);
  st_appendEntry st now entry lane.

Definition commitRecord (st : St) (now : Z) (p : payload) (record : NewRecord)
    : result session_error (LaneRecord * St) :=
  _ ← assertJsonSerializable fuel (payload_in p) (payload_value p);
  st_appendRecord st now record.

Definition appendMessageToLane (st : St) (now : Z) (fresh : jsstring) (p : payload) (lane : jsstring)
    (message : AgentMessage) : result session_error (jsstring * St) :=
  '(entry, st) ← commitEntry st now p (MkProvisioned fresh (PMessage message false)) lane;
  Ok (entry_id entry, st).

Definition appendCustomEntryToLane (st : St) (now : Z) (fresh : jsstring) (p : payload) (lane customType : jsstring)
    (data : option JsonValue) : result session_error (jsstring * St) :=
  '(entry, st) ← commitEntry st now p (MkProvisioned fresh (PCustom customType data)) lane;
  Ok (entry_id entry, st).

(** The tree a lane's view shows; the session itself is the view of [main]. *)
Record SessionTree := MkTree {
  tree_getLeafId : St → result session_error (option jsstring);
  tree_getEntry : St → jsstring → option Entry;
  tree_getStats : St → SessionStats;
  tree_getName : St → option jsstring;
  tree_setName : St → option jsstring → result session_error St;
  tree_getLabel : St → jsstring → option jsstring;
  tree_setLabel : St → jsstring → option jsstring → result session_error St;
  tree_findEntries : St → EntryQuery → result session_error (list Entry);
  tree_findEntry : St → EntryQuery → result session_error (option Entry);
  tree_findEntriesOnBranch : St → EntryQuery → BranchBounds → result session_error (list Entry);
  tree_findEntryOnBranch : St → EntryQuery → BranchBounds → result session_error (option Entry);
  tree_appendMessage : St → Z → jsstring → payload → AgentMessage → result session_error (jsstring * St);
  tree_appendCustomEntry :
    St → Z → jsstring → payload → jsstring → option JsonValue → result session_error (jsstring * St) }.

Definition view (lane : jsstring) : SessionTree := {|
  tree_getLeafId st := getLeafIdForLane st lane;
  tree_getEntry := st_getEntry;
  tree_getStats := st_getStats;
  tree_getName := st_getName;
  tree_setName := st_setName;
  tree_getLabel := st_getLabel;
  tree_setLabel := st_setLabel;
  tree_findEntries st query := queryEntries st query (q_limit query);
  tree_findEntry st query := head <$> queryEntries st query (Some (of_Z 1));
  tree_findEntriesOnBranch st query bounds := queryBranchEntries st lane query bounds (q_limit query);
  tree_findEntryOnBranch st query bounds := head <$> queryBranchEntries st lane query bounds (Some (of_Z 1));
  tree_appendMessage st now fresh p message := appendMessageToLane st now fresh p lane message;
  tree_appendCustomEntry st now fresh p customType data :=
    appendCustomEntryToLane st now fresh p lane customType data |}.

(** ** Every operation a client can perform on a session *)

Inductive session_op :=
| OpCreateLane (lane : jsstring) (at_ : option jsstring)
| OpMoveLane (lane : jsstring) (to : option jsstring)
| OpAppendEntry (now : Z) (p : payload) (entry : ProvisionedEntry) (lane : jsstring)
| OpAppendMessage (now : Z) (fresh : jsstring) (p : payload) (lane : jsstring) (message : AgentMessage)
| OpAppendCustom (now : Z) (fresh : jsstring) (p : payload) (lane customType : jsstring) (data : option JsonValue)
| OpAppendRecord (now : Z) (p : payload) (record : NewRecord)
| OpSetName (n : option jsstring)
| OpSetLabel (id : jsstring) (label : option jsstring).

Definition run_op (st : St) (op : session_op) : result session_error St :=
  match op with
  | OpCreateLane lane at_ => st_createLane st lane at_
  | OpMoveLane lane to => st_moveLane st lane to
  | OpAppendEntry now p entry lane => snd <$> commitEntry st now p entry lane
  | OpAppendMessage now fresh p lane message => snd <$> tree_appendMessage (view lane) st now fresh p message
  | OpAppendCustom now fresh p lane customType data =>
      snd <$> tree_appendCustomEntry (view lane) st now fresh p customType data
  | OpAppendRecord now p record => snd <$> commitRecord st now p record
  | OpSetName n => st_setName st n
  | OpSetLabel id label => st_setLabel st id label
  end.

(** A refused operation leaves the session as it was. *)
Definition run_ops (st : St) (ops : list session_op) : St :=
  foldl (λ st op, match run_op st op with Ok st' => st' | Err _ => st end) st ops.

End Session.
