(* ===== verification/SessionTheorems.v ===== *)
(** * What a session guarantees

    The properties of the session state machine, of its queries and forks, and of
    the operations that clients run. *)

From S2P Require Import Prelude JsNumber JsString JsMap SessionTypes SessionState.
From S2P Require Import SessionInvariant SessionQueries SessionFork SessionHistory SessionStorage CborValue.
From S2P Require Import JsonPayload Session.

(** ** Shared lemmas *)

(** Filtering by position is dropping. *)
Lemma filter_drop {A} (f : A → bool) (l : list A) (k : nat) :
  (∀ i x, l !! i = Some x → f x = bool_decide (k ≤ i)%nat) → filter (λ x, f x = true) l = drop k l.
Proof.
  revert k. induction l as [|x l IH]; intros k Hf; [by rewrite drop_nil|]. rewrite filter_cons_bool.
  rewrite (Hf 0%nat x eq_refl). destruct k as [|k].
  - rewrite bool_decide_eq_true_2 by lia. cbn [drop]. f_equal. rewrite (IH 0%nat); [done|].
    intros i y Hi. rewrite (Hf (S i) y Hi). apply bool_decide_ext. lia.
  - rewrite bool_decide_eq_false_2 by lia. cbn [drop]. apply IH.
    intros i y Hi. rewrite (Hf (S i) y Hi). apply bool_decide_ext. lia.
Qed.

Lemma log_after s a k :
  state_inv s → int_value a = Some k → 0 ≤ k →
  filter (λ i, seq_after (item_seq i) a = true) (log s) = drop (Z.to_nat k) (log s).
Proof.
  intros Hs Ha Hk. apply filter_drop. intros i it Hi. rewrite (inv_seq s Hs i it Hi). unfold seq_after. rewrite Ha.
  destruct (Z.ltb_spec k (Z.of_nat i + 1)); [rewrite bool_decide_eq_true_2 by lia|rewrite bool_decide_eq_false_2 by lia]; done.
Qed.

(** ** The state machine *)

(** C13: a sequence of mutations is accepted exactly when it is a history: each one has
    the next number; an entry and a record have a new id; an entry is added to a lane as
    the child of the lane's leaf, and its parent, the target of a lane and that of a label
    are earlier entries; a record is on a lane there is.  The state then is what the
    history says: its log, entries and records in order, each found by its id; every lane
    at the entry last added to it or the one it was moved to; the last name and the last
    label of each entry; the sums of the usages; the operations that were started and not
    finished. *)
Theorem session_state_is_its_log ms :
  match applyMutations new_SessionState ms with
  | Ok s => history ms ∧ describes ms s
  | Err _ => ¬ history ms
  end.
Proof. pose proof (replay_history ms) as H. by destruct (applyMutations new_SessionState ms) as [s|e]; [destruct H as (_ & ? & ?)|]. Qed.

Definition demo_message (t : Z) : EntryPayload :=
  PMessage (AgentLlm (MUser (MkUserMessage (StringContent (js "hi")) t))) false.
Definition demo_entry (id : string) (seq : Z) (parent : option jsstring) : Entry :=
  MkEntry (js id) seq parent (1000 + seq) (demo_message seq).
(** Two entries on [main], a label, a second lane at the first entry. *)
Definition demo_mutations : list SessionMutation := [
  MutEntry (Some (js "main")) (demo_entry "a" 1 None);
  MutEntry (Some (js "main")) (demo_entry "b" 2 (Some (js "a")));
  MutLabel 3 (js "a") (Some (js "start"));
  MutLane 4 (js "side") (Some (js "a"))].
Definition demo_state : SessionState :=
  default new_SessionState match applyMutations new_SessionState demo_mutations with Ok s => Some s | Err _ => None end.

Lemma demo_state_eq : applyMutations new_SessionState demo_mutations = Ok demo_state.
Proof. vm_compute. reflexivity. Qed.

Lemma demo_state_inv : state_inv demo_state.
Proof. apply (applyMutations_inv _ _ _ inv_initial demo_state_eq). Qed.

(** The walk from any entry of a reachable state ends at a root without a
    cycle and without a missing parent: it yields the path of parents, each entry
    once, up to and including the first one at a bound. *)
Theorem walkToRoot_path s start e :
  state_inv s → entriesById s !! start = Some e →
  ∃ path, branch (entriesById s) e path ∧ head path = Some e ∧ NoDup (entry_id <$> path)
    ∧ (∀ path', branch (entriesById s) e path' → path' = path)
    ∧ ∀ bounds, walkToRoot s start bounds = (until_bound bounds path, None).
Proof.
  intros Hs He. destruct (byId_self s Hs _ _ He) as [_ Hin]. destruct (branch_exists s Hs e Hin) as [path Hpath].
  destruct (branch_props s Hs e path Hin Hpath) as (Hhd & _ & Hnd).
  exists path. split_and!; [done..| |]; intros.
  - by eapply branch_det.
  - by eapply walkToRoot_spec.
Qed.

Lemma walkToRoot_path_witness :
  let e := demo_entry "b" 2 (Some (js "a")) in
  ∃ path, branch (entriesById demo_state) e path ∧ head path = Some e ∧ NoDup (entry_id <$> path)
    ∧ (∀ path', branch (entriesById demo_state) e path' → path' = path)
    ∧ ∀ bounds, walkToRoot demo_state (js "b") bounds = (until_bound bounds path, None).
Proof. intros e. apply (walkToRoot_path demo_state (js "b") e demo_state_inv). vm_compute. reflexivity. Defined.

(** A branch query with a valid limit and cursor returns, for a start that
    exists, the matching entries of the path in the order asked for, up to the
    bound in that order and at most [limit] of them; for a start that does not
    exist it throws [not_found]. *)
Theorem findEntriesOnBranch_result s query bounds start :
  state_inv s → assertValidLimit (q_limit query) = Ok () → assertValidCursor (q_cursor query) = Ok () →
  match entriesById s !! start with
  | Some e => ∃ path, branch (entriesById s) e path
      ∧ findEntriesOnBranch s query bounds start
        = Ok (limit_take (q_limit query)
                (filter (λ x, matchesEntryQuery x query = true)
                   (until_bound bounds match q_order query with Some oldestFirst => reverse path | _ => path end)))
  | None => findEntriesOnBranch s query bounds start = Err (EntryNotFound start)
  end.
Proof.
  intros Hs Hl Hc. destruct (entriesById s !! start) as [e|] eqn:He.
  - destruct (byId_self s Hs _ _ He) as [_ Hin]. destruct (branch_exists s Hs e Hin) as [path Hpath].
    exists path. split; [done|]. by eapply findEntriesOnBranch_spec.
  - unfold findEntriesOnBranch. rewrite Hl, Hc. cbn [mbind result_bind]. unfold walkToRoot. rewrite He.
    by destruct (q_order query) as [[]|].
Qed.

Definition demo_query : EntryQuery := no_query <| q_limit := Some (of_Z 1) |>.

Lemma findEntriesOnBranch_result_witness :
  match entriesById demo_state !! js "b" with
  | Some e => ∃ path, branch (entriesById demo_state) e path
      ∧ findEntriesOnBranch demo_state demo_query no_bounds (js "b")
        = Ok (limit_take (q_limit demo_query)
                (filter (λ x, matchesEntryQuery x demo_query = true)
                   (until_bound no_bounds
                      match q_order demo_query with Some oldestFirst => reverse path | _ => path end)))
  | None => findEntriesOnBranch demo_state demo_query no_bounds (js "b") = Err (EntryNotFound (js "b"))
  end.
Proof.
  apply (findEntriesOnBranch_result demo_state demo_query no_bounds (js "b") demo_state_inv);
    vm_compute; reflexivity.
Defined.

(** Reading the log from a cursor returns the items after it and nothing
    else, at most [limit] of them, so that following a page with the page from its
    last sequence number continues where it ended. *)
Theorem getLog_resumes s options k :
  state_inv s → assertValidLimit (log_limit options) = Ok () →
  match log_afterSeq options with Some a => int_value a = Some k ∧ 0 ≤ k | None => k = 0 end →
  ∃ page, getLog s options = Ok page ∧ page = limit_take (log_limit options) (drop (Z.to_nat k) (log s))
    ∧ ∀ final, last page = Some final →
        drop (Z.to_nat k) (log s) = page ++ drop (Z.to_nat (item_seq final)) (log s).
Proof.
  intros Hs Hl Hk. eexists. split; [|split; [reflexivity|]].
  - unfold getLog. rewrite Hl. cbn [mbind result_bind].
    assert (assertValidCursor (log_afterSeq options) = Ok ()) as ->.
    { apply assertValidCursor_Ok. intros a Ha. rewrite Ha in Hk. by exists k. }
    cbn [mbind result_bind]. rewrite collect_spec by by apply room_nil. cbn [app]. do 2 f_equal.
    destruct (log_afterSeq options) as [a|].
    + destruct Hk. by apply log_after.
    + subst k. rewrite filter_all by done. by rewrite drop_0.
  - intros it. set (rest := drop (Z.to_nat k) (log s)).
    assert (∃ n, limit_take (log_limit options) rest = take n rest) as [n ->].
    { destruct (log_limit options) as [l|]; cbn; [unfold slice_to; destruct (int_value l); [by eexists|]|].
      - exists 0%nat. by rewrite take_0.
      - exists (length rest). by rewrite take_ge. }
    intros Hlast. rewrite <- (take_drop n rest) at 1. f_equal.
    rewrite last_lookup in Hlast. set (i := Nat.pred (length (take n rest))) in *.
    assert (i < n)%nat as Hi.
    { apply lookup_lt_Some in Hlast as Hlt. rewrite length_take in Hlt. lia. }
    rewrite lookup_take_lt in Hlast by done. unfold rest in Hlast at 1. rewrite lookup_drop in Hlast.
    rewrite (inv_seq s Hs _ _ Hlast). unfold rest. rewrite drop_drop.
    apply lookup_lt_Some in Hlast. subst i. unfold rest in Hi, Hlast |- *. rewrite length_take, length_drop in Hi, Hlast |- *.
    destruct (decide (n ≤ length (log s) - Z.to_nat k)%nat).
    + f_equal. lia.
    + rewrite !drop_ge; [done|lia..].
Qed.

Lemma getLog_resumes_witness :
  ∃ page, getLog demo_state (MkLogOptions (Some (of_Z 1)) (Some (of_Z 2))) = Ok page
    ∧ page = limit_take (Some (of_Z 2)) (drop 1 (log demo_state))
    ∧ ∀ final, last page = Some final → drop 1 (log demo_state) = page ++ drop (Z.to_nat (item_seq final)) (log demo_state).
Proof.
  apply (getLog_resumes demo_state (MkLogOptions (Some (of_Z 1)) (Some (of_Z 2))) 1);
    [exact demo_state_inv|vm_compute; reflexivity|]. split; [vm_compute; reflexivity|lia].
Defined.

(** C17: a fork either refuses a target that is not a message entry, or computes
    mutations that a new session accepts; the new session has the selected entries
    (the whole tree, or the path from the root to the target), renumbered, the
    lanes of the source or [main] at the target, the source's name, the labels of
    the copied entries, and no operation records. *)
Theorem fork_copies s options :
  state_inv s →
  (∃ id, createForkMutations s options = Err (BadForkTarget id)
     ∧ ∀ e, entriesById s !! id = Some e → entry_type e ≠ et_message)
  ∨ ∃ copied ps ms s',
      fork_contents s options copied ps ∧ createForkMutations s options = Ok ms
      ∧ applyMutations new_SessionState ms = Ok s' ∧ state_inv s'
      ∧ entries s' = renumber copied
      ∧ (∀ l, map_get (lanes s') l
              = match map_get ps l with Some t => Some t | None => if decide (l = js "main") then Some None else None end)
      ∧ name s' = name s
      ∧ (∀ i, labels s' !! i = if decide (i ∈ entry_id <$> copied) then labels s !! i else None)
      ∧ records s' = [] ∧ ∀ lane, open_spec lane (records s') = [].
Proof.
  intros Hs. pose proof (fork_selection_spec s options Hs) as Hspec.
  destruct (fork_selection s options) as [[copied ps]|e] eqn:Hsel.
  2: { destruct Hspec as (id & -> & Hid). left. exists id. split; [|done].
       unfold createForkMutations. by rewrite Hsel. }
  right. destruct (fork_replay s options copied ps Hs Hsel) as (ms & s' & Hms & Happ & He & Hl & Hn & Hlab & Hr & Ho).
  exists copied, ps, ms, s'. split_and!; try done.
  - by apply (applyMutations_inv _ _ _ inv_initial Happ).
  - intros l. rewrite Hl.
    assert (NoDup ps.*1) as Hnd.
    { destruct Hspec as [| |]; [apply inv_lanes_wf, Hs|apply NoDup_singleton..]. }
    assert (∀ m, map_get (foldl (λ m p, map_set m p.1 p.2) m ps) l
                 = match map_get ps l with Some t => Some t | None => map_get m l end) as Hfold.
    { clear -Hnd. induction ps as [|[k v] ps IH]; intros m; [done|].
      rewrite fmap_cons in Hnd. apply NoDup_cons in Hnd as [Hk Hnd]. cbn [foldl fst snd map_get].
      rewrite IH, map_get_set by done. case_decide as Hd; [|done]. subst.
      by rewrite (proj2 (map_get_None ps k)) by done. }
    by rewrite Hfold.
  - intros lane. by rewrite Hr.
Qed.

Lemma fork_copies_witness :
  (∃ id, createForkMutations demo_state ForkTree = Err (BadForkTarget id)
     ∧ ∀ e, entriesById demo_state !! id = Some e → entry_type e ≠ et_message)
  ∨ ∃ copied ps ms s',
      fork_contents demo_state ForkTree copied ps ∧ createForkMutations demo_state ForkTree = Ok ms
      ∧ applyMutations new_SessionState ms = Ok s' ∧ state_inv s'
      ∧ entries s' = renumber copied
      ∧ (∀ l, map_get (lanes s') l
              = match map_get ps l with Some t => Some t | None => if decide (l = js "main") then Some None else None end)
      ∧ name s' = name demo_state
      ∧ (∀ i, labels s' !! i = if decide (i ∈ entry_id <$> copied) then labels demo_state !! i else None)
      ∧ records s' = [] ∧ ∀ lane, open_spec lane (records s') = [].
Proof. apply (fork_copies demo_state ForkTree demo_state_inv). Defined.

(** ** The operations of a client

    Stated on histories: what a client asks for that performs a mutation, and what is
    wrong with a request that is refused. *)

Definition durable (p : payload) : Prop := json_tree (payload_in p) (payload_value p).
Definition known (ms : list SessionMutation) (id : jsstring) : Prop := id ∈ entry_id <$> entries_in ms.

Definition adds_entry (ms : list SessionMutation) (now : Z) (p : payload) (id : jsstring) (content : EntryPayload)
    (lane : jsstring) (m : SessionMutation) : Prop :=
  durable p ∧ id ∉ omap id_of ms
  ∧ ∃ leaf, leaf_in lane ms = Some leaf ∧ m = MutEntry (Some lane) (MkEntry id (zlen ms + 1) leaf now content).

Definition performs (ms : list SessionMutation) (op : session_op) (m : SessionMutation) : Prop :=
  match op with
  | OpCreateLane lane at_ => leaf_in lane ms = None ∧ (∀ i, at_ = Some i → known ms i) ∧ m = MutLane (zlen ms + 1) lane at_
  | OpMoveLane lane to => is_Some (leaf_in lane ms) ∧ (∀ i, to = Some i → known ms i) ∧ m = MutLane (zlen ms + 1) lane to
  | OpAppendEntry now p e lane => adds_entry ms now p (p_id e) (p_payload e) lane m
  | OpAppendMessage now fresh p lane message => adds_entry ms now p fresh (PMessage message false) lane m
  | OpAppendCustom now fresh p lane customType data => adds_entry ms now p fresh (PCustom customType data) lane m
  | OpAppendRecord now p r =>
      durable p ∧ is_Some (leaf_in (nr_lane r) ms) ∧ nr_id r ∉ omap id_of ms
      ∧ (∀ leaf intent, nr_body r = ROperationStarted leaf intent → ∀ o, ¬ opened (nr_lane r) ms o)
      ∧ m = MutRecord (MkRecord (nr_id r) (zlen ms + 1) (nr_lane r) now (nr_body r))
  | OpSetName n => m = MutName (zlen ms + 1) n
  | OpSetLabel id label => known ms id ∧ m = MutLabel (zlen ms + 1) id label
  end.

Definition refuses_entry (ms : list SessionMutation) (p : payload) (id lane : jsstring) (e : session_error) : Prop :=
  (e = InvalidPayload ∧ ¬ durable p) ∨ (e = LaneNotFound lane ∧ leaf_in lane ms = None) ∨ (e = IdExists id ∧ id ∈ omap id_of ms).

Definition refuses (ms : list SessionMutation) (op : session_op) (e : session_error) : Prop :=
  let unknown target := ∃ i, target = Some i ∧ e = EntryNotFound i ∧ ¬ known ms i in
  match op with
  | OpCreateLane lane at_ => (e = LaneExists lane ∧ is_Some (leaf_in lane ms)) ∨ unknown at_
  | OpMoveLane lane to => (e = LaneNotFound lane ∧ leaf_in lane ms = None) ∨ unknown to
  | OpAppendEntry now p entry lane => refuses_entry ms p (p_id entry) lane e
  | OpAppendMessage now fresh p lane message => refuses_entry ms p fresh lane e
  | OpAppendCustom now fresh p lane customType data => refuses_entry ms p fresh lane e
  | OpAppendRecord now p r =>
      refuses_entry ms p (nr_id r) (nr_lane r) e
      ∨ (∃ leaf intent, nr_body r = ROperationStarted leaf intent)
        ∧ ∃ o, opened (nr_lane r) ms o ∧ e = OperationOpen (nr_lane r) (record_id o)
  | OpSetName n => False
  | OpSetLabel id label => unknown (Some id)
  end.

(** Every operation is one of the storage, after the check of what is handed over. *)
Definition op_storage (op : session_op) : storage_op :=
  match op with
  | OpCreateLane lane at_ => SCreateLane lane at_
  | OpMoveLane lane to => SMoveLane lane to
  | OpAppendEntry now p e lane => SAppendEntry now e lane
  | OpAppendMessage now fresh p lane message => SAppendEntry now (MkProvisioned fresh (PMessage message false)) lane
  | OpAppendCustom now fresh p lane t data => SAppendEntry now (MkProvisioned fresh (PCustom t data)) lane
  | OpAppendRecord now p r => SAppendRecord now r
  | OpSetName n => SSetName n
  | OpSetLabel id label => SSetLabel id label
  end.
Definition op_payload (op : session_op) : option payload :=
  match op with
  | OpAppendEntry _ p _ _ | OpAppendMessage _ _ p _ _ | OpAppendCustom _ _ p _ _ _ | OpAppendRecord _ p _ => Some p
  | _ => None
  end.

Lemma run_op_storage fuel (st : InMemorySessionStorage) op :
  run_op fuel st op =
  (_ ← match op_payload op with Some p => assertJsonSerializable fuel (payload_in p) (payload_value p) | None => Ok () end;
   class_op st (op_storage op)).
Proof.
  destruct op; cbn [run_op op_payload op_storage class_op view tree_appendMessage tree_appendCustomEntry mbind result_bind]; try done;
    unfold appendMessageToLane, appendCustomEntryToLane, commitEntry, commitRecord, mbind, result_bind, fmap, result_fmap;
    destruct (assertJsonSerializable _ _ _); try done; by destruct (st_appendEntry _ _ _ _) as [[]|].
Qed.

(** The state of the storage and the history of its mutations. *)
Record has_history (meta : SessionMetadata) (st : InMemorySessionStorage) (ms : list SessionMutation) : Prop := {
  hh_history : history ms;
  hh_describes : describes ms (state st);
  hh_inv : storage_inv (state st);
  hh_replay : applyMutations new_SessionState ms = Ok (state st);
  hh_metadata : metadata st = meta }.

Lemma new_has_history meta : has_history meta (new_Storage meta) [].
Proof. split; [constructor|apply describes_nil| |done|done]. split; [apply inv_initial|]. intros lane. cbn. lia. Qed.

Lemma has_history_step meta st ms op st' :
  has_history meta st ms → class_op st op = Ok st' → ∃ m, plans (state st) op m ∧ has_history meta st' (ms ++ [m]).
Proof.
  intros [Hh Hd Hinv Hrep Hm] Hop. pose proof (memory_op_spec st op Hinv) as Hspec. rewrite Hop in Hspec.
  destruct Hspec as (m & Hp & Ha & ->). exists m. split; [done|]. destruct (plans_acceptable _ _ _ (proj1 Hinv) Hp) as [_ Hone].
  split; cbn [state metadata set_field].
  - constructor; [done|]. by apply (acceptable_iff ms (state st)).
  - apply describes_snoc; [apply Hinv|done|done].
  - split; [apply applied_inv; [apply Hinv|done]|]. apply applied_one_open; [apply Hinv|done].
  - rewrite (applyMutations_snoc _ _ _ _ Hrep). by apply applyMutation_accept.
  - done.
Qed.

Lemma run_ops_history fuel meta ops : ∃ ms, has_history meta (run_ops fuel (new_Storage meta) ops) ms.
Proof.
  unfold run_ops. assert (∀ st ms, has_history meta st ms → ∃ ms', has_history meta
    (foldl (λ st op, match run_op fuel st op with Ok st' => st' | Err _ => st end) st ops) ms') as H.
  { induction ops as [|op ops IH]; intros st ms Hst; [by exists ms|]. cbn [foldl].
    destruct (run_op fuel st op) as [st'|e] eqn:Hop; [|by apply (IH st ms)].
    rewrite run_op_storage in Hop. apply bind_Ok in Hop as (_ & _ & Hop).
    destruct (has_history_step _ _ _ _ _ Hst Hop) as (m & _ & Hst'). by apply (IH st' (ms ++ [m])). }
  apply (H _ [] (new_has_history meta)).
Qed.

(** Plans and refusals, read on the history. *)
Section OnHistory.
Context (ms : list SessionMutation) (s : SessionState) (Hd : describes ms s).

Lemma known_iff id : is_Some (entriesById s !! id) ↔ known ms id.
Proof using Hd. by apply known_entry. Qed.
Lemma unknown_iff id : entriesById s !! id = None ↔ ¬ known ms id.
Proof using Hd. by rewrite <- known_iff, eq_None_not_Some. Qed.
Lemma sequence_in : sequence s + 1 = zlen ms + 1.
Proof using Hd. exact (d_next _ _ Hd). Qed.
Lemma leaf_iff lane : map_get (lanes s) lane = leaf_in lane ms.
Proof using Hd. exact (d_lanes _ _ Hd lane). Qed.
Lemma open_in lane o : o ∈ open_spec lane (records s) ↔ opened lane ms o.
Proof using Hd. by rewrite opened_iff, (d_records _ _ Hd). Qed.

Lemma plans_performs op m :
  (∀ p, op_payload op = Some p → durable p) → plans s (op_storage op) m → performs ms op m.
Proof using Hd.
  intros Hp. pose proof sequence_in as Hq. pose proof (d_ids _ _ Hd) as Hids.
  destruct op as [lane at_|lane to|now p e lane|now fresh p lane msg|now fresh p lane t data|now p r|n|id label];
    cbn [plans op_storage performs op_payload] in *; unfold adds_entry; rewrite ?Hq, ?leaf_iff, ?Hids; try setoid_rewrite leaf_iff;
    try setoid_rewrite known_iff; try done.
  1-3: intros (Hid & leaf & Hl & ->); split_and!; [by apply Hp|done|by exists leaf].
  intros (Hl & Hid & Hopen & ->). split_and!; [by apply Hp|done|done| |done].
  intros leaf intent Hb o Ho. apply open_in in Ho. rewrite Hopen in Ho; [by apply elem_of_nil in Ho|by rewrite Hb].
Qed.

Lemma declines_refuses op e : declines s (op_storage op) e → refuses ms op e.
Proof using Hd.
  pose proof (d_ids _ _ Hd) as Hids.
  destruct op as [lane at_|lane to|now p en lane|now fresh p lane msg|now fresh p lane t data|now p r|n|id label];
    cbn [declines op_storage refuses] in *; unfold refuses_entry; rewrite ?leaf_iff, ?Hids; try setoid_rewrite unknown_iff; try tauto.
  - intros [?|[?|(o & Hb & -> & Ho)]]; [tauto..|]. right. split.
    + destruct (nr_body r) as [leaf intent| | | | | | | |]; try done. by exists leaf, intent.
    + exists o. split; [|done]. apply open_in. rewrite Ho. by left.
  - intros [-> ?]. by exists id.
Qed.
End OnHistory.

(** At most one operation is open. *)
Lemma one_opened s ms lane r r' : one_open s → describes ms s → opened lane ms r → opened lane ms r' → r = r'.
Proof.
  intros Hone Hd Hr Hr'. apply (open_in ms s Hd) in Hr, Hr'. specialize (Hone lane).
  destruct (open_spec lane (records s)) as [|o [|? ?]]; cbn in Hone; [by apply elem_of_nil in Hr| |lia].
  apply list_elem_of_singleton in Hr, Hr'. congruence.
Qed.

(** C18: whatever operations clients have run on a session in memory, the session is what
    the history of its mutations says, with at most one open operation on a lane; and
    every further operation either performs its one mutation, which is when what it asks
    for is there, its payload is JSON, its id is new and no other operation is open, or
    changes nothing and names what is wrong. *)
Theorem session_operations_spec fuel meta ops op :
  let st := run_ops fuel (new_Storage meta) ops in
  ∃ ms, history ms ∧ describes ms (state st) ∧ metadata st = meta
    ∧ (∀ lane r r', opened lane ms r → opened lane ms r' → r = r')
    ∧ ∃ n, ∀ more,
        match run_op (n + more) st op with
        | Ok st' => ∃ m, performs ms op m ∧ describes (ms ++ [m]) (state st') ∧ metadata st' = meta
        | Err e => refuses ms op e
        end.
Proof.
  intros st. destruct (run_ops_history fuel meta ops) as [ms Hms]. fold st in Hms. pose proof Hms as [Hh Hd Hinv Hrep Hm].
  exists ms. split_and!; [done..| |].
  { intros lane r r'. apply (one_opened (state st)); [apply Hinv|done]. }
  assert ((∃ n, ∀ p, op_payload op = Some p → durable p
             ∧ ∀ more, assertJsonSerializable (n + more) (payload_in p) (payload_value p) = Ok ())
          ∨ ∃ n p, op_payload op = Some p ∧ ¬ durable p
             ∧ ∀ more, assertJsonSerializable (n + more) (payload_in p) (payload_value p) = Err InvalidPayload) as [[n Hp]|(n & p & Hp & Hno & Hn)].
  { destruct (op_payload op) as [p|]; [|left; by exists 0%nat].
    destruct (check_decides (payload_in p) (payload_value p)) as [n [[Hj Hn]|[Hj Hn]]]; [left|right]; exists n; [|by exists p].
    by intros ? [= <-]. }
  - exists n. intros more. rewrite run_op_storage.
    assert (match op_payload op with Some p => assertJsonSerializable (n + more) (payload_in p) (payload_value p) | None => Ok () end = Ok ()) as ->.
    { destruct (op_payload op) as [p|]; [|done]. by apply Hp. }
    cbn [mbind result_bind]. pose proof (memory_op_spec st (op_storage op) Hinv) as Hspec.
    destruct (class_op st (op_storage op)) as [st'|e] eqn:Hop; [|by apply (declines_refuses ms (state st))].
    destruct (has_history_step _ _ _ _ _ Hms Hop) as (m & Hplan & Hst'). exists m.
    split_and!; [|apply Hst'..]. apply (plans_performs ms (state st)); [done| |done]. intros p Heq. by apply Hp.
  - exists n. intros more. rewrite run_op_storage, Hp, Hn. cbn [mbind result_bind].
    destruct op; cbn [op_payload] in Hp; try done; injection Hp as ->; cbn [refuses]; unfold refuses_entry; tauto.
Qed.

(** C19: what recovery reads of a lane: of the operations of the lane that were started and
    that no later record of the lane finishes, the newest first, as many as it asks for; in
    a session that clients have run operations on there is at most one. *)
Theorem findOpenOperations_recovery ms s lane limit n :
  applyMutations new_SessionState ms = Ok s → int_value limit = Some n → 1 ≤ n →
  ∃ found, (∀ r, r ∈ found ↔ opened lane ms r) ∧ reverse found `sublist_of` records_in ms
    ∧ findOpenOperations s lane None = Ok found
    ∧ findOpenOperations s lane (Some limit) = Ok (take (Z.to_nat n) found)
    ∧ ∀ fuel meta ops, state (run_ops fuel (new_Storage meta) ops) = s → (length found ≤ 1)%nat.
Proof.
  intros Hms Hn Hle. pose proof (replay_history ms) as Hr. rewrite Hms in Hr. destruct Hr as (Hs & Hh & Hd).
  assert (map_values (default [] (openOperationsByLane s !! lane)) = open_spec lane (records s)) as Hopen.
  { rewrite (inv_open s Hs lane). unfold map_values. rewrite <- list_fmap_compose. by apply list_fmap_id. }
  exists (reverse (open_spec lane (records s))). split_and!.
  - intros r. rewrite elem_of_reverse. by apply open_in.
  - rewrite reverse_involutive, (d_records _ _ Hd). apply open_spec_sublist.
  - unfold findOpenOperations. cbn [mbind result_bind assertValidLimit]. by rewrite Hopen.
  - unfold findOpenOperations. assert (assertValidLimit (Some limit) = Ok ()) as ->.
    { apply assertValidLimit_Ok. intros l [= <-]. exists n. split; [done|lia]. }
    cbn [mbind result_bind]. rewrite Hopen. unfold slice_to. rewrite Hn. f_equal.
    destruct (Z.min_spec n (zlen (reverse (open_spec lane (records s))))) as [[Hlt ->]|[Hge ->]]; [done|].
    unfold zlen in *. rewrite !take_ge by lia. done.
  - intros fuel meta ops <-. rewrite length_reverse. destruct (run_ops_history fuel meta ops) as [ms' Hms'].
    apply (hh_inv _ _ _ Hms').
Qed.

(** An operation that is finished and one that is open. *)
Definition demo_operations : list SessionMutation :=
  let record id seq body := MutRecord (MkRecord (js id) seq (js "main") (1000 + seq) body) in
  [record "r1"%string 1 (ROperationStarted None (ICompaction None (js "c1")));
   record "f1"%string 2 (ROperationFinished (js "r1") completed None);
   record "r2"%string 3 (ROperationStarted None (ICompaction None (js "c2")))].
Definition demo_open : SessionState :=
  default new_SessionState match applyMutations new_SessionState demo_operations with Ok s => Some s | Err _ => None end.

Lemma findOpenOperations_recovery_witness :
  (∃ r, opened (js "main") demo_operations r ∧ record_id r = js "r2")
  ∧ ∃ found, (∀ r, r ∈ found ↔ opened (js "main") demo_operations r) ∧ reverse found `sublist_of` records_in demo_operations
    ∧ findOpenOperations demo_open (js "main") None = Ok found
    ∧ findOpenOperations demo_open (js "main") (Some (of_Z 2)) = Ok (take 2 found)
    ∧ ∀ fuel meta ops, state (run_ops fuel (new_Storage meta) ops) = demo_open → (length found ≤ 1)%nat.
Proof.
  split.
  - eexists. split; [apply opened_iff; vm_compute; by left|done].
  - apply (findOpenOperations_recovery demo_operations demo_open (js "main") (of_Z 2) 2); [vm_compute; reflexivity..|lia].
Defined.
