(* ===== verification/BranchSummary.v ===== *)
(** * Summaries of abandoned branches

    [packages/agent/src/harness/compaction/branch-summarization.ts]: what leaving a
    branch of the session tree abandons, the messages of it that fit a budget, and the
    request for their summary.  The session is a lane's view over any storage. *)

From S2P Require Import Prelude JsNumber JsString JsMap SessionTypes Messages Retry Prompts Compaction CompactionTheorems.
From S2P Require Import SessionState SessionInvariant SessionQueries SessionFork SessionHistory SessionStorage Session SessionTheorems.

(** ** The entries between two positions *)

Record CollectEntriesResult := MkCollected { col_entries : list Entry; commonAncestorId : option jsstring }.

Inductive collect_error := Storage (e : session_error) | InvalidEntry (id : jsstring) | Fuel.

(** [for (const entry of targetPath)]: the first one that is on the old path too. *)
Definition first_shared (oldPath : list jsstring) (targetPath : list Entry) : option jsstring :=
  (λ found, entry_id found.2) <$> list_find (λ e, entry_id e ∈ oldPath) targetPath.

(** The tree as the session shows it. *)
Section Collect.
Context {St : Type} (session : SessionTree (St:=St)) (st : St).

(** [while (current && current !== commonAncestorId)]. *)
Fixpoint collect_back (fuel : nat) (common current : option jsstring) (entries : list Entry)
    : result collect_error (list Entry) :=
  match current with
  | None | Some [] => Ok entries
  | Some id =>
      if bool_decide (current = common) then Ok entries
      else
        match fuel with
        | O => Err Fuel
        | S fuel =>
            match tree_getEntry session st id with
            | None => Err (InvalidEntry id)
            | Some entry => collect_back fuel common (entry_parentId entry) (entries ++ [entry])
            end
        end
  end.

(** The fuel is one more than the entries of the old path. *)
Definition collectEntriesForBranchSummary (oldLeafId : option jsstring) (targetId : jsstring)
    : result collect_error CollectEntriesResult :=
  match oldLeafId with
  | None | Some [] => Ok (MkCollected [] None)
  | Some oldLeaf =>
      let path (start : jsstring) := tree_findEntriesOnBranch session st no_query (MkBranchBounds (Some start) None None) in
      match path oldLeaf with
      | Err e => Err (Storage e)
      | Ok oldEntries =>
          match path targetId with
          | Err e => Err (Storage e)
          | Ok targetPath =>
              let common := first_shared (entry_id <$> oldEntries) targetPath in
              match collect_back (S (length oldEntries)) common oldLeafId [] with
              | Err e => Err e
              | Ok entries => Ok (MkCollected (reverse entries) common)
              end
          end
      end
  end.
End Collect.

(** ** The messages to summarise *)

Definition getMessageFromEntry (entry : Entry) : option AgentMessage :=
  match entry_payload entry with
  | PMessage m _ => if bool_decide (message_role m = role_toolResult) then None else Some m
  | PBranchSummary fromId summary _ _ =>
      Some (AgentBranchSummary (createBranchSummaryMessage summary fromId (entry_timestamp entry)))
  | PCompaction c =>
      Some (AgentCompactionSummary
              (createCompactionSummaryMessage (comp_summary c) (tokensBefore c) (entry_timestamp entry)))
  | _ => None
  end.

Record BranchPreparation := MkBranchPrep {
  bp_messages : list AgentMessage; bp_fileOps : FileOperations; bp_totalTokens : Z }.

#[export] Instance BranchPreparation_eta : Eta BranchPreparation := λ b,
  MkBranchPrep (bp_messages b) (bp_fileOps b) (bp_totalTokens b).

(** The files recorded with the branch summaries among the entries. *)
Definition add_summary_details (ops : FileOperations) (entry : Entry) : FileOperations :=
  match entry_payload entry with
  | PBranchSummary _ _ (Some details) _ => add_details ops (Some details)
  | _ => ops
  end.

Definition is_summary (entry : Entry) : bool :=
  match entry_payload entry with PCompaction _ | PBranchSummary _ _ _ _ => true | _ => false end.

Definition take_message (message : AgentMessage) (b : BranchPreparation) : BranchPreparation :=
  MkBranchPrep (message :: bp_messages b) (bp_fileOps b) (bp_totalTokens b + estimateTokens message).

(** The loop from the newest entry on: the entries are given newest first.
    [totalTokens < tokenBudget * 0.9] is a comparison of integers. *)
Fixpoint select_messages (tokenBudget : Z) (newest : list Entry) (b : BranchPreparation) : BranchPreparation :=
  match newest with
  | [] => b
  | entry :: newest =>
      match getMessageFromEntry entry with
      | None => select_messages tokenBudget newest b
      | Some message =>
          let b := b <| bp_fileOps := extractFileOpsFromMessage (bp_fileOps b) message |> in
          if (0 <? tokenBudget) && (tokenBudget <? bp_totalTokens b + estimateTokens message) then
            if is_summary entry && (10 * bp_totalTokens b <? 9 * tokenBudget) then take_message message b else b
          else select_messages tokenBudget newest (take_message message b)
      end
  end.

Definition prepareBranchEntries (entries : list Entry) (tokenBudget : Z) : BranchPreparation :=
  select_messages tokenBudget (reverse entries) (MkBranchPrep [] (foldl add_summary_details createFileOps entries) 0).

(** ** The summary *)

Record BranchSummaryResult := MkBranchSummaryResult {
  bs_summary : jsstring; bs_usage : option Usage; bs_readFiles : list jsstring; bs_modifiedFiles : list jsstring }.

Section Summary.
Context {W : Type} (completeSimple : CompletionRequest → W → AssistantMessage * W).
Context (sleep : Z → W → bool * W) (uuidv7 : W → jsstring * W) (now : W → Z * W).
Context (retry : option RetryPolicy) (callbacks : RetryCallbacks W).

Definition branch_budget (model : Model) (reserveTokens : option Z) : Z :=
  (if model_contextWindow model =? 0 then 128000 else model_contextWindow model) - default 16384 reserveTokens.

Definition branch_instructions (customInstructions : option jsstring) (replaceInstructions : bool) : jsstring :=
  match truthy_text customInstructions with
  | Some c => if replaceInstructions then c else BRANCH_SUMMARY_PROMPT ++ LF ++ LF ++ js "Additional focus: " ++ c
  | None => BRANCH_SUMMARY_PROMPT
  end.

(** The preamble is not empty, so neither is the summary. *)
Definition generateBranchSummary (entries : list Entry) (model : Model) (customInstructions : option jsstring)
    (replaceInstructions : bool) (reserveTokens : option Z) (w : W)
    : result summary_error BranchSummaryResult * W :=
  let prepared := prepareBranchEntries entries (branch_budget model reserveTokens) in
  match bp_messages prepared with
  | [] => (Ok (MkBranchSummaryResult (js "No content to summarize") None [] []), w)
  | messages =>
      let promptText := conversation_prompt messages ++ branch_instructions customInstructions replaceInstructions in
      let '(r, w) :=
        request_summary completeSimple sleep uuidv7 now retry callbacks model promptText 2048 None
          (js "Branch summary aborted") (js "Branch summary failed: ") w in
      ((λ tu : jsstring * Usage,
          let files := computeFileLists (bp_fileOps prepared) in
          MkBranchSummaryResult (BRANCH_SUMMARY_PREAMBLE ++ tu.1 ++ formatFileOperations files.1 files.2) (Some tu.2)
            files.1 files.2) <$> r, w)
  end.
End Summary.

(** ** What is collected *)

Lemma branch_head byId e path : branch byId e path → head path = Some e.
Proof. by destruct 1. Qed.

Lemma branch_suffix byId e pre x suf : branch byId e (pre ++ x :: suf) → branch byId x (x :: suf).
Proof.
  revert e. induction pre as [|y pre IH]; intros e Hb.
  - by pose proof (branch_head _ _ _ Hb) as [= ->].
  - cbn in Hb. inversion Hb as [? Hr Heq|? p path Hpar Hp Hb' Heq]; [by destruct pre|]. by eapply IH.
Qed.

Section Collected.
Context `{SessionStorage St} (fuel : nat) (lane : jsstring) (st : St).
Context (Hinv : state_inv (abs st)) (Hids : entriesById (abs st) !! [] = None).

Lemma collect_back_spec common n e pre suf acc :
  branch (entriesById (abs st)) e (pre ++ suf) → (∀ x, x ∈ pre → Some (entry_id x) ≠ common) →
  common = entry_id <$> head suf → (length pre < n)%nat → e ∈ entries (abs st) →
  collect_back (view fuel lane) st n common (Some (entry_id e)) acc = Ok (acc ++ pre).
Proof.
  revert e acc n. induction pre as [|x pre IH]; intros e acc n Hb Hpre Hc Hn He.
  - pose proof (branch_head _ _ _ Hb) as Hhd. cbn in Hhd. rewrite Hhd in Hc. rewrite app_nil_r. subst common.
    destruct n; cbn; destruct (entry_id e); rewrite ?bool_decide_eq_true_2 by done; done.
  - pose proof (branch_head _ _ _ Hb) as [= ->]. destruct n as [|n]; [cbn in Hn; lia|].
    pose proof (entry_byId _ Hinv e He) as Hbyid. cbn [collect_back].
    destruct (entry_id e) as [|c i] eqn:Hid; [congruence|]. rewrite <- Hid.
    rewrite bool_decide_eq_false_2 by (apply Hpre; apply elem_of_cons; by left).
    change (tree_getEntry (view fuel lane) st (entry_id e)) with (entriesById (abs st) !! entry_id e).
    rewrite Hid, Hbyid. rewrite (cons_middle e acc pre), (assoc_L app).
    inversion Hb as [? Hroot|? p path Hpar Hp Hb']; subst.
    + assert (pre = [] ∧ suf = []) as [-> ->] by (by apply app_nil). rewrite Hroot.
      by destruct n; rewrite app_nil_r.
    + rewrite Hpar. apply IH; [done| |done|cbn in Hn; lia|by apply (byId_self _ Hinv _ _ Hp)].
      intros y Hy. apply Hpre. apply elem_of_cons. by right.
Qed.

(** The whole path, newest first. *)
Lemma path_query start e path :
  entriesById (abs st) !! start = Some e → branch (entriesById (abs st)) e path →
  tree_findEntriesOnBranch (view fuel lane) st no_query (MkBranchBounds (Some start) None None) = Ok path.
Proof.
  intros He Hb. cbn [tree_findEntriesOnBranch view]. unfold queryBranchEntries, st_findEntriesOnBranch. cbn [b_start].
  refine (eq_trans (findEntriesOnBranch_spec (abs st) (no_query <| q_limit := None |>) _ start e path Hinv He Hb eq_refl eq_refl) _).
  cbn [q_limit q_order no_query limit_take set_field]. f_equal.
  assert (∀ l, until_bound (MkBranchBounds (Some start) None None) l = l) as ->
    by (induction l as [|x l IH]; [done|]; cbn; by f_equal).
  induction path as [|x path IH] in |- *; [done|]. rewrite filter_cons_True by done. by f_equal.
Qed.

Lemma path_query_missing start :
  entriesById (abs st) !! start = None →
  tree_findEntriesOnBranch (view fuel lane) st no_query (MkBranchBounds (Some start) None None) = Err (EntryNotFound start).
Proof.
  intros He. cbn [tree_findEntriesOnBranch view]. unfold queryBranchEntries, st_findEntriesOnBranch. cbn.
  unfold findEntriesOnBranch, walkToRoot. cbn. by rewrite He.
Qed.

(** Two paths share what follows the first entry of one that is on the other. *)
Lemma paths_meet e1 e2 p1 p2 :
  e1 ∈ entries (abs st) → e2 ∈ entries (abs st) →
  branch (entriesById (abs st)) e1 p1 → branch (entriesById (abs st)) e2 p2 →
  ∃ n1 n2 shared, p1 = n1 ++ shared ∧ p2 = n2 ++ shared
    ∧ (∀ x y, x ∈ n1 → y ∈ p2 → entry_id x ≠ entry_id y) ∧ first_shared (entry_id <$> p1) p2 = entry_id <$> head shared.
Proof.
  intros He1 He2 Hb1 Hb2. destruct (branch_props _ Hinv e1 p1 He1 Hb1) as (_ & Hin1 & Hnd1).
  destruct (branch_props _ Hinv e2 p2 He2 Hb2) as (_ & Hin2 & _). rewrite Forall_forall in Hin1, Hin2.
  assert (∀ x y, x ∈ entries (abs st) → y ∈ entries (abs st) → entry_id x = entry_id y → x = y) as Hinj.
  { intros x y Hx%(entry_byId _ Hinv) Hy%(entry_byId _ Hinv) Hxy. congruence. }
  unfold first_shared. destruct (list_find _ p2) as [[i x]|] eqn:Hf.
  - apply list_find_Some in Hf as (Hx2 & Hx1 & Hbefore).
    apply list_elem_of_fmap in Hx1 as (x' & Hid & Hx1).
    assert (x' = x) as -> by (symmetry; apply Hinj; [by eapply Hin2, list_elem_of_lookup_2|by apply Hin1|done]).
    apply list_elem_of_split in Hx1 as (n1 & s1 & ->).
    rewrite <- (take_drop_middle _ _ _ Hx2) in Hb2, Hin2 |- *. set (n2 := take i p2) in *. set (s2 := drop (S i) p2) in *.
    pose proof (branch_det _ _ _ _ (branch_suffix _ _ _ _ _ Hb1) (branch_suffix _ _ _ _ _ Hb2)) as [= ->].
    exists n1, n2, (x :: s2). split_and!; [done..| |done]. intros y z Hy Hz Hyz.
    apply elem_of_app in Hz as [Hz|Hz].
    + apply list_elem_of_lookup in Hz as (j & Hj). apply lookup_take_Some in Hj as [Hj Hlt].
      apply (Hbefore j z Hj Hlt). rewrite <- Hyz. apply list_elem_of_fmap_2, elem_of_app. by left.
    + rewrite fmap_app in Hnd1. apply NoDup_app in Hnd1 as (_ & Hd & _).
      apply (Hd (entry_id y)); [by apply list_elem_of_fmap_2|]. rewrite Hyz. by apply list_elem_of_fmap_2.
  - apply list_find_None in Hf. exists p1, p2, []. rewrite !app_nil_r. split_and!; [done..| |done].
    intros y z Hy Hz Hyz. rewrite Forall_forall in Hf. apply (Hf z Hz). rewrite <- Hyz. by apply list_elem_of_fmap_2.
Qed.
End Collected.

(** ** What is summarised

    The messages of the newest entries, in order, as many as fit the budget. *)

(** The message that stands for an entry; there is none for a tool result. *)
Inductive shows : Entry → AgentMessage → Prop :=
| shows_message e m deferred :
    entry_payload e = PMessage m deferred → (∀ t, m ≠ AgentLlm (MToolResult t)) → shows e m
| shows_branch e fromId summary details usage :
    entry_payload e = PBranchSummary fromId summary details usage →
    shows e (AgentBranchSummary (MkBranchSummaryMessage summary fromId (entry_timestamp e)))
| shows_compaction e c :
    entry_payload e = PCompaction c →
    shows e (AgentCompactionSummary (MkCompactionSummaryMessage (comp_summary c) (tokensBefore c) (entry_timestamp e))).
Definition silent (e : Entry) : Prop := ∀ m, ¬ shows e m.
Definition summary_entry (e : Entry) : Prop :=
  match entry_payload e with PCompaction _ | PBranchSummary _ _ _ _ => True | _ => False end.

Inductive messages_of : list Entry → list AgentMessage → Prop :=
| messages_nil : messages_of [] []
| messages_silent e es ms : silent e → messages_of es ms → messages_of (e :: es) ms
| messages_shown e m es ms : shows e m → messages_of es ms → messages_of (e :: es) (m :: ms).

Definition total_of (messages : list AgentMessage) : Z := foldr (λ m n, estimateTokens m + n) 0 messages.

(** [entries] are [older] and [kept], and [messages] those of [kept].  With a budget (a
    positive one), they fit it, unless the first is a summary that came when less than 90%
    of it was used; and nothing older has a message unless the next one, [next], does not
    fit and is no such summary, or that point was passed already. *)
Record fits (budget : Z) (older kept : list Entry) (messages : list AgentMessage) (next : option AgentMessage) : Prop := {
  fits_messages : messages_of kept messages;
  fits_budget : 0 < budget → total_of messages ≤ budget
    ∨ ∃ e kept' m rest, kept = e :: kept' ∧ summary_entry e ∧ shows e m ∧ messages = m :: rest ∧ 10 * total_of rest < 9 * budget;
  fits_most : match next with
    | None => Forall silent older ∨ 0 < budget < total_of messages
    | Some m => 0 < budget < total_of messages + estimateTokens m
        ∧ ∃ older' e between, older = older' ++ e :: between ∧ shows e m ∧ Forall silent between
          ∧ ¬ (summary_entry e ∧ 10 * total_of messages < 9 * budget)
    end }.

(** The files are those stored with the branch summaries and those that the calls in the
    messages name, and in the next one. *)
Definition files_listed (entries : list Entry) (messages : list AgentMessage) (ops : FileOperations) : Prop :=
  let stored key f := ∃ e fromId summary details usage, e ∈ entries
    ∧ entry_payload e = PBranchSummary fromId summary details usage ∧ details_name key details f in
  ∀ f, (f ∈ fo_read ops ↔ stored "readFiles"%string f ∨ file_called "read" messages f)
    ∧ (f ∈ fo_written ops ↔ file_called "write" messages f)
    ∧ (f ∈ fo_edited ops ↔ stored "modifiedFiles"%string f ∨ file_called "edit" messages f).

Definition newest_that_fit (budget : Z) (entries : list Entry) (b : BranchPreparation) : Prop :=
  ∃ older kept next, entries = older ++ kept ∧ fits budget older kept (bp_messages b) next
    ∧ bp_totalTokens b = total_of (bp_messages b)
    ∧ files_listed entries (option_list next ++ bp_messages b) (bp_fileOps b).

(** *** The loop does so *)

Lemma shows_iff e m : shows e m ↔ getMessageFromEntry e = Some m.
Proof.
  unfold getMessageFromEntry. split.
  - intros [e' m' d Hp Hno|? ? ? ? ? Hp|? ? Hp]; rewrite Hp; [|done..]. rewrite bool_decide_eq_false_2; [done|].
    destruct m' as [[u|a|t]| | | |]; try done. by destruct (Hno t).
  - destruct (entry_payload e) as [m' d| | | |c|fromId summary details usage|] eqn:Hp; try done.
    + case_bool_decide as Hr; [done|]. intros [= <-]. econstructor; [done|]. by intros t ->.
    + intros [= <-]. by constructor.
    + intros [= <-]. by econstructor.
Qed.

Lemma silent_iff e : silent e ↔ getMessageFromEntry e = None.
Proof.
  unfold silent. setoid_rewrite shows_iff. rewrite eq_None_not_Some. unfold is_Some. split; [by intros Hno [m Hm]; apply (Hno m)|].
  intros Hno m Hm. apply Hno. by exists m.
Qed.

Lemma is_summary_iff e : is_summary e = true ↔ summary_entry e.
Proof. unfold is_summary, summary_entry. by destruct (entry_payload e). Qed.

(** The messages that the loop has looked at, in their order. *)
Definition looked_at (ops : FileOperations) (messages : list AgentMessage) (b : BranchPreparation) : Prop :=
  bp_fileOps b = foldl extractFileOpsFromMessage ops (reverse messages).

(** The state of the loop: what it has taken fits. *)
Record filling (budget : Z) (ops : FileOperations) (kept : list Entry) (b : BranchPreparation) : Prop := {
  filling_messages : messages_of kept (bp_messages b);
  filling_total : bp_totalTokens b = total_of (bp_messages b);
  filling_budget : 0 < budget → bp_totalTokens b ≤ budget;
  filling_files : looked_at ops (bp_messages b) b }.

Lemma select_fits budget ops newest kept b :
  filling budget ops kept b →
  ∃ older taken next, reverse newest = older ++ taken
    ∧ fits budget older (taken ++ kept) (bp_messages (select_messages budget newest b)) next
    ∧ bp_totalTokens (select_messages budget newest b) = total_of (bp_messages (select_messages budget newest b))
    ∧ looked_at ops (option_list next ++ bp_messages (select_messages budget newest b)) (select_messages budget newest b).
Proof.
  revert kept b. induction newest as [|e newest IH]; intros kept b Hfill; pose proof Hfill as [Hm Ht Hb Hf].
  - exists [], [], None. cbn [select_messages app option_list]. split_and!; try done. split; [done|left; rewrite <- Ht; auto|by left].
  - rewrite reverse_cons. cbn [select_messages]. destruct (getMessageFromEntry e) as [m|] eqn:He.
    2: { destruct (IH (e :: kept) b) as (older & taken & next & -> & H1).
         { split; try done. apply messages_silent; [by apply silent_iff|done]. }
         exists older, (taken ++ [e]), next. by rewrite <- !(assoc_L app). }
    apply shows_iff in He as Hshow.
    set (b' := b <| bp_fileOps := extractFileOpsFromMessage (bp_fileOps b) m |>).
    assert (bp_messages b' = bp_messages b ∧ bp_totalTokens b' = bp_totalTokens b) as [Hbm Hbt] by done.
    assert (bp_fileOps b' = foldl extractFileOpsFromMessage ops (reverse (m :: bp_messages b))) as Hops.
    { unfold looked_at in Hf. by rewrite reverse_cons, foldl_app, <- Hf. }
    clearbody b'. rewrite Hbt. destruct ((0 <? budget) && _) eqn:Hfit.
    + rewrite andb_true_iff, !Z.ltb_lt in Hfit. destruct Hfit as [Hpos Hover].
      destruct (is_summary e && _) eqn:Hsum.
      * apply andb_true_iff in Hsum as [Hsum%is_summary_iff Hless%Z.ltb_lt].
        exists (reverse newest), [e], None. split_and!; [done| |cbn; rewrite Hbm, Hbt; unfold total_of in *; lia|].
        -- unfold take_message. cbn [bp_messages app]. rewrite Hbm. split.
           ++ by apply messages_shown.
           ++ intros _. right. exists e, kept, m, (bp_messages b). split_and!; try done. lia.
           ++ right. cbn. unfold total_of in *. lia.
        -- unfold looked_at, take_message. cbn [bp_fileOps bp_messages option_list app]. by rewrite Hbm.
      * exists (reverse newest ++ [e]), [], (Some m). cbn [app]. rewrite app_nil_r, Hbm.
        split_and!; [done| |by rewrite Hbt|].
        -- split; [done|left; rewrite <- Ht; auto|]. split; [lia|]. exists (reverse newest), e, []. split_and!; [done..|].
           intros [Hs%is_summary_iff Hl]. rewrite Hs in Hsum. cbn [andb] in Hsum. apply Z.ltb_ge in Hsum. lia.
        -- exact Hops.
    + destruct (IH (e :: kept) (take_message m b')) as (older & taken & next & -> & H1).
      { split; unfold looked_at, take_message; cbn [bp_messages bp_totalTokens bp_fileOps]; rewrite ?Hbm, ?Hbt.
        - by apply messages_shown.
        - unfold total_of in *. cbn. lia.
        - intros Hpos. apply andb_false_iff in Hfit as [?%Z.ltb_ge|?%Z.ltb_ge]; lia.
        - exact Hops. }
      exists older, (taken ++ [e]), next. by rewrite <- !(assoc_L app).
Qed.

Lemma stored_details entries ops f :
  let stored key f := ∃ e fromId summary details usage, e ∈ entries
    ∧ entry_payload e = PBranchSummary fromId summary details usage ∧ details_name key details f in
  let result := foldl add_summary_details ops entries in
  (f ∈ fo_read result ↔ f ∈ fo_read ops ∨ stored "readFiles"%string f)
  ∧ fo_written result = fo_written ops ∧ (f ∈ fo_edited result ↔ f ∈ fo_edited ops ∨ stored "modifiedFiles"%string f).
Proof.
  cbn zeta. revert ops. induction entries as [|e entries IH]; intros ops; cbn [foldl].
  { split_and!; try done; (split; [by left|]; intros [?|(e & ? & ? & ? & ? & Hin & _)]; [done|by apply elem_of_nil in Hin]). }
  destruct (IH (add_summary_details ops e)) as (-> & -> & ->). clear IH.
  assert (∀ key, (∃ e' fromId summary details usage, e' ∈ e :: entries
            ∧ entry_payload e' = PBranchSummary fromId summary details usage ∧ details_name key details f)
          ↔ (∃ fromId summary details usage, entry_payload e = PBranchSummary fromId summary details usage ∧ details_name key details f)
            ∨ (∃ e' fromId summary details usage, e' ∈ entries
               ∧ entry_payload e' = PBranchSummary fromId summary details usage ∧ details_name key details f)) as Hcons.
  { intros key. setoid_rewrite elem_of_cons. split.
    - intros (e' & a & b & c & d & [->|Hin] & H1); [left; by exists a, b, c, d|right; by exists e', a, b, c, d].
    - intros [(a & b & c & d & H1)|(e' & a & b & c & d & Hin & H1)]; [exists e, a, b, c, d|exists e', a, b, c, d]; auto. }
  rewrite !Hcons. unfold add_summary_details.
  destruct (entry_payload e) as [| | | | |fromId summary [details|] usage|] eqn:Hp.
  6: { unfold add_details. cbn [fo_read fo_written fo_edited set_field]. rewrite !elem_of_set_adds, !detail_files_name.
       assert (∀ key, (∃ a b c d, PBranchSummary fromId summary (Some details) usage = PBranchSummary a b c d ∧ details_name key c f)
                      ↔ details_name key (Some details) f) as Hd.
       { intros key. split; [by intros (? & ? & ? & ? & [= <- <- <- <-] & ?)|]. intros ?. by do 4 eexists. }
       rewrite !Hd. tauto. }
  6: { assert (∀ key, ¬ ∃ a b c d, PBranchSummary fromId summary None usage = PBranchSummary a b c d ∧ details_name key c f) as Hd.
       { intros key (? & ? & ? & ? & [= <- <- <- <-] & (? & ? & [=] & _)). }
       pose proof (Hd "readFiles"%string). pose proof (Hd "modifiedFiles"%string). tauto. }
  all: match goal with |- context [?p = PBranchSummary _ _ _ _] =>
         assert (∀ key, ¬ ∃ a b c d, p = PBranchSummary a b c d ∧ details_name key c f) as Hd by (by intros key (? & ? & ? & ? & [=] & _)) end;
       pose proof (Hd "readFiles"%string); pose proof (Hd "modifiedFiles"%string); tauto.
Qed.

Lemma file_called_reverse name ms f : file_called name (reverse ms) f ↔ file_called name ms f.
Proof. unfold file_called. by setoid_rewrite elem_of_reverse. Qed.

Lemma prepareBranchEntries_fits entries budget : newest_that_fit budget entries (prepareBranchEntries entries budget).
Proof.
  unfold prepareBranchEntries, newest_that_fit. set (ops := foldl add_summary_details createFileOps entries).
  destruct (select_fits budget ops (reverse entries) [] (MkBranchPrep [] ops 0)) as (older & taken & next & Heq & Hfits & Ht & Hf).
  { split; [constructor|done|cbn; lia|done]. }
  rewrite reverse_involutive in Heq. rewrite app_nil_r in Hfits. exists older, taken, next. split_and!; [done..|].
  intros f. unfold looked_at in Hf. rewrite Hf. destruct (stored_details entries createFileOps f) as (Hr & Hw & He). fold ops in Hr, Hw, He.
  rewrite (collects_messages _ _ _ _ _ collects_read), (collects_messages _ _ _ _ _ collects_write), (collects_messages _ _ _ _ _ collects_edit).
  rewrite !file_called_reverse, Hr, Hw, He. cbn [createFileOps fo_read fo_written fo_edited]. rewrite !elem_of_nil. tauto.
Qed.

(** ** Leaving a branch *)

(** C16: leaving a leaf for another entry of a well-formed session abandons exactly the
    entries of the leaf's path that are not on the target's: collected oldest first, up
    to the deepest entry both paths share, which is reported, and of which both paths
    have the same continuation to the root; a leaf or a target that does not exist is
    refused.  For any budget the messages prepared for the summary are those of the newest
    of the abandoned entries, tool results left out: they fit the budget (the first may be
    a summary that exceeds it when less than 90% was used), the next one would not, and the
    files listed are those the abandoned summaries recorded and those that the calls in the
    messages, and in the next one, name. *)
Theorem abandoned_branch `{SessionStorage St} fuel lane (st : St) old target :
  state_inv (abs st) → entriesById (abs st) !! [] = None → old ≠ [] →
  match entriesById (abs st) !! old, entriesById (abs st) !! target with
  | Some e1, Some e2 =>
      ∃ p2 abandoned visited shared,
        branch (entriesById (abs st)) e1 (abandoned ++ shared) ∧ branch (entriesById (abs st)) e2 p2
        ∧ p2 = visited ++ shared ∧ (∀ x y, x ∈ abandoned → y ∈ p2 → entry_id x ≠ entry_id y)
        ∧ collectEntriesForBranchSummary (view fuel lane) st (Some old) target
          = Ok (MkCollected (reverse abandoned) (entry_id <$> head shared))
        ∧ ∀ budget, newest_that_fit budget (reverse abandoned) (prepareBranchEntries (reverse abandoned) budget)
  | _, _ =>
      ∃ i, (i = old ∨ i = target) ∧ entriesById (abs st) !! i = None
        ∧ collectEntriesForBranchSummary (view fuel lane) st (Some old) target = Err (Storage (EntryNotFound i))
  end.
Proof.
  intros Hinv Hids Hold. destruct old as [|c o]; [done|]. unfold collectEntriesForBranchSummary. cbn match zeta beta.
  set (old := c :: o) in *. destruct (entriesById (abs st) !! old) as [e1|] eqn:He1.
  2: { exists old. rewrite path_query_missing by done. auto. }
  destruct (byId_self _ Hinv _ _ He1) as [Hid1 Hin1]. destruct (branch_exists _ Hinv e1 Hin1) as [p1 Hp1].
  rewrite (path_query fuel lane st Hinv old e1 p1) by done.
  destruct (entriesById (abs st) !! target) as [e2|] eqn:He2.
  2: { exists target. rewrite path_query_missing by done. auto. }
  destruct (byId_self _ Hinv _ _ He2) as [_ Hin2]. destruct (branch_exists _ Hinv e2 Hin2) as [p2 Hp2].
  rewrite (path_query fuel lane st Hinv target e2 p2) by done.
  destruct (paths_meet st Hinv e1 e2 p1 p2) as (abandoned & visited & shared & -> & -> & Hdis & ->); [done..|].
  exists (visited ++ shared), abandoned, visited, shared. split_and!; [done..| |intros; apply prepareBranchEntries_fits].
  rewrite <- Hid1.
  rewrite (collect_back_spec fuel lane st Hinv Hids (entry_id <$> head shared) _ e1 abandoned shared []); [done|done| |done| |done].
  - intros x Hx Heq. destruct shared as [|y shared]; [done|]. injection Heq as Heq. eapply Hdis; [exact Hx| |exact Heq].
    apply elem_of_app. right. by apply elem_of_cons; left.
  - rewrite length_app. lia.
Qed.

(** Two branches at the first entry: leaving [c] for [b]. *)
Definition branch_mutations : list SessionMutation := [
  MutEntry (Some (js "main")) (demo_entry "a" 1 None);
  MutEntry (Some (js "main")) (demo_entry "b" 2 (Some (js "a")));
  MutLane 3 (js "main") (Some (js "a"));
  MutEntry (Some (js "main")) (demo_entry "c" 4 (Some (js "a")))].
Definition branch_state : SessionState :=
  default new_SessionState match applyMutations new_SessionState branch_mutations with Ok s => Some s | Err _ => None end.
Definition branch_session : InMemorySessionStorage := MkStorage (MkMetadata (js "s") 0 None) branch_state.

Lemma branch_state_inv : state_inv branch_state.
Proof. apply (applyMutations_inv new_SessionState branch_mutations); [apply inv_initial|by vm_compute]. Qed.

Example branch_collected :
  collectEntriesForBranchSummary (view 0 (js "main")) branch_session (Some (js "c")) (js "b")
  = Ok (MkCollected [demo_entry "c" 4 (Some (js "a"))] (Some (js "a"))).
Proof. by vm_compute. Qed.

Lemma abandoned_branch_witness :
  match entriesById (abs branch_session) !! js "c", entriesById (abs branch_session) !! js "b" with
  | Some e1, Some e2 =>
      ∃ p2 abandoned visited shared,
        branch (entriesById (abs branch_session)) e1 (abandoned ++ shared) ∧ branch (entriesById (abs branch_session)) e2 p2
        ∧ p2 = visited ++ shared ∧ (∀ x y, x ∈ abandoned → y ∈ p2 → entry_id x ≠ entry_id y)
        ∧ collectEntriesForBranchSummary (view 0 (js "main")) branch_session (Some (js "c")) (js "b")
          = Ok (MkCollected (reverse abandoned) (entry_id <$> head shared))
        ∧ ∀ budget, newest_that_fit budget (reverse abandoned) (prepareBranchEntries (reverse abandoned) budget)
  | _, _ =>
      ∃ i, (i = js "c" ∨ i = js "b") ∧ entriesById (abs branch_session) !! i = None
        ∧ collectEntriesForBranchSummary (view 0 (js "main")) branch_session (Some (js "c")) (js "b")
          = Err (Storage (EntryNotFound i))
  end.
Proof.
  assert (entriesById (abs branch_session) !! [] = None) as Hids by by vm_compute.
  exact (abandoned_branch (St:=InMemorySessionStorage) 0 (js "main") branch_session (js "c") (js "b")
           branch_state_inv Hids ltac:(done)).
Defined.
