(* ===== verification/JsonlStorage.v ===== *)
(** * Sessions kept in a file

    [packages/agent/src/harness/session/jsonl/storage.ts]: a session file is a
    header line followed by the mutations of the session, one per line, in the
    order they were applied.  An operation checks its preconditions, appends the
    line, and only then changes the state it keeps in memory; opening a file
    replays its lines and repairs a tail that a crash has torn.  Operations are
    serialised by a queue, so each is one step; the clock is an argument. *)

From S2P Require Import Prelude JsNumber JsString JsMap SessionTypes JsonText SessionState FileSystem JsonlCodec.
From S2P Require Import SessionInvariant SessionQueries SessionFork SessionHistory SessionStorage.

(** ** The lines of a text *)

(** The lines of a file: the empty piece after a final newline is dropped. *)
Definition physical_lines (content : jsstring) : list jsstring :=
  let lines := split_at 10 content in
  match last lines with Some [] => take (length lines - 1) lines | _ => lines end.

Definition ends_with_newline (content : jsstring) : bool := bool_decide (last content = Some 10).

(** ** The storage *)

Record JsonlSessionStorage := MkJsonlStorage { jmetadata : JsonlSessionMetadata; jstate : SessionState }.

#[export] Instance JsonlSessionStorage_eta : Eta JsonlSessionStorage := λ st, MkJsonlStorage (jmetadata st) (jstate st).

Definition new_JsonlStorage (m : JsonlSessionMetadata) : JsonlSessionStorage := MkJsonlStorage m new_SessionState.

Definition temp_path (destination : jsstring) : jsstring := destination ++ js ".tmp".

Section Storage.
Context `{PayloadJson} `{FileSystem F}.

Definition publishFileAtomically (destination : jsstring) (populate : jsstring → fsM F unit) : fsM F unit := λ f,
  let temp := temp_path destination in
  match (_ ← populate temp; fileResult (λ f, renameFile f temp destination)) f with
  | (f', Ok u) => (f', Ok u)
  | (f', Err e) => ((remove f' temp).1, Err e)
  end.

Definition jsonl_create (path : jsstring) (header : JsonlV4Header) : fsM F JsonlSessionStorage :=
  _ ← fileResult (λ f, writeFile f path (encodeHeader header));
  info ← fileResult (λ f, fileInfo f path);
  mret (new_JsonlStorage (metadataFromHeader header path (mtimeMs info))).

(** The loop over the lines from [index] on. *)
Fixpoint load_lines (path content : jsstring) (lines : list jsstring) (storage : JsonlSessionStorage) (index : nat)
    (rest : list jsstring) : fsM F JsonlSessionStorage :=
  match rest with
  | [] =>
      if ends_with_newline content then mret storage
      else _ ← fileResult (λ f, appendFile f path [10]); mret storage
  | line :: rest =>
      match parseMutation line with
      | Err e =>
          match kind_of e, rest with
          | Syntax, [] =>
              let validPrefix := join 10 (take index lines) ++ [10] in
              _ ← publishFileAtomically path (λ temp, fileResult (λ f, writeFile f temp validPrefix));
              mret storage
          | _, _ => throw (InvalidFile (Z.of_nat index + 1))
          end
      | Ok m =>
          match applyMutation (jstate storage) m with
          | Ok s => load_lines path content lines (storage <| jstate := s |>) (S index) rest
          | Err e => if decide (error_code e = invalid_entry) then throw (InvalidFile (Z.of_nat index + 1)) else throw e
          end
      end
  end.

Definition jsonl_load (path : jsstring) : fsM F JsonlSessionStorage :=
  content ← fileResult (λ f, readTextFile f path);
  match physical_lines content with
  | [] | [] :: _ => throw (InvalidFile 1)
  | first :: rest =>
      header ← lift (map_err (λ _, InvalidFile 1) (decodeHeader first));
      info ← fileResult (λ f, fileInfo f path);
      load_lines path content (first :: rest) (new_JsonlStorage (metadataFromHeader header path (mtimeMs info))) 1 rest
  end.

(** *** Operations

    A method of a storage changes the file and the state in memory, and what it has
    changed stays changed when it throws. *)

#[local] Abbreviation method := (fsM (F * JsonlSessionStorage)).

(** [this]. *)
Definition this : method JsonlSessionStorage := λ w, (w, Ok w.2).
(** A call of the file system in a method. *)
Definition on_file {A} (m : fsM F A) : method A := λ w, let '(f, r) := m w.1 in ((f, w.2), r).

Definition appendMutation (m : SessionMutation) : method unit :=
  st ← this; on_file (fileResult (λ f, appendFile f (jm_path (jmetadata st)) (encodeMutation m))).

Definition japplyMutation (m : SessionMutation) : method unit := λ w,
  match applyMutation (jstate w.2) m with
  | Ok s => ((w.1, w.2 <| jstate := s |>), Ok ())
  | Err e => (w, Err e)
  end.

(** Write ahead, then apply. *)
Definition jcommit (m : SessionMutation) : method unit := _ ← appendMutation m; japplyMutation m.

Fixpoint jcommit_all (ms : list SessionMutation) : method unit :=
  match ms with
  | [] => mret ()
  | m :: ms => _ ← jcommit m; jcommit_all ms
  end.

(** Calls of methods of a storage that is then forgotten. *)
Definition with_storage (st : JsonlSessionStorage) {A} (m : method A) : fsM F A := λ f, let '(w, r) := m (f, st) in (w.1, r).

Definition jsonl_fork (st : JsonlSessionStorage) (path : jsstring) (header : JsonlV4Header) (options : ForkOptions)
    : fsM F JsonlSessionStorage :=
  mutations ← lift (createForkMutations (jstate st) options);
  _ ← publishFileAtomically path (λ temp,
        targetStorage ← jsonl_create temp header; with_storage targetStorage (jcommit_all mutations));
  jsonl_load path.

Definition jcreateLane (lane : jsstring) (at_ : option jsstring) : method unit :=
  st ← this;
  _ ← lift (validateNewLane (jstate st) lane);
  _ ← lift (validateTarget (jstate st) at_);
  jcommit (MutLane (nextSequence (jstate st)) lane at_).

Definition jmoveLane (lane : jsstring) (to : option jsstring) : method unit :=
  st ← this;
  _ ← lift (requireLane (jstate st) lane);
  _ ← lift (validateTarget (jstate st) to);
  jcommit (MutLane (nextSequence (jstate st)) lane to).

Definition jappendEntry (now : Z) (newEntry : ProvisionedEntry) (lane : jsstring) : method Entry :=
  st ← this;
  parentId ← lift (requireLane (jstate st) lane);
  _ ← lift (validateUnusedId (jstate st) (p_id newEntry));
  let entry := provision newEntry parentId (nextSequence (jstate st)) now in
  _ ← jcommit (MutEntry (Some lane) entry);
  mret entry.

Definition jappendRecord (now : Z) (newRecord : NewRecord) : method LaneRecord :=
  st ← this;
  _ ← lift (requireLane (jstate st) (nr_lane newRecord));
  _ ← lift (validateUnusedId (jstate st) (nr_id newRecord));
  open ← lift (findOpenOperations (jstate st) (nr_lane newRecord) (Some (of_Z 1)));
  _ ← lift match head open with
           | Some current =>
               if is_started_body (nr_body newRecord) then Err (OperationOpen (nr_lane newRecord) (record_id current))
               else Ok ()
           | None => Ok ()
           end;
  let record := provision_record newRecord (nextSequence (jstate st)) now in
  _ ← jcommit (MutRecord record);
  mret record.

Definition jsetName (n : option jsstring) : method unit :=
  st ← this; jcommit (MutName (nextSequence (jstate st)) n).

Definition jsetLabel (id : jsstring) (label : option jsstring) : method unit :=
  st ← this;
  _ ← lift (validateTarget (jstate st) (Some id));
  jcommit (MutLabel (nextSequence (jstate st)) id label).

(** Every operation that changes a session file; what the caller is given is left out. *)
Definition jsonl_op (op : storage_op) : method unit :=
  match op with
  | SCreateLane lane at_ => jcreateLane lane at_
  | SMoveLane lane to => jmoveLane lane to
  | SAppendEntry now entry lane => _ ← jappendEntry now entry lane; mret ()
  | SAppendRecord now record => _ ← jappendRecord now record; mret ()
  | SSetName n => jsetName n
  | SSetLabel id label => jsetLabel id label
  end.

(** A client that goes on when an operation is refused and gives up when the file
    system fails. *)
Fixpoint jsonl_ops (f : F) (st : JsonlSessionStorage) (ops : list storage_op) : F * JsonlSessionStorage :=
  match ops with
  | [] => (f, st)
  | op :: ops =>
      match jsonl_op op (f, st) with
      | ((f', st'), Err (FileFailed _)) => (f', st')
      | ((f', st'), _) => jsonl_ops f' st' ops
      end
  end.

End Storage.

(** ** Texts made of lines *)

Definition lines_text (ls : list jsstring) : jsstring := concat ((λ l, l ++ [10]) <$> ls).

Lemma lines_text_app ls ls' : lines_text (ls ++ ls') = lines_text ls ++ lines_text ls'.
Proof. unfold lines_text. by rewrite fmap_app, concat_app. Qed.

Lemma split_at_lines ls p :
  Forall (λ l, 10 ∉ l) ls → 10 ∉ p → split_at 10 (lines_text ls ++ p) = ls ++ [p].
Proof.
  intros Hls Hp. induction Hls as [|l ls Hl _ IH]; [by apply split_at_last|].
  change (lines_text (l :: ls)) with ((l ++ [10]) ++ lines_text ls). rewrite <- !app_assoc. cbn [app].
  by rewrite split_at_sep, IH.
Qed.

Lemma physical_lines_text ls p :
  Forall (λ l, 10 ∉ l) ls → 10 ∉ p →
  physical_lines (lines_text ls ++ p) = if decide (p = []) then ls else ls ++ [p].
Proof.
  intros Hls Hp. unfold physical_lines. rewrite split_at_lines, last_snoc by done. destruct p as [|c p]; [|done].
  rewrite decide_True by done. rewrite length_app. cbn [length]. rewrite Nat.add_sub. apply take_app_length.
Qed.

Lemma ends_with_newline_text ls p :
  ls ≠ [] → 10 ∉ p → ends_with_newline (lines_text ls ++ p) = bool_decide (p = []).
Proof.
  intros Hls Hp. unfold ends_with_newline. apply bool_decide_ext.
  destruct p as [|c p] using rev_ind.
  - rewrite app_nil_r. destruct ls as [|l ls] using rev_ind; [done|].
    rewrite lines_text_app. unfold lines_text at 2. cbn. rewrite app_nil_r, app_assoc, last_snoc. done.
  - rewrite app_assoc, last_snoc. rewrite not_elem_of_app in Hp. split; [|by intros [_ ?]%app_nil].
    intros [= ->]. exfalso. apply Hp. by left.
Qed.

Lemma join_lines ls : ls ≠ [] → join 10 ls ++ [10] = lines_text ls.
Proof.
  induction ls as [|l ls IH]; [done|]. intros _. destruct ls as [|l' ls].
  - unfold lines_text. cbn. by rewrite app_nil_r.
  - change (join 10 (l :: l' :: ls)) with (l ++ 10 :: join 10 (l' :: ls)).
    change (lines_text (l :: l' :: ls)) with ((l ++ [10]) ++ lines_text (l' :: ls)).
    rewrite <- IH by done. rewrite <- !app_assoc. done.
Qed.

Section Theory.
Context `{PayloadJson}.

(** ** The file of a session *)

Definition session_lines (h : JsonlV4Header) (ms : list SessionMutation) : list jsstring :=
  header_line h :: (mutation_line <$> ms).

(** What is written: the header, then the mutations in the order they were applied. *)
Definition file_text (h : JsonlV4Header) (ms : list SessionMutation) : jsstring :=
  encodeHeader h ++ concat (encodeMutation <$> ms).

Lemma file_text_lines h ms : Forall mutation_durable ms → file_text h ms = lines_text (session_lines h ms).
Proof.
  intros Hms. unfold file_text, session_lines, lines_text. rewrite fmap_cons. cbn [concat]. f_equal.
  rewrite <- list_fmap_compose. f_equal. induction Hms as [|m ms Hm _ IH]; [done|]. rewrite !fmap_cons. f_equal; [|done].
  by apply encodeMutation_line.
Qed.

Lemma file_text_snoc h ms m : file_text h (ms ++ [m]) = file_text h ms ++ encodeMutation m.
Proof. unfold file_text. rewrite fmap_app, concat_app. cbn. by rewrite app_nil_r, app_assoc. Qed.

Lemma session_lines_printable h ms :
  header_durable h = true → Forall mutation_durable ms → Forall (λ l, 10 ∉ l) (session_lines h ms).
Proof.
  intros Hh Hms. constructor; [by apply header_line_printable|]. apply Forall_fmap. eapply Forall_impl; [done|].
  apply mutation_line_printable.
Qed.

Lemma physical_lines_file h ms p :
  header_durable h = true → Forall mutation_durable ms → 10 ∉ p →
  physical_lines (file_text h ms ++ p)
  = header_line h :: (mutation_line <$> ms) ++ (if decide (p = []) then [] else [p]).
Proof.
  intros Hh Hms Hp. rewrite file_text_lines by done. rewrite physical_lines_text by auto using session_lines_printable.
  case_decide; [by rewrite app_nil_r|done].
Qed.

(** The part of a line that a crash left behind is the whole line with or without
    its newline, or does not parse. *)
Lemma torn_append m p :
  mutation_durable m → p `prefix_of` encodeMutation m →
  p = encodeMutation m ∨ (p = mutation_line m)
  ∨ (10 ∉ p ∧ (length p < length (mutation_line m))%nat
     ∧ (p ≠ [] → ∃ msg, parseMutation p = Err (MkDecodeError Syntax msg))).
Proof.
  intros Hm [q Hq]. rewrite encodeMutation_line in * by done. destruct q as [|c q _] using rev_ind.
  { left. by rewrite app_nil_r in Hq. }
  rewrite app_assoc in Hq. apply app_inj_tail in Hq as [Hq <-]. right. destruct q as [|d q].
  { left. by rewrite app_nil_r in Hq. }
  right. split_and!.
  - intros Hin. apply (mutation_line_printable m Hm). rewrite Hq, elem_of_app. by left.
  - rewrite Hq, length_app. cbn. lia.
  - intros _. by eapply torn_line.
Qed.

Context `{FileSystem F}.

(** ** Replaying lines *)

Lemma load_lines_replay path content lines st i ms rest s' f :
  Forall mutation_durable ms → applyMutations (jstate st) ms = Ok s' →
  load_lines path content lines st i ((mutation_line <$> ms) ++ rest) f
  = load_lines path content lines (st <| jstate := s' |>) (i + length ms) rest f.
Proof.
  intros Hms. revert st i. induction Hms as [|m ms Hm _ IH]; intros st i; cbn [applyMutations].
  - intros [= <-]. rewrite Nat.add_0_r. by destruct st.
  - intros (s1 & Happ & Hs1)%bind_Ok. rewrite fmap_cons. cbn [app load_lines].
    rewrite parseMutation_line, Happ by done. rewrite (IH (st <| jstate := s1 |>) (S i)) by done.
    cbn [length]. by rewrite Nat.add_succ_r.
Qed.

End Theory.

(** ** The file and the state agree *)

Section Laws.
Context `{PayloadJson} `{FileSystemLaws F}.

(** The session file holds the mutations [ms], and they replay to the state in
    memory. *)
Record file_log (f : F) (st : JsonlSessionStorage) (h : JsonlV4Header) (ms : list SessionMutation) : Prop := {
  fl_text : contents f !! jm_path (jmetadata st) = Some (file_text h ms);
  fl_header : header_durable h = true;
  fl_durable : Forall mutation_durable ms;
  fl_state : applyMutations new_SessionState ms = Ok (jstate st) }.

(** The outcome of a file operation, success or failure. *)
Lemma fileResult_inv {A} (call : F → fs_result F A) f :
  ∃ f', (call f).1 = f' ∧
  ((∃ a, (call f).2 = Ok a ∧ fileResult call f = (f', Ok a))
   ∨ ∃ code, (call f).2 = Err code ∧ fileResult call f = (f', Err (FileFailed (bool_decide (code = fe_not_found))))).
Proof. unfold fileResult. destruct (call f) as [f' [a|code]]; eexists; eauto. Qed.

Lemma temp_path_ne path : temp_path path ≠ path.
Proof.
  intros Heq%(f_equal length). unfold temp_path in Heq. rewrite length_app in Heq.
  change (length (js ".tmp")) with 4%nat in Heq. lia.
Qed.

(** Opening a file that starts with the lines of a session: reading it may fail,
    else the loop goes on at the tail with the state of those lines. *)
Lemma load_start f path h ms p s :
  contents f !! path = Some (file_text h ms ++ p) → header_durable h = true → Forall mutation_durable ms →
  10 ∉ p → applyMutations new_SessionState ms = Ok s →
  (∃ f' b, jsonl_load path f = (f', Err (FileFailed b)) ∧ contents f' = contents f)
  ∨ ∃ f' t, contents f' = contents f
    ∧ jsonl_load path f
      = load_lines path (file_text h ms ++ p)
          (session_lines h ms ++ (if decide (p = []) then [] else [p]))
          (MkJsonlStorage (metadataFromHeader h path t) s) (S (length ms))
          (if decide (p = []) then [] else [p]) f'.
Proof.
  intros Htext Hh Hms Hp Hs. unfold jsonl_load.
  destruct (fileResult_inv (λ f, readTextFile f path) f) as (f1 & Hf1 & [(t & Ht & Hr)|(code & _ & Hr)]).
  2: { left. eexists f1, _. rewrite (bind_err _ _ _ _ _ Hr). split; [done|]. rewrite <- Hf1. apply law_read. }
  destruct (law_read f path) as [Hc1 Hread]. rewrite Hf1 in Hc1. apply Hread in Ht.
  assert (t = file_text h ms ++ p) as -> by congruence.
  rewrite (bind_ok _ _ _ _ _ Hr), physical_lines_file by done.
  destruct (header_line h) as [|c hl] eqn:Hhl; [done|]. rewrite <- Hhl. rewrite parseHeader_line by done. cbn [map_err].
  rewrite bind_lift.
  destruct (fileResult_inv (λ f, fileInfo f path) f1) as (f2 & Hf2 & [(info & _ & Hi)|(code & _ & Hi)]).
  2: { left. eexists f2, _. rewrite (bind_err _ _ _ _ _ Hi). split; [done|]. rewrite <- Hf2, law_info. done. }
  right. exists f2, (mtimeMs info). rewrite (bind_ok _ _ _ _ _ Hi). split; [by rewrite <- Hf2, law_info|].
  rewrite (load_lines_replay _ _ _ _ _ _ _ s) by done. done.
Qed.

(** An intact file opens as the session it holds, and is left alone. *)
Lemma load_intact f path h ms s :
  contents f !! path = Some (file_text h ms) → header_durable h = true → Forall mutation_durable ms →
  applyMutations new_SessionState ms = Ok s →
  ∃ f', contents f' = contents f
    ∧ ((∃ b, jsonl_load path f = (f', Err (FileFailed b)))
       ∨ ∃ t, jsonl_load path f = (f', Ok (MkJsonlStorage (metadataFromHeader h path t) s))).
Proof.
  intros Htext Hh Hms Hs. rewrite <- (app_nil_r (file_text h ms)) in Htext.
  destruct (load_start f path h ms [] s Htext Hh Hms) as [(f' & b & Hl & Hc)|(f' & t & Hc & Hl)];
    [apply not_elem_of_nil|done|exists f'; eauto|].
  exists f'. split; [done|]. right. exists t. rewrite Hl. cbn [decide decide_rel list_eq_dec load_lines].
  rewrite decide_True by done. cbn [load_lines].
  assert (ends_with_newline (file_text h ms ++ []) = true) as ->; [|done].
  rewrite file_text_lines by done. rewrite ends_with_newline_text; [done|discriminate|apply not_elem_of_nil].
Qed.

(** Publishing replaces the destination at once or leaves it alone. *)
Lemma publish_text f path text :
  match publishFileAtomically path (λ temp, fileResult (λ f, writeFile f temp text)) f with
  | (f', Ok _) => contents f' !! path = Some text
  | (f', Err e) => (∃ b, e = FileFailed b) ∧ contents f' !! path = contents f !! path
  end.
Proof.
  pose proof (temp_path_ne path) as Hne. unfold publishFileAtomically. set (temp := temp_path path) in *.
  destruct (law_write f temp text) as [Hsame Hw].
  destruct (fileResult_inv (λ f, writeFile f temp text) f) as (f1 & Hf1 & [([] & Hok & Hr1)|(code & _ & Hr1)]);
    rewrite Hf1 in *.
  2: { rewrite (bind_err _ _ _ _ _ Hr1). split; [by eexists|]. rewrite (law_remove f1 temp) by done. by apply Hsame. }
  rewrite (bind_ok _ _ _ _ _ Hr1). pose proof (law_rename f1 temp path Hne) as Hr.
  destruct (fileResult_inv (λ f, renameFile f temp path) f1) as (f2 & Hf2 & [([] & Hok2 & ->)|(code & Herr & ->)]);
    rewrite Hf2 in *.
  - rewrite Hok2 in Hr. destruct Hr as (-> & _ & _). by apply Hw.
  - rewrite Herr in Hr. split; [by eexists|]. rewrite (law_remove f2 temp) by done. rewrite Hr. by apply Hsame.
Qed.

(** Opening a file whose last line is a whole mutation without its newline. *)
Lemma load_unterminated f path h ms s m s' :
  contents f !! path = Some (file_text h ms ++ mutation_line m) → header_durable h = true →
  Forall mutation_durable ms → mutation_durable m →
  applyMutations new_SessionState ms = Ok s → applyMutation s m = Ok s' →
  match jsonl_load path f with
  | (f', Ok st) => contents f' !! path = Some (file_text h (ms ++ [m]))
                   ∧ ∃ t, st = MkJsonlStorage (metadataFromHeader h path t) s'
  | (f', Err e) => (∃ b, e = FileFailed b)
                   ∧ ∃ p, contents f' !! path = Some (file_text h ms ++ p) ∧ p `prefix_of` encodeMutation m
  end.
Proof.
  intros Htext Hh Hms Hm Hs Hs'. pose proof (mutation_line_printable m Hm) as Hp.
  assert (mutation_line m ≠ []) as Hne by done.
  assert (mutation_line m `prefix_of` encodeMutation m) as Hpre by (rewrite encodeMutation_line by done; by apply prefix_app_r).
  destruct (load_start f path h ms _ s Htext Hh Hms Hp Hs) as [(f' & b & -> & Hc)|(f' & t & Hc & ->)].
  { rewrite Hc. split; [by eexists|]. by exists (mutation_line m). }
  rewrite !(decide_False (P := mutation_line m = [])) by done. cbn [load_lines].
  rewrite parseMutation_line by done. cbn [jstate]. rewrite Hs'. cbn [load_lines].
  assert (ends_with_newline (file_text h ms ++ mutation_line m) = false) as ->.
  { rewrite file_text_lines, ends_with_newline_text by done. by apply bool_decide_eq_false_2. }
  destruct (law_append f' path [10]) as [_ Happ]. rewrite Hc in Happ.
  destruct (Happ _ Htext) as (part & Hpart & Hprefix & Hfull).
  destruct (fileResult_inv (λ f, appendFile f path [10]) f') as (f1 & Hf1 & [([] & Hok & Hr)|(code & _ & Hr)]); rewrite Hf1 in *.
  - rewrite (bind_ok _ _ _ _ _ Hr). rewrite Hfull in Hpart by done. split; [|by exists t].
    by rewrite Hpart, file_text_snoc, encodeMutation_line, <- app_assoc by done.
  - rewrite (bind_err _ _ _ _ _ Hr). split; [by eexists|]. exists (mutation_line m ++ part).
    rewrite Hpart, <- app_assoc. split; [done|]. rewrite encodeMutation_line by done. by apply prefix_app.
Qed.

(** Opening a file whose last line was cut short. *)
Lemma load_torn f path h ms s p msg :
  contents f !! path = Some (file_text h ms ++ p) → header_durable h = true → Forall mutation_durable ms →
  p ≠ [] → 10 ∉ p → parseMutation p = Err (MkDecodeError Syntax msg) →
  applyMutations new_SessionState ms = Ok s →
  match jsonl_load path f with
  | (f', Ok st) => contents f' !! path = Some (file_text h ms)
                   ∧ ∃ t, st = MkJsonlStorage (metadataFromHeader h path t) s
  | (f', Err e) => (∃ b, e = FileFailed b) ∧ contents f' !! path = contents f !! path
  end.
Proof.
  intros Htext Hh Hms Hne Hp Hbad Hs.
  destruct (load_start f path h ms p s Htext Hh Hms Hp Hs) as [(f' & b & -> & Hc)|(f' & t & Hc & ->)].
  { rewrite Hc. by split; [eexists|]. }
  rewrite !(decide_False (P := p = [])) by done. cbn [load_lines]. rewrite Hbad. cbn [kind_of].
  assert (join 10 (take (S (length ms)) (session_lines h ms ++ [p])) ++ [10] = file_text h ms) as ->.
  { rewrite take_app_length' by (unfold session_lines; cbn [length]; by rewrite length_fmap).
    rewrite join_lines, file_text_lines by done. done. }
  pose proof (publish_text f' path (file_text h ms)) as Hpub.
  destruct (publishFileAtomically _ _ f') as [f1 [[]|e]] eqn:Heq.
  - rewrite (bind_ok _ _ _ _ _ Heq). split; [done|]. by exists t.
  - rewrite (bind_err _ _ _ _ _ Heq). destruct Hpub as [He ->]. by rewrite Hc.
Qed.

(** ** Committing a mutation *)

Lemma replay_snoc ms m s s' :
  applyMutations new_SessionState ms = Ok s → applyMutation s m = Ok s' →
  applyMutations new_SessionState (ms ++ [m]) = Ok s'.
Proof. intros Hms Hm. rewrite applyMutations_app, Hms. cbn [mbind result_bind applyMutations]. by rewrite Hm. Qed.

Lemma jcommit_spec f st h ms m :
  file_log f st h ms → mutation_durable m → acceptable (jstate st) m →
  match jcommit m (f, st) with
  | ((f', st'), Ok _) => file_log f' st' h (ms ++ [m]) ∧ st' = st <| jstate := applied (jstate st) m |>
  | ((f', st'), Err e) => st' = st ∧ (∃ b, e = FileFailed b)
      ∧ ∃ part, contents f' !! jm_path (jmetadata st) = Some (file_text h ms ++ part)
                ∧ part `prefix_of` encodeMutation m
  end.
Proof.
  intros [Htext Hh Hms Hs] Hm Ha. unfold jcommit, appendMutation, japplyMutation, this, on_file, mbind, fs_bind. cbn [fst snd].
  set (path := jm_path (jmetadata st)) in *.
  destruct (law_append f path (encodeMutation m)) as [_ Happ].
  destruct (Happ _ Htext) as (part & Hpart & Hprefix & Hfull).
  destruct (fileResult_inv (λ f, appendFile f path (encodeMutation m)) f)
    as (f1 & Hf1 & [([] & Hok & Hr)|(code & _ & Hr)]); rewrite Hf1 in *; rewrite Hr; cbn [fst snd].
  - rewrite (applyMutation_accept _ _ Ha). split; [|done].
    rewrite Hfull in Hpart by done. split; cbn [jmetadata jstate].
    + by rewrite file_text_snoc.
    + done.
    + apply Forall_app. by rewrite Forall_singleton.
    + eapply replay_snoc; [done|]. by apply applyMutation_accept.
  - split_and!; [done|by eexists|by exists part].
Qed.

(** ** Operations *)

Lemma jsonl_op_planned op f st :
  jsonl_op op (f, st)
  = match planned (jstate st) op with Ok m => jcommit m (f, st) | Err e => ((f, st), Err e) end.
Proof.
  destruct op; cbn [jsonl_op planned]; unfold jcreateLane, jmoveLane, jappendEntry, jappendRecord, jsetName, jsetLabel, this,
    mbind, result_bind, fs_bind, lift, mret, fs_ret; cbn [fst snd].
  all: repeat run_check; try reflexivity.
  all: destruct (jcommit _ (f, st)) as [? [[]|]]; reflexivity.
Qed.

(** What the caller hands over can be written. *)
Definition op_durable (op : storage_op) : Prop :=
  match op with
  | SCreateLane lane at_ => text_ok lane = true ∧ opt_text_ok at_ = true
  | SMoveLane lane to => text_ok lane = true ∧ opt_text_ok to = true
  | SAppendEntry now entry lane =>
      time_ok now = true ∧ text_ok (p_id entry) = true ∧ text_ok lane = true ∧ durable_payload (p_payload entry)
  | SAppendRecord now record =>
      time_ok now = true ∧ text_ok (nr_id record) = true ∧ text_ok (nr_lane record) = true
      ∧ durable_body (nr_body record)
  | SSetName n => opt_text_ok n = true
  | SSetLabel id label => text_ok id = true ∧ opt_text_ok label = true
  end.

(** A lane's leaf, like every id in the state, was read from or written to a line. *)
Lemma leaf_text_ok ms s lane leaf :
  Forall mutation_durable ms → applyMutations new_SessionState ms = Ok s →
  map_get (lanes s) lane = Some leaf → opt_text_ok leaf = true.
Proof.
  intros Hms Happ Hlane. pose proof (applyMutations_inv _ _ _ inv_initial Happ) as Hs. destruct leaf as [i|]; [|done].
  destruct (inv_lanes s Hs _ _ Hlane) as [e He]. destruct (byId_self s Hs _ _ He) as [<- Hin].
  rewrite (inv_entries s Hs), (applyMutations_log _ _ _ Happ) in Hin. cbn [log new_SessionState app] in Hin.
  apply list_elem_of_omap in Hin as (it & (m & -> & Hm)%list_elem_of_fmap & Hit).
  rewrite Forall_forall in Hms. destruct (Hms m Hm) as [_ Hd]. destruct m; try done. injection Hit as ->. apply Hd.
Qed.

Lemma planned_durable ms s op m :
  Forall mutation_durable ms → applyMutations new_SessionState ms = Ok s → zlen ms < MAX_SAFE_INTEGER →
  op_durable op → planned s op = Ok m → mutation_durable m.
Proof.
  intros Hms Happ Hlen Hop Hplan.
  assert (seq_ok (nextSequence s) = true) as Hseq.
  { pose proof (applyMutations_inv _ _ _ inv_initial Happ) as Hs. unfold nextSequence. rewrite (inv_sequence s Hs).
    rewrite (applyMutations_log _ _ _ Happ). cbn [log new_SessionState app]. unfold zlen in *. rewrite length_fmap.
    unfold seq_ok. apply andb_true_iff. rewrite Z.ltb_lt, Z.leb_le. lia. }
  destruct op as [lane at_|lane to|now e lane|now r|n|id label]; cbn [planned op_durable] in *.
  - apply bind_Ok in Hplan as (_ & _ & (_ & _ & [= <-])%bind_Ok). done.
  - apply bind_Ok in Hplan as (_ & _ & (_ & _ & [= <-])%bind_Ok). done.
  - apply bind_Ok in Hplan as (leaf & Hleaf & (_ & _ & [= <-])%bind_Ok).
    destruct Hop as (Hnow & Hid & Hlane & Hp). split; [done|]. cbn. split_and!; [done|done| |done|done..].
    unfold requireLane in Hleaf. destruct (map_get (lanes s) lane) eqn:Hg; [|done]. injection Hleaf as ->.
    by eapply leaf_text_ok.
  - apply bind_Ok in Hplan as (_ & _ & (_ & _ & (_ & _ & (_ & _ & [= <-])%bind_Ok)%bind_Ok)%bind_Ok).
    destruct Hop as (Hnow & Hid & Hlane & Hb). split; [done|]. cbn. by split_and!.
  - injection Hplan as <-. done.
  - apply bind_Ok in Hplan as (_ & _ & [= <-]). done.
Qed.

(** ** The file while the session runs *)

(** The file holds the mutations [ms], perhaps followed by part of the line of one
    that the state accepts next. *)
Definition in_flight (f : F) (path : jsstring) (h : JsonlV4Header) (ms : list SessionMutation) (s : SessionState)
    : Prop :=
  ∃ part, contents f !! path = Some (file_text h ms ++ part)
    ∧ (part = [] ∨ ∃ m, mutation_durable m ∧ acceptable s m ∧ part `prefix_of` encodeMutation m).

Lemma load_recovers f path h ms s :
  in_flight f path h ms s → header_durable h = true → Forall mutation_durable ms →
  applyMutations new_SessionState ms = Ok s →
  match jsonl_load path f with
  | (f', Ok st) =>
      (∃ t, jmetadata st = metadataFromHeader h path t)
      ∧ ((file_log f' st h ms ∧ jstate st = s)
         ∨ ∃ m, acceptable s m ∧ file_log f' st h (ms ++ [m]) ∧ jstate st = applied s m)
  | (f', Err e) => (∃ b, e = FileFailed b) ∧ in_flight f' path h ms s
  end.
Proof.
  intros (part & Htext & Hpart) Hh Hms Hs.
  assert (∀ f', contents f' = contents f → in_flight f' path h ms s) as Hsame.
  { intros f' Hf'. exists part. by rewrite Hf'. }
  destruct (decide (part = [])) as [->|Hne].
  { rewrite app_nil_r in Htext. destruct (load_intact f path h ms s Htext Hh Hms Hs) as (f' & Hc & [[b ->]|[t ->]]).
    - split; [by eexists|by apply Hsame].
    - split; [by exists t|]. left. split; [|done]. split; cbn [jmetadata jm_path metadataFromHeader]; [by rewrite Hc|done..]. }
  destruct Hpart as [->|(m & Hm & Ha & Hpre)]; [done|].
  pose proof (applyMutation_accept s m Ha) as Hs'. pose proof (replay_snoc _ _ _ _ Hs Hs') as Hs2.
  assert (Forall mutation_durable (ms ++ [m])) as Hms' by (apply Forall_app; by rewrite Forall_singleton).
  destruct (torn_append m part Hm Hpre) as [->|[->|(Hnl & Hlen & Hbad)]].
  - rewrite <- file_text_snoc in Htext.
    destruct (load_intact f path h _ _ Htext Hh Hms' Hs2) as (f' & Hc & [[b ->]|[t ->]]).
    + split; [by eexists|by apply Hsame].
    + split; [by exists t|]. right. exists m. split_and!; [done| |done].
      split; cbn [jmetadata jm_path metadataFromHeader]; [by rewrite Hc|done..].
  - pose proof (load_unterminated f path h ms s m _ Htext Hh Hms Hm Hs Hs') as Hload.
    destruct (jsonl_load path f) as [f' [st|e]].
    + destruct Hload as (Hc & t & ->). split; [by exists t|]. right. exists m. split_and!; [done| |done]. by split.
    + destruct Hload as (He & p & Hc & Hp). split; [done|]. exists p. split; [done|]. right. by exists m.
  - destruct (Hbad Hne) as [msg Hmsg].
    pose proof (load_torn f path h ms s _ msg Htext Hh Hms Hne Hnl Hmsg Hs) as Hload.
    destruct (jsonl_load path f) as [f' [st|e]].
    + destruct Hload as (Hc & t & ->). split; [by exists t|]. left. split; [by split|done].
    + destruct Hload as [He Hc]. split; [done|]. exists part. rewrite Hc. split; [done|]. right. by exists m.
Qed.

(** One operation: it is the in-memory operation plus its line in the file, or it
    is refused like it, or the file system fails under it. *)
Lemma jsonl_op_spec f st h ms op md :
  file_log f st h ms → one_open (jstate st) → op_durable op → zlen ms < MAX_SAFE_INTEGER →
  match jsonl_op op (f, st) with
  | ((f', st'), Ok _) =>
      class_op (MkStorage md (jstate st)) op = Ok (MkStorage md (jstate st')) ∧ jmetadata st' = jmetadata st
      ∧ one_open (jstate st') ∧ ∃ m, file_log f' st' h (ms ++ [m])
  | ((f', st'), Err e) =>
      st' = st
      ∧ ((class_op (MkStorage md (jstate st)) op = Err e ∧ f' = f)
         ∨ ((∃ b, e = FileFailed b) ∧ in_flight f' (jm_path (jmetadata st)) h ms (jstate st)))
  end.
Proof.
  intros Hlog Hone Hop Hlen. rewrite jsonl_op_planned. pose proof (memory_op_planned (MkStorage md (jstate st)) op) as Hmem.
  cbn [state] in Hmem. destruct (planned (jstate st) op) as [m|e] eqn:Hplan; [|split; [done|by left]].
  pose proof (applyMutations_inv _ _ _ inv_initial (fl_state _ _ _ _ Hlog)) as Hinv.
  destruct (planned_acceptable _ _ _ (conj Hinv Hone) Hplan) as [Ha Hstart].
  pose proof (planned_durable _ _ _ _ (fl_durable _ _ _ _ Hlog) (fl_state _ _ _ _ Hlog) Hlen Hop Hplan) as Hm.
  pose proof (jcommit_spec f st h ms m Hlog Hm Ha) as Hc. destruct (jcommit m (f, st)) as [[f' st'] [[]|e]].
  - destruct Hc as [Hlog' ->]. split_and!; [|done| |by eexists].
    + rewrite Hmem. cbn [mbind result_bind]. by rewrite mutate_acceptable.
    + cbn [jstate]. by apply applied_one_open.
  - destruct Hc as (-> & He & part & Hp & Hpre). split; [done|]. right. split; [done|]. exists part. split; [done|]. right. by exists m.
Qed.

End Laws.
