(* ===== verification/JsonlTheorems.v ===== *)
(** * What session files guarantee

    A line is the mutation it stands for; the storage in a file is the storage in
    memory; and however the file system fails, opening the file again yields the
    session, give or take the one mutation that was being written. *)

From S2P Require Import Prelude JsNumber JsString JsMap SessionTypes JsonText SessionState FileSystem JsonlCodec.
From S2P Require Import SessionInvariant SessionQueries SessionFork SessionStorage SessionTheorems JsonlStorage.

(** ** A representation for examples

    Model changes, thinking levels and custom entries as the objects the session
    writes. *)
#[local] Instance demo_json : PayloadJson := {|
  payload_props p :=
    match p with
    | PModelChange provider modelId =>
        [(js "provider", JsonString provider); (js "modelId", JsonString modelId)]
    | PThinkingLevel level => [(js "thinkingLevel", JsonString level)]
    | PCustom t data => (js "customType", JsonString t) :: optional (js "data") data
    | _ => []
    end;
  payload_of t props :=
    let text key := match map_get props (js key) with Some (JsonString s) => s | _ => [] end in
    match t with
    | et_model_change => PModelChange (text "provider"%string) (text "modelId"%string)
    | et_custom => PCustom (text "customType"%string) (map_get props (js "data"))
    | _ => PThinkingLevel (text "thinkingLevel"%string)
    end;
  body_props b :=
    match b with
    | RAbortRequested runId | ROperationFinished runId _ _ => [(js "runId", JsonString runId)]
    | _ => []
    end;
  body_of t props :=
    let text key := match map_get props (js key) with Some (JsonString s) => s | _ => [] end in
    RAbortRequested (text "runId"%string) |}.

Ltac durable := repeat split; first [apply (bool_decide_unpack _); vm_compute; exact I | vm_compute; reflexivity | done].

(** ** Lines *)

Section Lines.
Context `{PayloadJson}.

(** C35: a mutation is written as one line without a newline in it, and reading the
    line back gives the mutation; no proper part of the line reads as anything but
    a syntax error, which is how a torn write is told from a foreign one.  A
    header reads back too. *)
Theorem jsonl_codec_roundtrip m h :
  mutation_durable m → header_durable h = true →
  (∃ line, encodeMutation m = line ++ [10] ∧ 10 ∉ line ∧ parseMutation line = Ok m
     ∧ ∀ p q, line = p ++ q → q ≠ [] → ∃ e, parseMutation p = Err e ∧ kind_of e = Syntax)
  ∧ ∃ line, encodeHeader h = line ++ [10] ∧ 10 ∉ line ∧ decodeHeader line = Ok h.
Proof.
  intros Hm Hh. split.
  - exists (mutation_line m). split_and!; [by apply encodeMutation_line|by apply mutation_line_printable|by apply parseMutation_line|].
    intros p q Hline Hq. destruct (torn_line m p q Hm Hline Hq) as [msg Hmsg]. by eexists.
  - exists (header_line h). split_and!; [done|by apply header_line_printable|by apply parseHeader_line].
Qed.
End Lines.

Definition demo_header : JsonlV4Header :=
  MkHeader (js "s-1") 1700000000000 (js "/work") (Some (js "s-0")) None (Some [(js "tag", JsonNumber (of_Z 3))]).

Definition demo_custom : SessionMutation :=
  MutEntry (Some (js "main"))
    (MkEntry (js "e1") 1 None 1700000000001 (PCustom (js "note") (Some (JsonArray [JsonNull; JsonString (js "x\y")])))).

Lemma jsonl_codec_roundtrip_witness :
  (∃ line, encodeMutation demo_custom = line ++ [10] ∧ 10 ∉ line ∧ parseMutation line = Ok demo_custom
     ∧ ∀ p q, line = p ++ q → q ≠ [] → ∃ e, parseMutation p = Err e ∧ kind_of e = Syntax)
  ∧ ∃ line, encodeHeader demo_header = line ++ [10] ∧ 10 ∉ line ∧ decodeHeader line = Ok demo_header.
Proof.
  apply (jsonl_codec_roundtrip demo_custom demo_header); [|vm_compute; reflexivity].
  repeat split; try (vm_compute; reflexivity). intros _. eexists. reflexivity.
Defined.

(** ** Storage *)

Section Files.
Context `{PayloadJson} `{FileSystemLaws F}.

(** C36: an operation on a session file does to the state exactly what the
    in-memory storage does and adds one line to the file; where the in-memory
    storage refuses, it refuses with the same error and touches neither; otherwise
    the file system failed, the state in memory is as it was (it changes only after
    the line is written), and the file has at most part of the line more. *)
Theorem jsonl_storage_refines_memory f st h ms op md :
  file_log f st h ms → one_open (jstate st) → op_durable op → zlen ms < MAX_SAFE_INTEGER →
  match jsonl_op op (f, st) with
  | ((f', st'), Ok _) =>
      class_op (MkStorage md (jstate st)) op = Ok (MkStorage md (jstate st')) ∧ jmetadata st' = jmetadata st
      ∧ one_open (jstate st') ∧ ∃ m, file_log f' st' h (ms ++ [m])
  | ((f', st'), Err e) =>
      st' = st
      ∧ ((class_op (MkStorage md (jstate st)) op = Err e ∧ f' = f)
         ∨ ((∃ b, e = FileFailed b) ∧ in_flight f' (jm_path (jmetadata st)) h ms (jstate st)))
  end.
Proof. apply jsonl_op_spec. Qed.

(** The run keeps the file and the state together until the file system fails. *)
Lemma jsonl_ops_in_flight f st h ms ops :
  file_log f st h ms → one_open (jstate st) → Forall op_durable ops → zlen ms + zlen ops ≤ MAX_SAFE_INTEGER →
  let (f', st') := jsonl_ops f st ops in
  jmetadata st' = jmetadata st ∧ one_open (jstate st')
  ∧ ∃ ms', Forall mutation_durable (ms ++ ms') ∧ applyMutations new_SessionState (ms ++ ms') = Ok (jstate st')
    ∧ in_flight f' (jm_path (jmetadata st)) h (ms ++ ms') (jstate st').
Proof.
  revert f st ms. induction ops as [|op ops IH]; intros f st ms Hlog Hone Hops Hlen; cbn [jsonl_ops].
  - split_and!; [done..|]. exists []. rewrite app_nil_r. split_and!; [apply Hlog..|]. exists []. rewrite app_nil_r.
    split; [apply Hlog|by left].
  - apply Forall_cons in Hops as [Hop Hops]. rewrite zlen_cons in Hlen. pose proof (zlen_nonneg ops) as Hnn.
    pose proof (jsonl_op_spec f st h ms op (MkMetadata [] 0 None) Hlog Hone Hop ltac:(lia)) as Hspec.
    destruct (jsonl_op op (f, st)) as [[f' st'] [[]|e]].
    + destruct Hspec as (_ & Hmeta & Hone' & m & Hlog').
      pose proof (IH f' st' (ms ++ [m]) Hlog' Hone' Hops) as Hrest. rewrite zlen_app, zlen_cons, zlen_nil, Hmeta in Hrest.
      specialize (Hrest ltac:(lia)). destruct (jsonl_ops f' st' ops) as [f2 st2].
      destruct Hrest as (-> & ? & ms' & Hms'). rewrite <- !app_assoc in Hms'. split_and!; [done..|]. by exists ([m] ++ ms').
    + destruct Hspec as [-> Hspec]. assert (in_flight f' (jm_path (jmetadata st)) h ms (jstate st) →
        jmetadata st = jmetadata st ∧ one_open (jstate st)
        ∧ ∃ ms', Forall mutation_durable (ms ++ ms') ∧ applyMutations new_SessionState (ms ++ ms') = Ok (jstate st)
          ∧ in_flight f' (jm_path (jmetadata st)) h (ms ++ ms') (jstate st)) as Hstop.
      { intros Hfl. split_and!; [done..|]. exists []. rewrite app_nil_r. split_and!; [apply Hlog..|done]. }
      destruct Hspec as [[_ ->]|[[b ->] Hfl]]; [|by apply Hstop].
      pose proof (IH f st ms Hlog Hone Hops ltac:(lia)) as Hrest. destruct e; try exact Hrest.
      apply Hstop. exists []. rewrite app_nil_r. split; [apply Hlog|by left].
Qed.

(** C37: run any operations on a session file until the file system fails, or the
    process stops, with the last line written in part; opening the file again
    gives the state that was in memory, or that state and the one mutation that
    was being written, with a file that is again exactly the log of the state.
    If the file system fails while the file is repaired, it can be opened later. *)
Theorem jsonl_crash_recovery f st h ms ops :
  file_log f st h ms → one_open (jstate st) → Forall op_durable ops → zlen ms + zlen ops ≤ MAX_SAFE_INTEGER →
  let (f', st') := jsonl_ops f st ops in
  ∃ ms', applyMutations new_SessionState (ms ++ ms') = Ok (jstate st')
  ∧ match jsonl_load (jm_path (jmetadata st)) f' with
    | (f'', Ok st'') =>
        (∃ t, jmetadata st'' = metadataFromHeader h (jm_path (jmetadata st)) t)
        ∧ ((file_log f'' st'' h (ms ++ ms') ∧ jstate st'' = jstate st')
           ∨ ∃ m, file_log f'' st'' h ((ms ++ ms') ++ [m]) ∧ applyMutation (jstate st') m = Ok (jstate st''))
    | (f'', Err e) =>
        (∃ b, e = FileFailed b) ∧ in_flight f'' (jm_path (jmetadata st)) h (ms ++ ms') (jstate st')
    end.
Proof.
  intros Hlog Hone Hops Hlen. pose proof (jsonl_ops_in_flight f st h ms ops Hlog Hone Hops Hlen) as Hrun.
  destruct (jsonl_ops f st ops) as [f' st']. destruct Hrun as (_ & _ & ms' & Hdur & Happ & Hfl). exists ms'. split; [done|].
  pose proof (load_recovers f' _ h _ _ Hfl (fl_header _ _ _ _ Hlog) Hdur Happ) as Hload.
  destruct (jsonl_load _ f') as [f'' [st''|e]]; [|done]. destruct Hload as [Hmeta [Hsame|(m & Ha & Hlog' & Hst)]].
  - split; [done|by left].
  - split; [done|]. right. exists m. split; [done|]. rewrite Hst. by apply applyMutation_accept.
Qed.

End Files.

(** ** Examples *)

Definition demo_path : jsstring := js "/s/s-1.jsonl".
Definition demo_file (steps : list fault) : memory_fs := MkFs {[demo_path := file_text demo_header []]} steps.
Definition demo_storage : JsonlSessionStorage := new_JsonlStorage (metadataFromHeader demo_header demo_path 0).
Definition demo_ops : list storage_op :=
  [SSetName (Some (js "plan"));
   SAppendEntry 1700000000002 (MkProvisioned (js "e1") (PModelChange (js "openai") (js "gpt"))) (js "main")].

Lemma demo_file_log steps : file_log (demo_file steps) demo_storage demo_header [].
Proof.
  split; [|vm_compute; reflexivity|constructor|reflexivity].
  change (({[demo_path := file_text demo_header []]} : gmap jsstring jsstring) !! demo_path = Some (file_text demo_header [])).
  apply lookup_singleton_eq.
Qed.

Lemma demo_one_open : one_open (jstate demo_storage).
Proof. intros lane. cbn. lia. Qed.

Lemma demo_ops_durable : Forall op_durable demo_ops.
Proof. repeat constructor; cbn; try done; apply (bool_decide_unpack _); vm_compute; exact I. Qed.

(** An operation that succeeds, and one under which the file system fails. *)
Lemma jsonl_storage_refines_memory_witness :
  (match jsonl_op (SSetName (Some (js "plan"))) (demo_file [], demo_storage) with
   | ((f', st'), Ok _) => class_op (MkStorage (MkMetadata [] 0 None) (jstate demo_storage)) (SSetName (Some (js "plan")))
         = Ok (MkStorage (MkMetadata [] 0 None) (jstate st')) ∧ ∃ m, file_log f' st' demo_header ([] ++ [m])
   | (_, Err e) => False
   end)
  ∧ match jsonl_op (SSetName (Some (js "plan"))) (demo_file [fails fe_unknown 20], demo_storage) with
    | ((f', st'), Ok _) => False
    | ((f', st'), Err e) => st' = demo_storage
    end.
Proof.
  split.
  - pose proof (jsonl_storage_refines_memory (demo_file []) demo_storage demo_header [] (SSetName (Some (js "plan"))) (MkMetadata [] 0 None)
      (demo_file_log _) demo_one_open eq_refl eq_refl) as H.
    assert (is_ok (jsonl_op (SSetName (Some (js "plan"))) (demo_file [], demo_storage)).2 = true) as Hok by (vm_compute; reflexivity).
    destruct (jsonl_op _ _) as [[f' st'] [[]|e]]; [|discriminate Hok]. destruct H as (H1 & _ & _ & H2). by split.
  - pose proof (jsonl_storage_refines_memory (demo_file [fails fe_unknown 20]) demo_storage demo_header [] (SSetName (Some (js "plan"))) (MkMetadata [] 0 None)
      (demo_file_log _) demo_one_open eq_refl eq_refl) as H.
    assert (is_ok (jsonl_op (SSetName (Some (js "plan"))) (demo_file [fails fe_unknown 20], demo_storage)).2 = false) as Hok by (vm_compute; reflexivity).
    destruct (jsonl_op _ _) as [[f' st'] [[]|e]]; [discriminate Hok|]. by destruct H.
Defined.

(** The second append fails after twenty units. *)
Lemma jsonl_crash_recovery_witness :
  let (f', st') := jsonl_ops (demo_file [fine; fails fe_unknown 20]) demo_storage demo_ops in
  ∃ ms', applyMutations new_SessionState ([] ++ ms') = Ok (jstate st')
  ∧ match jsonl_load (jm_path (jmetadata demo_storage)) f' with
    | (f'', Ok st'') =>
        (∃ t, jmetadata st'' = metadataFromHeader demo_header (jm_path (jmetadata demo_storage)) t)
        ∧ ((file_log f'' st'' demo_header ([] ++ ms') ∧ jstate st'' = jstate st')
           ∨ ∃ m, file_log f'' st'' demo_header (([] ++ ms') ++ [m]) ∧ applyMutation (jstate st') m = Ok (jstate st''))
    | (f'', Err e) =>
        (∃ b, e = FileFailed b) ∧ in_flight f'' (jm_path (jmetadata demo_storage)) demo_header ([] ++ ms') (jstate st')
    end.
Proof.
  apply (jsonl_crash_recovery (demo_file [fine; fails fe_unknown 20]) demo_storage demo_header [] demo_ops);
    [apply demo_file_log|apply demo_one_open|apply demo_ops_durable|vm_compute; discriminate].
Defined.

(** A storage that goes on after an append has failed half-way writes the next line
    behind the torn one, and the file no longer opens. *)
Example append_after_torn_append :
  let f := demo_file [fails fe_unknown 20] in
  match jsonl_op (SSetName (Some (js "a"))) (f, demo_storage) with
  | (w1, Err (FileFailed _)) =>
      match jsonl_op (SSetName (Some (js "b"))) w1 with
      | (w2, Ok _) =>
          match jsonl_op (SSetName (Some (js "c"))) w2 with
          | ((f3, _), Ok _) => ∃ f4, jsonl_load demo_path f3 = (f4, Err (InvalidFile 2))
          | _ => False
          end
      | _ => False
      end
  | _ => False
  end.
Proof. vm_compute. eexists. reflexivity. Qed.
