(* ===== verification/Reducer.v ===== *)
(** * Recovery: validating a lane's records and reducing them to its state

    [packages/agent/src/harness/reducer.ts].  [Guard.IsDeepEqual] of the typebox
    package is the parameter [deepEqual]; [structuredClone] of a value is the
    value. *)

From S2P Require Import Prelude JsNumber JsString JsMap SessionTypes Messages SessionContext.

Inductive RecordLogCorruptionReason :=
| multiple_open_operations | unknown_operation | record_after_finish | non_consecutive_attempt
| invalid_compaction_reason | queue_after_abort | invalid_queue_cancellation | inconsistent_step
| tool_call_mismatch | duplicate_tool_invocation | provisioned_entry_mismatch | invalid_deferred_handle.

#[export] Instance RecordLogCorruptionReason_eq_dec : EqDecision RecordLogCorruptionReason.
Proof. solve_decision. Defined.

Abbreviation check := (result RecordLogCorruptionReason unit) (only parsing).

(** An [OperationStartedRecord]. *)
Record OperationStartedRecord := MkOperationStarted {
  op_id : jsstring; op_seq : Z; op_lane : jsstring; op_timestamp : Z;
  op_sourceLeafId : option jsstring; op_intent : OperationIntent }.

Definition as_started (r : LaneRecord) : option OperationStartedRecord :=
  match record_body r with
  | ROperationStarted leaf intent =>
      Some (MkOperationStarted (record_id r) (record_seq r) (record_lane r) (record_timestamp r) leaf intent)
  | _ => None
  end.

Record RecordLogSlice := MkSlice {
  slice_lane : jsstring; openOperations : list OperationStartedRecord; slice_records : list LaneRecord;
  slice_entries : list Entry }.

Record EffectiveLaneConfiguration := MkConfiguration {
  eff_model : jsstring * jsstring; eff_thinkingLevel : jsstring; eff_activeToolNames : list jsstring }.

#[export] Instance EffectiveLaneConfiguration_eta : Eta EffectiveLaneConfiguration := λ c,
  MkConfiguration (eff_model c) (eff_thinkingLevel c) (eff_activeToolNames c).

Inductive FailureSource := from_step | from_deferred_fetch.
Record TerminalFailureState := MkTerminalFailure {
  fail_entryId : jsstring; fail_source : FailureSource; fail_message : AssistantMessage }.

Record ToolBatchCall := MkBatchCall {
  batch_toolIndex : nat; batch_toolCall : ToolCall; batch_started : option ToolStarted; resultExists : bool;
  batch_terminate : bool }.
Record ToolBatchState := MkToolBatch {
  batch_assistantEntryId : jsstring; batch_calls : list ToolBatchCall; batch_truncated : bool; unresolved : bool }.

Record StepState := MkStepState {
  st_kind : StepKind; st_attempts : Z; st_resultEntryId : jsstring; st_compactionReason : option jsstring }.
Record NewestOwn := MkNewestOwn {
  newest_entryId : jsstring; newest_type : EntryType; newest_role : option role; newest_stopReason : option StopReason }.

Record OperationState := MkOperationState {
  operation_id : jsstring; operation_kind : OperationKind; operation_intent : OperationIntent;
  operation_aborting : bool; operation_step : option StepState; operation_toolBatch : option ToolBatchState;
  missingInitialMessages : list ProvisionedEntry; pendingSteer : list ProvisionedEntry;
  pendingFollowUp : list ProvisionedEntry; pendingWrites : list ProvisionedEntry;
  operation_deferred : option DeferredHandle; overflowRecoveryUsed : bool; newestOwn : option NewestOwn;
  target_result : option bool; target_summary : option bool }.
Record LaneState := MkLaneState {
  lane_name : jsstring; lane_leafId : option jsstring; lane_operation : option OperationState;
  pendingNextRun : list ProvisionedEntry }.

Record LaneReductionInput := MkReductionInput {
  input_slice : RecordLogSlice; input_leafId : option jsstring; ownEntries : list Entry;
  configurationEntries : list Entry; defaults : EffectiveLaneConfiguration }.
Record LaneReductionResult := MkReductionResult {
  laneState : LaneState; effectiveConfiguration : EffectiveLaneConfiguration;
  terminalFailure : option TerminalFailureState }.

(** [[...values].sort((left, right) => left.seq - right.seq)]: a stable sort. *)
Fixpoint insert_by {A} (seq : A → Z) (x : A) (l : list A) : list A :=
  match l with
  | [] => [x]
  | y :: l' => if seq x <=? seq y then x :: l else y :: insert_by seq x l'
  end.
Definition bySequence {A} (seq : A → Z) (values : list A) : list A := foldr (insert_by seq) [] values.

(** [new Map(entries.map((entry) => [entry.id, entry]))]. *)
Definition entries_by_id (es : list Entry) : jsmap jsstring Entry := map_of ((λ e, (entry_id e, e)) <$> es).

(** Narrowings of records. *)
Definition as_step_attempt (r : LaneRecord) : option StepAttempt :=
  match record_body r with RStepAttempt a => Some a | _ => None end.
Definition as_tool_started (r : LaneRecord) : option ToolStarted :=
  match record_body r with RToolStarted t => Some t | _ => None end.
Definition entry_toolResult (e : Entry) : option ToolResultMessage := entry_message e ≫= as_toolResult.

Section Validate.
Context (deepEqual : ProvisionedEntry → ProvisionedEntry → bool).

Definition matchesProvisionedEntry (entry : Entry) (target : ProvisionedEntry) : bool :=
  deepEqual (MkProvisioned (entry_id entry) (entry_payload entry)) target.

Definition validateExactProvisionedEntry (byId : jsmap jsstring Entry) (target : ProvisionedEntry) : check :=
  match map_get byId (p_id target) with
  | Some entry => if matchesProvisionedEntry entry target then Ok () else Err provisioned_entry_mismatch
  | None => Ok ()
  end.

Definition validateResultEntry (byId : jsmap jsstring Entry) (resultEntryId : jsstring) (matches : Entry → bool) : check :=
  match map_get byId resultEntryId with
  | Some entry => if matches entry then Ok () else Err provisioned_entry_mismatch
  | None => Ok ()
  end.

Definition valid_reason (s : jsstring) : bool :=
  bool_decide (s = js "manual" ∨ s = js "threshold" ∨ s = js "overflow").

Definition validateAttemptReason (record : StepAttempt) : check :=
  match step record, compactionReason record with
  | step_compaction, Some s => if valid_reason s then Ok () else Err invalid_compaction_reason
  | step_compaction, None => Err invalid_compaction_reason
  | _, Some _ => Err invalid_compaction_reason
  | _, None => Ok ()
  end.

(** Whether an attempt continues the series of the previous one. *)
Definition continuesSeries (record : StepAttempt) (seq : Z) (previous : option StepAttempt)
    (byId : jsmap jsstring Entry) : option StepAttempt :=
  match previous with
  | Some p =>
      if bool_decide (step p = step record)
         && match map_get byId (step_resultEntryId p) with Some e => seq <=? entry_seq e | None => true end
      then Some p else None
  | None => None
  end.

Definition validateAttemptSequence (record : StepAttempt) (seq : Z) (previous : option StepAttempt)
    (byId : jsmap jsstring Entry) : check :=
  let series := continuesSeries record seq previous byId in
  let expectedAttempt := match series with Some p => attempt p + 1 | None => 1 end in
  if negb (attempt record =? expectedAttempt) then Err non_consecutive_attempt else
  match series with
  | None => Ok ()
  | Some p =>
      if decide (step record = step_assistant) then Ok () else
      if decide (step_resultEntryId record ≠ step_resultEntryId p) then Err inconsistent_step else
      if decide (compactionReason record ≠ compactionReason p) then Err inconsistent_step else Ok ()
  end.

Definition validateAttemptResult (byId : jsmap jsstring Entry) (record : StepAttempt) : check :=
  match step record with
  | step_assistant =>
      validateResultEntry byId (step_resultEntryId record) (λ e, bool_decide (is_Some (entry_assistant e)))
  | step_compaction =>
      validateResultEntry byId (step_resultEntryId record) (λ e, bool_decide (entry_type e = et_compaction))
  | step_branch_summary =>
      validateResultEntry byId (step_resultEntryId record) (λ e, bool_decide (entry_type e = et_branch_summary))
  end.

(** [`${record.assistantEntryId}\u0000${record.toolIndex}`]. *)
Definition invocation (t : ToolStarted) : jsstring := assistantEntryId t ++ [0] ++ js_of_Z (toolIndex t).

(** [toolCalls[index]]. *)
Definition at_index {A} (l : list A) (index : Z) : option A := if 0 <=? index then l !! Z.to_nat index else None.

Definition validateToolStart (record : ToolStarted) (byId : jsmap jsstring Entry) (invocations : gset jsstring)
    : result RecordLogCorruptionReason (gset jsstring) :=
  if decide (invocation record ∈ invocations) then Err duplicate_tool_invocation else
  let invocations := {[invocation record]} ∪ invocations in
  match map_get byId (assistantEntryId record) ≫= entry_assistant with
  | None => Err tool_call_mismatch
  | Some message =>
      match at_index (tool_calls message) (toolIndex record) with
      | None => Err tool_call_mismatch
      | Some toolCall =>
          if decide (call_id toolCall = tool_callId record ∧ call_name toolCall = tool_name record) then
            _ ← validateResultEntry byId (tool_resultEntryId record)
                  (λ e, match entry_toolResult e with
                        | Some t => bool_decide (toolCallId t = tool_callId record ∧ toolName t = tool_name record)
                        | None => false
                        end);
            Ok invocations
          else Err tool_call_mismatch
      end
  end.

(** A deferred assistant message without its handle. *)
Definition lacks_handle (e : Entry) : bool :=
  match entry_assistant e with
  | Some a => bool_decide (stopReason a = sr_deferred) && negb (bool_decide (is_Some (deferred a)))
  | None => false
  end.

Definition validateDeferredHandles (es : list Entry) : check :=
  if existsb lacks_handle es then Err invalid_deferred_handle else Ok ().

Fixpoint validate_all {A} (f : A → check) (l : list A) : check :=
  match l with [] => Ok () | x :: l => _ ← f x; validate_all f l end.

Definition validateOperationResult (byId : jsmap jsstring Entry) (intent : OperationIntent) : check :=
  match intent with
  | IRun _ initialMessages _ _ => validate_all (validateExactProvisionedEntry byId) initialMessages
  | ICompaction _ resultEntryId =>
      validateResultEntry byId resultEntryId (λ e, bool_decide (entry_type e = et_compaction))
  | INavigation _ _ _ _ (Some summaryEntryId) =>
      if truthy summaryEntryId
      then validateResultEntry byId summaryEntryId (λ e, bool_decide (entry_type e = et_branch_summary)) else Ok ()
  | INavigation _ _ _ _ None => Ok ()
  end.

(** The maps the validation loop fills. *)
Record validation := MkValidation {
  starts : gset jsstring; finishedAt : gmap jsstring Z; abortedAt : gmap jsstring Z;
  queueEnqueues : gmap jsstring LaneRecord; latestAttempt : gmap jsstring StepAttempt;
  toolInvocations : gset jsstring }.

#[export] Instance validation_eta : Eta validation := λ v,
  MkValidation (starts v) (finishedAt v) (abortedAt v) (queueEnqueues v) (latestAttempt v) (toolInvocations v).

Definition new_validation : validation := MkValidation ∅ ∅ ∅ ∅ ∅ ∅.

(** The checks on a record that names its operation. *)
Definition validateOwner (v : validation) (record : LaneRecord) : check :=
  match record_runId record with
  | Some runId =>
      if decide (runId ∉ starts v) then Err unknown_operation else
      match finishedAt v !! runId with
      | Some finishSeq => if finishSeq <? record_seq record then Err record_after_finish else Ok ()
      | None => Ok ()
      end
  | None => Ok ()
  end.

Definition validate_record (byId : jsmap jsstring Entry) (v : validation) (record : LaneRecord)
    : result RecordLogCorruptionReason validation :=
  match record_body record with
  | ROperationStarted _ intent =>
      let v := v <| starts := {[record_id record]} ∪ starts v |> in
      _ ← validateOperationResult byId intent; Ok v
  | body =>
      _ ← validateOwner v record;
      match body with
      | ROperationStarted _ _ => Ok v
      | ROperationFinished runId _ _ => Ok (v <| finishedAt := <[runId := record_seq record]> (finishedAt v) |>)
      | RAbortRequested runId => Ok (v <| abortedAt := <[runId := record_seq record]> (abortedAt v) |>)
      | RStepAttempt a =>
          _ ← validateAttemptReason a;
          _ ← validateAttemptSequence a (record_seq record) (latestAttempt v !! step_runId a) byId;
          _ ← validateAttemptResult byId a;
          Ok (v <| latestAttempt := <[step_runId a := a]> (latestAttempt v) |>)
      | RToolStarted t =>
          invocations ← validateToolStart t byId (toolInvocations v);
          Ok (v <| toolInvocations := invocations |>)
      | RQueueEnqueued queue runId target =>
          if bool_decide (queue ≠ q_nextRun)
             && match runId ≫= λ i, abortedAt v !! i with Some a => a <? record_seq record | None => false end
          then Err queue_after_abort else
          let v := v <| queueEnqueues := <[p_id target := record]> (queueEnqueues v) |> in
          _ ← validateExactProvisionedEntry byId target; Ok v
      | RQueueCancelled runId entryId =>
          match queueEnqueues v !! entryId with
          | Some enqueue =>
              if (record_seq record <=? record_seq enqueue) || negb (bool_decide (record_runId enqueue = runId))
                 || map_has byId entryId
              then Err invalid_queue_cancellation else Ok v
          | None => Err invalid_queue_cancellation
          end
      | RWriteDeferred _ target => _ ← validateExactProvisionedEntry byId target; Ok v
      | RUsage _ => Ok v
      end
  end.

Fixpoint validate_records (byId : jsmap jsstring Entry) (v : validation) (rs : list LaneRecord)
    : result RecordLogCorruptionReason validation :=
  match rs with
  | [] => Ok v
  | r :: rs => v ← validate_record byId v r; validate_records byId v rs
  end.

Definition validateRecordLog (input : RecordLogSlice) : check :=
  if bool_decide (1 < length (openOperations input))%nat then Err multiple_open_operations else
  let byId := entries_by_id (slice_entries input) in
  _ ← validateDeferredHandles (map_values byId);
  _ ← validate_records byId new_validation (bySequence record_seq (slice_records input));
  Ok ().

End Validate.

(** ** Reduction *)

Definition configuration_step (c : EffectiveLaneConfiguration) (entry : Entry) : EffectiveLaneConfiguration :=
  match entry_payload entry with
  | PModelChange provider modelId => c <| eff_model := (provider, modelId) |>
  | PThinkingLevel level => c <| eff_thinkingLevel := level |>
  | PActiveTools names => c <| eff_activeToolNames := names |>
  | PMessage m _ =>
      match as_assistant m with
      | Some a => c <| eff_model := (assistant_provider a, assistant_model a) |>
      | None => c
      end
  | _ => c
  end.

Definition deriveEffectiveConfiguration (input : LaneReductionInput) : EffectiveLaneConfiguration :=
  let byId := entries_by_id (configurationEntries input ++ ownEntries input) in
  foldl configuration_step (defaults input) (bySequence entry_seq (map_values byId)).

Definition deriveNewestOwn (entry : option Entry) : option NewestOwn :=
  match entry with
  | None => None
  | Some e =>
      Some match entry_message e with
           | None => MkNewestOwn (entry_id e) (entry_type e) None None
           | Some m =>
               MkNewestOwn (entry_id e) (entry_type e) (Some (message_role m)) (stopReason <$> as_assistant m)
           end
  end.

(** [ownEntries.reverse().find(...)] for the last assistant message with tool calls. *)
Definition has_tool_calls (e : Entry) : bool :=
  match entry_assistant e with Some a => negb (bool_decide (tool_calls a = [])) | None => false end.

(** [terminate === true] on a message entry. *)
Definition entry_terminates (e : Entry) : bool :=
  match entry_payload e with PMessage _ t => t | _ => false end.

(** The tool start recorded last for a call of the assistant entry. *)
Definition tool_starts (operationId assistantId : jsstring) (records : list LaneRecord) : jsmap Z ToolStarted :=
  map_of (omap (λ r, t ← as_tool_started r;
                     if decide (tool_runId t = operationId ∧ assistantEntryId t = assistantId)
                     then Some (toolIndex t, t) else None) records).

Definition is_blocked_result (assistantEntry : Entry) (deferredWriteIds : list jsstring) (toolCall : ToolCall)
    (e : Entry) : bool :=
  (entry_seq assistantEntry <? entry_seq e) && negb (bool_decide (entry_id e ∈ deferredWriteIds))
  && match entry_toolResult e with Some t => bool_decide (toolCallId t = call_id toolCall) | None => false end.

Definition batch_call (starts : jsmap Z ToolStarted) (own : list Entry) (byId : jsmap jsstring Entry)
    (assistantEntry : Entry) (deferredWriteIds : list jsstring) (index : nat) (toolCall : ToolCall) : ToolBatchCall :=
  let started := map_get starts (Z.of_nat index) in
  let startedResult := started ≫= λ t, map_get byId (tool_resultEntryId t) in
  let blockedResult := find (is_blocked_result assistantEntry deferredWriteIds toolCall) own in
  let result := match startedResult with Some e => Some e | None => blockedResult end in
  MkBatchCall index toolCall started (bool_decide (is_Some result))
    (match result with Some e => entry_terminates e | None => false end).

Definition deriveToolBatch (operationId : jsstring) (records : list LaneRecord) (own : list Entry)
    (byId : jsmap jsstring Entry) (deferredWriteIds : list jsstring) : option ToolBatchState :=
  match find has_tool_calls (reverse own) with
  | None => None
  | Some assistantEntry =>
      match entry_assistant assistantEntry with
      | None => None
      | Some message =>
          let starts := tool_starts operationId (entry_id assistantEntry) records in
          let calls := imap (batch_call starts own byId assistantEntry deferredWriteIds) (tool_calls message) in
          Some (MkToolBatch (entry_id assistantEntry) calls (bool_decide (stopReason message = sr_length))
                  (existsb (λ c, negb (resultExists c)) calls))
      end
  end.

(** A queued item: its queue, the run it belongs to and the entry it will become. *)
Definition as_enqueued (r : LaneRecord) : option (QueueKind * option jsstring * ProvisionedEntry) :=
  match record_body r with RQueueEnqueued q i t => Some (q, i, t) | _ => None end.
Definition as_cancelled (r : LaneRecord) : option jsstring :=
  match record_body r with RQueueCancelled _ i => Some i | _ => None end.
Definition as_write_deferred (r : LaneRecord) : option ProvisionedEntry :=
  match record_body r with RWriteDeferred _ t => Some t | _ => None end.

(** The records of one operation. *)
Definition belongs_to (operationId : jsstring) (r : LaneRecord) : bool :=
  match record_body r with
  | ROperationStarted _ _ => bool_decide (record_id r = operationId)
  | _ => bool_decide (record_runId r = Some operationId)
  end.

Definition initial_messages (intent : OperationIntent) : list ProvisionedEntry :=
  match intent with IRun _ initialMessages _ _ => initialMessages | _ => [] end.

(** The items enqueued, not yet entries and not cancelled, in sequence order. *)
Definition pending_queue (records : list LaneRecord) (byId : jsmap jsstring Entry)
    : list (QueueKind * option jsstring * ProvisionedEntry) :=
  filter (λ q, map_has byId (p_id q.2) = false ∧ p_id q.2 ∉ omap as_cancelled records) (omap as_enqueued records).

Definition pending_of (queue : QueueKind) (operationId : jsstring)
    (pending : list (QueueKind * option jsstring * ProvisionedEntry)) : list ProvisionedEntry :=
  snd <$> filter (λ q, q.1.1 = queue ∧ q.1.2 = Some operationId) pending.

Definition is_abort (r : LaneRecord) : bool := match record_body r with RAbortRequested _ => true | _ => false end.

(** The step in progress: the newest attempt, unless its result exists. *)
Definition deriveStep (operationRecords : list LaneRecord) (byId : jsmap jsstring Entry) : option StepState :=
  match last (omap as_step_attempt operationRecords) with
  | Some a =>
      if map_has byId (step_resultEntryId a) then None
      else Some (MkStepState (step a) (attempt a) (step_resultEntryId a)
                   (if decide (step a = step_compaction) then compactionReason a else None))
  | None => None
  end.

(** The newest sequence number of the inputs the run has consumed ([-Infinity] if none). *)
Definition consumed_ids (intent : OperationIntent) (operationRecords : list LaneRecord) : list jsstring :=
  (p_id <$> initial_messages intent)
  ++ omap (λ r, match as_enqueued r with
                | Some (q, _, t) => if decide (q ≠ q_nextRun) then Some (p_id t) else None
                | None => None
                end) operationRecords.

Definition newestConsumed (ids : list jsstring) (byId : jsmap jsstring Entry) : option Z :=
  foldl (λ newest i,
    match map_get byId i with
    | Some e => if decide (entry_type e = et_message)
                then Some match newest with Some n => n `max` entry_seq e | None => entry_seq e end else newest
    | None => newest
    end) None ids.

Definition overflow_attempt (r : LaneRecord) : bool :=
  match as_step_attempt r with
  | Some a => bool_decide (step a = step_compaction ∧ compactionReason a = Some (js "overflow"))
  | None => false
  end.

Definition deriveOverflowRecoveryUsed (intent : OperationIntent) (operationRecords : list LaneRecord)
    (byId : jsmap jsstring Entry) : bool :=
  let newest := newestConsumed (consumed_ids intent operationRecords) byId in
  existsb (λ r, overflow_attempt r && match newest with Some n => n <? record_seq r | None => true end)
    operationRecords.

Definition deriveDeferred (newestOwnEntry : option Entry) : option DeferredHandle :=
  match newestOwnEntry ≫= entry_assistant with
  | Some a => if decide (stopReason a = sr_deferred) then deferred a else None
  | None => None
  end.

Definition is_deferred_fetch (id : jsstring) (r : LaneRecord) : bool :=
  match record_body r with
  | RUsage u => bool_decide (ur_cause u = uc_deferred_fetch ∧ ur_entryId u = Some id)
  | _ => false
  end.

Definition is_deferred_entry (e : Entry) : bool :=
  match entry_assistant e with Some a => bool_decide (stopReason a = sr_deferred) | None => false end.

(** [ownEntries.at(-1)] and [ownEntries.at(-2)]. *)
Definition at_minus_1 {A} (l : list A) : option A := reverse l !! 0%nat.
Definition at_minus_2 {A} (l : list A) : option A := reverse l !! 1%nat.

Definition deriveTerminalFailure (operationRecords : list LaneRecord) (own : list Entry)
    (deferredWriteIds : list jsstring) : option TerminalFailureState :=
  match at_minus_1 own with
  | None => None
  | Some newest =>
      match entry_assistant newest with
      | None => None
      | Some message =>
          if decide (stopReason message ≠ sr_error ∨ entry_id newest ∈ deferredWriteIds) then None else
          let producedByStep :=
            existsb (λ r, match as_step_attempt r with
                          | Some a => bool_decide (step_resultEntryId a = entry_id newest)
                          | None => false
                          end) operationRecords in
          let producedByDeferredFetch :=
            existsb (is_deferred_fetch (entry_id newest)) operationRecords
            || match at_minus_2 own with Some e => is_deferred_entry e | None => false end in
          if producedByStep || producedByDeferredFetch
          then Some (MkTerminalFailure (entry_id newest) (if producedByStep then from_step else from_deferred_fetch) message)
          else None
      end
  end.

Definition deriveOperation (started : OperationStartedRecord) (records : list LaneRecord) (own : list Entry)
    (byId : jsmap jsstring Entry) : OperationState :=
  let intent := op_intent started in
  let pending := pending_queue records byId in
  let operationRecords := filter (λ r, belongs_to (op_id started) r = true) records in
  let aborting := existsb is_abort operationRecords in
  let deferredWrites := omap as_write_deferred operationRecords in
  let deferredWriteIds := p_id <$> deferredWrites in
  {| operation_id := op_id started;
     operation_kind := intent_kind intent;
     operation_intent := intent;
     operation_aborting := aborting;
     operation_step := deriveStep operationRecords byId;
     operation_toolBatch := deriveToolBatch (op_id started) operationRecords own byId deferredWriteIds;
     missingInitialMessages := filter (λ t, map_has byId (p_id t) = false) (initial_messages intent);
     pendingSteer := if aborting then [] else pending_of q_steer (op_id started) pending;
     pendingFollowUp := if aborting then [] else pending_of q_followUp (op_id started) pending;
     pendingWrites := filter (λ t, map_has byId (p_id t) = false) deferredWrites;
     operation_deferred := deriveDeferred (at_minus_1 own);
     overflowRecoveryUsed := deriveOverflowRecoveryUsed intent operationRecords byId;
     newestOwn := deriveNewestOwn (at_minus_1 own);
     target_result := match intent with ICompaction _ i => Some (map_has byId i) | _ => None end;
     target_summary := match intent with
                       | INavigation _ _ _ _ (Some i) => if truthy i then Some (map_has byId i) else None
                       | _ => None
                       end |}.

Section Reduce.
Context (deepEqual : ProvisionedEntry → ProvisionedEntry → bool).

Definition reduceLaneState (input : LaneReductionInput)
    : result RecordLogCorruptionReason LaneReductionResult :=
  let slice := input_slice input in
  _ ← validateRecordLog deepEqual slice;
  let records := bySequence record_seq (slice_records slice) in
  let own := bySequence entry_seq (ownEntries input) in
  let byId := entries_by_id (slice_entries slice ++ own) in
  let started := head (openOperations slice) in
  let captured := match started with Some s => p_id <$> initial_messages (op_intent s) | None => [] end in
  let nextRun := snd <$> filter (λ q, q.1.1 = q_nextRun ∧ p_id q.2 ∉ captured) (pending_queue records byId) in
  let configuration := deriveEffectiveConfiguration input in
  Ok match started with
     | None =>
         MkReductionResult (MkLaneState (slice_lane slice) (input_leafId input) None nextRun) configuration None
     | Some s =>
         let operationRecords := filter (λ r, belongs_to (op_id s) r = true) records in
         MkReductionResult
           (MkLaneState (slice_lane slice) (input_leafId input) (Some (deriveOperation s records own byId)) nextRun)
           configuration
           (deriveTerminalFailure operationRecords own (p_id <$> omap as_write_deferred operationRecords))
     end.

End Reduce.
