(* ===== verification/ReducerTheorems.v ===== *)
(** * What recovery accepts and what it reconstructs *)

From Stdlib Require Import Sorted Permutation.
From S2P Require Import Prelude JsNumber JsString JsMap SessionTypes Messages SessionContext Reducer.

(** ** Sorting by sequence number *)

Section Sorting.
Context {A : Type} (seq : A → Z).

Lemma insert_by_perm x l : insert_by seq x l ≡ₚ x :: l.
Proof. induction l as [|y l IH]; cbn; [done|]. case_match; [done|]. rewrite IH. by constructor. Qed.

Lemma bySequence_perm l : bySequence seq l ≡ₚ l.
Proof. unfold bySequence. induction l as [|x l IH]; cbn; [done|]. by rewrite insert_by_perm, IH. Qed.

Lemma elem_of_bySequence x l : x ∈ bySequence seq l ↔ x ∈ l.
Proof. by rewrite bySequence_perm. Qed.

Lemma insert_by_sorted x l :
  StronglySorted (λ a b, seq a ≤ seq b) l → StronglySorted (λ a b, seq a ≤ seq b) (insert_by seq x l).
Proof.
  induction 1 as [|y l Hl IH Hy]; cbn; [repeat constructor|]. destruct (Z.leb_spec (seq x) (seq y)).
  - constructor; [by constructor|]. constructor; [done|]. eapply Forall_impl; [exact Hy|]. cbn. lia.
  - constructor; [done|]. rewrite insert_by_perm. constructor; [lia|done].
Qed.

Lemma bySequence_sorted l : StronglySorted (λ a b, seq a ≤ seq b) (bySequence seq l).
Proof. unfold bySequence. induction l as [|x l IH]; cbn; [constructor|by apply insert_by_sorted]. Qed.

(** With distinct sequence numbers the order is strict. *)
Lemma bySequence_strict l :
  NoDup (seq <$> l) → StronglySorted (λ a b, seq a < seq b) (bySequence seq l).
Proof.
  intros Hnd. assert (NoDup (seq <$> bySequence seq l)) as Hnd' by by rewrite bySequence_perm.
  revert Hnd'. generalize (bySequence_sorted l). generalize (bySequence seq l) as k.
  induction 1 as [|y k Hk IH Hy]; [constructor|]. rewrite fmap_cons. intros [Hn Hk2]%NoDup_cons.
  constructor; [by apply IH|]. rewrite Forall_forall in Hy |- *. intros x Hx. specialize (Hy x Hx). cbn in Hy.
  assert (seq x ≠ seq y); [|lia]. intros Heq. apply Hn. rewrite <- Heq. by apply list_elem_of_fmap_2.
Qed.

Lemma strict_sorted_unique l k :
  StronglySorted (λ a b, seq a < seq b) l → StronglySorted (λ a b, seq a < seq b) k → l ≡ₚ k → l = k.
Proof.
  intros Hl. revert k. induction Hl as [|x l Hl IH Hx]; intros k Hk Hp; [by apply Permutation_nil_l in Hp|].
  destruct Hk as [|y k Hk Hy]; [by apply Permutation_nil_r in Hp|].
  assert (x = y) as ->.
  { assert (x ∈ y :: k) as Hxk by (rewrite <- Hp; left). assert (y ∈ x :: l) as Hyl by (rewrite Hp; left).
    apply elem_of_cons in Hxk as [->|Hxk]; [done|]. apply elem_of_cons in Hyl as [->|Hyl]; [done|].
    rewrite Forall_forall in Hx, Hy. specialize (Hx _ Hyl). specialize (Hy _ Hxk). cbn in *. lia. }
  f_equal. apply IH; [done|]. by apply Permutation_cons_inv in Hp.
Qed.

Lemma bySequence_unique l k : NoDup (seq <$> l) → l ≡ₚ k → bySequence seq l = bySequence seq k.
Proof.
  intros Hl Hp. apply strict_sorted_unique; [by apply bySequence_strict| |by rewrite !bySequence_perm].
  apply bySequence_strict. by rewrite <- Hp.
Qed.

Lemma sorted_split_lt pre x post :
  StronglySorted (λ a b, seq a < seq b) (pre ++ x :: post) → Forall (λ a, seq a < seq x) pre.
Proof.
  induction pre as [|a pre IH]; cbn; [by constructor|]. intros [Hs Ha]%StronglySorted_inv.
  constructor; [|by apply IH]. apply Forall_app in Ha as [_ Ha]. by apply Forall_inv in Ha.
Qed.

End Sorting.

(** ** A consistent record log, declaratively *)

Section Consistent.
Context (deepEqual : ProvisionedEntry → ProvisionedEntry → bool) (byId : jsmap jsstring Entry).

(** The entry with this id, if there is one, satisfies [P]. *)
Definition entry_if_any (id : jsstring) (P : Entry → Prop) : Prop := ∀ e, map_get byId id = Some e → P e.

Definition as_intended (t : ProvisionedEntry) : Prop :=
  entry_if_any (p_id t) (λ e, deepEqual (MkProvisioned (entry_id e) (entry_payload e)) t = true).

Definition started_in (pre : list LaneRecord) (i : jsstring) : Prop :=
  ∃ r, r ∈ pre ∧ is_started r = true ∧ record_id r = i.
Definition finish_of (i : jsstring) (r : LaneRecord) : bool :=
  match record_body r with ROperationFinished j _ _ => bool_decide (j = i) | _ => false end.
Definition abort_of (i : jsstring) (r : LaneRecord) : bool :=
  match record_body r with RAbortRequested j => bool_decide (j = i) | _ => false end.
Definition attempt_of (i : jsstring) (r : LaneRecord) : option StepAttempt :=
  a ← as_step_attempt r; if decide (step_runId a = i) then Some a else None.
Definition enqueue_of (id : jsstring) (r : LaneRecord) : option LaneRecord :=
  q ← as_enqueued r; if decide (p_id q.2 = id) then Some r else None.

Definition intent_consistent (intent : OperationIntent) : Prop :=
  match intent with
  | IRun _ initialMessages _ _ => Forall as_intended initialMessages
  | ICompaction _ i => entry_if_any i (λ e, entry_type e = et_compaction)
  | INavigation _ _ _ _ (Some i) => i ≠ [] → entry_if_any i (λ e, entry_type e = et_branch_summary)
  | INavigation _ _ _ _ None => True
  end.

(** A compaction attempt, and no other, has one of the three reasons. *)
Definition reason_consistent (a : StepAttempt) : Prop :=
  match compactionReason a with
  | Some s => step a = step_compaction ∧ (s = js "manual" ∨ s = js "threshold" ∨ s = js "overflow")
  | None => step a ≠ step_compaction
  end.

(** The attempt [a] of sequence number [seq] retries [p]: the same step, and the
    result of [p] had not been appended by then. *)
Definition retries (a : StepAttempt) (seq : Z) (p : StepAttempt) : Prop :=
  step p = step a ∧ entry_if_any (step_resultEntryId p) (λ e, seq ≤ entry_seq e).

Definition attempt_consistent (a : StepAttempt) (seq : Z) (previous : option StepAttempt) : Prop :=
  (∀ p, previous = Some p → retries a seq p →
     attempt a = attempt p + 1
     ∧ (step a ≠ step_assistant →
        step_resultEntryId a = step_resultEntryId p ∧ compactionReason a = compactionReason p))
  ∧ ((∀ p, previous = Some p → ¬ retries a seq p) → attempt a = 1).

Definition attempt_result (a : StepAttempt) : Prop :=
  entry_if_any (step_resultEntryId a) (λ e,
    match step a with
    | step_assistant => is_Some (entry_assistant e)
    | step_compaction => entry_type e = et_compaction
    | step_branch_summary => entry_type e = et_branch_summary
    end).

(** The tool call an invocation is recorded for exists, under its id and name,
    and its result entry, if there is one, is the result of that call. *)
Definition tool_start_consistent (t : ToolStarted) : Prop :=
  (∃ e m c, map_get byId (assistantEntryId t) = Some e ∧ entry_assistant e = Some m
     ∧ 0 ≤ toolIndex t ∧ tool_calls m !! Z.to_nat (toolIndex t) = Some c
     ∧ call_id c = tool_callId t ∧ call_name c = tool_name t)
  ∧ entry_if_any (tool_resultEntryId t) (λ e,
      ∃ m, entry_toolResult e = Some m ∧ toolCallId m = tool_callId t ∧ toolName m = tool_name t).

(** What must hold of a record given the records before it. *)
Definition record_consistent (pre : list LaneRecord) (r : LaneRecord) : Prop :=
  (∀ i, record_runId r = Some i → started_in pre i ∧ Forall (λ f, finish_of i f = false) pre) ∧
  match record_body r with
  | ROperationStarted _ intent => intent_consistent intent
  | RStepAttempt a =>
      reason_consistent a ∧ attempt_consistent a (record_seq r) (last (omap (attempt_of (step_runId a)) pre))
      ∧ attempt_result a
  | RToolStarted t =>
      (∀ t', t' ∈ omap as_tool_started pre →
         (assistantEntryId t', toolIndex t') ≠ (assistantEntryId t, toolIndex t))
      ∧ tool_start_consistent t
  | RQueueEnqueued queue runId target =>
      (queue ≠ q_nextRun → ∀ i, runId = Some i → Forall (λ a, abort_of i a = false) pre) ∧ as_intended target
  | RQueueCancelled runId entryId =>
      (∃ e, last (omap (enqueue_of entryId) pre) = Some e ∧ record_runId e = runId) ∧ map_get byId entryId = None
  | RWriteDeferred _ target => as_intended target
  | RAbortRequested _ | ROperationFinished _ _ _ | RUsage _ => True
  end.

(** ** The loop's maps stand for the records before it *)

Record link (v : validation) (pre : list LaneRecord) : Prop := {
  link_starts i : i ∈ starts v ↔ started_in pre i;
  link_finished i : finishedAt v !! i = None ↔ Forall (λ f, finish_of i f = false) pre;
  link_finished_seq i q : finishedAt v !! i = Some q → ∃ f, f ∈ pre ∧ record_seq f = q;
  link_aborted i : abortedAt v !! i = None ↔ Forall (λ f, abort_of i f = false) pre;
  link_aborted_seq i q : abortedAt v !! i = Some q → ∃ f, f ∈ pre ∧ record_seq f = q;
  link_enqueues i : queueEnqueues v !! i = last (omap (enqueue_of i) pre);
  link_attempts i : latestAttempt v !! i = last (omap (attempt_of i) pre);
  link_tools k : k ∈ toolInvocations v ↔ ∃ t, t ∈ omap as_tool_started pre ∧ invocation t = k }.

Lemma link_nil : link new_validation [].
Proof.
  split; cbn; intros; try (split; [set_solver|]); rewrite ?lookup_empty; try done.
  - intros (? & ?%elem_of_nil & _). done.
  - intros (? & ?%elem_of_nil & _). done.
Qed.

Lemma validateResultEntry_Ok id (f : Entry → bool) :
  validateResultEntry byId id f = Ok () ↔ entry_if_any id (λ e, f e = true).
Proof.
  unfold validateResultEntry, entry_if_any. destruct (map_get byId id) as [e|]; [|done].
  destruct (f e) eqn:E; (split; try done).
  - by intros _ ? [= <-].
  - intros H1. specialize (H1 e eq_refl). congruence.
Qed.

Lemma entry_if_any_iff id (P Q : Entry → Prop) : (∀ e, P e ↔ Q e) → entry_if_any id P ↔ entry_if_any id Q.
Proof. unfold entry_if_any. naive_solver. Qed.

Lemma validateExact_Ok t : validateExactProvisionedEntry deepEqual byId t = Ok () ↔ as_intended t.
Proof.
  unfold validateExactProvisionedEntry, matchesProvisionedEntry, as_intended, entry_if_any.
  destruct (map_get byId (p_id t)) as [e|]; [|done]. destruct (deepEqual _ t) eqn:E; (split; try done).
  - by intros _ ? [= <-].
  - intros H1. specialize (H1 e eq_refl). congruence.
Qed.

Lemma validateOperationResult_Ok intent :
  validateOperationResult deepEqual byId intent = Ok () ↔ intent_consistent intent.
Proof.
  destruct intent as [p ms o d|c i|t b c l [i|]]; cbn [validateOperationResult intent_consistent]; [| | |done].
  - induction ms as [|m ms IH]; cbn [validate_all]; [by split|]. rewrite Forall_cons, <- IH, <- validateExact_Ok.
    destruct (validateExactProvisionedEntry deepEqual byId m) as [[]|]; cbn; naive_solver.
  - rewrite validateResultEntry_Ok. apply entry_if_any_iff. intros e. apply bool_decide_eq_true.
  - destruct i as [|u i]; cbn [truthy]; [naive_solver|]. rewrite validateResultEntry_Ok.
    rewrite (entry_if_any_iff _ _ (λ e, entry_type e = et_branch_summary)); [naive_solver|].
    intros e. apply bool_decide_eq_true.
Qed.

Lemma validateAttemptReason_Ok a : validateAttemptReason a = Ok () ↔ reason_consistent a.
Proof.
  unfold validateAttemptReason, reason_consistent, valid_reason.
  destruct (step a), (compactionReason a) as [s|]; try naive_solver. case_bool_decide; naive_solver.
Qed.

Lemma continuesSeries_spec a seq previous p :
  continuesSeries a seq previous byId = Some p ↔ previous = Some p ∧ retries a seq p.
Proof.
  unfold continuesSeries, retries, entry_if_any. destruct previous as [p'|]; [|naive_solver].
  case_bool_decide as Hs; cbn [andb]; [|naive_solver].
  destruct (map_get byId (step_resultEntryId p')) as [e|] eqn:E; [destruct (Z.leb_spec seq (entry_seq e))|].
  - split; [intros [= <-]|naive_solver]. split_and!; [done..|]. intros e' He'. assert (e' = e) as -> by congruence. lia.
  - split; [done|]. intros ([= <-] & _ & H1). specialize (H1 e E). lia.
  - split; [intros [= <-]|naive_solver]. split_and!; [done..|]. intros e' He'. congruence.
Qed.

Lemma validateAttemptSequence_Ok a seq previous :
  validateAttemptSequence a seq previous byId = Ok () ↔ attempt_consistent a seq previous.
Proof.
  unfold validateAttemptSequence, attempt_consistent. pose proof (continuesSeries_spec a seq previous) as Hc.
  destruct (continuesSeries a seq previous byId) as [p|].
  - destruct (proj1 (Hc p) eq_refl) as [-> Hr].
    destruct (Z.eqb_spec (attempt a) (attempt p + 1)) as [Ha|Ha]; cbn [negb].
    2: { split; [done|]. intros [H1 _]. by destruct (H1 p eq_refl Hr). }
    assert ((∀ q, Some p = Some q → ¬ retries a seq q) → attempt a = 1) as Hno
      by (intros Hn; by destruct (Hn p eq_refl Hr)).
    destruct (decide (step a = step_assistant)) as [Hst|Hst].
    { split; [|done]. intros _. split; [by intros ? [= <-] _|done]. }
    destruct (decide (step_resultEntryId a ≠ step_resultEntryId p)) as [Hid|Hid];
      [|destruct (decide (compactionReason a ≠ compactionReason p)) as [Hre|Hre]]; (split; try done).
    + intros [Hall _]. destruct (Hall p eq_refl Hr) as [_ Hsame]. by destruct (Hsame Hst).
    + intros [Hall _]. destruct (Hall p eq_refl Hr) as [_ Hsame]. by destruct (Hsame Hst).
    + intros _. split; [|done]. intros ? [= <-] _. split; [done|]. intros _. split; by apply dec_stable.
  - destruct (Z.eqb_spec (attempt a) 1) as [Ha|Ha]; cbn [negb].
    + split; [intros _|done]. split; [|done]. intros p Hp Hr. by specialize (proj2 (Hc p) (conj Hp Hr)).
    + split; [done|]. intros [_ H1]. destruct Ha. apply H1. intros p Hp Hr. by specialize (proj2 (Hc p) (conj Hp Hr)).
Qed.

Lemma validateAttemptResult_Ok a : validateAttemptResult byId a = Ok () ↔ attempt_result a.
Proof.
  unfold validateAttemptResult, attempt_result.
  destruct (step a); rewrite validateResultEntry_Ok; apply entry_if_any_iff; intros e; apply bool_decide_eq_true.
Qed.

Lemma validateToolStart_Ok t invs invs' :
  validateToolStart t byId invs = Ok invs' ↔
  invocation t ∉ invs ∧ tool_start_consistent t ∧ invs' = {[invocation t]} ∪ invs.
Proof.
  unfold validateToolStart, tool_start_consistent. case_decide as Hi; [naive_solver|].
  destruct (map_get byId (assistantEntryId t)) as [e|] eqn:He; cbn [mbind option_bind];
    [|split; [done|]; naive_solver].
  destruct (entry_assistant e) as [m|] eqn:Hm; [|split; [done|]; intros (_ & [(e' & m' & c & He' & Hm' & _) _] & _); congruence].
  unfold at_index. destruct (Z.leb_spec 0 (toolIndex t)) as [Hx|Hx].
  2: { split; [done|]. intros (_ & [(e' & m' & c & _ & _ & ? & _) _] & _). lia. }
  destruct (tool_calls m !! Z.to_nat (toolIndex t)) as [c|] eqn:Hc.
  2: { split; [done|]. intros (_ & [(e' & m' & c & He' & Hm' & _ & Hc' & _) _] & _). congruence. }
  case_decide as Hid.
  2: { split; [done|]. intros (_ & [(e' & m' & c' & He' & Hm' & _ & Hc' & H1 & H2) _] & _).
       destruct Hid. assert (m' = m) as -> by congruence. assert (c' = c) as -> by congruence. done. }
  assert (∀ e, (match entry_toolResult e with
                | Some t' => bool_decide (toolCallId t' = tool_callId t ∧ toolName t' = tool_name t)
                | None => false
                end) = true ↔
               ∃ m, entry_toolResult e = Some m ∧ toolCallId m = tool_callId t ∧ toolName m = tool_name t) as Hr.
  { intros e'. destruct (entry_toolResult e'); [rewrite bool_decide_eq_true|]; naive_solver. }
  rewrite <- (entry_if_any_iff _ _ _ Hr), <- validateResultEntry_Ok.
  destruct (validateResultEntry byId (tool_resultEntryId t) _) as [[]|]; cbn; [|naive_solver].
  split; [intros [= <-]|by intros (_ & _ & ->)]. split_and!; try done. exists e, m, c. naive_solver.
Qed.

Lemma validateOwner_Ok v pre r :
  link v pre → Forall (λ f, record_seq f < record_seq r) pre →
  validateOwner v r = Ok () ↔
  ∀ i, record_runId r = Some i → started_in pre i ∧ Forall (λ f, finish_of i f = false) pre.
Proof.
  intros Hv Hlt. unfold validateOwner. destruct (record_runId r) as [i|]; [|naive_solver].
  case_decide as Hs.
  - split; [done|]. intros H1. destruct (H1 i eq_refl) as [Hst _]. by apply (link_starts v pre Hv) in Hst.
  - apply (link_starts v pre Hv) in Hs. pose proof (link_finished v pre Hv i) as Hf.
    destruct (finishedAt v !! i) as [q|] eqn:Eq.
    + destruct (link_finished_seq v pre Hv i q Eq) as (f & Hin & <-). rewrite Forall_forall in Hlt.
      rewrite (proj2 (Z.ltb_lt _ _)) by by apply Hlt. split; [done|]. intros H1.
      destruct (H1 i eq_refl) as [_ Hno]. by apply Hf in Hno.
    + split; [|done]. intros _ ? [= <-]. split; [done|]. by apply Hf.
Qed.

(** The maps after a record. *)
Definition next_validation (v : validation) (r : LaneRecord) : validation :=
  match record_body r with
  | ROperationStarted _ _ => v <| starts := {[record_id r]} ∪ starts v |>
  | ROperationFinished i _ _ => v <| finishedAt := <[i := record_seq r]> (finishedAt v) |>
  | RAbortRequested i => v <| abortedAt := <[i := record_seq r]> (abortedAt v) |>
  | RStepAttempt a => v <| latestAttempt := <[step_runId a := a]> (latestAttempt v) |>
  | RToolStarted t => v <| toolInvocations := {[invocation t]} ∪ toolInvocations v |>
  | RQueueEnqueued _ _ t => v <| queueEnqueues := <[p_id t := r]> (queueEnqueues v) |>
  | _ => v
  end.

Lemma last_omap_snoc {A B} (f : A → option B) l x :
  last (omap f (l ++ [x])) = match f x with Some y => Some y | None => last (omap f l) end.
Proof. rewrite omap_app. cbn. destruct (f x); [apply last_snoc|by rewrite app_nil_r]. Qed.

Lemma Forall_snoc_iff {A} (P : A → Prop) l x : Forall P (l ++ [x]) ↔ Forall P l ∧ P x.
Proof. rewrite Forall_app, Forall_cons. naive_solver. Qed.

Lemma started_in_snoc pre r i :
  started_in (pre ++ [r]) i ↔ started_in pre i ∨ (is_started r = true ∧ record_id r = i).
Proof. unfold started_in. setoid_rewrite elem_of_app. setoid_rewrite list_elem_of_singleton. naive_solver. Qed.

Lemma elem_snoc_seq (pre : list LaneRecord) r q :
  (∃ f, f ∈ pre ∧ record_seq f = q) → ∃ f, f ∈ pre ++ [r] ∧ record_seq f = q.
Proof. intros (f & Hf & Hq). exists f. split; [apply elem_of_app; by left|done]. Qed.

Lemma elem_snoc_last (pre : list LaneRecord) r : ∃ f, f ∈ pre ++ [r] ∧ record_seq f = record_seq r.
Proof. exists r. split; [apply elem_of_app; right; left|done]. Qed.

Lemma link_snoc v pre r : link v pre → link (next_validation v r) (pre ++ [r]).
Proof.
  intros [Hst Hfi Hfs Hab Has Hen Hat Hto]. split.
  - intros i. rewrite started_in_snoc, <- Hst. unfold next_validation, is_started.
    destruct (record_body r); cbn; [rewrite elem_of_union, elem_of_singleton; naive_solver|split; [by left|by intros [?|[? _]]]..].
  - intros i. rewrite Forall_snoc_iff, <- Hfi. unfold next_validation, finish_of.
    destruct (record_body r); cbn; try tauto. rewrite lookup_insert_None, bool_decide_eq_false. tauto.
  - intros i q. unfold next_validation. destruct (record_body r); cbn; try (by intros ?%Hfs; apply elem_snoc_seq).
    intros [[_ <-]|[_ ?%Hfs]]%lookup_insert_Some; [apply elem_snoc_last|by apply elem_snoc_seq].
  - intros i. rewrite Forall_snoc_iff, <- Hab. unfold next_validation, abort_of.
    destruct (record_body r); cbn; try tauto. rewrite lookup_insert_None, bool_decide_eq_false. tauto.
  - intros i q. unfold next_validation. destruct (record_body r); cbn; try (by intros ?%Has; apply elem_snoc_seq).
    intros [[_ <-]|[_ ?%Has]]%lookup_insert_Some; [apply elem_snoc_last|by apply elem_snoc_seq].
  - intros i. rewrite last_omap_snoc, <- Hen. unfold next_validation, enqueue_of, as_enqueued.
    destruct (record_body r); cbn; try done. case_decide as Hd; [subst; apply lookup_insert_eq|by apply lookup_insert_ne].
  - intros i. rewrite last_omap_snoc, <- Hat. unfold next_validation, attempt_of, as_step_attempt.
    destruct (record_body r); cbn; try done. case_decide as Hd; [subst; apply lookup_insert_eq|by apply lookup_insert_ne].
  - intros k. rewrite omap_app. setoid_rewrite elem_of_app. unfold next_validation.
    assert (omap as_tool_started [r] = match record_body r with RToolStarted t => [t] | _ => [] end) as ->.
    { cbn. unfold as_tool_started. by destruct (record_body r). }
    destruct (record_body r); cbn; rewrite ?elem_of_union, Hto;
      try (setoid_rewrite list_elem_of_singleton; rewrite elem_of_singleton; naive_solver).
    all: split; [intros (t' & ? & ?); exists t'; by split; [left|]|];
      intros (t' & [?|?%elem_of_nil] & ?); [by exists t'|done].
Qed.

(** Binding two checks. *)
Lemma bind_check {E B} (c : result E unit) (k : result E B) (v : B) :
  (_ ← c; k) = Ok v ↔ c = Ok () ∧ k = Ok v.
Proof. destruct c as [[]|]; cbn; naive_solver. Qed.

Lemma invocation_inj t t' :
  invocation t = invocation t' ↔ (assistantEntryId t, toolIndex t) = (assistantEntryId t', toolIndex t').
Proof.
  unfold invocation. split; [|by intros [= -> ->]]. intros [-> ->]%nul_separated. done.
Qed.

Lemma validate_record_Ok v pre r v' :
  link v pre → Forall (λ f, record_seq f < record_seq r) pre →
  validate_record deepEqual byId v r = Ok v' ↔ record_consistent pre r ∧ v' = next_validation v r.
Proof.
  intros Hv Hlt. pose proof (validateOwner_Ok v pre r Hv Hlt) as Howner.
  unfold validate_record, record_consistent, next_validation.
  destruct (record_body r) as [leaf intent|i|i o err|a|t|q i t|i e|i t|u] eqn:Eb; rewrite ?bind_check, ?Howner.
  - rewrite validateOperationResult_Ok. unfold record_runId. rewrite Eb. naive_solver.
  - naive_solver.
  - naive_solver.
  - rewrite validateAttemptReason_Ok, validateAttemptSequence_Ok, validateAttemptResult_Ok.
    rewrite (link_attempts v pre Hv). naive_solver.
  - pose proof (link_tools v pre Hv (invocation t)) as Ht.
    destruct (validateToolStart t byId (toolInvocations v)) as [invs|] eqn:E; cbn.
    + apply validateToolStart_Ok in E as (Hn & Hc & ->). rewrite Ht in Hn. split; [intros [Ho [= <-]]|naive_solver].
      split_and!; [done| |done|done]. intros t' Hin Heq%invocation_inj. apply Hn. by exists t'.
    + split; [by intros [_ ?]|]. intros [(Ho & Hu & Hc) _].
      assert (validateToolStart t byId (toolInvocations v) = Ok ({[invocation t]} ∪ toolInvocations v)) as E'.
      { apply validateToolStart_Ok. split_and!; [|done|done]. rewrite Ht. intros (t' & Hin & Heq%invocation_inj).
        by apply (Hu t'). }
      congruence.
  - assert ((bool_decide (q ≠ q_nextRun)
             && match i ≫= λ j, abortedAt v !! j with Some b => b <? record_seq r | None => false end) = false
            ↔ (q ≠ q_nextRun → ∀ j, i = Some j → Forall (λ b, abort_of j b = false) pre)) as Hq.
    { case_bool_decide as Hd; cbn [andb]; [|naive_solver]. destruct i as [j|]; cbn [mbind option_bind]; [|naive_solver].
      pose proof (link_aborted v pre Hv j) as Ha. destruct (abortedAt v !! j) as [b|] eqn:Eq.
      - destruct (link_aborted_seq v pre Hv j b Eq) as (f & Hin & <-). rewrite Forall_forall in Hlt.
        rewrite (proj2 (Z.ltb_lt _ _)) by by apply Hlt. split; [done|]. intros H1. specialize (H1 Hd j eq_refl).
        by apply Ha in H1.
      - split; [|done]. intros _ _ ? [= <-]. by apply Ha. }
    destruct (bool_decide _ && _).
    + split; [by intros [_ ?]|]. intros [(_ & Hall & _) _]. by apply Hq in Hall.
    + rewrite bind_check, validateExact_Ok. pose proof (proj1 Hq eq_refl). naive_solver.
  - rewrite (link_enqueues v pre Hv). unfold map_has.
    destruct (last (omap (enqueue_of e) pre)) as [enq|] eqn:El.
    2: { split; [by intros [_ ?]|]. by intros [(_ & (? & ? & _) & _) _]. }
    assert (record_seq r <=? record_seq enq = false) as ->.
    { apply last_Some_elem_of, list_elem_of_omap in El as (x & Hx & Hen).
      assert (enq = x) as ->.
      { unfold enqueue_of in Hen. destruct (as_enqueued x); [|done]. cbn in Hen. case_decide; congruence. }
      rewrite Forall_forall in Hlt. specialize (Hlt x Hx). lia. }
    cbn [orb]. case_bool_decide as Hr; cbn [negb orb].
    2: { split; [by intros [_ ?]|]. intros [(_ & (enq' & [= <-] & ?) & _) _]. done. }
    case_bool_decide as Hb.
    + split; [by intros [_ ?]|]. intros [(_ & _ & Hno) _]. rewrite Hno in Hb. by destruct Hb.
    + apply eq_None_not_Some in Hb. naive_solver.
  - rewrite validateExact_Ok. naive_solver.
  - naive_solver.
Qed.

Lemma validate_records_Ok v pre rs :
  link v pre → StronglySorted (λ a b, record_seq a < record_seq b) (pre ++ rs) →
  (∃ v', validate_records deepEqual byId v rs = Ok v') ↔
  ∀ before r after, rs = before ++ r :: after → record_consistent (pre ++ before) r.
Proof.
  revert v pre. induction rs as [|r rs IH]; intros v pre Hv Hs; cbn [validate_records].
  - split; [|by eexists]. by intros _ [].
  - pose proof (sorted_split_lt record_seq pre r rs Hs) as Hlt.
    pose proof (λ v', validate_record_Ok v pre r v' Hv Hlt) as Hr.
    assert (StronglySorted (λ a b, record_seq a < record_seq b) ((pre ++ [r]) ++ rs)) as Hs' by by rewrite <- app_assoc.
    specialize (IH (next_validation v r) (pre ++ [r]) (link_snoc v pre r Hv) Hs').
    destruct (validate_record deepEqual byId v r) as [v1|e] eqn:E; cbn [mbind result_bind].
    + destruct (proj1 (Hr v1) eq_refl) as [Hc ->]. rewrite IH. split.
      * intros Hall [|r' before] r0 after Heq; injection Heq as <- ->; [by rewrite app_nil_r|].
        specialize (Hall before r0 after eq_refl). by rewrite <- app_assoc in Hall.
      * intros Hall before r0 after ->. specialize (Hall (r :: before) r0 after eq_refl). by rewrite <- app_assoc.
    + split; [by intros [? ?]|]. intros Hall. specialize (Hall [] r rs eq_refl). rewrite app_nil_r in Hall.
      by specialize (proj2 (Hr (next_validation v r)) (conj Hall eq_refl)).
Qed.

End Consistent.

(** ** Properties *)

(** C20: on a slice whose sequence numbers are distinct, as storage assigns them,
    the validator accepts exactly the consistent logs: at most one open operation,
    deferred messages with handles, and every record consistent with the records
    before it: owned by a started, unfinished operation; attempts numbered from 1
    without gaps and retried for the same result; tool starts unique and for tool
    calls that exist; no steering after an abort; cancellations of pending items
    only; entries as their intents provisioned them. *)
Theorem validateRecordLog_iff deepEqual slice :
  NoDup (record_seq <$> slice_records slice) →
  validateRecordLog deepEqual slice = Ok () ↔
  (length (openOperations slice) ≤ 1)%nat
  ∧ Forall (λ e, lacks_handle e = false) (map_values (entries_by_id (slice_entries slice)))
  ∧ ∀ before r after, bySequence record_seq (slice_records slice) = before ++ r :: after →
      record_consistent deepEqual (entries_by_id (slice_entries slice)) before r.
Proof.
  intros Hnd. unfold validateRecordLog. case_bool_decide as Hop; [split; [done|lia]|].
  rewrite !bind_check. unfold validateDeferredHandles.
  set (byId := entries_by_id (slice_entries slice)).
  assert (existsb lacks_handle (map_values byId) = false ↔ Forall (λ e, lacks_handle e = false) (map_values byId)) as Hd.
  { generalize (map_values byId) as es. induction es as [|e es IH]; cbn; [by split|]. by rewrite Forall_cons, <- IH, orb_false_iff. }
  pose proof (validate_records_Ok deepEqual byId new_validation [] (bySequence record_seq (slice_records slice))
                link_nil (bySequence_strict record_seq _ Hnd)) as Hv. cbn [app] in Hv. rewrite <- Hv, <- Hd.
  destruct (existsb lacks_handle (map_values byId)); [naive_solver|].
  destruct (validate_records deepEqual byId new_validation _) as [v|err]; cbn.
  - split; [|done]. intros _. split_and!; [lia|done|by exists v].
  - split; [by intros [_ ?]|]. by intros (_ & _ & [? ?]).
Qed.

(** A run with one assistant attempt and a cancelled follow-up. *)
Definition demo_record (id : string) (seq : Z) (body : RecordBody) : LaneRecord :=
  MkRecord (js id) seq (js "main") 0 body.
Definition demo_target (id : string) : ProvisionedEntry := MkProvisioned (js id) (PMessage (demo_user 1) false).
Definition demo_log : list LaneRecord := [
  demo_record "r3" 3 (RQueueEnqueued q_followUp (Some (js "run")) (demo_target "f"));
  demo_record "run" 1 (ROperationStarted None (IRun [] [demo_target "p"] None None));
  demo_record "r2" 2 (RStepAttempt (MkStepAttempt (js "run") step_assistant 1 (js "e1") None));
  demo_record "r5" 5 (RQueueEnqueued q_steer (Some (js "run")) (demo_target "s"));
  demo_record "r4" 4 (RQueueCancelled (Some (js "run")) (js "f"))].
Definition demo_open : list OperationStartedRecord :=
  [MkOperationStarted (js "run") 1 (js "main") 0 None (IRun [] [demo_target "p"] None None)].
Definition demo_slice : RecordLogSlice := MkSlice (js "main") demo_open demo_log [].

Lemma validateRecordLog_iff_witness :
  let deepEqual := λ a b : ProvisionedEntry, bool_decide (p_id a = p_id b) in
  validateRecordLog deepEqual demo_slice = Ok () ↔
  (length (openOperations demo_slice) ≤ 1)%nat
  ∧ Forall (λ e, lacks_handle e = false) (map_values (entries_by_id (slice_entries demo_slice)))
  ∧ ∀ before r after, bySequence record_seq (slice_records demo_slice) = before ++ r :: after →
      record_consistent deepEqual (entries_by_id (slice_entries demo_slice)) before r.
Proof.
  intros deepEqual. apply (validateRecordLog_iff deepEqual demo_slice).
  apply (bool_decide_unpack _). vm_compute. exact I.
Defined.

(** The input with its records in another order. *)
Definition with_records (input : LaneReductionInput) (rs : list LaneRecord) : LaneReductionInput :=
  let s := input_slice input in
  MkReductionInput (MkSlice (slice_lane s) (openOperations s) rs (slice_entries s)) (input_leafId input)
    (ownEntries input) (configurationEntries input) (defaults input).

(** C21: recovery does not depend on the order in which storage returns the
    records, only on their sequence numbers. *)
Theorem reduceLaneState_order deepEqual input rs :
  NoDup (record_seq <$> slice_records (input_slice input)) → rs ≡ₚ slice_records (input_slice input) →
  reduceLaneState deepEqual (with_records input rs) = reduceLaneState deepEqual input.
Proof.
  intros Hnd Hp. pose proof (bySequence_unique record_seq _ rs Hnd (symmetry Hp)) as Hs.
  unfold reduceLaneState, validateRecordLog. destruct input as [[lane open records es] leaf own conf defs].
  unfold with_records. cbn [input_slice slice_lane openOperations slice_records slice_entries input_leafId ownEntries
    configurationEntries defaults] in *. by rewrite <- Hs.
Qed.

Definition demo_defaults : EffectiveLaneConfiguration := MkConfiguration (js "p", js "m") (js "off") [].
Definition demo_input : LaneReductionInput := MkReductionInput demo_slice None [] [] demo_defaults.

Lemma reduceLaneState_order_witness :
  reduceLaneState (λ _ _, true) (with_records demo_input (reverse demo_log)) = reduceLaneState (λ _ _, true) demo_input.
Proof.
  apply (reduceLaneState_order (λ _ _, true) demo_input (reverse demo_log)).
  - apply (bool_decide_unpack _). vm_compute. exact I.
  - apply reverse_Permutation.
Defined.

(** *** Pending work *)

Lemma entries_by_id_None es i : map_get (entries_by_id es) i = None ↔ i ∉ entry_id <$> es.
Proof.
  unfold entries_by_id. rewrite eq_None_not_Some, map_of_has. by rewrite <- list_fmap_compose.
Qed.

Lemma map_has_entries es i : map_has (entries_by_id es) i = false ↔ i ∉ entry_id <$> es.
Proof. by rewrite map_has_false, entries_by_id_None. Qed.

(** What an enqueued record of the log [rs] still asks for: its item, when the queue and the
    run are the wanted ones and the item is neither an entry yet nor cancelled. *)
Definition due (rs : list LaneRecord) (es : list Entry) (wanted : QueueKind → option jsstring → ProvisionedEntry → bool)
    (r : LaneRecord) : option ProvisionedEntry :=
  match record_body r with
  | RQueueEnqueued queue run t =>
      if wanted queue run t && bool_decide (p_id t ∉ entry_id <$> es)
         && negb (existsb (λ c, match record_body c with RQueueCancelled _ i => bool_decide (i = p_id t) | _ => false end) rs)
      then Some t else None
  | _ => None
  end.

(** What a record that deferred a write for the operation still asks for. *)
Definition write_due (es : list Entry) (operation : jsstring) (r : LaneRecord) : option ProvisionedEntry :=
  match record_body r with
  | RWriteDeferred i t => if bool_decide (i = operation) && bool_decide (p_id t ∉ entry_id <$> es) then Some t else None
  | _ => None
  end.

Definition on_queue (queue : QueueKind) (operation : jsstring) (q : QueueKind) (run : option jsstring) (t : ProvisionedEntry) : bool :=
  bool_decide (q = queue) && bool_decide (run = Some operation).

Lemma cancelled_in rs i :
  existsb (λ c, match record_body c with RQueueCancelled _ j => bool_decide (j = i) | _ => false end) rs = true ↔ i ∈ omap as_cancelled rs.
Proof.
  rewrite existsb_exists, list_elem_of_omap. setoid_rewrite <- list_elem_of_In. unfold as_cancelled.
  split; intros (r & Hr & Hb); exists r; (split; [done|]); destruct (record_body r); try done.
  - apply bool_decide_eq_true in Hb. by subst.
  - injection Hb as ->. by rewrite bool_decide_true.
Qed.

(** The queue of the reducer, filtered, is what its records ask for, one after the other. *)
Lemma due_pending rs es (wanted : QueueKind → option jsstring → ProvisionedEntry → bool) (Q : QueueKind * option jsstring * ProvisionedEntry → Prop)
    `{!∀ q, Decision (Q q)} log :
  (∀ q run t, Q (q, run, t) ↔ wanted q run t = true) → (∀ i, i ∈ omap as_cancelled log ↔ i ∈ omap as_cancelled rs) →
  snd <$> filter Q (pending_queue log (entries_by_id es)) = omap (due rs es wanted) log.
Proof.
  intros HQ Hc. unfold pending_queue. generalize (omap as_cancelled log) Hc. clear Hc. intros cancelled Hc.
  induction log as [|r log IH]; [done|]. cbn [omap list_omap]. unfold due at 1, as_enqueued at 1.
  destruct (record_body r) as [| | | | |queue run t| | |]; try exact IH. rewrite filter_cons. cbn [snd].
  specialize (Hc (p_id t)). rewrite <- cancelled_in in Hc. specialize (HQ queue run t). set (c := existsb _ rs) in *.
  assert (Hdue : (map_has (entries_by_id es) (p_id t) = false ∧ p_id t ∉ cancelled) ↔ bool_decide (p_id t ∉ entry_id <$> es) && negb c = true).
  { rewrite map_has_entries, andb_true_iff, bool_decide_eq_true, negb_true_iff, Hc. by destruct c; naive_solver. }
  rewrite <- andb_assoc. set (b := bool_decide (p_id t ∉ entry_id <$> es) && negb c) in *. clearbody b. clear c Hc.
  destruct (decide (map_has _ _ = false ∧ _)) as [Hd|Hd]; rewrite Hdue in Hd; [|apply not_true_is_false in Hd].
  - rewrite Hd, andb_true_r, filter_cons. destruct (decide (Q (queue, run, t))) as [HQ'|HQ']; rewrite HQ in HQ'.
    + rewrite HQ'. cbn. by rewrite IH.
    + apply not_true_is_false in HQ'. rewrite HQ'. exact IH.
  - rewrite Hd, andb_false_r. exact IH.
Qed.

(** The order of the entries does not matter. *)
Lemma not_entry_perm es es' i : es ≡ₚ es' → bool_decide (i ∉ entry_id <$> es) = bool_decide (i ∉ entry_id <$> es').
Proof. intros He. apply bool_decide_ext. by rewrite He. Qed.

Lemma due_perm rs es es' wanted (log : list LaneRecord) :
  es ≡ₚ es' → omap (due rs es wanted) log = omap (due rs es' wanted) log.
Proof.
  intros He. induction log as [|r log IH]; [done|]. cbn [omap list_omap]. rewrite IH. unfold due.
  destruct (record_body r); try done. by rewrite (not_entry_perm es es').
Qed.

Lemma write_due_perm es es' i (log : list LaneRecord) : es ≡ₚ es' → omap (write_due es i) log = omap (write_due es' i) log.
Proof.
  intros He. induction log as [|r log IH]; [done|]. cbn [omap list_omap]. rewrite IH. unfold write_due.
  destruct (record_body r); try done. by rewrite (not_entry_perm es es').
Qed.

Lemma writes_due es operation (rs : list LaneRecord) :
  filter (λ t, map_has (entries_by_id es) (p_id t) = false) (omap as_write_deferred (filter (λ r, belongs_to operation r = true) rs))
  = omap (write_due es operation) rs.
Proof.
  induction rs as [|r rs IH]; [done|]. rewrite filter_cons. cbn [omap list_omap]. unfold write_due at 1.
  destruct (decide (belongs_to operation r = true)) as [Hb|Hb]; unfold belongs_to, record_runId in Hb.
  - cbn [omap list_omap]. unfold as_write_deferred at 1. destruct (record_body r); try exact IH.
    apply bool_decide_eq_true in Hb. injection Hb as ->. rewrite filter_cons, (bool_decide_true (operation = operation)) by done. cbn [andb].
    pose proof (map_has_entries es (p_id target)) as Hm.
    destruct (decide (map_has _ _ = false)) as [Hd|Hd]; rewrite Hm in Hd;
      [rewrite bool_decide_true by done; by rewrite <- IH|rewrite bool_decide_false by done; exact IH].
  - destruct (record_body r); try exact IH. rewrite bool_decide_false by (intros ->; by rewrite bool_decide_true in Hb). exact IH.
Qed.

(** The result of a reduction, opened. *)
Lemma reduceLaneState_Ok deepEqual input res :
  reduceLaneState deepEqual input = Ok res →
  validateRecordLog deepEqual (input_slice input) = Ok ()
  ∧ let records := bySequence record_seq (slice_records (input_slice input)) in
    let own := bySequence entry_seq (ownEntries input) in
    let byId := entries_by_id (slice_entries (input_slice input) ++ own) in
    let started := head (openOperations (input_slice input)) in
    lane_operation (laneState res) = (λ s, deriveOperation s records own byId) <$> started
    ∧ pendingNextRun (laneState res)
      = snd <$> filter (λ q, q.1.1 = q_nextRun
          ∧ p_id q.2 ∉ match started with Some s => p_id <$> initial_messages (op_intent s) | None => [] end)
          (pending_queue records byId).
Proof.
  unfold reduceLaneState. intros [Hv H1]%bind_check. split; [done|].
  destruct (head (openOperations (input_slice input))); injection H1 as <-; done.
Qed.

Lemma belongs_to_run i r :
  is_started r = false → belongs_to i r = true ↔ record_runId r = Some i.
Proof.
  unfold is_started, belongs_to. destruct (record_body r) eqn:E; try done; intros _; apply bool_decide_eq_true.
Qed.

(** C22: recovery neither loses nor repeats work.  In the order of the sequence numbers,
    each record gives its item once, or not at all.  Of an open operation, the pending
    steering and follow-up messages are those of the records that enqueued them for it, the
    item being neither an entry yet nor cancelled (none once an abort was requested), the
    pending writes those of the records that deferred them, the item being no entry yet; the
    missing initial messages are those of the prompt, in its order, that are no entries yet;
    the messages for the next run are those enqueued for it, outstanding and not captured by
    the prompt of the open run. *)
Theorem reduceLaneState_pending deepEqual input res :
  reduceLaneState deepEqual input = Ok res →
  let rs := slice_records (input_slice input) in
  let es := slice_entries (input_slice input) ++ ownEntries input in
  let captured := match head (openOperations (input_slice input)) with
                  | Some s => p_id <$> initial_messages (op_intent s) | None => [] end in
  ∃ log, log ≡ₚ rs ∧ StronglySorted (λ a b, record_seq a ≤ record_seq b) log
  ∧ pendingNextRun (laneState res)
    = omap (due rs es (λ q _ t, bool_decide (q = q_nextRun) && bool_decide (p_id t ∉ captured))) log
  ∧ ∀ o, lane_operation (laneState res) = Some o →
    (operation_aborting o = true ↔ ∃ r, r ∈ rs ∧ record_body r = RAbortRequested (operation_id o))
    ∧ pendingSteer o = (if operation_aborting o then [] else omap (due rs es (on_queue q_steer (operation_id o))) log)
    ∧ pendingFollowUp o = (if operation_aborting o then [] else omap (due rs es (on_queue q_followUp (operation_id o))) log)
    ∧ pendingWrites o = omap (write_due es (operation_id o)) log
    ∧ missingInitialMessages o = filter (λ t, p_id t ∉ entry_id <$> es) (initial_messages (operation_intent o)).
Proof.
  intros (_ & Hop & Hnext)%reduceLaneState_Ok. cbn zeta in *.
  set (rs := slice_records (input_slice input)) in *. set (es := slice_entries (input_slice input) ++ ownEntries input).
  set (es' := slice_entries (input_slice input) ++ bySequence entry_seq (ownEntries input)) in *.
  assert (es' ≡ₚ es) as Hes by (unfold es, es'; by rewrite bySequence_perm).
  pose proof (bySequence_perm record_seq rs) as Hrs. pose proof (bySequence_sorted record_seq rs) as Hsort.
  set (log := bySequence record_seq rs) in *.
  assert (Hc : ∀ i, i ∈ omap as_cancelled log ↔ i ∈ omap as_cancelled rs).
  { intros i. rewrite !list_elem_of_omap. by setoid_rewrite Hrs. }
  exists log. split; [done|]. split; [done|]. split.
  { rewrite Hnext, <- (due_perm rs es' es) by done. apply due_pending; [|done]. intros q run t. cbn.
    by rewrite andb_true_iff, !bool_decide_eq_true. }
  intros o. rewrite Hop. destruct (head (openOperations (input_slice input))) as [s|]; [|done]. intros [= <-].
  unfold deriveOperation. cbn [operation_aborting operation_id pendingSteer pendingFollowUp pendingWrites
    missingInitialMessages operation_intent].
  set (own := filter (λ r, belongs_to (op_id s) r = true) log).
  assert (Hqueue : ∀ queue, pending_of queue (op_id s) (pending_queue log (entries_by_id es')) = omap (due rs es (on_queue queue (op_id s))) log).
  { intros queue. unfold pending_of. rewrite <- (due_perm rs es' es) by done. apply due_pending; [|done]. intros q run t. unfold on_queue. cbn.
    by rewrite andb_true_iff, !bool_decide_eq_true. }
  split_and!.
  - rewrite existsb_exists. setoid_rewrite <- list_elem_of_In. unfold own. setoid_rewrite list_elem_of_filter. setoid_rewrite Hrs.
    unfold is_abort, belongs_to, record_runId. split.
    + intros (r & [Hb Hr] & Ha). exists r. split; [done|]. destruct (record_body r); try done.
      apply bool_decide_eq_true in Hb. by injection Hb as ->.
    + intros (r & Hr & Hb). exists r. rewrite Hb. by rewrite bool_decide_eq_true_2.
  - by rewrite Hqueue.
  - by rewrite Hqueue.
  - unfold own. by rewrite writes_due, (write_due_perm es' es).
  - apply list_filter_iff. intros t. by rewrite map_has_entries, Hes.
Qed.

Definition demo_result : LaneReductionResult :=
  match reduceLaneState (λ _ _, true) demo_input with
  | Ok r => r
  | Err _ => MkReductionResult (MkLaneState [] None None []) demo_defaults None
  end.

Lemma reduceLaneState_pending_witness :
  ∃ log, log ≡ₚ demo_log ∧ StronglySorted (λ a b, record_seq a ≤ record_seq b) log
  ∧ pendingNextRun (laneState demo_result)
    = omap (due demo_log [] (λ q _ t, bool_decide (q = q_nextRun) && bool_decide (p_id t ∉ [js "p"]))) log
  ∧ ∀ o, lane_operation (laneState demo_result) = Some o →
    (operation_aborting o = true ↔ ∃ r, r ∈ demo_log ∧ record_body r = RAbortRequested (operation_id o))
    ∧ pendingSteer o = (if operation_aborting o then [] else omap (due demo_log [] (on_queue q_steer (operation_id o))) log)
    ∧ pendingFollowUp o = (if operation_aborting o then [] else omap (due demo_log [] (on_queue q_followUp (operation_id o))) log)
    ∧ pendingWrites o = omap (write_due [] (operation_id o)) log
    ∧ missingInitialMessages o = filter (λ t, p_id t ∉ entry_id <$> []) (initial_messages (operation_intent o)).
Proof. apply (reduceLaneState_pending (λ _ _, true) demo_input demo_result). vm_compute. reflexivity. Defined.

(** *** The tool batch *)

Lemma find_reverse {A} (f : A → bool) l e :
  find f (reverse l) = Some e → ∃ pre post, l = pre ++ e :: post ∧ f e = true ∧ Forall (λ x, f x = false) post.
Proof.
  induction l as [|x l IH] using rev_ind; [done|]. rewrite reverse_snoc. cbn.
  destruct (f x) eqn:Hf.
  - intros [= <-]. by exists l, [].
  - intros (pre & post & -> & He & Hpost)%IH. exists pre, (post ++ [x]). rewrite <- app_assoc. split_and!; [done..|].
    apply Forall_app. split; [done|]. by apply Forall_singleton.
Qed.

Lemma sorted_le_split {A} (seq : A → Z) pre e post :
  StronglySorted (λ a b, seq a ≤ seq b) (pre ++ e :: post) → Forall (λ a, seq a ≤ seq e) pre.
Proof.
  induction pre as [|a pre IH]; cbn; [by constructor|]. intros [Hs Ha]%StronglySorted_inv.
  constructor; [|by apply IH]. apply Forall_app in Ha as [_ Ha]. by apply Forall_inv in Ha.
Qed.

Lemma tool_starts_get op assistant rs i t :
  map_get (tool_starts op assistant rs) i = Some t →
  (∃ r, r ∈ rs ∧ record_body r = RToolStarted t) ∧ tool_runId t = op ∧ assistantEntryId t = assistant ∧ toolIndex t = i.
Proof.
  unfold tool_starts. intros (r & Hr & Ht)%map_of_get_elem%list_elem_of_omap.
  apply bind_Some in Ht as (t' & Ht' & Hd). case_decide as Hc; [|done]. injection Hd as <- <-.
  destruct Hc. split_and!; try done. exists r. split; [done|]. unfold as_tool_started in Ht'.
  destruct (record_body r); naive_solver.
Qed.

(** A validated tool start matches the call it is recorded for. *)
Lemma validated_tool_start deepEqual slice r t :
  NoDup (record_seq <$> slice_records slice) → validateRecordLog deepEqual slice = Ok () →
  r ∈ slice_records slice → record_body r = RToolStarted t →
  tool_start_consistent (entries_by_id (slice_entries slice)) t.
Proof.
  intros Hnd Hv Hr Hb.
  destruct (list_elem_of_split (bySequence record_seq (slice_records slice)) r) as (before & after & Heq);
    [by apply elem_of_bySequence|].
  unfold validateRecordLog in Hv. case_bool_decide; [done|]. rewrite !bind_check in Hv. destruct Hv as [_ Hv].
  pose proof (validate_records_Ok deepEqual (entries_by_id (slice_entries slice)) new_validation []
    (bySequence record_seq (slice_records slice)) (link_nil) (bySequence_strict record_seq _ Hnd)) as Hiff.
  destruct (validate_records deepEqual _ _ _) as [v|]; [|done].
  destruct (proj1 Hiff (ex_intro _ v eq_refl) before r after Heq) as [_ Hc]. rewrite Hb in Hc. apply Hc.
Qed.

Lemma imap_fmap_project {A B C} (f : nat → A → B) (g : B → C) (h : A → C) l :
  (∀ i a, g (f i a) = h a) → g <$> imap f l = h <$> l.
Proof.
  intros Hf. revert f Hf. induction l as [|a l IH]; intros f Hf; [done|]. cbn. f_equal; [apply Hf|]. apply IH. intros i b. apply Hf.
Qed.

(** C23: the tool batch of an interrupted turn belongs to the newest assistant
    message of the operation that calls tools, lists its calls in order, and is
    unresolved exactly while some call has no result; a start record is attached
    to a call only if it was recorded for this operation, this message and this
    position, and the validator guarantees it names this very call. *)
Theorem reduceLaneState_toolBatch deepEqual input res o b :
  NoDup (record_seq <$> slice_records (input_slice input)) →
  reduceLaneState deepEqual input = Ok res → lane_operation (laneState res) = Some o →
  operation_toolBatch o = Some b →
  ∃ e m, e ∈ ownEntries input ∧ entry_assistant e = Some m ∧ batch_assistantEntryId b = entry_id e
    ∧ batch_toolCall <$> batch_calls b = tool_calls m ∧ tool_calls m ≠ []
    ∧ (∀ e', e' ∈ ownEntries input → has_tool_calls e' = true → entry_seq e' ≤ entry_seq e)
    ∧ (unresolved b = true ↔ ∃ c, c ∈ batch_calls b ∧ resultExists c = false)
    ∧ ∀ c t, c ∈ batch_calls b → batch_started c = Some t →
        (∃ r, r ∈ slice_records (input_slice input) ∧ record_body r = RToolStarted t)
        ∧ tool_runId t = operation_id o ∧ assistantEntryId t = entry_id e
        ∧ toolIndex t = Z.of_nat (batch_toolIndex c)
        ∧ (map_get (entries_by_id (slice_entries (input_slice input))) (entry_id e) = Some e →
           call_id (batch_toolCall c) = tool_callId t ∧ call_name (batch_toolCall c) = tool_name t).
Proof.
  intros Hnd (Hv & Hop & _)%reduceLaneState_Ok. cbn zeta in Hop. rewrite Hop. clear Hop.
  destruct (head (openOperations (input_slice input))) as [s|]; [|done]. intros [= <-].
  unfold deriveOperation. cbn [operation_toolBatch operation_id]. unfold deriveToolBatch.
  set (own := bySequence entry_seq (ownEntries input)).
  destruct (find has_tool_calls (reverse own)) as [e|] eqn:Hf; [|done].
  destruct (entry_assistant e) as [m|] eqn:Hm; [|done]. intros [= <-].
  apply find_reverse in Hf as (pre & post & Hsplit & Hcalls & Hpost). exists e, m.
  cbn [batch_assistantEntryId batch_calls unresolved].
  assert (∀ x, x ∈ own ↔ x ∈ ownEntries input) as Hown by (intros; apply elem_of_bySequence).
  split_and!; try done.
  - apply Hown. rewrite Hsplit. apply elem_of_app. right. left.
  - rewrite (imap_fmap_project _ _ id) by done. apply list_fmap_id.
  - unfold has_tool_calls in Hcalls. rewrite Hm in Hcalls. by case_bool_decide.
  - intros e' He' Hc. apply Hown in He'. pose proof (bySequence_sorted entry_seq (ownEntries input)) as Hs.
    fold own in Hs. rewrite Hsplit in Hs, He'. apply sorted_le_split in Hs.
    apply elem_of_app in He' as [Hin|[->|Hin]%elem_of_cons]; [|lia|].
    + rewrite Forall_forall in Hs. by apply Hs.
    + rewrite Forall_forall in Hpost. specialize (Hpost e' Hin). congruence.
  - rewrite existsb_exists. setoid_rewrite <- list_elem_of_In. by setoid_rewrite negb_true_iff.
  - intros c t (i & [call [Hcall ->]]%list_lookup_imap_Some)%list_elem_of_lookup. cbn [batch_started batch_call batch_toolIndex batch_toolCall].
    intros Ht. destruct (tool_starts_get _ _ _ _ _ Ht) as ((r & Hr & Hb) & Hrun & Ha & Hi).
    apply list_elem_of_filter in Hr as [_ Hr]. apply elem_of_bySequence in Hr.
    split_and!; try done; [by exists r|]. intros Hget.
    destruct (validated_tool_start deepEqual _ r t Hnd Hv Hr Hb) as [(e' & m' & c' & He' & Hm' & _ & Hc' & H1 & H2) _].
    rewrite Ha in He'. assert (e' = e) as -> by congruence. assert (m' = m) as -> by congruence.
    rewrite Hi, Nat2Z.id in Hc'. assert (c' = call) as <- by congruence. by split.
Qed.

(** A run interrupted after the first of two tool calls has started. *)
Definition demo_call (id : string) : assistant_part := AToolCall (MkToolCall (js id) (js "read") JsonNull None None).
Definition demo_usage : Usage := MkUsage 0 0 0 0 None None 0 0 0 0 0 0.
Definition demo_assistant : AssistantMessage :=
  MkAssistantMessage [demo_call "c1"; demo_call "c2"] (js "api") (js "p") (js "m") None None None demo_usage
    sr_toolUse None None None None 7.
Definition demo_turn : Entry := MkEntry (js "e1") 3 None 7 (PMessage (AgentLlm (MAssistant demo_assistant)) false).
Definition demo_start : ToolStarted :=
  MkToolStarted (js "run") (js "e1") 1 (js "c2") (js "read") JsonNull (js "t2") true.
Definition demo_tool_input : LaneReductionInput :=
  MkReductionInput
    (MkSlice (js "main") demo_open
       [demo_record "run" 1 (ROperationStarted None (IRun [] [demo_target "p"] None None));
        demo_record "r2" 2 (RStepAttempt (MkStepAttempt (js "run") step_assistant 1 (js "e1") None));
        demo_record "r4" 4 (RToolStarted demo_start)] [demo_turn])
    (Some (js "e1")) [demo_turn] [] demo_defaults.
Definition demo_tool_result : LaneReductionResult :=
  match reduceLaneState (λ _ _, true) demo_tool_input with
  | Ok r => r
  | Err _ => MkReductionResult (MkLaneState [] None None []) demo_defaults None
  end.
Definition demo_batch : ToolBatchState :=
  MkToolBatch (js "e1")
    [MkBatchCall 0 (MkToolCall (js "c1") (js "read") JsonNull None None) None false false;
     MkBatchCall 1 (MkToolCall (js "c2") (js "read") JsonNull None None) (Some demo_start) false false] false true.

Lemma reduceLaneState_toolBatch_witness :
  ∃ o, operation_toolBatch o = Some demo_batch ∧
  ∃ e m, e ∈ ownEntries demo_tool_input ∧ entry_assistant e = Some m ∧ batch_assistantEntryId demo_batch = entry_id e
    ∧ batch_toolCall <$> batch_calls demo_batch = tool_calls m ∧ tool_calls m ≠ []
    ∧ (∀ e', e' ∈ ownEntries demo_tool_input → has_tool_calls e' = true → entry_seq e' ≤ entry_seq e)
    ∧ (unresolved demo_batch = true ↔ ∃ c, c ∈ batch_calls demo_batch ∧ resultExists c = false)
    ∧ ∀ c t, c ∈ batch_calls demo_batch → batch_started c = Some t →
        (∃ r, r ∈ slice_records (input_slice demo_tool_input) ∧ record_body r = RToolStarted t)
        ∧ tool_runId t = operation_id o ∧ assistantEntryId t = entry_id e
        ∧ toolIndex t = Z.of_nat (batch_toolIndex c)
        ∧ (map_get (entries_by_id (slice_entries (input_slice demo_tool_input))) (entry_id e) = Some e →
           call_id (batch_toolCall c) = tool_callId t ∧ call_name (batch_toolCall c) = tool_name t).
Proof.
  destruct (lane_operation (laneState demo_tool_result)) as [o|] eqn:Ho; [|vm_compute in Ho; discriminate].
  exists o. assert (operation_toolBatch o = Some demo_batch) as Hb.
  { vm_compute in Ho. injection Ho as <-. vm_compute. reflexivity. }
  split; [exact Hb|].
  apply (reduceLaneState_toolBatch (λ _ _, true) demo_tool_input demo_tool_result o demo_batch); [|..|exact Ho|exact Hb].
  - apply (bool_decide_unpack _). vm_compute. exact I.
  - vm_compute. reflexivity.
Defined.
