(* ===== verification/AgentLoop.v ===== *)
(** * The agent loop

    [packages/agent/src/agent-loop.ts].  What the loop calls but does not define
    (the provider stream, the tools, the hooks, the event sink, the clock, the
    abort signal) acts on a world [W] the model knows nothing about: an
    [Environment] gives each call as a function of the world.  The hooks whose
    contract forbids throwing return values; tools, argument preparation and
    validation and the two tool hooks may throw a message.  The loop itself is a
    computation over the world and the events emitted so far. *)

From S2P Require Import Prelude JsNumber JsString SessionTypes Messages.

(** ** Types ([packages/agent/src/types.ts]) *)

Inductive ToolExecutionMode := sequential | parallel.

#[export] Instance ToolExecutionMode_eq_dec : EqDecision ToolExecutionMode.
Proof. solve_decision. Defined.

Inductive ThinkingLevel := th_off | th_minimal | th_low | th_medium | th_high | th_xhigh | th_max.

#[export] Instance ThinkingLevel_eq_dec : EqDecision ThinkingLevel.
Proof. solve_decision. Defined.

Record Model := MkModel { model_provider : jsstring; model_id : jsstring }.

(** A result's [content] is missing when an untyped tool leaves it out. *)
Record AgentToolResult := MkToolResult {
  tr_content : option (list content_part); tr_details : option JsonValue; tr_usage : option Usage;
  tr_addedToolNames : option (list jsstring); tr_terminate : option bool }.

#[export] Instance AgentToolResult_eta : Eta AgentToolResult := λ r,
  MkToolResult (tr_content r) (tr_details r) (tr_usage r) (tr_addedToolNames r) (tr_terminate r).

Record BeforeToolCallResult := MkBefore {
  before_block : option bool; before_reason : option jsstring; before_terminate : option bool }.
Record AfterToolCallResult := MkAfter {
  after_content : option (list content_part); after_details : option JsonValue; after_isError : option bool;
  after_usage : option Usage; after_terminate : option bool }.

(** [AssistantMessageEvent], as far as the loop looks into it. *)
Inductive StreamEvent :=
| StreamStart (partial : AssistantMessage)
| StreamUpdate (partial : AssistantMessage)
| StreamFinished.

Inductive AgentEvent :=
| agent_start
| agent_end (messages : list AgentMessage)
| turn_start
| turn_end (message : AssistantMessage) (toolResults : list ToolResultMessage)
| message_start (message : AgentMessage)
| message_update (message : AgentMessage) (event : StreamEvent)
| message_end (message : AgentMessage)
| tool_execution_start (id name : jsstring) (args : JsonValue)
| tool_execution_update (id name : jsstring) (args : JsonValue) (partialResult : AgentToolResult)
| tool_execution_end (id name : jsstring) (result : AgentToolResult) (error : bool).

Record AgentTool (W : Type) := MkTool {
  agent_tool_name : jsstring;
  executionMode : option ToolExecutionMode;
  prepareArguments : option (JsonValue → result jsstring JsonValue);
  (** the partial results reported before the call settles, and how it settles *)
  execute : jsstring → JsonValue → W → (list AgentToolResult * result jsstring AgentToolResult) * W }.
Arguments MkTool {W}.
Arguments agent_tool_name {W}.
Arguments executionMode {W}.
Arguments prepareArguments {W}.
Arguments execute {W}.

Record AgentContext (W : Type) := MkAgentContext {
  systemPrompt : jsstring; messages : list AgentMessage; tools : option (list (AgentTool W)) }.
Arguments MkAgentContext {W}.
Arguments systemPrompt {W}.
Arguments messages {W}.
Arguments tools {W}.

#[export] Instance AgentContext_eta W : Eta (AgentContext W) := λ c,
  MkAgentContext (systemPrompt c) (messages c) (tools c).

Record AgentLoopConfig := MkConfig {
  cfg_model : Model; cfg_reasoning : option ThinkingLevel; cfg_apiKey : option jsstring;
  toolExecution : option ToolExecutionMode }.

#[export] Instance AgentLoopConfig_eta : Eta AgentLoopConfig := λ c,
  MkConfig (cfg_model c) (cfg_reasoning c) (cfg_apiKey c) (toolExecution c).

Record TurnUpdate (W : Type) := MkTurnUpdate {
  update_context : option (AgentContext W); update_model : option Model;
  update_thinkingLevel : option ThinkingLevel }.
Arguments MkTurnUpdate {W}.
Arguments update_context {W}.
Arguments update_model {W}.
Arguments update_thinkingLevel {W}.

(** What the turn hooks are shown. *)
Record TurnContext (W : Type) := MkTurnContext {
  turn_message : AssistantMessage; turn_toolResults : list ToolResultMessage; turn_context : AgentContext W;
  turn_newMessages : list AgentMessage }.
Arguments MkTurnContext {W}.

Record Request (W : Type) := MkRequest {
  request_model : Model; request_config : AgentLoopConfig; request_systemPrompt : jsstring;
  request_messages : list Message; request_tools : option (list (AgentTool W)) }.
Arguments MkRequest {W}.

Record ToolCallContext (W : Type) := MkToolCallContext {
  tcc_assistantMessage : AssistantMessage; tcc_toolCall : ToolCall; tcc_args : JsonValue;
  tcc_context : AgentContext W }.
Arguments MkToolCallContext {W}.

(** The calls out of the loop. An optional hook is an [option]. *)
Record Environment (W : Type) := MkEnvironment {
  emit_event : AgentEvent → W → W;
  signal_aborted : W → bool;
  now : W → Z * W;
  streamFunction : Request W → W → (list StreamEvent * AssistantMessage) * W;
  transformContext : option (list AgentMessage → W → list AgentMessage * W);
  env_convertToLlm : list AgentMessage → W → list Message * W;
  getApiKey : option (jsstring → W → option jsstring * W);
  getSteeringMessages : option (W → list AgentMessage * W);
  getFollowUpMessages : option (W → list AgentMessage * W);
  prepareNextTurn : option (TurnContext W → W → option (TurnUpdate W) * W);
  shouldStopAfterTurn : option (TurnContext W → W → bool * W);
  validateToolArguments : AgentTool W → ToolCall → result jsstring JsonValue;
  beforeToolCall : option (ToolCallContext W → W → result jsstring (option BeforeToolCallResult) * W);
  afterToolCall :
    option (ToolCallContext W → AgentToolResult → bool → W → result jsstring (option AfterToolCallResult) * W);
  (** which of the running tool calls makes the next step *)
  schedule : W → nat * W }.
Arguments emit_event {W}.
Arguments signal_aborted {W}.
Arguments now {W}.
Arguments streamFunction {W}.
Arguments transformContext {W}.
Arguments env_convertToLlm {W}.
Arguments getApiKey {W}.
Arguments getSteeringMessages {W}.
Arguments getFollowUpMessages {W}.
Arguments prepareNextTurn {W}.
Arguments shouldStopAfterTurn {W}.
Arguments validateToolArguments {W}.
Arguments beforeToolCall {W}.
Arguments afterToolCall {W}.
Arguments schedule {W}.

(** ** Computations over the world and the trace *)

Record State (W : Type) := MkLoopState { world : W; trace : list AgentEvent }.
Arguments MkLoopState {W}.
Arguments world {W}.
Arguments trace {W}.

Definition M (W A : Type) : Type := State W → A * State W.

#[export] Instance M_ret W : MRet (M W) := λ A a s, (a, s).
#[export] Instance M_bind W : MBind (M W) := λ A B f m s, let (a, s') := m s in f a s'.

Section Loop.
Context {W : Type} (env : Environment W).

(** A call that only acts on the world. *)
Definition call {A} (f : W → A * W) : M W A := λ s,
  let (a, w) := f (world s) in (a, MkLoopState w (trace s)).

(** [await emit(event)]. *)
Definition emit (e : AgentEvent) : M W unit := λ s,
  ((), MkLoopState (emit_event env e (world s)) (trace s ++ [e])).

Definition aborted_now : M W bool := λ s, (signal_aborted env (world s), s).

Definition call_opt {A} (f : option (W → A * W)) (fallback : A) : M W A :=
  match f with Some f => call f | None => mret fallback end.

Fixpoint forM {A} (f : A → M W unit) (l : list A) : M W unit :=
  match l with [] => mret () | x :: l => _ ← f x; forM f l end.

Definition emit_message (m : AgentMessage) : M W unit :=
  _ ← emit (message_start m); emit (message_end m).

(** ** Streaming a response *)

Definition push_message (c : AgentContext W) (m : AgentMessage) : AgentContext W :=
  c <| messages := messages c ++ [m] |>.
(** [context.messages[context.messages.length - 1] = m]. *)
Definition replace_last (c : AgentContext W) (m : AgentMessage) : AgentContext W :=
  c <| messages := take (length (messages c) - 1) (messages c) ++ [m] |>.

Definition assistant (m : AssistantMessage) : AgentMessage := AgentLlm (MAssistant m).

(** The [for await] loop: whether a partial message was added, and the context. *)
Fixpoint stream_events (events : list StreamEvent) (added : bool) (c : AgentContext W)
    : M W (bool * AgentContext W) :=
  match events with
  | [] => mret (added, c)
  | StreamFinished :: _ => mret (added, c)
  | StreamStart partial :: events =>
      _ ← emit (message_start (assistant partial));
      stream_events events true (push_message c (assistant partial))
  | StreamUpdate partial :: events =>
      if added then
        _ ← emit (message_update (assistant partial) (StreamUpdate partial));
        stream_events events added (replace_last c (assistant partial))
      else stream_events events added c
  end.

Definition streamAssistantResponse (c : AgentContext W) (config : AgentLoopConfig)
    : M W (AssistantMessage * AgentContext W) :=
  transformed ← call_opt ((λ f, f (messages c)) <$> transformContext env) (messages c);
  llmMessages ← call (env_convertToLlm env transformed);
  key ← call_opt ((λ f, f (model_provider (cfg_model config))) <$> getApiKey env) None;
  let apiKey := match key with Some k => if truthy k then Some k else cfg_apiKey config | None => cfg_apiKey config end in
  response ← call (streamFunction env
    (MkRequest (cfg_model config) (config <| cfg_apiKey := apiKey |>) (systemPrompt c) llmMessages (tools c)));
  '(added, c) ← stream_events (fst response) false c;
  let finalMessage := snd response in
  _ ← (if added : bool then mret () else emit (message_start (assistant finalMessage)));
  _ ← emit (message_end (assistant finalMessage));
  mret (finalMessage,
        if added : bool then replace_last c (assistant finalMessage) else push_message c (assistant finalMessage)).

(** ** Tool calls *)

Definition error_result (message : jsstring) : AgentToolResult :=
  MkToolResult (Some [CText (MkText message None)]) (Some (JsonObject [])) None None None.

Record FinalizedToolCall := MkFinalized { fin_toolCall : ToolCall; fin_result : AgentToolResult; fin_isError : bool }.
Record PreparedToolCall := MkPrepared { prep_toolCall : ToolCall; prep_tool : AgentTool W; prep_args : JsonValue }.
Record ExecutedToolCallBatch := MkBatch { batch_messages : list ToolResultMessage; terminate : bool }.

Definition emitToolExecutionStart (t : ToolCall) : M W unit :=
  emit (tool_execution_start (call_id t) (call_name t) (call_arguments t)).

Definition emitToolExecutionEnd (f : FinalizedToolCall) : M W unit :=
  emit (tool_execution_end (call_id (fin_toolCall f)) (call_name (fin_toolCall f)) (fin_result f) (fin_isError f)).

Definition createToolResultMessage (f : FinalizedToolCall) : M W ToolResultMessage :=
  timestamp ← call (now env);
  mret (MkToolResultMessage (call_id (fin_toolCall f)) (call_name (fin_toolCall f))
          (default [] (tr_content (fin_result f))) (tr_details (fin_result f)) (tr_usage (fin_result f))
          (match tr_addedToolNames (fin_result f) with Some (n :: l) => Some (n :: l) | _ => None end)
          (fin_isError f) timestamp).

Definition emitToolResultMessage (m : ToolResultMessage) : M W unit := emit_message (AgentLlm (MToolResult m)).

Definition shouldTerminateToolBatch (fs : list FinalizedToolCall) : bool :=
  negb (bool_decide (fs = []))
  && forallb (λ f, bool_decide (tr_terminate (fin_result f) = Some true)) fs.

(** The result messages of finalized calls, created and emitted in order. *)
Fixpoint emit_results (fs : list FinalizedToolCall) : M W (list ToolResultMessage) :=
  match fs with
  | [] => mret []
  | f :: fs =>
      m ← createToolResultMessage f;
      _ ← emitToolResultMessage m;
      ms ← emit_results fs;
      mret (m :: ms)
  end.

Definition truncated_message (name : jsstring) : jsstring :=
  js "Tool call " ++ [34] ++ name ++ [34] ++ js " was not executed: the response hit the output token limit, so its arguments may be truncated. Re-issue the tool call with complete arguments.".

Fixpoint failToolCalls (toolCalls : list ToolCall) : M W (list ToolResultMessage) :=
  match toolCalls with
  | [] => mret []
  | t :: toolCalls =>
      _ ← emitToolExecutionStart t;
      let finalized := MkFinalized t (error_result (truncated_message (call_name t))) true in
      _ ← emitToolExecutionEnd finalized;
      m ← createToolResultMessage finalized;
      _ ← emitToolResultMessage m;
      ms ← failToolCalls toolCalls;
      mret (m :: ms)
  end.

Definition failToolCallsFromTruncatedMessage (toolCalls : list ToolCall) : M W ExecutedToolCallBatch :=
  ms ← failToolCalls toolCalls; mret (MkBatch ms false).

(** [currentContext.tools?.find((t) => t.name === name)]. *)
Definition find_tool (c : AgentContext W) (name : jsstring) : option (AgentTool W) :=
  find (λ t, bool_decide (agent_tool_name t = name)) (default [] (tools c)).

Definition prepareToolCallArguments (tool : AgentTool W) (t : ToolCall) : result jsstring ToolCall :=
  match prepareArguments tool with
  | None => Ok t
  | Some prepare =>
      args ← prepare (call_arguments t);
      Ok (MkToolCall (call_id t) (call_name t) args (thoughtSignature t) (namespace t))
  end.

(** An immediate outcome or a prepared call. *)
Inductive preparation := Immediate (result : AgentToolResult) (isError : bool) | Prepared (p : PreparedToolCall).

Definition blocked_result (b : BeforeToolCallResult) : AgentToolResult :=
  let reason := match before_reason b with
                | Some r => if truthy r then r else js "Tool execution was blocked"
                | None => js "Tool execution was blocked"
                end in
  let r := error_result reason in
  if bool_decide (before_terminate b = Some true) then r <| tr_terminate := Some true |> else r.

Definition prepareToolCall (c : AgentContext W) (m : AssistantMessage) (t : ToolCall) : M W preparation :=
  match find_tool c (call_name t) with
  | None => mret (Immediate (error_result (js "Tool " ++ call_name t ++ js " not found")) true)
  | Some tool =>
      match (t' ← prepareToolCallArguments tool t; validateToolArguments env tool t') with
      | Err message => mret (Immediate (error_result message) true)
      | Ok args =>
          let ready : M W preparation :=
            is_aborted ← aborted_now;
            mret (if is_aborted : bool then Immediate (error_result (js "Operation aborted")) true
                  else Prepared (MkPrepared t tool args)) in
          match beforeToolCall env with
          | None => ready
          | Some hook =>
              outcome ← call (hook (MkToolCallContext m t args c));
              match outcome with
              | Err message => mret (Immediate (error_result message) true)
              | Ok decision =>
                  is_aborted ← aborted_now;
                  if is_aborted : bool then mret (Immediate (error_result (js "Operation aborted")) true)
                  else
                    match decision with
                    | Some b => if flag (before_block b) then mret (Immediate (blocked_result b) true) else ready
                    | None => ready
                    end
              end
          end
      end
  end.

Definition emitUpdate (t : ToolCall) (partialResult : AgentToolResult) : M W unit :=
  emit (tool_execution_update (call_id t) (call_name t) (call_arguments t) partialResult).

(** How a call settled: its result, or the message it threw. *)
Definition settled (r : result jsstring AgentToolResult) : AgentToolResult * bool :=
  match r with Ok r => (r, false) | Err message => (error_result message, true) end.

(** [??] also falls back from a [null]. *)
Definition override (after : AfterToolCallResult) (r : AgentToolResult) : AgentToolResult :=
  MkToolResult
    match after_content after with Some x => Some x | None => tr_content r end
    match after_details after with Some JsonNull | None => tr_details r | Some x => Some x end
    match after_usage after with Some x => Some x | None => tr_usage r end
    (tr_addedToolNames r)
    match after_terminate after with Some x => Some x | None => tr_terminate r end.

Definition finalizeExecutedToolCall (c : AgentContext W) (m : AssistantMessage) (p : PreparedToolCall)
    (executed : AgentToolResult * bool) : M W FinalizedToolCall :=
  match afterToolCall env with
  | None => mret (MkFinalized (prep_toolCall p) (fst executed) (snd executed))
  | Some hook =>
      after ← call (hook (MkToolCallContext m (prep_toolCall p) (prep_args p) c) (fst executed) (snd executed));
      mret match after with
           | Err message => MkFinalized (prep_toolCall p) (error_result message) true
           | Ok None => MkFinalized (prep_toolCall p) (fst executed) (snd executed)
           | Ok (Some a) =>
               MkFinalized (prep_toolCall p) (override a (fst executed)) (default (snd executed) (after_isError a))
           end
  end.

(** *** One at a time *)

Definition executePreparedToolCall (p : PreparedToolCall) : M W (AgentToolResult * bool) :=
  run ← call (execute (prep_tool p) (call_id (prep_toolCall p)) (prep_args p));
  _ ← forM (emitUpdate (prep_toolCall p)) (fst run);
  mret (settled (snd run)).

Definition run_tool_call (c : AgentContext W) (m : AssistantMessage) (t : ToolCall) : M W FinalizedToolCall :=
  preparation ← prepareToolCall c m t;
  match preparation with
  | Immediate r isError => mret (MkFinalized t r isError)
  | Prepared p => executed ← executePreparedToolCall p; finalizeExecutedToolCall c m p executed
  end.

Fixpoint sequential_calls (c : AgentContext W) (m : AssistantMessage) (toolCalls : list ToolCall)
    : M W (list FinalizedToolCall * list ToolResultMessage) :=
  match toolCalls with
  | [] => mret ([], [])
  | t :: toolCalls =>
      _ ← emitToolExecutionStart t;
      finalized ← run_tool_call c m t;
      _ ← emitToolExecutionEnd finalized;
      result ← createToolResultMessage finalized;
      _ ← emitToolResultMessage result;
      is_aborted ← aborted_now;
      if is_aborted : bool then mret ([finalized], [result])
      else
        '(fs, ms) ← sequential_calls c m toolCalls;
        mret (finalized :: fs, result :: ms)
  end.

Definition executeToolCallsSequential (c : AgentContext W) (m : AssistantMessage) (toolCalls : list ToolCall)
    : M W ExecutedToolCallBatch :=
  '(fs, ms) ← sequential_calls c m toolCalls;
  mret (MkBatch ms (shouldTerminateToolBatch fs)).

(** *** Concurrently

    A call is finalized on the spot or becomes a thread: it calls [execute], then
    emits the updates one by one, then finalizes, then emits its end.  The
    schedule picks the thread that makes the next step. *)

Inductive thread :=
| Ready (p : PreparedToolCall)
| Updating (p : PreparedToolCall) (updates : list AgentToolResult) (executed : AgentToolResult * bool)
| Ending (f : FinalizedToolCall)
| Finished (f : FinalizedToolCall).

Fixpoint prepare_calls (c : AgentContext W) (m : AssistantMessage) (toolCalls : list ToolCall) : M W (list thread) :=
  match toolCalls with
  | [] => mret []
  | t :: toolCalls =>
      _ ← emitToolExecutionStart t;
      preparation ← prepareToolCall c m t;
      entry ← match preparation with
              | Immediate r isError =>
                  let finalized := MkFinalized t r isError in
                  _ ← emitToolExecutionEnd finalized;
                  mret (Finished finalized)
              | Prepared p => mret (Ready p)
              end;
      is_aborted ← aborted_now;
      if is_aborted : bool then mret [entry]
      else entries ← prepare_calls c m toolCalls; mret (entry :: entries)
  end.

Definition thread_step (c : AgentContext W) (m : AssistantMessage) (th : thread) : M W thread :=
  match th with
  | Ready p =>
      run ← call (execute (prep_tool p) (call_id (prep_toolCall p)) (prep_args p));
      mret (Updating p (fst run) (settled (snd run)))
  | Updating p (u :: updates) executed =>
      _ ← emitUpdate (prep_toolCall p) u; mret (Updating p updates executed)
  | Updating p [] executed => f ← finalizeExecutedToolCall c m p executed; mret (Ending f)
  | Ending f => _ ← emitToolExecutionEnd f; mret (Finished f)
  | Finished f => mret (Finished f)
  end.

Definition finished (th : thread) : option FinalizedToolCall :=
  match th with Finished f => Some f | _ => None end.

(** The index of the [n]-th unfinished thread, modulo their number. *)
Definition unfinished (threads : list thread) : list nat :=
  omap id (imap (λ i th, match th with Finished _ => None | _ => Some i end) threads).
Definition pick (threads : list thread) (n : nat) : option nat :=
  unfinished threads !! (n mod length (unfinished threads))%nat.

(** [Promise.all] over the threads: the finalized calls in source order, or
    [None] when the fuel runs out. *)
Fixpoint run_threads (fuel : nat) (c : AgentContext W) (m : AssistantMessage) (threads : list thread)
    : M W (option (list FinalizedToolCall)) :=
  match mapM finished threads with
  | Some fs => mret (Some fs)
  | None =>
      match fuel with
      | O => mret None
      | S fuel =>
          n ← call (schedule env);
          match pick threads n with
          | None => mret None
          | Some i =>
              match threads !! i with
              | None => mret None
              | Some th => th' ← thread_step c m th; run_threads fuel c m (<[i := th']> threads)
              end
          end
      end
  end.

Definition executeToolCallsParallel (fuel : nat) (c : AgentContext W) (m : AssistantMessage)
    (toolCalls : list ToolCall) : M W (option ExecutedToolCallBatch) :=
  threads ← prepare_calls c m toolCalls;
  finalized ← run_threads fuel c m threads;
  match finalized with
  | None => mret None
  | Some fs => ms ← emit_results fs; mret (Some (MkBatch ms (shouldTerminateToolBatch fs)))
  end.

Definition executeToolCalls (fuel : nat) (c : AgentContext W) (m : AssistantMessage) (config : AgentLoopConfig)
    : M W (option ExecutedToolCallBatch) :=
  let toolCalls := tool_calls m in
  let hasSequentialToolCall :=
    existsb (λ t, match find_tool c (call_name t) with
                  | Some tool => bool_decide (executionMode tool = Some sequential)
                  | None => false
                  end) toolCalls in
  if bool_decide (toolExecution config = Some sequential) || hasSequentialToolCall
  then batch ← executeToolCallsSequential c m toolCalls; mret (Some batch)
  else executeToolCallsParallel fuel c m toolCalls.

(** ** The loop *)

(** The variables of [runLoop]. *)
Record loop_state := MkLoop {
  currentContext : AgentContext W; config : AgentLoopConfig; firstTurn : bool;
  pendingMessages : list AgentMessage; newMessages : list AgentMessage }.

#[export] Instance loop_state_eta : Eta loop_state := λ l,
  MkLoop (currentContext l) (config l) (firstTurn l) (pendingMessages l) (newMessages l).

(** Messages added to the transcript and to the messages of this run. *)
Definition add_messages (l : loop_state) (ms : list AgentMessage) : loop_state :=
  l <| currentContext := (currentContext l) <| messages := messages (currentContext l) ++ ms |> |>
    <| newMessages := newMessages l ++ ms |>.

(** Injects the pending messages, one after the other. *)
Definition inject_pending (l : loop_state) : M W loop_state :=
  _ ← forM emit_message (pendingMessages l);
  mret ((add_messages l (pendingMessages l)) <| pendingMessages := [] |>).

Definition tool_result_message (m : ToolResultMessage) : AgentMessage := AgentLlm (MToolResult m).

(** How a turn leaves the inner loop: [agent_end] was emitted, or it goes on. *)
Inductive turn_outcome :=
| Ended (messages : list AgentMessage)
| GoesOn (hasMoreToolCalls : bool) (l : loop_state).

(** The tool calls of a response: the results and whether more calls may follow. *)
Definition turn_tools (fuel : nat) (l : loop_state) (message : AssistantMessage)
    : M W (option (list ToolResultMessage * bool)) :=
  let toolCalls := tool_calls message in
  if bool_decide (toolCalls = []) then mret (Some ([], false))
  else
    executed ← (if bool_decide (stopReason message = sr_length)
                then batch ← failToolCallsFromTruncatedMessage toolCalls; mret (Some batch)
                else executeToolCalls fuel (currentContext l) message (config l));
    mret match executed with
         | Some batch => Some (batch_messages batch, negb (terminate batch))
         | None => None
         end.

(** [prepareNextTurn]: the context, model and thinking level of the next request. *)
Definition update_turn (l : loop_state) (u : TurnUpdate W) : loop_state :=
  l <| currentContext := default (currentContext l) (update_context u) |>
    <| config := (config l)
         <| cfg_model := default (cfg_model (config l)) (update_model u) |>
         <| cfg_reasoning := match update_thinkingLevel u with
                             | None => cfg_reasoning (config l)
                             | Some level => if bool_decide (level = th_off) then None else Some level
                             end |> |>.

Definition turn (fuel : nat) (l : loop_state) : M W (option turn_outcome) :=
  _ ← (if firstTurn l then mret () else emit turn_start);
  l ← inject_pending (l <| firstTurn := false |>);
  '(message, c) ← streamAssistantResponse (currentContext l) (config l);
  let l := l <| currentContext := c |> <| newMessages := newMessages l ++ [assistant message] |> in
  if bool_decide (stopReason message = sr_error ∨ stopReason message = sr_aborted) then
    _ ← emit (turn_end message []);
    _ ← emit (agent_end (newMessages l));
    mret (Some (Ended (newMessages l)))
  else
    ran ← turn_tools fuel l message;
    match ran with
    | None => mret None
    | Some (toolResults, hasMoreToolCalls) =>
        let l := add_messages l (tool_result_message <$> toolResults) in
        _ ← emit (turn_end message toolResults);
        snapshot ← call_opt ((λ f, f (MkTurnContext message toolResults (currentContext l) (newMessages l)))
                               <$> prepareNextTurn env) None;
        let l := match snapshot with Some u => update_turn l u | None => l end in
        stop ← call_opt ((λ f, f (MkTurnContext message toolResults (currentContext l) (newMessages l)))
                           <$> shouldStopAfterTurn env) false;
        if stop : bool then
          _ ← emit (agent_end (newMessages l));
          mret (Some (Ended (newMessages l)))
        else
          steering ← call_opt (getSteeringMessages env) [];
          mret (Some (GoesOn hasMoreToolCalls (l <| pendingMessages := steering |>)))
    end.

(** Both loops: a turn while there are tool calls or pending messages, then the
    follow-up messages.  [None] means the fuel ran out. *)
Fixpoint run_loop (fuel : nat) (hasMoreToolCalls : bool) (l : loop_state) : M W (option (list AgentMessage)) :=
  match fuel with
  | O => mret None
  | S fuel =>
      if hasMoreToolCalls || negb (bool_decide (pendingMessages l = [])) then
        outcome ← turn fuel l;
        match outcome with
        | None => mret None
        | Some (Ended ms) => mret (Some ms)
        | Some (GoesOn more l) => run_loop fuel more l
        end
      else
        followUp ← call_opt (getFollowUpMessages env) [];
        if bool_decide (followUp = []) then
          _ ← emit (agent_end (newMessages l));
          mret (Some (newMessages l))
        else run_loop fuel true (l <| pendingMessages := followUp |>)
  end.

Definition runLoop (fuel : nat) (initialContext : AgentContext W) (newMessages : list AgentMessage)
    (initialConfig : AgentLoopConfig) : M W (option (list AgentMessage)) :=
  pending ← call_opt (getSteeringMessages env) [];
  run_loop fuel true (MkLoop initialContext initialConfig true pending newMessages).

Definition runAgentLoop (fuel : nat) (prompts : list AgentMessage) (context : AgentContext W)
    (config : AgentLoopConfig) : M W (option (list AgentMessage)) :=
  _ ← emit agent_start;
  _ ← emit turn_start;
  _ ← forM emit_message prompts;
  runLoop fuel (context <| messages := messages context ++ prompts |>) prompts config.

Inductive continue_error := NoMessages | LastIsAssistant.

(** The guards of [runAgentLoopContinue] and [agentLoopContinue]. *)
Definition check_continue (context : AgentContext W) : result continue_error unit :=
  match last (messages context) with
  | None => Err NoMessages
  | Some m => if bool_decide (message_role m = role_assistant) then Err LastIsAssistant else Ok ()
  end.

Definition runAgentLoopContinue (fuel : nat) (context : AgentContext W) (config : AgentLoopConfig)
    : result continue_error (M W (option (list AgentMessage))) :=
  _ ← check_continue context;
  Ok (_ ← emit agent_start; _ ← emit turn_start; runLoop fuel context [] config).

End Loop.
