(* ===== verification/AgentLoopTheorems.v ===== *)
(** * What the agent loop guarantees whatever its environment does

    The events of a run follow a protocol, given as an automaton; the messages a
    run returns are those its events ended; every tool call of a response gets its
    result, in order.  The environment is arbitrary, up to the documented protocol
    of provider streams. *)

From S2P Require Import Prelude JsNumber JsString SessionTypes Messages AgentLoop.

(** ** The protocol of events *)

Inductive phase := Idle | Between | InTurn (open : list jsstring) | InMessage (r : role) | Done.

Fixpoint remove_first (x : jsstring) (l : list jsstring) : list jsstring :=
  match l with [] => [] | y :: l => if decide (x = y) then l else y :: remove_first x l end.

(** A run starts, turns start and end, messages start and end one at a time inside
    turns, tool executions start, report and end inside turns, and no message or
    turn boundary falls between the start and the end of a tool execution. *)
Definition accept (p : phase) (e : AgentEvent) : option phase :=
  match p, e with
  | Idle, agent_start => Some Between
  | Between, turn_start => Some (InTurn [])
  | Between, agent_end _ => Some Done
  | InTurn [], message_start m => Some (InMessage (message_role m))
  | InTurn [], turn_end _ _ => Some Between
  | InTurn open, tool_execution_start i _ _ => Some (InTurn (open ++ [i]))
  | InTurn open, tool_execution_update i _ _ _ => if decide (i ∈ open) then Some (InTurn open) else None
  | InTurn open, tool_execution_end i _ _ _ => if decide (i ∈ open) then Some (InTurn (remove_first i open)) else None
  | InMessage r, message_update m _ =>
      if decide (r = role_assistant ∧ message_role m = r) then Some (InMessage r) else None
  | InMessage r, message_end m => if decide (message_role m = r) then Some (InTurn []) else None
  | _, _ => None
  end.

Fixpoint run_protocol (p : phase) (es : list AgentEvent) : option phase :=
  match es with [] => Some p | e :: es => p' ← accept p e; run_protocol p' es end.

(** The messages whose end the events announce. *)
Definition ended (es : list AgentEvent) : list AgentMessage :=
  omap (λ e, match e with message_end m => Some m | _ => None end) es.

(** What a turn's end says of its tool calls: results answer the first calls of
    the response in order; none after an error or an abort; after a response cut
    off by the token limit every call is answered by an error. *)
Definition turn_end_ok (e : AgentEvent) : Prop :=
  match e with
  | turn_end m results =>
      (λ r, (toolCallId r, toolName r)) <$> results `prefix_of` (λ c, (call_id c, call_name c)) <$> tool_calls m
      ∧ (stopReason m = sr_error ∨ stopReason m = sr_aborted → results = [])
      ∧ (stopReason m = sr_length →
         length results = length (tool_calls m) ∧ Forall (λ r, isError r = true) results)
  | _ => True
  end.

Lemma run_protocol_app p es es' : run_protocol p (es ++ es') = (p' ← run_protocol p es; run_protocol p' es').
Proof. revert p. induction es as [|e es IH]; intros p; [done|]. cbn. destruct (accept p e); cbn; [apply IH|done]. Qed.

Lemma run_protocol_trans p q r es es' :
  run_protocol p es = Some q → run_protocol q es' = Some r → run_protocol p (es ++ es') = Some r.
Proof. intros H1 H2. by rewrite run_protocol_app, H1. Qed.

Lemma ended_app es es' : ended (es ++ es') = ended es ++ ended es'.
Proof. apply omap_app. Qed.

Lemma remove_first_perm x l k : l ≡ₚ x :: k → remove_first x l ≡ₚ k.
Proof.
  intros Hp. apply (Permutation_cons_inv (a:=x)). rewrite <- Hp.
  assert (x ∈ l) as Hin by (rewrite Hp; left). clear Hp. induction l as [|y l IH]; [by apply elem_of_nil in Hin|].
  cbn. case_decide as Hd; [by subst|]. apply elem_of_cons in Hin as [?|Hin]; [done|].
  rewrite Permutation_swap. constructor. by apply IH.
Qed.

(** ** Reasoning about the events of a computation *)

Section Produces.
Context {W : Type}.

(** Running [m] appends events [es] and returns [a] such that [R es a]. *)
Definition produces {A} (m : M W A) (R : list AgentEvent → A → Prop) : Prop :=
  ∀ s, ∃ es, trace (m s).2 = trace s ++ es ∧ R es (m s).1.

Lemma produces_impl {A} (m : M W A) (R R' : list AgentEvent → A → Prop) :
  produces m R → (∀ es a, R es a → R' es a) → produces m R'.
Proof. intros Hm Hr s. destruct (Hm s) as (es & ? & ?). exists es. auto. Qed.

Lemma produces_ret {A} (a : A) (R : list AgentEvent → A → Prop) : R [] a → produces (mret a) R.
Proof. intros Hr s. exists []. cbn. by rewrite app_nil_r. Qed.

Lemma produces_bind {A B} (m : M W A) (f : A → M W B) (R : list AgentEvent → A → Prop) (R' : list AgentEvent → B → Prop) :
  produces m R → (∀ es a, R es a → produces (f a) (λ es' b, R' (es ++ es') b)) → produces (m ≫= f) R'.
Proof.
  intros Hm Hf s. destruct (Hm s) as (es & Htr & Hr). destruct (m s) as [a s1] eqn:E. cbn in *.
  destruct (Hf es a Hr s1) as (es' & Htr' & Hr'). exists (es ++ es').
  unfold mbind, M_bind. rewrite E. by rewrite Htr', Htr, app_assoc.
Qed.

Lemma produces_call {A} (f : W → A * W) (R : list AgentEvent → A → Prop) : (∀ a, R [] a) → produces (call f) R.
Proof. intros Hr s. exists []. unfold call. destruct (f (world s)) as [a w]. cbn. by rewrite app_nil_r. Qed.

Lemma produces_call_opt {A} (f : option (W → A * W)) d (R : list AgentEvent → A → Prop) :
  (∀ a, R [] a) → produces (call_opt f d) R.
Proof. intros Hr. destruct f; [by apply produces_call|by apply produces_ret]. Qed.

(** A silent computation followed by another. *)
Lemma produces_silent {A B} (m : M W A) (f : A → M W B) (R : list AgentEvent → B → Prop) :
  produces m (λ es _, es = []) → (∀ a, produces (f a) R) → produces (m ≫= f) R.
Proof. intros Hm Hf. eapply produces_bind; [exact Hm|]. intros es a ->. apply Hf. Qed.

(** A computation that cannot run out of fuel where one that can is expected. *)
Lemma produces_some {A} (m : M W A) (R : list AgentEvent → A → Prop) :
  produces m R → produces (b ← m; mret (Some b)) (λ es r, ∃ b, r = Some b ∧ R es b).
Proof. intros Hm. eapply produces_bind; [exact Hm|]. intros es b Hb. apply produces_ret. rewrite app_nil_r. by exists b. Qed.

Context (env : Environment W).

Lemma produces_emit e (R : list AgentEvent → unit → Prop) : R [e] () → produces (emit env e) R.
Proof. intros Hr s. by exists [e]. Qed.

Lemma produces_aborted (R : list AgentEvent → bool → Prop) : (∀ b, R [] b) → produces (aborted_now env) R.
Proof. intros Hr s. exists []. cbn. by rewrite app_nil_r. Qed.

Lemma silent_call {A} (f : W → A * W) : produces (call f) (λ es _, es = []).
Proof. by apply produces_call. Qed.
Lemma silent_call_opt {A} (f : option (W → A * W)) d : produces (call_opt f d) (λ es _, es = []).
Proof. by apply produces_call_opt. Qed.
Lemma silent_aborted : produces (aborted_now env) (λ es _, es = []).
Proof. by apply produces_aborted. Qed.

(** The abort signal is never raised. *)
Definition never_aborted : Prop := ∀ w, signal_aborted env w = false.

Lemma aborted_spec : produces (aborted_now env) (λ es b, es = [] ∧ (never_aborted → b = false)).
Proof. intros s. exists []. cbn. rewrite app_nil_r. split; [done|]. split; [done|]. intros Hn. apply Hn. Qed.

(** ** Messages *)

Lemma emit_message_spec m :
  produces (emit_message env m) (λ es _, run_protocol (InTurn []) es = Some (InTurn []) ∧ ended es = [m] ∧ Forall turn_end_ok es).
Proof.
  eapply produces_bind; [by apply (produces_emit _ (λ es _, es = [message_start m]))|]. intros es [] ->.
  apply produces_emit. cbn. rewrite decide_True by done. split_and!; [done..|]. by repeat constructor.
Qed.

Lemma emit_messages_spec ms :
  produces (forM (emit_message env) ms)
    (λ es _, run_protocol (InTurn []) es = Some (InTurn []) ∧ ended es = ms ∧ Forall turn_end_ok es).
Proof.
  induction ms as [|m ms IH]; cbn [forM]; [by apply produces_ret|].
  eapply produces_bind; [apply emit_message_spec|]. intros es [] (Hp & He & Ht).
  eapply produces_impl; [exact IH|]. intros es' [] (Hp' & He' & Ht').
  split_and!; [by eapply run_protocol_trans|by rewrite ended_app, He, He'|by apply Forall_app].
Qed.

(** ** Streaming *)

(** The documented protocol of a provider stream: [start] comes once. *)
Definition is_stream_start (e : StreamEvent) : bool := match e with StreamStart _ => true | _ => false end.
Definition stream_protocol : Prop :=
  ∀ request w, (length (filter (λ e, is_stream_start e = true) (fst (fst (streamFunction env request w)))) ≤ 1)%nat.

Lemma stream_events_spec (events : list StreamEvent) (added : bool) c :
  (length (filter (λ e, is_stream_start e = true) events) + (if added then 1 else 0) ≤ 1)%nat →
  produces (stream_events env events added c) (λ es (r : bool * AgentContext W),
    run_protocol (if added then InMessage role_assistant else InTurn []) es
    = Some (if fst r then InMessage role_assistant else InTurn []) ∧ ended es = [] ∧ Forall turn_end_ok es).
Proof.
  revert added c. induction events as [|e events IH]; intros added c Hlen; cbn [stream_events]; [by apply produces_ret|].
  rewrite filter_cons in Hlen. destruct e as [p|p|]; cbn [is_stream_start] in Hlen.
  - rewrite decide_True in Hlen by done. destruct added; cbn in Hlen; [lia|].
    eapply produces_bind; [by apply (produces_emit _ (λ es _, es = [message_start (assistant p)]))|]. intros es [] ->.
    eapply produces_impl; [apply IH; cbn; lia|]. intros es' [a c'] (Hp & He & Ht). cbn in *.
    split_and!; [done..|]. by constructor.
  - rewrite decide_False in Hlen by done. destruct added; [|by apply IH].
    eapply produces_bind; [by apply (produces_emit _ (λ es _, es = [message_update (assistant p) (StreamUpdate p)]))|].
    intros es [] ->. eapply produces_impl; [by apply IH|]. intros es' [a c'] (Hp & He & Ht).
    split_and!; [by cbn; rewrite decide_True by done|done|by constructor].
  - by apply produces_ret.
Qed.

Lemma streamAssistantResponse_spec c config :
  stream_protocol →
  produces (streamAssistantResponse env c config) (λ es (r : AssistantMessage * AgentContext W),
    run_protocol (InTurn []) es = Some (InTurn []) ∧ ended es = [assistant (fst r)] ∧ Forall turn_end_ok es).
Proof.
  intros Hstream. unfold streamAssistantResponse.
  apply produces_silent; [apply silent_call_opt|]. intros transformed.
  apply produces_silent; [apply silent_call|]. intros llm.
  apply produces_silent; [apply silent_call_opt|]. intros key.
  set (request := MkRequest _ _ _ _ _).
  eapply produces_bind.
  { instantiate (1 := λ es r, es = [] ∧ (length (filter (λ e, is_stream_start e = true) (fst r)) ≤ 1)%nat).
    intros s. exists []. unfold call. pose proof (Hstream request (world s)) as Hs.
    destruct (streamFunction env request (world s)) as [r w]. cbn in *. by rewrite app_nil_r. }
  intros es [events final] [-> Hlen]. cbn [fst snd] in *.
  eapply produces_bind; [apply (stream_events_spec events false); cbn; lia|]. intros es [added c'] (Hp & He & Ht). cbn [fst] in Hp.
  destruct added.
  - apply produces_silent; [by apply produces_ret|]. intros _.
    eapply produces_bind; [by apply (produces_emit _ (λ es _, es = [message_end (assistant final)]))|]. intros es' [] ->.
    apply produces_ret. rewrite app_nil_r. cbn [app]. split_and!.
    + eapply run_protocol_trans; [exact Hp|done].
    + rewrite ended_app, He. done.
    + apply Forall_app. split; [done|]. by repeat constructor.
  - eapply produces_bind; [by apply (produces_emit _ (λ es _, es = [message_start (assistant final)]))|]. intros es' [] ->.
    eapply produces_bind; [by apply (produces_emit _ (λ es _, es = [message_end (assistant final)]))|]. intros es' [] ->.
    apply produces_ret. rewrite app_nil_r. cbn [app]. split_and!.
    + eapply run_protocol_trans; [exact Hp|done].
    + rewrite ended_app, He. done.
    + apply Forall_app. split; [done|]. by repeat constructor.
Qed.

(** ** Tool calls *)

(** What the results of a batch answer. *)
Definition answers (ms : list ToolResultMessage) (ts : list ToolCall) : Prop :=
  (λ r, (toolCallId r, toolName r)) <$> ms = (λ c, (call_id c, call_name c)) <$> ts.

(** Events that lead from one phase to another and end the messages [ms]. *)
Definition segment (p : phase) (es : list AgentEvent) (q : phase) (ms : list AgentMessage) : Prop :=
  run_protocol p es = Some q ∧ ended es = ms ∧ Forall turn_end_ok es.

(** Events within a turn that leave no execution open. *)
Definition turn_events (es : list AgentEvent) (ms : list AgentMessage) : Prop := segment (InTurn []) es (InTurn []) ms.

(** Events within a turn that end no message, from and to open executions. *)
Definition tool_events (open : list jsstring) (es : list AgentEvent) (open' : list jsstring) : Prop :=
  segment (InTurn open) es (InTurn open') [].

Lemma segment_app p es q ms es' r ms' :
  segment p es q ms → segment q es' r ms' → segment p (es ++ es') r (ms ++ ms').
Proof.
  intros (H1 & H2 & H3) (H1' & H2' & H3').
  split_and!; [by eapply run_protocol_trans|by rewrite ended_app, H2, H2'|by apply Forall_app].
Qed.

Lemma segment_one p e q : accept p e = Some q → turn_end_ok e → segment p [e] q (ended [e]).
Proof. intros Ha He. split_and!; [cbn; by rewrite Ha|done|by repeat constructor]. Qed.

Lemma turn_events_app es es' ms ms' : turn_events es ms → turn_events es' ms' → turn_events (es ++ es') (ms ++ ms').
Proof. apply segment_app. Qed.

Lemma tool_events_nil o : tool_events o [] o.
Proof. done. Qed.

Lemma tool_events_app o es o' es' o'' : tool_events o es o' → tool_events o' es' o'' → tool_events o (es ++ es') o''.
Proof. apply (segment_app _ _ _ [] _ _ []). Qed.

Lemma tool_turn_events es : tool_events [] es [] → turn_events es [].
Proof. done. Qed.

Lemma start_spec t o : produces (emitToolExecutionStart env t) (λ es _, tool_events o es (o ++ [call_id t])).
Proof.
  apply produces_emit. split_and!; [|done|by repeat constructor]. by destruct o.
Qed.

Lemma end_spec f o :
  call_id (fin_toolCall f) ∈ o →
  produces (emitToolExecutionEnd env f) (λ es _, tool_events o es (remove_first (call_id (fin_toolCall f)) o)).
Proof.
  intros Hin. apply produces_emit. split_and!; [|done|by repeat constructor]. cbn.
  destruct o; [by apply elem_of_nil in Hin|]. by rewrite decide_True by done.
Qed.

Lemma update_spec t u o : call_id t ∈ o → produces (emitUpdate env t u) (λ es _, tool_events o es o).
Proof.
  intros Hin. apply produces_emit. split_and!; [|done|by repeat constructor]. cbn.
  destruct o; [by apply elem_of_nil in Hin|]. by rewrite decide_True by done.
Qed.

Lemma updates_spec t us o : call_id t ∈ o → produces (forM (emitUpdate env t) us) (λ es _, tool_events o es o).
Proof.
  intros Hin. induction us as [|u us IH]; cbn [forM]; [by apply produces_ret|].
  eapply produces_bind; [by apply (update_spec t u o)|]. intros es [] Hes.
  eapply produces_impl; [exact IH|]. intros es' [] Hes'. by eapply tool_events_app.
Qed.

Lemma createToolResultMessage_spec f :
  produces (createToolResultMessage env f) (λ es m, es = [] ∧
    toolCallId m = call_id (fin_toolCall f) ∧ toolName m = call_name (fin_toolCall f) ∧ isError m = fin_isError f).
Proof. apply produces_silent; [apply silent_call|]. intros t. by apply produces_ret. Qed.

Lemma emitToolResultMessage_spec m :
  produces (emitToolResultMessage env m) (λ es _, turn_events es [tool_result_message m]).
Proof. apply emit_message_spec. Qed.

(** One finalized call, reported. *)
Lemma emit_results_spec fs :
  produces (emit_results env fs) (λ es ms,
    turn_events es (tool_result_message <$> ms) ∧ answers ms (fin_toolCall <$> fs)).
Proof.
  induction fs as [|f fs IH]; cbn [emit_results]; [by apply produces_ret|].
  eapply produces_bind; [apply createToolResultMessage_spec|]. intros es m (-> & Hid & Hname & _).
  eapply produces_bind; [apply emitToolResultMessage_spec|]. intros es [] Hes.
  eapply produces_bind; [apply IH|]. intros es' ms [Hes' Hans]. apply produces_ret.
  rewrite app_nil_r. cbn [app]. split; [by apply turn_events_app with (ms := [_])|].
  unfold answers in *. cbn. by rewrite Hid, Hname, Hans.
Qed.

Lemma failToolCalls_spec ts :
  produces (failToolCalls env ts) (λ es ms,
    turn_events es (tool_result_message <$> ms) ∧ answers ms ts ∧ Forall (λ r, isError r = true) ms).
Proof.
  induction ts as [|t ts IH]; cbn [failToolCalls]; [by apply produces_ret|].
  set (f := MkFinalized t _ true).
  eapply produces_bind; [apply (start_spec t [])|]. intros es1 [] H1. cbn [app] in H1.
  eapply produces_bind; [apply (end_spec f [call_id t]); left|]. intros es2 [] H2.
  cbn [fin_toolCall f remove_first] in H2. rewrite decide_True in H2 by done.
  eapply produces_bind; [apply createToolResultMessage_spec|]. intros es m (-> & Hid & Hname & Herr).
  eapply produces_bind; [apply emitToolResultMessage_spec|]. intros es3 [] H3.
  eapply produces_bind; [apply IH|]. intros es4 ms (H4 & Hans & Hall). apply produces_ret.
  rewrite app_nil_r. cbn [app]. rewrite app_assoc. split_and!.
  - apply (turn_events_app _ _ []); [by eapply tool_turn_events, tool_events_app|]. by apply (turn_events_app _ _ [_]).
  - unfold answers in *. cbn. by rewrite Hid, Hname, Hans.
  - by constructor.
Qed.

(** ** Preparing, executing, finalizing *)

Lemma prepareToolCall_spec c m t :
  produces (prepareToolCall env c m t) (λ es (p : preparation (W:=W)), es = [] ∧
    match p with Immediate _ _ => True | Prepared q => prep_toolCall q = t end).
Proof.
  assert (∀ tool args, produces (is_aborted ← aborted_now env;
            mret (if is_aborted : bool then Immediate (error_result (js "Operation aborted")) true
                  else Prepared (MkPrepared t tool args)))
            (λ es (p : preparation (W:=W)), es = [] ∧ match p with Immediate _ _ => True | Prepared q => prep_toolCall q = t end)) as Hready.
  { intros tool args. apply produces_silent; [apply silent_aborted|]. intros []; by apply produces_ret. }
  unfold prepareToolCall. destruct (find_tool c (call_name t)) as [tool|]; [|by apply produces_ret].
  destruct (t' ← prepareToolCallArguments tool t; validateToolArguments env tool t') as [args|]; [|by apply produces_ret].
  destruct (beforeToolCall env) as [hook|]; [|apply Hready].
  apply produces_silent; [apply silent_call|]. intros [decision|]; [|by apply produces_ret].
  apply produces_silent; [apply silent_aborted|]. intros []; [by apply produces_ret|].
  destruct decision as [b|]; [destruct (flag (before_block b)); [by apply produces_ret|]|]; apply Hready.
Qed.

Lemma finalizeExecutedToolCall_spec c m p executed :
  produces (finalizeExecutedToolCall env c m p executed) (λ es f, es = [] ∧ fin_toolCall f = prep_toolCall p).
Proof.
  unfold finalizeExecutedToolCall. destruct (afterToolCall env); [|by apply produces_ret].
  apply produces_silent; [apply silent_call|]. intros [[]|]; by apply produces_ret.
Qed.

Lemma run_tool_call_spec c m t o :
  call_id t ∈ o → produces (run_tool_call env c m t) (λ es f, tool_events o es o ∧ fin_toolCall f = t).
Proof.
  intros Hin. eapply produces_bind; [apply prepareToolCall_spec|]. intros es [r err|p] [-> Hp]; [by apply produces_ret|].
  assert (produces (executePreparedToolCall env p) (λ es _, tool_events o es o)) as Hexec.
  { apply produces_silent; [apply silent_call|]. intros run.
    eapply produces_bind; [apply (updates_spec (prep_toolCall p) (fst run) o); by rewrite Hp|].
    intros es [] Hes. apply produces_ret. by rewrite app_nil_r. }
  eapply produces_bind; [exact Hexec|]. intros es executed Hes. eapply produces_impl; [apply finalizeExecutedToolCall_spec|].
  intros es' f [-> Hf]. rewrite app_nil_r. split; [done|congruence].
Qed.

(** The calls [ts] that were run, out of [k]: all of them unless the run was aborted. *)
Definition ran (ts k : list ToolCall) : Prop := ts `prefix_of` k ∧ (never_aborted → ts = k).

Lemma ran_nil : ran [] [].
Proof. done. Qed.
Lemma ran_cons t ts k : ran ts k → ran (t :: ts) (t :: k).
Proof. intros [H1 H2]. split; [by apply prefix_cons|]. intros Hn. by rewrite (H2 Hn). Qed.
Lemma ran_stop t k : (never_aborted → true = false) → ran [t] (t :: k).
Proof. intros Hn. split; [by exists k|]. by intros ?%Hn. Qed.

(** Result messages that answer the first calls of [ts], all of them unless the run was aborted. *)
Definition answered (ms : list ToolResultMessage) (ts : list ToolCall) : Prop :=
  ∃ ts', answers ms ts' ∧ ran ts' ts.

Lemma answered_prefix ms k : answered ms k →
  (λ r, (toolCallId r, toolName r)) <$> ms `prefix_of` (λ c, (call_id c, call_name c)) <$> k.
Proof. intros (ts & -> & [l ->] & _). rewrite fmap_app. by apply prefix_app_r. Qed.

Lemma sequential_calls_spec c m ts :
  produces (sequential_calls env c m ts) (λ es r,
    turn_events es (tool_result_message <$> snd r)
    ∧ answers (snd r) (fin_toolCall <$> fst r) ∧ ran (fin_toolCall <$> fst r) ts).
Proof.
  induction ts as [|t ts IH]; cbn [sequential_calls]; [by apply produces_ret|].
  eapply produces_bind; [apply (start_spec t [])|]. intros es1 [] H1. cbn [app] in H1.
  eapply produces_bind; [apply (run_tool_call_spec c m t [call_id t]); left|]. intros es2 f [H2 Hf].
  eapply produces_bind; [apply (end_spec f [call_id t]); rewrite Hf; left|]. intros es3 [] H3.
  rewrite Hf in H3. cbn [remove_first] in H3. rewrite decide_True in H3 by done.
  eapply produces_bind; [apply createToolResultMessage_spec|]. intros es r (-> & Hid & Hname & Herr).
  eapply produces_bind; [apply emitToolResultMessage_spec|]. intros es4 [] H4.
  assert (turn_events (((es1 ++ es2) ++ es3) ++ es4) [tool_result_message r]) as Hturn.
  { apply (turn_events_app _ _ []); [|done]. eapply tool_turn_events, tool_events_app; [|exact H3]. by eapply tool_events_app. }
  eapply produces_bind; [apply aborted_spec|]. intros es [] [-> Hab].
  - apply produces_ret. rewrite !app_nil_r. cbn [fst snd fmap list_fmap app]. rewrite !app_assoc.
    split_and!; [done| |].
    + unfold answers. cbn. by rewrite Hid, Hname.
    + rewrite Hf. by apply ran_stop.
  - eapply produces_bind; [apply IH|]. intros es5 [fs ms] (H5 & Hans & Hpre). apply produces_ret.
    cbn [fst snd fmap list_fmap] in *. rewrite !app_nil_r. cbn [app]. rewrite !app_assoc. split_and!.
    + by apply (turn_events_app _ _ [_]).
    + unfold answers in *. cbn. by rewrite Hid, Hname, Hans.
    + rewrite Hf. by apply ran_cons.
Qed.

(** ** Concurrent calls *)

Definition thread_call (th : thread (W:=W)) : ToolCall :=
  match th with
  | Ready p | Updating p _ _ => prep_toolCall p
  | Ending f | Finished f => fin_toolCall f
  end.
Definition is_finished (th : thread (W:=W)) : bool := match th with Finished _ => true | _ => false end.

(** The executions that are open: one for every thread that has not finished. *)
Definition open_id (th : thread (W:=W)) : option jsstring :=
  if is_finished th then None else Some (call_id (thread_call th)).
Definition open_ids (ths : list (thread (W:=W))) : list jsstring := omap open_id ths.

Lemma prepare_calls_spec c m ts o :
  produces (prepare_calls env c m ts) (λ es ths, ∃ o',
    tool_events o es o' ∧ o' ≡ₚ o ++ open_ids ths ∧ ran (thread_call <$> ths) ts).
Proof.
  revert o. induction ts as [|t ts IH]; intros o; cbn [prepare_calls].
  { apply produces_ret. exists o. split_and!; [done|by rewrite app_nil_r|apply ran_nil]. }
  eapply produces_bind; [apply (start_spec t o)|]. intros es1 [] H1.
  eapply produces_bind; [apply prepareToolCall_spec|]. intros es p [-> Hp].
  eapply (produces_bind _ _ (λ es th, ∃ o', tool_events (o ++ [call_id t]) es o' ∧ o' ≡ₚ o ++ open_ids [th] ∧ thread_call th = t)).
  { destruct p as [r err|p].
    - eapply produces_bind; [apply (end_spec (MkFinalized t r err)); apply elem_of_app; right; left|].
      intros es [] Hes. apply produces_ret. rewrite app_nil_r. eexists. split_and!; [exact Hes| |done].
      cbn. rewrite app_nil_r. apply remove_first_perm. by rewrite Permutation_app_comm.
    - apply produces_ret. exists (o ++ [call_id t]). unfold open_ids, open_id. cbn. by rewrite Hp. }
  intros es2 th (o1 & H2 & Ho1 & Hth).
  eapply produces_bind; [apply aborted_spec|]. intros es [] [-> Hab].
  - apply produces_ret. rewrite app_nil_r. cbn [app]. exists o1. split_and!; [by eapply tool_events_app|done|].
    cbn. rewrite Hth. by apply ran_stop.
  - eapply produces_bind; [apply (IH o1)|]. intros es3 ths (o2 & H3 & Ho2 & Hpre). apply produces_ret.
    rewrite app_nil_r. cbn [app]. exists o2. split_and!.
    + eapply tool_events_app; [exact H1|]. by eapply tool_events_app.
    + rewrite Ho2, Ho1, <- app_assoc. by unfold open_ids; cbn; destruct (open_id th).
    + cbn. rewrite Hth. by apply ran_cons.
Qed.

Lemma thread_step_spec c m th o :
  is_finished th = false → call_id (thread_call th) ∈ o →
  produces (thread_step env c m th) (λ es th', thread_call th' = thread_call th ∧
    tool_events o es (if is_finished th' then remove_first (call_id (thread_call th)) o else o)).
Proof.
  intros Hf Hin. destruct th as [p|p [|u us] executed|f|f]; cbn [thread_step thread_call] in *; [| | | |done].
  - apply produces_silent; [apply silent_call|]. intros run. by apply produces_ret.
  - eapply produces_bind; [apply finalizeExecutedToolCall_spec|]. intros es f [-> Hp]. apply produces_ret.
    split; [done|apply tool_events_nil].
  - eapply produces_bind; [by apply (update_spec (prep_toolCall p) u o)|]. intros es [] Hes. apply produces_ret.
    rewrite app_nil_r. done.
  - eapply produces_bind; [by apply (end_spec f o)|]. intros es [] Hes. apply produces_ret. by rewrite app_nil_r.
Qed.

Lemma open_ids_insert ths i th th' :
  ths !! i = Some th → is_finished th = false → thread_call th' = thread_call th →
  ∃ rest, open_ids ths ≡ₚ call_id (thread_call th) :: rest
    ∧ open_ids (<[i := th']> ths) ≡ₚ (if is_finished th' then rest else call_id (thread_call th) :: rest).
Proof.
  intros Hi Hf Hc. exists (open_ids (take i ths) ++ open_ids (drop (S i) ths)).
  assert (i < length ths)%nat as Hlt by by eapply lookup_lt_Some.
  rewrite insert_take_drop by done. rewrite <- (take_drop_middle ths i th Hi) at 1.
  assert (open_id th = Some (call_id (thread_call th))) as Hth by (unfold open_id; by rewrite Hf).
  assert (open_id th' = if is_finished th' then None else Some (call_id (thread_call th))) as Hth'
    by (unfold open_id; by rewrite Hc).
  unfold open_ids. rewrite !omap_app. cbn [omap list_omap]. rewrite Hth, Hth'.
  split; [by rewrite Permutation_middle|]. destruct (is_finished th'); [done|by rewrite Permutation_middle].
Qed.

Lemma finished_all ths fs :
  mapM finished ths = Some fs → open_ids ths = [] ∧ fin_toolCall <$> fs = thread_call <$> ths.
Proof.
  intros Hm%mapM_Some. induction Hm as [|th f ths fs Hth _ [IH1 IH2]]; [done|].
  destruct th; try done. injection Hth as ->. unfold open_ids in *. cbn. by rewrite IH1, IH2.
Qed.

Lemma pick_unfinished ths n i : pick ths n = Some i → ∃ th, ths !! i = Some th ∧ is_finished th = false.
Proof.
  unfold pick. intros Hi%list_elem_of_lookup_2. unfold unfinished in Hi.
  apply list_elem_of_omap in Hi as (o & Ho & Hid). cbn in Hid. subst o.
  apply list_elem_of_lookup in Ho as (j & Hj). apply list_lookup_imap_Some in Hj as (th & Hth & Heq).
  destruct th; try done; injection Heq as <-; by eexists.
Qed.

Lemma run_threads_spec fuel c m ths o :
  o ≡ₚ open_ids ths →
  produces (run_threads env fuel c m ths) (λ es r,
    match r with
    | Some fs => tool_events o es [] ∧ fin_toolCall <$> fs = thread_call <$> ths
    | None => ∃ o', tool_events o es o'
    end).
Proof.
  revert ths o. induction fuel as [|fuel IH]; intros ths o Ho; cbn [run_threads];
    destruct (mapM finished ths) as [fs|] eqn:Hm.
  1,3: apply finished_all in Hm as [Hnil Hfs]; rewrite Hnil in Ho; apply Permutation_nil_r in Ho; subst o;
    by apply produces_ret.
  { apply produces_ret. by exists o. }
  apply produces_silent; [apply silent_call|]. intros n.
  destruct (pick ths n) as [i|] eqn:Hp; [|apply produces_ret; by exists o].
  destruct (pick_unfinished ths n i Hp) as (th & Hi & Hf). rewrite Hi.
  destruct (open_ids_insert ths i th th Hi Hf eq_refl) as (rest & Hopen & _).
  eapply produces_bind.
  { apply (thread_step_spec c m th o Hf). rewrite Ho, Hopen. left. }
  intros es th' [Hc Hes]. destruct (open_ids_insert ths i th th' Hi Hf Hc) as (rest' & Hopen1 & Hopen2).
  eapply produces_impl; [eapply (IH (<[i:=th']> ths)
    (if is_finished th' then remove_first (call_id (thread_call th)) o else o))|].
  - rewrite Hopen2. destruct (is_finished th'); [|by rewrite Ho, Hopen1].
    apply remove_first_perm. by rewrite Ho, Hopen1.
  - intros es' [fs|]; cbn.
    + intros [Hes' Hfs]. split; [by eapply tool_events_app|]. rewrite Hfs, list_fmap_insert, Hc.
      apply list_insert_id. by rewrite list_lookup_fmap, Hi.
    + intros [o' Hes']. exists o'. by eapply tool_events_app.
Qed.

Lemma executeToolCalls_spec fuel c m config :
  produces (executeToolCalls env fuel c m config) (λ es r,
    match r with
    | Some b => turn_events es (tool_result_message <$> batch_messages b) ∧ answered (batch_messages b) (tool_calls m)
    | None => ∃ o, tool_events [] es o
    end).
Proof.
  unfold executeToolCalls. destruct (bool_decide (toolExecution config = Some sequential) || _).
  - eapply produces_impl.
    { apply (produces_some _ (λ es b, turn_events es (tool_result_message <$> batch_messages b)
         ∧ answered (batch_messages b) (tool_calls m))). eapply produces_bind; [apply sequential_calls_spec|].
      intros es [fs ms] (Hes & Hans & Hpre). apply produces_ret. rewrite app_nil_r. split; [done|by eexists]. }
    by intros es r (b & -> & Hb).
  - eapply produces_bind; [apply (prepare_calls_spec c m (tool_calls m) [])|]. intros es1 ths (o & H1 & Ho & Hpre).
    cbn [app] in Ho. eapply produces_bind; [apply (run_threads_spec fuel c m ths o Ho)|]. intros es2 [fs|].
    + intros [H2 Hfs]. eapply produces_bind; [apply emit_results_spec|]. intros es3 ms [H3 Hans].
      apply produces_ret. rewrite app_nil_r. cbn [batch_messages]. split.
      * rewrite app_assoc. apply (turn_events_app _ _ []); [|done]. by eapply tool_turn_events, tool_events_app.
      * eexists. split; [exact Hans|]. by rewrite Hfs.
    + intros [o' H2]. apply produces_ret. rewrite app_nil_r. exists o'. by eapply tool_events_app.
Qed.

(** ** A turn *)

Lemma turn_tools_spec fuel l m :
  produces (turn_tools env fuel l m) (λ es r,
    match r with
    | Some (ms, _) => turn_events es (tool_result_message <$> ms) ∧ answered ms (tool_calls m)
        ∧ (stopReason m = sr_length → length ms = length (tool_calls m) ∧ Forall (λ r, isError r = true) ms)
    | None => ∃ o, tool_events [] es o
    end).
Proof.
  unfold turn_tools. case_bool_decide as Hnil.
  { apply produces_ret. rewrite Hnil. split_and!; [done|by exists []|done]. }
  case_bool_decide as Hlen.
  - eapply produces_bind.
    { apply (produces_some _ (λ es b, turn_events es (tool_result_message <$> batch_messages b)
         ∧ answers (batch_messages b) (tool_calls m) ∧ Forall (λ r, isError r = true) (batch_messages b))).
      eapply produces_bind; [apply failToolCalls_spec|]. intros es ms Hes. apply produces_ret. by rewrite app_nil_r. }
    intros es r (b & -> & Hes & Hans & Herr). apply produces_ret. rewrite app_nil_r.
    split_and!; [done|by eexists|]. intros _. split; [|done].
    apply (f_equal length) in Hans. by rewrite !length_fmap in Hans.
  - eapply produces_bind; [apply executeToolCalls_spec|]. intros es [b|].
    + intros [Hes Hans]. apply produces_ret. by rewrite app_nil_r.
    + intros Ho. apply produces_ret. by rewrite app_nil_r.
Qed.

Lemma emit_spec e : produces (emit env e) (λ es _, es = [e]).
Proof. by apply produces_emit. Qed.

Definition start_phase (l : loop_state (W:=W)) : phase := if firstTurn l then InTurn [] else Between.

Lemma start_turn_spec (first : bool) :
  produces (if first then mret () else emit env turn_start)
    (λ es _, segment (if first then InTurn [] else Between) es (InTurn []) []).
Proof. destruct first; [by apply produces_ret|]. apply produces_emit. by apply segment_one. Qed.

Lemma inject_pending_spec l :
  produces (inject_pending env l) (λ es l', turn_events es (pendingMessages l) ∧
    l' = (add_messages l (pendingMessages l)) <| pendingMessages := [] |>).
Proof.
  eapply produces_bind; [apply emit_messages_spec|]. intros es [] Hes. apply produces_ret. by rewrite app_nil_r.
Qed.

(** What a turn's events amount to, by the way the turn leaves. *)
Definition turn_result (l : loop_state) (es : list AgentEvent) (r : option (turn_outcome (W:=W))) : Prop :=
  ∃ q ms, segment (start_phase l) es q ms ∧
  match r with
  | None => True
  | Some (Ended all) => q = Done ∧ last es = Some (agent_end all) ∧ all = newMessages l ++ ms
  | Some (GoesOn _ l') => q = Between ∧ firstTurn l' = false ∧ newMessages l' = newMessages l ++ ms
  end.

Lemma end_run_spec l es0 ms all :
  segment (start_phase l) es0 Between ms → all = newMessages l ++ ms →
  produces (_ ← emit env (agent_end all); mret (Some (Ended (W:=W) all))) (λ es r, turn_result l (es0 ++ es) r).
Proof.
  intros H0 ->. eapply produces_bind; [apply emit_spec|]. intros es [] ->. apply produces_ret.
  exists Done, (ms ++ []). rewrite app_nil_r. split; [|by rewrite last_snoc, app_nil_r].
  eapply segment_app; [exact H0|]. by apply segment_one.
Qed.

Lemma turn_spec fuel l :
  stream_protocol → produces (turn env fuel l) (λ es r, turn_result l es r).
Proof.
  intros Hstream. unfold turn. eapply produces_bind; [apply start_turn_spec|]. intros es1 [] H1.
  eapply produces_bind; [apply inject_pending_spec|]. intros es2 l2 [H2 ->].
  change (pendingMessages (l <| firstTurn := false |>)) with (pendingMessages l) in H2.
  eapply produces_bind; [by apply streamAssistantResponse_spec|]. intros es3 [m c] H3. cbn [fst] in H3.
  pose proof (segment_app _ _ _ _ _ _ _ H1 (segment_app _ _ _ _ _ _ _ H2 H3)) as H123.
  cbn [app] in H123. fold (start_phase l) in H123. case_bool_decide as Hstop.
  - eapply produces_bind; [apply emit_spec|]. intros es [] ->.
    eapply produces_impl; [eapply (end_run_spec l ((es1 ++ es2 ++ es3) ++ [turn_end m []]))|].
    + eapply segment_app; [exact H123|]. apply segment_one; [done|]. cbn. split_and!; [apply prefix_nil|done|].
      intros Hlen. by rewrite Hlen in Hstop; destruct Hstop.
    + cbn. by rewrite <- !app_assoc, app_nil_r.
    + intros es r. by rewrite <- !app_assoc.
  - eapply produces_bind; [apply turn_tools_spec|]. intros es4 [[results more]|].
    + intros (H4 & Hans & Hlen). set (l4 := add_messages _ _).
      eapply produces_bind; [apply emit_spec|]. intros es [] ->.
      assert (segment (start_phase l) (es1 ++ es2 ++ es3 ++ es4 ++ [turn_end m results]) Between
                ((pendingMessages l ++ [assistant m]) ++ (tool_result_message <$> results))) as H5.
      { assert (turn_end_ok (turn_end m results)) as Hok.
          { split; [by apply answered_prefix|]. split; [|exact Hlen]. intros Hs. exfalso. exact (Hstop Hs). }
        pose proof (segment_app _ _ _ _ _ _ _ (segment_app _ _ _ _ _ _ _ H123 H4)
          (segment_one (InTurn []) (turn_end m results) Between eq_refl Hok)) as H5.
        cbn [ended omap list_omap] in H5. rewrite app_nil_r in H5. rewrite <- !app_assoc in H5. rewrite <- !app_assoc. exact H5. }
      apply produces_silent; [apply silent_call_opt|]. intros snapshot.
      set (l5 := match snapshot with Some u => _ | None => _ end).
      assert (newMessages l5 = newMessages l ++ (pendingMessages l ++ [assistant m]) ++ (tool_result_message <$> results)
              ∧ firstTurn l5 = false) as [Hnew Hfirst].
      { unfold l5. destruct snapshot; cbn; by rewrite <- !app_assoc. }
      apply produces_silent; [apply silent_call_opt|]. intros [].
      * eapply produces_impl; [by eapply end_run_spec|]. intros es r Hr. cbv beta in Hr. by rewrite <- !app_assoc in Hr.
      * apply produces_silent; [apply silent_call_opt|]. intros steering. apply produces_ret.
        eexists Between, _. split; [|done]. rewrite app_nil_r. exact H5.
    + intros [o Ho]. apply produces_ret. eexists _, _. split; [|done].
      rewrite app_nil_r. pose proof (segment_app _ _ _ _ _ _ _ H123 Ho) as H5. rewrite <- !app_assoc in H5. exact H5.
Qed.

(** ** The loop *)

(** What a run's events amount to: a returned list is the one [agent_end] reports,
    and holds the messages known before and those the events ended. *)
Definition run_result (p : phase) (new : list AgentMessage) (es : list AgentEvent) (r : option (list AgentMessage)) : Prop :=
  ∃ q ms, segment p es q ms ∧
  match r with
  | None => True
  | Some all => q = Done ∧ last es = Some (agent_end all) ∧ all = new ++ ms
  end.

Lemma run_result_app p new es q ms es' r :
  segment p es q ms → run_result q (new ++ ms) es' r → es' ≠ [] ∨ r = None → run_result p new (es ++ es') r.
Proof.
  intros Hes (q' & ms' & Hes' & Hr) Hne. exists q', (ms ++ ms'). split; [by eapply segment_app|].
  destruct r as [all|]; [|done]. destruct Hr as (Hq & Hlast & Hall). split; [done|].
  split; [|by rewrite Hall, app_assoc]. rewrite last_app, Hlast. done.
Qed.

Lemma run_result_nonempty p new es r : run_result p new es r → es ≠ [] ∨ r = None.
Proof. intros (q & ms & _ & Hr). destruct r; [left|by right]. intros ->. by destruct Hr as (_ & ? & _). Qed.

Lemma run_loop_spec fuel more l :
  stream_protocol → more = true ∨ firstTurn l = false →
  produces (run_loop env fuel more l) (λ es r, run_result (start_phase l) (newMessages l) es r).
Proof.
  intros Hstream. revert more l. induction fuel as [|fuel IH]; intros more l Hmore; cbn [run_loop].
  { apply produces_ret. by eexists _, _. }
  destruct (more || negb (bool_decide (pendingMessages l = []))) eqn:Hgo.
  - eapply produces_bind; [by apply turn_spec|]. intros es [[all|more' l']|] (q & ms & Hes & Hr).
    + apply produces_ret. rewrite app_nil_r. by exists q, ms.
    + destruct Hr as (-> & Hfirst & Hnew). eapply produces_impl; [apply IH; by right|].
      intros es' r Hr. eapply run_result_app; [exact Hes| |by eapply run_result_nonempty].
      unfold start_phase in Hr. by rewrite Hfirst, Hnew in Hr.
    + apply produces_ret. rewrite app_nil_r. by exists q, ms.
  - apply orb_false_elim in Hgo as [-> _]. destruct Hmore as [|Hfirst]; [done|].
    apply produces_silent; [apply silent_call_opt|]. intros followUp. case_bool_decide.
    + eapply produces_bind; [apply emit_spec|]. intros es [] ->. apply produces_ret.
      exists Done, []. unfold start_phase. rewrite Hfirst, !app_nil_r. split; [by apply segment_one|done].
    + eapply produces_impl; [apply (IH true (l <| pendingMessages := followUp |>)); by left|]. intros es r Hr. exact Hr.
Qed.

Lemma runLoop_spec fuel c new config :
  stream_protocol → produces (runLoop env fuel c new config) (λ es r, run_result (InTurn []) new es r).
Proof.
  intros Hstream. apply produces_silent; [apply silent_call_opt|]. intros pending.
  by apply (run_loop_spec fuel true (MkLoop c config true pending new)); [|left].
Qed.

Lemma start_run_spec :
  produces (_ ← emit env agent_start; emit env turn_start) (λ es _, segment Idle es (InTurn []) []).
Proof.
  eapply produces_bind; [apply emit_spec|]. intros es [] ->. apply produces_emit.
  by apply (segment_app Idle [agent_start] Between [] [turn_start] (InTurn []) []); apply segment_one.
Qed.

Lemma runAgentLoop_spec fuel prompts c config :
  stream_protocol → produces (runAgentLoop env fuel prompts c config) (λ es r,
    run_result Idle [] es r ∧ ∀ all, r = Some all → prompts `prefix_of` all).
Proof.
  intros Hstream. unfold runAgentLoop.
  eapply produces_bind; [apply emit_spec|]. intros es1 [] ->.
  eapply produces_bind; [apply emit_spec|]. intros es2 [] ->.
  eapply produces_bind; [apply emit_messages_spec|]. intros es3 [] H3.
  eapply produces_impl; [by apply runLoop_spec|]. intros es4 r H4.
  pose proof (segment_app Idle [agent_start; turn_start] (InTurn []) [] _ _ _
    ltac:(split_and!; [done..|by repeat constructor]) H3) as H5.
  split.
  - change ([agent_start] ++ [turn_start] ++ es3 ++ es4) with (([agent_start; turn_start] ++ es3) ++ es4).
    eapply run_result_app; [exact H5|exact H4|by eapply run_result_nonempty].
  - intros all ->. destruct H4 as (q & ms & _ & _ & _ & ->). by exists ms.
Qed.

Lemma runAgentLoopContinue_spec fuel c config m :
  stream_protocol → runAgentLoopContinue env fuel c config = Ok m → produces m (λ es r, run_result Idle [] es r).
Proof.
  intros Hstream. unfold runAgentLoopContinue. destruct (check_continue c) as [[]|]; [|done]. intros [= <-].
  eapply produces_bind; [apply emit_spec|]. intros es1 [] ->.
  eapply produces_bind; [apply emit_spec|]. intros es2 [] ->.
  eapply produces_impl; [by apply runLoop_spec|]. intros es3 r H3.
  change ([agent_start] ++ [turn_start] ++ es3) with ([agent_start; turn_start] ++ es3).
  eapply run_result_app; [|exact H3|by eapply run_result_nonempty].
  split_and!; [done..|by repeat constructor].
Qed.

End Produces.

(** ** What a run guarantees *)

(** Claim C24. Whatever the tools, the hooks, the provider and the scheduling do,
    the events of a run of [runAgentLoop] follow the protocol (a run starts, turns
    do not overlap, one message at a time inside a turn, every tool report between
    the start and the end of its execution, all executions ended before the next
    message or turn end), also when the run is cut short; a run that returns has
    reached its end, and [agent_end] is its last event. *)
Theorem agentLoop_event_protocol {W} (env : Environment W) fuel prompts c config s r s' :
  stream_protocol env →
  runAgentLoop env fuel prompts c config s = (r, s') →
  ∃ es, trace s' = trace s ++ es ∧
    match r with
    | Some ms => run_protocol Idle es = Some Done ∧ last es = Some (agent_end ms)
    | None => is_Some (run_protocol Idle es)
    end.
Proof.
  intros Hstream Hrun. destruct (runAgentLoop_spec env fuel prompts c config Hstream s) as (es & Htr & (q & ms & (Hp & _) & Hr) & _).
  rewrite Hrun in *. exists es. split; [done|]. cbn in Hr. destruct r as [all|]; [|by eexists].
  destruct Hr as (-> & Hlast & _). done.
Qed.

(** The messages a run returns are the ones whose end its events
    announce, in that order, the prompts first; no message is lost, added or
    reordered between the events and the result. *)
Theorem agentLoop_returns_ended {W} (env : Environment W) fuel prompts c config s ms s' :
  stream_protocol env →
  runAgentLoop env fuel prompts c config s = (Some ms, s') →
  ∃ es, trace s' = trace s ++ es ∧ ms = ended es ∧ prompts `prefix_of` ms.
Proof.
  intros Hstream Hrun. destruct (runAgentLoop_spec env fuel prompts c config Hstream s)
    as (es & Htr & (q & ms' & (_ & He & _) & Hr) & Hpre).
  rewrite Hrun in *. exists es. split; [done|]. cbn in Hr. destruct Hr as (_ & _ & ->). rewrite He. cbn.
  split; [done|]. by apply Hpre.
Qed.

(** Claim C26. At the end of each turn the tool results answer the first tool
    calls of the response, by id and name and in the response's order; there are
    none when the response failed or was aborted, and when the response was cut
    off by the token limit every call is answered by an error. *)
Theorem agentLoop_turns_answer_calls {W} (env : Environment W) fuel prompts c config s :
  stream_protocol env →
  ∃ es, trace (runAgentLoop env fuel prompts c config s).2 = trace s ++ es ∧
  ∀ m results, turn_end m results ∈ es →
    (λ r, (toolCallId r, toolName r)) <$> results `prefix_of` (λ c, (call_id c, call_name c)) <$> tool_calls m
    ∧ (stopReason m = sr_error ∨ stopReason m = sr_aborted → results = [])
    ∧ (stopReason m = sr_length →
       length results = length (tool_calls m) ∧ Forall (λ r, isError r = true) results).
Proof.
  intros Hstream. destruct (runAgentLoop_spec env fuel prompts c config Hstream s)
    as (es & Htr & (q & ms & (_ & _ & Hall) & _) & _).
  exists es. split; [done|]. intros m results Hin. rewrite Forall_forall in Hall. exact (Hall _ Hin).
Qed.

(** When a run is not aborted, executing the calls of a response, one at
    a time or concurrently under any scheduling, yields one result message per
    call, in the order of the calls, and the events it emits start, end and report
    every call within the turn. *)
Theorem executeToolCalls_answers_all {W} (env : Environment W) fuel c m config s b s' :
  never_aborted env →
  executeToolCalls env fuel c m config s = (Some b, s') →
  (λ r, (toolCallId r, toolName r)) <$> batch_messages b = (λ c, (call_id c, call_name c)) <$> tool_calls m
  ∧ ∃ es, trace s' = trace s ++ es ∧ run_protocol (InTurn []) es = Some (InTurn [])
      ∧ ended es = tool_result_message <$> batch_messages b.
Proof.
  intros Hn Hrun. destruct (executeToolCalls_spec env fuel c m config s) as (es & Htr & Hb).
  rewrite Hrun in *. cbn in Hb. destruct Hb as [(Hp & He & _) (ts & Hans & _ & Hall)].
  rewrite (Hall Hn) in Hans. split; [exact Hans|]. by exists es.
Qed.

(** A tool is only executed when the context has a tool of that name,
    the arguments it was called with, prepared by the tool, passed validation, the
    hook neither threw nor blocked the call, and the run is not aborted: anything
    else yields an error result on the spot. *)
Theorem prepareToolCall_gate {W} (env : Environment W) c m t s p s' :
  prepareToolCall env c m t s = (Prepared p, s') →
  prep_toolCall p = t
  ∧ find_tool c (call_name t) = Some (prep_tool p)
  ∧ (∃ t', prepareToolCallArguments (prep_tool p) t = Ok t' ∧ validateToolArguments env (prep_tool p) t' = Ok (prep_args p))
  ∧ signal_aborted env (world s') = false
  ∧ (∀ hook, beforeToolCall env = Some hook →
       ∃ d, hook (MkToolCallContext m t (prep_args p) c) (world s) = (Ok d, world s')
         ∧ ∀ b, d = Some b → flag (before_block b) = false).
Proof.
  unfold prepareToolCall. destruct (find_tool c (call_name t)) as [tool|]; [|done].
  destruct (prepareToolCallArguments tool t) as [t'|] eqn:Hp; [|done]. cbn [mbind result_bind].
  destruct (validateToolArguments env tool t') as [args|] eqn:Hv; [|done].
  destruct (beforeToolCall env) as [hook|] eqn:Hh.
  - unfold mbind, M_bind, call, aborted_now, mret, M_ret.
    destruct (hook _ _) as [[d|] w'] eqn:Hd; [|done]. cbn.
    destruct (signal_aborted env w') eqn:Hab; [done|].
    destruct d as [b|]; [destruct (flag (before_block b)) eqn:Hb; [done|]|]; cbn; rewrite Hab; intros Heq; simplify_eq; cbn.
    all: split_and!; try done; [by exists t'|].
    all: intros h [= <-]; eexists; split; [exact Hd|]. 
    all: by intros b' [= <-].
  - unfold mbind, M_bind, aborted_now, mret, M_ret. destruct (signal_aborted env (world s)) eqn:Hab; [done|].
    intros Heq. simplify_eq. split_and!; try done. by exists t'.
Qed.

(** [runAgentLoopContinue] refuses an empty transcript and one that ends
    with an assistant message, before any event; otherwise its run keeps the
    protocol and returns the messages it ended. *)
Theorem runAgentLoopContinue_guarded {W} (env : Environment W) fuel c config :
  stream_protocol env →
  match runAgentLoopContinue env fuel c config with
  | Err NoMessages => messages c = []
  | Err LastIsAssistant => ∃ m, last (messages c) = Some m ∧ message_role m = role_assistant
  | Ok run => (∃ m, last (messages c) = Some m ∧ message_role m ≠ role_assistant) ∧
      ∀ s ms s', run s = (Some ms, s') →
        ∃ es, trace s' = trace s ++ es ∧ run_protocol Idle es = Some Done
          ∧ last es = Some (agent_end ms) ∧ ms = ended es
  end.
Proof.
  intros Hstream. destruct (runAgentLoopContinue env fuel c config) as [run|e] eqn:Hc.
  - split.
    + unfold runAgentLoopContinue, check_continue in Hc. destruct (last (messages c)) as [m|]; [|done].
      exists m. split; [done|]. by case_bool_decide.
    + intros s ms s' Hrun. destruct (runAgentLoopContinue_spec env fuel c config run Hstream Hc s)
        as (es & Htr & q & ms' & (Hp & He & _) & Hr).
      rewrite Hrun in *. cbn in Hr. destruct Hr as (-> & Hlast & ->). exists es. by rewrite He.
  - unfold runAgentLoopContinue, check_continue in Hc. destruct (last (messages c)) as [m|] eqn:Hl.
    + case_bool_decide; [|done]. cbn in Hc. injection Hc as <-. by exists m.
    + cbn in Hc. injection Hc as <-. by apply last_None.
Qed.

(** ** A concrete run

    The world counts the responses; the first response calls a tool twice and the
    second stops.  The tool reports once before it returns. *)

Definition demo_usage : Usage := MkUsage 0 0 0 0 None None 0 0 0 0 0 0.
Definition demo_response (content : list assistant_part) (reason : StopReason) : AssistantMessage :=
  MkAssistantMessage content (js "api") (js "p") (js "m") None None None demo_usage reason None None None None 7.
Definition demo_tool_call (id : string) : ToolCall := MkToolCall (js id) (js "read") JsonNull None None.
Definition demo_calling : AssistantMessage :=
  demo_response [AToolCall (demo_tool_call "c1"); AToolCall (demo_tool_call "c2")] sr_toolUse.
Definition demo_stopping : AssistantMessage := demo_response [AText (MkText (js "done") None)] sr_stop.
Definition demo_result (text : string) : AgentToolResult :=
  MkToolResult (Some [CText (MkText (js text) None)]) None None None None.
Definition demo_read : AgentTool nat :=
  MkTool (js "read") None None (λ _ _ w, (([demo_result "half"], Ok (demo_result "all")), w)).
Definition demo_stream (request : Request nat) (w : nat) : (list StreamEvent * AssistantMessage) * nat :=
  match w with
  | O => (([StreamStart demo_calling; StreamUpdate demo_calling; StreamFinished], demo_calling), 1%nat)
  | S w => (([StreamFinished], demo_stopping), S (S w))
  end.
Definition demo_env : Environment nat :=
  MkEnvironment nat (λ _ w, w) (λ _, false) (λ w, (Z.of_nat w, w)) demo_stream None (λ _ w, ([], w)) None None None None None
    (λ _ t, Ok (call_arguments t)) (Some (λ _ w, (Ok None, w))) None (λ w, (w, w)).
Definition demo_prompt : AgentMessage := AgentLlm (MUser (MkUserMessage (StringContent (js "hi")) 1)).
Definition demo_context (ms : list AgentMessage) : AgentContext nat := MkAgentContext (js "system") ms (Some [demo_read]).
Definition demo_config : AgentLoopConfig := MkConfig (MkModel (js "p") (js "m")) None None None.
Definition demo_start : State nat := MkLoopState 0%nat [].
Definition demo_run : option (list AgentMessage) * State nat :=
  runAgentLoop demo_env 20 [demo_prompt] (demo_context []) demo_config demo_start.
Definition demo_answer (id : string) : AgentMessage :=
  tool_result_message (MkToolResultMessage (js id) (js "read") [CText (MkText (js "all") None)] None None None false 1).
Definition demo_messages : list AgentMessage :=
  [demo_prompt; assistant demo_calling; demo_answer "c1"; demo_answer "c2"; assistant demo_stopping].

Lemma demo_stream_protocol : stream_protocol demo_env.
Proof. intros request [|w]; apply (bool_decide_unpack _); vm_compute; exact I. Qed.

Lemma agentLoop_event_protocol_witness :
  ∃ es, trace (snd demo_run) = trace demo_start ++ es ∧
    match Some demo_messages with
    | Some ms => run_protocol Idle es = Some Done ∧ last es = Some (agent_end ms)
    | None => is_Some (run_protocol Idle es)
    end.
Proof.
  apply (agentLoop_event_protocol demo_env 20 [demo_prompt] (demo_context []) demo_config demo_start
    (Some demo_messages) (snd demo_run)); [exact demo_stream_protocol|]. vm_compute. reflexivity.
Defined.

Lemma agentLoop_returns_ended_witness :
  ∃ es, trace (snd demo_run) = trace demo_start ++ es ∧ demo_messages = ended es ∧ [demo_prompt] `prefix_of` demo_messages.
Proof.
  apply (agentLoop_returns_ended demo_env 20 [demo_prompt] (demo_context []) demo_config demo_start demo_messages
    (snd demo_run)); [exact demo_stream_protocol|]. vm_compute. reflexivity.
Defined.

Lemma agentLoop_turns_answer_calls_witness :
  ∃ es, trace (runAgentLoop demo_env 20 [demo_prompt] (demo_context []) demo_config demo_start).2 = trace demo_start ++ es ∧
  ∀ m results, turn_end m results ∈ es →
    (λ r, (toolCallId r, toolName r)) <$> results `prefix_of` (λ c, (call_id c, call_name c)) <$> tool_calls m
    ∧ (stopReason m = sr_error ∨ stopReason m = sr_aborted → results = [])
    ∧ (stopReason m = sr_length →
       length results = length (tool_calls m) ∧ Forall (λ r, isError r = true) results).
Proof.
  apply (agentLoop_turns_answer_calls demo_env 20 [demo_prompt] (demo_context []) demo_config demo_start).
  exact demo_stream_protocol.
Defined.

Definition demo_execution : option ExecutedToolCallBatch * State nat :=
  executeToolCalls demo_env 20 (demo_context []) demo_calling demo_config demo_start.
Definition demo_batch : ExecutedToolCallBatch :=
  match fst demo_execution with Some b => b | None => MkBatch [] false end.

Lemma executeToolCalls_answers_all_witness :
  (λ r, (toolCallId r, toolName r)) <$> batch_messages demo_batch
  = (λ c, (call_id c, call_name c)) <$> tool_calls demo_calling
  ∧ ∃ es, trace (snd demo_execution) = trace demo_start ++ es ∧ run_protocol (InTurn []) es = Some (InTurn [])
      ∧ ended es = tool_result_message <$> batch_messages demo_batch.
Proof.
  apply (executeToolCalls_answers_all demo_env 20 (demo_context []) demo_calling demo_config demo_start demo_batch
    (snd demo_execution)); [by intros w|]. vm_compute. reflexivity.
Defined.

Definition demo_prepared : PreparedToolCall := MkPrepared (demo_tool_call "c1") demo_read JsonNull.

Lemma prepareToolCall_gate_witness :
  prep_toolCall demo_prepared = demo_tool_call "c1"
  ∧ find_tool (demo_context []) (call_name (demo_tool_call "c1")) = Some (prep_tool demo_prepared)
  ∧ (∃ t', prepareToolCallArguments (prep_tool demo_prepared) (demo_tool_call "c1") = Ok t'
       ∧ validateToolArguments demo_env (prep_tool demo_prepared) t' = Ok (prep_args demo_prepared))
  ∧ signal_aborted demo_env (world demo_start) = false
  ∧ (∀ hook, beforeToolCall demo_env = Some hook →
       ∃ d, hook (MkToolCallContext demo_calling (demo_tool_call "c1") (prep_args demo_prepared) (demo_context []))
              (world demo_start) = (Ok d, world demo_start)
         ∧ ∀ b, d = Some b → flag (before_block b) = false).
Proof.
  apply (prepareToolCall_gate demo_env (demo_context []) demo_calling (demo_tool_call "c1") demo_start demo_prepared demo_start).
  reflexivity.
Defined.

Lemma runAgentLoopContinue_guarded_witness :
  match runAgentLoopContinue demo_env 20 (demo_context [demo_prompt]) demo_config with
  | Err NoMessages => messages (demo_context [demo_prompt]) = []
  | Err LastIsAssistant =>
      ∃ m, last (messages (demo_context [demo_prompt])) = Some m ∧ message_role m = role_assistant
  | Ok run => (∃ m, last (messages (demo_context [demo_prompt])) = Some m ∧ message_role m ≠ role_assistant) ∧
      ∀ s ms s', run s = (Some ms, s') →
        ∃ es, trace s' = trace s ++ es ∧ run_protocol Idle es = Some Done
          ∧ last es = Some (agent_end ms) ∧ ms = ended es
  end.
Proof.
  apply (runAgentLoopContinue_guarded demo_env 20 (demo_context [demo_prompt]) demo_config). exact demo_stream_protocol.
Defined.
