(* ===== verification/AgentLoopTermination.v ===== *)
(** * Termination of the agent loop

    Promise.all over concurrent tool calls settles under every scheduling, whatever
    the tools report; so does a turn; and a run ends when the stop hook sets a
    limit.  [total] says that a computation given enough fuel returns, with a
    result no more fuel changes. *)

From S2P Require Import Prelude JsNumber JsString SessionTypes Messages AgentLoop.

Section Total.
Context {W : Type}.

(** With enough fuel the computation returns, always the same. *)
Definition total {A} (f : nat → M W (option A)) : Prop :=
  ∀ s, ∃ fuel a s', ∀ n, (fuel ≤ n)%nat → f n s = (Some a, s').

Lemma total_ret {A} (a : A) : total (λ _, mret (Some a)).
Proof. intros s. by exists 0%nat, a, s. Qed.

Lemma total_bind {A B} (m : M W A) (f : nat → A → M W (option B)) :
  (∀ a, total (λ n, f n a)) → total (λ n, m ≫= f n).
Proof.
  intros Hf s. unfold mbind, M_bind. destruct (m s) as [a s1].
  destruct (Hf a s1) as (fuel & b & s' & Hn). by exists fuel, b, s'.
Qed.

Lemma total_match {A B} (g : nat → M W (option A)) (f : nat → A → M W (option B)) :
  total g → (∀ a, total (λ n, f n a)) →
  total (λ n, r ← g n; match r with None => mret None | Some a => f n a end).
Proof.
  intros Hg Hf s. destruct (Hg s) as (k & a & s1 & Hk). destruct (Hf a s1) as (k' & b & s2 & Hk').
  exists (k `max` k')%nat, b, s2. intros n Hn. unfold mbind, M_bind. rewrite (Hk n), (Hk' n) by lia. done.
Qed.

Lemma total_step {A} (f g : nat → M W (option A)) : (∀ n, f (S n) = g n) → total g → total f.
Proof.
  intros Hfg Hg s. destruct (Hg s) as (k & a & s' & Hk). exists (S k), a, s'. intros [|n] Hn; [lia|].
  rewrite Hfg. apply Hk. lia.
Qed.

Context (env : Environment W).

(** ** Concurrent tool calls *)

Definition starts (th : thread (W:=W)) : nat := match th with Ready _ => 1 | _ => 0 end.
Definition steps (th : thread (W:=W)) : nat :=
  match th with Ready _ | Finished _ => 0 | Updating _ us _ => 2 + length us | Ending _ => 1 end.

Lemma sum_insert {A} (f : A → nat) l i x y :
  l !! i = Some x → (sum_list_with f (<[i := y]> l) + f x = sum_list_with f l + f y)%nat.
Proof.
  intros Hi. assert (i < length l)%nat as Hlt by by eapply lookup_lt_Some.
  rewrite insert_take_drop by done. rewrite <- (take_drop_middle l i x Hi) at 3.
  rewrite !sum_list_with_app. cbn. unfold sum_list_with. lia.
Qed.

(** A step starts a tool or takes a started call closer to its end. *)
Lemma thread_step_less c m th s :
  finished th = None →
  let th' := (thread_step env c m th s).1 in
  (starts th' < starts th)%nat ∨ starts th' = starts th ∧ (steps th' < steps th)%nat.
Proof.
  destruct th as [p|p [|u us] executed|f|f]; intros Hf; [| | | |done].
  - left. unfold thread_step, mbind, M_bind, call. destruct (execute _ _ _ _). cbn. lia.
  - right. unfold thread_step, mbind, M_bind. destruct (finalizeExecutedToolCall _ _ _ _ _ _). cbn. lia.
  - right. split; [done|]. change (2 + length us < 2 + S (length us))%nat. lia.
  - right. split; [done|]. change (0 < 1)%nat. lia.
Qed.

Lemma unfinished_lookup (ths : list (thread (W:=W))) i : i ∈ unfinished ths ↔ ∃ th, ths !! i = Some th ∧ finished th = None.
Proof.
  unfold unfinished. rewrite list_elem_of_omap. setoid_rewrite list_elem_of_lookup.
  setoid_rewrite list_lookup_imap_Some. split.
  - intros (o & (j & th & Hth & ->) & Ho). cbn in Ho. destruct th; try done; injection Ho as ->; by eexists.
  - intros (th & Hth & Hf). exists (Some i). split; [|done]. exists i, th. split; [done|]. by destruct th.
Qed.

Lemma pick_some (ths : list (thread (W:=W))) n : mapM finished ths = None → ∃ i th, pick ths n = Some i ∧ ths !! i = Some th ∧ finished th = None.
Proof.
  intros Hm. apply mapM_None, Exists_exists in Hm as (th & Hin & Hf). apply list_elem_of_lookup in Hin as (i & Hi).
  assert (i ∈ unfinished ths) as Hu by (apply unfinished_lookup; eauto).
  assert (0 < length (unfinished ths))%nat as Hlen by (destruct (unfinished ths); [by apply elem_of_nil in Hu|cbn; lia]).
  destruct (lookup_lt_is_Some_2 (unfinished ths) (n mod length (unfinished ths))) as [j Hj]; [apply Nat.mod_upper_bound; lia|].
  exists j. apply list_elem_of_lookup_2 in Hj as Hj'. apply unfinished_lookup in Hj' as (th' & Hth' & Hf').
  by exists th'.
Qed.

Lemma run_threads_total c m ths : total (λ n, run_threads env n c m ths).
Proof.
  remember (sum_list_with starts ths) as a eqn:Ha. revert ths Ha.
  induction a as [a IHa] using lt_wf_ind. intros ths.
  remember (sum_list_with steps ths) as b eqn:Hb. revert ths Hb.
  induction b as [b IHb] using lt_wf_ind. intros ths Hb Ha s.
  destruct (mapM finished ths) as [fs|] eqn:Hm.
  { exists 0%nat, fs, s. intros [|n] _; cbn; by rewrite Hm. }
  unfold call. destruct (schedule env (world s)) as [k w] eqn:Hk. set (s1 := MkLoopState w (trace s)).
  destruct (pick_some ths k Hm) as (i & th & Hp & Hi & Hf).
  pose proof (thread_step_less c m th s1 Hf) as Hless. destruct (thread_step env c m th s1) as [th' s2] eqn:Hstep.
  cbn in Hless. pose proof (sum_insert starts ths i th th' Hi). pose proof (sum_insert steps ths i th th' Hi).
  assert (∃ fuel r s', ∀ n, (fuel ≤ n)%nat → run_threads env n c m (<[i:=th']> ths) s2 = (Some r, s')) as (fuel & r & s' & Hn).
  { destruct Hless as [Hlt|[Heq Hlt]].
    - refine (IHa _ _ (<[i:=th']> ths) eq_refl s2). lia.
    - refine (IHb _ _ (<[i:=th']> ths) eq_refl _ s2); lia. }
  exists (S fuel), r, s'. intros [|n] Hle; [lia|]. cbn. rewrite Hm. unfold mbind, M_bind, call. rewrite Hk, Hp, Hi.
  fold s1. rewrite Hstep. apply Hn. lia.
Qed.

Lemma executeToolCalls_total c m config : total (λ n, executeToolCalls env n c m config).
Proof.
  unfold executeToolCalls. destruct (_ || _); [apply total_bind; intros b; apply total_ret|].
  apply total_bind. intros ths. apply total_match; [apply run_threads_total|]. intros fs.
  apply total_bind. intros ms. apply total_ret.
Qed.

Lemma turn_tools_total l m : total (λ n, turn_tools env n l m).
Proof.
  unfold turn_tools. case_bool_decide; [apply total_ret|].
  intros s. destruct (bool_decide (stopReason m = sr_length)).
  - unfold mbind, M_bind. destruct (failToolCallsFromTruncatedMessage env (tool_calls m) s) as [b s'].
    by exists 0%nat, (batch_messages b, negb (terminate b)), s'.
  - destruct (executeToolCalls_total (currentContext l) m (config l) s) as (k & b & s' & Hk).
    exists k, (batch_messages b, negb (terminate b)), s'. intros n Hn. unfold mbind, M_bind. by rewrite Hk.
Qed.

(** ** Turns *)

Lemma turn_total l : total (λ n, turn env n l).
Proof.
  unfold turn. apply total_bind. intros []. apply total_bind. intros l2. apply total_bind. intros [m c].
  case_bool_decide; [do 2 (apply total_bind; intros []); apply total_ret|].
  apply total_match; [apply turn_tools_total|]. intros [results more].
  apply total_bind. intros []. apply total_bind. intros snapshot. apply total_bind. intros [].
  - apply total_bind. intros []. apply total_ret.
  - apply total_bind. intros steering. apply total_ret.
Qed.

(** What a computation returns satisfies [Q], from any state. *)
Definition returns {A} (m : M W A) (Q : A → Prop) : Prop := ∀ s, Q (m s).1.

Lemma returns_ret {A} (a : A) (Q : A → Prop) : Q a → returns (mret a) Q.
Proof. by intros Hq s. Qed.

Lemma returns_bind {A B} (m : M W A) (f : A → M W B) (P : A → Prop) (Q : B → Prop) :
  returns m P → (∀ a, P a → returns (f a) Q) → returns (m ≫= f) Q.
Proof. intros Hm Hf s. specialize (Hm s). unfold mbind, M_bind. destruct (m s) as [a s']. by apply Hf. Qed.

Lemma returns_then {A B} (m : M W A) (f : A → M W B) (Q : B → Prop) :
  (∀ a, returns (f a) Q) → returns (m ≫= f) Q.
Proof. intros Hf. by apply (returns_bind m f (λ _, True)). Qed.

Lemma returns_call {A} (f : W → A * W) (Q : A → Prop) : (∀ w, Q (f w).1) → returns (call f) Q.
Proof. intros Hq s. unfold call. specialize (Hq (world s)). by destruct (f (world s)). Qed.

(** The stop hook ends the run once it has [limit] messages. *)
Definition stops_at (limit : nat) : Prop :=
  ∃ hook, shouldStopAfterTurn env = Some hook ∧
    ∀ ctx w, (limit ≤ length (turn_newMessages W ctx))%nat → (hook ctx w).1 = true.

(** A turn that goes on has added a message, and has not reached the limit. *)
Lemma turn_grows limit n l :
  stops_at limit →
  returns (turn env n l) (λ r, ∀ more l', r = Some (GoesOn more l') →
    (length (newMessages l) < length (newMessages l') < limit)%nat).
Proof.
  intros (hook & Hhook & Hstop). unfold turn. apply returns_then. intros [].
  apply (returns_bind _ _ (λ l2, length (newMessages l) ≤ length (newMessages l2))%nat).
  { apply returns_then. intros []. apply returns_ret. cbn. rewrite length_app. lia. }
  intros l2 Hl2. apply returns_then. intros [m c].
  case_bool_decide; [by do 2 (apply returns_then; intros []); apply returns_ret|].
  apply returns_then. intros [[results more]|]; [|by apply returns_ret].
  apply returns_then. intros []. apply returns_then. intros snapshot.
  set (l4 := match snapshot with Some u => _ | None => _ end).
  assert (length (newMessages l2) < length (newMessages l4))%nat as Hl4
    by (unfold l4; destruct snapshot; cbn; rewrite !length_app; cbn; lia).
  rewrite Hhook. cbn [fmap option_fmap option_map call_opt].
  apply (returns_bind _ _ (λ b, b = false → (length (newMessages l4) < limit)%nat)).
  { apply returns_call. intros w Hfalse. apply Nat.nle_gt. intros Hle.
    rewrite Hstop in Hfalse; [done|exact Hle]. }
  intros [] Hb; [apply returns_then; intros []; by apply returns_ret|].
  apply returns_then. intros steering. apply returns_ret. intros more' l' [= <- <-]. split; [|by apply Hb].
  change (length (newMessages l) < length (newMessages l4))%nat. lia.
Qed.

(** ** Runs *)

Lemma run_loop_total limit more l : stops_at limit → total (λ n, run_loop env n more l).
Proof.
  intros Hlimit. remember (limit - length (newMessages l))%nat as k eqn:Hk. revert more l Hk.
  induction k as [k IH] using lt_wf_ind. intros more l Hk.
  assert (∀ more l, k = (limit - length (newMessages l))%nat → more || negb (bool_decide (pendingMessages l = [])) = true →
    total (λ n, run_loop env n more l)) as Hturn.
  { clear more l Hk. intros more l Hk Hgo.
    apply (total_step _ (λ n, outcome ← turn env n l; match outcome with
        | None => mret None | Some (Ended ms) => mret (Some ms) | Some (GoesOn more l) => run_loop env n more l end)).
    { intros n. cbn. by rewrite Hgo. }
    intros s. destruct (turn_total l s) as (f & r & s1 & Hf).
    pose proof (turn_grows limit f l Hlimit s) as Hgrow. rewrite (Hf f) in Hgrow by done. cbn in Hgrow.
    destruct r as [ms|more' l'].
    { exists f, ms, s1. intros n Hn. unfold mbind, M_bind. by rewrite Hf. }
    destruct (Hgrow _ _ eq_refl) as [Hlt Hlt'].
    destruct (IH (limit - length (newMessages l'))%nat ltac:(lia) more' l' eq_refl s1) as (f' & a & s2 & Hf').
    exists (f `max` f')%nat, a, s2. intros n Hn. unfold mbind, M_bind. rewrite Hf by lia. apply Hf'. lia. }
  destruct (more || negb (bool_decide (pendingMessages l = []))) eqn:Hgo; [by apply Hturn|].
  eapply total_step; [intros n; cbn; by rewrite Hgo|]. apply total_bind. intros followUp. destruct (bool_decide (followUp = [])).
  - apply total_bind. intros []. apply total_ret.
  - by apply Hturn.
Qed.

End Total.

(** Executing the calls of a response returns under every scheduling,
    whatever the tools do: a call whose tool has settled reports its updates, is
    finalized and ends, and enough fuel yields a result no more fuel changes. *)
Theorem executeToolCalls_terminates {W} (env : Environment W) c m config s :
  ∃ fuel b s', ∀ n, (fuel ≤ n)%nat → executeToolCalls env n c m config s = (Some b, s').
Proof. apply executeToolCalls_total. Qed.

(** Claim C31. When the stop hook ends a run that has [limit] messages, a run
    returns: with enough fuel it has a result no more fuel changes, however many
    steering and follow-up messages arrive and tools are called. *)
Theorem agentLoop_terminates {W} (env : Environment W) limit prompts c config s :
  stops_at env limit →
  ∃ fuel ms s', ∀ n, (fuel ≤ n)%nat → runAgentLoop env n prompts c config s = (Some ms, s').
Proof.
  intros Hlimit. revert s. change (total (λ n, runAgentLoop env n prompts c config)). unfold runAgentLoop.
  do 3 (apply total_bind; intros []). apply total_bind. intros pending. by apply (run_loop_total env limit).
Qed.

(** A provider that always calls the tool, a follow-up always waiting, and a hook
    that stops at six messages. *)
Definition endless_usage : Usage := MkUsage 0 0 0 0 None None 0 0 0 0 0 0.
Definition endless_response : AssistantMessage :=
  MkAssistantMessage [AToolCall (MkToolCall (js "c") (js "read") JsonNull None None)] (js "api") (js "p") (js "m")
    None None None endless_usage sr_toolUse None None None None 7.
Definition endless_message : AgentMessage := AgentLlm (MUser (MkUserMessage (StringContent (js "more")) 1)).
Definition endless_env : Environment unit :=
  MkEnvironment unit (λ _ w, w) (λ _, false) (λ w, (0, w)) (λ _ w, (([], endless_response), w)) None (λ _ w, ([], w)) None
    None (Some (λ w, ([endless_message], w))) None (Some (λ ctx w, (Nat.leb 6 (length (turn_newMessages unit ctx)), w)))
    (λ _ t, Ok (call_arguments t)) None None (λ w, (0%nat, w)).
Definition endless_context : AgentContext unit := MkAgentContext (js "s") [] None.
Definition endless_config : AgentLoopConfig := MkConfig (MkModel (js "p") (js "m")) None None None.

Lemma agentLoop_terminates_witness :
  ∃ fuel ms s', ∀ n, (fuel ≤ n)%nat →
    runAgentLoop endless_env n [endless_message] endless_context endless_config (MkLoopState () []) = (Some ms, s').
Proof.
  apply (agentLoop_terminates endless_env 6 [endless_message] endless_context endless_config (MkLoopState () [])).
  eexists. split; [reflexivity|]. intros ctx w Hle. cbn [fst]. by apply Nat.leb_le.
Defined.
