(* ===== verification/EventStream.v ===== *)
(** * Event streams

    [packages/ai/src/utils/event-stream.ts]: the queue between a producer that
    pushes events and the consumers that iterate over them.  A consumer is one
    iteration of the stream ([for await]); the moves of the producer and of the
    consumers interleave in any order.  The microtasks between the resolution of a
    promise and the move of the consumer that awaits it are that consumer's next
    step; the other steps are atomic, as they are in JavaScript. *)

From S2P Require Import Prelude JsString SessionTypes Messages AgentLoop AgentLoopTheorems.

(** Where an iteration stands: between two calls of [next], awaiting its entry of
    [waiting], resumed with an event or with the end, or returned. *)
Inductive consumer_phase (T : Type) := Ready | Awaiting | Resumed (event : T) | Told_end | Returned.
Arguments Ready {T}.
Arguments Awaiting {T}.
Arguments Resumed {T}.
Arguments Told_end {T}.
Arguments Returned {T}.

(** [received] is what the loop body has seen. *)
Record Consumer (T : Type) := MkConsumer { c_phase : consumer_phase T; received : list T }.
Arguments MkConsumer {T}.
Arguments c_phase {T}.
Arguments received {T}.

(** The fields of [EventStream]; the promise of the result is its value once it is
    resolved, and a resolver of [waiting] is the consumer it resumes. *)
Record EventStream (T R : Type) := MkStream {
  queue : list T; waiting : list nat; stream_done : bool; finalResult : option R; consumers : list (Consumer T) }.
Arguments MkStream {T R}.
Arguments queue {T R}.
Arguments waiting {T R}.
Arguments stream_done {T R}.
Arguments finalResult {T R}.
Arguments consumers {T R}.

#[export] Instance EventStream_eta T R : Eta (EventStream T R) := λ s,
  MkStream (queue s) (waiting s) (stream_done s) (finalResult s) (consumers s).

Section Stream.
Context {T R : Type}.
(** The arguments of the constructor; [extractResult] may throw. *)
Context (isComplete : T → bool) (extractResult : T → option R).

Abbreviation stream := (EventStream T R).

Definition new_stream (n : nat) : stream := MkStream [] [] false None (replicate n (MkConsumer Ready [])).

(** A promise keeps its first resolution. *)
Definition resolveFinalResult (r : R) (s : stream) : stream :=
  s <| finalResult := Some (default r (finalResult s)) |>.

(** [waiter(result)]: the consumer behind the resolver is resumed. *)
Definition resume (i : nat) (p : consumer_phase T) (s : stream) : stream :=
  s <| consumers := alter (λ c, MkConsumer p (received c)) i (consumers s) |>.

(** An operation returns the events it hands to consumers. *)
Definition deliver (event : T) (s : stream) : stream * list (nat * T) :=
  match waiting s with
  | waiter :: rest => (resume waiter (Resumed event) (s <| waiting := rest |>), [(waiter, event)])
  | [] => (s <| queue := queue s ++ [event] |>, [])
  end.

Definition push (event : T) (s : stream) : stream * list (nat * T) :=
  if stream_done s then (s, [])
  else if isComplete event then
    match extractResult event with
    | Some r => deliver event (resolveFinalResult r (s <| stream_done := true |>))
    | None => (s <| stream_done := true |>, [])
    end
  else deliver event s.

(** The loop that tells every waiting consumer. *)
Fixpoint notify (waiters : list nat) (s : stream) : stream :=
  match waiters with
  | [] => s
  | waiter :: waiters => notify waiters (resume waiter Told_end (s <| waiting := waiters |>))
  end.

(** [end(result)]. *)
Definition end_stream (result : option R) (s : stream) : stream :=
  let s := s <| stream_done := true |> in
  let s := match result with Some r => resolveFinalResult r s | None => s end in
  notify (waiting s) s.

(** The next move of the iteration [i], whose body asks for the next event as soon
    as it has one. *)
Definition advance (i : nat) (s : stream) : stream * list (nat * T) :=
  match consumers s !! i with
  | None => (s, [])
  | Some c =>
      let become p l := <[i := MkConsumer p l]> (consumers s) in
      match c_phase c with
      | Ready =>
          match queue s with
          | event :: rest => (s <| queue := rest |> <| consumers := become Ready (received c ++ [event]) |>, [(i, event)])
          | [] =>
              if stream_done s then (s <| consumers := become Returned (received c) |>, [])
              else (s <| waiting := waiting s ++ [i] |> <| consumers := become Awaiting (received c) |>, [])
          end
      | Resumed event => (s <| consumers := become Ready (received c ++ [event]) |>, [])
      | Told_end => (s <| consumers := become Returned (received c) |>, [])
      | Awaiting | Returned => (s, [])
      end
  end.

Inductive action := Push (event : T) | End (result : option R) | Advance (i : nat).

Definition act (a : action) (s : stream) : stream * list (nat * T) :=
  match a with
  | Push event => push event s
  | End result => (end_stream result s, [])
  | Advance i => advance i s
  end.

(** A run, with the events handed to consumers in their order. *)
Fixpoint run (actions : list action) (s : stream) : stream * list (nat * T) :=
  match actions with
  | [] => (s, [])
  | a :: actions =>
      let (s, handed) := act a s in
      let (s', handed') := run actions s in
      (s', handed ++ handed')
  end.

(** ** What a stream promises *)

(** The events pushed before the stream ended, the completing one included. *)
Fixpoint accepted (actions : list action) : list T :=
  match actions with
  | [] => []
  | Push event :: actions =>
      if isComplete event then if extractResult event then [event] else [] else event :: accepted actions
  | End _ :: _ => []
  | Advance _ :: actions => accepted actions
  end.

(** The result: that of the completing event, or else the first given to [end]. *)
Fixpoint first_result (over : bool) (actions : list action) : option R :=
  match actions with
  | [] => None
  | Push event :: actions =>
      if negb over && isComplete event then
        match extractResult event with Some r => Some r | None => first_result true actions end
      else first_result over actions
  | End (Some r) :: _ => Some r
  | End None :: actions => first_result true actions
  | Advance _ :: actions => first_result over actions
  end.

(** [extractResult] does not throw where [isComplete] holds. *)
Definition extracts : Prop := ∀ event, isComplete event = true → extractResult event ≠ None.

Definition in_flight (c : Consumer T) : list T := match c_phase c with Resumed event => [event] | _ => [] end.
Definition handed_to (i : nat) (handed : list (nat * T)) : list T := (filter (λ p, p.1 = i) handed).*2.
(** ** The invariant *)

Definition is_over (p : consumer_phase T) : Prop := p = Told_end ∨ p = Returned.

(** Nobody waits while there are events; the resolvers in [waiting] are those of the
    consumers that wait; a consumer learns the end only when nothing is left, and once
    the stream is over at least one consumer does not wait. *)
Record stream_ok (s : stream) : Prop := {
  ok_idle : queue s = [] ∨ waiting s = [];
  ok_nodup : NoDup (waiting s);
  ok_waiting i : i ∈ waiting s ↔ ∃ c, consumers s !! i = Some c ∧ c_phase c = Awaiting;
  ok_over i c : consumers s !! i = Some c → is_over (c_phase c) → stream_done s = true ∧ queue s = [];
  ok_done : extracts → stream_done s = true → waiting s = [] ∨ (length (waiting s) < length (consumers s))%nat }.

(** What a consumer has been given: what it received, then what it is resumed with. *)
Definition got (s : stream) (i : nat) : list T := from_option (λ c, received c ++ in_flight c) [] (consumers s !! i).

Lemma waiting_bound s : stream_ok s → (length (waiting s) ≤ length (consumers s))%nat.
Proof.
  intros Hok. rewrite <- (length_seq (length (consumers s)) 0). apply submseteq_length, NoDup_submseteq; [apply Hok|].
  intros i (c & Hc & _)%(ok_waiting s Hok). apply elem_of_seq. apply lookup_lt_Some in Hc. lia.
Qed.

Lemma lookup_resume w p s i :
  consumers (resume w p s) !! i
  = if decide (w = i) then (λ c, MkConsumer p (received c)) <$> consumers s !! w else consumers s !! i.
Proof. apply (list_lookup_alter (λ c : Consumer T, MkConsumer p (received c))). Qed.

Lemma notify_spec ws s :
  waiting s = ws →
  let s' := notify ws s in
  queue s' = queue s ∧ waiting s' = [] ∧ stream_done s' = stream_done s ∧ finalResult s' = finalResult s
  ∧ length (consumers s') = length (consumers s)
  ∧ ∀ i, consumers s' !! i = if decide (i ∈ ws) then (λ c, MkConsumer Told_end (received c)) <$> consumers s !! i
                             else consumers s !! i.
Proof.
  revert s. induction ws as [|w ws IH]; intros s Hw; cbn [notify].
  - by split_and!.
  - destruct (IH (resume w Told_end (s <| waiting := ws |>))) as (-> & -> & -> & -> & -> & Hc); [done|].
    split_and!; try done; [exact (length_alter _ _ _)|]. intros i. rewrite Hc.
    rewrite lookup_resume. change (consumers (s <| waiting := ws |>)) with (consumers s). destruct (decide (w = i)) as [->|Hne].
    + rewrite (decide_True (P := i ∈ i :: ws)) by apply list_elem_of_here.
      by destruct (decide _), (consumers s !! i).
    + rewrite (decide_ext (i ∈ w :: ws) (i ∈ ws)); [done|]. rewrite elem_of_cons. by intuition congruence.
Qed.

(** A waiting consumer has nothing in flight. *)
Lemma got_resume s w p i :
  (∃ c, consumers s !! w = Some c ∧ c_phase c = Awaiting) →
  got (resume w p s) i = got s i ++ (if decide (i = w) then in_flight (MkConsumer p []) else []).
Proof.
  intros (c & Hc & Hp). unfold got. rewrite lookup_resume.
  destruct (decide (w = i)) as [->|Hne].
  - rewrite decide_True by done. rewrite Hc. unfold in_flight at 1 2. cbn. rewrite Hp. by rewrite app_nil_r.
  - rewrite decide_False by done. by rewrite app_nil_r.
Qed.

Lemma handed_to_one i w (event : T) : handed_to i [(w, event)] = if decide (i = w) then [event] else [].
Proof. unfold handed_to. rewrite filter_cons. cbn. repeat case_decide; congruence || done. Qed.

Lemma handed_to_app i (l l' : list (nat * T)) : handed_to i (l ++ l') = handed_to i l ++ handed_to i l'.
Proof. unfold handed_to. by rewrite filter_app, fmap_app. Qed.

(** ** Steps *)

(** What one operation does: it keeps the invariant, and the events it hands out and
    leaves in the queue are those that were there and the [new] ones. *)
Record step_ok (new : list T) (s : stream) (r : stream * list (nat * T)) : Prop := {
  step_inv : stream_ok r.1;
  step_consumers : length (consumers r.1) = length (consumers s);
  step_events : r.2.*2 ++ queue r.1 = queue s ++ new;
  step_got i : got r.1 i = got s i ++ handed_to i r.2 }.

Lemma waiting_after_resume w p ws s i :
  stream_ok s → waiting s = w :: ws → p ≠ Awaiting →
  i ∈ ws ↔ ∃ c, consumers (resume w p s) !! i = Some c ∧ c_phase c = Awaiting.
Proof.
  intros Hok Hw Hp. pose proof (ok_nodup s Hok) as Hnd. rewrite Hw in Hnd. apply NoDup_cons in Hnd as [Hni _].
  pose proof (ok_waiting s Hok i) as Hi. rewrite Hw, elem_of_cons in Hi.
  rewrite lookup_resume. destruct (decide (w = i)) as [->|Hne].
  - split; [done|]. intros (c & Hc & Hcp). destruct (consumers s !! i); [|done]. cbn in Hc. injection Hc as <-. done.
  - rewrite <- Hi. split; [by right|]. by intros [->|?].
Qed.

Lemma deliver_ok event b f s :
  stream_ok s → stream_done s = false →
  step_ok [event] s (deliver event (s <| finalResult := f |> <| stream_done := b |>)).
Proof.
  intros Hok Hd. pose proof (waiting_bound s Hok) as Hlen.
  assert (∀ i c, consumers s !! i = Some c → ¬ is_over (c_phase c)) as Hno.
  { intros i c Hc Ho. destruct (ok_over s Hok i c Hc Ho). congruence. }
  unfold deliver. change (waiting (s <| finalResult := f |> <| stream_done := b |>)) with (waiting s).
  destruct (waiting s) as [|w ws] eqn:Hw.
  - split; cbn.
    + split; cbn; rewrite ?Hw; [by right|apply NoDup_nil_2| | |by left].
      * intros i. rewrite <- Hw. apply (ok_waiting s Hok).
      * intros i c Hc Ho. by destruct (Hno i c).
    + done.
    + done.
    + intros i. by rewrite app_nil_r.
  - set (s1 := s <| finalResult := f |> <| stream_done := b |>).
    assert (queue s = []) as Hq by (destruct (ok_idle s Hok) as [?|?]; [done|congruence]).
    pose proof (ok_nodup s Hok) as Hnd. rewrite Hw in Hnd. apply NoDup_cons in Hnd as [_ Hnd].
    assert (∃ c, consumers s !! w = Some c ∧ c_phase c = Awaiting) as Hwait.
    { apply (ok_waiting s Hok). rewrite Hw. apply list_elem_of_here. }
    split.
    + split; [by left| exact Hnd| | |].
      * intros i. apply (waiting_after_resume w (Resumed event) ws s i Hok Hw). done.
      * intros i c Hc Ho. exfalso. change (consumers (resume w (Resumed event) s) !! i = Some c) in Hc. rewrite lookup_resume in Hc. destruct (decide (w = i)) as [->|]; [|by eapply Hno].
        destruct (consumers s !! i); [|done]. injection Hc as <-. by destruct Ho.
      * intros _ _. right. cbn in Hlen.
        change (length ws < length (alter (λ c, MkConsumer (Resumed event) (received c)) w (consumers s)))%nat.
        rewrite length_alter. lia.
    + exact (length_alter _ _ _).
    + change ([event] ++ queue s = queue s ++ [event]). by rewrite Hq.
    + intros i. cbn [fst snd]. rewrite handed_to_one. exact (got_resume s w (Resumed event) i Hwait).
Qed.

(** The events an action adds to the stream, over or not. *)
Definition news (over : bool) (a : action) : list T := if over then [] else accepted [a].

Lemma got_nothing s s' : consumers s' = consumers s → queue s' = queue s → stream_ok s' → step_ok [] s (s', []).
Proof.
  intros Hc Hq Hok. split; cbn; [done|by rewrite Hc|by rewrite Hq, app_nil_r|].
  intros i. unfold got. by rewrite Hc, app_nil_r.
Qed.

Lemma push_ok event s :
  stream_ok s → step_ok (news (stream_done s) (Push event)) s (push event s).
Proof.
  intros Hok. unfold push, news. destruct (stream_done s) eqn:Hd; [by apply got_nothing|]. cbn [accepted].
  destruct (isComplete event) eqn:Hcomp; [destruct (extractResult event) as [r|] eqn:Hx|].
  - by apply (deliver_ok event true).
  - apply got_nothing; [done..|]. split; cbn; try apply Hok.
    + intros i c Hc Ho. by destruct (ok_over s Hok i c Hc Ho).
    + intros Hex _. by destruct (Hex event).
  - pose proof (deliver_ok event false (finalResult s) s Hok Hd) as H. destruct s. cbn in Hd. subst. exact H.
Qed.

Lemma end_ok result s : stream_ok s → step_ok [] s (end_stream result s, []) ∧ waiting (end_stream result s) = []
  ∧ stream_done (end_stream result s) = true.
Proof.
  intros Hok. unfold end_stream.
  set (s1 := match result with Some r => _ | None => _ end).
  assert (queue s1 = queue s ∧ waiting s1 = waiting s ∧ stream_done s1 = true ∧ consumers s1 = consumers s)
    as (Hq & Hw & Hd & Hc) by by destruct result.
  destruct (notify_spec (waiting s1) s1 eq_refl) as (Hq' & Hw' & Hd' & _ & Hl & Hc'). rewrite Hw in Hc'.
  rewrite Hq in Hq'. rewrite Hd in Hd'. rewrite Hc in Hl, Hc'. rewrite Hw in *. clearbody s1.
  split; [|done]. split; cbn [fst snd].
  - split.
    + by right.
    + rewrite Hw'. apply NoDup_nil_2.
    + intros i. rewrite Hw', Hc'. split; [by intros ?%elem_of_nil|]. intros (c & Hi & Hp). exfalso.
      destruct (decide (i ∈ waiting s)) as [Hin|Hin]; [|destruct Hin; apply (ok_waiting s Hok); eauto].
      destruct (consumers s !! i); [|done]. injection Hi as <-. done.
    + intros i c Hi Ho. split; [done|]. rewrite Hq'. rewrite Hc' in Hi. destruct (decide (i ∈ waiting s)) as [Hin|Hin].
      * destruct (ok_idle s Hok) as [|Hw0]; [done|]. rewrite Hw0 in Hin. by apply elem_of_nil in Hin.
      * by eapply (ok_over s Hok).
    + by left.
  - done.
  - by rewrite Hq', app_nil_r.
  - intros i. unfold got. rewrite Hc'. destruct (decide (i ∈ waiting s)) as [Hin|]; [|by rewrite app_nil_r].
    apply (ok_waiting s Hok) in Hin as (c & Hi & Hp). rewrite Hi. cbn. unfold in_flight. rewrite Hp. cbn. by rewrite !app_nil_r.
Qed.

Lemma lookup_become (l : list (Consumer T)) i c c' j :
  l !! i = Some c → <[i := c']> l !! j = if decide (i = j) then Some c' else l !! j.
Proof.
  intros Hc. destruct (decide (i = j)) as [->|Hne]; [|by rewrite list_lookup_insert_ne].
  apply list_lookup_insert_eq. by eapply lookup_lt_Some.
Qed.

(** Consumer [i] moves on, from a phase in which it does not wait. *)
Lemma become_ok i c p received' q s handed :
  stream_ok s → consumers s !! i = Some c → c_phase c ≠ Awaiting → p ≠ Awaiting →
  (q = [] ∨ waiting s = []) →
  (is_over p → stream_done s = true ∧ queue s = []) →
  handed ++ q = queue s →
  received' ++ in_flight (MkConsumer p []) = received c ++ in_flight c ++ handed →
  step_ok [] s (s <| queue := q |> <| consumers := <[i := MkConsumer p received']> (consumers s) |>, (λ e, (i, e)) <$> handed).
Proof.
  intros Hok Hc Hpc Hp Hq Hover Hh Hr.
  set (s1 := s <| queue := q |> <| consumers := <[i := MkConsumer p received']> (consumers s) |>).
  assert (Hc1 : consumers s1 = <[i := MkConsumer p received']> (consumers s)) by done.
  assert (Hs1 : queue s1 = q ∧ waiting s1 = waiting s ∧ stream_done s1 = stream_done s) by done.
  clearbody s1. destruct Hs1 as (Hq1 & Hw1 & Hd1). split; cbn [fst snd].
  - split.
    + by rewrite Hq1, Hw1.
    + rewrite Hw1. exact (ok_nodup s Hok).
    + intros j. rewrite Hw1, Hc1, (ok_waiting s Hok j), (lookup_become _ _ _ _ _ Hc).
      destruct (decide (i = j)) as [->|]; [|done]. rewrite Hc. split; intros (c' & [= <-] & ?); done.
    + intros j c'. rewrite Hc1, Hd1, Hq1, (lookup_become _ _ _ _ _ Hc).
      assert (queue s = [] → q = []) as Hnil by (intros Hn; rewrite Hn in Hh; by apply app_nil in Hh as [_ ?]).
      destruct (decide (i = j)) as [->|]; [intros [= <-] [? ?]%Hover; auto|].
      intros Hj Ho. destruct (ok_over s Hok j c' Hj Ho). auto.
    + rewrite Hc1, Hd1, Hw1, length_insert. exact (ok_done s Hok).
  - by rewrite Hc1, length_insert.
  - rewrite Hq1, app_nil_r, <- Hh, <- list_fmap_compose. f_equal. apply list_fmap_id.
  - intros j. unfold got. rewrite Hc1, (lookup_become _ _ _ _ _ Hc).
    assert (handed_to j ((λ e, (i, e)) <$> handed) = if decide (i = j) then handed else []) as ->.
    { clear. unfold handed_to. induction handed as [|e handed IH]; cbn [fmap list_fmap]; [by destruct (decide _)|].
      rewrite filter_cons. cbn [fst]. destruct (decide (i = j)); [|done]. cbn. f_equal. exact IH. }
    destruct (decide (i = j)) as [->|]; [|by rewrite app_nil_r].
    rewrite Hc. cbn. rewrite <- app_assoc. exact Hr.
Qed.

(** A consumer that finds nothing waits. *)
Lemma wait_ok i c s :
  stream_ok s → consumers s !! i = Some c → c_phase c = Ready → queue s = [] → stream_done s = false →
  step_ok [] s (s <| waiting := waiting s ++ [i] |> <| consumers := <[i := MkConsumer Awaiting (received c)]> (consumers s) |>, []).
Proof.
  intros Hok Hc Hp Hq Hd.
  set (s1 := s <| waiting := waiting s ++ [i] |> <| consumers := <[i := MkConsumer Awaiting (received c)]> (consumers s) |>).
  assert (Hc1 : consumers s1 = <[i := MkConsumer Awaiting (received c)]> (consumers s)) by done.
  assert (Hs1 : queue s1 = queue s ∧ waiting s1 = waiting s ++ [i] ∧ stream_done s1 = stream_done s) by done.
  clearbody s1. destruct Hs1 as (Hq1 & Hw1 & Hd1). split; cbn [fst snd].
  - split.
    + left. by rewrite Hq1.
    + rewrite Hw1. apply NoDup_app. split; [exact (ok_nodup s Hok)|]. split; [|apply NoDup_singleton].
      intros j Hj ->%list_elem_of_singleton. apply (ok_waiting s Hok) in Hj as (c' & Hc' & Hp'). congruence.
    + intros j. rewrite Hw1, Hc1, elem_of_app, list_elem_of_singleton, (ok_waiting s Hok j), (lookup_become _ _ _ _ _ Hc).
      destruct (decide (i = j)) as [->|Hne]; [split; [by eauto|by right]|].
      split; [intros [?|?]; congruence || done|by left].
    + intros j c'. rewrite Hc1, Hd1, Hq1, (lookup_become _ _ _ _ _ Hc). destruct (decide (i = j)); [|exact (ok_over s Hok j c')].
      intros [= <-] [?|?]; done.
    + rewrite Hd1. congruence.
  - by rewrite Hc1, length_insert.
  - by rewrite Hq1, app_nil_r.
  - intros j. unfold got. rewrite Hc1, (lookup_become _ _ _ _ _ Hc), app_nil_r.
    destruct (decide (i = j)) as [->|]; [|done]. rewrite Hc. cbn. unfold in_flight. by rewrite Hp.
Qed.

Lemma advance_ok i s : stream_ok s → step_ok [] s (advance i s).
Proof.
  intros Hok. unfold advance. destruct (consumers s !! i) as [c|] eqn:Hc; [|by apply got_nothing].
  pose proof (ok_over s Hok i c Hc) as Hover. pose proof (ok_idle s Hok) as Hidle.
  destruct (c_phase c) eqn:Hp; [destruct (queue s) as [|e rest] eqn:Hq; [destruct (stream_done s) eqn:Hd|]| | | |].
  - apply (become_ok i c Returned (received c) (queue s) s []); rewrite ?Hp, ?Hq; try done.
    unfold in_flight. by rewrite Hp.
  - by apply wait_ok.
  - apply (become_ok i c Ready (received c ++ [e]) rest s [e]); rewrite ?Hp; try done.
    + destruct Hidle; [done|by right].
    + by intros [|].
    + unfold in_flight. rewrite Hp. by rewrite app_nil_r.
  - by apply got_nothing.
  - apply (become_ok i c Ready (received c ++ [event]) (queue s) s []); rewrite ?Hp; try done; [by intros [|]|].
    unfold in_flight. by rewrite Hp, app_nil_r.
  - apply (become_ok i c Returned (received c) (queue s) s []); rewrite ?Hp; try done.
    + intros _. apply Hover. by left.
    + unfold in_flight. by rewrite Hp.
  - by apply got_nothing.
Qed.

Lemma act_ok a s : stream_ok s → step_ok (news (stream_done s) a) s (act a s).
Proof.
  intros Hok. destruct a as [event|result|i]; cbn [act].
  - by apply push_ok.
  - unfold news. destruct (stream_done s); by apply end_ok.
  - unfold news. destruct (stream_done s); by apply advance_ok.
Qed.

(** ** Runs *)

Definition ends (a : action) : bool := match a with Push event => isComplete event | End _ => true | Advance _ => false end.

Lemma notify_fields ws s :
  stream_done (notify ws s) = stream_done s ∧ finalResult (notify ws s) = finalResult s.
Proof. revert s. induction ws as [|w ws IH]; intros s; cbn [notify]; [done|]. by destruct (IH (resume w Told_end (s <| waiting := ws |>))) as [-> ->]. Qed.

Lemma deliver_fields event s :
  stream_done (deliver event s).1 = stream_done s ∧ finalResult (deliver event s).1 = finalResult s.
Proof. unfold deliver. by destruct (waiting s). Qed.

Lemma act_done a s : stream_done (act a s).1 = stream_done s || ends a.
Proof.
  destruct a as [event|result|i]; cbn [act ends].
  - unfold push. destruct (stream_done s) eqn:Hd; [done|].
    destruct (isComplete event); [destruct (extractResult event)|]; cbn [fst]; rewrite ?(proj1 (deliver_fields _ _)); done.
  - unfold end_stream. cbn [fst]. rewrite (proj1 (notify_fields _ _)). destruct result; by rewrite orb_true_r.
  - unfold advance. rewrite orb_false_r. repeat case_match; done.
Qed.

Definition first_of (over : bool) (a : action) : option R := first_result over [a].

Lemma act_result a s :
  finalResult (act a s).1 = from_option Some (first_of (stream_done s) a) (finalResult s).
Proof.
  unfold first_of. destruct a as [event|result|i]; cbn [act first_result].
  - unfold push. destruct (stream_done s); cbn [negb andb fst]; [by destruct (finalResult s)|].
    destruct (isComplete event); [destruct (extractResult event)|]; cbn [fst]; rewrite ?(proj2 (deliver_fields _ _)); cbn;
      by destruct (finalResult s).
  - unfold end_stream. cbn [fst]. rewrite (proj2 (notify_fields _ _)). destruct result; cbn; by destruct (finalResult s).
  - unfold advance. destruct (finalResult s) eqn:Hf; repeat case_match; done.
Qed.

Lemma step_trans news1 news2 s r1 r2 :
  step_ok news1 s r1 → step_ok news2 r1.1 r2 → step_ok (news1 ++ news2) s (r2.1, r1.2 ++ r2.2).
Proof.
  intros H1 H2. split; cbn [fst snd].
  - apply H2.
  - by rewrite (step_consumers _ _ _ H2), (step_consumers _ _ _ H1).
  - by rewrite fmap_app, <- app_assoc, (step_events _ _ _ H2), app_assoc, (step_events _ _ _ H1), app_assoc.
  - intros i. by rewrite (step_got _ _ _ H2), (step_got _ _ _ H1), handed_to_app, app_assoc.
Qed.

Lemma run_cons a actions s : run (a :: actions) s = ((run actions (act a s).1).1, (act a s).2 ++ (run actions (act a s).1).2).
Proof. cbn. destruct (act a s) as [s1 h]. cbn. by destruct (run actions s1). Qed.

Lemma run_ok actions s :
  stream_ok s → step_ok (if stream_done s then [] else accepted actions) s (run actions s).
Proof.
  revert s. induction actions as [|a actions IH]; intros s Hok.
  - cbn. assert ((if stream_done s then [] else []) = ([] : list T)) as -> by by destruct (stream_done s). by apply got_nothing.
  - pose proof (act_ok a s Hok) as H1. pose proof (IH _ (step_inv _ _ _ H1)) as H2.
    rewrite run_cons. rewrite act_done in H2. pose proof (step_trans _ _ _ _ _ H1 H2) as H. revert H. unfold news.
    match goal with |- step_ok ?l _ _ → step_ok ?l' _ _ => assert (l = l') as ->; [|done] end.
    destruct (stream_done s); [done|]. destruct a as [event|result|i]; cbn; [|done..].
    destruct (isComplete event); [by destruct (extractResult event)|done].
Qed.

Lemma run_finalResult actions s :
  finalResult (run actions s).1 = from_option Some (first_result (stream_done s) actions) (finalResult s).
Proof.
  revert s. induction actions as [|a actions IH]; intros s; [by cbn; destruct (finalResult s)|].
  rewrite run_cons. cbn [fst]. rewrite IH, act_result, act_done. destruct (finalResult s); [done|]. cbn.
  destruct a as [event|[r|]|i]; cbn; rewrite ?orb_true_r, ?orb_false_r; try done.
  destruct (stream_done s); cbn; [done|].
  destruct (isComplete event); cbn; [by destruct (extractResult event)|done].
Qed.

Lemma run_done actions s : stream_done (run actions s).1 = stream_done s || existsb ends actions.
Proof.
  revert s. induction actions as [|a actions IH]; intros s; [by rewrite orb_false_r|].
  rewrite run_cons. cbn [fst existsb]. by rewrite IH, act_done, orb_assoc.
Qed.

(** Waiting consumers are only added while the stream is open. *)
Lemma run_no_waiting actions s :
  stream_ok s → stream_done s = true → waiting s = [] → waiting (run actions s).1 = [].
Proof.
  revert s. induction actions as [|a actions IH]; intros s Hok Hd Hw; [done|].
  rewrite run_cons. cbn [fst]. pose proof (act_ok a s Hok) as [Hok' _ _ _]. apply IH; [done|by rewrite act_done, Hd|].
  destruct a as [event|result|i]; cbn [act].
  - unfold push. by rewrite Hd.
  - by apply end_ok.
  - unfold advance. rewrite Hd. repeat case_match; done.
Qed.

(** ** The end of an iteration *)

Definition steps (i k : nat) (s : stream) : stream := (run (replicate k (Advance i)) s).1.

Lemma steps_S i k s : steps i (S k) s = steps i k (advance i s).1.
Proof. unfold steps. cbn [replicate]. by rewrite run_cons. Qed.

(** Consumer [i] has returned, with all of [l]. *)
Definition finished (i : nat) (l : list T) (s : stream) : Prop :=
  ∃ c, consumers s !! i = Some c ∧ c_phase c = Returned ∧ received c = l.

Lemma finished_stays i k l s : finished i l s → finished i l (steps i k s).
Proof.
  revert s. induction k as [|k IH]; intros s Hf; [done|]. rewrite steps_S. apply IH.
  destruct Hf as (c & Hc & Hp & Hr). unfold advance. rewrite Hc, Hp. by exists c.
Qed.

Lemma ready_finishes i k s c :
  stream_done s = true → consumers s !! i = Some c → c_phase c = Ready → (length (queue s) < k)%nat →
  finished i (received c ++ queue s) (steps i k s).
Proof.
  revert s c. induction k as [|k IH]; intros s c Hd Hc Hp Hk; [lia|]. rewrite steps_S. unfold advance. rewrite Hc, Hp.
  destruct (queue s) as [|e rest] eqn:Hq.
  - rewrite Hd. apply finished_stays. eexists. split; [exact (list_lookup_insert_eq _ _ _ (lookup_lt_Some _ _ _ Hc))|].
    split; [done|]. by rewrite app_nil_r.
  - cbn [fst]. replace (received c ++ e :: rest) with ((received c ++ [e]) ++ rest) by by rewrite <- app_assoc.
    match goal with |- finished i _ (steps i k ?s1) =>
      apply (IH s1 (MkConsumer Ready (received c ++ [e]))); [done| |done|cbn in Hk |- *; lia] end.
    exact (list_lookup_insert_eq _ _ _ (lookup_lt_Some _ _ _ Hc)).
Qed.

(** Once the stream is over, a consumer that does not wait gets what is left and
    returns, in two steps more than there are events left. *)
Lemma consumer_finishes i s c :
  stream_ok s → stream_done s = true → consumers s !! i = Some c → c_phase c ≠ Awaiting →
  finished i (received c ++ in_flight c ++ queue s) (steps i (2 + length (queue s)) s).
Proof.
  intros Hok Hd Hc Hp. pose proof (ok_over s Hok i c Hc) as Hover. unfold in_flight. destruct (c_phase c) eqn:Hph; [|done| | |].
  - apply ready_finishes; [done..|lia].
  - cbn [Nat.add]. rewrite steps_S. unfold advance. rewrite Hc, Hph. cbn [fst].
    replace (received c ++ [event] ++ queue s) with ((received c ++ [event]) ++ queue s) by by rewrite <- app_assoc.
    match goal with |- finished i _ (steps i _ ?s1) =>
      apply (ready_finishes i _ s1 (MkConsumer Ready (received c ++ [event]))); [done| |done|cbn; lia] end.
    exact (list_lookup_insert_eq _ _ _ (lookup_lt_Some _ _ _ Hc)).
  - destruct Hover as [_ ->]; [by left|]. cbn [Nat.add length]. rewrite steps_S. unfold advance. rewrite Hc, Hph. cbn [fst].
    apply finished_stays. eexists. split; [exact (list_lookup_insert_eq _ _ _ (lookup_lt_Some _ _ _ Hc))|].
    split; [done|]. by rewrite !app_nil_r.
  - destruct Hover as [_ ->]; [by right|]. apply finished_stays. exists c. by rewrite !app_nil_r.
Qed.

Lemma new_stream_ok n : stream_ok (new_stream n).
Proof.
  assert (∀ i c, (replicate n (MkConsumer Ready []) : list (Consumer T)) !! i = Some c → c_phase c = Ready) as Hready.
  { intros i c [-> _]%lookup_replicate. done. }
  split; cbn; [by left|apply NoDup_nil_2| | |done].
  - intros i. split; [by intros ?%elem_of_nil|]. intros (c & Hc%Hready & Hp). congruence.
  - intros i c Hc%Hready [?|?]; congruence.
Qed.

Lemma ended_no_waiting actions s r : stream_ok s → End r ∈ actions → waiting (run actions s).1 = [].
Proof.
  revert s. induction actions as [|a actions IH]; intros s Hok Hin; [by apply elem_of_nil in Hin|].
  pose proof (act_ok a s Hok) as [Hok' _ _ _]. rewrite run_cons. cbn [fst].
  apply elem_of_cons in Hin as [<-|Hin]; [|by apply IH].
  apply run_no_waiting; [done|by rewrite act_done, orb_true_r|by apply end_ok].
Qed.

(** Everything goes to the only consumer. *)
Lemma handed_to_only (handed : list (nat * T)) :
  (∀ i, (1 ≤ i)%nat → handed_to i handed = []) → handed_to 0 handed = handed.*2.
Proof.
  induction handed as [|[w e] handed IH]; [done|]. intros Hall. unfold handed_to in *.
  assert (w = 0%nat) as ->.
  { destruct w as [|w]; [done|]. specialize (Hall (S w) ltac:(lia)). by rewrite filter_cons_True in Hall. }
  rewrite filter_cons_True by done. cbn. f_equal. apply IH. intros i Hi. specialize (Hall i Hi).
  by rewrite filter_cons_False in Hall by (cbn; lia).
Qed.

(** What a run leaves behind, from a new stream. *)
Lemma new_run_ok n actions : step_ok (accepted actions) (new_stream n) (run actions (new_stream n)).
Proof. exact (run_ok actions _ (new_stream_ok n)). Qed.

Lemma new_run_received n actions i c :
  consumers (run actions (new_stream n)).1 !! i = Some c →
  received c ++ in_flight c = handed_to i (run actions (new_stream n)).2.
Proof.
  intros Hc. pose proof (step_got _ _ _ (new_run_ok n actions) i) as Hgot. unfold got at 1 in Hgot. rewrite Hc in Hgot.
  cbn in Hgot. rewrite Hgot. unfold got. destruct (consumers (new_stream n) !! i) as [c'|] eqn:Hi; [|done].
  apply lookup_replicate in Hi as [-> _]. done.
Qed.

Lemma new_run_finishes n actions i :
  let r := run actions (new_stream n) in
  stream_done r.1 = true → (i < n)%nat → i ∉ waiting r.1 →
  finished i (handed_to i r.2 ++ queue r.1) (steps i (2 + length (queue r.1)) r.1).
Proof.
  intros r Hd Hi Hw. destruct (new_run_ok n actions) as [Hok Hlen _ _]. fold r in Hok, Hlen. cbn in Hlen.
  rewrite length_replicate in Hlen. destruct (lookup_lt_is_Some_2 (consumers r.1) i) as [c Hc]; [lia|].
  pose proof (new_run_received n actions i c Hc) as Hrec. fold r in Hrec.
  rewrite <- Hrec, <- app_assoc. apply consumer_finishes; [done..|].
  intros Hp. apply Hw, (ok_waiting _ Hok). eauto.
Qed.

(** A single consumer does not wait on a stream that is over. *)
Lemma only_consumer_finishes actions :
  let s := (run actions (new_stream 1)).1 in
  extracts → stream_done s = true → finished 0 (accepted actions) (steps 0 (2 + length (queue s)) s).
Proof.
  intros s Hex Hd. destruct (new_run_ok 1 actions) as [Hok Hlen Hev Hgot]. fold s in Hok, Hlen, Hev, Hgot. cbn in Hev.
  rewrite <- Hev, <- handed_to_only.
  - apply new_run_finishes; [done|lia|]. fold s. destruct (ok_done s Hok Hex Hd) as [->|Hl]; [apply not_elem_of_nil|].
    rewrite Hlen in Hl. destruct (waiting s); [apply not_elem_of_nil|]. cbn in Hl. lia.
  - intros i Hi. specialize (Hgot i). unfold got in Hgot.
    rewrite (lookup_ge_None_2 (consumers s)), (lookup_ge_None_2 (consumers (new_stream 1))) in Hgot by (rewrite ?Hlen; cbn; lia).
    done.
Qed.

(** C40: for a stream whose [extractResult] does not throw on a completing event, as those
    of the program do not, and however its producer and [n] consumers interleave: every
    event pushed before the stream ended (the completing one included) is handed to exactly
    one consumer, in the order of the pushes; what a consumer has received is what it was
    handed, in that order, but for the event it is about to be resumed with; nobody
    waits while events are queued; the result is that of the completing event, or else
    the first given to [end].  Once [end] was called nobody waits.  Once the stream
    is over, a consumer that does not wait receives what is left if it goes on alone and
    returns, and the only consumer of a stream, waiting or not, returns with all the
    events.  (A second consumer that waits when the completing event is pushed waits until
    [end] is called: [second_consumer_waits].) *)
Theorem eventStream_delivers n actions :
  extracts →
  let (s, handed) := run actions (new_stream n) in
  let events := accepted actions in
  handed.*2 ++ queue s = events
  ∧ (∀ i c, consumers s !! i = Some c → received c ++ in_flight c = handed_to i handed)
  ∧ (queue s = [] ∨ waiting s = [])
  ∧ finalResult s = first_result false actions
  ∧ ((∃ r, End r ∈ actions) → stream_done s = true ∧ waiting s = [])
  ∧ (stream_done s = true → ∀ i, (i < n)%nat → i ∉ waiting s →
       finished i (handed_to i handed ++ queue s) (steps i (2 + length (queue s)) s))
  ∧ (stream_done s = true → n = 1%nat → finished 0 events (steps 0 (2 + length (queue s)) s)).
Proof.
  intros Hex. destruct (new_run_ok n actions) as [Hok _ Hev _].
  pose proof (run_finalResult actions (new_stream n)) as Hres. pose proof (run_done actions (new_stream n)) as Hdone.
  pose proof (λ r, ended_no_waiting actions (new_stream n) r (new_stream_ok n)) as Hend.
  pose proof (new_run_received n actions) as Hrec. pose proof (new_run_finishes n actions) as Hfin.
  pose proof (only_consumer_finishes actions) as Honly. destruct (run actions (new_stream n)) as [s handed] eqn:Hr.
  cbn [fst snd] in *. split_and!; try done.
  - apply Hok.
  - intros [r Hin]. split; [|by eapply Hend]. rewrite Hdone. apply existsb_exists. exists (End r).
    by rewrite <- list_elem_of_In.
  - auto.
  - intros Hd ->. rewrite Hr in Honly. by apply Honly.
Qed.
End Stream.
Arguments Push {T R}.
Arguments End {T R}.
Arguments Advance {T R}.

(** ** The streams of the program *)

(** [AssistantMessageEvent], as far as its stream looks into it. *)
Inductive AssistantMessageEvent :=
| event_update (partial : AssistantMessage)
| event_done (message : AssistantMessage)
| event_error (error : AssistantMessage).

(** The constructor arguments of [AssistantMessageEventStream]. *)
Definition assistant_complete (event : AssistantMessageEvent) : bool :=
  match event with event_update _ => false | _ => true end.
Definition assistant_result (event : AssistantMessageEvent) : option AssistantMessage :=
  match event with event_update _ => None | event_done message => Some message | event_error error => Some error end.

Lemma assistant_extracts : extracts assistant_complete assistant_result.
Proof. by intros []. Qed.

(** [createAgentStream] of [agent-loop.ts]. *)
Definition agent_complete (event : AgentEvent) : bool := match event with agent_end _ => true | _ => false end.
Definition agent_result (event : AgentEvent) : option (list AgentMessage) :=
  match event with agent_end messages => Some messages | _ => Some [] end.

Lemma agent_extracts : extracts agent_complete agent_result.
Proof. by intros []. Qed.

(** The producer of the stream that [agentLoop] returns: the loop pushes its events,
    and its messages end the stream. *)
Definition agent_producer (events : list AgentEvent) (messages : list AgentMessage)
    : list (action (T := AgentEvent) (R := list AgentMessage)) :=
  (Push <$> events) ++ [End (Some messages)].

Definition is_advance {T R} (a : action (T := T) (R := R)) : bool := match a with Advance _ => true | _ => false end.

Lemma protocol_pushes es p :
  run_protocol p es = Some Done → p ≠ Done →
  ∃ es' messages, es = es' ++ [agent_end messages] ∧ Forall (λ e, agent_complete e = false) es'.
Proof.
  revert p. induction es as [|e es IH]; intros p Hrun Hp; cbn in Hrun; [congruence|].
  destruct (accept p e) as [p'|] eqn:Ha; [|done]. cbn in Hrun.
  destruct (agent_complete e) eqn:He.
  - destruct e; try done. destruct p as [| |[]| |]; try done. cbn in Ha. injection Ha as <-.
    destruct es as [|e es]; [by exists [], messages; split; [|apply Forall_nil_2]|]. by destruct e.
  - assert (p' ≠ Done) as Hp'.
    { intros ->. destruct p, e; cbn in Ha; repeat case_match; done. }
    destruct (IH p' Hrun Hp') as (es' & messages & -> & Hall).
    exists (e :: es'), messages. split; [done|]. by apply Forall_cons.
Qed.

(** What the stream of a run delivers: the producer's actions come in their order,
    the consumer's in between. *)
Lemma agent_stream_events es messages actions :
  run_protocol Idle es = Some Done → last es = Some (agent_end messages) →
  filter (λ a, is_advance a = false) actions = agent_producer es messages →
  accepted agent_complete agent_result actions = es
  ∧ first_result agent_complete agent_result false actions = Some messages
  ∧ End (Some messages) ∈ actions.
Proof.
  intros Hrun Hlast. apply protocol_pushes in Hrun as (es' & ms & -> & Hall); [|done].
  rewrite last_snoc in Hlast. injection Hlast as ->. unfold agent_producer. rewrite fmap_app, <- app_assoc.
  revert es' Hall. induction actions as [|a actions IH]; intros es' Hall Hf.
  { by destruct es'. }
  rewrite filter_cons in Hf. destruct a as [e|r|i]; cbn [is_advance] in Hf.
  - rewrite decide_True in Hf by done. destruct es' as [|e' es'].
    + injection Hf as -> Hf. cbn. split_and!; [done..|]. right.
      assert (End (Some messages) ∈ filter (λ a, is_advance a = false) actions) as Hin by (rewrite Hf; apply list_elem_of_here).
      by apply list_elem_of_filter in Hin as [_ Hin].
    + apply Forall_cons in Hall as [He Hall]. injection Hf as -> Hf. cbn. rewrite He. cbn.
      destruct (IH es' Hall Hf) as (-> & -> & Hin). split_and!; [done..|by right].
  - rewrite decide_True in Hf by done. by destruct es'.
  - rewrite decide_False in Hf by done. cbn [accepted first_result]. destruct (IH es' Hall Hf) as (-> & -> & Hin). split_and!; [done..|by right].
Qed.

(** A run of the loop through its stream: the consumer that iterates over it, however
    it is interleaved with the loop, returns with the events of the run. *)
Lemma agentLoop_stream {W} (env : Environment W) fuel prompts c config s messages s' :
  stream_protocol env →
  runAgentLoop env fuel prompts c config s = (Some messages, s') →
  ∃ es, trace s' = trace s ++ es ∧
    ∀ actions, filter (λ a, is_advance a = false) actions = agent_producer es messages →
      let st := (run agent_complete agent_result actions (new_stream 1)).1 in
      finalResult st = Some messages
      ∧ finished 0 es (steps agent_complete agent_result 0 (2 + length (queue st)) st).
Proof.
  intros Hstream Hrun. destruct (runAgentLoop_spec env fuel prompts c config Hstream s)
    as (es & Htr & (q & ms & (Hp & _) & Hr) & _).
  rewrite Hrun in *. cbn in Hr. destruct Hr as (-> & Hlast & _). exists es. split; [done|]. intros actions Hf.
  destruct (agent_stream_events es messages actions Hp Hlast Hf) as (Hacc & Hres & Hin). split.
  - rewrite run_finalResult. exact Hres.
  - rewrite <- Hacc. apply only_consumer_finishes; [exact agent_extracts|]. rewrite run_done.
    apply existsb_exists. exists (End (Some messages)). by rewrite <- list_elem_of_In.
Qed.

(** ** A stream with two consumers *)

Definition demo_actions : list (action (T := AssistantMessageEvent) (R := AssistantMessage)) :=
  [Advance 0; Advance 1; Push (event_update demo_stopping); Advance 0; Push (event_done demo_stopping);
   Push (event_update demo_stopping); Advance 0; End None; Advance 1].

Lemma eventStream_delivers_witness :
  extracts assistant_complete assistant_result
  ∧ let (s, handed) := run assistant_complete assistant_result demo_actions (new_stream 2) in
    handed = [(0%nat, event_update demo_stopping); (1%nat, event_done demo_stopping)]
    ∧ handed.*2 ++ queue s = accepted assistant_complete assistant_result demo_actions
    ∧ finalResult s = Some demo_stopping
    ∧ finished 0 [event_update demo_stopping]
        (steps assistant_complete assistant_result 0 (2 + length (queue s)) s).
Proof.
  split; [exact assistant_extracts|].
  pose proof (eventStream_delivers assistant_complete assistant_result 2 demo_actions assistant_extracts) as H.
  destruct (run assistant_complete assistant_result demo_actions (new_stream 2)) as [s handed] eqn:E.
  vm_compute in E. injection E as <- <-. destruct H as (H1 & _ & _ & H4 & _ & H6 & _).
  split; [reflexivity|]. split; [exact H1|]. split; [exact H4|].
  apply (H6 eq_refl 0%nat); [lia|]. apply not_elem_of_nil.
Defined.

(** Two consumers wait, the completing event is pushed and [end] is not called: the event
    goes to the first, and the second waits although the stream is over. *)
Example second_consumer_waits :
  let s := (run assistant_complete assistant_result
              [Advance 0; Advance 1; Push (event_done demo_stopping); Advance 0; Advance 0; Advance 1] (new_stream 2)).1 in
  (stream_done s, waiting s, c_phase <$> consumers s) = (true, [1%nat], [Returned; Awaiting]).
Proof. vm_compute. reflexivity. Qed.
