(* ===== verification/AgentLoopTracking.v ===== *)
(** * Following the world through the agent loop

    A relation between the world before and after a computation, and the events it
    emitted, holds of the whole loop when it holds of each call out of it.  The calls
    for queued messages are left to the client of this file, which gives them a
    meaning of their own. *)

From S2P Require Import Prelude JsNumber JsString SessionTypes Messages AgentLoop AgentLoopTheorems.

Lemma prefix_sublist {A} (l k : list A) : l `prefix_of` k → l `sublist_of` k.
Proof. intros [k' ->]. by apply sublist_inserts_r. Qed.

Section Tracking.
Context {W : Type} (env : Environment W).
Context (R : W → list AgentEvent → W → Prop) (good : AgentTool W → Prop).

Definition good_context (c : AgentContext W) : Prop := Forall good (default [] (tools c)).

(** The calls out of the loop respect [R]; tools are asked to when they are [good]. *)
Class Tracking : Prop := {
  tr_refl w : R w [] w;
  tr_trans w es w' es' w'' : R w es w' → R w' es' w'' → R w (es ++ es') w'';
  tr_emit e w : R w [e] (emit_event env e w);
  tr_now w : R w [] (now env w).2;
  tr_stream request w : R w [] (streamFunction env request w).2;
  tr_transform f ms w : transformContext env = Some f → R w [] (f ms w).2;
  tr_convert ms w : R w [] (env_convertToLlm env ms w).2;
  tr_key f provider w : getApiKey env = Some f → R w [] (f provider w).2;
  tr_before f x w : beforeToolCall env = Some f → R w [] (f x w).2;
  tr_after f x r b w : afterToolCall env = Some f → R w [] (f x r b w).2;
  tr_schedule w : R w [] (schedule env w).2;
  tr_execute tool i args w : good tool → R w [] (execute tool i args w).2;
  tr_prepare f x w : prepareNextTurn env = Some f → R w [] (f x w).2;
  tr_update f x w u c : prepareNextTurn env = Some f → (f x w).1 = Some u → update_context u = Some c → good_context c;
  tr_stop f x w : shouldStopAfterTurn env = Some f → R w [] (f x w).2 }.
Context `{!Tracking}.

(** Running [m] emits events [es], takes the world along [R] and returns what [Q]
    allows. *)
Definition tracked {A} (m : M W A) (Q : list AgentEvent → A → Prop) : Prop :=
  ∀ s, ∃ es, trace (m s).2 = trace s ++ es ∧ R (world s) es (world (m s).2) ∧ Q es (m s).1.

Lemma tracked_impl {A} (m : M W A) (Q Q' : list AgentEvent → A → Prop) :
  tracked m Q → (∀ es a, Q es a → Q' es a) → tracked m Q'.
Proof. intros Hm Hq s. destruct (Hm s) as (es & ? & ? & ?). exists es. auto. Qed.

Lemma tracked_ret {A} (a : A) (Q : list AgentEvent → A → Prop) : Q [] a → tracked (mret a) Q.
Proof. intros Hq s. exists []. cbn. rewrite app_nil_r. split_and!; [done|apply tr_refl|done]. Qed.

Lemma tracked_bind {A B} (m : M W A) (f : A → M W B) (Q : list AgentEvent → A → Prop) (Q' : list AgentEvent → B → Prop) :
  tracked m Q → (∀ es a, Q es a → tracked (f a) (λ es' b, Q' (es ++ es') b)) → tracked (m ≫= f) Q'.
Proof.
  intros Hm Hf s. destruct (Hm s) as (es & Htr & Hr & Hq). destruct (m s) as [a s1] eqn:E. cbn in *.
  destruct (Hf es a Hq s1) as (es' & Htr' & Hr' & Hq'). exists (es ++ es').
  unfold mbind, M_bind. rewrite E. rewrite Htr', Htr, app_assoc. split_and!; [done|by eapply tr_trans|done].
Qed.

Lemma tracked_call {A} (f : W → A * W) (Q : A → Prop) :
  (∀ w, R w [] (f w).2) → (∀ w, Q (f w).1) → tracked (call f) (λ es a, es = [] ∧ Q a).
Proof.
  intros Hf Hq s. exists []. unfold call. specialize (Hf (world s)). specialize (Hq (world s)).
  destruct (f (world s)) as [a w]. cbn in *. by rewrite app_nil_r.
Qed.

Lemma tracked_call_opt {A} (f : option (W → A * W)) d :
  (∀ g w, f = Some g → R w [] (g w).2) → tracked (call_opt f d) (λ es _, es = []).
Proof.
  intros Hf. destruct f as [g|]; cbn; [|by apply tracked_ret].
  eapply tracked_impl; [apply (tracked_call g (λ _, True)); [|done]; intros w; by apply Hf|]. by intros es a [-> _].
Qed.

Lemma tracked_emit e : tracked (emit env e) (λ es _, es = [e]).
Proof. intros s. exists [e]. split_and!; [done|apply tr_emit|done]. Qed.

Lemma tracked_aborted : tracked (aborted_now env) (λ es _, es = []).
Proof. intros s. exists []. cbn. rewrite app_nil_r. split_and!; [done|apply tr_refl|done]. Qed.

(** Sequencing when nothing is asked of the results. *)
Definition any {A} : list AgentEvent → A → Prop := λ _ _, True.

Lemma tracked_any {A} (m : M W A) Q : tracked m Q → tracked m any.
Proof. intros Hm. by eapply tracked_impl. Qed.

Lemma tracked_seq {A B} (m : M W A) (f : A → M W B) (Q : B → Prop) :
  tracked m any → (∀ a, tracked (f a) (λ _, Q)) → tracked (m ≫= f) (λ _, Q).
Proof. intros Hm Hf. eapply tracked_bind; [exact Hm|]. intros es a _. apply Hf. Qed.

Lemma tracked_keep {A B} (m : M W A) (f : A → M W B) (P : A → Prop) (Q : B → Prop) :
  tracked m (λ _, P) → (∀ a, P a → tracked (f a) (λ _, Q)) → tracked (m ≫= f) (λ _, Q).
Proof. intros Hm Hf. eapply tracked_bind; [exact Hm|]. intros es a Ha. by apply Hf. Qed.

Lemma tracked_call_any {A} (f : W → A * W) : (∀ w, R w [] (f w).2) → tracked (call f) any.
Proof. intros Hf. eapply tracked_any, (tracked_call f (λ _, True)); done. Qed.

Lemma tracked_forM {A} (f : A → M W unit) l : (∀ x, tracked (f x) any) → tracked (forM f l) any.
Proof.
  intros Hf. induction l as [|x l IH]; cbn [forM]; [by apply tracked_ret|].
  apply (tracked_seq _ _ (λ _, True)); [apply Hf|]. intros _. apply IH.
Qed.

(** ** Streaming *)

Lemma good_messages c (ms : list AgentMessage) : good_context c → good_context (c <| messages := ms |>).
Proof. done. Qed.

Lemma emit_message_tracked m : tracked (emit_message env m) any.
Proof. apply (tracked_seq _ _ (λ _, True)); [|intros []]; by eapply tracked_any, tracked_emit. Qed.

Lemma stream_events_tracked events added c :
  good_context c → tracked (stream_events env events added c) (λ _ r, good_context (snd r)).
Proof.
  revert added c. induction events as [|e events IH]; intros added c Hc; cbn [stream_events]; [by apply tracked_ret|].
  destruct e as [p|p|]; [| |by apply tracked_ret].
  - eapply tracked_seq; [by eapply tracked_any, tracked_emit|]. intros _. by apply IH.
  - destruct added; [|by apply IH]. eapply tracked_seq; [by eapply tracked_any, tracked_emit|]. intros _. by apply IH.
Qed.

Lemma streamAssistantResponse_tracked c config :
  good_context c → tracked (streamAssistantResponse env c config) (λ _ r, good_context (snd r)).
Proof.
  intros Hc. unfold streamAssistantResponse.
  apply tracked_seq.
  { eapply tracked_any, tracked_call_opt. intros g w. destruct (transformContext env) as [f|] eqn:E; [|done].
    cbn. intros [= <-]. by apply tr_transform. }
  intros transformed. apply tracked_seq; [apply tracked_call_any; intros w; apply tr_convert|]. intros llm.
  apply tracked_seq.
  { eapply tracked_any, tracked_call_opt. intros g w. destruct (getApiKey env) as [f|] eqn:E; [|done].
    cbn. intros [= <-]. by apply tr_key. }
  intros key. apply tracked_seq; [apply tracked_call_any; intros w; apply tr_stream|]. intros [events final].
  eapply tracked_keep; [by apply stream_events_tracked|]. intros [added c'] Hc'.
  apply tracked_seq.
  { destruct added; [by apply tracked_ret|by eapply tracked_any, tracked_emit]. }
  intros _. apply tracked_seq; [by eapply tracked_any, tracked_emit|]. intros _. apply tracked_ret. by destruct added.
Qed.

(** ** Tool calls *)

Lemma createToolResultMessage_tracked f : tracked (createToolResultMessage env f) any.
Proof.
  apply (tracked_seq _ _ (λ _, True)); [apply tracked_call_any; intros w; apply tr_now|]. intros t. by apply tracked_ret.
Qed.

Lemma emit_results_tracked fs : tracked (emit_results env fs) any.
Proof.
  induction fs as [|f fs IH]; cbn [emit_results]; [by apply tracked_ret|].
  apply (tracked_seq _ _ (λ _, True)); [apply createToolResultMessage_tracked|]. intros m.
  apply tracked_seq; [apply emit_message_tracked|]. intros _.
  apply tracked_seq; [exact IH|]. intros ms. by apply tracked_ret.
Qed.

Lemma failToolCalls_tracked ts : tracked (failToolCallsFromTruncatedMessage env ts) any.
Proof.
  apply (tracked_seq _ _ (λ _, True)); [|intros ms; by apply tracked_ret].
  induction ts as [|t ts IH]; cbn [failToolCalls]; [by apply tracked_ret|].
  apply (tracked_seq _ _ (λ _, True)); [by eapply tracked_any, tracked_emit|]. intros _.
  apply tracked_seq; [by eapply tracked_any, tracked_emit|]. intros _.
  apply tracked_seq; [apply createToolResultMessage_tracked|]. intros m.
  apply tracked_seq; [apply emit_message_tracked|]. intros _.
  apply tracked_seq; [exact IH|]. intros ms. by apply tracked_ret.
Qed.

Definition good_preparation (p : preparation (W := W)) : Prop :=
  match p with Immediate _ _ => True | Prepared p => good (prep_tool p) end.

Lemma find_tool_good c name tool : good_context c → find_tool c name = Some tool → good tool.
Proof. intros Hc [Hin _]%find_some. unfold good_context in Hc. rewrite Forall_forall in Hc. by apply Hc, list_elem_of_In. Qed.

Lemma prepareToolCall_tracked c m t :
  good_context c → tracked (prepareToolCall env c m t) (λ _, good_preparation).
Proof.
  intros Hc. unfold prepareToolCall. destruct (find_tool c (call_name t)) as [tool|] eqn:Ht; [|by apply tracked_ret].
  apply find_tool_good in Ht; [|done].
  destruct (_ ≫= _) as [args|message]; [|by apply tracked_ret].
  match goal with |- context [match beforeToolCall env with Some _ => _ | None => ?r end] => set (ready := r) end.
  assert (tracked ready (λ _, good_preparation)) as Hready.
  { apply tracked_seq; [by eapply tracked_any, tracked_aborted|]. intros []; by apply tracked_ret. }
  destruct (beforeToolCall env) as [hook|] eqn:Hb; [|exact Hready].
  apply tracked_seq; [apply tracked_call_any; intros w; by apply tr_before|].
  intros [decision|message]; [|by apply tracked_ret].
  apply tracked_seq; [by eapply tracked_any, tracked_aborted|]. intros []; [by apply tracked_ret|].
  destruct decision as [b|]; [|exact Hready]. destruct (flag (before_block b)); [by apply tracked_ret|exact Hready].
Qed.

Lemma finalizeExecutedToolCall_tracked c m p executed : tracked (finalizeExecutedToolCall env c m p executed) any.
Proof.
  unfold finalizeExecutedToolCall. destruct (afterToolCall env) as [hook|] eqn:Ha; [|by apply tracked_ret].
  apply (tracked_seq _ _ (λ _, True)); [apply tracked_call_any; intros w; by apply tr_after|]. intros after. by apply tracked_ret.
Qed.

Lemma executePreparedToolCall_tracked p : good (prep_tool p) → tracked (executePreparedToolCall env p) any.
Proof.
  intros Hp. apply (tracked_seq _ _ (λ _, True)); [apply tracked_call_any; intros w; by apply tr_execute|]. intros run.
  apply tracked_seq; [|intros _; by apply tracked_ret].
  apply tracked_forM. intros u. by eapply tracked_any, tracked_emit.
Qed.

Lemma run_tool_call_tracked c m t : good_context c → tracked (run_tool_call env c m t) any.
Proof.
  intros Hc. apply (tracked_keep _ _ good_preparation (λ _, True)); [by apply prepareToolCall_tracked|].
  intros [r b|p] Hp; [by apply tracked_ret|].
  apply tracked_seq; [by apply executePreparedToolCall_tracked|]. intros executed. apply finalizeExecutedToolCall_tracked.
Qed.

Lemma executeToolCallsSequential_tracked c m ts : good_context c → tracked (executeToolCallsSequential env c m ts) any.
Proof.
  intros Hc. apply (tracked_seq _ _ (λ _, True)); [|intros [fs ms]; by apply tracked_ret].
  induction ts as [|t ts IH]; cbn [sequential_calls]; [by apply tracked_ret|].
  apply (tracked_seq _ _ (λ _, True)); [by eapply tracked_any, tracked_emit|]. intros _.
  apply tracked_seq; [by apply run_tool_call_tracked|]. intros f.
  apply tracked_seq; [by eapply tracked_any, tracked_emit|]. intros _.
  apply tracked_seq; [apply createToolResultMessage_tracked|]. intros r.
  apply tracked_seq; [apply emit_message_tracked|]. intros _.
  apply tracked_seq; [by eapply tracked_any, tracked_aborted|]. intros []; [by apply tracked_ret|].
  apply tracked_seq; [exact IH|]. intros [fs ms]. by apply tracked_ret.
Qed.

Definition good_thread (th : thread (W := W)) : Prop :=
  match th with Ready p => good (prep_tool p) | _ => True end.

Lemma prepare_calls_tracked c m ts : good_context c → tracked (prepare_calls env c m ts) (λ _, Forall good_thread).
Proof.
  intros Hc. induction ts as [|t ts IH]; cbn [prepare_calls]; [by apply tracked_ret, Forall_nil_2|].
  apply tracked_seq; [by eapply tracked_any, tracked_emit|]. intros _.
  eapply tracked_keep; [by apply prepareToolCall_tracked|]. intros preparation Hp.
  apply (tracked_keep _ _ good_thread).
  { destruct preparation as [r b|p]; [|by apply tracked_ret].
    apply tracked_seq; [by eapply tracked_any, tracked_emit|]. intros _. by apply tracked_ret. }
  intros entry He. apply tracked_seq; [by eapply tracked_any, tracked_aborted|].
  intros []; [apply tracked_ret; by apply Forall_singleton|].
  eapply tracked_keep; [exact IH|]. intros entries Hes. apply tracked_ret. by apply Forall_cons.
Qed.

Lemma thread_step_tracked c m th : good_thread th → tracked (thread_step env c m th) (λ _, good_thread).
Proof.
  intros Hth. destruct th as [p|p [|u us] executed|f|f]; cbn [thread_step].
  - apply tracked_seq; [apply tracked_call_any; intros w; by apply tr_execute|]. intros run. by apply tracked_ret.
  - apply tracked_seq; [apply finalizeExecutedToolCall_tracked|]. intros f. by apply tracked_ret.
  - apply tracked_seq; [by eapply tracked_any, tracked_emit|]. intros _. by apply tracked_ret.
  - apply tracked_seq; [by eapply tracked_any, tracked_emit|]. intros _. by apply tracked_ret.
  - by apply tracked_ret.
Qed.

Lemma run_threads_tracked fuel c m threads : Forall good_thread threads → tracked (run_threads env fuel c m threads) any.
Proof.
  revert threads. induction fuel as [|fuel IH]; intros threads Hth; cbn [run_threads].
  { destruct (mapM finished threads); by apply tracked_ret. }
  destruct (mapM finished threads); [by apply tracked_ret|].
  apply (tracked_seq _ _ (λ _, True)); [apply tracked_call_any; intros w; apply tr_schedule|]. intros n.
  destruct (pick threads n) as [i|]; [|by apply tracked_ret].
  destruct (threads !! i) as [th|] eqn:Hi; [|by apply tracked_ret].
  apply (tracked_keep _ _ good_thread (λ _, True)).
  { apply thread_step_tracked. by eapply Forall_lookup_1 in Hth. }
  intros th' Hth'. apply IH. by apply Forall_insert.
Qed.

Lemma executeToolCalls_tracked fuel c m config : good_context c → tracked (executeToolCalls env fuel c m config) any.
Proof.
  intros Hc. unfold executeToolCalls. destruct (_ || _).
  - apply (tracked_seq _ _ (λ _, True)); [by apply executeToolCallsSequential_tracked|]. intros b. by apply tracked_ret.
  - apply (tracked_keep _ _ (Forall good_thread) (λ _, True)); [by apply prepare_calls_tracked|]. intros threads Hth.
    apply tracked_seq; [by apply run_threads_tracked|]. intros [fs|]; [|by apply tracked_ret].
    apply tracked_seq; [apply emit_results_tracked|]. intros ms. by apply tracked_ret.
Qed.

Lemma turn_tools_tracked fuel l m : good_context (currentContext l) → tracked (turn_tools env fuel l m) any.
Proof.
  intros Hc. unfold turn_tools. destruct (bool_decide (tool_calls m = [])); [by apply tracked_ret|].
  apply (tracked_seq _ _ (λ _, True)); [|intros executed; by apply tracked_ret].
  destruct (bool_decide _); [|by apply executeToolCalls_tracked].
  apply (tracked_seq _ _ (λ _, True)); [apply failToolCalls_tracked|]. intros b. by apply tracked_ret.
Qed.
End Tracking.

(** ** The loop, with its polls of the queues *)

Section Polling.
Context {W : Type} (env : Environment W).
(** [R w es ms w']: from [w] to [w'], emitting [es] and taking [ms] from the queues. *)
Context (R : W → list AgentEvent → list AgentMessage → W → Prop) (good : AgentTool W → Prop).

Class Polling : Prop := {
  po_quiet : Tracking env (λ w es w', R w es [] w') good;
  po_trans w es ms w' es' ms' w'' : R w es ms w' → R w' es' ms' w'' → R w (es ++ es') (ms ++ ms') w'';
  po_steering f w : getSteeringMessages env = Some f → R w [] (f w).1 (f w).2;
  po_followUp f w : getFollowUpMessages env = Some f → R w [] (f w).1 (f w).2 }.
Context `{!Polling}.
#[local] Instance quiet_tracking : Tracking env (λ w es w', R w es [] w') good := po_quiet.

Abbreviation quiet := (tracked (λ w es w', R w es [] w')).

(** As [tracked], with the messages taken from the queues. *)
Definition polled {A} (m : M W A) (Q : list AgentEvent → list AgentMessage → A → Prop) : Prop :=
  ∀ s, ∃ es ms, trace (m s).2 = trace s ++ es ∧ R (world s) es ms (world (m s).2) ∧ Q es ms (m s).1.

Lemma polled_impl {A} (m : M W A) (Q Q' : list AgentEvent → list AgentMessage → A → Prop) :
  polled m Q → (∀ es ms a, Q es ms a → Q' es ms a) → polled m Q'.
Proof. intros Hm Hq s. destruct (Hm s) as (es & ms & ? & ? & ?). exists es, ms. auto. Qed.

Lemma polled_quiet {A} (m : M W A) (Q : list AgentEvent → A → Prop) : quiet m Q → polled m (λ es ms a, ms = [] ∧ Q es a).
Proof. intros Hm s. destruct (Hm s) as (es & ? & ? & ?). exists es, []. done. Qed.

Lemma polled_bind {A B} (m : M W A) (f : A → M W B) (Q : list AgentEvent → list AgentMessage → A → Prop)
    (Q' : list AgentEvent → list AgentMessage → B → Prop) :
  polled m Q → (∀ es ms a, Q es ms a → polled (f a) (λ es' ms' b, Q' (es ++ es') (ms ++ ms') b)) → polled (m ≫= f) Q'.
Proof.
  intros Hm Hf s. destruct (Hm s) as (es & ms & Htr & Hr & Hq). destruct (m s) as [a s1] eqn:E. cbn in *.
  destruct (Hf es ms a Hq s1) as (es' & ms' & Htr' & Hr' & Hq'). exists (es ++ es'), (ms ++ ms').
  unfold mbind, M_bind. rewrite E. rewrite Htr', Htr, app_assoc. split_and!; [done|by eapply po_trans|done].
Qed.

Lemma polled_ret {A} (a : A) (Q : list AgentEvent → list AgentMessage → A → Prop) : Q [] [] a → polled (mret a) Q.
Proof. intros Hq s. exists [], []. cbn. rewrite app_nil_r. split_and!; [done|exact (tr_refl env _ good _)|done]. Qed.

(** A quiet computation followed by one that polls. *)
Lemma polled_after {A B} (m : M W A) (f : A → M W B) (Q : list AgentEvent → A → Prop)
    (Q' : list AgentEvent → list AgentMessage → B → Prop) :
  quiet m Q → (∀ es a, Q es a → polled (f a) (λ es' ms b, Q' (es ++ es') ms b)) → polled (m ≫= f) Q'.
Proof. intros Hm Hf. eapply polled_bind; [by apply polled_quiet|]. intros es ms a [-> Ha]. by apply Hf. Qed.

Lemma polled_poll f :
  (∀ g w, f = Some g → R w [] (g w).1 (g w).2) → polled (call_opt f []) (λ es ms r, es = [] ∧ ms = r).
Proof.
  intros Hf s. destruct f as [g|]; cbn.
  - exists [], (g (world s)).1. unfold call. specialize (Hf g (world s) eq_refl). destruct (g (world s)). cbn in *.
    by rewrite app_nil_r.
  - exists [], []. rewrite app_nil_r. split_and!; [done|exact (tr_refl env _ good _)|done|done].
Qed.

Lemma emit_messages_quiet ms : quiet (forM (emit_message env) ms) (λ es _, ended es = ms).
Proof.
  induction ms as [|m ms IH]; cbn [forM]; [by eapply (tracked_ret env _ good)|].
  eapply (tracked_bind env _ good).
  - eapply (tracked_bind env _ good); [eapply (tracked_emit env _ good)|]. intros es [] ->.
    eapply tracked_impl; [eapply (tracked_emit env _ good)|]. intros es [] ->.
    instantiate (1 := λ es _, ended es = [m]). done.
  - intros es [] Hes. eapply tracked_impl; [exact IH|]. intros es' [] Hes'. by rewrite ended_app, Hes, Hes'.
Qed.

Lemma inject_pending_quiet l :
  quiet (inject_pending env l) (λ es l', ended es = pendingMessages l
    ∧ l' = (add_messages l (pendingMessages l)) <| pendingMessages := [] |>).
Proof.
  eapply (tracked_bind env _ good); [apply emit_messages_quiet|]. intros es [] Hes. eapply (tracked_ret env _ good).
  by rewrite app_nil_r.
Qed.

(** What a turn leaves pending is what it polled; what was pending it has injected. *)
Definition turn_post (l : loop_state (W := W)) (es : list AgentEvent) (ms : list AgentMessage) (r : option (turn_outcome (W := W))) : Prop :=
  pendingMessages l `prefix_of` ended es
  ∧ match r with
    | Some (GoesOn _ l') => good_context good (currentContext l') ∧ ms = pendingMessages l'
    | _ => ms = []
    end.

Lemma prefix_ended ms es es' : ms `prefix_of` ended es → ms `prefix_of` ended (es ++ es').
Proof. intros [k Hk]. rewrite ended_app, Hk, <- app_assoc. by eexists. Qed.

Lemma turn_polled fuel l : good_context good (currentContext l) → polled (turn env fuel l) (turn_post l).
Proof.
  intros Hc. unfold turn, turn_post. eapply polled_after.
  { instantiate (1 := λ es _, ended es = []). destruct (firstTurn l); [by eapply (tracked_ret env _ good)|].
    eapply tracked_impl; [eapply (tracked_emit env _ good)|]. by intros es [] ->. }
  intros es0 [] H0. eapply polled_after; [eapply inject_pending_quiet|]. intros es1 l1 [Hes1 ->].
  assert (pendingMessages l `prefix_of` ended (es0 ++ es1)) as Hpre by (rewrite ended_app, H0, Hes1; by exists []; rewrite app_nil_r).
  eapply (polled_impl _ (λ _ ms r, match r with
    | Some (GoesOn _ l') => good_context good (currentContext l') ∧ ms = pendingMessages l' | _ => ms = [] end));
    [|intros es ms a Hy; split; [rewrite app_assoc; apply prefix_ended, Hpre|exact Hy]].
  eapply polled_after; [by eapply (streamAssistantResponse_tracked env _ good)|]. intros es2 [message c] Hc2. cbn [snd] in Hc2.
  destruct (bool_decide _).
  { eapply polled_impl; [apply polled_quiet|].
    - eapply (tracked_seq env _ good _ _ (λ r, ∃ ms, r = Some (Ended ms))); [by eapply tracked_any, (tracked_emit env _ good)|]. intros _.
      eapply (tracked_seq env _ good); [by eapply tracked_any, (tracked_emit env _ good)|]. intros _. eapply (tracked_ret env _ good). eauto.
    - intros es ms r [-> (? & ->)]. done. }
  eapply polled_after; [by eapply (turn_tools_tracked env _ good)|]. intros es3 [[results more]|] _.
  2: { eapply polled_impl; [apply polled_quiet; by eapply (tracked_ret env _ good _ (λ _ r, r = None))|]. by intros es ms r [-> ->]. }
  eapply polled_after; [eapply tracked_any, (tracked_emit env _ good)|]. intros es4 [] _.
  eapply polled_after.
  { instantiate (1 := λ _ r, ∀ u c', r = Some u → update_context u = Some c' → good_context good c').
    intros s. destruct (prepareNextTurn env) as [f|] eqn:Hf; cbn.
    - exists []. unfold call. match goal with |- context [f ?x (world s)] => pose proof (tr_prepare env _ good f x (world s) Hf) as Hr;
        pose proof (λ u c', tr_update env _ good f x (world s) u c' Hf) as Hu; destruct (f x (world s)) end.
      cbn in *. by rewrite app_nil_r.
    - exists []. rewrite app_nil_r. split_and!; [done|exact (tr_refl env _ good _)|done]. }
  intros es5 snapshot Hsnap.
  match goal with |- context [match snapshot with Some u => update_turn ?a u | None => ?a end] =>
    set (l3 := match snapshot with Some u => update_turn a u | None => a end) end.
  assert (good_context good (currentContext l3)) as Hc3.
  { subst l3. destruct snapshot as [u|]; [|exact Hc2]. cbn. destruct (update_context u) eqn:Hu; [by eapply Hsnap|exact Hc2]. }
  eapply polled_after.
  { eapply tracked_any, (tracked_call_opt env _ good). intros g w. destruct (shouldStopAfterTurn env) as [f|] eqn:Hf; [|done].
    cbn. intros [= <-]. exact (tr_stop env _ good f _ w Hf). }
  intros es6 [] _.
  { eapply polled_impl; [apply polled_quiet|].
    - eapply (tracked_seq env _ good _ _ (λ r, ∃ ms, r = Some (Ended ms))); [by eapply tracked_any, (tracked_emit env _ good)|]. intros _.
      eapply (tracked_ret env _ good). eauto.
    - intros es ms r [-> (? & ->)]. done. }
  eapply polled_bind; [apply polled_poll; intros g w; apply po_steering|]. intros es7 ms steering [-> ->].
  apply polled_ret. by rewrite app_nil_r.
Qed.

(** Both loops: what was pending and what was polled has been injected when the run
    returns, in that order. *)
Lemma run_loop_polled fuel more l :
  good_context good (currentContext l) →
  polled (run_loop env fuel more l) (λ es ms r, is_Some r → pendingMessages l ++ ms `sublist_of` ended es).
Proof.
  revert more l. induction fuel as [|fuel IH]; intros more l Hc; cbn [run_loop]; [apply polled_ret; by intros [? ?]|].
  destruct (more || _) eqn:Hgo.
  - eapply polled_bind; [by apply turn_polled|]. intros es ms [[all|more' l']|] [Hpre Hout].
    + apply polled_ret. intros _. rewrite Hout, !app_nil_r. by apply prefix_sublist.
    + destruct Hout as [Hc' ->]. eapply polled_impl; [by apply IH|]. intros es' ms' r Hr Hs. rewrite ended_app.
      apply sublist_app; [by apply prefix_sublist|by apply Hr].
    + apply polled_ret. by intros [? ?].
  - apply orb_false_iff in Hgo as [_ Hp]. apply negb_false_iff, bool_decide_eq_true in Hp. rewrite Hp.
    eapply polled_bind; [apply polled_poll; intros g w; apply po_followUp|]. intros es ms followUp [-> ->].
    destruct (bool_decide_reflect (followUp = [])) as [->|Hne].
    + eapply polled_bind; [apply polled_quiet; eapply (tracked_emit env _ good)|]. intros es' ms' [] [-> ->].
      apply polled_ret. intros _. apply sublist_nil_l.
    + match goal with |- polled (run_loop _ _ _ ?l1) _ => eapply polled_impl; [exact (IH true l1 Hc)|] end. intros es' ms' r Hr Hs.
      cbn [app]. exact (Hr Hs).
Qed.

Lemma runLoop_polled fuel c new config :
  good_context good c →
  polled (runLoop env fuel c new config) (λ es ms r, is_Some r → ms `sublist_of` ended es).
Proof.
  intros Hc. unfold runLoop.
  eapply polled_bind; [apply polled_poll; intros g w; apply po_steering|]. intros es ms pending [-> ->].
  eapply polled_impl; [by apply run_loop_polled|]. intros es' ms' r Hr Hs. exact (Hr Hs).
Qed.

Lemma runAgentLoop_polled fuel prompts c config :
  good_context good c →
  polled (runAgentLoop env fuel prompts c config) (λ es ms r, is_Some r → prompts ++ ms `sublist_of` ended es).
Proof.
  intros Hc. unfold runAgentLoop.
  eapply polled_after; [eapply (tracked_emit env _ good)|]. intros es0 [] ->.
  eapply polled_after; [eapply (tracked_emit env _ good)|]. intros es1 [] ->.
  eapply polled_after; [apply emit_messages_quiet|]. intros es2 [] H2.
  eapply polled_impl; [by apply runLoop_polled|]. intros es' ms r Hr Hs. cbn. rewrite ended_app, H2.
  apply sublist_app; [done|by apply Hr].
Qed.

Lemma runAgentLoopContinue_polled fuel c config m :
  good_context good c → runAgentLoopContinue env fuel c config = Ok m →
  polled m (λ es ms r, is_Some r → ms `sublist_of` ended es).
Proof.
  intros Hc. unfold runAgentLoopContinue. destruct (check_continue c) as [[]|e]; cbn; [|done]. intros [= <-].
  eapply polled_after; [eapply (tracked_emit env _ good)|]. intros es0 [] ->.
  eapply polled_after; [eapply (tracked_emit env _ good)|]. intros es1 [] ->.
  eapply polled_impl; [by apply runLoop_polled|]. intros es' ms r Hr Hs. exact (Hr Hs).
Qed.
End Polling.
