(* ===== verification/Agent.v ===== *)
(** * The stateful agent

    The [Agent] class of [packages/agent/src/agent.ts]: the transcript and the run
    state that a loop's events are reduced into, the two queues of messages a client
    hands over while a run is active, and the life cycle of a run.

    Everything a run calls (listeners, provider stream, tools, hooks) belongs to a
    host with a state of its own.  While it runs, such a call may use the agent: the
    [client_action]s it performs are part of its result.  The world of the loop is
    the agent with the host, and a history of what was done: the actions performed,
    the events delivered. *)

From S2P Require Import Prelude JsNumber JsString SessionTypes Messages AgentLoop.

(** ** Queues *)

Inductive QueueMode := queue_all | one_at_a_time.

Record PendingMessageQueue := MkPendingQueue { queued : list AgentMessage; mode : QueueMode }.
#[export] Instance PendingMessageQueue_eta : Eta PendingMessageQueue := λ q, MkPendingQueue (queued q) (mode q).

Definition enqueue (m : AgentMessage) (q : PendingMessageQueue) : PendingMessageQueue := q <| queued := queued q ++ [m] |>.
Definition hasItems (q : PendingMessageQueue) : bool := negb (bool_decide (queued q = [])).
Definition drain (q : PendingMessageQueue) : list AgentMessage * PendingMessageQueue :=
  match mode q with
  | queue_all => (queued q, q <| queued := [] |>)
  | one_at_a_time => match queued q with [] => ([], q) | first :: rest => ([first], q <| queued := rest |>) end
  end.
Definition clear (q : PendingMessageQueue) : PendingMessageQueue := q <| queued := [] |>.

(** What a client may do with the agent during a run. *)
Inductive client_action :=
| Steer (m : AgentMessage)
| FollowUp (m : AgentMessage)
| ClearSteeringQueue
| ClearFollowUpQueue
| SetSteeringMode (m : QueueMode)
| SetFollowUpMode (m : QueueMode)
| AbortRun.

(** A model, with the field [api] the loop does not look at. *)
Record AgentModel := MkAgentModel { loop_model : Model; model_api : jsstring }.

Definition DEFAULT_MODEL : AgentModel := MkAgentModel (MkModel (js "unknown") (js "unknown")) (js "unknown").
Definition EMPTY_USAGE : Usage := MkUsage 0 0 0 0 None None 0 0 0 0 0 0.

(** A call of the host: its result, what it did with the agent, the new state. *)
Abbreviation hosted H A := (H → A * list client_action * H)%type (only parsing).

Section Agent.
Context {H : Type}.

Record HostTool := MkHostTool {
  ht_name : jsstring; ht_executionMode : option ToolExecutionMode;
  ht_prepareArguments : option (JsonValue → result jsstring JsonValue);
  ht_execute : jsstring → JsonValue → hosted H (list AgentToolResult * result jsstring AgentToolResult) }.

(** The fields of [Agent] and of its state.  A listener is known by a number; an
    active run by whether its signal is aborted. *)
Record Agent := MkAgent {
  a_systemPrompt : jsstring; a_model : AgentModel; a_thinkingLevel : ThinkingLevel; a_tools : list HostTool;
  a_messages : list AgentMessage; isStreaming : bool; streamingMessage : option AgentMessage;
  pendingToolCalls : list jsstring; a_errorMessage : option jsstring;
  listeners : list nat; steeringQueue : PendingMessageQueue; followUpQueue : PendingMessageQueue;
  activeRun : option bool; a_toolExecution : ToolExecutionMode }.

#[export] Instance Agent_eta : Eta Agent := λ a,
  MkAgent (a_systemPrompt a) (a_model a) (a_thinkingLevel a) (a_tools a) (a_messages a) (isStreaming a)
    (streamingMessage a) (pendingToolCalls a) (a_errorMessage a) (listeners a) (steeringQueue a) (followUpQueue a)
    (activeRun a) (a_toolExecution a).

Record World := MkWorld {
  agent : Agent; host : H; skipInitialSteeringPoll : bool;
  performed : list client_action; delivered : list AgentEvent }.

#[export] Instance World_eta : Eta World := λ w,
  MkWorld (agent w) (host w) (skipInitialSteeringPoll w) (performed w) (delivered w).

(** The options of the constructor that its state depends on. *)
Record AgentOptions := MkAgentOptions {
  o_systemPrompt : option jsstring; o_model : option AgentModel; o_thinkingLevel : option ThinkingLevel;
  o_tools : option (list HostTool); o_messages : option (list AgentMessage);
  o_steeringMode : option QueueMode; o_followUpMode : option QueueMode; o_toolExecution : option ToolExecutionMode }.

Definition new_agent (o : AgentOptions) : Agent :=
  MkAgent (default [] (o_systemPrompt o)) (default DEFAULT_MODEL (o_model o)) (default th_off (o_thinkingLevel o))
    (default [] (o_tools o)) (default [] (o_messages o)) false None [] None []
    (MkPendingQueue [] (default one_at_a_time (o_steeringMode o)))
    (MkPendingQueue [] (default one_at_a_time (o_followUpMode o))) None (default parallel (o_toolExecution o)).

(** ** Client operations *)

Definition steer (m : AgentMessage) (a : Agent) : Agent := a <| steeringQueue := enqueue m (steeringQueue a) |>.
Definition followUp (m : AgentMessage) (a : Agent) : Agent := a <| followUpQueue := enqueue m (followUpQueue a) |>.
Definition clearSteeringQueue (a : Agent) : Agent := a <| steeringQueue := clear (steeringQueue a) |>.
Definition clearFollowUpQueue (a : Agent) : Agent := a <| followUpQueue := clear (followUpQueue a) |>.
Definition clearAllQueues (a : Agent) : Agent := clearFollowUpQueue (clearSteeringQueue a).
Definition hasQueuedMessages (a : Agent) : bool := hasItems (steeringQueue a) || hasItems (followUpQueue a).
Definition abort (a : Agent) : Agent := a <| activeRun := (λ _, true) <$> activeRun a |>.
Definition subscribe (i : nat) (a : Agent) : Agent :=
  if decide (i ∈ listeners a) then a else a <| listeners := listeners a ++ [i] |>.
Definition unsubscribe (i : nat) (a : Agent) : Agent := a <| listeners := filter (λ j, j ≠ i) (listeners a) |>.

Definition client_act (act : client_action) (a : Agent) : Agent :=
  match act with
  | Steer m => steer m a
  | FollowUp m => followUp m a
  | ClearSteeringQueue => clearSteeringQueue a
  | ClearFollowUpQueue => clearFollowUpQueue a
  | SetSteeringMode m => a <| steeringQueue := (steeringQueue a) <| mode := m |> |>
  | SetFollowUpMode m => a <| followUpQueue := (followUpQueue a) <| mode := m |> |>
  | AbortRun => abort a
  end.

Definition perform (acts : list client_action) (w : World) : World :=
  w <| agent := foldl (λ a act, client_act act a) (agent w) acts |> <| performed := performed w ++ acts |>.

(** A call of the host in the world. *)
Definition call_host {A} (f : hosted H A) (w : World) : A * World :=
  let '(a, acts, h) := f (host w) in (a, perform acts (w <| host := h |>)).

(** ** The host *)

Record HostTurnUpdate := MkHostTurnUpdate {
  hu_context : option (jsstring * list AgentMessage * option (list HostTool));
  hu_model : option Model; hu_thinkingLevel : option ThinkingLevel }.

Record Host := MkHost {
  h_listener : nat → AgentEvent → bool → hosted H unit;
  h_now : H → Z * H;
  h_stream : Request World → hosted H (list StreamEvent * AssistantMessage);
  h_transformContext : option (list AgentMessage → hosted H (list AgentMessage));
  h_convertToLlm : option (list AgentMessage → hosted H (list Message));
  h_getApiKey : option (jsstring → hosted H (option jsstring));
  h_prepareNextTurnWithContext : option (TurnContext World → hosted H (option HostTurnUpdate));
  h_prepareNextTurn : option (hosted H (option HostTurnUpdate));
  h_shouldStopAfterTurn : option (TurnContext World → hosted H bool);
  h_validateToolArguments : AgentTool World → ToolCall → result jsstring JsonValue;
  h_beforeToolCall : option (ToolCallContext World → hosted H (result jsstring (option BeforeToolCallResult)));
  h_afterToolCall : option (ToolCallContext World → AgentToolResult → bool → hosted H (result jsstring (option AfterToolCallResult)));
  h_schedule : H → nat * H }.

Context (hst : Host).

Definition lift_tool (t : HostTool) : AgentTool World :=
  MkTool (ht_name t) (ht_executionMode t) (ht_prepareArguments t) (λ id args, call_host (ht_execute t id args)).

Definition lift_update (u : HostTurnUpdate) : TurnUpdate World :=
  MkTurnUpdate (W := World)
    match hu_context u with
    | Some (prompt, ms, ts) => Some (MkAgentContext prompt ms match ts with Some ts => Some (lift_tool <$> ts) | None => None end)
    | None => None
    end (hu_model u) (hu_thinkingLevel u).

(** ** Events *)

(** The [switch] of [processEvents]. *)
Definition reduce_event (event : AgentEvent) (a : Agent) : Agent :=
  match event with
  | message_start m => a <| streamingMessage := Some m |>
  | message_update m _ => a <| streamingMessage := Some m |>
  | message_end m => a <| streamingMessage := None |> <| a_messages := a_messages a ++ [m] |>
  | tool_execution_start id _ _ =>
      if decide (id ∈ pendingToolCalls a) then a else a <| pendingToolCalls := pendingToolCalls a ++ [id] |>
  | tool_execution_end id _ _ _ => a <| pendingToolCalls := filter (λ i, i ≠ id) (pendingToolCalls a) |>
  | turn_end m _ =>
      match errorMessage m with Some (c :: s) => a <| a_errorMessage := Some (c :: s) |> | _ => a end
  | agent_end _ => a <| streamingMessage := None |>
  | _ => a
  end.

Fixpoint notify_listeners (ls : list nat) (event : AgentEvent) (w : World) : World :=
  match ls with
  | [] => w
  | l :: ls =>
      notify_listeners ls event (call_host (h_listener hst l event (default false (activeRun (agent w)))) w).2
  end.

(** [processEvents]; outside an active run it throws, and it is only called in one. *)
Definition processEvents (event : AgentEvent) (w : World) : World :=
  let w := w <| agent := reduce_event event (agent w) |> <| delivered := delivered w ++ [event] |> in
  notify_listeners (listeners (agent w)) event w.

(** ** Runs *)

Definition createContextSnapshot (a : Agent) : AgentContext World :=
  MkAgentContext (a_systemPrompt a) (a_messages a) (Some (lift_tool <$> a_tools a)).

Definition createLoopConfig (a : Agent) : AgentLoopConfig :=
  MkConfig (loop_model (a_model a)) (if bool_decide (a_thinkingLevel a = th_off) then None else Some (a_thinkingLevel a))
    None (Some (a_toolExecution a)).

Definition defaultConvertToLlm (ms : list AgentMessage) : list Message :=
  omap (λ m, match m with AgentLlm m => Some m | _ => None end) ms.

Definition drain_steering (w : World) : list AgentMessage * World :=
  let (ms, q) := drain (steeringQueue (agent w)) in (ms, w <| agent := (agent w) <| steeringQueue := q |> |>).
Definition drain_followUps (w : World) : list AgentMessage * World :=
  let (ms, q) := drain (followUpQueue (agent w)) in (ms, w <| agent := (agent w) <| followUpQueue := q |> |>).

Definition get_steering (w : World) : list AgentMessage * World :=
  if skipInitialSteeringPoll w then ([], w <| skipInitialSteeringPoll := false |>) else drain_steering w.

Definition prepare_next_turn : option (TurnContext World → World → option (TurnUpdate World) * World) :=
  let lifted (f : hosted H (option HostTurnUpdate)) (w : World) : option (TurnUpdate World) * World :=
    let (u, w) := call_host f w in (lift_update <$> u, w) in
  match h_prepareNextTurnWithContext hst, h_prepareNextTurn hst with
  | Some f, _ => Some (λ context, lifted (f context))
  | None, Some f => Some (λ _, lifted f)
  | None, None => None
  end.

(** The functions of [createLoopConfig] and the other arguments of the loop. *)
Definition loop_env : Environment World :=
  MkEnvironment World processEvents (λ w, default false (activeRun (agent w)))
    (λ w, let (t, h) := h_now hst (host w) in (t, w <| host := h |>))
    (λ request, call_host (h_stream hst request))
    ((λ f ms, call_host (f ms)) <$> h_transformContext hst)
    (λ ms w, match h_convertToLlm hst with Some f => call_host (f ms) w | None => (defaultConvertToLlm ms, w) end)
    ((λ f provider, call_host (f provider)) <$> h_getApiKey hst)
    (Some get_steering) (Some drain_followUps)
    prepare_next_turn
    ((λ f context, call_host (f context)) <$> h_shouldStopAfterTurn hst)
    (h_validateToolArguments hst)
    ((λ f context, call_host (f context)) <$> h_beforeToolCall hst)
    ((λ f context r isError, call_host (f context r isError)) <$> h_afterToolCall hst)
    (λ w, let (n, h) := h_schedule hst (host w) in (n, w <| host := h |>)).

Inductive agent_error := AlreadyProcessing | NothingToContinue | LastMessageIsAssistant.

Definition failure_response (a : Agent) (error : jsstring) (aborted : bool) (timestamp : Z) : AssistantMessage :=
  MkAssistantMessage [AText (MkText [] None)] (model_api (a_model a)) (model_provider (loop_model (a_model a)))
    (model_id (loop_model (a_model a))) None None None EMPTY_USAGE (if aborted then sr_aborted else sr_error) None
    (Some error) None None timestamp.

Definition handleRunFailure (error : jsstring) (w : World) : World :=
  let aborted := default false (activeRun (agent w)) in
  let (timestamp, h) := h_now hst (host w) in
  let w := w <| host := h |> in
  let failure := failure_response (agent w) error aborted timestamp in
  foldl (λ w event, processEvents event w) w
    [message_start (assistant failure); message_end (assistant failure); turn_end failure []; agent_end [assistant failure]].

Definition finishRun (w : World) : World :=
  w <| agent := (agent w) <| isStreaming := false |> <| streamingMessage := None |> <| pendingToolCalls := [] |>
                          <| activeRun := None |> |>.

(** An executor settles, or throws a message; [None] when its fuel runs out. *)
Definition executor : Type := World → option (result jsstring unit * World).

Definition runWithLifecycle (run : executor) (w : World) : option (result agent_error unit * World) :=
  match activeRun (agent w) with
  | Some _ => Some (Err AlreadyProcessing, w)
  | None =>
      let w := w <| agent := (agent w) <| activeRun := Some false |> <| isStreaming := true |>
                                       <| streamingMessage := None |> <| a_errorMessage := None |> |> in
      match run w with
      | None => None
      | Some (Ok _, w) => Some (Ok (), finishRun w)
      | Some (Err error, w) => Some (Ok (), finishRun (handleRunFailure error w))
      end
  end.

Definition runPromptMessages (fuel : nat) (ms : list AgentMessage) (skip : bool) : World → option (result agent_error unit * World) :=
  runWithLifecycle (λ w,
    let w := w <| skipInitialSteeringPoll := skip |> in
    match runAgentLoop loop_env fuel ms (createContextSnapshot (agent w)) (createLoopConfig (agent w)) (MkLoopState w []) with
    | (Some _, s) => Some (Ok (), world s)
    | (None, _) => None
    end).

Definition continue_message (e : continue_error) : jsstring :=
  match e with
  | NoMessages => js "Cannot continue: no messages in context"
  | LastIsAssistant => js "Cannot continue from message role: assistant"
  end.

Definition runContinuation (fuel : nat) : World → option (result agent_error unit * World) :=
  runWithLifecycle (λ w,
    let w := w <| skipInitialSteeringPoll := false |> in
    match runAgentLoopContinue loop_env fuel (createContextSnapshot (agent w)) (createLoopConfig (agent w)) with
    | Err e => Some (Err (continue_message e), w)
    | Ok loop =>
        match loop (MkLoopState w []) with
        | (Some _, s) => Some (Ok (), world s)
        | (None, _) => None
        end
    end).

(** The forms a prompt comes in. *)
Inductive prompt_input :=
| PromptText (input : jsstring) (images : option (list content_part))
| PromptMessage (m : AgentMessage)
| PromptMessages (ms : list AgentMessage).

Definition normalizePromptInput (input : prompt_input) (w : World) : list AgentMessage * World :=
  match input with
  | PromptMessages ms => (ms, w)
  | PromptMessage m => ([m], w)
  | PromptText input images =>
      let (timestamp, h) := h_now hst (host w) in
      ([AgentLlm (MUser (MkUserMessage (PartsContent (CText (MkText input None) :: default [] images)) timestamp))],
       w <| host := h |>)
  end.

Definition prompt (fuel : nat) (input : prompt_input) (w : World) : option (result agent_error unit * World) :=
  match activeRun (agent w) with
  | Some _ => Some (Err AlreadyProcessing, w)
  | None => let (ms, w) := normalizePromptInput input w in runPromptMessages fuel ms false w
  end.

Definition continue (fuel : nat) (w : World) : option (result agent_error unit * World) :=
  match activeRun (agent w) with
  | Some _ => Some (Err AlreadyProcessing, w)
  | None =>
      match last (a_messages (agent w)) with
      | None => Some (Err NothingToContinue, w)
      | Some m =>
          if bool_decide (message_role m = role_assistant) then
            let (queuedSteering, w) := drain_steering w in
            if negb (bool_decide (queuedSteering = [])) then runPromptMessages fuel queuedSteering true w
            else
              let (queuedFollowUps, w) := drain_followUps w in
              if negb (bool_decide (queuedFollowUps = [])) then runPromptMessages fuel queuedFollowUps false w
              else Some (Err LastMessageIsAssistant, w)
          else runContinuation fuel w
      end
  end.

Definition reset (w : World) : result agent_error unit * World :=
  match activeRun (agent w) with
  | Some _ => (Err AlreadyProcessing, w)
  | None =>
      (Ok (), w <| agent := clearSteeringQueue (clearFollowUpQueue
        ((agent w) <| a_messages := [] |> <| isStreaming := false |> <| streamingMessage := None |>
                   <| pendingToolCalls := [] |> <| a_errorMessage := None |>)) |>)
  end.
End Agent.
Arguments HostTool : clear implicits.
Arguments Agent : clear implicits.
Arguments World : clear implicits.
Arguments Host : clear implicits.
