(* ===== verification/AgentTheorems.v ===== *)
(** * What the agent guarantees

    A run reduces the events of the loop into the transcript, whatever the host does
    meanwhile; messages handed over during the run are neither lost nor repeated; and
    when it is over the agent is idle again. *)

From S2P Require Import Prelude JsNumber JsString SessionTypes Messages AgentLoop AgentLoopTheorems AgentLoopTracking Agent.

Section Agent.
Context {H : Type} (hst : Host H).

(** ** Following an agent through a run *)

(** What the events of a run are reduced into. *)
Definition core (a : Agent H) : list AgentMessage * option AgentMessage * list jsstring * option jsstring :=
  (a_messages a, streamingMessage a, pendingToolCalls a, a_errorMessage a).

Definition reduce_events (es : list AgentEvent) (a : Agent H) : Agent H := foldl (λ a e, reduce_event e a) a es.

(** The messages handed over by some actions, to one queue and to the other. *)
Definition steered (acts : list client_action) : list AgentMessage :=
  omap (λ act, match act with Steer m => Some m | _ => None end) acts.
Definition followed (acts : list client_action) : list AgentMessage :=
  omap (λ act, match act with FollowUp m => Some m | _ => None end) acts.

Definition clears (act : client_action) : Prop := act = ClearSteeringQueue ∨ act = ClearFollowUpQueue.

(** The messages of one queue among those taken from both. *)
Definition taken (steering : bool) (tagged : list (bool * AgentMessage)) : list AgentMessage :=
  (filter (λ p, p.1 = steering) tagged).*2.

(** While nothing is cleared, what was queued and what was handed over is what was
    taken and what is still queued, in this order. *)
Definition queues_kept (a a' : Agent H) (acts : list client_action) (tagged : list (bool * AgentMessage)) : Prop :=
  Forall (λ act, ¬ clears act) acts →
  queued (steeringQueue a) ++ steered acts = taken true tagged ++ queued (steeringQueue a')
  ∧ queued (followUpQueue a) ++ followed acts = taken false tagged ++ queued (followUpQueue a').

(** From [w] to [w'] the host and the loop performed some actions, delivered the
    events [es] and took the messages [ms] from the queues. *)
Record run_rel (w : World H) (es : list AgentEvent) (ms : list AgentMessage) (w' : World H) : Prop := {
  rr_core : core (agent w') = core (reduce_events es (agent w));
  rr_active : is_Some (activeRun (agent w)) → is_Some (activeRun (agent w'));
  rr_delivered : delivered w' = delivered w ++ es;
  rr_queues : ∃ acts tagged, performed w' = performed w ++ acts ∧ ms = tagged.*2
    ∧ queues_kept (agent w) (agent w') acts tagged }.

Lemma core_reduce e a a' : core a = core a' → core (reduce_event e a) = core (reduce_event e a').
Proof.
  destruct a, a'. unfold core. cbn. intros [= -> -> -> ->]. destruct e; cbn; try done.
  - by destruct (errorMessage _) as [[|]|].
  - by case_decide.
Qed.

Lemma core_reduces es a a' : core a = core a' → core (reduce_events es a) = core (reduce_events es a').
Proof. revert a a'. induction es as [|e es IH]; intros a a' Hc; [done|]. apply IH. by apply core_reduce. Qed.

Lemma reduce_events_app es es' a : reduce_events (es ++ es') a = reduce_events es' (reduce_events es a).
Proof. apply foldl_app. Qed.

Lemma taken_app b l l' : taken b (l ++ l') = taken b l ++ taken b l'.
Proof. unfold taken. by rewrite filter_app, fmap_app. Qed.

Lemma run_rel_trans w es ms w' es' ms' w'' :
  run_rel w es ms w' → run_rel w' es' ms' w'' → run_rel w (es ++ es') (ms ++ ms') w''.
Proof.
  intros [Hc Ha Hd (acts & tagged & Hp & -> & Hq)] [Hc' Ha' Hd' (acts' & tagged' & Hp' & -> & Hq')]. split.
  - rewrite Hc', reduce_events_app. by apply core_reduces.
  - auto.
  - by rewrite Hd', Hd, app_assoc.
  - exists (acts ++ acts'), (tagged ++ tagged'). rewrite Hp', Hp, app_assoc, fmap_app. split_and!; [done..|].
    intros [Hk Hk']%Forall_app. destruct (Hq Hk) as [H1 H2], (Hq' Hk') as [H1' H2']. unfold steered, followed in *.
    by rewrite !omap_app, !taken_app, !app_assoc, H1, H2, <- !app_assoc, H1', H2', !app_assoc.
Qed.

Lemma run_rel_refl w : run_rel w [] [] w.
Proof.
  split; [done|done|by rewrite app_nil_r|]. exists [], []. rewrite app_nil_r. split_and!; [done..|].
  intros _. unfold steered, followed. cbn. by rewrite !app_nil_r.
Qed.

(** ** Client actions *)

Lemma client_act_core act a : core (client_act act a) = core a.
Proof. by destruct act. Qed.

Lemma client_act_active act (a : Agent H) : is_Some (activeRun a) → is_Some (activeRun (client_act act a)).
Proof. intros Ha. destruct act; try exact Ha. by apply fmap_is_Some. Qed.

Lemma client_act_queues act a : queues_kept a (client_act act a) [act] [].
Proof.
  intros Hc. apply Forall_cons in Hc as [Hc _]. unfold steered, followed, clears in *. destruct act; cbn; rewrite ?app_nil_r; try done.
  - destruct Hc. by left.
  - destruct Hc. by right.
Qed.

Lemma perform_rel acts w : run_rel w [] [] (perform acts w).
Proof.
  revert w. induction acts as [|act acts IH]; intros w.
  { destruct w. unfold perform. cbn. rewrite app_nil_r. apply run_rel_refl. }
  apply (run_rel_trans w [] [] (perform [act] w) [] []).
  - split; [apply client_act_core|apply client_act_active|cbn; by rewrite app_nil_r|].
    exists [act], []. split_and!; [done..|apply client_act_queues].
  - specialize (IH (perform [act] w)). unfold perform in IH at 2. cbn in IH. rewrite <- app_assoc in IH. exact IH.
Qed.

Lemma host_rel w h : run_rel w [] [] (w <| host := h |>).
Proof.
  destruct (run_rel_refl w) as [H1 H2 H3 H4]. by split.
Qed.

Lemma call_host_rel {A} (f : H → A * list client_action * H) w : run_rel w [] [] (call_host f w).2.
Proof.
  unfold call_host. destruct (f (host w)) as [[a acts] h]. cbn.
  apply (run_rel_trans w [] [] (w <| host := h |>) [] []); [apply host_rel|apply perform_rel].
Qed.

(** ** Events *)

Lemma notify_listeners_rel ls e w : run_rel w [] [] (notify_listeners hst ls e w).
Proof.
  revert w. induction ls as [|l ls IH]; intros w; cbn [notify_listeners]; [apply run_rel_refl|].
  exact (run_rel_trans w [] [] _ [] [] _ (call_host_rel _ w) (IH _)).
Qed.

Lemma reduce_event_rest e (a : Agent H) :
  activeRun (reduce_event e a) = activeRun a ∧ steeringQueue (reduce_event e a) = steeringQueue a
  ∧ followUpQueue (reduce_event e a) = followUpQueue a.
Proof. destruct e; cbn; try done; [by destruct (errorMessage _) as [[|]|]|by case_decide]. Qed.

Lemma processEvents_rel e w : run_rel w [e] [] (processEvents hst e w).
Proof.
  unfold processEvents. set (w1 := w <| agent := reduce_event e (agent w) |> <| delivered := delivered w ++ [e] |>).
  apply (run_rel_trans w [e] [] w1 [] []); [|apply notify_listeners_rel].
  destruct (reduce_event_rest e (agent w)) as (Ha & Hs & Hf). split.
  - done.
  - change (agent w1) with (reduce_event e (agent w)). by rewrite Ha.
  - done.
  - exists [], []. split_and!; [by rewrite app_nil_r|done|]. intros _. change (agent w1) with (reduce_event e (agent w)).
    rewrite Hs, Hf. cbn. by rewrite !app_nil_r.
Qed.

(** ** Queues *)

Lemma drain_queued q : queued q = (drain q).1 ++ queued (drain q).2.
Proof. unfold drain. destruct (mode q); cbn; [by rewrite app_nil_r|by destruct (queued q) eqn:E; cbn; rewrite ?E]. Qed.

Lemma taken_tag (b b' : bool) (ms : list AgentMessage) : taken b ((λ m, (b', m)) <$> ms) = if decide (b = b') then ms else [].
Proof.
  unfold taken. induction ms as [|m ms IH]; cbn [fmap list_fmap]; [by destruct (decide _)|].
  rewrite filter_cons. cbn [fst]. destruct (decide (b = b')) as [->|Hne].
  - rewrite decide_True by done. cbn. by f_equal.
  - rewrite decide_False by done. exact IH.
Qed.

Lemma untag (b : bool) (ms : list AgentMessage) : ((λ m, (b, m)) <$> ms).*2 = ms.
Proof. rewrite <- list_fmap_compose. apply list_fmap_id. Qed.

Lemma drain_steering_rel w : run_rel w [] (drain_steering w).1 (drain_steering w).2.
Proof.
  unfold drain_steering. pose proof (drain_queued (steeringQueue (agent w))) as Hq.
  destruct (drain (steeringQueue (agent w))) as [ms q]. cbn [fst snd] in *. split; [done|done|by cbn; rewrite app_nil_r|].
  exists [], ((λ m, (true, m)) <$> ms). split_and!; [by cbn; rewrite app_nil_r|by rewrite untag|].
  intros _. rewrite !taken_tag, Hq. cbn. by rewrite !app_nil_r.
Qed.

Lemma drain_followUps_rel w : run_rel w [] (drain_followUps w).1 (drain_followUps w).2.
Proof.
  unfold drain_followUps. pose proof (drain_queued (followUpQueue (agent w))) as Hq.
  destruct (drain (followUpQueue (agent w))) as [ms q]. cbn [fst snd] in *. split; [done|done|by cbn; rewrite app_nil_r|].
  exists [], ((λ m, (false, m)) <$> ms). split_and!; [by cbn; rewrite app_nil_r|by rewrite untag|].
  intros _. rewrite !taken_tag, Hq. cbn. by rewrite !app_nil_r.
Qed.

Lemma skip_rel w b : run_rel w [] [] (w <| skipInitialSteeringPoll := b |>).
Proof. destruct (run_rel_refl w) as [H1 H2 H3 H4]. by split. Qed.

Lemma get_steering_rel w : run_rel w [] (get_steering w).1 (get_steering w).2.
Proof. unfold get_steering. destruct (skipInitialSteeringPoll w); [apply skip_rel|apply drain_steering_rel]. Qed.

(** ** The loop in an agent *)

Definition lifted (t : AgentTool (World H)) : Prop := ∃ ht : HostTool H, t = lift_tool ht.

Lemma lift_tools_good (ts : list (HostTool H)) : Forall lifted (lift_tool <$> ts).
Proof. apply Forall_fmap, Forall_forall. intros t _. by exists t. Qed.

#[export] Instance loop_env_polling : Polling (loop_env hst) run_rel lifted.
Proof.
  split; [split| | |]; cbn.
  - apply run_rel_refl.
  - intros w es w' es' w''. exact (run_rel_trans w es [] w' es' [] w'').
  - apply processEvents_rel.
  - intros w. destruct (h_now hst (host w)). apply host_rel.
  - intros request w. apply call_host_rel.
  - intros f ms w. destruct (h_transformContext hst); [|done]. cbn. intros [= <-]. apply call_host_rel.
  - intros ms w. destruct (h_convertToLlm hst); [apply call_host_rel|apply run_rel_refl].
  - intros f provider w. destruct (h_getApiKey hst); [|done]. cbn. intros [= <-]. apply call_host_rel.
  - intros f x w. destruct (h_beforeToolCall hst); [|done]. cbn. intros [= <-]. apply call_host_rel.
  - intros f x r b w. destruct (h_afterToolCall hst); [|done]. cbn. intros [= <-]. apply call_host_rel.
  - intros w. destruct (h_schedule hst (host w)). apply host_rel.
  - intros tool i args w [ht ->]. apply call_host_rel.
  - intros f x w. unfold prepare_next_turn. destruct (h_prepareNextTurnWithContext hst) as [g|].
    + intros [= <-]. pose proof (call_host_rel (g x) w) as Hr. by destruct (call_host (g x) w).
    + destruct (h_prepareNextTurn hst) as [g|]; [|done]. intros [= <-]. pose proof (call_host_rel g w) as Hr. by destruct (call_host g w).
  - intros f x w u c. unfold prepare_next_turn.
    assert (∀ hu : HostTurnUpdate, update_context (lift_update hu) = Some c → good_context lifted c) as Hlift.
    { intros hu. unfold lift_update. cbn. destruct (hu_context hu) as [[[prompt ms] ts]|]; [|done]. intros [= <-].
      unfold good_context. cbn. destruct ts; [apply lift_tools_good|apply Forall_nil_2]. }
    destruct (h_prepareNextTurnWithContext hst) as [g|]; [|destruct (h_prepareNextTurn hst) as [g|]; [|done]]; intros [= <-];
      destruct (call_host _ w) as [[hu|] w']; cbn; try done; intros [= <-]; apply Hlift.
  - intros f x w. destruct (h_shouldStopAfterTurn hst); [|done]. cbn. intros [= <-]. apply call_host_rel.
  - exact run_rel_trans.
  - intros f w [= <-]. apply get_steering_rel.
  - intros f w [= <-]. apply drain_followUps_rel.
Qed.

(** ** The life cycle of a run *)

Definition idle (a : Agent H) : Prop :=
  activeRun a = None ∧ isStreaming a = false ∧ streamingMessage a = None ∧ pendingToolCalls a = [].

Lemma reduce_messages es (a : Agent H) : a_messages (reduce_events es a) = a_messages a ++ ended es.
Proof.
  revert a. induction es as [|e es IH]; intros a; [by cbn; rewrite app_nil_r|].
  change (reduce_events (e :: es) a) with (reduce_events es (reduce_event e a)). rewrite IH.
  destruct e; cbn; try done; [by destruct (errorMessage _) as [[|]|]|by rewrite <- app_assoc|by case_decide].
Qed.

Lemma run_rel_messages w es ms w' : run_rel w es ms w' → a_messages (agent w') = a_messages (agent w) ++ ended es.
Proof. intros [Hc _ _ _]. rewrite <- reduce_messages. exact (f_equal (λ c, c.1.1.1) Hc). Qed.

(** The agent a run starts with. *)
Definition started (w : World H) : World H :=
  w <| agent := (agent w) <| activeRun := Some false |> <| isStreaming := true |>
                          <| streamingMessage := None |> <| a_errorMessage := None |> |>.

(** What a run leaves behind: [given] are the messages it was asked to add. *)
Record run_effect (given : list AgentMessage) (w w' : World H) (es : list AgentEvent) (acts : list client_action)
    (tagged : list (bool * AgentMessage)) : Prop := {
  eff_idle : idle (agent w');
  eff_delivered : delivered w' = delivered w ++ es;
  eff_performed : performed w' = performed w ++ acts;
  eff_messages : a_messages (agent w') = a_messages (agent w) ++ ended es;
  eff_injected : given ++ tagged.*2 `sublist_of` ended es;
  eff_queues : queues_kept (agent w) (agent w') acts tagged;
  eff_protocol : run_protocol Idle es = Some Done }.

Lemma lifecycle_effect given (run : executor) w w' r :
  activeRun (agent w) = None →
  (∀ r w2, run (started w) = Some (r, w2) → r = Ok () ∧ ∃ es ms, run_rel (started w) es ms w2
     ∧ given ++ ms `sublist_of` ended es ∧ run_protocol Idle es = Some Done) →
  runWithLifecycle hst run w = Some (r, w') →
  r = Ok () ∧ ∃ es acts tagged, run_effect given w w' es acts tagged.
Proof.
  intros Ha Hrun. unfold runWithLifecycle. rewrite Ha. fold (started w).
  destruct (run (started w)) as [[r1 w1]|] eqn:E; [|done].
  destruct (Hrun _ _ eq_refl) as (-> & es & ms & Hrel & Hsub & Hp). intros [= <- <-]. split; [done|].
  pose proof (run_rel_messages _ _ _ _ Hrel) as Hm. destruct Hrel as [_ _ Hd (acts & tagged & Hperf & -> & Hq)].
  exists es, acts, tagged. split; done.
Qed.

(** A run that throws ends the transcript with a failed or aborted response, and the
    agent is idle all the same. *)
Lemma lifecycle_failure (run : executor) w w1 e es ms w' r :
  activeRun (agent w) = None → run (started w) = Some (Err e, w1) → run_rel (started w) es ms w1 →
  runWithLifecycle hst run w = Some (r, w') →
  r = Ok () ∧ idle (agent w') ∧ ∃ failure,
    delivered w' = delivered w ++ es ++ [message_start (assistant failure); message_end (assistant failure);
                                         turn_end failure []; agent_end [assistant failure]]
    ∧ a_messages (agent w') = a_messages (agent w) ++ ended es ++ [assistant failure]
    ∧ errorMessage failure = Some e
    ∧ stopReason failure = if default false (activeRun (agent w1)) then sr_aborted else sr_error.
Proof.
  intros Ha E Hrel. unfold runWithLifecycle. rewrite Ha. fold (started w). rewrite E.
  intros [= <- <-]. split; [done|]. split; [done|].
  unfold handleRunFailure. destruct (h_now hst (host w1)) as [t h].
  match goal with |- context [failure_response ?a ?err ?b ?t] => set (failure := failure_response a err b t) end.
  exists failure. cbn [foldl].
  set (w2 := w1 <| host := h |>).
  pose proof (run_rel_trans _ _ _ _ _ _ _ Hrel (host_rel w1 h)) as H0. fold w2 in H0.
  pose proof (run_rel_trans _ _ _ _ _ _ _ H0 (processEvents_rel (message_start (assistant failure)) w2)) as H1.
  pose proof (run_rel_trans _ _ _ _ _ _ _ H1 (processEvents_rel (message_end (assistant failure)) _)) as H2.
  pose proof (run_rel_trans _ _ _ _ _ _ _ H2 (processEvents_rel (turn_end failure []) _)) as H3.
  pose proof (run_rel_trans _ _ _ _ _ _ _ H3 (processEvents_rel (agent_end [assistant failure]) _)) as H4.
  pose proof (run_rel_messages _ _ _ _ H4) as Hm. destruct H4 as [_ _ Hd _].
  rewrite app_nil_r, <- !app_assoc in *. split_and!; [exact Hd| |done|done].
  rewrite ended_app in Hm. exact Hm.
Qed.

(** ** The executors *)

Lemma loop_settled (m : M (World H) (option (list AgentMessage))) given :
  polled run_rel m (λ es ms r, is_Some r → given ++ ms `sublist_of` ended es) →
  produces m (λ es r, run_result Idle [] es r) →
  ∀ w all s, m (MkLoopState w []) = (Some all, s) →
    ∃ es ms, run_rel w es ms (world s) ∧ given ++ ms `sublist_of` ended es ∧ run_protocol Idle es = Some Done.
Proof.
  intros Hpoll Hprod w all s E. destruct (Hpoll (MkLoopState w [])) as (es & ms & Htr & Hrel & Hsub).
  destruct (Hprod (MkLoopState w [])) as (es' & Htr' & q & ms' & (Hp & _) & Hr).
  rewrite E in *. cbn in *. destruct Hr as (-> & _). assert (es' = es) as -> by congruence.
  exists es, ms. split_and!; [done|by apply Hsub; eexists|done].
Qed.

Lemma snapshot_good (a : Agent H) : good_context lifted (createContextSnapshot a).
Proof. apply lift_tools_good. Qed.

Lemma runPromptMessages_effect fuel ms skip w w' r :
  stream_protocol (loop_env hst) → activeRun (agent w) = None →
  runPromptMessages hst fuel ms skip w = Some (r, w') →
  r = Ok () ∧ ∃ es acts tagged, run_effect ms w w' es acts tagged.
Proof.
  intros Hstream Ha. apply lifecycle_effect; [done|]. intros r1 w2.
  set (w1 := started w <| skipInitialSteeringPoll := skip |>).
  set (m := runAgentLoop (loop_env hst) fuel ms (createContextSnapshot (agent w1)) (createLoopConfig (agent w1))).
  change (match m (MkLoopState w1 []) with (Some _, s) => Some (Ok (), world s) | (None, _) => None end = Some (r1, w2) →
    r1 = Ok () ∧ ∃ es new, run_rel (started w) es new w2 ∧ ms ++ new `sublist_of` ended es ∧ run_protocol Idle es = Some Done).
  destruct (m (MkLoopState w1 [])) as [[all|] s] eqn:E; [|done]. intros [= <- <-]. split; [done|].
  destruct (loop_settled m ms
    (runAgentLoop_polled (loop_env hst) run_rel lifted fuel ms _ _ (snapshot_good _))
    (produces_impl _ _ _ (runAgentLoop_spec (loop_env hst) fuel ms _ _ Hstream) (λ es a, @proj1 _ _)) w1 all s E)
    as (es & new & Hrel & Hsub & Hp).
  exists es, new. split; [exact (run_rel_trans (started w) [] [] w1 es new (world s) (skip_rel (started w) skip) Hrel)|done].
Qed.

Lemma runContinuation_effect fuel w w' r m :
  stream_protocol (loop_env hst) → activeRun (agent w) = None →
  last (a_messages (agent w)) = Some m → message_role m ≠ role_assistant →
  runContinuation hst fuel w = Some (r, w') →
  r = Ok () ∧ ∃ es acts tagged, run_effect [] w w' es acts tagged.
Proof.
  intros Hstream Ha Hlast Hrole. apply lifecycle_effect; [done|]. intros r1 w2.
  set (w1 := started w <| skipInitialSteeringPoll := false |>).
  set (loop := runAgentLoopContinue (loop_env hst) fuel (createContextSnapshot (agent w1)) (createLoopConfig (agent w1))).
  change (match loop with
          | Err e => Some (Err (continue_message e), w1)
          | Ok loop => match loop (MkLoopState w1 []) with (Some _, s) => Some (Ok (), world s) | (None, _) => None end
          end = Some (r1, w2) →
    r1 = Ok () ∧ ∃ es new, run_rel (started w) es new w2 ∧ [] ++ new `sublist_of` ended es ∧ run_protocol Idle es = Some Done).
  destruct loop as [m1|e] eqn:Hc.
  2: { unfold loop, runAgentLoopContinue, check_continue in Hc.
       change (messages (createContextSnapshot (agent w1))) with (a_messages (agent w)) in Hc.
       rewrite Hlast, bool_decide_false in Hc by done. done. }
  destruct (m1 (MkLoopState w1 [])) as [[all|] s] eqn:E; [|done]. intros [= <- <-]. split; [done|].
  destruct (loop_settled m1 []
    (runAgentLoopContinue_polled (loop_env hst) run_rel lifted fuel _ _ m1 (snapshot_good _) Hc)
    (runAgentLoopContinue_spec (loop_env hst) fuel _ _ m1 Hstream Hc) w1 all s E)
    as (es & new & Hrel & Hsub & Hp).
  exists es, new. split; [exact (run_rel_trans (started w) [] [] w1 es new (world s) (skip_rel (started w) false) Hrel)|done].
Qed.

(** ** Starting a run *)

Inductive start := StartPrompt (input : prompt_input) | StartContinue.

Definition start_run (fuel : nat) (st : start) (w : World H) : option (result agent_error unit * World H) :=
  match st with StartPrompt input => prompt hst fuel input w | StartContinue => continue hst fuel w end.

(** The messages a start asks to add. *)
Definition given_messages (st : start) (w : World H) : list AgentMessage :=
  match st with StartPrompt input => (normalizePromptInput hst input w).1 | StartContinue => [] end.

(** A run that starts with messages taken from a queue. *)
Lemma effect_after_drain ms w w1 w' es acts tagged :
  run_rel w [] ms w1 → run_effect ms w1 w' es acts tagged → ∃ acts' tagged', run_effect [] w w' es acts' tagged'.
Proof.
  intros Hrel [Hi Hd Hp Hm Hs Hq Hpr]. pose proof (run_rel_messages _ _ _ _ Hrel) as Hm1.
  destruct Hrel as [_ _ Hd1 (acts1 & tagged1 & Hp1 & -> & Hq1)].
  exists (acts1 ++ acts), (tagged1 ++ tagged). split; try done.
  - by rewrite Hd, Hd1, app_nil_r.
  - by rewrite Hp, Hp1, app_assoc.
  - rewrite Hm, Hm1. cbn. by rewrite app_nil_r.
  - by rewrite fmap_app.
  - intros [Hk Hk']%Forall_app. destruct (Hq Hk') as [H1 H2], (Hq1 Hk) as [H1' H2']. unfold steered, followed in *.
    by rewrite !omap_app, !taken_app, !app_assoc, H1', H2', <- !app_assoc, H1, H2, !app_assoc.
Qed.

Lemma drain_nil q : (drain q).1 = [] → (drain q).2 = q.
Proof. unfold drain. destruct q as [[|m ms] []]; done. Qed.

Lemma continue_effect fuel w w' r :
  stream_protocol (loop_env hst) → activeRun (agent w) = None →
  continue hst fuel w = Some (r, w') →
  match r with
  | Ok _ => ∃ es acts tagged, run_effect [] w w' es acts tagged
  | Err _ => w' = w
  end.
Proof.
  intros Hstream Ha. unfold continue. rewrite Ha.
  destruct (last (a_messages (agent w))) as [m|] eqn:Hlast; [|by intros [= <- <-]].
  destruct (bool_decide_reflect (message_role m = role_assistant)) as [Hrole|Hrole].
  2: { intros Hr. by destruct (runContinuation_effect fuel w w' r m Hstream Ha Hlast Hrole Hr) as [-> ?]. }
  pose proof (drain_steering_rel w) as Hs. unfold drain_steering in *.
  pose proof (drain_nil (steeringQueue (agent w))) as Hnil.
  destruct (drain (steeringQueue (agent w))) as [ms q]. cbn [fst snd] in *.
  set (w1 := w <| agent := (agent w) <| steeringQueue := q |> |>) in *.
  destruct (bool_decide_reflect (ms = [])) as [->|Hne]; cbn [negb].
  2: { intros Hr. destruct (runPromptMessages_effect fuel ms true w1 w' r Hstream Ha Hr) as (-> & es & acts & tagged & He).
       destruct (effect_after_drain ms w w1 w' es acts tagged Hs He) as (acts' & tagged' & He'). eauto. }
  assert (w1 = w) as Hw by (unfold w1; rewrite Hnil by done; by destruct w as [[]]).
  clear Hs Hnil. clearbody w1. subst w1.
  pose proof (drain_followUps_rel w) as Hs. unfold drain_followUps in *.
  pose proof (drain_nil (followUpQueue (agent w))) as Hnil.
  destruct (drain (followUpQueue (agent w))) as [ms q']. cbn [fst snd] in *.
  set (w1 := w <| agent := (agent w) <| followUpQueue := q' |> |>) in *.
  destruct (bool_decide_reflect (ms = [])) as [->|Hne]; cbn [negb].
  - intros [= <- <-]. unfold w1. rewrite Hnil by done. by destruct w as [[]].
  - intros Hr. destruct (runPromptMessages_effect fuel ms false w1 w' r Hstream Ha Hr) as (-> & es & acts & tagged & He).
    destruct (effect_after_drain ms w w1 w' es acts tagged Hs He) as (acts' & tagged' & He'). eauto.
Qed.

(** Claim C4. Starting a run (a prompt or a continuation) on an agent that is busy is
    refused and changes nothing; so is a continuation that has nothing to continue
    from.  A run that is over leaves the agent idle, whatever its tools, hooks and
    listeners did with the agent meanwhile: the transcript has grown by exactly the
    messages whose end the delivered events announce, and these follow the protocol
    of events; the messages asked for and those taken from the queues are in the
    transcript, in the order they were taken; and as long as nobody clears a queue,
    every message steered or followed up is either among those taken, in order, or
    still queued. *)
Theorem agent_run_effect fuel st w w' r :
  stream_protocol (loop_env hst) →
  start_run fuel st w = Some (r, w') →
  match activeRun (agent w), r with
  | Some _, _ => r = Err AlreadyProcessing ∧ w' = w
  | None, Err _ => w' = w
  | None, Ok _ => ∃ es acts tagged, run_effect (given_messages st w) w w' es acts tagged
  end.
Proof.
  intros Hstream Hrun. destruct (activeRun (agent w)) as [b|] eqn:Ha.
  - destruct st; cbn in Hrun; [unfold prompt in Hrun|unfold continue in Hrun]; rewrite Ha in Hrun; by injection Hrun as <- <-.
  - destruct st as [input|]; cbn in *; [|by apply (continue_effect fuel w w' r Hstream Ha Hrun)].
    unfold prompt in Hrun. rewrite Ha in Hrun. destruct (normalizePromptInput hst input w) as [ms w1] eqn:Hn.
    assert (agent w1 = agent w ∧ delivered w1 = delivered w ∧ performed w1 = performed w) as (Hag & Hde & Hpe).
    { unfold normalizePromptInput in Hn. destruct input; [destruct (h_now hst (host w))| |]; by injection Hn as <- <-. }
    destruct (runPromptMessages_effect fuel ms false w1 w' r Hstream) as (-> & es & acts & tagged & [Hi Hd Hp Hm Hs Hq Hpr]);
      [by rewrite Hag|done|].
    exists es, acts, tagged. rewrite ?Hag, ?Hde, ?Hpe in *. by split.
Qed.
End Agent.

(** ** A run in which a tool steers

    The first response calls a tool twice, and each call steers a message; they are
    injected one at a time.  A listener queues a follow-up when the run ends. *)

Definition demo_note (text : string) : AgentMessage := AgentLlm (MUser (MkUserMessage (StringContent (js text)) 2)).
Definition demo_steering_tool : HostTool nat :=
  MkHostTool (js "read") None None (λ _ _ h, (([], Ok (demo_result "all")), [Steer (demo_note "more")], h)).
Definition demo_host : Host nat :=
  MkHost (λ _ e _ h, ((), match e with agent_end _ => [FollowUp (demo_note "later")] | _ => [] end, h))
    (λ h, (Z.of_nat h, h))
    (λ _ h, match h with
            | O => ([StreamStart demo_calling; StreamFinished], demo_calling, [], 1%nat)
            | S h => ([StreamFinished], demo_stopping, [], S (S h))
            end)
    None None None None None None (λ _ t, Ok (call_arguments t)) None None (λ h, (h, h)).
Definition demo_agent : Agent nat :=
  MkAgent (js "system") (MkAgentModel (MkModel (js "p") (js "m")) (js "api")) th_off [demo_steering_tool] [] false None []
    None [3%nat] (MkPendingQueue [] one_at_a_time) (MkPendingQueue [] one_at_a_time) None parallel.
Definition demo_world : World nat := MkWorld demo_agent 0%nat false [] [].
Abbreviation demo_agent_run := (start_run demo_host 20 (StartPrompt (PromptMessage demo_prompt)) demo_world).

Example demo_agent_transcript :
  (λ p, (a_messages (agent p.2), queued (steeringQueue (agent p.2)), queued (followUpQueue (agent p.2)))) <$> demo_agent_run
  = Some ([demo_prompt; assistant demo_calling; demo_answer "c1"; demo_answer "c2"; demo_note "more";
           assistant demo_stopping; demo_note "more"; assistant demo_stopping], [], [demo_note "later"]).
Proof. vm_compute. reflexivity. Qed.

Lemma demo_host_protocol : stream_protocol (loop_env demo_host).
Proof. intros request [ag [|h] sk pe de]; apply (bool_decide_unpack _); vm_compute; exact I. Qed.

Lemma demo_agent_run_ok : from_option (λ p, is_ok p.1) false demo_agent_run = true.
Proof. vm_compute. reflexivity. Qed.

Lemma agent_run_effect_witness :
  stream_protocol (loop_env demo_host)
  ∧ match demo_agent_run with
    | Some (Ok _, w') => ∃ es acts tagged, run_effect [demo_prompt] demo_world w' es acts tagged
    | _ => False
    end.
Proof.
  split; [exact demo_host_protocol|].
  assert (∀ r w', demo_agent_run = Some (r, w') →
    match r with Err _ => w' = demo_world | Ok _ => ∃ es acts tagged, run_effect [demo_prompt] demo_world w' es acts tagged end) as Hrun.
  { intros r w' E.
    exact (agent_run_effect demo_host 20 (StartPrompt (PromptMessage demo_prompt)) demo_world w' r demo_host_protocol E). }
  pose proof demo_agent_run_ok as Hok.
  revert Hrun Hok. generalize demo_agent_run as out. intros [[[[]|e] w']|] Hrun Hok; [|discriminate..]. exact (Hrun _ _ eq_refl).
Defined.
