(* ===== verification/AgentSession.v ===== *)
(** * The session of the application around the agent

    [packages/coding-agent/src/core/agent-session.ts]: the [AgentSession] listens to the
    agent, writes what it says into the session, keeps what clients send during a run until
    it may be written, and decides after each run of the agent whether to run it again: to
    retry a failed call, to continue after a compaction, or to deliver what is queued.

    What the session calls but does not define is a [SessionHost] over a state of its own:
    the clock, the settings, extensions and listeners, the runs of the agent as the steps
    the session sees of them, and the summaries.  Such code may call the session while it
    runs: a [session_call] is what it may do then.  Listeners that make calls see the events
    of these calls in turn, up to a depth of nesting that is an argument.

    The log is the path of the session in its file, which the session manager
    ([SessionManager]) keeps; its appends are taken to succeed, and during a prompt nobody
    moves the leaf. *)

From S2P Require Import Prelude JsNumber JsString SessionTypes Messages Retry Compaction AgentLoop Agent Overflow.

(** ** The log *)

Inductive LogPayload :=
| LogMessage (m : AgentMessage)
| LogCustomMessage (m : CustomMessage)
| LogCompaction (summary firstKeptEntryId : jsstring) (tokensBefore : Z) (details : option JsonValue)
    (fromHook : bool) (usage : option Usage).

(** An entry; its time is what its timestamp denotes. *)
Record LogEntry := MkLogEntry { log_id : jsstring; log_time : Z; log_payload : LogPayload }.

Definition is_compaction_entry (e : LogEntry) : bool :=
  match log_payload e with LogCompaction _ _ _ _ _ _ => true | _ => false end.
Definition has_summary (s : jsstring) (e : LogEntry) : bool :=
  match log_payload e with LogCompaction summary _ _ _ _ _ => bool_decide (summary = s) | _ => false end.

Definition getLatestCompactionEntry (path : list LogEntry) : option LogEntry :=
  last (filter (λ e, is_compaction_entry e = true) path).

Definition entry_context (e : LogEntry) : AgentMessage :=
  match log_payload e with
  | LogMessage m => m
  | LogCustomMessage m => AgentCustom (createCustomMessage (custom_type m) (custom_content m) (custom_display m) (custom_details m) (log_time e))
  | LogCompaction summary _ tokensBefore _ _ _ => AgentCompactionSummary (createCompactionSummaryMessage summary tokensBefore (log_time e))
  end.

(** The messages of [buildSessionContext]. *)
Definition context_entries (path : list LogEntry) : list LogEntry :=
  match getLatestCompactionEntry path with
  | None => path
  | Some compaction =>
      match list_find (λ e, log_id e = log_id compaction) path with
      | None => path
      | Some (compactionIdx, _) =>
          let before := take compactionIdx path in
          let kept := match log_payload compaction with
                      | LogCompaction _ firstKept _ _ _ _ =>
                          match list_find (λ e, log_id e = firstKept) before with Some (i, _) => drop i before | None => [] end
                      | _ => []
                      end in
          compaction :: kept ++ drop (S compactionIdx) path
      end
  end.
Definition context_messages (path : list LogEntry) : list AgentMessage := entry_context <$> context_entries path.

(** ** What others do *)

Inductive DeliverAs := deliver_steer | deliver_followUp | deliver_nextTurn.

#[export] Instance DeliverAs_eq_dec : EqDecision DeliverAs.
Proof. solve_decision. Defined.

(** What clients, extensions and tools call while the session works; texts are expanded,
    and a custom message or bash result has its timestamp to come. *)
Inductive session_call :=
| QueueSteer (text : jsstring) (images : list ImageContent)
| QueueFollowUp (text : jsstring) (images : list ImageContent)
| SendCustomMessage (m : CustomMessage) (triggerTurn : option bool) (deliverAs : option DeliverAs)
| RecordBashResult (m : BashExecutionMessage)
| ClearQueue.

Inductive Reason := overflow | threshold | manual.

Record CompactionResult := MkResult {
  cr_summary : jsstring; cr_firstKeptEntryId : jsstring; cr_tokensBefore : Z; cr_usage : option Usage;
  cr_details : option JsonValue }.

Inductive SummaryRetry :=
| RetryScheduled (attempt maxAttempts delayMs : Z) (errorMessage : jsstring)
| RetryAttemptStart
| RetryFinished.

(** [AgentSessionEvent]; [agent_end] comes with [willRetry]. *)
Inductive SessionEvent :=
| FromAgent (e : AgentEvent) (willRetry : option bool)
| QueueUpdate (steering followUp : list jsstring)
| AutoRetryStart (attempt maxAttempts delayMs : Z) (error : jsstring)
| AutoRetryEnd (success : bool) (attempt : Z) (finalError : option jsstring)
| CompactionStart (reason : Reason)
| CompactionEnd (reason : Reason) (result : option (CompactionResult * Z)) (aborted willRetry : bool) (error : option jsstring)
| SummarizationRetry (reason : Reason) (e : SummaryRetry)
| AgentSettled.

(** Events only extensions hear of. *)
Inductive ExtensionEvent :=
| SessionCompact (entry : LogEntry) (fromExtension : bool) (reason : Reason) (willRetry : bool)
| SessionCompactFailed (reason : Reason) (error : option jsstring) (aborted fromExtension : bool)
| ExtensionsSettled.

(** A step of a run of the agent, as the session sees it: an event, the loop polling a
    queue, or other code that calls the session. *)
Inductive run_step :=
| Delivers (e : AgentEvent)
| PollsSteering
| PollsFollowUps
| Meanwhile (c : session_call).

Inductive run_start := Prompted (messages : list AgentMessage) | Continued.

Inductive summary_step := Called (c : session_call) | Retrying (e : SummaryRetry).

Record ModelInfo := MkModelInfo { info_provider : jsstring; info_id : jsstring; contextWindow : Z; info_maxTokens : Z }.

Record BeforeCompact := MkBeforeCompact {
  hook_calls : list session_call; hook_cancel : bool; hook_compaction : option CompactionResult }.

Record BeforeAgentStart := MkBeforeAgentStart {
  start_calls : list session_call; start_messages : list CustomMessage; start_systemPrompt : option jsstring }.

Inductive InputResult :=
| InputHandled
| InputTransform (text : jsstring) (images : option (list ImageContent))
| InputContinue.

Record SessionHost (X P : Type) := MkSessionHost {
  x_now : X → Z * X;
  (** the id and the time of a new entry *)
  x_stamp : X → (jsstring * Z) * X;
  x_model : X → option ModelInfo;
  x_retry : X → RetryPolicy;
  x_compaction : X → CompactionSettings;
  (** what the handlers of extensions call, and the message they put in place of one that ended *)
  x_extension : AgentEvent → X → (list session_call * option AgentMessage) * X;
  x_notify : ExtensionEvent → X → list session_call * X;
  x_listener : SessionEvent → X → list session_call * X;
  x_run : run_start → Agent X → X → list run_step * X;
  (** the calls made meanwhile, and whether the wait was aborted *)
  x_sleep : Z → X → (list session_call * bool) * X;
  x_prepareCompaction : list LogEntry → CompactionSettings → option P;
  x_auth : X → result jsstring unit * X;
  x_before_compact : P → Reason → bool → X → BeforeCompact * X;
  x_compact : P → Reason → X → (list summary_step * result jsstring CompactionResult) * X;
  x_compaction_aborted : X → bool;
  x_command : jsstring → X → option (list session_call * X);
  x_input : jsstring → option (list ImageContent) → option DeliverAs → X → (list session_call * InputResult) * X;
  x_expand : jsstring → X → jsstring;
  x_authorized : X → bool * X;
  x_before_start : jsstring → option (list ImageContent) → X → BeforeAgentStart * X }.
Arguments x_now {X P}.
Arguments x_stamp {X P}.
Arguments x_model {X P}.
Arguments x_retry {X P}.
Arguments x_compaction {X P}.
Arguments x_extension {X P}.
Arguments x_notify {X P}.
Arguments x_listener {X P}.
Arguments x_run {X P}.
Arguments x_sleep {X P}.
Arguments x_prepareCompaction {X P}.
Arguments x_auth {X P}.
Arguments x_before_compact {X P}.
Arguments x_compact {X P}.
Arguments x_compaction_aborted {X P}.
Arguments x_command {X P}.
Arguments x_input {X P}.
Arguments x_expand {X P}.
Arguments x_authorized {X P}.
Arguments x_before_start {X P}.

(** ** The state *)

Section Session.
Context {X P : Type}.

(** [requested] is not in the code: the custom messages that ask for a turn while no run
    is active, whose run begins when what goes on is over.  [calls] and [emitted] are
    histories. *)
Record AgentSession := MkSession {
  the_agent : Agent X; log : list LogEntry; ext : X; isAgentRunActive : bool;
  steeringMessages : list jsstring; followUpMessages : list jsstring;
  pendingNextTurnMessages : list CustomMessage; pendingCustomMessages : list CustomMessage;
  pendingBashMessages : list BashExecutionMessage;
  compactionRunning : bool; overflowRecoveryAttempted : bool; retryAttempt : Z;
  lastAssistantMessage : option AssistantMessage; turnIndex : Z;
  baseSystemPrompt : jsstring; systemPromptOverride : option jsstring;
  requested : list CustomMessage; preflights : list bool;
  calls : list session_call; emitted : list SessionEvent }.

#[export] Instance AgentSession_eta : Eta AgentSession := λ s,
  MkSession (the_agent s) (log s) (ext s) (isAgentRunActive s) (steeringMessages s) (followUpMessages s)
    (pendingNextTurnMessages s) (pendingCustomMessages s) (pendingBashMessages s) (compactionRunning s)
    (overflowRecoveryAttempted s) (retryAttempt s) (lastAssistantMessage s) (turnIndex s) (baseSystemPrompt s)
    (systemPromptOverride s) (requested s) (preflights s) (calls s) (emitted s).

(** A session at its beginning. *)
Definition new_session (a : Agent X) (path : list LogEntry) (x : X) (systemPrompt : jsstring) : AgentSession :=
  MkSession a path x false [] [] [] [] [] false false 0 None 0 systemPrompt None [] [] [] [].

Context (hst : SessionHost X P).

Definition now (s : AgentSession) : Z * AgentSession := let '(t, x) := x_now hst (ext s) in (t, s <| ext := x |>).

Definition set_messages (ms : list AgentMessage) (s : AgentSession) : AgentSession :=
  s <| the_agent := (the_agent s) <| a_messages := ms |> |>.
Definition messages_of (s : AgentSession) : list AgentMessage := a_messages (the_agent s).

Definition append_entry (payload : LogPayload) (s : AgentSession) : AgentSession :=
  let '((id, time), x) := x_stamp hst (ext s) in s <| ext := x |> <| log := log s ++ [MkLogEntry id time payload] |>.

(** *** What clients may call at any time

    [emit] notifies the listeners. *)

Section Calls.
Context (emit : SessionEvent → AgentSession → AgentSession).

Definition emitQueueUpdate (s : AgentSession) : AgentSession := emit (QueueUpdate (steeringMessages s) (followUpMessages s)) s.

Definition queued_message (text : jsstring) (images : list ImageContent) (t : Z) : AgentMessage :=
  AgentLlm (MUser (MkUserMessage (PartsContent (CText (MkText text None) :: (CImage <$> images))) t)).

Definition queueSteer (text : jsstring) (images : list ImageContent) (s : AgentSession) : AgentSession :=
  let s := s <| steeringMessages := steeringMessages s ++ [text] |> in
  let '(t, s) := now (emitQueueUpdate s) in
  s <| the_agent := steer (queued_message text images t) (the_agent s) |>.

Definition queueFollowUp (text : jsstring) (images : list ImageContent) (s : AgentSession) : AgentSession :=
  let s := s <| followUpMessages := followUpMessages s ++ [text] |> in
  let '(t, s) := now (emitQueueUpdate s) in
  s <| the_agent := followUp (queued_message text images t) (the_agent s) |>.

Definition appendCustomMessage (m : CustomMessage) (s : AgentSession) : AgentSession :=
  let s := set_messages (messages_of s ++ [AgentCustom m]) s in
  let s := append_entry (LogCustomMessage m) s in
  let s := emit (FromAgent (message_start (AgentCustom m)) None) s in
  emit (FromAgent (message_end (AgentCustom m)) None) s.

Definition flushPendingCustomMessages (s : AgentSession) : AgentSession :=
  let pending := pendingCustomMessages s in
  foldl (λ s m, appendCustomMessage m s) (s <| pendingCustomMessages := [] |>) pending.

Definition sendCustomMessage (m : CustomMessage) (triggerTurn : option bool) (deliverAs : option DeliverAs) (s : AgentSession)
    : AgentSession :=
  let '(t, s) := now s in
  let m := createCustomMessage (custom_type m) (custom_content m) (custom_display m) (custom_details m) t in
  if bool_decide (deliverAs = Some deliver_nextTurn) then s <| pendingNextTurnMessages := pendingNextTurnMessages s ++ [m] |>
  else if isAgentRunActive s && bool_decide (triggerTurn ≠ Some false) then
    if bool_decide (deliverAs = Some deliver_followUp) then s <| the_agent := followUp (AgentCustom m) (the_agent s) |>
    else s <| the_agent := steer (AgentCustom m) (the_agent s) |>
  else if flag triggerTurn then s <| requested := requested s ++ [m] |>
  else if isAgentRunActive s then s <| pendingCustomMessages := pendingCustomMessages s ++ [m] |>
  else appendCustomMessage m s.

Definition write_bash (m : BashExecutionMessage) (s : AgentSession) : AgentSession :=
  append_entry (LogMessage (AgentBash m)) (set_messages (messages_of s ++ [AgentBash m]) s).

Definition recordBashResult (m : BashExecutionMessage) (s : AgentSession) : AgentSession :=
  let '(t, s) := now s in
  let m := MkBash (command m) (output m) (exitCode m) (cancelled m) (truncated m) (fullOutputPath m) t (excludeFromContext m) in
  if isAgentRunActive s then s <| pendingBashMessages := pendingBashMessages s ++ [m] |> else write_bash m s.

Definition clearQueue (s : AgentSession) : AgentSession :=
  emitQueueUpdate (s <| steeringMessages := [] |> <| followUpMessages := [] |> <| the_agent := clearAllQueues (the_agent s) |>).

Definition apply_call (c : session_call) (s : AgentSession) : AgentSession :=
  let s := s <| calls := calls s ++ [c] |> in
  match c with
  | QueueSteer text images => queueSteer text images s
  | QueueFollowUp text images => queueFollowUp text images s
  | SendCustomMessage m triggerTurn deliverAs => sendCustomMessage m triggerTurn deliverAs s
  | RecordBashResult m => recordBashResult m s
  | ClearQueue => clearQueue s
  end.
End Calls.

(** [_emit]: the listeners, who may make calls with events of their own. *)
Fixpoint emit_nested (depth : nat) (e : SessionEvent) (s : AgentSession) : AgentSession :=
  let s := s <| emitted := emitted s ++ [e] |> in
  match depth with
  | O => s
  | S depth =>
      let '(cs, x) := x_listener hst e (ext s) in
      foldl (λ s c, apply_call (emit_nested depth) c s) (s <| ext := x |>) cs
  end.

Context (depth : nat).

Definition emit : SessionEvent → AgentSession → AgentSession := emit_nested depth.
Definition perform_calls (cs : list session_call) (s : AgentSession) : AgentSession :=
  foldl (λ s c, apply_call emit c s) s cs.
Definition notify (e : ExtensionEvent) (s : AgentSession) : AgentSession :=
  let '(cs, x) := x_notify hst e (ext s) in perform_calls cs (s <| ext := x |>).

Definition flushPendingBashMessages (s : AgentSession) : AgentSession :=
  (foldl (λ s m, write_bash m s) s (pendingBashMessages s)) <| pendingBashMessages := [] |>.

(** *** The model and its limits *)

Definition window (s : AgentSession) : Z := match x_model hst (ext s) with Some i => contextWindow i | None => 0 end.
Definition max_output (s : AgentSession) : Z := match x_model hst (ext s) with Some i => info_maxTokens i | None => 0 end.

Definition isRetryableError (m : AssistantMessage) (s : AgentSession) : bool :=
  negb (isContextOverflow m (window s)) && isRetryableAssistantError m.

(** *** Events of the agent *)

(** [contentText(content, "")]. *)
Definition content_text (content : message_content) : jsstring :=
  match content with
  | StringContent s => s
  | PartsContent parts => concat (omap (λ c, match c with CText t => Some (text t) | CImage _ => None end) parts)
  end.

Fixpoint remove_first (t : jsstring) (l : list jsstring) : option (list jsstring) :=
  match l with
  | [] => None
  | u :: l => if bool_decide (u = t) then Some l else cons u <$> remove_first t l
  end.

(** The beginning of [_handleAgentEvent]: a queued message that starts is shown no more. *)
Definition forget_queued (event : AgentEvent) (s : AgentSession) : AgentSession :=
  match event with
  | message_start (AgentLlm (MUser u)) =>
      let s := s <| overflowRecoveryAttempted := false |> in
      let t := content_text (user_content u) in
      if bool_decide (t = []) then s
      else
        match remove_first t (steeringMessages s), remove_first t (followUpMessages s) with
        | Some l, _ => emitQueueUpdate emit (s <| steeringMessages := l |>)
        | None, Some l => emitQueueUpdate emit (s <| followUpMessages := l |>)
        | None, None => s
        end
  | _ => s
  end.

Definition replace_last (m : AgentMessage) (ms : list AgentMessage) : list AgentMessage := removelast ms ++ [m].

(** [_emitExtensionEvent], and the event after it: the message of a [message_end], which
    the agent has just stored, may have been replaced in place by one of its role. *)
Definition emitExtensionEvent (event : AgentEvent) (s : AgentSession) : AgentEvent * AgentSession :=
  let s := match event with agent_start => s <| turnIndex := 0 |> | _ => s end in
  let '((cs, replacement), x) := x_extension hst event (ext s) in
  let s := perform_calls cs (s <| ext := x |>) in
  match event, replacement with
  | turn_end _ _, _ => (event, s <| turnIndex := turnIndex s + 1 |>)
  | message_end m, Some r =>
      if bool_decide (message_role r = message_role m) then (message_end r, set_messages (replace_last r (messages_of s)) s)
      else (event, s)
  | _, _ => (event, s)
  end.

Definition last_assistant (ms : list AgentMessage) : option AssistantMessage := last (omap as_assistant ms).

Definition willRetryAfterAgentEnd (ms : list AgentMessage) (s : AgentSession) : bool :=
  let settings := x_retry hst (ext s) in
  if negb (retry_enabled settings) || (maxRetries settings <=? retryAttempt s) then false
  else match last_assistant ms with Some m => isRetryableError m s | None => false end.

Definition session_event (event : AgentEvent) (s : AgentSession) : SessionEvent :=
  FromAgent event match event with agent_end ms => Some (willRetryAfterAgentEnd ms s) | _ => None end.

(** The persistence of a message that ended. *)
Definition persist_message (m : AgentMessage) (s : AgentSession) : AgentSession :=
  match m with
  | AgentCustom c => append_entry (LogCustomMessage c) s
  | AgentLlm _ => append_entry (LogMessage m) s
  | _ => s
  end.

(** The tracking of a response. *)
Definition track_response (m : AssistantMessage) (s : AgentSession) : AgentSession :=
  let s := s <| lastAssistantMessage := Some m |> in
  let s := if bool_decide (stopReason m ≠ sr_error) && bool_decide (stopReason m ≠ sr_length)
           then s <| overflowRecoveryAttempted := false |> else s in
  if bool_decide (stopReason m ≠ sr_error) && (0 <? retryAttempt s)
  then (emit (AutoRetryEnd true (retryAttempt s) None) s) <| retryAttempt := 0 |> else s.

Definition handleAgentEvent (event : AgentEvent) (s : AgentSession) : AgentSession :=
  let s := forget_queued event s in
  let '(event, s) := emitExtensionEvent event s in
  let s := emit (session_event event s) s in
  match event with
  | message_end m =>
      let s := persist_message m s in
      match as_assistant m with Some a => track_response a s | None => s end
  | turn_end _ _ => flushPendingCustomMessages emit s
  | _ => s
  end.

(** *** Retrying *)

Definition drop_assistant (s : AgentSession) : AgentSession :=
  match last (messages_of s) with
  | Some m => if bool_decide (message_role m = role_assistant) then set_messages (removelast (messages_of s)) s else s
  | None => s
  end.

Definition retry_delay (settings : RetryPolicy) (attempt : Z) : Z := baseDelayMs settings * 2 ^ (attempt - 1).

Definition prepareRetry (m : AssistantMessage) (s : AgentSession) : bool * AgentSession :=
  let settings := x_retry hst (ext s) in
  if negb (retry_enabled settings) then (false, s)
  else
    let s := s <| retryAttempt := retryAttempt s + 1 |> in
    if maxRetries settings <? retryAttempt s then (false, s <| retryAttempt := retryAttempt s - 1 |>)
    else
      let delay := retry_delay settings (retryAttempt s) in
      let s := emit (AutoRetryStart (retryAttempt s) (maxRetries settings) delay (error_or_unknown (errorMessage m))) s in
      let s := drop_assistant s in
      let '((cs, interrupted), x) := x_sleep hst delay (ext s) in
      let s := perform_calls cs (s <| ext := x |>) in
      if interrupted : bool then
        let attempt := retryAttempt s in
        (false, emit (AutoRetryEnd false attempt (Some (js "Retry cancelled"))) (s <| retryAttempt := 0 |>))
      else (true, s).

(** *** Compaction *)

(** The event of a compaction that did not come about, for listeners and for extensions. *)
Definition compaction_failed (reason : Reason) (error : option jsstring) (aborted fromExtension : bool) (s : AgentSession) : AgentSession :=
  notify (SessionCompactFailed reason error aborted fromExtension) (emit (CompactionEnd reason None aborted false error) s).

Definition perform_summary (reason : Reason) (steps : list summary_step) (s : AgentSession) : AgentSession :=
  foldl (λ s step, match step with
                   | Called c => apply_call emit c s
                   | Retrying e => emit (SummarizationRetry reason e) s
                   end) s steps.

(** The summary of an extension, or the default one. *)
Definition make_summary (p : P) (reason : Reason) (given : option CompactionResult) (s : AgentSession)
    : result jsstring CompactionResult * AgentSession :=
  match given with
  | Some c => (Ok c, s)
  | None =>
      let '((steps, made), x) := x_compact hst p reason (ext s) in
      (made, perform_summary reason steps (s <| ext := x |>))
  end.

(** The compaction is in the log, and the context is made anew from it.  [newEntries] are
    all entries of the session, of which the log is the path; an entry of another branch with
    the same summary, which extensions would be told of instead, is taken not to be there. *)
Definition save_compaction (c : CompactionResult) (fromExtension : bool) (reason : Reason) (willRetry : bool) (s : AgentSession)
    : AgentSession :=
  let s := append_entry (LogCompaction (cr_summary c) (cr_firstKeptEntryId c) (cr_tokensBefore c) (cr_details c)
                           fromExtension (cr_usage c)) s in
  let newEntries := log s in
  let context := context_messages newEntries in
  let s := set_messages context s in
  let s := match head (filter (λ e, has_summary (cr_summary c) e = true) newEntries) with
           | Some saved => notify (SessionCompact saved fromExtension reason willRetry) s
           | None => s
           end in
  emit (CompactionEnd reason (Some (c, sum_tokens context)) false willRetry None) s.

(** After a compaction that is to be continued. *)
Definition drop_failed_response (s : AgentSession) : AgentSession :=
  match last (messages_of s) ≫= as_assistant with
  | Some m =>
      if bool_decide (stopReason m = sr_error) || bool_decide (stopReason m = sr_length)
      then set_messages (removelast (messages_of s)) s else s
  | None => s
  end.

Definition failure_prefix (reason : Reason) : jsstring :=
  match reason with overflow => js "Context overflow recovery failed: " | _ => js "Auto-compaction failed: " end.

Definition runAutoCompaction (reason : Reason) (willRetry : bool) (s : AgentSession) : bool * AgentSession :=
  let settings := x_compaction hst (ext s) in
  match x_model hst (ext s) with
  | None => (false, s)
  | Some _ =>
      let '(auth, x) := x_auth hst (ext s) in
      let s := s <| ext := x |> in
      match auth, x_prepareCompaction hst (log s) settings with
      | Err _, _ | _, None => (false, s)
      | Ok _, Some p =>
          let s := emit (CompactionStart reason) s in
          let '(hook, x) := x_before_compact hst p reason willRetry (ext s) in
          let s := perform_calls (hook_calls hook) (s <| ext := x |>) in
          if hook_cancel hook then (false, compaction_failed reason None true false s)
          else
            let fromExtension := bool_decide (is_Some (hook_compaction hook)) in
            let '(made, s) := make_summary p reason (hook_compaction hook) s in
            match made with
            | Err message => (false, compaction_failed reason (Some (failure_prefix reason ++ message)) false fromExtension s)
            | Ok c =>
                if x_compaction_aborted hst (ext s) then (false, compaction_failed reason None true fromExtension s)
                else
                  let s := save_compaction c fromExtension reason willRetry s in
                  if willRetry then (true, drop_failed_response s) else (hasQueuedMessages (the_agent s), s)
            end
      end
  end.

Definition from_current_model (m : AssistantMessage) (s : AgentSession) : bool :=
  match x_model hst (ext s) with
  | Some i => bool_decide (assistant_provider m = info_provider i) && bool_decide (assistant_model m = info_id i)
  | None => false
  end.

(** [message.timestamp <= new Date(entry.timestamp).getTime()] of the latest compaction. *)
Definition before_compaction (m : AssistantMessage) (path : list LogEntry) : bool :=
  match getLatestCompactionEntry path with Some e => assistant_timestamp m <=? log_time e | None => false end.

Definition recovery_failed_message (contextOverflow : bool) : jsstring :=
  if contextOverflow
  then js "Context overflow recovery failed after one compact-and-retry attempt. Try reducing context or switching to a larger-context model."
  else js "Truncated response recovery failed after one compact-and-retry attempt.".

(** The tokens case 3 looks at; [None] when they are those of a response before the compaction. *)
Definition threshold_tokens (m : AssistantMessage) (s : AgentSession) : option Z :=
  let direct := calculateContextTokens (assistant_usage m) in
  if bool_decide (stopReason m = sr_error) || (direct =? 0) then
    let estimate := estimateContextTokens (messages_of s) in
    let stale := match lastUsageIndex estimate with
                 | Some i => match messages_of s !! i ≫= as_assistant with
                             | Some u => before_compaction u (log s)
                             | None => false
                             end
                 | None => false
                 end in
    if stale then None else Some (tokens estimate)
  else Some direct.

(** Case 1: the response is to be tried again after a compaction, once. *)
Definition recover (contextOverflow : bool) (s : AgentSession) : bool * AgentSession :=
  if overflowRecoveryAttempted s then
    (false, compaction_failed overflow (Some (recovery_failed_message contextOverflow)) false false s)
  else runAutoCompaction overflow true (drop_assistant (s <| overflowRecoveryAttempted := true |>)).

Definition checkCompaction (m : AssistantMessage) (skipAbortedCheck : bool) (s : AgentSession) : bool * AgentSession :=
  let settings := x_compaction hst (ext s) in
  if negb (enabled settings) then (false, s)
  else if skipAbortedCheck && bool_decide (stopReason m = sr_aborted) then (false, s)
  else if before_compaction m (log s) then (false, s)
  else
    let contextOverflow := from_current_model m s && isContextOverflow m (window s) in
    let recoverableLength := from_current_model m s && isRecoverableLength m (max_output s) in
    if contextOverflow || recoverableLength then
      if bool_decide (stopReason m = sr_stop) then runAutoCompaction overflow false s
      else recover contextOverflow s
    else
      match threshold_tokens m s with
      | None => (false, s)
      | Some contextTokens =>
          if shouldCompact contextTokens (window s) settings then runAutoCompaction threshold false s else (false, s)
      end.

(** *** Runs *)

(** The end of a retry that is not prepared again. *)
Definition end_retries (m : AssistantMessage) (s : AgentSession) : AgentSession :=
  if bool_decide (stopReason m = sr_error) && (0 <? retryAttempt s)
  then (emit (AutoRetryEnd false (retryAttempt s) (errorMessage m)) s) <| retryAttempt := 0 |> else s.

Definition handlePostAgentRun (s : AgentSession) : bool * AgentSession :=
  match lastAssistantMessage s with
  | None => (false, s)
  | Some m =>
      let s := s <| lastAssistantMessage := None |> in
      let '(retry, s) := if isRetryableError m s then prepareRetry m s else (false, s) in
      if retry : bool then (true, s)
      else
        let s := end_retries m s in
        let '(go, s) := checkCompaction m true s in
        if go : bool then (true, s) else (hasQueuedMessages (the_agent s), s)
  end.

Definition run_one (s : AgentSession) (step : run_step) : AgentSession :=
  match step with
  | Delivers e => handleAgentEvent e (s <| the_agent := reduce_event e (the_agent s) |>)
  | PollsSteering => s <| the_agent := (the_agent s) <| steeringQueue := (drain (steeringQueue (the_agent s))).2 |> |>
  | PollsFollowUps => s <| the_agent := (the_agent s) <| followUpQueue := (drain (followUpQueue (the_agent s))).2 |> |>
  | Meanwhile c => apply_call emit c s
  end.

Definition begin_run (a : Agent X) : Agent X :=
  a <| activeRun := Some false |> <| Agent.isStreaming := true |> <| streamingMessage := None |> <| a_errorMessage := None |>.
Definition end_run (a : Agent X) : Agent X :=
  a <| Agent.isStreaming := false |> <| streamingMessage := None |> <| pendingToolCalls := [] |> <| activeRun := None |>.

Definition run_agent (start : run_start) (s : AgentSession) : AgentSession :=
  let s := s <| the_agent := begin_run (the_agent s) |> in
  let '(steps, x) := x_run hst start (the_agent s) (ext s) in
  let s := foldl run_one (s <| ext := x |>) steps in
  s <| the_agent := end_run (the_agent s) |>.

(** [agent.prompt] and [agent.continue]. *)
Definition agent_prompt (ms : list AgentMessage) (s : AgentSession) : result agent_error unit * AgentSession :=
  match activeRun (the_agent s) with
  | Some _ => (Err AlreadyProcessing, s)
  | None => (Ok (), run_agent (Prompted ms) s)
  end.

Definition agent_continue (s : AgentSession) : result agent_error unit * AgentSession :=
  let a := the_agent s in
  match activeRun a, last (a_messages a) with
  | Some _, _ => (Err AlreadyProcessing, s)
  | None, None => (Err NothingToContinue, s)
  | None, Some m =>
      if bool_decide (message_role m = role_assistant) then
        let '(queuedSteering, q) := drain (steeringQueue a) in
        if negb (bool_decide (queuedSteering = [])) then
          (Ok (), run_agent (Prompted queuedSteering) (s <| the_agent := a <| steeringQueue := q |> |>))
        else
          let '(queuedFollowUps, q') := drain (followUpQueue a) in
          let s := s <| the_agent := a <| steeringQueue := q |> <| followUpQueue := q' |> |> in
          if negb (bool_decide (queuedFollowUps = [])) then (Ok (), run_agent (Prompted queuedFollowUps) s)
          else (Err LastMessageIsAssistant, s)
      else (Ok (), run_agent Continued s)
  end.

(** [while (await this._handlePostAgentRun()) await this.agent.continue()], with the
    number of continuations it may take. *)
Fixpoint post_runs (fuel : nat) (s : AgentSession) : option (result agent_error unit * AgentSession) :=
  let '(go, s) := handlePostAgentRun s in
  if go : bool then
    match fuel with
    | O => None
    | S fuel =>
        match agent_continue s with
        | (Ok _, s) => post_runs fuel s
        | (Err e, s) => Some (Err e, s)
        end
    end
  else Some (Ok (), s).

Definition emitAgentSettled (s : AgentSession) : AgentSession :=
  emit AgentSettled (notify ExtensionsSettled (s <| isAgentRunActive := false |>)).

(** The [finally] of [_runAgentPrompt]. *)
Definition settle (s : AgentSession) : AgentSession :=
  let s := flushPendingBashMessages (s <| systemPromptOverride := None |>) in
  emitAgentSettled (flushPendingCustomMessages emit s).

Definition runAgentPrompt (fuel : nat) (ms : list AgentMessage) (s : AgentSession)
    : option (result agent_error unit * AgentSession) :=
  match agent_prompt ms (s <| isAgentRunActive := true |>) with
  | (Err e, s) => Some (Err e, settle s)
  | (Ok _, s) => match post_runs fuel s with
                 | Some (r, s) => Some (r, settle s)
                 | None => None
                 end
  end.

(** *** Prompts *)

Inductive prompt_error := CompactionInProgress | BehaviorRequired | NoModelSelected | NotAuthorized | AgentFault (e : agent_error).

Definition preflight (success : bool) (s : AgentSession) : AgentSession := s <| preflights := preflights s ++ [success] |>.

Definition check_before_prompt (s : AgentSession) : AgentSession :=
  match last_assistant (messages_of s) with
  | Some m => (checkCompaction m false s).2
  | None => s
  end.

(** The messages of a prompt, and the system prompt it is sent with. *)
Definition prompt_messages (text : jsstring) (images : option (list ImageContent)) (s : AgentSession) : list AgentMessage * AgentSession :=
  let '(t, s) := now s in
  let messages := queued_message text (default [] images) t :: (AgentCustom <$> pendingNextTurnMessages s) in
  let s := s <| pendingNextTurnMessages := [] |> in
  let '(result, x) := x_before_start hst text images (ext s) in
  let s := perform_calls (start_calls result) (s <| ext := x |>) in
  let '(t, s) := now s in
  let added := (λ m, AgentCustom (createCustomMessage (custom_type m) (custom_content m) (custom_display m) (custom_details m) t))
                 <$> start_messages result in
  let prompt := default (baseSystemPrompt s) (start_systemPrompt result) in
  (messages ++ added,
   s <| systemPromptOverride := start_systemPrompt result |> <| the_agent := (the_agent s) <| a_systemPrompt := prompt |> |>).

Definition fail_prompt (e : prompt_error) (s : AgentSession) : option (result prompt_error unit * AgentSession) :=
  Some (Err e, preflight false s).

(** A prompt of expanded text. *)
Definition submit (fuel : nat) (text : jsstring) (images : option (list ImageContent)) (behavior : option DeliverAs) (s : AgentSession)
    : option (result prompt_error unit * AgentSession) :=
  if isAgentRunActive s then
    match behavior with
    | None => fail_prompt BehaviorRequired s
    | Some deliver_followUp => Some (Ok (), preflight true (queueFollowUp emit text (default [] images) s))
    | Some _ => Some (Ok (), preflight true (queueSteer emit text (default [] images) s))
    end
  else
    let s := flushPendingCustomMessages emit (flushPendingBashMessages s) in
    match x_model hst (ext s) with
    | None => fail_prompt NoModelSelected s
    | Some _ =>
        let '(authorized, x) := x_authorized hst (ext s) in
        let s := s <| ext := x |> in
        if negb authorized then fail_prompt NotAuthorized s
        else
          let '(messages, s) := prompt_messages text images (check_before_prompt s) in
          match runAgentPrompt fuel messages (preflight true s) with
          | None => None
          | Some (Ok _, s) => Some (Ok (), s)
          | Some (Err e, s) => Some (Err (AgentFault e), s)
          end
    end.

Definition is_command (t : jsstring) : bool := match t with c :: _ => c =? 47 | [] => false end.

Definition prompt (fuel : nat) (text : jsstring) (images : option (list ImageContent)) (behavior : option DeliverAs)
    (expandPromptTemplates : bool) (s : AgentSession) : option (result prompt_error unit * AgentSession) :=
  match (if expandPromptTemplates && is_command text then x_command hst text (ext s) else None) with
  | Some (cs, x) => Some (Ok (), preflight true (perform_calls cs (s <| ext := x |>)))
  | None =>
      if compactionRunning s then fail_prompt CompactionInProgress s
      else
        let '((cs, input), x) := x_input hst text images (if isAgentRunActive s then behavior else None) (ext s) in
        let s := perform_calls cs (s <| ext := x |>) in
        let expand t := if expandPromptTemplates then x_expand hst t (ext s) else t in
        match input with
        | InputHandled => Some (Ok (), preflight true s)
        | InputTransform text' images' =>
            submit fuel (expand text') (match images' with Some _ => images' | None => images end) behavior s
        | InputContinue => submit fuel (expand text) images behavior s
        end
  end.

(** A custom message sent while nothing else goes on: it may begin a run. *)
Definition send_message (fuel : nat) (m : CustomMessage) (triggerTurn : option bool) (deliverAs : option DeliverAs) (s : AgentSession)
    : option (result agent_error unit * AgentSession) :=
  let s := apply_call emit (SendCustomMessage m triggerTurn deliverAs) s in
  match requested s with
  | [] => Some (Ok (), s)
  | m :: rest => runAgentPrompt fuel [AgentCustom m] (s <| requested := rest |>)
  end.

(** *** What is done with a session, one thing after another *)

Inductive session_op :=
| Prompt (text : jsstring) (images : option (list ImageContent)) (behavior : option DeliverAs) (expandPromptTemplates : bool)
| Message (m : CustomMessage) (triggerTurn : option bool) (deliverAs : option DeliverAs)
| Call (c : session_call).

Definition session_step (fuel : nat) (op : session_op) (s : AgentSession) : option AgentSession :=
  match op with
  | Prompt text images behavior expand => snd <$> prompt fuel text images behavior expand s
  | Message m triggerTurn deliverAs => snd <$> send_message fuel m triggerTurn deliverAs s
  | Call c => Some (apply_call emit c s)
  end.

Fixpoint session_run (fuel : nat) (ops : list session_op) (s : AgentSession) : option AgentSession :=
  match ops with
  | [] => Some s
  | op :: ops => s ← session_step fuel op s; session_run fuel ops s
  end.
End Session.
Arguments AgentSession : clear implicits.
