(* ===== verification/AgentSessionRuns.v ===== *)
(** * What the session keeps through its operations

    Relations between the states of an [AgentSession] before and after an operation: what
    calls of clients leave alone ([moved]), how runs of the agent change what is tracked of
    responses ([tracks]), and that every operation keeps the protocols of retries and of
    recoveries ([evolves]). *)

From S2P Require Import Prelude JsNumber JsString SessionTypes Messages Retry Compaction AgentLoop Agent Overflow AgentSession.

(** ** Events *)

Definition is_retry_event (e : SessionEvent) : bool :=
  match e with AutoRetryStart _ _ _ _ | AutoRetryEnd _ _ _ => true | _ => false end.
Definition between_runs (e : SessionEvent) : bool :=
  match e with AutoRetryStart _ _ _ _ | AutoRetryEnd false _ _ => true | _ => false end.
Definition starts_user (e : SessionEvent) : bool :=
  match e with FromAgent (message_start (AgentLlm (MUser _))) _ => true | _ => false end.
Definition response_of (e : SessionEvent) : option AssistantMessage :=
  match e with FromAgent (message_end (AgentLlm (MAssistant m))) _ => Some m | _ => None end.
(** A compaction after which the turn is tried again. *)
Definition recovers (e : SessionEvent) : bool := match e with CompactionEnd _ _ _ true _ => true | _ => false end.

Definition calm (e : SessionEvent) : Prop :=
  is_retry_event e = false ∧ starts_user e = false ∧ response_of e = None ∧ recovers e = false.

(** The protocol of retries: attempts are counted from one, none beyond the limit, and
    each series has one end, a success exactly when the last response was no error.  The
    state: the retry that is under way, and whether the last response was no error. *)
Definition accepted (m : AssistantMessage) : bool := bool_decide (stopReason m ≠ sr_error).

Definition retry_step (state : option (Z * bool)) (e : SessionEvent) : option (Z * bool) :=
  '(n, ok) ← state;
  match e, response_of e with
  | AutoRetryStart k limit _ _, _ => if bool_decide (k = n + 1) && (k <=? limit) then Some (k, false) else None
  | AutoRetryEnd success k _, _ => if bool_decide (k = n) && (0 <? k) && bool_decide (success = ok) then Some (0, ok) else None
  | _, Some m => Some (n, accepted m)
  | _, None => Some (n, ok)
  end.

Lemma retry_none es : foldl retry_step None es = None.
Proof. by induction es. Qed.

(** What the session keeps of the responses, by the events of a run. *)
Definition keeps_recovering (m : AssistantMessage) : bool :=
  bool_decide (stopReason m = sr_error) || bool_decide (stopReason m = sr_length).

Record tracked := MkTracked { t_retry : Z; t_attempted : bool; t_last : option AssistantMessage }.

Definition track_step (t : tracked) (e : SessionEvent) : tracked :=
  match response_of e with
  | Some m => MkTracked (if bool_decide (stopReason m = sr_error) then t_retry t else 0)
                (if keeps_recovering m then t_attempted t else false) (Some m)
  | None =>
      if starts_user e then MkTracked (t_retry t) false (t_last t)
      else match e with AutoRetryEnd _ _ _ => MkTracked 0 (t_attempted t) (t_last t) | _ => t end
  end.

Definition in_run (e : SessionEvent) : Prop := between_runs e = false ∧ recovers e = false.

(** The protocol of recoveries: after one, none before a new message of the user or a
    response that is neither an error nor cut short. *)
Definition recovery_step (state : option bool) (e : SessionEvent) : option bool :=
  if recovers e then match state with Some false => Some true | _ => None end
  else
    match state, response_of e with
    | Some _, Some m => if keeps_recovering m then state else Some false
    | Some _, None => if starts_user e then Some false else state
    | None, _ => None
    end.

(** A call that leaves the queues of the agent empty. *)
Definition unqueueing (c : session_call) : bool :=
  match c with
  | QueueSteer _ _ | QueueFollowUp _ _ => false
  | SendCustomMessage _ triggerTurn deliverAs =>
      bool_decide (deliverAs = Some deliver_nextTurn) || bool_decide (triggerTurn = Some false)
  | RecordBashResult _ | ClearQueue => true
  end.

(** What all the calls of a host satisfy. *)
Record host_calls {X P} (hst : SessionHost X P) (C : session_call → Prop) : Prop := {
  hc_listener : ∀ e x, Forall C (x_listener hst e x).1;
  hc_extension : ∀ e x, Forall C (x_extension hst e x).1.1;
  hc_notify : ∀ e x, Forall C (x_notify hst e x).1;
  hc_sleep : ∀ d x, Forall C (x_sleep hst d x).1.1;
  hc_hook : ∀ p r w x, Forall C (hook_calls (x_before_compact hst p r w x).1);
  hc_summary : ∀ p r x, Forall (λ step, match step with Called c => C c | Retrying _ => True end) (x_compact hst p r x).1.1;
  hc_run : ∀ start a x, Forall (λ step, match step with Meanwhile c => C c | _ => True end) (x_run hst start a x).1;
  hc_command : ∀ t x cs y, x_command hst t x = Some (cs, y) → Forall C cs;
  hc_input : ∀ t i b x, Forall C (x_input hst t i b x).1.1;
  hc_start : ∀ t i x, Forall C (start_calls (x_before_start hst t i x).1) }.
Arguments hc_listener {X P hst C}.
Arguments hc_extension {X P hst C}.
Arguments hc_notify {X P hst C}.
Arguments hc_sleep {X P hst C}.
Arguments hc_hook {X P hst C}.
Arguments hc_summary {X P hst C}.
Arguments hc_run {X P hst C}.
Arguments hc_command {X P hst C}.
Arguments hc_input {X P hst C}.
Arguments hc_start {X P hst C}.

Lemma host_calls_any {X P} (hst : SessionHost X P) : host_calls hst (λ _, True).
Proof.
  split; intros; apply Forall_forall; intros c _; try done; by destruct c.
Qed.

Section Theorems.
Context {X P : Type} (hst : SessionHost X P) (depth : nat).
#[local] Abbreviation session := (AgentSession X).

(** ** Relations that calls respect *)

Section Relation.
Context (R : session → session → Prop) {HR : PreOrder R}.
Context (A : SessionEvent → Prop) (C : session_call → Prop).

(** What a relation needs to hold of all that clients may do. *)
Record call_relation : Prop := {
  rel_ext : ∀ s x, R s (s <| ext := x |>);
  rel_says : ∀ e s, A e → R s (s <| emitted := emitted s ++ [e] |>);
  rel_calm : ∀ e, calm e → A e;
  rel_call : ∀ em c s, C c → (∀ e s, calm e → R s (em e s)) → R s (apply_call hst em c s);
  rel_listeners : ∀ e x, Forall C (x_listener hst e x).1 }.

Context (HC : call_relation).

Lemma calls_rel em cs s : (∀ e s, calm e → R s (em e s)) → Forall C cs → R s (foldl (λ s c, apply_call hst em c s) s cs).
Proof.
  intros Hem Hcs. revert s. induction Hcs as [|c cs Hc _ IH]; intros s; cbn [foldl]; [done|].
  etrans; [by apply (rel_call HC em c s)|apply IH].
Qed.

Lemma emit_nested_rel d e s : A e → R s (emit_nested hst d e s).
Proof.
  revert e s. induction d as [|d IH]; intros e s He; cbn [emit_nested]; [by apply (rel_says HC)|].
  etrans; [by apply (rel_says HC e)|]. set (s1 := s <| emitted := _ |>).
  pose proof (rel_listeners HC e (ext s1)) as Hl. destruct (x_listener hst e (ext s1)) as [cs x]. cbn [fst] in Hl.
  etrans; [by apply (rel_ext HC s1 x)|]. apply calls_rel; [|done]. intros e' s' He'. by apply IH, (rel_calm HC).
Qed.

Lemma emit_rel e s : A e → R s (emit hst depth e s).
Proof. apply emit_nested_rel. Qed.

Lemma performs_rel cs s : Forall C cs → R s (perform_calls hst depth cs s).
Proof. apply calls_rel. intros e s' He. by apply emit_rel, (rel_calm HC). Qed.

Lemma performed_rel cs x s : Forall C cs → R s (perform_calls hst depth cs (s <| ext := x |>)).
Proof. intros Hcs. etrans; [by apply (rel_ext HC)|by apply performs_rel]. Qed.

Lemma notify_rel e s : (∀ x, Forall C (x_notify hst e x).1) → R s (notify hst depth e s).
Proof. intros Hcs. unfold notify. specialize (Hcs (ext s)). destruct (x_notify _ _ _) as [cs x]. by apply performed_rel. Qed.
End Relation.

(** ** What calls leave alone

    [C] are the calls the host makes; when they queue nothing, empty queues stay empty. *)

Context (C : session_call → Prop) (HC : host_calls hst C).

Definition unqueued (s : session) : Prop := hasQueuedMessages (the_agent s) = false.
Definition tracked_of (s : session) : tracked := MkTracked (retryAttempt s) (overflowRecoveryAttempted s) (lastAssistantMessage s).
Definition keeps_unqueued (s s' : session) : Prop := (∀ c, C c → unqueueing c = true) → unqueued s → unqueued s'.

Record moved (A : SessionEvent → Prop) (s s' : session) : Prop := {
  mv_active : isAgentRunActive s' = isAgentRunActive s;
  mv_tracked : tracked_of s' = tracked_of s;
  mv_unqueued : keeps_unqueued s s';
  mv_events : ∃ es, emitted s' = emitted s ++ es ∧ Forall A es }.

#[local] Instance moved_preorder A : PreOrder (moved A).
Proof.
  split.
  - intros s. split; [done|done|by intros ? ?|]. exists []. by rewrite app_nil_r.
  - intros s1 s2 s3 [A1 T1 U1 (es1 & E1 & F1)] [A2 T2 U2 (es2 & E2 & F2)].
    split; [congruence|congruence|by intros Hp Hs; apply U2, U1|].
    exists (es1 ++ es2). by rewrite E2, E1, <- app_assoc, Forall_app.
Qed.

Lemma moved_weaken (A B : SessionEvent → Prop) s s' : (∀ e, A e → B e) → moved A s s' → moved B s s'.
Proof. intros HAB [A1 T1 U1 (es & E & F)]. split; try done. exists es. split; [done|]. by eapply Forall_impl. Qed.

(** A change of other fields. *)
Lemma moved_same A s s' :
  isAgentRunActive s' = isAgentRunActive s → tracked_of s' = tracked_of s → emitted s' = emitted s →
  steeringQueue (the_agent s') = steeringQueue (the_agent s) → followUpQueue (the_agent s') = followUpQueue (the_agent s) →
  moved A s s'.
Proof.
  intros Ha Ht He Hq1 Hq2. split; try done.
  - intros _. unfold unqueued, hasQueuedMessages. by rewrite Hq1, Hq2.
  - exists []. by rewrite app_nil_r.
Qed.

Lemma moved_now A s : moved A s (now hst s).2.
Proof. unfold now. destruct (x_now _ _). by apply moved_same. Qed.

Lemma moved_append A p s : moved A s (append_entry hst p s).
Proof. unfold append_entry. destruct (x_stamp _ _) as [[??]?]. by apply moved_same. Qed.

Lemma moved_custom A em m s : (∀ e s, calm e → moved A s (em e s)) → moved A s (appendCustomMessage hst em m s).
Proof.
  intros Hem. unfold appendCustomMessage. etrans; [|by apply Hem]. etrans; [|by apply Hem].
  etrans; [|apply moved_append]. by apply moved_same.
Qed.

(** A message that is queued: such a call is none of those that queue nothing. *)
Lemma moved_queueSteer A em t i s :
  C (QueueSteer t i) → (∀ e s, calm e → moved A s (em e s)) → moved A s (queueSteer hst em t i s).
Proof.
  intros Hc Hem. assert (M1 : moved A s (now hst (emitQueueUpdate em (s <| steeringMessages := steeringMessages s ++ [t] |>))).2).
  { etrans; [|apply moved_now]. etrans; [|by apply Hem]. by apply moved_same. }
  unfold queueSteer. destruct (now hst (emitQueueUpdate em _)) as [t1 s2]. destruct M1 as [Ma Mt Mu Me].
  split; try done. intros Hp. by specialize (Hp _ Hc).
Qed.

Lemma moved_queueFollowUp A em t i s :
  C (QueueFollowUp t i) → (∀ e s, calm e → moved A s (em e s)) → moved A s (queueFollowUp hst em t i s).
Proof.
  intros Hc Hem. assert (M1 : moved A s (now hst (emitQueueUpdate em (s <| followUpMessages := followUpMessages s ++ [t] |>))).2).
  { etrans; [|apply moved_now]. etrans; [|by apply Hem]. by apply moved_same. }
  unfold queueFollowUp. destruct (now hst (emitQueueUpdate em _)) as [t1 s2]. destruct M1 as [Ma Mt Mu Me].
  split; try done. intros Hp. by specialize (Hp _ Hc).
Qed.

Lemma moved_call A em c s : C c → (∀ e s, calm e → moved A s (em e s)) → moved A s (apply_call hst em c s).
Proof.
  intros Hc Hem. unfold apply_call. etrans; [by apply (moved_same _ s (s <| calls := calls s ++ [c] |>))|].
  set (s1 := s <| calls := _ |>). generalize s1. clear s s1. intros s.
  destruct c as [t i|t i|m tt d|m|].
  - by apply moved_queueSteer.
  - by apply moved_queueFollowUp.
  - unfold sendCustomMessage. pose proof (moved_now A s) as M1. destruct (now hst s) as [t1 s2]. cbn [snd] in M1.
    etrans; [exact M1|]. clear M1. generalize s2. clear s2. intros s2. set (m' := createCustomMessage _ _ _ _ _).
    assert (Hq : ∀ s', isAgentRunActive s' = isAgentRunActive s2 → tracked_of s' = tracked_of s2 → emitted s' = emitted s2 →
                 bool_decide (d = Some deliver_nextTurn) = false → bool_decide (tt ≠ Some false) = true → moved A s2 s').
    { intros s' Ea Et Ee Hd Ht. split; try done.
      - intros Hp. specialize (Hp _ Hc). cbn in Hp. rewrite Hd in Hp. apply bool_decide_eq_true in Hp.
        by apply bool_decide_eq_true in Ht.
      - exists []. by rewrite app_nil_r. }
    destruct (bool_decide (d = Some deliver_nextTurn)) eqn:Hd; [by apply moved_same|].
    destruct (isAgentRunActive s2) eqn:Ha; cbn [andb]; [destruct (bool_decide (tt ≠ Some false)) eqn:Ht|].
    + destruct (bool_decide (d = Some deliver_followUp)); by apply Hq.
    + destruct (flag tt); by apply moved_same.
    + destruct (flag tt); [by apply moved_same|by apply moved_custom].
  - unfold recordBashResult. pose proof (moved_now A s) as M1. destruct (now hst s) as [t1 s2]. cbn [snd] in M1.
    etrans; [exact M1|]. destruct (isAgentRunActive s2); [by apply moved_same|].
    unfold write_bash. etrans; [|apply moved_append]. by apply moved_same.
  - unfold clearQueue, emitQueueUpdate. etrans; [|by apply Hem].
    split; try done. exists []. by rewrite app_nil_r.
Qed.

Lemma moved_calls A : (∀ e, calm e → A e) → call_relation (moved A) A C.
Proof.
  intros HA. split; try done.
  - intros s x. by apply moved_same.
  - intros e s He. split; [done|done|by intros ? ?|]. exists [e]. by split; [|constructor].
  - intros em c s Hc Hem. by apply moved_call.
  - apply (hc_listener HC).
Qed.

#[local] Abbreviation quiet := (moved calm).
#[local] Abbreviation says e s := (s <| emitted := emitted s ++ [e] |>).

Lemma quiet_calls : call_relation quiet calm C.
Proof. by apply moved_calls. Qed.

Lemma emit_quiet e s : calm e → quiet s (emit hst depth e s).
Proof. apply (emit_rel _ _ _ quiet_calls). Qed.

(** What listeners do comes after the event. *)
Lemma emit_after e s : quiet (says e s) (emit hst depth e s).
Proof.
  unfold emit. destruct depth as [|d]; cbn [emit_nested]; [done|].
  set (s1 := s <| emitted := _ |>). pose proof (hc_listener HC e (ext s1)) as Hl.
  destruct (x_listener hst e (ext s1)) as [cs x]. cbn [fst] in Hl.
  etrans; [by apply (rel_ext _ _ _ quiet_calls s1 x)|]. apply (calls_rel _ _ _ quiet_calls); [|done].
  intros e' s' He'. by apply (emit_nested_rel _ _ _ quiet_calls).
Qed.

Lemma emit_says_quiet e s : calm e → quiet s (says e s).
Proof. apply (rel_says _ _ _ quiet_calls). Qed.

Lemma perform_quiet cs x s : Forall C cs → quiet s (perform_calls hst depth cs (s <| ext := x |>)).
Proof. apply (performed_rel _ _ _ quiet_calls). Qed.

Lemma notify_quiet e s : quiet s (notify hst depth e s).
Proof. apply (notify_rel _ _ _ quiet_calls). intros x. apply (hc_notify HC). Qed.

Lemma flush_custom_quiet s : quiet s (flushPendingCustomMessages hst (emit hst depth) s).
Proof.
  unfold flushPendingCustomMessages. generalize (pendingCustomMessages s). intros ms.
  trans (s <| pendingCustomMessages := [] |>); [by apply moved_same|]. generalize (s <| pendingCustomMessages := [] |>).
  induction ms as [|m ms IH]; intros s1; cbn [foldl]; [done|]. etrans; [|apply IH].
  apply moved_custom. intros e s'. apply emit_quiet.
Qed.

(** ** Compaction *)

Lemma set_messages_quiet ms s : quiet s (set_messages ms s).
Proof. by apply moved_same. Qed.

Lemma drop_assistant_quiet s : quiet s (drop_assistant s).
Proof. unfold drop_assistant. repeat case_match; try done. apply set_messages_quiet. Qed.

Lemma drop_failed_quiet s : quiet s (drop_failed_response s).
Proof. unfold drop_failed_response. repeat case_match; try done. apply set_messages_quiet. Qed.

Lemma compaction_failed_quiet r e a x s : quiet s (compaction_failed hst depth r e a x s).
Proof. unfold compaction_failed. etrans; [|apply notify_quiet]. by apply emit_quiet. Qed.

Lemma perform_summary_quiet r steps s :
  Forall (λ step, match step with Called c => C c | Retrying _ => True end) steps → quiet s (perform_summary hst depth r steps s).
Proof.
  intros Hs. unfold perform_summary. revert s. induction Hs as [|step steps Hstep _ IH]; intros s; cbn [foldl]; [done|].
  etrans; [|apply IH]. destruct step; [|by apply emit_quiet]. apply moved_call; [done|]. intros e s'. apply emit_quiet.
Qed.

Lemma make_summary_quiet p r g s : quiet s (make_summary hst depth p r g s).2.
Proof.
  unfold make_summary. destruct g; [done|]. pose proof (hc_summary HC p r (ext s)) as Hs.
  destruct (x_compact hst p r (ext s)) as [[steps made] x]. cbn [fst snd] in *.
  etrans; [|by apply perform_summary_quiet]. by apply moved_same.
Qed.

(** Saving is quiet up to the event at its end. *)
Lemma save_compaction_quiet c f r w s :
  ∃ s1 result, quiet s s1 ∧ quiet (says (CompactionEnd r (Some result) false w None) s1) (save_compaction hst depth c f r w s).
Proof.
  unfold save_compaction. set (s1 := append_entry _ _ s). set (s2 := set_messages _ s1).
  set (s3 := match head _ with Some saved => notify _ _ _ s2 | None => s2 end).
  exists s3. eexists. split; [|apply emit_after].
  trans s1; [apply moved_append|]. trans s2; [apply set_messages_quiet|]. unfold s3. case_match; [|done]. apply notify_quiet.
Qed.

(** A compaction after which the turn is tried again. *)
Definition recovered (s s' : session) : Prop :=
  ∃ s1 r result, quiet s s1 ∧ quiet (says (CompactionEnd r (Some result) false true None) s1) s'.

(** Something else: whether to go on is whether messages are queued. *)
Definition carried_on (s : session) (go : bool) (s' : session) : Prop := quiet s s' ∧ (go = true → ¬ unqueued s').

Lemma queued_iff (s : session) : hasQueuedMessages (the_agent s) = true → ¬ unqueued s.
Proof. unfold unqueued. by intros ->. Qed.

Lemma runAutoCompaction_spec r w s go s' :
  runAutoCompaction hst depth r w s = (go, s') →
  carried_on s go s' ∧ (w = true → go = false) ∨ w = true ∧ go = true ∧ recovered s s'.
Proof.
  unfold runAutoCompaction. destruct (x_model _ _); [|intros [= <- <-]; by left].
  destruct (x_auth hst (ext s)) as [auth x]. set (s1 := s <| ext := x |>).
  assert (M1 : quiet s s1) by by apply moved_same. clearbody s1.
  destruct auth; [|intros [= <- <-]; by left]. destruct (x_prepareCompaction _ _ _) as [p|]; [|intros [= <- <-]; by left].
  pose proof (emit_quiet (CompactionStart r) s1) as M2. set (s2 := emit hst depth _ s1) in *. clearbody s2.
  pose proof (hc_hook HC p r w (ext s2)) as Hh. destruct (x_before_compact _ _ _ _ _) as [hook x2]. cbn [fst] in Hh.
  pose proof (perform_quiet _ x2 s2 Hh) as M3. set (s3 := perform_calls _ _ _ _) in *. clearbody s3.
  assert (M : quiet s s3) by (etrans; [exact M1|]; etrans; [by apply M2|exact M3]). clear M1 M2 M3.
  assert (Hfail : ∀ e b f s4, quiet s s4 → (false, compaction_failed hst depth r e b f s4) = (go, s') → carried_on s go s' ∧ (w = true → go = false)).
  { intros e b f s4 M4 [= <- <-]. split; [|done]. split; [|done]. etrans; [exact M4|apply compaction_failed_quiet]. }
  destruct (hook_cancel hook); [intros E; left; by eapply Hfail|].
  pose proof (make_summary_quiet p r (hook_compaction hook) s3) as M4. destruct (make_summary _ _ _ _ _ _) as [made s4]. cbn [snd] in M4.
  assert (M5 : quiet s s4) by by etrans. destruct made as [c|e]; [|intros E; left; by eapply Hfail].
  destruct (x_compaction_aborted _ _); [intros E; left; by eapply Hfail|].
  destruct (save_compaction_quiet c (bool_decide (is_Some (hook_compaction hook))) r w s4) as (s5 & result & M6 & M7).
  set (s6 := save_compaction _ _ _ _ _ _ _) in *. clearbody s6. destruct w; intros [= <- <-].
  - right. split_and!; [done..|]. exists s5, r, result. split; [by trans s4|]. etrans; [exact M7|apply drop_failed_quiet].
  - left. split; [|done]. split; [|apply queued_iff]. etrans; [exact M5|]. etrans; [exact M6|]. etrans; [|exact M7].
    by apply (emit_says_quiet (CompactionEnd r (Some result) false false None)).
Qed.

(** The one attempt of a recovery, which may come to nothing. *)
Definition attempted (s : session) : session := s <| overflowRecoveryAttempted := true |>.
Definition recovery (s : session) (go : bool) (s' : session) : Prop :=
  overflowRecoveryAttempted s = false ∧ (if go then recovered (attempted s) s' else quiet (attempted s) s').

Lemma recover_spec o s go s' : recover hst depth o s = (go, s') → carried_on s go s' ∨ recovery s go s'.
Proof.
  unfold recover. destruct (overflowRecoveryAttempted s) eqn:Ha.
  - intros [= <- <-]. left. split; [|done]. apply compaction_failed_quiet.
  - pose proof (drop_assistant_quiet (attempted s)) as M1. fold (attempted s) in *. set (s1 := drop_assistant _) in *. clearbody s1.
    intros E. right. split; [done|]. destruct go.
    + apply runAutoCompaction_spec in E as [[_ Hw]|(_ & _ & s2 & r & result & M2 & M3)].
      * by specialize (Hw eq_refl).
      * exists s2, r, result. split; [by trans s1|done].
    + apply runAutoCompaction_spec in E as [[[M2 _] _]|(_ & ? & _)]; [by trans s1|done].
Qed.

Lemma checkCompaction_spec m k s go s' :
  checkCompaction hst depth m k s = (go, s') →
  carried_on s go s' ∨ keeps_recovering m = true ∧ recovery s go s'.
Proof.
  unfold checkCompaction.
  destruct (negb _); [intros [= <- <-]; by left|]. destruct (k && _); [intros [= <- <-]; by left|].
  destruct (before_compaction _ _); [intros [= <- <-]; by left|].
  destruct (from_current_model hst m s && isContextOverflow m _ || _) eqn:Ho.
  - destruct (bool_decide (stopReason m = sr_stop)) eqn:Hstop.
    + intros E. apply runAutoCompaction_spec in E as [[E _]|(? & _)]; [by left|done].
    + intros E. apply recover_spec in E as [E|E]; [by left|]. right. split; [|done].
      apply bool_decide_eq_false in Hstop. unfold keeps_recovering.
      apply orb_true_iff in Ho as [Ho|Ho]; apply andb_true_iff in Ho as [_ Ho].
      * apply isContextOverflow_reason in Ho as [-> | [? | ->]]; by rewrite ?bool_decide_true by done.
      * apply isRecoverableLength_reason in Ho as ->. done.
  - destruct (threshold_tokens m s); [|intros [= <- <-]; by left].
    destruct (shouldCompact _ _ _); [|intros [= <- <-]; by left].
    intros E. apply runAutoCompaction_spec in E as [[E _]|(? & _)]; [by left|done].
Qed.

(** ** Runs

    [went t r s t' r' s']: between the states the events of a run were emitted, by which
    what is tracked goes from [t] to [t'] and the protocol of retries from [r] to [r']. *)

Record went (t : tracked) (r : Z * bool) (s : session) (t' : tracked) (r' : Z * bool) (s' : session) : Prop := {
  wt_active : isAgentRunActive s' = isAgentRunActive s;
  wt_unqueued : keeps_unqueued s s';
  wt_events : ∃ es, emitted s' = emitted s ++ es ∧ Forall in_run es ∧ t' = foldl track_step t es
                    ∧ foldl retry_step (Some r) es = Some r' }.

Lemma went_trans t r s t1 r1 s1 t2 r2 s2 : went t r s t1 r1 s1 → went t1 r1 s1 t2 r2 s2 → went t r s t2 r2 s2.
Proof.
  intros [A1 U1 (es1 & E1 & F1 & T1 & R1)] [A2 U2 (es2 & E2 & F2 & T2 & R2)].
  split; [congruence|by intros Hp Hs; apply U2, U1|].
  exists (es1 ++ es2). by rewrite E2, E1, <- app_assoc, Forall_app, !foldl_app, <- T1, R1.
Qed.

Lemma calm_steps e t r : calm e → in_run e ∧ track_step t e = t ∧ retry_step r e = r.
Proof.
  intros (H1 & H2 & H3 & H4). unfold in_run, track_step. rewrite H2, H3, H4.
  destruct r as [[n ok]|]; destruct e as [e w|? ?| | | | | |]; try done. cbn -[response_of]. by rewrite H3.
Qed.

Lemma calm_events es t r : Forall calm es → Forall in_run es ∧ foldl track_step t es = t ∧ foldl retry_step r es = r.
Proof.
  induction 1 as [|e es He _ (F & T & R)]; cbn [foldl]; [done|]. destruct (calm_steps e t r He) as (? & -> & ->).
  split; [by constructor|done].
Qed.

Lemma quiet_went t r s s' : quiet s s' → went t r s t r s'.
Proof.
  intros [A _ U (es & E & F)]. split; [done|done|]. exists es. by destruct (calm_events es t (Some r) F) as (? & -> & ->).
Qed.

Lemma says_went e t r r' s : in_run e → retry_step (Some r) e = Some r' → went t r s (track_step t e) r' (says e s).
Proof. intros He Hr. split; [done|by intros ? ?|]. exists [e]. by split_and!; [|constructor| |]. Qed.

(** A change of the tracked fields alone. *)
Lemma same_went t r s s' :
  isAgentRunActive s' = isAgentRunActive s → the_agent s' = the_agent s → emitted s' = emitted s → went t r s t r s'.
Proof.
  intros Ha Hg He. split; [done|intros _; by unfold unqueued; rewrite Hg|]. exists []. by rewrite app_nil_r.
Qed.

Lemma emit_went e t r r' s : in_run e → retry_step (Some r) e = Some r' → went t r s (track_step t e) r' (emit hst depth e s).
Proof. intros He Hr. eapply went_trans; [by apply says_went|]. apply quiet_went, emit_after. Qed.

(** While a retry is under way the last response was an error. *)
Definition protocol_at (s : session) (r : Z * bool) : Prop := r.1 = retryAttempt s ∧ (r.2 = true → retryAttempt s = 0).

Definition tracks (s s' : session) : Prop :=
  ∀ r, protocol_at s r → ∃ r', protocol_at s' r' ∧ went (tracked_of s) r s (tracked_of s') r' s'.

(** What does not change what is tracked. *)
Lemma went_tracks s s' :
  tracked_of s' = tracked_of s → (∀ r, went (tracked_of s) r s (tracked_of s) r s') → tracks s s'.
Proof.
  intros Ht W r Hr. exists r. rewrite Ht. split; [|apply W]. injection Ht as Hr' _ _. unfold protocol_at. by rewrite Hr'.
Qed.

Lemma tracks_refl s : tracks s s.
Proof. apply went_tracks; [done|]. intros r. by apply same_went. Qed.
Lemma tracks_trans s s1 s2 : tracks s s1 → tracks s1 s2 → tracks s s2.
Proof.
  intros T1 T2 r Hr. destruct (T1 r Hr) as (r1 & Hr1 & W1), (T2 r1 Hr1) as (r2 & Hr2 & W2).
  exists r2. split; [done|]. by eapply went_trans.
Qed.
Lemma quiet_tracks s s' : quiet s s' → tracks s s'.
Proof. intros M. apply went_tracks; [exact (mv_tracked _ _ _ M)|]. intros r. by apply quiet_went. Qed.

(** *** An event of the agent *)

Definition is_user_start (e : AgentEvent) : bool := match e with message_start (AgentLlm (MUser _)) => true | _ => false end.

Lemma forget_queued_quiet e s :
  quiet (if is_user_start e then s <| overflowRecoveryAttempted := false |> else s) (forget_queued hst depth e s).
Proof.
  unfold forget_queued. destruct e as [| | | |[[u|?|?]|?|?|?|?]| | | | |]; try done. cbn [is_user_start].
  set (s1 := s <| overflowRecoveryAttempted := false |>). case_match; [done|].
  destruct (remove_first _ _) as [l|]; [|destruct (remove_first _ _) as [l|]; [|done]].
  - etrans; [by apply (moved_same _ s1 (s1 <| steeringMessages := l |>))|]. by apply emit_quiet.
  - etrans; [by apply (moved_same _ s1 (s1 <| followUpMessages := l |>))|]. by apply emit_quiet.
Qed.

(** The event after the extensions: the same, but for a message replaced by one of its role. *)
Definition replaced (e e' : AgentEvent) : Prop :=
  e' = e ∨ ∃ m m', e = message_end m ∧ e' = message_end m' ∧ message_role m' = message_role m.

Lemma emitExtensionEvent_quiet e s :
  let '(e', s') := emitExtensionEvent hst depth e s in quiet s s' ∧ replaced e e'.
Proof.
  unfold emitExtensionEvent. set (s1 := match e with agent_start => _ | _ => s end).
  assert (M1 : quiet s s1) by (unfold s1; case_match; [by apply moved_same|done..]). clearbody s1.
  pose proof (hc_extension HC e (ext s1)) as Hc. destruct (x_extension hst e (ext s1)) as [[cs rep] x]. cbn [fst] in Hc.
  assert (M2 : quiet s (perform_calls hst depth cs (s1 <| ext := x |>))) by (etrans; [exact M1|by apply perform_quiet]).
  set (s2 := perform_calls _ _ _ _) in *. clearbody s2.
  assert (Hsame : quiet s s2 ∧ replaced e e) by (split; [done|by left]).
  destruct e as [| | |? ?| | |m| | |]; try exact Hsame.
  - split; [|by left]. etrans; [exact M2|]. by apply moved_same.
  - destruct rep as [m'|]; [|exact Hsame]. destruct (bool_decide (message_role m' = message_role m)) eqn:Hr; [|exact Hsame].
    apply bool_decide_eq_true in Hr. split; [etrans; [exact M2|apply set_messages_quiet]|]. right. eauto.
Qed.

(** The state of the protocol after an event of the agent. *)
Definition after_event (e : SessionEvent) (r : Z * bool) : Z * bool :=
  match response_of e with Some m => (r.1, accepted m) | None => r end.

Lemma session_event_step e s r :
  in_run (session_event hst e s) ∧ retry_step (Some r) (session_event hst e s) = Some (after_event (session_event hst e s) r).
Proof. split; [done|]. unfold after_event. destruct r as [n ok]. cbn -[response_of]. by destruct (response_of _). Qed.

Lemma persist_message_quiet m s : quiet s (persist_message hst m s).
Proof. unfold persist_message. destruct m; try done; apply moved_append. Qed.

(** The tracking of a response brings the fields to what the event says. *)
Lemma track_response_went m s r :
  r = retryAttempt s → 0 ≤ r →
  ∃ r', protocol_at (track_response hst depth m s) r' ∧
  went (MkTracked (if bool_decide (stopReason m = sr_error) then r else 0)
          (if keeps_recovering m then overflowRecoveryAttempted s else false) (Some m)) (r, accepted m) s
       (tracked_of (track_response hst depth m s)) r' (track_response hst depth m s).
Proof.
  intros -> Hnonneg. unfold track_response, keeps_recovering, accepted. set (s1 := s <| lastAssistantMessage := Some m |>).
  set (s2 := if bool_decide _ && _ then _ else s1).
  assert (Hs2 : retryAttempt s2 = retryAttempt s ∧ lastAssistantMessage s2 = Some m ∧ isAgentRunActive s2 = isAgentRunActive s
          ∧ the_agent s2 = the_agent s ∧ emitted s2 = emitted s ∧ overflowRecoveryAttempted s2
            = (if bool_decide (stopReason m = sr_error) || bool_decide (stopReason m = sr_length)
               then overflowRecoveryAttempted s else false)).
  { unfold s2. by destruct (stopReason m). }
  clearbody s2. clear s1. destruct Hs2 as (Hr & Hl & Ha & Hg & He & Hf). set (t := MkTracked _ _ _).
  assert (Hsame : ∀ b, t_retry t = retryAttempt s → (b = true → retryAttempt s = 0) →
    ∃ r', protocol_at s2 r' ∧ went t (retryAttempt s, b) s (tracked_of s2) r' s2).
  { intros b Ht Hb. exists (retryAttempt s, b). split; [by rewrite <- Hr in *|].
    replace (tracked_of s2) with t; [by apply same_went|]. unfold tracked_of. rewrite Hr, Hl, Hf, <- Ht. done. }
  destruct (bool_decide (stopReason m = sr_error)) eqn:Herr.
  - rewrite bool_decide_false by (apply bool_decide_eq_true in Herr; naive_solver). by apply Hsame.
  - rewrite bool_decide_true by (by apply bool_decide_eq_false in Herr). cbn [andb]. rewrite Hr.
    destruct (Z.ltb_spec 0 (retryAttempt s)) as [Hpos|Hpos]; [|apply Hsame; cbn; lia]. clear Hsame.
    set (e := AutoRetryEnd true (retryAttempt s) None). pose proof (emit_after e s2) as M. set (s3 := emit hst depth e s2) in *.
    exists (0, true). split; [done|]. apply (went_trans _ _ _ t (retryAttempt s, true) s2); [by apply same_went|].
    apply (went_trans _ _ _ (track_step t e) (0, true) s3).
    + eapply went_trans; [apply (says_went e _ _ (0, true)); [done|]|by apply quiet_went].
      cbn. rewrite bool_decide_true by done. by destruct (Z.ltb_spec 0 (retryAttempt s)); [|lia].
    + pose proof (mv_tracked _ _ _ M) as Ht. injection Ht as Ht1 Ht2 Ht3. clearbody s3.
      replace (tracked_of (s3 <| retryAttempt := 0 |>)) with (track_step t e); [by apply same_went|].
      cbn. unfold tracked_of. cbn. by rewrite Ht2, Ht3, Hl, Hf.
Qed.

Lemma retry_steps_nonneg es r r' : foldl retry_step (Some r) es = Some r' → 0 ≤ r.1 → 0 ≤ r'.1.
Proof.
  revert r. induction es as [|e es IH]; intros r; cbn [foldl]; [by intros [= ->]|].
  destruct (retry_step (Some r) e) as [r1|] eqn:E; [|by rewrite retry_none].
  intros Hes Hpos. apply (IH r1); [done|]. destruct r as [n ok]. cbn -[response_of] in E, Hpos.
  destruct e; try (destruct (response_of _); by injection E as <-); case_match; simplify_eq/=; [|done].
  rewrite andb_true_iff, bool_decide_eq_true in *. lia.
Qed.

Lemma protocol_now s : protocol_at s (retryAttempt s, false).
Proof. done. Qed.

Lemma handleAgentEvent_tracks e s : 0 ≤ retryAttempt s → tracks s (handleAgentEvent hst depth e s).
Proof.
  intros Hnonneg r Hr. unfold handleAgentEvent. pose proof (forget_queued_quiet e s) as M1. set (s1 := forget_queued _ _ _ _) in *. clearbody s1.
  pose proof (emitExtensionEvent_quiet e s1) as M2. destruct (emitExtensionEvent _ _ _ s1) as [e' s2]. destruct M2 as [M2 He'].
  set (t := tracked_of s).
  assert (W2 : went t r s t r s2).
  { eapply went_trans; [|by apply quiet_went]. eapply went_trans; [|by apply quiet_went]. case_match; by apply same_went. }
  assert (T2 : tracked_of s2 = if is_user_start e then MkTracked (retryAttempt s) false (lastAssistantMessage s) else t).
  { rewrite (mv_tracked _ _ _ M2), (mv_tracked _ _ _ M1). by case_match. }
  clear M1 M2. set (se := session_event hst e' s2). destruct (session_event_step e' s2 r) as [Hrun Hrs]. fold se in Hrun, Hrs.
  pose proof (emit_after se s2) as M3.
  assert (W3 : went t r s (track_step t se) (after_event se r) (emit hst depth se s2)).
  { eapply went_trans; [exact W2|]. eapply went_trans; [by apply says_went|]. by apply quiet_went. }
  set (s3 := emit _ _ _ _) in *. pose proof (mv_tracked _ _ _ M3) as T3. cbn in T3.
  change (tracked_of s3 = tracked_of s2) in T3. rewrite T2 in T3. clearbody s3.
  assert (Hu : is_user_start e = is_user_start e') by (destruct He' as [->|(? & ? & -> & -> & _)]; done).
  rewrite Hu in T3. clear He' Hu T2 W2 M3 Hrs Hrun.
  assert (Hplain : ∀ s', quiet s3 s' → response_of se = None → ∃ r', protocol_at s' r' ∧ went t r s (tracked_of s') r' s').
  { intros s' M Hn. exists r. pose proof (mv_tracked _ _ _ M) as Ht. rewrite T3 in Ht. split.
    - unfold protocol_at. replace (retryAttempt s') with (retryAttempt s); [exact Hr|]. by case_match; injection Ht as ->.
    - rewrite Ht. eapply went_trans; [|by apply quiet_went]. revert W3. unfold track_step, after_event. rewrite Hn.
      destruct e' as [| | | |[[]| | | |]| | | | |]; intros W; exact W. }
  destruct e' as [| |? ?| |m|? ?|m|? ? ?|? ? ? ?|? ? ? ?]; try by apply Hplain.
  - apply Hplain; [apply flush_custom_quiet|done].
  - cbn [as_assistant]. pose proof (persist_message_quiet m s3) as M4. set (s4 := persist_message _ _ _) in *. clearbody s4.
    destruct m as [[u|a|x]| | | |]; try by apply Hplain. cbn [as_assistant].
    pose proof (mv_tracked _ _ _ M4) as T4. rewrite T3 in T4. cbn in T4. injection T4 as Hr4 Hf4 Hl4.
    destruct (track_response_went a s4 (retryAttempt s)) as (r' & Hr' & W5); [done|done|]. rewrite Hf4 in W5.
    exists r'. split; [done|]. eapply went_trans; [exact W3|]. eapply went_trans; [by apply quiet_went|].
    unfold after_event. cbn. destruct Hr as [-> _]. exact W5.
Qed.

(** *** A whole run *)

Lemma tracks_nonneg s s' : tracks s s' → 0 ≤ retryAttempt s → 0 ≤ retryAttempt s'.
Proof.
  intros T Hpos. destruct (T _ (protocol_now s)) as ([n ok] & [Hn _] & [_ _ (es & _ & _ & _ & Hes)]).
  pose proof (retry_steps_nonneg _ _ _ Hes Hpos). cbn in *. by rewrite <- Hn.
Qed.

(** A change of the agent that queues nothing. *)
Lemma agent_tracks s (a : Agent X) :
  (unqueued s → hasQueuedMessages a = false) → tracks s (s <| the_agent := a |>).
Proof.
  intros Ha. apply went_tracks; [done|]. intros r. split; [done|intros _; exact Ha|]. exists []. by rewrite app_nil_r.
Qed.

Lemma drain_empty q : hasItems q = false → drain q = ([], q).
Proof.
  unfold hasItems, drain. destruct q as [l m]; cbn. rewrite negb_false_iff, bool_decide_eq_true. intros ->. by destruct m.
Qed.

Lemma unqueued_queues (s : session) :
  unqueued s ↔ hasItems (steeringQueue (the_agent s)) = false ∧ hasItems (followUpQueue (the_agent s)) = false.
Proof. unfold unqueued, hasQueuedMessages. by rewrite orb_false_iff. Qed.

Lemma reduce_event_queues e (a : Agent X) :
  steeringQueue (reduce_event e a) = steeringQueue a ∧ followUpQueue (reduce_event e a) = followUpQueue a.
Proof. unfold reduce_event. by repeat case_match. Qed.

Lemma run_one_tracks step s :
  0 ≤ retryAttempt s → match step with Meanwhile c => C c | _ => True end → tracks s (run_one hst depth s step).
Proof.
  intros Hpos Hc. destruct step as [e| | |c]; cbn [run_one].
  - eapply tracks_trans; [|by apply handleAgentEvent_tracks]. apply agent_tracks. unfold unqueued, hasQueuedMessages.
    by destruct (reduce_event_queues e (the_agent s)) as [-> ->].
  - apply agent_tracks. intros [Hs Hf]%unqueued_queues. unfold hasQueuedMessages. cbn -[hasItems drain]. rewrite drain_empty by done. cbn -[hasItems]. by rewrite Hs, Hf.
  - apply agent_tracks. intros [Hs Hf]%unqueued_queues. unfold hasQueuedMessages. cbn -[hasItems drain]. rewrite drain_empty by done. cbn -[hasItems]. by rewrite Hs, Hf.
  - apply quiet_tracks, moved_call; [done|]. intros e s'. apply emit_quiet.
Qed.

Lemma run_agent_tracks start s : 0 ≤ retryAttempt s → tracks s (run_agent hst depth start s).
Proof.
  intros Hpos. unfold run_agent. set (s1 := s <| the_agent := begin_run (the_agent s) |>).
  assert (T1 : tracks s s1) by by apply agent_tracks. assert (Hpos1 : 0 ≤ retryAttempt s1) by done. clearbody s1.
  pose proof (hc_run HC start (the_agent s1) (ext s1)) as Hsteps. destruct (x_run hst _ _ _) as [steps x]. cbn [fst] in Hsteps.
  assert (T2 : tracks s (s1 <| ext := x |>)) by (eapply tracks_trans; [exact T1|]; apply went_tracks; [done|]; intros r; by apply same_went).
  assert (Hpos2 : 0 ≤ retryAttempt (s1 <| ext := x |>)) by done. revert T2 Hpos2. generalize (s1 <| ext := x |>). clear T1 Hpos1 s1 x.
  induction Hsteps as [|step steps Hstep _ IH]; intros s1 T Hpos1; cbn [foldl].
  - eapply tracks_trans; [exact T|]. by apply agent_tracks.
  - pose proof (run_one_tracks step s1 Hpos1 Hstep) as T1. apply IH; [by eapply tracks_trans|by eapply tracks_nonneg].
Qed.

Lemma agent_prompt_tracks ms s r s' : 0 ≤ retryAttempt s → agent_prompt hst depth ms s = (r, s') → tracks s s'.
Proof. unfold agent_prompt. intros Hpos. case_match; intros [= <- <-]; [apply tracks_refl|by apply run_agent_tracks]. Qed.

Lemma agent_continue_tracks s r s' : 0 ≤ retryAttempt s → agent_continue hst depth s = (r, s') → tracks s s'.
Proof.
  unfold agent_continue. intros Hpos. destruct (activeRun _); [intros [= <- <-]; apply tracks_refl|].
  destruct (last _) as [m|]; [|intros [= <- <-]; apply tracks_refl].
  case_match; [|intros [= <- <-]; by apply run_agent_tracks].
  destruct (drain (steeringQueue (the_agent s))) as [ms q] eqn:Hd. destruct (drain (followUpQueue (the_agent s))) as [ms' q'] eqn:Hd'.
  assert (Hq : unqueued s → q = steeringQueue (the_agent s) ∧ q' = followUpQueue (the_agent s)).
  { intros [Hs Hf]%unqueued_queues. rewrite drain_empty in Hd, Hd' by done. by simplify_eq. }
  assert (T1 : tracks s (s <| the_agent := (the_agent s) <| steeringQueue := q |> |>)).
  { apply agent_tracks. intros Hu. destruct (Hq Hu) as [-> _]. by unfold unqueued in Hu. }
  assert (T2 : tracks s (s <| the_agent := (the_agent s) <| steeringQueue := q |> <| followUpQueue := q' |> |>)).
  { apply agent_tracks. intros Hu. destruct (Hq Hu) as [-> ->]. by unfold unqueued in Hu. }
  destruct (negb (bool_decide (ms = []))); [|destruct (negb (bool_decide (ms' = [])))]; intros [= <- <-]; [| |exact T2].
  - eapply tracks_trans; [exact T1|by apply run_agent_tracks].
  - eapply tracks_trans; [exact T2|by apply run_agent_tracks].
Qed.

(** ** After a run

    [evolves]: the events between two states keep both protocols. *)

Record evolves (s s' : session) : Prop := {
  ev_unqueued : keeps_unqueued s s';
  ev_events : ∃ es, emitted s' = emitted s ++ es
    ∧ (∀ r, protocol_at s r → ∃ r', foldl retry_step (Some r) es = Some r' ∧ protocol_at s' r')
    ∧ ∀ b : bool, (b = true → overflowRecoveryAttempted s = true) →
        ∃ b' : bool, foldl recovery_step (Some b) es = Some b' ∧ (b' = true → overflowRecoveryAttempted s' = true) }.

#[local] Instance evolves_preorder : PreOrder evolves.
Proof.
  split.
  - intros s. split; [by intros ? ?|]. exists []. split_and!; [by rewrite app_nil_r|by intros r Hr; exists r|by intros b Hb; exists b].
  - intros s1 s2 s3 [U1 (es1 & E1 & R1 & B1)] [U2 (es2 & E2 & R2 & B2)].
    split; [by intros Hp Hs; apply U2, U1|].
    exists (es1 ++ es2). split_and!; [by rewrite E2, E1, <- app_assoc| |].
    { intros r Hr. destruct (R1 r Hr) as (r1 & Hr1 & Hp1). rewrite foldl_app, Hr1. by apply R2. }
    intros b Hb. destruct (B1 b Hb) as (b1 & Hb1 & Hb1'). rewrite foldl_app, Hb1. by apply B2.
Qed.

(** A change of fields the protocols do not depend on. *)
Lemma same_evolves (s s' : session) :
  (unqueued s → unqueued s') → emitted s' = emitted s → retryAttempt s' = retryAttempt s →
  overflowRecoveryAttempted s' = overflowRecoveryAttempted s → evolves s s'.
Proof.
  intros Hu He Hr Hf. split; [by intros _|]. exists []. split_and!; [by rewrite app_nil_r| |].
  - intros r Hp. exists r. split; [done|]. unfold protocol_at. by rewrite Hr.
  - intros b Hb. exists b. split; [done|]. by rewrite Hf.
Qed.

(** In a run the flag follows the events that end a recovery. *)
Lemma run_recovery es t b :
  Forall in_run es → (b = true → t_attempted t = true) →
  ∃ b' : bool, foldl recovery_step (Some b) es = Some b' ∧ (b' = true → t_attempted (foldl track_step t es) = true).
Proof.
  intros Hes. revert t b. induction Hes as [|e es [_ He] _ IH]; intros t b Hb; cbn [foldl]; [eauto|].
  unfold recovery_step at 2, track_step at 2. rewrite He. destruct (response_of e) as [m|]; [|destruct (starts_user e)].
  - destruct (keeps_recovering m); by apply IH.
  - by apply IH.
  - apply IH. by destruct e.
Qed.

Lemma tracks_evolves s s' : tracks s s' → evolves s s'.
Proof.
  intros HT. destruct (HT _ (protocol_now s)) as (r0 & _ & [_ U (es & E & F & T & _)]). split; [done|]. exists es. split_and!; [done| |].
  { intros r Hr. destruct (HT r Hr) as (r' & Hr' & [_ _ (es' & E' & _ & _ & R)]).
    rewrite E in E'. apply app_inv_head in E' as <-. by exists r'. }
  intros b Hb. destruct (run_recovery es (tracked_of s) b F Hb) as (b' & ? & Hb'). exists b'. by rewrite <- T in Hb'.
Qed.

Lemma quiet_evolves s s' : quiet s s' → evolves s s'.
Proof. intros M. by apply tracks_evolves, quiet_tracks. Qed.

(** One event of the protocol of retries, with the change of the counter before or after it. *)
Lemma retry_event_evolves e s s1 s2 s' :
  is_retry_event e = true → the_agent s1 = the_agent s → emitted s1 = emitted s →
  overflowRecoveryAttempted s1 = overflowRecoveryAttempted s →
  quiet (says e s1) s2 → the_agent s' = the_agent s2 → emitted s' = emitted s2 →
  overflowRecoveryAttempted s' = overflowRecoveryAttempted s2 →
  (∀ r, protocol_at s r → ∃ r', retry_step (Some r) e = Some r' ∧ protocol_at s' r') → evolves s s'.
Proof.
  intros He G1 E1 F1 M G2 E2 F2 Hr. destruct M as [_ Mt Mu (es & Me & Mf)]. cbn in Mt, Me. split.
  - intros Hp Hs. unfold unqueued. rewrite G2. apply Mu; [done|]. unfold unqueued. cbn. by rewrite G1.
  - exists (e :: es). split; [by rewrite E2, Me, E1, <- app_assoc|]. cbn [foldl]. split.
    { intros r Hp. destruct (Hr r Hp) as (r' & -> & Hp'). exists r'. by destruct (calm_events es (tracked_of s) (Some r') Mf) as (_ & _ & ->). }
    destruct (calm_events es (tracked_of s) None Mf) as (Hrun & Ht & _). intros b Hb. replace (recovery_step (Some b) e) with (Some b) by (by destruct e).
    destruct (run_recovery es (tracked_of s) b Hrun Hb) as (b' & ? & Hb'). exists b'. split; [done|].
    rewrite Ht in Hb'.
    rewrite F2. injection Mt as _ -> _. by rewrite F1.
Qed.

Lemma start_step s s' limit d t r :
  protocol_at s r → retryAttempt s' = retryAttempt s + 1 → retryAttempt s' ≤ limit → 0 ≤ retryAttempt s →
  ∃ r', retry_step (Some r) (AutoRetryStart (retryAttempt s + 1) limit d t) = Some r' ∧ protocol_at s' r'.
Proof.
  intros [Hn _] Hs Hl Hpos. destruct r as [n ok]. cbn in *. subst n. rewrite bool_decide_true by done.
  destruct (Z.leb_spec (retryAttempt s + 1) limit); [|lia]. eexists. split; [done|]. split; [done|]. cbn. done.
Qed.

Lemma failure_step s s' e r :
  protocol_at s r → 0 < retryAttempt s → retryAttempt s' = 0 →
  ∃ r', retry_step (Some r) (AutoRetryEnd false (retryAttempt s) e) = Some r' ∧ protocol_at s' r'.
Proof.
  intros [Hn Hok] Hpos Hs. destruct r as [n [|]]; cbn in *; [specialize (Hok eq_refl); lia|]. subst n. rewrite bool_decide_true by done.
  destruct (Z.ltb_spec 0 (retryAttempt s)); [|lia]. eexists. split; [done|]. by split.
Qed.

(** What the tracked fields of two states share. *)
Definition same_recovery (s s' : session) : Prop :=
  overflowRecoveryAttempted s' = overflowRecoveryAttempted s ∧ lastAssistantMessage s' = lastAssistantMessage s.

Lemma quiet_fields s s' : quiet s s' → retryAttempt s' = retryAttempt s ∧ same_recovery s s'.
Proof. intros M. pose proof (mv_tracked _ _ _ M) as Ht. by injection Ht. Qed.

Lemma prepareRetry_spec m s go s' :
  0 ≤ retryAttempt s → prepareRetry hst depth m s = (go, s') →
  evolves s s' ∧ same_recovery s s'
  ∧ (if go then retryAttempt s' = retryAttempt s + 1 ∧ retryAttempt s' ≤ maxRetries (x_retry hst (ext s))
     else 0 ≤ retryAttempt s' ≤ retryAttempt s).
Proof.
  intros Hpos. unfold prepareRetry. destruct (negb _); [by intros [= <- <-]|].
  set (settings := x_retry hst (ext s)). set (s1 := s <| retryAttempt := retryAttempt s + 1 |>).
  destruct (Z.ltb_spec (maxRetries settings) (retryAttempt s1)) as [Hmax|Hmax].
  { intros [= <- <-]. cbn. split; [|by split; [|lia]]. apply tracks_evolves, went_tracks; [|intros r; by apply same_went].
    unfold tracked_of. cbn. by replace (retryAttempt s + 1 - 1) with (retryAttempt s) by lia. }
  set (e := AutoRetryStart (retryAttempt s1) (maxRetries settings) (retry_delay settings (retryAttempt s1)) (error_or_unknown (errorMessage m))).
  pose proof (emit_after e s1) as M2. set (s2 := emit hst depth e s1) in *. clearbody s2.
  pose proof (drop_assistant_quiet s2) as M3. set (s3 := drop_assistant s2) in *. clearbody s3.
  pose proof (hc_sleep HC (retry_delay settings (retryAttempt s1)) (ext s3)) as Hs.
  destruct (x_sleep _ _ _) as [[cs interrupted] x]. cbn [fst] in Hs.
  pose proof (perform_quiet cs x s3 Hs) as M4. set (s4 := perform_calls _ _ _ _) in *. clearbody s4.
  assert (M : quiet (says e s1) s4) by (etrans; [exact M2|]; by etrans). clear M2 M3 M4 Hs.
  destruct (quiet_fields _ _ M) as (Hr4 & Hf4 & Hl4). cbn in Hr4, Hf4, Hl4.
  assert (E4 : evolves s s4).
  { eapply (retry_event_evolves e s s1 s4 s4); try done. intros r Hp. apply start_step; [done|done|cbn in Hmax; lia|done]. }
  destruct interrupted; intros [= <- <-].
  - pose proof (emit_after (AutoRetryEnd false (retryAttempt s4) (Some (js "Retry cancelled"))) (s4 <| retryAttempt := 0 |>)) as M5.
    set (s5 := emit _ _ _ _) in *. clearbody s5. destruct (quiet_fields _ _ M5) as (Hr5 & Hf5 & Hl5). cbn in Hr5, Hf5, Hl5.
    split; [|split; [split; congruence|lia]]. etrans; [exact E4|].
    eapply (retry_event_evolves _ s4 _ s5 s5); [| | | |exact M5|..]; try done. intros r Hp. apply failure_step; [done|lia|done].
  - split; [done|]. split; [done|]. cbn in Hmax. lia.
Qed.

Lemma give_up_spec m s :
  0 ≤ retryAttempt s →
  evolves s (end_retries hst depth m s) ∧ same_recovery s (end_retries hst depth m s)
  ∧ 0 ≤ retryAttempt (end_retries hst depth m s) ≤ retryAttempt s
  ∧ (stopReason m = sr_error → retryAttempt (end_retries hst depth m s) = 0).
Proof.
  intros Hpos. unfold end_retries. destruct (bool_decide (stopReason m = sr_error)) eqn:Hm; cbn [andb].
  2: { apply bool_decide_eq_false in Hm. split; [done|]. split; [done|]. split; [lia|done]. }
  destruct (Z.ltb_spec 0 (retryAttempt s)) as [Hr|Hr]; [|split; [done|]; split; [done|]; split; [lia|intros; lia]].
  pose proof (emit_after (AutoRetryEnd false (retryAttempt s) (errorMessage m)) s) as M. set (s1 := emit _ _ _ _) in *. clearbody s1.
  destruct (quiet_fields _ _ M) as (Hr1 & Hf1 & Hl1). cbn in Hr1, Hf1, Hl1.
  split_and!; [|done|cbn; lia|cbn; lia|done].
  eapply (retry_event_evolves _ s s s1 _); [| | | |exact M|..]; try done. intros r Hp. by apply failure_step.
Qed.

Lemma recovered_evolves s s' :
  overflowRecoveryAttempted s = false → recovered (attempted s) s' → evolves s s' ∧ retryAttempt s' = retryAttempt s.
Proof.
  intros Hf (s1 & r & result & M1 & M2). destruct (quiet_fields _ _ M1) as (R1 & F1 & _), (quiet_fields _ _ M2) as (R2 & F2 & _). cbn in *.
  split; [|congruence]. destruct M1 as [_ _ U1 (es1 & E1 & C1)], M2 as [_ _ U2 (es2 & E2 & C2)]. cbn in *.
  split; [by intros Hp Hs; apply U2, U1|]. set (e := CompactionEnd r (Some result) false true None) in *.
  exists (es1 ++ e :: es2). split; [by rewrite E2, E1, <- !app_assoc|]. split.
  { intros r0 [Hn Hok]. exists r0. split; [|unfold protocol_at; by rewrite R2, R1]. rewrite foldl_app.
    destruct (calm_events es1 (tracked_of s) (Some r0) C1) as (_ & _ & ->). cbn [foldl].
    destruct r0. by destruct (calm_events es2 (tracked_of s) (Some (z, b)) C2) as (_ & _ & P2). }
  destruct (calm_events es1 (tracked_of s) None C1) as (I1 & T1 & _).
  destruct (calm_events es2 (tracked_of s') None C2) as (I2 & T2 & _).
  intros b Hb. rewrite foldl_app. destruct (run_recovery es1 (tracked_of s) b I1 Hb) as (b1 & -> & Hb1).
  rewrite T1 in Hb1. cbn in Hb1. destruct b1; [by rewrite Hf in Hb1; specialize (Hb1 eq_refl)|]. cbn [foldl].
  change (recovery_step (Some false) e) with (Some true). assert (Ha : overflowRecoveryAttempted s' = true) by congruence.
  destruct (run_recovery es2 (tracked_of s') true I2) as (b2 & -> & Hb2); [by intros _|]. exists b2. by rewrite T2 in Hb2.
Qed.

Lemma recovery_outcome s go s' :
  recovery s go s' →
  evolves s s' ∧ retryAttempt s' = retryAttempt s ∧ (go = true → overflowRecoveryAttempted s' = true).
Proof.
  intros [Ha H]. destruct go.
  - destruct (recovered_evolves s s' Ha H) as [E R]. split; [done|]. split; [done|]. intros _.
    destruct H as (s5 & r & result & M1 & M2). destruct (quiet_fields _ _ M1) as (_ & F & _), (quiet_fields _ _ M2) as (_ & F' & _).
    cbn in *. congruence.
  - pose proof (quiet_evolves _ _ H) as [U (es & Ev & Er & Eb)]. destruct (quiet_fields _ _ H) as (R & _ & _). cbn in *.
    split; [|by split]. split; [done|]. exists es. split; [done|]. split; [done|]. intros b Hb. apply Eb. by intros ->.
Qed.

Lemma checkCompaction_outcome m k s go s' :
  checkCompaction hst depth m k s = (go, s') →
  evolves s s' ∧ retryAttempt s' = retryAttempt s
  ∧ (go = true → unqueued s' →
     keeps_recovering m = true ∧ overflowRecoveryAttempted s = false ∧ overflowRecoveryAttempted s' = true).
Proof.
  intros [[Q G]|[Hm H]]%checkCompaction_spec.
  - split; [by apply quiet_evolves|]. split; [apply (quiet_fields _ _ Q)|]. intros Hgo Hu. by destruct G.
  - destruct (recovery_outcome _ _ _ H) as (E & R & F). split; [done|]. split; [done|]. intros Hgo _. by destruct H as [? _]; auto.
Qed.

(** What [handlePostAgentRun] has decided: with no messages queued it goes on only to retry
    a failure, counting the retry, or to recover, once; and when it does not go on, no retry
    is under way. *)
Lemma handlePostAgentRun_spec s go s' :
  0 ≤ retryAttempt s → handlePostAgentRun hst depth s = (go, s') →
  evolves s s' ∧
  (go = true → unqueued s' →
   ∃ m, lastAssistantMessage s = Some m ∧ keeps_recovering m = true ∧
     (overflowRecoveryAttempted s' = overflowRecoveryAttempted s ∧ stopReason m = sr_error
      ∧ retryAttempt s' = retryAttempt s + 1 ∧ retryAttempt s' ≤ maxRetries (x_retry hst (ext s))
      ∨ overflowRecoveryAttempted s = false ∧ overflowRecoveryAttempted s' = true ∧ 0 ≤ retryAttempt s' ≤ retryAttempt s)) ∧
  (go = false → ∀ m, lastAssistantMessage s = Some m → (accepted m = true → retryAttempt s = 0) → retryAttempt s' = 0).
Proof.
  intros Hpos. unfold handlePostAgentRun. destruct (lastAssistantMessage s) as [m|] eqn:Hl; [|by intros [= <- <-]].
  set (s1 := s <| lastAssistantMessage := None |>). assert (E1 : evolves s s1) by by apply same_evolves.
  destruct (if isRetryableError hst m s1 then _ else _) as [retry s2] eqn:H2.
  assert (P2 : evolves s s2 ∧ overflowRecoveryAttempted s2 = overflowRecoveryAttempted s ∧
    (if retry then stopReason m = sr_error ∧ retryAttempt s2 = retryAttempt s + 1 ∧ retryAttempt s2 ≤ maxRetries (x_retry hst (ext s))
     else 0 ≤ retryAttempt s2 ≤ retryAttempt s)).
  { destruct (isRetryableError hst m s1) eqn:Hre; [|injection H2 as <- <-; split; [done|]; split; [done|]; cbn; lia].
    apply prepareRetry_spec in H2 as (E2 & [F2 _] & H2); [|done]. split; [by trans s1|]. split; [exact F2|].
    destruct retry; [|exact H2]. split; [|exact H2]. apply andb_true_iff in Hre as [_ Hre]. unfold isRetryableAssistantError in Hre.
    by destruct (bool_decide_reflect (stopReason m = sr_error)). }
  destruct P2 as (E2 & F2 & H3). destruct retry.
  { intros [= <- <-]. split; [done|]. split; [|done]. intros _ _. exists m. destruct H3 as (Hm & ? & ?).
    split; [done|]. split; [by unfold keeps_recovering; rewrite Hm|]. by left. }
  destruct (give_up_spec m s2) as (E3 & [F3 _] & R3 & Z3); [lia|]. set (s3 := end_retries _ _ _ s2) in *. clearbody s3.
  destruct (checkCompaction _ _ _ _ s3) as [go4 s4] eqn:H4. apply checkCompaction_outcome in H4 as (E4 & R4 & H4).
  assert (E : evolves s s4) by (trans s2; [done|]; by trans s3). clear E1 E2 E3 E4.
  destruct go4; intros [= <- <-]; (split; [done|]; split; [|intros Hgo m' [= <-] Hm]); [| |by intros Hq ?%queued_iff|].
  - intros _ Hu. destruct (H4 eq_refl Hu) as (Hm & Ha & Ha'). exists m. split; [done|]. split; [done|]. right. split; [congruence|]. split; [done|lia].
  - done.
  - rewrite R4. unfold accepted in Hm. destruct (bool_decide_reflect (stopReason m ≠ sr_error)) as [|Hx]; [specialize (Hm eq_refl); lia|].
    apply Z3. by destruct (decide (stopReason m = sr_error)).
Qed.

Lemma evolves_nonneg s s' : evolves s s' → 0 ≤ retryAttempt s → 0 ≤ retryAttempt s'.
Proof.
  intros [_ (es & _ & Hr & _)] Hpos. destruct (Hr _ (protocol_now s)) as (r & Hes & Hn & _).
  pose proof (retry_steps_nonneg _ _ _ Hes Hpos). by rewrite <- Hn.
Qed.

(** ** Operations of clients *)

Lemma checkCompaction_evolves m k s : evolves s (checkCompaction hst depth m k s).2.
Proof. destruct (checkCompaction _ _ _ _ s) as [go s'] eqn:E. by apply checkCompaction_outcome in E as [? _]. Qed.

Lemma post_runs_evolves fuel s r s' : 0 ≤ retryAttempt s → post_runs hst depth fuel s = Some (r, s') → evolves s s'.
Proof.
  revert s. induction fuel as [|fuel IH]; intros s Hpos; cbn [post_runs].
  all: destruct (handlePostAgentRun hst depth s) as [go s1] eqn:E1; apply handlePostAgentRun_spec in E1 as [E1 _]; [|done].
  - destruct go; [done|by intros [= <- <-]].
  - destruct go; [|by intros [= <- <-]]. pose proof (evolves_nonneg _ _ E1 Hpos) as Hpos1.
    destruct (agent_continue hst depth s1) as [[[]|e] s2] eqn:E2; (apply agent_continue_tracks in E2; [|done]); apply tracks_evolves in E2.
    + intros E. etrans; [exact E1|]. etrans; [exact E2|]. apply IH; [by eapply evolves_nonneg|done].
    + intros [= <- <-]. by etrans.
Qed.

Lemma write_bash_quiet m s : quiet s (write_bash hst m s).
Proof. unfold write_bash. etrans; [|apply moved_append]. apply set_messages_quiet. Qed.

Lemma flush_bash_quiet s : quiet s (flushPendingBashMessages hst s).
Proof.
  unfold flushPendingBashMessages. generalize (pendingBashMessages s). intros ms.
  trans (foldl (λ s m, write_bash hst m s) s ms); [|by apply moved_same].
  revert s. induction ms as [|m ms IH]; intros s; cbn [foldl]; [done|]. etrans; [|apply IH]. apply write_bash_quiet.
Qed.

Lemma settle_evolves s : evolves s (settle hst depth s).
Proof.
  unfold settle, emitAgentSettled. set (s1 := s <| systemPromptOverride := None |>).
  trans s1; [by apply same_evolves|]. set (s2 := flushPendingCustomMessages _ _ _).
  trans s2; [apply quiet_evolves; etrans; [apply flush_bash_quiet|apply flush_custom_quiet]|]. clearbody s2.
  trans (s2 <| isAgentRunActive := false |>); [by apply same_evolves|].
  apply quiet_evolves. etrans; [apply notify_quiet|]. by apply emit_quiet.
Qed.

Lemma runAgentPrompt_evolves fuel ms s r s' : 0 ≤ retryAttempt s → runAgentPrompt hst depth fuel ms s = Some (r, s') → evolves s s'.
Proof.
  intros Hpos. unfold runAgentPrompt. set (s1 := s <| isAgentRunActive := true |>).
  assert (E1 : evolves s s1) by by apply same_evolves.
  destruct (agent_prompt _ _ _ s1) as [[[]|e] s2] eqn:E2; (apply agent_prompt_tracks in E2; [|done]); apply tracks_evolves in E2.
  - destruct (post_runs _ _ _ s2) as [[r1 s3]|] eqn:E3; [|done]. intros [= <- <-].
    apply post_runs_evolves in E3; [|by eapply evolves_nonneg]. trans s3; [|apply settle_evolves]. trans s1; [done|]. by trans s2.
  - intros [= <- <-]. trans s2; [|apply settle_evolves]. by trans s1.
Qed.

Lemma preflight_evolves b s : evolves s (preflight b s).
Proof. by apply same_evolves. Qed.

Lemma prompt_messages_quiet t i s : quiet s (prompt_messages hst depth t i s).2.
Proof.
  unfold prompt_messages. pose proof (moved_now calm s) as M1. destruct (now hst s) as [t1 s1]. cbn [snd] in M1.
  set (s2 := s1 <| pendingNextTurnMessages := [] |>). assert (M2 : quiet s s2) by (etrans; [exact M1|by apply moved_same]). clearbody s2.
  pose proof (hc_start HC t i (ext s2)) as Hc. destruct (x_before_start _ _ _ _) as [result x]. cbn [fst] in Hc.
  pose proof (perform_quiet _ x s2 Hc) as M3. set (s3 := perform_calls _ _ _ _) in *. clearbody s3.
  pose proof (moved_now calm s3) as M4. destruct (now hst s3) as [t4 s4]. cbn [snd] in *.
  etrans; [exact M2|]. etrans; [exact M3|]. etrans; [exact M4|]. by apply moved_same.
Qed.

Lemma queue_evolves c s : C c → evolves s (apply_call hst (emit hst depth) c s).
Proof. intros Hc. apply quiet_evolves, moved_call; [done|]. intros e s'. apply emit_quiet. Qed.

Lemma submit_evolves fuel t i b s r s' :
  (∀ c, C c) → 0 ≤ retryAttempt s → submit hst depth fuel t i b s = Some (r, s') → evolves s s'.
Proof.
  intros Hall Hpos. unfold submit. destruct (isAgentRunActive s).
  - assert (Hem : ∀ e s', calm e → quiet s' (emit hst depth e s')) by (intros; by apply emit_quiet).
    assert (Hok : ∀ s1, quiet s s1 → Some (Ok (), preflight true s1) = Some (r, s') → evolves s s').
    { intros s1 Q [= <- <-]. trans s1; [by apply quiet_evolves|apply preflight_evolves]. }
    destruct b as [[]|]; [| | |intros [= <- <-]; apply preflight_evolves].
    all: apply Hok; first [by apply moved_queueSteer|by apply moved_queueFollowUp].
  - set (s1 := flushPendingCustomMessages _ _ _).
    assert (E1 : evolves s s1) by (apply quiet_evolves; etrans; [apply flush_bash_quiet|apply flush_custom_quiet]).
    pose proof (evolves_nonneg _ _ E1 Hpos) as Hpos1. clearbody s1.
    assert (Hfail : ∀ e s2, evolves s s2 → fail_prompt e s2 = Some (r, s') → evolves s s').
    { intros e s2 E2 [= <- <-]. etrans; [exact E2|apply preflight_evolves]. }
    destruct (x_model _ _); [|by apply Hfail]. destruct (x_authorized hst (ext s1)) as [ok x].
    set (s2 := s1 <| ext := x |>). assert (E2 : evolves s s2) by (trans s1; [done|by apply same_evolves]). clearbody s2.
    destruct (negb ok); [by apply Hfail|].
    assert (E3 : evolves s (check_before_prompt hst depth s2)).
    { trans s2; [done|]. unfold check_before_prompt. case_match; [apply checkCompaction_evolves|done]. }
    set (s3 := check_before_prompt _ _ s2) in *. clearbody s3.
    pose proof (prompt_messages_quiet t i s3) as M4. destruct (prompt_messages _ _ _ _ s3) as [ms s4]. cbn [snd] in M4.
    assert (E5 : evolves s (preflight true s4)).
    { etrans; [exact E3|]. trans s4; [by apply quiet_evolves|apply preflight_evolves]. }
    destruct (runAgentPrompt _ _ _ _ _) as [[r6 s6]|] eqn:E6; [|done]. apply runAgentPrompt_evolves in E6; [|by eapply evolves_nonneg].
    intros E. trans (preflight true s4); [done|]. destruct r6; by injection E as <- <-.
Qed.

Lemma prompt_evolves fuel t i b e s r s' :
  (∀ c, C c) → 0 ≤ retryAttempt s → prompt hst depth fuel t i b e s = Some (r, s') → evolves s s'.
Proof.
  intros Hall Hpos. unfold prompt.
  assert (Hperform : ∀ cs x, evolves s (perform_calls hst depth cs (s <| ext := x |>))).
  { intros cs x. apply quiet_evolves, perform_quiet, Forall_forall. auto. }
  destruct (if e && is_command t then _ else None) as [[cs x]|].
  { intros [= <- <-]. etrans; [apply (Hperform cs x)|apply preflight_evolves]. }
  destruct (compactionRunning s); [intros [= <- <-]; apply preflight_evolves|].
  destruct (x_input _ _ _ _ _) as [[cs input] x]. specialize (Hperform cs x). set (s1 := perform_calls _ _ _ _) in *. clearbody s1.
  pose proof (evolves_nonneg _ _ Hperform Hpos) as Hpos1.
  destruct input as [|t' i'|]; [intros [= <- <-]; etrans; [exact Hperform|apply preflight_evolves]|..].
  all: intros E; apply submit_evolves in E; [by trans s1|done|done].
Qed.

Lemma session_step_evolves fuel op s s' :
  (∀ c, C c) → 0 ≤ retryAttempt s → session_step hst depth fuel op s = Some s' → evolves s s'.
Proof.
  intros Hall Hpos. destruct op as [t i b e|m tt d|c]; cbn [session_step].
  - destruct (prompt _ _ _ _ _ _ _ s) as [[r s1]|] eqn:E; [|done]. intros [= <-]. by eapply prompt_evolves.
  - unfold send_message. pose proof (queue_evolves (SendCustomMessage m tt d) s (Hall _)) as E1.
    set (s1 := apply_call _ _ _ s) in *. clearbody s1. destruct (requested s1) as [|m' rest]; [by intros [= <-]|].
    destruct (runAgentPrompt _ _ _ _ _) as [[r s2]|] eqn:E2; [|done]. intros [= <-].
    apply runAgentPrompt_evolves in E2; [|exact (evolves_nonneg _ _ E1 Hpos)]. trans s1; [done|]. etrans; [|exact E2]. by apply same_evolves.
  - intros [= <-]. by apply queue_evolves.
Qed.

Lemma session_run_evolves fuel ops s s' :
  (∀ c, C c) → 0 ≤ retryAttempt s → session_run hst depth fuel ops s = Some s' → evolves s s'.
Proof.
  intros Hall. revert s. induction ops as [|op ops IH]; intros s Hpos; cbn [session_run]; [by intros [= <-]|].
  destruct (session_step _ _ _ op s) as [s1|] eqn:E; [|done]. apply session_step_evolves in E; [|done..].
  intros H. trans s1; [done|]. apply IH; [by eapply evolves_nonneg|done].
Qed.

(** ** A call that keeps failing *)

(** The failures still allowed for: those of retries that are left, and after a recovery
    as many again. *)
Definition failures_left (limit : Z) (s : session) : Z :=
  let recovery := if overflowRecoveryAttempted s then 0 else limit + 1 in
  match lastAssistantMessage s with
  | Some m => if bool_decide (stopReason m = sr_error) then Z.max 0 (limit - retryAttempt s) + recovery else recovery
  | None => 0
  end.

(** A run with one response, which is an error or cut short, and no new user message. *)
Definition one_failure (es : list SessionEvent) : Prop :=
  (∃ m, omap response_of es = [m] ∧ keeps_recovering m = true) ∧ existsb starts_user es = false.

(** Without a response or a message of the user, only the end of a retry changes what is
    tracked, and it takes a response that was no error. *)
Lemma silent_fold es t r r' :
  Forall in_run es → omap response_of es = [] → existsb starts_user es = false → foldl retry_step (Some r) es = Some r' →
  t_attempted (foldl track_step t es) = t_attempted t ∧ t_last (foldl track_step t es) = t_last t
  ∧ (t_retry (foldl track_step t es) = t_retry t ∨ t_retry (foldl track_step t es) = 0)
  ∧ ((r.2 = true → r.1 = 0) → t_retry (foldl track_step t es) = t_retry t ∧ r' = r).
Proof.
  intros Hes. revert t r. induction Hes as [|e es [He _] _ IH]; intros t r; cbn [foldl existsb]; [intros _ _ [= ->]; auto|].
  change (omap response_of (e :: es)) with (match response_of e with Some m => m :: omap response_of es | None => omap response_of es end).
  destruct (response_of e) eqn:Hr; [done|]. intros Hn [Hu Hus]%orb_false_iff Hf.
  destruct (is_retry_event e) eqn:Hre.
  - destruct e as [| | |[] k err| | | |]; try done. destruct r as [n ok]. cbn in Hf |- *.
    destruct (bool_decide (k = n) && (0 <? k) && bool_decide (true = ok)) eqn:Hk; [|by rewrite retry_none in Hf].
    destruct (IH (MkTracked 0 (t_attempted t) (t_last t)) _ Hn Hus Hf) as (H1 & H2 & H3 & _). cbn in H3.
    split; [done|]. split; [done|]. split; [right; by destruct H3|]. intros Hok.
    apply andb_true_iff in Hk as [[Hk1%bool_decide_eq_true Hk2]%andb_true_iff Hk3%bool_decide_eq_true].
    specialize (Hok (eq_sym Hk3)). lia.
  - assert (Ht : track_step t e = t) by (unfold track_step; rewrite Hr, Hu; by destruct e).
    assert (Hs : retry_step (Some r) e = Some r) by (destruct r, e; try done; cbn -[response_of]; by rewrite Hr).
    rewrite Ht. rewrite Hs in Hf. by apply IH.
Qed.

Lemma omap_single {A B} (f : A → option B) l b :
  omap f l = [b] → ∃ l1 a l2, l = l1 ++ a :: l2 ∧ f a = Some b ∧ omap f l1 = [] ∧ omap f l2 = [].
Proof.
  induction l as [|a l IH]; [done|]. cbn. destruct (f a) as [b'|] eqn:Ha.
  - intros [= -> Hl]. by exists [], a, l.
  - intros (l1 & a' & l2 & -> & ? & ? & ?)%IH. exists (a :: l1), a', l2. cbn. by rewrite Ha.
Qed.

Lemma failure_fold es t r r' m :
  Forall in_run es → omap response_of es = [m] → existsb starts_user es = false →
  foldl retry_step (Some r) es = Some r' → (r.2 = true → r.1 = 0) → keeps_recovering m = true →
  foldl track_step t es = MkTracked (if bool_decide (stopReason m = sr_error) then t_retry t else 0) (t_attempted t) (Some m).
Proof.
  intros Hes (es1 & e & es2 & -> & He & H1 & H2)%omap_single Hu Hf Hok Hm.
  apply Forall_app in Hes as [Hes1 [_ Hes2]%Forall_cons]. rewrite existsb_app in Hu. cbn in Hu.
  apply orb_false_iff in Hu as [Hu1 [_ Hu2]%orb_false_iff]. rewrite foldl_app in Hf. rewrite foldl_app. cbn [foldl] in *.
  destruct (foldl retry_step (Some r) es1) as [r1|] eqn:F1; [|by rewrite retry_none in Hf].
  destruct (silent_fold es1 t r r1) as (A1 & _ & _ & R1); [done..|]. destruct (R1 Hok) as [T1 ->]. clear R1.
  unfold track_step at 2. rewrite He, Hm, A1, T1. set (t1 := MkTracked _ _ _).
  assert (Hr : retry_step (Some r) e = Some (r.1, accepted m)) by (destruct r, e; try done; cbn -[response_of]; by rewrite He).
  rewrite Hr in Hf. destruct (silent_fold es2 t1 _ _ Hes2 H2 Hu2 Hf) as (A2 & L2 & R2 & P2).
  assert (R : t_retry (foldl track_step t1 es2) = t_retry t1).
  { unfold accepted in P2. cbn in P2, R2 |- *. destruct (bool_decide_reflect (stopReason m = sr_error)) as [E|E].
    - rewrite bool_decide_false in P2 by (by rewrite E; intros []). by apply P2.
    - destruct R2; done. }
  destruct (foldl track_step t1 es2) as [tr ta tl]. cbn in *. by subst.
Qed.

(** The agent continues, and fails once more. *)
Lemma continue_failure limit s s1 s2 :
  tracks s1 s2 → (∀ es, emitted s2 = emitted s1 ++ es → one_failure es) → 0 ≤ retryAttempt s1 → 0 ≤ limit →
  (∃ m, lastAssistantMessage s = Some m ∧ keeps_recovering m = true ∧
     (overflowRecoveryAttempted s1 = overflowRecoveryAttempted s ∧ stopReason m = sr_error
      ∧ retryAttempt s1 = retryAttempt s + 1 ∧ retryAttempt s1 ≤ limit
      ∨ overflowRecoveryAttempted s = false ∧ overflowRecoveryAttempted s1 = true ∧ 0 ≤ retryAttempt s1 ≤ retryAttempt s)) →
  0 ≤ failures_left limit s2 < failures_left limit s.
Proof.
  intros HT Hes Hpos Hlim (m & Hl & Hm & Hcase). destruct (HT _ (protocol_now s1)) as (r' & _ & [_ _ (es & E & F & T & R)]).
  destruct (Hes es E) as [(m' & Hm1 & Hm2) Hu]. rewrite (failure_fold es _ _ _ m' F Hm1 Hu R) in T by done. injection T as Tr Ta Tl. cbn in Tr, Ta.
  unfold failures_left. rewrite Hl, Tl, Ta, Tr.
  destruct (bool_decide_reflect (stopReason m' = sr_error)), Hcase as [(-> & -> & -> & ?)|(-> & -> & ?)];
    rewrite ?bool_decide_true by done; repeat case_match; lia.
Qed.

Lemma post_runs_end limit fuel s :
  (∀ c, C c → unqueueing c = true) → (∀ x, maxRetries (x_retry hst x) ≤ limit) → 0 ≤ limit →
  (∀ s s' es, agent_continue hst depth s = (Ok (), s') → emitted s' = emitted s ++ es → one_failure es) →
  unqueued s → 0 ≤ retryAttempt s → failures_left limit s ≤ Z.of_nat fuel →
  ∃ r, post_runs hst depth fuel s = Some r.
Proof.
  intros Hq Hmax Hlim Hcont. revert s. induction fuel as [|fuel IH]; intros s Hu Hpos Hleft; cbn [post_runs].
  all: destruct (handlePostAgentRun hst depth s) as [[] s1] eqn:E1; [|by eexists].
  all: apply handlePostAgentRun_spec in E1 as (E1 & H1 & _); [|done]; pose proof (evolves_nonneg _ _ E1 Hpos) as Hpos1.
  all: assert (Hu1 : unqueued s1) by (by apply (ev_unqueued _ _ E1)); specialize (H1 eq_refl Hu1).
  - exfalso. destruct H1 as (m & Hl & Hm & H1). revert Hleft. unfold failures_left. rewrite Hl.
    specialize (Hmax (ext s)). destruct H1 as [(_ & -> & ? & ?)|(-> & _ & ?)]; rewrite ?bool_decide_true by done; repeat case_match; lia.
  - destruct (agent_continue hst depth s1) as [[[]|e] s2] eqn:E2; [|by eexists].
    pose proof (agent_continue_tracks _ _ _ Hpos1 E2) as T2.
    assert (Hfail : 0 ≤ failures_left limit s2 < failures_left limit s).
    { apply (continue_failure limit s s1 s2); [done|by intros es; apply Hcont|done|done|]. destruct H1 as (m & Hl & Hm & H1). exists m.
      specialize (Hmax (ext s)). destruct H1 as [(? & ? & ? & ?)|?]; (split; [done|]; split; [done|]); [left|by right].
      split; [done|]. split; [done|]. lia. }
    apply IH; [|by apply (tracks_nonneg s1)|lia].
    destruct (T2 _ (protocol_now s1)) as (_ & _ & [_ U2 _]). by apply U2.
Qed.

Lemma failures_left_bound limit s : 0 ≤ retryAttempt s → 0 ≤ limit → failures_left limit s ≤ 2 * limit + 1.
Proof. intros. unfold failures_left. repeat case_match; lia. Qed.

(** ** The end of a prompt *)

(** After a run with a response, that response is remembered; if it was no error, no retry
    is under way. *)
Definition response_seen (t : tracked) : Prop := ∃ m, t_last t = Some m ∧ (accepted m = true → t_retry t = 0).

Lemma response_fold es t :
  Forall in_run es → omap response_of es ≠ [] ∨ response_seen t → response_seen (foldl track_step t es).
Proof.
  intros Hes. revert t. induction Hes as [|e es [He _] _ IH]; intros t; cbn [foldl]; [by intros [?|?]|].
  change (omap response_of (e :: es)) with (match response_of e with Some m => m :: omap response_of es | None => omap response_of es end).
  intros H. apply IH. unfold track_step. destruct (response_of e) as [m|] eqn:Hr.
  - right. exists m. split; [done|]. unfold accepted. cbn. by destruct (bool_decide_reflect (stopReason m = sr_error)) as [->|].
  - destruct H as [H|(m & Hl & Hm)]; [by left|]. right. exists m.
    destruct (starts_user e); [done|]. by destruct e as [| | |[]| | | |].
Qed.

Lemma run_response s s' :
  tracks s s' → (∀ es, emitted s' = emitted s ++ es → omap response_of es ≠ []) → response_seen (tracked_of s').
Proof.
  intros HT Hes. destruct (HT _ (protocol_now s)) as (_ & _ & [_ _ (es & E & F & T & _)]). rewrite T.
  apply response_fold; [done|]. left. by apply Hes.
Qed.

Lemma post_runs_closed fuel s s' :
  (∀ s s' es, agent_continue hst depth s = (Ok (), s') → emitted s' = emitted s ++ es → omap response_of es ≠ []) →
  0 ≤ retryAttempt s → response_seen (tracked_of s) →
  post_runs hst depth fuel s = Some (Ok (), s') → retryAttempt s' = 0.
Proof.
  intros Hcont. revert s. induction fuel as [|fuel IH]; intros s Hpos (m & Hl & Hm); cbn [post_runs].
  all: destruct (handlePostAgentRun hst depth s) as [[] s1] eqn:E1; (apply handlePostAgentRun_spec in E1 as (E1 & _ & Z1); [|done]).
  all: try (intros [= <-]; by eapply Z1).
  pose proof (evolves_nonneg _ _ E1 Hpos) as Hpos1.
  destruct (agent_continue hst depth s1) as [[[]|e] s2] eqn:E2; [|done]. pose proof (agent_continue_tracks _ _ _ Hpos1 E2) as T2.
  apply IH; [by apply (tracks_nonneg s1)|]. apply (run_response s1); [done|]. intros es. by eapply Hcont.
Qed.

Lemma settle_retry s : retryAttempt (settle hst depth s) = retryAttempt s.
Proof.
  unfold settle, emitAgentSettled. set (s1 := flushPendingCustomMessages _ _ _).
  assert (M1 : quiet (s <| systemPromptOverride := None |>) s1) by (etrans; [apply flush_bash_quiet|apply flush_custom_quiet]).
  assert (M2 : quiet (s1 <| isAgentRunActive := false |>) (emit hst depth AgentSettled (notify hst depth ExtensionsSettled (s1 <| isAgentRunActive := false |>)))).
  { etrans; [apply notify_quiet|]. by apply emit_quiet. }
  destruct (quiet_fields _ _ M2) as [-> _], (quiet_fields _ _ M1) as [R _]. exact R.
Qed.

Lemma runAgentPrompt_closed fuel ms s s' :
  (∀ s s' es, agent_continue hst depth s = (Ok (), s') → emitted s' = emitted s ++ es → omap response_of es ≠ []) →
  (∀ ms s s' es, agent_prompt hst depth ms s = (Ok (), s') → emitted s' = emitted s ++ es → omap response_of es ≠ []) →
  0 ≤ retryAttempt s → runAgentPrompt hst depth fuel ms s = Some (Ok (), s') → retryAttempt s' = 0.
Proof.
  intros Hcont Hprompt Hpos. unfold runAgentPrompt. set (s1 := s <| isAgentRunActive := true |>).
  assert (Hpos1 : 0 ≤ retryAttempt s1) by done. clearbody s1.
  destruct (agent_prompt _ _ _ s1) as [[[]|e] s2] eqn:E2; [|done]. pose proof (agent_prompt_tracks _ _ _ _ Hpos1 E2) as T2.
  destruct (post_runs _ _ _ s2) as [[[[]|e] s3]|] eqn:E3; [|done|done]. intros [= <-]. rewrite settle_retry.
  apply (post_runs_closed fuel s2); [done|by apply (tracks_nonneg s1)| |done].
  apply (run_response s1); [done|]. intros es. by eapply Hprompt.
Qed.

Lemma runAgentPrompt_ends limit fuel ms s :
  (∀ c, C c → unqueueing c = true) → (∀ x, maxRetries (x_retry hst x) ≤ limit) → 0 ≤ limit → 2 * limit + 1 ≤ Z.of_nat fuel →
  (∀ s s' es, agent_continue hst depth s = (Ok (), s') → emitted s' = emitted s ++ es → one_failure es) →
  unqueued s → 0 ≤ retryAttempt s → ∃ r, runAgentPrompt hst depth fuel ms s = Some r.
Proof.
  intros Hq Hmax Hlim Hfuel Hcont Hu Hpos. unfold runAgentPrompt. set (s1 := s <| isAgentRunActive := true |>).
  assert (Hpos1 : 0 ≤ retryAttempt s1) by done. assert (Hu1 : unqueued s1) by done. clearbody s1.
  destruct (agent_prompt _ _ _ s1) as [[[]|e] s2] eqn:E2; [|by eexists]. pose proof (agent_prompt_tracks _ _ _ _ Hpos1 E2) as T2.
  pose proof (tracks_nonneg _ _ T2 Hpos1) as Hpos2.
  assert (Hu2 : unqueued s2) by (destruct (T2 _ (protocol_now s1)) as (_ & _ & [_ U2 _]); by apply U2).
  pose proof (failures_left_bound limit s2 Hpos2 Hlim).
  destruct (post_runs_end limit fuel s2 Hq Hmax Hlim Hcont Hu2 Hpos2) as [[r s3] ->]; [lia|]. by eexists.
Qed.
End Theorems.
