(* ===== verification/AgentSessionTheorems.v ===== *)
(** * What the session does around the agent

    Theorems of [AgentSession]: the events of retries and recoveries follow their protocol
    whatever runs, extensions and listeners do; a call that keeps failing is not repeated
    forever; and what clients send during a run is written between turns. *)

From S2P Require Import Prelude JsNumber JsString SessionTypes Messages Retry Compaction AgentLoop Agent Overflow AgentSession AgentSessionRuns.

(** ** A session for examples

    A host with a clock, whose runs are given by the state, and whose compactions keep the
    entries from a given one on. *)

Record script := MkScript { clock : Z; runs : list (list run_step) }.

Definition example_model : ModelInfo := MkModelInfo (js "p") (js "m") 1000 100.

Definition example_response (reason : StopReason) (error : option jsstring) (t : Z) : AssistantMessage :=
  MkAssistantMessage [AText (MkText (js "ok") None)] (js "api") (js "p") (js "m") None None None
    (MkUsage 10 10 0 0 None None 20 (of_Z 0) (of_Z 0) (of_Z 0) (of_Z 0) (of_Z 0)) reason None error None None t.

Definition user_steps (t : jsstring) : list run_step :=
  let m := queued_message t [] 0 in [Delivers (message_start m); Delivers (message_end m)].
Definition response_step (m : AssistantMessage) : run_step := Delivers (message_end (assistant m)).

(** The runs of the script, or the same run every time. *)
Definition scripted (h : script) : list run_step * script :=
  match runs h with [] => ([], h) | run :: runs => (run, MkScript (clock h) runs) end.
Definition steady (run : list run_step) (h : script) : list run_step * script := (run, h).

Definition example_host (run : script → list run_step * script) (firstKept : jsstring) : SessionHost script unit :=
  {| x_now h := (clock h, h);
     x_stamp h := ((js_of_Z (clock h), clock h), MkScript (clock h + 1) (runs h));
     x_model _ := Some example_model;
     x_retry _ := MkRetryPolicy true 2 1000;
     x_compaction _ := MkCompactionSettings true 100 100;
     x_extension _ h := (([], None), h);
     x_notify _ h := ([], h);
     x_listener _ h := ([], h);
     x_run _ _ h := run h;
     x_sleep _ h := (([], false), h);
     x_prepareCompaction _ _ := Some ();
     x_auth h := (Ok (), h);
     x_before_compact _ _ _ h := (MkBeforeCompact [] false None, h);
     x_compact _ _ h := (([], Ok (MkResult (js "summary") firstKept 900 None None)), h);
     x_compaction_aborted _ := false;
     x_command _ _ := None;
     x_input _ _ _ h := (([], InputContinue), h);
     x_expand t _ := t;
     x_authorized h := (true, h);
     x_before_start _ _ h := (MkBeforeAgentStart [] [] None, h) |}.

Definition example_session (runs : list (list run_step)) : AgentSession script :=
  new_session (new_agent (MkAgentOptions None None None None (Some [queued_message (js "before") [] 0]) None None None)) []
    (MkScript 100 runs) [].

Definition overloaded (t : Z) : AssistantMessage := example_response sr_error (Some (js "overloaded")) t.
Definition too_long (t : Z) : AssistantMessage := example_response sr_error (Some (js "prompt is too long")) t.

Definition retry_events (es : list SessionEvent) : list SessionEvent := filter (λ e, is_retry_event e = true) es.

(** Two failures and a success. *)
Example retried_twice :
  (λ s, (retry_events (emitted s), retryAttempt s)) <$>
  session_run (example_host scripted []) 1 5 [Prompt (js "hi") None None true]
    (example_session [user_steps (js "hi") ++ [response_step (overloaded 1)]; [response_step (overloaded 2)]; [response_step (example_response sr_stop None 3)]])
  = Some ([AutoRetryStart 1 2 1000 (js "overloaded"); AutoRetryStart 2 2 2000 (js "overloaded"); AutoRetryEnd true 2 None], 0).
Proof. vm_compute. reflexivity. Qed.

(** *** Where it goes wrong *)

(** A failure that was retried stays in the log; after a compaction it is in the context
    again, and since only the last response is dropped there, it is the last message: the
    agent refuses to continue. *)
Example recovery_refused :
  (λ r, (r.1, retry_events (emitted r.2), last (messages_of r.2))) <$>
  prompt (example_host scripted (js "100")) 1 5 (js "hi") None None true
    (example_session [user_steps (js "hi") ++ [response_step (overloaded 200)]; [response_step (too_long 201)]; [response_step (example_response sr_stop None 202)]])
  = Some (Err (AgentFault LastMessageIsAssistant), [AutoRetryStart 1 2 1000 (js "overloaded"); AutoRetryEnd false 1 (Some (js "prompt is too long"))],
          Some (assistant (overloaded 200))).
Proof. vm_compute. reflexivity. Qed.

(** A response that is aborted while a retry is under way ends it as a success. *)
Example abort_is_success :
  (λ s, retry_events (emitted s)) <$>
  session_run (example_host scripted []) 1 5 [Prompt (js "hi") None None true]
    (example_session [user_steps (js "hi") ++ [response_step (overloaded 1)]; [response_step (example_response sr_aborted None 2)]])
  = Some [AutoRetryStart 1 2 1000 (js "overloaded"); AutoRetryEnd true 1 None].
Proof. vm_compute. reflexivity. Qed.

(** A queued message without text is shown as pending after it was delivered. *)
Example image_stays_pending :
  (λ s, (steeringMessages s, hasQueuedMessages (the_agent s))) <$>
  session_run (example_host scripted []) 1 5 [Prompt (js "hi") None None true]
    (example_session [user_steps (js "hi") ++ [Meanwhile (QueueSteer [] [MkImage [] []]); PollsSteering]
                      ++ [Delivers (message_start (queued_message [] [MkImage [] []] 0))] ++ [response_step (example_response sr_stop None 2)]])
  = Some ([[]], false).
Proof. vm_compute. reflexivity. Qed.

(** An agent that always fails. *)
Lemma steady_failure start s :
  emitted (run_agent (example_host (steady [response_step (overloaded 1)]) []) 0 start s)
  = emitted s ++ [FromAgent (message_end (assistant (overloaded 1))) None].
Proof. reflexivity. Qed.

Lemma steady_continue s s' es :
  agent_continue (example_host (steady [response_step (overloaded 1)]) []) 0 s = (Ok (), s') → emitted s' = emitted s ++ es →
  es = [FromAgent (message_end (assistant (overloaded 1))) None].
Proof.
  unfold agent_continue. intros E He. apply (app_inv_head (emitted s)). rewrite <- He. clear He.
  repeat case_match; simplify_eq; (etrans; [apply steady_failure|reflexivity]).
Qed.

Lemma steady_prompt ms s s' es :
  agent_prompt (example_host (steady [response_step (overloaded 1)]) []) 0 ms s = (Ok (), s') → emitted s' = emitted s ++ es →
  es = [FromAgent (message_end (assistant (overloaded 1))) None].
Proof.
  unfold agent_prompt. intros E He. apply (app_inv_head (emitted s)). rewrite <- He. clear He.
  repeat case_match; simplify_eq; (etrans; [apply steady_failure|reflexivity]).
Qed.

(** ** Retries and recoveries *)

(** Whatever a session is asked to do, and whatever agent, extensions and listeners do
    meanwhile, calling the session included: the events of retries follow their protocol
    (attempts numbered 1, 2, ... up to the limit, each series ended once, as a success
    exactly when the last response was no error) and agree with the counter; a turn is
    compacted and tried again at most once before the next message of the user or complete
    response; and a prompt that is over, each of its runs having had a response, leaves no
    retry under way. *)
Theorem retry_and_recovery_protocol {X P} (hst : SessionHost X P) depth fuel ops a path x prompt s :
  session_run hst depth fuel ops (new_session a path x prompt) = Some s →
  (∃ ok, foldl retry_step (Some (0, false)) (emitted s) = Some (retryAttempt s, ok) ∧ 0 ≤ retryAttempt s) ∧
  is_Some (foldl recovery_step (Some false) (emitted s)) ∧
  ((∀ s s' es, agent_continue hst depth s = (Ok (), s') → emitted s' = emitted s ++ es → omap response_of es ≠ []) →
   (∀ ms s s' es, agent_prompt hst depth ms s = (Ok (), s') → emitted s' = emitted s ++ es → omap response_of es ≠ []) →
   ∀ ms s', runAgentPrompt hst depth fuel ms s = Some (Ok (), s') → retryAttempt s' = 0).
Proof.
  intros Hrun. pose proof (host_calls_any hst) as HC. apply (session_run_evolves _ _ _ HC) in Hrun as E; [|done|done].
  pose proof (evolves_nonneg _ _ _ E ltac:(done)) as Hpos. destruct E as [_ (es & -> & Hr & Hb)]. cbn [emitted new_session app].
  destruct (Hr (0, false)) as ([n ok] & -> & [Hn _]); [done|]. cbn in Hn. subst n.
  destruct (Hb false) as (b & -> & _); [done|].
  split; [by exists ok|]. split; [done|]. intros Hcont Hprompt ms s'. by apply (runAgentPrompt_closed _ _ _ HC).
Qed.

Lemma retry_and_recovery_protocol_witness :
  let hst := example_host (steady [response_step (overloaded 1)]) [] in
  ∃ s, session_run hst 0 5 [Prompt (js "hi") None None true] (example_session []) = Some s ∧
  (∃ ok, foldl retry_step (Some (0, false)) (emitted s) = Some (retryAttempt s, ok) ∧ 0 ≤ retryAttempt s) ∧
  is_Some (foldl recovery_step (Some false) (emitted s)) ∧
  ∀ ms s', runAgentPrompt hst 0 5 ms s = Some (Ok (), s') → retryAttempt s' = 0.
Proof.
  intros hst. destruct (session_run hst 0 5 [Prompt (js "hi") None None true] (example_session [])) as [s|] eqn:E.
  - exists s. split; [done|]. destruct (retry_and_recovery_protocol _ _ _ _ _ _ _ _ _ E) as (H1 & H2 & H3).
    split; [done|]. split; [done|]. apply H3.
    + intros s1 s2 es E1 E2. by rewrite (steady_continue s1 s2 es).
    + intros ms s1 s2 es E1 E2. by rewrite (steady_prompt ms s1 s2 es).
  - exfalso. revert E. vm_compute. discriminate.
Defined.

(** A call that keeps failing is not repeated forever: when nobody queues messages and
    every continuation brings one response that is an error or cut short, a prompt is over
    after at most [2 * limit + 1] continuations, [limit] being the most retries the settings
    allow. *)
Theorem retries_end {X P} (hst : SessionHost X P) depth limit ms s :
  host_calls hst (λ c, unqueueing c = true) → (∀ x, maxRetries (x_retry hst x) ≤ limit) → 0 ≤ limit →
  (∀ s s' es, agent_continue hst depth s = (Ok (), s') → emitted s' = emitted s ++ es → one_failure es) →
  hasQueuedMessages (the_agent s) = false → 0 ≤ retryAttempt s →
  ∃ r, runAgentPrompt hst depth (Z.to_nat (2 * limit + 1)) ms s = Some r.
Proof.
  intros HC Hmax Hlim Hcont Hu Hpos. apply (runAgentPrompt_ends hst depth _ HC limit); try done. lia.
Qed.

Lemma retries_end_witness :
  let hst := example_host (steady [response_step (overloaded 1)]) [] in
  ∃ r, runAgentPrompt hst 0 (Z.to_nat (2 * 2 + 1)) [] (example_session []) = Some r.
Proof.
  intros hst. apply (retries_end hst 0 2); [|done|lia| |done|done].
  - split; intros; try done; cbn in *; by repeat constructor.
  - intros s s' es E1 E2. rewrite (steady_continue s s' es E1 E2). split; [by exists (overloaded 1)|done].
Defined.

(** All the retries were made. *)
Example steady_run :
  (λ r, (r.1, retry_events (emitted r.2), retryAttempt r.2)) <$>
  runAgentPrompt (example_host (steady [response_step (overloaded 200)]) []) 0 (Z.to_nat (2 * 2 + 1)) [] (example_session [])
  = Some (Ok (), [AutoRetryStart 1 2 1000 (js "overloaded"); AutoRetryStart 2 2 2000 (js "overloaded"); AutoRetryEnd false 2 (Some (js "overloaded"))], 0).
Proof. vm_compute. reflexivity. Qed.
