(* ===== verification/IpAddress.v ===== *)
(** * IP addresses and ranges

    The parsers and predicates on addresses of
    [packages/coding-agent/src/extensions/web-access/ssrf-protection.ts]: IPv4 and
    IPv6 texts, the ranges that are never fetched, CIDR notation, and the
    comparison of leading bits.  [isIP] is Node's; the parts of an address are only
    read after it accepted the text, so [Number] is applied to decimal digits. *)

From S2P Require Import Prelude JsString JsonText.

(** ** Strings *)

(** [lastIndexOf] of one code unit. *)
Definition last_index (c : Z) (s : jsstring) : option nat :=
  match list_find (λ u, u = c) (reverse s) with
  | Some (i, _) => Some (length s - 1 - i)%nat
  | None => None
  end.

Definition all_digits (s : jsstring) : bool := negb (bool_decide (s = [])) && forallb is_digit s.

(** [Number(s)] of decimal digits; the empty string is zero. *)
Definition decimal (s : jsstring) : option Z :=
  match span_digits s with (ds, []) => Some (digits_value ds) | _ => None end.

(** [s.split("::")]. *)
Fixpoint split_double (s : jsstring) : list jsstring :=
  match s with
  | [] => [[]]
  | c :: s' =>
      let step := match split_double s' with l :: ls => (c :: l) :: ls | [] => [[c]] end in
      match s' with
      | d :: s'' => if (c =? 58) && (d =? 58) then [] :: split_double s'' else step
      | [] => step
      end
  end.

Definition is_hex (c : Z) : bool := is_digit c || in_range 97 102 c || in_range 65 70 c.
Definition hex_digit_value (c : Z) : Z := if is_digit c then c - 48 else if in_range 97 102 c then c - 87 else c - 55.
(** [parseInt(s, 16)] of hexadecimal digits. *)
Definition hex_number (s : jsstring) : Z := foldl (λ n c, n * 16 + hex_digit_value c) 0 s.
(** [n.toString(16)] of a number below 65536. *)
Definition hex_text (n : Z) : jsstring :=
  let digits := [n / 4096; n / 256 mod 16; n / 16 mod 16; n mod 16] in
  hex_digit <$> (if 4096 <=? n then digits else if 256 <=? n then drop 1 digits else if 16 <=? n then drop 2 digits
                 else drop 3 digits).

(** ** IPv4 *)

(** [Number(part)], an integer from 0 to 255.  The texts whose parts are read are
    dotted decimals: [isIP] has accepted them, or they are the bytes of a mapped
    address; so the other spellings [Number] reads do not occur. *)
Definition octet (part : jsstring) : option Z :=
  match decimal part with Some n => if (n <? 0) || (255 <? n) then None else Some n | None => None end.

(** The four numbers of a dotted text, when they are numbers from 0 to 255. *)
Definition octets (address : jsstring) : option (list Z) :=
  let parts := split_at 46 address in
  if Nat.eqb (length parts) 4 then mapM octet parts else None.

Definition isFakeIpProxyAddress (a b : Z) : bool := (a =? 198) && ((b =? 18) || (b =? 19)).

Definition isBlockedIPv4 (address : jsstring) : bool :=
  match octets address with
  | Some (a :: b :: _) =>
      (a =? 0) || (a =? 10) || (a =? 127)
      || ((a =? 100) && (64 <=? b) && (b <=? 127))
      || ((a =? 169) && (b =? 254))
      || ((a =? 172) && (16 <=? b) && (b <=? 31))
      || ((a =? 192) && (b =? 168))
      || isFakeIpProxyAddress a b
      || (224 <=? a)
  | _ => true
  end.

(** ** IPv6 *)

Section Addresses.
Context (isIP : jsstring → Z).

(** [net.isIP(ipv4) !== 4] and the rewriting of a dotted tail as two groups. *)
Definition without_dots (address : jsstring) : option jsstring :=
  if decide (46 ∈ address) then
    let (before, ipv4) :=
      match last_index 58 address with
      | Some i => (take i address, drop (S i) address)
      | None => (take (length address - 1) address, address)
      end in
    if negb (isIP ipv4 =? 4) then None
    else
      match octets ipv4 with
      | Some [a; b; c; d] =>
          Some (before ++ 58 :: hex_text (Z.lor (Z.shiftl a 8) b) ++ 58 :: hex_text (Z.lor (Z.shiftl c 8) d))
      | _ => None
      end
  else Some address.

Definition group (part : jsstring) : option Z :=
  if forallb is_hex part && Nat.leb 1 (length part) && Nat.leb (length part) 4 then Some (hex_number part) else None.

(** [piece ? piece.split(":") : []]. *)
Definition colon_parts (piece : jsstring) : list jsstring :=
  match piece with [] => [] | _ => split_at 58 piece end.

Definition parseIPv6 (address : jsstring) : option (list Z) :=
  address ← without_dots address;
  match split_double address with
  | [whole] =>
      let left := colon_parts whole in
      if Nat.eqb (length left) 8 then mapM group left else None
  | [l; r] =>
      let left := colon_parts l in
      let right := colon_parts r in
      if Nat.leb (length left + length right) 8 then
        mapM group (left ++ replicate (8 - length left - length right) (js "0") ++ right)
      else None
  | _ => None
  end.

Definition isBlockedIPv6 (address : jsstring) : bool :=
  match parseIPv6 address with
  | Some ([g0; g1; g2; g3; g4; g5; g6; g7] as groups) =>
      if forallb (λ g, g =? 0) groups then true
      else if forallb (λ g, g =? 0) (take 7 groups) && (g7 =? 1) then true
      else if Z.land g0 65024 =? 64512 then true
      else if Z.land g0 65472 =? 65152 then true
      else if forallb (λ g, g =? 0) (take 5 groups) && (g5 =? 65535) then
        isBlockedIPv4 (join 46 (js_of_Z <$> [Z.shiftr g6 8; Z.land g6 255; Z.shiftr g7 8; Z.land g7 255]))
      else false
  | _ => true
  end.

(** ** Ranges *)

Record ParsedCidr := MkCidr { cidr_bytes : list Z; prefix : Z }.

Definition ipv6GroupsToBytes (groups : list Z) : list Z :=
  concat ((λ g, [Z.shiftr g 8; Z.land g 255]) <$> groups).

Definition ipToBytes (address : jsstring) (version : Z) : option (list Z) :=
  if version =? 4 then octets address
  else if version =? 6 then ipv6GroupsToBytes <$> parseIPv6 address
  else None.

(** The prefix of a range: absent, the whole address. *)
Definition cidr_prefix (part : option jsstring) (whole : Z) : option Z :=
  match part with
  | None => Some whole
  | Some p => n ← decimal p; if (n <? 1) || (whole <? n) then None else Some n
  end.

Definition parseCidr (raw : jsstring) : option ParsedCidr :=
  match raw with
  | [] => None
  | _ =>
      let (addrPart, prefixPart) :=
        match last_index 47 raw with Some i => (take i raw, Some (drop (S i) raw)) | None => (raw, None) end in
      if negb (from_option all_digits true prefixPart) then None
      else if isIP addrPart =? 4 then
        bytes ← octets addrPart; p ← cidr_prefix prefixPart 32; Some (MkCidr bytes p)
      else if isIP addrPart =? 6 then
        groups ← parseIPv6 addrPart; p ← cidr_prefix prefixPart 128; Some (MkCidr (ipv6GroupsToBytes groups) p)
      else None
  end.

(** The loop over the whole bytes, then the mask on the next one. *)
Definition bytesMatchPrefix (addr network : list Z) (prefix : Z) : bool :=
  let fullBytes := Z.to_nat (Z.shiftr prefix 3) in
  let remBits := Z.land prefix 7 in
  if bool_decide (take fullBytes addr = take fullBytes network) then
    if (0 <? remBits) && Nat.ltb fullBytes (length addr) then
      let mask := Z.land (Z.shiftl 255 (8 - remBits)) 255 in
      Z.land (byte_at addr fullBytes) mask =? Z.land (byte_at network fullBytes) mask
    else true
  else false.

Definition isInAllowedRange (address : jsstring) (ipVersion : Z) (allowRanges : list ParsedCidr) : bool :=
  match allowRanges with
  | [] => false
  | _ =>
      match ipToBytes address ipVersion with
      | Some addrBytes =>
          existsb (λ rule, Nat.eqb (length (cidr_bytes rule)) (length addrBytes)
                           && bytesMatchPrefix addrBytes (cidr_bytes rule) (prefix rule)) allowRanges
      | None => false
      end
  end.
End Addresses.

(** ** Addresses as numbers *)

Definition value (bytes : list Z) : Z := foldl (λ n b, n * 256 + b) 0 bytes.

(** [n] and [network] agree on the first [prefix] of [width] bits. *)
Definition in_range_of (width prefix network n : Z) : Prop := n / 2 ^ (width - prefix) = network / 2 ^ (width - prefix).

(** The IPv4 ranges that are never fetched, as (network, prefix). *)
Definition BLOCKED_IPV4 : list (list Z * Z) :=
  [([0; 0; 0; 0], 8); ([10; 0; 0; 0], 8); ([127; 0; 0; 0], 8); ([100; 64; 0; 0], 10); ([169; 254; 0; 0], 16);
   ([172; 16; 0; 0], 12); ([192; 168; 0; 0], 16); ([198; 18; 0; 0], 15); ([224; 0; 0; 0], 3)].

Definition blocked_ipv4 (bytes : list Z) : Prop :=
  Exists (λ r, in_range_of 32 r.2 (value r.1) (value bytes)) BLOCKED_IPV4.

(** The IPv6 ranges, as a prefix of groups; the mapped IPv4 addresses are judged by
    their last two groups. *)
Definition blocked_ipv6 (groups : list Z) : Prop :=
  let v := foldl (λ n g, n * 65536 + g) 0 groups in
  v = 0 ∨ v = 1 ∨ in_range_of 128 7 (64512 * 2 ^ 112) v ∨ in_range_of 128 10 (65152 * 2 ^ 112) v
  ∨ (in_range_of 128 96 (65535 * 2 ^ 32) v
     ∧ blocked_ipv4 [v / 16777216 mod 256; v / 65536 mod 256; v / 256 mod 256; v mod 256]).

(** ** IPv4 ranges *)

Lemma octet_ok part n : octet part = Some n → is_byte n.
Proof.
  unfold octet, is_byte. destruct (decimal part) as [m|]; [|done].
  destruct (Z.ltb_spec m 0), (Z.ltb_spec 255 m); cbn; try done. intros [= <-]. lia.
Qed.

Lemma octets_ok address l :
  octets address = Some l → ∃ a b c d, l = [a; b; c; d] ∧ is_byte a ∧ is_byte b ∧ is_byte c ∧ is_byte d.
Proof.
  unfold octets. destruct (Nat.eqb_spec (length (split_at 46 address)) 4) as [Hlen|]; [|done]. intros Hm%mapM_Some.
  pose proof (Forall2_length _ _ _ Hm) as Hl. rewrite Hlen in Hl.
  destruct l as [|a [|b [|c [|d [|? ?]]]]]; try done. exists a, b, c, d. split; [done|].
  assert (Forall is_byte [a; b; c; d]) as Hall.
  { eapply Forall2_Forall_r; [exact Hm|]. apply Forall_true. intros part n. apply octet_ok. }
  rewrite !Forall_cons in Hall. tauto.
Qed.

(** A quotient by a power of two, from the bytes. *)
Ltac div_bytes := unfold is_byte in *; Z.to_euclidean_division_equations; lia.

Lemma blocked_ipv4_bytes a b c d :
  is_byte a → is_byte b → is_byte c → is_byte d →
  blocked_ipv4 [a; b; c; d]
  ↔ a = 0 ∨ a = 10 ∨ a = 127 ∨ (a = 100 ∧ 64 ≤ b ≤ 127) ∨ (a = 169 ∧ b = 254) ∨ (a = 172 ∧ 16 ≤ b ≤ 31)
    ∨ (a = 192 ∧ b = 168) ∨ (a = 198 ∧ (b = 18 ∨ b = 19)) ∨ 224 ≤ a.
Proof.
  intros Ha Hb Hc Hd. unfold blocked_ipv4, BLOCKED_IPV4. rewrite !Exists_cons, Exists_nil.
  unfold in_range_of, value. cbn [fst snd foldl].
  set (v := (((0 * 256 + a) * 256 + b) * 256 + c) * 256 + d).
  assert (v / 16777216 = a) as H8 by (unfold v; div_bytes).
  assert (v / 4194304 = a * 4 + b / 64) as H10 by (unfold v; div_bytes).
  assert (v / 65536 = a * 256 + b) as H16 by (unfold v; div_bytes).
  assert (v / 1048576 = a * 16 + b / 16) as H12 by (unfold v; div_bytes).
  assert (v / 131072 = a * 128 + b / 2) as H15 by (unfold v; div_bytes).
  assert (v / 536870912 = a / 32) as H3 by (unfold v; div_bytes). clearbody v.
  change (2 ^ (32 - 8)) with 16777216. change (2 ^ (32 - 10)) with 4194304. change (2 ^ (32 - 16)) with 65536.
  change (2 ^ (32 - 12)) with 1048576. change (2 ^ (32 - 15)) with 131072. change (2 ^ (32 - 3)) with 536870912.
  rewrite H8, H10, H16, H12, H15, H3. clear H8 H10 H16 H12 H15 H3 Hc Hd. unfold is_byte in *.
  assert (0 ≤ b / 64 < 4 ∧ (b / 64 = 1 ↔ 64 ≤ b ≤ 127)) as [H64 H64'] by (Z.to_euclidean_division_equations; lia).
  assert (0 ≤ b / 16 < 16 ∧ (b / 16 = 1 ↔ 16 ≤ b ≤ 31)) as [H16 H16'] by (Z.to_euclidean_division_equations; lia).
  assert (0 ≤ b / 2 < 128 ∧ (b / 2 = 9 ↔ b = 18 ∨ b = 19)) as [H2 H2'] by (Z.to_euclidean_division_equations; lia).
  assert (a / 32 = 7 ↔ 224 ≤ a) as H32 by (Z.to_euclidean_division_equations; lia).
  rewrite <- H64', <- H16', <- H2', <- H32.
  generalize dependent (b / 64). generalize dependent (b / 16). generalize dependent (b / 2). generalize dependent (a / 32).
  intros a32 _ b2 Hb2 _ b16 Hb16 _ b64 Hb64 _.
  repeat match goal with |- context [?n / ?m] => let q := eval vm_compute in (n / m) in change (n / m) with q end.
  assert (a * 4 + b64 = 401 ↔ a = 100 ∧ b64 = 1) as -> by lia.
  assert (a * 256 + b = 43518 ↔ a = 169 ∧ b = 254) as -> by lia.
  assert (a * 16 + b16 = 2753 ↔ a = 172 ∧ b16 = 1) as -> by lia.
  assert (a * 256 + b = 49320 ↔ a = 192 ∧ b = 168) as -> by lia.
  assert (a * 128 + b2 = 25353 ↔ a = 198 ∧ b2 = 9) as -> by lia.
  tauto.
Qed.

Lemma isBlockedIPv4_false address :
  isBlockedIPv4 address = false ↔ ∃ bytes, octets address = Some bytes ∧ ¬ blocked_ipv4 bytes.
Proof.
  unfold isBlockedIPv4. destruct (octets address) as [l|] eqn:E.
  - apply octets_ok in E as (a & b & c & d & -> & Ha & Hb & Hc & Hd).
    trans (¬ blocked_ipv4 [a; b; c; d]); [|naive_solver]. rewrite blocked_ipv4_bytes by done.
    unfold isFakeIpProxyAddress. rewrite <- not_true_iff_false.
    rewrite !orb_true_iff, !andb_true_iff, !orb_true_iff, !Z.eqb_eq, !Z.leb_le. apply not_iff_compat. lia.
  - split; [done|]. by intros (? & ? & _).
Qed.

(** ** Leading bits *)

Lemma value_app l k : value (l ++ k) = value l * 256 ^ zlen k + value k.
Proof.
  unfold value. rewrite foldl_app. generalize (foldl (λ n b, n * 256 + b) 0 l) as m.
  induction k as [|b k IH] using rev_ind; intros m; [change (m = m * 1 + 0); lia|].
  rewrite !foldl_app. cbn [foldl]. rewrite IH, zlen_app, Z.pow_add_r by (try apply zlen_nonneg; done).
  change (256 ^ zlen [b]) with 256. lia.
Qed.

Lemma value_bounds l : bytes_ok l → 0 ≤ value l < 256 ^ zlen l.
Proof.
  induction l as [|b l IH] using rev_ind; intros Hl; [change (0 ≤ 0 < 1); lia|].
  apply Forall_app in Hl as [Hl Hb]. apply Forall_cons in Hb as [Hb _]. specialize (IH Hl).
  rewrite value_app, zlen_app, Z.pow_add_r by (try apply zlen_nonneg; done).
  change (256 ^ zlen [b]) with 256. change (value [b]) with b. unfold is_byte in Hb. nia.
Qed.

Lemma value_inj l k : bytes_ok l → bytes_ok k → length l = length k → value l = value k → l = k.
Proof.
  revert k. induction l as [|b l IH] using rev_ind; intros k Hl Hk Hlen Hv.
  { by destruct k. }
  destruct k as [|c k _] using rev_ind; [rewrite length_app in Hlen; cbn in Hlen; lia|].
  rewrite !length_app in Hlen. cbn in Hlen.
  apply Forall_app in Hl as [Hl Hb]. apply Forall_app in Hk as [Hk Hc].
  apply Forall_cons in Hb as [Hb _]. apply Forall_cons in Hc as [Hc _].
  rewrite !value_app in Hv. change (256 ^ zlen [b]) with 256 in Hv. change (256 ^ zlen [c]) with 256 in Hv.
  change (value [b]) with b in Hv. change (value [c]) with c in Hv. unfold is_byte in *.
  assert (value l = value k ∧ b = c) as [Hvl ->] by lia. f_equal. apply IH; try done. lia.
Qed.

(** A mask of leading bits of a byte, by inspection of every byte. *)
Lemma mask_byte x r :
  is_byte x → 0 ≤ r < 8 → Z.land x (Z.land (Z.shiftl 255 (8 - r)) 255) = x / 2 ^ (8 - r) * 2 ^ (8 - r).
Proof.
  unfold is_byte. intros Hx Hr.
  assert (forallb (λ r, forallb (λ x, Z.land x (Z.land (Z.shiftl 255 (8 - r)) 255) =? x / 2 ^ (8 - r) * 2 ^ (8 - r))
                          (seqZ 0 256)) (seqZ 0 8) = true) as Hall by (vm_compute; reflexivity).
  rewrite forallb_forall in Hall. specialize (Hall r ltac:(apply list_elem_of_In, elem_of_seqZ; lia)).
  rewrite forallb_forall in Hall. specialize (Hall x ltac:(apply list_elem_of_In, elem_of_seqZ; lia)). by apply Z.eqb_eq.
Qed.

Lemma land_mask x y r :
  is_byte x → is_byte y → 0 ≤ r < 8 →
  (Z.land x (Z.land (Z.shiftl 255 (8 - r)) 255) = Z.land y (Z.land (Z.shiftl 255 (8 - r)) 255)
   ↔ x / 2 ^ (8 - r) = y / 2 ^ (8 - r)).
Proof.
  intros Hx Hy Hr. rewrite !mask_byte by done. assert (0 < 2 ^ (8 - r)) by (apply Z.pow_pos_nonneg; lia). split; [nia|by intros ->].
Qed.

Lemma quotient_rest_eq a b x y M : 0 ≤ x < M → 0 ≤ y < M → a * M + x = b * M + y ↔ a = b ∧ x = y.
Proof.
  intros Hx Hy. split; [|by intros [-> ->]]. intros Heq.
  pose proof (Z.div_unique (a * M + x) M a x ltac:(lia) ltac:(lia)) as Ha.
  pose proof (Z.div_unique (a * M + x) M b y ltac:(lia) ltac:(lia)) as Hb. assert (a = b) as -> by congruence. lia.
Qed.

(** The leading bits of [A], [x] and the rest are those of [A] and of [x]. *)
Lemma leading_bits A x B r :
  bytes_ok B → is_byte x → 0 ≤ r < 8 →
  value (A ++ x :: B) / 2 ^ (8 * zlen (x :: B) - r) = value A * 2 ^ r + x / 2 ^ (8 - r).
Proof.
  intros HB Hx Hr. pose proof (value_bounds B HB) as Hb. rewrite value_app, zlen_cons.
  change (x :: B) with ([x] ++ B). rewrite (value_app [x] B). change (value [x]) with x.
  pose proof (zlen_nonneg B) as Hn. set (m := zlen B) in *.
  change 256 with (2 ^ 8) in *. rewrite <- !Z.pow_mul_r in * by lia.
  replace (8 * (1 + m) - r) with (8 * m + (8 - r)) by lia.
  replace (8 * (1 + m)) with (r + (8 - r) + 8 * m) by lia. rewrite !Z.pow_add_r by lia.
  set (P := 2 ^ (8 * m)) in *. set (Q := 2 ^ (8 - r)).
  assert (0 < P) by (apply Z.pow_pos_nonneg; lia). assert (0 < Q) by (apply Z.pow_pos_nonneg; lia).
  rewrite <- Z.div_div by lia.
  replace (value A * (2 ^ r * Q * P) + (x * P + value B)) with ((value A * 2 ^ r * Q + x) * P + value B) by ring.
  rewrite Z.div_add_l, (Z.div_small (value B)), Z.add_0_r by lia. by rewrite Z.div_add_l by lia.
Qed.

Lemma bytesMatchPrefix_spec addr network p :
  bytes_ok addr → bytes_ok network → length addr = length network → 0 ≤ p ≤ 8 * zlen addr →
  bytesMatchPrefix addr network p = true ↔ in_range_of (8 * zlen addr) p (value network) (value addr).
Proof.
  intros Ha Hn Hlen Hp. unfold bytesMatchPrefix, in_range_of. rewrite Z.shiftr_div_pow2 by lia. change (2 ^ 3) with 8.
  change 7 with (Z.ones 3). rewrite Z.land_ones by lia. change (2 ^ 3) with 8.
  set (f := Z.to_nat (p / 8)). set (r := p mod 8).
  assert (0 ≤ r < 8) as Hr by (apply Z.mod_pos_bound; lia).
  assert (p = 8 * Z.of_nat f + r) as Hpf by (unfold f, r; rewrite Z2Nat.id by (Z.to_euclidean_division_equations; lia); apply Z.div_mod; lia).
  clearbody f r. unfold zlen in Hp. assert (f ≤ length addr)%nat as Hf by lia.
  destruct (decide (f = length addr)) as [->|Hne].
  { assert (r = 0) as -> by lia. rewrite (proj2 (Nat.ltb_ge _ _)) by lia. rewrite andb_false_r.
    unfold zlen. replace (8 * Z.of_nat (length addr) - p) with 0 by lia. rewrite !Z.div_1_r.
    rewrite (firstn_all addr), Hlen, (firstn_all network).
    case_bool_decide as Heq; [by rewrite Heq|]. split; [done|]. intros Hv. destruct Heq. symmetry in Hv. by apply value_inj. }
  destruct (lookup_lt_is_Some_2 addr f ltac:(lia)) as [x Hx]. destruct (lookup_lt_is_Some_2 network f ltac:(lia)) as [y Hy].
  assert (is_byte x) as Hxb by (by eapply Forall_lookup_1 in Hx). assert (is_byte y) as Hyb by (by eapply Forall_lookup_1 in Hy).
  pose proof (take_drop_middle _ _ _ Hx) as Ea. pose proof (take_drop_middle _ _ _ Hy) as En.
  assert (bytes_ok (drop (S f) addr)) as Hda by by apply Forall_drop.
  assert (bytes_ok (drop (S f) network)) as Hdn by by apply Forall_drop.
  assert (value addr / 2 ^ (8 * zlen addr - p) = value (take f addr) * 2 ^ r + x / 2 ^ (8 - r)) as ->.
  { rewrite <- leading_bits with (B := drop (S f) addr), Ea by done. do 2 f_equal. unfold zlen. cbn [length].
    rewrite length_drop. lia. }
  assert (value network / 2 ^ (8 * zlen addr - p) = value (take f network) * 2 ^ r + y / 2 ^ (8 - r)) as ->.
  { rewrite <- leading_bits with (B := drop (S f) network), En by done. do 2 f_equal. unfold zlen. cbn [length].
    rewrite length_drop. lia. }
  unfold byte_at. rewrite Hx, Hy. cbn [default from_option]. rewrite (proj2 (Nat.ltb_lt _ _)), andb_true_r by lia.
  assert (∀ z, is_byte z → 0 ≤ z / 2 ^ (8 - r) < 2 ^ r) as Hq.
  { intros z Hz. unfold is_byte in Hz. assert (0 < 2 ^ (8 - r)) by (apply Z.pow_pos_nonneg; lia).
    split; [apply Z.div_pos; lia|]. apply Z.div_lt_upper_bound; [done|].
    rewrite <- Z.pow_add_r by lia. replace (8 - r + r) with 8 by lia. lia. }
  pose proof (Hq x Hxb) as Hqx. pose proof (Hq y Hyb) as Hqy.
  assert (value (take f addr) * 2 ^ r + x / 2 ^ (8 - r) = value (take f network) * 2 ^ r + y / 2 ^ (8 - r)
    ↔ value (take f addr) = value (take f network) ∧ x / 2 ^ (8 - r) = y / 2 ^ (8 - r)) as ->
    by by apply quotient_rest_eq.
  case_bool_decide as Htake.
  - rewrite Htake. destruct (Z.ltb_spec 0 r).
    + rewrite Z.eqb_eq, land_mask by (done || lia). tauto.
    + assert (r = 0) as -> by lia. cbn in Hqx, Hqy. split; [|done]. intros _. split; [done|]. lia.
  - split; [done|]. intros [Hv _]. destruct Htake.
    apply value_inj; [by apply Forall_take|by apply Forall_take|rewrite !length_take; lia|done].
Qed.

(** ** IPv6 *)

Section Groups.
Context (isIP : jsstring → Z).

Definition is_group (g : Z) : Prop := 0 ≤ g < 65536.

Lemma group_ok part g : group part = Some g → is_group g.
Proof.
  unfold group, is_group, hex_number. destruct (forallb is_hex part) eqn:Hhex; cbn; [|done].
  assert (∀ c, c ∈ part → 0 ≤ hex_digit_value c < 16) as Hd.
  { intros c Hc. rewrite forallb_forall in Hhex. specialize (Hhex c ltac:(by apply list_elem_of_In)).
    unfold is_hex in Hhex. unfold hex_digit_value, is_digit in *.
    destruct (in_range 48 57 c) eqn:E1; [apply in_range_spec in E1; lia|].
    destruct (in_range 97 102 c) eqn:E2; [apply in_range_spec in E2; lia|].
    cbn in Hhex. apply in_range_spec in Hhex. lia. }
  destruct part as [|a [|b [|c [|d [|e part]]]]]; cbn; try done; intros [= <-];
    repeat match goal with |- context [hex_digit_value ?x] =>
      let H := fresh in pose proof (Hd x ltac:(set_solver)) as H; generalize dependent (hex_digit_value x); intros end; lia.
Qed.

Lemma parseIPv6_ok address groups : parseIPv6 isIP address = Some groups → length groups = 8%nat ∧ Forall is_group groups.
Proof.
  assert (∀ parts gs, mapM group parts = Some gs → Forall is_group gs) as Hall.
  { intros parts gs Hm%mapM_Some. eapply Forall2_Forall_r; [exact Hm|]. apply Forall_true. intros ? ?. apply group_ok. }
  unfold parseIPv6. destruct (without_dots isIP address) as [a|]; cbn; [|done].
  destruct (split_double a) as [|l [|r [|? ?]]]; try done.
  - destruct (Nat.eqb_spec (length (colon_parts l)) 8) as [Hlen|]; [|done]. intros Hm. split; [|by eapply Hall].
    apply mapM_Some, Forall2_length in Hm. lia.
  - destruct (Nat.leb_spec (length (colon_parts l) + length (colon_parts r)) 8) as [Hlen|]; [|done].
    intros Hm. split; [|by eapply Hall]. apply mapM_Some, Forall2_length in Hm.
    rewrite !length_app, length_replicate in Hm. lia.
Qed.

(** The decimal text of a byte. *)
Lemma byte_text b : is_byte b → octet (js_of_Z b) = Some b ∧ 46 ∉ js_of_Z b.
Proof.
  unfold is_byte. intros Hb.
  assert (forallb (λ b, bool_decide (octet (js_of_Z b) = Some b ∧ 46 ∉ js_of_Z b)) (seqZ 0 256) = true) as Hall
    by (vm_compute; reflexivity).
  rewrite forallb_forall in Hall. specialize (Hall b ltac:(apply list_elem_of_In, elem_of_seqZ; lia)).
  by apply bool_decide_eq_true in Hall.
Qed.

Lemma octets_join a b c d :
  is_byte a → is_byte b → is_byte c → is_byte d → octets (join 46 (js_of_Z <$> [a; b; c; d])) = Some [a; b; c; d].
Proof.
  intros [Ha Ha']%byte_text [Hb Hb']%byte_text [Hc Hc']%byte_text [Hd Hd']%byte_text.
  cbn [fmap list_fmap join]. unfold octets. rewrite !split_at_sep, split_at_last by done.
  cbn [length Nat.eqb mapM mbind option_bind]. by rewrite Ha, Hb, Hc, Hd.
Qed.

(** A mask of all but the last [n] bits of a group. *)
Lemma land_group g n :
  is_group g → 0 ≤ n → Z.land g (Z.ldiff (Z.ones 16) (Z.ones n)) = g / 2 ^ n * 2 ^ n.
Proof.
  unfold is_group. intros Hg Hn.
  assert (Z.land g (Z.ldiff (Z.ones 16) (Z.ones n)) = Z.ldiff (Z.land g (Z.ones 16)) (Z.ones n)) as ->.
  { apply Z.bits_inj'. intros k _. rewrite !Z.land_spec, !Z.ldiff_spec, !Z.land_spec. by rewrite andb_assoc. }
  rewrite Z.land_ones, Z.mod_small, Z.ldiff_ones_r by lia. by rewrite Z.shiftl_mul_pow2, Z.shiftr_div_pow2.
Qed.

Lemma land_groups g :
  is_group g → (Z.land g 65024 = 64512 ↔ g / 512 = 126) ∧ (Z.land g 65472 = 65152 ↔ g / 64 = 1018)
    ∧ Z.land g 255 = g mod 256 ∧ Z.shiftr g 8 = g / 256.
Proof.
  intros Hg. change 65024 with (Z.ldiff (Z.ones 16) (Z.ones 9)). change 65472 with (Z.ldiff (Z.ones 16) (Z.ones 6)).
  rewrite !land_group by done. change (2 ^ 9) with 512. change (2 ^ 6) with 64. change 255 with (Z.ones 8).
  rewrite Z.land_ones, Z.shiftr_div_pow2 by lia. split_and!; [lia|lia|done|done].
Qed.

(** The number of eight groups. *)
Definition groups_value (groups : list Z) : Z := foldl (λ n g, n * 65536 + g) 0 groups.

Lemma div_first g rest k n :
  0 ≤ rest < 2 ^ k → 0 ≤ n → 0 ≤ k → (g * 2 ^ k + rest) / 2 ^ (k + n) = g / 2 ^ n.
Proof.
  intros Hr Hn Hk. rewrite Z.pow_add_r by done. assert (0 < 2 ^ k ∧ 0 < 2 ^ n) as [? ?] by (split; by apply Z.pow_pos_nonneg).
  rewrite <- Z.div_div by lia. rewrite Z.div_add_l, (Z.div_small rest) by lia. by rewrite Z.add_0_r.
Qed.

Lemma groups_bits g0 g1 g2 g3 g4 g5 g6 g7 :
  is_group g0 → is_group g1 → is_group g2 → is_group g3 → is_group g4 → is_group g5 → is_group g6 → is_group g7 →
  let v := groups_value [g0; g1; g2; g3; g4; g5; g6; g7] in
  v / 2 ^ 121 = g0 / 512 ∧ v / 2 ^ 118 = g0 / 64 ∧ v / 2 ^ 32 = groups_value [g0; g1; g2; g3; g4; g5]
  ∧ v / 16777216 mod 256 = g6 / 256 ∧ v / 65536 mod 256 = g6 mod 256
  ∧ v / 256 mod 256 = g7 / 256 ∧ v mod 256 = g7 mod 256.
Proof.
  intros H0 H1 H2 H3 H4 H5 H6 H7 v. unfold is_group in *.
  set (low := groups_value [g1; g2; g3; g4; g5; g6; g7]).
  assert (v = g0 * 2 ^ 112 + low ∧ 0 ≤ low < 2 ^ 112) as [Hv Hlow].
  { unfold v, low, groups_value. cbn [foldl]. change (2 ^ 112) with 5192296858534827628530496329220096. lia. }
  set (hi := groups_value [g0; g1; g2; g3; g4; g5]).
  assert (v = hi * 2 ^ 32 + (g6 * 65536 + g7)) as Hv2.
  { unfold v, hi, groups_value. cbn [foldl]. change (2 ^ 32) with 4294967296. lia. }
  clearbody v low hi. split_and!.
  - rewrite Hv. by apply (div_first g0 low 112 9).
  - rewrite Hv. by apply (div_first g0 low 112 6).
  - rewrite Hv2. change (2 ^ 32) with 4294967296. Z.to_euclidean_division_equations; lia.
  - rewrite Hv2. change (2 ^ 32) with 4294967296. clear Hv Hlow. Z.to_euclidean_division_equations; lia.
  - rewrite Hv2. change (2 ^ 32) with 4294967296. clear Hv Hlow. Z.to_euclidean_division_equations; lia.
  - rewrite Hv2. change (2 ^ 32) with 4294967296. clear Hv Hlow. Z.to_euclidean_division_equations; lia.
  - rewrite Hv2. change (2 ^ 32) with 4294967296. clear Hv Hlow. Z.to_euclidean_division_equations; lia.
Qed.

Lemma isBlockedIPv6_false address :
  isBlockedIPv6 isIP address = false ↔ ∃ groups, parseIPv6 isIP address = Some groups ∧ ¬ blocked_ipv6 groups.
Proof.
  unfold isBlockedIPv6. destruct (parseIPv6 isIP address) as [groups|] eqn:E; [|by split; [|intros (? & ? & _)]].
  trans (¬ blocked_ipv6 groups); [|naive_solver]. apply parseIPv6_ok in E as [Hlen Hall].
  destruct groups as [|g0 [|g1 [|g2 [|g3 [|g4 [|g5 [|g6 [|g7 [|? ?]]]]]]]]]; try done. clear Hlen.
  rewrite !Forall_cons in Hall. destruct Hall as (H0 & H1 & H2 & H3 & H4 & H5 & H6 & H7 & _).
  destruct (groups_bits g0 g1 g2 g3 g4 g5 g6 g7) as (A & B & C & D1 & D2 & D3 & D4); [done..|].
  unfold blocked_ipv6. fold (groups_value [g0; g1; g2; g3; g4; g5; g6; g7]).
  set (v := groups_value [g0; g1; g2; g3; g4; g5; g6; g7]) in *. unfold in_range_of.
  change (128 - 7) with 121. change (128 - 10) with 118. change (128 - 96) with 32.
  rewrite A, B, C, D1, D2, D3, D4.
  change (64512 * 2 ^ 112 / 2 ^ 121) with 126. change (65152 * 2 ^ 112 / 2 ^ 118) with 1018.
  change (65535 * 2 ^ 32 / 2 ^ 32) with 65535.
  destruct (land_groups g0 H0) as (M7 & M10 & _ & _). destruct (land_groups g6 H6) as (_ & _ & L6 & S6).
  destruct (land_groups g7 H7) as (_ & _ & L7 & S7). rewrite L6, L7, S6, S7.
  assert (∀ g, is_group g → is_byte (g / 256) ∧ is_byte (g mod 256)) as Hb.
  { unfold is_group, is_byte. intros g Hg. Z.to_euclidean_division_equations; lia. }
  destruct (Hb g6 H6) as [Hb1 Hb2]. destruct (Hb g7 H7) as [Hb3 Hb4].
  assert (isBlockedIPv4 (join 46 (js_of_Z <$> [g6 / 256; g6 mod 256; g7 / 256; g7 mod 256])) = false
    ↔ ¬ blocked_ipv4 [g6 / 256; g6 mod 256; g7 / 256; g7 mod 256]) as H4false.
  { rewrite isBlockedIPv4_false, octets_join by done. naive_solver. }
  assert (v = 0 ↔ forallb (λ g, g =? 0) [g0; g1; g2; g3; g4; g5; g6; g7] = true) as Hzero.
  { unfold v, groups_value, is_group in *. cbn [foldl forallb]. rewrite !andb_true_iff, !Z.eqb_eq. lia. }
  assert (v = 1 ↔ forallb (λ g, g =? 0) [g0; g1; g2; g3; g4; g5; g6] && (g7 =? 1) = true) as Hone.
  { unfold v, groups_value, is_group in *. cbn [foldl forallb]. rewrite !andb_true_iff, !Z.eqb_eq. lia. }
  assert (groups_value [g0; g1; g2; g3; g4; g5] = 65535
          ↔ forallb (λ g, g =? 0) [g0; g1; g2; g3; g4] && (g5 =? 65535) = true) as Hmapped.
  { unfold groups_value, is_group in *. cbn [foldl forallb]. rewrite !andb_true_iff, !Z.eqb_eq. lia. }
  rewrite <- Z.eqb_eq in M7, M10. rewrite Hzero, Hone, <- M7, <- M10, Hmapped. clearbody v.
  cbn [take]. clear - H4false.
  destruct (forallb _ [g0; g1; g2; g3; g4; g5; g6; g7]); [naive_solver|].
  destruct (forallb _ [g0; g1; g2; g3; g4; g5; g6] && _); [naive_solver|].
  destruct (Z.land g0 65024 =? 64512); [naive_solver|]. destruct (Z.land g0 65472 =? 65152); [naive_solver|].
  destruct (forallb _ [g0; g1; g2; g3; g4] && _).
  - rewrite H4false. apply not_iff_compat. split; [by do 4 right|]. by intros [?|[?|[?|[?|[_ ?]]]]].
  - split; [|done]. by intros _ [?|[?|[?|[?|[? _]]]]].
Qed.
End Groups.
