(* ===== verification/AddressText.v ===== *)
(** * What the text of an address says

    Addresses and ranges of addresses by their notation, apart from the parsers of
    [ssrf-protection.ts]: dotted decimals, groups of hexadecimal digits with [::] for
    missing ones and a dotted tail, and CIDR.  The parsers read texts as this notation
    says. *)

From S2P Require Import Prelude JsString JsonText Truncate IpAddress.

(** ** Notation *)

(** Decimal digits and the number they write; no digits write zero. *)
Definition decimal_text (s : jsstring) (n : Z) : Prop :=
  Forall (λ c, 48 ≤ c ≤ 57) s ∧ n = foldl (λ n c, n * 10 + (c - 48)) 0 s.

Definition ipv4_text (s : jsstring) (bytes : list Z) : Prop :=
  ∃ parts, s = join 46 parts ∧ length parts = 4%nat ∧ Forall2 (λ part n, decimal_text part n ∧ n ≤ 255) parts bytes.

Definition hexadecimal (c d : Z) : Prop :=
  48 ≤ c ≤ 57 ∧ d = c - 48 ∨ 97 ≤ c ≤ 102 ∧ d = c - 87 ∨ 65 ≤ c ≤ 70 ∧ d = c - 55.
Definition group_text (s : jsstring) (g : Z) : Prop :=
  (1 ≤ length s ≤ 4)%nat ∧ ∃ ds, Forall2 hexadecimal s ds ∧ g = foldl (λ n d, n * 16 + d) 0 ds.

Definition groups_text (s : jsstring) (groups : list Z) : Prop :=
  s = [] ∧ groups = [] ∨ ∃ parts, parts ≠ [] ∧ s = join 58 parts ∧ Forall2 group_text parts groups.

(** Eight groups, or fewer with [::] where the zeros are. *)
Definition colon_text (s : jsstring) (groups : list Z) : Prop :=
  groups_text s groups ∧ length groups = 8%nat
  ∨ ∃ l r before after, s = l ++ [58; 58] ++ r ∧ groups_text l before ∧ groups_text r after
    ∧ (length before + length after ≤ 8)%nat
    ∧ groups = before ++ replicate (8 - length before - length after) 0 ++ after.

(** The last two groups may be dotted decimals. *)
Definition ipv6_text (s : jsstring) (groups : list Z) : Prop :=
  46 ∉ s ∧ colon_text s groups
  ∨ ∃ before tail a b c d high low, s = before ++ 58 :: tail ∧ ipv4_text tail [a; b; c; d]
    ∧ group_text high (a * 256 + b) ∧ group_text low (c * 256 + d) ∧ colon_text (before ++ 58 :: high ++ 58 :: low) groups.

(** The width and the number of an address. *)
Inductive ip_text (s : jsstring) : Z → Z → Prop :=
| ip_text_4 bytes : ipv4_text s bytes → ip_text s 32 (value bytes)
| ip_text_6 groups : ipv6_text s groups → ip_text s 128 (groups_value groups).

(** A range: an address, or one with the number of its leading bits that count, at least
    one. *)
Inductive range_text (s : jsstring) (width network : Z) : Z → Prop :=
| range_address : ip_text s width network → range_text s width network width
| range_cidr address digits prefix :
    s = address ++ 47 :: digits → digits ≠ [] → decimal_text digits prefix → 1 ≤ prefix ≤ width →
    ip_text address width network → range_text s width network prefix.

(** The address [a] lies in the range. *)
Definition lies_in (a range : jsstring) : Prop :=
  ∃ width n network prefix, ip_text a width n ∧ range_text range width network prefix ∧ in_range_of width prefix network n.

(** ** The parsers read it *)

Lemma decimal_reads s n : decimal s = Some n → decimal_text s n ∧ 0 ≤ n.
Proof.
  unfold decimal, decimal_text, digits_value.
  assert (∀ ds m, span_digits s = (ds, []) → 0 ≤ m → Forall (λ c, 48 ≤ c ≤ 57) s
    ∧ foldl (λ n d, n * 10 + d) m ds = foldl (λ n c, n * 10 + (c - 48)) m s ∧ 0 ≤ foldl (λ n d, n * 10 + d) m ds) as Hspan.
  { induction s as [|c s IH]; intros ds m; cbn; [by intros [= <-]|]. destruct (is_digit c) eqn:Hc; [|done].
    apply in_range_spec in Hc. destruct (span_digits s) as [ds' rest] eqn:E. intros [= <- ->] Hm.
    destruct (IH ds' (m * 10 + (c - 48)) eq_refl ltac:(lia)) as (H1 & H2 & H3). cbn. by split_and!; [constructor|..]. }
  destruct (span_digits s) as [ds [|]] eqn:E; [|done]. intros [= <-].
  destruct (Hspan ds 0 eq_refl ltac:(lia)) as (? & ? & ?). done.
Qed.

Lemma octet_reads s n : octet s = Some n → decimal_text s n ∧ n ≤ 255.
Proof.
  unfold octet. destruct (decimal s) as [m|] eqn:E; [|done]. apply decimal_reads in E as [? ?].
  destruct (Z.ltb_spec m 0), (Z.ltb_spec 255 m); cbn; try done. by intros [= <-].
Qed.

Lemma octets_reads s bytes : octets s = Some bytes → ipv4_text s bytes.
Proof.
  unfold octets. destruct (Nat.eqb_spec (length (split_at 46 s)) 4) as [Hlen|]; [|done]. intros Hm%mapM_Some.
  exists (split_at 46 s). split_and!; [by rewrite join_split|done|]. eapply Forall2_impl; [exact Hm|]. apply octet_reads.
Qed.

Lemma hex_reads c : is_hex c = true → hexadecimal c (hex_digit_value c).
Proof.
  unfold is_hex, hexadecimal, hex_digit_value, is_digit. destruct (in_range 48 57 c) eqn:E1; [apply in_range_spec in E1; lia|].
  destruct (in_range 97 102 c) eqn:E2; [apply in_range_spec in E2; lia|]. cbn. intros E3%in_range_spec. lia.
Qed.

Lemma group_reads s g : group s = Some g → group_text s g.
Proof.
  unfold group, group_text, hex_number. destruct (forallb is_hex s) eqn:Hhex; [|done].
  destruct (Nat.leb_spec 1 (length s)), (Nat.leb_spec (length s) 4); cbn; try done. intros [= <-]. split; [done|].
  exists (hex_digit_value <$> s). split.
  - apply Forall2_fmap_r, Forall_Forall2_diag, Forall_forall. intros c Hc%list_elem_of_In. rewrite forallb_forall in Hhex. by apply hex_reads, Hhex.
  - generalize 0. clear. induction s as [|c s IH]; intros m; [done|]. cbn. by rewrite IH.
Qed.

Lemma parts_read s groups : mapM group (colon_parts s) = Some groups → groups_text s groups.
Proof.
  unfold colon_parts. destruct s as [|c s]; [by intros [= <-]; left|]. intros Hm%mapM_Some. right.
  exists (split_at 58 (c :: s)). split_and!; [apply split_at_nonempty|by rewrite join_split|].
  eapply Forall2_impl; [exact Hm|]. apply group_reads.
Qed.

Lemma split_double_whole s : match split_double s with [w] => s = w | [l; r] => s = l ++ [58; 58] ++ r | _ => True end.
Proof.
  assert (∀ s, match split_double s with [] => False | l :: ls => s = l ++ concat ((λ r, [58; 58] ++ r) <$> ls) end) as Hall.
  { clear. intros s. assert (∀ n s, (length s ≤ n)%nat →
      match split_double s with [] => False | l :: ls => s = l ++ concat ((λ r, [58; 58] ++ r) <$> ls) end) as Hn; [|by apply (Hn (length s))].
    clear. induction n as [|n IH]; intros [|c s]; cbn [length]; intros Hlen; [done|lia|done|].
    pose proof (IH s ltac:(lia)) as Hs.
    assert (match (match split_double s with l :: ls => (c :: l) :: ls | [] => [[c]] end) with
            | [] => False | l :: ls => c :: s = l ++ concat ((λ r, [58; 58] ++ r) <$> ls) end) as Hstep.
    { destruct (split_double s) as [|l ls]; [done|]. cbn. by f_equal. }
    destruct s as [|d s]; [exact Hstep|]. change (split_double (c :: d :: s)) with
      (if (c =? 58) && (d =? 58) then [] :: split_double s
       else match split_double (d :: s) with l :: ls => (c :: l) :: ls | [] => [[c]] end).
    destruct (Z.eqb_spec c 58) as [->|]; cbn [andb]; [|exact Hstep]. destruct (Z.eqb_spec d 58) as [->|]; [|exact Hstep].
    pose proof (IH s ltac:(cbn in Hlen; lia)) as Hs2. destruct (split_double s) as [|l ls]; [done|]. cbn. by rewrite Hs2 at 1. }
  specialize (Hall s). destruct (split_double s) as [|l [|r [|? ?]]]; try done.
  - by rewrite Hall; cbn; rewrite app_nil_r.
  - rewrite Hall. cbn. by rewrite app_nil_r.
Qed.

(** The eight groups that the parser makes of a text without dots. *)
Lemma colons_read s groups :
  match split_double s with
  | [whole] =>
      let left := colon_parts whole in if Nat.eqb (length left) 8 then mapM group left else None
  | [l; r] =>
      let left := colon_parts l in
      let right := colon_parts r in
      if Nat.leb (length left + length right) 8 then
        mapM group (left ++ replicate (8 - length left - length right) (js "0") ++ right)
      else None
  | _ => None
  end = Some groups → colon_text s groups.
Proof.
  pose proof (split_double_whole s) as Hs. destruct (split_double s) as [|l [|r [|? ?]]]; [done|..|done]; cbv zeta.
  - subst l. destruct (Nat.eqb_spec (length (colon_parts s)) 8) as [Hlen|]; [|done]. intros Hm. left.
    split; [by apply parts_read|]. apply mapM_Some, Forall2_length in Hm. lia.
  - destruct (Nat.leb_spec (length (colon_parts l) + length (colon_parts r)) 8) as [Hlen|]; [|done]. intros Hm%mapM_Some.
    apply Forall2_app_inv_l in Hm as (before & rest & Hl & Hm & ->). apply Forall2_app_inv_l in Hm as (zeros & after & Hz & Hr & ->).
    pose proof (Forall2_length _ _ _ Hl) as Ll. pose proof (Forall2_length _ _ _ Hr) as Lr.
    right. exists l, r, before, after. split_and!; [done|by apply parts_read, mapM_Some|by apply parts_read, mapM_Some|lia|].
    do 2 f_equal. rewrite <- Ll, <- Lr. clear - Hz. revert zeros Hz. generalize (8 - length (colon_parts l) - length (colon_parts r))%nat.
    intros n. induction n as [|n IH]; intros zeros Hz; cbn [replicate] in *; [by apply Forall2_nil_inv_l in Hz|].
    apply Forall2_cons_inv_l in Hz as (z & zs & Hz & Hzs & ->). injection Hz as <-. f_equal. by apply IH.
Qed.

Lemma joined_chars (P : Z → Prop) sep parts : P sep → Forall (Forall P) parts → Forall P (join sep parts).
Proof.
  intros Hsep. induction 1 as [|p parts Hp Hps IH]; cbn; [constructor|]. destruct parts; [done|]. apply Forall_app. split; [done|by constructor].
Qed.

Lemma groups_without_dots s groups : groups_text s groups → 46 ∉ s.
Proof.
  intros [[-> _]|(parts & _ & -> & Hp)]; [by apply not_elem_of_nil|].
  assert (Forall (λ c, c ≠ 46) (join 58 parts)) as Hall.
  { apply joined_chars; [done|]. eapply Forall2_Forall_l; [exact Hp|]. apply Forall_true. intros g s [_ (ds & Hd & _)].
    eapply Forall2_Forall_l; [exact Hd|]. apply Forall_true. unfold hexadecimal. intros d c. lia. }
  rewrite Forall_forall in Hall. intros Hin. by apply (Hall 46).
Qed.

Lemma colons_without_dots s groups : colon_text s groups → 46 ∉ s.
Proof.
  intros [[Hg _]|(l & r & before & after & -> & Hl & Hr & _)]; [by eapply groups_without_dots|].
  apply groups_without_dots in Hl, Hr. rewrite !elem_of_app, !elem_of_cons, elem_of_nil. naive_solver lia.
Qed.

Lemma hex_text_reads n : is_group n → group_text (hex_text n) n.
Proof.
  unfold is_group. intros Hn.
  assert (∀ d, 0 ≤ d < 16 → hexadecimal (hex_digit d) d) as Hdigit.
  { intros d Hd. unfold hexadecimal, hex_digit. destruct (Z.ltb_spec d 10); lia. }
  unfold hex_text, group_text.
  set (ds := [n / 4096; n / 256 mod 16; n / 16 mod 16; n mod 16]).
  assert (Forall2 hexadecimal (hex_digit <$> ds) ds) as Hds.
  { unfold ds. repeat (apply Forall2_cons; split; [apply Hdigit; Z.to_euclidean_division_equations; lia|]). apply Forall2_nil_2. }
  assert (∀ k, (k ≤ 3)%nat → foldl (λ n d, n * 16 + d) 0 (drop k ds) = n → (1 ≤ length (hex_digit <$> drop k ds) ≤ 4)%nat
    ∧ ∃ ds', Forall2 hexadecimal (hex_digit <$> drop k ds) ds' ∧ n = foldl (λ n d, n * 16 + d) 0 ds') as Hdrop.
  { intros k Hk Hfold. rewrite length_fmap, length_drop. split; [cbn; lia|]. exists (drop k ds). split; [|done].
    rewrite fmap_drop. by apply Forall2_drop. }
  destruct (Z.leb_spec 4096 n); [apply (Hdrop 0%nat)|destruct (Z.leb_spec 256 n); [apply (Hdrop 1%nat)|destruct (Z.leb_spec 16 n);
    [apply (Hdrop 2%nat)|apply (Hdrop 3%nat)]]]; try lia; unfold ds; cbn [drop foldl]; clear Hdrop Hds ds Hdigit; Z.to_euclidean_division_equations; lia.
Qed.

Lemma two_bytes a b : is_byte a → is_byte b → Z.lor (Z.shiftl a 8) b = a * 256 + b ∧ is_group (a * 256 + b).
Proof.
  unfold is_byte, is_group. intros Ha Hb. split; [|lia]. rewrite Z.shiftl_mul_pow2 by lia. change (2 ^ 8) with 256.
  assert (Z.land (a * 256) b = 0) as Hz.
  { change 256 with (2 ^ 8). rewrite <- Z.shiftl_mul_pow2 by lia. apply Z.bits_inj'. intros k Hk. rewrite Z.land_spec, Z.bits_0.
    destruct (Z.ltb_spec k 8); [by rewrite Z.shiftl_spec_low|].
    rewrite (Z.bits_above_log2 b k) by (destruct (decide (b = 0)) as [->|]; [|pose proof (Z.log2_lt_pow2 b 8)]; cbn; lia). by rewrite andb_false_r. }
  by rewrite <- Z.lxor_lor, <- Z.add_nocarry_lxor.
Qed.

Lemma last_index_spec c s i : last_index c s = Some i → s = take i s ++ c :: drop (S i) s.
Proof.
  unfold last_index. destruct (list_find _ (reverse s)) as [[k d]|] eqn:E; [|done]. intros [= <-].
  apply list_find_Some in E as (Hk & -> & _). pose proof (lookup_lt_Some _ _ _ Hk) as Hlt. rewrite length_reverse in Hlt.
  rewrite reverse_lookup in Hk by done. symmetry. apply take_drop_middle. rewrite <- Hk. f_equal. lia.
Qed.

Lemma last_index_none c s : last_index c s = None → c ∉ s.
Proof.
  unfold last_index. destruct (list_find _ (reverse s)) as [[k d]|] eqn:E; [done|]. intros _ Hin.
  apply list_find_None in E. rewrite Forall_forall in E. apply (E c); [by apply elem_of_reverse|done].
Qed.

Section Reads.
Context (isIP : jsstring → Z).

Lemma parseIPv6_reads s groups : parseIPv6 isIP s = Some groups → ipv6_text s groups.
Proof.
  unfold parseIPv6, without_dots. destruct (decide (46 ∈ s)) as [Hdot|Hdot]; [|by intros Hc%colons_read; left].
  intros Hp. right. destruct (last_index 58 s) as [i|] eqn:Hi.
  - apply last_index_spec in Hi. destruct (negb (isIP (drop (S i) s) =? 4)); [done|].
    destruct (octets (drop (S i) s)) as [bytes|] eqn:Ho; [|done]. pose proof (octets_ok _ _ Ho) as (a & b & c & d & -> & Ha & Hb & Hc & Hd).
    cbn [mbind option_bind] in Hp. destruct (two_bytes a b Ha Hb) as [E1 G1]. destruct (two_bytes c d Hc Hd) as [E2 G2].
    rewrite E1, E2 in Hp. apply colons_read in Hp.
    exists (take i s), (drop (S i) s), a, b, c, d, (hex_text (a * 256 + b)), (hex_text (c * 256 + d)).
    split_and!; [done|by apply octets_reads|by apply hex_text_reads..|done].
  - (* a text without colons keeps one of its dots *)
    destruct (negb (isIP s =? 4)); [done|]. destruct (octets s) as [bytes|] eqn:Ho; [|done].
    pose proof (octets_ok _ _ Ho) as (a & b & c & d & -> & _). cbn [mbind option_bind] in Hp. apply colons_read, colons_without_dots in Hp.
    exfalso. apply Hp. apply elem_of_app. left. apply octets_reads in Ho as (parts & Hs & Hlen & _).
    destruct parts as [|p [|q [|p3 [|p4 [|? ?]]]]]; try done. cbn in Hs. apply list_elem_of_lookup. exists (length p).
    rewrite lookup_take_lt by (rewrite Hs, length_app; cbn; rewrite length_app; cbn; lia). rewrite Hs. by rewrite lookup_app_r, Nat.sub_diag by lia.
Qed.

Lemma ipToBytes_reads a version bytes :
  ipToBytes isIP a version = Some bytes → ip_text a (8 * zlen bytes) (value bytes).
Proof.
  unfold ipToBytes. destruct (version =? 4).
  - intros Ho. pose proof (octets_ok _ _ Ho) as (? & ? & ? & ? & -> & _). by apply (ip_text_4 _ [_; _; _; _]), octets_reads.
  - destruct (version =? 6); [|done]. destruct (parseIPv6 isIP a) as [groups|] eqn:Hg; [|done]. intros [= <-].
    pose proof (parseIPv6_ok _ _ _ Hg) as [Hlen Hall]. apply parseIPv6_reads in Hg.
    destruct groups as [|g0 [|g1 [|g2 [|g3 [|g4 [|g5 [|g6 [|g7 [|? ?]]]]]]]]]; try done.
    assert (value (ipv6GroupsToBytes [g0; g1; g2; g3; g4; g5; g6; g7]) = groups_value [g0; g1; g2; g3; g4; g5; g6; g7]) as ->; [|by apply ip_text_6].
    rewrite !Forall_cons in Hall. unfold value, groups_value, ipv6GroupsToBytes. cbn [fmap list_fmap concat app foldl].
    repeat match goal with |- context [Z.shiftr ?g 8] => destruct (land_groups g ltac:(tauto)) as (_ & _ & -> & ->) end.
    pose proof (λ g, Z.div_mod g 256 ltac:(lia)) as Hdm.
    pose proof (Hdm g0). pose proof (Hdm g1). pose proof (Hdm g2). pose proof (Hdm g3). pose proof (Hdm g4). pose proof (Hdm g5).
    pose proof (Hdm g6). pose proof (Hdm g7). lia.
Qed.

Lemma cidr_prefix_reads digits width p :
  cidr_prefix (Some digits) width = Some p → decimal_text digits p ∧ 1 ≤ p ≤ width.
Proof.
  unfold cidr_prefix. destruct (decimal digits) as [n|] eqn:E; cbn; [|done]. apply decimal_reads in E as [? _].
  destruct (Z.ltb_spec n 1), (Z.ltb_spec width n); cbn; try done. by intros [= <-].
Qed.

Lemma parseCidr_reads raw rule :
  parseCidr isIP raw = Some rule → range_text raw (8 * zlen (cidr_bytes rule)) (value (cidr_bytes rule)) (prefix rule).
Proof.
  assert (∀ a part rule, (if isIP a =? 4 then bytes ← octets a; p ← cidr_prefix part 32; Some (MkCidr bytes p)
            else if isIP a =? 6 then groups ← parseIPv6 isIP a; p ← cidr_prefix part 128; Some (MkCidr (ipv6GroupsToBytes groups) p)
            else None) = Some rule →
          ip_text a (8 * zlen (cidr_bytes rule)) (value (cidr_bytes rule)) ∧ cidr_prefix part (8 * zlen (cidr_bytes rule)) = Some (prefix rule)) as Haddr.
  { clear. intros a part rule. destruct (isIP a =? 4); [|destruct (isIP a =? 6); [|done]].
    - destruct (octets a) as [bytes|] eqn:E; cbn; [|done]. pose proof (octets_ok _ _ E) as (? & ? & ? & ? & -> & _).
      destruct (cidr_prefix part 32) as [p|] eqn:Ep; cbn; [|done]. intros [= <-]. split; [|exact Ep]. by apply (ipToBytes_reads a 4).
    - destruct (parseIPv6 isIP a) as [groups|] eqn:E; cbn; [|done]. pose proof (parseIPv6_ok _ _ _ E) as [Hlen _].
      destruct (cidr_prefix part 128) as [p|] eqn:Ep; cbn; [|done]. intros [= <-]. cbn [cidr_bytes prefix]. split.
      + apply (ipToBytes_reads a 6). cbn. by rewrite E.
      + rewrite <- Ep. f_equal. by destruct groups as [|? [|? [|? [|? [|? [|? [|? [|? [|? ?]]]]]]]]]. }
  unfold parseCidr. destruct raw as [|x raw]; [done|]. destruct (last_index 47 (x :: raw)) as [i|] eqn:Hi.
  - apply last_index_spec in Hi. cbn [from_option]. destruct (all_digits (drop (S i) (x :: raw))) eqn:Hd; cbn [negb]; [|done].
    intros [Ha Hp]%Haddr. apply cidr_prefix_reads in Hp as [? ?]. eapply range_cidr; [exact Hi| |done..|done].
    unfold all_digits in Hd. apply andb_true_iff in Hd as [Hne%negb_true_iff _]. by apply bool_decide_eq_false in Hne.
  - cbn [from_option negb]. intros [Ha Hp]%Haddr. injection Hp as <-. by constructor.
Qed.
End Reads.

(** ** Examples *)

Example reads_mapped : ipv6_text (js "::ffff:1.2.3.4") [0; 0; 0; 0; 0; 65535; 258; 772].
Proof. apply (parseIPv6_reads (λ s, if decide (58 ∈ s) then 6 else 4)). by vm_compute. Qed.

Example reads_range : range_text (js "198.18.0.0/15") 32 (198 * 2 ^ 24 + 18 * 2 ^ 16) 15.
Proof.
  apply (parseCidr_reads (λ s, if decide (58 ∈ s) then 6 else 4) _ (MkCidr [198; 18; 0; 0] 15)). by vm_compute.
Qed.
