(* ===== verification/SsrfProtection.v ===== *)
(** * The guard of remote fetches

    [packages/coding-agent/src/extensions/web-access/ssrf-protection.ts] and the
    proxy tests of [utils.ts] it calls: the hostname policy, the decision to trust
    an environment proxy, the validation of a URL, and the fetch that follows
    redirects by hand so that every hop is validated.

    Node's [net.isIP], [String.prototype.toLowerCase], the URL parser, the
    environment variables and the proxy settings are parameters; DNS and [fetch]
    may answer differently at every call, so they take the number of the call. *)

From S2P Require Import Prelude JsString JsonText SessionTypes JsMap IpAddress.

Inductive ssrf_error :=
| InvalidUrl
| OnlyHttp
| NoHostname
| BlockedHostname (hostname : jsstring)
| InvalidCidr (entry : jsstring)
| BlockedByPolicy (hostname : jsstring)
| NotAllowedByPolicy (hostname : jsstring)
| NotAnAddress (hostname address : jsstring)
| BlockedAddress (hostname address : jsstring)
| ResolveFailed (hostname : jsstring)
| NoAddresses (hostname : jsstring)
| TooManyRedirects (url : jsstring)
| FetchFailed
| ProxyConfigError
| InvalidConfig (what : jsstring).

(** What the guard reads of a [URL]. *)
Record URL := MkUrl { protocol : jsstring; hostname : jsstring; port : jsstring; href : jsstring }.

Record DomainPolicy := MkPolicy { allow : list jsstring; deny : list jsstring }.
Record SsrfConfig := MkSsrfConfig { config_allowRanges : list jsstring; config_trustEnvProxy : bool }.

Record ValidationOptions := MkValidationOptions {
  domainPolicy : option DomainPolicy; allowRanges : option (list jsstring); trustEnvProxy : bool; allowLoopback : bool }.

Definition DEFAULT_MAX_REDIRECTS : Z := 5.
Definition REDIRECT_STATUSES : list Z := [301; 302; 303; 307; 308].
Definition LOOPBACK_ALLOW_RANGES : list jsstring := [js "127.0.0.0/8"; js "::1"; js "::ffff:127.0.0.0/104"].

Definition ends_with (s suffix : jsstring) : bool := bool_decide (suffix `suffix_of` s).

(** [.replace(/^\[|\]$/g, "")] and [.replace(/\.$/, "")]. *)
Definition strip_last (c : Z) (s : jsstring) : jsstring :=
  if bool_decide (last s = Some c) then take (length s - 1) s else s.
Definition strip_brackets (s : jsstring) : jsstring :=
  strip_last 93 match s with c :: s' => if c =? 91 then s' else s | [] => [] end.

(** The first of some strings that is not empty, [a || b || ...]. *)
Definition first_nonempty (values : list (option jsstring)) : option jsstring :=
  head (filter (λ v, v ≠ []) (omap id values)).

Section Guard.
Context (isIP : jsstring → Z) (toLowerCase : jsstring → jsstring).
(** [process.env], [proxyStorage.getStore()], the file the proxy is configured in. *)
Context (env : jsstring → option jsstring) (proxyStore : option (option jsstring))
  (configuredProxy : result ssrf_error (option jsstring)).
(** [new URL(text)] and [new URL(text, base)]; [None] throws. *)
Context (parse_url : jsstring → option URL) (resolve_url : jsstring → URL → option URL).

Definition normalizeHostname (hostname : jsstring) : jsstring :=
  strip_last 46 (strip_brackets (toLowerCase hostname)).

(** ** Configuration *)

(** One label of a hostname: letters and digits, hyphens inside, at most 63 long. *)
Definition is_alnum (c : Z) : bool := is_digit c || in_range 97 122 c || in_range 65 90 c.
Definition is_label (part : jsstring) : bool :=
  match part with
  | [] => false
  | first :: _ =>
      is_alnum first && from_option is_alnum false (last part) && forallb (λ c, is_alnum c || (c =? 45)) part
      && Nat.leb (length part) 63
  end.

Definition normalizeDomainEntry (entry : jsstring) : option jsstring :=
  let hostname := normalizeHostname (trim entry) in
  if bool_decide (hostname = [])
     || existsb (λ c, is_space c || (c =? 92) || (c =? 47) || (c =? 63) || (c =? 58) || (c =? 35) || (c =? 64)) hostname
  then None
  else if negb (isIP hostname =? 0) then Some hostname
  else if Nat.ltb 253 (length hostname) || negb (forallb is_label (split_at 46 hostname)) then None
  else Some hostname.

Definition parseDomainEntries (value : option JsonValue) : result ssrf_error (list jsstring) :=
  match value with
  | None | Some JsonNull => Ok []
  | Some (JsonArray entries) =>
      mapM (λ entry,
        match entry with
        | JsonString s =>
            match normalizeDomainEntry s with Some h => Ok h | None => Err (InvalidConfig (js "hostname")) end
        | _ => Err (InvalidConfig (js "entry"))
        end) entries
  | Some _ => Err (InvalidConfig (js "domainPolicy"))
  end.

(** The parsed configuration file, [None] when there is none. *)
Abbreviation config_root := (option (list (jsstring * JsonValue))) (only parsing).

(** An object below a key: absent or [null], an object, or an error. *)
Definition config_object (root : list (jsstring * JsonValue)) (key : jsstring)
    : result ssrf_error (option (list (jsstring * JsonValue))) :=
  match map_get root key with
  | None | Some JsonNull => Ok None
  | Some (JsonObject props) => Ok (Some props)
  | Some _ => Err (InvalidConfig key)
  end.

Definition loadFetchContentDomainPolicy (root : config_root) : result ssrf_error DomainPolicy :=
  match root with
  | None => Ok (MkPolicy [] [])
  | Some root =>
      fetchContent ← config_object root (js "fetchContent");
      match fetchContent with
      | None => Ok (MkPolicy [] [])
      | Some fetchContent =>
          policy ← config_object fetchContent (js "domainPolicy");
          match policy with
          | None => Ok (MkPolicy [] [])
          | Some policy =>
              allow ← parseDomainEntries (map_get policy (js "allow"));
              deny ← parseDomainEntries (map_get policy (js "deny"));
              Ok (MkPolicy allow deny)
          end
      end
  end.

Definition parseAllowRanges (input : option (list jsstring)) : result ssrf_error (list ParsedCidr) :=
  mapM (λ entry, match parseCidr isIP (trim entry) with Some rule => Ok rule | None => Err (InvalidCidr entry) end)
    (default [] input).

Definition loadSsrfConfig (root : config_root) : result ssrf_error SsrfConfig :=
  match root with
  | None => Ok (MkSsrfConfig [] false)
  | Some root =>
      ssrf ← config_object root (js "ssrf");
      match ssrf with
      | None => Ok (MkSsrfConfig [] false)
      | Some config =>
          entries ← match map_get config (js "allowRanges") with
                    | None | Some JsonNull => Ok []
                    | Some (JsonArray entries) => Ok entries
                    | Some _ => Err (InvalidConfig (js "allowRanges"))
                    end;
          trust ← match map_get config (js "trustEnvProxy") with
                  | None => Ok false
                  | Some (JsonBool b) => Ok b
                  | Some _ => Err (InvalidConfig (js "trustEnvProxy"))
                  end;
          texts ← mapM (λ entry, match entry with JsonString s => Ok (trim s) | _ => Err (InvalidConfig (js "entry")) end)
                    entries;
          let ranges := filter (λ s, s ≠ []) texts in
          _ ← parseAllowRanges (Some ranges);
          Ok (MkSsrfConfig ranges trust)
      end
  end.

(** ** Proxies *)

Definition is_http (url : URL) : bool := bool_decide (protocol url = js "http:") || bool_decide (protocol url = js "https:").

Definition getProxyForProtocol (protocol : jsstring) : option jsstring :=
  let names :=
    if decide (protocol = js "http:") then [js "HTTP_PROXY"; js "http_proxy"; js "ALL_PROXY"; js "all_proxy"]
    else if decide (protocol = js "https:") then
      [js "HTTPS_PROXY"; js "https_proxy"; js "HTTP_PROXY"; js "http_proxy"; js "ALL_PROXY"; js "all_proxy"]
    else [] in
  head (filter (λ value,
    match parse_url value with Some u => is_http u && negb (bool_decide (hostname u = [])) | None => false end = true)
    (filter (λ value, value ≠ []) (trim <$> omap env names))).

(** Where a [NO_PROXY] entry ends its host, and the port it names.  The test for a
    port after brackets is the regular expression [/^:\\d+$/], which a colon, a
    backslash and letters [d] match. *)
Definition no_proxy_host (trimmed : jsstring) : jsstring * option jsstring :=
  match trimmed with
  | c :: _ =>
      if c =? 91 then
        match list_find (λ u, u = 93) trimmed with
        | Some (i, _) =>
            (take (S i) trimmed,
             match drop (S i) trimmed with
             | (a :: b :: _ :: _) as suffix =>
                 if (a =? 58) && (b =? 92) && forallb (λ d, d =? 100) (drop 2 suffix) then Some (drop 1 suffix) else None
             | _ => None
             end)
        | None => (trimmed, None)
        end
      else
        match last_index 58 trimmed with
        | Some i => if all_digits (drop (S i) trimmed) then (take i trimmed, Some (drop (S i) trimmed)) else (trimmed, None)
        | None => (trimmed, None)
        end
  | [] => ([], None)
  end.

Definition hostnameMatchesNoProxy (hostname port entry : jsstring) : bool :=
  let trimmed := trim entry in
  if bool_decide (trimmed = []) then false
  else if bool_decide (trimmed = js "*") then true
  else
    let (hostEntry, entryPort) := no_proxy_host trimmed in
    if from_option (λ p, negb (bool_decide (p = port))) false entryPort then false
    else
      match normalizeHostname hostEntry with
      | [] => false
      | (c :: rest) as normalizedEntry =>
          if bool_decide (normalizedEntry = hostname) then true
          else
            ends_with hostname
              (if (c =? 42) && bool_decide (head rest = Some 46) then rest
               else if c =? 46 then normalizedEntry else 46 :: normalizedEntry)
      end.

(** [utils.ts]. *)
Definition hasScopedProxyDecision : bool := bool_decide (is_Some proxyStore).
Definition getActiveProxy : result ssrf_error (option jsstring) :=
  match proxyStore with Some scoped => Ok scoped | None => configuredProxy end.

Definition noProxyEntryMatches (hostname entry : jsstring) : bool :=
  if bool_decide (entry = []) then false
  else if bool_decide (entry = js "*") then true
  else
    let host :=
      match entry with
      | c :: _ =>
          if c =? 91 then match list_find (λ u, u = 93) entry with Some (i, _) => take (S i) entry | None => entry end
          else
            match last_index 58 entry with
            | Some i => if all_digits (drop (S i) entry) then take i entry else entry
            | None => entry
            end
      | [] => []
      end in
    match strip_brackets (toLowerCase host) with
    | [] => false
    | (c :: _) as host => bool_decide (hostname = host) || ends_with hostname (if c =? 46 then host else 46 :: host)
    end.

Definition isProxyBypassedUrl (url : URL) : bool :=
  let host := strip_brackets (toLowerCase (hostname url)) in
  bool_decide (host = js "localhost") || ends_with host (js ".localhost") || bool_decide (host = js "127.0.0.1")
  || bool_decide (host = js "::1")
  || match first_nonempty [env (js "NO_PROXY"); env (js "no_proxy")] with
     | Some noProxy => existsb (λ entry, noProxyEntryMatches host (trim entry)) (split_at 44 noProxy)
     | None => false
     end.

Definition shouldTrustEnvProxy (url : URL) (enabled : bool) : result ssrf_error bool :=
  if negb enabled || bool_decide (getProxyForProtocol (protocol url) = None) then Ok false
  else if hasScopedProxyDecision then Ok false
  else
    activeProxy ← getActiveProxy;
    if negb (bool_decide (default [] activeProxy = [])) && negb (isProxyBypassedUrl url) then Ok false
    else
      let host := normalizeHostname (hostname url) in
      let port := if bool_decide (port url = []) then if decide (protocol url = js "https:") then js "443" else js "80"
                  else port url in
      let noProxy := default [] (first_nonempty [env (js "NO_PROXY"); env (js "no_proxy")]) in
      Ok (negb (existsb (hostnameMatchesNoProxy host port) (split_at 44 noProxy))).

(** ** Validation *)

Definition domainMatches (hostname entry : jsstring) : bool :=
  bool_decide (hostname = entry) || ends_with hostname (46 :: entry).

Definition assertDomainPolicy (hostname : jsstring) (policy : option DomainPolicy) : result ssrf_error unit :=
  match policy with
  | None => Ok ()
  | Some policy =>
      if existsb (domainMatches hostname) (deny policy) then Err (BlockedByPolicy hostname)
      else if negb (bool_decide (allow policy = [])) && negb (existsb (domainMatches hostname) (allow policy))
      then Err (NotAllowedByPolicy hostname)
      else Ok ()
  end.

Definition assertPublicAddress (address hostname : jsstring) (ranges : list ParsedCidr) : result ssrf_error unit :=
  let normalized := normalizeHostname address in
  let ipVersion := isIP normalized in
  if ipVersion =? 0 then Err (NotAnAddress hostname address)
  else if isInAllowedRange isIP normalized ipVersion ranges then Ok ()
  else if (ipVersion =? 4) && isBlockedIPv4 normalized then Err (BlockedAddress hostname normalized)
  else if (ipVersion =? 6) && isBlockedIPv6 isIP normalized then Err (BlockedAddress hostname normalized)
  else Ok ().

(** The loop over the resolved addresses. *)
Fixpoint assert_all (addresses : list jsstring) (hostname : jsstring) (ranges : list ParsedCidr)
    : result ssrf_error unit :=
  match addresses with
  | [] => Ok ()
  | address :: addresses => _ ← assertPublicAddress address hostname ranges; assert_all addresses hostname ranges
  end.

(** [lookup] throws or resolves to addresses. *)
Definition validateRemoteUrl (lookup : jsstring → option (list jsstring)) (options : ValidationOptions) (url : URL)
    : result ssrf_error URL :=
  if negb (is_http url) then Err OnlyHttp
  else
    let host := normalizeHostname (hostname url) in
    if bool_decide (host = []) then Err NoHostname
    else if bool_decide (host = js "localhost") then
      if allowLoopback options then Ok url else Err (BlockedHostname host)
    else if ends_with host (js ".localhost") then Err (BlockedHostname host)
    else
      ranges ← parseAllowRanges (allowRanges options);
      _ ← assertDomainPolicy host (domainPolicy options);
      if negb (isIP host =? 0) then
        addressRanges ← (if allowLoopback options
                         then loopback ← parseAllowRanges (Some LOOPBACK_ALLOW_RANGES); Ok (ranges ++ loopback)
                         else Ok ranges);
        _ ← assertPublicAddress host host addressRanges;
        Ok url
      else
        trusted ← shouldTrustEnvProxy url (trustEnvProxy options);
        if trusted : bool then Ok url
        else
          match lookup host with
          | None => Err (ResolveFailed host)
          | Some [] => Err (NoAddresses host)
          | Some addresses => _ ← assert_all addresses host ranges; Ok url
          end.

(** ** Fetching *)

Record RequestInit := MkRequest { method : option jsstring; has_body : bool; other_init : jsstring }.
Record Response := MkResponse { status : Z; location : option jsstring }.

(** [requestInit.method?.toUpperCase() === "POST"]; [upper] is [toUpperCase]. *)
Context (toUpperCase : jsstring → jsstring).
Definition is_post (init : RequestInit) : bool := bool_decide (toUpperCase <$> method init = Some (js "POST")).

(** The request that follows a redirect. *)
Definition redirected_init (response : Response) (init : RequestInit) : RequestInit :=
  if (status response =? 303) || (((status response =? 301) || (status response =? 302)) && is_post init)
  then MkRequest (Some (js "GET")) false (other_init init)
  else init.

(** The answers of DNS and [fetch] at each hop; a rejection of [fetch] is [None]. *)
Context (lookup : nat → jsstring → option (list jsstring)) (fetchImpl : nat → URL → RequestInit → option Response).
Context (onRedirect : option (URL → URL → RequestInit → Response → RequestInit)).

(** The loop, with [remaining] redirects to go, and the requests that were made. *)
Fixpoint fetch_loop (remaining redirects : nat) (options : ValidationOptions) (current : URL) (requestInit : RequestInit)
    : list (URL * RequestInit) * result ssrf_error Response :=
  match fetchImpl redirects current requestInit with
  | None => ([(current, requestInit)], Err FetchFailed)
  | Some response =>
      let stop r := ([(current, requestInit)], r) in
      if negb (bool_decide (status response ∈ REDIRECT_STATUSES)) then stop (Ok response)
      else
        match location response with
        | None | Some [] => stop (Ok response)
        | Some location =>
            match remaining with
            | O => stop (Err (TooManyRedirects (href current)))
            | S remaining =>
                match resolve_url location current with
                | None => stop (Err InvalidUrl)
                | Some next =>
                    match validateRemoteUrl (lookup (S redirects)) options next with
                    | Err e => stop (Err e)
                    | Ok next =>
                        let init := redirected_init response requestInit in
                        let init := match onRedirect with Some f => f current next init response | None => init end in
                        let (made, r) := fetch_loop remaining (S redirects) options next init in
                        ((current, requestInit) :: made, r)
                    end
                end
            end
        end
  end.

Definition fetchRemoteUrl (maxRedirects : option Z) (options : ValidationOptions) (url : URL) (init : RequestInit)
    : list (URL * RequestInit) * result ssrf_error Response :=
  match validateRemoteUrl (lookup 0) options url with
  | Err e => ([], Err e)
  | Ok current =>
      let maxRedirects := default DEFAULT_MAX_REDIRECTS maxRedirects in
      if maxRedirects <? 0 then ([], Err (TooManyRedirects (href current)))
      else fetch_loop (Z.to_nat maxRedirects) 0 options current init
  end.
End Guard.
