(* ===== verification/SsrfTheorems.v ===== *)
(** * What a remote fetch can reach

    A URL is accepted only when its host satisfies the hostname policy and every address it
    stands for lies outside the blocked ranges, or in one the caller allowed, or a trusted
    environment proxy resolves it; and a fetch requests accepted URLs only, whatever the
    redirects.  Hosts, domains, addresses and ranges are read by their notation, apart from
    the parsers of the guard. *)

From S2P Require Import Prelude JsString JsonText SessionTypes JsMap IpAddress AddressText SsrfProtection.

Section Ssrf.
Context (isIP : jsstring → Z) (toLowerCase : jsstring → jsstring).
Context (env : jsstring → option jsstring) (proxyStore : option (option jsstring))
  (configuredProxy : result ssrf_error (option jsstring)).
Context (parse_url : jsstring → option URL) (resolve_url : jsstring → URL → option URL).

(** ** Ranges *)

Definition rule_ok (rule : ParsedCidr) : Prop :=
  bytes_ok (cidr_bytes rule) ∧ 0 ≤ prefix rule ≤ 8 * zlen (cidr_bytes rule).

Lemma group_bytes groups :
  Forall is_group groups → bytes_ok (ipv6GroupsToBytes groups) ∧ length (ipv6GroupsToBytes groups) = (2 * length groups)%nat.
Proof.
  unfold ipv6GroupsToBytes. induction 1 as [|g groups Hg _ [IH1 IH2]]; [by split; [apply Forall_nil_2|]|].
  cbn [fmap list_fmap concat]. split.
  - apply Forall_app. split; [|exact IH1]. destruct (land_groups g Hg) as (_ & _ & -> & ->). unfold is_group, is_byte in *.
    repeat (apply Forall_cons; split; [Z.to_euclidean_division_equations; lia|]). apply Forall_nil_2.
  - rewrite length_app. cbn [length]. change (concat _) with (concat ((λ g, [Z.shiftr g 8; Z.land g 255]) <$> groups)).
    rewrite IH2. lia.
Qed.

Lemma octets_bytes address l : octets address = Some l → bytes_ok l ∧ length l = 4%nat.
Proof.
  intros (a & b & c & d & -> & Ha & Hb & Hc & Hd)%octets_ok. split; [|done].
  repeat (apply Forall_cons; split; [done|]). apply Forall_nil_2.
Qed.

Lemma ipToBytes_ok address version bytes :
  ipToBytes isIP address version = Some bytes → bytes_ok bytes ∧ (version = 4 ∧ length bytes = 4%nat ∨ version = 6 ∧ length bytes = 16%nat).
Proof.
  unfold ipToBytes. destruct (Z.eqb_spec version 4) as [->|_].
  - intros [? ?]%octets_bytes. auto.
  - destruct (Z.eqb_spec version 6) as [->|_]; [|done].
    destruct (parseIPv6 isIP address) as [groups|] eqn:E; [|done]. intros [= <-].
    apply parseIPv6_ok in E as [Hlen Hall]. destruct (group_bytes groups Hall) as [? Hl]. split; [done|right].
    split; [done|]. rewrite Hl, Hlen. done.
Qed.

Lemma cidr_prefix_ok part whole p : cidr_prefix part whole = Some p → 0 ≤ whole → 0 ≤ p ≤ whole.
Proof.
  unfold cidr_prefix. destruct part as [s|]; [|by intros [= ->] ?; lia].
  destruct (decimal s) as [n|]; cbn; [|done].
  destruct (Z.ltb_spec n 1), (Z.ltb_spec whole n); cbn; try done. intros [= <-]. lia.
Qed.

Lemma parseCidr_ok raw rule : parseCidr isIP raw = Some rule → rule_ok rule.
Proof.
  unfold parseCidr. destruct raw as [|c raw]; [done|].
  destruct (match last_index 47 (c :: raw) with
            | Some i => (take i (c :: raw), Some (drop (S i) (c :: raw))) | None => (c :: raw, None) end) as [a p].
  destruct (negb (from_option all_digits true p)); [done|]. destruct (isIP a =? 4); [|destruct (isIP a =? 6); [|done]].
  - destruct (octets a) as [bytes|] eqn:E; cbn; [|done]. destruct (cidr_prefix p 32) as [n|] eqn:Ep; cbn; [|done].
    intros [= <-]. apply octets_bytes in E as [Hb Hl]. split; [done|]. cbn [cidr_bytes prefix].
    pose proof (cidr_prefix_ok _ _ _ Ep ltac:(lia)). unfold zlen. rewrite Hl. lia.
  - destruct (parseIPv6 isIP a) as [groups|] eqn:E; cbn; [|done]. destruct (cidr_prefix p 128) as [n|] eqn:Ep; cbn; [|done].
    intros [= <-]. apply parseIPv6_ok in E as [Hlen Hall]. destruct (group_bytes groups Hall) as [Hb Hl]. split; [done|].
    cbn [cidr_bytes prefix]. pose proof (cidr_prefix_ok _ _ _ Ep ltac:(lia)). unfold zlen. rewrite Hl, Hlen. lia.
Qed.

Lemma parseAllowRanges_ok input ranges : parseAllowRanges isIP input = Ok ranges → Forall rule_ok ranges.
Proof.
  unfold parseAllowRanges. generalize (default [] input) as entries. intros entries. revert ranges.
  induction entries as [|e entries IH]; intros ranges; cbn; [by intros [= <-]; apply Forall_nil_2|].
  destruct (parseCidr isIP (trim e)) as [rule|] eqn:E; cbn; [|done].
  match goal with |- context [mapM ?f entries] => destruct (mapM f entries) as [rs|] eqn:Er end; cbn; [|done].
  intros [= <-]. apply Forall_cons. split; [by eapply parseCidr_ok|by apply IH].
Qed.

(** ** Hosts

    The name that a host is compared by: in lower case, without the brackets of an address
    and without one dot at its end. *)
Definition bare_host (raw host : jsstring) : Prop :=
  ∃ front dot back, toLowerCase raw = front ++ host ++ dot ++ back
    ∧ (front = js "[" ∨ front = [] ∧ head (toLowerCase raw) ≠ Some 91)
    ∧ (back = js "]" ∨ back = [] ∧ last (toLowerCase raw) ≠ Some 93)
    ∧ (dot = js "." ∨ dot = [] ∧ last host ≠ Some 46).

Lemma strip_last_spec c s :
  ∃ back, s = strip_last c s ++ back ∧ (back = [c] ∨ back = [] ∧ last s ≠ Some c ∧ strip_last c s = s).
Proof.
  unfold strip_last. case_bool_decide as Hl; [|exists []; rewrite app_nil_r; auto].
  exists [c]. split; [|by left]. apply last_Some in Hl as [l ->]. rewrite length_app. cbn [length].
  by replace (length l + 1 - 1)%nat with (length l) by lia; rewrite take_app_length.
Qed.

Lemma normalizeHostname_bare raw : bare_host raw (normalizeHostname toLowerCase raw).
Proof.
  unfold bare_host, normalizeHostname, strip_brackets.
  assert (∃ front rest, toLowerCase raw = front ++ rest ∧ match toLowerCase raw with c :: s' => if c =? 91 then s' else toLowerCase raw | [] => [] end = rest
    ∧ (front = js "[" ∨ front = [] ∧ head (toLowerCase raw) ≠ Some 91)) as (front & rest & Heq & -> & Hfront).
  { destruct (toLowerCase raw) as [|c s]; [by exists [], []; auto|]. destruct (Z.eqb_spec c 91) as [->|].
    - exists [91], s. auto.
    - exists [], (c :: s). split_and!; [done..|]. right. split; [done|]. by intros [=]. }
  rewrite Heq in *. destruct (strip_last_spec 93 rest) as (back & Hback & Hb). destruct (strip_last_spec 46 (strip_last 93 rest)) as (dot & Hdot & Hd).
  exists front, dot, back. split_and!; [by rewrite (assoc_L app (strip_last 46 _) dot back), <- Hdot, <- Hback|done| |].
  - destruct Hb as [->|(-> & Hne & _)]; [by left|right]. split; [done|]. destruct Hfront as [->|[-> _]]; [|done].
    by destruct rest as [|x rest] using rev_ind; [|rewrite last_snoc in Hne; rewrite (assoc_L app), last_snoc].
  - destruct Hd as [->|(-> & Hne & ->)]; [by left|by right].
Qed.

(** A domain covers itself and its subdomains. *)
Definition under (host domain : jsstring) : Prop := host = domain ∨ ∃ sub, host = sub ++ 46 :: domain.

Lemma domainMatches_iff host entry : domainMatches host entry = true ↔ under host entry.
Proof. unfold domainMatches, ends_with, under. by rewrite orb_true_iff, !bool_decide_eq_true. Qed.

(** The policy of an allow and a deny list: the host is under no denied domain, and under
    an allowed one when there are any. *)
Definition policy_ok (policy : option DomainPolicy) (host : jsstring) : Prop :=
  ∀ p, policy = Some p →
    ¬ (∃ entry, entry ∈ deny p ∧ under host entry) ∧ (allow p = [] ∨ ∃ entry, entry ∈ allow p ∧ under host entry).

Lemma assertDomainPolicy_iff host policy : assertDomainPolicy host policy = Ok () ↔ policy_ok policy host.
Proof.
  assert (∀ l, existsb (domainMatches host) l = true ↔ ∃ entry, entry ∈ l ∧ under host entry) as Hex.
  { intros l. rewrite existsb_exists. setoid_rewrite domainMatches_iff. by setoid_rewrite <- list_elem_of_In. }
  unfold assertDomainPolicy, policy_ok. destruct policy as [p|]; [|by split; [intros _ ? [=]|]].
  transitivity (¬ (∃ entry, entry ∈ deny p ∧ under host entry) ∧ (allow p = [] ∨ ∃ entry, entry ∈ allow p ∧ under host entry)).
  2: { split; [by intros ? ? [= <-]|by intros Hp; apply Hp]. }
  rewrite <- !Hex. destruct (existsb _ (deny p)); [by split; [done|intros [[] _]]|].
  destruct (bool_decide_reflect (allow p = [])) as [Ha|Ha]; cbn; [by split; auto|].
  destruct (existsb _ (allow p)); cbn; split; try done; [by auto|by intros [_ [?|?]]].
Qed.

(** ** Addresses *)

(** What may be fetched: an address that lies in a range the caller allowed, or one
    outside the blocked ranges of its family. *)
Definition fetchable (ranges : list jsstring) (address : jsstring) : Prop :=
  ∃ a, bare_host address a
    ∧ (Exists (λ range, lies_in a (trim range)) ranges
       ∨ (∃ bytes, ipv4_text a bytes ∧ ¬ blocked_ipv4 bytes)
       ∨ (∃ groups, ipv6_text a groups ∧ ¬ blocked_ipv6 groups)).

Definition parsed (range : jsstring) (rule : ParsedCidr) : Prop := parseCidr isIP (trim range) = Some rule.

Lemma parseAllowRanges_parsed input rules : parseAllowRanges isIP input = Ok rules → Forall2 parsed (default [] input) rules.
Proof.
  unfold parseAllowRanges. generalize (default [] input) as entries. intros entries. revert rules.
  induction entries as [|e entries IH]; intros rules; cbn; [by intros [= <-]; constructor|].
  destruct (parseCidr isIP (trim e)) as [rule|] eqn:E; cbn; [|done].
  match goal with |- context [mapM ?f entries] => destruct (mapM f entries) as [rs|] eqn:Er end; cbn; [|done].
  intros [= <-]. constructor; [done|]. by apply IH.
Qed.

Lemma isInAllowedRange_lies a ranges rules :
  Forall2 parsed ranges rules → isInAllowedRange isIP a (isIP a) rules = true → Exists (λ range, lies_in a (trim range)) ranges.
Proof.
  intros Hp. unfold isInAllowedRange. destruct rules as [|r0 rs] eqn:Hr; [done|]. rewrite <- Hr in *. clear Hr.
  destruct (ipToBytes isIP a (isIP a)) as [bytes|] eqn:E; [|done].
  rewrite existsb_exists, Exists_exists. intros (rule & (i & Hi)%list_elem_of_In%list_elem_of_lookup & Hrule).
  destruct (Forall2_lookup_r _ _ _ _ _ Hp Hi) as (range & Hrange & Hpr). exists range. split; [by eapply list_elem_of_lookup_2|].
  apply andb_true_iff in Hrule as [Hlen%Nat.eqb_eq Hm]. destruct (ipToBytes_ok _ _ _ E) as [Hb _]. destruct (parseCidr_ok _ _ Hpr) as [Hrb Hprefix].
  assert (zlen (cidr_bytes rule) = zlen bytes) as Hz by (unfold zlen; by rewrite Hlen).
  apply bytesMatchPrefix_spec in Hm; [|done|done|done|by rewrite <- Hz].
  exists (8 * zlen bytes), (value bytes), (value (cidr_bytes rule)), (prefix rule).
  split_and!; [by eapply ipToBytes_reads|rewrite <- Hz; by eapply parseCidr_reads|done].
Qed.

(** Node documents the answers of [isIP]. *)
Context (isIP_answers : ∀ s, isIP s = 0 ∨ isIP s = 4 ∨ isIP s = 6).

Lemma assertPublicAddress_fetchable address host ranges rules :
  Forall2 parsed ranges rules → assertPublicAddress isIP toLowerCase address host rules = Ok () → fetchable ranges address.
Proof.
  intros Hp. unfold assertPublicAddress, fetchable. pose proof (normalizeHostname_bare address) as Hbare.
  set (a := normalizeHostname toLowerCase address) in *. intros Hok. exists a. split; [exact Hbare|].
  pose proof (isInAllowedRange_lies a ranges rules Hp) as Hin. destruct (isInAllowedRange isIP a (isIP a) rules); [by left; apply Hin|]. right.
  destruct (isIP_answers a) as [H0|[H4|H6]].
  - by rewrite H0 in Hok.
  - rewrite H4 in Hok. cbn in Hok. destruct (isBlockedIPv4 a) eqn:Hb; [done|]. apply isBlockedIPv4_false in Hb as (bytes & Ho & Hn).
    left. exists bytes. by split; [apply octets_reads|].
  - rewrite H6 in Hok. cbn in Hok. destruct (isBlockedIPv6 isIP a) eqn:Hb; [done|]. apply isBlockedIPv6_false in Hb as (groups & Hg & Hn).
    right. exists groups. by split; [eapply parseIPv6_reads|].
Qed.

Lemma assert_all_fetchable addresses host ranges rules :
  Forall2 parsed ranges rules → assert_all isIP toLowerCase addresses host rules = Ok () → Forall (fetchable ranges) addresses.
Proof.
  intros Hp. induction addresses as [|a addresses IH]; cbn [assert_all]; [constructor|].
  destruct (assertPublicAddress isIP toLowerCase a host rules) as [[]|] eqn:E; cbn; [|done]. intros Ha.
  constructor; [by eapply assertPublicAddress_fetchable|by apply IH].
Qed.

(** ** The environment proxy *)

Definition http_or_https (protocol : jsstring) : Prop := protocol = js "http:" ∨ protocol = js "https:".

Lemma is_http_iff url : is_http url = true ↔ http_or_https (protocol url).
Proof. unfold is_http, http_or_https. by rewrite orb_true_iff, !bool_decide_eq_true. Qed.

(** A variable of the environment names a proxy for the protocol. *)
Definition proxy_named (target : jsstring) : Prop :=
  ∃ name value proxy, (name ∈ js <$> ["HTTP_PROXY"; "http_proxy"; "ALL_PROXY"; "all_proxy"]%string
      ∨ target = js "https:" ∧ name ∈ js <$> ["HTTPS_PROXY"; "https_proxy"]%string)
    ∧ env name = Some value ∧ parse_url (trim value) = Some proxy ∧ http_or_https (protocol proxy) ∧ hostname proxy ≠ [].

(** The hosts that are not reached by proxy. *)
Definition no_proxy (hosts : jsstring) : Prop :=
  env (js "NO_PROXY") = Some hosts ∧ hosts ≠ []
  ∨ default [] (env (js "NO_PROXY")) = [] ∧ default [] (env (js "no_proxy")) = hosts.

(** A host or domain without a port, a star, brackets or a dot at an end. *)
Definition plain_name (name : jsstring) : Prop :=
  name ≠ [] ∧ toLowerCase name = name ∧ 58 ∉ name ∧ head name ∉ [Some 91; Some 42; Some 46] ∧ last name ∉ [Some 93; Some 46].

(** An environment proxy is trusted to resolve a host: the caller wants so, the environment
    names a proxy and does not except the host, and no other proxy was decided on. *)
Definition proxy_trusted (options : ValidationOptions) (url : URL) (host : jsstring) : Prop :=
  trustEnvProxy options = true ∧ proxyStore = None ∧ proxy_named (protocol url)
  ∧ (∃ active, configuredProxy = Ok active ∧ (default [] active = [] ∨ isProxyBypassedUrl toLowerCase env url = true))
  ∧ ∃ hosts, no_proxy hosts ∧ ∀ entry, entry ∈ split_at 44 hosts →
      trim entry ≠ js "*" ∧ (plain_name (trim entry) → ¬ under host (trim entry)).

Lemma getProxyForProtocol_named target : getProxyForProtocol env parse_url target ≠ None → proxy_named target.
Proof.
  unfold getProxyForProtocol. match goal with |- context [filter ?P (filter ?Q ?l)] => destruct (filter P (filter Q l)) as [|value rest] eqn:Hf; [done|] end.
  intros _. assert (value ∈ value :: rest) as Hin by (by apply elem_of_cons; left). rewrite <- Hf in Hin.
  apply list_elem_of_filter in Hin as [Hu Hin]. apply list_elem_of_filter in Hin as [_ Hin].
  apply list_elem_of_fmap in Hin as (raw & -> & Hin). apply list_elem_of_omap in Hin as (name & Hname & Henv).
  destruct (parse_url (trim raw)) as [proxy|] eqn:Hparse; [|done]. apply andb_true_iff in Hu as [Hhttp Hne%negb_true_iff].
  apply is_http_iff in Hhttp. apply bool_decide_eq_false in Hne. exists name, raw, proxy. split_and!; try done. cbn [fmap list_fmap].
  destruct (decide (target = js "http:")) as [->|_]; [by left|]. destruct (decide (target = js "https:")) as [->|_]; [|by apply elem_of_nil in Hname].
  rewrite !elem_of_cons in Hname |- *. naive_solver.
Qed.

Lemma first_no_proxy : no_proxy (default [] (first_nonempty [env (js "NO_PROXY"); env (js "no_proxy")])).
Proof.
  unfold no_proxy, first_nonempty. destruct (env (js "NO_PROXY")) as [[|c l]|], (env (js "no_proxy")) as [[|c' l']|]; cbn; auto.
Qed.

Lemma last_index_absent c s : c ∉ s → last_index c s = None.
Proof. intros Hc. destruct (last_index c s) as [i|] eqn:E; [|done]. apply last_index_spec in E. destruct Hc. rewrite E. set_solver. Qed.

Lemma hostnameMatchesNoProxy_plain host port entry :
  hostnameMatchesNoProxy toLowerCase host port entry = false →
  trim entry ≠ js "*" ∧ (plain_name (trim entry) → ¬ under host (trim entry)).
Proof.
  unfold hostnameMatchesNoProxy. destruct (bool_decide_reflect (trim entry = [])) as [Hnil|Hne]; [intros _; rewrite Hnil; split; [done|by intros [? _]]|].
  destruct (bool_decide_reflect (trim entry = js "*")) as [|Hstar]; [done|]. intros Hm. split; [done|].
  intros (_ & Hlower & Hcolon & Hhead & Hlast). do 3 rewrite not_elem_of_cons in Hhead. rewrite !not_elem_of_cons in Hlast.
  destruct (trim entry) as [|c name] eqn:Hn; [done|]. destruct Hhead as (H91 & H42 & H46 & _). destruct Hlast as (H93 & Hdot & _). cbn in H91, H42, H46.
  assert (no_proxy_host (c :: name) = (c :: name, None)) as Hhost.
  { unfold no_proxy_host. destruct (Z.eqb_spec c 91) as [->|_]; [done|]. by rewrite last_index_absent. }
  rewrite Hhost in Hm. cbn [from_option] in Hm.
  assert (normalizeHostname toLowerCase (c :: name) = c :: name) as Hnorm.
  { unfold normalizeHostname, strip_brackets. rewrite Hlower. destruct (Z.eqb_spec c 91) as [->|_]; [done|]. unfold strip_last.
    by rewrite !bool_decide_eq_false_2 by (rewrite ?bool_decide_eq_false_2 by done; done). }
  rewrite Hnorm in Hm. destruct (bool_decide_reflect (c :: name = host)) as [|Hneq]; [done|].
  destruct (Z.eqb_spec c 42) as [->|_]; [done|]. destruct (Z.eqb_spec c 46) as [->|_]; [done|]. cbn [andb] in Hm.
  unfold ends_with in Hm. apply bool_decide_eq_false in Hm. intros [->|[sub ->]]; [done|]. apply Hm. by exists sub.
Qed.

Lemma shouldTrustEnvProxy_trusted options url :
  shouldTrustEnvProxy toLowerCase env proxyStore configuredProxy parse_url url (trustEnvProxy options) = Ok true →
  proxy_trusted options url (normalizeHostname toLowerCase (hostname url)).
Proof.
  unfold shouldTrustEnvProxy, proxy_trusted, hasScopedProxyDecision, getActiveProxy. destruct (trustEnvProxy options); [|done]. cbn [negb orb].
  destruct (bool_decide_reflect (getProxyForProtocol env parse_url (protocol url) = None)) as [|Hproxy]; [done|].
  destruct proxyStore as [scoped|]; [done|]. cbn. destruct configuredProxy as [active|]; cbn; [|done].
  match goal with |- context [negb ?a && negb ?b] => destruct (negb a && negb b) eqn:Hactive; [done|] end. intros Hm. injection Hm as Hm. apply negb_true_iff in Hm.
  split_and!; [done|done|by apply getProxyForProtocol_named| |].
  - exists active. split; [done|]. apply andb_false_iff in Hactive as [Ha%negb_false_iff|Ha%negb_false_iff]; [left|by right].
    by apply bool_decide_eq_true in Ha.
  - eexists. split; [apply first_no_proxy|]. intros entry Hin. apply (hostnameMatchesNoProxy_plain _
      (if bool_decide (port url = []) then if decide (protocol url = js "https:") then js "443" else js "80" else port url)).
    apply not_true_iff_false. intros Hmatch. rewrite <- not_true_iff_false in Hm. apply Hm. apply existsb_exists. exists entry.
    split; [by apply list_elem_of_In|done].
Qed.

(** ** URLs *)

Definition loopback_ranges : list jsstring := js <$> ["127.0.0.0/8"; "::1"; "::ffff:127.0.0.0/104"]%string.

(** What it takes for a URL to be requested, given the answers of DNS.  A host that an
    environment proxy resolves is requested whatever its addresses, and [localhost], where
    it is allowed, whatever the policy. *)
Definition target_ok (lookup : jsstring → option (list jsstring)) (options : ValidationOptions) (url : URL) : Prop :=
  ∃ host, bare_host (hostname url) host ∧ http_or_https (protocol url) ∧ host ≠ []
  ∧ (host = js "localhost" ∧ allowLoopback options = true
     ∨ host ≠ js "localhost" ∧ (¬ ∃ sub, host = sub ++ js ".localhost") ∧ policy_ok (domainPolicy options) host
       ∧ let ranges := default [] (allowRanges options) in
         (isIP host ≠ 0 ∧ fetchable (ranges ++ (if allowLoopback options then loopback_ranges else [])) host
          ∨ isIP host = 0
            ∧ (proxy_trusted options url host
               ∨ ∃ addresses, lookup host = Some addresses ∧ addresses ≠ [] ∧ Forall (fetchable ranges) addresses))).

Lemma validateRemoteUrl_ok lookup options url url' :
  validateRemoteUrl isIP toLowerCase env proxyStore configuredProxy parse_url lookup options url = Ok url' →
  url' = url ∧ target_ok lookup options url.
Proof.
  unfold validateRemoteUrl, target_ok. destruct (is_http url) eqn:Hhttp; cbn [negb]; [|done]. apply is_http_iff in Hhttp.
  pose proof (normalizeHostname_bare (hostname url)) as Hbare. pose proof (shouldTrustEnvProxy_trusted options url) as Htrust.
  set (host := normalizeHostname toLowerCase (hostname url)) in *.
  destruct (bool_decide_reflect (host = [])) as [|Hne]; [done|].
  destruct (bool_decide_reflect (host = js "localhost")) as [Hl|Hl].
  { destruct (allowLoopback options); [|done]. intros [= <-]. split; [done|]. exists host. auto 10. }
  destruct (ends_with host (js ".localhost")) eqn:Hends; [done|]. unfold ends_with in Hends. apply bool_decide_eq_false in Hends.
  remember (parseAllowRanges isIP (Some LOOPBACK_ALLOW_RANGES)) as loops eqn:Eloops. symmetry in Eloops.
  destruct (parseAllowRanges isIP (allowRanges options)) as [rules|] eqn:Er; cbn [mbind result_bind]; [|done].
  apply parseAllowRanges_parsed in Er as Hrules. set (ranges := default [] (allowRanges options)) in *.
  destruct (assertDomainPolicy host (domainPolicy options)) as [[]|] eqn:Ep; cbn [mbind result_bind]; [|done].
  apply assertDomainPolicy_iff in Ep.
  match goal with |- _ → _ ∧ ∃ host, _ ∧ _ ∧ _ ∧ (_ ∨ _ ∧ _ ∧ _ ∧ @?P host) => assert (P host → url = url ∧ ∃ host, bare_host (hostname url) host
     ∧ http_or_https (protocol url) ∧ host ≠ [] ∧ (host = js "localhost" ∧ allowLoopback options = true
     ∨ host ≠ js "localhost" ∧ (¬ ∃ sub, host = sub ++ js ".localhost") ∧ policy_ok (domainPolicy options) host ∧ P host)) as Hwrap by eauto 12 end.
  cbn beta in Hwrap. destruct (Z.eqb_spec (isIP host) 0) as [H0|H0]; cbn [negb].
  - destruct (shouldTrustEnvProxy _ _ _ _ _ _ _) as [[]|] eqn:Et; cbn [mbind result_bind]; [| |done].
    + intros [= <-]. apply Hwrap. right. split; [done|]. left. by apply Htrust.
    + destruct (lookup host) as [[|a addresses]|] eqn:El; [done| |done].
      destruct (assert_all isIP toLowerCase (a :: addresses) host rules) as [[]|] eqn:Ea; [|done].
      intros [= <-]. eapply assert_all_fetchable in Ea; [|exact Hrules]. apply Hwrap. right. split; [done|]. right. by exists (a :: addresses).
  - destruct (allowLoopback options).
    + destruct loops as [loop|]; cbn [mbind result_bind]; [|done]. apply parseAllowRanges_parsed in Eloops.
      destruct (assertPublicAddress _ _ _ _ _) as [[]|] eqn:Ea; cbn; [|done]. intros [= <-]. apply Hwrap. left. split; [done|].
      eapply assertPublicAddress_fetchable; [|exact Ea]. by apply Forall2_app.
    + cbn [mbind result_bind]. destruct (assertPublicAddress _ _ _ _ _) as [[]|] eqn:Ea; cbn; [|done]. intros [= <-]. apply Hwrap. left. split; [done|].
      rewrite app_nil_r. by eapply assertPublicAddress_fetchable.
Qed.

(** ** Fetches *)

Context (toUpperCase : jsstring → jsstring).
Context (lookup : nat → jsstring → option (list jsstring)) (fetchImpl : nat → URL → RequestInit → option Response).
Context (onRedirect : option (URL → URL → RequestInit → Response → RequestInit)).

Abbreviation fetch_loop' :=
  (fetch_loop isIP toLowerCase env proxyStore configuredProxy parse_url resolve_url toUpperCase lookup fetchImpl onRedirect).

(** A response that asks to be followed. *)
Definition is_redirect (response : Response) : Prop :=
  status response ∈ REDIRECT_STATUSES ∧ ∃ c s, location response = Some (c :: s).

(** What a run of the loop leaves behind, from its [k]-th request on. *)
Definition run_ok (k remaining : nat) (options : ValidationOptions)
    (made : list (URL * RequestInit)) (r : result ssrf_error Response) : Prop :=
  (length made ≤ S remaining)%nat
  ∧ (∀ i url init, made !! i = Some (url, init) → target_ok (lookup (k + i)) options url)
  ∧ (∀ i url init, made !! i = Some (url, init) → (S i < length made)%nat →
       ∃ response, fetchImpl (k + i) url init = Some response ∧ is_redirect response)
  ∧ (∀ response, r = Ok response → ∃ i url init, S i = length made ∧ made !! i = Some (url, init)
       ∧ fetchImpl (k + i) url init = Some response ∧ ¬ is_redirect response).

Lemma run_stop k remaining options url init r :
  target_ok (lookup k) options url →
  (∀ response, r = Ok response → fetchImpl k url init = Some response ∧ ¬ is_redirect response) →
  run_ok k remaining options [(url, init)] r.
Proof.
  intros Hok Hr. split_and!; [cbn; lia| | |].
  - intros [|i] ? ? Hi; [|done]. injection Hi as <- <-. by rewrite Nat.add_0_r.
  - cbn. lia.
  - intros response [? ?]%Hr. exists O, url, init. rewrite Nat.add_0_r. done.
Qed.

Lemma run_next k remaining options url init response made r :
  target_ok (lookup k) options url → made ≠ [] →
  fetchImpl k url init = Some response → is_redirect response →
  run_ok (S k) remaining options made r → run_ok k (S remaining) options ((url, init) :: made) r.
Proof.
  intros Hok Hne Hf Hred (Hlen & Hmade & Hmid & Hr). split_and!; [cbn; lia| | |].
  - intros [|i] ? ? Hi; [injection Hi as <- <-; by rewrite Nat.add_0_r|].
    rewrite Nat.add_succ_r. by eapply Hmade.
  - intros [|i] ? ? Hi; cbn [length]; intros Hlt; [injection Hi as <- <-; rewrite Nat.add_0_r; eauto|].
    rewrite Nat.add_succ_r. eapply Hmid; [exact Hi|lia].
  - intros res (i & u & ini & Hi & Hl & Hres)%Hr. exists (S i), u, ini. rewrite Nat.add_succ_r. cbn. auto.
Qed.

Lemma fetch_loop_made remaining redirects options current init :
  (fetch_loop' remaining redirects options current init).1 ≠ [].
Proof. destruct remaining; cbn; repeat case_match; done. Qed.

Lemma fetch_loop_ok remaining redirects options current init :
  target_ok (lookup redirects) options current →
  run_ok redirects remaining options (fetch_loop' remaining redirects options current init).1
    (fetch_loop' remaining redirects options current init).2.
Proof.
  revert redirects current init. induction remaining as [|remaining IH]; intros redirects current init Hok; cbn [fetch_loop].
  all: destruct (fetchImpl redirects current init) as [response|] eqn:Hf; [|by apply run_stop].
  all: destruct (bool_decide_reflect (status response ∈ REDIRECT_STATUSES)) as [Hs|Hs]; cbn [negb];
    [|by apply run_stop; [|intros ? [= <-]; split; [|intros [? _]]]].
  all: destruct (location response) as [[|c loc]|] eqn:Hl;
    [by apply run_stop; [|intros ? [= <-]; split; [|intros (_ & ? & ? & ?); congruence]]|
    |by apply run_stop; [|intros ? [= <-]; split; [|intros (_ & ? & ? & ?); congruence]]].
  - by apply run_stop.
  - destruct (resolve_url (c :: loc) current) as [next|]; [|by apply run_stop].
    destruct (validateRemoteUrl _ _ _ _ _ _ _ _ next) as [next'|e] eqn:Hv; [|by apply run_stop].
    apply validateRemoteUrl_ok in Hv as [-> Hnext].
    match goal with |- context [fetch_loop' remaining (S redirects) options next ?i] => set (init' := i) end.
    pose proof (fetch_loop_made remaining (S redirects) options next init') as Hne.
    specialize (IH (S redirects) next init' Hnext).
    destruct (fetch_loop' remaining (S redirects) options next init') as [made r]. cbn in *.
    eapply run_next; [done|done|exact Hf| |done]. split; [done|eauto].
Qed.

(** C39: however a server redirects it, a fetch requests only http(s) URLs whose host is
    under no denied domain and under an allowed one, if there are any, and every address of
    which (the answers of DNS at that hop included) is, by its notation, outside the blocked
    ranges or in one the caller allowed.  The addresses of a host that a trusted environment
    proxy resolves are not looked at, and where loopback is allowed [localhost] is requested
    whatever the policy.  There is at most one request more than the redirects it was given;
    only responses that redirect are followed, and the response returned is that of the last
    request and asks for no further redirect. *)
Theorem fetchRemoteUrl_safe maxRedirects options url init :
  let (made, r) := fetchRemoteUrl isIP toLowerCase env proxyStore configuredProxy parse_url resolve_url toUpperCase
                     lookup fetchImpl onRedirect maxRedirects options url init in
  zlen made ≤ Z.max 0 (default DEFAULT_MAX_REDIRECTS maxRedirects + 1)
  ∧ (∀ i u ini, made !! i = Some (u, ini) → target_ok (lookup i) options u)
  ∧ (∀ i u ini, made !! i = Some (u, ini) → (S i < length made)%nat →
       ∃ response, fetchImpl i u ini = Some response ∧ is_redirect response)
  ∧ (∀ response, r = Ok response → ∃ i u ini, S i = length made ∧ made !! i = Some (u, ini)
       ∧ fetchImpl i u ini = Some response ∧ ¬ is_redirect response).
Proof.
  unfold fetchRemoteUrl. set (n := default DEFAULT_MAX_REDIRECTS maxRedirects).
  destruct (validateRemoteUrl _ _ _ _ _ _ _ _ url) as [current|e] eqn:Hv; [|split_and!; [unfold zlen; cbn [length]; lia|done..]].
  apply validateRemoteUrl_ok in Hv as [-> Hok].
  destruct (Z.ltb_spec n 0) as [Hn|Hn]; [split_and!; [unfold zlen; cbn [length]; lia|done..]|].
  pose proof (fetch_loop_ok (Z.to_nat n) 0 options url init Hok) as (Hlen & Hrest).
  destruct (fetch_loop' (Z.to_nat n) 0 options url init) as [made r]. cbn [fst snd] in *.
  split; [unfold zlen; lia|exact Hrest].
Qed.
End Ssrf.

(** ** A redirect into the private network *)

Definition demo_isIP (s : jsstring) : Z :=
  if decide (58 ∈ s) then 6 else if octets s then 4 else 0.

Definition demo_lookup (host : jsstring) : option (list jsstring) :=
  if decide (host = js "a.test") then Some [js "93.184.216.34"]
  else if decide (host = js "b.test") then Some [js "93.184.216.35"; js "10.0.0.1"]
  else None.

Definition demo_url (name : jsstring) : URL := MkUrl (js "https:") name [] name.

(** [a.test] redirects to the location [target]. *)
Definition demo_fetch (target : jsstring) (url : URL) : option Response :=
  Some (if decide (hostname url = js "a.test") then MkResponse 302 (Some target) else MkResponse 200 None).

Definition demo_run (target : jsstring) : list (URL * RequestInit) * result ssrf_error Response :=
  fetchRemoteUrl demo_isIP id (λ _, None) None (Ok None) (λ s, Some (demo_url s)) (λ s _, Some (demo_url s)) id
    (λ _, demo_lookup) (λ _ url _, demo_fetch target url) None None
    (MkValidationOptions None None false false) (demo_url (js "a.test")) (MkRequest None false []).

Lemma demo_isIP_answers s : demo_isIP s = 0 ∨ demo_isIP s = 4 ∨ demo_isIP s = 6.
Proof. unfold demo_isIP. repeat case_match; auto. Qed.

(** The public target is requested, the private one is not. *)
(** Entries of [NO_PROXY]: a domain covers its subdomains and nothing that only ends
    like it; the port of an entry is compared, but not after a bracketed address. *)
Example no_proxy_entries :
  hostnameMatchesNoProxy id (js "api.example.com") (js "443") (js " example.com ") = true
  ∧ hostnameMatchesNoProxy id (js "badexample.com") (js "443") (js "example.com") = false
  ∧ hostnameMatchesNoProxy id (js "api.example.com") (js "443") (js "*.example.com:8443") = false
  ∧ hostnameMatchesNoProxy id (js "::1") (js "443") (js "[::1]:8443") = true
  ∧ noProxyEntryMatches id (js "api.example.com") (js ".example.com") = true
  ∧ noProxyEntryMatches id (js "badexample.com") (js "example.com") = false.
Proof. vm_compute. done. Qed.

Example demo_public :
  demo_run (js "93.184.216.35")
  = ([(demo_url (js "a.test"), MkRequest None false []); (demo_url (js "93.184.216.35"), MkRequest None false [])],
     Ok (MkResponse 200 None)).
Proof. vm_compute. reflexivity. Qed.

Example demo_private :
  demo_run (js "b.test")
  = ([(demo_url (js "a.test"), MkRequest None false [])], Err (BlockedAddress (js "b.test") (js "10.0.0.1"))).
Proof. vm_compute. reflexivity. Qed.

Lemma fetchRemoteUrl_safe_witness :
  (∀ s, demo_isIP s = 0 ∨ demo_isIP s = 4 ∨ demo_isIP s = 6)
  ∧ let (made, r) := demo_run (js "b.test") in
    zlen made ≤ 6
    ∧ (∀ i u ini, made !! i = Some (u, ini) →
         target_ok demo_isIP id (λ _, None) None (Ok None) (λ s, Some (demo_url s)) demo_lookup
           (MkValidationOptions None None false false) u).
Proof.
  split; [exact demo_isIP_answers|].
  pose proof (fetchRemoteUrl_safe demo_isIP id (λ _, None) None (Ok None) (λ s, Some (demo_url s))
    (λ s _, Some (demo_url s)) demo_isIP_answers id (λ _, demo_lookup) (λ _ url _, demo_fetch (js "b.test") url) None None
    (MkValidationOptions None None false false) (demo_url (js "a.test")) (MkRequest None false [])) as H.
  change (fetchRemoteUrl _ _ _ _ _ _ _ _ _ _ _ _ _ _ _) with (demo_run (js "b.test")) in H.
  destruct (demo_run (js "b.test")) as [made r]. destruct H as (Hlen & Hok & _). split; [exact Hlen|exact Hok].
Defined.
